(* ===== verification/_CoqProject ===== *)
-Q . S2P
Prelude.v
GoLib.v
GoTime.v
Value.v
Heap.v
StateTypes.v
Order.v
Fnmatch.v
Signature.v
States.v
Runner.v
RunTurns.v
Requisite.v
HighState.v
LowState.v
PathMatch.v
Compile.v
Apply.v
Job.v
SignedReplay.v
JobSign.v
Target.v
TargetGroups.v
NodeJobs.v
Cron.v
Schedule.v
Top.v
Policy.v
JobCache.v
HubJobs.v
YamlScalar.v
YamlParse.v
YamlEncode.v
YamlText.v
YamlRound.v
YamlTotal.v
Pillar.v
PillarTrust.v
PillarTop.v
PillarMerge.v
EventBus.v
EventLog.v
EventResume.v
BeaconQueue.v
Redact.v
RedactText.v
RedactURL.v
RedactSet.v
RedactMask.v
Json.v
JsonText.v
JsonRound.v
HubFleet.v
HubFleetSafe.v
HubReturn.v
TemplateLex.v
TemplateLexSafe.v
TemplateParse.v
TemplateGrammar.v
TemplateParseSafe.v
TemplateParseEnd.v
RelaySpool.v
Relay.v
RelayRun.v
RelaySafe.v
RelayAccount.v
