(* ===== verification/Prelude.v ===== *)
(** * halite: a verification development

    halite applies a declared system state to a machine, in the manner of
    Salt.  A node reads SLS files, renders them to YAML values, compiles the
    declarations they hold into an ordered list of low chunks, and runs the
    chunks one by one, each by a state function that checks or changes the
    system.  A job reaches the node from a hub, as a message that a signature
    may have to cover, or from the node's own schedule; which nodes a job or a
    line of the top file is for is a target expression.  This library models
    those paths in the packages below src/internal and in cmd/halite-node: from
    the submission on the hub to the message, from the message to the queue,
    from the clock to the run, from the text of a document to the value it is,
    from the rendered document to the return code of a job, and proves what a
    user of a state tree and an operator of a fleet rely on.

    ** The parts and the files

    - [Prelude]: the monads (a writer of diagnostics, code over a world that
      may panic), tactics, the hint database [total], lemmas on lists.
    - [GoLib]: what the code uses of Go and its standard library: UTF-8,
      strings, strconv, 64-bit wrap-around, float64, quoting.  The class
      [GoRuntime] holds the few functions that are parameters: the text and the
      type name of an arbitrary value, the grammars of time.ParseDuration and
      strconv.ParseFloat, unicode.IsPrint.
      Every result holds for any choice of them; [demo_runtime] is one.
    - [Value] (value/value.go, merge.go, duration.go): values, and the ordered
      mapping as the list of entries beside the index by canonical key that the
      source keeps; [SetAt], [Delete], [Merge], [Traverse], [ParseDuration].
    - [Heap], [Order] (state/order.go): the ordering of chunks, [order]: the
      constraint graph, Kahn's algorithm on the binary heap, the stable sort of
      what a cycle leaves, [reportCycle], the remapping of requisites.
    - [StateTypes] (state/diag.go, types of lowstate.go and requisite.go): the
      diagnostics monad [DW], [Chunk], [Req], and the class [RunOrdered], which
      is what the compiler promises to the runner.
    - [Fnmatch] (fnmatch/fnmatch.go): globs by translation to a regular
      expression, with the cache of compiled patterns.
    - [Signature] (signature/signature.go, platform.go): parameters, coercion
      and [Bind].  [States] (states/states.go): results and the registry.
    - [Runner] (runner/runner.go, util.go, the summary of schema.go): [Run] and
      everything it calls: requisites, gates, prereq, retry, check_cmd,
      failhard, seeding, listeners.  State functions, commands, clock, random
      source, tracing and progress act on a world of any type.  [RunTurns]: what
      each turn of a run does to that world.
    - [Requisite] (state/requisite.go): requisite references parsed, indexed
      and resolved, and [applyUse].
    - [HighState] (state/highstate.go, slsname.go): documents into
      declarations; the high state and its index; names of SLS files, with the
      files they stand for (fileserver/roots.go).
    - [LowState] (state/lowstate.go): a declaration into chunks.
    - [PathMatch]: path.Match of the standard library, for the allowlists.
    - [Compile] (state/compile.go): loading with includes, extend, exclude,
      inverse requisites, validation, and the stages put together.  The file
      server ([Source]) and the renderer ([Render]) are fields of [Compiler].
    - [Apply] (state/jobfunctions.go, cmd/halite-node/execute.go): a state job:
      compile, refuse or show or run, return code.
    - [GoTime]: package time: calendar dates, durations, the layouts the code
      reads and writes.
    - [Job] (job/job.go, guard.go, model.go): the job record, identifiers and
      the clock that assigns them, the in-memory replay cache.
      [SignedReplay] (job/signedreplay.go): the record of signed jobs, as the
      file and what the process keeps of it, over what the system answers to
      each read, write and sync.  [JobSign] (jobsign/jobsign.go): the bytes a
      signature covers, [Sign] and [Verify] over an abstract scheme.
    - [Target] (target/target.go, compound.go): target expressions: tokens,
      the parser, nodegroups, leaves, and evaluation on a node.  [TargetGroups]:
      what a target means, written without the compiler.
    - [NodeJobs] (cmd/halite-node/jobsignature.go, the executor of execute.go,
      acceptJob of enroll.go): from a message of the hub to the queue.
    - [Cron] (schedule/cron.go): expressions, and the next time in a zone.
      [Schedule] (schedule/schedule.go, engine.go, control.go): the next time
      of a job, and the engine with its due times and slots.
    - [Top] (state/top.go): which SLS files a highstate gives a node.
    - [Policy] (policy/policy.go, argfamily.go, pillar.go, runnerscope.go): the
      rules, their reading, and the decision on a request.
    - [JobCache] (job/cache.go): the jobs and returns the hub keeps.  [HubJobs]
      (hub/dispatch.go, batch.go, queue.go, delegation.go, jobs.go): resolving a
      target, signing and sending a job, its batches and its queue.
    - [YamlScalar], [YamlParse] (yaml/parse.go, scalar.go, scalars.go, block.go,
      collection.go, flow.go): the YAML parser, as code over the state of the
      reader that may stop with an error.  [YamlEncode] (yaml/encode.go): the
      encoder.  [YamlText], [YamlRound]: what is written is read back.
      [YamlTotal]: the parser ends and builds well-formed values.
    - [Pillar] (pillar/pillar.go, ext.go): a node's pillar: the top files, the
      check on targets, the files and external sources merged, the audit.
      [PillarTrust], [PillarTop], [PillarMerge]: its theorems.
    - [EventBus] (eventbus/bus.go, event.go, nodeof.go): the log of events as a
      directory of segments.  [EventLog], [EventResume]: the log as a list, and
      what a subscriber is given of it.
    - [BeaconQueue] (beacon/queue.go, offer and forward of engine.go): the queue
      between the beacons of a node and its hub.
    - [Redact] (redact/redact.go): the secrets a process knows, and the scrubbing
      of texts, values and returns.  [RedactText]: the spans of a text against
      its bytes.  [RedactURL]: credentials in URLs.  [RedactSet]: the set of
      secrets and what it removes.  [RedactMask]: values and returns.
    - [Json] (value/json.go): reading JSON from the tokens of encoding/json, and
      writing it.  [JsonText], [JsonRound]: what is written is read back.
    - [HubFleet] (hub/fleet.go, relay.go, of nodes.go and subscribe.go what they
      use): the streams of nodes and relays, and the routes to relayed nodes.
      [HubFleetSafe]: its steps and what they keep.  [HubReturn]
      (hub/returnscrub.go, the handler of returns in hub/jobs.go, the scrubbing
      of runner/schema.go): who may file a return, and what is stored of it.
    - [TemplateLex] (template/lex.go): the text of a template into tokens.
      [TemplateLexSafe]: what the tokens are, the cache of delimiters, literals.
      [TemplateParse] (template/ast.go, depth.go, parse.go, parse_expr.go, Parse
      of env.go): tokens into the tree.  [TemplateGrammar]: the grammar of
      expressions that parse_expr.go documents, as a relation between tokens and
      trees.  [TemplateParseSafe]: each rule of the parser reads a phrase of its
      rule of the grammar.  [TemplateParseEnd]: parsing ends within its bounds.
    - [RelaySpool] (relay/spool.go): the returns a relay holds for its upstream,
      as a directory and what the process keeps of it.  [Relay] (relay/relay.go,
      metrics.go): jobs on their way down, returns and events on their way up.
      [RelayRun]: the goroutines of a relay as a machine whose actions interleave
      as the locks let them.  [RelaySafe], [RelayAccount]: their theorems.

    A definition has the name of the function it translates, or of the method
    with the type's name or a letter in front ([hs_add], [reg_Add], [sig_Add])
    where that is taken; a loop of the source is a Fixpoint or a fold with a
    name of its own.  Values are immutable here: the source copies a value
    (value.Deep) wherever two owners could see a change, at YAML aliases, at
    the expansion of names and at use; where it shares a declaration by pointer
    and changes it in place, the model changes the element at its position.

    ** What the theorems show

    - Ordering: the result is a permutation that honours every requisite; it
      fails exactly on a cycle, which it names; the heap is equivalent to the
      scan it replaced; without constraints declaration order is kept.
    - Compiling: it ends, whatever the includes; only canonical, allowed files
      contribute; IDs are unique; nothing is lost or invented between
      declarations and low state; arguments of the runner never reach a
      module; names expand in order; exclude, use and the inverse requisites
      do what they say;
      resolution through the indexes agrees with a scan of the chunks; a
      compilation without errors satisfies [RunOrdered].
    - Running: no panic, one result for each chunk in order; requisites decide
      on the final results of their targets whether a state is executed, and
      the world is changed by nothing else; behind a failhard nothing is
      executed; retry is bounded;
      test mode and prereq depend only on what functions do in test mode;
      summary and return code agree with the results.
    - Jobs: a job that needs a signature is queued only if a trusted key signed
      one that says the same (or the hash collides), for this node and for a bounded time, and at most once in the
      life of the node, across restarts and failing disks; canonical bytes say
      one thing, whole numbers compared by value; identifiers never repeat; cancelling drops one job only.
    - Targets: compiling ends; what compiles means what the grammar of the
      documentation says, a nodegroup being a unit wherever its text is tidy;
      every phrase of the grammar compiles.
    - Schedules: in UTC the next time is the first match (from a time that does
      not match itself), in any zone it is one
      the expression names; bounds, ranges and splay are kept; a tick runs what
      is due; no more than maxrunning runs are in flight.
    - The top file: a node is given exactly the names listed under the targets
      that match it, under each merging strategy but where the documents and the
      code disagree on merge.
    - Authorization: what is allowed is allowed by one rule that covers the
      principal, the function, the target, the arguments and the environment; the
      rule that allows code or pillar names the function; allow_sls holds the
      names a job asks for.
    - The hub: a submitted job reaches only nodes its caller was granted; what
      a node verifies is what was signed, through JSON; a batch sends to each node
      at most once, in slices, within its limits; a queued job is delivered once,
      and again only where its record could not be written; a return is filed once and only
      from those asked; pruning keeps the newest.
    - Pillar: a target that passes the check reads nothing but the identity of
      a node, its trusted grains and what the hub says of it; a file is
      delivered exactly when an entry that counts lists it, and the audit says
      so; files are merged once, after what they include; a source that fails
      is reported; compiling ends.
    - Events: while the disk takes every write and the clock does not go back, a
      subscriber that resumes from an offset misses nothing or is told that it
      lags; a glob of tags means what it says; every event of a beacon
      is sent, waiting or lost with a report.
    - Secrets: a string of a pillar of six bytes or more, without an asterisk, is
      not in a text that was scrubbed; scrubbing changes nothing but the spans it
      finds; the lines of a text keep
      their number; credentials of a URL are gone; a masked return holds no
      secret, and a return without one is unchanged.
    - Fleet: a route to a relayed node leads to a relay whose configuration
      lists the node; a message takes the stream of its node or that route; a
      return is filed only by its node or by the relay that may speak for it, and
      with the secrets of the job masked.
    - Relays: each return handed to a relay for a job of its upstream is accepted,
      on its way, in the spool, or lost in a way that is counted or named; a drain
      ends and delivers oldest first; names of spooled returns do not repeat and
      are in the order of the clock; a change of the fleet is seen.
    - JSON: on any input the decoder returns; a value that is written reads back
      as itself, compact or indented.
    - YAML: on any input the parser returns, reads nothing past the end, and
      builds mappings that are well formed; a value that is written in block
      style reads back as itself, but for the values [storable] leaves out.  The lemmas
      at the end of [YamlRound] say which values do not.
    - Templates: lexing and parsing end on any text, without an index out of
      range; each token stands where its position says; the cache of delimiters
      changes nothing and makes the searches linear; a quoted text reads back;
      an expression is read as the documented grammar says, where it has only what
      that grammar has; the tree keeps the
      bounds on nesting and height, and break stands in a loop.
    - End to end: a job with any compile error changes nothing; otherwise it
      runs to the end, and no turn executes what its requisites hold back.
    - Below: the mapping is a mapping and keeps its order, merging is keywise,
      globs mean what fnmatch says, the pattern cache is transparent, a call
      that binds without an error is honoured in full, registration never overwrites.

    ** Bounds and fuel

    [loadSLS] recurses on fuel; one more than the number of SLS files is
    enough, and more changes nothing ([Compile.compile_terminates]); the same
    holds of [Pillar.mergeSLS] ([PillarMerge.pillar_terminates]).
    [mergeValue] stops at the source's own bound of 10000 levels, which the
    theorem keeps as a hypothesis.  The heap, the drain of the ready set and
    the search for a cycle use the lengths of their lists, for which they are
    proved enough.  The parser of targets has fuel in proportion to its tokens,
    shown enough by [compile_total]; nodegroups nest no deeper than the
    source's own ten levels.  The search of [Cron.Next] and of [Schedule.Next]
    is bounded as in the source; the loop that fills a cron field has fuel for
    every turn it can take ([parse_cron_total]).  The nesting of the YAML
    parser recurses on the levels its own MaxDepth leaves; each of its loops has
    one turn more than there are characters to read, and running out of turns is
    an error of the model that [YamlTotal.yaml_parse_total] excludes.  The
    decoder of JSON has fuel for two calls a byte and one more, shown enough by
    [JsonRound.decoding_ends]; the searches of [Redact] have one turn more than
    the text has bytes, and [unused_go] of [HubReturn] one for each key of the
    mapping, which [unused_key_is_unused] shows enough.  The
    loops of the template lexer have one turn more than the source has bytes,
    those of its parser one for each token; expressions recurse on the levels
    maxExprDepth leaves and statements on those of MaxDepth; running out is an
    error of the model that [TemplateLexSafe.lexing_ends] and
    [TemplateParseEnd.template_parsing_ends] exclude.  The
    drain of a relay has as many turns as it is given, and one more than there are
    entries is enough ([RelaySafe.drain_delivers_in_order]).  Integers
    of the source that can overflow (durations, intervals, numbers of YAML) wrap
    at 64 bits.

    ** What is not modelled, and what comes next

    The evaluation of templates, their filters and loaders, the renderer, the
    built-in modules, the API of the hub and the transports, keys and directories, the file servers beyond the
    candidates of a name, extensions, command line and logging: they are input
    and output, or programs of their own.  Rate limits count in float64 against
    the monotonic clock.  Of the hub, the reading of HTTP requests, the
    comparison of streams with the key store, the reactor and orchestration are
    left out; of a relay, the loop of its reconnections.  The regular expressions of
    targets (internal/regexcompat), addresses (net/netip), signatures, hashes,
    base64, the layouts of YAML timestamps, the JSON of events, external pillar
    sources and the file system are parameters.  Also not modelled, in the order
    in which they would be: the reading of schedule
    definitions, the reactor of the hub, the evaluation of templates. 
*)

From Stdlib Require Export ZArith Lia Ascii String.
From stdpp Require Export prelude gmap strings list sorting pretty.

Open Scope Z_scope.

(** ** A writer monad for diagnostics

    The compiler threads a [*Diags] through every stage and only ever
    appends to it.  A stage is modelled as a value paired with the
    diagnostics it appended; binding concatenates. *)

Module Writer.
Section writer.
Context {D : Type}.

Definition W (A : Type) : Type := A * list D.

#[global] Instance W_ret : MRet W := λ A x, (x, []).
#[global] Instance W_bind : MBind W := λ A B f m,
  ((f m.1).1, m.2 ++ (f m.1).2).
End writer.
End Writer.

(** ** A state monad for code that acts on the world

    [T A] is an operation on a world of type [S] that always returns; [M A] is
    code that may also panic, on an index out of range. *)

Module World.
Section world.
Context {S : Type}.

Definition T (A : Type) : Type := S → A * S.
Definition M (A : Type) : Type := S → option (A * S).

#[global] Instance M_ret : MRet M := λ A x w, Some (x, w).
#[global] Instance M_bind : MBind M := λ A B f m w,
  match m w with Some (x, w') => f x w' | None => None end.

Definition panic {A} : M A := λ _, None.
Definition lift {A} (t : T A) : M A := λ w, Some (t w).
Definition index {A} (l : list A) (i : nat) : M A :=
  match l !! i with Some x => mret x | None => panic end.

Lemma bind_ret {A B} (x : A) (f : A → M B) w : (mret x ≫= f) w = f x w.
Proof. done. Qed.
Lemma bind_Some {A B} (m : M A) (f : A → M B) w y w2 :
  (m ≫= f) w = Some (y, w2) ↔ ∃ x w1, m w = Some (x, w1) ∧ f x w1 = Some (y, w2).
Proof.
  unfold mbind, M_bind. destruct (m w) as [[x w1]|].
  - split; [by eauto|]. intros (? & ? & ? & ?). by simplify_eq.
  - split; [done|]. by intros (? & ? & ? & ?).
Qed.
Lemma bind_lift {A B} (t : T A) (f : A → M B) w : (lift t ≫= f) w = f (t w).1 (t w).2.
Proof. unfold mbind, M_bind, lift. by destruct (t w). Qed.

Lemma ret_Some {A} (x y : A) (w w' : S) : (mret x : M A) w = Some (y, w') ↔ y = x ∧ w' = w.
Proof. unfold mret, M_ret. naive_solver. Qed.
Lemma lift_Some {A} (t : T A) y w w' : lift t w = Some (y, w') ↔ y = (t w).1 ∧ w' = (t w).2.
Proof. unfold lift. destruct (t w). naive_solver. Qed.

(** Code that does not panic, from any world. *)
Definition total {A} (m : M A) : Prop := ∀ w, is_Some (m w).
Lemma total_ret {A} (x : A) : total (mret x).
Proof. by intros w; eexists. Qed.
Lemma total_lift {A} (t : T A) : total (lift t).
Proof. by intros w; eexists. Qed.
Lemma total_bind {A B} (m : M A) (f : A → M B) :
  total m → (∀ x, total (f x)) → total (m ≫= f).
Proof.
  intros Hm Hf w. destruct (Hm w) as [[x w1] E]. unfold mbind, M_bind. rewrite E. apply Hf.
Qed.
Lemma total_index {A} (l : list A) i : (i < length l)%nat → total (index l i).
Proof.
  intros Hi w. unfold index. destruct (lookup_lt_is_Some_2 l i Hi) as [x ->]. by eexists.
Qed.
End world.
Arguments T : clear implicits.
Arguments M : clear implicits.
End World.

(** Take a run of monadic code that returned apart. *)
Ltac inv_M H :=
  repeat match type of H with
  | (_ ≫= _) _ = Some _ => apply World.bind_Some in H as (? & ? & ? & H)
  | mret _ _ = Some _ => apply World.ret_Some in H as [? ?]; subst
  | World.lift _ _ = Some _ => apply World.lift_Some in H as [? ?]; subst
  end.

Create HintDb total.
#[export] Hint Resolve World.total_ret World.total_lift World.total_index : total.
#[export] Hint Extern 2 (World.total (_ ≫= _)) => apply World.total_bind; [|intros ?] : total.

(** ** Generic lemmas on lists *)

Lemma foldl_ext_in {A B} (f g : A → B → A) l a :
  (∀ x b, b ∈ l → f x b = g x b) → foldl f a l = foldl g a l.
Proof.
  revert a. induction l as [|b l IH]; intros a Hfg; simpl; [done|].
  rewrite Hfg by apply list_elem_of_here. apply IH. intros. apply Hfg. by apply list_elem_of_further.
Qed.

Lemma foldl_inv {A B} (P : A → Prop) (f : A → B → A) l a :
  P a → (∀ x b, b ∈ l → P x → P (f x b)) → P (foldl f a l).
Proof.
  revert a. induction l as [|b l IH]; intros a Ha Hf; simpl; [done|].
  apply IH; [apply Hf; [left|done]|]. intros x c Hc. apply Hf. by right.
Qed.

Lemma existsb_ext_in {A} (f g : A → bool) l : (∀ x, x ∈ l → f x = g x) → existsb f l = existsb g l.
Proof.
  induction l as [|x l IH]; intros Hfg; simpl; [done|].
  rewrite Hfg by left. f_equal. apply IH. intros. apply Hfg. by right.
Qed.
Lemma forallb_ext_in {A} (f g : A → bool) l : (∀ x, x ∈ l → f x = g x) → forallb f l = forallb g l.
Proof.
  induction l as [|x l IH]; intros Hfg; simpl; [done|].
  rewrite Hfg by left. f_equal. apply IH. intros. apply Hfg. by right.
Qed.

Lemma filter_iff_in {A} (P Q : A → Prop) `{!∀ x, Decision (P x), !∀ x, Decision (Q x)} (l : list A) :
  (∀ x, x ∈ l → P x ↔ Q x) → filter P l = filter Q l.
Proof.
  induction l as [|x l IH]; intros HPQ; [done|].
  rewrite !filter_cons, IH by (intros; apply HPQ; by apply list_elem_of_further).
  pose proof (HPQ x (list_elem_of_here _ _)). repeat case_decide; tauto || done.
Qed.

Lemma StronglySorted_filter_ {A} (R : relation A) (P : A → Prop) `{!∀ x, Decision (P x)} (l : list A) :
  StronglySorted R l → StronglySorted R (filter P l).
Proof.
  induction 1 as [|x l Hl IH Hx]; [constructor|]. rewrite filter_cons. case_decide; [|done].
  constructor; [done|]. rewrite Forall_forall in Hx |- *. intros y [_ Hy]%list_elem_of_filter. auto.
Qed.

(** A boolean test splits a list in two. *)
Lemma length_filter_split {A} (f : A → bool) (l : list A) :
  length l = (length (filter (λ x, f x = true) l) + length (filter (λ x, f x = false) l))%nat.
Proof.
  induction l as [|x l IH]; [done|]. rewrite !filter_cons. destruct (f x); simpl; lia.
Qed.

Lemma filter_none {A} (P : A → Prop) `{!∀ x, Decision (P x)} (l : list A) : (∀ x, x ∈ l → ¬ P x) → filter P l = [].
Proof.
  induction l as [|x l IH]; intros Hl; [done|]. rewrite filter_cons_False by (apply Hl; by left).
  apply IH. intros y Hy. apply Hl. by right.
Qed.

Lemma filter_all {A} (P : A → Prop) `{!∀ x, Decision (P x)} (l : list A) :
  (∀ x, x ∈ l → P x) → filter P l = l.
Proof.
  induction l as [|x l IH]; intros HP; [done|].
  rewrite filter_cons, decide_True by apply HP, list_elem_of_here.
  f_equal. apply IH. intros y Hy. by apply HP, list_elem_of_further.
Qed.

(** Where every element has an image, [omap] keeps positions. *)
Lemma omap_lookup_all {A B} (f : A → option B) (l : list A) i :
  (∀ x, x ∈ l → is_Some (f x)) → omap f l !! i = l !! i ≫= f.
Proof.
  revert i. induction l as [|x l IH]; intros i Hall; [done|].
  destruct (Hall x) as [y Hy]; [apply list_elem_of_here|]. simpl. rewrite Hy.
  destruct i as [|i]; simpl; [by rewrite Hy|]. apply IH. intros z Hz. by apply Hall, list_elem_of_further.
Qed.
