(* ===== verification/GoLib.v ===== *)
(** * The part of Go's standard library the modelled code uses

    Strings are byte sequences ([String.string]); a rune is a [Z].  Each
    definition models one function of package strings, strconv, utf8 or path,
    executable, so that the components built on it evaluate. *)

From Stdlib Require Import SpecFloat.
From S2P Require Import Prelude.

Open Scope Z_scope.

Abbreviation rune := Z (only parsing).

(** ** Bytes and runes *)

Definition byte_of (a : ascii) : Z := Z.of_N (N_of_ascii a).
Definition bytes (s : string) : list Z := byte_of <$> list_ascii_of_string s.

Definition RuneError : rune := 65533.

Definition in_range (lo hi b : Z) : bool := (lo <=? b) && (b <=? hi).

(** utf8.DecodeRune: the rune at the front of a non-empty byte sequence, its
    width, and whether the encoding was valid.  An invalid byte is
    [RuneError] with width one. *)
Definition cont (lo hi : Z) (l : list Z) : option (Z * list Z) :=
  match l with
  | b :: r => if in_range lo hi b then Some (Z.land b 63, r) else None
  | [] => None
  end.

Definition DecodeRune (b0 : Z) (l : list Z) : rune * nat * bool :=
  let bad := (RuneError, 1%nat, false) in
  if b0 <? 128 then (b0, 1%nat, true)
  else if in_range 194 223 b0 then
    match cont 128 191 l with
    | Some (x1, _) => (Z.lor (Z.shiftl (Z.land b0 31) 6) x1, 2%nat, true)
    | None => bad
    end
  else if in_range 224 239 b0 then
    let lo := if b0 =? 224 then 160 else 128 in
    let hi := if b0 =? 237 then 159 else 191 in
    match cont lo hi l with
    | Some (x1, l1) =>
        match cont 128 191 l1 with
        | Some (x2, _) =>
            (Z.lor (Z.shiftl (Z.land b0 15) 12) (Z.lor (Z.shiftl x1 6) x2), 3%nat, true)
        | None => bad
        end
    | None => bad
    end
  else if in_range 240 244 b0 then
    let lo := if b0 =? 240 then 144 else 128 in
    let hi := if b0 =? 244 then 143 else 191 in
    match cont lo hi l with
    | Some (x1, l1) =>
        match cont 128 191 l1 with
        | Some (x2, l2) =>
            match cont 128 191 l2 with
            | Some (x3, _) =>
                (Z.lor (Z.shiftl (Z.land b0 7) 18)
                   (Z.lor (Z.shiftl x1 12) (Z.lor (Z.shiftl x2 6) x3)), 4%nat, true)
            | None => bad
            end
        | None => bad
        end
    | None => bad
    end
  else bad.

(** The runes of a byte sequence, each with the validity of its encoding;
    [skip] counts the continuation bytes already consumed. *)
Fixpoint decode_go (skip : nat) (l : list Z) : list (rune * bool) :=
  match l with
  | [] => []
  | b :: r =>
      match skip with
      | S k => decode_go k r
      | O => let '(c, w, ok) := DecodeRune b r in (c, ok) :: decode_go (pred w) r
      end
  end.

(** The conversion [[]rune(s)]. *)
Definition runes (s : string) : list rune := (decode_go 0 (bytes s)).*1.
(** utf8.ValidString. *)
Definition ValidString (s : string) : bool := forallb snd (decode_go 0 (bytes s)).

(** utf8.EncodeRune of a valid rune. *)
Definition EncodeRune (r : rune) : list Z :=
  if r <? 128 then [r]
  else if r <? 2048 then [192 + r / 64; 128 + r mod 64]
  else if r <? 65536 then [224 + r / 4096; 128 + (r / 64) mod 64; 128 + r mod 64]
  else [240 + r / 262144; 128 + (r / 4096) mod 64; 128 + (r / 64) mod 64; 128 + r mod 64].

Lemma lor_shift a x n : 0 ≤ n → 0 ≤ x < 2 ^ n → Z.lor (Z.shiftl a n) x = a * 2 ^ n + x.
Proof.
  intros Hn Hx.
  assert (Hl : Z.land (Z.shiftl a n) x = 0).
  { apply Z.bits_inj'. intros k Hk. rewrite Z.land_spec, Z.bits_0, Z.shiftl_spec by done.
    destruct (Z.lt_ge_cases k n); [by rewrite Z.testbit_neg_r by lia|].
    rewrite <-(Z.mod_small x (2 ^ n)), Z.mod_pow2_bits_high by lia. apply andb_false_r. }
  rewrite <-Z.lxor_lor, <-Z.add_nocarry_lxor by done. by rewrite Z.shiftl_mul_pow2.
Qed.

Lemma cont_Some lo hi l x r :
  128 ≤ lo → hi ≤ 191 → cont lo hi l = Some (x, r) → ∃ b, l = b :: r ∧ lo ≤ b ≤ hi ∧ x = b - 128.
Proof.
  intros Hlo Hhi. destruct l as [|b l]; simpl; [done|]. unfold in_range.
  destruct (Z.leb_spec lo b); [|done]. destruct (Z.leb_spec b hi); [|done]. simpl. intros ?; simplify_eq.
  exists b. split; [done|]. split; [done|]. change 63 with (Z.ones 6). rewrite Z.land_ones by done.
  symmetry. apply (Z.mod_unique _ _ 2); lia.
Qed.

(** A rune that was validly encoded determines its bytes. *)
Ltac decode_bytes :=
  repeat match goal with
  | H : cont (if ?b then _ else _) _ _ = _ |- _ => destruct b eqn:?
  | H : cont _ (if ?b then _ else _) _ = _ |- _ => destruct b eqn:?
  | H : cont _ _ _ = Some _ |- _ => apply cont_Some in H as (? & -> & ? & ->); [|lia..]
  end.

Lemma DecodeRune_Encode b0 l r w :
  DecodeRune b0 l = (r, w, true) → (1 ≤ w)%nat ∧ b0 :: take (pred w) l = EncodeRune r.
Proof.
  unfold DecodeRune, EncodeRune, in_range.
  destruct (Z.ltb_spec b0 128); [intros; simplify_eq; by rewrite (proj2 (Z.ltb_lt _ _))|].
  destruct (Z.leb_spec 194 b0), (Z.leb_spec b0 223); simpl; try done.
  { destruct (cont 128 191 l) as [[x1 l1]|] eqn:E1; [|done]. intros ?; simplify_eq.
    decode_bytes. change 31 with (Z.ones 5). rewrite Z.land_ones, lor_shift by lia.
    replace (b0 mod 2 ^ 5) with (b0 - 192) by (apply (Z.mod_unique _ _ 6); lia).
    simpl. rewrite take_0, (proj2 (Z.ltb_ge _ _)), (proj2 (Z.ltb_lt _ _)) by lia.
    split; [lia|]. do 2 (apply (f_equal2 cons); [Z.div_mod_to_equations; lia|]). done. }
  all: destruct (Z.leb_spec 224 b0), (Z.leb_spec b0 239); simpl; try lia.
  { destruct (cont _ _ l) as [[x1 l1]|] eqn:E1; [|done].
    destruct (cont _ _ l1) as [[x2 l2]|] eqn:E2; [|done]. intros ?; simplify_eq.
    decode_bytes; try lia; change 15 with (Z.ones 4);
    rewrite Z.land_ones, (lor_shift _ _ 6), (lor_shift _ _ 12) by lia;
    replace (b0 mod 2 ^ 4) with (b0 - 224) by (apply (Z.mod_unique _ _ 14); lia);
    simpl; rewrite take_0, (proj2 (Z.ltb_ge _ 128)), (proj2 (Z.ltb_ge _ 2048)), (proj2 (Z.ltb_lt _ _)) by lia;
    (split; [lia|]; do 3 (apply (f_equal2 cons); [Z.div_mod_to_equations; lia|]); done). }
  all: destruct (Z.leb_spec 240 b0), (Z.leb_spec b0 244); simpl; try done; try lia.
  destruct (cont _ _ l) as [[x1 l1]|] eqn:E1; [|done].
  destruct (cont _ _ l1) as [[x2 l2]|] eqn:E2; [|done].
  destruct (cont _ _ l2) as [[x3 l3]|] eqn:E3; [|done]. intros ?; simplify_eq.
  decode_bytes; try lia; change 7 with (Z.ones 3);
  rewrite Z.land_ones, (lor_shift _ _ 6), (lor_shift _ _ 12), (lor_shift _ _ 18) by lia;
  replace (b0 mod 2 ^ 3) with (b0 - 240) by (apply (Z.mod_unique _ _ 30); lia);
  simpl; rewrite take_0, (proj2 (Z.ltb_ge _ 128)), (proj2 (Z.ltb_ge _ 2048)), (proj2 (Z.ltb_ge _ 65536)) by lia;
  (split; [lia|]; do 4 (apply (f_equal2 cons); [Z.div_mod_to_equations; lia|]); done).
Qed.

Lemma decode_go_skip k l : decode_go k l = decode_go 0 (drop k l).
Proof. revert k. induction l as [|b l IH]; intros [|k]; simpl; [done..|]. apply IH. Qed.

Lemma decode_go_encode n l :
  (length l ≤ n)%nat → forallb snd (decode_go 0 l) = true →
  concat (EncodeRune <$> (decode_go 0 l).*1) = l.
Proof.
  revert l. induction n as [|n IH]; intros [|b l] Hn Hv; simpl in Hn; [done|lia|done|].
  cbn [decode_go] in *. destruct (DecodeRune b l) as [[r w] ok] eqn:E. rewrite decode_go_skip in *.
  simpl in Hv |- *. apply andb_true_iff in Hv as [Hok Hv]. simpl in Hok. subst ok.
  destruct (DecodeRune_Encode _ _ _ _ E) as [Hw Henc].
  rewrite IH, <-Henc; [|rewrite length_drop; lia|done]. simpl. by rewrite take_drop.
Qed.

Lemma bytes_inj s t : bytes s = bytes t → s = t.
Proof.
  intros H. apply list_fmap_eq_inj in H.
  - rewrite <-(string_of_list_ascii_of_string s), H. apply string_of_list_ascii_of_string.
  - intros a b Hab. unfold byte_of in Hab. apply N2Z.inj in Hab.
    rewrite <-(ascii_N_embedding a), Hab. apply ascii_N_embedding.
Qed.

(** A string that is valid UTF-8 is determined by its runes. *)
Lemma runes_inj s t :
  ValidString s = true → ValidString t = true → runes s = runes t → s = t.
Proof.
  unfold ValidString, runes. intros Hs Ht Heq. apply bytes_inj.
  rewrite <-(decode_go_encode _ (bytes s) (Nat.le_refl _) Hs), Heq. by eapply decode_go_encode.
Qed.

Lemma DecodeRune_bad b0 l r w : DecodeRune b0 l = (r, w, false) → r = RuneError.
Proof. unfold DecodeRune. repeat case_match; by intros [= <- _]. Qed.

(** A string of ASCII runes is its bytes. *)
Lemma ascii_runes s : Forall (λ r, r < 128) (runes s) → ValidString s = true ∧ bytes s = runes s.
Proof.
  unfold runes, ValidString. generalize (bytes s). intros l. induction l as [|b l IH]; [done|].
  cbn [decode_go]. destruct (DecodeRune b l) as [[r w] ok] eqn:E. cbn [fmap list_fmap fst]. intros [Hr Hl]%Forall_cons.
  destruct ok; [|apply DecodeRune_bad in E; subst; unfold RuneError in Hr; lia].
  apply DecodeRune_Encode in E as [Hw E]. unfold EncodeRune in E. rewrite (proj2 (Z.ltb_lt _ _) Hr) in E.
  injection E as -> E. destruct (pred w) as [|k] eqn:Ew.
  - destruct (IH Hl) as [Hv Hb]. cbn [forallb snd andb]. by rewrite <- Hb.
  - destruct l; [|done]. done.
Qed.

(** ** Package strings *)

Fixpoint has_prefix (p s : string) : bool :=
  match p, s with
  | EmptyString, _ => true
  | String a p', String b s' => if decide (a = b) then has_prefix p' s' else false
  | _, _ => false
  end.

Fixpoint sdrop (n : nat) (s : string) : string :=
  match n, s with
  | S k, String _ s' => sdrop k s'
  | _, _ => s
  end.

Fixpoint stake (n : nat) (s : string) : string :=
  match n, s with
  | S k, String a s' => String a (stake k s')
  | _, _ => EmptyString
  end.

Definition HasSuffix (s suf : string) : bool :=
  (String.length suf <=? String.length s)%nat &&
  bool_decide (sdrop (String.length s - String.length suf) s = suf).

Definition TrimSuffix (s suf : string) : string :=
  if HasSuffix s suf then stake (String.length s - String.length suf) s else s.

(** strings.TrimLeft with a one-character cutset. *)
Fixpoint TrimLeft (c : ascii) (s : string) : string :=
  match s with
  | String a s' => if decide (a = c) then TrimLeft c s' else s
  | EmptyString => EmptyString
  end.

(** strings.Contains *)
Fixpoint contains (sub s : string) : bool :=
  has_prefix sub s || match s with String _ r => contains sub r | EmptyString => false end.

Fixpoint contains_any (cs : list ascii) (s : string) : bool :=
  match s with
  | EmptyString => false
  | String a s' => bool_decide (a ∈ cs) || contains_any cs s'
  end.

(** strings.Split for a non-empty separator: [skip] bytes of a separator just
    found are still to be passed over, [cur] is the piece being read. *)
Fixpoint split_go (sep : string) (s : string) (skip : nat) (cur : string) : list string :=
  match s with
  | EmptyString => [cur]
  | String a s' =>
      match skip with
      | S k => split_go sep s' k cur
      | O =>
          if has_prefix sep s
          then cur :: split_go sep s' (pred (String.length sep)) EmptyString
          else split_go sep s' 0 (cur +:+ String a EmptyString)
      end
  end.

(** With an empty separator the string is cut into its UTF-8 sequences;
    [chop n w s] is the next sequence, of [w] bytes. *)
Fixpoint explode_go (skip : nat) (s : string) : list string :=
  match s with
  | EmptyString => []
  | String a s' =>
      match skip with
      | S k => explode_go k s'
      | O =>
          let '(_, w, _) := DecodeRune (byte_of a) (bytes s') in
          stake w s :: explode_go (pred w) s'
      end
  end.

Definition Split (s sep : string) : list string :=
  match sep with
  | EmptyString => explode_go 0 s
  | _ => split_go sep s 0 EmptyString
  end.

Fixpoint Join (l : list string) (sep : string) : string :=
  match l with
  | [] => EmptyString
  | [x] => x
  | x :: r => x +:+ sep +:+ Join r sep
  end.

(** strings.Index *)
Fixpoint Index (s sub : string) : option nat :=
  if has_prefix sub s then Some 0%nat
  else match s with String _ r => S <$> Index r sub | EmptyString => None end.

Definition TrimPrefix (s pre : string) : string := if has_prefix pre s then sdrop (String.length pre) s else s.

(** strings.Index for a one-byte needle. *)
Fixpoint IndexByte (c : ascii) (s : string) : option nat :=
  match s with
  | EmptyString => None
  | String a s' => if decide (a = c) then Some 0%nat else S <$> IndexByte c s'
  end.

Definition replace_byte (from to : ascii) (s : string) : string :=
  string_of_list_ascii ((λ a, if decide (a = from) then to else a) <$> list_ascii_of_string s).

Definition lower_byte (b : Z) : Z := if in_range 65 90 b then b + 32 else b.

(** strings.EqualFold against an ASCII word.  Of the non-ASCII runes only
    U+017F (long s) and U+212A (Kelvin sign) fold to an ASCII letter. *)
Definition fold_rune (r : rune) : rune :=
  if r =? 383 then 115 else if r =? 8490 then 107 else lower_byte r.
Definition EqualFold (s ascii_word : string) : bool :=
  bool_decide (fold_rune <$> runes s = fold_rune <$> runes ascii_word).

(** strings.TrimSpace: the space characters of Unicode at either end. *)
Definition IsSpace (r : rune) : bool :=
  in_range 9 13 r || (r =? 32) || (r =? 133) || (r =? 160) || (r =? 5760) ||
  in_range 8192 8202 r || (r =? 8232) || (r =? 8233) || (r =? 8239) || (r =? 8287) || (r =? 12288).

Definition space_piece (p : string) : bool := forallb IsSpace (runes p).
Fixpoint drop_space (l : list string) : list string :=
  match l with
  | p :: r => if space_piece p then drop_space r else l
  | [] => []
  end.
Definition TrimSpace (s : string) : string :=
  Join (reverse (drop_space (reverse (drop_space (Split s ""))))) "".

(** strings.TrimRight with an ASCII cutset. *)
Fixpoint drop_cut (cs : list ascii) (l : list ascii) : list ascii :=
  match l with
  | a :: r => if bool_decide (a ∈ cs) then drop_cut cs r else l
  | [] => []
  end.
Definition TrimRight (cs : list ascii) (s : string) : string :=
  string_of_list_ascii (reverse (drop_cut cs (reverse (list_ascii_of_string s)))).

(** strings.ToLower(s) == w, for a word without k and i: no rune outside ASCII
    has a letter of such a word as its lower case. *)
Definition lower_is (s w : string) : bool :=
  bool_decide (lower_byte <$> bytes s = bytes w).

(** strings.ToLower(s) == w, for an ASCII word: of the runes outside ASCII only
    U+0130 and the Kelvin sign have an ASCII letter as their lower case. *)
Definition lower_rune (r : rune) : rune := if r =? 304 then 105 else if r =? 8490 then 107 else lower_byte r.
Definition ToLower_is (s w : string) : bool := bool_decide (lower_rune <$> runes s = runes w).

(** String comparison is bytewise. *)
Definition str_lt (a b : string) : Prop := String.compare a b = Lt.
Definition str_le (a b : string) : Prop := String.leb a b = true.
#[global] Instance str_le_dec a b : Decision (str_le a b) := decide (_ = _).
#[global] Instance str_le_total : Total str_le.
Proof. intros a b. apply String.leb_total. Qed.
#[global] Instance str_le_anti : AntiSymm (=) str_le.
Proof. intros a b. apply String.leb_antisym. Qed.
#[global] Instance str_le_trans : Transitive str_le.
Proof.
  intros a b c. unfold str_le, String.leb. revert b c.
  induction a as [|x a IH]; intros [|y b] [|z c]; simpl; try done.
  unfold Ascii.compare.
  destruct (N.compare_spec (N_of_ascii x) (N_of_ascii y)), (N.compare_spec (N_of_ascii y) (N_of_ascii z)),
    (N.compare_spec (N_of_ascii x) (N_of_ascii z)); try done; try lia; intros; by eapply IH.
Qed.

(** strings.Cut at a one-byte separator. *)
Fixpoint Cut (c : ascii) (s : string) : option (string * string) :=
  match s with
  | EmptyString => None
  | String a r => if decide (a = c) then Some ("", r) else '(x, y) ← Cut c r; Some (String a x, y)
  end.

(** strings.LastIndexByte. *)
Fixpoint LastIndexByte (c : ascii) (s : string) : option nat :=
  match s with
  | EmptyString => None
  | String a r =>
      match LastIndexByte c r with
      | Some i => Some (S i)
      | None => if decide (a = c) then Some O else None
      end
  end.

(** ** Package strconv *)

Definition minInt64 : Z := - 2 ^ 63.
Definition maxInt64 : Z := 2 ^ 63 - 1.
(** Two's complement wrap-around of a 64-bit signed result. *)
Definition wrap64 (z : Z) : Z := (z + 2 ^ 63) mod 2 ^ 64 - 2 ^ 63.

Lemma wrap64_small z : minInt64 ≤ z ≤ maxInt64 → wrap64 z = z.
Proof. unfold wrap64, minInt64, maxInt64. intros Hz. rewrite Z.mod_small by lia. lia. Qed.

Definition FormatInt (z : Z) : string := pretty z.
Definition FormatBool (b : bool) : string := if b then "true" else "false".

(** The verbs %o and %0wo of a non-negative number. *)
Fixpoint octal_go (fuel : nat) (z : Z) : string :=
  match fuel with
  | O => EmptyString
  | S f => (if z / 8 =? 0 then EmptyString else octal_go f (z / 8)) +:+ FormatInt (z mod 8)
  end.
Definition FormatOctal (z : Z) : string := octal_go 22 z.

Definition digit_of (a : ascii) : option Z :=
  if in_range 48 57 (byte_of a) then Some (byte_of a - 48) else None.

Fixpoint digits_go (acc : Z) (s : string) : option Z :=
  match s with
  | EmptyString => Some acc
  | String a s' => d ← digit_of a; digits_go (acc * 10 + d) s'
  end.

(** strconv.Atoi: an optional sign, at least one decimal digit, nothing else,
    and a value an [int] holds. *)
Definition Atoi (s : string) : option Z :=
  let '(neg, body) :=
    match s with
    | String "-" r => (true, r)
    | String "+" r => (false, r)
    | _ => (false, s)
    end in
  match body with
  | EmptyString => None
  | _ =>
      v ← digits_go 0 body;
      let v := if neg : bool then - v else v in
      if in_range minInt64 maxInt64 v then Some v else None
  end.

(** *** strconv.FormatFloat(f, 'g', -1, 64)

    The shortest decimal that reads back as the same binary64, in %e notation
    when its exponent is below -4 or at least 6, which is how Go decides for
    the shortest form.  A positive finite float [m * 2^e] is the
    quotient [num / den]; the decimals that round to it are those between the
    midpoints to its neighbours, the ends included when [m] is even. *)

Definition pow10 (k : Z) : Z := 10 ^ k.

(** [n/d * 10^k] as a quotient. *)
Definition scale10 (n d k : Z) : Z * Z :=
  if 0 <=? k then (n * pow10 k, d) else (n, d * pow10 (- k)).
Definition scale2 (m e : Z) : Z * Z :=
  if 0 <=? e then (m * 2 ^ e, 1) else (m, 2 ^ (- e)).

(** The least [k] in a window above an estimate with [n/d < 10^k]. *)
Fixpoint dec_point_go (fuel : nat) (n d k : Z) : Z :=
  match fuel with
  | O => k
  | S f =>
      let '(n', d') := scale10 n d (- k) in
      if n' <? d' then k else dec_point_go f n d (k + 1)
  end.
Definition dec_point (n d : Z) : Z :=
  dec_point_go 8 n d ((Z.log2 n - Z.log2 d - 1) * 30103 / 100000 - 1).

Definition qle (a b : Z * Z) : bool := a.1 * b.2 <=? b.1 * a.2.
Definition qlt (a b : Z * Z) : bool := a.1 * b.2 <? b.1 * a.2.

(** The decimal [c * 10^k] lies in the rounding interval of [m * 2^e]. *)
Definition rounds_to (m e c k : Z) : bool :=
  let hi := scale2 (4 * m + 2) (e - 2) in
  let lo := if (m =? 2 ^ 52) && (-1074 <? e)
            then scale2 (4 * m - 1) (e - 2) else scale2 (4 * m - 2) (e - 2) in
  let v := scale10 c 1 k in
  if Z.even m then qle lo v && qle v hi else qlt lo v && qlt v hi.

(** The shortest digit string, as an integer and the power of ten it is
    scaled by. *)
Fixpoint shortest_go (fuel : nat) (m e n d dp nd : Z) : Z * Z :=
  let k := dp - nd in
  let '(n', d') := scale10 n d (- k) in
  let fl := n' / d' in
  let r := n' mod d' in
  let near := if (2 * r <? d') || ((2 * r =? d') && Z.even fl) then fl else fl + 1 in
  let other := if near =? fl then fl + 1 else fl in
  match fuel with
  | O => (near, k)
  | S f =>
      if rounds_to m e near k then (near, k)
      else if rounds_to m e other k then (other, k)
      else shortest_go f m e n d dp (nd + 1)
  end.

Fixpoint strip_zeros (fuel : nat) (c k : Z) : Z * Z :=
  match fuel with
  | O => (c, k)
  | S f => if c mod 10 =? 0 then strip_zeros f (c / 10) (k + 1) else (c, k)
  end.

Fixpoint zeros (n : nat) : string :=
  match n with O => EmptyString | S k => String "0" (zeros k) end.

Definition zero_pad (w : nat) (s : string) : string := zeros (w - String.length s) +:+ s.

Definition fmt_exp (x : Z) : string :=
  let a := pretty (Z.abs x) in
  (if x <? 0 then "-" else "+") +:+ (if Z.abs x <? 10 then "0" +:+ a else a).

Definition fmt_digits (ds : string) (dp : Z) : string :=
  let nd := Z.of_nat (String.length ds) in
  let x := dp - 1 in
  if (x <? -4) || (6 <=? x) then
    stake 1 ds +:+ (if nd <=? 1 then "" else "." +:+ sdrop 1 ds) +:+ "e" +:+ fmt_exp x
  else if dp <=? 0 then "0." +:+ zeros (Z.to_nat (- dp)) +:+ ds
  else if nd <=? dp then ds +:+ zeros (Z.to_nat (dp - nd))
  else stake (Z.to_nat dp) ds +:+ "." +:+ sdrop (Z.to_nat dp) ds.

Definition FormatFloat (f : spec_float) : string :=
  match f with
  | S754_zero s => if s then "-0" else "0"
  | S754_infinity s => if s then "-Inf" else "+Inf"
  | S754_nan => "NaN"
  | S754_finite s mp e =>
      let m := Z.pos mp in
      let '(n, d) := scale2 m e in
      let dp := dec_point n d in
      let '(c, k) := shortest_go 16 m e n d dp 1 in
      let '(c, k) := strip_zeros 20 c k in
      let ds := pretty c in
      (if s : bool then "-" else "") +:+ fmt_digits ds (k + Z.of_nat (String.length ds))
  end.

(** The float arithmetic the source does is binary64. *)
Definition f64_of_Z (z : Z) : spec_float := binary_normalize 53 1024 z 0 false.
Definition f64_mul : spec_float → spec_float → spec_float := SFmul 53 1024.
Definition f64_is_zero (f : spec_float) : bool :=
  match f with S754_zero _ => true | _ => false end.
Definition f64_is_nan (f : spec_float) : bool :=
  match f with S754_nan => true | _ => false end.
(** Conversion to a 64-bit integer truncates towards zero; [None] where the
    language leaves the result to the implementation. *)
Definition f64_trunc (f : spec_float) : option Z :=
  match f with
  | S754_zero _ => Some 0
  | S754_finite s m e =>
      let '(n, d) := scale2 (Z.pos m) e in
      let z := n / d in
      let z := if s : bool then - z else z in
      if in_range minInt64 maxInt64 z then Some z else None
  | _ => None
  end.

(** The comparison [==], for which the two zeros are equal and NaN is not. *)
Definition f64_eqb : spec_float → spec_float → bool := SFeqb.

#[global] Instance spec_float_eq_dec : EqDecision spec_float.
Proof. solve_decision. Defined.

(** ** The runtime functions left as parameters

    fmt.Sprint of a compound value prints pointers, so its text depends on
    addresses; the readings of time.ParseDuration and strconv.ParseFloat are
    the standard library's grammars.  They are operations of a class, so that
    every statement holds whatever they answer. *)
Class GoRuntime (V : Type) := {
  Sprint : V → string;
  TypeString : V → string;
  time_ParseDuration : string → option Z;
  ParseFloat : string → option spec_float;
  IsPrint : rune → bool;
}.

(** strconv.Quote, which is what %q prints.  Outside ASCII it consults the
    tables of printable characters. *)
Definition hex_digit (z : Z) : string :=
  stake 1 (sdrop (Z.to_nat z) "0123456789abcdef").
Fixpoint hex_go (n : nat) (z : Z) : string :=
  match n with O => EmptyString | S k => hex_go k (z / 16) +:+ hex_digit (z mod 16) end.

Definition string_of_bytes (l : list Z) : string :=
  string_of_list_ascii ((λ b, ascii_of_N (Z.to_N b)) <$> l).

Definition quote_rune `{GoRuntime V} (r : rune) : string :=
  if r =? 34 then string_of_bytes [92; 34]
  else if r =? 92 then string_of_bytes [92; 92]
  else if r =? 7 then "\a" else if r =? 8 then "\b" else if r =? 12 then "\f"
  else if r =? 10 then "\n" else if r =? 13 then "\r" else if r =? 9 then "\t"
  else if r =? 11 then "\v"
  else if in_range 32 126 r then string_of_bytes [r]
  else if (r <? 32) || (r =? 127) then "\x" +:+ hex_go 2 r
  else if IsPrint r then string_of_bytes (EncodeRune r)
  else if r <? 65536 then "\u" +:+ hex_go 4 r
  else "\U" +:+ hex_go 8 r.

(** An invalid byte is written as its value. *)
Fixpoint quote_go `{GoRuntime V} (skip : nat) (l : list Z) : string :=
  match l with
  | [] => EmptyString
  | b :: r =>
      match skip with
      | S k => quote_go k r
      | O =>
          let '(c, w, ok) := DecodeRune b r in
          (if ok : bool then quote_rune c else "\x" +:+ hex_go 2 b) +:+ quote_go (pred w) r
      end
  end.
Definition Quote `{GoRuntime V} (s : string) : string :=
  let q := string_of_bytes [34] in q +:+ quote_go 0 (bytes s) +:+ q.

(** ** Splitting at a byte *)

(** A property of every byte of a string. *)
Fixpoint sall (P : ascii → Prop) (s : string) : Prop :=
  match s with EmptyString => True | String a r => P a ∧ sall P r end.

Lemma sall_app P s t : sall P (s +:+ t) ↔ sall P s ∧ sall P t.
Proof. induction s as [|a s IH]; simpl; [tauto|]. rewrite IH. tauto. Qed.

Lemma contains_any_sall cs s : contains_any cs s = false ↔ sall (λ a, a ∉ cs) s.
Proof. induction s as [|a s IH]; simpl; [done|]. rewrite orb_false_iff, IH, bool_decide_eq_false. done. Qed.

(** The reference for Split with a one-byte separator. *)
Fixpoint pieces (c : ascii) (s : string) : list string :=
  match s with
  | EmptyString => [""]
  | String a r =>
      if decide (a = c) then "" :: pieces c r
      else match pieces c r with p :: l => String a p :: l | [] => [String a ""] end
  end.

Lemma pieces_cons c s : ∃ p l, pieces c s = p :: l.
Proof. induction s as [|a s (p & l & IH)]; simpl; [eauto|]. case_decide; [eauto|]. rewrite IH. eauto. Qed.

Lemma string_app_assoc (s t u : string) : (s +:+ t) +:+ u = s +:+ (t +:+ u).
Proof. induction s as [|a s IH]; [done|]. exact (f_equal (String a) IH). Qed.
Lemma string_app_nil_r (s : string) : s +:+ "" = s.
Proof. induction s as [|a s IH]; [done|]. exact (f_equal (String a) IH). Qed.

Lemma Split_pieces c s : Split s (String c "") = pieces c s.
Proof.
  unfold Split. assert (Hgo : ∀ cur, split_go (String c "") s 0 cur =
    match pieces c s with p :: l => (cur +:+ p) :: l | [] => [] end).
  { induction s as [|a s IH]; intros cur; simpl; [by rewrite string_app_nil_r|].
    case_decide as H1; case_decide as H2; try congruence.
    - rewrite string_app_nil_r. f_equal. rewrite IH. by destruct (pieces c s).
    - rewrite IH. destruct (pieces_cons c s) as (p & l & ->). by rewrite string_app_assoc. }
  rewrite Hgo. by destruct (pieces_cons c s) as (p & l & ->).
Qed.

Lemma Join_cons x y l sep : Join (x :: y :: l) sep = x +:+ sep +:+ Join (y :: l) sep.
Proof. done. Qed.

Lemma Join_pieces c s : Join (pieces c s) (String c "") = s.
Proof.
  induction s as [|a s IH]; [done|]. simpl. destruct (pieces_cons c s) as (p & l & Hp). rewrite Hp in *.
  case_decide as Ha.
  - rewrite Join_cons, IH. by rewrite Ha.
  - destruct l as [|q l]; simpl in IH |- *; by rewrite <-IH.
Qed.

Lemma pieces_app c x s :
  sall (λ a, a ≠ c) x → pieces c (x +:+ s) = match pieces c s with p :: l => (x +:+ p) :: l | [] => [] end.
Proof.
  induction x as [|a x IH]; intros Hx.
  { change ("" +:+ s) with s. destruct (pieces_cons c s) as (p & l & Hp). by rewrite Hp. }
  destruct Hx as [Ha Hx]. change (String a x +:+ s) with (String a (x +:+ s)). simpl.
  rewrite decide_False, IH by done. by destruct (pieces_cons c s) as (p & l & ->).
Qed.

Lemma pieces_Join c l :
  l ≠ [] → Forall (sall (λ a, a ≠ c)) l → pieces c (Join l (String c "")) = l.
Proof.
  intros Hl Hall. induction Hall as [|x l Hx Hall IH]; [done|]. destruct l as [|y l].
  - simpl. rewrite <-(string_app_nil_r x) at 1. rewrite pieces_app by done. simpl. by rewrite string_app_nil_r.
  - rewrite Join_cons, pieces_app by done. change (String c "" +:+ ?t) with (String c t). simpl pieces.
    rewrite decide_True by done. rewrite string_app_nil_r. f_equal. by apply IH.
Qed.

Lemma pieces_sall (P : ascii → Prop) c s :
  sall (λ a, a ≠ c → P a) s → Forall (sall (λ a, a ≠ c ∧ P a)) (pieces c s).
Proof.
  induction s as [|a s IH]; intros Hs; simpl; [by repeat constructor|]. destruct Hs as [Ha Hs].
  specialize (IH Hs). case_decide as Hc; [by constructor|].
  destruct (pieces_cons c s) as (p & l & Hp). rewrite Hp in *. inversion IH; subst. constructor; [|done]. simpl. auto.
Qed.

Lemma Join_sall P l sep : Forall (sall P) l → sall P sep → sall P (Join l sep).
Proof.
  intros Hl Hsep. induction Hl as [|x l Hx Hl IH]; [done|]. destruct l as [|y l]; [done|].
  rewrite Join_cons, !sall_app. auto.
Qed.

Lemma sall_impl (P Q : ascii → Prop) s : (∀ a, P a → Q a) → sall P s → sall Q s.
Proof. intros HPQ. induction s as [|a s IH]; simpl; [done|]. intros []. auto. Qed.

Lemma replace_byte_cons x y a s : replace_byte x y (String a s) = String (if decide (a = x) then y else a) (replace_byte x y s).
Proof. done. Qed.

Lemma replace_byte_sall (P : ascii → Prop) x y s :
  P y → sall (λ a, a ≠ x → P a) s → sall P (replace_byte x y s).
Proof.
  intros Hy. induction s as [|a s IH]; [done|]. intros [Ha Hs]. rewrite replace_byte_cons. split; [|auto].
  case_decide; auto.
Qed.

Lemma replace_byte_absent x y s : sall (λ a, a ≠ x) s → replace_byte x y s = s.
Proof.
  induction s as [|a s IH]; [done|]. intros [Ha Hs]. rewrite replace_byte_cons, decide_False by done. by rewrite IH.
Qed.

Lemma replace_byte_app x y s t : replace_byte x y (s +:+ t) = replace_byte x y s +:+ replace_byte x y t.
Proof. induction s as [|a s IH]; [done|]. exact (f_equal (String _) IH). Qed.

(** Replacing by a byte that does not occur can be undone. *)
Lemma replace_byte_inj x y s t :
  sall (λ a, a ≠ y) s → sall (λ a, a ≠ y) t → replace_byte x y s = replace_byte x y t → s = t.
Proof.
  revert t. induction s as [|a s IH]; intros [|b t] Hs Ht Heq; try done.
  rewrite !replace_byte_cons in Heq. injection Heq as Hab Heq. destruct Hs as [Ha Hs], Ht as [Hb Ht].
  f_equal; [|by apply IH]. repeat case_decide; congruence.
Qed.

Lemma list_ascii_app (s t : string) :
  list_ascii_of_string (s +:+ t) = list_ascii_of_string s ++ list_ascii_of_string t.
Proof. induction s as [|a s IH]; [done|]. exact (f_equal (cons a) IH). Qed.

Lemma string_app_inv_r (s t u : string) : s +:+ u = t +:+ u → s = t.
Proof.
  intros Heq%(f_equal list_ascii_of_string). rewrite !list_ascii_app in Heq. apply app_inv_tail in Heq.
  by rewrite <-(string_of_list_ascii_of_string s), Heq, string_of_list_ascii_of_string.
Qed.

(** ** Cutting strings *)

Section cutting.
Open Scope nat_scope.
Lemma string_app_cons a (s t : string) : String a s +:+ t = String a (s +:+ t).
Proof. done. Qed.
Lemma string_nil_app (t : string) : "" +:+ t = t.
Proof. done. Qed.
Lemma length_app_string (s t : string) : String.length (s +:+ t) = String.length s + String.length t.
Proof. induction s as [|a s IH]; [done|]. exact (f_equal S IH). Qed.
Lemma sdrop_past n s t : String.length s ≤ n → sdrop n (s +:+ t) = sdrop (n - String.length s) t.
Proof.
  revert n. induction s as [|a s IH]; intros n Hn; [by rewrite Nat.sub_0_r|]. destruct n as [|n]; simpl in Hn; [lia|].
  rewrite string_app_cons. cbn [sdrop String.length Nat.sub]. apply IH. lia.
Qed.
Lemma sdrop_within n s t : n ≤ String.length s → sdrop n (s +:+ t) = sdrop n s +:+ t.
Proof.
  revert n. induction s as [|a s IH]; intros n Hn; [by assert (n = 0) as -> by (simpl in Hn; lia)|].
  destruct n as [|n]; [done|]. rewrite string_app_cons. cbn [sdrop]. apply IH. simpl in Hn. lia.
Qed.
Lemma bytes_stake n s : bytes (stake n s) = take n (bytes s).
Proof. revert n. induction s as [|a s IH]; intros [|n]; try done. cbn [stake]. unfold bytes in *. cbn. f_equal. apply IH. Qed.
Lemma sdrop_add i j s : sdrop i (sdrop j s) = sdrop (j + i) s.
Proof. revert s. induction j as [|j IH]; intros [|a s]; simpl; try done; by destruct i. Qed.
End cutting.

(** ** Decimal numbers read back *)

Definition digit_c (c : ascii) : Prop := is_Some (digit_of c).
Lemma pretty_char_digit x : (x < 10)%N → digit_of (pretty_N_char x) = Some (Z.of_N x).
Proof. intros Hx. assert (x = 0 ∨ x = 1 ∨ x = 2 ∨ x = 3 ∨ x = 4 ∨ x = 5 ∨ x = 6 ∨ x = 7 ∨ x = 8 ∨ x = 9)%N as Hc by lia. by destruct_or! Hc; subst x. Qed.

(** The digits of a positive number: they are digits, the first is not zero, and
    they read back. *)
Lemma digits_of_pos x s :
  (0 < x)%N →
  ∃ c t, pretty_N_go x s = String c t +:+ s ∧ c ≠ "0"%char ∧ sall digit_c (String c t) ∧ ∀ s', digits_go 0 (String c t +:+ s') = digits_go (Z.of_N x) s'.
Proof.
  revert s. induction (N.lt_wf_0 x) as [x _ IH]; intros s Hx. rewrite pretty_N_go_step by lia.
  pose proof (N.mod_lt x 10 ltac:(lia)) as Hm. pose proof (pretty_char_digit _ Hm) as Hd. set (d := pretty_N_char (x mod 10)) in *.
  destruct (decide (x < 10)%N) as [Hs|Hs].
  - rewrite N.div_small by done. rewrite pretty_N_go_0. exists d, "". split_and!; [done| |split; [by eexists|done]|].
    + intros E. rewrite E in Hd. rewrite N.mod_small in Hd by done. assert (digit_of "0" = Some 0) as E0 by done. rewrite E0 in Hd. injection Hd. lia.
    + intros s'. change (String d "" +:+ s') with (String d s'). cbn [digits_go]. rewrite Hd. cbn. by rewrite N.mod_small.
  - assert (0 < x / 10)%N as Hq by (apply N.div_str_pos; lia).
    destruct (IH (x / 10)%N ltac:(apply N.div_lt; lia) (String d s) Hq) as (c & t & E & Hc & Ht & Hv).
    exists c, (t +:+ String d ""). rewrite E. split_and!; [|done| |].
    + change (String c (t +:+ String d "")) with (String c t +:+ String d ""). by rewrite string_app_assoc.
    + destruct Ht as [? ?]. split; [done|]. apply sall_app. split; [done|]. split; [by eexists|done].
    + intros s'. change (String c (t +:+ String d "")) with (String c t +:+ String d ""). rewrite string_app_assoc, Hv.
      change (String d "" +:+ s') with (String d s'). cbn [digits_go]. rewrite Hd. cbn [mbind option_bind]. f_equal.
      rewrite N2Z.inj_mod, N2Z.inj_div. pose proof (Z.div_mod (Z.of_N x) 10 ltac:(lia)). change (Z.of_N 10) with 10. lia.
Qed.

Lemma pretty_pos (n : positive) :
  ∃ c t, pretty (Zpos n) = String c t ∧ c ≠ "0"%char ∧ sall digit_c (String c t) ∧ digits_go 0 (String c t) = Some (Zpos n).
Proof.
  destruct (digits_of_pos (Npos n) "" ltac:(lia)) as (c & t & E & Hc & Ht & Hv). exists c, t. split_and!; [|done|done|].
  - rewrite <- (string_app_nil_r (String c t)). exact E.
  - rewrite <- (string_app_nil_r (String c t)). exact (Hv "").
Qed.

Lemma pretty_digits z : 0 ≤ z → pretty z ≠ "" ∧ sall digit_c (pretty z) ∧ digits_go 0 (pretty z) = Some z.
Proof.
  intros Hz. destruct z as [|n|n]; [split_and!; [done|split; [by eexists|done]|done]| |lia].
  destruct (pretty_pos n) as (c & t & -> & _ & Ht & Hv). by split_and!.
Qed.

(** A number with leading zeros. *)
Lemma digits_zeros k s : digits_go 0 (string_of_list_ascii (replicate k "0"%char) +:+ s) = digits_go 0 s.
Proof. induction k as [|k IH]; [done|]. exact IH. Qed.

Lemma digit_no_sign c : digit_c c → ∀ A (x y z : A), match c with "-"%char => x | "+"%char => y | _ => z end = z.
Proof. intros [d Hd] A x y z. destruct c as [[] [] [] [] [] [] [] []]; vm_compute in Hd; first [discriminate|done]. Qed.

Lemma Atoi_digits s n : s ≠ "" → sall digit_c s → digits_go 0 s = Some n → 0 ≤ n ≤ maxInt64 → Atoi s = Some n.
Proof.
  intros Hne Hs Hv Hn. destruct s as [|c s]; [done|]. destruct Hs as [Hc _]. unfold Atoi. rewrite digit_no_sign by done.
  rewrite Hv. cbn [mbind option_bind]. unfold in_range.
  rewrite (proj2 (Z.leb_le _ _)), (proj2 (Z.leb_le _ _)); [done|lia|unfold minInt64; lia].
Qed.

(** ** Bytes of texts and encodings *)

Lemma ascii_of_byte c : ascii_of_N (Z.to_N (byte_of c)) = c.
Proof. unfold byte_of. rewrite N2Z.id. apply ascii_N_embedding. Qed.
Lemma EncodeRune_high r : 128 ≤ r → Forall (λ b, 128 ≤ b) (EncodeRune r).
Proof.
  intros Hr. unfold EncodeRune. rewrite (proj2 (Z.ltb_ge r 128)) by lia.
  destruct (r <? 2048), (r <? 65536); repeat constructor; Z.div_mod_to_equations; lia.
Qed.
Lemma string_of_bytes_cons b l : string_of_bytes (b :: l) = String (ascii_of_N (Z.to_N b)) (string_of_bytes l).
Proof. done. Qed.
Lemma string_of_bytes_bytes s : string_of_bytes (bytes s) = s.
Proof.
  induction s as [|c s IH]; [done|]. unfold bytes in *. cbn [list_ascii_of_string fmap list_fmap].
  rewrite string_of_bytes_cons, ascii_of_byte. exact (f_equal (String c) IH).
Qed.

(** ** Text through encoding/json

    A string that is encoded and decoded again: what is not UTF-8 in it has
    become U+FFFD. *)
Definition json_text (s : string) : string := string_of_bytes (concat (EncodeRune <$> runes s)).

Lemma json_text_valid s : ValidString s = true → json_text s = s.
Proof.
  intros Hv. unfold json_text, runes. rewrite (decode_go_encode _ (bytes s) (Nat.le_refl _) Hv). apply string_of_bytes_bytes.
Qed.

(** A byte of ASCII. *)
Definition ascii_c (c : ascii) : Prop := byte_of c < 128.

Lemma ascii_valid s : sall ascii_c s → ValidString s = true.
Proof.
  unfold ValidString. induction s as [|a s IH]; [done|]. intros [Ha Hs].
  change (bytes (String a s)) with (byte_of a :: bytes s). cbn [decode_go]. unfold DecodeRune.
  rewrite (proj2 (Z.ltb_lt _ _) Ha). cbn. by apply IH.
Qed.
Lemma digit_ascii c : digit_c c → ascii_c c.
Proof. destruct c as [[] [] [] [] [] [] [] []]; intros [z Hz]; vm_compute in Hz |- *; done. Qed.
Lemma sall_sdrop P n s : sall P s → sall P (sdrop n s).
Proof. revert s. induction n as [|n IH]; intros [|a s]; simpl; [done..|]. intros [_ ?]. by apply IH. Qed.
Lemma sall_stake P n s : sall P s → sall P (stake n s).
Proof. revert s. induction n as [|n IH]; intros [|a s]; simpl; [done..|]. intros [? ?]. split; [done|by apply IH]. Qed.
Lemma bytes_app s t : bytes (s +:+ t) = bytes s ++ bytes t.
Proof. induction s as [|c s IH]; [done|]. exact (f_equal (cons _) IH). Qed.
Lemma length_bytes s : length (bytes s) = String.length s.
Proof. induction s as [|c s IH]; [done|]. exact (f_equal S IH). Qed.
Lemma bytes_sdrop n s : bytes (sdrop n s) = drop n (bytes s).
Proof. revert n. induction s as [|a s IH]; intros [|n]; try done. apply IH. Qed.

Lemma cont_more lo hi l x r : cont lo hi l = Some (x, r) → ∃ b, l = b :: r ∧ ∀ l', cont lo hi (b :: l') = Some (x, l').
Proof. destruct l as [|b l]; [done|]. cbn. destruct (in_range lo hi b) eqn:E; [|done]. intros [= <- <-]. exists b. by rewrite E. Qed.

(** Only the bytes of an encoding matter to decoding it. *)
Lemma DecodeRune_prefix b l c w :
  DecodeRune b l = (c, w, true) → (pred w ≤ length l)%nat ∧ ∀ l', DecodeRune b (take (pred w) l ++ l') = (c, w, true).
Proof.
  unfold DecodeRune. destruct (b <? 128); [intros [= <- <-]; split; [cbn; lia|done]|].
  destruct (in_range 194 223 b).
  { destruct (cont 128 191 l) as [[x r]|] eqn:E1; [|done]. intros [= <- <-]. apply cont_more in E1 as (b1 & -> & E1).
    split; [cbn; lia|]. intros l'. cbn [pred take app]. by rewrite take_0, E1. }
  destruct (in_range 224 239 b).
  { destruct (cont _ _ l) as [[x r]|] eqn:E1; [|done]. destruct (cont 128 191 r) as [[x2 r2]|] eqn:E2; [|done]. intros [= <- <-].
    apply cont_more in E1 as (b1 & -> & E1), E2 as (b2 & -> & E2). split; [cbn; lia|]. intros l'. cbn [pred take app]. by rewrite take_0, E1, E2. }
  destruct (in_range 240 244 b); [|done].
  destruct (cont _ _ l) as [[x r]|] eqn:E1; [|done]. destruct (cont 128 191 r) as [[x2 r2]|] eqn:E2; [|done].
  destruct (cont 128 191 r2) as [[x3 r3]|] eqn:E3; [|done]. intros [= <- <-].
  apply cont_more in E1 as (b1 & -> & E1), E2 as (b2 & -> & E2), E3 as (b3 & -> & E3). split; [cbn; lia|]. intros l'. cbn [pred take app]. by rewrite take_0, E1, E2, E3.
Qed.

(** ** Cutting a text *)

Lemma stake_app s r : stake (String.length s) (s +:+ r) = s.
Proof. induction s as [|a s IH]; simpl; [by destruct r|]. by f_equal. Qed.
Lemma sdrop_app s r : sdrop (String.length s) (s +:+ r) = r.
Proof. induction s as [|a s IH]; simpl; [by destruct r|]. done. Qed.
Lemma stake_sdrop n s : stake n s +:+ sdrop n s = s.
Proof. revert s. induction n as [|n IH]; intros [|a s]; simpl; try done. apply (f_equal (String a)), IH. Qed.
Lemma stake_all n s : (String.length s ≤ n)%nat → stake n s = s.
Proof.
  revert s. induction n as [|n IH]; intros [|a s] Hl; simpl in *; try done; [lia|].
  apply (f_equal (String a)), IH. lia.
Qed.
Lemma stake_app_le n s t : (n ≤ String.length s)%nat → stake n (s +:+ t) = stake n s.
Proof.
  revert s. induction n as [|n IH]; intros s Hl; [by destruct s; destruct t|].
  destruct s as [|a s]; simpl in *; [lia|]. apply (f_equal (String a)), IH. lia.
Qed.
Lemma stake_length n s : (n ≤ String.length s)%nat → String.length (stake n s) = n.
Proof. revert s. induction n as [|n IH]; intros [|a s]; simpl; try lia. intros. f_equal. apply IH. lia. Qed.
Lemma sdrop_length n s : String.length (sdrop n s) = (String.length s - n)%nat.
Proof. revert s. induction n as [|n IH]; intros [|a s]; simpl; try lia. by rewrite IH. Qed.
Lemma has_prefix_app p s : has_prefix p s = true → ∃ r, s = p +:+ r.
Proof.
  revert s. induction p as [|a p IH]; intros s; [by exists s|]. destruct s as [|b s]; cbn [has_prefix]; [done|].
  case_decide; [|done]. subst. intros [r ->]%IH. by exists r.
Qed.

(** ** Where a text begins and where it is found *)

Lemma has_prefix_fits v s : has_prefix v s = true → (String.length v ≤ String.length s)%nat.
Proof.
  revert s. induction v as [|a v IH]; intros [|b s]; simpl; try (done || lia). case_decide; [|done]. intros ?%IH. lia.
Qed.

Lemma Index_Some s v i : Index s v = Some i → has_prefix v (sdrop i s) = true ∧ ∀ j, (j < i)%nat → has_prefix v (sdrop j s) = false.
Proof.
  revert i. induction s as [|a s IH]; intros i; cbn [Index]; destruct (has_prefix v _) eqn:E.
  1,3: intros [= <-]; split; [done|lia].
  - done.
  - intros (k & Hk & ->)%fmap_Some. destruct (IH k Hk) as [Hp Hb]. split; [done|].
    intros [|j] Hj; [done|]. apply Hb. lia.
Qed.

Lemma Index_None s v j : Index s v = None → has_prefix v (sdrop j s) = false.
Proof.
  revert j. induction s as [|a s IH]; intros j; cbn [Index]; destruct (has_prefix v _) eqn:E; try done.
  - intros _. by destruct j.
  - intros Hn%fmap_None. destruct j as [|j]; [done|]. by apply IH.
Qed.

(** ** Text through encoding/json is UTF-8 *)

Lemma string_of_bytes_app l l' : string_of_bytes (l ++ l') = string_of_bytes l +:+ string_of_bytes l'.
Proof. induction l as [|b l IH]; [done|]. cbn [app]. rewrite !string_of_bytes_cons, IH. done. Qed.
Lemma json_text_step a s c w ok :
  DecodeRune (byte_of a) (bytes s) = (c, w, ok) →
  json_text (String a s) = string_of_bytes (EncodeRune c) +:+ json_text (sdrop (pred w) s).
Proof.
  intros E. unfold json_text, runes. change (bytes (String a s)) with (byte_of a :: bytes s). cbn [decode_go].
  rewrite E, decode_go_skip, <- bytes_sdrop. cbn [fmap list_fmap fst concat]. apply string_of_bytes_app.
Qed.
(** What is read back is UTF-8. *)
Lemma json_text_is_valid s : ValidString (json_text s) = true.
Proof.
  remember (String.length s) as n eqn:En. revert s En. induction n as [n IH] using lt_wf_ind. intros [|a s] ->; [done|].
  destruct (DecodeRune (byte_of a) (bytes s)) as [[c w] ok] eqn:E. rewrite (json_text_step _ _ _ _ _ E).
  assert (ValidString (json_text (sdrop (pred w) s)) = true) as Hr.
  { eapply IH; [|done]. rewrite sdrop_length. cbn. lia. }
  unfold ValidString in *. rewrite bytes_app. destruct ok; [|rewrite (DecodeRune_bad _ _ _ _ E); exact Hr].
  destruct (DecodeRune_Encode _ _ _ _ E) as [_ <-]. destruct (DecodeRune_prefix _ _ _ _ E) as [Hw Hp].
  rewrite string_of_bytes_cons, ascii_of_byte, <- bytes_stake, string_of_bytes_bytes.
  change (bytes (String a ?t)) with (byte_of a :: bytes t). rewrite bytes_stake. cbn [app decode_go]. rewrite Hp. cbn [forallb snd].
  rewrite decode_go_skip, drop_app_length' by (rewrite length_take; lia). exact Hr.
Qed.
