(* ===== verification/GoTime.v ===== *)
(** * The part of Go's package time the modelled code uses

    An instant is a [Z]: nanoseconds since the first of January of year one,
    UTC, which is the zero value of time.Time.  The calendar is the proleptic
    Gregorian one, computed the way package time computes it (cycles of 400,
    100, 4 and 1 years), and proved inverse to time.Date.  time.Format and
    time.Parse are modelled for the two layouts the code uses: the job
    identifier's, and RFC 3339 with nanoseconds; each is proved to read back
    what it writes. *)

From S2P Require Import Prelude GoLib.

Open Scope Z_scope.

(** ** Instants *)

Definition Nanosecond : Z := 1.
Definition Microsecond : Z := 1000.
Definition Second : Z := 1000000000.
Definition Minute : Z := 60 * Second.
Definition Hour : Z := 60 * Minute.

(** Time.Sub saturates. *)
Definition Sub (t u : Z) : Z := Z.max minInt64 (Z.min maxInt64 (t - u)).

Definition IsZero (t : Z) : bool := t =? 0.
Definition After (t u : Z) : bool := u <? t.
Definition Before (t u : Z) : bool := t <? u.
(** Truncate rounds down to a multiple of [d] since the zero time. *)
Definition Truncate (t d : Z) : Z := t - t mod d.

(** ** The calendar *)

Definition isLeap (y : Z) : bool := (y mod 4 =? 0) && (negb (y mod 100 =? 0) || (y mod 400 =? 0)).

(** Days before the first of January of a year, from year one. *)
Definition year_days (y : Z) : Z :=
  365 * (y - 1) + (y - 1) / 4 - (y - 1) / 100 + (y - 1) / 400.

Definition month_lengths (leap : bool) : list Z :=
  [31; if leap then 29 else 28; 31; 30; 31; 30; 31; 31; 30; 31; 30; 31].
Definition daysIn (m y : Z) : Z := nth (Z.to_nat (m - 1)) (month_lengths (isLeap y)) 0.
Fixpoint lsum (l : list Z) : Z := match l with [] => 0 | x :: l' => x + lsum l' end.
Definition days_before (leap : bool) (m : Z) : Z :=
  lsum (take (Z.to_nat (m - 1)) (month_lengths leap)).

(** The day number of a date: time.Date carries months out of range into the
    year and adds days out of range. *)
Definition date_days (y m d : Z) : Z :=
  let y' := y + (m - 1) / 12 in
  let m' := (m - 1) mod 12 + 1 in
  year_days y' + days_before (isLeap y') m' + (d - 1).

(** The year a day number falls in, by cycles of 400, 100, 4 and 1 years. *)
Definition year_of (days : Z) : Z :=
  let n400 := days / 146097 in
  let d := days mod 146097 in
  let n100 := d / 36524 - d / 36524 / 4 in
  let d := d - 36524 * n100 in
  let n4 := d / 1461 in
  let d := d - 1461 * n4 in
  let n1 := d / 365 - d / 365 / 4 in
  400 * n400 + 100 * n100 + 4 * n4 + n1 + 1.

Fixpoint month_go (m : Z) (lens : list Z) (yday : Z) : Z * Z :=
  match lens with
  | l :: lens' => if yday <? l then (m, yday + 1) else month_go (m + 1) lens' (yday - l)
  | [] => (m, yday + 1)
  end.

(** (year, month, day) of a day number. *)
Definition civil (days : Z) : Z * Z * Z :=
  let y := year_of days in
  let '(m, d) := month_go 1 (month_lengths (isLeap y)) (days - year_days y) in
  (y, m, d).

(** Monday, the first of January of year one, is day zero. *)
Definition weekday (days : Z) : Z := (days + 1) mod 7.

Definition secs_of (t : Z) : Z := t / Second.
Definition Nanosec (t : Z) : Z := t mod Second.
Definition days_of (s : Z) : Z := s / 86400.
Definition clock_of (s : Z) : Z * Z * Z :=
  let r := s mod 86400 in (r / 3600, r mod 3600 / 60, r mod 60).

(** time.Date in UTC, in seconds and then in nanoseconds. *)
Definition date_secs (y m d h mi s : Z) : Z := date_days y m d * 86400 + h * 3600 + mi * 60 + s.
Definition Date_utc (y m d h mi s ns : Z) : Z := date_secs y m d h mi s * Second + ns.

(** *** The calendar is consistent *)

Lemma year_days_step y : year_days (y + 1) = year_days y + 365 + Z.b2z (isLeap y).
Proof.
  unfold year_days, isLeap.
  destruct (Z.eqb_spec (y mod 4) 0), (Z.eqb_spec (y mod 100) 0), (Z.eqb_spec (y mod 400) 0);
    simpl; Z.div_mod_to_equations; lia.
Qed.

Lemma year_days_mono y z : y < z → year_days y + 365 ≤ year_days z.
Proof. unfold year_days. intros. Z.div_mod_to_equations; lia. Qed.

Lemma year_of_bounds d : year_days (year_of d) ≤ d < year_days (year_of d + 1).
Proof.
  unfold year_of. set (c := d / 146097). set (r := d mod 146097).
  assert (d = 146097 * c + r ∧ 0 ≤ r < 146097) as [Hd Hr].
  { subst c r. Z.div_mod_to_equations; lia. }
  clearbody c r. subst d.
  set (a := r / 36524 - r / 36524 / 4).
  assert (0 ≤ a ≤ 3 ∧ 36524 * a ≤ r ∧ (r - 36524 * a < 36524 ∨ a = 3)) as (Ha & Ha1 & Ha2).
  { subst a. Z.div_mod_to_equations; lia. }
  clearbody a. remember (r - 36524 * a) as r1 eqn:Er1.
  assert (0 ≤ r1 ≤ 36524) as Hr1 by lia.
  set (b := r1 / 1461).
  assert (0 ≤ b ≤ 24 ∧ 0 ≤ r1 - 1461 * b < 1461) as (Hb & Hr2).
  { subst b. clear - Hr1. Z.div_mod_to_equations; lia. }
  clearbody b. remember (r1 - 1461 * b) as r2 eqn:Er2.
  set (e := r2 / 365 - r2 / 365 / 4).
  assert (0 ≤ e ≤ 3 ∧ 365 * e ≤ r2 ∧ (r2 < 365 * e + 365 ∨ e = 3)) as (He & He1 & He2).
  { subst e. clear - Hr2. Z.div_mod_to_equations; lia. }
  clearbody e.
  unfold year_days.
  replace (400 * c + 100 * a + 4 * b + e + 1 - 1) with (400 * c + 100 * a + 4 * b + e) by lia.
  replace (400 * c + 100 * a + 4 * b + e + 1 + 1 - 1) with (400 * c + 100 * a + 4 * b + e + 1) by lia.
  Z.div_mod_to_equations; lia.
Qed.

Lemma month_go_sound lens m yday :
  0 ≤ yday < lsum lens →
  ∃ k d, (k < length lens)%nat ∧ month_go m lens yday = (m + Z.of_nat k, d) ∧
    1 ≤ d ≤ nth k lens 0 ∧ lsum (take k lens) + (d - 1) = yday.
Proof.
  revert m yday. induction lens as [|l lens IH]; intros m yday; simpl; [lia|]. intros Hy.
  destruct (Z.ltb_spec yday l).
  - exists 0%nat, (yday + 1). simpl. split_and!; [lia|f_equal; lia|lia|lia|lia].
  - destruct (IH (m + 1) (yday - l)) as (k & d & Hk & -> & Hd & Hs); [lia|].
    exists (S k), d. simpl. split_and!; [lia|f_equal; lia|lia|lia|lia].
Qed.

Lemma month_go_complete lens m k d :
  Forall (λ l, 0 < l) lens → (k < length lens)%nat → 1 ≤ d ≤ nth k lens 0 →
  month_go m lens (lsum (take k lens) + (d - 1)) = (m + Z.of_nat k, d).
Proof.
  intros Hpos. revert m k. induction Hpos as [|l lens Hl Hpos IH]; intros m k Hk Hd; simpl in *; [lia|].
  destruct k as [|k]; simpl in *.
  - destruct (Z.ltb_spec (0 + (d - 1)) l); [f_equal; lia|lia].
  - assert (0 ≤ lsum (take k lens)) as Hs.
    { clear -Hpos. revert k. induction Hpos as [|? ? ? ? IH]; intros [|k]; simpl; try lia.
      specialize (IH k). lia. }
    replace (l + lsum (take k lens) + (d - 1) <? l) with false by (symmetry; apply Z.ltb_ge; lia).
    replace (l + lsum (take k lens) + (d - 1) - l) with (lsum (take k lens) + (d - 1)) by lia.
    rewrite IH by lia. f_equal; lia.
Qed.

Lemma month_lengths_sum leap : lsum (month_lengths leap) = 365 + Z.b2z leap.
Proof. by destruct leap. Qed.
Lemma month_lengths_pos leap : Forall (λ l, 0 < l) (month_lengths leap).
Proof. destruct leap; repeat constructor. Qed.

Definition valid_date (y m d : Z) : Prop := 1 ≤ m ≤ 12 ∧ 1 ≤ d ≤ daysIn m y.

Lemma date_days_norm y m d : 1 ≤ m ≤ 12 → date_days y m d = year_days y + days_before (isLeap y) m + (d - 1).
Proof.
  intros. unfold date_days.
  rewrite Z.div_small, Z.mod_small by lia. by rewrite Z.add_0_r, Z.sub_add.
Qed.

Lemma date_in_year y m d :
  valid_date y m d → 0 ≤ days_before (isLeap y) m + (d - 1) < 365 + Z.b2z (isLeap y).
Proof.
  intros [Hm Hd]. unfold daysIn in Hd.
  assert (m = 1 ∨ m = 2 ∨ m = 3 ∨ m = 4 ∨ m = 5 ∨ m = 6 ∨ m = 7 ∨ m = 8 ∨ m = 9 ∨ m = 10 ∨ m = 11 ∨ m = 12)
    as Hcase by lia.
  destruct (isLeap y); repeat destruct Hcase as [->|Hcase]; try subst m;
    unfold days_before; simpl in Hd |- *; lia.
Qed.

Lemma year_of_unique y d : year_days y ≤ d < year_days (y + 1) → year_of d = y.
Proof.
  intros H. pose proof (year_of_bounds d).
  destruct (Z.lt_trichotomy (year_of d) y) as [Hlt|[Heq|Hgt]]; [|done|]; exfalso.
  - assert (year_days (year_of d + 1) ≤ year_days y); [|lia].
    destruct (decide (year_of d + 1 = y)) as [->|]; [done|].
    pose proof (year_days_mono (year_of d + 1) y). lia.
  - assert (year_days (y + 1) ≤ year_days (year_of d)); [|lia].
    destruct (decide (y + 1 = year_of d)) as [->|]; [done|].
    pose proof (year_days_mono (y + 1) (year_of d)). lia.
Qed.

(** The date of a day number is a date of the calendar, and time.Date gives the
    day number back. *)
Lemma civil_valid d : ∃ y m dd, civil d = (y, m, dd) ∧ valid_date y m dd ∧ date_days y m dd = d.
Proof.
  unfold civil. pose proof (year_of_bounds d) as Hb. rewrite year_days_step in Hb.
  set (y := year_of d) in *. clearbody y.
  destruct (month_go_sound (month_lengths (isLeap y)) 1 (d - year_days y)) as (k & dd & Hk & -> & Hd & Hs).
  { rewrite month_lengths_sum. lia. }
  assert (length (month_lengths (isLeap y)) = 12%nat) as Hlen by (by destruct (isLeap y)).
  rewrite Hlen in Hk.
  exists y, (1 + Z.of_nat k), dd. split; [done|].
  assert (Z.to_nat (1 + Z.of_nat k - 1) = k) as Ek by lia.
  split; [split; [lia|by unfold daysIn; rewrite Ek]|].
  rewrite date_days_norm by lia. unfold days_before. rewrite Ek.
  lia.
Qed.

Lemma civil_date y m d : valid_date y m d → civil (date_days y m d) = (y, m, d).
Proof.
  intros Hv. pose proof (date_in_year _ _ _ Hv) as Hin. destruct Hv as [Hm Hd].
  rewrite date_days_norm by done. unfold civil.
  assert (year_of (year_days y + days_before (isLeap y) m + (d - 1)) = y) as ->.
  { apply year_of_unique. rewrite year_days_step. lia. }
  replace (year_days y + days_before (isLeap y) m + (d - 1) - year_days y)
    with (days_before (isLeap y) m + (d - 1)) by lia.
  unfold days_before.
  rewrite month_go_complete; [|apply month_lengths_pos| |done].
  - f_equal. f_equal. lia.
  - destruct (isLeap y); simpl; lia.
Qed.

(** Later dates have larger day numbers. *)
Lemma date_days_lt y m d y' m' d' :
  valid_date y m d → valid_date y' m' d' →
  y < y' ∨ (y = y' ∧ (m < m' ∨ (m = m' ∧ d < d'))) →
  date_days y m d < date_days y' m' d'.
Proof.
  intros Hv Hv' Hlt. pose proof (date_in_year _ _ _ Hv). pose proof (date_in_year _ _ _ Hv').
  destruct Hv as [Hm Hd], Hv' as [Hm' Hd']. rewrite !date_days_norm by done.
  destruct Hlt as [Hlt|[-> Hlt]].
  - pose proof (year_days_step y).
    assert (year_days (y + 1) ≤ year_days y'); [|lia].
    destruct (decide (y + 1 = y')) as [->|]; [done|]. pose proof (year_days_mono (y + 1) y'). lia.
  - destruct Hlt as [Hlt|[-> Hlt]]; [|lia].
    assert (days_before (isLeap y') m + daysIn m y' ≤ days_before (isLeap y') m'); [|lia].
    unfold days_before, daysIn.
    set (k := Z.to_nat (m - 1)). set (j := Z.to_nat (m' - 1)).
    assert (k < j)%nat as Hkj by (subst k j; lia). assert (j < 12)%nat as Hj by (subst j; lia).
    clearbody k j. clear -Hkj Hj.
    destruct (isLeap y'); do 12 (destruct k as [|k]; [do 12 (destruct j as [|j]; [vm_compute; first [lia|congruence]|]); lia|]); lia.
Qed.

(** ** Format *)

Definition digit_char (k : Z) : ascii := ascii_of_N (Z.to_N (48 + k)).

(** The [w] low decimal digits of [n]. *)
Fixpoint dec (w : nat) (n : Z) : string :=
  match w with
  | O => EmptyString
  | S w' => dec w' (n / 10) +:+ String (digit_char (n mod 10)) EmptyString
  end.

(** appendInt: at least [w] digits, with a sign for a negative number. *)
Definition appendInt (x : Z) (w : nat) : string :=
  (if x <? 0 then "-" else "") +:+
  (if Z.abs x <? 10 ^ Z.of_nat w then dec w (Z.abs x) else FormatInt (Z.abs x)).

(** A fraction of [w] digits with its trailing zeros left off. *)
Fixpoint trim_frac (w : nat) (n : Z) : string :=
  match w with
  | O => EmptyString
  | S w' => if n mod 10 =? 0 then trim_frac w' (n / 10) else dec w n
  end.

(** Format with the layout 20060102T150405.000000, in UTC. *)
Definition Format_jid (t : Z) : string :=
  let '(y, m, d) := civil (days_of (secs_of t)) in
  let '(h, mi, s) := clock_of (secs_of t) in
  appendInt y 4 +:+ dec 2 m +:+ dec 2 d +:+ "T" +:+ dec 2 h +:+ dec 2 mi +:+ dec 2 s +:+
  "." +:+ dec 6 (Nanosec t / 1000).

(** Format with time.RFC3339Nano, in UTC. *)
Definition Format_RFC3339Nano (t : Z) : string :=
  let '(y, m, d) := civil (days_of (secs_of t)) in
  let '(h, mi, s) := clock_of (secs_of t) in
  appendInt y 4 +:+ "-" +:+ dec 2 m +:+ "-" +:+ dec 2 d +:+ "T" +:+
  dec 2 h +:+ ":" +:+ dec 2 mi +:+ ":" +:+ dec 2 s +:+
  (if Nanosec t =? 0 then "" else "." +:+ trim_frac 9 (Nanosec t)) +:+ "Z".

(** Format with time.RFC3339, in UTC. *)
Definition Format_RFC3339 (t : Z) : string :=
  let '(y, m, d) := civil (days_of (secs_of t)) in
  let '(h, mi, s) := clock_of (secs_of t) in
  appendInt y 4 +:+ "-" +:+ dec 2 m +:+ "-" +:+ dec 2 d +:+ "T" +:+
  dec 2 h +:+ ":" +:+ dec 2 mi +:+ ":" +:+ dec 2 s +:+ "Z".

(** ** Parse *)

Definition isDigit (a : ascii) : bool := in_range 48 57 (byte_of a).

(** atoi of package time: an optional sign and digits, possibly none. *)
Definition time_atoi (s : string) : option Z :=
  match s with
  | String "-" r => Z.opp <$> digits_go 0 r
  | String "+" r => digits_go 0 r
  | _ => digits_go 0 s
  end.

(** getnum: one or two digits, or exactly two when [fixed]. *)
Definition getnum (s : string) (fixed : bool) : option (Z * string) :=
  match s with
  | String a r =>
      x ← digit_of a;
      match r with
      | String b r' =>
          match digit_of b with
          | Some y => Some (x * 10 + y, r')
          | None => if fixed then None else Some (x, r)
          end
      | EmptyString => if fixed then None else Some (x, r)
      end
  | EmptyString => None
  end.

(** A number in a range, or the range error. *)
Definition getrange (s : string) (fixed : bool) (lo hi : Z) : option (Z * string) :=
  '(n, r) ← getnum s fixed;
  if in_range lo hi n then Some (n, r) else None.

Definition parse_year (s : string) : option (Z * string) :=
  match s with
  | String a _ =>
      if (4 <=? String.length s)%nat && isDigit a then
        y ← time_atoi (stake 4 s); Some (y, sdrop 4 s)
      else None
  | EmptyString => None
  end.

Definition expect (c : ascii) (s : string) : option string :=
  match s with
  | String a r => if decide (a = c) then Some r else None
  | EmptyString => None
  end.

Definition commaOrPeriod (a : ascii) : bool := bool_decide (a = "."%char) || bool_decide (a = ","%char).

(** parseNanoseconds: the separator and [n] digits, of which nine count. *)
Definition parseNanoseconds (s : string) (n : nat) : option Z :=
  match s with
  | String a r =>
      if commaOrPeriod a then
        let n := Nat.min n 9 in
        v ← time_atoi (stake n r);
        if v <? 0 then None else Some (v * 10 ^ (9 - Z.of_nat n))
      else None
  | EmptyString => None
  end.

(** The checks on the day, and the instant in UTC. *)
Definition finish_date (y m d h mi s ns : Z) : option Z :=
  if (1 <=? d) && (d <=? daysIn m y) then Some (Date_utc y m d h mi s ns) else None.

(** Parse with the layout 20060102T150405.000000. *)
Definition Parse_jid (v : string) : option Z :=
  '(y, v) ← parse_year v;
  '(m, v) ← getrange v true 1 12;
  '(d, v) ← getnum v true;
  v ← expect "T" v;
  '(h, v) ← getrange v false 0 23;
  '(mi, v) ← getrange v true 0 59;
  '(s, v) ← getrange v true 0 59;
  if (String.length v <? 7)%nat then None else
  ns ← parseNanoseconds v 6;
  if bool_decide (sdrop 7 v = "") then finish_date y m d h mi s ns else None.

(** The digits at the front of a string. *)
Fixpoint digit_run (s : string) : nat :=
  match s with
  | String a r => if isDigit a then S (digit_run r) else O
  | EmptyString => O
  end.

(** An optional fraction: a separator followed by a digit, then every digit. *)
Definition opt_frac (v : string) : option (Z * string) :=
  match v with
  | String a (String b _ as r) =>
      if commaOrPeriod a && isDigit b then
        ns ← parseNanoseconds v (digit_run r); Some (ns, sdrop (digit_run r) r)
      else Some (0, v)
  | _ => Some (0, v)
  end.

(** The zone of Z07:00: a Z, or an offset in seconds east of UTC.  Offsets of 24
    hours and of 60 minutes are let through. *)
Definition parse_zone (v : string) : option (Z * string) :=
  match v with
  | String sg r =>
      if decide (sg = "Z"%char) then Some (0, r) else
      '(h, r) ← getrange r true 0 24;
      r ← expect ":" r;
      '(m, r) ← getrange r true 0 60;
      if decide (sg = "+"%char) then Some ((h * 60 + m) * 60, r)
      else if decide (sg = "-"%char) then Some (- ((h * 60 + m) * 60), r)
      else None
  | EmptyString => None
  end.

(** Parse with time.RFC3339Nano. *)
Definition Parse_RFC3339Nano (v : string) : option Z :=
  '(y, v) ← parse_year v;
  v ← expect "-" v;
  '(m, v) ← getrange v true 1 12;
  v ← expect "-" v;
  '(d, v) ← getnum v true;
  v ← expect "T" v;
  '(h, v) ← getrange v false 0 23;
  v ← expect ":" v;
  '(mi, v) ← getrange v true 0 59;
  v ← expect ":" v;
  '(s, v) ← getrange v true 0 59;
  '(ns, v) ← opt_frac v;
  '(off, v) ← parse_zone v;
  if bool_decide (v = "") then
    t ← finish_date y m d h mi s ns; Some (t - off * Second)
  else None.

Example jid_of_instant :
  Format_jid (Date_utc 2026 8 19 14 22 11 23456789) = "20260819T142211.023456" ∧
  Parse_jid "20260819T142211.+23456" = Some (Date_utc 2026 8 19 14 22 11 23456000) ∧
  Parse_jid "20260230T142211.000000" = None ∧
  Format_RFC3339Nano (Date_utc 2024 2 29 23 59 59 120000000) = "2024-02-29T23:59:59.12Z" ∧
  Parse_RFC3339Nano "2024-02-29T23:59:59.12+02:00" = Some (Date_utc 2024 2 29 21 59 59 120000000) ∧
  Format_RFC3339 0 = "0001-01-01T00:00:00Z".
Proof. by vm_compute. Qed.

(** ** What is written is read back *)

Lemma digit_of_char k : 0 ≤ k < 10 → digit_of (digit_char k) = Some k.
Proof.
  intros. assert (k = 0 ∨ k = 1 ∨ k = 2 ∨ k = 3 ∨ k = 4 ∨ k = 5 ∨ k = 6 ∨ k = 7 ∨ k = 8 ∨ k = 9) as Hk by lia.
  repeat destruct Hk as [->|Hk]; try subst k; reflexivity.
Qed.

Lemma isDigit_char k : 0 ≤ k < 10 → isDigit (digit_char k) = true.
Proof.
  intros Hk. pose proof (digit_of_char k Hk) as H. unfold digit_of in H. unfold isDigit.
  by destruct (in_range 48 57 _).
Qed.

Lemma dec_S w n r : dec (S w) n +:+ r = dec w (n / 10) +:+ String (digit_char (n mod 10)) r.
Proof. simpl. by rewrite string_app_assoc. Qed.

Lemma slength_app (s t : string) : String.length (s +:+ t) = (String.length s + String.length t)%nat.
Proof. induction s as [|a s IH]; simpl; [done|]. by rewrite IH. Qed.

Lemma dec_length w n : String.length (dec w n) = w.
Proof.
  revert n. induction w as [|w IH]; intros n; [done|]. simpl.
  rewrite slength_app, IH. simpl. lia.
Qed.

Lemma digits_go_dec w n acc r :
  digits_go acc (dec w n +:+ r) = digits_go (acc * 10 ^ Z.of_nat w + n mod 10 ^ Z.of_nat w) r.
Proof.
  revert n acc r. induction w as [|w IH]; intros n acc r.
  - simpl. f_equal. rewrite Z.mod_1_r. lia.
  - rewrite dec_S, IH. cbn [digits_go]. rewrite digit_of_char by (apply Z.mod_pos_bound; lia). simpl.
    f_equal. rewrite Nat2Z.inj_succ, Z.pow_succ_r by lia.
    rewrite (Z.rem_mul_r n 10 (10 ^ Z.of_nat w)) by (try lia; apply Z.pow_pos_nonneg; lia). lia.
Qed.

Lemma dec_first w n r : ∃ k r', dec (S w) n +:+ r = String (digit_char k) r' ∧ 0 ≤ k < 10.
Proof.
  revert n r. induction w as [|w IH]; intros n r.
  - exists (n mod 10), r. split; [done|]. apply Z.mod_pos_bound; lia.
  - rewrite dec_S. apply IH.
Qed.

Lemma digit_not_sign k r : 0 ≤ k < 10 → time_atoi (String (digit_char k) r) = digits_go 0 (String (digit_char k) r).
Proof.
  intros. assert (k = 0 ∨ k = 1 ∨ k = 2 ∨ k = 3 ∨ k = 4 ∨ k = 5 ∨ k = 6 ∨ k = 7 ∨ k = 8 ∨ k = 9) as Hk by lia.
  repeat destruct Hk as [->|Hk]; try subst k; reflexivity.
Qed.

Lemma time_atoi_dec w n : 0 ≤ n < 10 ^ Z.of_nat w → time_atoi (dec w n) = Some n.
Proof.
  intros Hn. assert (digits_go 0 (dec w n) = Some n) as Hd.
  { rewrite <- (string_app_nil_r (dec w n)), digits_go_dec. simpl. f_equal. rewrite Z.mod_small; lia. }
  destruct w as [|w]; [by simpl in *|].
  destruct (dec_first w n "") as (k & r & E & Hk). rewrite string_app_nil_r in E.
  rewrite E in *. by rewrite digit_not_sign.
Qed.

Lemma stake_dec w n r : stake w (dec w n +:+ r) = dec w n.
Proof. rewrite <- (dec_length w n) at 1. apply stake_app. Qed.
Lemma sdrop_dec w n r : sdrop w (dec w n +:+ r) = r.
Proof. rewrite <- (dec_length w n) at 1. apply sdrop_app. Qed.

Lemma parse_year_dec y r : 0 ≤ y < 10000 → parse_year (appendInt y 4 +:+ r) = Some (y, r).
Proof.
  intros Hy. unfold appendInt.
  destruct (Z.ltb_spec y 0); [lia|]. rewrite Z.abs_eq by lia.
  destruct (Z.ltb_spec y (10 ^ Z.of_nat 4)) as [Hlt|]; [|simpl in *; lia].
  change ("" +:+ dec 4 y) with (dec 4 y).
  assert ((4 <=? String.length (dec 4 y +:+ r))%nat = true) as Hlen.
  { apply Nat.leb_le. rewrite slength_app, dec_length. lia. }
  unfold parse_year. destruct (dec_first 3 y r) as (k & r' & E & Hk). rewrite E in *.
  rewrite Hlen, isDigit_char by done. cbn [andb]. rewrite <- E, stake_dec, sdrop_dec, time_atoi_dec; [done|].
  simpl. lia.
Qed.

Lemma getnum_dec n r fixed : 0 ≤ n < 100 → getnum (dec 2 n +:+ r) fixed = Some (n, r).
Proof.
  intros Hn. simpl. rewrite !digit_of_char by (apply Z.mod_pos_bound; lia). simpl.
  do 2 f_equal. Z.div_mod_to_equations; lia.
Qed.

Lemma getrange_dec n r fixed lo hi :
  0 ≤ n < 100 → lo ≤ n ≤ hi → getrange (dec 2 n +:+ r) fixed lo hi = Some (n, r).
Proof.
  intros Hn Hr. unfold getrange. rewrite getnum_dec by done. simpl.
  unfold in_range. destruct (Z.leb_spec lo n), (Z.leb_spec n hi); simpl; done || lia.
Qed.

Lemma expect_same c r : expect c (String c "" +:+ r) = Some r.
Proof. simpl. by rewrite decide_True. Qed.

(** The fields of an instant are in their ranges. *)
Lemma clock_fields s h mi sc :
  clock_of s = (h, mi, sc) →
  0 ≤ h ≤ 23 ∧ 0 ≤ mi ≤ 59 ∧ 0 ≤ sc ≤ 59 ∧ s = days_of s * 86400 + h * 3600 + mi * 60 + sc.
Proof.
  unfold clock_of, days_of. intros [= <- <- <-]. Z.div_mod_to_equations; lia.
Qed.

Lemma daysIn_bounds m y : 1 ≤ m ≤ 12 → 28 ≤ daysIn m y ≤ 31.
Proof.
  intros. unfold daysIn.
  assert (m = 1 ∨ m = 2 ∨ m = 3 ∨ m = 4 ∨ m = 5 ∨ m = 6 ∨ m = 7 ∨ m = 8 ∨ m = 9 ∨ m = 10 ∨ m = 11 ∨ m = 12)
    as Hcase by lia.
  destruct (isLeap y); repeat destruct Hcase as [->|Hcase]; try subst m; simpl; lia.
Qed.

(** The year of an instant has four digits. *)
Definition four_digit (t : Z) : Prop := 0 ≤ (civil (days_of (secs_of t))).1.1 < 10000.

Lemma finish_date_fields t y m d h mi s ns :
  civil (days_of (secs_of t)) = (y, m, d) → clock_of (secs_of t) = (h, mi, s) →
  finish_date y m d h mi s ns = Some (secs_of t * Second + ns).
Proof.
  intros Hc Hk. destruct (civil_valid (days_of (secs_of t))) as (y' & m' & d' & E & [Hm Hd] & Hdays).
  rewrite Hc in E. simplify_eq.
  unfold finish_date. destruct (Z.leb_spec 1 d'), (Z.leb_spec d' (daysIn m' y')); try lia. simpl.
  f_equal. unfold Date_utc, date_secs. rewrite Hdays.
  apply clock_fields in Hk. destruct Hk as (_ & _ & _ & Hs). lia.
Qed.

Lemma parseNanoseconds_dec w n r :
  (w ≤ 9)%nat → 0 ≤ n < 10 ^ Z.of_nat w →
  parseNanoseconds (String "." (dec w n +:+ r)) w = Some (n * 10 ^ (9 - Z.of_nat w)).
Proof.
  intros Hw Hn. unfold parseNanoseconds. change (commaOrPeriod ".") with true. cbn beta iota zeta.
  rewrite Nat.min_l by lia. rewrite stake_dec, time_atoi_dec by done. cbn [mbind option_bind].
  destruct (Z.ltb_spec n 0); [lia|done].
Qed.

(** One field of a layout, read off the front of what Format wrote. *)
Ltac parse_field :=
  first [ rewrite parse_year_dec by lia | rewrite getrange_dec by lia | rewrite getnum_dec by lia
        | rewrite expect_same ]; cbn [mbind option_bind].
Ltac split_instant t :=
  let y := fresh "y" in let m := fresh "m" in let d := fresh "d" in
  let h := fresh "h" in let mi := fresh "mi" in let s := fresh "s" in
  destruct (civil (days_of (secs_of t))) as [[y m] d] eqn:Hc; cbn [fst] in *;
  destruct (clock_of (secs_of t)) as [[h mi] s] eqn:Hk;
  let E := fresh in let Hm := fresh "Hm" in
  destruct (civil_valid (days_of (secs_of t))) as (? & ? & ? & E & [Hm ?] & _);
  rewrite Hc in E; injection E as <- <- <-;
  pose proof (daysIn_bounds m y Hm);
  pose proof (clock_fields _ _ _ _ Hk) as (? & ? & ? & _).

Lemma Parse_Format_jid t :
  four_digit t → Parse_jid (Format_jid t) = Some (Truncate t Microsecond).
Proof.
  unfold four_digit, Format_jid, Parse_jid. intros Hy. split_instant t.
  repeat parse_field.
  change ("." +:+ dec 6 (Nanosec t / 1000)) with (String "." (dec 6 (Nanosec t / 1000))).
  rewrite <- (string_app_nil_r (dec 6 _)).
  assert (0 ≤ Nanosec t / 1000 < 10 ^ Z.of_nat 6) as Hns.
  { unfold Nanosec, Second. simpl. Z.div_mod_to_equations; lia. }
  rewrite parseNanoseconds_dec by (done || lia).
  change (sdrop 7 (String "." (dec 6 (Nanosec t / 1000) +:+ "")))
    with (sdrop 6 (dec 6 (Nanosec t / 1000) +:+ "")).
  rewrite sdrop_dec. cbn [String.length]. rewrite slength_app, dec_length. simpl.
  rewrite (finish_date_fields t) by done. f_equal.
  unfold secs_of, Nanosec, Truncate, Second, Microsecond. Z.div_mod_to_equations; lia.
Qed.

(** A fraction without its trailing zeros has the same value. *)
Lemma trim_frac_dec w n :
  0 ≤ n < 10 ^ Z.of_nat w →
  ∃ k v, (k ≤ w)%nat ∧ trim_frac w n = dec k v ∧ 0 ≤ v < 10 ^ Z.of_nat k ∧
    n = v * 10 ^ (Z.of_nat w - Z.of_nat k) ∧ (k = 0%nat → n = 0).
Proof.
  revert n. induction w as [|w IH]; intros n Hn.
  - exists 0%nat, 0. simpl in *. split_and!; lia || done.
  - rewrite Nat2Z.inj_succ, Z.pow_succ_r in Hn by lia. cbn [trim_frac].
    destruct (Z.eqb_spec (n mod 10) 0) as [Hz|Hz].
    + destruct (IH (n / 10)) as (k & v & Hkw & -> & Hv & E & H0).
      { split; [apply Z.div_pos; lia|apply Z.div_lt_upper_bound; lia]. }
      exists k, v. assert (n = 10 * (n / 10)) as En by (Z.div_mod_to_equations; lia).
      split_and!; [lia|done|lia|lia| |intros; rewrite En, H0 by done; lia].
      replace (Z.of_nat (S w) - Z.of_nat k) with (Z.succ (Z.of_nat w - Z.of_nat k)) by lia.
      rewrite Z.pow_succ_r by lia. rewrite En at 1. rewrite E. ring.
    + exists (S w), n. rewrite Nat2Z.inj_succ, Z.pow_succ_r by lia.
      split_and!; [lia|done|lia|lia|rewrite Z.sub_diag; simpl; lia|lia].
Qed.

Lemma digit_run_dec w n r : digit_run (dec w n +:+ String "Z" r) = w.
Proof.
  assert (∀ q, digit_run (dec w n +:+ q) = (w + digit_run q)%nat) as H.
  { revert n. induction w as [|w IH]; intros n q; [done|].
    rewrite dec_S, IH. cbn [digit_run]. rewrite isDigit_char by (apply Z.mod_pos_bound; lia). lia. }
  rewrite H. simpl. lia.
Qed.

Lemma opt_frac_dec ns :
  0 ≤ ns < Second →
  opt_frac ((if ns =? 0 then "" else "." +:+ trim_frac 9 ns) +:+ "Z") = Some (ns, "Z").
Proof.
  intros Hns. destruct (Z.eqb_spec ns 0) as [->|Hnz]; [done|].
  destruct (trim_frac_dec 9 ns) as (k & v & Hk & -> & Hv & E & H0); [done|].
  destruct k as [|k]; [by rewrite H0 in Hnz|].
  change (("." +:+ dec (S k) v) +:+ "Z") with (String "." (dec (S k) v +:+ "Z")).
  destruct (dec_first k v "Z") as (c & r' & Ed & Hc).
  assert (digit_run (dec (S k) v +:+ "Z") = S k) as Hrun by apply digit_run_dec.
  assert (sdrop (S k) (dec (S k) v +:+ "Z") = "Z") as Hdrop by apply sdrop_dec.
  assert (parseNanoseconds (String "." (dec (S k) v +:+ "Z")) (S k) = Some ns) as Hp.
  { rewrite parseNanoseconds_dec by done. by f_equal. }
  rewrite Ed in *. unfold opt_frac. rewrite isDigit_char by done.
  change (commaOrPeriod ".") with true. cbn [andb]. rewrite Hrun, Hp. cbn [mbind option_bind]. by rewrite Hdrop.
Qed.

Lemma Parse_Format_RFC3339Nano t :
  four_digit t → Parse_RFC3339Nano (Format_RFC3339Nano t) = Some t.
Proof.
  unfold four_digit, Format_RFC3339Nano, Parse_RFC3339Nano. intros Hy. split_instant t.
  repeat parse_field.
  rewrite opt_frac_dec by (apply Z.mod_pos_bound; done). cbn [mbind option_bind].
  simpl parse_zone. cbn [mbind option_bind]. rewrite bool_decide_true by done.
  rewrite (finish_date_fields t) by done. simpl. f_equal.
  unfold secs_of, Nanosec, Second. Z.div_mod_to_equations; lia.
Qed.

(** ** The text order of identifiers is the order of the instants *)

Definition then_compare (c c' : comparison) : comparison := match c with Eq => c' | _ => c end.

Lemma compare_app s t r r' :
  String.length s = String.length t →
  String.compare (s +:+ r) (t +:+ r') = then_compare (String.compare s t) (String.compare r r').
Proof.
  revert t. induction s as [|a s IH]; intros [|b t] Hl; simplify_eq/=; [done|].
  destruct (Ascii.compare a b); simpl; [by apply IH|done..].
Qed.

Lemma digit_compare a b :
  0 ≤ a < 10 → 0 ≤ b < 10 → Ascii.compare (digit_char a) (digit_char b) = (a ?= b).
Proof.
  intros Ha Hb. unfold Ascii.compare, digit_char. rewrite !N_ascii_embedding by lia.
  rewrite <- N2Z.inj_compare, !Z2N.id by lia. by rewrite Z.add_compare_mono_l.
Qed.

Lemma compare_digits n m : n / 10 = m / 10 → (n mod 10 ?= m mod 10) = (n ?= m).
Proof.
  intros E. destruct (Z.compare_spec n m); destruct (Z.compare_spec (n mod 10) (m mod 10));
    try done; Z.div_mod_to_equations; lia.
Qed.

Lemma dec_compare w n m r r' :
  0 ≤ n < 10 ^ Z.of_nat w → 0 ≤ m < 10 ^ Z.of_nat w →
  String.compare (dec w n +:+ r) (dec w m +:+ r') = then_compare (n ?= m) (String.compare r r').
Proof.
  revert n m r r'. induction w as [|w IH]; intros n m r r' Hn Hm.
  - simpl in *. assert (n = 0) as -> by lia. assert (m = 0) as -> by lia. done.
  - rewrite Nat2Z.inj_succ, Z.pow_succ_r in Hn, Hm by lia.
    rewrite !dec_S, IH by (split; [apply Z.div_pos|apply Z.div_lt_upper_bound]; lia).
    cbn [String.compare]. rewrite digit_compare by (apply Z.mod_pos_bound; lia).
    destruct (Z.compare_spec (n / 10) (m / 10)) as [E|Hlt|Hgt]; simpl.
    + rewrite compare_digits by done. by destruct (n ?= m).
    + replace (n ?= m) with Lt; [done|]. symmetry. apply Z.compare_lt_iff. Z.div_mod_to_equations; lia.
    + replace (n ?= m) with Gt; [done|]. symmetry. apply Z.compare_gt_iff. Z.div_mod_to_equations; lia.
Qed.

Lemma appendInt_small y : 0 ≤ y < 10000 → appendInt y 4 = dec 4 y.
Proof.
  intros. unfold appendInt. destruct (Z.ltb_spec y 0); [lia|]. rewrite Z.abs_eq by lia.
  destruct (Z.ltb_spec y (10 ^ Z.of_nat 4)); [done|simpl in *; lia].
Qed.

Lemma then_compare_Lt c c' : then_compare c c' = Lt ↔ c = Lt ∨ (c = Eq ∧ c' = Lt).
Proof. destruct c; simpl; naive_solver. Qed.

(** The calendar orders days. *)
Lemma civil_lt a b y m d y' m' d' :
  civil a = (y, m, d) → civil b = (y', m', d') → a < b →
  y < y' ∨ (y = y' ∧ (m < m' ∨ (m = m' ∧ d < d'))).
Proof.
  intros Ha Hb Hlt.
  destruct (civil_valid a) as (? & ? & ? & E & Hv & Ea). rewrite Ha in E. simplify_eq.
  destruct (civil_valid b) as (? & ? & ? & E & Hv' & Eb). rewrite Hb in E. simplify_eq.
  destruct (decide (x < x2 ∨ x = x2 ∧ (x0 < x3 ∨ x0 = x3 ∧ x1 < x4))) as [H|H]; [done|exfalso].
  assert ((x = x2 ∧ x0 = x3 ∧ x1 = x4) ∨ x2 < x ∨ (x2 = x ∧ (x3 < x0 ∨ (x3 = x0 ∧ x4 < x1)))) as [(-> & -> & ->)|Hgt] by lia.
  - lia.
  - pose proof (date_days_lt _ _ _ _ _ _ Hv' Hv Hgt). lia.
Qed.

Lemma clock_lt s s' h mi sc h' mi' sc' :
  clock_of s = (h, mi, sc) → clock_of s' = (h', mi', sc') → days_of s = days_of s' → s < s' →
  h < h' ∨ (h = h' ∧ (mi < mi' ∨ (mi = mi' ∧ sc < sc'))).
Proof.
  intros Hs Hs' Hd Hlt. apply clock_fields in Hs, Hs'. lia.
Qed.

(** time.Date followed by the field accessors. *)
Lemma Date_utc_fields y m d h mi s ns :
  valid_date y m d → 0 ≤ h ≤ 23 → 0 ≤ mi ≤ 59 → 0 ≤ s ≤ 59 → 0 ≤ ns < Second →
  let t := Date_utc y m d h mi s ns in
  civil (days_of (secs_of t)) = (y, m, d) ∧ clock_of (secs_of t) = (h, mi, s) ∧ Nanosec t = ns.
Proof.
  intros Hv Hh Hmi Hs Hns t.
  assert (secs_of t = date_secs y m d h mi s ∧ Nanosec t = ns) as [-> ->].
  { subst t. unfold secs_of, Nanosec, Date_utc, Second in *. Z.div_mod_to_equations; lia. }
  assert (days_of (date_secs y m d h mi s) = date_days y m d) as ->.
  { unfold days_of, date_secs. Z.div_mod_to_equations; lia. }
  rewrite civil_date by done. split_and!; [done| |done].
  unfold clock_of, date_secs.
  replace ((date_days y m d * 86400 + h * 3600 + mi * 60 + s) mod 86400) with (h * 3600 + mi * 60 + s)
    by (Z.div_mod_to_equations; lia).
  f_equal; [f_equal|]; Z.div_mod_to_equations; lia.
Qed.

Lemma getrange_inv n r fixed lo hi x :
  0 ≤ n < 100 → getrange (dec 2 n +:+ r) fixed lo hi = Some x → x = (n, r) ∧ lo ≤ n ≤ hi.
Proof.
  intros Hn. unfold getrange. rewrite getnum_dec by done. simpl. unfold in_range.
  destruct (Z.leb_spec lo n), (Z.leb_spec n hi); simpl; intros ?; simplify_eq; done.
Qed.

(** ** Times are written in ASCII *)

Lemma dec_ascii w n : sall ascii_c (dec w n).
Proof.
  revert n. induction w as [|w IH]; intros n; [done|]. cbn [dec]. apply sall_app. split; [apply IH|]. split; [|done].
  unfold ascii_c, byte_of, digit_char. pose proof (Z.mod_pos_bound n 10 ltac:(lia)). rewrite N_ascii_embedding by lia. lia.
Qed.
Lemma appendInt_ascii x w : sall ascii_c (appendInt x w).
Proof.
  unfold appendInt. apply sall_app. split; [by destruct (x <? 0)|]. destruct (Z.abs x <? _); [apply dec_ascii|].
  eapply sall_impl; [apply digit_ascii|]. apply (pretty_digits (Z.abs x)). lia.
Qed.
Lemma trim_frac_ascii w n : sall ascii_c (trim_frac w n).
Proof. revert n. induction w as [|w IH]; intros n; [done|]. cbn [trim_frac]. destruct (_ =? 0); [apply IH|apply dec_ascii]. Qed.

(** Strings of known bytes and numbers. *)
Ltac ascii_parts :=
  rewrite ?sall_app; split_and?; first [apply dec_ascii|apply appendInt_ascii|apply trim_frac_ascii|by repeat split|idtac].

Lemma Format_RFC3339Nano_ascii t : sall ascii_c (Format_RFC3339Nano t).
Proof.
  unfold Format_RFC3339Nano. destruct (civil _) as [[y m] d], (clock_of _) as [[h mi] s]. ascii_parts.
  destruct (Nanosec t =? 0); ascii_parts.
Qed.
Lemma Format_jid_ascii t : sall ascii_c (Format_jid t).
Proof. unfold Format_jid. destruct (civil _) as [[y m] d], (clock_of _) as [[h mi] s]. ascii_parts. Qed.
