(* ===== verification/Value.v ===== *)
(** * Package value: the data model and the ordered mapping

    Models src/internal/value/value.go, merge.go and duration.go.  A Go [any]
    that the code inspects is a [value]: the nine kinds the YAML parser may
    construct, the nil [*Map], and the two Go types outside the model that the
    code has cases for ([int] and [time.Duration]).  A [Map] is, as in the
    source, a slice of entries beside an index from the canonical key to the
    position; [map_wf] says the two agree, and every operation keeps it. *)

From Stdlib Require Import SpecFloat.
From S2P Require Import Prelude GoLib GoTime.

Open Scope Z_scope.

Record Pos := mkPos { File : string; Line : Z; Col : Z }.
Definition noPos : Pos := mkPos "" 0 0.
#[global] Instance Pos_eq_dec : EqDecision Pos.
Proof. solve_decision. Defined.

Definition Pos_IsZero (p : Pos) : bool :=
  bool_decide (File p = "") && (Line p =? 0) && (Col p =? 0).

Definition Pos_String (p : Pos) : string :=
  if bool_decide (File p = "") && (Line p =? 0) then "<unknown>"
  else if bool_decide (File p = "") then
    "line " +:+ FormatInt (Line p) +:+ ", column " +:+ FormatInt (Col p)
  else if Line p =? 0 then File p
  else File p +:+ ":" +:+ FormatInt (Line p) +:+ ":" +:+ FormatInt (Col p).

(** One key/value pair, over the type of values. *)
Record EntryOf (V : Type) := mkEntry { Key : V; Val : V; KeyPos : Pos; ValPos : Pos }.
Arguments mkEntry {V}. Arguments Key {V}. Arguments Val {V}.
Arguments KeyPos {V}. Arguments ValPos {V}.

Record MapOf_ (V : Type) := mkMap {
  entries : list (EntryOf V);
  index : gmap string nat;
  mpos : Pos }.
Arguments mkMap {V}. Arguments entries {V}. Arguments index {V}. Arguments mpos {V}.

#[warnings="-register-all"]
Inductive value :=
| VNull
| VBool (b : bool)
| VInt (z : Z)
| VFloat (f : spec_float)
| VString (s : string)
| VBinary (b : string)
| VTimestamp (t : Z)
| VSeq (l : list value)
| VMap (m : MapOf_ value)
| VNilMap
| VGoInt (z : Z)
| VGoDuration (d : Z).

Abbreviation Entry := (EntryOf value).
Abbreviation Map := (MapOf_ value).
Abbreviation Runtime := (GoRuntime value).

(** ** Kinds *)

Inductive Kind :=
| KindNull | KindBool | KindInt | KindFloat | KindString
| KindBinary | KindTimestamp | KindSeq | KindMap.

Definition Kind_String (k : Kind) : string :=
  match k with
  | KindNull => "null" | KindBool => "bool" | KindInt => "int" | KindFloat => "float"
  | KindString => "string" | KindBinary => "binary" | KindTimestamp => "timestamp"
  | KindSeq => "sequence" | KindMap => "mapping"
  end.

(** [None] is the source's [Kind(-1)], a value outside the model. *)
Definition KindOf (v : value) : option Kind :=
  match v with
  | VNull => Some KindNull
  | VBool _ => Some KindBool
  | VInt _ => Some KindInt
  | VFloat _ => Some KindFloat
  | VString _ => Some KindString
  | VBinary _ => Some KindBinary
  | VTimestamp _ => Some KindTimestamp
  | VSeq _ => Some KindSeq
  | VMap _ | VNilMap => Some KindMap
  | VGoInt _ | VGoDuration _ => None
  end.

Definition TypeName `{Runtime} (v : value) : string :=
  match KindOf v with
  | Some k => Kind_String k
  | None => TypeString v
  end.

(** ** Keys *)

Definition CanonKey `{Runtime} (k : value) : string :=
  match k with
  | VString t => "s" +:+ t
  | VInt t => "i" +:+ FormatInt t
  | VFloat t => "f" +:+ FormatFloat t
  | VBool t => "b" +:+ FormatBool t
  | VNull => "n"
  | _ => "?" +:+ Sprint k
  end.

Definition KeyString `{Runtime} (k : value) : string :=
  match k with
  | VString t => t
  | VInt t => FormatInt t
  | VFloat t => FormatFloat t
  | VBool t => FormatBool t
  | VNull => "null"
  | _ => Sprint k
  end.

(** ** The ordered mapping *)

Definition NewMap : Map := mkMap [] ∅ noPos.
Definition Len (m : Map) : nat := length (entries m).
Definition Keys (m : Map) : list value := Key <$> entries m.

Section map_ops.
Context `{Runtime}.

Definition StringKeys (m : Map) : list string := KeyString ∘ Key <$> entries m.

(** Entry: the full entry for a key.  A position out of the slice's range is
    the source's run-time panic; [map_wf] excludes it. *)
Definition Entry_ (m : Map) (k : value) : option Entry :=
  i ← index m !! CanonKey k; entries m !! i.

Definition Get (m : Map) (k : value) : option value := Val <$> Entry_ m k.
Definition GetString (m : Map) (k : string) : option value := Get m (VString k).
Definition Has (m : Map) (k : value) : bool := bool_decide (is_Some (Get m k)).

Definition SetAt (m : Map) (k v : value) (keyPos valPos : Pos) : Map :=
  let ck := CanonKey k in
  match index m !! ck with
  | Some i =>
      let upd e := mkEntry (Key e) v
        (if Pos_IsZero keyPos then KeyPos e else keyPos)
        (if Pos_IsZero valPos then ValPos e else valPos) in
      mkMap (alter upd i (entries m)) (index m) (mpos m)
  | None =>
      mkMap (entries m ++ [mkEntry k v keyPos valPos])
        (<[ck := length (entries m)]> (index m)) (mpos m)
  end.

Definition MSet (m : Map) (k v : value) : Map := SetAt m k v noPos noPos.

(** The loop of Delete that rewrites the positions of the entries from [j]
    on. *)
Fixpoint reindex (j : nat) (es : list Entry) (idx : gmap string nat) : gmap string nat :=
  match es with
  | [] => idx
  | e :: r => reindex (S j) r (<[CanonKey (Key e) := j]> idx)
  end.

Definition Delete (m : Map) (k : value) : Map * bool :=
  let ck := CanonKey k in
  match index m !! ck with
  | None => (m, false)
  | Some i =>
      let es := take i (entries m) ++ drop (S i) (entries m) in
      (mkMap es (reindex i (drop i es) (delete ck (index m))) (mpos m), true)
  end.

(** MapOf on pairs: the odd-length panic has no counterpart. *)
Definition MapOf (kv : list (value * value)) : Map :=
  foldl (λ m p, MSet m p.1 p.2) NewMap kv.

Definition set_entry (m : Map) (e : Entry) : Map :=
  SetAt m (Key e) (Val e) (KeyPos e) (ValPos e).

Definition SortedKeys (m : Map) : list string := merge_sort str_le (StringKeys m).
End map_ops.

(** Clone: a new entry list and index with the same contents. *)
Definition Clone (m : Map) : Map := mkMap (entries m) (index m) (mpos m).

(** ** Truthiness, traversal, durations *)

Definition Truthy (v : value) : bool :=
  match v with
  | VNull => false
  | VBool t => t
  | VInt t => negb (t =? 0)
  | VFloat t => negb (f64_is_zero t) && negb (f64_is_nan t)
  | VString t => bool_decide (t ≠ "")
  | VBinary t => bool_decide (String.length t ≠ 0%nat)
  | VTimestamp t => negb (t =? 0)
  | VSeq t => bool_decide (length t ≠ 0%nat)
  | VMap t => bool_decide (Len t ≠ 0%nat)
  | VNilMap => false
  | VGoInt t => negb (t =? 0)
  | VGoDuration _ => true
  end.

Section traverse.
Context `{Runtime}.

(** A non-numeric component against a list takes the first mapping in it that
    has the key. *)
Fixpoint first_with (part : string) (l : list value) : option value :=
  match l with
  | [] => None
  | VMap m :: r =>
      match Get m (VString part) with
      | Some v => Some v
      | None => first_with part r
      end
  | _ :: r => first_with part r
  end.

Definition step_into (part : string) (cur : value) : option value :=
  match cur with
  | VMap m => Get m (VString part)
  | VSeq t =>
      match Atoi part with
      | Some i =>
          if (i <? 0) || (Z.of_nat (length t) <=? i) then None else t !! Z.to_nat i
      | None => first_with part t
      end
  | _ => None
  end.

Fixpoint traverse_parts (cur : value) (parts : list string) : option value :=
  match parts with
  | [] => Some cur
  | p :: r => c ← step_into p cur; traverse_parts c r
  end.

Definition Traverse (root : value) (path delim : string) : option value :=
  if bool_decide (path = "") then Some root else traverse_parts root (Split path delim).

(** ParseDuration, in nanoseconds.  [None] is the error; a float outside the
    range of a 64-bit integer, whose conversion the language leaves to the
    implementation, is [None] too. *)
Definition seconds_of_float (t : spec_float) : option Z :=
  f64_trunc (f64_mul t (f64_of_Z Second)).

Definition ParseDuration (v : value) : option Z :=
  match v with
  | VGoDuration t => Some t
  | VGoInt t | VInt t => Some (wrap64 (t * Second))
  | VFloat t => seconds_of_float t
  | VString t =>
      match time_ParseDuration t with
      | Some d => Some d
      | None => n ← ParseFloat t; seconds_of_float n
      end
  | _ => None
  end.
End traverse.

(** ** Merging *)

Inductive Strategy := Smart | Recurse | Aggregate | Overwrite.
#[global] Instance Strategy_eq_dec : EqDecision Strategy.
Proof. solve_decision. Defined.

Definition ParseStrategy (s : string) : Strategy * bool :=
  if bool_decide (s = "smart") || bool_decide (s = "") then (Smart, true)
  else if bool_decide (s = "recurse") then (Recurse, true)
  else if bool_decide (s = "aggregate") then (Aggregate, true)
  else if bool_decide (s = "overwrite") then (Overwrite, true)
  else (Smart, false).

Definition Strategy_String (s : Strategy) : string :=
  match s with
  | Recurse => "recurse"
  | Aggregate => "aggregate"
  | Overwrite => "overwrite"
  | Smart => "smart"
  end.

Record MergeOpts := mkMergeOpts { Strat : Strategy; MergeLists : bool }.

Definition maxMergeDepth : nat := Z.to_nat 10000.
#[global] Opaque maxMergeDepth.

Section merge.
Context `{Runtime}.

Definition overwriteTop (dst src : value) : value :=
  match dst, src with
  | VMap dm, VMap sm => VMap (foldl set_entry (Clone dm) (entries sm))
  | _, _ => src
  end.

(** mergeMaps, over the merge of the values one level down. *)
Definition mergeMaps (mv : value → value → value) (dst src : Map) : Map :=
  foldl (λ out e,
    match Get out (Key e) with
    | Some cur => SetAt out (Key e) (mv cur (Val e)) (KeyPos e) (ValPos e)
    | None => set_entry out e
    end) (Clone dst) (entries src).

(** [fuel] is [maxMergeDepth + 1 - depth]: the source stops merging when the
    depth passes [maxMergeDepth], which is when no fuel is left. *)
Fixpoint mergeValue (fuel : nat) (opts : MergeOpts) (depth : nat) (dst src : value) : value :=
  match fuel with
  | O => src
  | S f =>
      if bool_decide (Strat opts = Overwrite) && (depth =? 0)%nat then overwriteTop dst src
      else
        match dst, src with
        | VMap dm, VMap sm => VMap (mergeMaps (mergeValue f opts (S depth)) dm sm)
        | VSeq dl, VSeq sl =>
            if bool_decide (Strat opts = Aggregate) || MergeLists opts
            then VSeq (dl ++ sl) else src
        | _, _ => src
        end
  end.

Definition Merge (dst src : value) (opts : MergeOpts) : value :=
  mergeValue (S maxMergeDepth) opts 0 dst src.
End merge.

(** ** The invariant of a mapping

    The index holds exactly the positions of the entries, under their
    canonical keys.  In particular no two entries have the same key. *)

Section map_invariant.
Context `{Runtime}.

Definition map_wf (m : Map) : Prop :=
  ∀ ck i, index m !! ck = Some i ↔ ∃ e, entries m !! i = Some e ∧ CanonKey (Key e) = ck.

(** The reference: a mapping is the list of its entries, searched from the
    front. *)
Definition find_entry (ck : string) (es : list Entry) : option (nat * Entry) :=
  list_find (λ e, CanonKey (Key e) = ck) es.

Definition ckeys (m : Map) : list string := CanonKey ∘ Key <$> entries m.

Lemma map_wf_unique m i j e e' :
  map_wf m → entries m !! i = Some e → entries m !! j = Some e' →
  CanonKey (Key e) = CanonKey (Key e') → i = j.
Proof.
  intros Hwf Hi Hj Heq.
  assert (index m !! CanonKey (Key e) = Some i) as H1 by (apply Hwf; eauto).
  assert (index m !! CanonKey (Key e) = Some j) as H2 by (apply Hwf; eauto).
  congruence.
Qed.

Lemma map_wf_NoDup m : map_wf m → NoDup (ckeys m).
Proof.
  intros Hwf. apply NoDup_alt. intros i j ck Hi Hj.
  unfold ckeys in *. rewrite list_lookup_fmap in Hi, Hj.
  destruct (entries m !! i) as [e|] eqn:Ei; [|done].
  destruct (entries m !! j) as [e'|] eqn:Ej; [|done]. simpl in *.
  eapply map_wf_unique; eauto. congruence.
Qed.

Lemma map_wf_find m ck :
  map_wf m → index m !! ck = fst <$> find_entry ck (entries m).
Proof.
  intros Hwf. unfold find_entry. destruct (list_find _ _) as [[i e]|] eqn:Hf; simpl.
  - apply list_find_Some in Hf as (Hi & Hk & _). apply Hwf. eauto.
  - destruct (index m !! ck) as [i|] eqn:Hi; [|done].
    apply Hwf in Hi as (e & He & Hck). apply list_find_None in Hf.
    rewrite Forall_lookup in Hf. exfalso. by eapply Hf.
Qed.

Lemma Entry_find m k :
  map_wf m → Entry_ m k = snd <$> find_entry (CanonKey k) (entries m).
Proof.
  intros Hwf. unfold Entry_. rewrite (map_wf_find _ _ Hwf).
  unfold find_entry. destruct (list_find _ _) as [[i e]|] eqn:Hf; simpl; [|done].
  by apply list_find_Some in Hf as (Hi & _).
Qed.

Lemma index_None_entry m k i e :
  map_wf m → index m !! CanonKey k = None → entries m !! i = Some e →
  CanonKey (Key e) ≠ CanonKey k.
Proof.
  intros Hwf Hn Hi Heq.
  assert (index m !! CanonKey k = Some i) by (apply Hwf; eauto). congruence.
Qed.

Lemma NewMap_wf : map_wf NewMap.
Proof.
  intros ck i. unfold NewMap; simpl. rewrite lookup_empty.
  split; [done|]. intros (e & He & _). done.
Qed.

Lemma SetAt_wf m k v kp vp : map_wf m → map_wf (SetAt m k v kp vp).
Proof.
  intros Hwf. unfold SetAt. destruct (index m !! CanonKey k) as [i|] eqn:Hk; intros ck j; simpl.
  - rewrite (Hwf ck j). set (f := λ e, mkEntry _ _ _ _).
    rewrite list_lookup_alter. case_decide; [subst|done].
    destruct (entries m !! j) as [e|] eqn:E; simpl; [|naive_solver].
    split; intros (e' & He' & Hc); simplify_eq/=; eauto.
  - rewrite lookup_insert. case_decide as Hck; subst.
    + split.
      * intros ?; simplify_eq. exists (mkEntry k v kp vp).
        rewrite lookup_app_r, Nat.sub_diag by lia. done.
      * intros (e & He & Hc). apply lookup_app_Some in He as [He|[Hlen He]].
        -- exfalso. eapply index_None_entry; eauto.
        -- destruct (j - length (entries m))%nat eqn:Ej; simplify_eq/=. f_equal. lia.
    + rewrite (Hwf ck j). split; intros (e & He & Hc).
      * exists e. split; [|done]. apply lookup_app_l_Some, He.
      * exists e. split; [|done]. apply lookup_app_Some in He as [He|[Hlen He]]; [done|].
        destruct (j - length (entries m))%nat; simplify_eq/=.
Qed.
Lemma MapOf_wf kv : map_wf (MapOf kv).
Proof. unfold MapOf. apply (foldl_inv map_wf); [apply NewMap_wf|]. intros m p _ Hm. by apply SetAt_wf. Qed.

Lemma Entry_Some m k e :
  map_wf m → Entry_ m k = Some e ↔ e ∈ entries m ∧ CanonKey (Key e) = CanonKey k.
Proof.
  intros Hwf. unfold Entry_. destruct (index m !! CanonKey k) as [i|] eqn:Hk; simpl.
  - apply Hwf in Hk as (e0 & He0 & Hc). split.
    + intros He. simplify_eq. split; [by eapply list_elem_of_lookup_2|done].
    + intros [(j & Hj)%list_elem_of_lookup Hck].
      rewrite (map_wf_unique m i j e0 e) by (done || congruence). done.
  - split; [done|]. intros [(j & Hj)%list_elem_of_lookup Hck].
    exfalso. by eapply index_None_entry.
Qed.

Lemma Entry_None m k :
  map_wf m → Entry_ m k = None ↔ CanonKey k ∉ ckeys m.
Proof.
  intros Hwf. rewrite eq_None_not_Some. unfold ckeys.
  rewrite list_elem_of_fmap. unfold is_Some. setoid_rewrite (Entry_Some m k _ Hwf).
  split; [intros Hn (e & Hc & He); apply Hn|intros Hn [e [He Hc]]; apply Hn]; eauto.
Qed.

Lemma Entry_canon m k k' : CanonKey k = CanonKey k' → Entry_ m k = Entry_ m k'.
Proof. unfold Entry_. by intros ->. Qed.

Lemma index_lookup_lt m ck i : map_wf m → index m !! ck = Some i → (i < length (entries m))%nat.
Proof. intros Hwf Hi. apply Hwf in Hi as (e & He & _). by eapply lookup_lt_Some. Qed.

Lemma Entry_SetAt m k v kp vp k' :
  map_wf m →
  Entry_ (SetAt m k v kp vp) k' =
    if decide (CanonKey k = CanonKey k') then
      Some match Entry_ m k with
           | Some e => mkEntry (Key e) v (if Pos_IsZero kp then KeyPos e else kp)
                         (if Pos_IsZero vp then ValPos e else vp)
           | None => mkEntry k v kp vp
           end
    else Entry_ m k'.
Proof.
  intros Hwf. unfold Entry_, SetAt.
  destruct (index m !! CanonKey k) as [i|] eqn:Hk; simpl.
  - apply Hwf in Hk as Hi. destruct Hi as (e & He & Hc). rewrite He.
    case_decide as Hd.
    + rewrite <-Hd, Hk; simpl. by rewrite list_lookup_alter_eq, He.
    + destruct (index m !! CanonKey k') as [j|] eqn:Hj; simpl; [|done].
      apply list_lookup_alter_ne. intros ->.
      apply Hwf in Hj as (e' & He' & Hc'). congruence.
  - case_decide as Hd.
    + rewrite <-Hd, lookup_insert_eq; simpl.
      by rewrite lookup_app_r, Nat.sub_diag by lia.
    + rewrite lookup_insert_ne by done.
      destruct (index m !! CanonKey k') as [j|] eqn:Hj; simpl; [|done].
      apply lookup_app_l. by eapply index_lookup_lt.
Qed.

Lemma Get_SetAt m k v kp vp k' :
  map_wf m →
  Get (SetAt m k v kp vp) k' =
    if decide (CanonKey k = CanonKey k') then Some v else Get m k'.
Proof.
  intros Hwf. unfold Get. rewrite Entry_SetAt by done.
  case_decide; [|done]. by destruct (Entry_ m k).
Qed.

Lemma Get_is_Some m k : map_wf m → is_Some (Get m k) ↔ CanonKey k ∈ ckeys m.
Proof.
  intros Hwf. unfold Get. rewrite fmap_is_Some, <-not_eq_None_Some, Entry_None by done.
  split; [apply dec_stable|tauto].
Qed.

(** Replacing keeps the key list; inserting appends to it. *)
Lemma Keys_SetAt m k v kp vp :
  map_wf m →
  Keys (SetAt m k v kp vp) = if decide (is_Some (Get m k)) then Keys m else Keys m ++ [k].
Proof.
  intros Hwf. unfold Get, Entry_, Keys, SetAt.
  destruct (index m !! CanonKey k) as [i|] eqn:Hk; simpl.
  - apply Hwf in Hk as (e & He & Hc). rewrite He. simpl.
    apply list_eq. intros j. rewrite !list_lookup_fmap, list_lookup_alter.
    case_decide; [subst|done]. by destruct (entries m !! j).
  - by rewrite fmap_app.
Qed.

Lemma ckeys_SetAt m k v kp vp :
  map_wf m →
  ckeys (SetAt m k v kp vp) =
    if decide (CanonKey k ∈ ckeys m) then ckeys m else ckeys m ++ [CanonKey k].
Proof.
  intros Hwf. pose proof (Keys_SetAt m k v kp vp Hwf) as HK.
  apply (f_equal (fmap CanonKey)) in HK. unfold Keys in HK.
  rewrite <-list_fmap_compose in HK. unfold ckeys at 1. rewrite HK.
  pose proof (Get_is_Some m k Hwf) as HG.
  destruct (decide (CanonKey k ∈ ckeys m)), (decide (is_Some (Get m k))); try tauto;
    rewrite ?fmap_app, <-list_fmap_compose; done.
Qed.
(** *** Delete *)

Definition has_ck (c : string) (e : Entry) : Prop := CanonKey (Key e) = c.
#[local] Instance has_ck_dec c e : Decision (has_ck c e) := decide (CanonKey (Key e) = c).

Lemma reindex_notin j es idx c :
  Forall (λ e, ¬ has_ck c e) es → reindex j es idx !! c = idx !! c.
Proof.
  intros Hall. revert j idx. induction Hall as [|e es He Hall IH]; intros j idx; simpl; [done|].
  rewrite IH. by apply lookup_insert_ne.
Qed.

Lemma reindex_lookup j es idx p e :
  NoDup (CanonKey ∘ Key <$> es) → es !! p = Some e →
  reindex j es idx !! CanonKey (Key e) = Some (j + p)%nat.
Proof.
  revert j idx p. induction es as [|x es IH]; intros j idx p; [done|].
  rewrite fmap_cons, NoDup_cons. intros [Hx Hnd] Hp. destruct p as [|p]; simplify_eq/=.
  - rewrite reindex_notin, lookup_insert_eq; [f_equal; lia|].
    apply Forall_forall. intros y Hy Heq. apply Hx, list_elem_of_fmap.
    exists y. unfold has_ck in Heq. simpl. auto.
  - rewrite (IH (S j) _ p) by done. f_equal. lia.
Qed.

Lemma remove_lookup (es : list Entry) i j :
  (i < length es)%nat →
  (take i es ++ drop (S i) es) !! j = if decide (j < i)%nat then es !! j else es !! S j.
Proof.
  intros Hi. case_decide.
  - rewrite lookup_app_l by (rewrite length_take; lia). by apply lookup_take_lt.
  - rewrite lookup_app_r by (rewrite length_take; lia).
    rewrite length_take, lookup_drop. f_equal. lia.
Qed.

(** An entry survives the removal of position [i] exactly when it was at
    another position. *)
Lemma remove_elem (es : list Entry) i e :
  (i < length es)%nat →
  e ∈ take i es ++ drop (S i) es ↔ ∃ j, j ≠ i ∧ es !! j = Some e.
Proof.
  intros Hi. rewrite list_elem_of_lookup. setoid_rewrite remove_lookup; [|done]. split.
  - intros [j Hj]. case_decide; [exists j|exists (S j)]; split; done || lia.
  - intros (j & Hne & Hj). destruct (decide (j < i)%nat).
    + exists j. by rewrite decide_True.
    + exists (pred j). rewrite decide_False by lia. replace (S (pred j)) with j by lia. done.
Qed.

Lemma Delete_wf m k : map_wf m → map_wf (Delete m k).1.
Proof.
  intros Hwf. unfold Delete. destruct (index m !! CanonKey k) as [i|] eqn:Hk; simpl; [|done].
  pose proof (index_lookup_lt _ _ _ Hwf Hk) as Hlt.
  assert (drop i (take i (entries m) ++ drop (S i) (entries m)) = drop (S i) (entries m)) as ->.
  { rewrite drop_app_length'; [done|]. rewrite length_take. lia. }
  assert (NoDup (CanonKey ∘ Key <$> drop (S i) (entries m))) as Hnd.
  { rewrite fmap_drop. eapply sublist_NoDup; [apply map_wf_NoDup, Hwf|apply sublist_drop]. }
  apply Hwf in Hk as (e0 & He0 & Hc0).
  intros c j; simpl. rewrite remove_lookup by done.
  destruct (decide (Exists (has_ck c) (drop (S i) (entries m)))) as [Hex|Hnex].
  - apply Exists_exists in Hex as (e & (p & Hp)%list_elem_of_lookup & Hc).
    unfold has_ck in Hc. subst c.
    rewrite (reindex_lookup _ _ _ p e) by done. rewrite lookup_drop in Hp. split.
    + intros ?; simplify_eq. exists e. rewrite decide_False by lia.
      by replace (S (i + p)) with (S i + p)%nat by lia.
    + intros (e' & He' & Hce). case_decide.
      * assert (j = S i + p)%nat by (eapply map_wf_unique; eauto). lia.
      * assert (S j = S i + p)%nat by (eapply map_wf_unique; eauto). f_equal. lia.
  - rewrite reindex_notin by (by apply not_Exists_Forall; [apply _|]).
    apply not_Exists_Forall in Hnex; [|apply _]. rewrite Forall_lookup in Hnex.
    split.
    + intros [Hne Hj]%lookup_delete_Some. apply Hwf in Hj as (e & He & Hc). subst c.
      exists e. split; [|done]. rewrite decide_True; [done|].
      destruct (decide (j < i)%nat); [done|].
      destruct (decide (j = i)); [congruence|]. exfalso.
      apply (Hnex (j - S i)%nat e); [|done]. rewrite lookup_drop, <-He. f_equal. lia.
    + intros (e & He & Hc). case_decide.
      * apply lookup_delete_Some. split; [|apply Hwf; eauto].
        intros Heq. assert (i = j) by (eapply (map_wf_unique m i j e0 e); eauto; congruence). lia.
      * exfalso. apply (Hnex (j - i)%nat e); [|done]. rewrite lookup_drop, <-He. f_equal. lia.
Qed.

Lemma Get_Delete m k k' :
  map_wf m →
  Get (Delete m k).1 k' = if decide (CanonKey k = CanonKey k') then None else Get m k'.
Proof.
  intros Hwf. pose proof (Delete_wf m k Hwf) as Hwf'. unfold Get.
  assert (∀ e, Entry_ (Delete m k).1 k' = Some e ↔
    (if decide (CanonKey k = CanonKey k') then None else Entry_ m k') = Some e) as He.
  { intros e. rewrite Entry_Some by done. unfold Delete in *.
    destruct (index m !! CanonKey k) as [i|] eqn:Hk; simpl.
    - pose proof (index_lookup_lt _ _ _ Hwf Hk) as Hlt. apply Hwf in Hk as (e0 & He0 & Hc0).
      rewrite remove_elem by done. case_decide as Hd.
      + split; [|done]. intros [(j & Hne & Hj) Hc]. exfalso. apply Hne.
        apply (map_wf_unique m j i e e0); try done. by rewrite Hc, Hc0.
      + rewrite Entry_Some by done. rewrite list_elem_of_lookup. split; intros [(j & Hj) Hc].
        * destruct Hj. eauto.
        * split; [|done]. exists j. split; [|done]. intros ->. apply Hd.
          by rewrite <-Hc0, <-Hc; simplify_eq.
    - case_decide as Hd; [|by rewrite Entry_Some].
      split; [|done]. intros [Hin Hc]. exfalso.
      assert (Entry_ m k = Some e) as HE by (apply Entry_Some; [done|]; rewrite Hd; eauto).
      unfold Entry_ in HE. by rewrite Hk in HE. }
  apply option_eq in He. rewrite He. by case_decide.
Qed.
End map_invariant.

(** ** Merging, proved *)

(** How deep the mappings of a value nest; a scalar or a list is 1. *)
Fixpoint vheight (v : value) : nat :=
  match v with
  | VMap m => S (max_list (map (λ e, vheight (Val e)) (entries m)))
  | _ => 1
  end.

Section merge_facts.
Context `{Runtime}.
Implicit Types (m : Map) (e : Entry).

(** Neither the merge nor the copy of a mapping looks at where the merged
    value came from: both fold an update over the source's entries. *)
Definition upd_with (mv : value → value → value) (out : Map) (e : Entry) : Map :=
  SetAt out (Key e)
    (match Get out (Key e) with Some cur => mv cur (Val e) | None => Val e end)
    (KeyPos e) (ValPos e).

Lemma mergeMaps_fold mv dst src :
  mergeMaps mv dst src = foldl (upd_with mv) dst (entries src).
Proof.
  unfold mergeMaps, Clone. destruct dst as [es idx p]; simpl.
  generalize (mkMap es idx p). induction (entries src) as [|e r IH]; intros out; simpl; [done|].
  rewrite <-IH. f_equal. unfold upd_with, set_entry. by destruct (Get out (Key e)).
Qed.

Lemma overwriteTop_fold dm sm :
  overwriteTop (VMap dm) (VMap sm) = VMap (foldl (upd_with (λ _ v, v)) dm (entries sm)).
Proof.
  simpl. f_equal. unfold Clone. destruct dm as [es idx p]; simpl.
  generalize (mkMap es idx p). induction (entries sm) as [|e r IH]; intros out; simpl; [done|].
  rewrite <-IH. f_equal. unfold upd_with, set_entry. by destruct (Get out (Key e)).
Qed.

Definition merged (mv : value → value → value) (d s : option value) : option value :=
  match s, d with
  | None, _ => d
  | Some v, None => Some v
  | Some v, Some cur => Some (mv cur v)
  end.

Lemma fold_upd_wf mv es out : map_wf out → map_wf (foldl (upd_with mv) out es).
Proof.
  revert out. induction es as [|e es IH]; intros out Hwf; simpl; [done|].
  by apply IH, SetAt_wf.
Qed.

Lemma fold_upd_Get mv es out k :
  map_wf out → NoDup (CanonKey ∘ Key <$> es) →
  Get (foldl (upd_with mv) out es) k =
    merged mv (Get out k) (Val ∘ snd <$> find_entry (CanonKey k) es).
Proof.
  revert out. induction es as [|e es IH]; intros out Hwf Hnd; simpl; [done|].
  rewrite fmap_cons, NoDup_cons in Hnd. destruct Hnd as [Hni Hnd].
  rewrite IH by (done || by apply SetAt_wf). unfold upd_with. rewrite Get_SetAt by done.
  unfold find_entry in *. simpl. case_decide as Hd.
  - assert (list_find (λ e0, CanonKey (Key e0) = CanonKey k) es = None) as ->.
    { apply list_find_None, Forall_forall. intros e' He' Heq. apply Hni.
      apply list_elem_of_fmap. exists e'. simpl. split; [congruence|done]. }
    simpl. assert (Get out (Key e) = Get out k) as ->
      by (unfold Get; by rewrite (Entry_canon out (Key e) k)).
    by destruct (Get out k).
  - by destruct (list_find _ es) as [[i e']|].
Qed.

Lemma fold_upd_ckeys mv es out :
  map_wf out → NoDup (CanonKey ∘ Key <$> es) →
  ckeys (foldl (upd_with mv) out es) =
    ckeys out ++ filter (λ c, c ∉ ckeys out) (CanonKey ∘ Key <$> es).
Proof.
  revert out. induction es as [|e es IH]; intros out Hwf Hnd; simpl; [by rewrite app_nil_r|].
  rewrite fmap_cons, NoDup_cons in Hnd. destruct Hnd as [Hni Hnd].
  rewrite IH by (done || by apply SetAt_wf). unfold upd_with. rewrite ckeys_SetAt by done.
  rewrite filter_cons. simpl. case_decide as Hd.
  - rewrite decide_False by tauto. done.
  - rewrite decide_True by done. rewrite <-app_assoc. f_equal. simpl. f_equal.
    apply filter_iff_in. intros c Hc. rewrite elem_of_app, list_elem_of_singleton.
    split; [tauto|]. intros Hn [?| ->]; [tauto|]. by apply Hni.
Qed.

Lemma find_entry_Get m k :
  map_wf m → (Val ∘ snd <$> find_entry (CanonKey k) (entries m)) = Get m k.
Proof. intros Hwf. unfold Get. rewrite Entry_find by done. by destruct (find_entry _ _). Qed.

(** What the merge of two mappings is, given the merge one level down. *)
Lemma mergeMaps_spec mv dst src :
  map_wf dst → map_wf src →
  map_wf (mergeMaps mv dst src) ∧
  (∀ k, Get (mergeMaps mv dst src) k = merged mv (Get dst k) (Get src k)) ∧
  ckeys (mergeMaps mv dst src) = ckeys dst ++ filter (λ c, c ∉ ckeys dst) (ckeys src).
Proof.
  intros Hd Hs. rewrite mergeMaps_fold. pose proof (map_wf_NoDup _ Hs) as Hnd.
  split_and!.
  - by apply fold_upd_wf.
  - intros k. by rewrite fold_upd_Get, find_entry_Get.
  - by apply fold_upd_ckeys.
Qed.

Lemma vheight_entry m e : e ∈ entries m → (vheight (Val e) < vheight (VMap m))%nat.
Proof.
  intros He. simpl. apply Nat.lt_succ_r.
  apply (max_list_elem_of_le _ (map (λ e, vheight (Val e)) (entries m))).
  apply list_elem_of_fmap. eauto.
Qed.

(** Past the height of the source more fuel changes nothing. *)
Lemma mergeValue_fuel f f' opts depth d s :
  (vheight s ≤ f)%nat → (vheight s ≤ f')%nat →
  mergeValue f opts depth d s = mergeValue f' opts depth d s.
Proof.
  revert f' depth d s. induction f as [|f IH]; intros f' depth d s Hf Hf'.
  { destruct s; simpl in Hf; lia. }
  destruct f' as [|f']; [destruct s; simpl in Hf'; lia|]. simpl.
  case_match; [done|]. destruct d; try done. destruct s; try done.
  f_equal. unfold mergeMaps. apply foldl_ext_in. intros out e He.
  apply vheight_entry in He. destruct (Get out (Key e)); [|done].
  f_equal. apply IH; lia.
Qed.
End merge_facts.

(** ** Properties *)

Section value_properties.
Context `{Runtime}.

(** the ordered mapping is what it says it is.  Setting and deleting keep
    the index and the entries in agreement; a lookup finds what was last set
    under the key (keys compared in canonical form), a deleted key is gone and
    every other key is untouched; setting a present key keeps the order of the
    keys and setting a new one appends it. *)
Theorem map_operations (m : Map) (k v : value) (kp vp : Pos) :
  map_wf m →
  map_wf (SetAt m k v kp vp) ∧ map_wf (Delete m k).1 ∧
  (∀ k', Get (SetAt m k v kp vp) k' =
     if decide (CanonKey k = CanonKey k') then Some v else Get m k') ∧
  (∀ k', Get (Delete m k).1 k' =
     if decide (CanonKey k = CanonKey k') then None else Get m k') ∧
  Keys (SetAt m k v kp vp) = (if decide (is_Some (Get m k)) then Keys m else Keys m ++ [k]).
Proof.
  intros Hwf. split_and!; auto using SetAt_wf, Delete_wf.
  - intros k'. by apply Get_SetAt.
  - intros k'. by apply Get_Delete.
  - by apply Keys_SetAt.
Qed.

Lemma mergeValue_depth f opts d1 d2 a b :
  Strat opts ≠ Overwrite → mergeValue f opts d1 a b = mergeValue f opts d2 a b.
Proof.
  intros Hs. revert d1 d2 a b. induction f as [|f IH]; intros d1 d2 a b; simpl; [done|].
  rewrite bool_decide_false by done. simpl. destruct a; try done. destruct b; try done.
  f_equal. unfold mergeMaps. apply foldl_ext_in. intros out e _.
  destruct (Get out (Key e)); [|done]. f_equal. apply IH.
Qed.

Lemma mergeValue_maps f opts depth dm sm :
  Strat opts ≠ Overwrite →
  mergeValue (S f) opts depth (VMap dm) (VMap sm) =
    VMap (mergeMaps (mergeValue f opts (S depth)) dm sm).
Proof. intros Hs. simpl. by rewrite bool_decide_false. Qed.

(** merging two mappings under smart, recurse or aggregate gives, for each
    key, the value of the only side that has it or the merge of both sides'
    values, with the destination's keys first, in their order, and the
    source's new keys after them, in theirs.  The depth at which the code
    stops merging is not reached by a source that nests at most
    [maxMergeDepth + 1] mappings: the values merge as [Merge] itself. *)
Theorem merge_keywise (dm sm : Map) (opts : MergeOpts) :
  map_wf dm → map_wf sm → Strat opts ≠ Overwrite →
  (vheight (VMap sm) ≤ S maxMergeDepth)%nat →
  ∃ m, Merge (VMap dm) (VMap sm) opts = VMap m ∧ map_wf m ∧
    (∀ k, Get m k = merged (λ d s, Merge d s opts) (Get dm k) (Get sm k)) ∧
    ckeys m = ckeys dm ++ filter (λ c, c ∉ ckeys dm) (ckeys sm).
Proof.
  intros Hd Hs Hov Hh. unfold Merge at 1. rewrite mergeValue_maps by done.
  set (mv := mergeValue maxMergeDepth opts 1).
  destruct (mergeMaps_spec mv dm sm Hd Hs) as (W & G & K).
  exists (mergeMaps mv dm sm). split_and!; [done|done| |done].
  intros k. rewrite G. unfold merged. destruct (Get sm k) as [v|] eqn:Ek; [|done].
  destruct (Get dm k) as [cur|]; [|done]. apply (f_equal Some). unfold mv, Merge.
  rewrite (mergeValue_depth _ _ 1 0) by done. apply mergeValue_fuel.
  all: unfold Get in Ek; destruct (Entry_ sm k) as [e|] eqn:Ee; [|done]; injection Ek as <-;
    apply Entry_Some in Ee as [He _]; [|done]; apply vheight_entry in He; lia.
Qed.
End value_properties.

(** A runtime to evaluate with. *)
Definition demo_runtime : Runtime := {|
  Sprint := λ _, "%!v";
  TypeString := λ v, match v with VGoInt _ => "int" | _ => "time.Duration" end;
  time_ParseDuration := λ s, if bool_decide (s = "15m") then Some (900 * Second) else None;
  ParseFloat := λ s, f64_of_Z <$> Atoi s;
  IsPrint := λ r, 160 <? r |}.

#[local] Existing Instance demo_runtime.

Definition demo_map : Map :=
  MapOf [(VString "a", VInt 1); (VInt 1, VString "x"); (VString "1", VString "y")].

Lemma demo_map_wf : map_wf demo_map.
Proof. unfold demo_map, MapOf. simpl. unfold MSet. repeat apply SetAt_wf. apply NewMap_wf. Qed.

Lemma map_operations_witness :
  Get (SetAt demo_map (VString "1") (VBool true) noPos noPos) (VInt 1) = Some (VString "x").
Proof.
  destruct (map_operations demo_map (VString "1") (VBool true) noPos noPos) as (_ & _ & H & _ & _).
  - apply demo_map_wf.
  - rewrite H. vm_compute. reflexivity.
Defined.

Lemma merge_keywise_witness :
  ∃ m, Merge (VMap demo_map) (VMap demo_map) (mkMergeOpts Smart false) = VMap m ∧
       Get m (VString "a") = Some (VInt 1).
Proof.
  destruct (merge_keywise demo_map demo_map (mkMergeOpts Smart false)) as (m & Hm & _ & Hk & _).
  - apply demo_map_wf.
  - apply demo_map_wf.
  - discriminate.
  - apply Nat.leb_le. vm_compute. reflexivity.
  - exists m. split; [exact Hm|]. rewrite Hk. vm_compute. reflexivity.
Defined.

(** ** Filling a mapping *)

Section refill.
Context `{Runtime}.

Lemma map_wf_index_eq m m' : map_wf m → map_wf m' → entries m = entries m' → mpos m = mpos m' → m = m'.
Proof.
  intros Hm Hm' He Hp. destruct m as [es idx p], m' as [es' idx' p']. cbn in *. subst. f_equal.
  apply map_eq. intros ck. apply option_eq. intros i. rewrite (Hm ck i), (Hm' ck i). done.
Qed.

Lemma fill_fresh es m :
  map_wf m → NoDup (ckeys m ++ (CanonKey ∘ Key <$> es)) →
  let m' := foldl set_entry m es in map_wf m' ∧ entries m' = entries m ++ es ∧ mpos m' = mpos m.
Proof.
  revert m. induction es as [|e es IH]; intros m Hm Hnd; cbn [foldl]; [by rewrite app_nil_r|].
  assert (index m !! CanonKey (Key e) = None) as Hn.
  { apply eq_None_not_Some. intros [i Hi]. apply Hm in Hi as (e' & He' & Hck). rewrite fmap_cons in Hnd.
    apply NoDup_app in Hnd as (_ & Hd & _). apply (Hd (CanonKey (Key e))); [|by left].
    unfold ckeys. apply list_elem_of_fmap. exists e'. split; [done|]. by eapply list_elem_of_lookup_2. }
  destruct (IH (set_entry m e)) as (H1 & H2 & H3).
  - by apply SetAt_wf.
  - unfold set_entry, SetAt, ckeys. rewrite Hn. cbn [entries]. rewrite fmap_app, <- app_assoc. destruct e. exact Hnd.
  - split_and!; [done| |].
    + rewrite H2. unfold set_entry, SetAt. rewrite Hn. cbn [entries]. rewrite <- app_assoc. by destruct e.
    + rewrite H3. unfold set_entry, SetAt. by rewrite Hn.
Qed.

Lemma refill m : map_wf m → mpos m = noPos → foldl set_entry NewMap (entries m) = m.
Proof.
  intros Hm Hp. destruct (fill_fresh (entries m) NewMap) as (H1 & H2 & H3); [apply NewMap_wf|by apply map_wf_NoDup|].
  apply map_wf_index_eq; [done|done|done|]. by rewrite H3, Hp.
Qed.
End refill.

(** Induction on a value, through its sequences and mappings. *)
Definition is_leaf (v : value) : bool := match v with VSeq _ | VMap _ => false | _ => true end.
Section value_nested_ind.
Variable P : value → Prop.
Hypothesis Hseq : ∀ l, Forall P l → P (VSeq l).
Hypothesis Hmap : ∀ m, Forall (λ e, P (Key e) ∧ P (Val e)) (entries m) → P (VMap m).
Hypothesis Hleaf : ∀ v, is_leaf v = true → P v.

Fixpoint value_nested_ind (v : value) : P v :=
  match v with
  | VSeq l => Hseq l ((fix go l := match l return Forall P l with [] => Forall_nil_2 _ | x :: r => Forall_cons_2 _ _ _ (value_nested_ind x) (go r) end) l)
  | VMap m => Hmap m ((fix go l := match l return Forall (λ e, P (Key e) ∧ P (Val e)) l with
      | [] => Forall_nil_2 _
      | e :: r => Forall_cons_2 (λ e, P (Key e) ∧ P (Val e)) e r (conj (value_nested_ind (Key e)) (value_nested_ind (Val e))) (go r) end) (entries m))
  | VNull => Hleaf VNull eq_refl | VBool b => Hleaf (VBool b) eq_refl | VInt z => Hleaf (VInt z) eq_refl | VFloat f => Hleaf (VFloat f) eq_refl
  | VString s => Hleaf (VString s) eq_refl | VBinary b => Hleaf (VBinary b) eq_refl | VTimestamp t => Hleaf (VTimestamp t) eq_refl
  | VNilMap => Hleaf VNilMap eq_refl | VGoInt z => Hleaf (VGoInt z) eq_refl | VGoDuration d => Hleaf (VGoDuration d) eq_refl
  end.
End value_nested_ind.
