(* ===== verification/Heap.v ===== *)
(** * The binary heap of the ready set

    Models the [push] and [pop] closures of [order] in
    src/internal/state/order.go: a slice kept as a binary heap under a strict
    comparison [before], sifted up on a push and down on a pop.  The section
    is over any comparison that is a strict weak order. *)

From S2P Require Import Prelude.

Open Scope nat_scope.

#[local] Arguments Nat.div : simpl never.
#[local] Arguments Nat.mul : simpl never.

Section heap.
Context {A : Type} (before : A → A → bool).
Implicit Types (l : list A) (a b : A) (i j : nat).

(** ready[i], ready[j] = ready[j], ready[i], where they hold [a] and [b]. *)
Definition swap l i j a b : list A := <[i := b]> (<[j := a]> l).

(** The loop of push: [for i > 0 { ... i = parent }].  [i] bounds the number
    of turns, since the parent of [i] is below [i]. *)
Fixpoint sift_up (fuel : nat) l i : list A :=
  match fuel with
  | O => l
  | S f =>
      if i =? 0 then l
      else
        let parent := (i - 1) / 2 in
        match l !! i, l !! parent with
        | Some a, Some b =>
            if before a b then sift_up f (swap l i parent a b) parent else l
        | _, _ => l
        end
  end.

Definition push l (e : A) : list A := sift_up (length l) (l ++ [e]) (length l).

(** The position of the least of [i] and its two children. *)
Definition smaller l i j : nat :=
  match l !! j, l !! i with
  | Some x, Some y => if before x y then j else i
  | _, _ => i
  end.
Definition smallest_child l i : nat := smaller l (smaller l i (2 * i + 1)) (2 * i + 2).

Fixpoint sift_down (fuel : nat) l i : list A :=
  match fuel with
  | O => l
  | S f =>
      let s := smallest_child l i in
      if s =? i then l
      else
        match l !! i, l !! s with
        | Some a, Some b => sift_down f (swap l i s a b) s
        | _, _ => l
        end
  end.

(** [None] is the source's index panic on an empty slice. *)
Definition pop l : option (A * list A) :=
  match l with
  | [] => None
  | top :: _ =>
      z ← last l;
      let l' := take (length l - 1) (<[0 := z]> l) in
      Some (top, sift_down (length l') l' 0)
  end.

(** ** Correctness *)

Hypothesis before_asym : ∀ a b, before a b = true → before b a = false.
Hypothesis not_before_trans :
  ∀ a b c, before b a = false → before c b = false → before c a = false.

(** The heap condition at position [j]. *)
Definition ok_at l j : Prop :=
  ∀ a b, l !! j = Some a → l !! ((j - 1) / 2) = Some b → before a b = false.
Definition heap l : Prop := ∀ j, 0 < j → ok_at l j.

Lemma parent_lt i : 0 < i → (i - 1) / 2 < i.
Proof. intros Hi. apply Nat.Div0.div_lt_upper_bound; lia. Qed.

Lemma parent_child i j : 0 < j → (j - 1) / 2 = i ↔ j = 2 * i + 1 ∨ j = 2 * i + 2.
Proof.
  intros Hj. pose proof (Nat.div_mod_eq (j - 1) 2). pose proof (Nat.mod_upper_bound (j - 1) 2).
  lia.
Qed.

Lemma swap_perm l i j a b :
  i ≠ j → l !! i = Some a → l !! j = Some b → swap l i j a b ≡ₚ l.
Proof.
  intros Hne Hi Hj. unfold swap. rewrite list_insert_insert_ne by done.
  by apply Permutation_insert_swap.
Qed.

Lemma swap_length l i j a b : length (swap l i j a b) = length l.
Proof. unfold swap. by rewrite !length_insert. Qed.

Lemma swap_lookup l i j a b k :
  i ≠ j → l !! i = Some a → l !! j = Some b →
  swap l i j a b !! k =
    if decide (k = i) then Some b else if decide (k = j) then Some a else l !! k.
Proof.
  intros Hne Hi Hj. unfold swap.
  pose proof (lookup_lt_Some _ _ _ Hi). pose proof (lookup_lt_Some _ _ _ Hj).
  repeat case_decide; subst.
  - apply list_lookup_insert_eq. by rewrite length_insert.
  - rewrite list_lookup_insert_ne by done. by apply list_lookup_insert_eq.
  - by rewrite !list_lookup_insert_ne by done.
Qed.

Lemma before_irrefl a : before a a = false.
Proof. destruct (before a a) eqn:E; [|done]. by rewrite (before_asym _ _ E) in E. Qed.

(** *** Sifting up *)

Lemma sift_up_spec fuel l i :
  i ≤ fuel → i < length l →
  (∀ j, 0 < j → j ≠ i → ok_at l j) →
  (∀ j x y, 0 < i → 0 < j → (j - 1) / 2 = i → l !! j = Some x →
     l !! ((i - 1) / 2) = Some y → before x y = false) →
  heap (sift_up fuel l i) ∧ sift_up fuel l i ≡ₚ l.
Proof.
  revert l i. induction fuel as [|fuel IH]; intros l i Hf Hi Hok Hgp.
  { split; [|done]. intros j Hj. apply Hok; lia. }
  simpl. destruct (Nat.eqb_spec i 0) as [->|Hi0].
  { split; [|done]. intros j Hj. apply Hok; lia. }
  pose proof (parent_lt i ltac:(lia)) as Hpi. set (p := (i - 1) / 2) in *.
  destruct (lookup_lt_is_Some_2 l i) as [a Ha]; [done|]. rewrite Ha.
  destruct (lookup_lt_is_Some_2 l p) as [b Hb]; [lia|]. rewrite Hb.
  destruct (before a b) eqn:Hab.
  2: { split; [|done]. intros j Hj. destruct (decide (j = i)) as [->|]; [|by apply Hok].
       intros x y Hx Hy. fold p in Hy. by simplify_eq. }
  assert (i ≠ p) as Hne by lia.
  destruct (IH (swap l i p a b) p) as [Hh Hp].
  - lia.
  - rewrite swap_length. lia.
  - intros j Hj Hjp x y. rewrite !swap_lookup by done.
    destruct (decide (j = i)) as [->|Hji].
    + intros ?; simplify_eq. rewrite decide_False by (fold p; lia).
      rewrite decide_True by done. intros ?; simplify_eq. by apply before_asym.
    + rewrite (decide_False (P:=j = p)) by done.
      intros Hx. case_decide as Hpj; [|case_decide as Hpp].
      * intros ?; simplify_eq. apply (Hgp j x y); eauto || lia.
      * intros ?; simplify_eq. apply (not_before_trans y b x); [by apply before_asym|].
        apply (Hok j ltac:(done) ltac:(done) x b Hx). by rewrite Hpp.
      * intros Hy. by apply (Hok j).
  - intros j x y Hp0 Hj Hpj. rewrite !swap_lookup by done.
    pose proof (parent_lt p Hp0). rewrite (decide_False (P:=(p - 1) / 2 = i)) by lia.
    rewrite (decide_False (P:=(p - 1) / 2 = p)) by lia.
    intros Hx Hy. assert (before b y = false) as Hby by (by apply (Hok p ltac:(lia) ltac:(lia))).
    case_decide; [by simplify_eq|]. rewrite decide_False in Hx by (intros ->; lia).
    apply (not_before_trans y b x); [done|].
    apply (Hok j ltac:(lia) ltac:(lia) x b Hx). by rewrite Hpj.
  - split; [done|]. rewrite Hp. by apply swap_perm.
Qed.

Lemma push_spec l e : heap l → heap (push l e) ∧ push l e ≡ₚ e :: l.
Proof.
  intros Hh. destruct (sift_up_spec (length l) (l ++ [e]) (length l)) as [H1 H2].
  - done.
  - rewrite length_app. simpl. lia.
  - intros j Hj Hne a b Ha Hb. apply (Hh j Hj).
    + apply lookup_app_Some in Ha as [Ha|[Hlen Ha]]; [done|].
      destruct (j - length l) eqn:E; simplify_eq/=. lia.
    + pose proof (parent_lt j Hj). pose proof (lookup_lt_Some _ _ _ Ha) as Hl.
      rewrite length_app in Hl. simpl in Hl. rewrite lookup_app_l in Hb by lia. done.
  - intros j x y _ Hj Hp Hx. exfalso. pose proof (parent_lt j Hj).
    pose proof (lookup_lt_Some _ _ _ Hx) as Hl. rewrite length_app in Hl. simpl in Hl. lia.
  - split; [done|]. unfold push. rewrite H2. by rewrite Permutation_app_comm.
Qed.

(** *** Sifting down *)

Lemma smaller_cases l i j : smaller l i j = i ∨ smaller l i j = j.
Proof. unfold smaller. repeat case_match; auto. Qed.

(** The result of [smaller] is not after either of its arguments. *)
Lemma smaller_min l i j y z :
  l !! i = Some y → l !! smaller l i j = Some z →
  before y z = false ∧ (∀ x, l !! j = Some x → before x z = false).
Proof.
  intros Hy. unfold smaller. rewrite Hy. destruct (l !! j) as [x|] eqn:Hx.
  - destruct (before x y) eqn:Hxy; intros Hz; rewrite ?Hx, ?Hy in Hz; simplify_eq;
      split; try (intros; simplify_eq); auto using before_irrefl.
  - intros Hz. simplify_eq. split; [apply before_irrefl|done].
Qed.

Lemma smallest_child_cases l i :
  smallest_child l i = i ∨ smallest_child l i = 2 * i + 1 ∨ smallest_child l i = 2 * i + 2.
Proof.
  unfold smallest_child.
  destruct (smaller_cases l (smaller l i (2 * i + 1)) (2 * i + 2)) as [->| ->]; [|auto].
  destruct (smaller_cases l i (2 * i + 1)) as [->| ->]; auto.
Qed.

Lemma smaller_lookup l i j y : l !! i = Some y → is_Some (l !! smaller l i j).
Proof. intros Hy. unfold smaller. rewrite Hy. destruct (l !! j) eqn:E; [case_match|]; eauto. Qed.

Lemma smallest_child_min l i y z :
  l !! i = Some y → l !! smallest_child l i = Some z →
  before y z = false ∧
  (∀ j x, 0 < j → (j - 1) / 2 = i → l !! j = Some x → before x z = false).
Proof.
  intros Hy Hz. unfold smallest_child in Hz.
  destruct (smaller_lookup l i (2 * i + 1) y Hy) as [w Hw].
  destruct (smaller_min _ _ _ _ _ Hy Hw) as [H1 H2].
  destruct (smaller_min _ _ _ _ _ Hw Hz) as [H3 H4].
  split; [by apply (not_before_trans z w y)|].
  intros j x Hj Hp Hx. apply parent_child in Hp as [->| ->]; [|by apply H4|done].
  apply (not_before_trans z w x); [done|by apply H2].
Qed.

Lemma sift_down_spec fuel l i :
  length l ≤ i + fuel →
  (∀ j, 0 < j → (j - 1) / 2 ≠ i → ok_at l j) →
  (∀ j x y, 0 < i → 0 < j → (j - 1) / 2 = i → l !! j = Some x →
     l !! ((i - 1) / 2) = Some y → before x y = false) →
  heap (sift_down fuel l i) ∧ sift_down fuel l i ≡ₚ l.
Proof.
  revert l i. induction fuel as [|fuel IH]; intros l i Hf Hok Hgp.
  { split; [|done]. intros j Hj a b Ha Hb.
    destruct (decide ((j - 1) / 2 = i)) as [Hp|]; [|by apply (Hok j)].
    exfalso. pose proof (parent_lt j Hj). apply lookup_lt_Some in Ha. simpl in *. lia. }
  simpl. set (s := smallest_child l i). destruct (l !! i) as [a|] eqn:Ha.
  2: { assert (heap l ∧ l ≡ₚ l) by (split; [|done]; intros j Hj x y Hx Hy;
         destruct (decide ((j - 1) / 2 = i)) as [Hp|]; [congruence|by apply (Hok j)]).
       by case_match. }
  destruct (Nat.eqb_spec s i) as [Hs|Hs].
  { split; [|done]. intros j Hj x y Hx Hy.
    destruct (decide ((j - 1) / 2 = i)) as [Hp|]; [|by apply (Hok j)].
    rewrite Hp, Ha in Hy. injection Hy as <-.
    assert (l !! smallest_child l i = Some a) as Hy by (fold s; by rewrite Hs).
    destruct (smallest_child_min l i a a Ha Hy) as [_ Hmin]. by apply (Hmin j). }
  assert (is_Some (l !! s)) as [b Hb].
  { unfold s, smallest_child. destruct (smaller_lookup l i (2 * i + 1) a Ha) as [w Hw].
    by eapply smaller_lookup. }
  rewrite Hb. destruct (smallest_child_min l i a b Ha Hb) as [Hab Hmin].
  assert (0 < s ∧ (s - 1) / 2 = i ∧ i < s) as (Hs0 & Hsp & His).
  { destruct (smallest_child_cases l i) as [?|?]; [done|]. fold s in H.
    assert (0 < s) by lia. split_and!; [done| |lia]. by apply parent_child. }
  destruct (IH (swap l i s a b) s) as [Hh Hp].
  - rewrite swap_length. lia.
  - intros j Hj Hjp x y. rewrite !swap_lookup by done.
    destruct (decide (j = i)) as [->|Hji].
    { intros ?; simplify_eq. pose proof (parent_lt i Hj).
      rewrite !decide_False by lia. intros Hy. by apply (Hgp s x y). }
    destruct (decide (j = s)) as [->|Hjs].
    { intros ?; simplify_eq. rewrite Hsp, decide_True by done. by intros ?; simplify_eq. }
    intros Hx. case_decide as Hpj.
    { intros ?; simplify_eq. by apply (Hmin j). }
    rewrite decide_False by done. by apply (Hok j).
  - intros j x y _ Hj Hpj. rewrite !swap_lookup by lia || done.
    pose proof (parent_lt j Hj). rewrite !(decide_False (P:=j = _)) by lia.
    rewrite Hsp, decide_True by done. intros Hx ?; simplify_eq.
    apply (Hok j Hj ltac:(lia) x y Hx). by rewrite Hpj.
  - split; [done|]. rewrite Hp. by apply swap_perm.
Qed.

(** The root of a heap is not after any of its elements. *)
Lemma heap_root_min l x y : heap l → l !! 0 = Some x → y ∈ l → before y x = false.
Proof.
  intros Hh Hx (j & Hj)%list_elem_of_lookup. revert y Hj.
  induction j as [j IH] using lt_wf_ind; intros y Hj.
  destruct (decide (j = 0)) as [->|]; [simplify_eq; apply before_irrefl|].
  pose proof (parent_lt j ltac:(lia)) as Hp.
  destruct (lookup_lt_is_Some_2 l ((j - 1) / 2)) as [b Hb];
    [apply lookup_lt_Some in Hj; lia|].
  apply (not_before_trans x b y); [by eapply IH|]. by apply (Hh j ltac:(lia)).
Qed.

Lemma pop_Some l : l ≠ [] → is_Some (pop l).
Proof.
  destruct l as [|x l]; [done|]. intros _. unfold pop.
  destruct (last (x :: l)) as [z|] eqn:Hz; simpl; [eauto|]. by apply last_None in Hz.
Qed.

Lemma take_insert_last x l z :
  last (x :: l) = Some z →
  take (length (x :: l) - 1) (<[0 := z]> (x :: l)) ≡ₚ l ∧
  ∀ k y, 0 < k → take (length (x :: l) - 1) (<[0 := z]> (x :: l)) !! k = Some y → (x :: l) !! k = Some y.
Proof.
  intros Hz. simpl. rewrite Nat.sub_0_r. split.
  - destruct l as [|b l' _] using rev_ind; [done|].
    rewrite app_comm_cons, last_snoc in Hz. simplify_eq.
    rewrite length_app, Nat.add_comm. simpl. rewrite take_app_length. apply Permutation_cons_append.
  - intros k y Hk. rewrite lookup_take_Some. intros [Hl _]. by destruct k; [lia|].
Qed.

Theorem pop_spec l x l' :
  heap l → pop l = Some (x, l') →
  heap l' ∧ l ≡ₚ x :: l' ∧ (∀ y, y ∈ l → before y x = false).
Proof.
  intros Hh Hpop. destruct l as [|t l]; [done|]. unfold pop in Hpop.
  destruct (last (t :: l)) as [z|] eqn:Hz; [|by apply last_None in Hz]. simpl mbind in Hpop.
  destruct (take_insert_last t l z Hz) as [Hperm Hlook].
  set (k := take _ _) in *. simplify_eq.
  destruct (sift_down_spec (length k) k 0) as [H1 H2].
  - lia.
  - intros j Hj Hp a b Ha Hb. apply (Hh j Hj); apply Hlook; done || lia.
  - lia.
  - split_and!; [done|by rewrite H2, Hperm|]. intros y Hy. by apply (heap_root_min (x :: l)).
Qed.
End heap.
