(* ===== verification/StateTypes.v ===== *)
(** * The data of the state compiler

    Models the types of src/internal/state: diagnostics (diag.go), requisites
    (requisite.go), low chunks and their options (lowstate.go), declarations
    and the high state (highstate.go).  A diagnostic's message is kept as the
    format it was printed with and the arguments given to it. *)

From S2P Require Import Prelude GoLib Value.

Open Scope Z_scope.

(** ** Diagnostics *)

Inductive fmtarg := FStr (s : string) | FInt (z : Z).
Record gomsg := Msg { Format : string; FArgs : list fmtarg }.

Record Diag := mkDiag {
  dPos : Pos;
  dSLS : string;
  dID : string;
  dMsg : gomsg;
  dRelated : list (Pos * gomsg);
  dWarning : bool }.
Abbreviation Diags := (list Diag).

(** The compiler's stages append diagnostics and never read them. *)
Abbreviation DW := (@Writer.W Diag).

Definition Add (pos : Pos) (sls id fmt : string) (args : list fmtarg) : DW unit :=
  ((), [mkDiag pos sls id (Msg fmt args) [] false]).
Definition Warn (pos : Pos) (sls id fmt : string) (args : list fmtarg) : DW unit :=
  ((), [mkDiag pos sls id (Msg fmt args) [] true]).
Definition AddRelated (pos : Pos) (sls id : string) (related : list (Pos * gomsg))
    (fmt : string) (args : list fmtarg) : DW unit :=
  ((), [mkDiag pos sls id (Msg fmt args) related false]).

Definition Errors (d : Diags) : Diags := filter (λ x, dWarning x = false) d.
Definition Warnings (d : Diags) : Diags := filter (λ x, dWarning x = true) d.
Definition HasErrors (d : Diags) : bool := existsb (λ x, negb (dWarning x)) d.

(** ** Requisites *)

Inductive ReqKind :=
| Require_ | RequireAny | Watch | WatchAny | OnChanges | OnChangesAny
| OnFail | OnFailAny | OnFailAll | Prereq | Use_ | Listen.
#[global] Instance ReqKind_eq_dec : EqDecision ReqKind.
Proof. solve_decision. Defined.

Definition ReqKind_String (k : ReqKind) : string :=
  match k with
  | Require_ => "require" | RequireAny => "require_any"
  | Watch => "watch" | WatchAny => "watch_any"
  | OnChanges => "onchanges" | OnChangesAny => "onchanges_any"
  | OnFail => "onfail" | OnFailAny => "onfail_any" | OnFailAll => "onfail_all"
  | Prereq => "prereq" | Use_ => "use" | Listen => "listen"
  end.

Definition forwardReqs : gmap string ReqKind := list_to_map [
  ("require", Require_); ("require_any", RequireAny);
  ("watch", Watch); ("watch_any", WatchAny);
  ("onchanges", OnChanges); ("onchanges_any", OnChangesAny);
  ("onfail", OnFail); ("onfail_any", OnFailAny); ("onfail_all", OnFailAll);
  ("prereq", Prereq); ("use", Use_); ("listen", Listen)].

Definition inverseReqs : gmap string ReqKind := list_to_map [
  ("require_in", Require_); ("watch_in", Watch);
  ("onchanges_in", OnChanges); ("onfail_in", OnFail);
  ("prereq_in", Prereq); ("use_in", Use_); ("listen_in", Listen)].

Definition notInverseReqs : gmap string string := list_to_map [
  ("require_any_in", "require_any"); ("watch_any_in", "watch_any");
  ("onchanges_any_in", "onchanges_any"); ("onfail_any_in", "onfail_any");
  ("onfail_all_in", "onfail_all")].

Definition IsRequisiteArg (name : string) : bool :=
  bool_decide (is_Some (forwardReqs !! name)) ||
  bool_decide (is_Some (inverseReqs !! name)) ||
  bool_decide (is_Some (notInverseReqs !! name)).

Record ReqRef := mkRef { rState : string; rID : string; rSLS : string; rPos : Pos }.

Definition ReqRef_String (r : ReqRef) : string :=
  if bool_decide (rSLS r ≠ "") then "sls: " +:+ rSLS r
  else if bool_decide (rState r ≠ "") then rState r +:+ ": " +:+ rID r
  else rID r.

Record Req := mkReq { rKind : ReqKind; Refs : list ReqRef; Resolved : list nat }.

Definition Req_Describe (r : Req) : string := Join (ReqRef_String <$> Refs r) ", ".

(** ** Low chunks *)

Inductive OrderMode := OrderNone | OrderExplicit | OrderLast.
#[global] Instance OrderMode_eq_dec : EqDecision OrderMode.
Proof. solve_decision. Defined.

(** Durations are in nanoseconds. *)
Record Retry := mkRetry { Attempts : Z; Interval : Z; Until : bool; Splay : Z }.

Record Options := mkOptions {
  Unless : list value;
  OnlyIf : list value;
  Creates : list string;
  CheckCmd : list string;
  oRetry : option Retry;
  Parallel : bool;
  oOrderMode : OrderMode;
  OrderValue : Z;
  FailHard : option bool;
  ReloadModules : bool;
  ReloadGrains : bool;
  ReloadPillar : bool;
  RunAs : string;
  RunAsPassword : string;
  Umask : string;
  Timeout : Z;
  FireEvent : value;
  oAggregate : bool }.

Definition zeroOptions : Options :=
  mkOptions [] [] [] [] None false OrderNone 0 None false false false "" "" "" 0 VNull false.

Record Chunk := mkChunk {
  cID : string;
  cSLS : string;
  cEnv : string;
  cState : string;
  cFun : string;
  cName : string;
  Args : Map;
  Reqs : list Req;
  Opts : Options;
  OptionArgs : Map;
  DeclOrder : Z;
  SeqOrder : Z;
  RunNum : nat;
  cPos : Pos }.

Definition set_Reqs (c : Chunk) (r : list Req) : Chunk :=
  mkChunk (cID c) (cSLS c) (cEnv c) (cState c) (cFun c) (cName c) (Args c) r (Opts c)
    (OptionArgs c) (DeclOrder c) (SeqOrder c) (RunNum c) (cPos c).
Definition set_RunNum (c : Chunk) (n : nat) : Chunk :=
  mkChunk (cID c) (cSLS c) (cEnv c) (cState c) (cFun c) (cName c) (Args c) (Reqs c) (Opts c)
    (OptionArgs c) (DeclOrder c) (SeqOrder c) n (cPos c).
Definition set_Args (c : Chunk) (a : Map) : Chunk :=
  mkChunk (cID c) (cSLS c) (cEnv c) (cState c) (cFun c) (cName c) a (Reqs c) (Opts c)
    (OptionArgs c) (DeclOrder c) (SeqOrder c) (RunNum c) (cPos c).

Definition Chunk_Key (c : Chunk) : string :=
  cState c +:+ "_|-" +:+ cID c +:+ "_|-" +:+ cName c +:+ "_|-" +:+ cFun c.
Definition Func (c : Chunk) : string := cState c +:+ "." +:+ cFun c.
Definition Describe (c : Chunk) : string :=
  Func c +:+ " (" +:+ cID c +:+ " in " +:+ cSLS c +:+ ")".

(** ** What ordering promises to the runner

    The targets of a requisite are positions in the low state, and a chunk
    comes after the targets it waits for; before them for [prereq]. *)
Class RunOrdered (chunks : list Chunk) : Prop := run_ordered :
  ∀ i c r t, chunks !! i = Some c → r ∈ Reqs c → t ∈ Resolved r →
    (t < length chunks)%nat ∧
    match rKind r with
    | Prereq => (i < t)%nat
    | Listen | Use_ => True
    | _ => (t < i)%nat
    end.

(** ** Diagnostics of a sequence *)

Lemma HasErrors_app d1 d2 : HasErrors (d1 ++ d2) = HasErrors d1 || HasErrors d2.
Proof. apply existsb_app. Qed.

Lemma HasErrors_bind {A B} (m : DW A) (f : A → DW B) :
  HasErrors (m ≫= f).2 = false ↔ HasErrors m.2 = false ∧ HasErrors (f m.1).2 = false.
Proof. unfold mbind, Writer.W_bind. simpl. by rewrite HasErrors_app, orb_false_iff. Qed.

Lemma bind_fst {A B} (m : DW A) (f : A → DW B) : (m ≫= f).1 = (f m.1).1.
Proof. done. Qed.
