(* ===== verification/Order.v ===== *)
(** * Ordering the low state

    Models src/internal/state/order.go: the requisite graph, the stable
    topological sort that drains a ready set, the report of a cycle, and the
    remapping of resolved requisites to run positions.  A chunk is its
    position in the declaration-ordered slice; the source's pointers are
    those positions.  The ready set is an interface, [ReadyQueue], with two
    implementations: the source's binary heap, and the linear scan it
    replaced. *)

From S2P Require Import Prelude GoLib Value Heap StateTypes.

Open Scope Z_scope.

(** ** The requisite graph *)

(** One requisite arc: the chunk that declares it, its kind, its target. *)
Abbreviation arc := (nat * ReqKind * nat)%type.

Definition chunk_arcs (i : nat) (c : Chunk) : list arc :=
  r ← Reqs c; t ← Resolved r; [(i, rKind r, t)].
Definition arcs (chunks : list Chunk) : list arc := concat (imap chunk_arcs chunks).

(** The ordering constraint of an arc: which chunk runs before which. *)
Definition constraint (a : arc) : option (nat * nat) :=
  let '(i, k, t) := a in
  match k with
  | Prereq => Some (i, t)
  | Listen | Use_ => None
  | _ => Some (t, i)
  end.

(** addEdge: [edges !! after] holds the chunks that must run before it. *)
Definition addEdge (before after : nat) (edges : list (list nat)) : list (list nat) :=
  if decide (before = after) then edges
  else alter (λ l, if decide (before ∈ l) then l else l ++ [before]) after edges.

Definition add_arc (edges : list (list nat)) (a : arc) : list (list nat) :=
  match constraint a with
  | Some (before, after) => addEdge before after edges
  | None => edges
  end.

Definition edges_of (chunks : list Chunk) : list (list nat) :=
  foldl add_arc (replicate (length chunks) []) (arcs chunks).

Definition befores (edges : list (list nat)) (i : nat) : list nat := default [] (edges !! i).

(** dependents[before] lists, in order, the chunks it must precede. *)
Definition add_dependents (deps : list (list nat)) (p : nat * list nat) : list (list nat) :=
  foldl (λ d before, alter (λ l, l ++ [p.1]) before d) deps p.2.
Definition dependents_of (edges : list (list nat)) : list (list nat) :=
  foldl add_dependents (replicate (length edges) []) (imap pair edges).
Definition indegree_of (edges : list (list nat)) : list Z :=
  (λ l, Z.of_nat (length l)) <$> edges.

(** ** Priority *)

Definition priority (chunks : list Chunk) (i : nat) : Z * Z * Z * Z :=
  match chunks !! i with
  | Some c =>
      match oOrderMode (Opts c) with
      | OrderExplicit => (0, OrderValue (Opts c), DeclOrder c, SeqOrder c)
      | OrderLast => (2, 0, DeclOrder c, SeqOrder c)
      | OrderNone => (1, 0, DeclOrder c, SeqOrder c)
      end
  | None => (3, 0, 0, 0)
  end.

Definition less (chunks : list Chunk) (a b : nat) : bool :=
  let '(am, av, ad, as_) := priority chunks a in
  let '(bm, bv, bd, bs) := priority chunks b in
  if negb (am =? bm) then am <? bm
  else if negb (av =? bv) then av <? bv
  else if negb (ad =? bd) then ad <? bd
  else as_ <? bs.

(** ** The ready set *)

(** A chunk that may run, with its arrival number. *)
Abbreviation entry := (nat * nat)%type.

Definition before_ (chunks : list Chunk) (a b : entry) : bool :=
  if less chunks a.1 b.1 then true
  else if less chunks b.1 a.1 then false
  else (a.2 <? b.2)%nat.

(** The operations the sort uses of the ready set. *)
Class ReadyOps (Q : Type) := {
  q_empty : Q;
  q_push : Q → entry → Q;
  q_pop : Q → option (entry * Q);
}.

(** What the sort relies on, under the comparison [bef]: entries come in with
    growing arrival numbers, and come out least first. *)
Class ReadyQueue (bef : entry → entry → bool) (Q : Type) (ops : ReadyOps Q) := {
  q_elems : Q → list entry;
  q_ok : Q → Prop;
  q_empty_ok : q_ok q_empty;
  q_empty_elems : q_elems q_empty = [];
  q_push_ok q e : q_ok q → (∀ y, y ∈ q_elems q → (y.2 < e.2)%nat) →
    q_ok (q_push q e) ∧ q_elems (q_push q e) ≡ₚ e :: q_elems q;
  q_pop_None q : q_ok q → q_pop q = None ↔ q_elems q = [];
  q_pop_ok q e q' : q_ok q → q_pop q = Some (e, q') →
    q_ok q' ∧ q_elems q ≡ₚ e :: q_elems q' ∧
    (∀ y, y ∈ q_elems q → bef y e = false);
}.

(** The scan the heap replaced: the first of the least entries in the order
    of their arrival, under [less] alone, and the slice closed up behind it. *)
Fixpoint scan_best (lt : nat → nat → bool) (best : entry) (l : list entry) : entry :=
  match l with
  | [] => best
  | y :: r => scan_best lt (if lt y.1 best.1 then y else best) r
  end.
Definition scan_pop (lt : nat → nat → bool) (l : list entry) : option (entry * list entry) :=
  match l with
  | [] => None
  | x :: r => let b := scan_best lt x r in Some (b, filter (λ y, y ≠ b) l)
  end.

Definition heap_ops (chunks : list Chunk) : ReadyOps (list entry) := {|
  q_empty := [];
  q_push := push (before_ chunks);
  q_pop := pop (before_ chunks) |}.
Definition scan_ops (chunks : list Chunk) : ReadyOps (list entry) := {|
  q_empty := [];
  q_push := λ l e, l ++ [e];
  q_pop := scan_pop (less chunks) |}.

(** ** The sort *)

Record kstate (Q : Type) := mkK {
  k_ready : Q;
  k_seq : nat;
  k_indegree : list Z;
  k_out : list nat }.
Arguments mkK {Q}. Arguments k_ready {Q}. Arguments k_seq {Q}.
Arguments k_indegree {Q}. Arguments k_out {Q}.

Section sort.
Context {Q : Type} `{ops : ReadyOps Q}.
Implicit Types (st : kstate Q).

Definition enter st (i : nat) : kstate Q :=
  mkK (q_push (k_ready st) (i, k_seq st)) (S (k_seq st)) (k_indegree st) (k_out st).

(** for i := 0; i < n; i++ { if indegree[i] == 0 { push } } *)
Definition initial (indegree : list Z) : kstate Q :=
  foldl (λ st i, if decide (indegree !! i = Some 0) then enter st i else st)
    (mkK q_empty 0 indegree []) (seq 0 (length indegree)).

(** indegree[dep]--; if it is 0, the chunk is ready. *)
Definition relax st (dep : nat) : kstate Q :=
  let ind := alter Z.pred dep (k_indegree st) in
  let st := mkK (k_ready st) (k_seq st) ind (k_out st) in
  if decide (ind !! dep = Some 0) then enter st dep else st.

(** for len(ready) > 0 { ... }.  Every turn places a chunk that was not
    placed, so [length chunks] turns are enough. *)
Fixpoint drain (dependents : list (list nat)) (fuel : nat) st : kstate Q :=
  match fuel with
  | O => st
  | S f =>
      match q_pop (k_ready st) with
      | None => st
      | Some ((idx, _), r) =>
          let st := mkK r (k_seq st) (k_indegree st) (k_out st ++ [idx]) in
          drain dependents f (foldl relax st (befores dependents idx))
      end
  end.

Definition place_all (edges : list (list nat)) : list nat :=
  k_out (drain (dependents_of edges) (length edges) (initial (indegree_of edges))).
End sort.

(** sort.SliceStable by [less]: an element goes behind those it does not
    precede. *)
Fixpoint insert_stable (lt : nat → nat → bool) (x : nat) (l : list nat) : list nat :=
  match l with
  | [] => [x]
  | y :: r => if lt x y then x :: y :: r else y :: insert_stable lt x r
  end.
Definition sort_stable (lt : nat → nat → bool) (l : list nat) : list nat :=
  foldl (λ acc x, insert_stable lt x acc) [] l.

(** ** Naming a cycle *)

Inductive color := white | grey | black.
#[global] Instance color_eq_dec : EqDecision color.
Proof. solve_decision. Defined.

(** The colours and the stack of the depth-first search. *)
Record dfs := mkDfs { d_color : list color; d_stack : list nat }.

Definition color_of (st : dfs) (i : nat) : color := default black (d_color st !! i).

(** The part of the stack from the first occurrence of a chunk onward. *)
Fixpoint stack_from (b : nat) (stack : list nat) : option (list nat) :=
  match stack with
  | [] => None
  | s :: r => if decide (s = b) then Some (s :: r) else stack_from b r
  end.

Section report.
Context (edges : list (list nat)) (placed : nat → bool).

(** The loop over edges[i], given the walk one level down. *)
Fixpoint walk_edges (walk : nat → dfs → option (list nat) * dfs) (bs : list nat) (st : dfs)
    : option (list nat) * dfs :=
  match bs with
  | [] => (None, st)
  | b :: r =>
      if placed b then walk_edges walk r st
      else
        match (if decide (color_of st b = grey) then stack_from b (d_stack st) else None) with
        | Some cyc => (Some (cyc ++ [b]), st)
        | None =>
            if decide (color_of st b = white) then
              match walk b st with
              | (Some cyc, st') => (Some cyc, st')
              | (None, st') => walk_edges walk r st'
              end
            else walk_edges walk r st
        end
  end.

(** Every level of the search paints one more white chunk grey, so
    [length chunks] levels are enough. *)
Fixpoint walk (fuel : nat) (i : nat) (st : dfs) : option (list nat) * dfs :=
  match fuel with
  | O => (None, st)
  | S f =>
      let st := mkDfs (<[i := grey]> (d_color st)) (d_stack st ++ [i]) in
      match walk_edges (walk f) (befores edges i) st with
      | (Some cyc, st') => (Some cyc, st')
      | (None, st') =>
          (None, mkDfs (<[i := black]> (d_color st')) (removelast (d_stack st')))
      end
  end.

Fixpoint find_cycle (is_ : list nat) (st : dfs) : option (list nat) :=
  match is_ with
  | [] => None
  | i :: r =>
      if placed i || bool_decide (color_of st i ≠ white) then find_cycle r st
      else
        match walk (length edges) i (mkDfs (d_color st) []) with
        | (Some cyc, _) => Some cyc
        | (None, st') => find_cycle r st'
        end
  end.
End report.

Definition requisiteTargets (req : Req) (to : Chunk) : bool :=
  existsb (λ ref, bool_decide (rID ref = cID to) ||
                  (bool_decide (rSLS ref ≠ "") && bool_decide (rSLS ref = cSLS to))) (Refs req).

Definition kindBetween (from to : Chunk) : string :=
  match list_find (λ r, requisiteTargets r to = true) (Reqs from) with
  | Some (_, r) => ReqKind_String (rKind r)
  | None => "requires"
  end.

(** renderCycle: [id -> kind -> id -> kind ... -> id]. *)
Fixpoint render_hops (chunks : list Chunk) (first : bool) (cyc : list nat) : string :=
  match cyc with
  | i :: (j :: _) as r =>
      match chunks !! i, chunks !! j with
      | Some from, Some to =>
          (if first then "" else " -> ") +:+ cID from +:+ " -> " +:+ kindBetween from to
            +:+ render_hops chunks false r
      | _, _ => ""
      end
  | [i] => " -> " +:+ from_option cID "" (chunks !! i)
  | [] => ""
  end.
Definition renderCycle (chunks : list Chunk) (cyc : list nat) : string :=
  render_hops chunks true cyc.

Definition reportCycle (chunks : list Chunk) (edges : list (list nat)) (placed : nat → bool)
    : DW unit :=
  match find_cycle edges placed (seq 0 (length chunks))
          (mkDfs (replicate (length chunks) white) []) with
  | Some cyc =>
      match head cyc ≫= λ i, chunks !! i with
      | Some c => Add (cPos c) (cSLS c) (cID c) "requisite cycle: %s" [FStr (renderCycle chunks cyc)]
      | None => mret ()
      end
  | None =>
      let names := Describe <$> omap (λ i, if placed i then None else chunks !! i)
                                  (seq 0 (length chunks)) in
      Add noPos "" "" "requisite cycle among: %s" [FStr (Join names ", ")]
  end.

(** A chunk that is its own requisite, [listen] and [use] apart, is reported
    once. *)
Definition self_cycle (chunks : list Chunk) (i : nat) (c : Chunk) : DW unit :=
  if existsb (λ '(_, k, t), (t =? i)%nat && negb (bool_decide (k = Listen)) &&
                            negb (bool_decide (k = Use_))) (chunk_arcs i c)
  then Add (cPos c) (cSLS c) (cID c) "requisite cycle: %s" [FStr (renderCycle chunks [i; i])]
  else mret ().

(** ** The order *)

(** remapResolved, for one resolved index: [perm] is the run order. *)
Definition remap (perm : list nat) (old : nat) : nat :=
  match list_find (λ i, i = old) perm with
  | Some (pos, _) => pos
  | None => old
  end.
Definition remap_chunk (perm : list nat) (c : Chunk) : Chunk :=
  set_Reqs c ((λ r, mkReq (rKind r) (Refs r) (remap perm <$> Resolved r)) <$> Reqs c).

(** The run order, as positions in the declaration order: the chunks placed,
    and behind them, where a cycle kept some out, the rest by priority. *)
Definition rest_of (chunks : list Chunk) (out : list nat) : list nat :=
  sort_stable (less chunks) (filter (λ i, i ∉ out) (seq 0 (length chunks))).
Definition run_order (chunks : list Chunk) : list nat :=
  let out := place_all (ops:=heap_ops chunks) (edges_of chunks) in
  if decide (length out = length chunks) then out else out ++ rest_of chunks out.

Definition finish_order (chunks : list Chunk) (perm : list nat) : list Chunk :=
  omap (λ '(pos, i), (λ c, remap_chunk perm (set_RunNum c pos)) <$> chunks !! i)
    (imap pair perm).

Definition order (chunks : list Chunk) : DW (list Chunk) :=
  match chunks with
  | [] => mret []
  | _ =>
      let edges := edges_of chunks in
      let out := place_all (ops:=heap_ops chunks) edges in
      mapM id (imap (self_cycle chunks) chunks) ;;
      (if decide (length out = length chunks) then mret ()
       else reportCycle chunks edges (λ i, bool_decide (i ∈ out))) ;;
      mret (finish_order chunks (run_order chunks))
  end.

(** ** The comparison is a strict weak order, total on arrivals *)

Section comparison.
Context (chunks : list Chunk).

Lemma less_spec a b :
  less chunks a b =
    let '(am, av, ad, as_) := priority chunks a in
    let '(bm, bv, bd, bs) := priority chunks b in
    (am <? bm) || ((am =? bm) && ((av <? bv) || ((av =? bv) &&
      ((ad <? bd) || ((ad =? bd) && (as_ <? bs)))))).
Proof.
  unfold less. destruct (priority chunks a) as [[[am av] ad] as_].
  destruct (priority chunks b) as [[[bm bv] bd] bs].
  repeat case_match; lia.
Qed.

Lemma less_asym a b : less chunks a b = true → less chunks b a = false.
Proof.
  rewrite !less_spec. destruct (priority chunks a) as [[[? ?] ?] ?].
  destruct (priority chunks b) as [[[? ?] ?] ?]. lia.
Qed.

Lemma not_less_trans a b c :
  less chunks b a = false → less chunks c b = false → less chunks c a = false.
Proof.
  rewrite !less_spec. destruct (priority chunks a) as [[[? ?] ?] ?].
  destruct (priority chunks b) as [[[? ?] ?] ?], (priority chunks c) as [[[? ?] ?] ?]. lia.
Qed.

Lemma before_asym_ a b : before_ chunks a b = true → before_ chunks b a = false.
Proof.
  unfold before_. destruct (less chunks a.1 b.1) eqn:E1, (less chunks b.1 a.1) eqn:E2; try done.
  - by rewrite (less_asym _ _ E1) in E2.
  - rewrite Nat.ltb_lt, Nat.ltb_ge. lia.
Qed.

Lemma not_before_trans_ a b c :
  before_ chunks b a = false → before_ chunks c b = false → before_ chunks c a = false.
Proof.
  unfold before_. pose proof (not_less_trans a.1 b.1 c.1). pose proof (not_less_trans c.1 b.1 a.1).
  pose proof (not_less_trans b.1 c.1 a.1). pose proof (not_less_trans b.1 a.1 c.1).
  pose proof (not_less_trans a.1 c.1 b.1). pose proof (not_less_trans c.1 a.1 b.1).
  destruct (less chunks b.1 a.1), (less chunks a.1 b.1), (less chunks c.1 b.1),
    (less chunks b.1 c.1), (less chunks c.1 a.1), (less chunks a.1 c.1); try done;
    repeat match goal with
    | H : _ = _ → _ = _ → _ = _ |- _ => first [discriminate (H eq_refl eq_refl)|clear H]
    end.
  rewrite !Nat.ltb_ge. lia.
Qed.

Lemma before_total a b :
  a.2 ≠ b.2 → before_ chunks a b = false → before_ chunks b a = true.
Proof.
  unfold before_. destruct (less chunks a.1 b.1), (less chunks b.1 a.1); try done.
  rewrite Nat.ltb_lt, Nat.ltb_ge. lia.
Qed.
End comparison.

(** ** The two ready sets keep the contract *)

#[global] Instance heap_queue chunks : ReadyQueue (before_ chunks) (list entry) (heap_ops chunks).
Proof.
  refine {| q_elems := λ l, l; q_ok := heap (before_ chunks) |}; simpl.
  - intros j Hj a b Ha. done.
  - done.
  - intros q e Hq _. apply push_spec; eauto using before_asym_, not_before_trans_.
  - intros q Hq. split; [|by intros ->]. intros Hn. destruct q as [|x q]; [done|].
    destruct (pop_Some (before_ chunks) (x :: q)) as [? Hp]; [done|]. congruence.
  - intros q e q' Hq Hp. apply pop_spec in Hp; eauto using before_asym_, not_before_trans_.
Defined.

Lemma scan_best_spec chunks x l :
  StronglySorted (λ a b : entry, (a.2 < b.2)%nat) (x :: l) →
  let b := scan_best (less chunks) x l in
  b ∈ x :: l ∧ ∀ y, y ∈ x :: l → before_ chunks y b = false.
Proof.
  intros Hs. simpl.
  cut (∀ best, (∀ y, y ∈ l → (best.2 < y.2)%nat) → StronglySorted (λ a b : entry, (a.2 < b.2)%nat) l →
    (scan_best (less chunks) best l = best ∨ scan_best (less chunks) best l ∈ l) ∧
    before_ chunks best (scan_best (less chunks) best l) = false ∧
    ∀ y, y ∈ l → before_ chunks y (scan_best (less chunks) best l) = false).
  { intros Hc. apply StronglySorted_inv in Hs as [Hs Hx]. rewrite Forall_forall in Hx.
    destruct (Hc x Hx Hs) as (H1 & H2 & H3). split.
    - apply elem_of_cons. by destruct H1; [left|right].
    - intros y [->|?]%elem_of_cons; auto. }
  clear Hs x. induction l as [|y l IH]; intros best Hb Hs; simpl.
  { split_and!; [by left| |by intros ? ?%not_elem_of_nil].
    apply before_irrefl, before_asym_. }
  apply StronglySorted_inv in Hs as [Hs Hy]. rewrite Forall_forall in Hy.
  assert (best.2 < y.2)%nat as Hlt by (apply Hb, list_elem_of_here).
  destruct (less chunks y.1 best.1) eqn:Hl.
  - destruct (IH y Hy Hs) as (H1 & H2 & H3).
    split_and!.
    + right. apply elem_of_cons. by destruct H1; [left|right].
    + eapply not_before_trans_; [exact H2|]. apply before_asym_. unfold before_. by rewrite Hl.
    + intros z [->|?]%elem_of_cons; auto.
  - destruct (IH best) as (H1 & H2 & H3); [|done|].
    { intros z Hz. apply Hb. by apply list_elem_of_further. }
    split_and!.
    + destruct H1; [by left|]. right. by apply list_elem_of_further.
    + done.
    + intros z [->|?]%elem_of_cons; [|auto]. eapply not_before_trans_; [exact H2|].
      unfold before_. rewrite Hl. case_match; [done|]. apply Nat.ltb_ge. lia.
Qed.

#[global] Instance scan_queue chunks : ReadyQueue (before_ chunks) (list entry) (scan_ops chunks).
Proof.
  refine {| q_elems := λ l, l; q_ok := StronglySorted (λ a b : entry, (a.2 < b.2)%nat) |}; simpl.
  - constructor.
  - done.
  - intros q e Hq Hlt. split; [|by rewrite Permutation_app_comm].
    apply StronglySorted_app_2; [|done|repeat constructor].
    intros a b Ha ->%list_elem_of_singleton. by apply Hlt.
  - intros q Hq. destruct q; simpl; split; done.
  - intros q e q' Hq Hp. destruct q as [|x q]; [done|]. unfold scan_pop in Hp. injection Hp as He Hq'.
    destruct (scan_best_spec chunks x q Hq) as [Hin Hmin]. rewrite He in *. subst q'.
    split_and!; [| |done].
    + by apply StronglySorted_filter_.
    + assert (NoDup (x :: q)) as Hnd.
      { clear -Hq. induction Hq as [|a l Hl IH Ha]; constructor; [|done].
        rewrite Forall_forall in Ha. intros Hin. specialize (Ha _ Hin). lia. }
      apply NoDup_Permutation; [done| |].
      * constructor; [|by apply NoDup_filter]. rewrite list_elem_of_filter. tauto.
      * intros y. rewrite (elem_of_cons (filter _ _)), list_elem_of_filter. destruct (decide (y = e)) as [->|]; tauto.
Defined.

(** ** Two lawful ready sets drain alike *)

Section agreement.
Context (chunks : list Chunk).
Context {Q1 Q2 : Type} {ops1 : ReadyOps Q1} {ops2 : ReadyOps Q2}.
Context (L1 : ReadyQueue (before_ chunks) Q1 ops1) (L2 : ReadyQueue (before_ chunks) Q2 ops2).

(** The two states hold the same entries, with distinct arrival numbers below
    the counter, and agree on everything else. *)
Record same (s1 : kstate Q1) (s2 : kstate Q2) : Prop := mkSame {
  same_ok1 : q_ok (k_ready s1);
  same_ok2 : q_ok (k_ready s2);
  same_elems : q_elems (k_ready s1) ≡ₚ q_elems (k_ready s2);
  same_nodup : NoDup (q_elems (k_ready s1)).*2;
  same_bound : ∀ y, y ∈ q_elems (k_ready s1) → (y.2 < k_seq s1)%nat;
  same_seq : k_seq s1 = k_seq s2;
  same_ind : k_indegree s1 = k_indegree s2;
  same_out : k_out s1 = k_out s2 }.

Lemma same_enter s1 s2 i : same s1 s2 → same (enter s1 i) (enter s2 i).
Proof.
  intros [O1 O2 HE HN HB HS HI HO].
  destruct (q_push_ok (k_ready s1) (i, k_seq s1) O1) as [P1 E1]; [done|].
  destruct (q_push_ok (k_ready s2) (i, k_seq s2) O2) as [P2 E2].
  { intros y Hy. simpl. rewrite <-HS. apply HB. by rewrite HE. }
  unfold enter. constructor; simpl; try done; rewrite ?HS in *.
  - by rewrite E1, E2, HE.
  - rewrite E1. simpl. constructor; [|done]. intros (y & Heq & Hy)%list_elem_of_fmap.
    specialize (HB _ Hy). lia.
  - intros y. rewrite E1. intros [->|Hy]%elem_of_cons; simpl; [lia|]. specialize (HB _ Hy). lia.
  - done.
Qed.

Lemma same_relax s1 s2 d : same s1 s2 → same (relax s1 d) (relax s2 d).
Proof.
  intros Hs. unfold relax. rewrite <-(same_ind _ _ Hs).
  assert (same (mkK (k_ready s1) (k_seq s1) (alter Z.pred d (k_indegree s1)) (k_out s1))
               (mkK (k_ready s2) (k_seq s2) (alter Z.pred d (k_indegree s1)) (k_out s2))) as H'.
  { destruct Hs. by constructor. }
  case_decide; [by apply same_enter|done].
Qed.

Lemma same_foldl {X} (f1 : kstate Q1 → X → kstate Q1) (f2 : kstate Q2 → X → kstate Q2) xs s1 s2 :
  (∀ s1 s2 x, same s1 s2 → same (f1 s1 x) (f2 s2 x)) →
  same s1 s2 → same (foldl f1 s1 xs) (foldl f2 s2 xs).
Proof. intros Hf. revert s1 s2. induction xs; simpl; auto. Qed.

(** The least entry is unique, so both sets give the same one. *)
Lemma same_pop s1 s2 :
  same s1 s2 →
  match q_pop (k_ready s1), q_pop (k_ready s2) with
  | None, None => True
  | Some (e1, r1), Some (e2, r2) =>
      e1 = e2 ∧ ∀ o, same (mkK r1 (k_seq s1) (k_indegree s1) o) (mkK r2 (k_seq s2) (k_indegree s2) o)
  | _, _ => False
  end.
Proof.
  intros [O1 O2 HE HN HB HS HI HO].
  pose proof (q_pop_None _ O1) as N1. pose proof (q_pop_None _ O2) as N2.
  destruct (q_pop (k_ready s1)) as [[e1 r1]|] eqn:P1, (q_pop (k_ready s2)) as [[e2 r2]|] eqn:P2; [| | |done].
  - destruct (q_pop_ok _ _ _ O1 P1) as (R1 & E1 & M1).
    destruct (q_pop_ok _ _ _ O2 P2) as (R2 & E2 & M2).
    assert (e1 = e2) as <-.
    { assert (e1 ∈ q_elems (k_ready s1)) as I1 by (rewrite E1; apply list_elem_of_here).
      assert (e2 ∈ q_elems (k_ready s1)) as I2 by (rewrite HE, E2; apply list_elem_of_here).
      destruct (decide (e1.2 = e2.2)) as [Heq|Hne].
      - apply list_elem_of_lookup in I1 as [i Hi]. apply list_elem_of_lookup in I2 as [j Hj].
        assert (i = j); [|congruence]. eapply (NoDup_lookup _ i j); [exact HN| |];
          rewrite list_lookup_fmap, ?Hi, ?Hj; simpl; [done|congruence].
      - assert (before_ chunks e2 e1 = true) as Hb.
        { apply before_total; [done|]. apply M2. by rewrite <-HE. }
        by rewrite (M1 _ I2) in Hb. }
    split; [done|]. intros o. constructor; simpl; try done.
    + apply (Permutation_cons_inv (a:=e1)). by rewrite <-E1, <-E2.
    + rewrite E1 in HN. simpl in HN. by apply NoDup_cons in HN as [_ ?].
    + intros y Hy. apply HB. rewrite E1. by apply list_elem_of_further.
  - destruct (q_pop_ok _ _ _ O1 P1) as (_ & E1 & _). pose proof (proj1 N2 eq_refl) as HN2.
    rewrite HE in E1. rewrite HN2 in E1. by apply Permutation_nil_cons in E1.
  - destruct (q_pop_ok _ _ _ O2 P2) as (_ & E2 & _). pose proof (proj1 N1 eq_refl) as HN1.
    rewrite <-HE, HN1 in E2. by apply Permutation_nil_cons in E2.
Qed.

Lemma same_drain deps fuel s1 s2 : same s1 s2 → k_out (drain deps fuel s1) = k_out (drain deps fuel s2).
Proof.
  revert s1 s2. induction fuel as [|fuel IH]; intros s1 s2 Hs; simpl; [apply Hs|].
  pose proof (same_pop _ _ Hs) as Hp.
  destruct (q_pop (k_ready s1)) as [[[i1 q1] r1]|], (q_pop (k_ready s2)) as [[[i2 q2] r2]|]; try done.
  - destruct Hp as [Heq Hs']. simplify_eq. apply IH, same_foldl; [intros; by apply same_relax|].
    rewrite <-(same_out _ _ Hs). apply Hs'.
  - apply Hs.
Qed.

Lemma place_all_agree edges : place_all (ops:=ops1) edges = place_all (ops:=ops2) edges.
Proof.
  unfold place_all. apply same_drain. unfold initial. apply same_foldl.
  - intros s1 s2 i Hs. case_decide; [by apply same_enter|done].
  - constructor; simpl; rewrite ?q_empty_elems; try done; try apply q_empty_ok.
    + constructor.
    + by intros y ?%not_elem_of_nil.
Qed.
End agreement.

(** ** The sort is a topological sort *)

(** Each chunk's predecessors are distinct chunks, none of them itself. *)
Definition edges_wf (edges : list (list nat)) : Prop :=
  ∀ i, NoDup (befores edges i) ∧ (i ∉ befores edges i) ∧
       ∀ b, b ∈ befores edges i → (b < length edges)%nat.

Lemma befores_alter (f : list nat → list nat) i (edges : list (list nat)) j :
  befores (alter f i edges) j =
    if decide (i = j ∧ (j < length edges)%nat) then f (befores edges j) else befores edges j.
Proof.
  unfold befores. rewrite list_lookup_alter. case_decide as H1.
  - subst. case_decide as H2.
    + destruct H2 as [_ Hlt]. apply lookup_lt_is_Some in Hlt as [l ->]. done.
    + rewrite lookup_ge_None_2 by lia. done.
  - rewrite decide_False by tauto. done.
Qed.

Lemma befores_lt edges i b : b ∈ befores edges i → (i < length edges)%nat.
Proof.
  unfold befores. destruct (edges !! i) eqn:E; [|by intros ?%not_elem_of_nil].
  intros _. by eapply lookup_lt_Some.
Qed.

Lemma add_dependents_length deps p : length (add_dependents deps p) = length deps.
Proof.
  unfold add_dependents. generalize p.2; intros l. revert deps.
  induction l as [|x l IH]; intros deps; simpl; [done|]. rewrite IH. apply length_alter.
Qed.

Lemma add_dependents_spec deps a l b :
  NoDup l → (b < length deps)%nat →
  befores (add_dependents deps (a, l)) b = befores deps b ++ ((if decide (b ∈ l) then [a] else []) : list nat).
Proof.
  unfold add_dependents. simpl. revert deps.
  induction l as [|x l IH]; intros deps Hnd Hb; simpl.
  { by rewrite app_nil_r. }
  apply NoDup_cons in Hnd as [Hx Hnd]. rewrite IH by (done || by rewrite length_alter).
  rewrite befores_alter. destruct (decide (x = b)) as [->|Hne].
  - rewrite (decide_True (P:=b = b ∧ _)), (decide_False (P:=b ∈ l)) by done.
    rewrite decide_True by apply list_elem_of_here. by rewrite app_nil_r.
  - rewrite (decide_False (P:=x = b ∧ _)) by tauto. f_equal.
    assert (b ∈ x :: l ↔ b ∈ l) as Hiff by (rewrite elem_of_cons; split; [intros [?|?]; congruence|auto]).
    repeat case_decide; tauto || done.
Qed.

Lemma dependents_go es k deps b :
  (∀ i, NoDup (befores es i)) → (b < length deps)%nat →
  befores (foldl add_dependents deps (imap (λ i l, ((k + i)%nat, l)) es)) b =
    befores deps b ++ filter (λ a, b ∈ befores es (a - k)) (seq k (length es)).
Proof.
  revert k deps. induction es as [|l es IH]; intros k deps Hnd Hb; simpl.
  { by rewrite app_nil_r. }
  rewrite Nat.add_0_r.
  rewrite (imap_ext _ (λ i l, ((S k + i)%nat, l))) by (intros; simpl; f_equal; lia).
  rewrite IH; [|intros i; apply (Hnd (S i))|by rewrite add_dependents_length].
  rewrite add_dependents_spec by (done || apply (Hnd 0%nat)). rewrite <-app_assoc. f_equal.
  rewrite filter_cons. replace (k - k)%nat with 0%nat by lia.
  assert (filter (λ a, b ∈ befores es (a - S k)) (seq (S k) (length es)) =
          filter (λ a, b ∈ befores (l :: es) (a - k)) (seq (S k) (length es))) as ->.
  { apply filter_iff_in. intros a Ha%elem_of_seq. replace (a - k)%nat with (S (a - S k)) by lia. done. }
  change (befores (l :: es) 0) with l. by case_decide.
Qed.

Lemma dependents_spec edges b :
  edges_wf edges → (b < length edges)%nat →
  befores (dependents_of edges) b =
    filter (λ a, b ∈ befores edges a) (seq 0 (length edges)).
Proof.
  intros Hwf Hb. unfold dependents_of.
  rewrite (imap_ext _ (λ i l, ((0 + i)%nat, l))) by done.
  rewrite dependents_go; [|intros; apply Hwf|by rewrite length_replicate].
  assert (befores (replicate (length edges) []) b = []) as ->.
  { unfold befores. by rewrite lookup_replicate_2. }
  simpl. apply filter_iff_in. intros a _. by rewrite Nat.sub_0_r.
Qed.

(** Placing one more chunk takes it off the count of the chunks behind it. *)
Lemma unplaced_snoc (l out : list nat) x :
  NoDup l → x ∉ out →
  length (filter (λ b, b ∉ out) l) =
    (length (filter (λ b, b ∉ out ++ [x]) l) + (if decide (x ∈ l) then 1 else 0))%nat.
Proof.
  intros Hnd Hx. induction l as [|b l IH]; [done|].
  apply NoDup_cons in Hnd as [Hb Hnd]. specialize (IH Hnd). rewrite !filter_cons.
  destruct (decide (b = x)) as [->|Hne].
  - rewrite (decide_True (P:=x ∉ out)) by done.
    rewrite (decide_False (P:=x ∉ out ++ [x])) by (rewrite elem_of_app, list_elem_of_singleton; tauto).
    rewrite decide_True by apply list_elem_of_here. rewrite decide_False in IH by done. simpl. lia.
  - assert (b ∉ out ++ [x] ↔ b ∉ out) as Hiff.
    { rewrite elem_of_app, list_elem_of_singleton. tauto. }
    assert (x ∈ b :: l ↔ x ∈ l) as Hiff2 by (rewrite elem_of_cons; split; [intros [?|?]; congruence|auto]).
    destruct (decide (x ∈ b :: l)), (decide (x ∈ l)); try tauto;
    destruct (decide (b ∉ out)), (decide (b ∉ out ++ [x])); try tauto; simpl; lia.
Qed.

Section topological.
Context (edges : list (list nat)) (Hwf : edges_wf edges).
Context {bef : entry → entry → bool} {Q : Type} {ops : ReadyOps Q} (L : ReadyQueue bef Q ops).
Implicit Types (st : kstate Q).

Definition waiting (out : list nat) (d : nat) : list nat := filter (λ b, b ∉ out) (befores edges d).
Definition known st : list nat := (q_elems (k_ready st)).*1 ++ k_out st.

(** What holds while the dependents [todo] of the chunk just placed are still
    to be told. *)
Record inv (todo : list nat) st : Prop := mkInv {
  inv_ok : q_ok (k_ready st);
  inv_seq : ∀ y, y ∈ q_elems (k_ready st) → (y.2 < k_seq st)%nat;
  inv_nodup : NoDup (known st);
  inv_range : ∀ i, i ∈ known st → (i < length edges)%nat;
  inv_ind : ∀ d, (d < length edges)%nat →
    k_indegree st !! d =
      Some (Z.of_nat (length (waiting (k_out st) d)) + (if decide (d ∈ todo) then 1 else 0));
  inv_zero : ∀ d, (d < length edges)%nat → d ∈ known st ↔ k_indegree st !! d = Some 0;
  inv_topo : ∀ pre d post, k_out st = pre ++ d :: post →
    ∀ b, b ∈ befores edges d → b ∈ pre }.

Lemma enter_known st i :
  q_ok (k_ready st) → (∀ y, y ∈ q_elems (k_ready st) → (y.2 < k_seq st)%nat) →
  q_ok (k_ready (enter st i)) ∧ known (enter st i) ≡ₚ i :: known st ∧
  (∀ y, y ∈ q_elems (k_ready (enter st i)) → (y.2 < k_seq (enter st i))%nat).
Proof.
  intros Hok Hseq. unfold enter, known; simpl.
  destruct (q_push_ok (k_ready st) (i, k_seq st) Hok) as [H1 H2]; [done|].
  split_and!; [done|by rewrite H2|].
  intros y. rewrite H2. intros [->|Hy]%elem_of_cons; simpl; [lia|]. specialize (Hseq _ Hy). lia.
Qed.

Lemma inv_relax d todo st :
  d ∉ todo → (d < length edges)%nat → inv (d :: todo) st → inv todo (relax st d).
Proof.
  intros Hd Hlt [Iok Iseq Ind Irng Iind Iz It]. unfold relax.
  set (ind := alter Z.pred d (k_indegree st)).
  set (st' := mkK (k_ready st) (k_seq st) ind (k_out st)).
  assert (∀ d', (d' < length edges)%nat → ind !! d' =
    Some (Z.of_nat (length (waiting (k_out st) d')) + (if decide (d' ∈ todo) then 1 else 0))) as Hind.
  { intros d' Hd'. unfold ind. rewrite list_lookup_alter. case_decide as Heq.
    - subst d'. rewrite (Iind d Hlt). simpl.
      rewrite decide_True by apply list_elem_of_here. rewrite decide_False by done. f_equal. lia.
    - rewrite (Iind d' Hd'). f_equal. f_equal.
      assert (d' ∈ d :: todo ↔ d' ∈ todo) by (rewrite elem_of_cons; split; [intros [?|?]; congruence|auto]).
      repeat case_decide; tauto || done. }
  assert (d ∉ known st) as Hnk.
  { intros Hk. apply Iz in Hk; [|done]. rewrite (Iind d Hlt) in Hk.
    rewrite decide_True in Hk by apply list_elem_of_here. simplify_eq. lia. }
  assert (∀ d', (d' < length edges)%nat → d' ≠ d → d' ∈ known st ↔ ind !! d' = Some 0) as Hz.
  { intros d' Hd' Hne. rewrite (Iz d' Hd'). unfold ind. by rewrite list_lookup_alter_ne. }
  case_decide as H0.
  - destruct (enter_known st' d Iok Iseq) as (E1 & E2 & E3). constructor; try done.
    + rewrite E2. by constructor.
    + intros i. rewrite E2. intros [->|Hi]%elem_of_cons; [done|by apply Irng].
    + intros d' Hd'. rewrite E2, elem_of_cons. simpl.
      destruct (decide (d' = d)) as [->|Hne]; [split; [done|by left]|]. rewrite <-(Hz d' Hd' Hne).
      unfold known, st'. simpl. split; [by intros [?|?]|by right].
  - constructor; try done. intros d' Hd'. simpl.
    destruct (decide (d' = d)) as [->|Hne]; [|by apply Hz]. split; [done|congruence].
Qed.

Lemma inv_relax_all todo st :
  NoDup todo → (∀ d, d ∈ todo → (d < length edges)%nat) → inv todo st → inv [] (foldl relax st todo).
Proof.
  revert st. induction todo as [|d todo IH]; intros st Hnd Hlt Hi; simpl; [done|].
  apply NoDup_cons in Hnd as [Hd Hnd]. apply IH; [done| |].
  - intros; apply Hlt. by apply list_elem_of_further.
  - apply inv_relax; [done| |done]. apply Hlt, list_elem_of_here.
Qed.

Lemma waiting_nil out d : waiting out d = [] ↔ ∀ b, b ∈ befores edges d → b ∈ out.
Proof.
  unfold waiting. split.
  - intros Hn b Hb. destruct (decide (b ∈ out)); [done|].
    assert (b ∈ filter (λ b, b ∉ out) (befores edges d)) as Hf by (by apply list_elem_of_filter).
    rewrite Hn in Hf. by apply not_elem_of_nil in Hf.
  - intros Hall. destruct (filter _ _) as [|b l] eqn:E; [done|].
    assert (b ∈ filter (λ b, b ∉ out) (befores edges d)) as Hf by (rewrite E; apply list_elem_of_here).
    apply list_elem_of_filter in Hf as [Hn Hb]. by destruct Hn; apply Hall.
Qed.

(** Taking the least ready chunk and placing it. *)
Lemma inv_pop st idx s r :
  inv [] st → q_pop (k_ready st) = Some ((idx, s), r) →
  inv (befores (dependents_of edges) idx) (mkK r (k_seq st) (k_indegree st) (k_out st ++ [idx])).
Proof.
  intros [Iok Iseq Ind Irng Iind Iz It] Hp.
  destruct (q_pop_ok _ _ _ Iok Hp) as (Rok & RE & _).
  assert (known st ≡ₚ (q_elems r).*1 ++ k_out st ++ [idx]) as HK.
  { unfold known. rewrite RE. simpl. rewrite app_assoc. by rewrite <-Permutation_cons_append. }
  assert (idx ∈ known st) as Hidx.
  { rewrite HK, !elem_of_app, list_elem_of_singleton. auto. }
  pose proof (Irng _ Hidx) as Hlt.
  assert (idx ∉ k_out st) as Hout.
  { rewrite HK, !NoDup_app in Ind. intros Hin. destruct Ind as (_ & _ & _ & Hd & _).
    apply (Hd _ Hin). apply list_elem_of_here. }
  constructor; simpl; unfold known; simpl; try done.
  - intros y Hy. apply Iseq. rewrite RE. by apply list_elem_of_further.
  - by rewrite <-HK.
  - intros i Hi. apply Irng. by rewrite HK.
  - intros d Hd. rewrite (Iind d Hd), decide_False by apply not_elem_of_nil. f_equal.
    unfold waiting. rewrite (unplaced_snoc _ _ idx) by (done || apply Hwf).
    rewrite dependents_spec by done.
    assert (d ∈ filter (λ a, idx ∈ befores edges a) (seq 0 (length edges)) ↔ idx ∈ befores edges d) as Hiff.
    { rewrite list_elem_of_filter, elem_of_seq. split; [tauto|]. intros; split; [done|lia]. }
    repeat case_decide; try tauto; lia.
  - intros d Hd. rewrite <-(Iz d Hd). by rewrite HK.
  - intros pre d post Heq b Hb. destruct post as [|z post _] using rev_ind.
    + apply app_inj_2 in Heq as [<- Hd]; [|done]. injection Hd as <-. rename idx into d.
      apply (waiting_nil (k_out st) d); [|done]. apply Iz in Hidx; [|done].
      rewrite (Iind d Hlt), decide_False in Hidx by apply not_elem_of_nil.
      destruct (waiting (k_out st) d); [done|]. simplify_eq/=.
    + rewrite app_comm_cons, app_assoc in Heq. apply app_inj_2 in Heq as [Heq _]; [|done]. eauto.
Qed.

(** With enough turns the ready set is drained. *)
Lemma inv_drain fuel st :
  inv [] st → (length edges ≤ length (k_out st) + fuel)%nat →
  let st' := drain (dependents_of edges) fuel st in
  inv [] st' ∧ q_elems (k_ready st') = [].
Proof.
  revert st. induction fuel as [|fuel IH]; intros st Hi Hf; simpl.
  - split; [done|]. assert (length (known st) ≤ length edges)%nat as Hle.
    { rewrite <-(length_seq (length edges) 0). apply submseteq_length, NoDup_submseteq; [apply Hi|].
      intros i Hk. apply elem_of_seq. apply (inv_range _ _ Hi) in Hk. lia. }
    unfold known in Hle. rewrite length_app, length_fmap in Hle.
    destruct (q_elems (k_ready st)); [done|]. simpl in *. lia.
  - destruct (q_pop (k_ready st)) as [[[idx s] r]|] eqn:Hp.
    + pose proof (inv_pop _ _ _ _ Hi Hp) as Hi'.
      assert ((idx < length edges)%nat) as Hlt.
      { apply (inv_range _ _ Hi'). unfold known. simpl. rewrite !elem_of_app, list_elem_of_singleton. auto. }
      assert (NoDup (befores (dependents_of edges) idx) ∧
        ∀ d, d ∈ befores (dependents_of edges) idx → (d < length edges)%nat) as [Hnd Hr].
      { rewrite dependents_spec by done. split; [apply NoDup_filter, NoDup_seq|].
        intros d [_ Hd%elem_of_seq]%list_elem_of_filter. lia. }
      apply IH; [by apply inv_relax_all|].
      assert (∀ ds st0, k_out (foldl relax st0 ds) = k_out st0) as ->.
      { intros ds. induction ds as [|d ds IHd]; intros st0; simpl; [done|]. rewrite IHd.
        unfold relax. by case_decide. }
      simpl. rewrite length_app. simpl. lia.
    + split; [done|]. apply q_pop_None in Hp; [done|apply Hi].
Qed.
(** The chunks with no predecessor enter first. *)
Lemma inv_initial : inv [] (initial (indegree_of edges)).
Proof.
  unfold initial. set (ind := indegree_of edges).
  assert (length ind = length edges) as Hlen by (unfold ind, indegree_of; apply length_fmap).
  assert (∀ d, (d < length edges)%nat →
    ind !! d = Some (Z.of_nat (length (waiting [] d)) + 0)) as Hind.
  { intros d Hd. unfold ind, indegree_of. rewrite list_lookup_fmap.
    unfold waiting, befores. destruct (lookup_lt_is_Some_2 edges d Hd) as [l Hl].
    rewrite Hl. simpl. f_equal. rewrite Z.add_0_r. f_equal. symmetry.
    apply (f_equal length), filter_all. intros x _. apply not_elem_of_nil. }
  set (step := λ (st : kstate Q) i, if decide (ind !! i = Some 0) then enter st i else st).
  cut (∀ n, (n ≤ length edges)%nat →
    let st := foldl step (mkK q_empty 0 ind []) (seq 0 n) in
    q_ok (k_ready st) ∧ (∀ y, y ∈ q_elems (k_ready st) → (y.2 < k_seq st)%nat) ∧
    k_out st = [] ∧ k_indegree st = ind ∧ NoDup (known st) ∧
    ∀ d, d ∈ known st ↔ (d < n)%nat ∧ ind !! d = Some 0).
  { intros Hc. rewrite Hlen. destruct (Hc (length edges) ltac:(lia)) as (A & B & C & D & E & F).
    constructor; try done.
    - intros i Hi. apply F in Hi as [? _]. done.
    - intros d Hd. fold step. rewrite D, C, (Hind d Hd). done.
    - intros d Hd. fold step. rewrite D, F. tauto.
    - intros pre d post. fold step. rewrite C. by destruct pre. }
  induction n as [|n IH]; intros Hn.
  - simpl. unfold known. simpl. rewrite q_empty_elems. simpl. split_and!; try done.
    + apply q_empty_ok.
    + by intros y ?%not_elem_of_nil.
    + constructor.
    + intros d. split; [by intros ?%not_elem_of_nil|lia].
  - rewrite seq_S, foldl_app. simpl. destruct (IH ltac:(lia)) as (A & B & C & D & E & F).
    set (st := foldl step _ (seq 0 n)) in *. unfold step. case_decide as H0.
    + destruct (enter_known st n A B) as (E1 & E2 & E3). split_and!; try done.
      * rewrite E2. constructor; [|done]. rewrite F. lia.
      * intros d. rewrite E2, elem_of_cons, F. split.
        -- intros [->|[? ?]]; split; lia || done.
        -- intros [Hd ?]. destruct (decide (d = n)); [by left|right; split; lia || done].
    + split_and!; try done. intros d. rewrite F. split; intros [? ?]; split; try done; [lia|].
      destruct (decide (d = n)) as [->|]; [done|lia].
Qed.

(** The chunks placed are distinct; each comes after all its predecessors;
    and a chunk left out has a predecessor left out. *)
Lemma place_all_spec :
  let out := place_all edges in
  NoDup out ∧ (∀ i, i ∈ out → (i < length edges)%nat) ∧
  (∀ pre d post, out = pre ++ d :: post → ∀ b, b ∈ befores edges d → b ∈ pre) ∧
  (∀ d, (d < length edges)%nat → d ∉ out → ∃ b, b ∈ befores edges d ∧ b ∉ out).
Proof.
  unfold place_all.
  destruct (inv_drain (length edges) (initial (indegree_of edges)) inv_initial) as [Hi Hn]; [lia|].
  set (st := drain _ _ _) in *. destruct Hi as [_ _ Ind Irng Iind Iz It].
  unfold known in *. rewrite Hn in *. simpl in *. split_and!; try done.
  intros d Hd Hout. rewrite (Iz d Hd), (Iind d Hd) in Hout.
  destruct (waiting (k_out st) d) as [|b l] eqn:E; [by destruct Hout|].
  assert (b ∈ waiting (k_out st) d) as Hb by (rewrite E; apply list_elem_of_here).
  apply list_elem_of_filter in Hb as [? ?]. eauto.
Qed.
End topological.

(** ** The graph of a low state *)

(** Requisites point at chunks of the slice. *)
Definition resolved_in_range (chunks : list Chunk) : Prop :=
  ∀ i k t, (i, k, t) ∈ arcs chunks → (i < length chunks)%nat ∧ (t < length chunks)%nat.

Lemma elem_of_chunk_arcs i c j k t :
  (j, k, t) ∈ chunk_arcs i c ↔ j = i ∧ ∃ r, r ∈ Reqs c ∧ rKind r = k ∧ t ∈ Resolved r.
Proof.
  unfold chunk_arcs. rewrite list_elem_of_bind. setoid_rewrite list_elem_of_bind.
  setoid_rewrite list_elem_of_singleton. split.
  - intros (r & (t' & Heq & Ht) & Hr). simplify_eq. eauto.
  - intros (-> & r & Hr & <- & Ht). eauto.
Qed.

Lemma elem_of_arcs chunks i k t :
  (i, k, t) ∈ arcs chunks ↔
  ∃ c r, chunks !! i = Some c ∧ r ∈ Reqs c ∧ rKind r = k ∧ t ∈ Resolved r.
Proof.
  unfold arcs. rewrite list_elem_of_In, in_concat. setoid_rewrite <-list_elem_of_In. split.
  - intros (l & (j & Hj)%list_elem_of_lookup & Ha).
    rewrite list_lookup_imap in Hj. destruct (chunks !! j) as [c|] eqn:Ec; [|done].
    injection Hj as <-. apply elem_of_chunk_arcs in Ha as (-> & r & ?). eauto.
  - intros (c & r & Hc & Hr). exists (chunk_arcs i c). rewrite elem_of_chunk_arcs.
    split; [|eauto]. apply list_elem_of_lookup. exists i. by rewrite list_lookup_imap, Hc.
Qed.

Lemma befores_addEdge b a edges i :
  befores (addEdge b a edges) i =
    if decide (a = i ∧ b ≠ a ∧ (i < length edges)%nat ∧ b ∉ befores edges i)
    then befores edges i ++ [b] else befores edges i.
Proof.
  unfold addEdge. case_decide as H1.
  - rewrite decide_False by naive_solver. done.
  - rewrite befores_alter. repeat case_decide; naive_solver.
Qed.

Lemma addEdge_length b a edges : length (addEdge b a edges) = length edges.
Proof. unfold addEdge. case_decide; [done|]. apply length_alter. Qed.

Lemma fold_arcs_spec l edges :
  edges_wf edges →
  (∀ a b e, a ∈ l → constraint a = Some (b, e) → (b < length edges)%nat ∧ (e < length edges)%nat) →
  edges_wf (foldl add_arc edges l) ∧ length (foldl add_arc edges l) = length edges ∧
  ∀ i b, b ∈ befores (foldl add_arc edges l) i ↔
    b ∈ befores edges i ∨ b ≠ i ∧ ∃ a, a ∈ l ∧ constraint a = Some (b, i).
Proof.
  revert edges. induction l as [|a l IH]; intros edges Hw Hr; simpl.
  { split_and!; try done. intros i b. split; [by left|]. intros [?|(_ & a & ?%not_elem_of_nil & _)]; done. }
  destruct (constraint a) as [[b0 e0]|] eqn:Ea.
  - assert (add_arc edges a = addEdge b0 e0 edges) as -> by (unfold add_arc; by rewrite Ea).
    destruct (Hr a b0 e0 ltac:(apply list_elem_of_here) Ea) as [Hb0 He0].
    destruct (IH (addEdge b0 e0 edges)) as (W & Ln & M).
    + intros i. rewrite addEdge_length, befores_addEdge. destruct (Hw i) as (W1 & W2 & W3).
      case_decide as Hd; [|done]. destruct Hd as (-> & Hne & Hlt & Hni). split_and!.
      * apply NoDup_app. split_and!; [done| |apply NoDup_singleton].
        intros x Hx ->%list_elem_of_singleton. done.
      * rewrite elem_of_app, list_elem_of_singleton. intros [?|?]; [done|congruence].
      * intros b. rewrite elem_of_app, list_elem_of_singleton. intros [?| ->]; auto.
    + intros a' b e Ha'. rewrite addEdge_length. apply Hr. by apply list_elem_of_further.
    + split_and!; [done|by rewrite Ln, addEdge_length|]. intros i b. rewrite M, befores_addEdge.
      setoid_rewrite elem_of_cons. split.
      * intros [Hin|(Hne & a' & Ha' & Hc)]; [|naive_solver].
        case_decide as Hd; [|by left]. destruct Hd as (-> & Hd2 & Hd3).
        apply elem_of_app in Hin as [?| ->%list_elem_of_singleton]; [by left|]. right. split; [done|]. eauto.
      * intros [Hin|(Hne & a' & [->|Ha'] & Hc)].
        -- left. case_decide; [apply elem_of_app; by left|done].
        -- left. rewrite Ea in Hc. injection Hc as <- <-. case_decide as Hd.
           ++ rewrite elem_of_app, list_elem_of_singleton. auto.
           ++ destruct (decide (b0 ∈ befores edges e0)); [done|]. by destruct Hd.
        -- right. eauto.
  - assert (add_arc edges a = edges) as -> by (unfold add_arc; by rewrite Ea).
    destruct (IH edges Hw) as (W & Ln & M).
    { intros a' b e Ha'. apply Hr. by apply list_elem_of_further. }
    split_and!; try done. intros i b. rewrite M. setoid_rewrite elem_of_cons. naive_solver.
Qed.

Lemma edges_of_spec chunks :
  resolved_in_range chunks →
  edges_wf (edges_of chunks) ∧ length (edges_of chunks) = length chunks ∧
  ∀ i b, b ∈ befores (edges_of chunks) i ↔
    b ≠ i ∧ ∃ a, a ∈ arcs chunks ∧ constraint a = Some (b, i).
Proof.
  intros Hr. unfold edges_of.
  assert (∀ i, befores (replicate (length chunks) []) i = []) as Hnil.
  { intros i. unfold befores. destruct (replicate _ _ !! i) eqn:E; [|done].
    by apply lookup_replicate in E as [-> _]. }
  destruct (fold_arcs_spec (arcs chunks) (replicate (length chunks) [])) as (W & Ln & M).
  - intros i. rewrite Hnil. split_and!; [constructor|apply not_elem_of_nil|by intros b ?%not_elem_of_nil].
  - intros [[i k] t] b e Ha Hc. rewrite length_replicate. apply Hr in Ha as [? ?].
    destruct k; simplify_eq/=; done.
  - rewrite length_replicate in Ln. split_and!; [done|done|]. intros i b. rewrite M, Hnil.
    split; [|by right]. intros [?%not_elem_of_nil|?]; done.
Qed.

Lemma insert_stable_perm lt x l : insert_stable lt x l ≡ₚ x :: l.
Proof.
  induction l as [|y l IH]; simpl; [done|]. case_match; [done|]. rewrite IH. apply Permutation_swap.
Qed.

Lemma sort_stable_perm lt l : sort_stable lt l ≡ₚ l.
Proof.
  unfold sort_stable. rewrite <-(app_nil_r l) at 2. generalize (@nil nat).
  induction l as [|x l IH]; intros acc; simpl; [done|].
  rewrite IH, insert_stable_perm. symmetry. apply Permutation_middle.
Qed.

Lemma perm_of_NoDup (l : list nat) n :
  NoDup l → (∀ i, i ∈ l → (i < n)%nat) → l ++ filter (λ i, i ∉ l) (seq 0 n) ≡ₚ seq 0 n.
Proof.
  intros Hnd Hlt. apply NoDup_Permutation.
  - apply NoDup_app. split_and!; [done| |apply NoDup_filter, NoDup_seq].
    intros x Hx [Hn _]%list_elem_of_filter. done.
  - apply NoDup_seq.
  - intros x. rewrite elem_of_app, list_elem_of_filter, elem_of_seq. split.
    + intros [Hx|[_ ?]]; [apply Hlt in Hx; lia|done].
    + intros Hx. destruct (decide (x ∈ l)); auto.
Qed.

(** A NoDup list of [n] numbers below [n] has them all. *)
Lemma full_of_length (l : list nat) n :
  NoDup l → (∀ i, i ∈ l → (i < n)%nat) → length l = n → l ≡ₚ seq 0 n.
Proof.
  intros Hnd Hlt Hlen. pose proof (perm_of_NoDup l n Hnd Hlt) as Hp.
  pose proof (Permutation_length Hp) as Hl. rewrite length_app, length_seq in Hl.
  destruct (filter _ _); [by rewrite app_nil_r in Hp|simpl in Hl; lia].
Qed.

(** ** The search names a cycle whenever chunks are left out *)

Definition chain (R : nat → nat → Prop) (l : list nat) : Prop :=
  ∀ k a b, l !! k = Some a → l !! S k = Some b → R a b.

Lemma chain_snoc R l x :
  chain R l → (∀ a, last l = Some a → R a x) → chain R (l ++ [x]).
Proof.
  intros Hc Hl k a b Ha Hb. pose proof (lookup_lt_Some _ _ _ Hb) as Hlen.
  rewrite length_app in Hlen. simpl in Hlen. rewrite lookup_app_l in Ha by lia.
  apply lookup_app_Some in Hb as [Hb|[Hge Hb]]; [eauto|].
  destruct (S k - length l)%nat eqn:E; [|done]. injection Hb as <-. apply Hl.
  rewrite last_lookup, <-Ha. f_equal. lia.
Qed.

Lemma chain_suffix R l1 l2 : chain R (l1 ++ l2) → chain R l2.
Proof.
  intros Hc k a b Ha Hb. apply (Hc (length l1 + k)%nat).
  - rewrite lookup_app_r by lia. rewrite <-Ha. f_equal. lia.
  - rewrite lookup_app_r by lia. rewrite <-Hb. f_equal. lia.
Qed.

(** A closed walk: it ends where it starts, and each chunk on it must run
    after the next. *)
Definition is_cycle (edges : list (list nat)) (cyc : list nat) : Prop :=
  (∃ x mid, cyc = x :: mid ++ [x]) ∧ chain (λ a b, b ∈ befores edges a) cyc.

Lemma stack_from_Some b st :
  b ∈ st → ∃ pre post, st = pre ++ b :: post ∧ stack_from b st = Some (b :: post).
Proof.
  induction st as [|s st IH]; [by intros ?%not_elem_of_nil|]. intros Hb. simpl. case_decide.
  - subst. by exists [], st.
  - apply elem_of_cons in Hb as [?|Hb]; [done|]. destruct (IH Hb) as (pre & post & -> & Hs).
    by exists (s :: pre), post.
Qed.

Section cycle_search.
Context (edges : list (list nat)) (placed : nat → bool) (Hwf : edges_wf edges).
Hypothesis unplaced_has_pred : ∀ d, (d < length edges)%nat → placed d = false →
  ∃ b, b ∈ befores edges d ∧ placed b = false.
Let n := length edges.
Let R := λ a b, b ∈ befores edges a.

(** No chunk has been painted black, and the grey ones are the stack. *)
Record dfs_ok (st : dfs) : Prop := mkDfsOk {
  ok_len : length (d_color st) = n;
  ok_black : ∀ i, (i < n)%nat → color_of st i ≠ black;
  ok_grey : ∀ i, (i < n)%nat → color_of st i = grey → i ∈ d_stack st;
  ok_chain : chain R (d_stack st) }.

Definition whites (st : dfs) : nat := length (filter (λ c, c = white) (d_color st)).

Lemma paint_whites (l : list color) i :
  l !! i = Some white →
  S (length (filter (λ c, c = white) (<[i := grey]> l))) = length (filter (λ c, c = white) l).
Proof.
  revert i. induction l as [|c l IH]; intros [|i] Hi; simplify_eq/=; [done|].
  rewrite !filter_cons. specialize (IH _ Hi). case_decide; simpl; lia.
Qed.

Definition finds (w : nat → dfs → option (list nat) * dfs) (bound : nat) : Prop :=
  ∀ b st, dfs_ok st → (b < n)%nat → placed b = false → color_of st b = white →
    (whites st ≤ bound)%nat → (∀ a, last (d_stack st) = Some a → R a b) →
    ∃ cyc st', w b st = (Some cyc, st') ∧ is_cycle edges cyc.

Lemma walk_edges_finds w bound bs i st :
  finds w bound → dfs_ok st → (whites st ≤ bound)%nat →
  last (d_stack st) = Some i → (∀ b, b ∈ bs → R i b) →
  (∃ b, b ∈ bs ∧ placed b = false) →
  ∃ cyc st', walk_edges placed w bs st = (Some cyc, st') ∧ is_cycle edges cyc.
Proof.
  intros Hw Hok Hb Hl. induction bs as [|b bs IH]; intros HR (x & Hx & Hpx).
  { by apply not_elem_of_nil in Hx. }
  simpl. destruct (placed b) eqn:Hpb.
  { apply IH; [intros; apply HR; by apply list_elem_of_further|].
    apply elem_of_cons in Hx as [->|?]; [congruence|eauto]. }
  assert (R i b) as HRb by apply HR, list_elem_of_here.
  assert (b < n)%nat as Hbn by (destruct (Hwf i) as (_ & _ & Hlt); by apply Hlt).
  destruct (color_of st b) eqn:Hc.
  - rewrite decide_False by done. rewrite decide_True by done.
    destruct (Hw b st Hok Hbn Hpb Hc Hb) as (cyc & st' & Hcyc & ?); [naive_solver|].
    rewrite Hcyc. eauto.
  - rewrite decide_True by done. pose proof (ok_grey _ Hok b Hbn Hc) as Hst.
    destruct (stack_from_Some _ _ Hst) as (pre & post & Heq & ->).
    eexists _, _. split; [done|]. split; [by exists b, post|].
    apply chain_snoc.
    + eapply (chain_suffix _ pre). rewrite <-Heq. apply Hok.
    + intros a Ha. rewrite Heq, last_app, Ha in Hl. by injection Hl as ->.
  - by destruct (ok_black _ Hok b Hbn).
Qed.

Lemma walk_finds fuel : finds (walk edges placed fuel) fuel.
Proof.
  induction fuel as [|fuel IH]; intros i st Hok Hi Hp Hc Hw HR.
  { exfalso. unfold whites, color_of in *.
    destruct (lookup_lt_is_Some_2 (d_color st) i) as [c Hci]; [by rewrite (ok_len _ Hok)|].
    rewrite Hci in Hc. simplify_eq/=. apply paint_whites in Hci. lia. }
  assert (d_color st !! i = Some white) as Hci.
  { unfold color_of in Hc. destruct (lookup_lt_is_Some_2 (d_color st) i) as [c Hci];
      [by rewrite (ok_len _ Hok)|]. by rewrite Hci in *; simplify_eq/=. }
  simpl. set (st1 := mkDfs _ _).
  assert (∀ j, (j < n)%nat → color_of st1 j = if decide (i = j) then grey else color_of st j) as Hcol.
  { intros j Hj. unfold color_of, st1. simpl. case_decide.
    - subst. rewrite list_lookup_insert_eq; [done|]. by eapply lookup_lt_Some.
    - by rewrite list_lookup_insert_ne. }
  assert (dfs_ok st1) as Hok1.
  { constructor.
    - simpl. rewrite length_insert. apply Hok.
    - intros j Hj. rewrite Hcol by done. case_decide; [done|by apply Hok].
    - intros j Hj. rewrite Hcol by done. simpl. rewrite elem_of_app, list_elem_of_singleton.
      case_decide; [auto|]. intros ?. left. by apply (ok_grey _ Hok).
    - apply chain_snoc; [apply Hok|done]. }
  destruct (walk_edges_finds (walk edges placed fuel) fuel (befores edges i) i st1)
    as (cyc & st' & Hcyc & ?); try done.
  - unfold whites, st1 in *. simpl. apply paint_whites in Hci. lia.
  - simpl. by rewrite last_snoc.
  - by apply unplaced_has_pred.
  - rewrite Hcyc. eauto.
Qed.

(** A chunk left out is enough for the search to name a cycle. *)
Lemma find_cycle_finds d :
  (d < n)%nat → placed d = false →
  ∃ cyc, find_cycle edges placed (seq 0 n) (mkDfs (replicate n white) []) = Some cyc ∧
    is_cycle edges cyc.
Proof.
  intros Hd Hp. assert (d ∈ seq 0 n) as Hin by (apply elem_of_seq; lia).
  assert (∀ i, i ∈ seq 0 n → (i < n)%nat) as Hrng by (intros i ?%elem_of_seq; lia).
  revert Hin Hrng. generalize (seq 0 n) as is_.
  induction is_ as [|i is_ IH]; intros Hin Hrng; [by apply not_elem_of_nil in Hin|]. simpl.
  assert (i < n)%nat as Hi by apply Hrng, list_elem_of_here.
  assert (∀ j, (j < n)%nat → color_of (mkDfs (replicate n white) []) j = white) as Hcol.
  { intros j Hj. unfold color_of. simpl. by rewrite lookup_replicate_2. }
  rewrite Hcol by done. rewrite bool_decide_false by tauto. rewrite orb_false_r.
  destruct (placed i) eqn:Hpi.
  { apply elem_of_cons in Hin as [->|?]; [congruence|]. apply IH; [done|].
    intros; apply Hrng; by apply list_elem_of_further. }
  destruct (walk_finds n i (mkDfs (replicate n white) [])) as (cyc & st' & Hw & ?); try done.
  - constructor; simpl.
    + apply length_replicate.
    + intros j Hj. by rewrite Hcol.
    + intros j Hj. by rewrite Hcol.
    + by intros k a b.
  - by apply Hcol.
  - unfold whites. simpl. rewrite <-(length_replicate n white) at 2.
    apply length_filter.
  - assert (walk edges placed (length edges) i (mkDfs (replicate n white) []) = (Some cyc, st')) as -> by exact Hw.
    eauto.
Qed.
End cycle_search.

(** Along a chain the positions in a topological order go down. *)
Lemma chain_positions edges out l a i :
  (∀ pre d post, out = pre ++ d :: post → ∀ b, b ∈ befores edges d → b ∈ pre) →
  chain (λ a b, b ∈ befores edges a) (a :: l) → out !! i = Some a →
  ∃ j z, (j + length l ≤ i)%nat ∧ last (a :: l) = Some z ∧ out !! j = Some z.
Proof.
  intros Ht. revert a i. induction l as [|b l IH]; intros a i Hc Hi.
  { exists i, a. split_and!; [simpl; lia|done|done]. }
  assert (∃ j, (j < i)%nat ∧ out !! j = Some b) as (j & Hj & Hb).
  { assert (b ∈ take i out) as Hb.
    { apply (Ht (take i out) a (drop (S i) out)); [by rewrite take_drop_middle|].
      by apply (Hc 0%nat a b). }
    apply list_elem_of_lookup in Hb as [j Hj]. apply lookup_take_Some in Hj as [Hj ?]. eauto. }
  destruct (IH b j) as (k & z & Hk & Hl & Hz); [|done|].
  - intros u x y Hx Hy. by apply (Hc (S u)).
  - exists k, z. simpl. split_and!; [lia|done|done].
Qed.

(** A closed walk and a topological order exclude each other. *)
Lemma cycle_not_ordered edges out cyc x :
  NoDup out →
  (∀ pre d post, out = pre ++ d :: post → ∀ b, b ∈ befores edges d → b ∈ pre) →
  is_cycle edges cyc → head cyc = Some x → x ∉ out.
Proof.
  intros Hnd Ht [(y & mid & ->) Hc] Hx (i & Hi)%list_elem_of_lookup. simpl in Hx. injection Hx as <-.
  destruct (chain_positions edges out (mid ++ [y]) y i Ht Hc Hi) as (j & z & Hj & Hl & Hz).
  rewrite app_comm_cons, last_snoc in Hl. injection Hl as <-.
  assert (i = j) as -> by (by eapply NoDup_lookup). rewrite length_app in Hj. simpl in Hj. lia.
Qed.

(** ** The low state *)

Lemma run_order_perm chunks :
  resolved_in_range chunks → run_order chunks ≡ₚ seq 0 (length chunks).
Proof.
  intros Hr. destruct (edges_of_spec chunks Hr) as (Hw & Hlen & _).
  destruct (place_all_spec _ Hw (heap_queue chunks)) as (Hnd & Hlt & _ & _). rewrite Hlen in Hlt.
  unfold run_order. case_decide as Hd; [by apply full_of_length|].
  unfold rest_of. rewrite sort_stable_perm. by apply perm_of_NoDup.
Qed.

Lemma finish_order_lookup chunks perm pos :
  (∀ i, i ∈ perm → (i < length chunks)%nat) →
  finish_order chunks perm !! pos =
    i ← perm !! pos; c ← chunks !! i; Some (remap_chunk perm (set_RunNum c pos)).
Proof.
  intros Hlt. unfold finish_order. rewrite omap_lookup_all.
  - rewrite list_lookup_imap. destruct (perm !! pos); simpl; [|done]. by destruct (chunks !! _).
  - intros [p i] (k & Hk)%list_elem_of_lookup. rewrite list_lookup_imap in Hk.
    destruct (perm !! k) as [j|] eqn:Hj; [|done]. simpl in Hk. injection Hk as <- <-.
    apply list_elem_of_lookup_2, Hlt, lookup_lt_is_Some_2 in Hj as [c ->]. simpl. eauto.
Qed.

Lemma finish_order_length chunks perm :
  (∀ i, i ∈ perm → (i < length chunks)%nat) → length (finish_order chunks perm) = length perm.
Proof.
  intros Hlt. apply Nat.le_antisymm; apply Nat.le_ngt; intros Hl.
  - apply lookup_lt_is_Some_2 in Hl as [c Hc]. rewrite finish_order_lookup in Hc by done.
    destruct (perm !! length perm) eqn:E; [|done]. apply lookup_lt_Some in E. lia.
  - pose proof Hl as Hl'. apply lookup_lt_is_Some_2 in Hl as [i Hi].
    assert (finish_order chunks perm !! length (finish_order chunks perm) = None) as Hn
      by (by apply lookup_ge_None).
    rewrite finish_order_lookup, Hi in Hn by done. simpl in Hn.
    apply list_elem_of_lookup_2, Hlt, lookup_lt_is_Some_2 in Hi as [c Hc]. by rewrite Hc in Hn.
Qed.

Lemma order_fst chunks : (order chunks).1 = finish_order chunks (run_order chunks).
Proof. destruct chunks; done. Qed.

(** [remap] sends a chunk to its place in the run order. *)
Lemma remap_lookup perm i : i ∈ perm → perm !! remap perm i = Some i.
Proof.
  intros Hi. unfold remap. destruct (list_find (λ j, j = i) perm) as [[pos j]|] eqn:E.
  - by apply list_find_Some in E as (? & -> & _).
  - apply list_find_None in E. rewrite Forall_forall in E. by destruct (E _ Hi).
Qed.

(** The diagnostics of [order]: those of the self requisites, then the
    cycle. *)
Lemma mapM_W_snd {A} (l : list (DW A)) : (mapM id l).2 = concat (snd <$> l).
Proof.
  induction l as [|m l IH]; simpl; [done|]. unfold mbind, Writer.W_bind, mret, Writer.W_ret in *.
  simpl in *. rewrite app_nil_r. by rewrite IH.
Qed.

Lemma order_snd chunks :
  (order chunks).2 =
    concat (snd <$> imap (self_cycle chunks) chunks) ++
    (let out := place_all (ops:=heap_ops chunks) (edges_of chunks) in
     if decide (length out = length chunks) then []
     else (reportCycle chunks (edges_of chunks) (λ i, bool_decide (i ∈ out))).2).
Proof.
  destruct chunks as [|c chunks]; [done|]. unfold order.
  unfold mbind at 1, Writer.W_bind at 1. cbn [snd]. rewrite mapM_W_snd. f_equal.
  unfold mbind at 1, Writer.W_bind at 1. cbn [snd]. rewrite app_nil_r. by case_decide.
Qed.

Definition self_arc (chunks : list Chunk) (i : nat) (k : ReqKind) : Prop :=
  (i, k, i) ∈ arcs chunks ∧ k ≠ Listen ∧ k ≠ Use_.

Lemma HasErrors_concat ls : HasErrors (concat ls) = existsb HasErrors ls.
Proof. induction ls as [|l ls IH]; simpl; [done|]. by rewrite HasErrors_app, IH. Qed.

Lemma self_cycle_errors chunks i c :
  chunks !! i = Some c →
  HasErrors (self_cycle chunks i c).2 = true ↔ ∃ k, self_arc chunks i k.
Proof.
  intros Hc. unfold self_cycle, self_arc. case_match eqn:E.
  - split; [|done]. intros _. apply existsb_exists in E as ([[j k] t] & Hin & Hb).
    exists k. rewrite !andb_true_iff, !negb_true_iff, !bool_decide_eq_false, Nat.eqb_eq in Hb.
    destruct Hb as [[-> ?] ?]. split; [|done]. apply list_elem_of_In, elem_of_chunk_arcs in Hin as [_ (r & ?)].
    apply elem_of_arcs. eauto.
  - split; [done|]. intros (k & (c' & r & Hc' & Hr)%elem_of_arcs & H1 & H2). exfalso. simplify_eq.
    apply not_true_iff_false in E. apply E, existsb_exists. exists (i, k, i). split.
    + apply list_elem_of_In, elem_of_chunk_arcs. eauto.
    + by rewrite Nat.eqb_refl, !bool_decide_eq_false_2.
Qed.

Lemma self_errors chunks :
  HasErrors (concat (snd <$> imap (self_cycle chunks) chunks)) = true ↔
  ∃ i k, self_arc chunks i k.
Proof.
  rewrite HasErrors_concat, existsb_exists. setoid_rewrite <-list_elem_of_In. split.
  - intros (d & Hd & He). apply list_elem_of_fmap in Hd as (m & -> & (i & Hi)%list_elem_of_lookup).
    rewrite list_lookup_imap in Hi. destruct (chunks !! i) as [c|] eqn:Hc; [|done]. injection Hi as <-.
    apply self_cycle_errors in He as [k ?]; eauto.
  - intros (i & k & Ha). pose proof Ha as [Harc _]. apply elem_of_arcs in Harc as (c & _ & Hc & _).
    exists (self_cycle chunks i c).2. split; [|by apply self_cycle_errors; eauto].
    apply list_elem_of_fmap. exists (self_cycle chunks i c). split; [done|].
    apply list_elem_of_lookup. exists i. by rewrite list_lookup_imap, Hc.
Qed.

(** An incomplete sort always leads to a named cycle, so the report is an
    error. *)
Lemma incomplete_reports chunks :
  resolved_in_range chunks →
  let out := place_all (ops:=heap_ops chunks) (edges_of chunks) in
  length out ≠ length chunks →
  ∃ cyc, find_cycle (edges_of chunks) (λ i, bool_decide (i ∈ out)) (seq 0 (length chunks))
      (mkDfs (replicate (length chunks) white) []) = Some cyc ∧
    is_cycle (edges_of chunks) cyc ∧
    HasErrors (reportCycle chunks (edges_of chunks) (λ i, bool_decide (i ∈ out))).2 = true.
Proof.
  intros Hr out Hlen. destruct (edges_of_spec chunks Hr) as (Hw & Hn & _).
  destruct (place_all_spec _ Hw (heap_queue chunks)) as (Hnd & Hlt & _ & Hun). fold out in Hnd, Hlt, Hun.
  rewrite Hn in Hlt, Hun.
  assert (∃ d, (d < length chunks)%nat ∧ d ∉ out) as (d & Hd & Hdo).
  { destruct (filter (λ i, i ∉ out) (seq 0 (length chunks))) as [|d l] eqn:E.
    - pose proof (perm_of_NoDup out (length chunks) Hnd Hlt) as Hp. rewrite E, app_nil_r in Hp.
      apply Permutation_length in Hp. by rewrite length_seq in Hp.
    - assert (d ∈ filter (λ i, i ∉ out) (seq 0 (length chunks))) as Hd by (rewrite E; apply list_elem_of_here).
      apply list_elem_of_filter in Hd as [? Hd%elem_of_seq]. exists d. split; [lia|done]. }
  destruct (find_cycle_finds (edges_of chunks) (λ i, bool_decide (i ∈ out)) Hw) with (d := d)
    as (cyc & Hf & Hcyc); rewrite ?Hn in *; try done.
  - intros x Hx. rewrite bool_decide_eq_false. intros Hxo. destruct (Hun x Hx Hxo) as (b & ? & ?).
    exists b. by rewrite bool_decide_eq_false.
  - by rewrite bool_decide_eq_false.
  - exists cyc. split_and!; [done|done|]. unfold reportCycle. rewrite Hf.
    destruct Hcyc as [(x & mid & ->) Hch]. simpl.
    assert (x < length chunks)%nat as Hx.
    { destruct (mid ++ [x]) as [|y m] eqn:E; [by destruct mid|]. rewrite <-Hn.
      eapply (befores_lt _ x y), (Hch 0%nat); done. }
    apply lookup_lt_is_Some_2 in Hx as [c ->]. done.
Qed.

Lemma order_errors chunks :
  resolved_in_range chunks →
  HasErrors (order chunks).2 = false →
  (∀ i k, ¬ self_arc chunks i k) ∧
  length (place_all (ops:=heap_ops chunks) (edges_of chunks)) = length chunks.
Proof.
  intros Hr He. rewrite order_snd, HasErrors_app in He. apply orb_false_iff in He as [H1 H2]. split.
  - intros i k Ha. apply not_true_iff_false in H1. apply H1, self_errors. eauto.
  - simpl in H2. case_decide as Hd; [done|].
    destruct (incomplete_reports chunks Hr Hd) as (? & _ & _ & ?). congruence.
Qed.

(** ** Without constraints, declaration order *)

(** Entries that came in with their own position as arrival number. *)
Definition self_entry (i : nat) : entry := (i, i).
Definition not_after (chunks : list Chunk) (a b : entry) : Prop := before_ chunks b a = false.

Lemma drain_sorted chunks deps fuel (st : kstate (list entry)) :
  (∀ i, befores deps i = []) →
  heap (before_ chunks) (k_ready st) → (length (k_ready st) ≤ fuel)%nat →
  ∃ l, k_out (drain (ops:=heap_ops chunks) deps fuel st) = k_out st ++ l.*1 ∧
    l ≡ₚ k_ready st ∧ StronglySorted (not_after chunks) l.
Proof.
  intros Hdeps. revert st. induction fuel as [|fuel IH]; intros st Hh Hf.
  { exists []. destruct (k_ready st) eqn:E; [|simpl in Hf; lia]. simpl.
    split_and!; [by rewrite app_nil_r|done|constructor]. }
  simpl. destruct (pop (before_ chunks) (k_ready st)) as [[[idx q] r]|] eqn:Hp.
  - rewrite Hdeps. simpl. apply pop_spec in Hp as (Hr & HE & Hmin);
      [|eauto using before_asym_|eauto using not_before_trans_|done].
    destruct (IH (mkK r (k_seq st) (k_indegree st) (k_out st ++ [idx]))) as (l & Ho & Hl & Hs); simpl.
    + done.
    + rewrite HE in Hf. simpl in Hf. lia.
    + exists ((idx, q) :: l). simpl in *. split_and!.
      * by rewrite Ho, <-app_assoc.
      * by rewrite Hl, HE.
      * constructor; [done|]. apply Forall_forall. intros y Hy. apply Hmin. rewrite HE, <-Hl.
        by apply list_elem_of_further.
  - exists []. destruct (decide (k_ready st = [])) as [->|Hne].
    + simpl. split_and!; [by rewrite app_nil_r|done|constructor].
    + apply (pop_Some (before_ chunks)) in Hne as [? ?]. congruence.
Qed.

Lemma insert_stable_sorted chunks x l :
  Forall (λ y, (y < x)%nat) l →
  StronglySorted (not_after chunks) (self_entry <$> l) →
  StronglySorted (not_after chunks) (self_entry <$> insert_stable (less chunks) x l).
Proof.
  intros Hlt. induction Hlt as [|y l Hy Hl IH]; simpl; intros Hs; [repeat constructor|].
  apply StronglySorted_inv in Hs as [Hs Hyl]. case_match eqn:E; simpl.
  - constructor; [by constructor|]. constructor.
    + unfold not_after. apply before_asym_. unfold before_. simpl. by rewrite E.
    + eapply Forall_impl; [exact Hyl|]. intros z Hz. unfold not_after in *.
      eapply not_before_trans_; [|exact Hz]. apply before_asym_. unfold before_. simpl. by rewrite E.
  - constructor; [auto|]. apply Forall_forall. intros z Hz. rewrite insert_stable_perm in Hz.
    simpl in Hz. apply elem_of_cons in Hz as [->|Hz]; [|rewrite Forall_forall in Hyl; auto].
    unfold not_after, before_. simpl. rewrite E. case_match; [done|]. apply Nat.ltb_ge. lia.
Qed.

Lemma sort_stable_sorted chunks n :
  StronglySorted (not_after chunks) (self_entry <$> sort_stable (less chunks) (seq 0 n)).
Proof.
  unfold sort_stable. induction n as [|n IH]; [constructor|].
  rewrite seq_S, foldl_app. simpl. apply insert_stable_sorted; [|done].
  apply Forall_forall. intros y. change (foldl _ [] (seq 0 n)) with (sort_stable (less chunks) (seq 0 n)).
  rewrite sort_stable_perm, elem_of_seq. lia.
Qed.

(** With nothing to wait for, all chunks are ready at the start. *)
Lemma initial_all chunks n :
  let st := initial (ops:=heap_ops chunks) (replicate n 0) in
  heap (before_ chunks) (k_ready st) ∧ k_ready st ≡ₚ self_entry <$> seq 0 n ∧ k_out st = [].
Proof.
  unfold initial. rewrite length_replicate.
  cut (∀ m, (m ≤ n)%nat → let st := foldl (λ st i, if decide (replicate n 0 !! i = Some 0)
      then enter (ops:=heap_ops chunks) st i else st) (mkK [] 0 (replicate n 0) []) (seq 0 m) in
    heap (before_ chunks) (k_ready st) ∧ k_ready st ≡ₚ self_entry <$> seq 0 m ∧
    k_out st = [] ∧ k_seq st = m).
  { intros Hc. destruct (Hc n ltac:(lia)) as (? & ? & ? & _). done. }
  induction m as [|m IH]; intros Hm.
  { by split_and!. }
  rewrite seq_S, foldl_app. destruct (IH ltac:(lia)) as (H1 & H2 & H3 & H4).
  cbv zeta in *. set (st := foldl _ _ (seq 0 m)) in *. simpl.
  rewrite lookup_replicate_2 by lia. simpl.
  destruct (push_spec (before_ chunks)) with (l := k_ready st) (e := (m, k_seq st)) as [P1 P2];
    [eauto using before_asym_|eauto using not_before_trans_|done|].
  split_and!; [done| |done|lia]. rewrite P2, H2, H4, fmap_app. by rewrite Permutation_app_comm.
Qed.

Lemma dependents_nil edges :
  (∀ i, befores edges i = []) → ∀ i, befores (dependents_of edges) i = [].
Proof.
  intros He i. destruct (decide (i < length edges)%nat) as [Hi|Hi].
  - rewrite dependents_spec; [|intros j; rewrite He|done].
    + destruct (filter _ _) as [|x l] eqn:E; [done|].
      assert (x ∈ filter (λ a, i ∈ befores edges a) (seq 0 (length edges))) as Hx
        by (rewrite E; apply list_elem_of_here).
      apply list_elem_of_filter in Hx as [Hx _]. rewrite He in Hx. by apply not_elem_of_nil in Hx.
    + split_and!; [constructor|apply not_elem_of_nil|by intros b ?%not_elem_of_nil].
  - unfold befores, dependents_of. rewrite lookup_ge_None_2; [done|].
    assert (∀ ps d, length (foldl add_dependents d ps) = length d) as ->.
    { induction ps as [|p ps IH]; intros d; simpl; [done|]. by rewrite IH, add_dependents_length. }
    rewrite length_replicate. lia.
Qed.

Lemma run_order_unconstrained chunks :
  (∀ a, a ∈ arcs chunks → constraint a = None) →
  run_order chunks = sort_stable (less chunks) (seq 0 (length chunks)).
Proof.
  intros Hno.
  assert (edges_of chunks = replicate (length chunks) []) as He.
  { unfold edges_of. generalize (replicate (length chunks) (@nil nat)) as e. revert Hno.
    induction (arcs chunks) as [|a l IH]; intros Hno e; simpl; [done|].
    rewrite IH by (intros; apply Hno; by apply list_elem_of_further).
    unfold add_arc. by rewrite Hno by apply list_elem_of_here. }
  assert (place_all (ops:=heap_ops chunks) (edges_of chunks) =
          sort_stable (less chunks) (seq 0 (length chunks))) as Hp.
  { rewrite He. unfold place_all. rewrite length_replicate.
    assert (indegree_of (replicate (length chunks) []) = replicate (length chunks) 0) as ->
      by (unfold indegree_of; by rewrite fmap_replicate).
    destruct (initial_all chunks (length chunks)) as (H1 & H2 & H3).
    destruct (drain_sorted chunks (dependents_of (replicate (length chunks) []))
      (length chunks) (initial (ops:=heap_ops chunks) (replicate (length chunks) 0)))
      as (l & Ho & Hl & Hs).
    - apply dependents_nil. intros i. unfold befores.
      destruct (replicate _ _ !! i) eqn:E; [|done]. by apply lookup_replicate in E as [-> _].
    - done.
    - rewrite H2, length_fmap, length_seq. lia.
    - rewrite Ho, H3. simpl.
      assert (l = self_entry <$> sort_stable (less chunks) (seq 0 (length chunks))) as ->.
      { apply (StronglySorted_unique_strong (not_after chunks)); [|done|apply sort_stable_sorted|].
        - intros x1 x2 Hx1 Hx2 H12 H21. rewrite Hl, H2 in Hx1.
          apply list_elem_of_fmap in Hx1 as (j1 & -> & _). apply list_elem_of_fmap in Hx2 as (j2 & -> & _).
          destruct (decide (j1 = j2)) as [->|Hne]; [done|]. unfold not_after in *.
          apply before_total in H21; [congruence|done].
        - by rewrite Hl, H2, sort_stable_perm. }
      rewrite <-list_fmap_compose. by apply list_fmap_id. }
  unfold run_order. by rewrite Hp, decide_True by (by rewrite sort_stable_perm, length_seq).
Qed.

(** *** Properties *)

(** the low state is the declared chunks, each exactly once, in the run
    order: the order is a permutation of the declaration positions, position
    [pos] of the result is the chunk it names, carrying [RunNum = pos] and
    requisites remapped to run positions, and every remapped target is the
    run position of the chunk the requisite was resolved to. *)
Theorem order_permutes chunks :
  resolved_in_range chunks →
  run_order chunks ≡ₚ seq 0 (length chunks) ∧
  length (order chunks).1 = length chunks ∧
  (∀ pos i c, run_order chunks !! pos = Some i → chunks !! i = Some c →
     (order chunks).1 !! pos = Some (remap_chunk (run_order chunks) (set_RunNum c pos))) ∧
  (∀ i k t, (i, k, t) ∈ arcs chunks →
     run_order chunks !! remap (run_order chunks) t = Some t).
Proof.
  intros Hr. pose proof (run_order_perm chunks Hr) as Hp.
  assert (∀ i, i ∈ run_order chunks → (i < length chunks)%nat) as Hlt.
  { intros i. rewrite Hp, elem_of_seq. lia. }
  rewrite order_fst. split_and!; [done| | |].
  - rewrite finish_order_length by done. by rewrite Hp, length_seq.
  - intros pos i c Hi Hc. rewrite finish_order_lookup, Hi by done. simpl. by rewrite Hc.
  - intros i k t Ha. apply remap_lookup. rewrite Hp, elem_of_seq. apply Hr in Ha. lia.
Qed.

Lemma order_places_targets chunks pos c r t :
  resolved_in_range chunks →
  HasErrors (order chunks).2 = false →
  (order chunks).1 !! pos = Some c → r ∈ Reqs c → t ∈ Resolved r →
  (t < length (order chunks).1)%nat ∧
  match rKind r with
  | Prereq => (pos < t)%nat
  | Listen | Use_ => True
  | _ => (t < pos)%nat
  end.
Proof.
  intros Hr He Hc Hreq Ht. destruct (order_errors chunks Hr He) as [Hself Hfull].
  pose proof (run_order_perm chunks Hr) as Hp.
  destruct (edges_of_spec chunks Hr) as (Hw & Hn & Hmem).
  destruct (place_all_spec _ Hw (heap_queue chunks)) as (Hnd & _ & Htopo & _).
  assert (run_order chunks = place_all (ops:=heap_ops chunks) (edges_of chunks)) as Hro
    by (unfold run_order; by rewrite decide_True).
  set (perm := run_order chunks) in *. rewrite <-Hro in Hnd, Htopo.
  assert (∀ i, i ∈ perm → (i < length chunks)%nat) as Hlt by (intros i; rewrite Hp, elem_of_seq; lia).
  rewrite order_fst in *. fold perm in Hc |- *. rewrite finish_order_length by done.
  rewrite finish_order_lookup in Hc by done.
  destruct (perm !! pos) as [i|] eqn:Hi; [|done]. simpl in Hc.
  destruct (chunks !! i) as [c0|] eqn:Hc0; [|done]. simpl in Hc. injection Hc as <-.
  simpl in Hreq. apply list_elem_of_fmap in Hreq as (r0 & -> & Hr0). simpl in *.
  apply list_elem_of_fmap in Ht as (t0 & -> & Ht0).
  assert ((i, rKind r0, t0) ∈ arcs chunks) as Ha by (apply elem_of_arcs; eauto 10).
  destruct (Hr _ _ _ Ha) as [_ Ht0lt].
  assert (perm !! remap perm t0 = Some t0) as Hrt by (apply remap_lookup; rewrite Hp, elem_of_seq; lia).
  split; [by eapply lookup_lt_Some|].
  assert (∀ b a pb pa, constraint (i, rKind r0, t0) = Some (b, a) → b ≠ a →
            perm !! pb = Some b → perm !! pa = Some a → (pb < pa)%nat) as Hbefore.
  { intros b a pb pa Hcon Hne Hb Hpa.
    assert (b ∈ take pa perm) as Hin.
    { apply (Htopo (take pa perm) a (drop (S pa) perm)); [by rewrite take_drop_middle|].
      apply Hmem. eauto. }
    apply list_elem_of_lookup in Hin as [j Hj]. apply lookup_take_Some in Hj as [Hj ?].
    assert (j = pb) as -> by (by eapply NoDup_lookup). done. }
  assert (rKind r0 ≠ Listen → rKind r0 ≠ Use_ → i ≠ t0) as Hne.
  { intros ? ? ->. apply (Hself t0 (rKind r0)). done. }
  destruct (rKind r0) eqn:Hk; try done;
    (eapply Hbefore; [done| |done|done]; first [by apply Hne|by apply not_eq_sym, Hne]).
Qed.

(** What the runner relies on. *)
Lemma order_run_ordered chunks :
  resolved_in_range chunks → HasErrors (order chunks).2 = false → RunOrdered (order chunks).1.
Proof. intros Hr He i c r t. by apply order_places_targets. Qed.

(** Ordering rearranges: whatever it does not renumber is the same chunks. *)
Lemma omap_seq {A B} (f : A → B) (l l0 : list A) :
  omap (λ i, f <$> (l0 ++ l) !! i) (seq (length l0) (length l)) = f <$> l.
Proof.
  revert l0. induction l as [|x l IH]; intros l0; [done|]. simpl seq.
  change (omap ?g (?i :: ?r)) with (match g i with Some y => y :: omap g r | None => omap g r end).
  cbn beta. rewrite list_lookup_middle by done. simpl fmap. cbn. f_equal.
  specialize (IH (l0 ++ [x])). rewrite length_app, <-app_assoc in IH. simpl in IH. by rewrite Nat.add_1_r in IH.
Qed.

Lemma order_map_perm {A} (f : Chunk → A) chunks :
  (∀ perm pos c, f (remap_chunk perm (set_RunNum c pos)) = f c) →
  resolved_in_range chunks → f <$> (order chunks).1 ≡ₚ f <$> chunks.
Proof.
  intros Hf Hr. rewrite order_fst. pose proof (run_order_perm chunks Hr) as Hp.
  assert (Heq : ∀ perm l k, f <$> omap (λ '(pos, i), (λ c, remap_chunk perm (set_RunNum c pos)) <$> chunks !! i)
      (imap (λ n, pair (k + n)%nat) l) = omap (λ i, f <$> chunks !! i) l).
  { intros perm l. induction l as [|i l IH]; intros k; [done|]. specialize (IH (S k)).
    assert (imap (λ n, pair (k + n)%nat) (i :: l) = (k, i) :: imap (λ n, pair (S k + n)%nat) l) as ->.
    { simpl. rewrite Nat.add_0_r. f_equal. apply imap_ext. intros. simpl. f_equal. lia. }
    revert IH. set (l' := imap _ l). set (g := λ _, _). intros IH.
    change (omap g ((k, i) :: l')) with (match g (k, i) with Some y => y :: omap g l' | None => omap g l' end).
    change (omap ?h (i :: l)) with (match h i with Some y => y :: omap h l | None => omap h l end).
    subst g. cbn beta iota. destruct (chunks !! i); [|exact IH].
    cbn [fmap option_fmap option_map]. rewrite fmap_cons, Hf. by f_equal. }
  unfold finish_order. rewrite (Heq _ _ 0%nat), Hp. by rewrite <-(omap_seq f chunks []).
Qed.

(** C1: when ordering reports no error, every requisite is honoured: in the
    low state a chunk comes after every target of its requisites, and before
    it for [prereq]; [listen] and [use] constrain nothing.  The targets are
    read off the result, so they are run positions. *)
Theorem order_respects_requisites chunks pos c r t :
  resolved_in_range chunks →
  HasErrors (order chunks).2 = false →
  (order chunks).1 !! pos = Some c → r ∈ Reqs c → t ∈ Resolved r →
  (t < length (order chunks).1)%nat ∧
  match rKind r with
  | Prereq => (pos < t)%nat
  | Listen | Use_ => True
  | _ => (t < pos)%nat
  end.
Proof. apply order_places_targets. Qed.

(** C17: ordering fails exactly on a requisite cycle, and names one: it
    reports an error if and only if some chunk requires itself (other than by
    [listen] or [use]) or the requisite graph has a closed walk; and when the
    sort is left incomplete the search does find a genuine cycle, so the
    fallback message that names none is never printed. *)
Theorem order_fails_iff_cycle chunks :
  resolved_in_range chunks →
  (HasErrors (order chunks).2 = true ↔
     (∃ i k, self_arc chunks i k) ∨ (∃ cyc, is_cycle (edges_of chunks) cyc)) ∧
  (let out := place_all (ops:=heap_ops chunks) (edges_of chunks) in
   length out ≠ length chunks →
   ∃ cyc, find_cycle (edges_of chunks) (λ i, bool_decide (i ∈ out)) (seq 0 (length chunks))
            (mkDfs (replicate (length chunks) white) []) = Some cyc ∧
          is_cycle (edges_of chunks) cyc).
Proof.
  intros Hr. split.
  - rewrite order_snd, HasErrors_app, orb_true_iff, self_errors. simpl.
    destruct (edges_of_spec chunks Hr) as (Hw & Hn & _).
    destruct (place_all_spec _ Hw (heap_queue chunks)) as (Hnd & Hlt & Htopo & _).
    case_decide as Hd.
    + split; [intros [?|?]; [by left|done]|]. intros [?|[cyc Hcyc]]; [by left|]. exfalso.
      pose proof Hcyc as [(x & mid & ->) Hch].
      eapply (cycle_not_ordered _ _ _ x); [exact Hnd|exact Htopo|exact Hcyc|done|].
      rewrite Hn in Hlt. rewrite (full_of_length _ _ Hnd Hlt Hd), elem_of_seq, <-Hn. split; [lia|].
      destruct (mid ++ [x]) as [|y m] eqn:E; [by destruct mid|].
      eapply (befores_lt _ x y), (Hch 0%nat); done.
    + destruct (incomplete_reports chunks Hr Hd) as (cyc & _ & Hcyc & ->). split; [|by right].
      intros _. eauto.
  - intros out Hd. destruct (incomplete_reports chunks Hr Hd) as (cyc & ? & ? & _). eauto.
Qed.

(** the binary heap changes nothing but the cost: for any graph, draining
    the source's heap places the chunks exactly as the linear scan it
    replaced, which takes the first least chunk in the order of arrival --
    ties, which [less] leaves between chunks of one declaration, included. *)
Theorem heap_matches_scan chunks edges :
  place_all (ops:=heap_ops chunks) edges = place_all (ops:=scan_ops chunks) edges.
Proof. apply (place_all_agree chunks); apply _. Qed.

(** states with no ordering requisites run by explicit [order], then in
    declaration order, then in expansion order, and [order: last] after all:
    the run order is the stable sort of the declared chunks by [less]. *)
Theorem unconstrained_runs_in_declaration_order chunks :
  (∀ a, a ∈ arcs chunks → constraint a = None) →
  run_order chunks = sort_stable (less chunks) (seq 0 (length chunks)) ∧
  StronglySorted (λ i j, less chunks j i = false) (run_order chunks).
Proof.
  intros Hno. rewrite run_order_unconstrained by done. split; [done|].
  pose proof (sort_stable_sorted chunks (length chunks)) as Hs. revert Hs.
  induction (sort_stable _ _) as [|x l IH]; simpl; intros Hs; [constructor|].
  apply StronglySorted_inv in Hs as [Hs Hx]. constructor; [auto|].
  apply Forall_forall. intros y Hy.
  assert (not_after chunks (self_entry x) (self_entry y)) as Hn
    by (eapply (proj1 (Forall_forall _ _) Hx), list_elem_of_fmap; eauto).
  unfold not_after, before_ in Hn. simpl in Hn. by destruct (less chunks y x).
Qed.

(** *** Concrete low states *)

Definition resolved_in_rangeb (chunks : list Chunk) : bool :=
  forallb (λ '(i, _, t), (i <? length chunks)%nat && (t <? length chunks)%nat) (arcs chunks).

Lemma resolved_in_rangeb_ok chunks : resolved_in_rangeb chunks = true → resolved_in_range chunks.
Proof.
  intros Hb i k t Ha. unfold resolved_in_rangeb in Hb. rewrite forallb_forall in Hb.
  apply list_elem_of_In, Hb in Ha. rewrite andb_true_iff, !Nat.ltb_lt in Ha. done.
Qed.

Definition demo_chunk (id : string) (decl : Z) (reqs : list Req) : Chunk :=
  mkChunk id "web" "base" "test" "nop" id NewMap reqs zeroOptions NewMap decl 0 0 noPos.
(** [c] requires [a]; [b] is a prereq of [c]; [a] watches nothing. *)
Definition demo_low : list Chunk :=
  [demo_chunk "c" 0 [mkReq Require_ [mkRef "test" "a" "" noPos] [2%nat]];
   demo_chunk "b" 1 [mkReq Prereq [mkRef "test" "c" "" noPos] [0%nat]];
   demo_chunk "a" 2 []].
(** [a] and [b] require each other. *)
Definition demo_loop : list Chunk :=
  [demo_chunk "a" 0 [mkReq Require_ [mkRef "test" "b" "" noPos] [1%nat]];
   demo_chunk "b" 1 [mkReq Require_ [mkRef "test" "a" "" noPos] [0%nat]]].
(** A [listen] constrains nothing. *)
Definition demo_free : list Chunk :=
  [demo_chunk "a" 1 [mkReq Listen [mkRef "test" "b" "" noPos] [1%nat]]; demo_chunk "b" 0 []].

Example demo_low_order : run_order demo_low = [1; 2; 0]%nat.
Proof. vm_compute. reflexivity. Qed.
Example demo_loop_report : (order demo_loop).2 =
  [mkDiag noPos "web" "a" (Msg "requisite cycle: %s"
     [FStr "a -> require -> b -> require -> a"]) [] false].
Proof. vm_compute. reflexivity. Qed.

Lemma order_permutes_witness : run_order demo_low ≡ₚ seq 0 3.
Proof.
  destruct (order_permutes demo_low) as [H _]; [|exact H].
  apply resolved_in_rangeb_ok. vm_compute. reflexivity.
Defined.

Lemma order_respects_requisites_witness :
  ∃ c, (order demo_low).1 !! 2%nat = Some c ∧ (1 < 2)%nat.
Proof.
  eexists. split; [vm_compute; reflexivity|].
  eapply (order_respects_requisites demo_low 2 _ (mkReq Require_ [mkRef "test" "a" "" noPos] [1%nat]) 1).
  - apply resolved_in_rangeb_ok. vm_compute. reflexivity.
  - vm_compute. reflexivity.
  - vm_compute. reflexivity.
  - apply list_elem_of_here.
  - apply list_elem_of_here.
Defined.

Lemma order_fails_iff_cycle_witness :
  HasErrors (order demo_loop).2 = true ∧
  ((∃ i k, self_arc demo_loop i k) ∨ ∃ cyc, is_cycle (edges_of demo_loop) cyc).
Proof.
  destruct (order_fails_iff_cycle demo_loop) as [[H _] _].
  - apply resolved_in_rangeb_ok. vm_compute. reflexivity.
  - split; [vm_compute; reflexivity|]. apply H. vm_compute. reflexivity.
Defined.

Lemma unconstrained_runs_in_declaration_order_witness : run_order demo_free = [1; 0]%nat.
Proof.
  destruct (unconstrained_runs_in_declaration_order demo_free) as [H _].
  - intros a Ha. vm_compute in Ha. apply list_elem_of_singleton in Ha. subst a. reflexivity.
  - rewrite H. vm_compute. reflexivity.
Defined.
