(* ===== verification/Fnmatch.v ===== *)
(** * Package fnmatch: Python's fnmatch over Go's regexp

    Models src/internal/fnmatch/fnmatch.go.  The regular expression the source
    writes as text is kept as the sequence of its pieces; the text of a
    character class is kept as its tokens, and [parse_class] reads it as
    regexp/syntax does, refusing a range that runs backwards.  The size limit
    of the regexp compiler is not modelled. *)

From S2P Require Import Prelude GoLib.

Open Scope Z_scope.

(** ** Literals *)

Definition HasMeta (pattern : string) : bool :=
  contains_any ["*"%char; "?"%char; "["%char] pattern.
Definition IsLiteral (pattern : string) : bool := negb (HasMeta pattern) && ValidString pattern.

Definition MaxPatternLen : Z := 1024.

(** ** Translation *)

(** A class as written: literal runes, and the hyphens between chunks. *)
Inductive ctok := TLit (r : rune) | TDash.
Inductive re_item :=
| RStar                                   (** [.*] *)
| RAny                                    (** [.] *)
| RLit (r : rune)
| RClass (negate : bool) (toks : list ctok)
| RNever.                                 (** [[^\x00-\x{10FFFF}]] *)

Definition c_star : rune := 42.
Definition c_quest : rune := 63.
Definition c_lbr : rune := 91.
Definition c_rbr : rune := 93.
Definition c_bang : rune := 33.
Definition c_dash : rune := 45.

(** The chunks of a set: the text is cut at each hyphen that forms a range.
    [skip] runes are taken before a hyphen may cut again. *)
Fixpoint split_ranges (skip : nat) (w cur : list rune) : list (list rune) :=
  match w with
  | [] => [cur]
  | c :: r =>
      match skip with
      | S k => split_ranges k r (cur ++ [c])
      | O => if c =? c_dash then cur :: split_ranges 2 r []
             else split_ranges 0 r (cur ++ [c])
      end
  end.

(** A trailing hyphen belongs to the chunk before it. *)
Fixpoint close_chunks (l : list (list rune)) : list (list rune) :=
  match l with
  | [a; []] => [a ++ [c_dash]]
  | a :: r => a :: close_chunks r
  | [] => []
  end.

Definition set_chunks (w : list rune) : list (list rune) :=
  close_chunks (split_ranges (if decide (head w = Some c_bang) then 2 else 1) w []).

(** Backward ranges are dropped, from the last joint to the first.  [None] is
    the index panic on an empty chunk. *)
Fixpoint drop_backward (l : list (list rune)) : option (list (list rune)) :=
  match l with
  | [] => Some []
  | prev :: r =>
      acc ← drop_backward r;
      match acc with
      | [] => Some [prev]
      | cur :: rest =>
          p ← last prev; c ← head cur;
          if c <? p then Some ((removelast prev ++ tail cur) :: rest)
          else Some (prev :: acc)
      end
  end.

(** The text of the class: the chunks, a hyphen at each joint. *)
Fixpoint join_chunks (l : list (list rune)) : list ctok :=
  match l with
  | [] => []
  | [a] => TLit <$> a
  | a :: r => (TLit <$> a) ++ TDash :: join_chunks r
  end.

Definition strip_bang (l : list (list rune)) : bool * list (list rune) :=
  match l with
  | (c :: a) :: r => if c =? c_bang then (true, a :: r) else (false, l)
  | _ => (false, l)
  end.

Definition fnmatchSet (w : list rune) : option re_item :=
  chunks ← drop_backward (set_chunks w);
  let '(negate, chunks) := strip_bang chunks in
  if forallb (λ c, bool_decide (c = [])) chunks
  then Some (if negate : bool then RAny else RNever)
  else Some (RClass negate (join_chunks chunks)).

(** The inside of a set and what follows it: [None] when no bracket closes
    it.  A bracket first in the set, after an optional bang, is a literal. *)
Fixpoint to_bracket (l : list rune) : option (list rune * list rune) :=
  match l with
  | [] => None
  | c :: r =>
      if c =? c_rbr then Some ([], r)
      else '(w, rest) ← to_bracket r; Some (c :: w, rest)
  end.
Definition set_inside (l : list rune) : option (list rune * list rune) :=
  let '(p1, l1) := match l with
                   | c :: r => if c =? c_bang then ([c], r) else ([], l)
                   | [] => ([], l)
                   end in
  let '(p2, l2) := match l1 with
                   | c :: r => if c =? c_rbr then ([c], r) else ([], l1)
                   | [] => ([], l1)
                   end in
  '(w, rest) ← to_bracket l2; Some (p1 ++ p2 ++ w, rest).

Fixpoint skip_stars (l : list rune) : list rune :=
  match l with
  | c :: r => if c =? c_star then skip_stars r else l
  | [] => []
  end.

(** The main loop; each turn consumes at least one rune of the pattern, so
    its length is enough fuel. *)
Fixpoint translate_go (fuel : nat) (pat : list rune) : option (list re_item) :=
  match fuel, pat with
  | _, [] => Some []
  | O, _ => None
  | S f, c :: r =>
      if c =? c_star then (RStar ::.) <$> translate_go f (skip_stars r)
      else if c =? c_quest then (RAny ::.) <$> translate_go f r
      else if c =? c_lbr then
        match set_inside r with
        | None => (RLit c_lbr ::.) <$> translate_go f r
        | Some (w, rest) => s ← fnmatchSet w; (s ::.) <$> translate_go f rest
        end
      else (RLit c ::.) <$> translate_go f r
  end.
Definition fnmatchTranslate (pattern : string) : option (list re_item) :=
  let pat := runes pattern in translate_go (length pat) pat.

(** ** The regular expression *)

Definition class_char (t : ctok) : rune := match t with TLit r => r | TDash => c_dash end.

(** regexp/syntax reads a class as runes and [lo-hi] ranges, and refuses a
    range whose ends are out of order. *)
Fixpoint parse_class (toks : list ctok) : option (list (rune * rune)) :=
  match toks with
  | [] => Some []
  | t :: r =>
      match r with
      | TDash :: t2 :: r2 =>
          if class_char t2 <? class_char t then None
          else ((class_char t, class_char t2) ::.) <$> parse_class r2
      | _ => ((class_char t, class_char t) ::.) <$> parse_class r
      end
  end.

Definition in_class (rs : list (rune * rune)) (c : rune) : bool :=
  existsb (λ r, in_range r.1 r.2 c) rs.

(** A compiled piece: any run of runes, or one rune of a set. *)
Inductive matcher := MStar | MOne (p : rune → bool).

Definition compile_item (i : re_item) : option matcher :=
  match i with
  | RStar => Some MStar
  | RAny => Some (MOne (λ _, true))
  | RLit r => Some (MOne (λ c, c =? r))
  | RClass neg toks => rs ← parse_class toks; Some (MOne (λ c, xorb neg (in_class rs c)))
  | RNever => Some (MOne (λ _, false))
  end.
(** regexp.Compile of a translation. *)
Definition compileRegexp (items : option (list re_item)) : option (list matcher) :=
  l ← items; mapM compile_item l.

(** MatchString of an expression anchored at both ends. *)
Fixpoint re_match (ms : list matcher) (s : list rune) : bool :=
  match ms with
  | [] => bool_decide (s = [])
  | MStar :: ms' =>
      (fix go s := re_match ms' s || match s with [] => false | _ :: r => go r end) s
  | MOne p :: ms' => match s with [] => false | c :: r => p c && re_match ms' r end
  end.

(** ** The cache of compiled patterns *)

Definition cacheBytes : Z := 65536.

(** The list, most recently used first, beside the map into it. *)
Record fcache := mkCache {
  c_order : list string;
  c_byPat : gmap string (list matcher);
  c_bytes : Z }.

Definition plen (p : string) : Z := Z.of_nat (String.length p).

Definition move_to_front (p : string) (l : list string) : list string :=
  p :: filter (λ q, q ≠ p) l.

(** The first critical section of cachedRegexp. *)
Definition cache_lookup (c : fcache) (p : string) : option (list matcher) * fcache :=
  match c_byPat c !! p with
  | Some re => (Some re, mkCache (move_to_front p (c_order c)) (c_byPat c) (c_bytes c))
  | None => (None, c)
  end.

(** The eviction loop, from the back of the list: [order] is the list
    reversed.  [None] is the nil dereference on an empty list. *)
Fixpoint evict (need : Z) (rorder : list string) (byPat : gmap string (list matcher)) (bytes : Z)
    : option (list string * gmap string (list matcher) * Z) :=
  if cacheBytes <? bytes + need then
    match rorder with
    | [] => None
    | oldest :: r => evict need r (delete oldest byPat) (bytes - plen oldest)
    end
  else Some (rorder, byPat, bytes).

(** The second critical section. *)
Definition cache_store (c : fcache) (p : string) (re : list matcher)
    : option (list matcher * fcache) :=
  match c_byPat c !! p with
  | Some re' => Some (re', mkCache (move_to_front p (c_order c)) (c_byPat c) (c_bytes c))
  | None =>
      '(rorder, byPat, bytes) ← evict (plen p) (reverse (c_order c)) (c_byPat c) (c_bytes c);
      Some (re, mkCache (p :: reverse rorder) (<[p := re]> byPat) (bytes + plen p))
  end.

(** cachedRegexp, when nothing else runs between the two sections.  The error
    is [inl tt]; [None] is a panic. *)
Definition cachedRegexp (c : fcache) (p : string) : option ((unit + list matcher) * fcache) :=
  match cache_lookup c p with
  | (Some re, c') => Some (inr re, c')
  | (None, c') =>
      match compileRegexp (fnmatchTranslate p) with
      | None => Some (inl (), c')
      | Some re =>
          if cacheBytes <? plen p then Some (inr re, c')
          else '(re, c'') ← cache_store c' p re; Some (inr re, c'')
      end
  end.

(** ** Matching *)

(** Match, threading the cache; [None] is a panic. *)
Definition Match_with (c : fcache) (pattern name : string) : option (bool * fcache) :=
  if IsLiteral pattern then Some (bool_decide (pattern = name), c)
  else
    '(re, c') ← cachedRegexp c pattern;
    match re with
    | inl _ => Some (false, c')
    | inr re => Some (re_match re (runes name), c')
    end.

(** What it answers whatever the cache holds: see [cachedRegexp_transparent]. *)
Definition Match (pattern name : string) : bool :=
  if IsLiteral pattern then bool_decide (pattern = name)
  else
    match compileRegexp (fnmatchTranslate pattern) with
    | Some re => re_match re (runes name)
    | None => false
    end.

(** A glob compiled for a request. *)
Inductive Pattern := PLiteral (s : string) | PRegexp (re : list matcher).
Inductive compile_error := ErrTooLong | ErrCompile.

Definition Compile (pattern : string) : compile_error + Pattern :=
  if IsLiteral pattern then inr (PLiteral pattern)
  else if MaxPatternLen <? plen pattern then inl ErrTooLong
  else
    match compileRegexp (fnmatchTranslate pattern) with
    | Some re => inr (PRegexp re)
    | None => inl ErrCompile
    end.

Definition Pattern_Match (p : Pattern) (name : string) : bool :=
  match p with
  | PLiteral s => bool_decide (s = name)
  | PRegexp re => re_match re (runes name)
  end.

(** ** What a set means

    A set is read from the left: [x-y] is a range and every other rune stands
    for itself.  A range that runs backwards is dropped.  The set is negated
    by a bang in front, and, as in CPython, by one that the removal of
    backward ranges has brought to the front; if that bang was the lower end
    of a range, what is left of the range is its hyphen and its upper end. *)
Inductive set_item := One (r : rune) | Range (lo hi : rune).

Definition bounds (i : set_item) : rune * rune :=
  match i with One r => (r, r) | Range lo hi => (lo, hi) end.
Definition forward (i : set_item) : Prop :=
  match i with One _ => True | Range lo hi => lo ≤ hi end.
#[global] Instance forward_dec i : Decision (forward i).
Proof. destruct i; simpl; apply _. Defined.

Fixpoint set_items (w : list rune) : list set_item :=
  match w with
  | [] => []
  | x :: r =>
      match r with
      | d :: y :: r' => if d =? c_dash then Range x y :: set_items r' else One x :: set_items r
      | _ => One x :: set_items r
      end
  end.
Definition live (w : list rune) : list set_item := filter forward (set_items w).

Definition set_reading (w : list rune) : bool * list set_item :=
  match w with
  | c :: r => if c =? c_bang then (true, live r)
              else match live w with
                   | One c :: its => if c =? c_bang then (true, its) else (false, live w)
                   | Range lo hi :: its =>
                       if lo =? c_bang then (true, One c_dash :: One hi :: its) else (false, live w)
                   | [] => (false, [])
                   end
  | [] => (false, [])
  end.
Definition set_has (w : list rune) (c : rune) : bool :=
  let '(negate, its) := set_reading w in xorb negate (in_class (bounds <$> its) c).

(** Globs, declaratively. *)
Inductive glob : list rune → list rune → Prop :=
| glob_nil : glob [] []
| glob_star_none p s : glob p s → glob (c_star :: p) s
| glob_star_take p c s : glob (c_star :: p) s → glob (c_star :: p) (c :: s)
| glob_quest p c s : glob p s → glob (c_quest :: p) (c :: s)
| glob_set p w rest c s :
    set_inside p = Some (w, rest) → set_has w c = true → glob rest s → glob (c_lbr :: p) (c :: s)
| glob_open p s : set_inside p = None → glob p s → glob (c_lbr :: p) (c_lbr :: s)
| glob_lit p c s : c ∉ [c_star; c_quest; c_lbr] → glob p s → glob (c :: p) (c :: s).

(** ** The chunks of a set

    [items_from a r] are the items the chunks [a :: r] stand for. *)
Fixpoint items_from (a : list rune) (r : list (list rune)) : list set_item :=
  match r with
  | [] => One <$> a
  | b :: r' =>
      (One <$> removelast a) ++ Range (default 0 (last a)) (default 0 (head b)) :: items_from (tail b) r'
  end.

(** Every chunk but the first has a rune, two when a chunk follows. *)
Fixpoint good_rest (r : list (list rune)) : Prop :=
  match r with
  | [] => True
  | b :: r' => b ≠ [] ∧ (r' ≠ [] → (2 ≤ length b)%nat) ∧ good_rest r'
  end.
Fixpoint joints_ordered (a : list rune) (r : list (list rune)) : Prop :=
  match r with
  | [] => True
  | b :: r' => default 0 (last a) ≤ default 0 (head b) ∧ joints_ordered b r'
  end.

Lemma removelast_snoc {A} (l : list A) x : removelast (l ++ [x]) = l.
Proof. apply removelast_last. Qed.

Lemma items_from_app p q r :
  q ≠ [] ∨ r = [] → items_from (p ++ q) r = (One <$> p) ++ items_from q r.
Proof.
  intros Hq. destruct r as [|b r]; simpl; [by rewrite fmap_app|].
  destruct Hq as [Hq|]; [|done]. destruct q as [|z q _] using rev_ind; [done|].
  by rewrite app_assoc, !removelast_snoc, !last_snoc, fmap_app, <-app_assoc.
Qed.

Lemma joints_ordered_last a b r :
  last a = last b → joints_ordered a r → joints_ordered b r.
Proof. intros Hl. destruct r; simpl; [done|]. by rewrite Hl. Qed.

Lemma split_nonempty k w cur : cur ≠ [] → ∃ a r, split_ranges k w cur = a :: r ∧ a ≠ [].
Proof.
  revert k cur. induction w as [|c w IH]; intros k cur Hc; simpl; [eauto|].
  destruct k; [destruct (c =? c_dash); [eauto|]|]; apply IH; by destruct cur.
Qed.

(** Cutting at the hyphens loses nothing. *)
Lemma split_reads n w pre x :
  (length w ≤ n)%nat →
  ∃ a r, close_chunks (split_ranges 0 w (pre ++ [x])) = (pre ++ x :: a) :: r ∧
    good_rest r ∧ items_from (x :: a) r = set_items (x :: w).
Proof.
  revert w pre x. induction n as [|n IH]; intros w pre x Hn.
  { destruct w; simpl in *; [|lia]. exists [], []. done. }
  destruct w as [|c w]; simpl in Hn; [by exists [], []|]. simpl split_ranges.
  destruct (Z.eqb_spec c c_dash) as [->|Hc].
  - destruct w as [|y [|z w]].
    + exists [c_dash], []. simpl. by rewrite <-app_assoc.
    + exists [], [[y]]. done.
    + destruct (IH w [y] z) as (a & r & Hs & Hg & Hi); [simpl in Hn; lia|].
      exists [], ((y :: z :: a) :: r). split; [|split].
      * simpl. destruct (split_nonempty 0 w [y; z]) as (b & rr & Hb & Hne); [done|].
        simpl in Hs. rewrite Hb in *. destruct b as [|b0 b]; [done|]. by rewrite <-Hs.
      * simpl. repeat split; [done|lia|done].
      * change (items_from [x] ((y :: z :: a) :: r)) with (Range x y :: items_from (z :: a) r).
        by rewrite Hi.
  - destruct (IH w (pre ++ [x]) c) as (a & r & Hs & Hg & Hi); [lia|].
    exists (c :: a), r. split; [|split].
    + by rewrite Hs, <-app_assoc.
    + done.
    + rewrite (items_from_app [x] (c :: a)), Hi by by left.
      simpl. destruct w; [done|]. by apply Z.eqb_neq in Hc as ->.
Qed.

(** Dropping the backward joints keeps the first chunk up to its last rune
    and the items that run forwards. *)
Lemma drop_backward_reads r x :
  good_rest r →
  ∃ a r', (∀ p, drop_backward ((p ++ [x]) :: r) = Some ((p ++ a) :: r')) ∧
    good_rest r' ∧ (r' ≠ [] → a ≠ []) ∧ joints_ordered a r' ∧
    items_from a r' = filter forward (items_from [x] r).
Proof.
  revert x. induction r as [|b r IH]; intros x Hg.
  { exists [x], []. split_and!; done. }
  destruct Hg as (Hb & Hlen & Hg). destruct b as [|y b]; [done|].
  assert (Hcase : ∃ b' r', drop_backward ((y :: b) :: r) = Some ((y :: b') :: r') ∧
    good_rest r' ∧ (r' ≠ [] → b' ≠ []) ∧ joints_ordered (y :: b') r' ∧
    items_from b' r' = filter forward (items_from b r)).
  { destruct r as [|b2 r].
    - exists b, []. split_and!; try done. simpl. symmetry. apply filter_all.
      intros i (z & -> & _)%list_elem_of_fmap. done.
    - destruct b as [|z b _] using rev_ind; [simpl in Hlen; specialize (Hlen ltac:(done)); lia|].
      destruct (IH z Hg) as (a & r' & Hd & Hg' & Ha & Ho & Hi).
      exists (b ++ a), r'. split_and!; try done.
      + apply (Hd (y :: b)).
      + intros Hr. specialize (Ha Hr). by destruct b, a.
      + destruct r'; [done|]. eapply joints_ordered_last; [|done].
        change (y :: b ++ a) with ((y :: b) ++ a). symmetry. rewrite last_app.
        destruct (last a) eqn:E; [done|]. apply last_None in E as ->. by destruct Ha.
      + rewrite !items_from_app, Hi, filter_app; [|by left|destruct r'; [by right|left; auto]].
        f_equal. symmetry. apply filter_all. intros i (u & -> & _)%list_elem_of_fmap. done. }
  destruct Hcase as (b' & r' & Hd & Hg' & Hb' & Ho & Hi).
  assert (Hhead : ∀ l, filter forward (Range x y :: l)
    = (if y <? x then [] else [Range x y]) ++ filter forward l).
  { intros l. rewrite filter_cons. simpl. destruct (Z.ltb_spec y x); case_decide; [lia|done|done|lia]. }
  simpl items_from. rewrite Hhead, <-Hi. destruct (Z.ltb_spec y x) as [Hlt|Hge].
  - exists b', r'. split_and!; try done.
    + intros p. cbn [drop_backward]. change (drop_backward ((y :: b) :: r)) with
        (drop_backward ((y :: b) :: r)) in Hd. cbn [drop_backward] in Hd. rewrite Hd. simpl.
      rewrite last_snoc. simpl. apply Z.ltb_lt in Hlt as ->. by rewrite removelast_snoc.
    + destruct r'; [done|]. eapply joints_ordered_last; [|done].
      destruct b'; [by destruct Hb'|done].
  - exists [x], ((y :: b') :: r'). split_and!; try done.
    + intros p. cbn [drop_backward]. cbn [drop_backward] in Hd. rewrite Hd. simpl.
      rewrite last_snoc. simpl. by apply Z.ltb_ge in Hge as ->.
    + simpl. split_and!; [done| |done].
      intros Hr. specialize (Hb' Hr). destruct b'; [done|simpl; lia].
Qed.

Lemma drop_backward_chunk p x a r :
  good_rest r →
  ∃ b r', drop_backward ((p ++ x :: a) :: r) = Some ((p ++ b) :: r') ∧
    good_rest r' ∧ (r' ≠ [] → b ≠ []) ∧ joints_ordered b r' ∧
    items_from b r' = filter forward (items_from (x :: a) r).
Proof.
  intros Hg. destruct (exists_last (l:=x :: a)) as (q & z & ->); [done|].
  destruct (drop_backward_reads r z Hg) as (b & r' & Hd & Hg' & Hb & Ho & Hi).
  assert (Hb' : b ≠ [] ∨ r' = []) by (destruct r'; [by right|left; auto]).
  exists (q ++ b), r'. split_and!.
  - by rewrite !app_assoc, Hd.
  - done.
  - intros Hr. specialize (Hb Hr). by destruct q, b.
  - destruct Hb' as [Hb'| ->]; [|done]. eapply joints_ordered_last; [|done].
    rewrite last_app. destruct (last b) eqn:E; [done|]. by apply last_None in E as ->.
  - rewrite !items_from_app, filter_app, Hi by (done || by left). f_equal. symmetry. apply filter_all.
    intros i (u & -> & _)%list_elem_of_fmap. done.
Qed.

(** ** The class the chunks are written as *)

Lemma parse_class_lits p x y toks :
  parse_class ((TLit <$> p ++ [x]) ++ TDash :: TLit y :: toks)
  = (if y <? x then None else (((bounds ∘ One <$> p) ++ [(x, y)]) ++.) <$> parse_class toks).
Proof.
  induction p as [|z p IH]; simpl.
  - destruct (y <? x); [done|]. by destruct (parse_class toks).
  - destruct p as [|z' p]; simpl in *; rewrite IH; destruct (y <? x); try done;
      by destruct (parse_class toks).
Qed.

Lemma parse_class_singles p : parse_class (TLit <$> p) = Some (bounds ∘ One <$> p).
Proof.
  induction p as [|z p IH]; [done|]. cbn [fmap list_fmap parse_class] in *.
  destruct p as [|z' p]; [done|]. cbn [fmap list_fmap] in *. by rewrite IH.
Qed.

Lemma join_head y b r : join_chunks ((y :: b) :: r) = TLit y :: join_chunks (b :: r).
Proof. by destruct r. Qed.

Lemma joints_ordered_tail y b r :
  (r ≠ [] → b ≠ []) → joints_ordered (y :: b) r → joints_ordered b r.
Proof.
  intros Hb. destruct r; [done|]. apply joints_ordered_last. destruct b; [by destruct Hb|done].
Qed.

(** regexp/syntax accepts the class and reads the items back. *)
Lemma parse_join r a :
  good_rest r → (r ≠ [] → a ≠ []) → joints_ordered a r →
  parse_class (join_chunks (a :: r)) = Some (bounds <$> items_from a r).
Proof.
  revert a. induction r as [|b r IH]; intros a Hg Ha Ho.
  { simpl. by rewrite parse_class_singles, list_fmap_compose. }
  destruct a as [|x a _] using rev_ind; [by destruct Ha|]. clear Ha.
  destruct Hg as (Hb & Hlen & Hg). destruct b as [|y b]; [done|].
  assert (Hbt : r ≠ [] → b ≠ []) by (intros Hr; specialize (Hlen Hr); destruct b; simpl in *; [lia|done]).
  destruct Ho as [Hxy Ho]. simpl in Ho. rewrite last_snoc in Hxy. simpl in Hxy.
  change (join_chunks ((a ++ [x]) :: (y :: b) :: r))
    with ((TLit <$> a ++ [x]) ++ TDash :: join_chunks ((y :: b) :: r)).
  rewrite join_head, parse_class_lits, (IH b) by eauto using joints_ordered_tail.
  rewrite (proj2 (Z.ltb_ge _ _) Hxy). simpl.
  rewrite removelast_snoc, last_snoc, fmap_app, list_fmap_compose. simpl. by rewrite <-app_assoc.
Qed.

(** The last part of fnmatchSet: the chunks left, negated or not. *)
Definition class_of (negate : bool) (chunks : list (list rune)) : re_item :=
  if forallb (λ c, bool_decide (c = [])) chunks then (if negate then RAny else RNever)
  else RClass negate (join_chunks chunks).

Definition item_means (i : re_item) (f : rune → bool) : Prop :=
  ∃ p, compile_item i = Some (MOne p) ∧ ∀ c, p c = f c.

Lemma class_of_means negate a r :
  good_rest r → (r ≠ [] → a ≠ []) → joints_ordered a r →
  item_means (class_of negate (a :: r)) (λ c, xorb negate (in_class (bounds <$> items_from a r) c)).
Proof.
  intros Hg Ha Ho. unfold class_of. destruct (forallb _ _) eqn:E.
  - assert (a = [] ∧ r = []) as [-> ->].
    { simpl in E. apply andb_true_iff in E as [->%bool_decide_eq_true E].
      destruct r; [done|]. by destruct Ha. }
    destruct negate; eexists; split; done.
  - eexists. cbn [compile_item]. rewrite parse_join by done. split; done.
Qed.

(** A first chunk emptied by the removal of its bang. *)
Lemma class_of_means_bare negate y b r :
  good_rest ((y :: b) :: r) → joints_ordered (y :: b) r →
  item_means (class_of negate ([] :: (y :: b) :: r))
    (λ c, xorb negate (in_class (bounds <$> One c_dash :: One y :: items_from b r) c)).
Proof.
  intros (_ & Hlen & Hg) Ho. eexists.
  change (class_of negate ([] :: (y :: b) :: r))
    with (RClass negate (join_chunks ([] :: (y :: b) :: r))). cbn [compile_item].
  assert (Hbt : r ≠ [] → b ≠ []) by (intros Hr; specialize (Hlen Hr); destruct b; simpl in *; [lia|done]).
  assert (Hp : parse_class (TLit y :: join_chunks (b :: r)) = Some (bounds <$> One y :: items_from b r)).
  { rewrite <-join_head, parse_join; [|done..].
    destruct r as [|b2 r]; [done|]. destruct b; [by destruct Hbt|]. done. }
  change (join_chunks ([] :: (y :: b) :: r)) with (TDash :: join_chunks ((y :: b) :: r)).
  rewrite join_head.
  change (parse_class (TDash :: TLit y :: join_chunks (b :: r)))
    with (((c_dash, c_dash) ::.) <$> parse_class (TLit y :: join_chunks (b :: r))).
  rewrite Hp. split; done.
Qed.

(** What the first chunk says of the negation. *)
Definition exposed (its : list set_item) : bool * list set_item :=
  match its with
  | One c :: its' => if c =? c_bang then (true, its') else (false, its)
  | Range lo hi :: its' => if lo =? c_bang then (true, One c_dash :: One hi :: its') else (false, its)
  | [] => (false, [])
  end.

Lemma strip_bang_means b r :
  good_rest r → (r ≠ [] → b ≠ []) → joints_ordered b r →
  item_means (class_of (strip_bang (b :: r)).1 (strip_bang (b :: r)).2)
    (λ c, xorb (exposed (items_from b r)).1 (in_class (bounds <$> (exposed (items_from b r)).2) c)).
Proof.
  intros Hg Hb Ho. destruct b as [|h b].
  { destruct r; [|by destruct Hb]. by eexists. }
  simpl strip_bang. pose proof (class_of_means false (h :: b) r Hg Hb Ho) as Hplain.
  destruct b as [|h2 b].
  - destruct r as [|[|y b2] r]; [|by destruct Hg|].
    + simpl. destruct (h =? c_bang); [by eexists|done].
    + simpl in Ho. simpl exposed. destruct (h =? c_bang); [|done].
      apply class_of_means_bare; [done|]. apply Ho.
  - rewrite (items_from_app [h] (h2 :: b)) in * by by left. simpl exposed.
    destruct (h =? c_bang); [|done]. apply class_of_means; [done|done|].
    revert Ho. by apply joints_ordered_last.
Qed.

#[local] Arguments c_bang : simpl never.
#[local] Arguments c_dash : simpl never.
#[local] Arguments c_lbr : simpl never.
#[local] Arguments c_rbr : simpl never.
#[local] Arguments c_star : simpl never.
#[local] Arguments c_quest : simpl never.

(** fnmatchSet gives every set its meaning, and never panics. *)
Lemma fnmatchSet_means w :
  w ≠ [] → ∃ i, fnmatchSet w = Some i ∧ item_means i (set_has w).
Proof.
  intros Hw. destruct w as [|c w]; [done|]. clear Hw.
  assert (Hfn : ∀ cs l, set_chunks (c :: w) = cs → drop_backward cs = Some l →
    fnmatchSet (c :: w) = Some (class_of (strip_bang l).1 (strip_bang l).2)).
  { intros cs l <- Hl. unfold fnmatchSet. rewrite Hl. simpl. destruct (strip_bang l). simpl.
    unfold class_of. by destruct (forallb _ _). }
  destruct (decide (c = c_bang)) as [->|Hc].
  - destruct w as [|x w]; [eexists; split; [by apply (Hfn [[c_bang]])|by eexists]|].
    destruct (split_reads _ w [c_bang] x (Nat.le_refl _)) as (a & r & Hs & Hg & Hi).
    destruct (drop_backward_chunk [c_bang] x a r Hg) as (b & r' & Hd & Hg' & Hb & Ho & Hi').
    rewrite (Hfn _ _ Hs Hd). eexists. split; [done|].
    unfold set_has. cbn -[live]. unfold live. rewrite <-Hi, <-Hi'. by apply class_of_means.
  - destruct (split_reads _ w [] c (Nat.le_refl _)) as (a & r & Hs & Hg & Hi).
    destruct (drop_backward_chunk [] c a r Hg) as (b & r' & Hd & Hg' & Hb & Ho & Hi').
    assert (Hset : set_chunks (c :: w) = close_chunks (split_ranges 0 w ([] ++ [c]))).
    { unfold set_chunks. rewrite decide_False; [done|]. simpl. congruence. }
    rewrite (Hfn _ _ (eq_trans Hset Hs) Hd). eexists. split; [done|].
    unfold set_has, set_reading. apply Z.eqb_neq in Hc as ->.
    change (live (c :: w)) with (filter forward (set_items (c :: w))). rewrite <-Hi, <-Hi'.
    destruct (strip_bang_means b r' Hg' Hb Ho) as (p & Hp1 & Hp2). exists p. split; [done|].
    intros u. rewrite Hp2. unfold exposed. destruct (items_from b r') as [|[] ?]; repeat case_match; done.
Qed.

(** ** The translation as a whole *)

Lemma to_bracket_shorter l w rest :
  to_bracket l = Some (w, rest) → (length rest < length l)%nat.
Proof.
  revert w. induction l as [|c l IH]; intros w H; [done|]. simpl in *.
  destruct (c =? c_rbr); [simplify_eq; lia|].
  destruct (to_bracket l) as [[w' r']|] eqn:E; simplify_eq/=. specialize (IH _ eq_refl). lia.
Qed.

Lemma set_inside_shorter l w rest :
  set_inside l = Some (w, rest) → w ≠ [] ∧ (length rest < length l)%nat.
Proof.
  unfold set_inside. intros H.
  assert (Hs : ∀ l1 p2 l2, (match l1 with c :: r => if c =? c_rbr then ([c], r) else ([], l1)
      | [] => ([], l1) end) = (p2, l2) →
    (length l2 ≤ length l1)%nat ∧ (p2 = [] → head l2 ≠ Some c_rbr)).
  { intros [|c l1] p2 l2 ?; [by simplify_eq|]. destruct (Z.eqb_spec c c_rbr); simplify_eq/=;
      split; (done || lia || congruence). }
  destruct (match l with c :: r => if c =? c_bang then ([c], r) else ([], l) | [] => ([], l) end)
    as [p1 l1] eqn:E1.
  assert (Hl1 : (length l1 ≤ length l)%nat).
  { destruct l as [|c l]; [by simplify_eq|]. destruct (c =? c_bang); simplify_eq/=; lia. }
  destruct (match l1 with c :: r => if c =? c_rbr then ([c], r) else ([], l1) | [] => ([], l1) end)
    as [p2 l2] eqn:E2. destruct (Hs _ _ _ E2) as [Hl2 Hhd].
  destruct (to_bracket l2) as [[w' r']|] eqn:E; simplify_eq/=.
  pose proof (to_bracket_shorter _ _ _ E). split; [|lia].
  intros [-> [-> ->]%app_eq_nil]%app_eq_nil.
  destruct l2 as [|c l2]; simplify_eq/=. destruct (Z.eqb_spec c c_rbr); [naive_solver|].
  destruct (to_bracket l2) as [[]|]; simplify_eq/=.
Qed.

Lemma skip_stars_shorter l : (length (skip_stars l) ≤ length l)%nat.
Proof. induction l as [|c l IH]; simpl; [lia|]. destruct (c =? c_star); simpl; lia. Qed.

(** A piece and the runes it takes: the meaning of a compiled expression. *)
Lemma glob_stars p s : glob (c_star :: p) s ↔ glob (c_star :: skip_stars p) s.
Proof.
  induction p as [|c p IH]; simpl; [done|]. destruct (Z.eqb_spec c c_star) as [->|]; [|done].
  rewrite <-IH. clear IH. split; intros H.
  - remember (c_star :: c_star :: p) as q eqn:Eq. induction H; simplify_eq/=; try done.
    + apply glob_star_take. by apply IHglob.
    + exfalso. set_solver.
  - by constructor.
Qed.

Lemma glob_star_inv p s :
  glob (c_star :: p) s ↔ glob p s ∨ ∃ c s', s = c :: s' ∧ glob (c_star :: p) s'.
Proof.
  split.
  - inversion 1; subst; eauto. set_solver.
  - intros [?|(c & s' & -> & ?)]; [by apply glob_star_none|by apply glob_star_take].
Qed.

Lemma re_match_star ms s :
  re_match (MStar :: ms) s = re_match ms s || match s with [] => false | _ :: r => re_match (MStar :: ms) r end.
Proof. by destruct s. Qed.

(** Every pattern is translated and compiled, and the expression matches what
    the glob means. *)
Lemma translate_means n pat :
  (length pat ≤ n)%nat →
  ∃ ms, compileRegexp (translate_go n pat) = Some ms ∧ ∀ s, re_match ms s = true ↔ glob pat s.
Proof.
  revert pat. induction n as [|n IH]; intros pat Hn.
  { destruct pat; simpl in *; [|lia]. exists []. split; [done|]. intros s. simpl.
    rewrite bool_decide_eq_true. split; [intros ->; constructor|by inversion 1]. }
  destruct pat as [|c pat]; simpl in Hn.
  { exists []. split; [done|]. intros s. simpl.
    rewrite bool_decide_eq_true. split; [intros ->; constructor|by inversion 1]. }
  assert (Hcons : ∀ i m q, compile_item i = Some m → (length q ≤ n)%nat →
    ∃ ms, compileRegexp ((i ::.) <$> translate_go n q) = Some (m :: ms) ∧
      ∀ s, re_match ms s = true ↔ glob q s).
  { intros i m q Hi Hq. destruct (IH q Hq) as (ms & Hms & Hre). exists ms. split; [|done].
    unfold compileRegexp in *. destruct (translate_go n q) as [l|]; simplify_eq/=.
    by rewrite Hi, Hms. }
  cbn [translate_go]. destruct (Z.eqb_spec c c_star) as [->|Hstar].
  { destruct (Hcons RStar MStar (skip_stars pat)) as (ms & Hms & Hre);
      [done|pose proof (skip_stars_shorter pat); lia|].
    exists (MStar :: ms). split; [done|]. intros s. rewrite glob_stars.
    induction s as [|d s IHs]; rewrite re_match_star, glob_star_inv, orb_true_iff, Hre.
    - split; [intros [?|?]; [by left|done]|intros [?|(?&?&?&?)]; [by left|done]].
    - rewrite IHs. naive_solver. }
  destruct (Z.eqb_spec c c_quest) as [->|Hquest].
  { destruct (Hcons RAny (MOne (λ _, true)) pat) as (ms & Hms & Hre); [done|lia|].
    exists (MOne (λ _, true) :: ms). split; [done|]. intros [|d s]; simpl.
    - split; [done|by inversion 1].
    - rewrite Hre. split; [by constructor|]. inversion 1; simplify_eq; (done || set_solver). }
  destruct (Z.eqb_spec c c_lbr) as [->|Hlbr].
  2: { destruct (Hcons (RLit c) (MOne (λ d, d =? c)) pat) as (ms & Hms & Hre); [done|lia|].
    exists (MOne (λ d, d =? c) :: ms). split; [done|]. intros [|d s]; simpl.
    - split; [done|]. inversion 1; by subst.
    - rewrite andb_true_iff, Z.eqb_eq, Hre. split.
      + intros [-> ?]. apply glob_lit; [set_solver|done].
      + inversion 1; simplify_eq; done. }
  destruct (set_inside pat) as [[w rest]|] eqn:Hin.
  - destruct (set_inside_shorter _ _ _ Hin) as [Hw Hrest].
    destruct (fnmatchSet_means w Hw) as (i & Hi & p & Hp & Hpc). rewrite Hi. simpl.
    destruct (Hcons i (MOne p) rest) as (ms & Hms & Hre); [done|lia|].
    exists (MOne p :: ms). split; [done|]. intros [|d s]; simpl.
    + split; [done|by inversion 1].
    + rewrite andb_true_iff, Hpc, Hre. split.
      * intros [??]. by eapply glob_set.
      * inversion 1; simplify_eq; (done || set_solver).
  - destruct (Hcons (RLit c_lbr) (MOne (λ d, d =? c_lbr)) pat) as (ms & Hms & Hre); [done|lia|].
    exists (MOne (λ d, d =? c_lbr) :: ms). split; [done|]. intros [|d s]; simpl.
    + split; [done|by inversion 1].
    + rewrite andb_true_iff, Z.eqb_eq, Hre. split.
      * intros [-> ?]. by apply glob_open.
      * inversion 1; simplify_eq; (done || set_solver).
Qed.

Lemma compile_means pattern :
  ∃ re, compileRegexp (fnmatchTranslate pattern) = Some re ∧
    ∀ name, re_match re (runes name) = true ↔ glob (runes pattern) (runes name).
Proof.
  destruct (translate_means (length (runes pattern)) (runes pattern)) as (re & Hre & Hm); [done|].
  exists re. split; [done|]. intros. apply Hm.
Qed.

(** A pattern without special characters is a glob for itself alone. *)
Lemma glob_literal p s : (∀ c, c ∈ p → c ∉ [c_star; c_quest; c_lbr]) → glob p s ↔ p = s.
Proof.
  revert s. induction p as [|c p IH]; intros s Hp.
  { split; [by inversion 1|intros <-; constructor]. }
  assert (Hc : c ∉ [c_star; c_quest; c_lbr]) by (apply Hp; set_solver).
  assert (Hp' : ∀ c, c ∈ p → c ∉ [c_star; c_quest; c_lbr]) by (intros; apply Hp; set_solver).
  split.
  - assert (Hne : c ≠ c_star ∧ c ≠ c_quest ∧ c ≠ c_lbr) by (clear -Hc; set_solver).
    inversion 1; try (exfalso; clear -Hne H0; naive_solver). f_equal. by apply IH.
  - intros <-. constructor; [done|]. by apply IH.
Qed.

Lemma EncodeRune_ascii r : r ∈ [c_star; c_quest; c_lbr] → EncodeRune r = [r].
Proof. intros H. repeat (apply elem_of_cons in H as [->|H]; [done|]). by apply elem_of_nil in H. Qed.

(** Special characters are single bytes, so a string without them has no such
    rune either. *)
Lemma HasMeta_runes s c :
  ValidString s = true → c ∈ runes s → c ∈ [c_star; c_quest; c_lbr] → HasMeta s = true.
Proof.
  unfold ValidString, runes. intros Hv Hc Hm.
  assert (Hb : c ∈ bytes s).
  { rewrite <-(decode_go_encode _ (bytes s) (Nat.le_refl _) Hv).
    apply list_elem_of_In, in_concat. exists (EncodeRune c). split.
    - apply list_elem_of_In, list_elem_of_fmap. by exists c.
    - rewrite EncodeRune_ascii by done. by left. }
  unfold HasMeta. clear Hv Hc. unfold bytes in Hb.
  induction s as [|a s IH]; [by apply elem_of_nil in Hb|]. simpl in *.
  apply elem_of_cons in Hb as [Ha|Hb]; [|by rewrite IH, orb_true_r].
  rewrite bool_decide_eq_true_2; [done|].
  assert (He : a = ascii_of_N (Z.to_N c)).
  { subst c. unfold byte_of. by rewrite N2Z.id, ascii_N_embedding. }
  subst a. clear Ha IH.
  repeat (apply elem_of_cons in Hm as [->|Hm]; [vm_compute; set_solver|]). by apply elem_of_nil in Hm.
Qed.

Definition demo_glob : string := "web[b-d!-]?*.example".
Definition demo_name : string := "webc01.example".

(** Match answers what the glob means, for every pattern and every name in
    valid UTF-8: the translation never panics, the regular expression it
    writes always compiles, and it matches exactly the names the declarative
    reading of the glob accepts, sets and backward ranges included. *)
Theorem Match_glob pattern name :
  ValidString name = true →
  Match pattern name = true ↔ glob (runes pattern) (runes name).
Proof.
  intros Hn. destruct (compile_means pattern) as (re & Hre & Hm). unfold Match. rewrite Hre.
  unfold IsLiteral. destruct (HasMeta pattern) eqn:Hmeta; simpl; [apply Hm|].
  destruct (ValidString pattern) eqn:Hv; [|apply Hm].
  rewrite bool_decide_eq_true, glob_literal.
  - split; [by intros ->|by apply runes_inj].
  - intros c Hc Hin. pose proof (HasMeta_runes _ _ Hv Hc Hin). congruence.
Qed.

Lemma Match_glob_witness :
  ValidString demo_name = true ∧ glob (runes demo_glob) (runes demo_name).
Proof. split; [reflexivity|]. apply (Match_glob demo_glob demo_name); vm_compute; reflexivity. Defined.

(** A glob compiled for a request answers as the cached one does, and is
    refused exactly when it is a glob longer than the limit; a literal is never
    refused. *)
Theorem Compile_agrees pattern :
  (∀ p name, Compile pattern = inr p → Pattern_Match p name = Match pattern name) ∧
  ((∃ e, Compile pattern = inl e) ↔ IsLiteral pattern = false ∧ MaxPatternLen < plen pattern) ∧
  Compile pattern ≠ inl ErrCompile.
Proof.
  unfold Compile, Match. destruct (compile_means pattern) as (re & Hre & _). rewrite Hre.
  destruct (IsLiteral pattern); [naive_solver|].
  destruct (Z.ltb_spec MaxPatternLen (plen pattern)); naive_solver lia.
Qed.

(** ** The cache *)

Abbreviation compiled p := (compileRegexp (fnmatchTranslate p)).

Definition total_len (l : list string) : Z := foldr (λ p n, plen p + n) 0 l.

Record cache_ok (c : fcache) : Prop := {
  ok_nodup : NoDup (c_order c);
  ok_keys : ∀ p, p ∈ c_order c ↔ is_Some (c_byPat c !! p);
  ok_bytes : c_bytes c = total_len (c_order c);
  ok_bound : c_bytes c ≤ cacheBytes;
  ok_value : ∀ p re, c_byPat c !! p = Some re → compiled p = Some re }.

Definition emptyCache : fcache := mkCache [] ∅ 0.

(** One critical section of some caller.  Callers interleave at this grain: a
    caller stores only what it compiled, and only what fits the cache. *)
Inductive cache_step : fcache → fcache → Prop :=
| step_lookup c p : cache_step c (cache_lookup c p).2
| step_store c p re res :
    compiled p = Some re → plen p ≤ cacheBytes → cache_store c p re = Some res →
    cache_step c res.2.

Lemma total_len_perm l l' : l ≡ₚ l' → total_len l = total_len l'.
Proof. induction 1; simpl; lia. Qed.
Lemma total_len_snoc l p : total_len (l ++ [p]) = total_len l + plen p.
Proof. rewrite (total_len_perm _ (p :: l)) by solve_Permutation. simpl. lia. Qed.

Lemma move_to_front_perm p l : NoDup l → p ∈ l → move_to_front p l ≡ₚ l.
Proof.
  intros Hnd Hp. apply NoDup_Permutation; unfold move_to_front.
  - constructor; [rewrite list_elem_of_filter; naive_solver|]. by apply NoDup_filter.
  - done.
  - intros x. rewrite elem_of_cons, list_elem_of_filter. destruct (decide (x = p)); naive_solver.
Qed.

Lemma cache_ok_front c p :
  cache_ok c → is_Some (c_byPat c !! p) →
  cache_ok (mkCache (move_to_front p (c_order c)) (c_byPat c) (c_bytes c)).
Proof.
  intros [Hnd Hk Hb Hbd Hv] Hp. pose proof (move_to_front_perm p _ Hnd (proj2 (Hk p) Hp)) as Hperm.
  split; cbn [c_order c_byPat c_bytes];
    [by rewrite Hperm|intros; by rewrite Hperm|by rewrite (total_len_perm _ _ Hperm)|done..].
Qed.

Lemma cache_ok_empty : cache_ok emptyCache.
Proof.
  split; simpl; [constructor| |done..|done|]; intros p; rewrite lookup_empty; [|done].
  split; [by intros ?%elem_of_nil|by intros []].
Qed.

Lemma cache_lookup_ok c p :
  cache_ok c → cache_ok (cache_lookup c p).2 ∧
    ∀ re, (cache_lookup c p).1 = Some re → compiled p = Some re ∧ head (c_order (cache_lookup c p).2) = Some p.
Proof.
  intros Hok. unfold cache_lookup. destruct (c_byPat c !! p) as [re|] eqn:E; simpl; [|done].
  split; [by apply cache_ok_front|]. intros re' ?; simplify_eq. split; [by eapply ok_value|done].
Qed.

(** The eviction loop ends before the list does, and keeps the longest part of
    the list, from the most recently used, that leaves room. *)
Lemma evict_ok need l byPat bytes :
  0 ≤ need ≤ cacheBytes → cache_ok (mkCache l byPat bytes) →
  ∃ l' dropped byPat' bytes',
    evict need (reverse l) byPat bytes = Some (reverse l', byPat', bytes') ∧
    l = l' ++ dropped ∧ cache_ok (mkCache l' byPat' bytes') ∧ bytes' + need ≤ cacheBytes ∧
    (∀ p, p ∈ l' → byPat' !! p = byPat !! p) ∧
    (∀ p dropped', dropped = p :: dropped' → cacheBytes < total_len (l' ++ [p]) + need).
Proof.
  intros Hneed. revert byPat bytes. induction l as [|p l IH] using rev_ind; intros byPat bytes Hok.
  { pose proof (ok_bytes _ Hok). exists [], [], byPat, bytes. simpl in *.
    destruct (Z.ltb_spec cacheBytes (bytes + need)); [lia|]. done. }
  rewrite reverse_snoc. cbn [evict]. destruct (Z.ltb_spec cacheBytes (bytes + need)) as [Hlt|Hge].
  - destruct Hok as [Hnd Hk Hb Hbd Hv]. simpl in *.
    apply NoDup_app in Hnd as (Hnd & Hdis & _). rewrite total_len_snoc in Hb.
    assert (Hp : p ∉ l) by (intros Hin; apply (Hdis p Hin); set_solver).
    assert (Hpl : 0 ≤ plen p) by (unfold plen; lia).
    destruct (IH (delete p byPat) (bytes - plen p)) as (l' & dr & bp & b' & He & -> & Hok' & Hfit & Hkeep & Hmin).
    { split; simpl; [done| |lia|lia|].
      - intros q. rewrite lookup_delete_is_Some. specialize (Hk q). set_solver.
      - intros q re. rewrite lookup_delete_Some. naive_solver. }
    exists l', (dr ++ [p]), bp, b'. split_and!; try done.
    + by rewrite app_assoc.
    + intros q Hq. rewrite Hkeep, lookup_delete_ne; [done| |done]. set_solver.
    + intros q dr' Heq. destruct dr as [|d dr]; simplify_eq/=; [|by eapply Hmin].
      rewrite app_nil_r in *. rewrite total_len_snoc. lia.
  - exists (l ++ [p]), [], byPat, bytes. rewrite reverse_snoc, app_nil_r. done.
Qed.

Lemma cache_store_ok c p re :
  cache_ok c → compiled p = Some re → plen p ≤ cacheBytes →
  ∃ re' c', cache_store c p re = Some (re', c') ∧ compiled p = Some re' ∧ cache_ok c' ∧
    head (c_order c') = Some p.
Proof.
  intros Hok Hre Hp. unfold cache_store. destruct (c_byPat c !! p) as [re'|] eqn:E.
  { exists re', (mkCache (move_to_front p (c_order c)) (c_byPat c) (c_bytes c)).
    split_and!; [done|by eapply ok_value|by apply cache_ok_front|done]. }
  destruct c as [l bp b]. simpl in *.
  destruct (evict_ok (plen p) l bp b) as (l' & dr & bp' & b' & He & -> & Hok' & Hfit & Hkeep & _);
    [unfold plen in *; lia|done|]. rewrite He. simpl. eexists _, _. split; [done|].
  split; [done|]. rewrite reverse_involutive. split; [|done].
  destruct Hok' as [Hnd Hk Hb Hbd Hv]; simpl in *.
  assert (Hpl : p ∉ l').
  { intros Hin. rewrite <-Hkeep in E by done. apply Hk in Hin as [? ?]. congruence. }
  split; simpl.
  - by constructor.
  - intros q. rewrite lookup_insert_is_Some, elem_of_cons, Hk. destruct (decide (q = p)); naive_solver.
  - lia.
  - lia.
  - intros q re'. rewrite lookup_insert_Some. naive_solver.
Qed.

(** However many callers match at once, their critical sections
    interleaving in any order from an empty cache, the cache never holds more
    than its bound of pattern text, its list and its map never disagree, the
    eviction never runs off the list, and what a caller gets for a pattern is
    that pattern compiled: Match does not depend on the cache. *)
Theorem cachedRegexp_transparent c p name :
  rtc cache_step emptyCache c →
  c_bytes c = total_len (c_order c) ∧ total_len (c_order c) ≤ cacheBytes ∧
  (∀ q, q ∈ c_order c ↔ is_Some (c_byPat c !! q)) ∧
  ∃ re c', cachedRegexp c p = Some (inr re, c') ∧ compiled p = Some re ∧ rtc cache_step c c' ∧
    Match_with c p name = Some (Match p name, if IsLiteral p then c else c').
Proof.
  intros Hreach. assert (Hok : cache_ok c).
  { revert Hreach. apply (rtc_ind_r (λ c, cache_ok c)); [apply cache_ok_empty|].
    intros c1 c2 _ Hstep IH. destruct Hstep as [c0 q|c0 q re [re' c'] Hre Hq Hst].
    - by apply cache_lookup_ok.
    - destruct (cache_store_ok c0 q re) as (? & ? & ? & ? & ? & ?); [done..|]. by simplify_eq. }
  pose proof (ok_bytes _ Hok). pose proof (ok_bound _ Hok).
  split_and!; [done|lia|apply (ok_keys _ Hok)|].
  enough (∃ re c', cachedRegexp c p = Some (inr re, c') ∧ compiled p = Some re ∧ rtc cache_step c c')
    as (re & c' & H1 & H2 & H3).
  { exists re, c'. split_and!; [done..|]. unfold Match_with, Match. rewrite H1, H2.
    by destruct (IsLiteral p). }
  destruct (compile_means p) as (re & Hre & _). pose proof (step_lookup c p) as Hstep.
  destruct (cache_lookup_ok c p Hok) as [Hok1 Hval]. unfold cachedRegexp.
  destruct (cache_lookup c p) as [[re'|] c1]; simpl in *.
  { exists re', c1. split; [done|]. split; [by apply Hval|by apply rtc_once]. }
  rewrite Hre. destruct (Z.ltb_spec cacheBytes (plen p)) as [Hbig|Hfit].
  { exists re, c1. split_and!; [done..|by apply rtc_once]. }
  destruct (cache_store_ok c1 p re Hok1 Hre Hfit) as (re' & c2 & Hst & Hre' & _ & _).
  rewrite Hst. simpl. exists re', c2. split_and!; [done|congruence|].
  eapply rtc_l; [done|]. apply rtc_once. by apply (step_store c1 p re (re', c2)).
Qed.

Lemma cachedRegexp_transparent_witness :
  ∃ re c', cachedRegexp emptyCache demo_glob = Some (inr re, c') ∧ compiled demo_glob = Some re ∧
    rtc cache_step emptyCache c' ∧ Match_with emptyCache demo_glob demo_name = Some (true, c').
Proof. apply (cachedRegexp_transparent emptyCache demo_glob demo_name). apply rtc_refl. Defined.
