(* ===== verification/Signature.v ===== *)
(** * Package signature: declared parameters and the binding of arguments

    Models src/internal/signature/signature.go and platform.go.  A signature
    declares the parameters of a module function; [Bind] matches a call
    against it, filling defaults and collecting every error.  The case of
    [coerce] for a Go map, which is not a value of the data model, has no
    counterpart. *)

From S2P Require Import Prelude GoLib Value.

Open Scope Z_scope.

Inductive Type_ :=
| TAny | TString | TInt | TFloat | TBool | TList | TMap | TPath | TMode | TDuration.
#[global] Instance Type_eq_dec : EqDecision Type_.
Proof. solve_decision. Defined.

Definition typeNames (t : Type_) : string :=
  match t with
  | TAny => "any" | TString => "string" | TInt => "int" | TFloat => "float" | TBool => "bool"
  | TList => "list" | TMap => "map" | TPath => "path" | TMode => "mode" | TDuration => "duration"
  end.

Definition all_types : list Type_ :=
  [TAny; TString; TInt; TFloat; TBool; TList; TMap; TPath; TMode; TDuration].
(** The names are distinct, so the order in which the source's map is ranged
    over does not matter. *)
Definition NamedType (name : string) : Type_ :=
  default TAny (head (filter (λ t, typeNames t = name) all_types)).

Inductive TestMode := TestReliable | TestUnreliable | TestNotApplicable.
Definition TestMode_String (t : TestMode) : string :=
  match t with
  | TestUnreliable => "unreliable"
  | TestNotApplicable => "not_applicable"
  | TestReliable => "reliable"
  end.

Definition PrivRoot : string := "root".
Definition PrivRootForOthers : string := "root to signal another account's process".
Definition PrivCaller : string := "whatever the command needs".
Definition PrivTargetAccount : string := "the target account, or root".
Definition PrivZFSDelegation : string := "root, or a delegated zfs permission".

Record Param := mkParam {
  pName : string;
  pType : Type_;
  Required : bool;
  Default : value;
  pDoc : string;
  Variadic : bool;
  KeywordOnly : bool;
  Choices : list string;
  Ineffective : string }.

Record Signature := mkSignature {
  Module_ : string;
  Function_ : string;
  sDoc : string;
  Params : list Param;
  Mutates : bool;
  sTestMode : TestMode;
  Platforms : list string;
  Privileges : list string;
  AnyKwargs : bool;
  ArbitraryCode : bool;
  Returns_ : string;
  Section_ : string }.

Definition NeedsPrivilege (s : Signature) : bool :=
  existsb (λ p, bool_decide (p ∈ [PrivRoot; PrivRootForOthers; PrivCaller;
                                  PrivTargetAccount; PrivZFSDelegation])) (Privileges s).

Definition sName (s : Signature) : string := Module_ s +:+ "." +:+ Function_ s.

Definition find_param (name : string) (ps : list Param) : option Param :=
  head (filter (λ p, pName p = name) ps).
Definition Param_ (s : Signature) (name : string) : option Param := find_param name (Params s).

Definition is_nil (v : value) : bool := match v with VNull => true | _ => false end.

(** ** The platform and the privileges a function declares *)

Record PlatformError := mkPlatformError { peFunction : string; pePlatforms : list string; peHere : string }.
Definition PlatformError_Error (e : PlatformError) : string :=
  peFunction e +:+ " runs on " +:+ Join (pePlatforms e) ", " +:+ ", and this node is " +:+ peHere e.

(** [goos] is runtime.GOOS. *)
Definition CheckPlatform (goos : string) (s : Signature) : option PlatformError :=
  if bool_decide (Platforms s = []) then None
  else if bool_decide (goos ∈ Platforms s) then None
  else Some (mkPlatformError (sName s) (Platforms s) goos).

Definition PrivilegeNote (s : Signature) (euid : Z) : string :=
  if bool_decide (Privileges s = []) || (euid =? 0) then ""
  else if bool_decide ("root" ∈ Privileges s) then
    " (" +:+ sName s +:+ " declares that it needs root, and this process is not root)"
  else " (" +:+ sName s +:+ " declares that it needs " +:+ Join (Privileges s) ", " +:+ ")".

(** ** Coercion *)

Record ArgError := mkArgError { aeFunction : string; aeParam : string; aeMsg : string }.

Definition isOctalDigits (s : string) : bool :=
  forallb (in_range 48 55) (bytes s) && bool_decide (s ≠ "").

Definition sq : string := "'".

Definition modeAdvice (n : Z) : string :=
  if n <? 0 then "write it as a quoted string"
  else
    let asTyped := FormatInt n in
    let asOctal := zero_pad 4 (FormatOctal n) in
    if isOctalDigits asTyped && bool_decide (asOctal ≠ "0" +:+ asTyped) then
      "write it as '0" +:+ asTyped +:+ "' if you meant that mode, or '" +:+ asOctal +:+
      "' if you meant the number " +:+ FormatInt n
    else "write it as '" +:+ asOctal +:+ sq.

Section bind.
Context `{Runtime}.

Definition ArgError_Error (e : ArgError) : string :=
  if bool_decide (aeParam e = "") then aeFunction e +:+ ": " +:+ aeMsg e
  else aeFunction e +:+ ": argument " +:+ Quote (aeParam e) +:+ ": " +:+ aeMsg e.

Definition coerce_int (v : value) : option Z :=
  match v with
  | VInt t => Some t
  | VFloat t =>
      n ← f64_trunc t;
      if f64_eqb t (f64_of_Z n) then Some n else None
  | VString t => Atoi (TrimSpace t)
  | _ => None
  end.
Definition coerce_bool (v : value) : option bool :=
  match v with
  | VBool t => Some t
  | VString t =>
      let w := TrimSpace t in
      if existsb (lower_is w) ["true"; "yes"; "on"; "1"] then Some true
      else if existsb (lower_is w) ["false"; "no"; "off"; "0"] then Some false
      else None
  | _ => None
  end.

(** Conversion of an out-of-range float to an integer, which the language
    leaves to the implementation, is a refusal here. *)
Definition coerce (s : Signature) (p : Param) (v : value) : ArgError + value :=
  let err msg := inl (mkArgError (sName s) (pName p) msg) in
  let fail want := err ("must be " +:+ want +:+ ", found " +:+ TypeName v) in
  match v with
  | VNull => inr VNull
  | _ =>
      match pType p with
      | TAny => inr v
      | TString | TPath =>
          match v with
          | VString str =>
              if bool_decide (Choices p ≠ []) && bool_decide (str ∉ Choices p)
              then err ("must be one of " +:+ Join (Choices p) ", " +:+ ", found " +:+ Quote str)
              else inr (VString str)
          | VInt n => inr (VString (FormatInt n))
          | _ => fail "a string"
          end
      | TMode =>
          match v with
          | VString str => inr (VString str)
          | VInt n => err ("must be a quoted string, found the integer " +:+ FormatInt n +:+ "; " +:+ modeAdvice n)
          | _ => fail "a quoted file mode such as '0644'"
          end
      | TInt => match coerce_int v with Some n => inr (VInt n) | None => fail "an integer" end
      | TFloat =>
          match v with
          | VFloat t => inr (VFloat t)
          | VInt t => inr (VFloat (f64_of_Z t))
          | VString t =>
              match ParseFloat (TrimSpace t) with
              | Some f => inr (VFloat f)
              | None => fail "a number"
              end
          | _ => fail "a number"
          end
      | TBool => match coerce_bool v with Some b => inr (VBool b) | None => fail "a boolean" end
      | TList => match v with VSeq l => inr (VSeq l) | _ => inr (VSeq [v]) end
      | TMap =>
          match v with
          | VMap m => inr (VMap m)
          | VNilMap => inr VNilMap
          | _ => fail "a mapping"
          end
      | TDuration =>
          match v with
          | VString _ | VInt _ | VFloat _ => inr v
          | _ => fail "a duration"
          end
      end
  end.

(** ** Bind *)

Definition appendVariadic (out : Map) (name : string) (v : value) : Map :=
  let list := match Get out (VString name) with Some (VSeq l) => l | _ => [] end in
  MSet out (VString name) (VSeq (list ++ [v])).

(** The mapping under construction, the errors so far, the names used. *)
Record binding := mkBinding { bOut : Map; bErrs : list ArgError; bUsed : gset string }.

Definition add_err (b : binding) (e : ArgError) : binding :=
  mkBinding (bOut b) (bErrs b ++ [e]) (bUsed b).
Definition bind_to (b : binding) (name : string) (v : value) : binding :=
  mkBinding (MSet (bOut b) (VString name) v) (bErrs b) ({[name]} ∪ bUsed b).
Definition mark (b : binding) (name : string) : binding :=
  mkBinding (bOut b) (bErrs b) ({[name]} ∪ bUsed b).
Definition set_out (b : binding) (m : Map) : binding := mkBinding m (bErrs b) (bUsed b).

(** The loop over positional arguments, at index [i]; [nargs] is their
    number.  Too many of them is one error and the end of the loop. *)
Fixpoint bind_args (s : Signature) (positional : list Param) (nargs i : nat) (args : list value)
    (b : binding) : binding :=
  match args with
  | [] => b
  | a :: r =>
      match positional !! i with
      | None =>
          match last positional with
          | Some lp =>
              if Variadic lp
              then bind_args s positional nargs (S i) r (set_out b (appendVariadic (bOut b) (pName lp) a))
              else add_err b (mkArgError (sName s) "" ("takes at most " +:+
                     FormatInt (Z.of_nat (length positional)) +:+ " positional arguments, got " +:+
                     FormatInt (Z.of_nat nargs)))
          | None => add_err b (mkArgError (sName s) "" ("takes at most " +:+
                     FormatInt (Z.of_nat (length positional)) +:+ " positional arguments, got " +:+
                     FormatInt (Z.of_nat nargs)))
          end
      | Some p =>
          if Variadic p
          then bind_args s positional nargs (S i) r (set_out b (appendVariadic (bOut b) (pName p) a))
          else
            match coerce s p a with
            | inl e => bind_args s positional nargs (S i) r (add_err b e)
            | inr v => bind_args s positional nargs (S i) r (bind_to b (pName p) v)
            end
      end
  end.

Definition bind_kwarg (s : Signature) (b : binding) (e : Entry) : binding :=
  let name := KeyString (Key e) in
  match Param_ s name with
  | None =>
      if AnyKwargs s then bind_to b name (Val e)
      else add_err b (mkArgError (sName s) name "is not a parameter of this function")
  | Some p =>
      if bool_decide (name ∈ bUsed b)
      then add_err b (mkArgError (sName s) name "was given both positionally and by keyword")
      else
        match coerce s p (Val e) with
        | inl err => mark (add_err b err) name
        | inr v => bind_to b name v
        end
  end.

Definition bind_default (s : Signature) (b : binding) (p : Param) : binding :=
  if bool_decide (pName p ∈ bUsed b) || Has (bOut b) (VString (pName p)) then b
  else if Required p then add_err b (mkArgError (sName s) (pName p) "is required")
  else if is_nil (Default p) then b
  else set_out b (MSet (bOut b) (VString (pName p)) (Default p)).

Definition positional_of (s : Signature) : list Param := filter (λ p, KeywordOnly p = false) (Params s).

(** [None] is a nil mapping of keyword arguments. *)
Definition Bind (s : Signature) (args : list value) (kwargs : option Map) : Map * list ArgError :=
  let b0 := mkBinding NewMap [] ∅ in
  let b1 := bind_args s (positional_of s) (length args) 0 args b0 in
  let b2 := match kwargs with Some m => foldl (bind_kwarg s) b1 (entries m) | None => b1 end in
  let b3 := foldl (bind_default s) b2 (Params s) in
  (bOut b3, bErrs b3).
End bind.

(** ** The registry of signatures *)

Abbreviation SigRegistry := (gmap string Signature).
Definition sig_Add (r : SigRegistry) (sigs : list Signature) : SigRegistry :=
  foldl (λ r s, <[sName s := s]> r) r sigs.
Definition sig_Names (r : SigRegistry) : list string := merge_sort str_le (elements (dom r)).
Definition sig_Modules (r : SigRegistry) : list string :=
  merge_sort str_le (elements (list_to_set (Module_ ∘ snd <$> map_to_list r) : gset string)).

(** ** What a bound mapping holds *)

Definition typed (p : Param) (v : value) : Prop :=
  match pType p, v with
  | TAny, _ => True
  | (TString | TPath | TMode), VString _ => True
  | TInt, VInt _ => True
  | TFloat, VFloat _ => True
  | TBool, VBool _ => True
  | TList, VSeq _ => True
  | TMap, (VMap _ | VNilMap) => True
  | TDuration, (VString _ | VInt _ | VFloat _) => True
  | _, _ => False
  end.

(** Null is let through for every type; a default is taken as declared; a
    variadic parameter holds the list of its positional values. *)
Definition conforms (p : Param) (v : value) : Prop :=
  v = VNull ∨ v = Default p ∨ (Variadic p = true ∧ ∃ l, v = VSeq l) ∨ typed p v.

Section bind_facts.
Context `{Runtime}.

Lemma CanonKey_string_inj a b : CanonKey (VString a) = CanonKey (VString b) → a = b.
Proof. simpl. by intros [= ?]. Qed.

Lemma Get_MSet_string m a b v :
  map_wf m → Get (MSet m (VString a) v) (VString b) = if decide (a = b) then Some v else Get m (VString b).
Proof.
  intros Hwf. unfold MSet. rewrite Get_SetAt by done.
  destruct (decide (a = b)) as [->|Hab]; [by rewrite decide_True|].
  rewrite decide_False; [done|]. intros Hc. by apply Hab, CanonKey_string_inj.
Qed.

Lemma coerce_typed s p v v' : coerce s p v = inr v' → v' = VNull ∨ typed p v'.
Proof.
  unfold coerce, typed. destruct (pType p), v; simpl; repeat case_match; naive_solver.
Qed.

Lemma find_param_Some name ps p : find_param name ps = Some p → p ∈ ps ∧ pName p = name.
Proof.
  unfold find_param. intros Hp. apply head_Some_elem_of in Hp. apply list_elem_of_filter in Hp. tauto.
Qed.
Lemma find_param_is_Some p ps : p ∈ ps → is_Some (find_param (pName p) ps).
Proof.
  intros Hp. unfold find_param. destruct (filter _ ps) as [|q l] eqn:E; [|by eexists].
  assert (Hin : p ∈ filter (λ q, pName q = pName p) ps) by by apply list_elem_of_filter.
  rewrite E in Hin. by apply elem_of_nil in Hin.
Qed.

Lemma positional_in_params s i p : positional_of s !! i = Some p → p ∈ Params s.
Proof. intros Hp%list_elem_of_lookup_2. apply list_elem_of_filter in Hp. tauto. Qed.

(** A keyword no parameter has the name of, for a function that takes any. *)
Definition kept (s : Signature) (es : list Entry) (n : string) (v : value) : Prop :=
  AnyKwargs s = true ∧ Param_ s n = None ∧ ∃ e, e ∈ es ∧ KeyString (Key e) = n ∧ Val e = v.

(** The mapping is well formed and holds only declared parameters at values
    that conform to their declarations, and keywords that were kept. *)
Definition sound_out (s : Signature) (es : list Entry) (m : Map) : Prop :=
  map_wf m ∧
  (∀ n v, Get m (VString n) = Some v → (∃ p, p ∈ Params s ∧ pName p = n ∧ conforms p v) ∨ kept s es n v).

Lemma sound_out_set s es m p v :
  sound_out s es m → p ∈ Params s → conforms p v → sound_out s es (MSet m (VString (pName p)) v).
Proof.
  intros (Hwf & Hv) Hp Hc. split; [by apply SetAt_wf|].
  intros n w. rewrite Get_MSet_string by done. case_decide; [intros; simplify_eq; eauto|apply Hv].
Qed.

Lemma sound_out_variadic s es m p a :
  sound_out s es m → p ∈ Params s → Variadic p = true → sound_out s es (appendVariadic m (pName p) a).
Proof. intros. apply sound_out_set; [done..|]. right; right; left. eauto. Qed.

Lemma coerce_conforms s p v v' : coerce s p v = inr v' → conforms p v'.
Proof. intros [->|?]%coerce_typed; [by left|by right; right; right]. Qed.

Lemma bind_args_sound s es ps n i args b :
  (∀ p, p ∈ ps → p ∈ Params s) →
  sound_out s es (bOut b) → sound_out s es (bOut (bind_args s ps n i args b)).
Proof.
  intros Hps. revert i b. induction args as [|a args IH]; intros i b Hb; simpl; [done|].
  destruct (ps !! i) as [p|] eqn:Hp.
  - apply list_elem_of_lookup_2, Hps in Hp. destruct (Variadic p) eqn:Hv.
    + by apply IH, sound_out_variadic.
    + destruct (coerce s p a) as [e|v] eqn:Hc; apply IH; [done|].
      apply sound_out_set; [done..|]. by eapply coerce_conforms.
  - destruct (last ps) as [lp|] eqn:Hl; [|done]. destruct (Variadic lp) eqn:Hv; [|done].
    apply last_Some_elem_of, Hps in Hl. by apply IH, sound_out_variadic.
Qed.

Lemma bind_kwarg_sound s es b e :
  e ∈ es → sound_out s es (bOut b) → sound_out s es (bOut (bind_kwarg s b e)).
Proof.
  intros He Hb. unfold bind_kwarg. destruct (Param_ s _) as [p|] eqn:Hp.
  - apply find_param_Some in Hp as [Hp Hn]. case_bool_decide; [done|].
    destruct (coerce s p (Val e)) as [err|v] eqn:Hc; [done|].
    rewrite <-Hn. apply sound_out_set; [done..|]. by eapply coerce_conforms.
  - destruct (AnyKwargs s) eqn:Hany; [|done]. destruct Hb as (Hwf & Hv). split; [by apply SetAt_wf|].
    intros n w. cbn [bOut bind_to]. rewrite Get_MSet_string by done. case_decide; [|apply Hv]. intros [= <-]. right. subst n.
    split_and!; [done..|]. by exists e.
Qed.

Lemma bind_default_sound s es b p :
  p ∈ Params s → sound_out s es (bOut b) → sound_out s es (bOut (bind_default s b p)).
Proof.
  intros Hp Hb. unfold bind_default. repeat case_match; try done.
  apply sound_out_set; [done..|]. right; by left.
Qed.

Definition given (kwargs : option Map) : list Entry := match kwargs with Some m => entries m | None => [] end.

Lemma Bind_sound_out s args kwargs : sound_out s (given kwargs) (Bind s args kwargs).1.
Proof.
  unfold Bind. simpl. apply (foldl_inv (λ b, sound_out s (given kwargs) (bOut b))).
  2: { intros b p Hp. by apply bind_default_sound. }
  assert (H1 : sound_out s (given kwargs) (bOut (bind_args s (positional_of s) (length args) 0 args (mkBinding NewMap [] ∅)))).
  { apply bind_args_sound.
    - intros p Hp%list_elem_of_lookup_1. destruct Hp as [i Hi]. by eapply positional_in_params.
    - split; [apply NewMap_wf|]. intros n v Hg. done. }
  destruct kwargs as [m|]; [|done]. apply (foldl_inv (λ b, sound_out s (entries m) (bOut b))); [done|].
  intros b e He. by apply bind_kwarg_sound.
Qed.

(** *** Calls without errors *)

(** Errors are only ever added. *)
Lemma bind_args_errs s ps n i args b :
  ∃ es, bErrs (bind_args s ps n i args b) = bErrs b ++ es.
Proof.
  revert i b. induction args as [|a args IH]; intros i b; simpl; [exists []; by rewrite app_nil_r|].
  repeat case_match; try (eexists; simpl; reflexivity);
    (edestruct IH as [es ->]; simpl; rewrite <-?app_assoc; eexists; reflexivity).
Qed.
Lemma bind_kwarg_errs s b e : ∃ es, bErrs (bind_kwarg s b e) = bErrs b ++ es.
Proof.
  unfold bind_kwarg. repeat case_match; simpl; try (eexists; reflexivity); exists []; by rewrite app_nil_r.
Qed.
Lemma bind_default_errs s b p : ∃ es, bErrs (bind_default s b p) = bErrs b ++ es.
Proof.
  unfold bind_default. repeat case_match; simpl; try (eexists; reflexivity); exists []; by rewrite app_nil_r.
Qed.

Lemma foldl_errs {B} (f : binding → B → binding) l b :
  (∀ b x, ∃ es, bErrs (f b x) = bErrs b ++ es) → bErrs (foldl f b l) = [] → bErrs b = [].
Proof.
  intros Hf. revert b. induction l as [|x l IH]; intros b Hb; simpl in *; [done|].
  apply IH in Hb. destruct (Hf b x) as [es Hes]. rewrite Hes in Hb. by apply app_eq_nil in Hb as [-> _].
Qed.

(** What holds while no error has been met: the mapping is well formed, and a
    name that is used is in it. *)
Definition clean (b : binding) : Prop :=
  map_wf (bOut b) ∧ (bErrs b = [] → ∀ n, n ∈ bUsed b → is_Some (Get (bOut b) (VString n))).

Lemma clean_bind_to b n v : clean b → clean (bind_to b n v).
Proof.
  intros [Hwf Hu]. split; [by apply SetAt_wf|]. simpl. intros He k.
  rewrite Get_MSet_string by done. case_decide; [eauto|]. intros [?%elem_of_singleton|?]%elem_of_union; [done|auto].
Qed.
Lemma clean_set b n v : clean b → clean (set_out b (MSet (bOut b) (VString n) v)).
Proof.
  intros [Hwf Hu]. split; [by apply SetAt_wf|]. simpl. intros He k Hk.
  rewrite Get_MSet_string by done. case_decide; eauto.
Qed.
Lemma clean_add_err b e : map_wf (bOut b) → clean (add_err b e).
Proof. intros Hwf. split; [done|]. simpl. intros He. by destruct (bErrs b). Qed.
Lemma clean_mark_err b e n : map_wf (bOut b) → clean (mark (add_err b e) n).
Proof. intros Hwf. split; [done|]. simpl. intros He. by destruct (bErrs b). Qed.

Lemma bind_kwarg_clean s b e : clean b → clean (bind_kwarg s b e).
Proof.
  intros Hc. unfold bind_kwarg. repeat case_match;
    first [by apply clean_bind_to | apply clean_add_err, Hc | apply clean_mark_err, Hc].
Qed.
Lemma bind_default_clean s b p : clean b → clean (bind_default s b p).
Proof.
  intros Hc. unfold bind_default. repeat case_match;
    first [done | apply clean_add_err, Hc | by apply clean_set].
Qed.
Lemma bind_args_clean s ps n i args b : clean b → clean (bind_args s ps n i args b).
Proof.
  revert i b. induction args as [|a args IH]; intros i b Hc; simpl; [done|].
  repeat case_match; try apply IH; try (apply clean_add_err, Hc);
    first [by apply clean_set | by apply clean_bind_to].
Qed.

(** Without errors, a positional argument is coerced into its parameter, and
    what was bound before it stays. *)
Lemma bind_args_bound s ps n i args b :
  NoDup (pName <$> ps) → clean b → bErrs (bind_args s ps n i args b) = [] →
  let b' := bind_args s ps n i args b in
  (∀ j p a, ps !! (i + j)%nat = Some p → Variadic p = false → args !! j = Some a →
     ∃ v, coerce s p a = inr v ∧ Get (bOut b') (VString (pName p)) = Some v ∧ pName p ∈ bUsed b') ∧
  (∀ j p, (j < i)%nat → ps !! j = Some p → Variadic p = false →
     Get (bOut b') (VString (pName p)) = Get (bOut b) (VString (pName p)) ∧
     (pName p ∈ bUsed b → pName p ∈ bUsed b')).
Proof.
  intros Hnd. revert i b. induction args as [|a args IH]; intros i b Hc He; cbn zeta; simpl in *; [done|].
  assert (Hdiff : ∀ j p q k, ps !! j = Some p → ps !! k = Some q → pName p = pName q → j = k).
  { intros j p q k Hj Hk Heq. eapply (NoDup_lookup _ _ _ (pName p)); [done|rewrite list_lookup_fmap..].
    - by rewrite Hj.
    - by rewrite Hk, Heq. }
  assert (Hvar : ∀ vp v, vp ∈ ps → Variadic vp = true →
    bErrs (bind_args s ps n (S i) args (set_out b (MSet (bOut b) (VString (pName vp)) v))) = [] →
    (ps !! i = None ∨ ps !! i = Some vp) →
    let b' := bind_args s ps n (S i) args (set_out b (MSet (bOut b) (VString (pName vp)) v)) in
    (∀ j p a', ps !! (i + j)%nat = Some p → Variadic p = false → (a :: args) !! j = Some a' →
     ∃ v, coerce s p a' = inr v ∧ Get (bOut b') (VString (pName p)) = Some v ∧ pName p ∈ bUsed b') ∧
    (∀ j p, (j < i)%nat → ps !! j = Some p → Variadic p = false →
     Get (bOut b') (VString (pName p)) = Get (bOut b) (VString (pName p)) ∧
     (pName p ∈ bUsed b → pName p ∈ bUsed b'))).
  { intros vp v [k Hk]%list_elem_of_lookup_1 Hv Herr Hi. cbn zeta.
    destruct (IH (S i) (set_out b (MSet (bOut b) (VString (pName vp)) v))) as [H1 H2];
      [by apply clean_set|done|]. cbn zeta in *. split.
    - intros [|j] p a' Hp Hnv Ha; simpl in Ha.
      + rewrite Nat.add_0_r in Hp. destruct Hi; congruence.
      + apply (H1 j); [|done..]. by rewrite Nat.add_succ_comm.
    - intros j p Hj Hp Hnv. destruct (H2 j p) as [H3 H4]; [lia|done..|]. split; [|done].
      rewrite H3. simpl. rewrite Get_MSet_string by apply Hc. rewrite decide_False; [done|].
      intros Heq. rewrite (Hdiff _ _ _ _ Hk Hp Heq) in Hk. congruence. }
  destruct (ps !! i) as [p|] eqn:Hp.
  - destruct (Variadic p) eqn:Hv.
    { apply Hvar; [by eapply list_elem_of_lookup_2|done|done|by right]. }
    destruct (coerce s p a) as [e|v] eqn:Hco.
    { destruct (bind_args_errs s ps n (S i) args (add_err b e)) as [es Hes]. rewrite Hes in He.
      simpl in He. by destruct (bErrs b). }
    destruct (IH (S i) (bind_to b (pName p) v)) as [H1 H2]; [by apply clean_bind_to|done|].
    cbn zeta in *. split.
    + intros [|j] q a' Hq Hnv Ha; simpl in Ha.
      * rewrite Nat.add_0_r in Hq. simplify_eq. exists v. split; [done|].
        destruct (H2 i p) as [H3 H4]; [lia|done..|]. rewrite H3. simpl in *.
        rewrite Get_MSet_string, decide_True by (done || apply Hc). split; [done|]. apply H4. set_solver.
      * apply (H1 j); [|done..]. by rewrite Nat.add_succ_comm.
    + intros j q Hj Hq Hnv. destruct (H2 j q) as [H3 H4]; [lia|done..|]. rewrite H3. simpl in *.
      rewrite Get_MSet_string by apply Hc. rewrite decide_False.
      * split; [done|]. set_solver.
      * intros Heq. pose proof (Hdiff _ _ _ _ Hp Hq Heq). lia.
  - destruct (last ps) as [lp|] eqn:Hl; [|simpl in He; by destruct (bErrs b)].
    destruct (Variadic lp) eqn:Hv; [|simpl in He; by destruct (bErrs b)].
    apply Hvar; [by apply last_Some_elem_of|done|done|by left].
Qed.

(** Without errors, a keyword is coerced into its parameter or kept, and a
    parameter used before stays. *)
Lemma bind_kwarg_step s b e :
  bErrs (bind_kwarg s b e) = [] →
  (∃ p v, Param_ s (KeyString (Key e)) = Some p ∧ (KeyString (Key e) ∉ bUsed b) ∧
     coerce s p (Val e) = inr v ∧ bind_kwarg s b e = bind_to b (KeyString (Key e)) v) ∨
  (AnyKwargs s = true ∧ Param_ s (KeyString (Key e)) = None ∧ bind_kwarg s b e = bind_to b (KeyString (Key e)) (Val e)).
Proof.
  unfold bind_kwarg. destruct (Param_ s _) as [p|] eqn:Hp.
  - case_bool_decide; [simpl; by destruct (bErrs b)|]. destruct (coerce s p (Val e)) as [err|v] eqn:Hc; [simpl; by destruct (bErrs b)|].
    intros _. left. by exists p, v.
  - destruct (AnyKwargs s) eqn:Ha; [|simpl; by destruct (bErrs b)]. intros _. by right.
Qed.

Lemma bind_kwargs_bound s es b :
  clean b → bErrs (foldl (bind_kwarg s) b es) = [] →
  let b' := foldl (bind_kwarg s) b es in
  (∀ e, e ∈ es → (∃ p v, Param_ s (KeyString (Key e)) = Some p ∧ coerce s p (Val e) = inr v ∧
     Get (bOut b') (VString (pName p)) = Some v) ∨
     ∃ v, kept s es (KeyString (Key e)) v ∧ Get (bOut b') (VString (KeyString (Key e))) = Some v) ∧
  (∀ n, n ∈ bUsed b → Get (bOut b') (VString n) = Get (bOut b) (VString n) ∨
     ∃ v, kept s es n v ∧ Get (bOut b') (VString n) = Some v).
Proof.
  assert (∀ e es n v, kept s es n v → kept s (e :: es) n v) as Hmore.
  { intros e es' n v (Ha & Hp & e' & He' & Hk). split_and!; [done..|]. exists e'. split; [by right|done]. }
  revert b. induction es as [|e es IH]; intros b Hc He; cbn zeta; simpl in *; [split; [by intros e ?%elem_of_nil|auto]|].
  destruct (IH (bind_kwarg s b e)) as [H1 H2]; [by apply bind_kwarg_clean|done|]. cbn zeta in *.
  apply (foldl_errs _ _ _ (bind_kwarg_errs s)) in He.
  assert (∃ v, bind_kwarg s b e = bind_to b (KeyString (Key e)) v ∧
    (kept s (e :: es) (KeyString (Key e)) v ∨ ((KeyString (Key e) ∉ bUsed b) ∧
       ∃ p, Param_ s (KeyString (Key e)) = Some p ∧ coerce s p (Val e) = inr v))) as (v & Hb & Hv).
  { destruct (bind_kwarg_step s b e He) as [(p & v & Hp & Hu & Hco & Hb)|(Ha & Hp & Hb)]; eexists; (split; [exact Hb|]).
    - right. split; [done|]. by exists p.
    - left. split_and!; [done..|]. exists e. split; [by left|done]. }
  rewrite Hb in H1, H2 |- *.
  assert (Huse : ∀ n, n = KeyString (Key e) ∨ n ∈ bUsed b → n ∈ bUsed (bind_to b (KeyString (Key e)) v)) by (cbn; set_solver).
  assert (Hhere : Get (bOut (bind_to b (KeyString (Key e)) v)) (VString (KeyString (Key e))) = Some v).
  { simpl. by rewrite Get_MSet_string, decide_True by (done || apply Hc). }
  split.
  - intros e' [->|He']%elem_of_cons; [|destruct (H1 e' He') as [?|(w & Hk & Hg)]; eauto 10].
    destruct (H2 (KeyString (Key e))) as [Hs|(w & Hk & Hg)]; [auto|rewrite Hhere in Hs|right; eauto].
    destruct Hv as [Hk|(_ & p & Hp & Hco)]; [right; eauto|left]. exists p, v. pose proof (find_param_Some _ _ _ Hp) as [_ ->]. by split_and!.
  - intros n Hnu. destruct (H2 n) as [Hs|(w & Hk & Hg)]; [auto| |right; eauto].
    simpl in Hs. rewrite Get_MSet_string in Hs by apply Hc. case_decide as Hn; [|by left]. subst n.
    destruct Hv as [Hk|[? _]]; [|done]. right. exists v. split; [done|]. exact Hs.
Qed.

(** Filling in the defaults keeps what was bound, and leaves no required
    parameter out. *)
Lemma bind_defaults_bound s ps b :
  clean b → bErrs (foldl (bind_default s) b ps) = [] →
  let b' := foldl (bind_default s) b ps in
  (∀ p, p ∈ ps → Required p = true → is_Some (Get (bOut b') (VString (pName p)))) ∧
  (∀ n v, Get (bOut b) (VString n) = Some v → Get (bOut b') (VString n) = Some v).
Proof.
  revert b. induction ps as [|p ps IH]; intros b Hc He; cbn zeta; simpl in *; [split; [by intros p ?%elem_of_nil|done]|].
  destruct (IH (bind_default s b p)) as [H1 H2]; [by apply bind_default_clean|done|]. cbn zeta in *.
  apply (foldl_errs _ _ _ (bind_default_errs s)) in He.
  assert (Hkeep : ∀ n v, Get (bOut b) (VString n) = Some v →
    Get (bOut (bind_default s b p)) (VString n) = Some v).
  { intros n v Hg. unfold bind_default. destruct (_ || _) eqn:E; [done|].
    destruct (Required p); [done|]. destruct (is_nil _); [done|].
    simpl. rewrite Get_MSet_string by apply Hc. destruct (decide (pName p = n)); [|done]. subst.
    apply orb_false_iff in E as [_ E%bool_decide_eq_false]. by destruct E; eexists. }
  split; [|auto]. intros q [->|Hq]%elem_of_cons Hr; [|auto].
  assert (is_Some (Get (bOut (bind_default s b p)) (VString (pName p)))) as [v Hv]; [|by eexists; apply H2].
  unfold bind_default in He |- *. destruct (bool_decide (pName p ∈ bUsed b)) eqn:Hu; simpl in *.
  - apply Hc; [done|]. by apply bool_decide_eq_true in Hu.
  - destruct (Has _ _) eqn:Hh; simpl in *; [by apply bool_decide_eq_true in Hh|].
    rewrite Hr in He. simpl in He. by destruct (bErrs b).
Qed.

End bind_facts.

(** ** Witnesses *)

#[local] Existing Instance demo_runtime.

Definition demo_sig : Signature :=
  mkSignature "pkg" "installed" "" [
    mkParam "name" TString true VNull "" false false [] "";
    mkParam "version" TString false VNull "" false true [] "";
    mkParam "refresh" TBool false (VBool true) "" false true [] ""]
  true TestReliable [] [PrivRoot] false false "" "".


(** A positional argument of the wrong type is reported twice: as the wrong
    type, and as missing. *)
Lemma positional_reported_twice :
  (Bind demo_sig [VSeq []] None).2 =
    [mkArgError "pkg.installed" "name" "must be a string, found sequence";
     mkArgError "pkg.installed" "name" "is required"].
Proof. reflexivity. Qed.
