(* ===== verification/States.v ===== *)
(** * Package states: results and the registry of state functions

    Models src/internal/states/states.go, and of src/internal/exec/exec.go the
    fields of Context the runner binds.  A state function acts on a world of
    type [S], which stands for the machine; what it does there is a
    parameter. *)

From S2P Require Import Prelude GoLib Value Signature.

Open Scope Z_scope.

(** ** Results *)

(** [Result_] is the source's [*bool]: [None] is test mode's "would change".
    [Changes] is [None] for a nil mapping. *)
Record Result := mkResult {
  rName : string;
  Result_ : option bool;
  Changes : option Map;
  Comment_ : string;
  rWarnings : list string }.

Definition zeroResult : Result := mkResult "" None None "" [].
Definition True_ (comment : string) : Result := mkResult "" (Some true) (Some NewMap) comment [].
Definition False_ (comment : string) : Result := mkResult "" (Some false) (Some NewMap) comment [].
Definition Changed_ (comment : string) (changes : option Map) : Result :=
  mkResult "" (Some true) (Some (default NewMap changes)) comment [].
Definition WouldChange (comment : string) (changes : option Map) : Result :=
  mkResult "" None (Some (default NewMap changes)) comment [].
Definition Change `{Runtime} (old new : value) : Map := MapOf [(VString "old", old); (VString "new", new)].

Definition set_rName (r : Result) (n : string) : Result :=
  mkResult n (Result_ r) (Changes r) (Comment_ r) (rWarnings r).
Definition set_Comment (r : Result) (c : string) : Result :=
  mkResult (rName r) (Result_ r) (Changes r) c (rWarnings r).
Definition set_Changes (r : Result) (c : option Map) : Result :=
  mkResult (rName r) (Result_ r) c (Comment_ r) (rWarnings r).

Definition HasChanges (r : Result) : bool :=
  match Changes r with Some m => (0 <? Len m)%nat | None => false end.
Definition Succeeded (r : Result) : bool := match Result_ r with Some b => b | None => true end.
Definition Failed (r : Result) : bool := match Result_ r with Some b => negb b | None => false end.
Definition ResultString (r : Result) : string :=
  match Result_ r with
  | None => "would change"
  | Some true => "succeeded"
  | Some false => "failed"
  end.

Lemma Failed_not_Succeeded r : Failed r = negb (Succeeded r).
Proof. unfold Failed, Succeeded. by destruct (Result_ r) as [[]|]. Qed.

(** ** The context of a call *)

(** The fields of exec.Context that the runner sets; [cxTimeouts] are the
    deadlines put on its cancellation context. *)
Record Context := mkContext {
  cxTest : bool;
  cxStateID : string;
  cxReaction : string;
  cxWatchChanged : list string;
  cxRunAs : string;
  cxUmask : string;
  cxCheckCmd : list string;
  cxTimeouts : list Z }.

Definition ReactionWatch : string := "watch".
Definition ReactionListen : string := "listen".

Definition with_Test (c : Context) (t : bool) : Context :=
  mkContext t (cxStateID c) (cxReaction c) (cxWatchChanged c) (cxRunAs c) (cxUmask c)
    (cxCheckCmd c) (cxTimeouts c).
Definition with_Timeout (c : Context) (d : Z) : Context :=
  mkContext (cxTest c) (cxStateID c) (cxReaction c) (cxWatchChanged c) (cxRunAs c) (cxUmask c)
    (cxCheckCmd c) (d :: cxTimeouts c).

(** ** The registry *)

Section registry.
Context `{Runtime} {S : Type}.

(** An error is its text. *)
Definition StateFunc : Type := Context → Map → World.T S (string + Result).

Record Module := mkModule { Sig : Signature; Fn : StateFunc; ModWatch : option StateFunc }.

Record Registry := mkRegistry { fns : gmap string Module; sigs : SigRegistry }.
Definition NewRegistry : Registry := mkRegistry ∅ ∅.

(** Add; [None] is the panic on a name registered twice. *)
Definition reg_Add1 (r : Registry) (m : Module) : option Registry :=
  let name := sName (Sig m) in
  match fns r !! name with
  | Some _ => None
  | None => Some (mkRegistry (<[name := m]> (fns r)) (sig_Add (sigs r) [Sig m]))
  end.
Fixpoint reg_Add (r : Registry) (mods : list Module) : option Registry :=
  match mods with
  | [] => Some r
  | m :: rest => r' ← reg_Add1 r m; reg_Add r' rest
  end.

Definition reg_Lookup (r : Registry) (name : string) : option Module := fns r !! name.
Definition reg_Has (r : Registry) (name : string) : bool := bool_decide (is_Some (fns r !! name)).

(** The body Call and CallWatch share, over the choice of the function. *)
Definition call_with (pick : Module → StateFunc) (goos : string) (r : Registry) (c : Context)
    (name : string) (args : Map) : World.T S (string + Result) := λ w,
  match fns r !! name with
  | None => (inl (Quote name +:+ " is not a state function this build ships"), w)
  | Some m =>
      match CheckPlatform goos (Sig m) with
      | Some err => (inl (PlatformError_Error err), w)
      | None =>
          let '(bound, errs) := Bind (Sig m) [] (Some args) in
          if bool_decide (length errs = 0%nat) then pick m c bound w
          else (inl (name +:+ ": " +:+ Join (ArgError_Error <$> errs) "; "), w)
      end
  end.
Definition Call := call_with Fn.
Definition CallWatch := call_with (λ m, default (Fn m) (ModWatch m)).

Definition OwnsCheckCmd (r : Registry) (name : string) : bool :=
  match reg_Lookup r name with
  | None => false
  | Some m => existsb (λ p, bool_decide (pName p = "check_cmd")) (Params (Sig m))
  end.
Definition SupportsWatch (r : Registry) (name : string) : bool :=
  match fns r !! name with
  | Some m => bool_decide (is_Some (ModWatch m))
  | None => false
  end.

(** *** Reading bound arguments *)

Definition Str (args : Map) (name def : string) : string :=
  match Get args (VString name) with
  | None | Some VNull => def
  | Some v => KeyString v
  end.
Definition Bool_ (args : Map) (name : string) (def : bool) : bool :=
  match Get args (VString name) with
  | None | Some VNull => def
  | Some v => Truthy v
  end.
(** Conversion of an out-of-range float, which the language leaves to the
    implementation, gives the default here. *)
Definition Int_ (args : Map) (name : string) (def : Z) : Z :=
  match Get args (VString name) with
  | Some (VInt t) => t
  | Some (VFloat t) => default def (f64_trunc t)
  | _ => def
  end.
Definition Strings (args : Map) (name : string) : list string :=
  match Get args (VString name) with
  | Some (VString t) => [t]
  | Some (VSeq t) => KeyString <$> t
  | _ => []
  end.
Definition Mapping (args : Map) (name : string) : option Map :=
  match Get args (VString name) with Some (VMap m) => Some m | _ => None end.
Definition SortedNames (l : list string) : string := Join (merge_sort str_le l) ", ".

(** ** The registry's invariant *)

(** A function is under the name of its own signature, and the signatures
    that the state compiler validates against are those of the functions. *)
Definition registry_wf (r : Registry) : Prop :=
  (∀ name m, fns r !! name = Some m → sName (Sig m) = name) ∧
  (∀ name, sigs r !! name = Sig <$> fns r !! name).

Lemma reg_Add1_wf r m r' :
  registry_wf r → reg_Add1 r m = Some r' →
  registry_wf r' ∧ fns r !! sName (Sig m) = None ∧ fns r' = <[sName (Sig m) := m]> (fns r).
Proof.
  intros [Hn Hs]. unfold reg_Add1. destruct (fns r !! sName (Sig m)) eqn:E; [done|].
  intros ?; simplify_eq/=. split_and!; [|done..]. split; simpl.
  - intros name m'. rewrite lookup_insert_Some. naive_solver.
  - intros name. unfold sig_Add. simpl. destruct (decide (sName (Sig m) = name)) as [->|?].
    + by rewrite !lookup_insert_eq.
    + rewrite !lookup_insert_ne by done. apply Hs.
Qed.

(** Registering modules keeps the registry and its signatures in step, and
    never overwrites: it succeeds exactly when all names are new and distinct,
    and then holds the old functions and the new ones. *)
Theorem reg_Add_spec r mods :
  registry_wf r →
  (is_Some (reg_Add r mods) ↔
     NoDup (sName ∘ Sig <$> mods) ∧ ∀ m, m ∈ mods → fns r !! sName (Sig m) = None) ∧
  ∀ r', reg_Add r mods = Some r' →
    registry_wf r' ∧
    (∀ name m, fns r' !! name = Some m ↔
       fns r !! name = Some m ∨ (m ∈ mods ∧ sName (Sig m) = name)).
Proof.
  revert r. induction mods as [|m mods IH]; intros r Hwf; simpl.
  { split; [split; [intros _; split; [constructor|by intros m ?%elem_of_nil]|by eexists]|].
    intros r' ?; simplify_eq. split; [done|]. intros name m. split; [intros ?; by left|].
    intros [?|[?%elem_of_nil _]]; done. }
  destruct (reg_Add1 r m) as [r1|] eqn:E; simpl.
  - destruct (reg_Add1_wf _ _ _ Hwf E) as (Hwf1 & Hnew & Hf). destruct (IH r1 Hwf1) as [IH1 IH2].
    split.
    + rewrite IH1, Hf, NoDup_cons. setoid_rewrite lookup_insert_None.
      setoid_rewrite elem_of_cons. rewrite list_elem_of_fmap. naive_solver.
    + intros r' Hr'. destruct (IH2 r' Hr') as [Hw Hl]. split; [done|]. intros name m'.
      rewrite Hl, Hf, lookup_insert_Some, elem_of_cons. destruct (decide (sName (Sig m) = name)); naive_solver.
  - unfold reg_Add1 in E. destruct (fns r !! sName (Sig m)) eqn:E'; [|done]. split; [|done].
    split; [by intros []|]. intros [_ Hm]. rewrite Hm in E' by left. done.
Qed.
End registry.
Arguments Module : clear implicits.
Arguments Registry : clear implicits.
Arguments StateFunc : clear implicits.

(** A module that does nothing, registered once and not twice. *)
Definition noop_module : Module unit :=
  mkModule (mkSignature "test" "nop" "" [] false TestReliable [] [] false false "" "") (λ _ _ w, (inl "", w)) None.

Lemma reg_Add_spec_witness :
  is_Some (reg_Add NewRegistry [noop_module]) ∧ ¬ is_Some (reg_Add NewRegistry [noop_module; noop_module]).
Proof.
  assert (Hw : registry_wf (NewRegistry (S:=unit))) by by split.
  destruct (reg_Add_spec NewRegistry [noop_module] Hw) as [H1 _].
  destruct (reg_Add_spec NewRegistry [noop_module; noop_module] Hw) as [H2 _]. split.
  - apply H1. split; [apply NoDup_singleton|]. intros m _. reflexivity.
  - rewrite H2. intros [Hn _]. inversion_clear Hn as [|? ? Hx]. apply Hx. by left.
Defined.
