(* ===== verification/Runner.v ===== *)
(** * Package runner: executing a low state

    Models src/internal/runner/runner.go, util.go and the counting part of
    schema.go.  The runner's code is written in the monad [World.M] over a
    world [S]: [None] is an index panic.  What lies outside it (state
    functions, commands, the clock, the file system, randomness, tracing) is a
    record of operations on the world.  A time or a duration is in
    nanoseconds. *)

From S2P Require Import Prelude GoLib Value StateTypes Signature States.

Open Scope Z_scope.

Record StateResult := mkSR {
  srChunk : Chunk;
  srResult : Result;
  srRunNum : nat;
  StartTime : Z;
  Duration : Z;
  Skipped : bool }.

Record RunResult := mkRR {
  Results : list StateResult;
  Aborted : bool;
  AbortedBy : string;
  Started : Z;
  rrDuration : Z }.

(** [rr_Failed] and [rr_Changed] are the methods Failed and Changed. *)
Definition rr_Failed (r : RunResult) : bool := existsb (λ s, Failed (srResult s)) (Results r).
Definition rr_Changed (r : RunResult) : bool := existsb (λ s, HasChanges (srResult s)) (Results r).
Definition RetCode (r : RunResult) : Z :=
  if rr_Failed r then 1 else if negb (rr_Changed r) then 2 else 0.

(** The counts of schema.go's Summarise. *)
Record Summary := mkSummary {
  sumSucceeded : nat; sumFailed : nat; sumChanged : nat; WouldHave : nat; sumSkipped : nat; Total : nat;
  sumDuration : Z }.

Definition count_one (s : Summary) (res : StateResult) : Summary :=
  let r := srResult res in
  let s := if Failed r
           then mkSummary (sumSucceeded s) (S (sumFailed s)) (sumChanged s) (WouldHave s) (sumSkipped s) (Total s) (sumDuration s)
           else if bool_decide (Result_ r = None)
           then mkSummary (sumSucceeded s) (sumFailed s) (sumChanged s) (S (WouldHave s)) (sumSkipped s) (Total s) (sumDuration s)
           else mkSummary (S (sumSucceeded s)) (sumFailed s) (sumChanged s) (WouldHave s) (sumSkipped s) (Total s) (sumDuration s) in
  let s := if HasChanges r && bool_decide (Result_ r ≠ None)
           then mkSummary (sumSucceeded s) (sumFailed s) (S (sumChanged s)) (WouldHave s) (sumSkipped s) (Total s) (sumDuration s)
           else s in
  if Skipped res
  then mkSummary (sumSucceeded s) (sumFailed s) (sumChanged s) (WouldHave s) (S (sumSkipped s)) (Total s) (sumDuration s)
  else s.
Definition Summarise (r : RunResult) : Summary :=
  foldl count_one (mkSummary 0 0 0 0 0 (length (Results r)) (rrDuration r)) (Results r).

Lemma count_fold l s :
  let s' := foldl count_one s l in
  (sumSucceeded s' + sumFailed s' + WouldHave s' =
     sumSucceeded s + sumFailed s + WouldHave s + length l)%nat ∧
  (sumFailed s' = sumFailed s + length (filter (λ x, Failed (srResult x) = true) l))%nat ∧
  Total s' = Total s.
Proof.
  revert s. induction l as [|x l IH]; intros s; simpl; [lia|].
  destruct (IH (count_one s x)) as (H1 & H2 & H3). cbn zeta in *. rewrite H1, H2, H3. clear.
  rewrite filter_cons. unfold count_one. cbn zeta.
  destruct (Failed (srResult x)); destruct (bool_decide (Result_ (srResult x) = None));
    destruct (HasChanges _ && _); destruct (Skipped x); simpl; lia.
Qed.

(** The exit status and the summary line agree with the results: the
    status is 1 if and only if the summary counts a failure, 2 if and only if
    nothing failed and nothing changed, and 0 otherwise; succeeded, failed and
    would-have-changed partition the run. *)
Theorem summary_and_status r :
  (RetCode r = 1 ↔ (0 < sumFailed (Summarise r))%nat) ∧
  (RetCode r = 2 ↔ sumFailed (Summarise r) = 0%nat ∧ rr_Changed r = false) ∧
  (RetCode r = 0 ↔ sumFailed (Summarise r) = 0%nat ∧ rr_Changed r = true) ∧
  (sumSucceeded (Summarise r) + sumFailed (Summarise r) + WouldHave (Summarise r) = length (Results r))%nat ∧
  Total (Summarise r) = length (Results r).
Proof.
  unfold Summarise. destruct (count_fold (Results r) (mkSummary 0 0 0 0 0 (length (Results r)) (rrDuration r)))
    as (H1 & H2 & H3). cbn zeta in *. simpl in H1, H2, H3. rewrite H1, H2, H3. unfold RetCode.
  assert (Hf : rr_Failed r = bool_decide (0 < length (filter (λ x, Failed (srResult x) = true) (Results r)))%nat).
  { unfold rr_Failed. clear. induction (Results r) as [|x l IH]; [done|]. simpl. rewrite filter_cons, IH.
    by destruct (Failed (srResult x)). }
  rewrite Hf. case_bool_decide; destruct (rr_Changed r); simpl; split_and!; try split; try lia; intros; try lia; naive_solver lia.
Qed.

(** ** Outside the runner *)

Record Command := mkCommand {
  Argv : list string; Shell : bool; cmdRunAs : string; cmdUmask : string; IgnoreExitCode : bool }.

Inductive span_op :=
| StartSpan (name : string)
| SetAttr (key : string) (v : string + bool)
| SetStatus (ok : bool) (msg : string)
| EndSpan.

Section runner.
Context `{Runtime} {S : Type}.
Import World.
Abbreviation T := (World.T S).
Abbreviation M := (World.M S).

Record Outside := mkOutside {
  GOOS : string;
  Geteuid : Z;
  ctx_Run : Context → Command → T (string + Z);
  exec_CallPositional : Context → string → list value → Map → T (string + value);
  Lstat : string → T bool;
  Now : T Z;
  Sleep : Z → T unit;
  rand_Read : T (option (list Z));
  Span : span_op → T unit;
  Progress : Chunk → nat → nat → T unit }.

Record Runner := mkRunner {
  rStates : Registry S;
  rOut : Outside;
  rCtx : Context;
  rFailHard : bool;
  Seed : gmap string Result }.

Implicit Types (r : Runner) (ch : Chunk).

(** time.Time.Sub saturates. *)
Definition time_Sub (a b : Z) : Z := Z.max minInt64 (Z.min maxInt64 (a - b)).

(** ** Requisite predicates *)

Abbreviation results_t := (list (option StateResult)).

(** [results[idx]] for an index that may be out of range or not yet run. *)
Definition result_at (results : results_t) (idx : nat) : option StateResult := mjoin (results !! idx).

Definition changed (idx : nat) (results : results_t) : bool :=
  match result_at results idx with Some s => HasChanges (srResult s) | None => false end.
Definition anyChanged (targets : list nat) (results : results_t) : bool :=
  existsb (λ idx, changed idx results) targets.
Definition allChanged (targets : list nat) (results : results_t) : bool :=
  negb (bool_decide (targets = [])) && forallb (λ idx, changed idx results) targets.
Definition succeeded_at (results : results_t) (idx : nat) : bool :=
  match result_at results idx with
  | Some s => Succeeded (srResult s) && negb (Skipped s)
  | None => false
  end.
Definition anySucceeded (targets : list nat) (results : results_t) : bool :=
  existsb (succeeded_at results) targets.
Definition failed_at (results : results_t) (idx : nat) : bool :=
  match result_at results idx with Some s => Failed (srResult s) | None => false end.
Definition anyFailed (targets : list nat) (results : results_t) : bool :=
  existsb (failed_at results) targets.
Definition allFailed (targets : list nat) (results : results_t) : bool :=
  negb (bool_decide (targets = [])) && forallb (failed_at results) targets.

Definition describe ch : string := cID ch +:+ " (" +:+ Func ch +:+ ")".
Definition describeAll (chunks : list Chunk) (targets : list nat) : string :=
  Join (omap (λ idx, describe <$> chunks !! idx) targets) ", ".

(** ** Requisite gating *)

Record reaction := mkReaction { react_kind : string; react_changed : list string }.
Definition noReaction : reaction := mkReaction "" [].

Record decision := mkDecision { skip : bool; dResult : Result; dReaction : reaction }.
Definition skip_with (res : Result) : decision := mkDecision true res noReaction.

(** What evaluateRequisites has seen so far. *)
Record seen := mkSeen {
  sawOnChanges : bool; onChangesSatisfied : bool;
  sawOnFail : bool; onFailSatisfied : bool;
  watchFired : bool; watchChanged : list string }.
Definition seen0 : seen := mkSeen false false false false false [].
Definition see_onchanges (s : seen) (ok : bool) : seen :=
  mkSeen true (onChangesSatisfied s || ok) (sawOnFail s) (onFailSatisfied s) (watchFired s) (watchChanged s).
Definition see_onfail (s : seen) (ok : bool) : seen :=
  mkSeen (sawOnChanges s) (onChangesSatisfied s) true (onFailSatisfied s || ok) (watchFired s) (watchChanged s).
Definition see_watch (s : seen) (fired : bool) (l : list string) : seen :=
  mkSeen (sawOnChanges s) (onChangesSatisfied s) (sawOnFail s) (onFailSatisfied s)
    (watchFired s || fired) (watchChanged s ++ l).

(** prereqWouldChange: each target is called in test mode until one predicts
    a change or cannot be evaluated. *)
Fixpoint prereqWouldChange r (chunks : list Chunk) (targets : list nat) : M bool :=
  match targets with
  | [] => mret false
  | idx :: rest =>
      target ← index chunks idx;
      res ← lift (Call (GOOS (rOut r)) (rStates r) (with_Test (rCtx r) true) (Func target) (Args target));
      match res with
      | inl _ => mret true
      | inr res =>
          if bool_decide (Result_ res = None) || HasChanges res then mret true
          else prereqWouldChange r chunks rest
      end
  end.

(** The first target of a require that has failed.  A target out of range is
    a panic, one that has not run is passed over. *)
Fixpoint first_failed (targets : list nat) (results : results_t) : M (option nat) :=
  match targets with
  | [] => mret None
  | idx :: rest =>
      res ← index results idx;
      match res with
      | Some s => if Failed (srResult s) then mret (Some idx) else first_failed rest results
      | None => first_failed rest results
      end
  end.

(** The names of the watched targets that changed. *)
Fixpoint watch_names (chunks : list Chunk) (targets : list nat) (results : results_t)
    : M (list string) :=
  match targets with
  | [] => mret []
  | idx :: rest =>
      if changed idx results then
        c ← index chunks idx;
        l ← watch_names chunks rest results;
        mret ((cState c +:+ ": " +:+ cID c) :: l)
      else watch_names chunks rest results
  end.

(** One requisite: a decision, or what has been seen. *)
Definition evaluate_req r (chunks : list Chunk) (results : results_t) (req : Req) (s : seen)
    : M (decision + seen) :=
  let targets := Resolved req in
  if bool_decide (targets = []) then mret (inr s)
  else
    match rKind req with
    | Require_ | Watch =>
        failed ← first_failed targets results;
        match failed with
        | Some idx =>
            c ← index chunks idx;
            mret (inl (skip_with (False_ ("This state was skipped because " +:+ describe c +:+ " failed."))))
        | None =>
            if bool_decide (rKind req = Watch) then
              l ← watch_names chunks targets results;
              mret (inr (see_watch s (anyChanged targets results) l))
            else mret (inr s)
        end
    | RequireAny | WatchAny =>
        if negb (anySucceeded targets results) then
          mret (inl (skip_with (False_ ("This state was skipped because none of " +:+
            describeAll chunks targets +:+ " succeeded."))))
        else
          mret (inr (see_watch s (bool_decide (rKind req = WatchAny) && anyChanged targets results) []))
    | OnChanges => mret (inr (see_onchanges s (allChanged targets results)))
    | OnChangesAny => mret (inr (see_onchanges s (anyChanged targets results)))
    | OnFail | OnFailAny => mret (inr (see_onfail s (anyFailed targets results)))
    | OnFailAll => mret (inr (see_onfail s (allFailed targets results)))
    | Prereq =>
        would ← prereqWouldChange r chunks targets;
        if negb would then
          mret (inl (skip_with (True_ ("This state was skipped because " +:+
            describeAll chunks targets +:+ " would make no changes."))))
        else mret (inr s)
    | Listen | Use_ => mret (inr s)
    end.

Definition conclude (s : seen) : decision :=
  if sawOnChanges s && negb (onChangesSatisfied s) then
    skip_with (True_ "This state was skipped because none of its onchanges requisites reported changes.")
  else if sawOnFail s && negb (onFailSatisfied s) then
    skip_with (True_ "This state was skipped because none of its onfail requisites failed.")
  else if negb (watchFired s) then mkDecision false zeroResult noReaction
  else mkDecision false zeroResult (mkReaction ReactionWatch (watchChanged s)).

Fixpoint evaluate_reqs r (chunks : list Chunk) (results : results_t) (reqs : list Req) (s : seen)
    : M decision :=
  match reqs with
  | [] => mret (conclude s)
  | req :: rest =>
      d ← evaluate_req r chunks results req s;
      match d with
      | inl d => mret d
      | inr s' => evaluate_reqs r chunks results rest s'
      end
  end.
Definition evaluateRequisites r ch (chunks : list Chunk) (results : results_t) : M decision :=
  evaluate_reqs r chunks results (Reqs ch) seen0.

(** ** The gates unless, onlyif and creates *)

Definition shell_command ch (cmd : string) : Command :=
  mkCommand [cmd] true (RunAs (Opts ch)) (Umask (Opts ch)) true.

Definition mustGet (m : Map) (key : string) : value := default VNull (Get m (VString key)).

Definition cond_map r (t : Map) : M (string + bool) :=
  let fnName := KeyString (mustGet t "fun") in
  if bool_decide (fnName = "") then
    mret (inl "a structured condition needs a `fun` naming a module function")
  else
    let callArgs := match Get t (VString "kwargs") with
                    | Some (VMap m) => foldl set_entry NewMap (entries m)
                    | _ => NewMap
                    end in
    let positional := match Get t (VString "args") with Some (VSeq l) => l | _ => [] end in
    out ← lift (exec_CallPositional (rOut r) (rCtx r) fnName positional callArgs);
    mret (match out with inl err => inl err | inr v => inr (Truthy v) end).

Definition evalCondition r ch (cond : value) : M (string + bool) :=
  match cond with
  | VString t =>
      res ← lift (ctx_Run (rOut r) (rCtx r) (shell_command ch t));
      mret (match res with inl err => inl err | inr code => inr (code =? 0) end)
  | VMap t => cond_map r t
  | VNilMap => cond_map r NewMap
  | VBool t => mret (inr t)
  | _ => mret (inl ("a condition must be a command string, a list, or a `{fun: ...}` mapping, found "
           +:+ TypeName cond))
  end.

Fixpoint gate_creates r (paths : list string) : M (option Result) :=
  match paths with
  | [] => mret None
  | path :: rest =>
      ex ← lift (Lstat (rOut r) path);
      if ex : bool
      then mret (Some (True_ ("This state was skipped because " +:+ path +:+ " already exists.")))
      else gate_creates r rest
  end.

(** The loops over unless and onlyif: the gate holds the chunk when a
    condition evaluates to [stop]. *)
Fixpoint gate_conds r ch (what met : string) (stop : bool) (conds : list value) : M (option Result) :=
  match conds with
  | [] => mret None
  | cond :: rest =>
      ok ← evalCondition r ch cond;
      match ok with
      | inl err => mret (Some (False_ ("The " +:+ what +:+ " condition could not be evaluated: " +:+ err)))
      | inr b => if Bool.eqb b stop then mret (Some (True_ met)) else gate_conds r ch what met stop rest
      end
  end.

Definition evaluateGates r ch : M (option Result) :=
  g ← gate_creates r (Creates (Opts ch));
  match g with
  | Some res => mret (Some res)
  | None =>
      g ← gate_conds r ch "unless" "This state was skipped because its unless condition was met." true
            (Unless (Opts ch));
      match g with
      | Some res => mret (Some res)
      | None =>
          gate_conds r ch "onlyif" "This state was skipped because its onlyif condition was not met." false
            (OnlyIf (Opts ch))
      end
  end.

(** ** Executing a chunk *)

Definition chunkContext r ch : Context :=
  let c := rCtx r in
  mkContext (cxTest c) (cID ch) (cxReaction c) (cxWatchChanged c) (RunAs (Opts ch)) (Umask (Opts ch))
    (CheckCmd (Opts ch)) (cxTimeouts c).

Definition with_Reaction (c : Context) (react : reaction) : Context :=
  mkContext (cxTest c) (cxStateID c) (react_kind react) (react_changed react) (cxRunAs c) (cxUmask c)
    (cxCheckCmd c) (cxTimeouts c).

(** One attempt, the closure [call] of execute. *)
Definition attempt r ch (react : reaction) : T (string + Result) :=
  let base := with_Reaction (chunkContext r ch) react in
  let ctx := if 0 <? Timeout (Opts ch) then with_Timeout base (Timeout (Opts ch)) else base in
  if bool_decide (react_kind react ≠ "")
  then CallWatch (GOOS (rOut r)) (rStates r) ctx (Func ch) (Args ch)
  else Call (GOOS (rOut r)) (rStates r) ctx (Func ch) (Args ch).

Definition attempt_result r ch (react : reaction) : T Result := λ w,
  let '(res, w) := attempt r ch react w in
  (match res with inl err => False_ ("The state raised an error: " +:+ err) | inr res => res end, w).

Definition notePrivilege r ch (res : Result) : Result :=
  if negb (Failed res) then res
  else
    match sigs (rStates r) !! Func ch with
    | None => res
    | Some sig =>
        let note := PrivilegeNote sig (Geteuid (rOut r)) in
        if bool_decide (note ≠ "") then set_Comment res (Comment_ res +:+ note) else res
    end.

Definition bigEndian (l : list Z) : Z := foldl (λ n b, n * 256 + b) 0 l.

(** splay: a random duration from 0 to [max]. *)
Definition splay r (max : Z) : T Z := λ w,
  if max <=? 0 then (0, w)
  else
    let '(b, w) := rand_Read (rOut r) w in
    (match b with None => max / 2 | Some l => bigEndian l mod (max + 1) end, w).

(** The retry loop, with [n] attempts left. *)
Fixpoint retry_loop r ch (react : reaction) (rt : Retry) (n : nat) (res : Result) : T Result := λ w,
  match n with
  | O => (res, w)
  | Datatypes.S k =>
      if Bool.eqb (Succeeded res) (Until rt) then (res, w)
      else
        let '(s, w) := splay r (Splay rt) w in
        let '(_, w) := Sleep (rOut r) (wrap64 (Interval rt + s)) w in
        let '(res, w) := attempt_result r ch react w in
        retry_loop r ch react rt k res w
  end.

Definition newline : ascii := "010".

Definition firstLine (s : string) : string :=
  match IndexByte newline s with Some i => stake i s | None => s end.

Fixpoint applyCheckCmd r ch (cmds : list string) (res : Result) : T Result := λ w,
  match cmds with
  | [] => (res, w)
  | cmd :: rest =>
      let '(out, w) := ctx_Run (rOut r) (rCtx r) (shell_command ch cmd) w in
      match out with
      | inl err => (False_ ("The check_cmd " +:+ Quote cmd +:+ " could not be run: " +:+ err), w)
      | inr code =>
          if negb (code =? 0) then
            (set_Changes (False_ ("The check_cmd " +:+ Quote cmd +:+ " failed with exit status " +:+
               FormatInt code +:+ ".")) (Changes res), w)
          else applyCheckCmd r ch rest res w
      end
  end.

Definition checkCmdResult r ch (res : Result) : T Result := λ w,
  if cxTest (rCtx r) then
    (set_Comment res (TrimRight [" "%char; newline] (Comment_ res) +:+ String newline EmptyString +:+
       "Its check_cmd was not run: this was a test run, and the check validates what " +:+
       (if (length (CheckCmd (Opts ch)) =? 1)%nat then "would have been written."
        else "would have been written (" +:+ FormatInt (Z.of_nat (length (CheckCmd (Opts ch)))) +:+
             " commands).")), w)
  else applyCheckCmd r ch (CheckCmd (Opts ch)) res w.

Definition span_ r (op : span_op) : S → S := λ w, (Span (rOut r) op w).2.

Definition execute r ch (react : reaction) : T Result := λ w,
  let w := span_ r (StartSpan ("state " +:+ Func ch)) w in
  let w := span_ r (SetAttr "halite.state.id" (inl (cID ch))) w in
  let w := span_ r (SetAttr "halite.state.fun" (inl (Func ch))) w in
  let w := if bool_decide (cName ch ≠ "") then span_ r (SetAttr "halite.state.name" (inl (cName ch))) w else w in
  let '(res, w) := attempt_result r ch react w in
  let res := notePrivilege r ch res in
  let '(res, w) := match oRetry (Opts ch) with
                   | Some rt => retry_loop r ch react rt (Z.to_nat (Attempts rt - 1)) res w
                   | None => (res, w)
                   end in
  let '(res, w) :=
    if bool_decide (CheckCmd (Opts ch) ≠ []) && Succeeded res && negb (OwnsCheckCmd (rStates r) (Func ch))
    then checkCmdResult r ch res w else (res, w) in
  let res := if bool_decide (rName res = "") then set_rName res (cName ch) else res in
  let w := span_ r (SetAttr "halite.state.changed" (inr (HasChanges res))) w in
  let w := if Failed res then span_ r (SetStatus false (firstLine (Comment_ res))) w
           else span_ r (SetStatus true "") w in
  (res, span_ r EndSpan w).

Definition runChunk r ch (react : reaction) : M (Result * bool) :=
  gate ← evaluateGates r ch;
  match gate with
  | Some res => mret (res, true)
  | None => res ← lift (execute r ch react); mret (res, false)
  end.

Definition failHardFor r ch : bool := default (rFailHard r) (FailHard (Opts ch)).

(** ** The run *)

Record run_state := mkRun {
  st_results : results_t;
  st_out : list StateResult;
  st_aborted : option string }.

Definition finish_one (i : nat) (sr : StateResult) (st : run_state) : run_state :=
  mkRun (<[i := Some sr]> (st_results st)) (st_out st ++ [sr]) (st_aborted st).

(** One turn of the loop of Run. *)
Definition run_one r (chunks : list Chunk) (i : nat) ch (st : run_state) : M run_state :=
  _ ← lift (Progress (rOut r) ch i (length chunks));
  start ← lift (Now (rOut r));
  let sr := mkSR ch zeroResult (length (st_out st)) start 0 false in
  let done res dur sk := mkSR ch res (length (st_out st)) start dur sk in
  match st_aborted st with
  | Some by_ =>
      mret (finish_one i (done (False_ ("This state was not attempted: the run was aborted by failhard on "
        +:+ by_ +:+ ".")) 0 true) st)
  | None =>
      match Seed r !! cID ch with
      | Some seeded => mret (finish_one i (done seeded 0 true) st)
      | None =>
          d ← evaluateRequisites r ch chunks (<[i := Some sr]> (st_results st));
          if skip d then
            now ← lift (Now (rOut r));
            mret (finish_one i (done (dResult d) (time_Sub now start) true) st)
          else
            '(res, held) ← runChunk r ch (dReaction d);
            now ← lift (Now (rOut r));
            let st' := finish_one i (done res (time_Sub now start) held) st in
            if held : bool then mret st'
            else if Failed res && failHardFor r ch
            then mret (mkRun (st_results st') (st_out st') (Some (cID ch)))
            else mret st'
      end
  end.

Fixpoint run_from r (chunks : list Chunk) (i : nat) (rest : list Chunk) (st : run_state) : M run_state :=
  match rest with
  | [] => mret st
  | ch :: rest => st' ← run_one r chunks i ch st; run_from r chunks (Datatypes.S i) rest st'
  end.

Definition listens ch (results : results_t) : bool :=
  existsb (λ req, bool_decide (rKind req = Listen) && anyChanged (Resolved req) results) (Reqs ch).

Definition listen_prefix : string := "Listening reaction, run at the end of the state run. ".

Fixpoint runListeners r (chunks : list Chunk) (results : results_t) (out : list StateResult)
    : M (list StateResult) :=
  match chunks with
  | [] => mret out
  | ch :: rest =>
      if listens ch results then
        start ← lift (Now (rOut r));
        '(res, held) ← runChunk r ch (mkReaction ReactionListen []);
        let res := if bool_decide (rName res = "") then set_rName res (cName ch) else res in
        let res := set_Comment res (listen_prefix +:+ Comment_ res) in
        now ← lift (Now (rOut r));
        runListeners r rest results
          (out ++ [mkSR ch res (length out) start (time_Sub now start) held])
      else runListeners r rest results out
  end.

Definition run0 (chunks : list Chunk) : run_state := mkRun (replicate (length chunks) None) [] None.

Definition Run r (chunks : list Chunk) : M RunResult :=
  started ← lift (Now (rOut r));
  st ← run_from r chunks 0 chunks (run0 chunks);
  out ← match st_aborted st with
        | Some _ => mret (st_out st)
        | None => runListeners r chunks (st_results st) (st_out st)
        end;
  now ← lift (Now (rOut r));
  mret (mkRR out (bool_decide (is_Some (st_aborted st))) (default "" (st_aborted st)) started
    (time_Sub now started)).

(** ** The run does not panic

    An index is out of range only if a requisite points outside the low
    state. *)
Definition targets_in (n : nat) (ch : Chunk) : Prop :=
  ∀ req t, req ∈ Reqs ch → t ∈ Resolved req → (t < n)%nat.

Lemma prereq_total r chunks targets :
  (∀ t, t ∈ targets → (t < length chunks)%nat) → total (prereqWouldChange r chunks targets).
Proof.
  induction targets as [|t targets IH]; intros Ht; simpl; [auto with total|].
  apply total_bind; [apply total_index, Ht; left|intros target].
  apply total_bind; [auto with total|intros [?|?]; [auto with total|]].
  destruct (_ || _); [auto with total|]. apply IH. intros. apply Ht. by right.
Qed.

Lemma first_failed_total targets results :
  (∀ t, t ∈ targets → (t < length results)%nat) → total (first_failed targets results).
Proof.
  induction targets as [|t targets IH]; intros Ht; simpl; [auto with total|].
  apply total_bind; [apply total_index, Ht; left|].
  assert (total (first_failed targets results)) by (apply IH; intros; apply Ht; by right).
  intros [s|]; [|done]. destruct (Failed _); auto with total.
Qed.

Lemma changed_lt idx results : changed idx results = true → (idx < length results)%nat.
Proof.
  unfold changed, result_at. destruct (results !! idx) as [x|] eqn:E; [|done].
  intros _. by eapply lookup_lt_Some.
Qed.

Lemma watch_names_total chunks targets results :
  length results = length chunks → total (watch_names chunks targets results).
Proof.
  intros Hlen. induction targets as [|t targets IH]; simpl; [auto with total|].
  destruct (changed t results) eqn:Hc; [|done]. apply changed_lt in Hc.
  apply total_bind; [apply total_index; lia|intros c].
  apply total_bind; [done|auto with total].
Qed.

Lemma first_failed_Some targets results w i w' :
  first_failed targets results w = Some (Some i, w') → i ∈ targets ∧ failed_at results i = true ∧ w' = w.
Proof.
  induction targets as [|t targets IH]; simpl; [done|]. unfold index, mbind, M_bind.
  destruct (results !! t) as [[s|]|] eqn:E; simpl; [| |done].
  - destruct (Failed (srResult s)) eqn:Hf.
    + intros Heq. unfold mret, M_ret in Heq. simplify_eq. split; [left|]. split; [|done]. unfold failed_at, result_at. by rewrite E.
    + intros (?&?&?)%IH. split; [by right|done].
  - intros (?&?&?)%IH. split; [by right|done].
Qed.

Lemma evaluate_req_total r chunks results req s :
  length results = length chunks → (∀ t, t ∈ Resolved req → (t < length chunks)%nat) →
  total (evaluate_req r chunks results req s).
Proof.
  intros Hlen Ht. unfold evaluate_req. case_bool_decide; [auto with total|].
  assert (Hff : total (first_failed (Resolved req) results)) by (apply first_failed_total; by rewrite Hlen).
  assert (Hreq : ∀ k, total (failed ← first_failed (Resolved req) results;
      match failed with
      | Some idx => c ← index chunks idx;
          mret (inl (skip_with (False_ ("This state was skipped because " +:+ describe c +:+ " failed."))))
      | None => if k : bool then l ← watch_names chunks (Resolved req) results;
                  mret (inr (see_watch s (anyChanged (Resolved req) results) l))
                else mret (inr s)
      end : M (decision + seen))).
  { intros k w. destruct (Hff w) as [[o w1] E]. unfold mbind at 1, M_bind. rewrite E.
    destruct o as [i|].
    - apply first_failed_Some in E as (Hi & _ & _). clear w. revert w1. apply total_bind; [|auto with total].
      by apply total_index, Ht.
    - clear E. destruct k; [|by eexists]. revert w1. apply total_bind; [by apply watch_names_total|auto with total]. }
  destruct (rKind req); try apply Hreq; try (destruct (negb _)); auto with total.
  apply total_bind; [by apply prereq_total|]. intros []; simpl; auto with total.
Qed.

Lemma evaluate_reqs_total r chunks results reqs s :
  length results = length chunks →
  (∀ req t, req ∈ reqs → t ∈ Resolved req → (t < length chunks)%nat) →
  total (evaluate_reqs r chunks results reqs s).
Proof.
  intros Hlen. revert s. induction reqs as [|req reqs IH]; intros s Ht; simpl; [auto with total|].
  apply total_bind.
  - apply evaluate_req_total; [done|]. intros t. apply Ht. left.
  - intros [d|s']; [auto with total|]. apply IH. intros req' t Hr. apply Ht. by right.
Qed.

Lemma gate_creates_total r paths : total (gate_creates r paths).
Proof.
  induction paths as [|p paths IH]; simpl; [auto with total|].
  apply total_bind; [auto with total|]. intros []; auto with total.
Qed.
Lemma evalCondition_total r ch cond : total (evalCondition r ch cond).
Proof.
  unfold evalCondition, cond_map. destruct cond; try case_bool_decide; auto 10 with total.
Qed.
Lemma gate_conds_total r ch what met stop conds : total (gate_conds r ch what met stop conds).
Proof.
  induction conds as [|c conds IH]; simpl; [auto with total|].
  apply total_bind; [apply evalCondition_total|]. intros [?|b]; [auto with total|].
  destruct (Bool.eqb b stop); auto with total.
Qed.
Lemma runChunk_total r ch react : total (runChunk r ch react).
Proof.
  unfold runChunk, evaluateGates. apply total_bind; [|intros []; auto with total].
  apply total_bind; [apply gate_creates_total|]. intros [|]; [auto with total|].
  apply total_bind; [apply gate_conds_total|]. intros [|]; [auto with total|]. apply gate_conds_total.
Qed.

Lemma run_one_total r chunks i ch st :
  length (st_results st) = length chunks → targets_in (length chunks) ch →
  total (run_one r chunks i ch st).
Proof.
  intros Hlen Ht. unfold run_one. apply total_bind; [auto with total|intros _].
  apply total_bind; [auto with total|intros start].
  destruct (st_aborted st); [auto with total|]. destruct (Seed r !! cID ch); [auto with total|].
  apply total_bind.
  { apply evaluate_reqs_total; [by rewrite length_insert|]. intros req t. apply Ht. }
  intros d. destruct (skip d); [auto with total|].
  apply total_bind; [apply runChunk_total|intros [res held]].
  apply total_bind; [auto with total|intros now]. destruct held; [auto with total|].
  destruct (_ && _); auto with total.
Qed.

(** ** The course of a run *)

(** What one turn of the loop adds: one result, for its chunk, at its
    position; and whether the run is aborted after it. *)
Lemma run_one_adds r chunks i ch st w st' w' :
  run_one r chunks i ch st w = Some (st', w') →
  ∃ sr, st_results st' = <[i := Some sr]> (st_results st) ∧ st_out st' = st_out st ++ [sr] ∧
    srChunk sr = ch ∧ srRunNum sr = length (st_out st) ∧
    match st_aborted st with
    | Some b => st_aborted st' = Some b ∧ Skipped sr = true ∧ Failed (srResult sr) = true
    | None => st_aborted st' =
        if negb (Skipped sr) && Failed (srResult sr) && failHardFor r ch then Some (cID ch) else None
    end.
Proof.
  unfold run_one. intros Hrun. inv_M Hrun. destruct (st_aborted st) as [b|] eqn:Hab.
  { inv_M Hrun. eexists. simpl. rewrite Hab. split_and!; reflexivity. }
  destruct (Seed r !! cID ch) as [seeded|].
  { inv_M Hrun. eexists. simpl. rewrite Hab. split_and!; reflexivity. }
  inv_M Hrun. destruct (skip _).
  { inv_M Hrun. eexists. simpl. rewrite Hab. split_and!; reflexivity. }
  inv_M Hrun. match goal with x : Result * bool |- _ => destruct x as [res held] end.
  inv_M Hrun. destruct held.
  { inv_M Hrun. eexists. simpl. rewrite Hab. split_and!; reflexivity. }
  destruct (Failed res && failHardFor r ch) eqn:Hf; inv_M Hrun; eexists; simpl;
    rewrite ?Hab; (split_and!; [reflexivity..|]); simpl; by rewrite Hf.
Qed.

(** The state of the loop before chunk [i]: a result for each chunk before
    it, and none after. *)
Record course (chunks : list Chunk) (i : nat) (st : run_state) : Prop := {
  course_len : length (st_out st) = i;
  course_le : (i ≤ length chunks)%nat;
  course_results : st_results st = (Some <$> st_out st) ++ replicate (length chunks - i) None;
  course_chunk : ∀ j sr, st_out st !! j = Some sr → chunks !! j = Some (srChunk sr) ∧ srRunNum sr = j }.

Lemma course_start chunks : course chunks 0 (run0 chunks).
Proof. split; [done|lia| |done]. simpl. by rewrite Nat.sub_0_r. Qed.

Lemma course_results_len chunks i st : course chunks i st → length (st_results st) = length chunks.
Proof.
  intros [Hl Hle Hr _]. rewrite Hr, length_app, length_fmap, length_replicate. lia.
Qed.

Lemma course_step r chunks i ch st w st' w' :
  course chunks i st → chunks !! i = Some ch → run_one r chunks i ch st w = Some (st', w') →
  course chunks (Datatypes.S i) st'.
Proof.
  intros [Hl Hle Hr Hc] Hch Hrun. apply run_one_adds in Hrun as (sr & Hres & Hout & Hsc & Hnum & _).
  pose proof (lookup_lt_Some _ _ _ Hch). split; [rewrite Hout, length_app; simpl; lia|lia| |].
  - rewrite Hres, Hr, Hout, fmap_app, insert_app_r_alt by (rewrite length_fmap; lia).
    rewrite length_fmap, Hl, Nat.sub_diag, <-app_assoc. f_equal.
    replace (length chunks - i)%nat with (Datatypes.S (length chunks - Datatypes.S i)) by lia. done.
  - intros j sr'. rewrite Hout, lookup_app. destruct (st_out st !! j) eqn:E; [intros; simplify_eq; auto|].
    apply lookup_ge_None in E. intros Hj. destruct (j - length (st_out st))%nat eqn:Ej; simplify_eq/=.
    assert (j = length (st_out st)) as -> by lia. by rewrite Hch.
Qed.

(** The turns of a run: [turns r chunks i st w st' w'] runs the chunks from
    [i] on. *)
Lemma run_from_course r chunks i rest st w st' w' :
  course chunks i st → drop i chunks = rest → run_from r chunks i rest st w = Some (st', w') →
  course chunks (length chunks) st' ∧ ∃ l, st_out st' = st_out st ++ l.
Proof.
  revert i st w. induction rest as [|ch rest IH]; intros i st w Hc Hd Hrun; simpl in Hrun.
  - inv_M Hrun. assert (length chunks = i) as ->.
    { apply (f_equal length) in Hd. rewrite length_drop in Hd. simpl in Hd. destruct Hc. lia. }
    split; [done|]. exists []. by rewrite app_nil_r.
  - apply bind_Some in Hrun as (st1 & w1 & H1 & H2).
    assert (Hch : chunks !! i = Some ch).
    { rewrite <-(Nat.add_0_r i), <-lookup_drop, Hd. done. }
    assert (Hd' : drop (Datatypes.S i) chunks = rest).
    { rewrite (drop_S _ _ _ Hch) in Hd. by simplify_eq. }
    destruct (IH _ _ _ (course_step _ _ _ _ _ _ _ _ Hc Hch H1) Hd' H2) as [HC [l Hl]]. split; [done|].
    apply run_one_adds in H1 as (sr & _ & Hout & _). rewrite Hl, Hout, <-app_assoc. eauto.
Qed.

Lemma run_from_total r chunks i rest st :
  course chunks i st → drop i chunks = rest → Forall (targets_in (length chunks)) chunks →
  total (run_from r chunks i rest st).
Proof.
  intros Hc Hd Hall. revert i st Hc Hd. induction rest as [|ch rest IH]; intros i st Hc Hd w; simpl; [by eexists|].
  assert (Hch : chunks !! i = Some ch) by (rewrite <-(Nat.add_0_r i), <-lookup_drop, Hd; done).
  assert (Hd' : drop (Datatypes.S i) chunks = rest) by (rewrite (drop_S _ _ _ Hch) in Hd; by simplify_eq).
  destruct (run_one_total r chunks i ch st) with w as [[st1 w1] E].
  - by eapply course_results_len.
  - by eapply Forall_lookup_1.
  - unfold mbind, M_bind. rewrite E. apply IH; [by eapply course_step|done].
Qed.

(** An aborted run stays aborted. *)
Lemma run_from_aborted r chunks i rest st w st' w' :
  run_from r chunks i rest st w = Some (st', w') → is_Some (st_aborted st) → is_Some (st_aborted st').
Proof.
  revert i st w. induction rest as [|ch rest IH]; intros i st w Hrun [b Hb]; simpl in Hrun.
  - inv_M Hrun. by eexists.
  - apply bind_Some in Hrun as (st1 & w1 & H1 & H2). eapply IH; [done|].
    apply run_one_adds in H1 as (sr & _ & _ & _ & _ & Hab). rewrite Hb in Hab. exists b. apply Hab.
Qed.

(** Chunk [i]'s turn, in a run that has finished. *)
Lemma run_from_turn r chunks rest i st w st' w' k :
  course chunks i st → drop i chunks = rest → run_from r chunks i rest st w = Some (st', w') →
  (i ≤ k < length chunks)%nat →
  ∃ ch st1 w1 st2 w2, chunks !! k = Some ch ∧ course chunks k st1 ∧
    run_one r chunks k ch st1 w1 = Some (st2, w2) ∧
    st_out st1 = take k (st_out st') ∧ st_out st2 = take (Datatypes.S k) (st_out st') ∧
    (is_Some (st_aborted st2) → is_Some (st_aborted st')).
Proof.
  revert i st w. induction rest as [|ch rest IH]; intros i st w Hc Hd Hrun Hk; simpl in Hrun.
  { apply (f_equal length) in Hd. rewrite length_drop in Hd. simpl in Hd. lia. }
  pose proof Hrun as Hrun0. apply bind_Some in Hrun as (st1 & w1 & H1 & H2).
  assert (Hch : chunks !! i = Some ch) by (rewrite <-(Nat.add_0_r i), <-lookup_drop, Hd; done).
  assert (Hd' : drop (Datatypes.S i) chunks = rest) by (rewrite (drop_S _ _ _ Hch) in Hd; by simplify_eq).
  pose proof (course_step _ _ _ _ _ _ _ _ Hc Hch H1) as Hc1.
  destruct (decide (k = i)) as [->|Hne]; [|eapply IH; [done..|lia]].
  destruct (run_from_course _ _ _ _ _ _ _ _ Hc1 Hd' H2) as [_ [l Hl]].
  exists ch, st, w, st1, w1. split_and!; [done..| | |].
  - pose proof (run_one_adds _ _ _ _ _ _ _ _ H1) as (sr & _ & Hout & _).
    rewrite Hl, Hout, <-app_assoc, take_app_le, take_ge; [done|rewrite (course_len _ _ _ Hc); lia..].
  - rewrite Hl, take_app_le, take_ge; [done|rewrite (course_len _ _ _ Hc1); lia..].
  - by eapply run_from_aborted.
Qed.

(** ** Listeners *)

Lemma runListeners_total r chunks results out : total (runListeners r chunks results out).
Proof.
  revert out. induction chunks as [|ch chunks IH]; intros out; simpl; [auto with total|].
  destruct (listens ch results); [|done]. apply total_bind; [auto with total|intros start].
  apply total_bind; [apply runChunk_total|intros [res held]]. apply total_bind; [auto with total|auto].
Qed.

Lemma runListeners_adds r chunks results out w out' w' :
  runListeners r chunks results out w = Some (out', w') →
  ∃ l, out' = out ++ l ∧ srChunk <$> l = filter (λ ch, listens ch results = true) chunks ∧
    ∀ k sr, l !! k = Some sr → srRunNum sr = (length out + k)%nat.
Proof.
  revert out w. induction chunks as [|ch chunks IH]; intros out w Hrun; simpl in Hrun.
  { inv_M Hrun. exists []. by rewrite app_nil_r. }
  rewrite filter_cons. destruct (listens ch results) eqn:Hl.
  2: { rewrite decide_False by done. by eapply IH. }
  rewrite decide_True by done.
  apply bind_Some in Hrun as (start & w1 & _ & Hrun). apply bind_Some in Hrun as ([res held] & w2 & _ & Hrun).
  apply bind_Some in Hrun as (now & w3 & _ & Hrun). apply IH in Hrun as (l & -> & Hf & Hn).
  eexists (_ :: l). rewrite <-app_assoc. split; [done|]. split; [by rewrite fmap_cons, Hf|].
  intros [|k] sr Hk; simplify_eq/=; [lia|]. apply Hn in Hk as ->. rewrite length_app. simpl. lia.
Qed.

(** ** Aborting *)

(** A result that stops the run: the chunk was executed, it failed, and
    failhard applies to it. *)
Definition stops r (sr : StateResult) : bool :=
  negb (Skipped sr) && Failed (srResult sr) && failHardFor r (srChunk sr).

Definition not_attempted (sr : StateResult) : Prop := Skipped sr = true ∧ Failed (srResult sr) = true.

Definition abort_story r (st : run_state) : Prop :=
  match st_aborted st with
  | None => ∀ k sr, st_out st !! k = Some sr → stops r sr = false
  | Some b => ∃ k sr, st_out st !! k = Some sr ∧ stops r sr = true ∧ cID (srChunk sr) = b ∧
      (∀ j sr', (j < k)%nat → st_out st !! j = Some sr' → stops r sr' = false) ∧
      (∀ j sr', (k < j)%nat → st_out st !! j = Some sr' → not_attempted sr')
  end.

Lemma run_one_story r chunks i ch st w st' w' :
  abort_story r st → run_one r chunks i ch st w = Some (st', w') → abort_story r st'.
Proof.
  unfold abort_story. intros Hs Hrun.
  apply run_one_adds in Hrun as (sr & _ & Hout & Hch & _ & Hab). rewrite Hout.
  destruct (st_aborted st) as [b|].
  - destruct Hab as (-> & Hsk & Hf). destruct Hs as (k & sr0 & Hk & Hst & Hid & Hlt & Hgt).
    pose proof (lookup_lt_Some _ _ _ Hk) as Hkl. exists k, sr0.
    split_and!; [by apply lookup_app_l_Some|done|done| |].
    + intros j sr' Hj. rewrite lookup_app_l by lia. by apply Hlt.
    + intros j sr' Hj. rewrite lookup_app_Some. intros [?|[_ Hj']]; [by eapply Hgt|].
      destruct (j - length (st_out st))%nat; simplify_eq/=. done.
  - assert (Hst : stops r sr = negb (Skipped sr) && Failed (srResult sr) && failHardFor r ch)
      by (unfold stops; by rewrite Hch). rewrite <-Hst in Hab.
    destruct (stops r sr) eqn:Hsr; rewrite Hab.
    + exists (length (st_out st)), sr. split_and!.
      * by rewrite lookup_app_r, Nat.sub_diag by lia.
      * done.
      * by rewrite Hch.
      * intros j sr' Hj. rewrite lookup_app_l by lia. apply Hs.
      * intros j sr' Hj Hl. apply lookup_lt_Some in Hl. rewrite length_app in Hl. simpl in Hl. lia.
    + intros k sr'. rewrite lookup_app_Some. intros [?|[_ Hk]]; [by eapply Hs|].
      destruct (k - length (st_out st))%nat; simplify_eq/=. done.
Qed.

Lemma run_from_story r chunks i rest st w st' w' :
  abort_story r st → run_from r chunks i rest st w = Some (st', w') → abort_story r st'.
Proof.
  revert i st w. induction rest as [|ch rest IH]; intros i st w Hs Hrun; simpl in Hrun.
  - by inv_M Hrun.
  - apply bind_Some in Hrun as (st1 & w1 & H1 & H2). eapply IH; [|done]. by eapply run_one_story.
Qed.

(** A run taken apart: the loop, then the listeners. *)
Lemma Run_inv r chunks w out w' :
  Run r chunks w = Some (out, w') →
  ∃ st w1 w2 l, run_from r chunks 0 chunks (run0 chunks) w1 = Some (st, w2) ∧
    course chunks (length chunks) st ∧ abort_story r st ∧
    Results out = st_out st ++ l ∧ Aborted out = bool_decide (is_Some (st_aborted st)) ∧
    AbortedBy out = default "" (st_aborted st) ∧
    srChunk <$> l = (if Aborted out then []
                     else filter (λ ch, listens ch (Some <$> st_out st) = true) chunks) ∧
    ∀ k sr, l !! k = Some sr → srRunNum sr = (length chunks + k)%nat.
Proof.
  unfold Run. intros Hrun. apply bind_Some in Hrun as (started & w1 & _ & Hrun).
  apply bind_Some in Hrun as (st & w2 & Hst & Hrun). apply bind_Some in Hrun as (res & w3 & Hl & Hrun).
  apply bind_Some in Hrun as (now & w4 & _ & Hrun). inv_M Hrun. simpl.
  destruct (run_from_course _ _ _ _ _ _ _ _ (course_start chunks) (drop_0 _) Hst) as [Hc _].
  assert (Hs : abort_story r st) by (eapply run_from_story; [|done]; by intros k sr).
  assert (Hres : st_results st = Some <$> st_out st).
  { rewrite (course_results _ _ _ Hc), Nat.sub_diag. simpl. by rewrite app_nil_r. }
  exists st, w1, w2. destruct (st_aborted st) eqn:Hab.
  - inv_M Hl. exists []. rewrite app_nil_r. split_and!; done.
  - apply runListeners_adds in Hl as (l & -> & Hf & Hn). exists l. rewrite Hres in Hf.
    rewrite (course_len _ _ _ Hc) in Hn. split_and!; done.
Qed.

Lemma Run_reports r chunks w :
  Forall (targets_in (length chunks)) chunks →
  ∃ out w', Run r chunks w = Some (out, w') ∧
    let main := take (length chunks) (Results out) in
    srChunk <$> main = chunks ∧
    (∀ j sr, Results out !! j = Some sr → srRunNum sr = j) ∧
    srChunk <$> drop (length chunks) (Results out) =
      if Aborted out then [] else filter (λ ch, listens ch (Some <$> main) = true) chunks.
Proof.
  intros Hall. assert (Htot : total (Run r chunks)).
  { unfold Run. apply total_bind; [auto with total|intros started].
    apply total_bind; [apply run_from_total; [apply course_start|done..]|intros st].
    apply total_bind; [destruct (st_aborted st); [auto with total|apply runListeners_total]|auto with total]. }
  destruct (Htot w) as [[out w'] Hrun]. exists out, w'. split; [done|].
  apply Run_inv in Hrun as (st & w1 & w2 & l & _ & Hc & _ & Hres & _ & _ & Hl & Hn).
  pose proof (course_len _ _ _ Hc) as Hlen. rewrite Hres, take_app_length', drop_app_length' by done.
  cbn zeta. split_and!; [| |done].
  - apply list_eq. intros j. rewrite list_lookup_fmap. destruct (st_out st !! j) as [sr|] eqn:E; simpl.
    + by apply (course_chunk _ _ _ Hc) in E as [-> _].
    + symmetry. apply lookup_ge_None. apply lookup_ge_None in E. lia.
  - intros j sr. rewrite lookup_app_Some. intros [Hj|[Hge Hj]].
    + by apply (course_chunk _ _ _ Hc) in Hj as [_ ?].
    + apply Hn in Hj. lia.
Qed.

(** C37: A run reports on every chunk once, in the order of the low state: it
    never panics on a low state whose requisites point into it, its first
    results are those of the chunks one by one, each numbered by its position,
    and what follows them are the reactions of exactly those chunks that
    listen to something that changed, or nothing at all after an abort. *)
Theorem Run_reports_every_chunk r chunks w :
  Forall (targets_in (length chunks)) chunks →
  ∃ out w', Run r chunks w = Some (out, w') ∧
    let main := take (length chunks) (Results out) in
    srChunk <$> main = chunks ∧
    (∀ j sr, Results out !! j = Some sr → srRunNum sr = j) ∧
    srChunk <$> drop (length chunks) (Results out) =
      if Aborted out then [] else filter (λ ch, listens ch (Some <$> main) = true) chunks.
Proof. apply Run_reports. Qed.

(** A run is aborted exactly if a chunk was executed and failed under failhard;
    it names itself as the cause, is the only one to do so, and no chunk after
    it is attempted. *)
Lemma abort_results r chunks w out w' :
  Run r chunks w = Some (out, w') →
  (Aborted out = true ↔ ∃ k sr, (k < length chunks)%nat ∧ Results out !! k = Some sr ∧ stops r sr = true) ∧
  ∀ k sr, (k < length chunks)%nat → Results out !! k = Some sr → stops r sr = true →
    AbortedBy out = cID (srChunk sr) ∧ length (Results out) = length chunks ∧
    (∀ j sr', (k < j)%nat → Results out !! j = Some sr' → not_attempted sr') ∧
    (∀ j sr', (j < k)%nat → Results out !! j = Some sr' → stops r sr' = false).
Proof.
  intros Hrun. apply Run_inv in Hrun as (st & w1 & w2 & l & _ & Hc & Hs & Hres & Hab & Hby & Hl & _).
  pose proof (course_len _ _ _ Hc) as Hlen. unfold abort_story in Hs. rewrite Hres, Hby.
  assert (Hmain : ∀ k sr, (k < length chunks)%nat → (st_out st ++ l) !! k = Some sr → st_out st !! k = Some sr).
  { intros k sr Hk. by rewrite lookup_app_l by lia. }
  destruct (st_aborted st) as [b|].
  - rewrite bool_decide_eq_true_2 in Hab by done. rewrite Hab in *. destruct l; [|done].
    rewrite app_nil_r in *. destruct Hs as (k & sr & Hk & Hst & Hid & Hlt & Hgt). split.
    { split; [|done]. intros _. exists k, sr. apply lookup_lt_Some in Hk as ?. split_and!; [lia|done..]. }
    intros k' sr' Hk' Hl' Hst'.
    assert (k' = k) as ->.
    { destruct (decide (k' = k)); [done|]. destruct (decide (k' < k)%nat).
      - rewrite (Hlt k' sr') in Hst' by done. done.
      - destruct (Hgt k' sr') as [Hsk _]; [lia|done|]. unfold stops in Hst'. by rewrite Hsk in Hst'. }
    simplify_eq. by rewrite Hlen.
  - rewrite bool_decide_eq_false_2 in Hab by (by intros []). rewrite Hab. split.
    + split; [done|]. intros (k & sr & Hk & Hl' & Hst). apply Hmain in Hl'; [|done].
      rewrite (Hs k sr Hl') in Hst. done.
    + intros k sr Hk Hl' Hst. apply Hmain in Hl'; [|done]. rewrite (Hs k sr Hl') in Hst. done.
Qed.

(** What an aborted run still does: it shows progress and reads the clock. *)
Fixpoint quiet r (n i : nat) (rest : list Chunk) (w : S) : S :=
  match rest with
  | [] => w
  | ch :: rest => quiet r n (Datatypes.S i) rest (Now (rOut r) (Progress (rOut r) ch i n w).2).2
  end.

(** ** What requisites decide

    Each kind's rule, read off the results. *)
Definition blocked (results : results_t) (req : Req) : bool :=
  match rKind req with
  | Require_ | Watch => existsb (failed_at results) (Resolved req)
  | RequireAny | WatchAny =>
      negb (bool_decide (Resolved req = [])) && negb (anySucceeded (Resolved req) results)
  | _ => false
  end.
Definition is_onchanges (req : Req) : bool :=
  negb (bool_decide (Resolved req = [])) && bool_decide (rKind req ∈ [OnChanges; OnChangesAny]).
Definition onchanges_met (results : results_t) (req : Req) : bool :=
  match rKind req with
  | OnChanges => allChanged (Resolved req) results
  | OnChangesAny => anyChanged (Resolved req) results
  | _ => false
  end.
Definition is_onfail (req : Req) : bool :=
  negb (bool_decide (Resolved req = [])) && bool_decide (rKind req ∈ [OnFail; OnFailAny; OnFailAll]).
Definition onfail_met (results : results_t) (req : Req) : bool :=
  match rKind req with
  | OnFail | OnFailAny => anyFailed (Resolved req) results
  | OnFailAll => allFailed (Resolved req) results
  | _ => false
  end.
Definition fires (results : results_t) (req : Req) : bool :=
  bool_decide (rKind req ∈ [Watch; WatchAny]) && anyChanged (Resolved req) results.

(** A chunk's onchanges (or onfail) requisites are unmet when there are some
    and none is met. *)
Definition unmet (among met : Req → bool) (reqs : list Req) : bool :=
  existsb among reqs && negb (existsb met reqs).

Definition no_prereq (reqs : list Req) : Prop := ∀ req, req ∈ reqs → rKind req ≠ Prereq.

(** What is seen in a requisite that does not decide. *)
Definition saw (results : results_t) (s s' : seen) (req : Req) : Prop :=
  sawOnChanges s' = sawOnChanges s || is_onchanges req ∧
  onChangesSatisfied s' = onChangesSatisfied s || onchanges_met results req ∧
  sawOnFail s' = sawOnFail s || is_onfail req ∧
  onFailSatisfied s' = onFailSatisfied s || onfail_met results req ∧
  watchFired s' = watchFired s || fires results req.

Lemma first_failed_pure targets results w :
  (∀ t, t ∈ targets → (t < length results)%nat) →
  ∃ o, first_failed targets results w = Some (o, w) ∧
    (is_Some o ↔ existsb (failed_at results) targets = true) ∧
    ∀ i, o = Some i → i ∈ targets.
Proof.
  intros Ht. destruct (first_failed_total targets results Ht w) as [[o w'] E].
  induction targets as [|t targets IH].
  { simpl in *. inv_M E. exists None. split_and!; [done|split; [by intros []|done]|done]. }
  simpl in *. unfold index in *. destruct (lookup_lt_is_Some_2 results t) as [x Hx]; [apply Ht; left|].
  rewrite Hx in *. unfold mbind, M_bind, mret, M_ret in *. unfold failed_at at 1, result_at. rewrite Hx. simpl.
  destruct x as [sr|]; [destruct (Failed (srResult sr)) eqn:Hf|]; simpl.
  - simplify_eq. exists (Some t). split_and!; [done|done|]. intros i ?; simplify_eq. left.
  - destruct IH as (o' & Ho & Hiff & Hin); [intros; apply Ht; by right|done|].
    exists o'. split_and!; [done|done|]. intros i Hi. right. by apply Hin.
  - destruct IH as (o' & Ho & Hiff & Hin); [intros; apply Ht; by right|done|].
    exists o'. split_and!; [done|done|]. intros i Hi. right. by apply Hin.
Qed.

Lemma watch_names_pure chunks targets results w :
  length results = length chunks → ∃ l, watch_names chunks targets results w = Some (l, w).
Proof.
  intros Hlen. induction targets as [|t targets IH]; simpl; [by eexists|].
  destruct (changed t results) eqn:Hc; [|done]. apply changed_lt in Hc.
  destruct (lookup_lt_is_Some_2 chunks t) as [c Hc']; [lia|]. destruct IH as [l Hl].
  unfold index, mbind, M_bind. rewrite Hc'. simpl. rewrite Hl. by eexists.
Qed.

Lemma is_empty_false {A} (l : list A) : l ≠ [] → bool_decide (l = []) = false.
Proof. apply bool_decide_eq_false_2. Qed.

Lemma evaluate_req_decides r chunks results req s w :
  length results = length chunks → (∀ t, t ∈ Resolved req → (t < length chunks)%nat) →
  rKind req ≠ Prereq →
  ∃ o, evaluate_req r chunks results req s w = Some (o, w) ∧
    match o with
    | inl d => blocked results req = true ∧ skip d = true ∧ Failed (dResult d) = true
    | inr s' => blocked results req = false ∧ saw results s s' req
    end.
Proof.
  intros Hlen Ht Hk. unfold evaluate_req.
  destruct (bool_decide (Resolved req = [])) eqn:He.
  { apply bool_decide_eq_true in He. exists (inr s). split; [done|].
    unfold blocked, saw, is_onchanges, onchanges_met, is_onfail, onfail_met, fires.
    rewrite He. destruct (rKind req); simpl; rewrite ?orb_false_r, ?andb_false_r; done. }
  destruct (first_failed_pure (Resolved req) results w) as (o & Ho & Hiff & Hin); [by rewrite Hlen|].
  destruct (watch_names_pure chunks (Resolved req) results w Hlen) as [l Hl].
  assert (Hreq : ∀ i, o = Some i → ∃ c, chunks !! i = Some c).
  { intros i Hi. apply lookup_lt_is_Some_2, Ht, Hin, Hi. }
  unfold blocked, saw, is_onchanges, onchanges_met, is_onfail, onfail_met, fires. rewrite He.
  destruct (rKind req) eqn:Hkind; simpl; try done;
    try (eexists; split; [reflexivity|]; simpl; rewrite ?orb_false_r, ?orb_true_r; done);
    try (destruct (anySucceeded _ _); eexists; (split; [reflexivity|]); simpl; rewrite ?orb_false_r; done).
  - unfold mbind, M_bind. rewrite Ho. destruct o as [i|].
    + destruct (Hreq i eq_refl) as [c Hc]. unfold index. rewrite Hc. eexists. split; [reflexivity|].
      split; [by apply Hiff|done].
    + eexists. split; [reflexivity|]. rewrite !orb_false_r. split; [|done].
      apply not_true_is_false. intros Hx. by apply Hiff in Hx as [].
  - unfold mbind, M_bind. rewrite Ho. destruct o as [i|].
    + destruct (Hreq i eq_refl) as [c Hc]. unfold index. rewrite Hc. eexists. split; [reflexivity|].
      split; [by apply Hiff|done].
    + rewrite Hl. eexists. split; [reflexivity|]. simpl. rewrite !orb_false_r. split; [|done].
      apply not_true_is_false. intros Hx. by apply Hiff in Hx as [].
Qed.

(** The whole evaluation, for a chunk without prereq: it touches nothing, and
    its decision is that of the rules. *)
Lemma evaluate_reqs_decides r chunks results reqs s w :
  length results = length chunks →
  (∀ req t, req ∈ reqs → t ∈ Resolved req → (t < length chunks)%nat) →
  no_prereq reqs →
  ∃ d, evaluate_reqs r chunks results reqs s w = Some (d, w) ∧
    if existsb (blocked results) reqs then skip d = true ∧ Failed (dResult d) = true
    else ∃ s', d = conclude s' ∧
      sawOnChanges s' = sawOnChanges s || existsb is_onchanges reqs ∧
      onChangesSatisfied s' = onChangesSatisfied s || existsb (onchanges_met results) reqs ∧
      sawOnFail s' = sawOnFail s || existsb is_onfail reqs ∧
      onFailSatisfied s' = onFailSatisfied s || existsb (onfail_met results) reqs ∧
      watchFired s' = watchFired s || existsb (fires results) reqs.
Proof.
  intros Hlen. revert s. induction reqs as [|req reqs IH]; intros s Ht Hnp; simpl.
  { eexists. split; [done|]. exists s. by rewrite !orb_false_r. }
  destruct (evaluate_req_decides r chunks results req s w) as (o & Ho & Hd);
    [done|intros t; apply Ht; left|apply Hnp; left|].
  unfold mbind, M_bind. rewrite Ho. destruct o as [d|s1].
  - destruct Hd as (-> & Hsk & Hf). by exists d.
  - destruct Hd as (-> & H1 & H2 & H3 & H4 & H5). simpl.
    destruct (IH s1) as (d & Hd & Hspec);
      [intros req' t Hr; apply Ht; by right|intros req' Hr; apply Hnp; by right|].
    exists d. split; [done|]. destruct (existsb (blocked results) reqs); [done|].
    destruct Hspec as (s' & -> & E1 & E2 & E3 & E4 & E5). exists s'.
    rewrite E1, E2, E3, E4, E5, H1, H2, H3, H4, H5, !orb_assoc. done.
Qed.

Definition held_back (results : results_t) (reqs : list Req) : bool :=
  existsb (blocked results) reqs || unmet is_onchanges (onchanges_met results) reqs ||
  unmet is_onfail (onfail_met results) reqs.

Lemma evaluateRequisites_rules r ch chunks results w :
  length results = length chunks → targets_in (length chunks) ch → no_prereq (Reqs ch) →
  ∃ d, evaluateRequisites r ch chunks results w = Some (d, w) ∧
    skip d = held_back results (Reqs ch) ∧
    (skip d = true → Failed (dResult d) = existsb (blocked results) (Reqs ch)) ∧
    (skip d = false → react_kind (dReaction d) =
       if existsb (fires results) (Reqs ch) then ReactionWatch else "").
Proof.
  intros Hlen Ht Hnp.
  destruct (evaluate_reqs_decides r chunks results (Reqs ch) seen0 w Hlen Ht Hnp) as (d & Hd & Hspec).
  exists d. split; [done|]. unfold held_back, unmet. destruct (existsb (blocked results) (Reqs ch)).
  { destruct Hspec as [-> ->]. done. }
  destruct Hspec as (s' & -> & H1 & H2 & H3 & H4 & H5). simpl in *. unfold conclude.
  rewrite H1, H2, H3, H4, H5.
  destruct (existsb is_onchanges _ && _); simpl; [done|].
  destruct (existsb is_onfail _ && _); simpl; [done|].
  by destruct (existsb (fires results) _).
Qed.

(** The decision on a chunk is exactly its requisites' rules.  For a chunk
    without prereq the evaluation changes nothing in the world, and: it is
    skipped with a failure if and only if a require or watch target failed, or
    none of a require_any or watch_any list succeeded; it is skipped with a
    success if and only if that is not so and its onchanges requisites, or its
    onfail requisites, are all unmet; otherwise it runs, as a watch reaction if
    and only if a watched target changed. *)
Theorem requisites_decide r ch chunks results w :
  length results = length chunks → targets_in (length chunks) ch → no_prereq (Reqs ch) →
  ∃ d, evaluateRequisites r ch chunks results w = Some (d, w) ∧
    skip d = held_back results (Reqs ch) ∧
    (skip d = true → Failed (dResult d) = existsb (blocked results) (Reqs ch)) ∧
    (skip d = false → react_kind (dReaction d) =
       if existsb (fires results) (Reqs ch) then ReactionWatch else "").
Proof. apply evaluateRequisites_rules. Qed.

(** The rules read only the results of the targets. *)
Definition waits_for (k : ReqKind) : bool :=
  match k with Prereq | Listen | Use_ => false | _ => true end.

Lemma rules_local results results' req :
  (waits_for (rKind req) = true → ∀ t, t ∈ Resolved req → result_at results t = result_at results' t) →
  blocked results req = blocked results' req ∧
  onchanges_met results req = onchanges_met results' req ∧
  onfail_met results req = onfail_met results' req ∧
  fires results req = fires results' req.
Proof.
  intros Hag. unfold blocked, onchanges_met, onfail_met, fires.
  destruct (waits_for (rKind req)) eqn:Hw; [specialize (Hag eq_refl)|by destruct (rKind req)].
  assert (Hc : ∀ t, t ∈ Resolved req → changed t results = changed t results').
  { intros t Ht. unfold changed. by rewrite Hag. }
  assert (Hf : ∀ t, t ∈ Resolved req → failed_at results t = failed_at results' t).
  { intros t Ht. unfold failed_at. by rewrite Hag. }
  assert (Hs : ∀ t, t ∈ Resolved req → succeeded_at results t = succeeded_at results' t).
  { intros t Ht. unfold succeeded_at. by rewrite Hag. }
  assert (Hac : anyChanged (Resolved req) results = anyChanged (Resolved req) results')
    by (unfold anyChanged; by apply existsb_ext_in).
  assert (Hlc : allChanged (Resolved req) results = allChanged (Resolved req) results')
    by (unfold allChanged; f_equal; by apply forallb_ext_in).
  assert (Haf : existsb (failed_at results) (Resolved req) = existsb (failed_at results') (Resolved req))
    by by apply existsb_ext_in.
  assert (Hlf : allFailed (Resolved req) results = allFailed (Resolved req) results')
    by (unfold allFailed; f_equal; by apply forallb_ext_in).
  assert (Has : anySucceeded (Resolved req) results = anySucceeded (Resolved req) results')
    by (unfold anySucceeded; by apply existsb_ext_in).
  unfold anyFailed. destruct (rKind req); rewrite ?Hac, ?Hlc, ?Haf, ?Hlf, ?Has; done.
Qed.

Lemma held_back_local results results' reqs :
  (∀ req t, req ∈ reqs → waits_for (rKind req) = true → t ∈ Resolved req →
     result_at results t = result_at results' t) →
  held_back results reqs = held_back results' reqs ∧
  existsb (blocked results) reqs = existsb (blocked results') reqs.
Proof.
  intros Hag.
  assert (Hr : ∀ req, req ∈ reqs → blocked results req = blocked results' req ∧
    onchanges_met results req = onchanges_met results' req ∧
    onfail_met results req = onfail_met results' req ∧ fires results req = fires results' req).
  { intros req Hin. apply rules_local. intros. by eapply Hag. }
  assert (Hb : existsb (blocked results) reqs = existsb (blocked results') reqs)
    by (apply existsb_ext_in; intros; by apply Hr).
  split; [|done]. unfold held_back, unmet. rewrite Hb.
  rewrite (existsb_ext_in (onchanges_met results) (onchanges_met results')) by (intros; by apply Hr).
  by rewrite (existsb_ext_in (onfail_met results) (onfail_met results')) by (intros; by apply Hr).
Qed.

(** ** Retrying *)

(** The [k]-th further attempt, each after its wait. *)
Definition next_attempt r ch react rt (p : Result * S) : Result * S :=
  let '(s, w) := splay r (Splay rt) p.2 in
  attempt_result r ch react (Sleep (rOut r) (wrap64 (Interval rt + s)) w).2.

Definition satisfied rt (res : Result) : bool := Bool.eqb (Succeeded res) (Until rt).

Lemma retry_loop_spec r ch react rt n res w :
  ∃ k, (k ≤ n)%nat ∧
    retry_loop r ch react rt n res w = Nat.iter k (next_attempt r ch react rt) (res, w) ∧
    (∀ j, (j < k)%nat → satisfied rt (Nat.iter j (next_attempt r ch react rt) (res, w)).1 = false) ∧
    (k = n ∨ satisfied rt (Nat.iter k (next_attempt r ch react rt) (res, w)).1 = true).
Proof.
  revert res w. induction n as [|n IH]; intros res w.
  { exists 0%nat. split_and!; [lia|done|lia|by left]. }
  cbn [retry_loop]. destruct (Bool.eqb (Succeeded res) (Until rt)) eqn:Hs.
  { exists 0%nat. split_and!; [lia|done|lia|by right]. }
  destruct (splay r (Splay rt) w) as [x w1] eqn:Hx.
  destruct (Sleep (rOut r) (wrap64 (Interval rt + x)) w1) as [u w2] eqn:Hsl.
  destruct (attempt_result r ch react w2) as [res' w3] eqn:Ha.
  assert (Hnext : next_attempt r ch react rt (res, w) = (res', w3)).
  { unfold next_attempt. simpl. by rewrite Hx, Hsl. }
  destruct (IH res' w3) as (k & Hk & Heq & Hlt & Hor).
  assert (Hit : ∀ j, Nat.iter (Datatypes.S j) (next_attempt r ch react rt) (res, w)
    = Nat.iter j (next_attempt r ch react rt) (res', w3)).
  { intros j. by rewrite Nat.iter_succ_r, Hnext. }
  exists (Datatypes.S k). rewrite Hit. split_and!; [lia|done| |].
  - intros [|j] Hj; [done|]. rewrite Hit. apply Hlt. lia.
  - destruct Hor; [left; lia|by right].
Qed.

(** A state is retried until it is satisfied and no further: a retried
    state makes at most its declared number of attempts (and at least one),
    each further attempt is made only because the result before it did not
    satisfy [until], and it stops before the limit only on a result that does.
    The wait before an attempt is the interval plus a splay from 0 to its
    bound. *)
Theorem retry_bounded r ch react rt w :
  let '(res1, w1) := attempt_result r ch react w in
  let first := notePrivilege r ch res1 in
  let after k := Nat.iter k (next_attempt r ch react rt) (first, w1) in
  ∃ k, Z.of_nat (Datatypes.S k) ≤ Z.max 1 (Attempts rt) ∧
    retry_loop r ch react rt (Z.to_nat (Attempts rt - 1)) first w1 = after k ∧
    (∀ j, (j < k)%nat → satisfied rt (after j).1 = false) ∧
    (Z.of_nat (Datatypes.S k) = Z.max 1 (Attempts rt) ∨ satisfied rt (after k).1 = true) ∧
    ∀ w', 0 ≤ (splay r (Splay rt) w').1 ≤ Z.max 0 (Splay rt).
Proof.
  destruct (attempt_result r ch react w) as [res1 w1]. cbn zeta.
  destruct (retry_loop_spec r ch react rt (Z.to_nat (Attempts rt - 1)) (notePrivilege r ch res1) w1)
    as (k & Hk & Heq & Hlt & Hor).
  exists k. split_and!; [lia|done|done|destruct Hor; [left; lia|by right]|].
  intros w'. unfold splay. destruct (Z.leb_spec (Splay rt) 0); simpl; [lia|].
  destruct (rand_Read (rOut r) w') as [[l|] w2]; simpl.
  - pose proof (Z.mod_pos_bound (bigEndian l) (Splay rt + 1)). lia.
  - Z.div_mod_to_equations. lia.
Qed.

(** ** Test mode

    Two registries that differ only in what their functions do outside test
    mode. *)
Definition agree_in_test (f g : StateFunc S) : Prop :=
  ∀ c args w, cxTest c = true → f c args w = g c args w.
Definition same_in_test (m1 m2 : Module S) : Prop :=
  Sig m1 = Sig m2 ∧ agree_in_test (Fn m1) (Fn m2) ∧ option_Forall2 agree_in_test (ModWatch m1) (ModWatch m2).
Definition registries_agree (r1 r2 : Registry S) : Prop :=
  sigs r1 = sigs r2 ∧ ∀ name, option_Forall2 same_in_test (fns r1 !! name) (fns r2 !! name).

Definition with_States r (reg : Registry S) : Runner := mkRunner reg (rOut r) (rCtx r) (rFailHard r) (Seed r).

Lemma call_with_agree pick goos (g1 g2 : Registry S) c name args w :
  (∀ m1 m2, same_in_test m1 m2 → agree_in_test (pick m1) (pick m2)) →
  registries_agree g1 g2 → cxTest c = true →
  call_with pick goos g1 c name args w = call_with pick goos g2 c name args w.
Proof.
  intros Hp [_ Hf] Hc. unfold call_with. specialize (Hf name).
  destruct Hf as [m1 m2 Hm|]; [|done]. pose proof Hm as (<- & _ & _).
  destruct (CheckPlatform goos (Sig m1)); [done|]. destruct (Bind _ _ _) as [bound errs].
  case_bool_decide; [|done]. by apply Hp.
Qed.
Lemma Call_agree goos (g1 g2 : Registry S) c name args w :
  registries_agree g1 g2 → cxTest c = true → Call goos g1 c name args w = Call goos g2 c name args w.
Proof. apply call_with_agree. by intros m1 m2 (_ & ? & _). Qed.
Lemma CallWatch_agree goos (g1 g2 : Registry S) c name args w :
  registries_agree g1 g2 → cxTest c = true →
  CallWatch goos g1 c name args w = CallWatch goos g2 c name args w.
Proof. apply call_with_agree. intros m1 m2 (_ & ? & [f g Hfg|]); done. Qed.

(** Everything the runner does, over agreeing registries. *)
Section agree.
Context r (reg : Registry S) (Hreg : registries_agree (rStates r) reg).
Abbreviation r' := (with_States r reg).

Lemma bind_agree {A B} (m m' : M A) (f f' : A → M B) w :
  (∀ w, m w = m' w) → (∀ x w, f x w = f' x w) → (m ≫= f) w = (m' ≫= f') w.
Proof. intros Hm Hf. unfold mbind, M_bind. rewrite Hm. destruct (m' w) as [[x w1]|]; [apply Hf|done]. Qed.

Lemma prereq_agree chunks targets w :
  prereqWouldChange r chunks targets w = prereqWouldChange r' chunks targets w.
Proof.
  revert w. induction targets as [|t targets IH]; intros w; simpl; [done|].
  apply bind_agree; [done|]. intros target w1. apply bind_agree.
  - intros w2. unfold lift. by rewrite (Call_agree _ _ reg).
  - intros [?|res] w2; [done|]. destruct (_ || _); [done|]. apply IH.
Qed.

Lemma evaluateRequisites_agree ch chunks results w :
  evaluateRequisites r ch chunks results w = evaluateRequisites r' ch chunks results w.
Proof.
  unfold evaluateRequisites. generalize seen0. revert w. induction (Reqs ch) as [|req reqs IH]; intros w s; [done|].
  cbn [evaluate_reqs]. apply bind_agree.
  - intros w1. unfold evaluate_req. destruct (bool_decide _); [done|]. destruct (rKind req); try done.
    apply bind_agree; [apply prereq_agree|done].
  - intros [d|s'] w1; [done|apply IH].
Qed.

Lemma evaluateGates_agree ch w : evaluateGates r ch w = evaluateGates r' ch w.
Proof.
  assert (Hc : ∀ what met stop conds w, gate_conds r ch what met stop conds w = gate_conds r' ch what met stop conds w).
  { intros what met stop conds. induction conds as [|c conds IH]; intros w0; [done|]. cbn [gate_conds].
    apply bind_agree; [done|]. intros [?|b] w1; [done|]. destruct (Bool.eqb b stop); [done|apply IH]. }
  unfold evaluateGates. apply bind_agree.
  - induction (Creates (Opts ch)) as [|p ps IH]; intros w0; [done|]. cbn [gate_creates].
    apply bind_agree; [done|]. intros [] w1; [done|apply IH].
  - intros [?|] w1; [done|]. apply bind_agree; [apply Hc|]. intros [?|] w2; [done|apply Hc].
Qed.

Context (Htest : cxTest (rCtx r) = true).

Lemma attempt_result_agree ch react w : attempt_result r ch react w = attempt_result r' ch react w.
Proof.
  unfold attempt_result, attempt.
  assert (Hctx : ∀ c, c = with_Reaction (chunkContext r ch) react ∨
    c = with_Timeout (with_Reaction (chunkContext r ch) react) (Timeout (Opts ch)) → cxTest c = true)
    by (by intros c [->| ->]).
  destruct (0 <? Timeout (Opts ch)); destruct (bool_decide (react_kind react ≠ "")); simpl;
    rewrite ?(CallWatch_agree _ (rStates r) reg), ?(Call_agree _ (rStates r) reg) by done; done.
Qed.

Lemma retry_loop_agree ch react rt n res w :
  retry_loop r ch react rt n res w = retry_loop r' ch react rt n res w.
Proof.
  revert res w. induction n as [|n IH]; intros res w; [done|]. cbn [retry_loop].
  destruct (Bool.eqb _ _); [done|]. change (splay r' (Splay rt) w) with (splay r (Splay rt) w).
  destruct (splay r (Splay rt) w) as [x w1]. change (rOut r') with (rOut r).
  destruct (Sleep _ _ w1) as [u w2]. rewrite attempt_result_agree.
  destruct (attempt_result r' ch react w2). apply IH.
Qed.

Lemma OwnsCheckCmd_agree name : OwnsCheckCmd (rStates r) name = OwnsCheckCmd reg name.
Proof.
  unfold OwnsCheckCmd, reg_Lookup. destruct Hreg as [_ Hf]. destruct (Hf name) as [m1 m2 (-> & _)|]; done.
Qed.

Lemma execute_agree ch react w : execute r ch react w = execute r' ch react w.
Proof.
  unfold execute, span_. cbn [rOut with_States]. rewrite attempt_result_agree.
  destruct (attempt_result r' ch react _) as [res w1].
  assert (Hn : notePrivilege r ch res = notePrivilege r' ch res).
  { unfold notePrivilege. cbn [rStates with_States rOut]. destruct Hreg as [-> _]. done. }
  rewrite Hn. clear Hn.
  assert (Hrt : match oRetry (Opts ch) with
      | Some rt => retry_loop r ch react rt (Z.to_nat (Attempts rt - 1)) (notePrivilege r' ch res) w1
      | None => (notePrivilege r' ch res, w1) end
    = match oRetry (Opts ch) with
      | Some rt => retry_loop r' ch react rt (Z.to_nat (Attempts rt - 1)) (notePrivilege r' ch res) w1
      | None => (notePrivilege r' ch res, w1) end).
  { destruct (oRetry (Opts ch)); [apply retry_loop_agree|done]. }
  rewrite Hrt. clear Hrt.
  destruct (match oRetry (Opts ch) with Some _ => _ | None => _ end) as [res2 w2].
  cbn [rStates with_States]. rewrite OwnsCheckCmd_agree.
  assert (Hck : checkCmdResult r ch res2 w2 = checkCmdResult r' ch res2 w2).
  { unfold checkCmdResult. cbn [rCtx with_States]. by rewrite Htest. }
  by rewrite Hck.
Qed.

Lemma runChunk_agree ch react w : runChunk r ch react w = runChunk r' ch react w.
Proof.
  unfold runChunk. apply bind_agree; [apply evaluateGates_agree|]. intros [?|] w1; [done|].
  apply bind_agree; [|done]. intros w2. unfold lift. by rewrite execute_agree.
Qed.

Lemma run_from_agree chunks i rest st w :
  run_from r chunks i rest st w = run_from r' chunks i rest st w.
Proof.
  revert i st w. induction rest as [|ch rest IH]; intros i st w; [done|]. cbn [run_from].
  apply bind_agree; [|intros; apply IH]. intros w1. unfold run_one.
  apply bind_agree; [done|]. intros _ w2. apply bind_agree; [done|]. intros start w3.
  destruct (st_aborted st); [done|]. cbn [Seed with_States]. destruct (Seed r !! cID ch); [done|].
  apply bind_agree; [intros; apply evaluateRequisites_agree|]. intros d w4. destruct (skip d); [done|].
  apply bind_agree; [intros; apply runChunk_agree|]. intros [res held] w5. apply bind_agree; [done|]. done.
Qed.

Lemma runListeners_agree chunks results out w :
  runListeners r chunks results out w = runListeners r' chunks results out w.
Proof.
  revert out w. induction chunks as [|ch chunks IH]; intros out w; [done|]. cbn [runListeners].
  destruct (listens ch results); [|apply IH]. apply bind_agree; [done|]. intros start w1.
  apply bind_agree; [intros; apply runChunk_agree|]. intros [res held] w2.
  apply bind_agree; [done|]. intros now w3. apply IH.
Qed.
End agree.

(** A run in test mode does nothing but ask: it depends on the state
    functions only through what they do in test mode.  If no function acts
    when it is called with test mode on, then nothing acts in such a run,
    whatever the functions do otherwise; the check commands are not run
    either. *)
Theorem test_run_only_tests r reg chunks w :
  registries_agree (rStates r) reg → cxTest (rCtx r) = true →
  Run r chunks w = Run (with_States r reg) chunks w.
Proof.
  intros Hreg Htest. unfold Run. apply bind_agree; [done|]. intros started w1.
  apply bind_agree; [intros; by apply run_from_agree|]. intros st w2.
  apply bind_agree; [|done]. intros w3. destruct (st_aborted st); [done|]. by apply runListeners_agree.
Qed.

(** Also outside test mode, deciding on a prereq only asks: the evaluation
    of a chunk's requisites depends on the state functions only through what
    they do in test mode. *)
Theorem prereq_only_tests r reg ch chunks results w :
  registries_agree (rStates r) reg →
  evaluateRequisites r ch chunks results w = evaluateRequisites (with_States r reg) ch chunks results w.
Proof. intros Hreg. by apply evaluateRequisites_agree. Qed.
End runner.

(** ** Witnesses *)

Section demo.
#[local] Existing Instance demo_runtime.

(** A world that records what happened in it. *)
Definition demo_world := list string.
Definition demo_say {A} (s : string) (x : A) : World.T demo_world A := λ w, (x, s :: w).

Definition demo_outside : Outside (S:=demo_world) :=
  mkOutside "linux" 0 (λ _ c, demo_say "run" (inr 0)) (λ _ f _ _, demo_say f (inr (VBool true)))
    (λ _ w, (false, w)) (λ w, (0, w)) (λ _, demo_say "sleep" tt) (λ w, (Some [0; 1], w))
    (λ _ w, ((), w)) (λ _ _ _ w, ((), w)).

Definition demo_fsig (f : string) : Signature :=
  mkSignature "test" f "" [mkParam "name" TString false VNull "" false false [] ""]
    false TestReliable [] [] false false "" "".
Definition demo_changes : Map := MapOf [(VString "x", VInt 1)].

(** test.fail fails; test.change says what it would change in test mode, and
    otherwise changes the world, in a way the argument [act] chooses. *)
Definition demo_registry (act : string) : Registry demo_world :=
  default NewRegistry (reg_Add NewRegistry [
    mkModule (demo_fsig "fail") (λ _ _, demo_say "fail" (inr (False_ "It failed."))) None;
    mkModule (demo_fsig "change") (λ c _ w,
      if cxTest c then (inr (WouldChange "It would change." (Some demo_changes)), w)
      else (inr (Changed_ "It changed." (Some demo_changes)), act :: w)) None]).

Definition demo_runner (test failhard : bool) (act : string) (seed : gmap string Result) : Runner (S:=demo_world) :=
  mkRunner (demo_registry act) demo_outside (mkContext test "" "" [] "" "" [] []) failhard seed.

Definition demo_chunk (id f : string) (reqs : list Req) : Chunk :=
  mkChunk id "s" "base" "test" f id NewMap reqs zeroOptions NewMap 0 0 0 noPos.
Definition demo_ref (id : string) : ReqRef := mkRef "test" id "" noPos.

Definition demo_run_low : list Chunk := [
  demo_chunk "a" "change" [];
  demo_chunk "b" "fail" [];
  demo_chunk "c" "change" [mkReq Require_ [demo_ref "b"] [1%nat]];
  demo_chunk "d" "change" [mkReq OnChanges [demo_ref "a"] [0%nat]; mkReq Listen [demo_ref "a"] [0%nat]]].

Definition demo_out (r : Runner (S:=demo_world)) : RunResult :=
  match Run r demo_run_low [] with Some (out, _) => out | None => mkRR [] false "" 0 0 end.
Definition demo_end (r : Runner (S:=demo_world)) : demo_world :=
  match Run r demo_run_low [] with Some (_, w) => w | None => [] end.

Lemma demo_targets_in : Forall (targets_in (length demo_run_low)) demo_run_low.
Proof.
  apply Forall_forall. intros ch Hch req t Hreq Ht.
  repeat (apply elem_of_cons in Hch as [->|Hch];
    [simpl in Hreq; repeat (apply elem_of_cons in Hreq as [->|Hreq];
      [simpl in Ht; apply list_elem_of_singleton in Ht; subst; simpl; lia|]); by apply elem_of_nil in Hreq|]).
  by apply elem_of_nil in Hch.
Qed.

Lemma Run_reports_every_chunk_witness :
  ∃ out w', Run (demo_runner false false "act" ∅) demo_run_low [] = Some (out, w') ∧
    srChunk <$> drop 4 (Results out) = [demo_chunk "d" "change" [mkReq OnChanges [demo_ref "a"] [0%nat]; mkReq Listen [demo_ref "a"] [0%nat]]].
Proof.
  destruct (Run_reports_every_chunk (demo_runner false false "act" ∅) demo_run_low []) as (out & w' & H & _ & _ & H3).
  - apply demo_targets_in.
  - exists out, w'. split; [exact H|]. etransitivity; [exact H3|]. vm_compute in H. injection H as <- <-. reflexivity.
Defined.

Lemma requisites_decide_witness :
  ∃ d, evaluateRequisites (demo_runner false false "act" ∅) (demo_chunk "c" "change" [mkReq Require_ [demo_ref "b"] [1%nat]])
      demo_run_low (Some <$> take 4 (Results (demo_out (demo_runner false false "act" ∅)))) [] = Some (d, []) ∧ skip d = true.
Proof.
  destruct (requisites_decide (demo_runner false false "act" ∅) (demo_chunk "c" "change" [mkReq Require_ [demo_ref "b"] [1%nat]])
    demo_run_low (Some <$> take 4 (Results (demo_out (demo_runner false false "act" ∅)))) []) as (d & H1 & H2 & _).
  - reflexivity.
  - apply (proj1 (Forall_forall _ _) demo_targets_in). unfold demo_run_low. set_solver.
  - intros req Hreq. apply list_elem_of_singleton in Hreq. by subst.
  - exists d. split; [exact H1|]. rewrite H2. vm_compute. reflexivity.
Defined.

Lemma demo_ordered : RunOrdered demo_run_low.
Proof.
  intros i c req t Hc Hreq Ht.
  repeat (destruct i as [|i]; [simpl in Hc; injection Hc as <-; simpl in Hreq;
    repeat (apply elem_of_cons in Hreq as [->|Hreq];
      [simpl in Ht; apply list_elem_of_singleton in Ht; subst; simpl; lia|]); by apply elem_of_nil in Hreq|]).
  done.
Qed.

Lemma demo_agree a b : registries_agree (demo_registry a) (demo_registry b).
Proof.
  split; [reflexivity|]. intros name.
  assert (Hf : ∀ act, ∃ m1 m2, fns (demo_registry act) = <["test.change" := m2]> (<["test.fail" := m1]> ∅)).
  { intros act. eexists _, _. reflexivity. }
  destruct (decide (name = "test.change")) as [->|H1].
  { vm_compute. constructor. split; [done|]. split; [|constructor]. intros c args w Hc. by rewrite Hc. }
  destruct (decide (name = "test.fail")) as [->|H2].
  { vm_compute. constructor. split; [done|]. split; [|constructor]. by intros c args w Hc. }
  destruct (Hf a) as (? & ? & ->), (Hf b) as (? & ? & ->).
  rewrite !lookup_insert_ne by done. rewrite !lookup_empty. constructor.
Qed.

Lemma test_run_only_tests_witness :
  Run (demo_runner true false "act" ∅) demo_run_low [] = Run (demo_runner true false "other" ∅) demo_run_low [] ∧
  Run (demo_runner false false "act" ∅) demo_run_low [] ≠ Run (demo_runner false false "other" ∅) demo_run_low [].
Proof.
  split.
  - apply (test_run_only_tests (demo_runner true false "act" ∅) (demo_registry "other")); [apply demo_agree|reflexivity].
  - intros H. vm_compute in H. discriminate.
Defined.

Lemma prereq_only_tests_witness :
  evaluateRequisites (demo_runner false false "act" ∅) (demo_chunk "p" "change" [mkReq Prereq [demo_ref "a"] [0%nat]]) demo_run_low [] [] =
  evaluateRequisites (demo_runner false false "other" ∅) (demo_chunk "p" "change" [mkReq Prereq [demo_ref "a"] [0%nat]]) demo_run_low [] [].
Proof. apply (prereq_only_tests (demo_runner false false "act" ∅) (demo_registry "other")). apply demo_agree. Defined.

(** A step that is seeded as having succeeded does not satisfy a require_any,
    so a resumed run refuses what a full run would have executed. *)
Definition demo_resume : list Chunk := [
  demo_chunk "a" "change" []; demo_chunk "b" "change" [mkReq RequireAny [demo_ref "a"] [0%nat]]].

Lemma seeded_require_any_refused :
  (λ p, (λ sr, Result_ (srResult sr)) <$> Results p.1) <$>
    Run (demo_runner false false "act" {["a" := True_ "It ran before."]}) demo_resume []
    = Some [Some true; Some false] ∧
  (λ p, (λ sr, Result_ (srResult sr)) <$> Results p.1) <$>
    Run (demo_runner false false "act" ∅) demo_resume [] = Some [Some true; Some true].
Proof. split; vm_compute; reflexivity. Qed.
End demo.
