(* ===== verification/RunTurns.v ===== *)
(** * The turns of a run and what they do to the world

    [Runner.Run] threads the world through the turns of its loop and then
    through the listeners.  This file states what each turn may do to it:
    [turn_spec] says, from the results alone, whether the state function of a
    chunk is called, and which world the turn leaves in either case.  A run is
    a chain of worlds, one turn between each two ([Run_turns]), so what no turn
    does is not done.  The theorems on requisites and on failhard follow. *)

From S2P Require Import Prelude GoLib Value StateTypes Signature States Runner.

Open Scope Z_scope.

Section turns.
Context `{Runtime} {S : Type}.
Import World.
Abbreviation Runner := (Runner (S:=S)).
Abbreviation M := (World.M S).
Abbreviation results_t := (list (option StateResult)).
Implicit Types (r : Runner) (ch : Chunk).

(** ** Rehearsals

    The only calls that deciding on a chunk makes: a target of one of its
    prereqs, in test mode. *)

Definition rehearse r (c : Chunk) (w : S) : (string + Result) * S :=
  Call (GOOS (rOut r)) (rStates r) (with_Test (rCtx r) true) (Func c) (Args c) w.

Definition rehearsal r (chunks : list Chunk) (reqs : list Req) (w w' : S) : Prop :=
  ∃ req t c, req ∈ reqs ∧ rKind req = Prereq ∧ t ∈ Resolved req ∧ chunks !! t = Some c ∧
    w' = (rehearse r c w).2.

(** A rehearsal predicts a change if it says so, cannot tell, or fails. *)
Definition predicts (res : string + Result) : bool :=
  match res with inl _ => true | inr res => bool_decide (Result_ res = None) || HasChanges res end.

(** Target [t], rehearsed at some point of the decision, said [b]. *)
Definition foresees r chunks reqs (w : S) (t : nat) (b : bool) : Prop :=
  ∃ c w1, chunks !! t = Some c ∧ rtc (rehearsal r chunks reqs) w w1 ∧ predicts (rehearse r c w1).1 = b.

Definition idle_prereq r chunks (reqs among : list Req) (w : S) : Prop :=
  ∃ req, req ∈ among ∧ rKind req = Prereq ∧ Resolved req ≠ [] ∧
    ∀ t, t ∈ Resolved req → foresees r chunks reqs w t false.
Definition prereqs_foreseen r chunks (reqs among : list Req) (w : S) : Prop :=
  ∀ req, req ∈ among → rKind req = Prereq → Resolved req ≠ [] →
    ∃ t, t ∈ Resolved req ∧ foresees r chunks reqs w t true.

Lemma foresees_later r chunks reqs w w1 t b :
  rtc (rehearsal r chunks reqs) w w1 → foresees r chunks reqs w1 t b → foresees r chunks reqs w t b.
Proof. intros H1 (c & w2 & Hc & H2 & Hp). exists c, w2. split_and!; [done|by etransitivity|done]. Qed.

Lemma prereq_rehearses r chunks reqs req targets w b w' :
  req ∈ reqs → rKind req = Prereq → (∀ t, t ∈ targets → t ∈ Resolved req) →
  prereqWouldChange r chunks targets w = Some (b, w') →
  rtc (rehearsal r chunks reqs) w w' ∧
  if b then ∃ t, t ∈ targets ∧ foresees r chunks reqs w t true
  else ∀ t, t ∈ targets → foresees r chunks reqs w t false.
Proof.
  intros Hreq Hk. revert w. induction targets as [|t targets IH]; intros w Ht Hrun; simpl in Hrun.
  { inv_M Hrun. split; [done|]. by intros t []%elem_of_nil. }
  apply bind_Some in Hrun as (c & w0 & Hc & Hrun). unfold index in Hc.
  destruct (chunks !! t) as [c0|] eqn:Hct; [|done]. inversion Hc; subst; clear Hc.
  apply bind_Some in Hrun as (res & w1 & Hres & Hrun). unfold lift in Hres.
  destruct (Call _ _ _ _ _ w0) as [res' w1'] eqn:Hcall. simplify_eq.
  assert (Hre : rehearse r c w0 = (res, w1)) by done.
  assert (Hstep : rehearsal r chunks reqs w0 w1).
  { exists req, t, c. split_and!; [done|done|apply Ht; left|done|by rewrite Hre]. }
  assert (Hf : ∀ b, predicts res = b → foresees r chunks reqs w0 t b).
  { intros b0 Hb0. exists c, w0. rewrite Hre. split_and!; [done|reflexivity|done]. }
  assert (Hp : (predicts res = true ∧ b = true ∧ w' = w1) ∨
    (predicts res = false ∧ prereqWouldChange r chunks targets w1 = Some (b, w'))).
  { destruct res as [e|res]; [left; by inversion Hrun|]. simpl. destruct (_ || _); [left; by inversion Hrun|by right]. }
  destruct Hp as [(Hp & -> & ->)|[Hp Hrest]].
  - split; [by apply rtc_once|]. exists t. split; [left|by apply Hf].
  - destruct (IH w1) as [Hrtc Hb]; [intros t' ?; apply Ht; by right|done|].
    split; [by eapply rtc_l|]. destruct b.
    + destruct Hb as (t' & Ht' & Hb). exists t'. split; [by right|]. eapply foresees_later; [by apply rtc_once|done].
    + intros t' [->|Ht']%elem_of_cons; [by apply Hf|]. eapply foresees_later; [by apply rtc_once|by apply Hb].
Qed.

(** ** The decision, prereqs included *)

Definition sees_all (results : results_t) (reqs : list Req) (s s' : seen) : Prop :=
  sawOnChanges s' = sawOnChanges s || existsb is_onchanges reqs ∧
  onChangesSatisfied s' = onChangesSatisfied s || existsb (onchanges_met results) reqs ∧
  sawOnFail s' = sawOnFail s || existsb is_onfail reqs ∧
  onFailSatisfied s' = onFailSatisfied s || existsb (onfail_met results) reqs ∧
  watchFired s' = watchFired s || existsb (fires results) reqs.

Lemma sees_all_cons results req reqs s s1 s' :
  saw results s s1 req → sees_all results reqs s1 s' → sees_all results (req :: reqs) s s'.
Proof.
  intros (H1 & H2 & H3 & H4 & H5) (E1 & E2 & E3 & E4 & E5). unfold sees_all. simpl.
  rewrite E1, E2, E3, E4, E5, H1, H2, H3, H4, H5, !orb_assoc. done.
Qed.

(** One requisite of any kind: it holds the chunk back, or what is seen in it
    goes into the conclusion. *)
Lemma evaluate_req_turn r chunks results reqs req s w o w' :
  req ∈ reqs → length results = length chunks → (∀ t, t ∈ Resolved req → (t < length chunks)%nat) →
  evaluate_req r chunks results req s w = Some (o, w') →
  rtc (rehearsal r chunks reqs) w w' ∧
  match o with
  | inl d => skip d = true ∧
      ((rKind req ≠ Prereq ∧ blocked results req = true ∧ Failed (dResult d) = true) ∨
       (rKind req = Prereq ∧ Failed (dResult d) = false ∧ Resolved req ≠ [] ∧
        ∀ t, t ∈ Resolved req → foresees r chunks reqs w t false))
  | inr s' => blocked results req = false ∧ saw results s s' req ∧
      (rKind req = Prereq → Resolved req ≠ [] → ∃ t, t ∈ Resolved req ∧ foresees r chunks reqs w t true)
  end.
Proof.
  intros Hin Hlen Ht Hev. destruct (decide (rKind req = Prereq)) as [Hk|Hk].
  - assert (Hsaw : blocked results req = false ∧ saw results s s req).
    { unfold blocked, saw, is_onchanges, onchanges_met, is_onfail, onfail_met, fires. rewrite Hk.
      simpl. by rewrite !andb_false_r, !orb_false_r. }
    unfold evaluate_req in Hev. rewrite Hk in Hev. case_bool_decide as He.
    { inversion Hev; subst. destruct Hsaw. by split_and!. }
    apply bind_Some in Hev as (b & w1 & Hb & Hev).
    destruct (prereq_rehearses r chunks reqs req (Resolved req) w b w1) as [Hr Hf]; [done..|].
    destruct b; inversion Hev; subst; (split; [done|]).
    + destruct Hsaw. by split_and!.
    + split; [done|]. right. by split_and!.
  - destruct (evaluate_req_decides r chunks results req s w) as (o' & Ho' & Hd); [done..|].
    rewrite Ho' in Hev. simplify_eq. split; [done|]. destruct o as [d|s'].
    + destruct Hd as (? & ? & ?). split; [done|]. left. by split_and!.
    + destruct Hd. by split_and!.
Qed.

Lemma evaluate_reqs_turn r chunks results reqs among s w d w' :
  (∀ req, req ∈ among → req ∈ reqs) → length results = length chunks →
  (∀ req t, req ∈ among → t ∈ Resolved req → (t < length chunks)%nat) →
  evaluate_reqs r chunks results among s w = Some (d, w') →
  rtc (rehearsal r chunks reqs) w w' ∧
  ((skip d = true ∧ (existsb (blocked results) among = true ∨ idle_prereq r chunks reqs among w) ∧
    (no_prereq among → existsb (blocked results) among = true ∧ Failed (dResult d) = true)) ∨
   (existsb (blocked results) among = false ∧ prereqs_foreseen r chunks reqs among w ∧
    ∃ s', d = conclude s' ∧ sees_all results among s s')).
Proof.
  intros Hsub Hlen. revert s w Hsub. induction among as [|req among IH]; intros s w Hsub Ht Hev; simpl in Hev.
  { inversion Hev; subst. split; [done|]. right. split_and!; [done|by intros req []%elem_of_nil|].
    exists s. split; [done|]. unfold sees_all. simpl. by rewrite !orb_false_r. }
  apply bind_Some in Hev as (o & w1 & Ho & Hev).
  apply (evaluate_req_turn r chunks results reqs) in Ho as [Hr Ho];
    [|apply Hsub; left|done|intros t; apply Ht; left].
  destruct o as [d0|s1].
  - inversion Hev; subst. split; [done|]. left. destruct Ho as [Hsk [(Hk & Hb & Hf)|(Hk & Hf & Hne & Hall)]].
    + split_and!; [done|left; simpl; by rewrite Hb|]. intros _. simpl. by rewrite Hb.
    + split_and!; [done|right; exists req; split_and!; [left|done..]|]. intros Hnp. destruct (Hnp req); [left|done].
  - destruct Ho as (Hb & Hsaw & Hpre).
    destruct (IH s1 w1) as [Hr1 Hcase]; [intros req' ?; apply Hsub; by right|intros req' t ?; apply Ht; by right|done|].
    split; [by etransitivity|]. simpl. rewrite Hb. destruct Hcase as [(Hsk & Hwhy & Hnp)|(Hnb & Hfor & s' & -> & Hsees)].
    + left. split_and!; [done| |intros Hn; apply Hnp; intros req' ?; apply Hn; by right].
      destruct Hwhy as [Hwhy|(req' & Hin & Hk' & Hne & Hall)]; [by left|right].
      exists req'. split_and!; [by right|done|done|]. intros t Hin'. eapply foresees_later; [done|by apply Hall].
    + right. split_and!; [done| |exists s'; split; [done|by eapply sees_all_cons]].
      intros req' [->|Hin]%elem_of_cons Hk' Hne; [by apply Hpre|].
      destruct (Hfor req' Hin Hk' Hne) as (t & Hin' & Hfs). exists t. split; [done|by eapply foresees_later].
Qed.

Lemma evaluateRequisites_turn r ch chunks results w d w' :
  length results = length chunks → targets_in (length chunks) ch →
  evaluateRequisites r ch chunks results w = Some (d, w') →
  rtc (rehearsal r chunks (Reqs ch)) w w' ∧
  if skip d
  then (held_back results (Reqs ch) = true ∨ idle_prereq r chunks (Reqs ch) (Reqs ch) w) ∧
    (no_prereq (Reqs ch) → Failed (dResult d) = existsb (blocked results) (Reqs ch))
  else held_back results (Reqs ch) = false ∧ prereqs_foreseen r chunks (Reqs ch) (Reqs ch) w ∧
    react_kind (dReaction d) = if existsb (fires results) (Reqs ch) then ReactionWatch else "".
Proof.
  intros Hlen Ht Hev. eapply evaluate_reqs_turn in Hev as [Hr Hcase]; [|by intros req Hr; exact Hr|done|exact Ht].
  split; [done|]. unfold held_back, unmet.
  destruct Hcase as [(-> & Hwhy & Hnp)|(Hnb & Hfor & s' & -> & H1 & H2 & H3 & H4 & H5)].
  - split; [|intros Hn; by destruct (Hnp Hn) as [-> ->]]. destruct Hwhy as [->|?]; [by left|by right].
  - rewrite Hnb. simpl in *. unfold conclude. rewrite H1, H2, H3, H4, H5.
    destruct (existsb is_onchanges _ && _); simpl; [by split; [left|]|].
    destruct (existsb is_onfail _ && _); simpl; [by split; [left|]|].
    by destruct (existsb (fires results) _).
Qed.

(** ** What a turn does *)

(** A turn begins with a sign of progress and a look at the clock. *)
Definition turn_start r (chunks : list Chunk) (i : nat) ch (w : S) : S :=
  (Now (rOut r) (Progress (rOut r) ch i (length chunks) w).2).2.

(** The state of the chunk is executed, and its result reported. *)
Definition executed r ch (react : reaction) (w : S) (sr : StateResult) (wa : S) : Prop :=
  srResult sr = (execute r ch react w).1 ∧ Skipped sr = false ∧
  wa = (Now (rOut r) (execute r ch react w).2).2.

(** Past the requisites: the gates, then the state. *)
Definition acted r ch (react : reaction) (w : S) (sr : StateResult) (wa : S) : Prop :=
  ∃ g w1, evaluateGates r ch w = Some (g, w1) ∧
    match g with
    | Some res => srResult sr = res ∧ Skipped sr = true ∧ wa = (Now (rOut r) w1).2
    | None => executed r ch react w1 sr wa
    end.

(** A turn that is decided by the requisites: [held] says that they hold the
    chunk back, [blk] that they do so as a failure, [watch] that a watched
    state changed. *)
Definition decided r (chunks : list Chunk) ch (held blk watch : Prop) (w : S) (sr : StateResult) (wa : S) : Prop :=
  ∃ w1, rtc (rehearsal r chunks (Reqs ch)) w w1 ∧
    (((held ∨ idle_prereq r chunks (Reqs ch) (Reqs ch) w) ∧
      Skipped sr = true ∧ wa = (Now (rOut r) w1).2 ∧
      (no_prereq (Reqs ch) → Failed (srResult sr) = true ↔ blk)) ∨
     (¬ held ∧ prereqs_foreseen r chunks (Reqs ch) (Reqs ch) w ∧
      ∃ react, react_kind react ∈ [""; ReactionWatch] ∧ (react_kind react = ReactionWatch ↔ watch) ∧
        acted r ch react w1 sr wa)).

(** The turn of chunk [i], [main] being the results of all chunks. *)
Definition turn_spec r (chunks : list Chunk) (main : list StateResult) (i : nat) ch
    (held blk watch : Prop) (sr : StateResult) (wb wa : S) : Prop :=
  let w := turn_start r chunks i ch wb in
  if existsb (stops r) (take i main) then not_attempted sr ∧ wa = w
  else match Seed r !! cID ch with
       | Some res => Skipped sr = true ∧ srResult sr = res ∧ wa = w
       | None => decided r chunks ch held blk watch w sr wa
       end.

#[global] Instance decided_proper r chunks ch :
  Proper (iff ==> iff ==> iff ==> eq ==> eq ==> eq ==> iff) (decided r chunks ch).
Proof.
  intros h1 h2 Hh b1 b2 Hb v1 v2 Hv w ? <- sr ? <- wa ? <-. unfold decided.
  by setoid_rewrite Hh; setoid_rewrite Hb; setoid_rewrite Hv.
Qed.
#[global] Instance turn_spec_proper r chunks main i ch :
  Proper (iff ==> iff ==> iff ==> eq ==> eq ==> eq ==> iff) (turn_spec r chunks main i ch).
Proof.
  intros h1 h2 Hh b1 b2 Hb v1 v2 Hv sr ? <- wb ? <- wa ? <-. unfold turn_spec.
  destruct (existsb _ _); [done|]. destruct (Seed r !! cID ch); [done|]. by rewrite Hh, Hb, Hv.
Qed.

Lemma run_one_turn r chunks i ch st wb st' wa sr :
  length (st_results st) = length chunks → targets_in (length chunks) ch →
  run_one r chunks i ch st wb = Some (st', wa) → st_out st' = st_out st ++ [sr] →
  let w := turn_start r chunks i ch wb in
  match st_aborted st, Seed r !! cID ch with
  | Some _, _ => not_attempted sr ∧ wa = w
  | None, Some res => Skipped sr = true ∧ srResult sr = res ∧ wa = w
  | None, None => ∃ sr0, let results := <[i := Some sr0]> (st_results st) in
      decided r chunks ch (held_back results (Reqs ch) = true) (existsb (blocked results) (Reqs ch) = true)
        (existsb (fires results) (Reqs ch) = true) w sr wa
  end.
Proof.
  intros Hlen Ht Hrun Hout. cbn zeta. unfold run_one, turn_start in *.
  apply bind_Some in Hrun as (u & w0 & E0 & Hrun). apply bind_Some in Hrun as (start & w1 & E1 & Hrun).
  unfold lift in E0, E1. injection E0 as E0. injection E1 as E1. rewrite E0. simpl. rewrite E1. simpl.
  destruct (st_aborted st); [inversion Hrun; subst; by apply app_inj_tail in Hout as [_ <-]|].
  destruct (Seed r !! cID ch); [inversion Hrun; subst; by apply app_inj_tail in Hout as [_ <-]|].
  apply bind_Some in Hrun as (d & w2 & Hd & Hrun). eexists. exists w2.
  apply evaluateRequisites_turn in Hd as [Hr Hd]; [|by rewrite length_insert|done]. split; [exact Hr|].
  destruct (skip d).
  - left. apply bind_Some in Hrun as (now & w3 & E3 & Hrun). injection E3 as E3. inversion Hrun; subst.
    apply app_inj_tail in Hout as [_ <-]. rewrite E3. simpl. destruct Hd as [Hwhy Hnp]. split_and!; [exact Hwhy|done|done|].
    intros Hn. by rewrite (Hnp Hn).
  - right. destruct Hd as (Hh & Hf & Hk). split; [by rewrite Hh|]. split; [done|]. exists (dReaction d).
    rewrite Hk. split; [destruct (existsb _ _); set_solver|]. split; [by destruct (existsb _ _)|].
    apply bind_Some in Hrun as ([res held] & w3 & Hc & Hrun). apply bind_Some in Hrun as (now & w4 & E4 & Hrun).
    injection E4 as E4. unfold runChunk in Hc. apply bind_Some in Hc as (g & w5 & Hg & Hc). exists g, w5. split; [done|].
    destruct g as [res'|].
    + inversion Hc; subst. inversion Hrun; subst. apply app_inj_tail in Hout as [_ <-]. by rewrite E4.
    + apply bind_Some in Hc as (res' & w6 & Hx & Hc). injection Hx as Hx. inversion Hc; subst.
      assert (Hsr : srResult sr = res ∧ Skipped sr = false ∧ wa = w4).
      { destruct (_ && _); inversion Hrun; subst; by apply app_inj_tail in Hout as [_ <-]. }
      unfold executed. rewrite Hx. simpl. by rewrite E4.
Qed.

(** ** A run as a chain of worlds *)

Lemma run_from_worlds r chunks rest i st w st' w' :
  course chunks i st → abort_story r st → drop i chunks = rest →
  run_from r chunks i rest st w = Some (st', w') →
  ∃ ws, length ws = Datatypes.S (length rest) ∧ ws !! 0%nat = Some w ∧ ws !! length rest = Some w' ∧
    ∀ k wb wa, ws !! k = Some wb → ws !! Datatypes.S k = Some wa →
      ∃ ch st1 st2, chunks !! (i + k)%nat = Some ch ∧ course chunks (i + k) st1 ∧ abort_story r st1 ∧
        run_one r chunks (i + k) ch st1 wb = Some (st2, wa) ∧
        st_out st1 = take (i + k) (st_out st') ∧ st_out st2 = take (Datatypes.S (i + k)) (st_out st').
Proof.
  revert i st w. induction rest as [|ch rest IH]; intros i st w Hc Hs Hd Hrun; simpl in Hrun.
  { inversion Hrun; subst. exists [w']. split_and!; [done..|]. by intros k wb wa _ ?%lookup_lt_Some%Nat.succ_lt_mono%Nat.nlt_0_r. }
  apply bind_Some in Hrun as (st1 & w1 & H1 & H2).
  assert (Hch : chunks !! i = Some ch) by (rewrite <-(Nat.add_0_r i), <-lookup_drop, Hd; done).
  assert (Hd' : drop (Datatypes.S i) chunks = rest) by (rewrite (drop_S _ _ _ Hch) in Hd; by simplify_eq).
  pose proof (course_step _ _ _ _ _ _ _ _ Hc Hch H1) as Hc1.
  destruct (IH _ _ _ Hc1 (run_one_story _ _ _ _ _ _ _ _ Hs H1) Hd' H2) as (ws & Hlen & H0 & Hl & Hk).
  destruct (run_from_course _ _ _ _ _ _ _ _ Hc1 Hd' H2) as [_ [l Hout]].
  exists (w :: ws). split_and!; [simpl; lia|done|done|]. intros [|k] wb wa Hb Ha; simpl in Hb, Ha.
  - simplify_eq. exists ch, st, st1. rewrite Nat.add_0_r. split_and!; [done..| |].
    + pose proof (run_one_adds _ _ _ _ _ _ _ _ H1) as (sr & _ & Ho & _).
      rewrite Hout, Ho, <-app_assoc, take_app_le, take_ge; [done|rewrite (course_len _ _ _ Hc); lia..].
    + rewrite Hout, take_app_le, take_ge; [done|rewrite (course_len _ _ _ Hc1); lia..].
  - rewrite <-Nat.add_succ_comm. by apply Hk.
Qed.

(** The worlds between the turns of a run, from the look at the clock that
    starts it to the listeners, which are not run after an abort, and the look
    at the clock that ends it. *)
Record worlds_of r (chunks : list Chunk) (w : S) (out : RunResult) (w' : S) (ws : list S) : Prop := {
  ws_len : length ws = Datatypes.S (length chunks);
  ws_first : ws !! 0%nat = Some (Now (rOut r) w).2;
  ws_last : ∃ wl w2, ws !! length chunks = Some wl ∧ w' = (Now (rOut r) w2).2 ∧
    let main := take (length chunks) (Results out) in
    if Aborted out then w2 = wl ∧ Results out = main
    else runListeners r chunks (Some <$> main) main wl = Some (Results out, w2) }.

Lemma abort_story_stops r st :
  abort_story r st → existsb (stops r) (st_out st) = bool_decide (is_Some (st_aborted st)).
Proof.
  unfold abort_story. intros Hs. symmetry. destruct (st_aborted st) as [b|].
  - rewrite bool_decide_eq_true_2 by done. destruct Hs as (k & sr & Hk & Hst & _). symmetry.
    apply existsb_exists. exists sr. split; [|done]. apply list_elem_of_In. by eapply list_elem_of_lookup_2.
  - rewrite bool_decide_eq_false_2 by (by intros []). symmetry. apply not_true_is_false.
    intros (sr & [k Hk]%list_elem_of_In%list_elem_of_lookup & Hst)%existsb_exists. by rewrite (Hs k sr Hk) in Hst.
Qed.

Lemma rules_final chunks i ch st1 main sr0 :
  RunOrdered chunks → chunks !! i = Some ch → course chunks i st1 → st_out st1 = take i main →
  (i ≤ length main)%nat →
  let results := <[i := Some sr0]> (st_results st1) in
  held_back results (Reqs ch) = held_back (Some <$> main) (Reqs ch) ∧
  existsb (blocked results) (Reqs ch) = existsb (blocked (Some <$> main)) (Reqs ch) ∧
  existsb (fires results) (Reqs ch) = existsb (fires (Some <$> main)) (Reqs ch).
Proof.
  intros Hord Hch Hc Ho Hi. cbn zeta.
  assert (Hag : ∀ req t, req ∈ Reqs ch → waits_for (rKind req) = true → t ∈ Resolved req →
    result_at (<[i := Some sr0]> (st_results st1)) t = result_at (Some <$> main) t).
  { intros req t Hreq Hw Ht. destruct (run_ordered i ch req t Hch Hreq Ht) as [_ Hti].
    assert (t < i)%nat by (destruct (rKind req); done).
    unfold result_at. rewrite list_lookup_insert_ne by lia. rewrite (course_results _ _ _ Hc), Ho.
    rewrite lookup_app_l by (rewrite length_fmap, length_take; lia).
    by rewrite !list_lookup_fmap, lookup_take_lt. }
  destruct (held_back_local _ _ _ Hag) as [-> ->]. split_and!; [done..|].
  apply existsb_ext_in. intros req Hreq. apply rules_local. intros Hw t Ht. by eapply Hag.
Qed.

(** Every turn of a run is as specified, on the final results. *)
Lemma Run_turns r chunks w out w' :
  RunOrdered chunks → Run r chunks w = Some (out, w') →
  let main := take (length chunks) (Results out) in
  ∃ ws, worlds_of r chunks w out w' ws ∧
    ∀ i ch sr wb wa, chunks !! i = Some ch → main !! i = Some sr →
      ws !! i = Some wb → ws !! Datatypes.S i = Some wa →
      turn_spec r chunks main i ch (held_back (Some <$> main) (Reqs ch) = true)
        (existsb (blocked (Some <$> main)) (Reqs ch) = true)
        (existsb (fires (Some <$> main)) (Reqs ch) = true) sr wb wa.
Proof.
  intros Hord Hrun. cbn zeta. unfold Run in Hrun. apply bind_Some in Hrun as (t0 & w0 & E0 & Hrun). injection E0 as E0.
  apply bind_Some in Hrun as (st & w1 & Hfrom & Hrun). apply bind_Some in Hrun as (l & w2 & Hl & Hrun).
  apply bind_Some in Hrun as (t1 & w3 & E1 & Hrun). injection E1 as E1. inversion Hrun; subst; clear Hrun. simpl.
  destruct (run_from_course _ _ _ _ _ _ _ _ (course_start chunks) (drop_0 _) Hfrom) as [Hc _].
  assert (Hres : st_results st = Some <$> st_out st).
  { rewrite (course_results _ _ _ Hc), Nat.sub_diag. simpl. by rewrite app_nil_r. }
  pose proof (course_len _ _ _ Hc) as Hlen.
  assert (Hmain : take (length chunks) l = st_out st).
  { destruct (st_aborted st); [inversion Hl; subst; by rewrite take_ge by lia|].
    apply runListeners_adds in Hl as (l' & -> & _). by rewrite take_app_length'. }
  assert (Hs0 : abort_story r (run0 chunks)) by (by intros k sr).
  destruct (run_from_worlds _ _ _ _ _ _ _ _ (course_start chunks) Hs0 (drop_0 _) Hfrom) as (ws & Hwl & Hw0 & Hwn & Hk).
  exists ws. rewrite Hmain. split.
  - split; simpl; [done|by rewrite E0|]. exists w1, w2. split_and!; [done|by rewrite E1|]. rewrite Hmain.
    destruct (st_aborted st); [by inversion Hl|]. rewrite bool_decide_eq_false_2 by (by intros []). by rewrite <-Hres.
  - intros i ch sr wb wa Hch Hsr Hb Ha. destruct (Hk i wb wa Hb Ha) as (ch' & st1 & st2 & Hch' & Hc1 & Hs1 & H1 & Ho1 & Ho2).
    simpl in *. simplify_eq. rewrite (take_S_r _ _ _ Hsr), <-Ho1 in Ho2.
    apply (run_one_turn _ _ _ _ _ _ _ _ sr) in H1; [|by eapply course_results_len|
      by intros req t Hr Ht; apply (run_ordered i ch req t)|done].
    unfold turn_spec. rewrite <-Ho1, (abort_story_stops r st1 Hs1).
    destruct (st_aborted st1); [by rewrite bool_decide_eq_true_2|]. rewrite bool_decide_eq_false_2 by (by intros []).
    destruct (Seed r !! cID ch); [done|]. destruct H1 as [sr0 H1].
    destruct (rules_final chunks i ch st1 (st_out st) sr0) as (E2 & E3 & E4); [done..|apply lookup_lt_Some in Hsr; lia|].
    cbn zeta in *. by rewrite E2, E3, E4 in H1.
Qed.

(** ** The documented rules

    Each kind of requisite as SPEC.md 11.3 and the handbook state it. *)

Definition seeded r (chunks : list Chunk) (t : nat) : Prop :=
  ∃ c, chunks !! t = Some c ∧ is_Some (Seed r !! cID c).

(** A target succeeded: in this run, or in the one this run resumes. *)
Definition did_succeed r chunks (results : results_t) (t : nat) : Prop :=
  ∃ sr, result_at results t = Some sr ∧ Succeeded (srResult sr) = true ∧ (Skipped sr = false ∨ seeded r chunks t).

(** No target of a require or watch failed, and one of every require_any and
    watch_any succeeded. *)
Definition required r chunks (results : results_t) (reqs : list Req) : Prop :=
  (∀ req t, req ∈ reqs → rKind req ∈ [Require_; Watch] → t ∈ Resolved req → failed_at results t = false) ∧
  (∀ req, req ∈ reqs → rKind req ∈ [RequireAny; WatchAny] → Resolved req ≠ [] →
     ∃ t, t ∈ Resolved req ∧ did_succeed r chunks results t).

(** If the state waits for a change, something it waits for changed. *)
Definition change_seen (results : results_t) (reqs : list Req) : Prop :=
  (∃ req, req ∈ reqs ∧ rKind req ∈ [OnChanges; OnChangesAny] ∧ Resolved req ≠ []) →
  ∃ req t, req ∈ reqs ∧ rKind req ∈ [OnChanges; OnChangesAny] ∧ t ∈ Resolved req ∧ changed t results = true.

(** If it waits for a failure, one it waits for happened: of some target, or of
    all targets of an onfail_all. *)
Definition failure_seen (results : results_t) (reqs : list Req) : Prop :=
  (∃ req, req ∈ reqs ∧ rKind req ∈ [OnFail; OnFailAny; OnFailAll] ∧ Resolved req ≠ []) →
  ∃ req, req ∈ reqs ∧ Resolved req ≠ [] ∧
    ((rKind req ∈ [OnFail; OnFailAny] ∧ ∃ t, t ∈ Resolved req ∧ failed_at results t = true) ∨
     (rKind req = OnFailAll ∧ ∀ t, t ∈ Resolved req → failed_at results t = true)).

Definition lets_run r chunks (results : results_t) (reqs : list Req) : Prop :=
  required r chunks results reqs ∧ change_seen results reqs ∧ failure_seen results reqs.

Definition watch_fires (results : results_t) (reqs : list Req) : Prop :=
  ∃ req t, req ∈ reqs ∧ rKind req ∈ [Watch; WatchAny] ∧ t ∈ Resolved req ∧ changed t results = true.

(** Where the documents agree with each other and with the code: an onchanges
    or onfail has one target (SPEC.md asks for any of several, the handbook for
    all of them), and a require_any does not point at a state that the resumed
    run had finished. *)
Definition agreed r (chunks : list Chunk) ch : Prop :=
  (∀ req, req ∈ Reqs ch → rKind req ∈ [OnChanges; OnFail] → (length (Resolved req) ≤ 1)%nat) ∧
  (∀ req t, req ∈ Reqs ch → rKind req ∈ [RequireAny; WatchAny] → t ∈ Resolved req → ¬ seeded r chunks t).

(** A kind in a list of kinds, by evaluation. *)
Local Ltac in_kinds := apply (bool_decide_unpack _); exact I.
Local Ltac by_kind req Hk := destruct (rKind req); first [done | exfalso; apply (bool_decide_pack _) in Hk; exact Hk].

Lemma existsb_elem {A} (f : A → bool) l : existsb f l = true ↔ ∃ x, x ∈ l ∧ f x = true.
Proof. rewrite existsb_exists. by setoid_rewrite list_elem_of_In. Qed.
Lemma forallb_elem {A} (f : A → bool) l : forallb f l = true ↔ ∀ x, x ∈ l → f x = true.
Proof. rewrite forallb_forall. by setoid_rewrite list_elem_of_In. Qed.
Lemma existsb_none {A} (f : A → bool) l : existsb f l = false ↔ ∀ x, x ∈ l → f x = false.
Proof.
  rewrite <-not_true_iff_false, existsb_elem. split.
  - intros Hn x Hx. destruct (f x) eqn:E; [destruct Hn; eauto|done].
  - intros Ha (x & Hx & E). by rewrite (Ha x Hx) in E.
Qed.

Lemma blocked_documented r chunks ch results :
  agreed r chunks ch → existsb (blocked results) (Reqs ch) = false ↔ required r chunks results (Reqs ch).
Proof.
  intros [_ Hag]. rewrite existsb_none. split.
  - intros Hb. split.
    + intros req t Hr Hk Ht. specialize (Hb req Hr). unfold blocked in Hb.
      assert (Hb' : existsb (failed_at results) (Resolved req) = false) by by_kind req Hk.
      rewrite existsb_none in Hb'. by apply Hb'.
    + intros req Hr Hk Hne. specialize (Hb req Hr). unfold blocked in Hb.
      assert (Hs : anySucceeded (Resolved req) results = true).
      { rewrite (bool_decide_eq_false_2 _ Hne) in Hb. simpl in Hb. apply negb_false_iff.
        by_kind req Hk. }
      unfold anySucceeded in Hs. rewrite existsb_elem in Hs. destruct Hs as (t & Ht & Hs). exists t. split; [done|].
      unfold succeeded_at in Hs. destruct (result_at results t) as [sr|] eqn:Hsr; [|done]. exists sr.
      apply andb_true_iff in Hs as [? ?%negb_true_iff]. auto.
  - intros [Hall Hany] req Hr. unfold blocked. destruct (rKind req) eqn:Hk; try done.
    all: try (apply existsb_none; intros t Ht; eapply Hall; [done|rewrite Hk; in_kinds|done]).
    all: apply andb_false_iff; rewrite negb_false_iff, bool_decide_eq_true, negb_false_iff;
      destruct (decide (Resolved req = [])) as [|Hne]; [by left|right];
      destruct (Hany req Hr) as (t & Ht & sr & Hsr & Hs & Hsk); [rewrite Hk; in_kinds|done|];
      (destruct Hsk as [Hsk|Hsd]; [|by destruct (Hag req t Hr); [rewrite Hk; in_kinds|done|]]);
      unfold anySucceeded; apply existsb_elem; exists t; split; [done|];
      unfold succeeded_at; by rewrite Hsr, Hs, Hsk.
Qed.

Lemma unmet_false among met reqs :
  unmet among met reqs = false ↔ ((∃ req, req ∈ reqs ∧ among req = true) → ∃ req, req ∈ reqs ∧ met req = true).
Proof.
  unfold unmet. rewrite andb_false_iff, negb_false_iff, <-!existsb_elem.
  destruct (existsb among reqs), (existsb met reqs); naive_solver.
Qed.

(** For at most one target, all of them is one of them. *)
Lemma all_is_any {A} (f : A → bool) l :
  (length l ≤ 1)%nat → negb (bool_decide (l = [])) && forallb f l = existsb f l.
Proof. destruct l as [|x [|y l]]; simpl; intros; [done| |lia]. by rewrite andb_true_r, orb_false_r. Qed.

Lemma onchanges_documented r chunks ch results :
  agreed r chunks ch →
  unmet is_onchanges (onchanges_met results) (Reqs ch) = false ↔ change_seen results (Reqs ch).
Proof.
  intros [Hag _]. rewrite unmet_false. unfold change_seen.
  assert (H1 : (∃ req, req ∈ Reqs ch ∧ is_onchanges req = true) ↔
    ∃ req, req ∈ Reqs ch ∧ rKind req ∈ [OnChanges; OnChangesAny] ∧ Resolved req ≠ []).
  { unfold is_onchanges. setoid_rewrite andb_true_iff. setoid_rewrite negb_true_iff.
    setoid_rewrite bool_decide_eq_false. setoid_rewrite bool_decide_eq_true. naive_solver. }
  assert (H2 : (∃ req, req ∈ Reqs ch ∧ onchanges_met results req = true) ↔
    ∃ req t, req ∈ Reqs ch ∧ rKind req ∈ [OnChanges; OnChangesAny] ∧ t ∈ Resolved req ∧ changed t results = true).
  { split.
    - intros (req & Hr & Hm). unfold onchanges_met in Hm. exists req.
      assert (Hk : rKind req ∈ [OnChanges; OnChangesAny] ∧ anyChanged (Resolved req) results = true).
      { destruct (rKind req) eqn:Hk; try done; (split; [in_kinds|]); [|done].
        unfold allChanged in Hm. rewrite all_is_any in Hm; [done|]. apply Hag; [done|]. rewrite Hk. in_kinds. }
      destruct Hk as [Hk (t & Ht & Hc)%existsb_elem]. by exists t.
    - intros (req & t & Hr & Hk & Ht & Hc). exists req. split; [done|].
      assert (Hany : anyChanged (Resolved req) results = true) by (apply existsb_elem; eauto).
      unfold onchanges_met. destruct (rKind req) eqn:Hkr; try (exfalso; apply (bool_decide_pack _) in Hk; exact Hk); [|done].
      unfold allChanged. rewrite all_is_any; [done|]. apply Hag; [done|]. rewrite Hkr. in_kinds. }
  by rewrite H1, H2.
Qed.

Lemma onfail_documented results reqs :
  unmet is_onfail (onfail_met results) reqs = false ↔ failure_seen results reqs.
Proof.
  rewrite unmet_false. unfold failure_seen.
  assert (H1 : (∃ req, req ∈ reqs ∧ is_onfail req = true) ↔
    ∃ req, req ∈ reqs ∧ rKind req ∈ [OnFail; OnFailAny; OnFailAll] ∧ Resolved req ≠ []).
  { unfold is_onfail. setoid_rewrite andb_true_iff. setoid_rewrite negb_true_iff.
    setoid_rewrite bool_decide_eq_false. setoid_rewrite bool_decide_eq_true. naive_solver. }
  assert (H2 : ∀ req, onfail_met results req = true ↔ Resolved req ≠ [] ∧
    ((rKind req ∈ [OnFail; OnFailAny] ∧ ∃ t, t ∈ Resolved req ∧ failed_at results t = true) ∨
     (rKind req = OnFailAll ∧ ∀ t, t ∈ Resolved req → failed_at results t = true))).
  { intros req. assert (Hany : anyFailed (Resolved req) results = true ↔
      Resolved req ≠ [] ∧ ∃ t, t ∈ Resolved req ∧ failed_at results t = true).
    { unfold anyFailed. rewrite existsb_elem. split; [|by intros [_ ?]]. intros (t & Ht & Hf). split; [|eauto].
      intros Hn. rewrite Hn in Ht. by apply elem_of_nil in Ht. }
    assert (Hall : allFailed (Resolved req) results = true ↔
      Resolved req ≠ [] ∧ ∀ t, t ∈ Resolved req → failed_at results t = true).
    { unfold allFailed. by rewrite andb_true_iff, negb_true_iff, bool_decide_eq_false, forallb_elem. }
    unfold onfail_met. destruct (rKind req) eqn:Hk; rewrite ?Hany, ?Hall;
      rewrite !elem_of_cons, elem_of_nil; naive_solver. }
  setoid_rewrite H2. by rewrite H1.
Qed.

Lemma fires_documented results reqs :
  existsb (fires results) reqs = true ↔ watch_fires results reqs.
Proof.
  rewrite existsb_elem. unfold fires, watch_fires. setoid_rewrite andb_true_iff.
  setoid_rewrite bool_decide_eq_true. unfold anyChanged. setoid_rewrite existsb_elem. naive_solver.
Qed.

Lemma held_documented r chunks ch results :
  agreed r chunks ch → held_back results (Reqs ch) = true ↔ ¬ lets_run r chunks results (Reqs ch).
Proof.
  intros Hag. unfold held_back, lets_run.
  rewrite <-not_false_iff_true. apply not_iff_compat. rewrite !orb_false_iff.
  rewrite (blocked_documented r chunks), (onchanges_documented r chunks), onfail_documented by done. naive_solver.
Qed.

Lemma Run_documented r chunks w out w' :
  RunOrdered chunks → Run r chunks w = Some (out, w') →
  let main := take (length chunks) (Results out) in
  ∃ ws, worlds_of r chunks w out w' ws ∧
    ∀ i ch sr wb wa, chunks !! i = Some ch → main !! i = Some sr → agreed r chunks ch →
      ws !! i = Some wb → ws !! Datatypes.S i = Some wa →
      turn_spec r chunks main i ch
        (¬ lets_run r chunks (Some <$> main) (Reqs ch))
        (¬ required r chunks (Some <$> main) (Reqs ch))
        (watch_fires (Some <$> main) (Reqs ch)) sr wb wa.
Proof.
  intros Hord Hrun. destruct (Run_turns r chunks w out w' Hord Hrun) as (ws & Hws & Hturn). exists ws. split; [done|].
  intros i ch sr wb wa Hch Hsr Hag Hb Ha. pose proof (Hturn i ch sr wb wa Hch Hsr Hb Ha) as Ht.
  rewrite (held_documented r chunks), fires_documented in Ht by done.
  rewrite <-not_false_iff_true, (blocked_documented r chunks) in Ht by done. exact Ht.
Qed.


Lemma Run_main_length r chunks w out w' :
  Run r chunks w = Some (out, w') → length (take (length chunks) (Results out)) = length chunks.
Proof.
  intros Hrun. apply Run_inv in Hrun as (st & w1 & w2 & l & _ & Hc & _ & Hres & _).
  rewrite Hres, length_take, length_app, (course_len _ _ _ Hc). lia.
Qed.

(** Worlds between turns that only begin. *)
Lemma quiet_worlds r chunks ws rest i w :
  drop i chunks = rest → length ws = Datatypes.S (length chunks) → ws !! i = Some w →
  (∀ j ch wb wa, (i ≤ j)%nat → chunks !! j = Some ch → ws !! j = Some wb → ws !! Datatypes.S j = Some wa →
     wa = turn_start r chunks j ch wb) →
  ws !! length chunks = Some (quiet r (length chunks) i rest w).
Proof.
  revert i w. induction rest as [|ch rest IH]; intros i w Hd Hlen Hw Hall; simpl.
  { apply (f_equal length) in Hd. rewrite length_drop in Hd. simpl in Hd.
    apply lookup_lt_Some in Hw as Hi. by replace (length chunks) with i by lia. }
  assert (Hch : chunks !! i = Some ch) by (rewrite <-(Nat.add_0_r i), <-lookup_drop, Hd; done).
  assert (Hd' : drop (Datatypes.S i) chunks = rest) by (rewrite (drop_S _ _ _ Hch) in Hd; by simplify_eq).
  destruct (lookup_lt_is_Some_2 ws (Datatypes.S i)) as [wa Ha]; [apply lookup_lt_Some in Hch; lia|].
  rewrite <-(Hall i ch w wa (le_n _) Hch Hw Ha : wa = (Now _ _).2).
  apply IH; [done..|]. intros j ch' wb' wa' Hj. apply Hall. lia.
Qed.

(** A turn with a result that stops the run executed its chunk. *)
Lemma turn_stops r chunks main i ch held blk watch sr wb wa :
  turn_spec r chunks main i ch held blk watch sr wb wa → stops r sr = true →
  ∃ react w, executed r ch react w sr wa.
Proof.
  unfold turn_spec, stops. rewrite !andb_true_iff, negb_true_iff. intros Ht [[Hsk _] _].
  destruct (existsb _ _); [destruct Ht as [[Hs _] _]; congruence|].
  destruct (Seed r !! cID ch); [destruct Ht as [Hs _]; congruence|].
  destruct Ht as (w1 & _ & [(_ & Hs & _)|(_ & _ & react & _ & _ & g & w2 & _ & Ha)]); [congruence|].
  destruct g; [destruct Ha as (_ & Hs & _); congruence|]. by exists react, w2.
Qed.

End turns.

(** ** Witnesses *)

Section turns_demo.
#[local] Existing Instance demo_runtime.
Abbreviation plain := (demo_runner false false "act" ∅).
Abbreviation hard := (demo_runner false true "act" ∅).

Lemma demo_agreed i ch : demo_run_low !! i = Some ch → agreed plain demo_run_low ch.
Proof.
  intros Hi. split.
  - intros req Hr _. do 4 (destruct i as [|i]; [injection Hi as <-; simpl in Hr;
      repeat (apply elem_of_cons in Hr as [->|Hr]; [simpl; lia|]); by apply elem_of_nil in Hr|]). done.
  - intros req t _ _ _ (c & _ & [res Hres]). simpl in Hres. by rewrite lookup_empty in Hres.
Qed.



(** A state whose onlyif cannot be evaluated fails, but does not abort a run
    under failhard: what comes after it is executed. *)
Definition demo_bad_gate : list Chunk := [
  mkChunk "a" "s" "base" "test" "change" "a" NewMap []
    (mkOptions [] [VInt 3] [] [] None false OrderNone 0 None false false false "" "" "" 0 VNull false) NewMap 0 0 0 noPos;
  demo_chunk "b" "change" []].

Lemma unevaluable_gate_does_not_abort :
  (λ p, (Aborted p.1, (λ sr, (Failed (srResult sr), Skipped sr)) <$> Results p.1, p.2)) <$> Run hard demo_bad_gate []
  = Some (false, [(true, true); (false, false)], ["act"]).
Proof. vm_compute. reflexivity. Qed.
End turns_demo.
