(* ===== verification/Requisite.v ===== *)
(** * Package state: reading and resolving requisites

    Models src/internal/state/requisite.go: parseReqList reads the value of a
    requisite argument, resolveRequisites turns every reference into positions
    in the list of chunks, applyUse copies the arguments of a [use] target.
    The stages append diagnostics, so they live in the writer monad [DW]. *)

From S2P Require Import Prelude GoLib Value Fnmatch StateTypes Order.

Open Scope Z_scope.
Import Writer.

(** ** Reading *)

Section parse.
Context `{Runtime}.

(** One entry of the list: the references it adds. *)
Definition parseReqItem (pos : Pos) (sls id : string) (item : value) : DW (list ReqRef) :=
  let of_map (t : Map) :=
    match entries t with
    | [e] =>
        let key := KeyString (Key e) in
        match Val e with
        | VString target =>
            mret [if bool_decide (key = "sls") then mkRef "" "" target (ValPos e)
                  else if bool_decide (key = "id") then mkRef "" target "" (ValPos e)
                  else mkRef key target "" (ValPos e)]
        | _ => Add (ValPos e) sls id "a requisite target must be a string, found %s" [FStr (TypeName (Val e))];; mret []
        end
    | _ => Add pos sls id "a requisite entry must name exactly one target, found %d keys"
             [FInt (Z.of_nat (Len t))];; mret []
    end in
  match item with
  | VString t => mret [mkRef "" t "" pos]
  | VMap t => of_map t
  | VNilMap => of_map NewMap
  | _ => Add pos sls id "a requisite entry must be a state ID or a `module: id` mapping, found %s"
           [FStr (TypeName item)];; mret []
  end.

Fixpoint parseReqItems (pos : Pos) (sls id : string) (items : list value) : DW (list ReqRef) :=
  match items with
  | [] => mret []
  | item :: rest =>
      refs ← parseReqItem pos sls id item;
      more ← parseReqItems pos sls id rest;
      mret (refs ++ more)
  end.

Definition parseReqList (v : value) (pos : Pos) (sls id argName : string) : DW (list ReqRef) :=
  match v with
  | VSeq t => parseReqItems pos sls id t
  | VString _ | VMap _ | VNilMap => parseReqItems pos sls id [v]
  | VNull => mret []
  | _ => Add pos sls id "%s must hold a list of requisites, found %s" [FStr argName; FStr (TypeName v)];; mret []
  end.
End parse.

(** ** Resolving *)

(** The maps of resolveRequisites. *)
Record ref_index := mkIndex {
  byID : gmap string (list nat);
  bySLS : gmap string (list nat);
  byStateID : gmap string nat }.

Definition push_at (k : string) (i : nat) (m : gmap string (list nat)) : gmap string (list nat) :=
  <[k := default [] (m !! k) ++ [i]]> m.

Definition state_key (st id : string) : string := st +:+ "|" +:+ id.

Definition index_chunk (ix : ref_index) (i : nat) (c : Chunk) : ref_index :=
  let by_ := <[state_key (cState c) (cID c) := i]> (byStateID ix) in
  mkIndex (push_at (cID c) i (byID ix)) (push_at (cSLS c) i (bySLS ix))
    (if bool_decide (cName c ≠ cID c) then <[state_key (cState c) (cName c) := i]> by_ else by_).

Fixpoint index_from (i : nat) (chunks : list Chunk) (ix : ref_index) : ref_index :=
  match chunks with
  | [] => ix
  | c :: rest => index_from (S i) rest (index_chunk ix i c)
  end.
Definition index_of (chunks : list Chunk) : ref_index := index_from 0 chunks (mkIndex ∅ ∅ ∅).

(** The positions of the chunks that satisfy [keep], in order. *)
Fixpoint positions (i : nat) (keep : Chunk → bool) (chunks : list Chunk) : list nat :=
  match chunks with
  | [] => []
  | c :: rest => (if keep c then [i] else []) ++ positions (S i) keep rest
  end.

Definition globRef (chunks : list Chunk) (pattern : string) (keep : Chunk → bool) (byName : bool) : list nat :=
  positions 0 (λ o, keep o && (Match pattern (cID o) || (byName && Match pattern (cName o)))) chunks.

(** resolveOneRef: the positions one reference adds to its requisite. *)
Definition resolveOneRef (chunks : list Chunk) (ix : ref_index) (c : Chunk) (kind : ReqKind) (ref : ReqRef)
    : DW (list nat) :=
  let add fmt args := Add (rPos ref) (cSLS c) (cID c) fmt args;; mret [] in
  let k := FStr (ReqKind_String kind) in
  if bool_decide (rSLS ref ≠ "") then
    match bySLS ix !! rSLS ref with
    | Some idx => mret idx
    | None =>
        if HasMeta (rSLS ref) then
          match positions 0 (λ o, Match (rSLS ref) (cSLS o)) chunks with
          | [] => add "%s names sls %q, a glob that matches no sls in this run" [k; FStr (rSLS ref)]
          | idx => mret idx
          end
        else add "%s names sls %q, which is not part of this run" [k; FStr (rSLS ref)]
    end
  else if bool_decide (rState ref ≠ "") then
    match byStateID ix !! state_key (rState ref) (rID ref) with
    | Some i => mret [i]
    | None =>
        if HasMeta (rID ref) then
          match globRef chunks (rID ref) (λ o, bool_decide (cState o = rState ref)) true with
          | [] => add "%s names `%s: %s`, a glob that matches no %s state in this run"
                    [k; FStr (rState ref); FStr (rID ref); FStr (rState ref)]
          | matches => mret matches
          end
        else
          match byID ix !! rID ref with
          | Some [i] =>
              Warn (rPos ref) (cSLS c) (cID c) "%s names `%s: %s`, but %q is declared by %s; matching by ID"
                [k; FStr (rState ref); FStr (rID ref); FStr (rID ref);
                 FStr (from_option cState "" (chunks !! i))];;
              mret [i]
          | _ => add "%s names `%s: %s`, which is not declared in this run" [k; FStr (rState ref); FStr (rID ref)]
          end
    end
  else
    let exact := default [] (byID ix !! rID ref) in
    let matches := if bool_decide (exact = []) && HasMeta (rID ref)
                   then globRef chunks (rID ref) (λ _, true) false else exact in
    match matches with
    | [] => add "%s names %q, which is not declared in this run" [k; FStr (rID ref)]
    | _ => mret matches
    end.

Fixpoint resolve_refs (chunks : list Chunk) (ix : ref_index) (c : Chunk) (kind : ReqKind) (refs : list ReqRef)
    : DW (list nat) :=
  match refs with
  | [] => mret []
  | ref :: rest =>
      a ← resolveOneRef chunks ix c kind ref;
      b ← resolve_refs chunks ix c kind rest;
      mret (a ++ b)
  end.

Fixpoint resolve_reqs (chunks : list Chunk) (ix : ref_index) (c : Chunk) (reqs : list Req) : DW (list Req) :=
  match reqs with
  | [] => mret []
  | req :: rest =>
      idx ← resolve_refs chunks ix c (rKind req) (Refs req);
      more ← resolve_reqs chunks ix c rest;
      mret (mkReq (rKind req) (Refs req) (Resolved req ++ idx) :: more)
  end.

Fixpoint resolve_chunks (chunks : list Chunk) (ix : ref_index) (l : list Chunk) : DW (list Chunk) :=
  match l with
  | [] => mret []
  | c :: rest =>
      reqs ← resolve_reqs chunks ix c (Reqs c);
      more ← resolve_chunks chunks ix rest;
      mret (set_Reqs c reqs :: more)
  end.
Definition resolveRequisites (chunks : list Chunk) : DW (list Chunk) :=
  resolve_chunks chunks (index_of chunks) chunks.

(** ** Use *)

Section use.
Context `{Runtime}.

(** The arguments of [src] that are not the identity of a state or a relation
    to another, and that the chunk has not set itself. *)
Definition use_entry (args : Map) (e : Entry) : Map :=
  let name := KeyString (Key e) in
  if bool_decide (name = "name") || bool_decide (name = "names") || IsRequisiteArg name then args
  else if Has args (VString name) then args
  else set_entry args e.
Definition use_from (args src : Map) : Map := foldl use_entry args (entries src).

Definition use_targets (c : Chunk) : list nat :=
  r ← Reqs c; if bool_decide (rKind r = Use_) then Resolved r else [].

(** One target of the chunk at [i].  A target out of range is a panic, which
    resolution excludes; here it is passed over. *)
Definition use_one (chunks : list Chunk) (i idx : nat) : list Chunk :=
  match chunks !! idx with
  | Some src => alter (λ c, set_Args c (use_from (Args c) (Args src))) i chunks
  | None => chunks
  end.
Definition use_chunk (chunks : list Chunk) (i : nat) : list Chunk :=
  match chunks !! i with
  | Some c => foldl (λ l idx, use_one l i idx) chunks (use_targets c)
  | None => chunks
  end.
Definition applyUse (chunks : list Chunk) : list Chunk := foldl use_chunk chunks (seq 0 (length chunks)).
End use.

(** ** What a reference means

    By scanning the chunks, where the source looks in maps.  The form with a
    module names the last chunk of that module with that ID or name. *)
Definition first_nonempty {A} (l l' : list A) : list A := match l with [] => l' | _ => l end.

Definition targets_of (chunks : list Chunk) (ref : ReqRef) : list nat :=
  let scan keep := positions 0 keep chunks in
  let glob pat keep := if HasMeta pat then scan keep else [] in
  if bool_decide (rSLS ref ≠ "") then
    first_nonempty (scan (λ c, bool_decide (cSLS c = rSLS ref)))
      (glob (rSLS ref) (λ c, Match (rSLS ref) (cSLS c)))
  else if bool_decide (rState ref ≠ "") then
    let mine c := bool_decide (cState c = rState ref) in
    match last (scan (λ c, mine c && (bool_decide (cID c = rID ref) || bool_decide (cName c = rID ref)))) with
    | Some i => [i]
    | None =>
        if HasMeta (rID ref)
        then scan (λ c, mine c && (Match (rID ref) (cID c) || Match (rID ref) (cName c)))
        else match scan (λ c, bool_decide (cID c = rID ref)) with [i] => [i] | _ => [] end
    end
  else
    first_nonempty (scan (λ c, bool_decide (cID c = rID ref))) (glob (rID ref) (λ c, Match (rID ref) (cID c))).

(** *** The maps hold what the scans find *)

Lemma positions_ext i f g chunks :
  (∀ c, c ∈ chunks → f c = g c) → positions i f chunks = positions i g chunks.
Proof.
  revert i. induction chunks as [|c chunks IH]; intros i Hfg; simpl; [done|].
  rewrite Hfg by left. f_equal. apply IH. intros. apply Hfg. by right.
Qed.

Lemma elem_of_positions i f chunks j :
  j ∈ positions i f chunks ↔ (i ≤ j)%nat ∧ ∃ c, chunks !! (j - i)%nat = Some c ∧ f c = true.
Proof.
  revert i. induction chunks as [|c chunks IH]; intros i; simpl.
  { rewrite elem_of_nil. naive_solver. }
  rewrite elem_of_app, IH. destruct (decide (j = i)) as [->|Hne].
  - rewrite Nat.sub_diag. simpl. destruct (f c) eqn:E.
    + rewrite list_elem_of_singleton. split; [intros _; split; [lia|by exists c]|by left].
    + rewrite elem_of_nil. split; [intros [?|[? _]]; [done|lia]|]. intros (_ & c0 & ? & ?). congruence.
  - replace (j - i)%nat with (if decide (i ≤ j)%nat then S (j - S i) else 0)%nat by (case_decide; lia).
    case_decide.
    + simpl. split.
      * intros [Hin|(? & ?)]; [destruct (f c); [apply list_elem_of_singleton in Hin; lia|by apply elem_of_nil in Hin]|].
        split; [lia|done].
      * intros [? ?]. right. split; [lia|done].
    + split; [|lia]. intros [Hin|[? ?]]; [|lia].
      destruct (f c); [apply list_elem_of_singleton in Hin; lia|by apply elem_of_nil in Hin].
Qed.

Lemma positions_lt f chunks j : j ∈ positions 0 f chunks → (j < length chunks)%nat.
Proof.
  rewrite elem_of_positions, Nat.sub_0_r. intros (_ & c & Hc & _). by eapply lookup_lt_Some.
Qed.

Definition found (l : list nat) : option (list nat) := match l with [] => None | _ => Some l end.

Lemma push_at_lookup k i m k' :
  push_at k i m !! k' = if decide (k = k') then Some (default [] (m !! k) ++ [i]) else m !! k'.
Proof. unfold push_at. destruct (decide (k = k')) as [->|]; [apply lookup_insert_eq|by apply lookup_insert_ne]. Qed.

(** A map built by [push_at] under a key of each chunk. *)
Lemma index_from_by (key : Chunk → string) (proj : ref_index → gmap string (list nat)) i chunks ix k :
  (∀ ix i c, proj (index_chunk ix i c) = push_at (key c) i (proj ix)) →
  proj (index_from i chunks ix) !! k =
    found (default [] (proj ix !! k) ++ positions i (λ c, bool_decide (key c = k)) chunks) ∨
  proj (index_from i chunks ix) !! k = proj ix !! k ∧ positions i (λ c, bool_decide (key c = k)) chunks = [].
Proof.
  intros Hp. revert i ix. induction chunks as [|c chunks IH]; intros i ix; simpl; [by right|].
  destruct (IH (S i) (index_chunk ix i c)) as [Hl|[Hl Hnil]]; rewrite Hl, Hp, push_at_lookup.
  - case_bool_decide; [rewrite decide_True by done|rewrite decide_False by done].
    + left. simpl. by rewrite <-app_assoc; subst.
    + by left.
  - rewrite Hnil, app_nil_r. case_bool_decide; [rewrite decide_True by done|rewrite decide_False by done].
    + left. subst. by destruct (default [] _).
    + by right.
Qed.

Lemma byID_scan chunks k :
  byID (index_of chunks) !! k = found (positions 0 (λ c, bool_decide (cID c = k)) chunks).
Proof.
  destruct (index_from_by cID byID 0 chunks (mkIndex ∅ ∅ ∅) k) as [H|[H Hn]]; [done|..];
    unfold index_of; rewrite H; simpl; rewrite lookup_empty; [done|by rewrite Hn].
Qed.
Lemma bySLS_scan chunks k :
  bySLS (index_of chunks) !! k = found (positions 0 (λ c, bool_decide (cSLS c = k)) chunks).
Proof.
  destruct (index_from_by cSLS bySLS 0 chunks (mkIndex ∅ ∅ ∅) k) as [H|[H Hn]]; [done|..];
    unfold index_of; rewrite H; simpl; rewrite lookup_empty; [done|by rewrite Hn].
Qed.

Definition keyed (k : string) (c : Chunk) : bool :=
  bool_decide (state_key (cState c) (cID c) = k) || bool_decide (state_key (cState c) (cName c) = k).

Lemma byStateID_from i chunks ix k :
  byStateID (index_from i chunks ix) !! k =
    match last (positions i (keyed k) chunks) with Some j => Some j | None => byStateID ix !! k end.
Proof.
  revert i ix. induction chunks as [|c chunks IH]; intros i ix; simpl; [done|].
  rewrite IH, last_app. destruct (last (positions (S i) (keyed k) chunks)); [done|].
  unfold keyed. simpl. case_bool_decide as Hne; simpl.
  - destruct (decide (state_key (cState c) (cName c) = k)) as [->|Hn].
    + rewrite lookup_insert_eq, (bool_decide_eq_true_2 (k = k)), orb_true_r by done. done.
    + rewrite lookup_insert_ne by done. rewrite (bool_decide_eq_false_2 (state_key _ (cName c) = k)) by done.
      rewrite orb_false_r. case_bool_decide as Hk; [by rewrite Hk, lookup_insert_eq|by rewrite lookup_insert_ne].
  - assert (Hnm : cName c = cID c) by (destruct (decide (cName c = cID c)); [done|]; by destruct Hne).
    rewrite Hnm, orb_diag. case_bool_decide as Hk; [by rewrite Hk, lookup_insert_eq|by rewrite lookup_insert_ne].
Qed.

(** Module names that do not contain the separator. *)
Definition bar_free (s : string) : Prop := IndexByte "|" s = None.

Lemma state_key_inj s s' a b :
  bar_free s → bar_free s' → state_key s a = state_key s' b → s = s' ∧ a = b.
Proof.
  unfold bar_free, state_key. revert s'. induction s as [|c s IH]; intros s' Hs Hs' Heq.
  - destruct s' as [|c' s']; simpl in *; [by injection Heq|]. injection Heq as <- _.
    rewrite decide_True in Hs' by done. done.
  - simpl in Hs. destruct (decide (c = "|"%char)) as [->|Hc]; [done|].
    destruct s' as [|c' s']; simpl in *; [by injection Heq as ->|]. injection Heq as <- Heq.
    destruct (decide (c = "|"%char)); [done|]. simpl in *.
    destruct (IH s') as [-> ->]; [by destruct (IndexByte _ s)|by destruct (IndexByte _ s')|done|done].
Qed.

Lemma byStateID_scan chunks st id :
  bar_free st → (∀ c, c ∈ chunks → bar_free (cState c)) →
  byStateID (index_of chunks) !! state_key st id =
    last (positions 0 (λ c, bool_decide (cState c = st) && (bool_decide (cID c = id) || bool_decide (cName c = id))) chunks).
Proof.
  intros Hst Hc. unfold index_of. rewrite byStateID_from. simpl. rewrite lookup_empty.
  rewrite (positions_ext 0 (keyed (state_key st id)) (λ c, bool_decide (cState c = st) &&
    (bool_decide (cID c = id) || bool_decide (cName c = id)))); [by destruct (last _)|]. intros c Hin. unfold keyed. specialize (Hc c Hin).
  assert (Hk : ∀ x, bool_decide (state_key (cState c) x = state_key st id) =
    bool_decide (cState c = st) && bool_decide (x = id)).
  { intros x. rewrite <-bool_decide_and. apply bool_decide_ext. split.
    - by apply state_key_inj.
    - by intros [-> ->]. }
  rewrite !Hk. by destruct (bool_decide (cState c = st)).
Qed.

(** The outcome of a reference: its targets, and an error if there are none. *)
Definition outcome (targets : list nat) (m : DW (list nat)) : Prop :=
  m.1 = targets ∧ HasErrors m.2 = bool_decide (targets = []).

Lemma found_default l : default [] (found l) = l.
Proof. by destruct l. Qed.

Lemma resolveOneRef_scan chunks c kind ref :
  bar_free (rState ref) → (∀ c, c ∈ chunks → bar_free (cState c)) →
  outcome (targets_of chunks ref) (resolveOneRef chunks (index_of chunks) c kind ref).
Proof.
  intros Hst Hc. unfold resolveOneRef, targets_of, globRef, outcome.
  case_bool_decide as Hsls.
  { rewrite bySLS_scan. destruct (positions 0 (λ c, bool_decide (cSLS c = rSLS ref)) chunks); simpl; [|done].
    destruct (HasMeta (rSLS ref)); [|done]. by destruct (positions _ _ chunks). }
  case_bool_decide as Hs.
  { rewrite byStateID_scan by done. destruct (last _) as [i|]; [done|].
    destruct (HasMeta (rID ref)); simpl; [by destruct (positions _ _ chunks)|].
    rewrite byID_scan. destruct (positions _ _ chunks) as [|i [|j l]]; done. }
  rewrite byID_scan, found_default.
  assert (Hg : positions 0 (λ o, true && (Match (rID ref) (cID o) || false && Match (rID ref) (cName o))) chunks
    = positions 0 (λ o, Match (rID ref) (cID o)) chunks).
  { apply positions_ext. intros o _. by rewrite orb_false_r. }
  rewrite Hg. clear Hg. destruct (positions 0 (λ c, bool_decide (cID c = rID ref)) chunks) as [|i l]; simpl; [|done].
  destruct (HasMeta (rID ref)); simpl; [|done]. by destruct (positions _ _ chunks).
Qed.

(** The maps of resolveRequisites answer as a scan of the chunks would:
    every reference resolves to exactly the positions it means, in order, and
    is reported as an error exactly when it means none.  An sls reference is
    all chunks of that sls, or of those a glob matches; a bare name is all
    chunks with that ID, or those a glob matches; with a module it is the last
    chunk of that module with that ID or name, or those a glob matches, or
    failing that the only chunk with that ID. *)
Theorem resolve_matches_scan chunks c kind ref :
  bar_free (rState ref) → (∀ c, c ∈ chunks → bar_free (cState c)) →
  (resolveOneRef chunks (index_of chunks) c kind ref).1 = targets_of chunks ref ∧
  HasErrors (resolveOneRef chunks (index_of chunks) c kind ref).2 = bool_decide (targets_of chunks ref = []).
Proof. apply resolveOneRef_scan. Qed.

(** *** Resolution as a whole *)

Lemma index_from_lt i chunks ix n :
  (i + length chunks ≤ n)%nat →
  (∀ k l j, byID ix !! k = Some l → j ∈ l → (j < n)%nat) →
  (∀ k l j, bySLS ix !! k = Some l → j ∈ l → (j < n)%nat) →
  (∀ k j, byStateID ix !! k = Some j → (j < n)%nat) →
  let ix' := index_from i chunks ix in
  (∀ k l j, byID ix' !! k = Some l → j ∈ l → (j < n)%nat) ∧
  (∀ k l j, bySLS ix' !! k = Some l → j ∈ l → (j < n)%nat) ∧
  (∀ k j, byStateID ix' !! k = Some j → (j < n)%nat).
Proof.
  revert i ix. induction chunks as [|c chunks IH]; intros i ix Hn H1 H2 H3; simpl in *; [done|].
  assert (Hpush : ∀ key (m : gmap string (list nat)) k l j,
    (∀ k l j, m !! k = Some l → j ∈ l → (j < n)%nat) →
    push_at key i m !! k = Some l → j ∈ l → (j < n)%nat).
  { intros key m k l j Hm. rewrite push_at_lookup. case_decide; [|apply Hm].
    intros ? Hj. simplify_eq. apply elem_of_app in Hj as [Hj|Hj%list_elem_of_singleton]; [|lia].
    destruct (m !! k) eqn:E; simpl in Hj; [by eapply Hm|by apply elem_of_nil in Hj]. }
  apply IH; [lia|intros k l j; simpl; by apply Hpush..|].
  intros k j. simpl. case_bool_decide; rewrite ?lookup_insert_Some; naive_solver lia.
Qed.

Lemma resolveOneRef_lt chunks c kind ref j :
  j ∈ (resolveOneRef chunks (index_of chunks) c kind ref).1 → (j < length chunks)%nat.
Proof.
  destruct (index_from_lt 0 chunks (mkIndex ∅ ∅ ∅) (length chunks)) as (H1 & H2 & H3); [lia|done..|].
  fold (index_of chunks) in *. unfold resolveOneRef, globRef.
  assert (Hp : ∀ f, match positions 0 f chunks with [] => ∀ x, x = (@nil nat) → j ∈ x → (j < length chunks)%nat
    | idx => j ∈ idx → (j < length chunks)%nat end).
  { intros f. destruct (positions 0 f chunks) eqn:E; [intros x -> Hx; by apply elem_of_nil in Hx|].
    rewrite <-E. apply positions_lt. }
  case_bool_decide.
  { destruct (bySLS _ !! _) as [idx|] eqn:E; [by eapply H2|]. destruct (HasMeta _).
    - specialize (Hp (λ o, Match (rSLS ref) (cSLS o))). destruct (positions _ _ chunks); [|done].
      intros Hx. by apply elem_of_nil in Hx.
    - intros Hx. by apply elem_of_nil in Hx. }
  case_bool_decide.
  { destruct (byStateID _ !! _) as [i|] eqn:E; [intros ->%list_elem_of_singleton; by eapply H3|].
    destruct (HasMeta _).
    - match goal with |- context [positions 0 ?f chunks] => specialize (Hp f); destruct (positions 0 f chunks) end;
        [|done]. intros Hx. by apply elem_of_nil in Hx.
    - destruct (byID _ !! _) as [[|i [|]]|] eqn:E'; intros Hx; try (by apply elem_of_nil in Hx).
      apply list_elem_of_singleton in Hx as ->. eapply H1; [done|left]. }
  destruct (_ && _).
  - match goal with |- context [positions 0 ?f chunks] => specialize (Hp f); destruct (positions 0 f chunks) end;
      [|done]. intros Hx. by apply elem_of_nil in Hx.
  - destruct (byID _ !! _) as [[|i l]|] eqn:E'; simpl; intros Hx; try (by apply elem_of_nil in Hx).
    by eapply H1.
Qed.

(** What resolution leaves as it was. *)
Definition same_but_resolved (c c' : Chunk) : Prop :=
  c' = set_Reqs c (Reqs c') ∧ Forall2 (λ r r', rKind r = rKind r' ∧ Refs r = Refs r') (Reqs c) (Reqs c').

Lemma resolve_refs_fst chunks ix c kind refs :
  (resolve_refs chunks ix c kind refs).1 = concat ((λ ref, (resolveOneRef chunks ix c kind ref).1) <$> refs).
Proof. induction refs as [|ref refs IH]; simpl; [done|]. by rewrite IH. Qed.
Lemma resolve_reqs_fst chunks ix c reqs :
  (resolve_reqs chunks ix c reqs).1 =
    (λ req, mkReq (rKind req) (Refs req) (Resolved req ++ (resolve_refs chunks ix c (rKind req) (Refs req)).1)) <$> reqs.
Proof. induction reqs as [|req reqs IH]; simpl; [done|]. by rewrite IH. Qed.
Lemma resolve_chunks_fst chunks ix l :
  (resolve_chunks chunks ix l).1 = (λ c, set_Reqs c (resolve_reqs chunks ix c (Reqs c)).1) <$> l.
Proof. induction l as [|c l IH]; simpl; [done|]. by rewrite IH. Qed.

(** Chunks as they are built point at nothing yet. *)
Definition unresolved (chunks : list Chunk) : Prop :=
  ∀ c req, c ∈ chunks → req ∈ Reqs c → Resolved req = [].

Lemma resolveRequisites_in_range chunks :
  unresolved chunks → resolved_in_range (resolveRequisites chunks).1.
Proof.
  intros Hun i k t. unfold resolveRequisites. rewrite resolve_chunks_fst, elem_of_arcs.
  intros (c' & req' & Hc' & Hreq' & Hk & Ht). rewrite length_fmap.
  rewrite list_lookup_fmap in Hc'. destruct (chunks !! i) as [c|] eqn:Hc; simplify_eq/=.
  split; [by eapply lookup_lt_Some|]. rewrite resolve_reqs_fst in Hreq'.
  apply list_elem_of_fmap in Hreq' as (req & -> & Hreq). simpl in Ht.
  rewrite (Hun c req), resolve_refs_fst in Ht; [|by eapply list_elem_of_lookup_2|done]. simpl in Ht.
  apply list_elem_of_In, in_concat in Ht as (l & Hl & Ht). apply list_elem_of_In in Hl, Ht.
  apply list_elem_of_fmap in Hl as (ref & -> & _). by eapply resolveOneRef_lt.
Qed.

(** ** What use leaves alone *)

Section use_facts.
Context `{Runtime}.

Lemma CanonKey_string v k : CanonKey v = CanonKey (VString k) → v = VString k.
Proof. destruct v; simpl; intros Heq; try discriminate. injection Heq as Heq. exact (f_equal VString Heq). Qed.

Definition not_inherited (k : string) : bool :=
  bool_decide (k = "name") || bool_decide (k = "names") || IsRequisiteArg k.

(** [c'] is [c] with arguments added. *)
Record grows (c c' : Chunk) : Prop := {
  grows_same : c' = set_Args c (Args c');
  grows_wf : map_wf (Args c) → map_wf (Args c');
  grows_keeps : map_wf (Args c) → ∀ k v, Get (Args c) (VString k) = Some v → Get (Args c') (VString k) = Some v;
  grows_own : map_wf (Args c) → ∀ k, not_inherited k = true → Get (Args c') (VString k) = Get (Args c) (VString k) }.

Lemma set_Args_same c : set_Args c (Args c) = c.
Proof. by destruct c. Qed.

Lemma grows_refl c : grows c c.
Proof. split; [by rewrite set_Args_same|auto..]. Qed.

Lemma grows_trans c1 c2 c3 : grows c1 c2 → grows c2 c3 → grows c1 c3.
Proof.
  intros [S1 W1 K1 O1] [S2 W2 K2 O2]. split; [by rewrite S2, S1|auto|auto|].
  intros Hwf k Hk. rewrite O2, O1; auto.
Qed.

Lemma use_entry_grows args e :
  map_wf args → map_wf (use_entry args e) ∧
  (∀ k v, Get args (VString k) = Some v → Get (use_entry args e) (VString k) = Some v) ∧
  (∀ k, not_inherited k = true → Get (use_entry args e) (VString k) = Get args (VString k)).
Proof.
  intros Hwf. unfold use_entry. fold (not_inherited (KeyString (Key e))).
  destruct (not_inherited (KeyString (Key e))) eqn:Hn; [done|].
  destruct (Has args (VString (KeyString (Key e)))) eqn:Hh; [done|].
  split; [by apply SetAt_wf|]. unfold set_entry.
  assert (Hk : ∀ k, CanonKey (Key e) = CanonKey (VString k) → KeyString (Key e) = k).
  { intros k Hc. by rewrite (CanonKey_string _ _ Hc). }
  split; intros k; rewrite Get_SetAt by done; case_decide as Hc; try done.
  - apply Hk in Hc as <-. intros v Hv. apply bool_decide_eq_false in Hh. by destruct Hh; eexists.
  - apply Hk in Hc as <-. by rewrite Hn.
Qed.

Lemma use_from_grows c src : grows c (set_Args c (use_from (Args c) src)).
Proof.
  assert (Hall : map_wf (Args c) → map_wf (use_from (Args c) src) ∧
    (∀ k v, Get (Args c) (VString k) = Some v → Get (use_from (Args c) src) (VString k) = Some v) ∧
    (∀ k, not_inherited k = true → Get (use_from (Args c) src) (VString k) = Get (Args c) (VString k))).
  { intros Hwf. unfold use_from. apply (foldl_inv (λ m, map_wf m ∧
      (∀ k v, Get (Args c) (VString k) = Some v → Get m (VString k) = Some v) ∧
      (∀ k, not_inherited k = true → Get m (VString k) = Get (Args c) (VString k)))); [done|].
    intros m e _ (W & K & O). destruct (use_entry_grows m e W) as (W' & K' & O').
    split_and!; [done|auto|]. intros k Hk. rewrite O'; auto. }
  split; [by destruct c|..]; simpl; intros Hwf; by apply Hall.
Qed.

Lemma Forall2_grows_alter chunks l i src :
  Forall2 grows chunks l → Forall2 grows chunks (alter (λ c, set_Args c (use_from (Args c) src)) i l).
Proof.
  intros HF. revert i. induction HF as [|c c' chunks l Hc HF IH]; intros [|i]; simpl; [done|done| |].
  - constructor; [|done]. eapply grows_trans; [done|apply use_from_grows].
  - constructor; [done|]. apply IH.
Qed.

Lemma applyUse_grows chunks : Forall2 grows chunks (applyUse chunks).
Proof.
  unfold applyUse. apply (foldl_inv (Forall2 grows chunks)).
  { apply Forall_Forall2_diag, Forall_forall. intros. apply grows_refl. }
  intros l i _ HF. unfold use_chunk. destruct (l !! i) as [c|]; [|done].
  apply (foldl_inv (Forall2 grows chunks)); [done|]. intros l' idx _ HF'. unfold use_one.
  destruct (l' !! idx); [|done]. by apply Forall2_grows_alter.
Qed.

(** Applying [use] adds arguments and touches nothing else: each chunk
    keeps its identity, its options and its requisites; an argument it set
    itself keeps its value; and its name, its names and its requisite
    arguments are never inherited. *)
Theorem applyUse_only_adds chunks i c c' :
  chunks !! i = Some c → applyUse chunks !! i = Some c' → map_wf (Args c) →
  c' = set_Args c (Args c') ∧ map_wf (Args c') ∧
  (∀ k v, Get (Args c) (VString k) = Some v → Get (Args c') (VString k) = Some v) ∧
  (∀ k, not_inherited k = true → Get (Args c') (VString k) = Get (Args c) (VString k)).
Proof.
  intros Hc Hc' Hwf. destruct (Forall2_lookup_lr _ _ _ _ _ _ (applyUse_grows chunks) Hc Hc') as [? ? ? ?].
  split_and!; auto.
Qed.

Lemma applyUse_arcs chunks : arcs (applyUse chunks) = arcs chunks ∧ length (applyUse chunks) = length chunks.
Proof.
  pose proof (applyUse_grows chunks) as HF. split; [|symmetry; by eapply Forall2_length].
  unfold arcs. f_equal. apply list_eq. intros i. rewrite !list_lookup_imap.
  destruct (proj1 (Forall2_lookup _ _ _) HF i) as [c c' Hg|]; [|done]. simpl.
  unfold chunk_arcs. by rewrite (grows_same _ _ Hg).
Qed.
End use_facts.

(** ** Witnesses *)

Section demo.
#[local] Existing Instance demo_runtime.

Definition demo_names : list Chunk :=
  let ch id name reqs := mkChunk id "web" "base" "file" "managed" name
    (MapOf [(VString "name", VString name); (VString "mode", VString name)]) reqs zeroOptions NewMap 0 0 0 noPos in
  [ch "scripts" "/bin/a" []; ch "scripts" "/bin/b" [];
   ch "after" "/etc/c" [mkReq Require_ [mkRef "file" "scripts" "" noPos] [];
                        mkReq Require_ [mkRef "" "scripts" "" noPos] [];
                        mkReq Use_ [mkRef "file" "/bin/a" "" noPos] [0%nat]]].

Lemma demo_bar_free c : c ∈ demo_names → bar_free (cState c).
Proof. intros Hc. repeat (apply elem_of_cons in Hc as [->|Hc]; [reflexivity|]). by apply elem_of_nil in Hc. Qed.

Lemma resolve_matches_scan_witness :
  (resolveOneRef demo_names (index_of demo_names) (mkChunk "" "" "" "" "" "" NewMap [] zeroOptions NewMap 0 0 0 noPos)
     Require_ (mkRef "" "scr*" "" noPos)).1 = [0%nat; 1%nat].
Proof.
  destruct (resolve_matches_scan demo_names (mkChunk "" "" "" "" "" "" NewMap [] zeroOptions NewMap 0 0 0 noPos)
    Require_ (mkRef "" "scr*" "" noPos)) as [H _].
  - reflexivity.
  - intros c. apply demo_bar_free.
  - rewrite H. vm_compute. reflexivity.
Defined.

Lemma applyUse_only_adds_witness :
  ∃ c', applyUse demo_names !! 2%nat = Some c' ∧ Get (Args c') (VString "mode") = Some (VString "/etc/c").
Proof.
  eexists. split; [vm_compute; reflexivity|].
  eapply (applyUse_only_adds demo_names 2); [reflexivity|vm_compute; reflexivity|apply MapOf_wf|vm_compute; reflexivity].
Defined.

(** A requisite with a module on a declaration that [names] expanded waits for
    its last chunk only, where the bare form waits for all of them. *)
Lemma names_requisite_last_only :
  Resolved <$> (from_option Reqs [] ((resolveRequisites demo_names).1 !! 2%nat)) =
    [[1%nat]; [0%nat; 1%nat]; [0%nat; 0%nat]].
Proof. vm_compute. reflexivity. Qed.
End demo.
