(* ===== verification/HighState.v ===== *)
(** * Package state: reading SLS documents into declarations

    Models src/internal/state/highstate.go and slsname.go: the parsing of a
    rendered document into declarations and directives, and the high state,
    which holds the declarations of a run in order beside an index by ID. *)

From S2P Require Import Prelude GoLib Value StateTypes.

Open Scope Z_scope.
Import Writer.

Definition keyInclude : string := "include".
Definition keyExtend : string := "extend".
Definition keyExclude : string := "exclude".

Record FuncDecl := mkFunc {
  fState : string; fFun : string; fArgs : Map; fFlags : list string; fPos : Pos }.
Definition FuncDecl_Name (f : FuncDecl) : string := fState f +:+ "." +:+ fFun f.
Definition set_fArgs (f : FuncDecl) (a : Map) : FuncDecl := mkFunc (fState f) (fFun f) a (fFlags f) (fPos f).
Definition set_fFun (f : FuncDecl) (n : string) : FuncDecl := mkFunc (fState f) n (fArgs f) (fFlags f) (fPos f).
Definition add_flags (f : FuncDecl) (l : list string) : FuncDecl :=
  mkFunc (fState f) (fFun f) (fArgs f) (fFlags f ++ l) (fPos f).

Record Decl := mkDecl {
  dclID : string; dclSLS : string; dclEnv : string; dclPos : Pos; Funcs : list FuncDecl; dclOrder : nat }.
Definition set_Funcs (d : Decl) (l : list FuncDecl) : Decl :=
  mkDecl (dclID d) (dclSLS d) (dclEnv d) (dclPos d) l (dclOrder d).
Definition set_Order (d : Decl) (n : nat) : Decl :=
  mkDecl (dclID d) (dclSLS d) (dclEnv d) (dclPos d) (Funcs d) n.

(** Func: the position of the first declaration of a module, and it. *)
Definition Decl_Func (d : Decl) (state : string) : option (nat * FuncDecl) :=
  list_find (λ f, fState f = state) (Funcs d).

(** ** The high state *)

Record HighState := mkHigh {
  decls : list Decl;
  hindex : gmap string nat;
  excludedSLS : gset string;
  excludedIDs : gset string }.
Definition NewHighState : HighState := mkHigh [] ∅ ∅ ∅.

(** Lookup, with the position, through which a caller changes the
    declaration. *)
Definition hs_Lookup (h : HighState) (id : string) : option (nat * Decl) :=
  i ← hindex h !! id; d ← decls h !! i; Some (i, d).

Definition hs_add (h : HighState) (d : Decl) : DW HighState :=
  match hs_Lookup h (dclID d) with
  | Some (_, prev) =>
      AddRelated (dclPos d) (dclSLS d) (dclID d)
        [(dclPos prev, Msg ("first declared here, in " +:+ dclSLS prev) [])]
        "duplicate state ID %q; an ID is global across the whole compiled state" [FStr (dclID d)];;
      mret h
  | None =>
      let n := length (decls h) in
      mret (mkHigh (decls h ++ [set_Order d n]) (<[dclID d := n]> (hindex h)) (excludedSLS h) (excludedIDs h))
  end.

(** ** SLS names *)

Definition backslash : ascii := "\"%char.

Definition suggestSLS (name : string) : string :=
  let s := replace_byte backslash "." (replace_byte "/" "." name) in
  Join (filter (λ c, c ≠ "") (Split s ".")) ".".

Section highstate.
Context `{Runtime}.

(** [None] is a canonical name; otherwise the error. *)
Definition CanonicalSLS (name : string) : option string :=
  if bool_decide (name = "") then Some "an SLS name may not be empty"
  else if contains_any ["/"%char; backslash] name then
    Some ("SLS name " +:+ Quote name +:+ " contains a path separator; write it with dots, as " +:+
          Quote (suggestSLS name))
  else if bool_decide ("" ∈ Split name ".") then
    Some ("SLS name " +:+ Quote name +:+
          " has an empty component (a leading, trailing or doubled dot); write it as " +:+ Quote (suggestSLS name))
  else None.

(** ** Directives *)

Record includeRef := mkInclude { incName : string; incEnv : string; incPos : Pos }.
Record excludeRef := mkExclude { exSLS : string; exID : string; exPos : Pos }.

(** filepath.Base on a system whose separator is a slash. *)
Definition filepath_Base (p : string) : string :=
  if bool_decide (p = "") then "."
  else match last (filter (λ c, c ≠ "") (Split p "/")) with Some c => c | None => "/" end.
Definition isPackage (filePath : string) : bool := bool_decide (filepath_Base filePath = "init.sls").

Definition resolveRelative (name sls : string) (pkg : bool) (sourceSLS : string) (pos : Pos) : DW string :=
  if negb (has_prefix "." name) then mret name
  else
    let rest := TrimLeft "." name in
    let levels := (String.length name - String.length rest)%nat in
    let comps := if bool_decide (sls ≠ "") then Split sls "." else [] in
    let comps := if pkg then comps ++ ["init"] else comps in
    if (length comps <? levels)%nat then
      Add pos sourceSLS "" "the relative include %q climbs %d level(s) above %q, which has %d"
        [FStr name; FInt (Z.of_nat levels); FStr sls; FInt (Z.of_nat (length comps))];;
      mret rest
    else
      match take (length comps - levels) comps with
      | [] => mret rest
      | comps => mret (Join comps "." +:+ "." +:+ rest)
      end.

(** A fold that collects in the writer monad. *)
Fixpoint collect {A B} (f : A → DW (list B)) (l : list A) : DW (list B) :=
  match l with
  | [] => mret []
  | x :: r => a ← f x; b ← collect f r; mret (a ++ b)
  end.

Definition parseIncludeEnv (sls : string) (pkg : bool) (e : Entry) : DW (list includeRef) :=
  let otherEnv := KeyString (Key e) in
  match Val e with
  | VSeq names =>
      collect (λ n,
        match n with
        | VString s => name ← resolveRelative s sls pkg sls (ValPos e); mret [mkInclude name otherEnv (ValPos e)]
        | _ => Add (ValPos e) sls "" "an SLS name must be a string, found %s" [FStr (TypeName n)];; mret []
        end) names
  | _ => Add (ValPos e) sls "" "an environment include must hold a list of SLS names" [];; mret []
  end.

Definition parseInclude (sls env : string) (pkg : bool) (pos : Pos) (item : value) : DW (list includeRef) :=
  match item with
  | VString t => name ← resolveRelative t sls pkg sls pos; mret [mkInclude name env pos]
  | VMap t => collect (parseIncludeEnv sls pkg) (entries t)
  | VNilMap => mret []
  | _ => Add pos sls "" "an include entry must be an SLS name, found %s" [FStr (TypeName item)];; mret []
  end.

Definition parseIncludes (v : value) (sls env : string) (pkg : bool) (pos : Pos) : DW (list includeRef) :=
  match v with
  | VSeq items => collect (parseInclude sls env pkg pos) items
  | _ => Add pos sls "" "include must hold a list, found %s" [FStr (TypeName v)];; mret []
  end.

Definition parseExclude (sls : string) (pos : Pos) (item : value) : DW (list excludeRef) :=
  let bad := Add pos sls "" "an exclude entry must be `- sls: name` or `- id: name`" [];; mret [] in
  match item with
  | VMap m =>
      match entries m with
      | [e] =>
          let name := match Val e with VString s => s | _ => "" end in
          let key := KeyString (Key e) in
          if bool_decide (key = "sls") then mret [mkExclude name "" (ValPos e)]
          else if bool_decide (key = "id") then mret [mkExclude "" name (ValPos e)]
          else Add (KeyPos e) sls "" "an exclude entry must be `- sls: name` or `- id: name`, found %q" [FStr key];;
               mret []
      | _ => bad
      end
  | _ => bad
  end.

Definition parseExcludes (v : value) (sls : string) (pos : Pos) : DW (list excludeRef) :=
  match v with
  | VSeq items => collect (parseExclude sls pos) items
  | _ => Add pos sls "" "exclude must hold a list, found %s" [FStr (TypeName v)];; mret []
  end.

(** ** Declarations *)

Definition mustEntryPos (m : Map) (key : string) : Pos :=
  match Entry_ m (VString key) with Some e => KeyPos e | None => noPos end.

(** The loop over the pairs of one argument. *)
Fixpoint parse_args (key sls id : string) (es : list Entry) (f : FuncDecl) : DW FuncDecl :=
  match es with
  | [] => mret f
  | ae :: rest =>
      let name := KeyString (Key ae) in
      if Has (fArgs f) (VString name) then
        AddRelated (KeyPos ae) sls id [(mustEntryPos (fArgs f) name, Msg "first given here" [])]
          "argument %q is given twice to %s" [FStr name; FStr key];;
        parse_args key sls id rest f
      else
        parse_args key sls id rest
          (set_fArgs f (SetAt (fArgs f) (VString name) (Val ae) (KeyPos ae) (ValPos ae)))
  end.

Definition parse_item (key sls id : string) (pos : Pos) (f : FuncDecl) (item : value) : DW FuncDecl :=
  match item with
  | VString arg => if bool_decide (fFun f = "") then mret (set_fFun f arg) else mret (add_flags f [arg])
  | VMap arg => parse_args key sls id (entries arg) f
  | VNilMap => mret f
  | _ => Add pos sls id "an argument to %s must be `- name: value` or a bare option, found %s"
           [FStr key; FStr (TypeName item)];; mret f
  end.
Fixpoint parse_items (key sls id : string) (pos : Pos) (items : list value) (f : FuncDecl) : DW FuncDecl :=
  match items with
  | [] => mret f
  | item :: rest => f' ← parse_item key sls id pos f item; parse_items key sls id pos rest f'
  end.

Definition shorthand_args (es : list Entry) : Map :=
  foldl (λ m ae, SetAt m (VString (KeyString (Key ae))) (Val ae) (KeyPos ae) (ValPos ae)) NewMap es.

Definition parseFuncDecl (key : string) (fe : Entry) (sls id : string) : DW (option FuncDecl) :=
  let '(st, fn) := match IndexByte "." key with
                   | Some i => (stake i key, sdrop (S i) key)
                   | None => (key, "")
                   end in
  let f := mkFunc st fn NewMap [] (KeyPos fe) in
  body ← match Val fe with
         | VNull => mret (Some f)
         | VSeq items => f' ← parse_items key sls id (ValPos fe) items f; mret (Some f')
         | VMap m => mret (Some (set_fArgs f (shorthand_args (entries m))))
         | VNilMap => mret (Some f)
         | v => Add (ValPos fe) sls id "the arguments to %s must be a list or a mapping, found %s"
                  [FStr key; FStr (TypeName v)];; mret None
         end;
  match body with
  | None => mret None
  | Some f =>
      if bool_decide (fFun f = "") then
        Add (KeyPos fe) sls id "%q names a module with no function; write it as module.function" [FStr key];;
        mret None
      else mret (Some f)
  end.

Definition injected (key : string) : bool := has_prefix "__" key && HasSuffix key "__".

Definition parse_funcs (sls id : string) (es : list Entry) : DW (list FuncDecl) :=
  collect (λ fe,
    let key := KeyString (Key fe) in
    if injected key then mret []
    else f ← parseFuncDecl key fe sls id; mret (option_list f)) es.

Definition parseDecl (id : string) (e : Entry) (sls env : string) : DW (option Decl) :=
  let d := mkDecl id sls env (KeyPos e) [] 0 in
  let of_map es :=
    fs ← parse_funcs sls id es;
    match fs with
    | [] => Add (ValPos e) sls id "this state ID declares no module.function" [];; mret None
    | _ => mret (Some (set_Funcs d fs))
    end in
  match Val e with
  | VString short =>
      f ← parseFuncDecl short (mkEntry (VString short) VNull (ValPos e) (ValPos e)) sls id;
      mret ((λ f, set_Funcs d [f]) <$> f)
  | VMap body => of_map (entries body)
  | VNilMap => of_map []
  | v => Add (ValPos e) sls id "a state ID must hold a mapping of module.function declarations, found %s"
           [FStr (TypeName v)];; mret None
  end.

(** ** Documents *)

Record slsContent := mkContent {
  Includes : list includeRef; Extends : option Map; Excludes : list excludeRef; Decls_ : list Decl }.
Definition emptyContent : slsContent := mkContent [] None [] [].

Definition parse_entry (sls env filePath : string) (out : slsContent) (e : Entry) : DW slsContent :=
  let id := KeyString (Key e) in
  if bool_decide (id = keyInclude) then
    l ← parseIncludes (Val e) sls env (isPackage filePath) (ValPos e);
    mret (mkContent (Includes out ++ l) (Extends out) (Excludes out) (Decls_ out))
  else if bool_decide (id = keyExtend) then
    match Val e with
    | VMap m => mret (mkContent (Includes out) (Some m) (Excludes out) (Decls_ out))
    | VNilMap => mret (mkContent (Includes out) None (Excludes out) (Decls_ out))
    | v => Add (ValPos e) sls "" "extend must hold a mapping of state IDs, found %s" [FStr (TypeName v)];; mret out
    end
  else if bool_decide (id = keyExclude) then
    l ← parseExcludes (Val e) sls (ValPos e);
    mret (mkContent (Includes out) (Extends out) (Excludes out ++ l) (Decls_ out))
  else if injected id then mret out
  else
    d ← parseDecl id e sls env;
    mret (mkContent (Includes out) (Extends out) (Excludes out) (Decls_ out ++ option_list d)).

Fixpoint parse_entries (sls env filePath : string) (es : list Entry) (out : slsContent) : DW slsContent :=
  match es with
  | [] => mret out
  | e :: rest => out' ← parse_entry sls env filePath out e; parse_entries sls env filePath rest out'
  end.

Definition parseSLS (v : value) (sls env filePath : string) : DW slsContent :=
  match v with
  | VNull => mret emptyContent
  | VMap top => parse_entries sls env filePath (entries top) emptyContent
  | VNilMap => mret emptyContent
  | _ => Add (mkPos sls 0 0) sls "" "an SLS file must hold a mapping of state IDs, found %s" [FStr (TypeName v)];;
         mret emptyContent
  end.
End highstate.

(** ** Collecting *)

Lemma collect_fst {A B} (f : A → DW (list B)) l : (collect f l).1 = concat ((λ x, (f x).1) <$> l).
Proof. induction l as [|x l IH]; [done|]. simpl. by rewrite IH. Qed.

Lemma elem_of_collect {A B} (f : A → DW (list B)) l y :
  y ∈ (collect f l).1 ↔ ∃ x, x ∈ l ∧ y ∈ (f x).1.
Proof.
  rewrite collect_fst, list_elem_of_In, in_concat. setoid_rewrite <-list_elem_of_In.
  setoid_rewrite list_elem_of_fmap. naive_solver.
Qed.

(** ** The one spelling of an SLS name *)

(** fileserver/roots.go: the files a name may live in, in the order they are
    searched. *)
Definition slsCandidates (sls : string) : list string :=
  let rel := replace_byte "." "/" sls in [rel +:+ ".sls"; rel +:+ "/init.sls"].

Section sls_names.
Context `{Runtime}.

Definition no_separator (a : ascii) : Prop := a ≠ "/"%char ∧ a ≠ backslash.

Lemma CanonicalSLS_None name :
  CanonicalSLS name = None ↔ name ≠ "" ∧ sall no_separator name ∧ "" ∉ pieces "." name.
Proof.
  unfold CanonicalSLS. rewrite Split_pieces.
  assert (Hsep : contains_any ["/"%char; backslash] name = false ↔ sall no_separator name).
  { rewrite contains_any_sall. split; apply sall_impl; intros a; unfold no_separator;
      rewrite !not_elem_of_cons; [tauto|]. intros []. split_and!; [done|done|apply not_elem_of_nil]. }
  destruct (bool_decide_reflect (name = "")) as [Hn|Hn]; [split; [done|by intros []]|].
  destruct (contains_any _ name) eqn:Hc.
  { split; [done|]. intros (_ & Hs & _). by apply Hsep in Hs. }
  case_bool_decide; [by split; [|intros (_ & _ & ?)]|]. split; [intros _|done]. split_and!; [done|by apply Hsep|done].
Qed.

Lemma to_dots_no_separator name :
  sall (λ a, a ≠ "."%char → no_separator a) (replace_byte backslash "." (replace_byte "/" "." name)).
Proof.
  apply replace_byte_sall; [done|]. apply replace_byte_sall; [done|].
  induction name as [|a s IH]; [done|]. split; [|done]. by split.
Qed.

(** The components of a suggestion. *)
Definition components (name : string) : list string :=
  filter (λ c, c ≠ "") (pieces "." (replace_byte backslash "." (replace_byte "/" "." name))).

Lemma suggestSLS_components name : suggestSLS name = Join (components name) ".".
Proof. unfold suggestSLS, components. by rewrite Split_pieces. Qed.

Lemma components_ok name : Forall (sall (λ a, a ≠ "."%char ∧ no_separator a)) (components name).
Proof.
  apply Forall_forall. intros c [_ Hc]%list_elem_of_filter. revert c Hc. apply Forall_forall, pieces_sall, to_dots_no_separator.
Qed.

Lemma suggestSLS_canonical_ name : suggestSLS name ≠ "" → CanonicalSLS (suggestSLS name) = None.
Proof.
  intros Hn. apply CanonicalSLS_None. rewrite suggestSLS_components in *. pose proof (components_ok name) as Hok.
  split_and!; [done| |].
  - apply Join_sall; [|by split]. eapply Forall_impl; [apply Hok|]. intros c. apply sall_impl. tauto.
  - rewrite pieces_Join.
    + intros [? _]%list_elem_of_filter. done.
    + by intros Hc; rewrite Hc in Hn.
    + eapply Forall_impl; [apply Hok|]. intros c. apply sall_impl. tauto.
Qed.

Lemma canonical_suggests_itself name : CanonicalSLS name = None → suggestSLS name = name.
Proof.
  rewrite CanonicalSLS_None. intros (_ & Hs & He). rewrite suggestSLS_components. unfold components.
  assert (H1 : sall (λ a, a ≠ "/"%char) name) by (eapply sall_impl; [|exact Hs]; by intros a []).
  assert (H2 : sall (λ a, a ≠ backslash) name) by (eapply sall_impl; [|exact Hs]; by intros a []).
  rewrite (replace_byte_absent "/"), replace_byte_absent by done.
  rewrite filter_all; [apply Join_pieces|]. intros c Hc ->. done.
Qed.

(** There is one spelling of an SLS name: a name is accepted exactly when
    it is what the message about a refused name suggests, and a suggestion is
    itself accepted, unless nothing is left of the name. *)
Theorem canonical_spelling name :
  (CanonicalSLS name = None ↔ name ≠ "" ∧ suggestSLS name = name) ∧
  (suggestSLS name ≠ "" → CanonicalSLS (suggestSLS name) = None).
Proof.
  split; [|apply suggestSLS_canonical_]. split.
  - intros Hc. split; [|by apply canonical_suggests_itself]. by apply CanonicalSLS_None in Hc as [].
  - intros [Hn Hs]. rewrite <-Hs. apply suggestSLS_canonical_. by rewrite Hs.
Qed.

Lemma canonical_path_inj a b u :
  sall no_separator a → sall no_separator b →
  replace_byte "." "/" a +:+ u = replace_byte "." "/" b +:+ u → a = b.
Proof.
  intros Ha Hb Heq. apply string_app_inv_r in Heq.
  apply replace_byte_inj in Heq; [done| |]; (eapply sall_impl; [|eassumption]); by intros ? [].
Qed.

(** Two accepted names can stand for one file only when they are the same
    or when one is the other followed by [.init]: that second pair is the only
    one an allowlist or denylist has to list under two names. *)
Theorem sls_files_overlap a b :
  CanonicalSLS a = None → CanonicalSLS b = None →
  (∃ p, p ∈ slsCandidates a ∧ p ∈ slsCandidates b) ↔ a = b ∨ a = b +:+ ".init" ∨ b = a +:+ ".init".
Proof.
  rewrite !CanonicalSLS_None. intros (_ & Ha & _) (_ & Hb & _).
  assert (Hinit : ∀ x, replace_byte "." "/" x +:+ "/init.sls" = replace_byte "." "/" (x +:+ ".init") +:+ ".sls").
  { intros x. rewrite replace_byte_app, string_app_assoc. done. }
  assert (Hs : ∀ x, sall no_separator x → sall no_separator (x +:+ ".init")).
  { intros x Hx. apply sall_app. split; [done|]. by repeat split. }
  unfold slsCandidates. rewrite !Hinit. split.
  - intros (p & Hpa & Hpb). rewrite !elem_of_cons in Hpa, Hpb.
    destruct Hpa as [->|[->|[]%elem_of_nil]], Hpb as [Heq|[Heq|[]%elem_of_nil]];
      apply canonical_path_inj in Heq; auto.
    left. by apply string_app_inv_r in Heq.
  - intros [->|[->| ->]].
    + exists (replace_byte "." "/" b +:+ ".sls"). set_solver.
    + exists (replace_byte "." "/" (b +:+ ".init") +:+ ".sls"). set_solver.
    + exists (replace_byte "." "/" (a +:+ ".init") +:+ ".sls"). set_solver.
Qed.
End sls_names.

(** A package and its [init] are two accepted names of one file. *)
Lemma sls_files_overlap_witness :
  ∃ p, p ∈ slsCandidates "secret" ∧ p ∈ slsCandidates "secret.init".
Proof. apply (sls_files_overlap (H := demo_runtime)); [reflexivity|reflexivity|]. right. right. reflexivity. Defined.

(** ** What a document declares *)

Section parse_facts.
Context `{Runtime}.

(** A function declaration the later stages can rely on. *)
Definition func_wf (f : FuncDecl) : Prop :=
  fFun f ≠ "" ∧ map_wf (fArgs f) ∧ ∀ e, e ∈ entries (fArgs f) → ∃ s, Key e = VString s.
Definition string_keys (m : Map) : Prop := ∀ e, e ∈ entries m → ∃ s, Key e = VString s.
Definition args_wf (f : FuncDecl) : Prop := map_wf (fArgs f) ∧ string_keys (fArgs f).

Lemma SetAt_string_keys m s v kp vp : string_keys m → string_keys (SetAt m (VString s) v kp vp).
Proof.
  intros Hm e. unfold SetAt. destruct (index m !! _) as [i|]; simpl.
  - intros [j Hj]%list_elem_of_lookup. destruct (decide (i = j)) as [->|Hne].
    + rewrite list_lookup_alter_eq in Hj. destruct (entries m !! j) as [e'|] eqn:He'; simplify_eq/=.
      apply (Hm e'). by eapply list_elem_of_lookup_2.
    + rewrite list_lookup_alter_ne in Hj by done. apply Hm. by eapply list_elem_of_lookup_2.
  - rewrite elem_of_app, list_elem_of_singleton. intros [He| ->]; [by apply Hm|by exists s].
Qed.

Lemma NewMap_string_keys : string_keys NewMap.
Proof. by intros e ?%elem_of_nil. Qed.

Lemma parse_args_wf key sls id es f : args_wf f → args_wf (parse_args key sls id es f).1.
Proof.
  revert f. induction es as [|e es IH]; intros f [Hw Hk]; [done|]. cbn [parse_args].
  destruct (Has _ _); [rewrite bind_fst; by apply IH|]. apply IH. split; simpl; [by apply SetAt_wf|by apply SetAt_string_keys].
Qed.

Lemma parse_items_wf key sls id pos items f : args_wf f → args_wf (parse_items key sls id pos items f).1.
Proof.
  revert f. induction items as [|i items IH]; intros f Hf; [done|]. cbn [parse_items]. rewrite bind_fst. apply IH.
  destruct i; try done; simpl; [by case_bool_decide|by apply parse_args_wf].
Qed.

Lemma shorthand_args_wf es : map_wf (shorthand_args es) ∧ string_keys (shorthand_args es).
Proof.
  unfold shorthand_args. apply (foldl_inv (λ m, map_wf m ∧ string_keys m)).
  - split; [apply NewMap_wf|apply NewMap_string_keys].
  - intros m e _ [Hw Hk]. split; [by apply SetAt_wf|by apply SetAt_string_keys].
Qed.

Lemma parseFuncDecl_wf key fe sls id f : (parseFuncDecl key fe sls id).1 = Some f → func_wf f.
Proof.
  unfold parseFuncDecl. destruct (match IndexByte "." key with Some i => _ | None => _ end) as [st fn].
  rewrite bind_fst. set (f0 := mkFunc st fn NewMap [] (KeyPos fe)).
  assert (H0 : args_wf f0) by (split; [apply NewMap_wf|apply NewMap_string_keys]).
  match goal with |- context [match ?b.1 with _ => _ end] => set (body := b) end.
  assert (Hb : ∀ g, body.1 = Some g → args_wf g).
  { intros g. subst body. destruct (Val fe); simpl; intros [= <-]; try exact H0.
    - by apply parse_items_wf.
    - apply shorthand_args_wf. }
  clearbody body. destruct body.1 as [g|]; [|done]. specialize (Hb g eq_refl).
  case_bool_decide; [done|]. intros [= <-]. by split.
Qed.

Lemma parse_funcs_wf sls id es f : f ∈ (parse_funcs sls id es).1 → func_wf f.
Proof.
  unfold parse_funcs. rewrite elem_of_collect. intros (fe & _ & Hin). destruct (injected _); [by apply elem_of_nil in Hin|].
  rewrite bind_fst in Hin. destruct (parseFuncDecl _ _ _ _).1 as [g|] eqn:Hg; [|by apply elem_of_nil in Hin].
  apply list_elem_of_singleton in Hin as ->. by eapply parseFuncDecl_wf.
Qed.

(** A declaration as a file gives it. *)
Definition decl_wf (sls env : string) (d : Decl) : Prop :=
  dclSLS d = sls ∧ dclEnv d = env ∧ Funcs d ≠ [] ∧ ∀ f, f ∈ Funcs d → func_wf f.

Lemma parseDecl_wf id e sls env d : (parseDecl id e sls env).1 = Some d → decl_wf sls env d ∧ dclID d = id.
Proof.
  assert (Hof : ∀ es d0, (fs ← parse_funcs sls id es;
    match fs with
    | [] => Add (ValPos e) sls id "this state ID declares no module.function" [];; mret None
    | _ => mret (Some (set_Funcs (mkDecl id sls env (KeyPos e) [] 0) fs))
    end : DW (option Decl)).1 = Some d0 → decl_wf sls env d0 ∧ dclID d0 = id).
  { intros es d0. rewrite bind_fst. pose proof (parse_funcs_wf sls id es) as Hwf.
    destruct (parse_funcs sls id es).1 as [|f fs]; [done|]. intros [= <-]. split_and!; try done. }
  unfold parseDecl. destruct (Val e); try done.
  - rewrite bind_fst. destruct (parseFuncDecl _ _ _ _).1 as [f|] eqn:Hf; [|done]. intros [= <-].
    split; [|done]. split_and!; try done. intros g ->%list_elem_of_singleton. by eapply parseFuncDecl_wf.
  - apply Hof.
Qed.

Lemma parse_entries_wf sls env fp es out :
  Forall (decl_wf sls env) (Decls_ out) → Forall (decl_wf sls env) (Decls_ (parse_entries sls env fp es out).1).
Proof.
  revert out. induction es as [|e es IH]; intros out Ho; [done|]. cbn [parse_entries]. rewrite bind_fst. apply IH.
  unfold parse_entry. repeat case_bool_decide; rewrite ?bind_fst; [done| |done|].
  - by destruct (Val e).
  - destruct (injected _); [done|]. rewrite bind_fst. simpl. apply Forall_app. split; [done|].
    destruct (parseDecl _ _ _ _).1 as [d|] eqn:Hd; [|constructor]. constructor; [|constructor].
    by apply parseDecl_wf in Hd as [].
Qed.

Lemma parseSLS_decls v sls env fp : Forall (decl_wf sls env) (Decls_ (parseSLS v sls env fp).1).
Proof. destruct v; try constructor. apply parse_entries_wf. constructor. Qed.
End parse_facts.

(** ** The high state *)

Section high_facts.

(** The index finds exactly the declarations, under their IDs, and each
    declaration knows its place. *)
Definition high_wf (h : HighState) : Prop :=
  (∀ id i, hindex h !! id = Some i ↔ ∃ d, decls h !! i = Some d ∧ dclID d = id) ∧
  (∀ i d, decls h !! i = Some d → dclOrder d = i).

Lemma NewHighState_wf : high_wf NewHighState.
Proof. split; [|done]. intros id i. simpl. rewrite lookup_empty. split; [done|]. by intros (d & ? & _). Qed.

Lemma hs_Lookup_Some h id i d :
  high_wf h → hs_Lookup h id = Some (i, d) ↔ decls h !! i = Some d ∧ dclID d = id.
Proof.
  intros [Hw _]. unfold hs_Lookup. split.
  - intros Hl. destruct (hindex h !! id) as [j|] eqn:Hj; [|done]. simpl in Hl.
    apply Hw in Hj as (d' & Hd & Hid). rewrite Hd in Hl. by simplify_eq/=.
  - intros [Hd Hid]. assert (hindex h !! id = Some i) as -> by (apply Hw; eauto). simpl. by rewrite Hd.
Qed.

Lemma hs_Lookup_None h id : high_wf h → hs_Lookup h id = None ↔ ∀ d, d ∈ decls h → dclID d ≠ id.
Proof.
  intros Hw. split.
  - intros Hn d [i Hi]%list_elem_of_lookup Hid. assert (hs_Lookup h id = Some (i, d)) by by apply hs_Lookup_Some. congruence.
  - intros Hall. destruct (hs_Lookup h id) as [[i d]|] eqn:Hl; [|done]. apply hs_Lookup_Some in Hl as [Hd Hid]; [|done].
    by destruct (Hall d (list_elem_of_lookup_2 _ _ _ Hd)).
Qed.

Lemma high_wf_NoDup h : high_wf h → NoDup (dclID <$> decls h).
Proof.
  intros [Hw _]. apply NoDup_alt. intros i j id Hi Hj. rewrite list_lookup_fmap in Hi, Hj.
  destruct (decls h !! i) as [d|] eqn:Hd, (decls h !! j) as [d'|] eqn:Hd'; simplify_eq/=.
  assert (hindex h !! dclID d = Some i) by (apply Hw; eauto).
  assert (hindex h !! dclID d = Some j) by (apply Hw; eauto). congruence.
Qed.

Lemma high_append_wf h d :
  high_wf h → hs_Lookup h (dclID d) = None →
  high_wf (mkHigh (decls h ++ [set_Order d (length (decls h))]) (<[dclID d := length (decls h)]> (hindex h))
             (excludedSLS h) (excludedIDs h)).
Proof.
  intros Hw Hn. pose proof (proj1 (hs_Lookup_None h _ Hw) Hn) as Hfresh. destruct Hw as [Hi Ho]. split; simpl.
  - intros id i. destruct (decide (id = dclID d)) as [->|Hne].
    + rewrite lookup_insert_eq. split.
      * intros [= <-]. exists (set_Order d (length (decls h))). by rewrite list_lookup_middle.
      * intros (d' & Hd' & Hid). apply lookup_app_Some in Hd' as [Hd'|[Hle Hd']].
        -- by destruct (Hfresh d' (list_elem_of_lookup_2 _ _ _ Hd')).
        -- apply list_lookup_singleton_Some in Hd' as [? _]. f_equal. lia.
    + rewrite lookup_insert_ne, Hi by done. split; intros (d' & Hd' & Hid); exists d'; (split; [|done]).
      * by apply lookup_app_l_Some.
      * apply lookup_app_Some in Hd' as [Hd'|[Hle Hd']]; [done|].
        apply list_lookup_singleton_Some in Hd' as [_ <-]. by simpl in Hid.
  - intros i d' Hd'. apply lookup_app_Some in Hd' as [Hd'|[Hle Hd']]; [by apply Ho|].
    apply list_lookup_singleton_Some in Hd' as [? <-]. simpl. lia.
Qed.

Lemma hs_add_wf h d : high_wf h → high_wf (hs_add h d).1.
Proof. intros Hw. unfold hs_add. destruct (hs_Lookup _ _) as [[i prev]|] eqn:Hl; [done|]. by apply high_append_wf. Qed.

(** State IDs are unique across a run: adding a declaration keeps the
    index exact; an ID that is taken is reported and the first declaration
    stays, any other is appended with the next number. *)
Theorem hs_add_spec h d :
  high_wf h →
  high_wf (hs_add h d).1 ∧
  if bool_decide (dclID d ∈ dclID <$> decls h)
  then (hs_add h d).1 = h ∧ HasErrors (hs_add h d).2 = true
  else decls (hs_add h d).1 = decls h ++ [set_Order d (length (decls h))] ∧ HasErrors (hs_add h d).2 = false.
Proof.
  intros Hw. split; [by apply hs_add_wf|]. unfold hs_add. destruct (hs_Lookup h (dclID d)) as [[i prev]|] eqn:Hl.
  - apply hs_Lookup_Some in Hl as [Hd Hid]; [|done]. rewrite bool_decide_eq_true_2; [done|].
    rewrite <-Hid. apply list_elem_of_fmap_2. by eapply list_elem_of_lookup_2.
  - rewrite bool_decide_eq_false_2; [done|].
    intros (d' & Heq & Hd')%list_elem_of_fmap. by destruct (proj1 (hs_Lookup_None h _ Hw) Hl d' Hd').
Qed.
End high_facts.

(** Two files that declare the same ID. *)
Lemma hs_add_spec_witness :
  let d := mkDecl "vim" "tools" "base" noPos [] 0 in
  let h := (hs_add NewHighState d).1 in
  high_wf (hs_add NewHighState d).1 ∧ HasErrors (hs_add h d).2 = true.
Proof.
  cbn zeta. set (d := mkDecl "vim" "tools" "base" noPos [] 0).
  destruct (hs_add_spec NewHighState d NewHighState_wf) as [Hw _]. split; [exact Hw|].
  destruct (hs_add_spec (hs_add NewHighState d).1 d Hw) as [_ H2]. vm_compute in H2. exact (proj2 H2).
Defined.
