(* ===== verification/LowState.v ===== *)
(** * Package state: expanding declarations into low chunks

    Models src/internal/state/lowstate.go: the arguments of a declaration are
    split into requisites, options of the runner and arguments of the module;
    [names] becomes one chunk per name, each with its own overrides. *)

From S2P Require Import Prelude GoLib GoTime Value StateTypes HighState Requisite.

Open Scope Z_scope.
Import Writer.

Definition optionNames : gset string := list_to_set [
  "unless"; "onlyif"; "creates"; "check_cmd"; "retry"; "parallel"; "order"; "failhard";
  "reload_modules"; "reload_grains"; "reload_pillar"; "runas"; "runas_password"; "umask"; "timeout";
  "fire_event"; "aggregate"; "names"].
Definition IsOptionArg (name : string) : bool := bool_decide (name ∈ optionNames).

Definition isForwardReq (name : string) : bool := bool_decide (is_Some (forwardReqs !! name)).
Definition forwardOf (name : string) : string := TrimSuffix name "_in".

Section lowstate.
Context `{Runtime}.

Definition argPos (args : Map) (name : string) : Pos :=
  match Entry_ args (VString name) with Some e => KeyPos e | None => noPos end.

Definition extractNames (args : Map) (d : Decl) : DW (list value) :=
  match Get args (VString "names") with
  | None | Some VNull => mret []
  | Some (VSeq t) => mret t
  | Some v => Add (argPos args "names") (dclSLS d) (dclID d) "names must hold a list, found %s" [FStr (TypeName v)];;
              mret []
  end.

(** ** Requisites *)

Definition listenSLSRefusal : string :=
  let dq := string_of_bytes [34] in
  "%s names sls %q; Salt's listen takes no sls and fails the run with " +:+ dq +:+
  "Referenced state sls: %[2]s does not exist" +:+ dq.

(** An sls is refused as the target of a listen. *)
Fixpoint refuse_sls (name : string) (pos : Pos) (d : Decl) (refs : list ReqRef) : DW (list ReqRef) :=
  match refs with
  | [] => mret []
  | ref :: rest =>
      if bool_decide (rSLS ref ≠ "") then
        Add pos (dclSLS d) (dclID d) listenSLSRefusal [FStr name; FStr (rSLS ref)];;
        refuse_sls name pos d rest
      else more ← refuse_sls name pos d rest; mret (ref :: more)
  end.

Definition collect_one (d : Decl) (e : Entry) : DW (list Req) :=
  let name := KeyString (Key e) in
  match forwardReqs !! name with
  | None => mret []
  | Some kind =>
      refs ← parseReqList (Val e) (ValPos e) (dclSLS d) (dclID d) name;
      refs ← (if bool_decide (kind = Listen) then refuse_sls name (ValPos e) d refs else mret refs);
      mret (match refs with [] => [] | _ => [mkReq kind refs []] end)
  end.
Definition collectRequisites (f : FuncDecl) (d : Decl) : DW (list Req) := collect (collect_one d) (entries (fArgs f)).

(** ** Options *)

Definition asAnyList (v : value) : list value :=
  match v with VSeq t => t | VNull => [] | _ => [v] end.

Fixpoint string_items (pos : Pos) (d : Decl) (name : string) (l : list value) : DW (list string) :=
  match l with
  | [] => mret []
  | VString s :: rest => more ← string_items pos d name rest; mret (s :: more)
  | item :: rest =>
      Add pos (dclSLS d) (dclID d) "%s entries must be strings, found %s" [FStr name; FStr (TypeName item)];;
      string_items pos d name rest
  end.
Definition asStringList (v : value) (pos : Pos) (d : Decl) (name : string) : DW (list string) :=
  match v with
  | VString t => mret [t]
  | VSeq t => string_items pos d name t
  | VNull => mret []
  | _ => Add pos (dclSLS d) (dclID d) "%s must be a string or a list, found %s" [FStr name; FStr (TypeName v)];; mret []
  end.

(** The error of value.ParseDuration. *)
Definition durationError (v : value) : string :=
  match v with
  | VString t => Quote t +:+ " is not a duration: write it as a number of seconds, or with a unit such as 15m"
  | VNull => "a duration is missing"
  | _ => TypeName v +:+ " is not a duration: write it as a number of seconds, or with a unit such as 15m"
  end.

Definition retry_entry (d : Decl) (r : Retry) (e : Entry) : DW Retry :=
  let key := KeyString (Key e) in
  let bad msg := Add (ValPos e) (dclSLS d) (dclID d) msg [];; mret r in
  if bool_decide (key = "attempts") then
    match Val e with
    | VInt n => mret (mkRetry n (Interval r) (Until r) (Splay r))
    | _ => bad "retry attempts must be an integer"
    end
  else if bool_decide (key = "interval") then
    match ParseDuration (Val e) with
    | Some dur => mret (mkRetry (Attempts r) dur (Until r) (Splay r))
    | None => bad "retry interval must be a duration"
    end
  else if bool_decide (key = "splay") then
    match ParseDuration (Val e) with
    | Some dur => mret (mkRetry (Attempts r) (Interval r) (Until r) dur)
    | None => bad "retry splay must be a duration"
    end
  else if bool_decide (key = "until") then mret (mkRetry (Attempts r) (Interval r) (Truthy (Val e)) (Splay r))
  else Add (KeyPos e) (dclSLS d) (dclID d)
         "retry has no option %q; it takes attempts, interval, until, and splay" [FStr key];; mret r.
Fixpoint retry_entries (d : Decl) (es : list Entry) (r : Retry) : DW Retry :=
  match es with [] => mret r | e :: rest => r' ← retry_entry d r e; retry_entries d rest r' end.

Definition parseRetry (v : value) (pos : Pos) (d : Decl) : DW (option Retry) :=
  let r := mkRetry 2 (30 * Second) true 0 in
  let of_map es :=
    r ← retry_entries d es r;
    (if Attempts r <? 1 then Add pos (dclSLS d) (dclID d) "retry attempts must be at least 1" [] else mret ());;
    mret (Some r) in
  match v with
  | VMap m => of_map (entries m)
  | VNilMap => of_map []
  | _ => mret (if Truthy v then Some r else None)
  end.

Definition parse_order (v : value) (pos : Pos) (d : Decl) : DW (OrderMode * Z) :=
  match v with
  | VInt t => mret (OrderExplicit, t)
  | VString t =>
      if EqualFold t "last" then mret (OrderLast, 0)
      else if EqualFold t "first" then mret (OrderExplicit, 0)
      else
        match Atoi t with
        | Some n => mret (OrderExplicit, n)
        | None => Add pos (dclSLS d) (dclID d) "order must be an integer, `first`, or `last`, found %q" [FStr t];;
                  mret (OrderNone, 0)
        end
  | _ => Add pos (dclSLS d) (dclID d) "order must be an integer, `first`, or `last`, found %s" [FStr (TypeName v)];;
         mret (OrderNone, 0)
  end.

Definition parse_timeout (v : value) (pos : Pos) (d : Decl) : DW Z :=
  match ParseDuration v with
  | Some dur => mret dur
  | None => Add pos (dclSLS d) (dclID d) "timeout: %v" [FStr (durationError v)];; mret 0
  end.

(** An option that is given, or the zero value. *)
Definition opt_with {A} (args : Map) (name : string) (zero : A) (f : value → Pos → DW A) : DW A :=
  match Entry_ args (VString name) with
  | Some e => f (Val e) (ValPos e)
  | None => mret zero
  end.
Definition opt_pure {A} (args : Map) (name : string) (zero : A) (f : value → A) : A :=
  match Entry_ args (VString name) with Some e => f (Val e) | None => zero end.

Definition parseOptions (f : FuncDecl) (d : Decl) : DW Options :=
  let args := fArgs f in
  creates ← opt_with args "creates" [] (λ v pos, asStringList v pos d "creates");
  check ← opt_with args "check_cmd" [] (λ v pos, asStringList v pos d "check_cmd");
  timeout ← opt_with args "timeout" 0 (λ v pos, parse_timeout v pos d);
  ord ← opt_with args "order" (OrderNone, 0) (λ v pos, parse_order v pos d);
  retry ← opt_with args "retry" None (λ v pos, parseRetry v pos d);
  mret (mkOptions
    (opt_pure args "unless" [] asAnyList) (opt_pure args "onlyif" [] asAnyList) creates check retry
    (opt_pure args "parallel" false Truthy) ord.1 ord.2
    (opt_pure args "failhard" None (λ v, Some (Truthy v)))
    (opt_pure args "reload_modules" false Truthy) (opt_pure args "reload_grains" false Truthy)
    (opt_pure args "reload_pillar" false Truthy)
    (opt_pure args "runas" "" KeyString)
    (opt_pure args "runas_password" "" (λ v, match v with VString s => s | _ => "" end))
    (opt_pure args "umask" "" KeyString) timeout
    (opt_pure args "fire_event" VNull id) (opt_pure args "aggregate" false Truthy)).

(** ** Chunks *)

(** Where an argument goes. *)
Inductive arg_class := ArgIdentity | ArgRequisite | ArgOption | ArgModule.
#[global] Instance arg_class_eq_dec : EqDecision arg_class.
Proof. solve_decision. Defined.
Definition classify (name : string) : arg_class :=
  if bool_decide (name = "name") || bool_decide (name = "names") then ArgIdentity
  else if IsRequisiteArg name then ArgRequisite
  else if IsOptionArg name then ArgOption
  else ArgModule.

Definition split_arg (p : Map * Map) (e : Entry) : Map * Map :=
  match classify (KeyString (Key e)) with
  | ArgIdentity | ArgRequisite => p
  | ArgOption => (p.1, set_entry p.2 e)
  | ArgModule => (set_entry p.1 e, p.2)
  end.
(** The arguments of the module, and the options as written. *)
Definition split_args (es : list Entry) : Map * Map := foldl split_arg (NewMap, NewMap) es.

Definition set_Opts (c : Chunk) (o : Options) : Chunk :=
  mkChunk (cID c) (cSLS c) (cEnv c) (cState c) (cFun c) (cName c) (Args c) (Reqs c) o
    (OptionArgs c) (DeclOrder c) (SeqOrder c) (RunNum c) (cPos c).
Definition set_OptionArgs (c : Chunk) (m : Map) : Chunk :=
  mkChunk (cID c) (cSLS c) (cEnv c) (cState c) (cFun c) (cName c) (Args c) (Reqs c) (Opts c)
    m (DeclOrder c) (SeqOrder c) (RunNum c) (cPos c).
Definition set_cName (c : Chunk) (n : string) : Chunk :=
  mkChunk (cID c) (cSLS c) (cEnv c) (cState c) (cFun c) n (Args c) (Reqs c) (Opts c)
    (OptionArgs c) (DeclOrder c) (SeqOrder c) (RunNum c) (cPos c).

(** The arguments attached to one entry of [names]. *)
Definition own_item (c : Chunk) (d : Decl) (own : Map) (item : value) : DW Map :=
  match item with
  | VMap m => mret (foldl set_entry own (entries m))
  | VNilMap => mret own
  | _ => Add (cPos c) (dclSLS d) (dclID d) "a names entry's arguments must be `key: value` pairs, found %s"
           [FStr (TypeName item)];; mret own
  end.
Fixpoint own_items (c : Chunk) (d : Decl) (items : list value) (own : Map) : DW Map :=
  match items with [] => mret own | i :: rest => own' ← own_item c d own i; own_items c d rest own' end.
Definition own_args (c : Chunk) (d : Decl) (v : value) : DW Map :=
  match v with
  | VNull | VNilMap => mret NewMap
  | VMap m => mret (foldl set_entry NewMap (entries m))
  | VSeq l => own_items c d l NewMap
  | _ => Add (cPos c) (dclSLS d) (dclID d) "a names entry's arguments must be a mapping or a list of them, found %s"
           [FStr (TypeName v)];; mret NewMap
  end.

(** One of them: what it changes in the chunk, and whether the options and the
    requisites have to be read again. *)
Definition per_name_arg (d : Decl) (st : Chunk * bool * bool) (se : Entry) : DW (Chunk * bool * bool) :=
  let '(c, options, requisites) := st in
  let name := KeyString (Key se) in
  if bool_decide (name = "names") then
    Add (cPos c) (dclSLS d) (dclID d) "a names entry cannot carry `names` of its own" [];; mret st
  else if IsRequisiteArg name && negb (isForwardReq name) then
    Add (cPos c) (dclSLS d) (dclID d)
      "`%s` cannot be given to one name; put it on the declaration, or a `%s` on the other state"
      [FStr name; FStr (forwardOf name)];; mret st
  else if IsRequisiteArg name then mret (c, options, true)
  else if IsOptionArg name then mret (set_OptionArgs c (set_entry (OptionArgs c) se), true, requisites)
  else mret (set_Args c (set_entry (Args c) se), options, requisites).
Fixpoint per_name_args (d : Decl) (es : list Entry) (st : Chunk * bool * bool) : DW (Chunk * bool * bool) :=
  match es with [] => mret st | e :: rest => st' ← per_name_arg d st e; per_name_args d rest st' end.

Definition applyPerNameArgs (c : Chunk) (f : FuncDecl) (v : value) (d : Decl) : DW Chunk :=
  own ← own_args c d v;
  if (Len own =? 0)%nat then mret c
  else
    let merged := set_fArgs f (foldl set_entry (foldl set_entry NewMap (entries (fArgs f))) (entries own)) in
    st ← per_name_args d (entries own) (c, false, false);
    let '(c, options, requisites) := st in
    c ← (if options : bool then o ← parseOptions merged d; mret (set_Opts c o) else mret c);
    if requisites : bool then rs ← collectRequisites merged d; mret (set_Reqs c rs) else mret c.

Definition set_name_arg (c : Chunk) : Chunk := set_Args c (MSet (Args c) (VString "name") (VString (cName c))).

(** One name of the list, at position [i]. *)
Definition chunk_of_name (base : Chunk) (f : FuncDecl) (d : Decl) (i : nat) (n : value) : DW (list Chunk) :=
  let c := mkChunk (cID base) (cSLS base) (cEnv base) (cState base) (cFun base) "" (Args base) (Reqs base)
             (Opts base) (OptionArgs base) (DeclOrder base) (Z.of_nat i) 0 (cPos base) in
  let bad := Add (cPos c) (dclSLS d) (dclID d) "a names entry mapping must have exactly one key" [];; mret [] in
  match n with
  | VMap t =>
      match entries t with
      | [e] =>
          c ← applyPerNameArgs (set_cName c (KeyString (Key e))) f (Val e) d;
          mret [set_name_arg c]
      | _ => bad
      end
  | VNilMap => bad
  | _ => mret [set_name_arg (set_cName c (KeyString n))]
  end.
Fixpoint chunks_of_names (base : Chunk) (f : FuncDecl) (d : Decl) (i : nat) (names : list value) : DW (list Chunk) :=
  match names with
  | [] => mret []
  | n :: rest =>
      a ← chunk_of_name base f d i n; b ← chunks_of_names base f d (S i) rest; mret (a ++ b)
  end.

Definition base_name (f : FuncDecl) (d : Decl) : DW string :=
  match Get (fArgs f) (VString "name") with
  | None => mret (dclID d)
  | Some (VString s) => mret s
  | Some v =>
      Add (argPos (fArgs f) "name") (dclSLS d) (dclID d)
        "name must be a string, found %s; quote it if the value looks like a number or a boolean"
        [FStr (TypeName v)];;
      mret (dclID d)
  end.

Definition buildChunksForFunc (d : Decl) (f : FuncDecl) : DW (list Chunk) :=
  names ← extractNames (fArgs f) d;
  name ← base_name f d;
  let '(args, optargs) := split_args (entries (fArgs f)) in
  opts ← parseOptions f d;
  reqs ← collectRequisites f d;
  let base := mkChunk (dclID d) (dclSLS d) (dclEnv d) (fState f) (fFun f) name args reqs opts optargs
                (Z.of_nat (dclOrder d)) 0 0 (fPos f) in
  match names with
  | [] => mret [set_name_arg base]
  | _ => chunks_of_names base f d 0 names
  end.

Definition buildChunks (d : Decl) : DW (list Chunk) := collect (buildChunksForFunc d) (Funcs d).
End lowstate.

(** ** Where the arguments of a declaration go *)

Section split_facts.
Context `{Runtime}.

Definition keyed (k : value) (e : Entry) : Prop := CanonKey (Key e) = CanonKey k.
#[local] Instance keyed_dec k e : Decision (keyed k e) := decide (CanonKey (Key e) = CanonKey k).

Lemma foldl_set_entry_wf out es : map_wf out → map_wf (foldl set_entry out es).
Proof. intros Hw. apply (foldl_inv map_wf); [done|]. intros m e _ Hm. by apply SetAt_wf. Qed.

(** The last entry written under a key is the one that is read. *)
Lemma Get_foldl_set_entry (es : list Entry) out k :
  map_wf out → Get (foldl set_entry out es) k =
    match last (filter (keyed k) es) with Some e => Some (Val e) | None => Get out k end.
Proof.
  intros Hw. induction es as [|e es IH] using rev_ind; [done|].
  rewrite foldl_snoc. unfold set_entry at 1. rewrite Get_SetAt by by apply foldl_set_entry_wf.
  rewrite filter_app, filter_cons, filter_nil. destruct (decide (keyed k e)) as [Hk|Hk].
  - rewrite decide_True by done. by rewrite last_snoc.
  - rewrite decide_False by done. by rewrite app_nil_r.
Qed.

Lemma Get_last m k : map_wf m → Get m k = Val <$> last (filter (keyed k) (entries m)).
Proof.
  intros Hw. unfold Get. f_equal. destruct (Entry_ m k) as [e|] eqn:He.
  - apply Entry_Some in He as [He Hk]; [|done].
    destruct (last _) as [e'|] eqn:Hl.
    + apply last_Some_elem_of, list_elem_of_filter in Hl as [Hk' He'].
      assert (Entry_ m k = Some e) as H1 by by apply Entry_Some.
      assert (Entry_ m k = Some e') as H2 by by apply Entry_Some. congruence.
    + apply last_None in Hl. assert (e ∈ filter (keyed k) (entries m)) as Hin by by apply list_elem_of_filter.
      rewrite Hl in Hin. by apply elem_of_nil in Hin.
  - destruct (last _) as [e'|] eqn:Hl; [|done].
    apply last_Some_elem_of, list_elem_of_filter in Hl as [Hk' He'].
    assert (Entry_ m k = Some e') as H2 by by apply Entry_Some. congruence.
Qed.

Definition of_class (a : arg_class) (e : Entry) : Prop := classify (KeyString (Key e)) = a.
#[local] Instance of_class_dec a e : Decision (of_class a e) := decide (classify (KeyString (Key e)) = a).

(** The entries a key selects do not change when those of its class are kept. *)
Lemma filter_keyed_class (P : Entry → Prop) `{!∀ e, Decision (P e)} k (es : list Entry) :
  (∀ e, Key e = VString k → P e) → filter (keyed (VString k)) (filter P es) = filter (keyed (VString k)) es.
Proof.
  intros HP. rewrite list_filter_filter_l; [done|]. intros e He. apply HP, CanonKey_string, He.
Qed.

Lemma split_args_eq es :
  split_args es = (foldl set_entry NewMap (filter (of_class ArgModule) es),
                   foldl set_entry NewMap (filter (of_class ArgOption) es)).
Proof.
  unfold split_args. induction es as [|e es IH] using rev_ind; [done|].
  rewrite foldl_snoc, IH, !filter_app, !filter_cons, !filter_nil, !foldl_app. unfold split_arg.
  repeat case_decide; unfold of_class in *; case_match; simpl; congruence.
Qed.

Lemma split_args_Get m k :
  map_wf m → classify k = ArgModule → Get (split_args (entries m)).1 (VString k) = Get m (VString k).
Proof.
  intros Hw Hk. rewrite split_args_eq. simpl. rewrite Get_foldl_set_entry by apply NewMap_wf.
  rewrite filter_keyed_class, (Get_last m) by (done || (intros e He; unfold of_class; by rewrite He)).
  by destruct (last _).
Qed.

(** A property of the keys that entries bring into a mapping. *)
Definition keys_ok (P : string → Prop) (m : Map) : Prop := ∀ e, e ∈ entries m → P (KeyString (Key e)).

Lemma SetAt_keys_ok P m k v kp vp : keys_ok P m → P (KeyString k) → keys_ok P (SetAt m k v kp vp).
Proof.
  intros Hm Hk e. unfold SetAt. destruct (index m !! _) as [i|]; simpl.
  - intros [j Hj]%list_elem_of_lookup. destruct (decide (i = j)) as [->|Hne].
    + rewrite list_lookup_alter_eq in Hj. destruct (entries m !! j) as [e'|] eqn:He'; simplify_eq/=.
      apply (Hm e'). by eapply list_elem_of_lookup_2.
    + rewrite list_lookup_alter_ne in Hj by done. apply Hm. by eapply list_elem_of_lookup_2.
  - rewrite elem_of_app, list_elem_of_singleton. intros [He| ->]; [by apply Hm|done].
Qed.

Lemma foldl_set_entry_keys_ok P es out :
  keys_ok P out → (∀ e, e ∈ es → P (KeyString (Key e))) → keys_ok P (foldl set_entry out es).
Proof.
  intros Ho Hes. apply (foldl_inv (keys_ok P)); [done|]. intros m e He Hm. apply SetAt_keys_ok; auto.
Qed.
End split_facts.

(** ** What a chunk carries *)

Section chunk_facts.
Context `{Runtime}.

(** The arguments given to one entry of [names], without the diagnostics. *)
Definition own_of (v : value) : Map :=
  match v with
  | VMap m => foldl set_entry NewMap (entries m)
  | VSeq l => foldl (λ own item, match item with VMap m => foldl set_entry own (entries m) | _ => own end) NewMap l
  | _ => NewMap
  end.

Lemma own_args_fst c d v : (own_args c d v).1 = own_of v.
Proof.
  destruct v; try done. simpl. generalize NewMap. induction l as [|i l IH]; intros own; [done|].
  cbn [own_items foldl]. rewrite bind_fst, IH. by destruct i.
Qed.

Lemma own_of_wf v : map_wf (own_of v).
Proof.
  destruct v; simpl; try apply NewMap_wf.
  - apply (foldl_inv map_wf); [apply NewMap_wf|]. intros m i _ Hm. destruct i; try done. by apply foldl_set_entry_wf.
  - apply foldl_set_entry_wf, NewMap_wf.
Qed.

Definition name_of (n : value) : string :=
  match n with VMap t => match entries t with [e] => KeyString (Key e) | _ => "" end | _ => KeyString n end.
Definition own_of_name (n : value) : Map :=
  match n with VMap t => match entries t with [e] => own_of (Val e) | _ => NewMap end | _ => NewMap end.

(** A key that may reach a module: its name and its own arguments. *)
Definition module_key (k : string) : Prop := k = "name" ∨ classify k = ArgModule.

(** [c'] is [c] but for its arguments, options and requisites. *)
Definition same_identity (c c' : Chunk) : Prop :=
  cID c' = cID c ∧ cSLS c' = cSLS c ∧ cEnv c' = cEnv c ∧ cState c' = cState c ∧ cFun c' = cFun c ∧
  cName c' = cName c ∧ DeclOrder c' = DeclOrder c ∧ SeqOrder c' = SeqOrder c.

(** What a loop over the arguments of one name has kept of the chunk. *)
Definition own_key (e : Entry) : Prop := module_key (KeyString (Key e)).
#[local] Instance own_key_dec e : Decision (own_key e).
Proof. unfold own_key, module_key. apply _. Defined.

Lemma module_key_plain k : module_key k → k ≠ "names" ∧ IsRequisiteArg k = false ∧ IsOptionArg k = false.
Proof.
  intros [-> |Hk]; [by split_and!|]. unfold classify in Hk.
  destruct (bool_decide (k = "name") || bool_decide (k = "names")) eqn:Hn; [done|].
  apply orb_false_iff in Hn as [_ Hn%bool_decide_eq_false].
  by destruct (IsRequisiteArg k), (IsOptionArg k).
Qed.

Lemma plain_module_key k : k ≠ "names" → IsRequisiteArg k = false → IsOptionArg k = false → module_key k.
Proof.
  intros Hn Hr Ho. unfold module_key, classify. rewrite Hr, Ho, (bool_decide_eq_false_2 (k = "names")) by done.
  case_bool_decide; auto.
Qed.

(** The step adds the argument exactly when its key may reach a module. *)
Lemma per_name_arg_fst d c o r e :
  let c' := (per_name_arg d (c, o, r) e).1.1.1 in
  Args c' = (if decide (own_key e) then set_entry (Args c) e else Args c) ∧ same_identity c c'.
Proof.
  cbn zeta. unfold per_name_arg, same_identity. case_decide as Hk; unfold own_key in Hk.
  - apply module_key_plain in Hk as (Hn & Hr & Ho).
    rewrite bool_decide_eq_false_2, Hr, Ho by done. split_and!; reflexivity.
  - case_bool_decide; [split_and!; reflexivity|].
    destruct (IsRequisiteArg _) eqn:Hr; [destruct (isForwardReq _); split_and!; reflexivity|].
    destruct (IsOptionArg _) eqn:Ho; [split_and!; reflexivity|]. by destruct Hk; apply plain_module_key.
Qed.

Lemma same_identity_trans a b c : same_identity a b → same_identity b c → same_identity a c.
Proof. unfold same_identity. intuition congruence. Qed.

Lemma per_name_args_fst d es st :
  let c := st.1.1 in let c' := (per_name_args d es st).1.1.1 in
  Args c' = foldl set_entry (Args c) (filter own_key es) ∧ same_identity c c'.
Proof.
  cbn zeta. revert st. induction es as [|e es IH]; intros [[c o] r]; [done|]. cbn [per_name_args].
  rewrite bind_fst. destruct (per_name_arg_fst d c o r e) as [Ha Hs].
  destruct (per_name_arg d (c, o, r) e).1 as [[c' o'] r']. simpl in Ha, Hs.
  destruct (IH (c', o', r')) as [Ha' Hs']. simpl in Ha', Hs'. split; [|by eapply same_identity_trans].
  rewrite Ha', Ha, filter_cons. by case_decide.
Qed.

Lemma applyPerNameArgs_fst c f v d :
  let c' := (applyPerNameArgs c f v d).1 in
  Args c' = foldl set_entry (Args c) (filter own_key (entries (own_of v))) ∧ same_identity c c'.
Proof.
  cbn zeta. unfold applyPerNameArgs. rewrite bind_fst, own_args_fst. unfold Len.
  destruct (entries (own_of v)) as [|e es] eqn:He; [done|]. rewrite <-He. cbn [length Nat.eqb].
  replace ((length (entries (own_of v)) =? 0)%nat) with false by (by rewrite He). rewrite bind_fst.
  pose proof (per_name_args_fst d (entries (own_of v)) (c, false, false)) as Hp.
  destruct (per_name_args _ _ _).1 as [[c' o] r]. simpl in Hp. rewrite bind_fst.
  destruct o, r; rewrite ?bind_fst; exact Hp.
Qed.

(** What the name [nm] with the arguments [own] makes of the base chunk. *)
Record made (base : Chunk) (nm : string) (own : Map) (i : nat) (c : Chunk) : Prop := {
  made_id : cID c = cID base;
  made_sls : cSLS c = cSLS base;
  made_env : cEnv c = cEnv base;
  made_func : cState c = cState base ∧ cFun c = cFun base;
  made_decl : DeclOrder c = DeclOrder base;
  made_name : cName c = nm;
  made_seq : SeqOrder c = Z.of_nat i;
  made_args : Args c = MSet (foldl set_entry (Args base) (filter own_key (entries own))) (VString "name") (VString nm) }.

Lemma made_plain base nm i :
  made base nm NewMap i (set_name_arg (set_cName (mkChunk (cID base) (cSLS base) (cEnv base) (cState base) (cFun base) ""
    (Args base) (Reqs base) (Opts base) (OptionArgs base) (DeclOrder base) (Z.of_nat i) 0 (cPos base)) nm)).
Proof. by split. Qed.

Lemma chunk_of_name_made base f d i n :
  ((chunk_of_name base f d i n).1 = [] ∧ HasErrors (chunk_of_name base f d i n).2 = true) ∨
  ∃ c, (chunk_of_name base f d i n).1 = [c] ∧ made base (name_of n) (own_of_name n) i c.
Proof.
  unfold chunk_of_name, name_of, own_of_name.
  destruct n; try (right; eexists; split; [reflexivity|apply made_plain]).
  - destruct (entries m) as [|e [|]]; [by left| |by left]. right. rewrite bind_fst. eexists. split; [reflexivity|].
    match goal with |- context [applyPerNameArgs ?c ?f ?v ?d] => destruct (applyPerNameArgs_fst c f v d) as [Ha Hs] end.
    destruct (applyPerNameArgs _ _ _ _).1. simpl in Ha, Hs. destruct Hs as (? & ? & ? & ? & ? & ? & ? & ?). simpl in *.
    subst. by split.
  - by left.
Qed.

Lemma chunks_of_names_made base f d names i :
  HasErrors (chunks_of_names base f d i names).2 = false →
  Forall2 (λ p c, made base (name_of p.2) (own_of_name p.2) (i + p.1)%nat c) (imap pair names)
    (chunks_of_names base f d i names).1.
Proof.
  revert i. induction names as [|n names IH]; intros i He; [constructor|]. cbn [chunks_of_names] in *.
  rewrite !HasErrors_bind in He. destruct He as (He & Hr & _). rewrite !bind_fst.
  destruct (chunk_of_name_made base f d i n) as [[_ Hb]|(c & -> & Hm)]; [congruence|].
  change (mret _).1 with (c :: (chunks_of_names base f d (S i) names).1). cbn [imap]. constructor.
  { simpl. by rewrite Nat.add_0_r. }
  replace (imap (pair ∘ S) names) with (prod_map S id <$> imap pair names).
  - apply Forall2_fmap_l. eapply Forall2_impl; [apply (IH (S i)), Hr|]. intros p c'. simpl.
    by rewrite Nat.add_succ_r.
  - rewrite fmap_imap. by apply imap_ext.
Qed.

Lemma elem_of_chunks_of_names base f d names i c :
  c ∈ (chunks_of_names base f d i names).1 → ∃ nm own j, made base nm own j c.
Proof.
  revert i. induction names as [|n names IH]; intros i; [by intros ?%elem_of_nil|]. cbn [chunks_of_names].
  rewrite !bind_fst. intros [Hin|Hin]%elem_of_app; [|by eapply IH].
  destruct (chunk_of_name_made base f d i n) as [[Hn _]|(c' & Hc & Hm)].
  - rewrite Hn in Hin. by apply elem_of_nil in Hin.
  - rewrite Hc in Hin. apply list_elem_of_singleton in Hin as ->. eauto.
Qed.

(** The chunk before the names are taken apart. *)
Definition base_chunk (d : Decl) (f : FuncDecl) : Chunk :=
  mkChunk (dclID d) (dclSLS d) (dclEnv d) (fState f) (fFun f) (base_name f d).1 (split_args (entries (fArgs f))).1
    (collectRequisites f d).1 (parseOptions f d).1 (split_args (entries (fArgs f))).2 (Z.of_nat (dclOrder d)) 0 0 (fPos f).

Lemma made_base base : SeqOrder base = 0 → made base (cName base) NewMap 0 (set_name_arg base).
Proof. intros Hs. by split. Qed.

Lemma elem_of_buildChunksForFunc d f c :
  c ∈ (buildChunksForFunc d f).1 → ∃ nm own j, made (base_chunk d f) nm own j c.
Proof.
  unfold buildChunksForFunc. rewrite !bind_fst. destruct (split_args _) as [args opts] eqn:Hs. rewrite !bind_fst.
  destruct (extractNames _ _).1 as [|n names] eqn:Hn.
  - intros ->%list_elem_of_singleton. exists (base_name f d).1, NewMap, 0%nat.
    unfold base_chunk. rewrite Hs. by apply made_base.
  - intros Hin. apply elem_of_chunks_of_names in Hin. unfold base_chunk. rewrite Hs. exact Hin.
Qed.

Lemma own_of_name_wf n : map_wf (own_of_name n).
Proof.
  destruct n; try apply NewMap_wf. simpl. destruct (entries m) as [|e [|]]; try apply NewMap_wf. apply own_of_wf.
Qed.

Lemma base_args_wf d f : map_wf (Args (base_chunk d f)).
Proof. simpl. rewrite split_args_eq. apply foldl_set_entry_wf, NewMap_wf. Qed.

Lemma base_args_keys d f : keys_ok module_key (Args (base_chunk d f)).
Proof.
  simpl. rewrite split_args_eq. apply foldl_set_entry_keys_ok; [by intros e ?%elem_of_nil|].
  intros e [He _]%list_elem_of_filter. by right.
Qed.

Lemma made_clean d f nm own i c :
  made (base_chunk d f) nm own i c →
  keys_ok module_key (Args c) ∧ Get (Args c) (VString "name") = Some (VString (cName c)).
Proof.
  intros []. rewrite made_args0, made_name0. split.
  - apply SetAt_keys_ok; [|by left]. apply foldl_set_entry_keys_ok; [apply base_args_keys|].
    by intros e [He _]%list_elem_of_filter.
  - unfold MSet. rewrite Get_SetAt by apply foldl_set_entry_wf, base_args_wf. by rewrite decide_True.
Qed.

Lemma made_Get d f nm own i c k :
  map_wf (fArgs f) → map_wf own → made (base_chunk d f) nm own i c → classify k = ArgModule →
  Get (Args c) (VString k) = match Get own (VString k) with Some v => Some v | None => Get (fArgs f) (VString k) end.
Proof.
  intros Hf Ho [] Hk. rewrite made_args0. unfold MSet.
  rewrite Get_SetAt, decide_False, Get_foldl_set_entry by first
    [apply base_args_wf | apply foldl_set_entry_wf, base_args_wf | intros Hn; simplify_eq/=; discriminate].
  rewrite filter_keyed_class, (Get_last own) by (done || (intros e He; unfold own_key; rewrite He; by right)).
  destruct (last _); [done|]. simpl. by apply split_args_Get.
Qed.

Lemma buildChunks_sls d c : c ∈ (buildChunks d).1 → cSLS c = dclSLS d.
Proof.
  unfold buildChunks. rewrite elem_of_collect. intros (f & Hf & Hc).
  apply elem_of_buildChunksForFunc in Hc as (nm & own & j & Hm). by rewrite (made_sls _ _ _ _ _ Hm).
Qed.

(** The names a declaration stands for. *)
Definition effective_names (f : FuncDecl) (d : Decl) : list value :=
  match (extractNames (fArgs f) d).1 with [] => [VString (base_name f d).1] | l => l end.

(** No requisite, no option of the runner and no [names] list reaches a
    state function as an argument, whatever the declaration or one of its
    names says: a chunk's arguments are its name and what is left.  The chunk
    belongs to the declaration and to one of its functions. *)
Theorem chunk_args_clean d c :
  c ∈ (buildChunks d).1 →
  keys_ok module_key (Args c) ∧ Get (Args c) (VString "name") = Some (VString (cName c)) ∧
  cID c = dclID d ∧ cSLS c = dclSLS d ∧ cEnv c = dclEnv d ∧ DeclOrder c = Z.of_nat (dclOrder d) ∧
  ∃ f, f ∈ Funcs d ∧ cState c = fState f ∧ cFun c = fFun f.
Proof.
  unfold buildChunks. rewrite elem_of_collect. intros (f & Hf & Hc).
  apply elem_of_buildChunksForFunc in Hc as (nm & own & j & Hm).
  destruct (made_clean _ _ _ _ _ _ Hm) as [Hk Hn]. destruct Hm as [? ? ? [] ? ? ? ?].
  split_and!; try done. by exists f.
Qed.

(** A declaration that expands without an error becomes one chunk for each
    of its names, in order and numbered; each carries every module argument of
    the declaration, or what its own entry overrides it with. *)
Theorem names_expand d f :
  map_wf (fArgs f) → HasErrors (buildChunksForFunc d f).2 = false →
  let chunks := (buildChunksForFunc d f).1 in
  length chunks = length (effective_names f d) ∧
  ∀ i n c, effective_names f d !! i = Some n → chunks !! i = Some c →
    cName c = name_of n ∧ SeqOrder c = Z.of_nat i ∧
    ∀ k, classify k = ArgModule →
      Get (Args c) (VString k) =
        match Get (own_of_name n) (VString k) with Some v => Some v | None => Get (fArgs f) (VString k) end.
Proof.
  intros Hf He. cbn zeta.
  assert (Hall : Forall2 (λ p c, made (base_chunk d f) (name_of p.2) (own_of_name p.2) p.1 c)
    (imap pair (effective_names f d)) (buildChunksForFunc d f).1).
  { revert He. unfold buildChunksForFunc, effective_names. rewrite HasErrors_bind, !bind_fst, HasErrors_bind.
    unfold base_chunk. destruct (split_args _) as [args opts]. rewrite !HasErrors_bind, !bind_fst.
    intros (_ & _ & _ & _ & He). destruct (extractNames _ _).1 as [|n names].
    - constructor; [|constructor]. by apply made_base.
    - apply (chunks_of_names_made _ f d (n :: names) 0), He. }
  split.
  - apply Forall2_length in Hall. by rewrite length_imap in Hall.
  - intros i n c Hn Hc. assert (imap pair (effective_names f d) !! i = Some (i, n)) as Hp by by rewrite list_lookup_imap, Hn.
    pose proof (Forall2_lookup_lr _ _ _ _ _ _ Hall Hp Hc) as Hm. simpl in Hm.
    pose proof (made_name _ _ _ _ _ Hm). pose proof (made_seq _ _ _ _ _ Hm). split_and!; try done.
    intros k. apply (made_Get _ _ _ _ _ _ _ Hf (own_of_name_wf n) Hm).
Qed.
End chunk_facts.

(** ** A concrete declaration *)

(** [vim] installed under two names, one of which carries its own version. *)
Definition demo_func : FuncDecl :=
  mkFunc "pkg" "installed"
    (MapOf (H := demo_runtime)
      [(VString "names", VSeq [VString "vim"; VMap (MapOf (H := demo_runtime)
          [(VString "git", VSeq [VMap (MapOf (H := demo_runtime) [(VString "version", VString "2.4")])])])]);
       (VString "version", VString "9.1"); (VString "order", VInt 3);
       (VString "require", VSeq [VMap (MapOf (H := demo_runtime) [(VString "pkg", VString "base")])])])
    [] noPos.
Definition demo_decl : Decl := mkDecl "editors" "tools" "base" noPos [demo_func] 0.
Definition demo_chunk : Chunk :=
  default (base_chunk (H := demo_runtime) demo_decl demo_func) ((buildChunks (H := demo_runtime) demo_decl).1 !! 1%nat).

Lemma chunk_args_clean_witness :
  Get (H := demo_runtime) (Args demo_chunk) (VString "name") = Some (VString "git") ∧
  keys_ok (H := demo_runtime) module_key (Args demo_chunk).
Proof.
  destruct (chunk_args_clean (H := demo_runtime) demo_decl demo_chunk) as (Hk & Hn & _).
  - apply (list_elem_of_lookup_2 _ 1). vm_compute. reflexivity.
  - split; [|exact Hk]. rewrite Hn. vm_compute. reflexivity.
Defined.

Lemma names_expand_witness :
  cName demo_chunk = "git" ∧ SeqOrder demo_chunk = 1 ∧
  Get (H := demo_runtime) (Args demo_chunk) (VString "version") = Some (VString "2.4").
Proof.
  destruct (names_expand (H := demo_runtime) demo_decl demo_func) as [_ Hall].
  - apply MapOf_wf.
  - vm_compute. reflexivity.
  - destruct (Hall 1%nat (VMap (MapOf (H := demo_runtime)
          [(VString "git", VSeq [VMap (MapOf (H := demo_runtime) [(VString "version", VString "2.4")])])])) demo_chunk)
      as (Hn & Hs & Hg); [vm_compute; reflexivity|vm_compute; reflexivity|].
    split_and!; [rewrite Hn; vm_compute; reflexivity|exact Hs|].
    rewrite (Hg "version"); vm_compute; reflexivity.
Defined.
