(* ===== verification/PathMatch.v ===== *)
(** * Package path: Match

    The standard library's path.Match, which the state compiler uses for its
    allow and deny lists.  Patterns and names are byte sequences; [None] is
    ErrBadPattern.  Each loop consumes its input, so the length of the pattern,
    or of the name, is enough fuel. *)

From S2P Require Import Prelude GoLib.

Open Scope Z_scope.

(** A decoded rune and what follows it. *)
Definition decode (s : list Z) : rune * bool * list Z :=
  match s with
  | [] => (RuneError, false, [])
  | b :: r => let '(c, w, ok) := DecodeRune b r in (c, ok, drop (pred w) r)
  end.

Definition b_star : Z := 42.
Definition b_quest : Z := 63.
Definition b_lbr : Z := 91.
Definition b_rbr : Z := 93.
Definition b_bslash : Z := 92.
Definition b_caret : Z := 94.
Definition b_hyphen : Z := 45.
Definition b_slash : Z := 47.

Fixpoint strip_leading_stars (p : list Z) : bool * list Z :=
  match p with
  | b :: r => if b =? b_star then (true, (strip_leading_stars r).2) else (false, p)
  | [] => (false, [])
  end.

(** The chunk up to the next star outside a class. *)
Fixpoint scan_go (inrange skip : bool) (p : list Z) : list Z * list Z :=
  match p with
  | [] => ([], [])
  | b :: r =>
      let keep inrange skip := let '(c, rest) := scan_go inrange skip r in (b :: c, rest) in
      if skip then keep inrange false
      else if b =? b_bslash then keep inrange true
      else if b =? b_lbr then keep true false
      else if b =? b_rbr then keep false false
      else if (b =? b_star) && negb inrange then ([], p)
      else keep inrange false
  end.
Definition scanChunk (p : list Z) : bool * list Z * list Z :=
  let '(star, p) := strip_leading_stars p in
  let '(chunk, rest) := scan_go false false p in (star, chunk, rest).

Definition getEsc (chunk : list Z) : option (rune * list Z) :=
  match chunk with
  | [] => None
  | b :: r =>
      if (b =? b_hyphen) || (b =? b_rbr) then None
      else
        let chunk := if b =? b_bslash then r else chunk in
        match chunk with
        | [] => None
        | _ =>
            let '(c, ok, rest) := decode chunk in
            if negb ok then None else match rest with [] => None | _ => Some (c, rest) end
        end
  end.

(** The ranges of a class: whether one holds [r], and what follows the
    class. *)
Fixpoint class_go (fuel : nat) (r : rune) (nrange : bool) (hit : bool) (chunk : list Z) : option (bool * list Z) :=
  match fuel with
  | O => None
  | S f =>
      match chunk, nrange with
      | b :: rest, true =>
          if b =? b_rbr then Some (hit, rest)
          else range_go f r hit chunk
      | _, _ => range_go f r hit chunk
      end
  end
with range_go (fuel : nat) (r : rune) (hit : bool) (chunk : list Z) : option (bool * list Z) :=
  match fuel with
  | O => None
  | S f =>
      '(lo, chunk) ← getEsc chunk;
      '(hi, chunk) ← match chunk with
                     | b :: rest => if b =? b_hyphen then getEsc rest else Some (lo, chunk)
                     | [] => Some (lo, chunk)
                     end;
      class_go f r true (hit || in_range lo hi r) chunk
  end.

(** matchChunk: [Some None] is a chunk that does not match. *)
Fixpoint matchChunk (fuel : nat) (failed : bool) (chunk s : list Z) : option (option (list Z)) :=
  match fuel, chunk with
  | _, [] => Some (if failed then None else Some s)
  | O, _ => None
  | S f, b :: rest =>
      let failed := failed || bool_decide (s = []) in
      if b =? b_lbr then
        let '(r, s) := if failed then (0, s) else let '(r, _, s) := decode s in (r, s) in
        let '(negated, chunk) := match rest with
                                 | c :: rest' => if c =? b_caret then (true, rest') else (false, rest)
                                 | [] => (false, rest)
                                 end in
        '(hit, chunk) ← class_go (2 * length chunk + 2) r false false chunk;
        matchChunk f (failed || Bool.eqb hit negated) chunk s
      else if b =? b_quest then
        let failed := failed || bool_decide (head s = Some b_slash) in
        matchChunk f failed rest (if failed then s else let '(_, _, s) := decode s in s)
      else
        let body := if b =? b_bslash then match rest with [] => None | _ => Some rest end else Some chunk in
        chunk ← body;
        match chunk with
        | [] => None
        | c :: chunk =>
            if failed then matchChunk f failed chunk s
            else matchChunk f (negb (bool_decide (head s = Some c))) chunk (tail s)
        end
  end.
Definition match_chunk (chunk s : list Z) : option (option (list Z)) := matchChunk (S (length chunk)) false chunk s.

(** The search behind a star, which does not skip a slash. *)
Fixpoint star_go (chunk : list Z) (last_ : bool) (name : list Z) : option (option (list Z)) :=
  match name with
  | [] => Some None
  | c :: rest =>
      if c =? b_slash then Some None
      else
        t ← match_chunk chunk rest;
        match t with
        | Some t => if last_ && negb (bool_decide (t = [])) then star_go chunk last_ rest else Some (Some t)
        | None => star_go chunk last_ rest
        end
  end.

(** The rest of a pattern is checked for its syntax. *)
Fixpoint check_rest (fuel : nat) (pattern : list Z) : option bool :=
  match fuel, pattern with
  | _, [] => Some false
  | O, _ => None
  | S f, _ =>
      let '(_, chunk, rest) := scanChunk pattern in
      _ ← match_chunk chunk []; check_rest f rest
  end.

Fixpoint path_match_go (fuel : nat) (pattern name : list Z) : option bool :=
  match fuel, pattern with
  | _, [] => Some (bool_decide (name = []))
  | O, _ => None
  | S f, _ =>
      let '(star, chunk, pattern) := scanChunk pattern in
      if star && bool_decide (chunk = []) then Some (negb (existsb (Z.eqb b_slash) name))
      else
        t ← match_chunk chunk name;
        match t with
        | Some t =>
            if bool_decide (t = []) || negb (bool_decide (pattern = [])) then path_match_go f pattern t
            else if star then
              t ← star_go chunk (bool_decide (pattern = [])) name;
              match t with Some t => path_match_go f pattern t | None => check_rest (S (length pattern)) pattern end
            else check_rest (S (length pattern)) pattern
        | None =>
            if star then
              t ← star_go chunk (bool_decide (pattern = [])) name;
              match t with Some t => path_match_go f pattern t | None => check_rest (S (length pattern)) pattern end
            else check_rest (S (length pattern)) pattern
        end
  end.
Definition path_Match (pattern name : string) : option bool :=
  path_match_go (S (String.length pattern)) (bytes pattern) (bytes name).
