(* ===== verification/Compile.v ===== *)
(** * Package state: the compiler

    Models src/internal/state/compile.go: loading SLS files with their
    includes, extend and exclude, the rewriting of inverse requisites, and the
    stages that end in an ordered low state.  The file server and the renderer
    are parameters: [Source] resolves a name to a document's source and path,
    [Render] turns it into a value. *)

From S2P Require Import Prelude GoLib Value Fnmatch Signature StateTypes Order Requisite HighState LowState PathMatch.

Open Scope Z_scope.
Import Writer.

Inductive source_error := ErrNotFound | ErrRead (msg : string).

(** Of the configuration, what compile.go itself reads: the environment and the
    two lists.  The rest is handed to the renderer. *)
Record Config := mkConfig {
  cfgEnv : string;
  StateAllowlist : list string;
  StateDenylist : list string }.

(** [Source] is the Loader's method; [Render env name path src] is a rendering,
    with its warnings, under everything else the configuration holds. *)
Record Compiler := mkCompiler {
  Source : string → string → source_error + (string * string);
  Render : string → string → string → string → (string + value) * list string;
  Registry_ : option SigRegistry;
  cConfig : Config }.

Record pendingExtend := mkExtend { extFrom : string; extEnv : string; extMap : Map }.

(** What loading accumulates. *)
Record loaded := mkLoaded {
  High : HighState;
  SLS_ : list string;
  RenderWarnings : list string;
  seenKeys : gset string;
  extends : list pendingExtend;
  excludes : list excludeRef }.

Definition env_ (c : Compiler) : string :=
  if bool_decide (cfgEnv (cConfig c) ≠ "") then cfgEnv (cConfig c) else "base".

Definition globOK (pattern s : string) : bool :=
  match path_Match pattern s with Some b => b | None => false end.

Definition allowedSLS (c : Compiler) (name : string) : bool :=
  if existsb (λ p, globOK p name) (StateDenylist (cConfig c)) then false
  else if bool_decide (StateAllowlist (cConfig c) = []) then true
  else existsb (λ p, globOK p name) (StateAllowlist (cConfig c)).

Definition stripEnv (keys : list string) : list string :=
  (λ k, match IndexByte "|" k with Some j => sdrop (S j) k | None => k end) <$> keys.

(** The environments, sorted, the default one first. *)
Definition sortedEnvKeys (m : gmap string (list string)) : list string :=
  let out := merge_sort str_le (elements (dom m)) in
  if bool_decide ("base" ∈ out) then "base" :: filter (λ e, e ≠ "base") out else out.

Section compile.
Context `{Runtime}.

(** ** Loading *)

Definition add_all (h : HighState) (ds : list Decl) : DW HighState :=
  (fix go h ds := match ds with [] => mret h | d :: r => h' ← hs_add h d; go h' r end) h ds.

Definition sls_key (env name : string) : string := env +:+ "|" +:+ name.

(** The stack from the first occurrence of the key on. *)
Fixpoint cycle_from (key : string) (stack : list string) : option (list string) :=
  match stack with
  | [] => None
  | s :: r => if bool_decide (s = key) then Some stack else cycle_from key r
  end.

(** Includes one after the other.  [None] is a load that ran out of fuel. *)
Fixpoint load_all {I L} (load : I → L → DW (option L)) (l : list I) (st : L) : DW (option L) :=
  match l with
  | [] => mret (Some st)
  | i :: r =>
      o ← load i st;
      match o with Some st' => load_all load r st' | None => mret None end
  end.

(** The part of loadSLS before the includes: what the file holds, if it is to
    be loaded. *)
Definition open_sls (c : Compiler) (env name : string) (stack : list string) (st : loaded)
    : DW (loaded * option slsContent) :=
  let key := sls_key env name in
  let stop fmt args := Add (mkPos name 0 0) name "" fmt args;; mret (st, None) in
  match cycle_from key stack with
  | Some path =>
      Warn (mkPos name 0 0) name "" "include cycle: %s; the second arrival is skipped"
        [FStr (Join (stripEnv (path ++ [key])) " -> ")];;
      mret (st, None)
  | None =>
      if bool_decide (key ∈ seenKeys st) then mret (st, None)
      else
        match CanonicalSLS name with
        | Some err => stop "%v" [FStr err]
        | None =>
            if negb (allowedSLS c name)
            then stop "sls %q is excluded by state_allowlist or state_denylist" [FStr name]
            else
              let st := mkLoaded (High st) (SLS_ st) (RenderWarnings st) ({[key]} ∪ seenKeys st)
                          (extends st) (excludes st) in
              match Source c env name with
              | inl ErrNotFound =>
                  Add (mkPos name 0 0) name "" "sls %q was not found in environment %q" [FStr name; FStr env];;
                  mret (st, None)
              | inl (ErrRead msg) =>
                  Add (mkPos name 0 0) name "" "reading sls %q: %v" [FStr name; FStr msg];; mret (st, None)
              | inr (src, filePath) =>
                  let '(res, warnings) := Render c env name filePath src in
                  let st := mkLoaded (High st) (SLS_ st) (RenderWarnings st ++ warnings) (seenKeys st)
                              (extends st) (excludes st) in
                  match res with
                  | inl err => Add (mkPos filePath 0 0) name "" "%v" [FStr err];; mret (st, None)
                  | inr v =>
                      content ← parseSLS v name env filePath;
                      mret (mkLoaded (High st) (SLS_ st ++ [name]) (RenderWarnings st) (seenKeys st)
                              (extends st) (excludes st), Some content)
                  end
              end
        end
  end.

(** The part after the includes. *)
Definition close_sls (env name : string) (content : slsContent) (st : loaded) : DW loaded :=
  h ← add_all (High st) (Decls_ content);
  mret (mkLoaded h (SLS_ st) (RenderWarnings st) (seenKeys st)
    (extends st ++ match Extends content with Some m => [mkExtend name env m] | None => [] end)
    (excludes st ++ Excludes content)).

Fixpoint loadSLS (fuel : nat) (c : Compiler) (stack : list string) (env name : string) (st : loaded)
    : DW (option loaded) :=
  match fuel with
  | O => mret None
  | S f =>
      o ← open_sls c env name stack st;
      match o with
      | (st, None) => mret (Some st)
      | (st, Some content) =>
          o ← load_all (λ inc, loadSLS f c (stack ++ [sls_key env name])
                 (if bool_decide (incEnv inc = "") then env else incEnv inc) (incName inc)) (Includes content) st;
          match o with
          | None => mret None
          | Some st => st' ← close_sls env name content st; mret (Some st')
          end
      end
  end.

(** ** Extend *)

Definition extend_arg (args : Map) (ae : Entry) : Map :=
  match Get args (VString (KeyString (Key ae))), Val ae with
  | Some (VSeq cur), VSeq new => SetAt args (Key ae) (VSeq (cur ++ new)) (KeyPos ae) (ValPos ae)
  | _, _ => set_entry args ae
  end.

Definition extend_decl (d : Decl) (f : FuncDecl) : Decl :=
  match Decl_Func d (fState f) with
  | None => set_Funcs d (Funcs d ++ [f])
  | Some (i, existing) =>
      set_Funcs d (<[i := add_flags (set_fArgs existing (foldl extend_arg (fArgs existing) (entries (fArgs f))))
                            (fFlags f)]> (Funcs d))
  end.

Definition set_decls (h : HighState) (l : list Decl) : HighState :=
  mkHigh l (hindex h) (excludedSLS h) (excludedIDs h).

Definition extendFunc (h : HighState) (i : nat) (from id : string) (fe : Entry) : DW HighState :=
  new ← parseFuncDecl (KeyString (Key fe)) fe from id;
  match new with
  | None => mret h
  | Some f => mret (set_decls h (alter (λ d, extend_decl d f) i (decls h)))
  end.
Fixpoint extend_funcs (h : HighState) (i : nat) (from id : string) (es : list Entry) : DW HighState :=
  match es with [] => mret h | fe :: r => h' ← extendFunc h i from id fe; extend_funcs h' i from id r end.

Definition extend_entry (from : string) (h : HighState) (e : Entry) : DW HighState :=
  let id := KeyString (Key e) in
  match hs_Lookup h id with
  | None => Add (KeyPos e) from id "extend names %q, which is not declared anywhere in this run" [FStr id];; mret h
  | Some (i, _) =>
      match Val e with
      | VMap body => extend_funcs h i from id (entries body)
      | VNilMap => mret h
      | v => Add (ValPos e) from id "an extend entry must hold module.function declarations, found %s"
               [FStr (TypeName v)];; mret h
      end
  end.
Fixpoint extend_entries (from : string) (es : list Entry) (h : HighState) : DW HighState :=
  match es with [] => mret h | e :: r => h' ← extend_entry from h e; extend_entries from r h' end.
Fixpoint applyExtends (exts : list pendingExtend) (h : HighState) : DW HighState :=
  match exts with
  | [] => mret h
  | x :: r => h' ← extend_entries (extFrom x) (entries (extMap x)) h; applyExtends r h'
  end.

(** ** Exclude *)

Definition note_exclude (h : HighState) (ex : excludeRef) : HighState :=
  if bool_decide (exSLS ex ≠ "") then mkHigh (decls h) (hindex h) ({[exSLS ex]} ∪ excludedSLS h) (excludedIDs h)
  else if bool_decide (exID ex ≠ "") then mkHigh (decls h) (hindex h) (excludedSLS h) ({[exID ex]} ∪ excludedIDs h)
  else h.

Definition excluded (h : HighState) (d : Decl) : bool :=
  bool_decide (dclSLS d ∈ excludedSLS h) || bool_decide (dclID d ∈ excludedIDs h).

(** One declaration of the loop: kept, and numbered by what was kept before. *)
Definition keep_decl (h : HighState) (p : list Decl * gmap string nat) (d : Decl) : list Decl * gmap string nat :=
  if excluded h d then p
  else (p.1 ++ [set_Order d (length p.1)], <[dclID d := length p.1]> p.2).

Definition applyExcludes (exs : list excludeRef) (h : HighState) : HighState :=
  match exs with
  | [] => h
  | _ =>
      let h := foldl note_exclude h exs in
      let '(kept, idx) := foldl (keep_decl h) ([], ∅) (decls h) in
      mkHigh kept idx (excludedSLS h) (excludedIDs h)
  end.

(** compileNames: load every name, then extend and exclude. *)
Definition fresh_load (h : HighState) (sls warnings : list string) : loaded := mkLoaded h sls warnings ∅ [] [].

Record compiled := mkCompiled { cHigh : HighState; cSLSs : list string; cWarnings : list string; Low : list Chunk }.

Definition compileNames (fuel : nat) (c : Compiler) (out : compiled) (env : string) (names : list string)
    : DW (option compiled) :=
  o ← load_all (λ name, loadSLS fuel c [] env name) names (fresh_load (cHigh out) (cSLSs out) (cWarnings out));
  match o with
  | None => mret None
  | Some st =>
      h ← applyExtends (extends st) (High st);
      mret (Some (mkCompiled (applyExcludes (excludes st) h) (SLS_ st) (RenderWarnings st) (Low out)))
  end.

(** ** Inverse requisites *)

Record addition := mkAddition {
  targetID : string; targetState : string; targetSLS : string; addKind : ReqKind; addRef : ReqRef;
  addPos : Pos; fromSLS : string; fromID : string }.

Fixpoint additions_of_refs (name : string) (kind : ReqKind) (d : Decl) (f : FuncDecl) (pos : Pos)
    (refs : list ReqRef) : DW (list addition) :=
  match refs with
  | [] => mret []
  | ref :: rest =>
      if bool_decide (kind = Listen) && bool_decide (rSLS ref ≠ "") then
        Add pos (dclSLS d) (dclID d) listenSLSRefusal [FStr name; FStr (rSLS ref)];;
        additions_of_refs name kind d f pos rest
      else
        more ← additions_of_refs name kind d f pos rest;
        mret (mkAddition (rID ref) (rState ref) (rSLS ref) kind (mkRef (fState f) (dclID d) "" pos) pos
                (dclSLS d) (dclID d) :: more)
  end.

Definition additions_of_arg (d : Decl) (f : FuncDecl) (e : Entry) : DW (list addition) :=
  let name := KeyString (Key e) in
  match notInverseReqs !! name with
  | Some forward =>
      Add (KeyPos e) (dclSLS d) (dclID d)
        "Salt has no %s: it passes it to the state function as an argument and attaches nothing; write %s on the states it names"
        [FStr name; FStr forward];; mret []
  | None =>
      match inverseReqs !! name with
      | None => mret []
      | Some kind =>
          refs ← parseReqList (Val e) (ValPos e) (dclSLS d) (dclID d) name;
          additions_of_refs name kind d f (ValPos e) refs
      end
  end.
Definition all_additions (h : HighState) : DW (list addition) :=
  collect (λ d, collect (λ f, collect (additions_of_arg d f) (entries (fArgs f))) (Funcs d)) (decls h).

Definition appendRequisiteArg (kind : ReqKind) (ref : ReqRef) (f : FuncDecl) : FuncDecl :=
  let name := VString (ReqKind_String kind) in
  let entry := VMap (SetAt NewMap (VString (if bool_decide (rState ref ≠ "") then rState ref else "id"))
                       (VString (rID ref)) (rPos ref) (rPos ref)) in
  let list := match Get (fArgs f) name with
              | None => []
              | Some (VSeq l) => l
              | Some v => [v]
              end in
  set_fArgs f (SetAt (fArgs f) name (VSeq (list ++ [entry])) (rPos ref) (rPos ref)).

(** pickExtendTarget: the position among the functions. *)
Definition pickExtendTarget (d : Decl) (state : string) : option nat :=
  if bool_decide (state = "") then match Funcs d with [] => None | _ => Some 0%nat end
  else fst <$> Decl_Func d state.

Definition inverseToSLS (h : HighState) (a : addition) : DW HighState :=
  let sls := targetSLS a in
  let k := FStr (ReqKind_String (addKind a)) in
  if HasMeta sls then
    Add (addPos a) (fromSLS a) (fromID a)
      "%s_in names sls %q, a glob; an `_in` requisite takes an sls by its name (Salt accepts a glob here and attaches nothing)"
      [k; FStr sls];; mret h
  else if existsb (λ d, bool_decide (dclSLS d = sls) && negb (bool_decide (Funcs d = []))) (decls h) then
    mret (set_decls h ((λ d, if bool_decide (dclSLS d = sls)
                             then set_Funcs d (appendRequisiteArg (addKind a) (addRef a) <$> Funcs d) else d) <$> decls h))
  else
    Add (addPos a) (fromSLS a) (fromID a)
      "%s_in names sls %q, which is not part of this run (Salt accepts this and attaches nothing)" [k; FStr sls];;
    mret h.

Definition attach (h : HighState) (a : addition) : DW HighState :=
  let k := FStr (ReqKind_String (addKind a)) in
  let bad fmt args := Add (addPos a) (fromSLS a) (fromID a) fmt args;; mret h in
  if bool_decide (targetSLS a ≠ "") then inverseToSLS h a
  else if bool_decide (targetID a = "") then bad "%s_in names nothing it can attach to" [k]
  else
    match hs_Lookup h (targetID a) with
    | None => bad "%s_in names %q, which is not declared in this run" [k; FStr (targetID a)]
    | Some (i, d) =>
        match pickExtendTarget d (targetState a) with
        | None => bad "%s_in names `%s: %s`, but %q does not declare %s"
                    [k; FStr (targetState a); FStr (targetID a); FStr (targetID a); FStr (targetState a)]
        | Some j =>
            mret (set_decls h (alter (λ d, set_Funcs d (alter (appendRequisiteArg (addKind a) (addRef a)) j (Funcs d)))
                                 i (decls h)))
        end
    end.
Fixpoint attach_all (l : list addition) (h : HighState) : DW HighState :=
  match l with [] => mret h | a :: r => h' ← attach h a; attach_all r h' end.
Definition resolveInverseRequisites (h : HighState) : DW HighState := l ← all_additions h; attach_all l h.

(** ** Validation *)

Definition sig_Functions (r : SigRegistry) (module : string) : list Signature :=
  merge_sort (λ a b, str_le (Function_ a) (Function_ b)) (filter (λ s, Module_ s = module) (snd <$> map_to_list r)).

Definition unknownFunctionMessage (r : SigRegistry) (ch : Chunk) : string :=
  match sig_Functions r (cState ch) with
  | [] => Quote (cState ch) +:+ " is not a state module this build ships; see the tier table in SPEC section 15"
  | fns => "the " +:+ cState ch +:+ " state module has no function " +:+ Quote (cFun ch) +:+ "; it provides " +:+
           Join (Function_ <$> fns) ", "
  end.

Fixpoint each {A} (f : A → DW unit) (l : list A) : DW unit :=
  match l with [] => mret () | x :: r => f x;; each f r end.

Definition validate_chunk (r : SigRegistry) (chunks : list Chunk) (ch : Chunk) : DW unit :=
  match r !! Func ch with
  | None => Add (cPos ch) (cSLS ch) (cID ch) "%s" [FStr (unknownFunctionMessage r ch)]
  | Some sig =>
      each (λ err, Add (cPos ch) (cSLS ch) (cID ch) "%v" [FStr (ArgError_Error err)]) (Bind sig [] (Some (Args ch))).2;;
      (if Parallel (Opts ch) then
         Warn (cPos ch) (cSLS ch) (cID ch)
           "%s: `parallel: True` is accepted and this build runs every state in order, one at a time; the state runs, and it does not overlap with its neighbours"
           [FStr (Func ch)] else mret ());;
      each (λ p, if bool_decide (Ineffective p = "") || negb (Has (Args ch) (VString (pName p))) then mret ()
                 else Warn (cPos ch) (cSLS ch) (cID ch) "%s: %q has no effect here: %s"
                        [FStr (Func ch); FStr (pName p); FStr (Ineffective p)]) (Params sig);;
      each (λ req, if negb (bool_decide (rKind req = Prereq)) then mret ()
                   else each (λ idx,
                     match chunks !! idx with
                     | Some target =>
                         match r !! Func target with
                         | Some tsig => match sTestMode tsig with
                                        | TestUnreliable =>
                                            Warn (cPos ch) (cSLS ch) (cID ch)
                                              "prereq names %s, whose test mode is unreliable; the changes prediction this prereq depends on may be wrong"
                                              [FStr (Func target)]
                                        | _ => mret ()
                                        end
                         | None => mret ()
                         end
                     | None => mret ()
                     end) (Resolved req)) (Reqs ch)
  end.
Definition validate (c : Compiler) (chunks : list Chunk) : DW unit :=
  match Registry_ c with None => mret () | Some r => each (validate_chunk r chunks) chunks end.

(** ** The end of a compilation *)

Definition finish (c : Compiler) (h : HighState) : DW (HighState * list Chunk) :=
  h ← resolveInverseRequisites h;
  chunks ← collect buildChunks (decls h);
  chunks ← resolveRequisites chunks;
  let chunks := applyUse chunks in
  validate c chunks;;
  low ← order chunks;
  mret (h, low).

Definition empty_compiled : compiled := mkCompiled NewHighState [] [] [].

Definition CompileSLS (fuel : nat) (c : Compiler) (names : list string) : DW (option compiled) :=
  o ← compileNames fuel c empty_compiled (env_ c) names;
  match o with
  | None => mret None
  | Some out => hl ← finish c (cHigh out); mret (Some (mkCompiled hl.1 (cSLSs out) (cWarnings out) hl.2))
  end.

(** CompileHighstate, after the top file has been resolved. *)
Fixpoint compile_envs (fuel : nat) (c : Compiler) (matched : gmap string (list string)) (envs : list string)
    (out : compiled) : DW (option compiled) :=
  match envs with
  | [] => mret (Some out)
  | env :: r =>
      o ← compileNames fuel c out env (default [] (matched !! env));
      match o with None => mret None | Some out => compile_envs fuel c matched r out end
  end.
Definition CompileMatched (fuel : nat) (c : Compiler) (matched : gmap string (list string)) : DW (option compiled) :=
  o ← compile_envs fuel c matched (sortedEnvKeys matched) empty_compiled;
  match o with
  | None => mret None
  | Some out => hl ← finish c (cHigh out); mret (Some (mkCompiled hl.1 (cSLSs out) (cWarnings out) hl.2))
  end.
End compile.

(** ** Chunks as they are built *)

Section build_facts.
Context `{Runtime}.

Lemma collectRequisites_unresolved f d req : req ∈ (collectRequisites f d).1 → Resolved req = [].
Proof.
  unfold collectRequisites. rewrite elem_of_collect. intros (e & _ & Hin). unfold collect_one in Hin.
  destruct (forwardReqs !! _) as [k|]; [|by apply elem_of_nil in Hin].
  rewrite !bind_fst in Hin. case_match; [by apply elem_of_nil in Hin|].
  apply list_elem_of_singleton in Hin. by subst.
Qed.

(** A chunk that carries the requisites of one of its declarations. *)
Definition fresh_reqs (c : Chunk) : Prop := ∀ req, req ∈ Reqs c → Resolved req = [].

Lemma per_name_args_reqs d es st : Reqs (per_name_args d es st).1.1.1 = Reqs st.1.1.
Proof.
  revert st. induction es as [|e es IH]; intros st; [done|]. cbn [per_name_args].
  rewrite bind_fst, IH. unfold per_name_arg. destruct st as [[c o] r]. repeat case_match; done.
Qed.

Lemma applyPerNameArgs_fresh c f v d : fresh_reqs c → fresh_reqs (applyPerNameArgs c f v d).1.
Proof.
  intros Hc. unfold applyPerNameArgs. rewrite bind_fst. destruct (Len _ =? 0)%nat; [done|].
  rewrite bind_fst. pose proof (per_name_args_reqs d (entries (own_args c d v).1) (c, false, false)) as Hr.
  destruct (per_name_args _ _ _).1 as [[c' o] r]. simpl in Hr. rewrite bind_fst.
  destruct r; rewrite ?bind_fst.
  - intros req. simpl. apply collectRequisites_unresolved.
  - destruct o; rewrite ?bind_fst; intros req; simpl; rewrite Hr; apply Hc.
Qed.

Lemma chunk_of_name_fresh base f d i n c :
  fresh_reqs base → c ∈ (chunk_of_name base f d i n).1 → fresh_reqs c.
Proof.
  intros Hb Hin. unfold chunk_of_name in Hin.
  destruct n; try (apply list_elem_of_singleton in Hin as ->; intros req; apply Hb).
  - destruct (entries m) as [|e [|]]; try by apply elem_of_nil in Hin.
    rewrite bind_fst in Hin. apply list_elem_of_singleton in Hin as ->.
    intros req Hreq. revert Hreq. apply applyPerNameArgs_fresh. intros r. apply Hb.
  - by apply elem_of_nil in Hin.
Qed.

Lemma buildChunks_fresh d c : c ∈ (buildChunks d).1 → fresh_reqs c.
Proof.
  unfold buildChunks. rewrite elem_of_collect. intros (f & _ & Hin). unfold buildChunksForFunc in Hin.
  rewrite !bind_fst in Hin. destruct (split_args _) as [args optargs]. rewrite !bind_fst in Hin.
  set (base := mkChunk _ _ _ _ _ _ _ _ _ _ _ _ _ _) in Hin.
  assert (Hb : fresh_reqs base) by (intros req; apply collectRequisites_unresolved).
  destruct (extractNames _ _).1 as [|n names] eqn:En.
  { apply list_elem_of_singleton in Hin as ->. intros req. apply Hb. }
  clearbody base. clear En. revert Hin. generalize 0%nat. generalize (n :: names).
  induction l as [|x l IH]; intros i Hin; simpl in Hin; [by apply elem_of_nil in Hin|].
  apply elem_of_app in Hin as [Hin|Hin]; [by eapply chunk_of_name_fresh|by eapply IH].
Qed.

Lemma built_unresolved ds : unresolved (collect buildChunks ds).1.
Proof.
  intros c req Hc Hreq. apply elem_of_collect in Hc as (d & _ & Hd). by eapply buildChunks_fresh.
Qed.

Lemma resolved_in_range_arcs chunks chunks' :
  arcs chunks = arcs chunks' → length chunks = length chunks' → resolved_in_range chunks → resolved_in_range chunks'.
Proof. unfold resolved_in_range. by intros -> ->. Qed.

(** What comes out of the stages before ordering. *)
Lemma finish_in_range (c : Compiler) h :
  let chunks := (collect buildChunks (decls (resolveInverseRequisites h).1)).1 in
  resolved_in_range (applyUse (resolveRequisites chunks).1).
Proof.
  cbn zeta. destruct (applyUse_arcs (resolveRequisites (collect buildChunks (decls (resolveInverseRequisites h).1)).1).1) as [Ha Hl].
  eapply resolved_in_range_arcs; [by symmetry|by symmetry|]. apply resolveRequisites_in_range, built_unresolved.
Qed.

Lemma finish_run_ordered (c : Compiler) h :
  HasErrors (finish c h).2 = false → RunOrdered (finish c h).1.2.
Proof.
  intros He. unfold finish in *. rewrite !HasErrors_bind in He. rewrite !bind_fst. cbn [fst snd].
  destruct He as (_ & _ & _ & _ & Ho & _). apply order_run_ordered; [apply (finish_in_range c)|exact Ho].
Qed.

Lemma compiled_run_ordered fuel c names matched r out :
  r = CompileSLS fuel c names ∨ r = CompileMatched fuel c matched →
  r.1 = Some out → HasErrors r.2 = false → RunOrdered (Low out).
Proof.
  intros [-> | ->].
  - unfold CompileSLS. rewrite HasErrors_bind, bind_fst.
    destruct (compileNames fuel c empty_compiled (env_ c) names).1 as [o|]; [|done].
    rewrite HasErrors_bind, bind_fst. intros [= <-] (_ & He & _). by apply (finish_run_ordered c).
  - unfold CompileMatched. rewrite HasErrors_bind, bind_fst. destruct (compile_envs _ _ _ _ _).1 as [o|]; [|done].
    rewrite HasErrors_bind, bind_fst. intros [= <-] (_ & He & _). by apply (finish_run_ordered c).
Qed.

(** C32: What compiles without an error can be run: the low state a
    compilation ends in, of named files or of a top file, has every requisite
    pointing into it, every chunk after the targets it waits for and before
    those of its prereqs, which is what the runner relies on. *)
Theorem compile_run_ordered fuel c names matched r out :
  r = CompileSLS fuel c names ∨ r = CompileMatched fuel c matched →
  r.1 = Some out → HasErrors r.2 = false → RunOrdered (Low out).
Proof. apply compiled_run_ordered. Qed.
End build_facts.

(** ** What extend and the inverse requisites keep *)

Section rewrite_facts.
Context `{Runtime}.

(** [d'] is [d] with other arguments or functions. *)
Record same_head (d d' : Decl) : Prop := {
  head_eq : (dclID d', dclSLS d', dclEnv d', dclOrder d') = (dclID d, dclSLS d, dclEnv d, dclOrder d);
  head_funcs : Funcs d ≠ [] → Funcs d' ≠ [];
  head_wf : (∀ f, f ∈ Funcs d → func_wf f) → ∀ f, f ∈ Funcs d' → func_wf f }.

#[global] Instance same_head_preorder : PreOrder same_head.
Proof.
  split; [by split|]. intros a b c [He1 Hf1 Hw1] [He2 Hf2 Hw2]. split; [congruence|auto..].
Qed.

Definition same_decls (h h' : HighState) : Prop :=
  hindex h' = hindex h ∧ excludedSLS h' = excludedSLS h ∧ excludedIDs h' = excludedIDs h ∧
  Forall2 same_head (decls h) (decls h').

#[global] Instance same_decls_preorder : PreOrder same_decls.
Proof.
  split.
  - intros h. by split_and!.
  - intros a b c (? & ? & ? & HF1) (? & ? & ? & HF2). split_and!; [congruence..|]. by etrans.
Qed.

Lemma same_decls_alter h g i : (∀ d, same_head d (g d)) → same_decls h (set_decls h (alter g i (decls h))).
Proof.
  intros Hg. split_and!; try done. simpl. generalize (decls h). intros l. revert i.
  induction l as [|d l IH]; intros [|i]; try done; simpl; constructor; try done. apply IH.
Qed.

Lemma same_decls_fmap h g : (∀ d, same_head d (g d)) → same_decls h (set_decls h (g <$> decls h)).
Proof. intros Hg. split_and!; try done. simpl. apply Forall2_fmap_r, Forall_Forall2_diag, Forall_forall. auto. Qed.

Lemma same_decls_wf h h' : same_decls h h' → high_wf h → high_wf h'.
Proof.
  intros (Hi & _ & _ & HF) [Hw Ho]. rewrite Forall2_lookup in HF.
  assert (Hl : ∀ i d', decls h' !! i = Some d' → ∃ d, decls h !! i = Some d ∧ same_head d d').
  { intros i d' Hd'. specialize (HF i). rewrite Hd' in HF. inversion HF. eauto. }
  split.
  - intros id i. rewrite Hi, Hw. split.
    + intros (d & Hd & Hid). specialize (HF i). rewrite Hd in HF. inversion HF as [? d' Hs|]. exists d'.
      split; [done|]. pose proof (head_eq _ _ Hs). congruence.
    + intros (d' & Hd' & Hid). apply Hl in Hd' as (d & Hd & Hs). exists d. split; [done|].
      pose proof (head_eq _ _ Hs). congruence.
  - intros i d' Hd'. apply Hl in Hd' as (d & Hd & Hs). pose proof (head_eq _ _ Hs). apply Ho in Hd. congruence.
Qed.

(** Arguments stay a well-formed mapping with string keys. *)
Lemma extend_arg_wf m e s :
  Key e = VString s → map_wf m ∧ string_keys m → map_wf (extend_arg m e) ∧ string_keys (extend_arg m e).
Proof.
  intros Hk [Hw Hs]. unfold extend_arg, set_entry. rewrite Hk.
  repeat case_match; (split; [by apply SetAt_wf|by apply SetAt_string_keys]).
Qed.

Lemma extend_decl_head d f : func_wf f → same_head d (extend_decl d f).
Proof.
  intros Hf. unfold extend_decl, Decl_Func. destruct (list_find _ _) as [[i g]|] eqn:Hl.
  - apply list_find_Some in Hl as (Hi & _ & _). split; [done| |].
    + simpl. intros Hn Heq. apply (f_equal length) in Heq. rewrite length_insert in Heq. by destruct (Funcs d).
    + simpl. intros Hall x Hx. apply list_elem_of_lookup in Hx as [j Hj]. destruct (decide (j = i)) as [->|Hne].
      * rewrite list_lookup_insert_eq in Hj by (by eapply lookup_lt_Some). injection Hj as <-.
        destruct (Hall g (list_elem_of_lookup_2 _ _ _ Hi)) as (Hg1 & Hg2). split; [done|]. simpl.
        apply (foldl_inv (λ m, map_wf m ∧ string_keys m)); [done|]. intros m e He Hm.
        destruct Hf as (_ & _ & Hf). destruct (Hf e He) as [s Hs]. by eapply extend_arg_wf.
      * rewrite list_lookup_insert_ne in Hj by done. by apply Hall, (list_elem_of_lookup_2 _ j).
  - split; [done|by destruct (Funcs d)|]. simpl. intros Hall x [Hx| ->%list_elem_of_singleton]%elem_of_app; auto.
Qed.

Lemma extend_funcs_same h i from id es : same_decls h (extend_funcs h i from id es).1.
Proof.
  revert h. induction es as [|e es IH]; intros h; [reflexivity|]. cbn [extend_funcs]. rewrite bind_fst.
  etrans; [|apply IH]. unfold extendFunc. rewrite bind_fst.
  destruct (parseFuncDecl _ _ _ _).1 as [f|] eqn:Hf; [|reflexivity].
  apply same_decls_alter. intros d. by eapply extend_decl_head, parseFuncDecl_wf.
Qed.

Lemma applyExtends_same exts h : same_decls h (applyExtends exts h).1.
Proof.
  revert h. induction exts as [|x exts IH]; intros h; [reflexivity|]. cbn [applyExtends]. rewrite bind_fst.
  etrans; [|apply IH]. generalize (entries (extMap x)). intros es. clear IH. revert h.
  induction es as [|e es IH]; intros h; [reflexivity|]. cbn [extend_entries]. rewrite bind_fst. etrans; [|apply IH].
  unfold extend_entry. destruct (hs_Lookup _ _) as [[i d]|]; [|reflexivity].
  destruct (Val e); try reflexivity. apply extend_funcs_same.
Qed.

Lemma appendRequisiteArg_wf kind ref f : func_wf f → func_wf (appendRequisiteArg kind ref f).
Proof.
  intros (Hn & Hw & Hs). split_and!; [done|by apply SetAt_wf|]. by apply SetAt_string_keys.
Qed.

Lemma fmap_append_head kind ref d : same_head d (set_Funcs d (appendRequisiteArg kind ref <$> Funcs d)).
Proof.
  split; [done|by destruct (Funcs d)|]. simpl. intros Hall x (f & -> & Hf)%list_elem_of_fmap.
  by apply appendRequisiteArg_wf, Hall.
Qed.

Lemma alter_append_head kind ref j d : same_head d (set_Funcs d (alter (appendRequisiteArg kind ref) j (Funcs d))).
Proof.
  split; [done| |].
  - simpl. intros Hn Heq. apply (f_equal length) in Heq. rewrite length_alter in Heq. by destruct (Funcs d).
  - simpl. intros Hall x [i Hi]%list_elem_of_lookup. destruct (decide (j = i)) as [->|Hne].
    + rewrite list_lookup_alter_eq in Hi. destruct (Funcs d !! i) as [f|] eqn:Hf; simplify_eq/=.
      apply appendRequisiteArg_wf, Hall. by eapply list_elem_of_lookup_2.
    + rewrite list_lookup_alter_ne in Hi by done. by apply Hall, (list_elem_of_lookup_2 _ i).
Qed.

Lemma attach_same h a : same_decls h (attach h a).1.
Proof.
  unfold attach. case_bool_decide.
  - unfold inverseToSLS. destruct (HasMeta _); [reflexivity|]. destruct (existsb _ _); [|reflexivity].
    apply same_decls_fmap. intros d. case_bool_decide; [apply fmap_append_head|reflexivity].
  - case_bool_decide; [reflexivity|]. destruct (hs_Lookup _ _) as [[i d]|]; [|reflexivity].
    destruct (pickExtendTarget _ _) as [j|]; [|reflexivity]. apply same_decls_alter. intros. apply alter_append_head.
Qed.

Lemma resolveInverseRequisites_same h : same_decls h (resolveInverseRequisites h).1.
Proof.
  unfold resolveInverseRequisites. rewrite bind_fst. generalize (all_additions h).1. intros l. revert h.
  induction l as [|a l IH]; intros h; [reflexivity|]. cbn [attach_all]. rewrite bind_fst. etrans; [apply attach_same|apply IH].
Qed.
End rewrite_facts.

(** ** Loading *)

Section load_facts.
Context `{Runtime} (c : Compiler).

(** A name that may be loaded, and was found. *)
Definition admitted_sls (name : string) : Prop :=
  CanonicalSLS name = None ∧ allowedSLS c name = true ∧ ∃ env p, Source c env name = inr p.

(** What the declarations gathered so far satisfy. *)
Record good (sls : list string) (h : HighState) : Prop := {
  good_sls : ∀ name, name ∈ sls → admitted_sls name;
  good_high : high_wf h;
  good_decls : ∀ d, d ∈ decls h → dclSLS d ∈ sls ∧ decl_wf (dclSLS d) (dclEnv d) d }.

(** Opening a file: what it leaves, and what it promises of the content. *)
Lemma open_sls_spec env name stack st :
  let r := (open_sls c env name stack st).1 in
  High r.1 = High st ∧ extends r.1 = extends st ∧ excludes r.1 = excludes st ∧
  seenKeys st ⊆ seenKeys r.1 ∧
  match r.2 with
  | None => SLS_ r.1 = SLS_ st
  | Some content =>
      SLS_ r.1 = SLS_ st ++ [name] ∧ admitted_sls name ∧ Forall (decl_wf name env) (Decls_ content) ∧
      (sls_key env name ∉ seenKeys st) ∧ sls_key env name ∈ seenKeys r.1 ∧ (∃ p, Source c env name = inr p)
  end.
Proof.
  cbn zeta. unfold open_sls. destruct (cycle_from _ _); [by rewrite bind_fst|].
  case_bool_decide as Hseen; [done|]. destruct (CanonicalSLS name) eqn:Hc; [by rewrite bind_fst|].
  destruct (allowedSLS c name) eqn:Ha; simpl negb; cbv iota; [|by rewrite bind_fst].
  destruct (Source c env name) as [[|msg]|[src fp]] eqn:Hs; [rewrite bind_fst; simpl; set_solver..|].
  destruct (Render c env name fp src) as [[err|v] ws]; rewrite bind_fst; simpl; [set_solver|].
  unfold admitted_sls. split_and!; first [done|by eauto|set_solver|apply parseSLS_decls].
Qed.

Lemma add_all_cons h d ds : add_all h (d :: ds) = (hs_add h d ≫= λ h', add_all h' ds).
Proof. done. Qed.

Lemma add_all_good sls h ds :
  good sls h → (∀ d, d ∈ ds → dclSLS d ∈ sls ∧ decl_wf (dclSLS d) (dclEnv d) d) → good sls (add_all h ds).1.
Proof.
  revert h. induction ds as [|d ds IH]; intros h Hg Hds; [done|]. rewrite add_all_cons, bind_fst.
  apply IH; [|intros; apply Hds; by right]. destruct Hg as [Hs Hw Hd].
  unfold hs_add. destruct (hs_Lookup h (dclID d)) as [[i prev]|] eqn:Hl; [done|].
  split; [done|by apply high_append_wf|]. simpl. intros x [Hx| ->%list_elem_of_singleton]%elem_of_app; [auto|].
  destruct (Hds d) as [Hin Hwf]; [by left|]. by split.
Qed.

(** Reasoning about a load as a chain of openings and closings. *)
Section rel.
Context (R : relation loaded) `{!PreOrder R}.
Context (R_open : ∀ env name stack st, R st (open_sls c env name stack st).1.1).
Context (R_close : ∀ env name stack st content st2,
  (open_sls c env name stack st).1.2 = Some content → R (open_sls c env name stack st).1.1 st2 →
  R st2 (close_sls env name content st2).1).

Lemma load_all_rel {I} (load : I → loaded → DW (option loaded)) l st st' :
  (∀ i st st', (load i st).1 = Some st' → R st st') → (load_all load l st).1 = Some st' → R st st'.
Proof.
  intros Hload. revert st. induction l as [|i l IH]; intros st; [intros [= <-]; reflexivity|]. cbn [load_all].
  rewrite bind_fst. destruct (load i st).1 as [st1|] eqn:Hi; [|done]. intros Hr. etrans; [by eapply Hload|by apply IH].
Qed.

Lemma loadSLS_rel fuel stack env name st st' : (loadSLS fuel c stack env name st).1 = Some st' → R st st'.
Proof.
  revert stack env name st st'. induction fuel as [|fuel IH]; intros stack env name st st'; [done|].
  cbn [loadSLS]. rewrite bind_fst. pose proof (R_open env name stack st) as Ho.
  pose proof (R_close env name stack st) as Hc.
  destruct (open_sls c env name stack st).1 as [st1 [content|]]; cbn [fst snd] in Ho, Hc; [|by intros [= <-]].
  rewrite bind_fst. destruct (load_all _ _ _).1 as [st2|] eqn:Hl; [|done]. rewrite bind_fst. intros [= <-].
  assert (R st1 st2) as H12 by (eapply load_all_rel; [|exact Hl]; intros; by eapply IH).
  etrans; [exact Ho|]. etrans; [exact H12|]. by apply Hc.
Qed.
End rel.

Definition keeps_good (st st' : loaded) : Prop :=
  SLS_ st ⊆ SLS_ st' ∧ (good (SLS_ st) (High st) → good (SLS_ st') (High st')).
#[local] Instance keeps_good_preorder : PreOrder keeps_good.
Proof. split; [by split|]. intros x y z [Hs1 Hg1] [Hs2 Hg2]. split; [by etrans|auto]. Qed.

Lemma good_grow sls name h : good sls h → admitted_sls name → good (sls ++ [name]) h.
Proof.
  intros [Hs Hw Hd] Hn. split; [|done|].
  - intros x [Hx| ->%list_elem_of_singleton]%elem_of_app; auto.
  - intros d Hin. destruct (Hd d Hin). split; [|done]. apply elem_of_app. by left.
Qed.

Lemma loadSLS_good fuel stack env name st st' :
  (loadSLS fuel c stack env name st).1 = Some st' → keeps_good st st'.
Proof.
  apply (loadSLS_rel keeps_good).
  - intros env' name' stack' st0. pose proof (open_sls_spec env' name' stack' st0) as (Hh & _ & _ & _ & Ho).
    unfold keeps_good. rewrite Hh. destruct (open_sls _ _ _ _ _).1.2; [|by rewrite Ho].
    destruct Ho as (-> & Ha & _). split; [set_solver|]. intros Hg. by apply good_grow.
  - intros env' name' stack' st0 content st2 Hc [Hsub _].
    pose proof (open_sls_spec env' name' stack' st0) as (_ & _ & _ & _ & Ho). rewrite Hc in Ho.
    destruct Ho as (Hs & _ & Hd & _). unfold keeps_good, close_sls. rewrite bind_fst. simpl. split; [done|].
    intros Hg. apply add_all_good; [done|]. intros d Hin. rewrite Forall_forall in Hd. pose proof (Hd d Hin) as Hw.
    pose proof Hw as (Hsl & Hev & _). rewrite Hsl, Hev. split; [|done]. apply Hsub. rewrite Hs. set_solver.
Qed.

(** ** Excluding *)

Lemma keep_decl_spec h sls ids ds l idx :
  high_wf (mkHigh l idx sls ids) → NoDup (dclID <$> l ++ ds) →
  let r := foldl (keep_decl h) (l, idx) ds in
  high_wf (mkHigh r.1 r.2 sls ids) ∧
  r.1 = l ++ imap (λ i d, set_Order d (length l + i)%nat) (filter (λ d, excluded h d = false) ds).
Proof.
  cbn zeta. revert l idx. induction ds as [|d ds IH]; intros l idx Hw Hnd; [by rewrite app_nil_r|].
  cbn [foldl]. rewrite filter_cons.
  assert (keep_decl h (l, idx) d = if excluded h d then (l, idx)
    else (l ++ [set_Order d (length l)], <[dclID d := length l]> idx)) as -> by done.
  destruct (excluded h d) eqn:He.
  - rewrite decide_False by done. apply IH; [done|].
    rewrite fmap_app, fmap_cons in Hnd. rewrite fmap_app. apply NoDup_app in Hnd as (Hl & Hx & Hr). apply NoDup_cons in Hr as [_ Hr]. apply NoDup_app. split_and!; [done| |done].
    intros x Hxl Hxr. apply (Hx x Hxl). by right.
  - rewrite decide_True by done. destruct (IH (l ++ [set_Order d (length l)]) (<[dclID d := length l]> idx)) as [Hw' Hl'].
    + apply (high_append_wf (mkHigh l idx sls ids)); [done|]. apply hs_Lookup_None; [done|]. simpl. intros d' Hd' Heq.
      rewrite fmap_app, fmap_cons in Hnd. apply NoDup_app in Hnd as (_ & Hnd & _).
      apply (Hnd (dclID d')); [by apply list_elem_of_fmap_2|]. rewrite Heq. by left.
    + rewrite <-app_assoc, fmap_app. rewrite fmap_app in Hnd. exact Hnd.
    + split; [exact Hw'|]. rewrite Hl', <-app_assoc. f_equal. cbn [imap app]. rewrite Nat.add_0_r. f_equal.
      apply imap_ext. intros i x _. rewrite length_app. simpl. f_equal. lia.
Qed.

(** What is left after an exclude: the declarations it does not name, in
    order and renumbered. *)
Lemma applyExcludes_spec exs h :
  high_wf h → high_wf (applyExcludes exs h) ∧
  (exs ≠ [] → decls (applyExcludes exs h) =
     imap (λ i d, set_Order d i) (filter (λ d, excluded (foldl note_exclude h exs) d = false) (decls h))).
Proof.
  intros Hw. assert (Hn : ∀ l, let h' := foldl note_exclude h l in decls h' = decls h ∧ hindex h' = hindex h).
  { intros l. cbn zeta. apply (foldl_inv (λ h', decls h' = decls h ∧ hindex h' = hindex h)); [done|].
    intros h' ex _. unfold note_exclude. by repeat case_bool_decide. }
  destruct exs as [|ex exs]; [by split|]. unfold applyExcludes. set (h' := foldl note_exclude h (ex :: exs)).
  destruct (Hn (ex :: exs)) as [Hd Hi]. fold h' in Hd, Hi.
  destruct (keep_decl_spec h' (excludedSLS h') (excludedIDs h') (decls h') [] ∅) as [Hw' Hl'].
  - split; [|done]. intros id i. simpl. rewrite lookup_empty. split; [done|]. by intros (d & ? & _).
  - simpl. rewrite Hd. by apply high_wf_NoDup.
  - destruct (foldl (keep_decl h') ([], ∅) (decls h')) as [kept idx]. split; [exact Hw'|]. intros _. simpl in *.
    by rewrite Hl', Hd.
Qed.

Lemma applyExcludes_decls exs h d :
  d ∈ decls (applyExcludes exs h) → high_wf h → ∃ d0, d0 ∈ decls h ∧ d = set_Order d0 (dclOrder d).
Proof.
  intros Hd Hw. destruct exs as [|ex exs]; [exists d; split; [done|by destruct d]|].
  destruct (applyExcludes_spec (ex :: exs) h Hw) as [_ Hl]. rewrite Hl in Hd by done.
  apply elem_of_lookup_imap_1 in Hd as (i & d0 & -> & Hd0). apply list_elem_of_lookup_2, list_elem_of_filter in Hd0 as [_ Hd0].
  by exists d0.
Qed.

Lemma same_decls_good sls h h' : same_decls h h' → good sls h → good sls h'.
Proof.
  intros Hs [H1 H2 H3]. split; [done|by eapply same_decls_wf|]. destruct Hs as (_ & _ & _ & HF).
  intros d' [i Hi]%list_elem_of_lookup. destruct (Forall2_lookup_r _ _ _ _ _ HF Hi) as (d & Hd & [He Hf Hwf]).
  apply list_elem_of_lookup_2, H3 in Hd as (Hin & _ & _ & Hne & Hall). injection He as _ Hsl Hev _.
  rewrite Hsl, Hev. split; [done|]. split_and!; auto.
Qed.

Lemma compileNames_good fuel out env names out' :
  (compileNames fuel c out env names).1 = Some out' → good (cSLSs out) (cHigh out) → good (cSLSs out') (cHigh out').
Proof.
  unfold compileNames. rewrite bind_fst. destruct (load_all _ _ _).1 as [st|] eqn:Hl; [|done]. rewrite bind_fst.
  intros [= <-] Hg. simpl.
  assert (keeps_good (fresh_load (cHigh out) (cSLSs out) (cWarnings out)) st) as [_ Hst].
  { eapply (load_all_rel keeps_good); [|exact Hl]. intros. by eapply loadSLS_good. }
  specialize (Hst Hg). pose proof (same_decls_good _ _ _ (applyExtends_same (extends st) (High st)) Hst) as Hx.
  split; [apply Hx|apply applyExcludes_spec, Hx|]. intros d Hd.
  apply applyExcludes_decls in Hd as (d0 & Hd0 & Heq); [|apply Hx].
  destruct (good_decls _ _ Hx d0 Hd0) as [Hs Hw]. rewrite Heq. by split.
Qed.

Lemma compile_envs_good fuel matched envs out out' :
  (compile_envs fuel c matched envs out).1 = Some out' → good (cSLSs out) (cHigh out) → good (cSLSs out') (cHigh out').
Proof.
  revert out. induction envs as [|env envs IH]; intros out; [by intros [= <-]|]. cbn [compile_envs]. rewrite bind_fst.
  destruct (compileNames _ _ _ _ _).1 as [o|] eqn:Ho; [|done]. intros Hr Hg. apply (IH o Hr). by eapply compileNames_good.
Qed.

Lemma empty_good : good (cSLSs empty_compiled) (cHigh empty_compiled).
Proof.
  split; [by intros name ?%elem_of_nil|apply NewHighState_wf|by intros d ?%elem_of_nil].
Qed.

(** ** The low state and the declarations *)

Definition ident (ch : Chunk) := (cID ch, cSLS ch, cEnv ch, (cState ch, cFun ch, cName ch)).

Lemma finish_ident h :
  ident <$> (finish c h).1.2 ≡ₚ ident <$> (collect buildChunks (decls (finish c h).1.1)).1.
Proof.
  set (built := (collect buildChunks (decls (resolveInverseRequisites h).1)).1).
  change (finish c h).1.2 with (order (applyUse (resolveRequisites built).1)).1.
  change (collect buildChunks (decls (finish c h).1.1)).1 with built.
  etrans; [apply (order_map_perm ident); [done|apply (finish_in_range c)]|]. fold built.
  enough (ident <$> applyUse (resolveRequisites built).1 = ident <$> built) as -> by done. trans (ident <$> (resolveRequisites built).1).
  - apply list_eq. intros i. rewrite !list_lookup_fmap.
    pose proof (proj1 (Forall2_lookup _ _ _) (applyUse_grows (resolveRequisites built).1) i) as Hf.
    inversion Hf as [x y Hg|]; [|done]. simpl. by rewrite (grows_same _ _ Hg).
  - unfold resolveRequisites. rewrite resolve_chunks_fst, <-list_fmap_compose. done.
Qed.

(** A finished compilation, of names or of a top file. *)
Definition compiled_to (fuel : nat) (out : compiled) : Prop :=
  (∃ names, (CompileSLS fuel c names).1 = Some out) ∨ (∃ matched, (CompileMatched fuel c matched).1 = Some out).

Lemma compiled_to_finish fuel out :
  compiled_to fuel out → ∃ h, good (cSLSs out) h ∧ (cHigh out, Low out) = (finish c h).1.
Proof.
  intros [[names Hc]|[matched Hc]]; revert Hc.
  - unfold CompileSLS. rewrite bind_fst. destruct (compileNames _ _ _ _ _).1 as [o|] eqn:Ho; [|done].
    rewrite bind_fst. intros [= <-]. exists (cHigh o). split; [|reflexivity].
    exact (compileNames_good _ _ _ _ _ Ho empty_good).
  - unfold CompileMatched. rewrite bind_fst. destruct (compile_envs _ _ _ _ _).1 as [o|] eqn:Ho; [|done].
    rewrite bind_fst. intros [= <-]. exists (cHigh o). split; [|reflexivity].
    exact (compile_envs_good _ _ _ _ _ Ho empty_good).
Qed.

Lemma compiled_to_good fuel out :
  compiled_to fuel out → good (cSLSs out) (cHigh out) ∧ ident <$> Low out ≡ₚ ident <$> (collect buildChunks (decls (cHigh out))).1.
Proof.
  intros (h & Hg & Hf)%compiled_to_finish. pose proof (finish_ident h) as Hi. rewrite <-Hf in Hi. split; [|done].
  apply (same_decls_good _ h); [|done]. replace (cHigh out) with (finish c h).1.1 by by rewrite <-Hf.
  apply resolveInverseRequisites_same.
Qed.

(** C4: The state allowlist and denylist cannot be got round: whatever the
    includes, extends and environments, every state of a compiled run comes
    from an SLS file that was loaded under its canonical name and that the
    lists allow. *)
Theorem only_allowed_run fuel out ch :
  compiled_to fuel out → ch ∈ Low out →
  cSLS ch ∈ cSLSs out ∧ CanonicalSLS (cSLS ch) = None ∧ allowedSLS c (cSLS ch) = true.
Proof.
  intros [Hg Hi]%compiled_to_good Hch.
  assert (ident ch ∈ ident <$> (collect buildChunks (decls (cHigh out))).1) as Hin.
  { rewrite <-Hi. by apply list_elem_of_fmap_2. }
  apply list_elem_of_fmap in Hin as (b & Heq & Hb). apply elem_of_collect in Hb as (d & Hd & Hb).
  assert (cSLS ch = dclSLS d) as ->.
  { pose proof (buildChunks_sls d b Hb). unfold ident in Heq. congruence. }
  destruct (good_decls _ _ Hg d Hd) as [Hs _]. destruct (good_sls _ _ Hg _ Hs) as (? & ? & _). done.
Qed.

(** Nothing is lost and nothing is invented between the declarations and
    the run: the IDs of a compiled state are unique and indexed, every
    declaration has functions with well-formed arguments, and the low state is
    a rearrangement of exactly the chunks the declarations expand to, errors
    or not. *)
Theorem low_state_complete fuel out :
  compiled_to fuel out →
  high_wf (cHigh out) ∧
  (∀ d, d ∈ decls (cHigh out) → decl_wf (dclSLS d) (dclEnv d) d) ∧
  ident <$> Low out ≡ₚ ident <$> (collect buildChunks (decls (cHigh out))).1.
Proof.
  intros [Hg Hi]%compiled_to_good. split_and!; [apply Hg| |done]. intros d Hd. by apply (good_decls _ _ Hg).
Qed.
End load_facts.

(** ** Loading ends *)

Section termination.
Context `{Runtime} (c : Compiler).

Lemma bind_eq {A B} (m : DW A) (f g : A → DW B) : f m.1 = g m.1 → m ≫= f = m ≫= g.
Proof. unfold mbind, W_bind. by intros ->. Qed.

(** More fuel does not change what a load does. *)
Lemma load_all_mono {I L} (f g : I → L → DW (option L)) l st st' :
  (∀ i st st', (f i st).1 = Some st' → g i st = f i st) →
  (load_all f l st).1 = Some st' → load_all g l st = load_all f l st.
Proof.
  intros Hfg. revert st. induction l as [|i l IH]; intros st; [done|]. cbn [load_all]. rewrite bind_fst.
  destruct (f i st).1 as [st1|] eqn:Hi; [|done]. intros Hr. rewrite (Hfg i st st1 Hi).
  apply bind_eq. rewrite Hi. by apply IH.
Qed.

Lemma loadSLS_mono fuel fuel' stack env name st st' :
  (fuel ≤ fuel')%nat → (loadSLS fuel c stack env name st).1 = Some st' →
  loadSLS fuel' c stack env name st = loadSLS fuel c stack env name st.
Proof.
  revert fuel' stack env name st st'. induction fuel as [|fuel IH]; intros fuel' stack env name st st' Hle; [done|].
  destruct fuel' as [|fuel']; [lia|]. cbn [loadSLS]. rewrite bind_fst. intros Hr. apply bind_eq. revert Hr.
  destruct (open_sls c env name stack st).1 as [st1 [content|]]; [|done]. rewrite bind_fst.
  destruct (load_all _ _ _).1 as [st2|] eqn:Hl; [|done]. intros _.
  erewrite (load_all_mono _ (λ inc, loadSLS fuel' c _ _ _)); [done| |exact Hl].
  intros inc st0 st0' Hinc. eapply IH; [lia|exact Hinc].
Qed.

(** The SLS files there are: every name that is found has its key in [U]. *)
Context (U : gset string).
Context (U_all : ∀ env name p, Source c env name = inr p → sls_key env name ∈ U).

Lemma loadSLS_total fuel stack env name st :
  (size (U ∖ seenKeys st) < fuel)%nat →
  ∃ st', (loadSLS fuel c stack env name st).1 = Some st' ∧ seenKeys st ⊆ seenKeys st'.
Proof.
  revert stack env name st. induction fuel as [|fuel IH]; intros stack env name st Hlt; [lia|].
  cbn [loadSLS]. rewrite bind_fst. pose proof (open_sls_spec c env name stack st) as (_ & _ & _ & Hsub & Ho).
  destruct (open_sls c env name stack st).1 as [st1 [content|]]; cbn [fst snd] in Hsub, Ho; [|by exists st1].
  destruct Ho as (_ & _ & _ & Hnew & Hin & p & Hp). apply U_all in Hp.
  assert (Hsize : (size (U ∖ seenKeys st1) < size (U ∖ seenKeys st))%nat).
  { apply subset_size. set_solver. }
  rewrite bind_fst. set (load := λ inc : includeRef, _).
  assert (Hall : ∀ l st2, seenKeys st1 ⊆ seenKeys st2 →
    ∃ st3, (load_all load l st2).1 = Some st3 ∧ seenKeys st2 ⊆ seenKeys st3).
  { induction l as [|inc l IHl]; intros st2 H12; [by exists st2|]. cbn [load_all]. rewrite bind_fst.
    destruct (IH (stack ++ [sls_key env name]) (if bool_decide (incEnv inc = "") then env else incEnv inc)
      (incName inc) st2) as (st3 & H3 & H23).
    { pose proof (subseteq_size (U ∖ seenKeys st2) (U ∖ seenKeys st1)). set_solver by lia. }
    subst load. cbn beta. rewrite H3. destruct (IHl st3) as (st4 & H4 & H34); [set_solver|]. exists st4. set_solver. }
  destruct (Hall (Includes content) st1) as (st2 & H2 & H12); [done|]. rewrite H2. rewrite bind_fst.
  eexists. split; [reflexivity|]. unfold close_sls. rewrite bind_fst. simpl. set_solver.
Qed.

Lemma load_all_total fuel stack env names st :
  (size U < fuel)%nat → is_Some (load_all (λ name, loadSLS fuel c stack env name) names st).1.
Proof.
  intros Hf. revert st. induction names as [|n names IH]; intros st; [by exists st|]. cbn [load_all]. rewrite bind_fst.
  destruct (loadSLS_total fuel stack env n st) as (st1 & -> & _); [|apply IH].
  pose proof (subseteq_size (U ∖ seenKeys st) U). set_solver by lia.
Qed.

Lemma compileNames_total fuel out env names : (size U < fuel)%nat → is_Some (compileNames fuel c out env names).1.
Proof.
  intros Hf. unfold compileNames. rewrite bind_fst.
  destruct (load_all_total fuel [] env names (fresh_load (cHigh out) (cSLSs out) (cWarnings out)) Hf) as [st ->]. eauto.
Qed.

Lemma compileNames_mono fuel fuel' out env names out' :
  (fuel ≤ fuel')%nat → (compileNames fuel c out env names).1 = Some out' →
  compileNames fuel' c out env names = compileNames fuel c out env names.
Proof.
  intros Hle. unfold compileNames. rewrite bind_fst. destruct (load_all _ _ _).1 as [st|] eqn:Hl; [|done]. intros _.
  erewrite (load_all_mono _ (λ name, loadSLS fuel' c [] env name)); [done| |exact Hl].
  intros n st0 st0' Hn. by eapply loadSLS_mono.
Qed.

(** C15: Compiling named files always ends, whatever they include, cycles
    too: when the file tree holds finitely many SLS files, a depth of one more
    than their number is enough, and any greater bound gives the same result
    and the same diagnostics. *)
Theorem compile_terminates names :
  ∃ out diags, ∀ fuel, (size U < fuel)%nat → CompileSLS fuel c names = (Some out, diags).
Proof.
  destruct (compileNames_total (S (size U)) empty_compiled (env_ c) names) as [o Ho]; [lia|].
  destruct (compileNames (S (size U)) c empty_compiled (env_ c) names) as [r ds] eqn:E. simpl in Ho. subst r.
  exists (mkCompiled (finish c (cHigh o)).1.1 (cSLSs o) (cWarnings o) (finish c (cHigh o)).1.2).
  eexists. intros fuel Hf. unfold CompileSLS. rewrite (compileNames_mono (S (size U)) fuel _ _ _ o Hf) by by rewrite E.
  rewrite E. reflexivity.
Qed.
End termination.

(** ** What exclude drops *)

Section exclude_facts.
Context `{Runtime}.

(** A directive that names the declaration, by its file or by its ID. *)
Definition names_decl (ex : excludeRef) (d : Decl) : Prop :=
  (exSLS ex ≠ "" ∧ exSLS ex = dclSLS d) ∨ (exSLS ex = "" ∧ exID ex ≠ "" ∧ exID ex = dclID d).

Lemma excluded_iff exs h d :
  excluded (foldl note_exclude h exs) d = true ↔ excluded h d = true ∨ ∃ ex, ex ∈ exs ∧ names_decl ex d.
Proof.
  revert h. induction exs as [|ex exs IH]; intros h; simpl.
  { split; [by left|]. intros [?|(ex & ?%elem_of_nil & _)]; done. }
  rewrite IH. assert (Hstep : excluded (note_exclude h ex) d = true ↔ excluded h d = true ∨ names_decl ex d).
  { unfold excluded, note_exclude, names_decl. rewrite !orb_true_iff, !bool_decide_eq_true.
    destruct (decide (exSLS ex = "")) as [He|He], (decide (exID ex = "")) as [Hi|Hi];
      rewrite ?(bool_decide_eq_true_2 (exSLS ex ≠ "")), ?(bool_decide_eq_false_2 (exSLS ex ≠ "")),
        ?(bool_decide_eq_true_2 (exID ex ≠ "")), ?(bool_decide_eq_false_2 (exID ex ≠ "")) by tauto;
      simpl; rewrite ?elem_of_union, ?elem_of_singleton; intuition congruence. }
  rewrite Hstep. setoid_rewrite elem_of_cons. naive_solver.
Qed.

(** An exclude takes effect on everything gathered so far, whatever the
    order of the directives: the declarations that remain are exactly those
    no directive names, by file or by ID, in their order and renumbered, and
    the index stays exact. *)
Theorem exclude_drops exs h :
  high_wf h → exs ≠ [] → excludedSLS h = ∅ → excludedIDs h = ∅ →
  high_wf (applyExcludes exs h) ∧
  ∃ kept, decls (applyExcludes exs h) = imap (λ i d, set_Order d i) kept ∧
    kept `sublist_of` decls h ∧
    ∀ d, d ∈ kept ↔ d ∈ decls h ∧ ∀ ex, ex ∈ exs → ¬ names_decl ex d.
Proof.
  intros Hw He Hs Hi. destruct (applyExcludes_spec exs h Hw) as [Hw' Hd]. split; [done|].
  eexists. split; [by apply Hd|]. split; [apply sublist_filter|]. intros d.
  rewrite list_elem_of_filter. assert (excluded h d = false) as Hx.
  { unfold excluded. rewrite Hs, Hi. by rewrite !bool_decide_eq_false_2 by set_solver. }
  rewrite <-not_true_iff_false, excluded_iff, Hx. naive_solver.
Qed.
End exclude_facts.

(** ** Inverse requisites *)

Section inverse_facts.
Context `{Runtime}.

Lemma parseReqItems_in pos sls id items item ref :
  item ∈ items → ref ∈ (parseReqItem pos sls id item).1 → ref ∈ (parseReqItems pos sls id items).1.
Proof.
  intros Hin Href. induction Hin as [item items|item x items Hin IH]; cbn [parseReqItems]; rewrite !bind_fst;
    apply elem_of_app; auto.
Qed.

Lemma refuse_sls_keeps name pos d refs ref : rSLS ref = "" → ref ∈ refs → ref ∈ (refuse_sls name pos d refs).1.
Proof.
  intros Hs Hin. induction Hin as [ref refs|ref x refs Hin IH]; cbn [refuse_sls].
  - rewrite bool_decide_eq_false_2, bind_fst by tauto. by left.
  - case_bool_decide; rewrite bind_fst; [auto|]. right. auto.
Qed.

Lemma forwardReqs_String k : forwardReqs !! ReqKind_String k = Some k.
Proof. by destruct k. Qed.

(** A module whose name is read as one in a requisite. *)
Definition plain_module (st : string) : Prop := st ≠ "" ∧ st ≠ "sls" ∧ st ≠ "id".

(** The requisite written into the arguments is read back by the expansion. *)
Lemma appended_parses kind st id pos f d :
  func_wf f → plain_module st →
  ∃ req, req ∈ (collectRequisites (appendRequisiteArg kind (mkRef st id "" pos) f) d).1 ∧
    rKind req = kind ∧ mkRef st id "" pos ∈ Refs req.
Proof.
  intros (_ & Hw & _) (H1 & H2 & H3). set (ref := mkRef st id "" pos). set (name := ReqKind_String kind).
  unfold appendRequisiteArg. cbn [fArgs set_fArgs]. fold name. rewrite bool_decide_eq_true_2 by done. cbn [rState rID rPos ref].
  set (entry := VMap _).
  match goal with |- context [VSeq (?x ++ [entry])] => set (l := x) end.
  set (m := SetAt (fArgs f) (VString name) (VSeq (l ++ [entry])) pos pos).
  assert (Hm : map_wf m) by by apply SetAt_wf.
  assert (Hget : Get m (VString name) = Some (VSeq (l ++ [entry]))).
  { unfold m. rewrite Get_SetAt by done. by rewrite decide_True. }
  unfold Get in Hget. destruct (Entry_ m (VString name)) as [e|] eqn:He; [|done]. injection Hget as Hv.
  apply Entry_Some in He as [He Hk%CanonKey_string]; [|done].
  set (refs := (parseReqList (Val e) (ValPos e) (dclSLS d) (dclID d) name).1).
  assert (Href : ref ∈ refs).
  { unfold refs. rewrite Hv. apply (parseReqItems_in _ _ _ _ entry); [set_solver|].
    unfold parseReqItem, entry.
    change (entries (SetAt NewMap (VString st) (VString id) pos pos)) with [mkEntry (VString st) (VString id) pos pos].
    cbn [Key Val ValPos KeyString]. rewrite !bool_decide_eq_false_2 by done. by left. }
  set (kept := (if bool_decide (kind = Listen) then refuse_sls name (ValPos e) d refs else mret refs : DW (list ReqRef)).1).
  assert (Hkept : ref ∈ kept).
  { unfold kept. case_bool_decide; [by apply refuse_sls_keeps|done]. }
  exists (mkReq kind kept []). split; [|done]. unfold collectRequisites. apply elem_of_collect. exists e. split; [done|].
  unfold collect_one. rewrite Hk. cbn [KeyString].
  assert (forwardReqs !! name = Some kind) as -> by apply forwardReqs_String.
  rewrite !bind_fst. fold refs.
  match goal with |- context [match ?x with [] => _ | _ => _ end] => change x with kept end.
  clearbody kept. destruct kept; [by apply elem_of_nil in Hkept|]. by left.
Qed.

(** An inverse requisite is attached or reported: when [require_in] and
    its kin, naming an ID, raise no error, the declaration of that ID has a
    function, the first one or that of the module named, whose own requisites
    now name the declaring state; every other declaration is untouched. *)
Theorem inverse_requisite_attached h a st id pos :
  high_wf h → (∀ d, d ∈ decls h → ∀ f, f ∈ Funcs d → func_wf f) →
  targetSLS a = "" → addRef a = mkRef st id "" pos → plain_module st →
  HasErrors (attach h a).2 = false →
  ∃ i d', decls (attach h a).1 = <[i := d']> (decls h) ∧ (i < length (decls h))%nat ∧ dclID d' = targetID a ∧
    ∃ f, f ∈ Funcs d' ∧ (targetState a = "" ∨ fState f = targetState a) ∧
      ∃ req, req ∈ (collectRequisites f d').1 ∧ rKind req = addKind a ∧ mkRef st id "" pos ∈ Refs req.
Proof.
  intros Hw Hf Hs Hr Hst. unfold attach. rewrite bool_decide_eq_false_2 by tauto.
  case_bool_decide; [done|]. destruct (hs_Lookup h (targetID a)) as [[i d]|] eqn:Hl; [|done].
  apply hs_Lookup_Some in Hl as [Hd Hid]; [|done]. destruct (pickExtendTarget d (targetState a)) as [j|] eqn:Hj; [|done].
  intros _. set (d' := set_Funcs d (alter (appendRequisiteArg (addKind a) (addRef a)) j (Funcs d))).
  assert (Hfj : ∃ f, Funcs d !! j = Some f ∧ (targetState a = "" ∨ fState f = targetState a)).
  { unfold pickExtendTarget in Hj. case_bool_decide as Ht.
    - destruct (Funcs d) as [|f fs]; [done|]. injection Hj as <-. exists f. auto.
    - unfold Decl_Func in Hj. destruct (list_find _ _) as [[k f]|] eqn:Hlf; simplify_eq/=.
      apply list_find_Some in Hlf as (? & ? & _). eauto. }
  destruct Hfj as (f & Hfj & Hstate). exists i, d'. split_and!.
  - simpl. apply list_eq. intros k. destruct (decide (i = k)) as [<-|Hne].
    + rewrite list_lookup_alter_eq, Hd, list_lookup_insert_eq by (by eapply lookup_lt_Some). done.
    + by rewrite list_lookup_alter_ne, list_lookup_insert_ne by done.
  - by eapply lookup_lt_Some.
  - done.
  - exists (appendRequisiteArg (addKind a) (addRef a) f). split_and!.
    + simpl. apply (list_elem_of_lookup_2 _ j). by rewrite list_lookup_alter_eq, Hfj.
    + done.
    + rewrite Hr. apply appended_parses; [|done]. apply (Hf d); by eapply list_elem_of_lookup_2.
Qed.
End inverse_facts.

(** ** A concrete tree *)

#[local] Existing Instance demo_runtime.

(** Three files of [base] and one of [prod]: [a] and [b] include each other,
    [quiet] excludes the file [noisy], which is declared in [prod]. *)
Definition demo_files (env name : string) : option value :=
  let req l := VSeq [VMap (MapOf [(VString "require", VSeq l)])] in
  if bool_decide ((env, name) = ("base", "a")) then
    Some (VMap (MapOf [(VString "include", VSeq [VString "b"]);
      (VString "vim", VMap (MapOf [(VString "pkg.installed", req [VMap (MapOf [(VString "pkg", VString "git")])])]))]))
  else if bool_decide ((env, name) = ("base", "b")) then
    Some (VMap (MapOf [(VString "include", VSeq [VString "a"]); (VString "git", VString "pkg.installed")]))
  else if bool_decide ((env, name) = ("base", "quiet")) then
    Some (VMap (MapOf [(VString "exclude", VSeq [VMap (MapOf [(VString "sls", VString "noisy")])])]))
  else if bool_decide ((env, name) = ("prod", "noisy")) then
    Some (VMap (MapOf [(VString "cron", VString "pkg.installed")]))
  else None.
Definition demo_compiler : Compiler :=
  mkCompiler (λ env name, match demo_files env name with Some _ => inr (name, name +:+ ".sls") | None => inl ErrNotFound end)
    (λ env name _ _, (inr (default VNull (demo_files env name)), [])) None (mkConfig "" [] ["secret*"]).
Definition demo_out : compiled := default empty_compiled (CompileSLS 5 demo_compiler ["a"]).1.

Lemma compile_run_ordered_witness : length (Low demo_out) = 2%nat ∧ RunOrdered (Low demo_out).
Proof.
  split; [vm_compute; reflexivity|].
  apply (compile_run_ordered 5 demo_compiler ["a"] ∅ (CompileSLS 5 demo_compiler ["a"])); [by left|vm_compute; reflexivity..].
Defined.

Lemma only_allowed_run_witness :
  ∃ ch, ch ∈ Low demo_out ∧ cSLS ch = "b" ∧ allowedSLS demo_compiler (cSLS ch) = true.
Proof.
  eexists (default (base_chunk (mkDecl "" "" "" noPos [] 0) (mkFunc "" "" NewMap [] noPos)) (Low demo_out !! 0%nat)).
  split; [|split].
  - apply (list_elem_of_lookup_2 _ 0). vm_compute. reflexivity.
  - vm_compute. reflexivity.
  - eapply (only_allowed_run demo_compiler 5 demo_out).
    + left. exists ["a"]. vm_compute. reflexivity.
    + apply (list_elem_of_lookup_2 _ 0). vm_compute. reflexivity.
Defined.

Lemma low_state_complete_witness :
  ident <$> Low demo_out ≡ₚ ident <$> (collect buildChunks (decls (cHigh demo_out))).1.
Proof.
  destruct (low_state_complete demo_compiler 5 demo_out) as (_ & _ & Hp); [|exact Hp].
  left. exists ["a"]. vm_compute. reflexivity.
Defined.

Definition demo_keys : gset string :=
  {[sls_key "base" "a"; sls_key "base" "b"; sls_key "base" "quiet"; sls_key "prod" "noisy"]}.

Lemma compile_terminates_witness :
  ∃ out diags, ∀ fuel, (4 < fuel)%nat → CompileSLS fuel demo_compiler ["a"] = (Some out, diags).
Proof.
  replace 4%nat with (size demo_keys) by (vm_compute; reflexivity).
  apply (compile_terminates demo_compiler demo_keys).
  intros env name p. unfold demo_compiler, Source, demo_files, demo_keys.
  repeat (case_bool_decide; [simplify_eq; intros _; rewrite !elem_of_union, !elem_of_singleton; tauto|]).
  by intros Hd.
Defined.

Lemma exclude_drops_witness :
  let h := (add_all NewHighState [mkDecl "vim" "a" "base" noPos [] 0; mkDecl "cron" "noisy" "base" noPos [] 0]).1 in
  ∃ kept, decls (applyExcludes [mkExclude "noisy" "" noPos] h) = imap (λ i d, set_Order d i) kept.
Proof.
  cbn zeta. destruct (exclude_drops [mkExclude "noisy" "" noPos]
    (add_all NewHighState [mkDecl "vim" "a" "base" noPos [] 0; mkDecl "cron" "noisy" "base" noPos [] 0]).1)
    as (_ & kept & Hk & _).
  - rewrite add_all_cons, bind_fst. apply hs_add_wf, hs_add_wf, NewHighState_wf.
  - discriminate.
  - reflexivity.
  - reflexivity.
  - exists kept. exact Hk.
Defined.

(** An exclude of one environment does not reach the environments after it,
    unless one of those has an exclude of its own: the file it names still
    runs. *)
Lemma exclude_misses_later_environment :
  (λ out, (bool_decide ("noisy" ∈ excludedSLS (cHigh out)), cSLS <$> Low out)) <$>
    (CompileMatched 5 demo_compiler {[ "base" := ["quiet"]; "prod" := ["noisy"] ]}).1 = Some (true, ["noisy"]).
Proof. vm_compute. reflexivity. Qed.

(** A [require_in] that names a state declared before it. *)
Definition inverse_high : HighState :=
  (add_all NewHighState [mkDecl "vim" "a" "base" noPos [mkFunc "pkg" "installed" NewMap [] noPos] 0]).1.
Definition inverse_addition : addition :=
  mkAddition "vim" "pkg" "" Require_ (mkRef "file" "/etc/vimrc" "" noPos) noPos "a" "/etc/vimrc".

Lemma inverse_requisite_attached_witness :
  ∃ i d', decls (attach inverse_high inverse_addition).1 = <[i := d']> (decls inverse_high) ∧ dclID d' = "vim".
Proof.
  destruct (inverse_requisite_attached inverse_high inverse_addition "file" "/etc/vimrc" noPos) as (i & d' & Hd & _ & Hi & _).
  - unfold inverse_high. rewrite add_all_cons, bind_fst. apply hs_add_wf, NewHighState_wf.
  - intros d Hd f Hf. change (decls inverse_high) with
      [mkDecl "vim" "a" "base" noPos [mkFunc "pkg" "installed" NewMap [] noPos] 0] in Hd.
    apply list_elem_of_singleton in Hd as ->. apply list_elem_of_singleton in Hf as ->.
    split_and!; [discriminate|apply NewMap_wf|apply NewMap_string_keys].
  - reflexivity.
  - reflexivity.
  - split_and!; discriminate.
  - vm_compute. reflexivity.
  - exists i, d'. split; [exact Hd|exact Hi].
Defined.
