(* ===== verification/Apply.v ===== *)
(** * A state job on a node: compile, then run

    Models src/internal/state/jobfunctions.go and runStateJob of
    src/cmd/halite-node/execute.go, which puts the compiler and the runner
    together.  The top file is resolved before, by [Top.resolveTop]: [top] holds
    the SLS names it matched by environment, [top_diags] what it had to say. *)

From S2P Require Import Prelude GoLib Value StateTypes Signature States HighState LowState Compile Runner RunTurns.

Open Scope Z_scope.

Definition jobFunctions : list string :=
  ["apply"; "highstate"; "sls"; "show_top"; "show_highstate"; "show_sls"; "show_lowstate"; "show_states"].

Definition JobFunction (fun_ : string) : option string :=
  if has_prefix "state." fun_ then
    let name := sdrop 6 fun_ in if bool_decide (name ∈ jobFunctions) then Some name else None
  else None.

(** What a job answers, before it is rendered and masked. *)
Inductive outcome :=
| Refused (diags : Diags)
| ShownLow (low : list Chunk)
| ShownHigh (high : HighState)
| ShownNames (names : list string)
| Applied (result : RunResult) (success : bool) (retcode : Z).

Section apply.
Context `{Runtime} {S : Type}.

(** The compilation a job asks for. *)
Definition compile_job (fuel : nat) (c : Compiler) (top : gmap string (list string)) (top_diags : Diags)
    (fn : string) (args : list string) : DW (option compiled) :=
  if negb (bool_decide (args = [])) && bool_decide (fn ≠ "highstate") then CompileSLS fuel c args
  else let r := CompileMatched fuel c top in (r.1, top_diags ++ r.2).

Definition runStateJob (fuel : nat) (c : Compiler) (top : gmap string (list string)) (top_diags : Diags)
    (r : Runner (S:=S)) (fn : string) (args : list string) : World.M S (option outcome) :=
  match compile_job fuel c top top_diags fn args with
  | (None, _) => mret None
  | (Some compiled, diags) =>
      if HasErrors diags then mret (Some (Refused diags))
      else if bool_decide (fn = "show_lowstate") then mret (Some (ShownLow (Low compiled)))
      else if bool_decide (fn = "show_highstate") || bool_decide (fn = "show_sls")
      then mret (Some (ShownHigh (cHigh compiled)))
      else if bool_decide (fn = "show_states") || bool_decide (fn = "show_top")
      then mret (Some (ShownNames (cSLSs compiled)))
      else
        result ← Run r (Low compiled);
        let code := RetCode result in
        mret (Some (Applied result ((code =? 0) || (code =? 2)) code))
  end.

Definition applying (fn : string) : bool := bool_decide (fn ∈ ["apply"; "highstate"; "sls"]).

Lemma applying_runs fn : applying fn = true →
  bool_decide (fn = "show_lowstate") = false ∧
  bool_decide (fn = "show_highstate") || bool_decide (fn = "show_sls") = false ∧
  bool_decide (fn = "show_states") || bool_decide (fn = "show_top") = false.
Proof.
  unfold applying. intros Hfn%bool_decide_eq_true. rewrite !elem_of_cons in Hfn.
  by destruct Hfn as [->|[->|[->|[]%elem_of_nil]]].
Qed.

Lemma RunOrdered_targets chunks : RunOrdered chunks → Forall (targets_in (length chunks)) chunks.
Proof.
  intros Ho. apply Forall_forall. intros ch [i Hi]%list_elem_of_lookup req t Hr Ht.
  by destruct (Ho i ch req t Hi Hr Ht).
Qed.

Lemma compile_job_ordered fuel c top top_diags fn args out :
  (compile_job fuel c top top_diags fn args).1 = Some out →
  HasErrors (compile_job fuel c top top_diags fn args).2 = false → RunOrdered (Low out).
Proof.
  unfold compile_job. destruct (_ && _).
  - intros Ho He. by eapply (compiled_run_ordered fuel c args ∅ (CompileSLS fuel c args)); [left|..].
  - simpl. rewrite HasErrors_app. intros Ho [_ He]%orb_false_iff.
    by eapply (compiled_run_ordered fuel c [] top (CompileMatched fuel c top)); [right|..].
Qed.

(** Nothing touches the system before the whole state has compiled: a job
    whose compilation reports an error anywhere is refused and changes
    nothing, and neither do the forms that only show. *)
Theorem refused_jobs_change_nothing fuel c top top_diags r fn args w :
  let d := compile_job fuel c top top_diags fn args in
  (HasErrors d.2 = true ∨ (fn ∈ jobFunctions ∧ applying fn = false)) →
  is_Some d.1 →
  ∃ o, runStateJob fuel c top top_diags r fn args w = Some (Some o, w) ∧
       (HasErrors d.2 = true → o = Refused d.2).
Proof.
  cbn zeta. unfold runStateJob. destruct (compile_job _ _ _ _ _ _) as [[out|] diags]; simpl; [|by intros _ []].
  intros Hc _. destruct (HasErrors diags) eqn:He; [by eexists|].
  destruct Hc as [?|[Hin Hn]]; [done|]. unfold jobFunctions in Hin. rewrite !elem_of_cons in Hin.
  destruct Hin as [->|[->|[->|[->|[->|[->|[->|[->|[]%elem_of_nil]]]]]]]]; try done; by eexists.
Qed.

End apply.

(** ** A job on a concrete tree *)

#[local] Existing Instance demo_runtime.

(** [b] changes something, [a] waits for [f], which fails. *)
Definition job_files (name : string) : option value :=
  if bool_decide (name = "web") then
    Some (VMap (MapOf [
      (VString "b", VString "test.change"); (VString "f", VString "test.fail");
      (VString "a", VMap (MapOf [(VString "test.change", VSeq [VMap (MapOf [
         (VString "require", VSeq [VMap (MapOf [(VString "test", VString "f")])])])])]))]))
  else if bool_decide (name = "broken") then
    Some (VMap (MapOf [(VString "b", VString "test.change"); (VString "x", VInt 3)]))
  else None.
Definition job_compiler : Compiler :=
  mkCompiler (λ _ name, match job_files name with Some _ => inr (name, name +:+ ".sls") | None => inl ErrNotFound end)
    (λ _ name _ _, (inr (default VNull (job_files name)), [])) None (mkConfig "" [] []).
Definition job_runner : Runner (S:=demo_world) := demo_runner false false "act" ∅.
Definition job_low : list Chunk := from_option Low [] (CompileSLS 3 job_compiler ["web"]).1.

Lemma refused_jobs_change_nothing_witness :
  ∃ o, runStateJob 3 job_compiler ∅ [] job_runner "apply" ["broken"] [] = Some (Some o, []).
Proof.
  destruct (refused_jobs_change_nothing 3 job_compiler ∅ [] job_runner "apply" ["broken"] []) as (o & Ho & _).
  - left. vm_compute. reflexivity.
  - eexists. vm_compute. reflexivity.
  - exists o. exact Ho.
Defined.

