(* ===== verification/Job.v ===== *)
(** * Job identity, the job record and the in-memory replay cache

    Models src/internal/job/job.go (identifiers and the clock that assigns
    them), the record and its helpers of model.go, and guard.go.  The clock is
    a mutex around a state: [Clock_Next] is one turn of it, given what the
    system clock says.  The replay cache is a set of keys and the order they
    were recorded in. *)

From S2P Require Import Prelude GoLib GoTime Value.

Open Scope Z_scope.

(** ** What encoding/json decodes into an [any]

    The numeric types a caller may build by hand are here too.  A Go map is an
    association list with distinct keys; its order means nothing. *)

#[warnings="-register-all"]
Inductive any :=
| ANil
| ABool (b : bool)
| ANumber (text : string)      (* json.Number *)
| AInt (z : Z)                 (* int, int64 *)
| AUint64 (z : Z)
| AFloat (f : SpecFloat.spec_float) (* float64; a float32 is converted first *)
| AString (s : string)
| ASlice (l : list any)
| AStrings (l : list string)   (* []string *)
| AMap (m : list (string * any))
| AOther (type_name : string).

Abbreviation kwargs := (list (string * any)).

(** Lookup in a Go map. *)
Definition get_kwarg (k : string) (m : kwargs) : option any :=
  snd <$> list_find (λ e : string * any, e.1 = k) m ≫= λ e, Some e.2.

(** Assignment to a key of a Go map. *)
Definition set_kwarg (k : string) (v : any) (m : kwargs) : kwargs :=
  filter (λ e : string * any, e.1 ≠ k) m ++ [(k, v)].

(** ** The record (model.go) *)

Record Batch := mkBatch { Size : Z; Wait : Z; SafeLimit : Z; Timeout : Z }.

Record Job := mkJob {
  JID : string; Fun : string; Arg : list string; Kwarg : kwargs; Env : string;
  Nonce : string; Expires : Z; Created : Z;
  Submitter : string; OnBehalfOf : string; Correlation : string; TraceParent : string;
  Target : string; TargetKind : string; Nodes : list string;
  Offline : string; State : string; Test : bool;
  batch : Batch; Delivered : list string; Queued : list string;
  Signature : string; Schema : string }.

Definition ReturnSchema : string := "halite.ret/1".
Definition JobSchema : string := "halite.job/1".
Definition SignedJobSchema : string := "halite.job/2".

(** A nil job is [None]. *)
Definition SchemaFor (j : option Job) : string :=
  match j with
  | Some j => if bool_decide (Signature j ≠ "") then SignedJobSchema else JobSchema
  | None => JobSchema
  end.

Definition Skip : string := "skip".
Definition Queue : string := "queue".
Definition Require_ : string := "require".

Definition ParseOffline `{GoRuntime V} (s : string) : string + string :=
  if bool_decide (s ∈ [Skip; Queue; Require_]) then inr s
  else if bool_decide (s = "") then inr Skip
  else inl (Quote s +:+ " is not an offline policy; use " +:+ Quote Skip +:+ ", " +:+ Quote Queue +:+
            ", or " +:+ Quote Require_).

Definition IsQueuedFor (j : Job) (nodeID : string) : bool := existsb (λ id, bool_decide (id = nodeID)) (Queued j).

Definition with_queued (j : Job) (q : list string) : Job :=
  mkJob (JID j) (Fun j) (Arg j) (Kwarg j) (Env j) (Nonce j) (Expires j) (Created j) (Submitter j)
    (OnBehalfOf j) (Correlation j) (TraceParent j) (Target j) (TargetKind j) (Nodes j) (Offline j)
    (State j) (Test j) (batch j) (Delivered j) q (Signature j) (Schema j).

Definition Dequeue (j : Job) (nodeID : string) : Job :=
  with_queued j (foldl (λ out id, if bool_decide (id ≠ nodeID) then out ++ [id] else out) [] (Queued j)).

Definition Batched (j : Job) : bool := (0 <? Size (batch j)) && (Size (batch j) <? Z.of_nat (length (Nodes j))).

Definition Remaining (j : Job) : list string :=
  let sent : gset string := foldl (λ s id, {[id]} ∪ s) ∅ (Delivered j) in
  foldl (λ out id, if bool_decide (id ∈ sent) then out else out ++ [id]) [] (Nodes j).

Definition Expired (j : Job) (now : Z) : bool := negb (IsZero (Expires j)) && After now (Expires j).

(** [test] is a field of the record and a keyword argument on the wire. *)
Definition WireKwargs (j : Job) : kwargs :=
  if Test j then set_kwarg "test" (ABool true) (Kwarg j) else Kwarg j.

(** ** Identifiers (job.go) *)

Definition dotted (s : string) : string :=
  if (String.length s =? 21)%nat then stake 15 s +:+ "." +:+ sdrop 15 s else s.

Definition ID_Time (id : string) : option Z := Parse_jid (dotted id).

Definition ID_Day (id : string) : string :=
  if (String.length id <? 8)%nat then "unknown" else stake 8 id.

(** The loop of Valid over the bytes, [i] counting from the front. *)
Fixpoint valid_bytes (i : nat) (s : string) : bool :=
  match s with
  | EmptyString => true
  | String c s' =>
      (if (i =? 8)%nat then bool_decide (c = "T"%char) else isDigit c) && valid_bytes (S i) s'
  end.

Definition ID_Valid (id : string) : bool :=
  (String.length id =? 21)%nat && valid_bytes 0 id && match ID_Time id with Some _ => true | None => false end.

(** Format, less the separator of the fraction. *)
Definition format (t : Z) : string :=
  let s := Format_jid t in stake 15 s +:+ sdrop 16 s.

Definition NewID (now : Z) : string := format now.

(** One turn of the clock: its state is the last instant it assigned. *)
Definition Clock_Next (last now : Z) : string * Z :=
  let now := Truncate now Microsecond in
  let now := if After now last then now else last + Microsecond in
  (format now, now).

(** The identifiers assigned over a sequence of system clock readings. *)
Fixpoint Clock_run (last : Z) (readings : list Z) : list string :=
  match readings with
  | [] => []
  | now :: readings' => let '(id, last') := Clock_Next last now in id :: Clock_run last' readings'
  end.

(** ** The in-memory replay cache (guard.go) *)

Record Refusal := mkRefusal { Reason : string; Detail : string }.
Definition Refusal_Error (r : Refusal) : string :=
  if bool_decide (Detail r = "") then Reason r else Reason r +:+ ": " +:+ Detail r.

Definition ReasonReplayed : string := "replayed".
Definition ReasonExpired : string := "expired".
Definition ReasonMalforme : string := "malformed".

Record Guard := mkGuard { gsize : Z; seen : gset string; order : list string }.

Definition DefaultGuardSize : Z := 4096.
Definition NewGuard (sz : Z) : Guard := mkGuard (if sz <=? 0 then DefaultGuardSize else sz) ∅ [].

(** The eviction loop of record: at most one turn per held key. *)
Fixpoint evict (limit : Z) (seen : gset string) (order : list string) : gset string * list string :=
  match order with
  | oldest :: order' =>
      if limit <? Z.of_nat (length order) then evict limit (seen ∖ {[oldest]}) order' else (seen, order)
  | [] => (seen, order)
  end.

Definition record (g : Guard) (key : string) : Guard :=
  let '(s, o) := evict (wrap64 (gsize g * 2)) ({[key]} ∪ seen g) (order g ++ [key]) in
  mkGuard (gsize g) s o.

Definition jid_key (j : Job) : string := "jid:" +:+ JID j.
Definition nonce_key (j : Job) : string := "nonce:" +:+ Nonce j.

Section guard.
Context `{GoRuntime V}.

(** What refuses a job before the cache is looked at. *)
Definition precheck (j : option Job) (now : Z) : option Refusal :=
  match j with
  | None => Some (mkRefusal ReasonMalforme "the job carries no identifier")
  | Some j =>
      if bool_decide (JID j = "") then Some (mkRefusal ReasonMalforme "the job carries no identifier")
      else if negb (ID_Valid (JID j)) then
        Some (mkRefusal ReasonMalforme (Quote (JID j) +:+ " is not a job identifier"))
      else if bool_decide (Nonce j = "") then
        Some (mkRefusal ReasonMalforme "the job carries no nonce, so a replay of it could not be detected")
      else if Expired j now then
        Some (mkRefusal ReasonExpired ("it expired at " +:+ Format_RFC3339 (Expires j) +:+
                                       " and it is now " +:+ Format_RFC3339 now))
      else None
  end.

Definition guard_check (g : Guard) (j : option Job) (now : Z) (rec : bool) : option Refusal * Guard :=
  match precheck j now, j with
  | Some r, _ => (Some r, g)
  | None, None => (None, g)
  | None, Some j =>
      if bool_decide (jid_key j ∈ seen g) || bool_decide (nonce_key j ∈ seen g) then
        (Some (mkRefusal ReasonReplayed ("this node has already run " +:+ JID j)), g)
      else (None, if rec then record (record g (jid_key j)) (nonce_key j) else g)
  end.

Definition Guard_Admit (g : Guard) (j : option Job) (now : Z) := guard_check g j now true.
Definition Guard_Check (g : Guard) (j : option Job) (now : Z) := guard_check g j now false.
Definition Guard_Len (g : Guard) : nat := size (seen g).
End guard.

(** ** Identifiers are in bijection with the microseconds of four-digit years *)

(** A string of digits is the decimal writing of its value. *)
Fixpoint all_digits (s : string) : bool :=
  match s with EmptyString => true | String a r => isDigit a && all_digits r end.

Lemma isDigit_digit a : isDigit a = true → ∃ k, 0 ≤ k < 10 ∧ a = digit_char k.
Proof.
  unfold isDigit, in_range. rewrite andb_true_iff, !Z.leb_le. intros Ha.
  exists (byte_of a - 48). split; [lia|]. unfold digit_char, byte_of in *.
  replace (Z.to_N (48 + (Z.of_N (N_of_ascii a) - 48))) with (N_of_ascii a) by lia.
  by rewrite ascii_N_embedding.
Qed.

Lemma dec_cons w k n :
  0 ≤ k < 10 → 0 ≤ n < 10 ^ Z.of_nat w →
  dec (S w) (k * 10 ^ Z.of_nat w + n) = String (digit_char k) (dec w n).
Proof.
  intros Hk. revert n. induction w as [|w IH]; intros n Hn.
  - change (10 ^ Z.of_nat 0) with 1 in *. assert (n = 0) as -> by lia.
    rewrite Z.mul_1_r, Z.add_0_r. cbn [dec]. by rewrite Z.mod_small by lia.
  - rewrite Nat2Z.inj_succ, Z.pow_succ_r in * by lia.
    set (x := k * (10 * 10 ^ Z.of_nat w) + n).
    change (dec (S (S w)) x) with (dec (S w) (x / 10) +:+ String (digit_char (x mod 10)) "").
    assert (x / 10 = k * 10 ^ Z.of_nat w + n / 10 ∧ x mod 10 = n mod 10) as [-> ->].
    { subst x. replace (k * (10 * 10 ^ Z.of_nat w) + n) with (n + (k * 10 ^ Z.of_nat w) * 10) by lia.
      rewrite Z.div_add, Z.mod_add by lia. lia. }
    rewrite IH; [done|]. split; [apply Z.div_pos; lia|apply Z.div_lt_upper_bound; lia].
Qed.

Lemma all_digits_dec s :
  all_digits s = true → ∃ n, s = dec (String.length s) n ∧ 0 ≤ n < 10 ^ Z.of_nat (String.length s).
Proof.
  induction s as [|a s IH]; [exists 0; simpl; split; [done|lia]|]. cbn [all_digits String.length].
  intros [(k & Hk & ->)%isDigit_digit (n & E & Hn)%IH]%andb_true_iff.
  exists (k * 10 ^ Z.of_nat (String.length s) + n). rewrite dec_cons by done.
  split; [by f_equal|]. rewrite Nat2Z.inj_succ, Z.pow_succ_r by lia. nia.
Qed.

Lemma all_digits_app s t : all_digits (s +:+ t) = all_digits s && all_digits t.
Proof. induction s as [|a s IH]; [done|].
  change (String a s +:+ t) with (String a (s +:+ t)). cbn [all_digits]. by rewrite IH, andb_assoc. Qed.

(** A field of [w] digits at the front of a string of digits. *)
Lemma take_field w s :
  (w ≤ String.length s)%nat → all_digits s = true →
  ∃ n r, s = dec w n +:+ r ∧ 0 ≤ n < 10 ^ Z.of_nat w ∧ all_digits r = true ∧
    String.length r = (String.length s - w)%nat.
Proof.
  intros Hw Hs. rewrite <- (stake_sdrop w s), all_digits_app in Hs. apply andb_true_iff in Hs as [H1 H2].
  destruct (all_digits_dec _ H1) as (n & E & Hn). rewrite stake_length in E, Hn by done.
  exists n, (sdrop w s). rewrite <- E, stake_sdrop, sdrop_length. done.
Qed.

Lemma valid_bytes_split i s :
  (i ≤ 8)%nat → valid_bytes i s = true → (8 - i < String.length s)%nat →
  ∃ d r, s = d +:+ "T" +:+ r ∧ String.length d = (8 - i)%nat ∧ all_digits d = true ∧ all_digits r = true.
Proof.
  assert (∀ r k, (8 < k)%nat → valid_bytes k r = true → all_digits r = true) as Htail.
  { induction r as [|a r IH]; intros k Hk; [done|]. cbn [valid_bytes all_digits].
    destruct (Nat.eqb_spec k 8); [lia|]. intros [-> Hr]%andb_true_iff. apply (IH (S k)); [lia|done]. }
  revert i. induction s as [|c s IH]; intros i Hi Hv Hl; [simpl in Hl; lia|].
  cbn [valid_bytes] in Hv. apply andb_true_iff in Hv as [Hc Hv]. cbn [String.length] in Hl.
  destruct (Nat.eqb_spec i 8) as [->|Hne].
  - apply bool_decide_eq_true in Hc as ->. exists "", s. split_and!; [done..|].
    apply (Htail s 9%nat); [lia|done].
  - destruct (IH (S i)) as (d & r & -> & Hd & Hdd & Hdr); [lia|done|lia|].
    exists (String c d), r. cbn [String.length all_digits]. rewrite Hdd, Hc.
    split_and!; [done|lia|done|done].
Qed.

(** The fields of an identifier before the fraction. *)
Definition jid_head (y m d h mi s : Z) : string :=
  dec 4 y +:+ dec 2 m +:+ dec 2 d +:+ "T" +:+ dec 2 h +:+ dec 2 mi +:+ dec 2 s.

Lemma jid_head_length y m d h mi s : String.length (jid_head y m d h mi s) = 15%nat.
Proof. unfold jid_head. rewrite !slength_app, !dec_length. done. Qed.

Lemma undot A B :
  String.length A = 15%nat → stake 15 (A +:+ "." +:+ B) +:+ sdrop 16 (A +:+ "." +:+ B) = A +:+ B.
Proof.
  intros HA. rewrite <- HA, stake_app.
  replace (S (String.length A)) with (String.length (A +:+ ".")) by (rewrite slength_app; simpl; lia).
  by rewrite <- string_app_assoc, sdrop_app.
Qed.

Lemma dotted_app A B :
  String.length A = 15%nat → String.length B = 6%nat → dotted (A +:+ B) = A +:+ "." +:+ B.
Proof.
  intros HA HB. unfold dotted. rewrite slength_app, HA, HB. simpl Nat.eqb. cbn iota.
  by rewrite <- HA, stake_app, sdrop_app.
Qed.

Lemma Format_jid_fields t y m d h mi s :
  0 ≤ y < 10000 → civil (days_of (secs_of t)) = (y, m, d) → clock_of (secs_of t) = (h, mi, s) →
  Format_jid t = jid_head y m d h mi s +:+ "." +:+ dec 6 (Nanosec t / 1000).
Proof.
  intros Hy Hc Hk. unfold Format_jid, jid_head. rewrite Hc, Hk, appendInt_small by done.
  by rewrite !string_app_assoc.
Qed.

Lemma format_dotted t : four_digit t → dotted (format t) = Format_jid t.
Proof.
  unfold four_digit, format. intros Hy.
  destruct (civil (days_of (secs_of t))) as [[y m] d] eqn:Hc, (clock_of (secs_of t)) as [[h mi] s] eqn:Hk.
  rewrite (Format_jid_fields t _ _ _ _ _ _ Hy Hc Hk).
  by rewrite undot, dotted_app by (apply jid_head_length || apply dec_length).
Qed.

Lemma ID_Time_format t : four_digit t → ID_Time (format t) = Some (Truncate t Microsecond).
Proof. intros Hy. unfold ID_Time. rewrite format_dotted by done. by apply Parse_Format_jid. Qed.

Lemma dec_digits w n : all_digits (dec w n) = true.
Proof.
  revert n. induction w as [|w IH]; intros n; [done|]. cbn [dec].
  rewrite all_digits_app, IH. cbn [all_digits]. by rewrite isDigit_char by (apply Z.mod_pos_bound; lia).
Qed.

Lemma trim_frac_digits w n : all_digits (trim_frac w n) = true.
Proof.
  revert n. induction w as [|w IH]; intros n; [done|]. cbn [trim_frac].
  destruct (n mod 10 =? 0); [apply IH|apply dec_digits].
Qed.

Lemma pretty_go_digits x s : all_digits s = true → all_digits (pretty_N_go x s) = true.
Proof.
  revert s. induction (N.lt_wf_0 x) as [x _ IH]; intros s Hs.
  destruct (decide (x = 0)%N) as [->|Hx]; [by rewrite pretty_N_go_0|].
  rewrite pretty_N_go_step by lia. apply IH; [apply N.div_lt; lia|]. cbn [all_digits]. rewrite Hs.
  unfold pretty_N_char. by repeat case_match.
Qed.

(** A number that is not negative is written in digits alone. *)
Lemma FormatInt_digits z : 0 ≤ z → all_digits (FormatInt z) = true.
Proof. intros Hz. destruct z as [|p|p]; [done| |lia]. unfold FormatInt. by apply (pretty_go_digits (N.pos p) ""). Qed.

Lemma valid_bytes_digits i s : all_digits s = true → (i + String.length s ≤ 8 ∨ 8 < i)%nat → valid_bytes i s = true.
Proof.
  revert i. induction s as [|a s IH]; intros i; [done|]. cbn [all_digits valid_bytes String.length].
  intros [-> Hs]%andb_true_iff Hi. destruct (Nat.eqb_spec i 8); [lia|]. apply IH; [done|lia].
Qed.
Lemma valid_bytes_app i s t : valid_bytes i (s +:+ t) = valid_bytes i s && valid_bytes (i + String.length s) t.
Proof.
  revert i. induction s as [|a s IH]; intros i; cbn [String.length]; [by rewrite Nat.add_0_r|].
  change (String a s +:+ t) with (String a (s +:+ t)). cbn [valid_bytes].
  by rewrite IH, <- Nat.add_succ_comm, andb_assoc.
Qed.

Lemma format_valid t : four_digit t → ID_Valid (format t) = true.
Proof.
  intros Hy. unfold ID_Valid. rewrite ID_Time_format by done. unfold four_digit, format in *.
  destruct (civil (days_of (secs_of t))) as [[y m] d] eqn:Hc, (clock_of (secs_of t)) as [[h mi] s] eqn:Hk.
  rewrite (Format_jid_fields t _ _ _ _ _ _ Hy Hc Hk), undot by apply jid_head_length.
  rewrite slength_app, jid_head_length, dec_length. cbn [Nat.eqb andb Nat.add].
  rewrite valid_bytes_app, jid_head_length. unfold jid_head.
  rewrite !valid_bytes_app, !dec_length. cbn [String.length Nat.add].
  assert (∀ i w n, (i + w ≤ 8 ∨ 8 < i)%nat → valid_bytes i (dec w n) = true) as Hd.
  { intros i w n Hi. apply valid_bytes_digits; [apply dec_digits|]. rewrite dec_length. lia. }
  by rewrite !Hd by lia.
Qed.

(** Reading digits as an identifier succeeds only on a moment of the calendar. *)
Lemma Parse_jid_inv y m d h mi s us t :
  0 ≤ y < 10000 → 0 ≤ m < 100 → 0 ≤ d < 100 → 0 ≤ h < 100 → 0 ≤ mi < 100 → 0 ≤ s < 100 →
  0 ≤ us < 10 ^ Z.of_nat 6 →
  Parse_jid (jid_head y m d h mi s +:+ "." +:+ dec 6 us) = Some t →
  valid_date y m d ∧ 0 ≤ h ≤ 23 ∧ 0 ≤ mi ≤ 59 ∧ 0 ≤ s ≤ 59 ∧ t = Date_utc y m d h mi s (us * 1000).
Proof.
  intros Hy Hm Hd Hh Hmi Hs Hus. unfold jid_head. rewrite !string_app_assoc.
  unfold Parse_jid. rewrite <- (appendInt_small y), parse_year_dec by done. cbn [mbind option_bind].
  destruct (getrange (dec 2 m +:+ _) _ _ _) as [p|] eqn:Em; [|done].
  apply getrange_inv in Em as [-> Em]; [|done]. cbn [mbind option_bind].
  rewrite getnum_dec by done. cbn [mbind option_bind]. rewrite expect_same. cbn [mbind option_bind].
  destruct (getrange (dec 2 h +:+ _) _ _ _) as [p|] eqn:Eh; [|done].
  apply getrange_inv in Eh as [-> Eh]; [|done]. cbn [mbind option_bind].
  destruct (getrange (dec 2 mi +:+ _) _ _ _) as [p|] eqn:Emi; [|done].
  apply getrange_inv in Emi as [-> Emi]; [|done]. cbn [mbind option_bind].
  destruct (getrange (dec 2 s +:+ _) _ _ _) as [p|] eqn:Es; [|done].
  apply getrange_inv in Es as [-> Es]; [|done]. cbn [mbind option_bind].
  change ("." +:+ dec 6 us) with (String "." (dec 6 us)). rewrite <- (string_app_nil_r (dec 6 us)).
  rewrite parseNanoseconds_dec by (done || lia). cbn [mbind option_bind].
  destruct (_ <? _)%nat; [done|]. destruct (bool_decide _); [|done].
  unfold finish_date. destruct (Z.leb_spec 1 d), (Z.leb_spec d (daysIn m y)); simpl; intros [= <-]; done.
Qed.

(** A valid identifier is the one spelling of its moment. *)
Lemma valid_canonical id :
  ID_Valid id = true →
  ∃ t, ID_Time id = Some t ∧ four_digit t ∧ t mod Microsecond = 0 ∧ format t = id.
Proof.
  unfold ID_Valid. rewrite !andb_true_iff, Nat.eqb_eq. intros [[Hl Hb] Ht].
  destruct (valid_bytes_split 0 id) as (a & r & -> & Ha & Hda & Hdr); [lia|done|lia|].
  rewrite !slength_app in Hl. cbn [String.length] in Hl.
  destruct (take_field 4 a) as (y & a1 & -> & Hy & Hda1 & Hl1); [lia|done|].
  destruct (take_field 2 a1) as (m & a2 & -> & Hm & Hda2 & Hl2); [lia|done|].
  destruct (all_digits_dec a2 Hda2) as (d & Ed & Hd).
  assert (String.length a2 = 2%nat) as Hl3 by lia. rewrite Hl3 in Ed, Hd. subst a2.
  destruct (take_field 2 r) as (h & r1 & -> & Hh & Hdr1 & Hr1); [lia|done|].
  destruct (take_field 2 r1) as (mi & r2 & -> & Hmi & Hdr2 & Hr2); [lia|done|].
  destruct (take_field 2 r2) as (s & r3 & -> & Hs & Hdr3 & Hr3); [lia|done|].
  destruct (all_digits_dec r3 Hdr3) as (us & Eu & Hus).
  assert (String.length r3 = 6%nat) as Hl4 by lia. rewrite Hl4 in Eu, Hus. subst r3.
  replace (_ +:+ "T" +:+ _) with (jid_head y m d h mi s +:+ dec 6 us) in *
    by (unfold jid_head; by rewrite !string_app_assoc).
  unfold ID_Time in *. rewrite dotted_app in * by (apply jid_head_length || apply dec_length).
  destruct (Parse_jid _) as [t|] eqn:Ep; [|done]. exists t. split; [done|].
  destruct (Parse_jid_inv _ _ _ _ _ _ _ _ Hy Hm Hd Hh Hmi Hs Hus Ep) as (Hv & Hh' & Hmi' & Hs' & ->).
  destruct (Date_utc_fields y m d h mi s (us * 1000)) as (Hc & Hk & Hn); [done..|unfold Second; change (10 ^ Z.of_nat 6) with 1000000 in Hus; lia|].
  split_and!.
  - unfold four_digit. by rewrite Hc.
  - unfold Date_utc, Second, Microsecond. Z.div_mod_to_equations; lia.
  - unfold format. rewrite (Format_jid_fields _ _ _ _ _ _ _ Hy Hc Hk), undot by apply jid_head_length.
    rewrite Hn, Z.div_mul by done. done.
Qed.

Lemma format_fields t y m d h mi s :
  0 ≤ y < 10000 → civil (days_of (secs_of t)) = (y, m, d) → clock_of (secs_of t) = (h, mi, s) →
  format t = jid_head y m d h mi s +:+ dec 6 (Nanosec t / 1000).
Proof.
  intros Hy Hc Hk. unfold format.
  by rewrite (Format_jid_fields t _ _ _ _ _ _ Hy Hc Hk), undot by apply jid_head_length.
Qed.

(** A tuple that is smaller at its first difference has the smaller text. *)
Lemma jid_text_lt y m d h mi s us y' m' d' h' mi' s' us' :
  0 ≤ y < 10000 → 0 ≤ y' < 10000 → 0 ≤ m < 100 → 0 ≤ m' < 100 → 0 ≤ d < 100 → 0 ≤ d' < 100 →
  0 ≤ h < 100 → 0 ≤ h' < 100 → 0 ≤ mi < 100 → 0 ≤ mi' < 100 → 0 ≤ s < 100 → 0 ≤ s' < 100 →
  0 ≤ us < 1000000 → 0 ≤ us' < 1000000 →
  (y < y' ∨ (y = y' ∧ (m < m' ∨ (m = m' ∧ d < d')))) ∨
  (y = y' ∧ m = m' ∧ d = d' ∧
     ((h < h' ∨ (h = h' ∧ (mi < mi' ∨ (mi = mi' ∧ s < s')))) ∨ (h = h' ∧ mi = mi' ∧ s = s' ∧ us < us'))) →
  str_lt (jid_head y m d h mi s +:+ dec 6 us) (jid_head y' m' d' h' mi' s' +:+ dec 6 us').
Proof.
  intros. unfold str_lt, jid_head. rewrite !string_app_assoc.
  rewrite <- (string_app_nil_r (dec 6 us)), <- (string_app_nil_r (dec 6 us')).
  rewrite !dec_compare, compare_app, !dec_compare by (simpl; lia || done).
  rewrite !then_compare_Lt, !Z.compare_eq_iff, !Z.compare_lt_iff. simpl String.compare. naive_solver.
Qed.

Lemma format_lt t u :
  four_digit t → four_digit u → Truncate t Microsecond < Truncate u Microsecond → str_lt (format t) (format u).
Proof.
  unfold four_digit. intros Ht Hu Hlt.
  destruct (civil (days_of (secs_of t))) as [[y m] d] eqn:Hc, (clock_of (secs_of t)) as [[h mi] s] eqn:Hk.
  destruct (civil (days_of (secs_of u))) as [[y' m'] d'] eqn:Hc', (clock_of (secs_of u)) as [[h' mi'] s'] eqn:Hk'.
  rewrite (format_fields t _ _ _ _ _ _ Ht Hc Hk), (format_fields u _ _ _ _ _ _ Hu Hc' Hk').
  pose proof (clock_fields _ _ _ _ Hk) as (? & ? & ? & Es). pose proof (clock_fields _ _ _ _ Hk') as (? & ? & ? & Es').
  destruct (civil_valid (days_of (secs_of t))) as (? & ? & ? & E & [Hm Hd] & _). rewrite Hc in E. simplify_eq.
  destruct (civil_valid (days_of (secs_of u))) as (? & ? & ? & E & [Hm' Hd'] & _). rewrite Hc' in E. simplify_eq.
  pose proof (daysIn_bounds _ x Hm). pose proof (daysIn_bounds _ x2 Hm').
  assert (∀ v, 0 ≤ Nanosec v / 1000 < 1000000) as Hns.
  { intros v. unfold Nanosec, Second. Z.div_mod_to_equations; lia. }
  pose proof (Hns t). pose proof (Hns u).
  assert (secs_of t < secs_of u ∨ (secs_of t = secs_of u ∧ Nanosec t / 1000 < Nanosec u / 1000)) as Hcase.
  { unfold secs_of, Nanosec, Truncate, Microsecond, Second in *. Z.div_mod_to_equations; lia. }
  apply jid_text_lt; cbn [fst] in *; [lia..|].
  destruct Hcase as [Hs|[Hs Hus]].
  - destruct (decide (days_of (secs_of t) = days_of (secs_of u))) as [Ed|Ed].
    + right. rewrite Ed, Hc' in Hc. simplify_eq. split_and!; [done..|]. left. by eapply clock_lt.
    + left. eapply civil_lt; [done..|]. unfold days_of in *. Z.div_mod_to_equations; lia.
  - right. rewrite Hs in *. rewrite Hc' in Hc. rewrite Hk' in Hk. simplify_eq. split_and!; [done..|]. right. done.
Qed.

(** ** The clock *)

(** The first instant whose year has five digits. *)
Definition year10000 : Z := 315537897600 * Second.

Lemma four_digit_before t : 0 ≤ t < year10000 → four_digit t.
Proof.
  intros Ht. unfold four_digit.
  assert (0 ≤ days_of (secs_of t) < 3652059) as Hd.
  { unfold days_of, secs_of, year10000, Second in *. Z.div_mod_to_equations; lia. }
  unfold civil. destruct (month_go _ _ _) as [m d]. cbn [fst].
  pose proof (year_of_bounds (days_of (secs_of t))) as Hb.
  set (y := year_of _) in *. clearbody y. unfold year_days in Hb.
  split; apply Z.nlt_ge || apply Z.nle_gt; intros Hy; Z.div_mod_to_equations; lia.
Qed.

(** The instants the clock assigns. *)
Fixpoint clock_instants (last : Z) (readings : list Z) : list Z :=
  match readings with
  | [] => []
  | now :: readings' => let t := (Clock_Next last now).2 in t :: clock_instants t readings'
  end.

Lemma Clock_run_instants last readings : Clock_run last readings = format <$> clock_instants last readings.
Proof. revert last. induction readings as [|now rs IH]; intros last; [done|]. simpl. f_equal. apply IH. Qed.

Lemma Clock_Next_after last now :
  last mod Microsecond = 0 →
  let t := (Clock_Next last now).2 in
  last < t ∧ t mod Microsecond = 0 ∧ t ≤ Z.max (last + Microsecond) now.
Proof.
  intros Hl. cbn. unfold After. destruct (Z.ltb_spec last (Truncate now Microsecond)) as [Ht|Ht];
    unfold Truncate, Microsecond in *; Z.div_mod_to_equations; lia.
Qed.

Lemma clock_instants_spec readings last :
  0 ≤ last → last mod Microsecond = 0 →
  last + Z.of_nat (length readings) * Microsecond < year10000 →
  Forall (λ r, r + Z.of_nat (length readings) * Microsecond < year10000) readings →
  Forall (λ t, last < t < year10000 ∧ t mod Microsecond = 0) (clock_instants last readings) ∧
  StronglySorted Z.lt (clock_instants last readings).
Proof.
  revert last. induction readings as [|now rs IH]; intros last H0 Hl Hb Hr; [by split; constructor|].
  inversion Hr as [|? ? Hnow Hrs]; subst. cbn [length] in *. cbn [clock_instants].
  destruct (Clock_Next_after last now Hl) as (Hlt & Hm & Hmax). set (t := (Clock_Next last now).2) in *.
  clearbody t. rewrite Nat2Z.inj_succ in *. unfold Microsecond in *.
  destruct (IH t) as [Hall Hsort]; [lia|done|lia| |].
  { eapply Forall_impl; [done|]. simpl. lia. }
  split; constructor; [lia| |done|].
  - eapply Forall_impl; [done|]. simpl. lia.
  - eapply Forall_impl; [done|]. simpl. lia.
Qed.

(** The clock never repeats and never goes backwards: whatever the system
    clock reads, each identifier it assigns is valid, and is greater as text
    than every one before. *)
Theorem clock_never_repeats last readings :
  0 ≤ last → last mod Microsecond = 0 →
  last + Z.of_nat (length readings) * Microsecond < year10000 →
  Forall (λ r, r + Z.of_nat (length readings) * Microsecond < year10000) readings →
  StronglySorted str_lt (Clock_run last readings) ∧ Forall (λ id, ID_Valid id = true) (Clock_run last readings).
Proof.
  intros H0 Hl Hb Hr. destruct (clock_instants_spec readings last H0 Hl Hb Hr) as [Hall Hs].
  rewrite Clock_run_instants. set (l := clock_instants last readings) in *. clearbody l.
  induction Hs as [|t l Hs IH Hlt]; [by split; constructor|].
  inversion Hall as [|? ? [Ht Htm] Hall']; subst. destruct (IH Hall') as [IH1 IH2]. cbn [fmap list_fmap].
  assert (∀ u, u mod Microsecond = 0 → Truncate u Microsecond = u) as Htr by (unfold Truncate; lia).
  split; constructor; [done| |apply format_valid, four_digit_before; lia|done].
  apply Forall_fmap, Forall_forall. intros u Hu. simpl.
  rewrite Forall_forall in Hall', Hlt. destruct (Hall' _ Hu) as [? ?]. specialize (Hlt _ Hu).
  apply format_lt; [apply four_digit_before; lia..|]. by rewrite !Htr.
Qed.

Lemma clock_never_repeats_witness :
  StronglySorted str_lt (Clock_run 0 [63891; 5000; Date_utc 2026 8 19 14 22 11 23456789; 7]) ∧
  Forall (λ id, ID_Valid id = true) (Clock_run 0 [63891; 5000; Date_utc 2026 8 19 14 22 11 23456789; 7]).
Proof.
  apply clock_never_repeats; [lia|reflexivity|vm_compute; reflexivity|].
  repeat constructor; vm_compute; reflexivity.
Defined.

(** Identifiers and moments correspond one to one: reading a valid identifier
    gives the one microsecond it was written from, and writing it again gives
    the same text, so a jid has no second spelling. *)
Theorem id_roundtrip :
  (∀ t, 0 ≤ t < year10000 → ID_Valid (NewID t) = true ∧ ID_Time (NewID t) = Some (Truncate t Microsecond)) ∧
  (∀ id, ID_Valid id = true → ∃ t, ID_Time id = Some t ∧ t mod Microsecond = 0 ∧ NewID t = id).
Proof.
  split.
  - intros t Ht%four_digit_before. by rewrite format_valid, ID_Time_format.
  - intros id (t & Ht & _ & Hm & Hf)%valid_canonical. by exists t.
Qed.

(** ** The replay cache *)

(** What the cache holds is what it has in order, each key once, and no more
    than two keys per place. *)
Definition guard_wf (g : Guard) : Prop :=
  0 < gsize g < 2 ^ 61 ∧ seen g = list_to_set (order g) ∧ NoDup (order g) ∧
  Z.of_nat (length (order g)) ≤ 2 * gsize g.

Lemma evict_spec L s o :
  s = list_to_set o → NoDup o → 0 ≤ L →
  ∃ o', evict L s o = (list_to_set o', o') ∧ o' = drop (length o - Z.to_nat L) o.
Proof.
  revert s. induction o as [|x o IH]; intros s -> Hnd HL; [by exists []|].
  apply NoDup_cons in Hnd as [Hx Hnd]. cbn [evict length].
  destruct (Z.ltb_spec L (Z.of_nat (S (length o)))).
  - destruct (IH (list_to_set (x :: o) ∖ {[x]})) as (o' & -> & ->); [simpl; set_solver|done|done|].
    eexists. split; [done|]. replace (S (length o) - Z.to_nat L)%nat with (S (length o - Z.to_nat L)) by lia. done.
  - eexists. split; [done|]. replace (S (length o) - Z.to_nat L)%nat with 0%nat by lia. done.
Qed.

Lemma NoDup_drop_ {A} n (l : list A) : NoDup l → NoDup (drop n l).
Proof. rewrite <- (take_drop n l) at 1. by intros (_ & _ & ?)%NoDup_app. Qed.

(** Recording keeps the newest [2 * gsize] keys. *)
Lemma record_spec g key :
  guard_wf g → key ∉ seen g →
  guard_wf (record g key) ∧ gsize (record g key) = gsize g ∧
  order (record g key) = drop (S (length (order g)) - Z.to_nat (2 * gsize g)) (order g ++ [key]).
Proof.
  intros (Hsz & Hseen & Hnd & Hlen) Hk. unfold record.
  assert (wrap64 (gsize g * 2) = 2 * gsize g) as ->.
  { unfold wrap64. rewrite Z.mod_small by lia. lia. }
  assert (NoDup (order g ++ [key])) as Hnd'.
  { apply NoDup_app. split_and!; [done| |apply NoDup_singleton].
    intros x Hx ->%list_elem_of_singleton. apply Hk. rewrite Hseen. by apply elem_of_list_to_set. }
  destruct (evict_spec (2 * gsize g) ({[key]} ∪ seen g) (order g ++ [key])) as (o' & -> & Eo); [|done|lia|].
  { rewrite Hseen, list_to_set_app_L. simpl. set_solver. }
  rewrite length_app, Nat.add_1_r in Eo. cbn [gsize seen order]. split_and!; [|done|done].
  split_and!; cbn [gsize seen order]; [lia|lia|done|subst o'; by apply NoDup_drop_|].
  subst o'. rewrite length_drop, length_app. simpl. lia.
Qed.

Lemma NewGuard_wf sz : sz < 2 ^ 61 → guard_wf (NewGuard sz).
Proof.
  intros. unfold NewGuard, guard_wf, DefaultGuardSize. cbn [gsize seen order].
  destruct (Z.leb_spec sz 0); (split_and!; [lia|lia|done|constructor|simpl; lia]).
Qed.

Section guard_props.
Context `{GoRuntime V}.

Lemma keys_differ j : jid_key j ≠ nonce_key j.
Proof. done. Qed.

Definition admitted (g : Guard) (j : Job) (now : Z) : Prop :=
  precheck (Some j) now = None ∧ (jid_key j ∉ seen g) ∧ (nonce_key j ∉ seen g).

Lemma Guard_Admit_cases g j now :
  ((Guard_Admit g (Some j) now).1 = None ∧ admitted g j now ∧
     (Guard_Admit g (Some j) now).2 = record (record g (jid_key j)) (nonce_key j)) ∨
  (is_Some (Guard_Admit g (Some j) now).1 ∧ (Guard_Admit g (Some j) now).2 = g).
Proof.
  unfold Guard_Admit, guard_check, admitted. destruct (precheck _ _); [by right|].
  destruct (decide (jid_key j ∈ seen g)) as [?|?]; [rewrite bool_decide_true by done; by right|].
  rewrite bool_decide_false by done.
  destruct (decide (nonce_key j ∈ seen g)) as [?|?]; [rewrite bool_decide_true by done; by right|].
  rewrite bool_decide_false by done. by left.
Qed.

(** After two records the order is the newest keys of the old order and both. *)
Lemma record2_spec g j :
  guard_wf g → jid_key j ∉ seen g → nonce_key j ∉ seen g →
  let g' := record (record g (jid_key j)) (nonce_key j) in
  guard_wf g' ∧ gsize g' = gsize g ∧
  order g' = drop (length (order g) + 2 - Z.to_nat (2 * gsize g)) (order g ++ [jid_key j; nonce_key j]).
Proof.
  intros Hg Hj Hn. destruct (record_spec g (jid_key j) Hg Hj) as (Hg1 & Hs1 & Ho1).
  assert (nonce_key j ∉ seen (record g (jid_key j))) as Hn1.
  { destruct Hg as (_ & Hseen & _), Hg1 as (_ & -> & _). rewrite Ho1.
    rewrite elem_of_list_to_set. intros Hin%(subseteq_drop _ _ _).
    rewrite elem_of_app, list_elem_of_singleton in Hin. destruct Hin as [Hin|Hin]; [|done].
    apply Hn. rewrite Hseen. by apply elem_of_list_to_set. }
  destruct (record_spec _ _ Hg1 Hn1) as (Hg2 & Hs2 & Ho2).
  split_and!; [done|congruence|]. rewrite Ho2, Hs1, Ho1. destruct Hg as (Hsz & _ & _ & Hlen).
  rewrite length_drop, length_app. simpl length.
  replace (order g ++ [jid_key j; nonce_key j]) with ((order g ++ [jid_key j]) ++ [nonce_key j])
    by (by rewrite <- (assoc_L (++))).
  rewrite <- drop_app_le by (rewrite length_app; simpl; lia). rewrite drop_drop. f_equal. lia.
Qed.

(** *** Admission over a sequence of jobs *)

(** Which of the jobs offered in turn are admitted, and the cache afterwards. *)
Fixpoint Admit_all (g : Guard) (js : list (Job * Z)) : list (option Refusal) * Guard :=
  match js with
  | [] => ([], g)
  | (j, now) :: js' =>
      let '(r, g') := Guard_Admit g (Some j) now in
      let '(rs, g'') := Admit_all g' js' in (r :: rs, g'')
  end.

Definition accepted (rs : list (option Refusal)) : nat := length (filter (λ r, r = None) rs).

Lemma Admit_wf g j now : guard_wf g → guard_wf (Guard_Admit g (Some j) now).2.
Proof.
  intros Hg. destruct (Guard_Admit_cases g j now) as [(_ & (_ & Hj & Hn) & ->)|[_ ->]]; [|done].
  by apply record2_spec.
Qed.

(** A key with room behind it survives as many admissions as the room holds. *)
Lemma Admit_all_keeps js g key i :
  guard_wf g → order g !! i = Some key →
  (length (order g) - i + 2 * accepted (Admit_all g js).1 ≤ Z.to_nat (2 * gsize g))%nat →
  key ∈ order (Admit_all g js).2 ∧ guard_wf (Admit_all g js).2.
Proof.
  revert g i. induction js as [|[j now] js IH]; intros g i Hg Hi Hroom; cbn [Admit_all] in *.
  - split; [by eapply list_elem_of_lookup_2|done].
  - destruct (Guard_Admit g (Some j) now) as [r g'] eqn:E.
    destruct (Admit_all g' js) as [rs g''] eqn:E'. cbn [fst snd] in *.
    pose proof (Guard_Admit_cases g j now) as Hc. rewrite E in Hc. cbn [fst snd] in Hc.
    destruct Hc as [(-> & (_ & Hj & Hn) & ->)|[[r' ->] ->]].
    + destruct (record2_spec g j Hg Hj Hn) as (Hg2 & Hs2 & Ho2).
      set (g1 := record _ _) in *. unfold accepted in Hroom. rewrite filter_cons_True in Hroom by done.
      cbn [length] in Hroom. destruct Hg as (Hsz & _ & _ & Hlen).
      pose proof (lookup_lt_Some _ _ _ Hi) as Hlt.
      specialize (IH g1 (i - (length (order g) + 2 - Z.to_nat (2 * gsize g)))%nat Hg2).
      rewrite E' in IH. cbn [fst snd] in IH. apply IH.
      * rewrite Ho2, lookup_drop, lookup_app_l by lia. rewrite <- Hi. f_equal. lia.
      * rewrite Ho2, length_drop, length_app, Hs2. unfold accepted. simpl length. lia.
    + unfold accepted in Hroom. rewrite filter_cons_False in Hroom by done.
      specialize (IH g i Hg Hi). rewrite E' in IH. by apply IH.
Qed.

Lemma Admit_all_wf js g : guard_wf g → guard_wf (Admit_all g js).2 ∧ gsize (Admit_all g js).2 = gsize g.
Proof.
  revert g. induction js as [|[j now] js IH]; intros g Hg; [done|]. cbn [Admit_all].
  destruct (Guard_Admit g (Some j) now) as [r g'] eqn:E.
  assert (guard_wf g' ∧ gsize g' = gsize g) as [Hg' <-].
  { pose proof (Guard_Admit_cases g j now) as Hc. rewrite E in Hc. cbn [fst snd] in Hc.
    destruct Hc as [(_ & (_ & Hj & Hn) & ->)|[_ ->]]; [|done].
    destruct (record2_spec g j Hg Hj Hn) as (? & ? & _). done. }
  specialize (IH g' Hg'). by destruct (Admit_all g' js).
Qed.

(** Both keys of a job just admitted are the newest two. *)
Lemma Admit_newest g j now :
  guard_wf g → (Guard_Admit g (Some j) now).1 = None →
  let o := order (Guard_Admit g (Some j) now).2 in
  o !! (length o - 2)%nat = Some (jid_key j) ∧ o !! (length o - 1)%nat = Some (nonce_key j).
Proof.
  intros Hg Hok. destruct (Guard_Admit_cases g j now) as [(_ & (_ & Hj & Hn) & ->)|[[? E] _]]; [|congruence].
  destruct (record2_spec g j Hg Hj Hn) as (_ & _ & ->). destruct Hg as (Hsz & _ & _ & Hlen).
  set (n := (length (order g) + 2 - Z.to_nat (2 * gsize g))%nat).
  assert (n ≤ length (order g))%nat by lia. cbn zeta.
  rewrite !lookup_drop, !length_drop, !length_app. simpl length.
  rewrite !lookup_app_r by lia. split.
  - by replace (n + (length (order g) + 2 - n - 2) - length (order g))%nat with 0%nat by lia.
  - by replace (n + (length (order g) + 2 - n - 1) - length (order g))%nat with 1%nat by lia.
Qed.

Lemma seen_refused g j now :
  jid_key j ∈ seen g ∨ nonce_key j ∈ seen g →
  ∃ r, Guard_Admit g (Some j) now = (Some r, g) ∧ (precheck (Some j) now = None → Reason r = ReasonReplayed).
Proof.
  intros Hin. unfold Guard_Admit, guard_check. destruct (precheck _ _) as [r|]; [by exists r|].
  assert (bool_decide (jid_key j ∈ seen g) || bool_decide (nonce_key j ∈ seen g) = true) as ->; [|by eexists].
  rewrite orb_true_iff, !bool_decide_eq_true. done.
Qed.

(** The in-memory replay cache: a job that was admitted is refused when its
    jid or its nonce comes again, while fewer than [size] other jobs have been
    admitted since, whatever else was offered; a refusal changes nothing, and
    the cache never holds more than twice its size in keys. *)
Theorem guard_refuses_replay g j now js j' now' :
  guard_wf g → (Guard_Admit g (Some j) now).1 = None →
  let '(rs, g') := Admit_all (Guard_Admit g (Some j) now).2 js in
  Z.of_nat (accepted rs) < gsize g →
  JID j' = JID j ∨ Nonce j' = Nonce j →
  Z.of_nat (Guard_Len g') ≤ 2 * gsize g ∧
  ∃ r, Guard_Admit g' (Some j') now' = (Some r, g') ∧
       (precheck (Some j') now' = None → Reason r = ReasonReplayed).
Proof.
  intros Hg Hok. set (g1 := (Guard_Admit g (Some j) now).2).
  destruct (Admit_all g1 js) as [rs g'] eqn:E. intros Hacc Hsame.
  assert (guard_wf g1 ∧ gsize g1 = gsize g) as [Hg1 Hs1].
  { pose proof (Admit_all_wf [(j, now)] g Hg) as Hw. cbn [Admit_all] in Hw.
    subst g1. by destruct (Guard_Admit g (Some j) now). }
  destruct (Admit_newest g j now Hg Hok) as [Hj Hn]. fold g1 in Hj, Hn.
  pose proof (lookup_lt_Some _ _ _ Hj) as Hlt.
  assert (∀ key i, order g1 !! i = Some key → (length (order g1) - 2 ≤ i)%nat → key ∈ seen g') as Hkeep.
  { intros key i Hi Hle. destruct (Admit_all_keeps js g1 key i Hg1 Hi) as [Hin (_ & Hse & _)].
    - rewrite E, Hs1. cbn [fst]. destruct Hg as (Hsz & _). lia.
    - rewrite E in Hin, Hse. cbn [snd] in *. rewrite Hse. by apply elem_of_list_to_set. }
  split.
  - pose proof (Admit_all_wf js g1 Hg1) as [(_ & Hse & Hnd & Hlen) Hsz]. rewrite E in *. cbn [snd] in *.
    unfold Guard_Len. rewrite Hse, size_list_to_set by done. lia.
  - apply seen_refused. destruct Hsame as [Hs|Hs].
    + left. unfold jid_key. rewrite Hs. eapply Hkeep; [exact Hj|lia].
    + right. unfold nonce_key. rewrite Hs. eapply Hkeep; [exact Hn|lia].
Qed.

(** Check answers what Admit would and leaves the cache as it was. *)
Lemma Check_is_Admit g j now : Guard_Check g j now = ((Guard_Admit g j now).1, g).
Proof.
  unfold Guard_Check, Guard_Admit, guard_check.
  destruct (precheck j now); [done|]. destruct j as [j|]; [|done]. by destruct (_ || _).
Qed.

(** The expiry is looked at before the cache: a job that was run and has expired
    since is refused as expired. *)
Lemma expired_before_replayed g j now :
  JID j ≠ "" → ID_Valid (JID j) = true → Nonce j ≠ "" → Expired j now = true →
  ∃ d, Guard_Admit g (Some j) now = (Some (mkRefusal ReasonExpired d), g).
Proof.
  intros Hj Hv Hn He. unfold Guard_Admit, guard_check, precheck.
  rewrite !bool_decide_false, Hv, He by done. by eexists.
Qed.
End guard_props.

(** ** Concrete jobs *)

#[local] Existing Instance demo_runtime.

Definition demo_job (jid nonce fun_ : string) (expires : Z) : Job :=
  mkJob jid fun_ [] [] "" nonce expires 0 "" "" "" "" "*" "glob" [] "" "" false (mkBatch 0 0 0 0) [] [] "" "".
Definition demo_now : Z := Date_utc 2026 8 19 14 22 11 0.
Definition demo_ping : Job := demo_job "20260819T142211023456" "n1" "test.ping" (demo_now + Hour).
Definition demo_other : Job := demo_job "20260819T142212000000" "n2" "test.ping" (demo_now + Hour).

Lemma guard_refuses_replay_witness :
  ∃ r, let g := (Admit_all (Guard_Admit (NewGuard 2) (Some demo_ping) demo_now).2
                   [(demo_other, demo_now); (demo_other, demo_now)]).2 in
       Guard_Admit g (Some demo_ping) demo_now = (Some r, g) ∧ Reason r = ReasonReplayed.
Proof.
  assert (guard_wf (NewGuard 2)) as Hwf by (apply NewGuard_wf; lia).
  assert ((Guard_Admit (NewGuard 2) (Some demo_ping) demo_now).1 = None) as Hok by (vm_compute; reflexivity).
  pose proof (guard_refuses_replay (NewGuard 2) demo_ping demo_now
    [(demo_other, demo_now); (demo_other, demo_now)] demo_ping demo_now Hwf Hok) as Hth.
  cbn zeta. destruct (Admit_all _ _) as [rs g'] eqn:E.
  assert (accepted rs = 1%nat) as Hacc.
  { transitivity (accepted (rs, g').1); [done|]. rewrite <- E. vm_compute. reflexivity. }
  destruct Hth as (_ & r & Hr & Hreason); [rewrite Hacc; reflexivity|left; reflexivity|].
  exists r. split; [exact Hr|]. apply Hreason. vm_compute. reflexivity.
Defined.
