(* ===== verification/SignedReplay.v ===== *)
(** * The on-disk record of signed jobs

    Models src/internal/job/signedreplay.go over a file system that may fail
    at every call: the file is its contents or nothing, and each call is given
    what the system answers ([IO]), a short write included.  A crash is a call
    that failed where the machine stopped, followed by [Restart].  The order
    in which a Go map is walked when the file is rewritten is a parameter,
    [iter]. *)

From S2P Require Import Prelude GoLib GoTime Value Job.

Open Scope Z_scope.

(** ** The lines of the file *)

Definition formatSignedReplayLine (jid : string) (expires : Z) : string :=
  let at_ := if negb (IsZero expires) then Format_RFC3339Nano expires else "never" in
  jid +:+ " " +:+ at_ +:+ String "010" "".

Inductive line_error := NotLine | NotTimestamp.

Definition parseSignedReplayLine (line : string) : line_error + string * Z :=
  match Cut " " line with
  | Some (jid, at_) =>
      if negb (ID_Valid jid) then inl NotLine
      else if bool_decide (at_ = "never") then inr (jid, 0)
      else match Parse_RFC3339Nano at_ with
           | Some expires => inr (jid, expires)
           | None => inl NotTimestamp
           end
  | None => inl NotLine
  end.

(** ** The record *)

Definition SignedReplayRetention : Z := 24 * Hour.
Definition signedReplayCompactAt : Z := 1024.

(** Why the record could not be loaded, or written. *)
Inductive sr_error := ReadFailed | BadLine (line : nat) (e : line_error) | WriteFailed.

Record SignedReplay := mkSR {
  sr_seen : gmap string Z; sr_lines : Z; sr_loaded : bool; sr_err : option sr_error; compactAt : Z }.

Definition NewSignedReplay (compact : Z) : SignedReplay := mkSR ∅ 0 false None compact.

(** What the system answers to the calls of one Admit: whether the file can be
    read; for each rewrite, whether the directory can be made and the
    replacement succeeds; and for the append, how far it gets.  [write] is the
    number of bytes written when the write fails. *)
Record RewriteIO := mkRW { mkdir_ok : bool; replace_ok : bool }.
Record IO := mkIO {
  read_ok : bool; on_load : RewriteIO; on_compact : RewriteIO;
  dir_ok : bool; open_ok : bool; write : option nat; sync_ok : bool; close_ok : bool }.

(** The file and the process's record of it. *)
Record sr_state := mkSt { file : option string; mem : SignedReplay }.

Inductive admit_result :=
| Accepted
| RefusedJob (r : Refusal)
| NotRecorded (e : sr_error).

Section replay.
(** The order a Go map is walked in. *)
Context (iter : gmap string Z → list (string * Z)).

Definition set_mem (s : SignedReplay) (seen : gmap string Z) (lines : Z) (err : option sr_error) : SignedReplay :=
  mkSR seen lines (sr_loaded s) err (compactAt s).

(** rewrite replaces the file with the live entries; a replacement that fails
    leaves the old file. *)
Definition file_lines (seen : gmap string Z) : string :=
  foldr (λ e b, formatSignedReplayLine e.1 e.2 +:+ b) "" (iter seen).

Definition rewrite (io : RewriteIO) (st : sr_state) : bool * sr_state :=
  if negb (mkdir_ok io) then (false, st)
  else if negb (replace_ok io) then (false, st)
  else (true, mkSt (Some (file_lines (sr_seen (mem st))))
                   (set_mem (mem st) (sr_seen (mem st)) (Z.of_nat (size (sr_seen (mem st)))) (sr_err (mem st)))).

Definition live (now : Z) (e : Z) : Prop := ¬ (e ≠ 0 ∧ e < now - SignedReplayRetention).
#[global] Instance live_dec now e : Decision (live now e) := _.

Definition prune (now : Z) (s : SignedReplay) : SignedReplay :=
  set_mem s (filter (λ p : string * Z, live now p.2) (sr_seen s)) (sr_lines s) (sr_err s).

(** The loop of load over the lines, [i] counting from one. *)
Fixpoint read_lines (complete : bool) (i : nat) (lines : list string) (seen : gmap string Z) (n : Z)
    : gmap string Z * Z * option sr_error :=
  match lines with
  | [] => (seen, n, None)
  | line :: lines' =>
      if bool_decide (line = "") then read_lines complete (S i) lines' seen n
      else match parseSignedReplayLine line with
           | inl e =>
               if bool_decide (lines' = []) && negb complete then (seen, n, None)
               else (seen, n, Some (BadLine i e))
           | inr (jid, expires) => read_lines complete (S i) lines' (<[jid := expires]> seen) (n + 1)
           end
  end.

Definition load (io : IO) (now : Z) (st : sr_state) : option sr_error * sr_state :=
  let s := mem st in
  if sr_loaded s then (sr_err s, st)
  else
    let s0 := mkSR ∅ (sr_lines s) true (sr_err s) (compactAt s) in
    if negb (read_ok io) then (Some ReadFailed, mkSt (file st) (set_mem s0 ∅ (sr_lines s0) (Some ReadFailed)))
    else match file st with
    | None => (None, mkSt None s0)
    | Some text =>
        let nl := String "010" "" in
        let complete := HasSuffix text nl || bool_decide (text = "") in
        let lines := Split (TrimSuffix text nl) nl in
        match read_lines complete 1 lines ∅ (sr_lines s0) with
        | (seen, n, Some e) => (Some e, mkSt (file st) (set_mem s0 seen n (Some e)))
        | (seen, n, None) =>
            let s1 := prune now (set_mem s0 seen n (sr_err s0)) in
            if (Z.of_nat (size (sr_seen s1)) <? sr_lines s1) || negb complete then
              match rewrite (on_load io) (mkSt (file st) s1) with
              | (true, st') => (None, st')
              | (false, st') =>
                  (Some WriteFailed,
                   mkSt (file st') (set_mem (mem st') (sr_seen (mem st')) (sr_lines (mem st')) (Some WriteFailed)))
              end
            else (None, mkSt (file st) s1)
        end
    end.

(** append writes one line and syncs it: whether it succeeded, and the state. *)
Definition append (io : IO) (jid : string) (expires : Z) (st : sr_state) : bool * sr_state :=
  let limit := if 0 <? compactAt (mem st) then compactAt (mem st) else signedReplayCompactAt in
  let '(ok, st) :=
    if limit <? sr_lines (mem st) - Z.of_nat (size (sr_seen (mem st))) then rewrite (on_compact io) st
    else (true, st) in
  if negb ok then (false, st)
  else if negb (dir_ok io) then (false, st)
  else if negb (open_ok io) then (false, st)
  else
    let text := default "" (file st) in
    let line := formatSignedReplayLine jid expires in
    match write io with
    | Some n => (false, mkSt (Some (text +:+ stake n line)) (mem st))
    | None =>
        let st := mkSt (Some (text +:+ line)) (mem st) in
        if negb (sync_ok io) then (false, st)
        else if negb (close_ok io) then (false, st)
        else (true, mkSt (file st) (set_mem (mem st) (sr_seen (mem st)) (sr_lines (mem st) + 1) (sr_err (mem st))))
    end.

Definition SR_Admit (io : IO) (now : Z) (j : option Job) (st : sr_state) : admit_result * sr_state :=
  match j with
  | None => (RefusedJob (mkRefusal ReasonMalforme "the job carries no identifier"), st)
  | Some j =>
      if bool_decide (JID j = "") then (RefusedJob (mkRefusal ReasonMalforme "the job carries no identifier"), st)
      else match load io now st with
      | (Some e, st) => (NotRecorded e, st)
      | (None, st) =>
          match sr_seen (mem st) !! JID j with
          | Some _ =>
              (RefusedJob (mkRefusal ReasonReplayed
                 ("this node has already accepted the signed job " +:+ JID j)), st)
          | None =>
              match append io (JID j) (Expires j) st with
              | (false, st) => (NotRecorded WriteFailed, st)
              | (true, st) =>
                  let s := mem st in
                  (Accepted, mkSt (file st)
                     (prune now (set_mem s (<[JID j := Expires j]> (sr_seen s)) (sr_lines s) (sr_err s))))
              end
          end
      end
  end.

Definition SR_Seen (io : IO) (now : Z) (id : string) (st : sr_state) : bool * sr_state :=
  match load io now st with
  | (Some _, st) => (false, st)
  | (None, st) => (bool_decide (is_Some (sr_seen (mem st) !! id)), st)
  end.

Definition SR_Len (st : sr_state) : nat := size (sr_seen (mem st)).

(** The process ends and another starts on the same file. *)
Definition restart (st : sr_state) : sr_state := mkSt (file st) (NewSignedReplay (compactAt (mem st))).

Inductive event :=
| EAdmit (io : IO) (now : Z) (j : Job)
| ESeen (io : IO) (now : Z) (id : string)
| ERestart.

Definition step (ev : event) (st : sr_state) : option admit_result * sr_state :=
  match ev with
  | EAdmit io now j => let '(r, st') := SR_Admit io now (Some j) st in (Some r, st')
  | ESeen io now id => (None, (SR_Seen io now id st).2)
  | ERestart => (None, restart st)
  end.

Fixpoint run (evs : list event) (st : sr_state) : list (option admit_result) * sr_state :=
  match evs with
  | [] => ([], st)
  | ev :: evs' => let '(r, st') := step ev st in let '(rs, st'') := run evs' st' in (r :: rs, st'')
  end.
End replay.

(** ** What a line can be read as *)

(** Neither a space nor the end of a line. *)
Definition plain_char (a : ascii) : Prop := a ≠ " "%char ∧ a ≠ "010"%char.
Definition plain (s : string) : Prop := sall plain_char s.

Lemma plain_app s t : plain (s +:+ t) ↔ plain s ∧ plain t.
Proof. apply sall_app. Qed.

Lemma digit_not_space a x : digit_of a = Some x → plain_char a.
Proof. intros H. by split; intros ->. Qed.

Lemma digits_go_plain s acc x : digits_go acc s = Some x → plain s.
Proof.
  revert acc. induction s as [|a s IH]; intros acc; [done|]. cbn [digits_go].
  destruct (digit_of a) as [d|] eqn:E; [|done]. simpl. intros Hs.
  split; [by eapply digit_not_space|by eapply IH].
Qed.

Lemma time_atoi_plain s x : time_atoi s = Some x → plain s.
Proof.
  destruct s as [|a s]; [done|].
  assert (digits_go 0 (String a s) = Some x → plain (String a s)) as Hd by apply digits_go_plain.
  assert (∀ b y, plain_char b → digits_go 0 s = Some y → plain (String b s)) as Hs.
  { intros b y Hb Hy. split; [done|by eapply digits_go_plain]. }
  unfold time_atoi. intros Hx.
  destruct (decide (a = "-"%char)) as [->|Hm].
  { destruct (digits_go 0 s) as [y|] eqn:E; [|done]. eapply Hs; [by split|done]. }
  destruct (decide (a = "+"%char)) as [->|Hp]; [eapply Hs; [by split|done]|].
  apply Hd. revert Hx. destruct a as [[] [] [] [] [] [] [] []]; done.
Qed.

(** Each parser leaves no space in what it has read. *)
Lemma getnum_plain s b x r : getnum s b = Some (x, r) → plain r → plain s.
Proof.
  destruct s as [|a s]; [done|]. cbn [getnum]. destruct (digit_of a) as [d|] eqn:E; [|done]. simpl.
  apply digit_not_space in E. destruct s as [|c s].
  - destruct b; [done|]. by intros [= <- <-].
  - destruct (digit_of c) as [d'|] eqn:E'.
    + intros [= <- <-] Hr. apply digit_not_space in E'. by split_and!.
    + destruct b; [done|]. intros [= <- <-] Hr. by split.
Qed.

Lemma getrange_plain s b lo hi x r : getrange s b lo hi = Some (x, r) → plain r → plain s.
Proof.
  unfold getrange. destruct (getnum s b) as [[n r']|] eqn:E; [|done]. simpl.
  destruct (in_range lo hi n); [|done]. intros [= <- <-]. by eapply getnum_plain.
Qed.

Lemma expect_plain c s r : plain_char c → expect c s = Some r → plain r → plain s.
Proof.
  intros Hc. destruct s as [|a s]; [done|]. simpl. destruct (decide (a = c)) as [->|]; [|done].
  intros [= <-] Hr. by split.
Qed.

Lemma parse_year_plain s y r : parse_year s = Some (y, r) → plain r → plain s.
Proof.
  destruct s as [|a s]; [done|]. unfold parse_year. destruct (_ && _); [|done].
  destruct (time_atoi (stake 4 (String a s))) as [x|] eqn:E; [|done]. cbn [mbind option_bind].
  intros [= <- <-] Hr. rewrite <- (stake_sdrop 4 (String a s)). apply plain_app. split; [|done].
  by eapply time_atoi_plain.
Qed.

Lemma digit_run_plain s : plain (sdrop (digit_run s) s) → plain s.
Proof.
  induction s as [|a s IH]; [done|]. cbn [digit_run]. destruct (isDigit a) eqn:E; [|done].
  cbn [sdrop]. intros Hs. split; [|by apply IH]. by split; intros ->.
Qed.

Lemma opt_frac_plain v ns r : opt_frac v = Some (ns, r) → plain r → plain v.
Proof.
  unfold opt_frac. destruct v as [|a [|b v]]; [by intros [= <- <-]..|].
  destruct (commaOrPeriod a && isDigit b) eqn:E; [|by intros [= <- <-]].
  destruct (parseNanoseconds _ _) as [x|]; [|done]. simpl. intros [= <- <-] Hr.
  apply andb_true_iff in E as [Ha Hb].
  split; [|by apply digit_run_plain]. by split; intros ->.
Qed.

Lemma parse_zone_plain v off r : parse_zone v = Some (off, r) → plain r → plain v.
Proof.
  destruct v as [|a v]; [done|]. unfold parse_zone.
  destruct (decide (a = "Z"%char)) as [->|Hz]; [intros [= <- <-] Hr; by split|].
  destruct (getrange v true 0 24) as [[h r1]|] eqn:E1; [|done]. cbn [mbind option_bind].
  destruct (expect ":" r1) as [r2|] eqn:E2; [|done]. cbn [mbind option_bind].
  destruct (getrange r2 true 0 60) as [[m r3]|] eqn:E3; [|done]. cbn [mbind option_bind].
  intros Hp Hr. assert (r3 = r ∧ plain_char a) as [-> Ha].
  { destruct (decide (a = "+"%char)) as [->|]; [by simplify_eq|].
    destruct (decide (a = "-"%char)) as [->|]; [by simplify_eq|done]. }
  split; [done|]. eapply getrange_plain; [exact E1|]. eapply expect_plain; [|exact E2|]; [done|].
  by eapply getrange_plain.
Qed.

Lemma Parse_RFC3339Nano_plain v t : Parse_RFC3339Nano v = Some t → plain v.
Proof.
  unfold Parse_RFC3339Nano. intros Hp.
  repeat match type of Hp with
  | (?x ≫= _) = _ => let E := fresh "E" in destruct x as [?|] eqn:E; [|done]; cbn [mbind option_bind] in Hp
  | (let '(_, _) := ?p in _) = _ => destruct p
  end.
  case_bool_decide as Ev; [|done]. subst.
  repeat match goal with
  | E : parse_zone _ = Some (_, "") |- _ => apply parse_zone_plain in E; [|done]
  | E : opt_frac _ = Some (_, ?r), H : plain ?r |- _ => apply opt_frac_plain in E; [|done]
  | E : getrange _ _ _ _ = Some (_, ?r), H : plain ?r |- _ => apply getrange_plain in E; [|done]
  | E : getnum _ _ = Some (_, ?r), H : plain ?r |- _ => apply getnum_plain in E; [|done]
  | E : expect _ _ = Some ?r, H : plain ?r |- _ => apply expect_plain in E; [|done..]
  | E : parse_year _ = Some (_, ?r), H : plain ?r |- _ => apply parse_year_plain in E; [|done]
  end.
  done.
Qed.

Definition line_body (jid : string) (expires : Z) : string :=
  jid +:+ " " +:+ (if negb (IsZero expires) then Format_RFC3339Nano expires else "never").

Lemma format_line jid e : formatSignedReplayLine jid e = line_body jid e +:+ String "010" "".
Proof. unfold formatSignedReplayLine, line_body. by rewrite !string_app_assoc. Qed.

Lemma Cut_app s r : plain s → Cut " " (s +:+ " " +:+ r) = Some (s, r).
Proof.
  induction s as [|a s IH]; [done|]. intros [[Ha _] Hs].
  change (String a s +:+ " " +:+ r) with (String a (s +:+ " " +:+ r)). cbn [Cut].
  destruct (decide (a = " "%char)); [done|]. by rewrite IH.
Qed.

Lemma Cut_inv s : match Cut " " s with
  | Some (x, y) => s = x +:+ " " +:+ y
  | None => sall (λ a, a ≠ " "%char) s
  end.
Proof.
  induction s as [|a s IH]; [done|]. cbn [Cut]. destruct (decide (a = " "%char)) as [->|]; [done|].
  destruct (Cut " " s) as [[x y]|]; cbn [mbind option_bind]; [by rewrite IH|by split].
Qed.

Lemma Cut_mono s x y r : Cut " " s = Some (x, y) → Cut " " (s +:+ r) = Some (x, y +:+ r).
Proof.
  revert x y. induction s as [|a s IH]; intros x y; [done|].
  change (String a s +:+ r) with (String a (s +:+ r)). cbn [Cut].
  destruct (decide (a = " "%char)); [by intros [= <- <-]|].
  destruct (Cut " " s) as [[x' y']|]; [|done]. cbn [mbind option_bind]. intros [= <- <-].
  by rewrite (IH _ _ eq_refl).
Qed.

Lemma Cut_none s x y r : Cut " " s = None → Cut " " r = Some (x, y) → Cut " " (s +:+ r) = Some (s +:+ x, y).
Proof.
  intros Hs Hr. induction s as [|a s IH]; [done|].
  change (String a s +:+ r) with (String a (s +:+ r)). cbn [Cut] in *.
  destruct (decide (a = " "%char)); [done|]. destruct (Cut " " s) as [[]|]; [done|].
  by rewrite IH.
Qed.

Lemma all_digits_plain s : all_digits s = true → plain s.
Proof.
  induction s as [|a s IH]; [done|]. cbn [all_digits]. intros [Ha Hs]%andb_true_iff.
  split; [by split; intros ->|by apply IH].
Qed.

Lemma valid_plain id : ID_Valid id = true → plain id ∧ String.length id = 21%nat.
Proof.
  unfold ID_Valid. rewrite !andb_true_iff, Nat.eqb_eq. intros [[Hl Hb] _]. split; [|done].
  destruct (valid_bytes_split 0 id) as (d & r & -> & _ & Hd & Hr); [lia|done|lia|].
  apply plain_app. split; [by apply all_digits_plain|]. apply plain_app.
  split; [by repeat split|by apply all_digits_plain].
Qed.

(** The expiries a line can carry: none, or a moment of a four-digit year. *)
Definition writable (e : Z) : Prop := e = 0 ∨ four_digit e.

(** What is written is read back. *)
Lemma parse_line jid e : ID_Valid jid = true → writable e → parseSignedReplayLine (line_body jid e) = inr (jid, e).
Proof.
  intros Hj He. unfold parseSignedReplayLine, line_body.
  rewrite Cut_app by (by apply valid_plain). rewrite Hj. simpl negb. cbn iota.
  unfold IsZero. destruct (Z.eqb_spec e 0) as [->|Hz]; [done|]. simpl negb. cbn iota.
  destruct He as [|He]; [done|]. pose proof (Parse_Format_RFC3339Nano e He) as Hp.
  rewrite bool_decide_false, Hp; [done|]. intros E. by rewrite E in Hp.
Qed.

(** A line that is written after the torn end of another is not read as one. *)
Lemma glued_line tail jid e :
  tail ≠ "" → ID_Valid jid = true → ∃ err, parseSignedReplayLine (tail +:+ line_body jid e) = inl err.
Proof.
  intros Ht Hj. destruct (valid_plain jid Hj) as [Hpl Hlen]. unfold parseSignedReplayLine.
  assert (∃ rest, Cut " " (line_body jid e) = Some (jid, rest)) as [rest Hc].
  { eexists. unfold line_body. by rewrite Cut_app. }
  destruct (Cut " " tail) as [[x y]|] eqn:E.
  - rewrite (Cut_mono _ _ _ _ E). destruct (ID_Valid x); simpl negb; cbn iota; [|by eexists].
    assert (¬ plain (y +:+ line_body jid e)) as Hnp.
    { rewrite plain_app. unfold line_body. rewrite plain_app. intros (_ & _ & [Hsp _] & _). by apply Hsp. }
    rewrite bool_decide_false by (intros Eq; rewrite Eq in Hnp; by apply Hnp; repeat split).
    destruct (Parse_RFC3339Nano _) as [t|] eqn:Ep; [|by eexists].
    by apply Parse_RFC3339Nano_plain in Ep.
  - rewrite (Cut_none _ _ _ _ E Hc).
    assert (ID_Valid (tail +:+ jid) = false) as ->; [|by eexists].
    unfold ID_Valid. rewrite slength_app, Hlen. destruct tail; [done|].
    cbn [String.length]. by rewrite (proj2 (Nat.eqb_neq _ _)) by lia.
Qed.

Lemma Format_plain e : plain (Format_RFC3339Nano e).
Proof.
  assert (∀ w n, plain (dec w n)) as Hd by (intros; apply all_digits_plain, dec_digits).
  unfold Format_RFC3339Nano. destruct (civil _) as [[y m] d], (clock_of _) as [[h mi] s].
  rewrite !plain_app. split_and!; try apply Hd; try (by repeat split).
  - unfold appendInt. apply plain_app. split; [by destruct (_ <? _); repeat split|].
    destruct (_ <? _); [apply Hd|]. apply all_digits_plain, FormatInt_digits. lia.
  - destruct (_ =? _); [done|]. apply plain_app. split; [by repeat split|]. apply all_digits_plain, trim_frac_digits.
Qed.

(** No end of line inside a line. *)
Definition no_nl (s : string) : Prop := sall (λ a, a ≠ "010"%char) s.

Lemma plain_no_nl s : plain s → no_nl s.
Proof. apply sall_impl. by intros a [_ ?]. Qed.

Lemma line_body_no_nl jid e : ID_Valid jid = true → no_nl (line_body jid e).
Proof.
  intros [Hj _]%valid_plain. apply sall_app. split; [by apply plain_no_nl|]. apply sall_app.
  split; [by split|]. apply plain_no_nl. destruct (negb _); [apply Format_plain|by repeat split].
Qed.

Abbreviation nl := "010"%char.

Lemma pieces_no_nl t : no_nl t → pieces nl t = [t].
Proof. intros Ht. rewrite <- (string_app_nil_r t) at 1. rewrite pieces_app by done. simpl. by rewrite string_app_nil_r. Qed.

(** Adding text to a file continues its last line. *)
Lemma pieces_extend s t ls tail :
  pieces nl s = ls ++ [tail] → ∃ p l, pieces nl t = p :: l ∧ pieces nl (s +:+ t) = ls ++ (tail +:+ p) :: l.
Proof.
  intros Hs. destruct (pieces_cons nl t) as (p & l & Ht). exists p, l. split; [done|].
  revert ls tail Hs. induction s as [|a s IH]; intros ls tail Hs.
  - destruct ls as [|? [|]]; simplify_eq/=. change ("" +:+ t) with t. by rewrite Ht.
  - change (String a s +:+ t) with (String a (s +:+ t)). cbn [pieces] in *.
    destruct (decide (a = nl)) as [->|Ha].
    + destruct ls as [|x ls]; simplify_eq/=; [by destruct (pieces_cons nl s) as (? & ? & ?); destruct (pieces nl s)|].
      by rewrite (IH ls tail).
    + destruct (pieces_cons nl s) as (q & l' & Hq). rewrite Hq in *.
      destruct ls as [|x ls]; simplify_eq/=.
      * by rewrite (IH [] q eq_refl).
      * by rewrite (IH (q :: ls) tail eq_refl).
Qed.

Lemma pieces_split s : ∃ ls tail, pieces nl s = ls ++ [tail] ∧ no_nl tail.
Proof.
  induction s as [|a s (ls & tail & E & Ht)]; [by exists [], ""|]. cbn [pieces]. rewrite E.
  destruct (decide (a = nl)); [by exists ("" :: ls), tail|].
  destruct ls as [|x ls]; simpl; [exists [], (String a tail); by repeat split|].
  by exists (String a x :: ls), tail.
Qed.

(** ** What the file remembers *)

(** The entries of complete lines, or nothing when one cannot be read. *)
Fixpoint scan (ls : list string) (seen : gmap string Z) : option (gmap string Z) :=
  match ls with
  | [] => Some seen
  | l :: ls' =>
      if bool_decide (l = "") then scan ls' seen
      else match parseSignedReplayLine l with
           | inl _ => None
           | inr (jid, e) => scan ls' (<[jid := e]> seen)
           end
  end.

Lemma scan_app ls ls' m : scan (ls ++ ls') m = m' ← scan ls m; scan ls' m'.
Proof.
  revert m. induction ls as [|l ls IH]; intros m; [done|]. cbn [scan app].
  destruct (bool_decide (l = "")); [apply IH|]. destruct (parseSignedReplayLine l) as [?|[j e]]; [done|apply IH].
Qed.

Lemma read_lines_bad complete ls rest i m n :
  scan ls m = None → complete = true ∨ rest ≠ [] →
  ∃ m' n' err, read_lines complete i (ls ++ rest) m n = (m', n', Some err).
Proof.
  intros Hs Hc. revert i m n Hs. induction ls as [|l ls IH]; intros i m n Hs; [done|]. cbn [scan app read_lines] in *.
  destruct (bool_decide (l = "")); [by apply IH|].
  destruct (parseSignedReplayLine l) as [err|[j e]]; [|by apply IH].
  assert (bool_decide (ls ++ rest = []) && negb complete = false) as ->; [|eauto].
  destruct Hc as [-> |Hc]; [apply andb_false_r|].
  rewrite bool_decide_false; [done|]. by intros [_ ?]%app_nil.
Qed.

Lemma read_lines_ok complete ls i m m' n :
  scan ls m = Some m' → ∃ n', read_lines complete i ls m n = (m', n', None).
Proof.
  revert i m n. induction ls as [|l ls IH]; intros i m n Hs; simplify_eq/=; [eauto|].
  destruct (bool_decide (l = "")); [by apply IH|].
  destruct (parseSignedReplayLine l) as [err|[j e]]; [done|]. by apply IH.
Qed.

Lemma read_lines_tail ls tail i m m' n :
  scan ls m = Some m' → tail ≠ "" →
  ∃ n', read_lines false i (ls ++ [tail]) m n =
    (match parseSignedReplayLine tail with inl _ => m' | inr (j, e) => <[j := e]> m' end, n', None).
Proof.
  intros Hs Ht. revert i m n Hs. induction ls as [|l ls IH]; intros i m n Hs; simplify_eq/=.
  - rewrite bool_decide_false by done. destruct (parseSignedReplayLine tail) as [err|[j e]]; eauto.
  - destruct (bool_decide (l = "")); [by apply IH|].
    destruct (parseSignedReplayLine l) as [err|[j e]]; [done|]. by apply IH.
Qed.

(** How load cuts the file: its complete lines, and what follows the last. *)
Lemma HasSuffix_nl s : HasSuffix s (String nl "") = true ↔ ∃ t, s = t +:+ String nl "".
Proof.
  unfold HasSuffix. cbn [String.length]. rewrite andb_true_iff, Nat.leb_le, bool_decide_eq_true. split.
  - intros [Hl Hs]. exists (stake (String.length s - 1) s). transitivity (stake (String.length s - 1) s +:+ sdrop (String.length s - 1) s);
      [by rewrite stake_sdrop|by rewrite Hs].
  - intros [t ->]. rewrite slength_app. cbn [String.length]. rewrite Nat.add_sub. split; [lia|apply sdrop_app].
Qed.

Lemma load_lines text ls tail :
  pieces nl text = ls ++ [tail] →
  HasSuffix text (String nl "") || bool_decide (text = "") = bool_decide (tail = "") ∧
  (Split (TrimSuffix text (String nl "")) (String nl "") =
     if bool_decide (tail = "") then match ls with [] => [""] | _ => ls end else ls ++ [tail]).
Proof.
  intros Hp. rewrite Split_pieces. unfold TrimSuffix.
  destruct (HasSuffix text (String nl "")) eqn:Hs.
  - apply HasSuffix_nl in Hs as [t ->].
    destruct (pieces_split t) as (ls' & tail' & E & _).
    destruct (pieces_extend t (String nl "") ls' tail' E) as (p & l & E1 & E2).
    simpl in E1. simplify_eq. rewrite E2 in Hp. rewrite string_app_nil_r in Hp.
    replace (ls' ++ [tail'; ""]) with ((ls' ++ [tail']) ++ [""]) in Hp by (by rewrite <- (assoc_L (++))).
    apply app_inj_2 in Hp as [<- [= <-]]; [|done].
    rewrite slength_app. cbn [String.length]. rewrite Nat.add_sub, stake_app, E.
    rewrite (bool_decide_true ("" = "")) by done. split; [done|]. by destruct ls'.
  - simpl. destruct (decide (text = "")) as [->|Ht].
    { destruct ls as [|? [|]]; by simplify_eq/=. }
    rewrite (bool_decide_false (text = "")) by done. rewrite Hp.
    assert (tail ≠ ""); [|by rewrite bool_decide_false by done].
    intros ->. assert (HasSuffix text (String nl "") = true); [|congruence].
    apply HasSuffix_nl. rewrite <- (Join_pieces nl text), Hp.
    destruct ls as [|x ls]; [by rewrite <- (Join_pieces nl text), Hp in Ht|].
    clear. exists (Join (x :: ls) (String nl "")).
    revert x. induction ls as [|y ls IH]; intros x; [done|].
    change ((x :: y :: ls) ++ [""]) with (x :: (y :: ls) ++ [""]).
    cbn [app]. rewrite !Join_cons. cbn [app] in IH. rewrite IH. by rewrite !string_app_assoc.
Qed.

(** The file remembers that [J] runs out at [e]: its complete lines say so, or
    one of them cannot be read, which refuses everything; and what follows
    the last line cannot be read as another entry of [J]. *)
Definition remembers (J : string) (e : Z) (text : string) : Prop :=
  ∃ ls tail, pieces nl text = ls ++ [tail] ∧
    (scan ls ∅ = None ∨
     ∃ m, scan ls ∅ = Some m ∧ m !! J = Some e ∧ ¬ ∃ a, tail = J +:+ " " +:+ a).

Lemma Cut_body jid e : ID_Valid jid = true → ∃ at_, Cut " " (line_body jid e) = Some (jid, at_).
Proof. intros [Hj _]%valid_plain. unfold line_body. rewrite Cut_app by done. eauto. Qed.

Lemma parse_body_jid jid e j x : ID_Valid jid = true → parseSignedReplayLine (line_body jid e) = inr (j, x) → j = jid.
Proof.
  intros Hj. destruct (Cut_body jid e Hj) as [a Ha]. unfold parseSignedReplayLine. rewrite Ha, Hj. simpl negb. cbn iota.
  case_bool_decide; [by intros [= <-]|]. by destruct (Parse_RFC3339Nano a); intros [= <-].
Qed.

Lemma line_body_ne jid e : line_body jid e ≠ "".
Proof. unfold line_body. by destruct jid. Qed.

Lemma app_ne_l (s t : string) : t ≠ "" → s +:+ t ≠ "".
Proof. by destruct s. Qed.

(** The end of the file cannot become an entry of [J] by adding the beginning of
    another job's line. *)
Lemma torn_tail J jid e tail chunk rest :
  ID_Valid J = true → ID_Valid jid = true → jid ≠ J → line_body jid e = chunk +:+ rest →
  (¬ ∃ a, tail = J +:+ " " +:+ a) → ¬ ∃ a, tail +:+ chunk = J +:+ " " +:+ a.
Proof.
  intros [HJ HJl]%valid_plain Hj Hne Hb Ht [a Ha].
  assert (Cut " " (tail +:+ chunk) = Some (J, a)) as Hc by (rewrite Ha; by apply Cut_app).
  destruct (Cut_body jid e Hj) as [at_ Hat]. rewrite Hb in Hat.
  destruct (Cut " " tail) as [[x y]|] eqn:E.
  - rewrite (Cut_mono _ _ _ _ E) in Hc. simplify_eq. apply Ht. exists y.
    pose proof (Cut_inv tail) as Hi. by rewrite E in Hi.
  - destruct (Cut " " chunk) as [[x y]|] eqn:E'.
    + rewrite (Cut_none _ _ _ _ E E') in Hc. rewrite (Cut_mono _ _ _ _ E') in Hat. simplify_eq.
      apply valid_plain in Hj as [_ Hjl]. rewrite slength_app in HJl. destruct tail; [done|]. simpl in HJl. lia.
    + pose proof (Cut_inv tail) as Hi. pose proof (Cut_inv chunk) as Hi'. rewrite E in Hi. rewrite E' in Hi'.
      assert (sall (λ a, a ≠ " "%char) (tail +:+ chunk)) as Hs by (by apply sall_app).
      rewrite Ha in Hs. apply sall_app in Hs as [_ [Hs _]]. done.
Qed.

Lemma pieces_line jid e : ID_Valid jid = true → pieces nl (formatSignedReplayLine jid e) = [line_body jid e; ""].
Proof.
  intros Hj. rewrite format_line, pieces_app by (by apply line_body_no_nl). simpl. by rewrite string_app_nil_r.
Qed.

(** What scanning one more written line does. *)
Lemma scan_line tail jid e m :
  ID_Valid jid = true →
  scan [tail +:+ line_body jid e] m = None ∨
  (tail = "" ∧ ∃ x, scan [tail +:+ line_body jid e] m = Some (<[jid := x]> m) ∧ (writable e → x = e)).
Proof.
  intros Hj. cbn [scan]. rewrite bool_decide_false by apply app_ne_l, line_body_ne.
  destruct (decide (tail = "")) as [->|Ht].
  - change ("" +:+ line_body jid e) with (line_body jid e).
    destruct (parseSignedReplayLine _) as [|[j x]] eqn:E; [by left|right]. split; [done|].
    exists x. rewrite (parse_body_jid _ _ _ _ Hj E) in *. split; [done|]. intros He. rewrite parse_line in E by done. by simplify_eq.
  - destruct (glued_line tail jid e Ht Hj) as [err ->]. by left.
Qed.

Lemma remembers_full J e text jid e' :
  ID_Valid jid = true → (jid ≠ J ∧ remembers J e text) ∨ (jid = J ∧ e' = e ∧ writable e) →
  remembers J e (text +:+ formatSignedReplayLine jid e').
Proof.
  intros Hj Hcase. destruct (pieces_split text) as (ls & tail & Hp & _).
  destruct (pieces_extend text (formatSignedReplayLine jid e') ls tail Hp) as (p & l & E1 & E2).
  rewrite pieces_line in E1 by done. simplify_eq.
  exists (ls ++ [tail +:+ line_body jid e']), "". split; [by rewrite E2, <- (assoc_L (++))|].
  rewrite scan_app. destruct (scan ls ∅) as [m|] eqn:Em; [|by left]. cbn [mbind option_bind].
  destruct (scan_line tail jid e' m Hj) as [->|(Ht & x & -> & Hx)]; [by left|right].
  exists (<[jid := x]> m). split; [done|]. split; [|by intros [a Ha]; destruct J].
  destruct Hcase as [(Hne & ls' & tail' & Hp' & Hr)|(-> & -> & Hw)].
  - rewrite Hp in Hp'. apply app_inj_2 in Hp' as [<- _]; [|done]. rewrite Em in Hr.
    destruct Hr as [?|(m' & ? & HJ & _)]; simplify_eq. by rewrite lookup_insert_ne.
  - by rewrite lookup_insert_eq, Hx.
Qed.

Lemma remembers_torn J e text jid e' n :
  ID_Valid J = true → ID_Valid jid = true → jid ≠ J → remembers J e text →
  remembers J e (text +:+ stake n (formatSignedReplayLine jid e')).
Proof.
  intros HJ Hj Hne Hr. rewrite format_line.
  destruct (decide (n ≤ String.length (line_body jid e'))%nat) as [Hn|Hn].
  - rewrite stake_app_le by done.
    assert (no_nl (stake n (line_body jid e'))) as Hnl.
    { pose proof (line_body_no_nl jid e' Hj) as Hb. rewrite <- (stake_sdrop n) in Hb. by apply sall_app in Hb as [? _]. }
    destruct Hr as (ls & tail & Hp & Hr).
    destruct (pieces_extend text (stake n (line_body jid e')) ls tail Hp) as (p & l & E1 & E2).
    rewrite pieces_no_nl in E1 by done. simplify_eq. exists ls, (tail +:+ stake n (line_body jid e')).
    split; [done|]. destruct Hr as [?|(m & ? & ? & Ht)]; [by left|right]. exists m. split_and!; [done..|].
    eapply torn_tail; [done|exact Hj|done| |done]. by rewrite (stake_sdrop n).
  - rewrite stake_all by (rewrite slength_app; simpl; lia).
    rewrite <- format_line. apply remembers_full; [done|]. by left.
Qed.

(** ** The record over a whole life *)

Definition keys_valid (m : gmap string Z) : Prop := ∀ j e, m !! j = Some e → ID_Valid j = true.

Section replay_props.
Context (iter : gmap string Z → list (string * Z)) (iter_perm : ∀ m, iter m ≡ₚ map_to_list m).

Lemma pieces_file l :
  Forall (λ p : string * Z, ID_Valid p.1 = true) l →
  pieces nl (foldr (λ e b, formatSignedReplayLine e.1 e.2 +:+ b) "" l) = ((λ p, line_body p.1 p.2) <$> l) ++ [""].
Proof.
  induction 1 as [|[j e] l Hj Hl IH]; [done|]. cbn [foldr fmap list_fmap fst snd app].
  rewrite format_line, string_app_assoc, pieces_app by (by apply line_body_no_nl).
  change (String nl "" +:+ ?t) with (String nl t). cbn [pieces]. rewrite decide_True by done.
  by rewrite string_app_nil_r, IH.
Qed.

Lemma scan_bodies J e l m m' :
  Forall (λ p : string * Z, ID_Valid p.1 = true) l → writable e → (∀ x, (J, x) ∈ l → x = e) →
  scan ((λ p, line_body p.1 p.2) <$> l) m = Some m' →
  ((∃ x, (J, x) ∈ l) ∨ m !! J = Some e) → m' !! J = Some e.
Proof.
  intros Hall Hw. revert m. induction Hall as [|[j x] l Hj Hall IH]; intros m Hu Hs Hin.
  { simpl in Hs. simplify_eq. destruct Hin as [[x Hx%elem_of_nil]|?]; done. }
  change ((λ p, line_body p.1 p.2) <$> (j, x) :: l) with ([line_body j x] ++ ((λ p : string * Z, line_body p.1 p.2) <$> l)) in Hs.
  rewrite scan_app in Hs. change (line_body j x) with ("" +:+ line_body j x) in Hs.
  destruct (scan_line "" j x m Hj) as [E|(_ & y & E & Hy)]; rewrite E in Hs; [done|]. cbn [mbind option_bind] in Hs.
  apply (IH (<[j := y]> m)); [intros z Hz; apply Hu; by right|done|].
  destruct (decide (j = J)) as [->|Hne].
  - right. rewrite (Hu x) in * by left. by rewrite lookup_insert_eq, Hy.
  - rewrite lookup_insert_ne by done. destruct Hin as [[z Hz]|?]; [|by right].
    left. exists z. apply elem_of_cons in Hz as [?|?]; [by simplify_eq|done].
Qed.

Lemma remembers_file J e m :
  keys_valid m → writable e → m !! J = Some e → remembers J e (file_lines iter m).
Proof.
  intros Hk Hw HJ. unfold file_lines.
  assert (∀ p, p ∈ iter m ↔ m !! p.1 = Some p.2) as Hin.
  { intros [j x]. rewrite iter_perm. apply elem_of_map_to_list. }
  assert (Forall (λ p : string * Z, ID_Valid p.1 = true) (iter m)) as Hall.
  { apply Forall_forall. intros p Hp%Hin. by eapply Hk. }
  exists ((λ p, line_body p.1 p.2) <$> iter m), "". split; [by apply pieces_file|].
  destruct (scan _ ∅) as [m'|] eqn:Es; [right|by left]. exists m'.
  split_and!; [done| |by intros [a Ha]; destruct J].
  eapply (scan_bodies J e); [done|done| |exact Es|].
  - intros x Hx%Hin. simpl in Hx. congruence.
  - left. exists e. by apply Hin.
Qed.

Lemma read_lines_keys complete i ls m n m' n' err :
  keys_valid m → read_lines complete i ls m n = (m', n', err) → keys_valid m'.
Proof.
  revert i m n. induction ls as [|l ls IH]; intros i m n Hk Hr; simplify_eq/=; [done|].
  destruct (bool_decide (l = "")); [by eapply IH|].
  destruct (parseSignedReplayLine l) as [e|[j e]] eqn:E; [by destruct (_ && _); simplify_eq|].
  eapply IH; [|exact Hr]. intros k x [[<- _]|[_ Hx]]%lookup_insert_Some; [|by eapply Hk].
  unfold parseSignedReplayLine in E. destruct (Cut " " l) as [[a b]|]; [|done].
  destruct (ID_Valid a) eqn:Ea; [|done]. simpl in E. case_bool_decide; [by simplify_eq|].
  by destruct (Parse_RFC3339Nano b); simplify_eq.
Qed.

(** The record and its file know of [J]. *)
Definition knows (J : string) (e : Z) (st : sr_state) : Prop :=
  (∃ text, file st = Some text ∧ remembers J e text) ∧ keys_valid (sr_seen (mem st)) ∧
  (sr_loaded (mem st) = true → sr_err (mem st) = None → sr_seen (mem st) !! J = Some e) ∧
  (sr_loaded (mem st) = false → sr_err (mem st) = None).

Lemma prune_keys now s : keys_valid (sr_seen s) → keys_valid (sr_seen (prune now s)).
Proof. intros Hk j e [Hj _]%map_lookup_filter_Some. by eapply Hk. Qed.

Lemma prune_keeps now s J e : sr_seen s !! J = Some e → live now e → sr_seen (prune now s) !! J = Some e.
Proof. intros HJ Hl. by apply map_lookup_filter_Some. Qed.

Lemma rewrite_knows io J e st :
  keys_valid (sr_seen (mem st)) → writable e → sr_seen (mem st) !! J = Some e →
  (∃ text, file st = Some text ∧ remembers J e text) →
  let st' := (rewrite iter io st).2 in
  (∃ text, file st' = Some text ∧ remembers J e text) ∧
  sr_seen (mem st') = sr_seen (mem st) ∧ sr_err (mem st') = sr_err (mem st) ∧ sr_loaded (mem st') = sr_loaded (mem st).
Proof.
  intros Hk Hw HJ Hf. unfold rewrite. destruct (mkdir_ok io); [|done]. destruct (replace_ok io); [|done]. simpl.
  split_and!; [|done..]. eexists. split; [done|]. by apply remembers_file.
Qed.

(** Loading a file that remembers [J] finds it, or fails. *)
Lemma read_remembers J e ls tail n seen n' :
  (scan ls ∅ = None ∨ ∃ m, scan ls ∅ = Some m ∧ m !! J = Some e ∧ ¬ ∃ a, tail = J +:+ " " +:+ a) →
  read_lines (bool_decide (tail = "")) 1
    (if bool_decide (tail = "") then match ls with [] => [""] | _ => ls end else ls ++ [tail]) ∅ n
    = (seen, n', None) →
  seen !! J = Some e.
Proof.
  intros Hr. case_bool_decide as Ht.
  - destruct Hr as [Hs|(m & Hs & HJ & _)].
    + destruct (read_lines_bad true ls [] 1 ∅ n Hs) as (? & ? & ? & E); [by left|].
      rewrite app_nil_r in E. destruct ls; [done|]. rewrite E. done.
    + destruct (read_lines_ok true ls 1 ∅ m n Hs) as [x E].
      destruct ls as [|l ls]; [simplify_eq/=; by rewrite lookup_empty in HJ|]. rewrite E. by intros [= <-].
  - destruct Hr as [Hs|(m & Hs & HJ & Hn)].
    + destruct (read_lines_bad false ls [tail] 1 ∅ n Hs) as (? & ? & ? & E); [by right|]. by rewrite E.
    + destruct (read_lines_tail ls tail 1 ∅ m n Hs Ht) as [x E]. rewrite E. intros [= <- _].
      destruct (parseSignedReplayLine tail) as [|[j y]] eqn:Ep; [done|].
      rewrite lookup_insert_ne; [done|]. intros ->. apply Hn.
      pose proof (Cut_inv tail) as Hi. unfold parseSignedReplayLine in Ep.
      destruct (Cut " " tail) as [[a b]|]; [|done]. exists b.
      destruct (ID_Valid a); [|done]. simpl in Ep. case_bool_decide; [by simplify_eq|].
      by destruct (Parse_RFC3339Nano b); simplify_eq.
Qed.

Lemma load_knows io now J e st :
  writable e → live now e → knows J e st →
  let '(r, st') := load iter io now st in
  knows J e st' ∧ (r = None → sr_loaded (mem st') = true ∧ sr_err (mem st') = None).
Proof.
  intros Hw Hl Hknow. unfold load. destruct (sr_loaded (mem st)) eqn:El; [by split|].
  destruct Hknow as ((text & Hf & Hr) & _ & _ & Herr). specialize (Herr El).
  assert (keys_valid ∅) as Hempty by (intros j x; by rewrite lookup_empty).
  destruct (read_ok io); cbn [negb]; [|split; [|done]; split_and!; [by eexists|done..]].
  rewrite Hf. pose proof Hr as (ls & tail & Hp & Hcase).
  destruct (load_lines text ls tail Hp) as [-> ->].
  destruct (read_lines _ _ _ _ _) as [[seen n] err] eqn:Erd.
  pose proof (read_lines_keys _ _ _ _ _ _ _ _ Hempty Erd) as Hkeys.
  destruct err as [err|]; [split; [|done]; split_and!; [by eexists|done..]|].
  apply (read_remembers J e ls tail) in Erd as HJ; [|done].
  set (s1 := prune now _).
  assert (sr_seen s1 !! J = Some e) as HJ1 by (by apply prune_keeps).
  assert (keys_valid (sr_seen s1)) as Hk1 by (by apply prune_keys).
  destruct (_ || _); [|split; [split_and!; [by eexists|done..]|done]].
  destruct (rewrite_knows (on_load io) J e (mkSt (Some text) s1) Hk1 Hw HJ1) as (Hf' & Hs' & He' & Hld'); [by eexists|].
  destruct (rewrite iter (on_load io) (mkSt (Some text) s1)) as [[] st'] eqn:Erw; cbn [snd] in *.
  - split; [|intros _; rewrite He', Hld'; done]. split_and!; [done|by rewrite Hs'|intros; by rewrite Hs'|].
    rewrite Hld'. done.
  - split; [|done]. split_and!; [done|cbn; by rewrite Hs'|done|cbn; by rewrite Hld'].
Qed.

Lemma append_knows io jid e' J e st :
  ID_Valid J = true → ID_Valid jid = true → jid ≠ J → writable e →
  knows J e st → sr_loaded (mem st) = true → sr_err (mem st) = None →
  let st' := (append iter io jid e' st).2 in
  knows J e st' ∧ sr_loaded (mem st') = true ∧ sr_err (mem st') = None.
Proof.
  intros HJ Hj Hne Hw (Hf & Hk & Hin & _) Hld Herr. specialize (Hin Hld Herr). unfold append.
  set (pr := if _ <? _ then rewrite _ _ _ else _).
  assert ((∃ text, file pr.2 = Some text ∧ remembers J e text) ∧ sr_seen (mem pr.2) = sr_seen (mem st) ∧
          sr_err (mem pr.2) = None ∧ sr_loaded (mem pr.2) = true) as (Hf' & Hs' & He' & Hl').
  { subst pr. destruct (_ <? _); [|done].
    destruct (rewrite_knows (on_compact io) J e st Hk Hw Hin Hf) as (? & ? & -> & ->). done. }
  destruct pr as [ok st1]. cbn [fst snd] in *. cbn zeta beta iota.
  assert (∀ f, (∃ text, f = Some text ∧ remembers J e text) → knows J e (mkSt f (mem st1))) as Hmk.
  { intros f Hff. split_and!; cbn [file mem]; [done|by rewrite Hs'|by rewrite Hs'|congruence]. }
  assert (knows J e st1) as Hk1 by (destruct st1; by apply Hmk).
  destruct ok; [|done]. destruct (dir_ok io); [|done]. destruct (open_ok io); [|done]. cbn [negb].
  destruct Hf' as (text & -> & Hr). cbn [default].
  destruct (write io) as [n|]; [split; [apply Hmk|done]; eexists; split; [done|by apply remembers_torn]|].
  assert (knows J e (mkSt (Some (text +:+ formatSignedReplayLine jid e')) (mem st1))) as Hfull.
  { apply Hmk. eexists. split; [done|]. apply remembers_full; [done|]. by left. }
  destruct (sync_ok io); [|done]. destruct (close_ok io); [|done]. cbn [negb snd].
  split; [|done]. destruct Hfull as (? & ? & ? & ?). by split_and!.
Qed.

(** A job whose identifier is known is not accepted; any other leaves it known. *)
Lemma admit_knows io now j J e st :
  ID_Valid J = true → ID_Valid (JID j) = true → writable e → live now e → knows J e st →
  knows J e (SR_Admit iter io now (Some j) st).2 ∧
  (JID j = J → (SR_Admit iter io now (Some j) st).1 ≠ Accepted).
Proof.
  intros HJ Hj Hw Hl Hk. unfold SR_Admit. destruct (bool_decide (JID j = "")); [done|].
  pose proof (load_knows io now J e st Hw Hl Hk) as Hload.
  destruct (load iter io now st) as [[err|] st1]; destruct Hload as [Hk1 Hld]; [done|].
  destruct (Hld eq_refl) as [Hl1 He1]. destruct (sr_seen (mem st1) !! JID j) eqn:Ej; [done|].
  assert (JID j ≠ J) as Hne.
  { intros E. destruct Hk1 as (_ & _ & Hin & _). by rewrite E, (Hin Hl1 He1) in Ej. }
  destruct (append_knows io (JID j) (Expires j) J e st1 HJ Hj Hne Hw Hk1 Hl1 He1) as (Hk2 & Hl2 & He2).
  destruct (append iter io (JID j) (Expires j) st1) as [[] st2]; cbn [fst snd] in *; [|done].
  split; [|done]. destruct Hk2 as (Hf & Hkeys & Hin & _). specialize (Hin Hl2 He2).
  split_and!; cbn [file mem]; [done| |intros _ _|by cbn; rewrite Hl2].
  - apply prune_keys. cbn. intros k x [[<- _]|[_ Hx]]%lookup_insert_Some; [done|by eapply Hkeys].
  - apply prune_keeps; [|done]. cbn. by rewrite lookup_insert_ne.
Qed.

(** *** Keys of every reachable record are identifiers *)

Definition sane (st : sr_state) : Prop :=
  keys_valid (sr_seen (mem st)) ∧ (sr_loaded (mem st) = false → sr_err (mem st) = None).

Lemma rewrite_mem io st :
  let st' := (rewrite iter io st).2 in
  sr_seen (mem st') = sr_seen (mem st) ∧ sr_loaded (mem st') = sr_loaded (mem st) ∧ sr_err (mem st') = sr_err (mem st).
Proof. unfold rewrite. destruct (mkdir_ok io), (replace_ok io); done. Qed.

Lemma load_sane io now st :
  sane st → sane (load iter io now st).2 ∧ sr_loaded (mem (load iter io now st).2) = true ∧
  ((load iter io now st).1 = None → sr_err (mem (load iter io now st).2) = None).
Proof.
  intros Hsane. unfold load. destruct (sr_loaded (mem st)) eqn:El; [by split_and!|].
  destruct Hsane as [Hk He]. specialize (He El).
  assert (keys_valid ∅) as Hempty by (intros j x; by rewrite lookup_empty).
  destruct (read_ok io); cbn [negb]; [|done]. destruct (file st) as [text|]; [|done].
  destruct (read_lines _ _ _ _ _) as [[seen n] err] eqn:Erd.
  pose proof (read_lines_keys _ _ _ _ _ _ _ _ Hempty Erd) as Hkeys.
  destruct err as [err|]; [done|]. set (s1 := prune now _).
  assert (keys_valid (sr_seen s1)) as Hk1 by (by apply prune_keys).
  assert (sr_loaded s1 = true ∧ sr_err s1 = None) as [Hl1 He1] by done. clearbody s1.
  destruct ((_ <? _) || _); [|split_and!; [split|..]; cbn [fst snd mem]; [done|congruence|done|done]].
  destruct (rewrite_mem (on_load io) (mkSt (Some text) s1)) as (Hs' & Hl' & He').
  cbn [mem] in Hs', Hl', He'.
  destruct (rewrite iter (on_load io) (mkSt (Some text) s1)) as [[] st']; cbn [fst snd] in *; unfold sane;
    cbn [mem set_mem sr_seen sr_loaded sr_err]; rewrite ?Hs', ?Hl', ?He', ?Hl1; split_and!; done.
Qed.

Lemma append_mem io jid e st :
  let st' := (append iter io jid e st).2 in
  sr_seen (mem st') = sr_seen (mem st) ∧ sr_loaded (mem st') = sr_loaded (mem st) ∧ sr_err (mem st') = sr_err (mem st).
Proof.
  unfold append. set (pr := if _ <? _ then rewrite _ _ _ else _).
  assert (sr_seen (mem pr.2) = sr_seen (mem st) ∧ sr_loaded (mem pr.2) = sr_loaded (mem st) ∧
          sr_err (mem pr.2) = sr_err (mem st)) as Hpr by (subst pr; destruct (_ <? _); [apply rewrite_mem|done]).
  destruct pr as [ok st1]. cbn [fst snd] in *. destruct ok, (dir_ok io), (open_ok io); cbn [negb]; try done.
  destruct (write io); [done|]. destruct (sync_ok io), (close_ok io); done.
Qed.

Lemma admit_sane io now j st :
  ID_Valid (JID j) = true → sane st → sane (SR_Admit iter io now (Some j) st).2.
Proof.
  intros Hj Hs. unfold SR_Admit. destruct (bool_decide (JID j = "")); [done|].
  destruct (load_sane io now st Hs) as (Hs1 & Hl1 & He1).
  destruct (load iter io now st) as [[err|] st1]; cbn [fst snd] in *; [done|]. specialize (He1 eq_refl).
  destruct (sr_seen (mem st1) !! JID j); [done|].
  destruct (append_mem io (JID j) (Expires j) st1) as (Hs2 & Hl2 & He2). destruct Hs1 as [Hk1 _].
  destruct (append iter io (JID j) (Expires j) st1) as [[] st2]; cbn [fst snd] in *; unfold sane;
    cbn [mem prune set_mem sr_seen sr_loaded sr_err]; rewrite ?Hs2, ?Hl2, ?He2, ?Hl1; split; try done.
  intros k x [Hx _]%map_lookup_filter_Some.
  apply lookup_insert_Some in Hx as [[<- _]|[_ Hx]]; [done|by eapply Hk1].
Qed.

(** *** Accepting *)

Lemma append_remembers io jid e st :
  ID_Valid jid = true → writable e → (append iter io jid e st).1 = true →
  ∃ text, file (append iter io jid e st).2 = Some text ∧ remembers jid e text.
Proof.
  intros Hj Hw. unfold append. destruct (if _ <? _ then rewrite _ _ _ else _) as [ok st1].
  destruct ok, (dir_ok io), (open_ok io); cbn [negb]; try done.
  destruct (write io); [done|]. destruct (sync_ok io), (close_ok io); cbn [negb fst snd file]; try done.
  intros _. eexists. split; [done|]. apply remembers_full; [done|]. by right.
Qed.

Lemma accepted_known io now j st :
  ID_Valid (JID j) = true → writable (Expires j) → live now (Expires j) → sane st →
  (SR_Admit iter io now (Some j) st).1 = Accepted →
  knows (JID j) (Expires j) (SR_Admit iter io now (Some j) st).2.
Proof.
  intros Hj Hw Hl Hs Hacc. pose proof (admit_sane io now j st Hj Hs) as [Hk2 Hn2].
  revert Hacc Hk2 Hn2. unfold SR_Admit. destruct (bool_decide (JID j = "")); [done|].
  destruct (load iter io now st) as [[err|] st1]; [done|].
  destruct (sr_seen (mem st1) !! JID j); [done|].
  pose proof (append_remembers io (JID j) (Expires j) st1 Hj Hw) as Hr.
  destruct (append iter io (JID j) (Expires j) st1) as [[] st2]; cbn [fst snd] in *; [|done].
  intros _ Hk2 Hn2. split_and!; [by apply Hr|done| |done].
  intros _ _. apply prune_keeps; [|done]. cbn. by rewrite lookup_insert_eq.
Qed.

(** The readings of the clock in a sequence of events, and the jobs offered. *)
Definition reading (ev : event) : option Z :=
  match ev with EAdmit _ now _ | ESeen _ now _ => Some now | ERestart => None end.
Definition event_valid (ev : event) : Prop :=
  match ev with EAdmit _ _ j => ID_Valid (JID j) = true | _ => True end.
Definition keeps (e : Z) (ev : event) : Prop := ∀ now, reading ev = Some now → live now e.

Lemma step_sane ev st : event_valid ev → sane st → sane (step iter ev st).2.
Proof.
  destruct ev as [io now j|io now id|]; intros Hev Hs; cbn [step].
  - pose proof (admit_sane io now j st Hev Hs) as Ha. by destruct (SR_Admit iter io now (Some j) st).
  - unfold SR_Seen. destruct (load_sane io now st Hs) as [Hs' _]. revert Hs'. by destruct (load iter io now st) as [[?|] ?].
  - split; [intros j e; cbn; by rewrite lookup_empty|done].
Qed.

Lemma step_knows ev J e st :
  ID_Valid J = true → writable e → event_valid ev → keeps e ev → knows J e st → knows J e (step iter ev st).2.
Proof.
  intros HJ Hw Hev Hk Hs. destruct ev as [io now j|io now id|]; cbn [step].
  - destruct (admit_knows io now j J e st) as [? _]; [done..|by apply Hk|done|]. by destruct (SR_Admit iter io now (Some j) st).
  - pose proof (load_knows io now J e st Hw (Hk _ eq_refl) Hs) as Hl. unfold SR_Seen.
    by destruct (load iter io now st) as [[?|] ?], Hl.
  - destruct Hs as (Hf & _). split_and!; [done|intros j x; cbn; by rewrite lookup_empty|done..].
Qed.

Lemma run_cons ev evs st : (run iter (ev :: evs) st).2 = (run iter evs (step iter ev st).2).2.
Proof. cbn [run]. destruct (step iter ev st) as [r st']. cbn [snd]. by destruct (run iter evs st'). Qed.

Lemma run_sane evs st : Forall event_valid evs → sane st → sane (run iter evs st).2.
Proof.
  intros He. revert st. induction He as [|ev evs Hev He IH]; intros st Hs; [done|].
  rewrite run_cons. apply IH. by apply step_sane.
Qed.

Lemma run_knows evs J e st :
  ID_Valid J = true → writable e → Forall event_valid evs → Forall (keeps e) evs → knows J e st →
  knows J e (run iter evs st).2.
Proof.
  intros HJ Hw He. revert st. induction He as [|ev evs Hev He IH]; intros st Hk Hs; [done|].
  inversion Hk; subst. rewrite run_cons. apply IH; [done|]. by apply step_knows.
Qed.

(** A signed job is accepted once: after the node has accepted it, no later
    offer of the same jid is accepted, through any sequence of other offers,
    failed and short writes, compactions and restarts, whatever the file held
    to begin with, until a day past its expiry. *)
Theorem signed_job_accepted_once f compact evs io now j evs' io' now' j' :
  Forall event_valid evs → Forall event_valid evs' →
  ID_Valid (JID j) = true → writable (Expires j) → JID j' = JID j →
  let st := (run iter evs (mkSt f (NewSignedReplay compact))).2 in
  let st' := (SR_Admit iter io now (Some j) st).2 in
  (SR_Admit iter io now (Some j) st).1 = Accepted →
  live now (Expires j) → Forall (keeps (Expires j)) evs' → live now' (Expires j) →
  (SR_Admit iter io' now' (Some j') (run iter evs' st').2).1 ≠ Accepted.
Proof.
  intros Hev Hev' Hj Hw Hjj st st' Hacc Hl Hk Hl'.
  assert (sane st) as Hs.
  { apply run_sane; [done|]. split; [intros k e; cbn; by rewrite lookup_empty|done]. }
  pose proof (accepted_known io now j st Hj Hw Hl Hs Hacc) as Hkn. fold st' in Hkn.
  pose proof (run_knows evs' _ _ st' Hj Hw Hev' Hk Hkn) as Hkn'.
  eapply admit_knows; [exact Hj|by rewrite Hjj|exact Hw|exact Hl'|exact Hkn'|done].
Qed.

(** *** Reading back what was written *)

Lemma scan_written l m0 :
  NoDup l.*1 → Forall (λ p : string * Z, ID_Valid p.1 = true ∧ writable p.2) l →
  ∃ m, scan ((λ p, line_body p.1 p.2) <$> l) m0 = Some m ∧
    ∀ k x, m !! k = Some x ↔ (k, x) ∈ l ∨ ((k ∉ l.*1) ∧ m0 !! k = Some x).
Proof.
  revert m0. induction l as [|[j e] l IH]; intros m0 Hnd Hall.
  { exists m0. split; [done|]. intros k x. split; [right; split; [apply not_elem_of_nil|done]|].
    by intros [?%elem_of_nil|[_ ?]]. }
  apply NoDup_cons in Hnd as [Hj Hnd]. inversion Hall as [|? ? [Hv Hw] Hall']; subst.
  cbn [fmap list_fmap fst snd] in *. cbn [scan]. rewrite bool_decide_false by apply line_body_ne.
  rewrite parse_line by done. destruct (IH (<[j := e]> m0) Hnd Hall') as (m & Hm & Hl).
  exists m. split; [done|]. intros k x. rewrite Hl, !elem_of_cons, lookup_insert_Some.
  change (list_fmap _ _ fst l) with (l.*1) in *.
  destruct (decide (k = j)) as [->|Hk]; [|naive_solver].
  split; [intros [Hin|(_ & [[_ ->]|[? _]])]; [by left; right|by left; left|done]|].
  intros [[[= ->]|Hin]|[Hn _]]; [by right; split; [|left]|by left|by destruct Hn; left].
Qed.

(** A record that was written is read back after a restart: the same jids and
    expiries, less those past their day of grace, and nothing is reported. *)
Theorem signed_record_roundtrip m io now compact :
  keys_valid m → (∀ j e, m !! j = Some e → writable e) → read_ok io = true →
  mkdir_ok (on_load io) = true → replace_ok (on_load io) = true →
  let '(r, st) := load iter io now (mkSt (Some (file_lines iter m)) (NewSignedReplay compact)) in
  r = None ∧ sr_seen (mem st) = filter (λ p : string * Z, live now p.2) m.
Proof.
  intros Hk Hw Hr Hd Hrep. unfold load. cbn [mem sr_loaded NewSignedReplay]. rewrite Hr. cbn [negb file].
  assert (∀ p, p ∈ iter m ↔ m !! p.1 = Some p.2) as Hin.
  { intros [j x]. rewrite iter_perm. apply elem_of_map_to_list. }
  assert (Forall (λ p : string * Z, ID_Valid p.1 = true ∧ writable p.2) (iter m)) as Hall.
  { apply Forall_forall. intros p Hp%Hin. split; [by eapply Hk|by eapply Hw]. }
  assert (pieces nl (file_lines iter m) = ((λ p, line_body p.1 p.2) <$> iter m) ++ [""]) as Hp.
  { apply pieces_file. eapply Forall_impl; [exact Hall|]. by intros ? [? _]. }
  destruct (load_lines _ _ _ Hp) as [-> ->]. rewrite !bool_decide_true by done.
  destruct (scan_written (iter m) ∅) as (m' & Hs & Hm'); [|done|].
  { rewrite iter_perm. apply NoDup_fst_map_to_list. }
  assert (m' = m) as ->.
  { apply map_eq. intros k. apply option_eq. intros x. rewrite Hm', (Hin (k, x)), lookup_empty. naive_solver. }
  set (ls := (λ p : string * Z, line_body p.1 p.2) <$> iter m) in *.
  assert (∀ k, ∃ n, read_lines true 1 (match ls with [] => [""] | _ => ls end) ∅ k = (m, n, None)) as Hread.
  { intros k. destruct ls as [|l ls]; [simpl in Hs; simplify_eq; by eexists|by eapply read_lines_ok]. }
  match goal with |- context [read_lines _ _ _ _ ?k] => destruct (Hread k) as [n ->] end.
  destruct (_ || _); [|done]. unfold rewrite. by rewrite Hd, Hrep.
Qed.
End replay_props.

(** ** A record on a concrete disk *)

#[local] Existing Instance demo_runtime.

Definition io_fine : IO := mkIO true (mkRW true true) (mkRW true true) true true None true true.
(** The disk is full after four bytes. *)
Definition io_short : IO := mkIO true (mkRW true true) (mkRW true true) true true (Some 4%nat) true true.

Definition demo_signed : Job := demo_job "20260819T142211023456" "n1" "cmd.run" (demo_now + Hour).
Definition demo_signed2 : Job := demo_job "20260819T142212000000" "n2" "cmd.run" (demo_now + Hour).

Lemma live_before_expiry : live demo_now (demo_now + Hour).
Proof. unfold live, SignedReplayRetention, Hour, Minute, Second. lia. Qed.

Lemma signed_job_accepted_once_witness :
  (SR_Admit map_to_list io_fine demo_now (Some demo_signed)
     (run map_to_list [ESeen io_fine demo_now "x"; EAdmit io_fine demo_now demo_signed2;
        EAdmit io_short demo_now (demo_job "20260819T142213000000" "n3" "cmd.run" 0); ERestart]
       (SR_Admit map_to_list io_fine demo_now (Some demo_signed) (mkSt None (NewSignedReplay 0))).2).2).1 ≠ Accepted.
Proof.
  apply (signed_job_accepted_once map_to_list (λ _, reflexivity _) None 0 [] io_fine demo_now demo_signed).
  - constructor.
  - repeat constructor.
  - vm_compute. reflexivity.
  - right. unfold four_digit. vm_compute. split; congruence.
  - reflexivity.
  - vm_compute. reflexivity.
  - apply live_before_expiry.
  - repeat constructor; intros ? [= <-]; apply live_before_expiry.
  - apply live_before_expiry.
Defined.

Definition demo_record : gmap string Z := {[ "20260819T142211023456" := demo_now + Hour; "20260819T142212000000" := 0 ]}.

Lemma signed_record_roundtrip_witness :
  let '(r, st) := load map_to_list io_fine demo_now (mkSt (Some (file_lines map_to_list demo_record)) (NewSignedReplay 0)) in
  r = None ∧ sr_seen (mem st) = filter (λ p : string * Z, live demo_now p.2) demo_record.
Proof.
  apply (signed_record_roundtrip map_to_list (λ _, reflexivity _)); [| |reflexivity..].
  - unfold demo_record. intros j e Hj. apply lookup_insert_Some in Hj as [[<- _]|[_ Hj]]; [vm_compute; reflexivity|].
    apply lookup_singleton_Some in Hj as [<- _]. vm_compute. reflexivity.
  - unfold demo_record. intros j e Hj. apply lookup_insert_Some in Hj as [[_ <-]|[_ Hj]].
    + right. unfold four_digit. vm_compute. split; congruence.
    + apply lookup_singleton_Some in Hj as [_ <-]. by left.
Defined.

(** A write that fails part way leaves its bytes in the file.  The process goes
    on, the next job is accepted and written behind them, and after a restart
    the file cannot be read, so every signed job is refused. *)
Example short_write_blocks_restart :
  let st := (run map_to_list [EAdmit io_short demo_now demo_signed; EAdmit io_fine demo_now demo_signed2; ERestart]
               (mkSt None (NewSignedReplay 0))).2 in
  (run map_to_list [EAdmit io_short demo_now demo_signed; EAdmit io_fine demo_now demo_signed2]
     (mkSt None (NewSignedReplay 0))).1 = [Some (NotRecorded WriteFailed); Some Accepted] ∧
  (SR_Admit map_to_list io_fine demo_now (Some demo_signed) st).1 = NotRecorded (BadLine 1 NotLine).
Proof. by vm_compute. Qed.
