(* ===== verification/JobSign.v ===== *)
(** * Detached job signatures

    Models src/internal/job/model.go's SigningPayload and
    src/internal/jobsign/jobsign.go: the canonical bytes a signature is made
    over, and Verify.  The signature algorithm, the hash and base64 are
    parameters; so is json.Marshal, which only the old format, kept to explain
    a refusal, goes through.  The conversion of a float out of the range of an
    int64 is the implementation's, and is a parameter too.

    The canonical bytes are proved to determine the payload: what a signature
    authorises is one job. *)

From Stdlib Require Import SpecFloat.
From S2P Require Import Prelude GoLib GoTime Value Job SignedReplay.

Open Scope Z_scope.

Record Payload := mkPayload {
  pJID : string; pTarget : string; pTargetKind : string; pFun : string; pArg : list string;
  pKwarg : kwargs; pEnv : string; pExpires : Z }.

Definition SigningPayload (j : Job) : Payload :=
  mkPayload (JID j) (Target j) (TargetKind j) (Fun j) (Arg j) (WireKwargs j) (Env j) (Expires j).

Definition NUL : string := String "000" "".
Definition domain : string := "halite-job-v2" +:+ NUL.
Definition domainV1 : string := "halite-job-v1" +:+ NUL.

Definition len (s : string) : string := FormatInt (Z.of_nat (String.length s)).
Definition count {A} (l : list A) : string := FormatInt (Z.of_nat (length l)).

Definition field (name value : string) : string := name +:+ ":" +:+ len value +:+ ":" +:+ value +:+ ";".

Definition concat_str (l : list string) : string := foldr String.append "" l.

(** sort.Strings on the keys, then the values in that order. *)
Definition key_le {A} (a b : string * A) : Prop := str_le a.1 b.1.
#[global] Instance key_le_dec {A} (a b : string * A) : Decision (key_le a b) := str_le_dec _ _.
Definition by_key {A} (m : list (string * A)) : list (string * A) := merge_sort key_le m.

Section sign.
Context `{GoRuntime V}.
(** Go's int64(f) for a float64, where the language leaves it open. *)
Context (int64_overflow : spec_float → Z).

Definition int64_of (f : spec_float) : Z := default (int64_overflow f) (f64_trunc f).

Definition formatFloat (f : spec_float) : string :=
  if f64_eqb f (f64_of_Z (int64_of f)) then FormatInt (int64_of f) else FormatFloat f.

(** json.Number.Int64 is strconv.ParseInt(s, 10, 64). *)
Definition number (v : any) : string :=
  match v with
  | ANumber t =>
      match Atoi t with
      | Some i => FormatInt i
      | None => match ParseFloat t with Some f => formatFloat f | None => t end
      end
  | AInt z | AUint64 z => FormatInt z
  | AFloat f => formatFloat f
  | _ => ""
  end.

Fixpoint typed (v : any) : string :=
  match v with
  | ANil => "null;"
  | ABool b => "bool:" +:+ FormatBool b +:+ ";"
  | ANumber _ | AInt _ | AUint64 _ | AFloat _ => field "num" (number v)
  | AString s => field "str" s
  | ASlice l => "list:" +:+ count l +:+ ";" +:+ concat_str (typed <$> l)
  | AStrings l => "list:" +:+ count l +:+ ";" +:+ concat_str (field "str" <$> l)
  | AMap m =>
      "map:" +:+ count m +:+ ";" +:+
      concat_str ((λ e, field "key" e.1 +:+ e.2) <$>
        by_key ((fix go m := match m with [] => [] | (k, x) :: m' => (k, typed x) :: go m' end) m))
  | AOther t => field "unencodable" t
  end.

(** The encoding, over how a keyword's value is written. *)
Definition canonical (p : Payload) (dom : string) (value : any → string) : string :=
  dom +:+ field "jid" (pJID p) +:+ field "target" (pTarget p) +:+ field "target_kind" (pTargetKind p) +:+
  field "fun" (pFun p) +:+
  ("argc:" +:+ count (pArg p) +:+ ";") +:+ concat_str (field "arg" <$> pArg p) +:+
  ("kwargc:" +:+ count (pKwarg p) +:+ ";") +:+
  concat_str ((λ e : string * any, field "kwarg" e.1 +:+ value e.2) <$> by_key (pKwarg p)) +:+
  field "env" (pEnv p) +:+
  field "expires" (if negb (IsZero (pExpires p)) then Format_RFC3339Nano (pExpires p) else "").

Definition Canonical (p : Payload) : string := canonical p domain typed.

Section verify.
Context {K : Type} (VerifyASN1 : K → string → string → bool) (sha256 : string → string)
  (base64_Decode : string → option string) (json_Marshal : any → option string).

(** The old format's rendering of a value: bare text, a number as its decimal. *)
Fixpoint normalise (v : any) : any :=
  match v with
  | AMap m => AMap ((fix go m := match m with [] => [] | (k, x) :: m' => (k, normalise x) :: go m' end) m)
  | ASlice l => ASlice (normalise <$> l)
  | ANumber _ | AInt _ | AUint64 _ | AFloat _ => ANumber (number v)
  | _ => v
  end.

(** %T of a value that is not a scalar. *)
Definition type_name (v : any) : string :=
  match v with
  | ASlice _ => "[]interface {}"
  | AStrings _ => "[]string"
  | AMap _ => "map[string]interface {}"
  | AOther t => t
  | _ => ""
  end.

Definition scalarV1 (v : any) : string :=
  match v with
  | ANil => "null"
  | AString t => t
  | ABool b => FormatBool b
  | ANumber _ | AInt _ | AUint64 _ | AFloat _ => number v
  | _ => default ("unencodable:" +:+ type_name v) (json_Marshal (normalise v))
  end.
Definition canonicalV1 (p : Payload) : string := canonical p domainV1 (λ v, field "value" (scalarV1 v)).

Record SignerKey := mkSignerKey { Name : string; PubKey : K }.

Inductive verify_error :=
| NoKeys | NoSignature | ErrNoExpiry | NotBase64 | ErrOldFormat (signer : string) | NoMatch (keys : nat).

Definition Digest (p : Payload) : string := sha256 (Canonical p).

Definition first_verifying (keys : list SignerKey) (digest der : string) : option string :=
  Name ∘ snd <$> list_find (λ k, VerifyASN1 (PubKey k) digest der = true) keys.

Definition Verify (keys : list SignerKey) (p : Payload) (signature : string) : verify_error + string :=
  match keys with
  | [] => inl NoKeys
  | _ =>
      if bool_decide (TrimSpace signature = "") then inl NoSignature
      else if IsZero (pExpires p) then inl ErrNoExpiry
      else match base64_Decode signature with
      | None => inl NotBase64
      | Some der =>
          match first_verifying keys (Digest p) der with
          | Some name => inr name
          | None =>
              match first_verifying keys (sha256 (canonicalV1 p)) der with
              | Some name => inl (ErrOldFormat name)
              | None => inl (NoMatch (length keys))
              end
          end
      end
  end.

Inductive sign_error := NeedsKey | WrongCurve | SignNoExpiry | SignFailed.

(** Sign with a private key, or nil; [curve_ok] is checkCurve, [SignASN1] the
    algorithm, which may fail for want of randomness. *)
Definition Sign {P} (curve_ok : P → bool) (SignASN1 : P → string → option string)
    (base64_Encode : string → string) (key : option P) (p : Payload) : sign_error + string :=
  match key with
  | None => inl NeedsKey
  | Some key =>
      if negb (curve_ok key) then inl WrongCurve
      else if IsZero (pExpires p) then inl SignNoExpiry
      else match SignASN1 key (Digest p) with
           | Some der => inr (base64_Encode der)
           | None => inl SignFailed
           end
  end.
End verify.
End sign.

(** ** Pieces of the encoding can be told apart *)

Lemma app_inj_len (s s' r r' : string) :
  String.length s = String.length s' → s +:+ r = s' +:+ r' → s = s' ∧ r = r'.
Proof.
  revert s'. induction s as [|a s IH]; intros [|a' s'] Hl E; simpl in Hl; try lia; [done|].
  change (String a (s +:+ r) = String a' (s' +:+ r')) in E. injection E as -> E.
  destruct (IH s') as [-> ->]; [lia|done|done].
Qed.

Lemma app_inj_l (s r r' : string) : s +:+ r = s +:+ r' → r = r'.
Proof. intros E. by destruct (app_inj_len s s r r' eq_refl E). Qed.

Lemma digits_until c (s s' r r' : string) :
  isDigit c = false → all_digits s = true → all_digits s' = true →
  s +:+ String c r = s' +:+ String c r' → s = s' ∧ r = r'.
Proof.
  intros Hc. revert s'. induction s as [|a s IH]; intros [|a' s'] Hs Hs' E.
  - by injection E.
  - change (String c r = String a' (s' +:+ String c r')) in E. injection E as <- E.
    cbn [all_digits] in Hs'. by rewrite Hc in Hs'.
  - change (String a (s +:+ String c r) = String c r') in E. injection E as -> E.
    cbn [all_digits] in Hs. by rewrite Hc in Hs.
  - change (String a (s +:+ String c r) = String a' (s' +:+ String c r')) in E. injection E as -> E.
    cbn [all_digits] in *. apply andb_true_iff in Hs as [_ Hs]. apply andb_true_iff in Hs' as [_ Hs'].
    destruct (IH s' Hs Hs' E) as [-> ->]. done.
Qed.

Lemma nat_text_inj n m : FormatInt (Z.of_nat n) = FormatInt (Z.of_nat m) → n = m.
Proof. unfold FormatInt. intros E%(inj pretty). lia. Qed.

Lemma nat_text_digits n : all_digits (FormatInt (Z.of_nat n)) = true.
Proof. apply FormatInt_digits. lia. Qed.

Lemma field_inj name v v' r r' : field name v +:+ r = field name v' +:+ r' → v = v' ∧ r = r'.
Proof.
  unfold field, len. rewrite !string_app_assoc. intros E%app_inj_l%app_inj_l.
  apply (digits_until ":") in E as [El E]; [|done|apply nat_text_digits..].
  apply nat_text_inj in El. by apply app_inj_len in E as [-> E%app_inj_l].
Qed.

Lemma counted_inj {A} tag (l l' : list A) r r' :
  (tag +:+ count l +:+ ";") +:+ r = (tag +:+ count l' +:+ ";") +:+ r' → length l = length l' ∧ r = r'.
Proof.
  unfold count. rewrite !string_app_assoc. intros E%app_inj_l.
  apply (digits_until ";") in E as [El E]; [|done|apply nat_text_digits..].
  by apply nat_text_inj in El.
Qed.

(** A list of items each of which can be cut off the front. *)
Lemma items_inj {A} (f : A → string) l l' r r' :
  (∀ x x' s s', x ∈ l → f x +:+ s = f x' +:+ s' → x = x' ∧ s = s') →
  length l = length l' → concat_str (f <$> l) +:+ r = concat_str (f <$> l') +:+ r' → l = l' ∧ r = r'.
Proof.
  revert l'. induction l as [|x l IH]; intros [|x' l'] Hf Hl E; simplify_eq/=; [done|].
  rewrite !string_app_assoc in E. apply Hf in E as [-> E]; [|by left].
  destruct (IH l') as [-> ->]; [|done..]. intros y y' s s' Hy. apply Hf. by right.
Qed.

(** ** What a value means on the wire

    The encoding does not tell apart two spellings of one number, a []string
    and a []any of strings, or the orders a map may be walked in.  [wire] is
    what is left. *)

#[warnings="-register-all"]
Inductive wire :=
| WNull | WBool (b : bool) | WNum (s : string) | WStr (s : string)
| WList (l : list wire) | WMap (m : list (string * wire)) | WOther (s : string).

Section wire_ind.
Context (P : wire → Prop) (Hnull : P WNull) (Hbool : ∀ b, P (WBool b)) (Hnum : ∀ s, P (WNum s))
  (Hstr : ∀ s, P (WStr s)) (Hlist : ∀ l, Forall P l → P (WList l))
  (Hmap : ∀ m, Forall P m.*2 → P (WMap m)) (Hother : ∀ s, P (WOther s)).

Fixpoint wire_ind' (w : wire) : P w :=
  match w with
  | WNull => Hnull | WBool b => Hbool b | WNum s => Hnum s | WStr s => Hstr s
  | WList l => Hlist l ((fix go l : Forall P l :=
      match l with [] => List.Forall_nil P | x :: l' => List.Forall_cons P x l' (wire_ind' x) (go l') end) l)
  | WMap m => Hmap m ((fix go m : Forall P m.*2 :=
      match m with [] => List.Forall_nil P | e :: m' => List.Forall_cons P e.2 (m'.*2) (wire_ind' e.2) (go m') end) m)
  | WOther s => Hother s
  end.
End wire_ind.

Fixpoint wtyped (w : wire) : string :=
  match w with
  | WNull => "null;"
  | WBool b => "bool:" +:+ FormatBool b +:+ ";"
  | WNum s => field "num" s
  | WStr s => field "str" s
  | WList l => ("list:" +:+ count l +:+ ";") +:+ concat_str (wtyped <$> l)
  | WMap m => ("map:" +:+ count m +:+ ";") +:+ concat_str ((λ e, field "key" e.1 +:+ wtyped e.2) <$> m)
  | WOther s => field "unencodable" s
  end.

(** The first three bytes name the type. *)
Definition wtag (w : wire) : string :=
  match w with
  | WNull => "nul" | WBool _ => "boo" | WNum _ => "num" | WStr _ => "str"
  | WList _ => "lis" | WMap _ => "map" | WOther _ => "une"
  end.

Lemma wtag_prefix w r : stake 3 (wtyped w +:+ r) = wtag w.
Proof. by destruct w. Qed.

Lemma wtyped_inj w : ∀ w' r r', wtyped w +:+ r = wtyped w' +:+ r' → w = w' ∧ r = r'.
Proof.
  induction w as [|b|s|s|l IH|m IH|s] using wire_ind'; intros w' r r' E;
    pose proof (f_equal (stake 3) E) as Ht; rewrite !wtag_prefix in Ht; destruct w' as [|b'|s'|s'|l'|m'|s'];
    try discriminate Ht; clear Ht; cbn [wtyped] in E.
  - by apply app_inj_l in E.
  - rewrite !string_app_assoc in E. apply app_inj_l in E. by destruct b, b'; simplify_eq/=.
  - by apply field_inj in E as [-> ->].
  - by apply field_inj in E as [-> ->].
  - rewrite !(string_app_assoc ("list:" +:+ _ +:+ ";")) in E. apply counted_inj in E as [Hl E].
    apply items_inj in E as [-> ->]; [done| |done].
    intros x x' t t' Hx. rewrite Forall_forall in IH. by apply IH.
  - rewrite !(string_app_assoc ("map:" +:+ _ +:+ ";")) in E. apply counted_inj in E as [Hl E].
    apply items_inj in E as [-> ->]; [done| |done].
    intros [k x] [k' x'] t t' Hx. cbn [fst snd]. rewrite !string_app_assoc. intros [-> E']%field_inj.
    rewrite Forall_forall in IH. apply IH in E' as [-> ->]; [done|]. by apply (list_elem_of_fmap_2 snd m (k', x)).
  - by apply field_inj in E as [-> ->].
Qed.

(** Sorting by key does not look at the values. *)
Section by_key_fmap.
Context {A B : Type} (f : A → B).
Let g (e : string * A) : string * B := (e.1, f e.2).

Lemma list_merge_fmap (l l' : list (string * A)) :
  list_merge key_le (g <$> l) (g <$> l') = g <$> list_merge key_le l l'.
Proof.
  revert l'. induction l as [|x l IH]; intros l'; [by destruct l'|].
  induction l' as [|y l' IH']; [done|]. cbn [fmap list_fmap list_merge] in *.
  destruct (decide (key_le x y)) as [Hle|Hle].
  - rewrite decide_True by done. cbn [fmap list_fmap]. f_equal. apply (IH (y :: l')).
  - rewrite decide_False by done. cbn [fmap list_fmap]. f_equal. apply IH'.
Qed.

Fixpoint gs (st : list (option (list (string * A)))) : list (option (list (string * B))) :=
  match st with
  | [] => []
  | Some l :: st' => Some (g <$> l) :: gs st'
  | None :: st' => None :: gs st'
  end.

Lemma merge_stack_fmap st l : merge_list_to_stack key_le (gs st) (g <$> l) = gs (merge_list_to_stack key_le st l).
Proof.
  revert l. induction st as [|[l'|] st IH]; intros l; [done| |done]. cbn [gs merge_list_to_stack].
  by rewrite list_merge_fmap, IH.
Qed.

Lemma merge_all_fmap st : merge_stack key_le (gs st) = g <$> merge_stack key_le st.
Proof. induction st as [|[l'|] st IH]; cbn [gs merge_stack]; [done| |done]. rewrite IH. apply list_merge_fmap. Qed.

Lemma by_key_fmap m : by_key (g <$> m) = g <$> by_key m.
Proof.
  unfold by_key, merge_sort.
  enough (∀ st, merge_sort_aux key_le (gs st) (g <$> m) = g <$> merge_sort_aux key_le st m) as Hx by apply (Hx []).
  induction m as [|x m IH]; intros st; cbn [merge_sort_aux]; [apply merge_all_fmap|].
  rewrite <- (IH (merge_list_to_stack key_le st [x])), <- merge_stack_fmap. done.
Qed.
End by_key_fmap.

Lemma by_key_perm {A} (m : list (string * A)) : by_key m ≡ₚ m.
Proof. apply merge_sort_Permutation. Qed.

Lemma by_key_sorted {A} (m : list (string * A)) : StronglySorted key_le (by_key m).
Proof.
  apply StronglySorted_merge_sort.
  - intros a b c. apply str_le_trans.
  - intros a b. apply (total str_le).
Qed.

(** Maps with the same entries are written alike, however they are walked. *)
Lemma by_key_unique {A} (m m' : list (string * A)) : NoDup m.*1 → m ≡ₚ m' → by_key m = by_key m'.
Proof.
  intros Hnd Hp. apply (StronglySorted_unique_strong key_le); [|apply by_key_sorted..|by rewrite !by_key_perm].
  intros [k x] [k' y] Hx Hy H1 H2. pose proof (anti_symm str_le _ _ H1 H2) as E. cbn [fst] in E. subst k'. f_equal.
  rewrite by_key_perm in Hx, Hy. rewrite <- Hp in Hy.
  apply list_elem_of_lookup in Hx as [i Hi], Hy as [j Hj].
  assert (i = j) as ->; [|congruence].
  eapply (NoDup_lookup m.*1); [done|rewrite list_lookup_fmap, Hi|rewrite list_lookup_fmap, Hj]; done.
Qed.

Section any_ind.
Context (P : any → Prop) (Hscalar : ∀ v, (match v with ASlice _ | AMap _ => False | _ => True end) → P v)
  (Hslice : ∀ l, Forall P l → P (ASlice l)) (Hmap : ∀ m, Forall P m.*2 → P (AMap m)).

Fixpoint any_ind' (v : any) : P v :=
  match v with
  | ASlice l => Hslice l ((fix go l : Forall P l :=
      match l with [] => List.Forall_nil P | x :: l' => List.Forall_cons P x l' (any_ind' x) (go l') end) l)
  | AMap m => Hmap m ((fix go m : Forall P m.*2 :=
      match m with [] => List.Forall_nil P | e :: m' => List.Forall_cons P e.2 (m'.*2) (any_ind' e.2) (go m') end) m)
  | ANil => Hscalar ANil I | ABool b => Hscalar (ABool b) I | ANumber t => Hscalar (ANumber t) I
  | AInt z => Hscalar (AInt z) I | AUint64 z => Hscalar (AUint64 z) I | AFloat f => Hscalar (AFloat f) I
  | AString s => Hscalar (AString s) I | AStrings l => Hscalar (AStrings l) I | AOther t => Hscalar (AOther t) I
  end.
End any_ind.

Section meaning.
Context `{GoRuntime V} (ovf : spec_float → Z).

Fixpoint norm (v : any) : wire :=
  match v with
  | ANil => WNull
  | ABool b => WBool b
  | ANumber _ | AInt _ | AUint64 _ | AFloat _ => WNum (number ovf v)
  | AString s => WStr s
  | ASlice l => WList (norm <$> l)
  | AStrings l => WList (WStr <$> l)
  | AMap m => WMap (by_key ((fix go m := match m with [] => [] | (k, x) :: m' => (k, norm x) :: go m' end) m))
  | AOther t => WOther t
  end.

Definition norm_map (m : kwargs) : list (string * wire) := by_key ((λ e, (e.1, norm e.2)) <$> m).

Lemma map_entries {B} (f : any → B) (m : kwargs) :
  (fix go m := match m with [] => [] | (k, x) :: m' => (k, f x) :: go m' end) m = (λ e, (e.1, f e.2)) <$> m.
Proof. induction m as [|[k x] m IH]; [done|]. cbn [fmap list_fmap fst snd]. by f_equal. Qed.

Lemma norm_AMap m : norm (AMap m) = WMap (norm_map m).
Proof. cbn [norm]. by rewrite map_entries. Qed.

Lemma length_by_key {A} (m : list (string * A)) : length (by_key m) = length m.
Proof. by rewrite by_key_perm. Qed.

(** The encoding writes what the value means, and no more. *)
Lemma typed_norm v : typed ovf v = wtyped (norm v).
Proof.
  induction v as [v Hv|l IH|m IH] using any_ind'.
  - destruct v; try done. cbn [typed norm wtyped]. unfold count. rewrite !length_fmap.
    by rewrite !string_app_assoc, <- list_fmap_compose.
  - cbn [typed norm wtyped]. unfold count. rewrite length_fmap, !string_app_assoc. do 4 f_equal.
    rewrite <- list_fmap_compose. apply list_fmap_ext. intros i x Hx. rewrite Forall_forall in IH.
    by apply IH, list_elem_of_lookup_2 with i.
  - rewrite norm_AMap. cbn [typed wtyped]. rewrite map_entries. unfold norm_map, count.
    rewrite length_by_key, length_fmap, !string_app_assoc. do 4 f_equal.
    rewrite (by_key_fmap (typed ovf) m), (by_key_fmap norm m), <- !list_fmap_compose.
    apply list_fmap_ext. intros i [k x] Hx. cbn. f_equal. rewrite Forall_forall in IH. apply IH.
    apply (list_elem_of_fmap_2 snd m (k, x)). rewrite <- (by_key_perm m). by apply list_elem_of_lookup_2 with i.
Qed.

(** Two maps that mean the same give the same meaning to every key. *)
Lemma get_kwarg_elem k x m : NoDup m.*1 → get_kwarg k m = Some x ↔ (k, x) ∈ m.
Proof.
  intros Hnd. unfold get_kwarg. split.
  - destruct (list_find _ m) as [[i [k' y]]|] eqn:E; [|done]. simpl. intros [= <-].
    apply list_find_Some in E as (Hi & Hk & _). simpl in Hk. subst. by apply list_elem_of_lookup_2 with i.
  - intros Hin. destruct (list_find _ m) as [[i [k' y]]|] eqn:E.
    + simpl. f_equal. apply list_find_Some in E as (Hi & Hk & _). simpl in Hk. subst.
      apply list_elem_of_lookup in Hin as [j Hj]. assert (i = j) as ->; [|congruence].
      eapply (NoDup_lookup m.*1); [done|rewrite list_lookup_fmap, Hi|rewrite list_lookup_fmap, Hj]; done.
    + apply list_find_None in E. rewrite Forall_forall in E. by destruct (E _ Hin).
Qed.

Lemma norm_map_lookup k w m :
  NoDup m.*1 → (k, w) ∈ norm_map m ↔ norm <$> get_kwarg k m = Some w.
Proof.
  intros Hnd. unfold norm_map. rewrite by_key_perm, list_elem_of_fmap. split.
  - intros ([k' x] & E & Hin). simplify_eq/=. apply get_kwarg_elem in Hin; [|done]. by rewrite Hin.
  - intros (x & Hx & ->)%fmap_Some. apply get_kwarg_elem in Hx; [|done]. by exists (k, x).
Qed.

Lemma norm_map_get m m' k :
  NoDup m.*1 → NoDup m'.*1 → norm_map m = norm_map m' → norm <$> get_kwarg k m = norm <$> get_kwarg k m'.
Proof.
  intros Hnd Hnd' E. apply option_eq. intros w. rewrite <- !norm_map_lookup by done. by rewrite E.
Qed.

Lemma kwargs_text (m : kwargs) :
  concat_str ((λ e : string * any, field "kwarg" e.1 +:+ typed ovf e.2) <$> by_key m) =
  concat_str ((λ e : string * wire, field "kwarg" e.1 +:+ wtyped e.2) <$> norm_map m).
Proof.
  unfold norm_map. rewrite (by_key_fmap norm m), <- list_fmap_compose. f_equal.
  apply list_fmap_ext. intros i [k x] _. cbn. by rewrite typed_norm.
Qed.

(** Payloads the encoding does not tell apart. *)
Definition same_bytes (p q : Payload) : Prop :=
  pJID p = pJID q ∧ pTarget p = pTarget q ∧ pTargetKind p = pTargetKind q ∧ pFun p = pFun q ∧
  pArg p = pArg q ∧ norm_map (pKwarg p) = norm_map (pKwarg q) ∧ pEnv p = pEnv q ∧ pExpires p = pExpires q.

Lemma expiry_text_inj e e' :
  writable e → writable e' →
  (if negb (IsZero e) then Format_RFC3339Nano e else "") =
  (if negb (IsZero e') then Format_RFC3339Nano e' else "") → e = e'.
Proof.
  unfold IsZero, writable.
  destruct (Z.eqb_spec e 0) as [->|He], (Z.eqb_spec e' 0) as [->|He']; cbn [negb]; intros Hw Hw' E.
  - done.
  - destruct Hw' as [|Hw']; [done|]. apply Parse_Format_RFC3339Nano in Hw'. by rewrite <- E in Hw'.
  - destruct Hw as [|Hw]; [done|]. apply Parse_Format_RFC3339Nano in Hw. by rewrite E in Hw.
  - destruct Hw as [|Hw]; [done|]. destruct Hw' as [|Hw']; [done|].
    apply Parse_Format_RFC3339Nano in Hw, Hw'. rewrite E in Hw. congruence.
Qed.

Lemma Canonical_same p q :
  writable (pExpires p) → writable (pExpires q) → Canonical ovf p = Canonical ovf q → same_bytes p q.
Proof.
  intros Hp Hq. unfold Canonical, canonical. rewrite !kwargs_text. intros E%app_inj_l.
  apply field_inj in E as [E1 E]. apply field_inj in E as [E2 E]. apply field_inj in E as [E3 E].
  apply field_inj in E as [E4 E]. apply counted_inj in E as [El E].
  apply items_inj in E as [E5 E]; [|intros x x' s s' _; apply field_inj|done].
  apply counted_inj in E as [Ek E].
  apply items_inj in E as [E6 E]; [|intros [k w] [k' w'] s s' _; cbn [fst snd]; rewrite !string_app_assoc;
    intros [-> Ew]%field_inj; by apply wtyped_inj in Ew as [-> ->]
    |unfold norm_map; by rewrite !length_by_key, !length_fmap].
  apply field_inj in E as [E7 E].
  rewrite <- (string_app_nil_r (field "expires" _)) in E. symmetry in E.
  rewrite <- (string_app_nil_r (field "expires" _)) in E. symmetry in E.
  apply field_inj in E as [E8 _]. apply expiry_text_inj in E8; [|done..]. by split_and!.
Qed.

Lemma same_bytes_text p q : same_bytes p q → Canonical ovf p = Canonical ovf q.
Proof.
  intros (E1 & E2 & E3 & E4 & E5 & E6 & E7 & E8). unfold Canonical, canonical. rewrite !kwargs_text.
  assert (count (pKwarg p) = count (pKwarg q)) as ->.
  { unfold count. do 2 f_equal. apply (f_equal length) in E6. unfold norm_map in E6.
    by rewrite !length_by_key, !length_fmap in E6. }
  by rewrite E1, E2, E3, E4, E5, E6, E7, E8.
Qed.

(** ** What a payload says

    Independently of how it is written: two values say the same if they are
    the same null, boolean or text, lists of values that say the same in this
    order, or maps with the same keys whose values say the same.  Numbers that
    are whole say the same if they are equal; of other numbers, which the
    encoding writes as the nearest binary64, nothing is said. *)

Definition is_number (v : any) : bool :=
  match v with ANumber _ | AInt _ | AUint64 _ | AFloat _ => true | _ => false end.

(** The integer that an integer type holds, or the decimal text of a
    json.Number if it is one of 64 bits. *)
Definition whole (v : any) : option Z :=
  match v with ANumber t => Atoi t | AInt z | AUint64 z => Some z | _ => None end.

Definition as_list (v : any) : option (list any) :=
  match v with ASlice l => Some l | AStrings l => Some (AString <$> l) | _ => None end.

#[warnings="-register-all"]
Inductive says : any → any → Prop :=
| says_nil : says ANil ANil
| says_bool b : says (ABool b) (ABool b)
| says_string s : says (AString s) (AString s)
| says_other t : says (AOther t) (AOther t)
| says_number v w :
    is_number v = true → is_number w = true → (∀ a b, whole v = Some a → whole w = Some b → a = b) → says v w
| says_list v w l l' : as_list v = Some l → as_list w = Some l' → Forall2 says l l' → says v w
| says_map m m' n n' :
    m ≡ₚ n → m' ≡ₚ n' → Forall2 (λ e e', e.1 = e'.1 ∧ says e.2 e'.2) n n' → says (AMap m) (AMap m').

(** All numbers of a value are whole, and its maps are maps. *)
Fixpoint plain (v : any) : Prop :=
  match v with
  | ANumber _ | AInt _ | AUint64 _ | AFloat _ => is_Some (whole v)
  | ASlice l => (fix go l := match l with [] => True | x :: l' => plain x ∧ go l' end) l
  | AMap m => NoDup m.*1 ∧ (fix go m := match m with [] => True | (_, x) :: m' => plain x ∧ go m' end) m
  | _ => True
  end.

Lemma plain_slice l : plain (ASlice l) → Forall plain l.
Proof. cbn [plain]. induction l as [|x l IH]; [constructor|]. intros [Hx Hl]. constructor; [done|by apply IH]. Qed.
Lemma plain_map m : plain (AMap m) → NoDup m.*1 ∧ Forall plain m.*2.
Proof.
  cbn [plain]. intros [Hnd Hm]. split; [done|]. clear Hnd. induction m as [|[k x] m IH]; [constructor|].
  destruct Hm as [Hx Hm]. constructor; [done|by apply IH].
Qed.

Definition same_payload (p q : Payload) : Prop :=
  pJID p = pJID q ∧ pTarget p = pTarget q ∧ pTargetKind p = pTargetKind q ∧ pFun p = pFun q ∧
  pArg p = pArg q ∧ says (AMap (pKwarg p)) (AMap (pKwarg q)) ∧ pEnv p = pEnv q ∧ pExpires p = pExpires q.

Lemma FormatInt_inj a b : FormatInt a = FormatInt b → a = b.
Proof. unfold FormatInt. apply (inj pretty). Qed.

Lemma number_whole v z : whole v = Some z → number ovf v = FormatInt z.
Proof. destruct v; simpl; try done; [intros ->; done|by intros [= ->]..]. Qed.

Lemma norm_number v s : norm v = WNum s ↔ is_number v = true ∧ s = number ovf v.
Proof. destruct v; simpl; naive_solver. Qed.
Lemma norm_list v l : norm v = WList l ↔ ∃ l', as_list v = Some l' ∧ l = norm <$> l'.
Proof.
  destruct v; simpl; try naive_solver. split.
  - intros [= <-]. eexists. split; [done|]. by rewrite <-list_fmap_compose.
  - intros (l' & [= <-] & ->). by rewrite <-list_fmap_compose.
Qed.

Lemma Forall_snd {A B} (P : B → Prop) (m : list (A * B)) : Forall P m.*2 → Forall (λ e, P e.2) m.
Proof. induction m; simpl; intros Hm; constructor; inversion Hm; auto. Qed.

(** What is written alike says the same. *)
Lemma norm_says v : ∀ w, norm v = norm w → says v w.
Proof.
  assert (Hlist : ∀ v w l, as_list v = Some l → Forall (λ x, ∀ w, norm x = norm w → says x w) l →
    norm v = norm w → says v w).
  { intros v0 w l Hl IH E. assert (E' : norm v0 = WList (norm <$> l)) by (apply norm_list; eauto). rewrite E' in E.
    symmetry in E. apply norm_list in E as (l' & Hl' & E). eapply says_list; [done..|].
    clear -IH E. revert l' E. induction IH as [|x l Hx _ IH]; intros [|y l'] E; simplify_eq/=; constructor; auto. }
  induction v as [v Hv|l IH|m IH] using any_ind'; intros w E.
  - destruct (as_list v) as [l|] eqn:Hl.
    { destruct v; try done. injection Hl as <-. eapply Hlist; [done| |done]. apply Forall_fmap, Forall_true. intros s w'.
      simpl. intros E'. destruct w'; simplify_eq/=; constructor. }
    destruct (is_number v) eqn:Hn.
    { assert (E' : norm v = WNum (number ovf v)) by (by apply norm_number). rewrite E' in E. symmetry in E.
      apply norm_number in E as [Hw E]. apply says_number; [done..|]. intros a b Ha Hb.
      rewrite (number_whole v a Ha), (number_whole w b Hb) in E. by apply FormatInt_inj. }
    destruct v; try done; destruct w; simplify_eq/=; constructor.
  - by eapply Hlist.
  - destruct w; try (rewrite norm_AMap in E; discriminate E). rewrite !norm_AMap in E. injection E as E.
    unfold norm_map in E. rewrite !(by_key_fmap norm) in E.
    apply (says_map _ _ (by_key m) (by_key m0)); [by rewrite by_key_perm..|].
    assert (IH' : Forall (λ e : string * any, ∀ w, norm e.2 = norm w → says e.2 w) (by_key m)).
    { rewrite by_key_perm. exact (Forall_snd _ _ IH). }
    clear -IH' E. revert E. generalize (by_key m0). induction IH' as [|e l He _ IH]; intros [|e' l'] E; simplify_eq/=;
      constructor; auto.
Qed.

(** What says the same, in whole numbers, is written alike. *)
Lemma says_norm v : ∀ w, plain v → plain w → says v w → norm v = norm w.
Proof.
  assert (Hlists : ∀ l l', Forall (λ x, ∀ w, plain x → plain w → says x w → norm x = norm w) l →
    Forall plain l → Forall plain l' → Forall2 says l l' → norm <$> l = norm <$> l').
  { intros l l' IH Hp Hp' H2. induction H2 as [|x y l l' Hxy H2 IH2]; [done|].
    apply Forall_cons in IH as [Hx IH], Hp as [Hpx Hp], Hp' as [Hpy Hp']. simpl. f_equal; [by apply Hx|by apply IH2]. }
  assert (Hpl : ∀ v l, as_list v = Some l → plain v → Forall plain l).
  { intros v0 l Hl Hp. destruct v0; simplify_eq/=; [by apply plain_slice|]. apply Forall_fmap, Forall_true. done. }
  assert (Hlist : ∀ v w l, as_list v = Some l → Forall (λ x, ∀ w, plain x → plain w → says x w → norm x = norm w) l →
    plain v → plain w → says v w → norm v = norm w).
  { intros v0 w l Hl IH Hp Hp' Hs. inversion Hs as [| | | |? ? Hn|? ? l0 l' Hl0 Hl' H2|]; simplify_eq/=; [by destruct v0|].
    assert (norm v0 = WList (norm <$> l)) as -> by (apply norm_list; eauto). symmetry. apply norm_list.
    exists l'. split; [done|]. apply Hlists; eauto. }
  induction v as [v Hv|l IH|m IH] using any_ind'; intros w Hp Hp' Hs.
  - destruct (as_list v) as [l|] eqn:Hl.
    { eapply Hlist; [done| |done..]. destruct v; try done. injection Hl as <-. apply Forall_fmap, Forall_true.
      intros s w' _ _ Hs'. by inversion Hs'; simplify_eq/=. }
    inversion Hs as [| | | |? ? H1 H2 H3|? ? ? ? Hl0|]; simplify_eq/=; try done.
    assert (Hx : ∀ v, is_number v = true → plain v → ∃ a, whole v = Some a ∧ norm v = WNum (FormatInt a)).
    { intros v0 Hn Hpv. assert (is_Some (whole v0)) as [a Ha] by (destruct v0; done). exists a. split; [done|].
      apply norm_number. split; [done|]. by rewrite (number_whole _ _ Ha). }
    destruct (Hx v H1 Hp) as (a & Ha & ->), (Hx w H2 Hp') as (b & Hb & ->). do 2 f_equal. by apply H3.
  - by eapply Hlist.
  - inversion Hs as [| | | |? ? Hn|? ? ? ? Hl|? m' n n' Hm Hm' H2]; [done..|]. subst.
    rewrite !norm_AMap. f_equal. unfold norm_map. apply plain_map in Hp as [Hnd Hp], Hp' as [Hnd' Hp'].
    apply by_key_unique; [by rewrite <-list_fmap_compose|]. rewrite Hm, Hm'.
    assert (IHn : Forall (λ e : string * any, ∀ w, plain e.2 → plain w → says e.2 w → norm e.2 = norm w) n).
    { rewrite <-Hm. exact (Forall_snd _ _ IH). }
    assert (Hpn : Forall (λ e : string * any, plain e.2) n) by (rewrite <-Hm; exact (Forall_snd _ _ Hp)).
    assert (Hpn' : Forall (λ e : string * any, plain e.2) n') by (rewrite <-Hm'; exact (Forall_snd _ _ Hp')).
    clear -H2 IHn Hpn Hpn'. induction H2 as [|e e' n n' [Hk He] H2 IH]; [done|].
    apply Forall_cons in IHn as [? ?], Hpn as [? ?], Hpn' as [? ?]. simpl. rewrite Hk. f_equiv; [|by apply IH]. f_equal. auto.
Qed.

Lemma canonical_says p q :
  writable (pExpires p) → writable (pExpires q) → Canonical ovf p = Canonical ovf q → same_payload p q.
Proof.
  intros Hp Hq (E1 & E2 & E3 & E4 & E5 & E6 & E7 & E8)%Canonical_same; [|done..]. split_and!; try done.
  apply norm_says. by rewrite !norm_AMap, E6.
Qed.

(** C29: The bytes a signature is made over say one thing: jobs with the same
    canonical bytes have the same jid, target and kind of target, function,
    arguments in their order, environment and expiry, and keyword arguments
    that say the same; and for jobs all numbers of which are whole (an integer
    type, or the decimal text of a 64-bit integer) the converse holds, so their
    bytes are the same exactly when they say the same.  A dry run is signed as
    the boolean: no other value of [test] has the same bytes.  Of numbers that
    are not whole nothing is claimed: large ones collide
    ([large_numbers_collide]). *)
Theorem canonical_says_one_thing p q :
  NoDup (pKwarg p).*1 → NoDup (pKwarg q).*1 → writable (pExpires p) → writable (pExpires q) →
  (Canonical ovf p = Canonical ovf q → same_payload p q ∧
     ∀ k b, get_kwarg k (pKwarg p) = Some (ABool b) ↔ get_kwarg k (pKwarg q) = Some (ABool b)) ∧
  (plain (AMap (pKwarg p)) → plain (AMap (pKwarg q)) → same_payload p q → Canonical ovf p = Canonical ovf q).
Proof.
  intros Hnp Hnq Hp Hq. split.
  - intros E. split; [by apply canonical_says|]. apply Canonical_same in E as (_ & _ & _ & _ & _ & Hk & _); [|done..].
    intros k b. pose proof (norm_map_get (pKwarg p) (pKwarg q) k Hnp Hnq Hk) as Hget.
    assert (∀ o, o = Some (ABool b) ↔ norm <$> o = Some (WBool b)) as Hb.
    { intros [v|]; simpl; [|done]. split; [by intros [= ->]|]. intros [= E]. by destruct v; simplify_eq/=. }
    by rewrite !Hb, Hget.
  - intros Hpp Hpq (E1 & E2 & E3 & E4 & E5 & E6 & E7 & E8). apply same_bytes_text. split_and!; try done.
    apply says_norm in E6; [|done..]. rewrite !norm_AMap in E6. by injection E6.
Qed.

(** The order in which a map is walked does not show. *)
Lemma Canonical_order p m :
  NoDup (pKwarg p).*1 → m ≡ₚ pKwarg p →
  Canonical ovf (mkPayload (pJID p) (pTarget p) (pTargetKind p) (pFun p) (pArg p) m (pEnv p) (pExpires p)) =
  Canonical ovf p.
Proof.
  intros Hnd Hm. apply same_bytes_text. split_and!; try done. cbn [pKwarg]. symmetry.
  apply by_key_unique; [|by rewrite Hm]. by rewrite <- list_fmap_compose.
Qed.

Lemma domains_differ p q f : canonical p domain f ≠ canonical q domainV1 f.
Proof. intros E%(f_equal (stake 13)). by vm_compute in E. Qed.
End meaning.

(** ** Verification *)

Section verified.
Context `{GoRuntime V} (ovf : spec_float → Z).
Context {K : Type} (VerifyASN1 : K → string → string → bool) (sha256 : string → string)
  (base64_Decode : string → option string) (json_Marshal : any → option string).

Lemma first_verifying_Some keys digest der name :
  first_verifying VerifyASN1 keys digest der = Some name →
  ∃ key, key ∈ keys ∧ Name key = name ∧ VerifyASN1 (PubKey key) digest der = true.
Proof.
  unfold first_verifying. intros ([i key] & Hf & ->)%fmap_Some. apply list_find_Some in Hf as (Hi & Hv & _).
  exists key. split_and!; [by apply list_elem_of_lookup_2 with i|done|done].
Qed.

(** What each key's holder signed. *)
Context (signed_by : K → Payload → Prop).
(** A signature that verifies was made by the key's holder over the digest of a
    payload: signatures are not forged. *)
Hypothesis unforgeable : ∀ k d s, VerifyASN1 k d s = true → ∃ q, signed_by k q ∧ d = sha256 (Canonical ovf q).
(** Signers sign expiries that can be written. *)
Hypothesis signed_expiry : ∀ k q, signed_by k q → writable (pExpires q).

Abbreviation verify := (Verify ovf VerifyASN1 sha256 base64_Decode json_Marshal).

(** Two different texts with one hash. *)
Definition collision (x y : string) : Prop := x ≠ y ∧ sha256 x = sha256 y.

Lemma verify_signed keys p sig name :
  writable (pExpires p) → verify keys p sig = inr name →
  pExpires p ≠ 0 ∧ ∃ key q, key ∈ keys ∧ Name key = name ∧ signed_by (PubKey key) q ∧
    (same_payload p q ∨ collision (Canonical ovf p) (Canonical ovf q)).
Proof.
  intros Hw. unfold Verify. destruct keys as [|k0 keys0] eqn:Ek; [done|]. rewrite <- Ek.
  case_bool_decide; [done|]. unfold IsZero. destruct (Z.eqb_spec (pExpires p) 0); [done|].
  destruct (base64_Decode sig) as [der|]; [|done].
  destruct (first_verifying _ _ _ _) as [name'|] eqn:Ef.
  - intros [= ->]. split; [done|]. apply first_verifying_Some in Ef as (key & Hin & Hn & Hv).
    destruct (unforgeable _ _ _ Hv) as (q & Hq & Hd).
    exists key, q. split_and!; [done..|].
    destruct (decide (Canonical ovf p = Canonical ovf q)) as [E|Hne]; [left|by right].
    by apply (canonical_says ovf); [|eapply signed_expiry|].
  - intros E. repeat case_match; discriminate E.
Qed.

(** A job whose signature a node accepts was signed: the holder of one of the
    keys the node trusts signed a payload that says the same thing (or whose
    bytes are another text with the same hash), and it carries an expiry. *)
Theorem verified_was_signed keys p sig name :
  writable (pExpires p) → verify keys p sig = inr name →
  pExpires p ≠ 0 ∧ ∃ key q, key ∈ keys ∧ Name key = name ∧ signed_by (PubKey key) q ∧
    (same_payload p q ∨ collision (Canonical ovf p) (Canonical ovf q)).
Proof. apply verify_signed. Qed.
End verified.

Section signing.
Context `{GoRuntime V} (ovf : spec_float → Z).
Context {K P : Type} (VerifyASN1 : K → string → string → bool) (sha256 : string → string)
  (base64_Decode : string → option string) (json_Marshal : any → option string)
  (curve_ok : P → bool) (SignASN1 : P → string → option string) (base64_Encode : string → string) (public : P → K).
Hypothesis sign_correct : ∀ k d s, SignASN1 k d = Some s → VerifyASN1 (public k) d s = true.
Hypothesis base64_correct : ∀ s, base64_Decode (base64_Encode s) = Some s.
Hypothesis base64_text : ∀ k d s, SignASN1 k d = Some s → TrimSpace (base64_Encode s) ≠ "".

(** What Sign makes, Verify accepts: on any node that trusts the public half
    of the key. *)
Theorem sign_verify key p sig keys name :
  Sign ovf sha256 curve_ok SignASN1 base64_Encode (Some key) p = inr sig →
  mkSignerKey name (public key) ∈ keys →
  ∃ name', Verify ovf VerifyASN1 sha256 base64_Decode json_Marshal keys p sig = inr name'.
Proof.
  unfold Sign, Verify. destruct (curve_ok key); [|done]. cbn [negb].
  destruct (IsZero (pExpires p)); [done|].
  destruct (SignASN1 key _) as [der|] eqn:Es; [|done]. intros [= <-] Hin.
  destruct keys as [|k0 ks] eqn:Ek; [by apply elem_of_nil in Hin|]. rewrite <- Ek in *.
  rewrite bool_decide_false by (by eapply base64_text). rewrite base64_correct.
  assert (is_Some (first_verifying VerifyASN1 keys (Digest ovf sha256 p) der)) as [n ->]; [|eauto].
  unfold first_verifying. apply fmap_is_Some, (list_find_elem_of _ _ (mkSignerKey name (public key))); [done|].
  by apply sign_correct.
Qed.
End signing.

(** ** A concrete signer *)

#[local] Existing Instance demo_runtime.

Definition demo_ovf (_ : spec_float) : Z := minInt64.
Definition demo_payload (test : any) : Payload :=
  mkPayload "20260819T142211023456" "web*" "glob" "state.apply" ["nginx"; "a:1:b"]
    [("test", test); ("pillar", AMap [("z", ASlice [ANumber "1"; AStrings ["x"]]); ("a", ANil)])] "base"
    (demo_now + Hour).
(** The same keywords, walked in another order, with a number spelled otherwise. *)
Definition demo_payload' : Payload :=
  mkPayload "20260819T142211023456" "web*" "glob" "state.apply" ["nginx"; "a:1:b"]
    [("pillar", AMap [("a", ANil); ("z", ASlice [AInt 1; ASlice [AString "x"]])]); ("test", ABool true)] "base"
    (demo_now + Hour).

Example canonical_example :
  Canonical demo_ovf (demo_payload (ABool true)) = Canonical demo_ovf demo_payload' ∧
  Canonical demo_ovf (demo_payload (AString "true")) ≠ Canonical demo_ovf demo_payload'.
Proof. split; vm_compute; [reflexivity|discriminate]. Qed.

Lemma demo_writable : writable (demo_now + Hour).
Proof. right. unfold four_digit. vm_compute. split; congruence. Qed.

Lemma demo_plain : plain (AMap (pKwarg (demo_payload (ABool true)))) ∧ plain (AMap (pKwarg demo_payload')).
Proof.
  split; cbn; repeat split; try (apply (bool_decide_unpack _); vm_compute; exact I); eexists; vm_compute; reflexivity.
Qed.

Lemma canonical_says_one_thing_witness :
  same_payload (demo_payload (ABool true)) demo_payload' ∧
  (same_payload (demo_payload (ABool true)) demo_payload' →
     Canonical demo_ovf (demo_payload (ABool true)) = Canonical demo_ovf demo_payload').
Proof.
  destruct (canonical_says_one_thing demo_ovf (demo_payload (ABool true)) demo_payload') as [Hsame Hback].
  - apply (bool_decide_unpack _). vm_compute. exact I.
  - apply (bool_decide_unpack _). vm_compute. exact I.
  - apply demo_writable.
  - apply demo_writable.
  - split; [apply Hsame; vm_compute; reflexivity|]. apply Hback; apply demo_plain.
Defined.

Definition demo_verify (k d s : string) : bool :=
  bool_decide (k = "alice" ∧ d = Canonical demo_ovf demo_payload' ∧ s = d).
Definition demo_signed_by (k : string) (q : Payload) : Prop := k = "alice" ∧ q = demo_payload'.

Lemma verified_was_signed_witness :
  ∃ key q, key ∈ [mkSignerKey "ops" "alice"] ∧ Name key = "ops" ∧ demo_signed_by (PubKey key) q ∧
    same_payload (demo_payload (ABool true)) q.
Proof.
  destruct (verified_was_signed demo_ovf demo_verify (λ s, s) Some (λ _, None) demo_signed_by) with
    (keys := [mkSignerKey "ops" "alice"]) (p := demo_payload (ABool true))
    (sig := Canonical demo_ovf demo_payload') (name := "ops") as [_ (key & q & Hkey & Hn & Hq & Hsame)].
  - intros k d s Hv. apply bool_decide_eq_true in Hv as (-> & -> & _). by exists demo_payload'.
  - intros k q [_ ->]. apply demo_writable.
  - apply demo_writable.
  - vm_compute. reflexivity.
  - exists key, q. split_and!; [exact Hkey|exact Hn|exact Hq|]. destruct Hsame as [Hsame|[Hne E]]; [exact Hsame|by destruct Hne].
Defined.

Lemma sign_verify_witness :
  ∃ name, Verify demo_ovf demo_verify (λ s, s) Some (λ _, None) [mkSignerKey "ops" "alice"] demo_payload'
            (Canonical demo_ovf demo_payload') = inr name.
Proof.
  apply (sign_verify demo_ovf demo_verify (λ s, s) Some (λ _, None) (λ _ : unit, true)
           (λ _ d, if bool_decide (d = Canonical demo_ovf demo_payload') then Some d else None) (λ s, s) (λ _, "alice"))
    with (key := tt) (name := "ops").
  - intros k d s. case_bool_decide as E; [|done]. intros [= <-]. unfold demo_verify.
    rewrite bool_decide_true; [reflexivity|]. by rewrite E.
  - reflexivity.
  - intros k d s. case_bool_decide as E; [|done]. intros [= <-]. rewrite E. vm_compute. discriminate.
  - vm_compute. reflexivity.
  - by left.
Defined.

(** Beyond 64 bits a number is written as the nearest binary64: two numbers that
    differ have the same bytes. *)
Example large_numbers_collide `{GoRuntime Z} a b f :
  Atoi a = None → Atoi b = None → ParseFloat a = Some f → ParseFloat b = Some f →
  typed demo_ovf (ANumber a) = typed demo_ovf (ANumber b).
Proof. intros Ha Hb Hfa Hfb. cbn [typed]. unfold number. by rewrite Ha, Hb, Hfa, Hfb. Qed.
