(* ===== verification/Target.v ===== *)
(** * Target expressions

    Models src/internal/target: the compound grammar of compound.go (tokens,
    recursive-descent parser with its bounds on nesting and on what its
    patterns cost), nodegroup expansion, the leaf matchers and Compile of
    target.go.  Regular expressions (internal/regexcompat over package regexp)
    and package net/netip are parameters.

    A matcher short-circuits from left to right, and only a pillar leaf that
    is reached asks for the pillar: matching answers whether it did.  What a
    target means, and that compiling keeps it, is in TargetGroups. *)

From S2P Require Import Prelude GoLib Value Fnmatch.

Open Scope Z_scope.

(** ** Kinds *)

Inductive TKind := Glob | List | Regex | Grain | GrainRegex | Pillar | PillarRegex | Subnet | Nodegroup | Compound.
#[global] Instance TKind_eq_dec : EqDecision TKind.
Proof. solve_decision. Defined.

Definition TKind_String (k : TKind) : string :=
  match k with
  | Glob => "glob" | List => "list" | Regex => "pcre" | Grain => "grain" | GrainRegex => "grain_pcre"
  | Pillar => "pillar" | PillarRegex => "pillar_pcre" | Subnet => "ipcidr" | Nodegroup => "nodegroup"
  | Compound => "compound"
  end.

Definition kindLetters : list (string * TKind) :=
  [("G", Grain); ("P", GrainRegex); ("I", Pillar); ("J", PillarRegex);
   ("L", List); ("S", Subnet); ("E", Regex); ("N", Nodegroup)].

Definition kindLetter (letter : string) : option TKind :=
  (λ p : nat * (string * TKind), p.2.2) <$> list_find (λ p : string * TKind, p.1 = letter) kindLetters.

Definition KindFromFlag (flag : string) : option TKind :=
  if bool_decide (flag ∈ [""; "glob"]) then Some Glob
  else if bool_decide (flag ∈ ["L"; "list"]) then Some List
  else if bool_decide (flag ∈ ["E"; "pcre"]) then Some Regex
  else if bool_decide (flag ∈ ["G"; "grain"]) then Some Grain
  else if bool_decide (flag ∈ ["P"; "grain_pcre"]) then Some GrainRegex
  else if bool_decide (flag ∈ ["I"; "pillar"]) then Some Pillar
  else if bool_decide (flag ∈ ["J"; "pillar_pcre"]) then Some PillarRegex
  else if bool_decide (flag ∈ ["S"; "ipcidr"]) then Some Subnet
  else if bool_decide (flag ∈ ["N"; "nodegroup"]) then Some Nodegroup
  else if bool_decide (flag ∈ ["C"; "compound"]) then Some Compound
  else None.

(** ** Errors: the expression, the column when there is one, and the reason *)

Inductive reason :=
| TooLong (n : nat) | Empty | UnexpectedTok (t : string) | UnmatchedClose | NeverClosed | EndsEarly
| NeedsLeft (t : string) | NoValue (letter : string) | TooDeep
| GroupDepth | GroupCycle (path : list string) | GroupUndefined
| OverBudget | BadGlob (e : compile_error) | BadRegex | EmptyKey | BadSubnet | Unsupported.

Record TError := mkTErr { teExpr : string; teCol : nat; teReason : reason }.

Definition elide (expr : string) : string :=
  if (String.length expr <=? 64)%nat then expr
  else stake 64 expr +:+ "... (" +:+ FormatInt (Z.of_nat (String.length expr)) +:+ " bytes)".

Definition withCol (e : TError) (col : nat) : TError :=
  if (teCol e =? 0)%nat then mkTErr (teExpr e) col (teReason e) else e.

(** ** Tokens *)

Record tok := mkTok { text : string; col : nat }.

(** [cur] is the token that has begun, by its start and its text so far. *)
Fixpoint tok_go (s : string) (i : nat) (cur : option (nat * string)) (depth : nat) : list tok :=
  let flush := match cur with Some (st, t) => [mkTok t (st + 1)] | None => [] end in
  match s with
  | EmptyString => flush
  | String c r =>
      let grow := Some (match cur with Some (st, t) => (st, t +:+ String c "") | None => (i, String c "") end) in
      if bool_decide (c = " "%char) || bool_decide (c = "009"%char) then
        if (0 <? depth)%nat then tok_go r (S i) grow depth else flush ++ tok_go r (S i) None 0
      else if bool_decide (c = "("%char) then
        match cur with
        | None => mkTok "(" (i + 1) :: tok_go r (S i) None depth
        | Some _ => tok_go r (S i) grow (S depth)
        end
      else if bool_decide (c = ")"%char) then
        if (0 <? depth)%nat then tok_go r (S i) grow (depth - 1)
        else flush ++ mkTok ")" (i + 1) :: tok_go r (S i) None 0
      else tok_go r (S i) grow depth
  end.

Definition tokenize (src : string) : list tok := tok_go src 0 None 0.

Example tokens_of_expression :
  text <$> tokenize "G@os:Linux and (not web1 or E@^(a| b)[0-9])" =
  ["G@os:Linux"; "and"; "("; "not"; "web1"; "or"; "E@^(a| b)[0-9]"; ")"].
Proof. by vm_compute. Qed.

(** ** What a matcher reads about a node *)

Record Node := mkNode {
  nID : string; Grains : option Map; nPillar : option Map;
  (** A loader, with the pillar it produces if it can. *)
  LoadPillar : option (option Map) }.

Definition NewMap : value := VMap (mkMap [] ∅ (mkPos "" 0 0)).

Definition pickGrains (n : Node) : value := from_option VMap NewMap (Grains n).
Definition pickPillar (n : Node) : value :=
  match LoadPillar n with
  | Some (Some m) => VMap m
  | Some None => NewMap
  | None => from_option VMap NewMap (nPillar n)
  end.

(** ** Compiled expressions *)

Inductive leaf :=
| LId (pred : string → bool)
| LPath (pillar : bool) (cands : list (string * option (string → bool)))
| LAddr (key : string) (pred : string → bool).

#[warnings="-register-all"]
Inductive tnode :=
| NLeaf (l : leaf)
| NAny (l : list tnode)
| NAll (l : list tnode)
| NNot (n : tnode).

Record Term := mkTerm { Kind : TKind; TKey : string }.

(** package net/netip *)
Class NetIP := {
  Addr : Type; Prefix : Type;
  ParseAddr : string → option Addr;
  Is4 : Addr → bool;
  Addr_String : Addr → string;
  WithoutZone : Addr → Addr;
  ParsePrefix : string → option Prefix;
  Masked : Prefix → Prefix;
  Prefix_Addr : Prefix → Addr;
  Contains : Prefix → Addr → bool;
}.

Abbreviation Nodegroups := (gmap string string).

Definition maxCompoundDepth : nat := 100.
Definition MaxExprLen : nat := Z.to_nat 1048576.
Definition maxPatternBytes : Z := 32768.

Section target.
Context `{Runtime} `{NetIP} (regex_Compile : string → option (string → bool)).

(** *** Evaluation: the answer, and whether the pillar was asked for *)

Definition matchScalarOrList (v : value) (pred : string → bool) : bool :=
  match v with
  | VSeq t => existsb (λ item, pred (KeyString item)) t
  | VMap _ | VNilMap => false
  | _ => pred (KeyString v)
  end.

Definition anyGrainAddress (n : Node) (key : string) (pred : string → bool) : bool :=
  match Grains n with
  | None => false
  | Some g =>
      match Get g (VString key) with
      | Some (VSeq l) => existsb (λ item, match item with VString s => pred s | _ => false end) l
      | _ => false
      end
  end.

(** The readings of a path target in turn; one whose pattern did not compile is
    passed over. *)
Definition cands_match (root : value) (cands : list (string * option (string → bool))) : bool :=
  existsb (λ c : string * option (string → bool),
    match c.2 with
    | Some p => match Traverse root c.1 ":" with Some v => matchScalarOrList v p | None => false end
    | None => false
    end) cands.

Definition leaf_match (l : leaf) (n : Node) : bool * bool :=
  match l with
  | LId p => (p (nID n), false)
  | LPath pillar cands =>
      let usable := filter (λ c : string * option (string → bool), is_Some c.2) cands in
      (cands_match (if pillar then pickPillar n else pickGrains n) cands,
       pillar && negb (bool_decide (usable = [])))
  | LAddr key p => (anyGrainAddress n key p, false)
  end.

Fixpoint tmatch (t : tnode) (n : Node) : bool * bool :=
  match t with
  | NLeaf l => leaf_match l n
  | NAny l =>
      (fix go l := match l with
        | [] => (false, false)
        | x :: l' =>
            let '(b, asked) := tmatch x n in
            if b : bool then (true, asked) else let '(b', asked') := go l' in (b', asked || asked')
        end) l
  | NAll l =>
      (fix go l := match l with
        | [] => (true, false)
        | x :: l' =>
            let '(b, asked) := tmatch x n in
            if b : bool then let '(b', asked') := go l' in (b', asked || asked') else (false, asked)
        end) l
  | NNot x => let '(b, asked) := tmatch x n in (negb b, asked)
  end.

(** *** Leaves, with what is left of the budget *)

Definition spend (left_ : Z) (expr : string) (n : nat) : TError + Z :=
  if left_ <? Z.of_nat n then inl (mkTErr (elide expr) 0 OverBudget) else inr (left_ - Z.of_nat n).

Definition compileGlob (expr pattern : string) (b : Z) : TError + (string → bool) * Z :=
  if bool_decide (pattern = "*") then inr (λ _, true, b)
  else match Fnmatch.Compile pattern with
  | inl e => inl (mkTErr (elide expr) 0 (BadGlob e))
  | inr p =>
      if IsLiteral pattern then inr (Pattern_Match p, b)
      else match spend b expr (String.length pattern) with
           | inl e => inl e
           | inr b => inr (Pattern_Match p, b)
           end
  end.

(** Every reading of a path and a pattern, the last colon first; [pre] is what
    has been passed, in reverse order of the split points found. *)
Fixpoint split_colons (pre s : string) : list (string * string) :=
  match s with
  | EmptyString => []
  | String c r =>
      let later := split_colons (pre +:+ String c "") r in
      if bool_decide (c = ":"%char) && negb (bool_decide (pre = "")) then later ++ [(pre, r)] else later
  end.

Definition splitCandidates (expr : string) : TError + list (string * string) :=
  if negb (contains_any [":"%char] expr) then inr [(expr, "*")]
  else match split_colons "" expr with
       | [] => inl (mkTErr expr 0 EmptyKey)
       | out => inr out
       end.

Definition splitKeyValue (expr : string) : TError + string * string :=
  match IndexByte ":" (string_of_list_ascii (reverse (list_ascii_of_string expr))) with
  | None => inr (expr, "*")
  | Some k =>
      let i := (String.length expr - 1 - k)%nat in
      if (i =? 0)%nat then inl (mkTErr expr 0 EmptyKey) else inr (stake i expr, sdrop (S i) expr)
  end.

Definition leafKey (kind : TKind) (expr : string) : string :=
  if bool_decide (kind ∈ [Grain; GrainRegex; Pillar; PillarRegex]) then
    match splitKeyValue expr with inr (key, _) => key | inl _ => "" end
  else "".

Definition ListIDs (expr : string) : list string :=
  filter (λ id, id ≠ "") (TrimSpace <$> Split expr ",").

Definition addressGrain (a : Addr) : string := if Is4 a then "ipv4" else "ipv6".

Definition compileSubnet (expr : string) : TError + leaf :=
  match ParseAddr expr with
  | Some addr => inr (LAddr (addressGrain addr) (λ s, bool_decide (s = Addr_String addr)))
  | None =>
      match ParsePrefix expr with
      | None => inl (mkTErr expr 0 BadSubnet)
      | Some prefix =>
          let p := Masked prefix in
          inr (LAddr (addressGrain (Prefix_Addr p))
                 (λ s, match ParseAddr s with Some a => Contains p (WithoutZone a) | None => false end))
      end
  end.

(** The globs of a grain target, each reading one. *)
Fixpoint compile_globs (expr : string) (cands : list (string * string)) (b : Z)
    : TError + list (string * option (string → bool)) * Z :=
  match cands with
  | [] => inr ([], b)
  | (key, pattern) :: cands' =>
      match compileGlob expr pattern b with
      | inl e => inl e
      | inr (g, b) =>
          match compile_globs expr cands' b with
          | inl e => inl e
          | inr (gs, b) => inr ((key, Some g) :: gs, b)
          end
      end
  end.

(** The patterns of a grain target: only the first must compile. *)
Fixpoint compile_regexes (expr : string) (first : bool) (cands : list (string * string)) (b : Z)
    : TError + list (string * option (string → bool)) * Z :=
  match cands with
  | [] => inr ([], b)
  | (key, pattern) :: cands' =>
      match spend b expr (String.length pattern) with
      | inl e => inl e
      | inr b =>
          match regex_Compile pattern, first with
          | None, true => inl (mkTErr expr 0 BadRegex)
          | re, _ =>
              match compile_regexes expr false cands' b with
              | inl e => inl e
              | inr (gs, b) => inr ((key, re) :: gs, b)
              end
          end
      end
  end.

Definition compileLeaf (kind : TKind) (expr : string) (b : Z) : TError + leaf * Z :=
  match kind with
  | Glob => match compileGlob expr expr b with inl e => inl e | inr (g, b) => inr (LId g, b) end
  | List => inr (LId (λ id, bool_decide (id ∈ ListIDs expr)), b)
  | Regex =>
      match spend b expr (String.length expr) with
      | inl e => inl e
      | inr b =>
          match regex_Compile expr with
          | None => inl (mkTErr expr 0 BadRegex)
          | Some re => inr (LId re, b)
          end
      end
  | Grain | Pillar =>
      match splitCandidates expr with
      | inl e => inl e
      | inr cands =>
          match compile_globs expr cands b with
          | inl e => inl e
          | inr (gs, b) => inr (LPath (bool_decide (kind = Pillar)) gs, b)
          end
      end
  | GrainRegex | PillarRegex =>
      match splitCandidates expr with
      | inl e => inl e
      | inr cands =>
          match compile_regexes expr true cands b with
          | inl e => inl e
          | inr (gs, b) => inr (LPath (bool_decide (kind = PillarRegex)) gs, b)
          end
      end
  | Subnet => match compileSubnet expr with inl e => inl e | inr l => inr (l, b) end
  | Nodegroup | Compound => inl (mkTErr expr 0 Unsupported)
  end.

(** *** Nodegroups

    Expansion is a textual substitution: every N@name in the text becomes the
    group's own expansion in parentheses.  References nest at most ten deep,
    so twelve levels of fuel are never used up. *)

Fixpoint group_name (s : string) : string :=
  match s with
  | EmptyString => ""
  | String c r => if bool_decide (c ∈ [" "%char; ")"%char; "("%char]) then "" else String c (group_name r)
  end.

(** The loop over the text, over how a reference is resolved; [skip] bytes of it
    have been read already. *)
Fixpoint expand (resolve : string → option (TError + string)) (s : string) (skip : nat)
    : option (TError + string) :=
  match s with
  | EmptyString => Some (inr "")
  | String c r =>
      match skip with
      | S k => expand resolve r k
      | O =>
          if has_prefix "N@" s then
            let ref := group_name (sdrop 2 s) in
            match resolve ref with
            | Some (inr inner) =>
                match expand resolve r (1 + String.length ref)%nat with
                | Some (inr out) => Some (inr ("( " +:+ inner +:+ " )" +:+ out))
                | e => e
                end
            | e => e
            end
          else match expand resolve r 0%nat with
               | Some (inr out) => Some (inr (String c out))
               | e => e
               end
      end
  end.

Fixpoint resolveNodegroup (fuel : nat) (groups : Nodegroups) (name : string) (depth : nat) (seen : list string)
    : option (TError + string) :=
  match fuel with
  | O => None
  | S f =>
      if (10 <? depth)%nat then Some (inl (mkTErr name 0 GroupDepth))
      else if bool_decide (name ∈ seen) then Some (inl (mkTErr name 0 (GroupCycle (seen ++ [name]))))
      else match groups !! name with
      | None => Some (inl (mkTErr name 0 GroupUndefined))
      | Some expr => expand (λ ref, resolveNodegroup f groups ref (S depth) (seen ++ [name])) expr 0%nat
      end
  end.

Definition expandNodegroup (groups : Nodegroups) (name : string) : option (TError + string) :=
  resolveNodegroup 12 groups name 0 [].

(** *** The parser

    Its state is the tokens that are left, the budget and the terms compiled
    so far; [depth] counts the parentheses and negations that are open.
    [None] is the fuel running out, which it does not. *)

Record pst := mkPst { rest : list tok; left_ : Z; terms : list Term }.
Definition set_rest (r : list tok) (st : pst) : pst := mkPst r (left_ st) (terms st).
Definition presult : Type := option (TError + tnode * pst).

Definition is_or (t : tok) : bool := EqualFold (text t) "or".
Definition is_and (t : tok) : bool := EqualFold (text t) "and".
Definition is_not (t : tok) : bool := EqualFold (text t) "not".

Definition mk_any (l : list tnode) : tnode := match l with [x] => x | _ => NAny l end.
Definition mk_all (l : list tnode) : tnode := match l with [x] => x | _ => NAll l end.

Definition end_col (src : string) (all : list tok) : nat :=
  match last all with
  | Some t => (col t + String.length (text t))%nat
  | None => (String.length src + 1)%nat
  end.

Section parser.
Context (src : string) (all : list tok) (compileTerm : tok → pst → presult).

Fixpoint parseOr (fuel depth : nat) (st : pst) : presult :=
  match fuel with
  | O => None
  | S f =>
      match parseAnd f depth st with
      | Some (inr (first, st)) => or_loop f depth [first] st
      | e => e
      end
  end
with or_loop (fuel depth : nat) (acc : list tnode) (st : pst) : presult :=
  match fuel with
  | O => None
  | S f =>
      match rest st with
      | t :: r =>
          if is_or t then
            match parseAnd f depth (set_rest r st) with
            | Some (inr (rhs, st)) => or_loop f depth (acc ++ [rhs]) st
            | e => e
            end
          else Some (inr (mk_any acc, st))
      | [] => Some (inr (mk_any acc, st))
      end
  end
with parseAnd (fuel depth : nat) (st : pst) : presult :=
  match fuel with
  | O => None
  | S f =>
      match parseNot f depth st with
      | Some (inr (first, st)) => and_loop f depth [first] st
      | e => e
      end
  end
with and_loop (fuel depth : nat) (acc : list tnode) (st : pst) : presult :=
  match fuel with
  | O => None
  | S f =>
      match rest st with
      | t :: r =>
          if is_and t then
            match parseNot f depth (set_rest r st) with
            | Some (inr (rhs, st)) => and_loop f depth (acc ++ [rhs]) st
            | e => e
            end
          else Some (inr (mk_all acc, st))
      | [] => Some (inr (mk_all acc, st))
      end
  end
with parseNot (fuel depth : nat) (st : pst) : presult :=
  match fuel with
  | O => None
  | S f =>
      match rest st with
      | t :: r =>
          if is_not t then
            if (maxCompoundDepth <=? depth)%nat then Some (inl (mkTErr src (col t) TooDeep))
            else match parseNot f (S depth) (set_rest r st) with
                 | Some (inr (inner, st)) => Some (inr (NNot inner, st))
                 | e => e
                 end
          else parsePrimary f depth st
      | [] => parsePrimary f depth st
      end
  end
with parsePrimary (fuel depth : nat) (st : pst) : presult :=
  match fuel with
  | O => None
  | S f =>
      match rest st with
      | [] => Some (inl (mkTErr src (end_col src all) EndsEarly))
      | t :: r =>
          if bool_decide (text t = "(") then
            if (maxCompoundDepth <=? depth)%nat then Some (inl (mkTErr src (col t) TooDeep))
            else match parseOr f (S depth) (set_rest r st) with
                 | Some (inr (inner, st)) =>
                     match rest st with
                     | close :: r' =>
                         if bool_decide (text close = ")") then Some (inr (inner, set_rest r' st))
                         else Some (inl (mkTErr src (col t) NeverClosed))
                     | [] => Some (inl (mkTErr src (col t) NeverClosed))
                     end
                 | e => e
                 end
          else if bool_decide (text t = ")") then Some (inl (mkTErr src (col t) UnmatchedClose))
          else if is_and t || is_or t then Some (inl (mkTErr src (col t) (NeedsLeft (text t))))
          else compileTerm t (set_rest r st)
      end
  end.
End parser.

(** A leaf that was compiled, recorded as a term. *)
Definition leaf_term (src_kind : TKind) (key expr : string) (c : nat) (st : pst) : presult :=
  match compileLeaf src_kind expr (left_ st) with
  | inl e => Some (inl (withCol e c))
  | inr (l, b) => Some (inr (NLeaf l, mkPst (rest st) b (terms st ++ [mkTerm src_kind key])))
  end.

(** A typed term or a bare glob, over how a nodegroup's expansion is parsed. *)
Definition compileTerm (sub : string → Z → option (TError + tnode * list Term * Z)) (groups : Nodegroups)
    (src : string) (t : tok) (st : pst) : presult :=
  match IndexByte "@" (text t) with
  | None | Some O => leaf_term Glob "" (text t) (col t) st
  | Some at_ =>
      let letter := stake at_ (text t) in
      let value := sdrop (S at_) (text t) in
      match kindLetter letter with
      | None => leaf_term Glob "" (text t) (col t) st
      | Some kind =>
          if bool_decide (value = "") then Some (inl (mkTErr src (col t) (NoValue letter)))
          else if bool_decide (kind = Nodegroup) then
            match expandNodegroup groups value with
            | None => None
            | Some (inl e) => Some (inl (withCol e (col t)))
            | Some (inr expanded) =>
                match sub expanded (left_ st) with
                | None => None
                | Some (inl e) => Some (inl e)
                | Some (inr (node, ts, b)) => Some (inr (node, mkPst (rest st) b (terms st ++ ts)))
                end
            end
          else leaf_term kind (leafKey kind value) value (col t) st
      end
  end.

(** [parse] with [nest] levels of nodegroup: an expansion has no reference left
    in it, so two are enough. *)
Fixpoint parse (nest : nat) (groups : Nodegroups) (src : string) (budget : Z)
    : option (TError + tnode * list Term * Z) :=
  match nest with
  | O => None
  | S n =>
      match tokenize src with
      | [] => Some (inl (mkTErr src 0 Empty))
      | all =>
          match parseOr src all (compileTerm (parse n groups) groups src) (4 * length all + 4) 0 (mkPst all budget []) with
          | None => None
          | Some (inl e) => Some (inl e)
          | Some (inr (node, st)) =>
              match rest st with
              | [] => Some (inr (node, terms st, left_ st))
              | t :: _ =>
                  Some (inl (mkTErr src (col t)
                    (if bool_decide (text t = ")") then UnmatchedClose else UnexpectedTok (text t))))
              end
          end
      end
  end.

Record Matcher := mkMatcher { mkind : TKind; mexpr : string; ast : tnode; mterms : list Term }.

Definition with_ast (kind : TKind) (expr : string) (r : option (TError + tnode * list Term * Z))
    : option (TError + Matcher) :=
  match r with
  | None => None
  | Some (inl e) => Some (inl e)
  | Some (inr (node, ts, _)) => Some (inr (mkMatcher kind expr node ts))
  end.

Definition Compile (kind : TKind) (expr : string) (groups : Nodegroups) : option (TError + Matcher) :=
  if (MaxExprLen <? String.length expr)%nat then
    Some (inl (mkTErr (elide expr) 0 (TooLong (String.length expr))))
  else match kind with
  | Compound => with_ast kind expr (parse 2 groups expr maxPatternBytes)
  | Nodegroup =>
      match expandNodegroup groups expr with
      | None => None
      | Some (inl e) => Some (inl e)
      | Some (inr resolved) => with_ast kind expr (parse 2 groups resolved maxPatternBytes)
      end
  | _ =>
      match compileLeaf kind expr maxPatternBytes with
      | inl e => Some (inl e)
      | inr (l, _) => Some (inr (mkMatcher kind expr (NLeaf l) [mkTerm kind (leafKey kind expr)]))
      end
  end.

(** strings.Fields: the words between space characters. *)
Fixpoint fields_go (l : list string) (cur : string) : list string :=
  match l with
  | [] => if bool_decide (cur = "") then [] else [cur]
  | p :: r =>
      if space_piece p then (if bool_decide (cur = "") then [] else [cur]) ++ fields_go r ""
      else fields_go r (cur +:+ p)
  end.
Definition Fields (s : string) : list string := fields_go (Split s "") "".

Definition looksCompound (expr : string) : bool :=
  contains_any ["("%char; ")"%char] expr ||
  existsb (λ word,
    bool_decide (word ∈ ["and"; "or"; "not"]) ||
    match IndexByte "@" word with
    | Some (S i) => match kindLetter (stake (S i) word) with Some _ => true | None => false end
    | _ => false
    end) (Fields expr).

Definition CompileAuto (expr : string) (groups : Nodegroups) : option (TError + Matcher) :=
  if looksCompound expr then Compile Compound expr groups else Compile Glob expr groups.

Definition MatcherMatch (m : Matcher) (n : Node) : bool := (tmatch (ast m) n).1.

Definition ValidateNodegroups (groups : Nodegroups) : option (option (string * TError)) :=
  (fix go names := match names with
    | [] => Some None
    | name :: names' =>
        match expandNodegroup groups name with
        | None => None
        | Some (inl e) => Some (Some ("", e))
        | Some (inr expanded) =>
            match parse 2 groups expanded maxPatternBytes with
            | None => None
            | Some (inl e) => Some (Some (name, e))
            | Some (inr _) => go names'
            end
        end
    end) (merge_sort str_le (elements (dom groups))).

Definition MatchGlob (pattern nodeID : string) : bool :=
  if bool_decide (pattern = "*") then true else Fnmatch.Match pattern nodeID.
End target.

(** ** Nodegroup expansion ends, and leaves no reference behind *)

Section expansion.
Context (groups : Nodegroups).

Lemma expand_total resolve s skip : (∀ ref, is_Some (resolve ref)) → is_Some (expand resolve s skip).
Proof.
  intros Hr. revert skip. induction s as [|c r IH]; intros skip; [done|].
  destruct skip as [|k]; cbn [expand]; [|apply IH]. destruct (has_prefix "N@" (String c r)).
  - destruct (Hr (group_name (sdrop 2 (String c r)))) as [[e|inner] ->]; [done|].
    destruct (IH (1 + String.length (group_name (sdrop 2 (String c r))))%nat) as [[e|out] ->]; done.
  - destruct (IH 0%nat) as [[e|out] ->]; done.
Qed.

Lemma group_resolve_total fuel name depth seen :
  (12 ≤ fuel + depth)%nat → (depth ≤ 11)%nat → is_Some (resolveNodegroup fuel groups name depth seen).
Proof.
  revert name depth seen. induction fuel as [|f IH]; intros name depth seen Hf Hd; [lia|]. cbn [resolveNodegroup].
  destruct (Nat.ltb_spec 10 depth); [done|]. case_bool_decide; [done|].
  destruct (groups !! name) as [expr|]; [|done].
  apply expand_total. intros ref. apply IH; lia.
Qed.

(** No N@ in a text. *)
Fixpoint noref (s : string) : Prop :=
  match s with EmptyString => True | String c r => has_prefix "N@" (String c r) = false ∧ noref r end.

Definition starts (c : ascii) (s : string) : Prop := match s with String a _ => a = c | EmptyString => False end.

Lemma noref_cons c s : (c = "N"%char → ¬ starts "@" s) → noref s → noref (String c s).
Proof.
  intros Hc Hs. split; [|done]. cbn [has_prefix]. case_decide as E; [|done].
  destruct s as [|a s]; [done|]. case_decide as E'; [|done]. destruct (Hc (eq_sym E)). by simpl.
Qed.

Lemma noref_app s t : noref s → noref t → ¬ starts "@" t → noref (s +:+ t).
Proof.
  intros Hs Ht Hn. induction s as [|a s IH]; [done|].
  change (String a s +:+ t) with (String a (s +:+ t)). destruct Hs as [Hp Hs]. apply noref_cons; [|by apply IH].
  intros ->. destruct s as [|b s]; [done|]. simpl. intros ->. simpl in Hp. done.
Qed.

Lemma noref_app_l s t : noref (s +:+ t) → noref s.
Proof.
  induction s as [|a s IH]; [done|]. change (String a s +:+ t) with (String a (s +:+ t)).
  intros [Hp Hs]. split; [|by apply IH]. cbn [has_prefix] in *. case_decide; [|done].
  by destruct s as [|b s]; simpl in *; [|case_decide].
Qed.

Lemma noref_app_r s t : noref (s +:+ t) → noref t.
Proof. induction s as [|a s IH]; [done|]. intros [_ Hs]. by apply IH. Qed.

Lemma expand_noref resolve s skip out :
  (∀ ref inner, resolve ref = Some (inr inner) → noref inner) →
  expand resolve s skip = Some (inr out) → noref out ∧ (skip = 0%nat → starts "@" out → starts "@" s).
Proof.
  intros Hr. revert skip out. induction s as [|c r IH]; intros skip out; [by intros [= <-]|].
  destruct skip as [|k]; cbn [expand].
  2: { intros E. apply IH in E as [? _]. by split. }
  destruct (has_prefix "N@" (String c r)) eqn:Ep.
  - destruct (resolve _) as [[e|inner]|] eqn:Ei; [done| |done].
    destruct (expand resolve r _) as [[e|o']|] eqn:Eo; [done| |done]. intros [= <-].
    apply IH in Eo as [Hno _]. apply Hr in Ei. split; [|intros _ Hs; cbn in Hs; discriminate Hs].
    do 2 (apply noref_cons; [done|]). apply noref_app; [done| |done].
    do 2 (apply noref_cons; [done|]). done.
  - destruct (expand resolve r 0%nat) as [[e|o']|] eqn:Eo; [done| |done]. intros [= <-].
    apply IH in Eo as [Hno Hst]. split; [|done]. apply noref_cons; [|done].
    intros -> Hs. specialize (Hst eq_refl Hs). destruct r as [|a r]; [done|]. simpl in Hst. subst a. simpl in Ep. done.
Qed.

Lemma resolve_noref fuel name depth seen out :
  resolveNodegroup fuel groups name depth seen = Some (inr out) → noref out.
Proof.
  revert name depth seen out. induction fuel as [|f IH]; intros name depth seen out; [done|]. cbn [resolveNodegroup].
  destruct (10 <? depth)%nat; [done|]. case_bool_decide; [done|].
  destruct (groups !! name) as [expr|]; [|done]. intros E. apply expand_noref in E as [? _]; [done|].
  intros ref inner. apply IH.
Qed.

(** The tokens of a text without references are without references. *)
Lemma tok_go_noref s i cur depth :
  noref (match cur with Some (_, t) => t +:+ s | None => s end) →
  Forall (λ t, noref (text t)) (tok_go s i cur depth).
Proof.
  revert i cur depth. induction s as [|c r IH]; intros i cur depth Hn.
  { destruct cur as [[st t]|]; [|constructor]. repeat constructor. simpl. by rewrite string_app_nil_r in Hn. }
  assert (Forall (λ t, noref (text t)) (match cur with Some (st, t) => [mkTok t (st + 1)] | None => [] end)) as Hflush.
  { destruct cur as [[st t]|]; [|constructor]. repeat constructor. simpl. by apply noref_app_l in Hn. }
  assert (noref (match Some (match cur with Some (st, t) => (st, t +:+ String c "") | None => (i, String c "") end) with
                 | Some (_, t) => t +:+ r | None => r end)) as Hgrow.
  { destruct cur as [[st t]|]; [|done]. by rewrite string_app_assoc. }
  assert (noref r) as Hr.
  { destruct cur as [[st t]|]; [apply noref_app_r in Hn|]; by destruct Hn. }
  cbn [tok_go]. destruct (_ || _).
  { destruct (0 <? depth)%nat; [by apply IH|]. apply Forall_app. split; [done|by apply IH]. }
  destruct (bool_decide (c = "("%char)).
  { destruct cur as [[st t]|]; [by apply IH|]. constructor; [done|by apply IH]. }
  destruct (bool_decide (c = ")"%char)); [|by apply IH].
  destruct (0 <? depth)%nat; [by apply IH|]. apply Forall_app. split; [done|]. constructor; [done|by apply IH].
Qed.

Lemma tokenize_noref src : noref src → Forall (λ t, noref (text t)) (tokenize src).
Proof. intros Hn. by apply tok_go_noref. Qed.

Lemma kindLetter_group letter : kindLetter letter = Some Nodegroup → letter = "N".
Proof.
  unfold kindLetter. destruct (list_find _ _) as [[i [l k]]|] eqn:E; [|done]. intros [= ->].
  apply list_find_Some in E as (Hi & Hl & _). simpl in Hl. subst l.
  do 8 (destruct i as [|i]; [simplify_eq/=; done|]). done.
Qed.

Lemma glob_has_no_letter letter : kindLetter letter ≠ Some Glob.
Proof.
  unfold kindLetter. destruct (list_find _ _) as [[i [l k]]|] eqn:E; [|done]. intros [= ->].
  apply list_find_Some in E as (Hi & _). do 8 (destruct i as [|i]; [done|]). done.
Qed.

Lemma noref_not_group t at_ :
  noref t → IndexByte "@" t = Some at_ → kindLetter (stake at_ t) ≠ Some Nodegroup.
Proof.
  intros Hn Hi Hk%kindLetter_group. destruct t as [|a [|b t]]; [done| |].
  - destruct at_ as [|[|at_]]; simpl in Hk, Hi; simplify_eq; by case_decide.
  - destruct at_ as [|[|at_]]; simpl in Hk; simplify_eq.
    destruct Hn as [Hp _]. simpl in Hp, Hi. repeat case_decide; simplify_eq; try done; by destruct (IndexByte "@" t).
Qed.
End expansion.

(** ** The grammar, and that the parser reads it

    [derives] is the grammar of compound.go's comment, over tokens, with the
    meaning of each phrase and how deep it nests. *)

Inductive level := LvOr | LvAnd | LvNot | LvPrim.

Definition plain_tok (t : tok) : Prop :=
  text t ≠ "(" ∧ text t ≠ ")" ∧ is_and t = false ∧ is_or t = false ∧ is_not t = false.

Section grammar.
Context (term : tok → (Node → bool) → Prop).

Inductive derives : level → nat → list tok → (Node → bool) → Prop :=
| D_term t f : plain_tok t → term t f → derives LvPrim 0 [t] f
| D_paren o c d ts f :
    text o = "(" → text c = ")" → derives LvOr d ts f → derives LvPrim (S d) (o :: ts ++ [c]) f
| D_prim d ts f : derives LvPrim d ts f → derives LvNot d ts f
| D_not t d ts f : is_not t = true → derives LvNot d ts f → derives LvNot (S d) (t :: ts) (λ n, negb (f n))
| D_and d ts f d' ts' fs :
    derives LvNot d ts f → chain is_and LvNot d' ts' fs →
    derives LvAnd (d `max` d') (ts ++ ts') (λ n, f n && forallb (λ g, g n) fs)
| D_or d ts f d' ts' fs :
    derives LvAnd d ts f → chain is_or LvAnd d' ts' fs →
    derives LvOr (d `max` d') (ts ++ ts') (λ n, f n || existsb (λ g, g n) fs)
with chain : (tok → bool) → level → nat → list tok → list (Node → bool) → Prop :=
| C_nil op l : chain op l 0 [] []
| C_cons op l t d ts f d' ts' fs :
    op t = true → derives l d ts f → chain op l d' ts' fs →
    chain op l (d `max` d') (t :: ts ++ ts') (f :: fs).

Scheme derives_mut := Minimality for derives Sort Prop
with chain_mut := Minimality for chain Sort Prop.
Combined Scheme derives_chain_ind from derives_mut, chain_mut.
End grammar.

(** The grammar is monotone in what a term may mean. *)
Lemma derives_mono (T T' : tok → (Node → bool) → Prop) (P : tok → Prop) :
  (∀ t f, P t → T t f → T' t f) →
  (∀ l d ts f, derives T l d ts f → Forall P ts → derives T' l d ts f) ∧
  (∀ op l d ts fs, chain T op l d ts fs → Forall P ts → chain T' op l d ts fs).
Proof.
  intros HT. apply (derives_chain_ind T (λ l d ts f, Forall P ts → derives T' l d ts f)
                      (λ op l d ts fs, Forall P ts → chain T' op l d ts fs)).
  - intros t f Hp Ht HP. inversion HP; subst. constructor; [done|by apply HT].
  - intros o c d ts f Ho Hc _ IH HP. inversion HP as [|? ? _ HP']; subst. apply Forall_app in HP' as [HP' _].
    by constructor; [| |apply IH].
  - intros d ts f _ IH HP. by constructor; apply IH.
  - intros t d ts f Ht _ IH HP. inversion HP; subst. by constructor; [|apply IH].
  - intros d ts f d' ts' fs _ IH _ IHc [HP HP']%Forall_app. by constructor; [apply IH|apply IHc].
  - intros d ts f d' ts' fs _ IH _ IHc [HP HP']%Forall_app. by constructor; [apply IH|apply IHc].
  - constructor.
  - intros op l t d ts f d' ts' fs Ht _ IH _ IHc HP. inversion HP as [|? ? _ HP']; subst.
    apply Forall_app in HP' as [HP1 HP2]. by constructor; [|apply IH|apply IHc].
Qed.

Section parsing.
Context `{Runtime}.

(** A compiled expression means a predicate on nodes. *)
Definition means (t : tnode) (f : Node → bool) : Prop := ∀ n, (tmatch t n).1 = f n.

Lemma tmatch_any l n : (tmatch (NAny l) n).1 = existsb (λ x, (tmatch x n).1) l.
Proof.
  induction l as [|x l IH]; [done|]. cbn [tmatch existsb] in *.
  destruct (tmatch x n) as [[] a]; [done|]. cbn [fst]. rewrite <- IH.
  match goal with |- (let '(_, _) := ?g in _).1 = _ => by destruct g end.
Qed.
Lemma tmatch_all l n : (tmatch (NAll l) n).1 = forallb (λ x, (tmatch x n).1) l.
Proof.
  induction l as [|x l IH]; [done|]. cbn [tmatch forallb] in *.
  destruct (tmatch x n) as [[] a]; [|done]. cbn [fst]. rewrite <- IH.
  match goal with |- (let '(_, _) := ?g in _).1 = _ => by destruct g end.
Qed.

Lemma tmatch_mk_any x l n : (tmatch (mk_any (x :: l)) n).1 = existsb (λ x, (tmatch x n).1) (x :: l).
Proof. destruct l; [cbn; by rewrite orb_false_r|apply tmatch_any]. Qed.
Lemma tmatch_mk_all x l n : (tmatch (mk_all (x :: l)) n).1 = forallb (λ x, (tmatch x n).1) (x :: l).
Proof. destruct l; [cbn; by rewrite andb_true_r|apply tmatch_all]. Qed.

Lemma means_any x f l fs :
  means x f → Forall2 means l fs → means (mk_any (x :: l)) (λ n, f n || existsb (λ g, g n) fs).
Proof.
  intros Hx Hl n. rewrite tmatch_mk_any. cbn [existsb]. rewrite Hx. f_equal.
  induction Hl as [|y g l fs Hy Hl IH]; [done|]. cbn [existsb]. by rewrite Hy, IH.
Qed.
Lemma means_all x f l fs :
  means x f → Forall2 means l fs → means (mk_all (x :: l)) (λ n, f n && forallb (λ g, g n) fs).
Proof.
  intros Hx Hl n. rewrite tmatch_mk_all. cbn [forallb]. rewrite Hx. f_equal.
  induction Hl as [|y g l fs Hy Hl IH]; [done|]. cbn [forallb]. by rewrite Hy, IH.
Qed.
Lemma means_not x f : means x f → means (NNot x) (λ n, negb (f n)).
Proof. intros Hx n. cbn [tmatch]. rewrite <- Hx. by destruct (tmatch x n). Qed.

Context (src : string) (all : list tok) (compileTerm : tok → pst → presult).
Hypothesis term_rest : ∀ t st n st', compileTerm t st = Some (inr (n, st')) → rest st' = rest st.

Definition term (t : tok) (f : Node → bool) : Prop :=
  ∃ st n st', compileTerm t st = Some (inr (n, st')) ∧ means n f.

(** What a successful run of a parsing function has read. *)
Definition reads (l : level) (depth : nat) (st st' : pst) (n : tnode) : Prop :=
  ∃ d ts f, rest st = ts ++ rest st' ∧ derives term l d ts f ∧ means n f ∧ (depth + d ≤ maxCompoundDepth)%nat.
Definition reads_chain (op : tok → bool) (l : level) (depth : nat) (st st' : pst) (ns : list tnode) : Prop :=
  ∃ d ts fs, rest st = ts ++ rest st' ∧ chain term op l d ts fs ∧ Forall2 means ns fs ∧ (depth + d ≤ maxCompoundDepth)%nat.

Lemma reads_chain_nil op l depth st : (depth ≤ maxCompoundDepth)%nat → reads_chain op l depth st st [].
Proof. intros. exists 0%nat, [], []. split_and!; [done|constructor|constructor|lia]. Qed.

Lemma reads_chain_cons op l depth st st1 st2 t r x ns :
  rest st = t :: r → op t = true → reads l depth (set_rest r st) st1 x → reads_chain op l depth st1 st2 ns →
  reads_chain op l depth st st2 (x :: ns).
Proof.
  intros Hr Hop (d & ts & f & E & Hd & Hm & Hle) (d' & ts' & fs & E' & Hc & Hms & Hle').
  exists (d `max` d')%nat, (t :: ts ++ ts'), (f :: fs). cbn [rest set_rest] in E. split_and!.
  - rewrite Hr, E, E'. simpl. by rewrite (assoc_L (++)).
  - by constructor.
  - by constructor.
  - lia.
Qed.

(** Each function, when it succeeds, has read a phrase of its level. *)
Definition sound (l : level) (p : nat → pst → presult) : Prop :=
  ∀ depth st n st', p depth st = Some (inr (n, st')) → (depth ≤ maxCompoundDepth)%nat → reads l depth st st' n.
Definition sound_loop (op : tok → bool) (l : level) (mk : list tnode → tnode)
    (p : nat → list tnode → pst → presult) : Prop :=
  ∀ depth acc st n st', p depth acc st = Some (inr (n, st')) → (depth ≤ maxCompoundDepth)%nat →
    ∃ ns, n = mk (acc ++ ns) ∧ reads_chain op l depth st st' ns.
Definition sound_prim (p : nat → pst → presult) : Prop :=
  ∀ depth st n st', p depth st = Some (inr (n, st')) → (depth ≤ maxCompoundDepth)%nat →
    (∀ t r, rest st = t :: r → is_not t = false) → reads LvPrim depth st st' n.

Abbreviation p_or := (parseOr src all compileTerm).
Abbreviation p_orl := (or_loop src all compileTerm).
Abbreviation p_and := (parseAnd src all compileTerm).
Abbreviation p_andl := (and_loop src all compileTerm).
Abbreviation p_not := (parseNot src all compileTerm).
Abbreviation p_prim := (parsePrimary src all compileTerm).

(** The equations of the parser. *)
Lemma parseOr_S f depth st : p_or (S f) depth st =
  match p_and f depth st with Some (inr (first, st)) => p_orl f depth [first] st | e => e end.
Proof. done. Qed.
Lemma or_loop_S f depth acc st : p_orl (S f) depth acc st =
  match rest st with
  | t :: r =>
      if is_or t then
        match p_and f depth (set_rest r st) with Some (inr (rhs, st)) => p_orl f depth (acc ++ [rhs]) st | e => e end
      else Some (inr (mk_any acc, st))
  | [] => Some (inr (mk_any acc, st))
  end.
Proof. done. Qed.
Lemma parseAnd_S f depth st : p_and (S f) depth st =
  match p_not f depth st with Some (inr (first, st)) => p_andl f depth [first] st | e => e end.
Proof. done. Qed.
Lemma and_loop_S f depth acc st : p_andl (S f) depth acc st =
  match rest st with
  | t :: r =>
      if is_and t then
        match p_not f depth (set_rest r st) with Some (inr (rhs, st)) => p_andl f depth (acc ++ [rhs]) st | e => e end
      else Some (inr (mk_all acc, st))
  | [] => Some (inr (mk_all acc, st))
  end.
Proof. done. Qed.
Lemma parseNot_S f depth st : p_not (S f) depth st =
  match rest st with
  | t :: r =>
      if is_not t then
        if (maxCompoundDepth <=? depth)%nat then Some (inl (mkTErr src (col t) TooDeep))
        else match p_not f (S depth) (set_rest r st) with Some (inr (inner, st)) => Some (inr (NNot inner, st)) | e => e end
      else p_prim f depth st
  | [] => p_prim f depth st
  end.
Proof. done. Qed.
Lemma parsePrimary_S f depth st : p_prim (S f) depth st =
  match rest st with
  | [] => Some (inl (mkTErr src (end_col src all) EndsEarly))
  | t :: r =>
      if bool_decide (text t = "(") then
        if (maxCompoundDepth <=? depth)%nat then Some (inl (mkTErr src (col t) TooDeep))
        else match p_or f (S depth) (set_rest r st) with
             | Some (inr (inner, st)) =>
                 match rest st with
                 | close :: r' =>
                     if bool_decide (text close = ")") then Some (inr (inner, set_rest r' st))
                     else Some (inl (mkTErr src (col t) NeverClosed))
                 | [] => Some (inl (mkTErr src (col t) NeverClosed))
                 end
             | e => e
             end
      else if bool_decide (text t = ")") then Some (inl (mkTErr src (col t) UnmatchedClose))
      else if is_and t || is_or t then Some (inl (mkTErr src (col t) (NeedsLeft (text t))))
      else compileTerm t (set_rest r st)
  end.
Proof. done. Qed.

Lemma sound_or f : sound LvAnd (p_and f) → sound_loop is_or LvAnd mk_any (p_orl f) → sound LvOr (p_or (S f)).
Proof.
  intros IHand IHl depth st n st' E Hd. rewrite parseOr_S in E.
  destruct (p_and f depth st) as [[e|[x st1]]|] eqn:E1; [done| |done].
  destruct (IHand _ _ _ _ E1 Hd) as (d & ts & g & Er & Hg & Hm & Hle).
  destruct (IHl _ _ _ _ _ E Hd) as (ns & -> & d' & ts' & fs & Er' & Hc & Hms & Hle').
  exists (d `max` d')%nat, (ts ++ ts'), (λ n, g n || existsb (λ g, g n) fs).
  split_and!; [by rewrite Er, Er', (assoc_L (++))|by apply D_or|by apply means_any|lia].
Qed.

Lemma sound_and f : sound LvNot (p_not f) → sound_loop is_and LvNot mk_all (p_andl f) → sound LvAnd (p_and (S f)).
Proof.
  intros IHnot IHl depth st n st' E Hd. rewrite parseAnd_S in E.
  destruct (p_not f depth st) as [[e|[x st1]]|] eqn:E1; [done| |done].
  destruct (IHnot _ _ _ _ E1 Hd) as (d & ts & g & Er & Hg & Hm & Hle).
  destruct (IHl _ _ _ _ _ E Hd) as (ns & -> & d' & ts' & fs & Er' & Hc & Hms & Hle').
  exists (d `max` d')%nat, (ts ++ ts'), (λ n, g n && forallb (λ g, g n) fs).
  split_and!; [by rewrite Er, Er', (assoc_L (++))|by apply D_and|by apply means_all|lia].
Qed.

(** A loop stops where no operator follows. *)
Lemma loop_stops (op : tok → bool) l mk depth acc st n st' :
  (depth ≤ maxCompoundDepth)%nat → (Some (inr (mk acc, st)) : presult) = Some (inr (n, st')) →
  ∃ ns, n = mk (acc ++ ns) ∧ reads_chain op l depth st st' ns.
Proof. intros Hd E. simplify_eq. exists []. rewrite app_nil_r. by split; [|apply reads_chain_nil]. Qed.

Lemma sound_orl f : sound LvAnd (p_and f) → sound_loop is_or LvAnd mk_any (p_orl f) →
  sound_loop is_or LvAnd mk_any (p_orl (S f)).
Proof.
  intros IHand IHl depth acc st n st' E Hd. rewrite or_loop_S in E.
  destruct (rest st) as [|t r] eqn:Er; [by apply (loop_stops is_or LvAnd mk_any)|].
  destruct (is_or t) eqn:Ht; [|by apply (loop_stops is_or LvAnd mk_any)].
  destruct (p_and f depth (set_rest r st)) as [[e|[x st1]]|] eqn:E1; [done| |done].
  destruct (IHl _ _ _ _ _ E Hd) as (ns & -> & Hc). exists (x :: ns).
  split; [by rewrite <- (assoc_L (++))|]. eapply reads_chain_cons; [done|done|by apply IHand|done].
Qed.

Lemma sound_andl f : sound LvNot (p_not f) → sound_loop is_and LvNot mk_all (p_andl f) →
  sound_loop is_and LvNot mk_all (p_andl (S f)).
Proof.
  intros IHnot IHl depth acc st n st' E Hd. rewrite and_loop_S in E.
  destruct (rest st) as [|t r] eqn:Er; [by apply (loop_stops is_and LvNot mk_all)|].
  destruct (is_and t) eqn:Ht; [|by apply (loop_stops is_and LvNot mk_all)].
  destruct (p_not f depth (set_rest r st)) as [[e|[x st1]]|] eqn:E1; [done| |done].
  destruct (IHl _ _ _ _ _ E Hd) as (ns & -> & Hc). exists (x :: ns).
  split; [by rewrite <- (assoc_L (++))|]. eapply reads_chain_cons; [done|done|by apply IHnot|done].
Qed.

Lemma sound_not f : sound LvNot (p_not f) → sound_prim (p_prim f) → sound LvNot (p_not (S f)).
Proof.
  intros IHnot IHprim depth st n st' E Hd. rewrite parseNot_S in E.
  assert (p_prim f depth st = Some (inr (n, st')) →
          (∀ t r, rest st = t :: r → is_not t = false) → reads LvNot depth st st' n) as Hprim.
  { intros Ep Hn. destruct (IHprim _ _ _ _ Ep Hd Hn) as (d & ts & g & Er & Hg & Hm & Hle).
    exists d, ts, g. split_and!; [done|by constructor|done|done]. }
  destruct (rest st) as [|t r] eqn:Er; [by apply Hprim|].
  destruct (is_not t) eqn:Ht; [|apply Hprim; [done|]; by intros ? ? [= <- _]].
  destruct (Nat.leb_spec maxCompoundDepth depth); [done|].
  destruct (p_not f (S depth) (set_rest r st)) as [[e|[x st1]]|] eqn:E1; simplify_eq.
  destruct (IHnot _ _ _ _ E1) as (d & ts & g & Er' & Hg & Hm & Hle); [lia|]. cbn in Er'.
  exists (S d), (t :: ts), (λ n, negb (g n)).
  split_and!; [by rewrite Er, Er'|by constructor|by apply means_not|lia].
Qed.

Lemma sound_primary f : sound LvOr (p_or f) → sound_prim (p_prim (S f)).
Proof.
  intros IHor depth st n st' E Hd Hnn. rewrite parsePrimary_S in E.
  destruct (rest st) as [|t r] eqn:Er; [done|]. specialize (Hnn t r eq_refl).
  destruct (bool_decide (text t = "(")) eqn:Eo.
  - destruct (Nat.leb_spec maxCompoundDepth depth); [done|].
    destruct (p_or f (S depth) (set_rest r st)) as [[e|[x st1]]|] eqn:E1; [done| |done].
    destruct (IHor _ _ _ _ E1) as (d & ts & g & Er' & Hg & Hm & Hle); [lia|]. cbn in Er'.
    destruct (rest st1) as [|c r'] eqn:Er1; [done|]. case_bool_decide as Ec; [|done]. simplify_eq.
    exists (S d), (t :: ts ++ [c]), g. apply bool_decide_eq_true in Eo.
    split_and!; [rewrite Er; simpl; by rewrite <- (assoc_L (++))|by constructor|done|lia].
  - destruct (bool_decide (text t = ")")) eqn:Ec; [done|].
    destruct (is_and t || is_or t) eqn:Eao; [done|]. apply orb_false_iff in Eao as [Ea Eor].
    apply bool_decide_eq_false in Eo, Ec. pose proof (term_rest _ _ _ _ E) as Hr. cbn in Hr.
    exists 0%nat, [t], (λ m, (tmatch n m).1). split_and!; [by rewrite Er, Hr| |done|lia].
    constructor; [by split_and!|]. by exists (set_rest r st), n, st'.
Qed.

Lemma parser_sound fuel :
  sound LvOr (p_or fuel) ∧ sound_loop is_or LvAnd mk_any (p_orl fuel) ∧ sound LvAnd (p_and fuel) ∧
  sound_loop is_and LvNot mk_all (p_andl fuel) ∧ sound LvNot (p_not fuel) ∧ sound_prim (p_prim fuel).
Proof.
  induction fuel as [|f (IHor & IHol & IHand & IHal & IHnot & IHprim)]; [by split_and!|].
  split_and!; [by apply sound_or|by apply sound_orl|by apply sound_and|by apply sound_andl|by apply sound_not|by apply sound_primary].
Qed.

(** *** The parser ends *)

Lemma derives_nonempty T l d ts f : derives T l d ts f → ts ≠ [].
Proof.
  induction 1 as [| | | |d ts f d' ts' fs Hd IH Hc|d ts f d' ts' fs Hd IH Hc]; try done.
  - by destruct ts.
  - by destruct ts.
Qed.

Lemma reads_shorter l depth st st' n :
  reads l depth st st' n → (length (rest st') < length (rest st))%nat ∧ (∀ P, Forall P (rest st) → Forall P (rest st')).
Proof.
  intros (d & ts & f & E & Hd%derives_nonempty & _). rewrite E, length_app. split; [destruct ts; [done|simpl; lia]|].
  by intros P [_ ?]%Forall_app.
Qed.

Context (P : tok → Prop) (term_total : ∀ t st, P t → is_Some (compileTerm t st)).

(** Enough fuel for the tokens that are left. *)
Definition ends (k : nat) (fuel : nat) (p : nat → pst → presult) : Prop :=
  ∀ depth st, (4 * length (rest st) + k ≤ fuel)%nat → (depth ≤ maxCompoundDepth)%nat → Forall P (rest st) →
    is_Some (p depth st).
Definition ends_loop (fuel : nat) (p : nat → list tnode → pst → presult) : Prop :=
  ∀ depth acc st, (4 * length (rest st) + 1 ≤ fuel)%nat → (depth ≤ maxCompoundDepth)%nat → Forall P (rest st) →
    is_Some (p depth acc st).

Lemma ends_or f : ends 3 f (p_and f) → ends_loop f (p_orl f) → ends 4 (S f) (p_or (S f)).
Proof.
  intros IHand IHl depth st Hf Hd HP. rewrite parseOr_S.
  destruct (IHand depth st) as [[e|[x st1]] E]; [lia|done..| |]; rewrite E; [done|].
  pose proof (proj1 (proj2 (proj2 (parser_sound f))) _ _ _ _ E Hd) as [Hlen Hs]%reads_shorter.
  apply IHl; [lia|done|by apply Hs].
Qed.

Lemma ends_and f : ends 2 f (p_not f) → ends_loop f (p_andl f) → ends 3 (S f) (p_and (S f)).
Proof.
  intros IHnot IHl depth st Hf Hd HP. rewrite parseAnd_S.
  destruct (IHnot depth st) as [[e|[x st1]] E]; [lia|done..| |]; rewrite E; [done|].
  pose proof (proj1 (proj2 (proj2 (proj2 (proj2 (parser_sound f))))) _ _ _ _ E Hd) as [Hlen Hs]%reads_shorter.
  apply IHl; [lia|done|by apply Hs].
Qed.

Lemma ends_orl f : ends 3 f (p_and f) → ends_loop f (p_orl f) → ends_loop (S f) (p_orl (S f)).
Proof.
  intros IHand IHl depth acc st Hf Hd HP. rewrite or_loop_S.
  destruct (rest st) as [|t r] eqn:Er; [done|]. destruct (is_or t); [|done].
  inversion HP as [|? ? _ HPr]; subst. cbn [length] in Hf.
  destruct (IHand depth (set_rest r st)) as [[e|[x st1]] E]; [cbn; lia|done..| |]; rewrite E; [done|].
  pose proof (proj1 (proj2 (proj2 (parser_sound f))) _ _ _ _ E Hd) as [Hlen Hs]%reads_shorter. cbn in Hlen.
  apply IHl; [lia|done|by apply Hs].
Qed.

Lemma ends_andl f : ends 2 f (p_not f) → ends_loop f (p_andl f) → ends_loop (S f) (p_andl (S f)).
Proof.
  intros IHnot IHl depth acc st Hf Hd HP. rewrite and_loop_S.
  destruct (rest st) as [|t r] eqn:Er; [done|]. destruct (is_and t); [|done].
  inversion HP as [|? ? _ HPr]; subst. cbn [length] in Hf.
  destruct (IHnot depth (set_rest r st)) as [[e|[x st1]] E]; [cbn; lia|done..| |]; rewrite E; [done|].
  pose proof (proj1 (proj2 (proj2 (proj2 (proj2 (parser_sound f))))) _ _ _ _ E Hd) as [Hlen Hs]%reads_shorter. cbn in Hlen.
  apply IHl; [lia|done|by apply Hs].
Qed.

Lemma ends_not f : ends 2 f (p_not f) → ends 1 f (p_prim f) → ends 2 (S f) (p_not (S f)).
Proof.
  intros IHnot IHprim depth st Hf Hd HP. rewrite parseNot_S.
  assert (is_Some (p_prim f depth st)) as Hp by (apply IHprim; [lia|done..]).
  destruct (rest st) as [|t r] eqn:Er; [done|]. destruct (is_not t); [|done].
  destruct (Nat.leb_spec maxCompoundDepth depth); [done|]. inversion HP; subst. cbn [length] in Hf.
  destruct (IHnot (S depth) (set_rest r st)) as [[e|[x st1]] ->]; [cbn; lia|lia|done..].
Qed.

Lemma ends_prim f : ends 4 f (p_or f) → ends 1 (S f) (p_prim (S f)).
Proof.
  intros IHor depth st Hf Hd HP. rewrite parsePrimary_S.
  destruct (rest st) as [|t r] eqn:Er; [done|]. inversion HP; subst. cbn [length] in Hf.
  destruct (bool_decide (text t = "(")).
  - destruct (Nat.leb_spec maxCompoundDepth depth); [done|].
    destruct (IHor (S depth) (set_rest r st)) as [[e|[x st1]] ->]; [cbn; lia|lia|done..|].
    destruct (rest st1) as [|c r']; [done|]. by destruct (bool_decide (text c = ")")).
  - destruct (bool_decide (text t = ")")); [done|]. destruct (_ || _); [done|]. by apply term_total.
Qed.

Lemma parser_ends fuel :
  ends 4 fuel (p_or fuel) ∧ ends_loop fuel (p_orl fuel) ∧ ends 3 fuel (p_and fuel) ∧
  ends_loop fuel (p_andl fuel) ∧ ends 2 fuel (p_not fuel) ∧ ends 1 fuel (p_prim fuel).
Proof.
  induction fuel as [|f (IHor & IHol & IHand & IHal & IHnot & IHprim)];
    [split_and!; intros ?; intros; lia|].
  split_and!; [by apply ends_or|by apply ends_orl|by apply ends_and|by apply ends_andl|by apply ends_not|by apply ends_prim].
Qed.

(** *** Every phrase is accepted *)

Context (good : tok → (Node → bool) → Prop)
  (term_good : ∀ t f st, good t f → ∃ n st', compileTerm t st = Some (inr (n, st')) ∧ means n f).

(** What may follow a phrase of each level. *)
Definition follows (l : level) (r : list tok) : Prop :=
  match r with
  | [] => True
  | t :: _ => match l with LvOr => is_or t = false ∧ is_and t = false | LvAnd => is_and t = false | _ => True end
  end.

Definition accepts (p : nat → pst → presult) (k : nat) (fuel : nat) (l : level) (d : nat) (ts : list tok) (f : Node → bool) : Prop :=
  ∀ depth st r, rest st = ts ++ r → follows l r → (depth + d ≤ maxCompoundDepth)%nat →
    (4 * length (ts ++ r) + k ≤ fuel)%nat →
    ∃ n st', p depth st = Some (inr (n, st')) ∧ rest st' = r ∧ means n f.

Definition level_fun (l : level) : nat → nat → pst → presult :=
  match l with LvOr => p_or | LvAnd => p_and | LvNot => p_not | LvPrim => p_prim end.
Definition level_fuel (l : level) : nat := match l with LvOr => 4 | LvAnd => 3 | LvNot => 2 | LvPrim => 1 end.
Definition accepted_phrase (l : level) (d : nat) (ts : list tok) (f : Node → bool) : Prop :=
  ∀ fuel, accepts (level_fun l fuel) (level_fuel l) fuel l d ts f.

(** The loop that reads a chain of one operator. *)
Definition loop_fun (l : level) : nat → nat → list tnode → pst → presult := match l with LvAnd => p_orl | _ => p_andl end.
Definition loop_mk (l : level) : list tnode → tnode := match l with LvAnd => mk_any | _ => mk_all end.
Definition accepted_chain (op : tok → bool) (l : level) (d : nat) (ts : list tok) (fs : list (Node → bool)) : Prop :=
  (l = LvAnd ∧ op = is_or) ∨ (l = LvNot ∧ op = is_and) →
  ∀ fuel depth acc st r, rest st = ts ++ r → follows (match l with LvAnd => LvOr | _ => LvAnd end) r →
    (depth + d ≤ maxCompoundDepth)%nat → (4 * length (ts ++ r) + 1 ≤ fuel)%nat →
    ∃ ns st', loop_fun l fuel depth acc st = Some (inr (loop_mk l (acc ++ ns), st')) ∧ rest st' = r ∧ Forall2 means ns fs.

Lemma or_not_and t : is_or t = true → is_and t = false.
Proof.
  unfold is_or, is_and, EqualFold. intros E%bool_decide_eq_true. apply bool_decide_eq_false. rewrite E. by vm_compute.
Qed.

Lemma close_ops t : text t = ")" → is_or t = false ∧ is_and t = false.
Proof. unfold is_or, is_and. intros ->. by vm_compute. Qed.
Lemma open_not t : text t = "(" → is_not t = false.
Proof. unfold is_not. intros ->. by vm_compute. Qed.

Lemma prim_head d ts f r t r' : derives good LvPrim d ts f → ts ++ r = t :: r' → is_not t = false.
Proof.
  intros Hd E. inversion Hd as [t' f' (_ & _ & _ & _ & Hn) _ | o c d' ts' f' Ho Hc Hd' | | | |]; subst; simplify_eq/=; [done|].
  by apply open_not.
Qed.

Lemma accept_term t f : plain_tok t → good t f → accepted_phrase LvPrim 0 [t] f.
Proof.
  intros (Ho & Hc & Ha & Hor & _) Ht fuel depth st r Er _ _ Hfuel. cbn [level_fun].
  destruct fuel as [|fu]; [simpl in Hfuel; lia|]. rewrite parsePrimary_S, Er. cbn [app].
  rewrite !bool_decide_false, Ha, Hor by done. cbn [orb].
  destruct (term_good t f (set_rest r st) Ht) as (n & st' & E & Hm). exists n, st'.
  split_and!; [done| |done]. by rewrite (term_rest _ _ _ _ E).
Qed.

Lemma accept_paren o c d ts f :
  text o = "(" → text c = ")" → accepted_phrase LvOr d ts f → accepted_phrase LvPrim (S d) (o :: ts ++ [c]) f.
Proof.
  intros Ho Hc IH fuel depth st r Er _ Hd Hfuel. cbn [level_fun].
  destruct fuel as [|fu]; [simpl in Hfuel; lia|]. rewrite parsePrimary_S, Er. cbn [app].
  rewrite bool_decide_true by done. destruct (Nat.leb_spec maxCompoundDepth depth); [lia|].
  rewrite <- (assoc_L (++)). cbn [app].
  destruct (IH fu (S depth) (set_rest (ts ++ c :: r) st) (c :: r)) as (n & st' & E & Hr & Hm).
  - done.
  - by apply close_ops.
  - lia.
  - simpl in Hfuel. rewrite !length_app in Hfuel. cbn [level_fuel]. rewrite length_app. simpl in *. lia.
  - cbn [level_fun] in E. rewrite E, Hr, bool_decide_true by done. by exists n, (set_rest r st').
Qed.

Lemma accept_prim d ts f : derives good LvPrim d ts f → accepted_phrase LvPrim d ts f → accepted_phrase LvNot d ts f.
Proof.
  intros Hder IH fuel depth st r Er Hfo Hd Hfuel. cbn [level_fun level_fuel] in *.
  destruct fuel as [|fu]; [lia|]. rewrite parseNot_S, Er.
  destruct (IH fu depth st r) as (n & st' & E & Hr & Hm); [done..|cbn [level_fuel]; lia|]. cbn [level_fun] in E.
  destruct (ts ++ r) as [|t r'] eqn:Et; [by exists n, st'|].
  rewrite (prim_head _ _ _ _ _ _ Hder Et). by exists n, st'.
Qed.

Lemma accept_not t d ts f :
  is_not t = true → accepted_phrase LvNot d ts f → accepted_phrase LvNot (S d) (t :: ts) (λ n, negb (f n)).
Proof.
  intros Ht IH fuel depth st r Er Hfo Hd Hfuel. cbn [level_fun level_fuel] in *.
  destruct fuel as [|fu]; [lia|]. rewrite parseNot_S, Er. cbn [app]. rewrite Ht.
  destruct (Nat.leb_spec maxCompoundDepth depth); [lia|].
  destruct (IH fu (S depth) (set_rest (ts ++ r) st) r) as (n & st' & E & Hr & Hm); [done..|lia|cbn [level_fuel]; simpl in Hfuel; lia|].
  cbn [level_fun] in E. rewrite E. exists (NNot n), st'. split_and!; [done..|by apply means_not].
Qed.

(** What may follow the first phrase of a chain. *)
Lemma chain_follows op l d ts fs r :
  chain good op l d ts fs → (l = LvAnd ∧ op = is_or) ∨ (l = LvNot ∧ op = is_and) →
  follows (match l with LvAnd => LvOr | _ => LvAnd end) r → follows l (ts ++ r).
Proof.
  intros Hc Hl Hr. inversion Hc as [|? ? t d1 ts1 f d2 ts2 fs' Hop]; subst; cbn [app].
  - destruct r as [|t r]; [done|]. destruct Hl as [[-> _]|[-> _]]; [by destruct Hr|done].
  - destruct Hl as [[-> ->]|[-> ->]]; [by apply or_not_and|done].
Qed.

Lemma accept_and d ts f d' ts' fs :
  accepted_phrase LvNot d ts f → chain good is_and LvNot d' ts' fs → accepted_chain is_and LvNot d' ts' fs →
  accepted_phrase LvAnd (d `max` d') (ts ++ ts') (λ n, f n && forallb (λ g, g n) fs).
Proof.
  intros IH Hch IHc fuel depth st r Er Hfo Hd Hfuel. cbn [level_fun level_fuel] in *. rewrite <- (assoc_L (++)) in *.
  destruct fuel as [|fu]; [lia|]. rewrite parseAnd_S.
  destruct (IH fu depth st (ts' ++ r)) as (n & st1 & E & Hr & Hm); [done| |lia|cbn [level_fuel]; lia|].
  { eapply chain_follows; [done|by right|done]. }
  cbn [level_fun] in E. rewrite E.
  destruct (IHc (or_intror (conj eq_refl eq_refl)) fu depth [n] st1 r) as (ns & st' & E' & Hr' & Hms); [done|done|lia| |].
  { rewrite length_app in Hfuel. lia. }
  cbn [loop_fun] in E'. rewrite E'. exists (mk_all (n :: ns)), st'. split_and!; [done..|by apply means_all].
Qed.

Lemma accept_or d ts f d' ts' fs :
  accepted_phrase LvAnd d ts f → chain good is_or LvAnd d' ts' fs → accepted_chain is_or LvAnd d' ts' fs →
  accepted_phrase LvOr (d `max` d') (ts ++ ts') (λ n, f n || existsb (λ g, g n) fs).
Proof.
  intros IH Hch IHc fuel depth st r Er Hfo Hd Hfuel. cbn [level_fun level_fuel] in *. rewrite <- (assoc_L (++)) in *.
  destruct fuel as [|fu]; [lia|]. rewrite parseOr_S.
  destruct (IH fu depth st (ts' ++ r)) as (n & st1 & E & Hr & Hm); [done| |lia|cbn [level_fuel]; lia|].
  { eapply chain_follows; [done|by left|done]. }
  cbn [level_fun] in E. rewrite E.
  destruct (IHc (or_introl (conj eq_refl eq_refl)) fu depth [n] st1 r) as (ns & st' & E' & Hr' & Hms); [done|done|lia| |].
  { rewrite length_app in Hfuel. lia. }
  cbn [loop_fun] in E'. rewrite E'. exists (mk_any (n :: ns)), st'. split_and!; [done..|by apply means_any].
Qed.

Lemma accept_nil op l : accepted_chain op l 0 [] [].
Proof.
  intros Hl fuel depth acc st r Er Hfo Hd Hfuel. destruct fuel as [|fu]; [lia|]. exists [], st. rewrite app_nil_r.
  cbn [app] in Er. split_and!; [|done|constructor].
  destruct Hl as [[-> _]|[-> _]]; cbn [loop_fun loop_mk]; rewrite ?or_loop_S, ?and_loop_S, Er;
    (destruct r as [|t r]; [done|]); simpl in Hfo; [by destruct Hfo as [-> _]|by rewrite Hfo].
Qed.

Lemma accept_cons op l t d ts f d' ts' fs :
  op t = true → accepted_phrase l d ts f → chain good op l d' ts' fs → accepted_chain op l d' ts' fs →
  accepted_chain op l (d `max` d') (t :: ts ++ ts') (f :: fs).
Proof.
  intros Hop IH Hch IHc Hl fuel depth acc st r Er Hfo Hd Hfuel. destruct fuel as [|fu]; [simpl in Hfuel; lia|].
  cbn [app] in Er, Hfuel. rewrite <- (assoc_L (++)) in Er, Hfuel. cbn [length] in Hfuel.
  assert (4 * length (ts ++ ts' ++ r) + level_fuel l ≤ fu)%nat as Hf1 by (destruct Hl as [[-> _]|[-> _]]; cbn; lia).
  destruct (IH fu depth (set_rest (ts ++ ts' ++ r) st) (ts' ++ r)) as (n & st1 & E & Hr & Hm); [done| |lia|done|].
  { by eapply chain_follows. }
  destruct (IHc Hl fu depth (acc ++ [n]) st1 r) as (ns & st' & E' & Hr' & Hms); [done|done|lia| |].
  { rewrite length_app in Hfuel. lia. }
  exists (n :: ns), st'. split_and!; [|done|by constructor].
  rewrite <- (assoc_L (++)) in E'. destruct Hl as [[-> ->]|[-> ->]]; cbn [loop_fun loop_mk level_fun] in *.
  - by rewrite or_loop_S, Er, Hop, E.
  - by rewrite and_loop_S, Er, Hop, E.
Qed.

Lemma parser_complete :
  (∀ l d ts f, derives good l d ts f → derives good l d ts f ∧ accepted_phrase l d ts f) ∧
  (∀ op l d ts fs, chain good op l d ts fs → chain good op l d ts fs ∧ accepted_chain op l d ts fs).
Proof.
  apply (derives_chain_ind good (λ l d ts f, derives good l d ts f ∧ accepted_phrase l d ts f)
           (λ op l d ts fs, chain good op l d ts fs ∧ accepted_chain op l d ts fs)).
  - intros t f Hp Ht. split; [by constructor|by apply accept_term].
  - intros o c d ts f Ho Hc _ [Hd IH]. split; [by constructor|by apply accept_paren].
  - intros d ts f _ [Hd IH]. split; [by constructor|by apply accept_prim].
  - intros t d ts f Ht _ [Hd IH]. split; [by constructor|by apply accept_not].
  - intros d ts f d' ts' fs _ [Hd IH] _ [Hc IHc]. split; [by constructor|by apply accept_and].
  - intros d ts f d' ts' fs _ [Hd IH] _ [Hc IHc]. split; [by constructor|by apply accept_or].
  - intros op l. split; [constructor|apply accept_nil].
  - intros op l t d ts f d' ts' fs Ht _ [Hd IH] _ [Hc IHc]. split; [by constructor|by apply accept_cons].
Qed.
End parsing.

(** ** What a leaf means *)

Section compiled.
Context `{Runtime} `{NetIP} (regex_Compile : string → option (string → bool)).

(** The patterns of the readings of a path target, tried on the grains or the
    pillar. *)
Definition path_spec (root : value) (pred : string → string → bool) (cands : list (string * string)) : bool :=
  existsb (λ c : string * string,
    match Traverse root c.1 ":" with Some v => matchScalarOrList v (pred c.2) | None => false end) cands.

Definition readings (expr : string) : list (string * string) :=
  match splitCandidates expr with inr cands => cands | inl _ => [] end.

Definition regex_pred (pattern s : string) : bool :=
  match regex_Compile pattern with Some re => re s | None => false end.

(** What each kind of leaf answers, whatever it cost to compile; what it means is
    said without the code in [TargetGroups]. *)
Definition leaf_spec (kind : TKind) (expr : string) (n : Node) : bool :=
  match kind with
  | Glob => MatchGlob expr (nID n)
  | List => bool_decide (nID n ∈ ListIDs expr)
  | Regex => regex_pred expr (nID n)
  | Grain => path_spec (pickGrains n) MatchGlob (readings expr)
  | Pillar => path_spec (pickPillar n) MatchGlob (readings expr)
  | GrainRegex => path_spec (pickGrains n) regex_pred (readings expr)
  | PillarRegex => path_spec (pickPillar n) regex_pred (readings expr)
  | Subnet => match compileSubnet expr with inr l => (leaf_match l n).1 | inl _ => false end
  | Nodegroup | Compound => false
  end.

Lemma compileGlob_spec expr pattern b g b' :
  compileGlob expr pattern b = inr (g, b') → ∀ s, g s = MatchGlob pattern s.
Proof.
  unfold compileGlob, MatchGlob. case_bool_decide; [by intros [= <- _]|].
  pose proof (proj1 (Compile_agrees pattern)) as Ha. destruct (Fnmatch.Compile pattern) as [e|p]; [done|].
  destruct (IsLiteral pattern); [intros [= <- _] s; by apply Ha|].
  destruct (spend _ _ _); [done|]. intros [= <- _] s. by apply Ha.
Qed.

Lemma matchScalarOrList_ext v p q : (∀ s, p s = q s) → matchScalarOrList v p = matchScalarOrList v q.
Proof. intros Hpq. destruct v; simpl; try done. by apply existsb_ext_in. Qed.

Lemma compile_globs_spec root expr cands b gs b' :
  compile_globs expr cands b = inr (gs, b') →
  cands_match root gs = path_spec root MatchGlob cands.
Proof.
  revert b gs. induction cands as [|[key pattern] cands IH]; intros b gs; [by intros [= <- _]|]. cbn [compile_globs].
  destruct (compileGlob expr pattern b) as [e|[g b1]] eqn:Eg; [done|].
  destruct (compile_globs expr cands b1) as [e|[gs' b2]] eqn:Egs; [done|]. intros [= <- <-].
  unfold path_spec, cands_match in *. cbn [existsb fst snd]. rewrite (IH _ _ Egs). f_equal.
  destruct (Traverse root key ":"); [|done]. apply matchScalarOrList_ext. by eapply compileGlob_spec.
Qed.

Lemma matchScalarOrList_false v : matchScalarOrList v (λ _, false) = false.
Proof. destruct v as [| | | | | | |l| | | |]; simpl; try done. by induction l. Qed.

Lemma compile_regexes_spec root expr first cands b gs b' :
  compile_regexes regex_Compile expr first cands b = inr (gs, b') →
  cands_match root gs = path_spec root regex_pred cands.
Proof.
  revert first b gs. induction cands as [|[key pattern] cands IH]; intros first b gs; [by intros [= <- _]|].
  cbn [compile_regexes]. destruct (spend b expr (String.length pattern)) as [e|b1]; [done|].
  assert (∀ re, regex_Compile pattern = re →
    match compile_regexes regex_Compile expr false cands b1 with inl e => inl e | inr (gs, b) => inr ((key, re) :: gs, b) end
      = inr (gs, b') → cands_match root gs = path_spec root regex_pred ((key, pattern) :: cands)) as Hgo.
  { intros re Ere. destruct (compile_regexes _ expr false cands b1) as [e|[gs' b2]] eqn:Egs; [done|]. intros [= <- <-].
    unfold path_spec, cands_match in *. cbn [existsb fst snd]. rewrite (IH _ _ _ Egs). f_equal.
    destruct (Traverse root key ":") as [v|]; [|by destruct re]. destruct re as [re|].
    - apply matchScalarOrList_ext. intros s. unfold regex_pred. by rewrite Ere.
    - rewrite <- (matchScalarOrList_false v). apply matchScalarOrList_ext. intros s.
      unfold regex_pred. by rewrite Ere. }
  destruct (regex_Compile pattern) as [re|], first; intros E; try discriminate E; by eapply Hgo.
Qed.

Lemma compileLeaf_spec kind expr b l b' :
  compileLeaf regex_Compile kind expr b = inr (l, b') → ∀ n, (leaf_match l n).1 = leaf_spec kind expr n.
Proof.
  intros E n. destruct kind; cbn [compileLeaf leaf_spec] in *; try done.
  - destruct (compileGlob expr expr b) as [e|[g b1]] eqn:Eg; [done|]. simplify_eq. simpl. by eapply compileGlob_spec.
  - by simplify_eq.
  - destruct (spend _ _ _); [done|]. unfold regex_pred. destruct (regex_Compile expr); [|done]. by simplify_eq.
  - unfold readings. destruct (splitCandidates expr) as [e|cands]; [done|].
    destruct (compile_globs expr cands b) as [e|[gs b1]] eqn:Eg; [done|]. simplify_eq.
    exact (compile_globs_spec _ _ _ _ _ _ Eg).
  - unfold readings. destruct (splitCandidates expr) as [e|cands]; [done|].
    destruct (compile_regexes _ expr true cands b) as [e|[gs b1]] eqn:Eg; [done|]. simplify_eq.
    exact (compile_regexes_spec _ _ _ _ _ _ _ Eg).
  - unfold readings. destruct (splitCandidates expr) as [e|cands]; [done|].
    destruct (compile_globs expr cands b) as [e|[gs b1]] eqn:Eg; [done|]. simplify_eq.
    exact (compile_globs_spec _ _ _ _ _ _ Eg).
  - unfold readings. destruct (splitCandidates expr) as [e|cands]; [done|].
    destruct (compile_regexes _ expr true cands b) as [e|[gs b1]] eqn:Eg; [done|]. simplify_eq.
    exact (compile_regexes_spec _ _ _ _ _ _ _ Eg).
  - destruct (compileSubnet expr) as [e|l']; [done|]. by simplify_eq.
Qed.

(** ** What an expression means *)

(** How a token is read: its kind, and its value. *)
Definition reading (t : tok) : TKind * string :=
  match IndexByte "@" (text t) with
  | None | Some O => (Glob, text t)
  | Some at_ =>
      match kindLetter (stake at_ (text t)) with
      | None => (Glob, text t)
      | Some kind => (kind, sdrop (S at_) (text t))
      end
  end.

(** A term that is not a nodegroup says what its leaf does; a nodegroup says what
    its expansion does, in which there are no nodegroups. *)
Definition term0 (t : tok) (f : Node → bool) : Prop :=
  (reading t).1 ≠ Nodegroup ∧ ∀ n, f n = leaf_spec (reading t).1 (reading t).2 n.
Definition term1 (groups : Nodegroups) (t : tok) (f : Node → bool) : Prop :=
  term0 t f ∨
  ((reading t).1 = Nodegroup ∧ ∃ expanded d g,
     expandNodegroup groups (reading t).2 = Some (inr expanded) ∧
     derives term0 LvOr d (tokenize expanded) g ∧ ∀ n, f n = g n).

Abbreviation parse_ := (parse regex_Compile).
Abbreviation cterm := (compileTerm regex_Compile).

Lemma leaf_term_sound kind key expr c st n st' :
  leaf_term regex_Compile kind key expr c st = Some (inr (n, st')) →
  rest st' = rest st ∧ means n (leaf_spec kind expr).
Proof.
  unfold leaf_term. destruct (compileLeaf _ kind expr (left_ st)) as [e|[l b]] eqn:E; [done|]. intros [= <- <-].
  split; [done|]. intros m. cbn [tmatch]. by eapply compileLeaf_spec.
Qed.

Lemma leaf_term_total kind key expr c st : is_Some (leaf_term regex_Compile kind key expr c st).
Proof. unfold leaf_term. by destruct (compileLeaf _ kind expr (left_ st)) as [|[]]. Qed.

Lemma compileTerm_sound sub groups src t st n st' :
  cterm sub groups src t st = Some (inr (n, st')) →
  rest st' = rest st ∧
  (((reading t).1 ≠ Nodegroup ∧ means n (leaf_spec (reading t).1 (reading t).2)) ∨
   ((reading t).1 = Nodegroup ∧ ∃ expanded ts b,
      expandNodegroup groups (reading t).2 = Some (inr expanded) ∧ sub expanded (left_ st) = Some (inr (n, ts, b)))).
Proof.
  unfold compileTerm, reading.
  assert (leaf_term regex_Compile Glob "" (text t) (col t) st = Some (inr (n, st')) →
    rest st' = rest st ∧ (Glob ≠ Nodegroup ∧ means n (leaf_spec Glob (text t)))) as Hglob.
  { intros E. by apply leaf_term_sound in E as [-> ?]. }
  destruct (IndexByte "@" (text t)) as [[|at_]|]; [intros E; by apply Hglob in E as [? ?]; split; [|left]| |
    intros E; by apply Hglob in E as [? ?]; split; [|left]].
  destruct (kindLetter _) as [kind|]; [|intros E; by apply Hglob in E as [? ?]; split; [|left]].
  case_bool_decide; [done|]. case_bool_decide as Hk.
  - destruct (expandNodegroup groups _) as [[e|expanded]|] eqn:Ee; [done| |done].
    destruct (sub expanded (left_ st)) as [[e|[[node ts] b]]|] eqn:Es; [done| |done]. intros [= <- <-].
    split; [done|]. right. split; [done|]. by exists expanded, ts, b.
  - intros E. apply leaf_term_sound in E as [-> ?]. split; [done|by left].
Qed.

Lemma compileTerm_total sub groups src t st :
  (∀ expanded b, expandNodegroup groups (reading t).2 = Some (inr expanded) → (reading t).1 = Nodegroup →
     is_Some (sub expanded b)) →
  is_Some (cterm sub groups src t st).
Proof.
  intros Hsub. unfold compileTerm, reading in *. pose proof (leaf_term_total Glob "" (text t) (col t) st) as Hg.
  destruct (IndexByte "@" (text t)) as [[|at_]|]; [done| |done].
  destruct (kindLetter _) as [kind|]; [|done]. case_bool_decide; [done|].
  case_bool_decide as Hk; [|apply leaf_term_total].
  destruct (group_resolve_total groups 12 (sdrop (S (S at_)) (text t)) 0 []) as [[e|expanded] Ee]; [lia..| |].
  - unfold expandNodegroup. by rewrite Ee.
  - destruct (Hsub expanded (left_ st)) as [[e|[[node ts] b]] Es]; [done|done| |];
      unfold expandNodegroup; rewrite Ee, Es; done.
Qed.

Lemma compileTerm_rest sub groups src t st n st' :
  cterm sub groups src t st = Some (inr (n, st')) → rest st' = rest st.
Proof. intros E. by apply compileTerm_sound in E as [? _]. Qed.

Lemma parse_S n groups src b :
  parse_ (S n) groups src b =
  match tokenize src with
  | [] => Some (inl (mkTErr src 0 Empty))
  | all =>
      match parseOr src all (cterm (parse_ n groups) groups src) (4 * length all + 4) 0 (mkPst all b []) with
      | None => None
      | Some (inl e) => Some (inl e)
      | Some (inr (node, st)) =>
          match rest st with
          | [] => Some (inr (node, terms st, left_ st))
          | t :: _ =>
              Some (inl (mkTErr src (col t) (if bool_decide (text t = ")") then UnmatchedClose else UnexpectedTok (text t))))
          end
      end
  end.
Proof. done. Qed.

(** A run of the parser over a whole expression. *)
Lemma parse_sound n groups src b node ts b' :
  parse_ (S n) groups src b = Some (inr (node, ts, b')) →
  ∃ d f, derives (term (cterm (parse_ n groups) groups src)) LvOr d (tokenize src) f ∧ means node f ∧
         (d ≤ maxCompoundDepth)%nat.
Proof.
  cbn [parse]. destruct (tokenize src) as [|t0 toks] eqn:Et; [done|].
  destruct (parseOr _ _ _ _ _ _) as [[e|[x st]]|] eqn:Ep; [done| |done].
  destruct (rest st) as [|t r] eqn:Er; [|done]. intros [= <- _ _].
  pose proof (proj1 (parser_sound src (t0 :: toks) _ (compileTerm_rest _ groups src) _) _ _ _ _ Ep
                ltac:(unfold maxCompoundDepth; lia)) as Hrd.
  destruct Hrd as (d & ts' & f & Erest & Hd & Hm & Hle). rewrite Er, app_nil_r in Erest. cbn [rest] in Erest.
  exists d, f. rewrite Erest. by split_and!.
Qed.

Lemma parse_total n groups src b :
  (∀ t st, t ∈ tokenize src → is_Some (cterm (parse_ n groups) groups src t st)) →
  is_Some (parse_ (S n) groups src b).
Proof.
  intros Ht. cbn [parse]. destruct (tokenize src) as [|t0 toks] eqn:Et; [done|].
  assert (is_Some (parseOr src (t0 :: toks) (cterm (parse_ n groups) groups src) (4 * length (t0 :: toks) + 4) 0
                     (mkPst (t0 :: toks) b []))) as [[e|[x st]] ->]; [|done|by destruct (rest st)].
  apply (proj1 (parser_ends src (t0 :: toks) _ (compileTerm_rest _ groups src) (λ t, t ∈ t0 :: toks) Ht _));
    [cbn [rest]; lia|unfold maxCompoundDepth; lia|by apply Forall_forall].
Qed.

(** In an expansion no token names a nodegroup. *)
Lemma noref_reading t : noref (text t) → (reading t).1 ≠ Nodegroup.
Proof.
  intros Hn. unfold reading. destruct (IndexByte "@" (text t)) as [[|at_]|] eqn:Ei; [done| |done].
  pose proof (noref_not_group _ _ Hn Ei) as Hk. destruct (kindLetter _) as [k|]; [|done]. intros [= ->]. done.
Qed.

Lemma parse1_total groups src b : noref src → is_Some (parse_ 1 groups src b).
Proof.
  intros Hn%tokenize_noref. apply parse_total. intros t st Ht. rewrite Forall_forall in Hn.
  apply compileTerm_total. intros expanded b0 _ Hg. by destruct (noref_reading t (Hn t Ht)).
Qed.

Lemma parse2_total groups src b : is_Some (parse_ 2 groups src b).
Proof.
  apply parse_total. intros t st _. apply compileTerm_total. intros expanded b0 He _.
  apply parse1_total. by eapply resolve_noref.
Qed.

Lemma same_meaning n f g : means n f → means n g → ∀ m, f m = g m.
Proof. intros Hf Hg m. by rewrite <- Hf, <- Hg. Qed.

Lemma parse1_sound groups src b node ts b' :
  noref src → parse_ 1 groups src b = Some (inr (node, ts, b')) →
  ∃ d f, derives term0 LvOr d (tokenize src) f ∧ means node f ∧ (d ≤ maxCompoundDepth)%nat.
Proof.
  intros Hn%tokenize_noref (d & f & Hd & Hm & Hle)%parse_sound. exists d, f. split_and!; [|done|done].
  eapply derives_mono; [|exact Hd|exact Hn]. intros t g Hnt (st & n & st' & E & Hg).
  apply noref_reading in Hnt. apply compileTerm_sound in E as [_ [[_ Hs]|[? _]]]; [|done].
  split; [done|]. by eapply same_meaning.
Qed.

Lemma parse2_sound groups src b node ts b' :
  parse_ 2 groups src b = Some (inr (node, ts, b')) →
  ∃ d f, derives (term1 groups) LvOr d (tokenize src) f ∧ means node f ∧ (d ≤ maxCompoundDepth)%nat.
Proof.
  intros (d & f & Hd & Hm & Hle)%parse_sound. exists d, f. split_and!; [|done|done].
  eapply (derives_mono _ _ (λ _, True)); [|exact Hd|by apply Forall_true]. intros t g _ (st & n & st' & E & Hg).
  apply compileTerm_sound in E as [_ [[Hk Hs]|(Hk & expanded & ts1 & b1 & Hex & Hsub)]].
  - left. split; [done|]. by eapply same_meaning.
  - right. split; [done|]. apply parse1_sound in Hsub as (d1 & f1 & Hd1 & Hm1 & _); [|by eapply resolve_noref].
    exists expanded, d1, f1. split_and!; [done..|]. by eapply same_meaning.
Qed.

(** What a target of each kind answers, by the texts the code substitutes. *)
Definition target_spec (groups : Nodegroups) (kind : TKind) (expr : string) (f : Node → bool) : Prop :=
  match kind with
  | Compound => ∃ d, derives (term1 groups) LvOr d (tokenize expr) f ∧ (d ≤ maxCompoundDepth)%nat
  | Nodegroup => ∃ resolved d, expandNodegroup groups expr = Some (inr resolved) ∧
      derives (term1 groups) LvOr d (tokenize resolved) f ∧ (d ≤ maxCompoundDepth)%nat
  | _ => ∀ n, f n = leaf_spec kind expr n
  end.

Lemma compile_ends kind expr groups : is_Some (Compile regex_Compile kind expr groups).
Proof.
  unfold Compile. destruct (_ <? _)%nat; [done|].
  assert (∀ src, is_Some (with_ast kind expr (parse_ 2 groups src maxPatternBytes))) as Hp.
  { intros src. destruct (parse2_total groups src maxPatternBytes) as [[e|[[node ts] b]] ->]; done. }
  destruct kind; try (destruct (compileLeaf _ _ _ _) as [|[]]; done); [|apply Hp].
  destruct (group_resolve_total groups 12 expr 0 []) as [[e|resolved] Ee]; [lia..| |];
    unfold expandNodegroup; rewrite Ee; [done|apply Hp].
Qed.

(** Compiling a target always ends: the parser needs no more steps than its
    tokens allow, and a nodegroup's expansion stops at its depth bound or at
    the first name it has seen, whatever the nodegroups refer to. *)
Theorem compile_total kind expr groups : is_Some (Compile regex_Compile kind expr groups).
Proof. apply compile_ends. Qed.

Lemma with_ast_sound kind expr groups src m :
  with_ast kind expr (parse_ 2 groups src maxPatternBytes) = Some (inr m) →
  ∃ d f, derives (term1 groups) LvOr d (tokenize src) f ∧ (d ≤ maxCompoundDepth)%nat ∧ ∀ n, MatcherMatch m n = f n.
Proof.
  destruct (parse_ 2 groups src _) as [[e|[[node ts] b]]|] eqn:E; [done| |done]. intros [= <-].
  apply parse2_sound in E as (d & f & Hd & Hm & Hle). by exists d, f.
Qed.

Lemma compiled_means kind expr groups m :
  Compile regex_Compile kind expr groups = Some (inr m) →
  ∃ f, target_spec groups kind expr f ∧ ∀ n, MatcherMatch m n = f n.
Proof.
  unfold Compile. destruct (_ <? _)%nat; [done|].
  destruct kind;
    try (destruct (compileLeaf _ _ _ _) as [e|[l b]] eqn:El; [done|]; intros [= <-];
         eexists; split; [intros n; reflexivity|]; exact (compileLeaf_spec _ _ _ _ _ El)).
  - destruct (expandNodegroup groups expr) as [[e|resolved]|] eqn:Ee; [done| |done].
    intros (d & f & Hd & Hle & Hm)%with_ast_sound. exists f. split; [|done]. by exists resolved, d.
  - intros (d & f & Hd & Hle & Hm)%with_ast_sound. exists f. split; [|done]. by exists d.
Qed.

(** The terms that cost nothing of the budget: names, lists of names, and [*]. *)
Definition free_term (t : tok) (f : Node → bool) : Prop :=
  (∀ n, f n = leaf_spec (reading t).1 (reading t).2 n) ∧
  match (reading t).1 with
  | Glob => (reading t).2 = "*" ∨ IsLiteral (reading t).2 = true
  | List => (reading t).2 ≠ ""
  | _ => False
  end.

Lemma free_leaf kind expr b :
  match kind with Glob => expr = "*" ∨ IsLiteral expr = true | List => expr ≠ "" | _ => False end →
  ∃ l, compileLeaf regex_Compile kind expr b = inr (l, b).
Proof.
  destruct kind; try done; cbn [compileLeaf]; [|by eexists].
  intros Hf. unfold compileGlob. case_bool_decide; [by eexists|]. destruct Hf as [?|Hl]; [done|].
  unfold Fnmatch.Compile. rewrite Hl. by eexists.
Qed.

Lemma free_leaf_term kind key expr c st :
  match kind with Glob => expr = "*" ∨ IsLiteral expr = true | List => expr ≠ "" | _ => False end →
  ∃ n st', leaf_term regex_Compile kind key expr c st = Some (inr (n, st')) ∧ means n (leaf_spec kind expr).
Proof.
  intros Hf. unfold leaf_term. destruct (free_leaf kind expr (left_ st) Hf) as [l El]. rewrite El.
  eexists _, _. split; [done|]. intros m. cbn [tmatch]. exact (compileLeaf_spec _ _ _ _ _ El m).
Qed.

Lemma free_term_compiles sub groups src t f st :
  free_term t f → ∃ n st', cterm sub groups src t st = Some (inr (n, st')) ∧ means n f.
Proof.
  intros [Hf Hk].
  enough (∃ n st', cterm sub groups src t st = Some (inr (n, st')) ∧ means n (leaf_spec (reading t).1 (reading t).2))
    as (n & st' & E & Hm).
  { exists n, st'. split; [done|]. intros m. by rewrite Hf. }
  clear Hf f. unfold compileTerm, reading in *.
  destruct (IndexByte "@" (text t)) as [[|at_]|]; [by apply free_leaf_term| |by apply free_leaf_term].
  destruct (kindLetter _) as [kind|] eqn:Ekl; [|by apply free_leaf_term]. cbn [fst snd] in *.
  case_bool_decide as Hv.
  { exfalso. rewrite Hv in Hk. destruct kind; try done. by eapply glob_has_no_letter. }
  case_bool_decide as Hg; [by rewrite Hg in Hk|]. by apply free_leaf_term.
Qed.

(** Every compound expression over names, lists of names and [*] that nests
    no deeper than the limit compiles, and every way to derive it from the
    grammar gives the meaning the matcher has: the parser reads all of the
    language, and the grammar has one reading of each text. *)
Theorem compound_complete groups expr d f :
  (String.length expr ≤ MaxExprLen)%nat → (d ≤ maxCompoundDepth)%nat →
  derives free_term LvOr d (tokenize expr) f →
  ∃ m, Compile regex_Compile Compound expr groups = Some (inr m) ∧ ∀ n, MatcherMatch m n = f n.
Proof.
  intros Hlen Hd Hder. unfold Compile. rewrite (proj2 (Nat.ltb_ge _ _) Hlen).
  rewrite parse_S. set (ts := tokenize expr) in *.
  destruct (proj1 (parser_complete expr ts (cterm (parse_ 1 groups) groups expr)
     (compileTerm_rest _ groups expr) free_term
     (free_term_compiles _ groups expr)) LvOr d ts f Hder) as [_ Hacc].
  destruct (Hacc (4 * length ts + 4)%nat 0%nat (mkPst ts maxPatternBytes []) []) as (n & st' & E & Hr & Hm);
    [cbn [rest]; by rewrite app_nil_r|done|lia|cbn [level_fuel]; rewrite app_nil_r; lia|].
  cbn [level_fun] in E. destruct ts as [|t0 toks] eqn:Et; [by apply derives_nonempty in Hder|].
  cbv zeta iota. rewrite E, Hr. cbn [with_ast]. eexists. split; [done|]. exact Hm.
Qed.
End compiled.

(** ** A target to evaluate *)

#[local] Existing Instance demo_runtime.

(** Addresses as text, and one network per prefix of it. *)
#[local] Instance demo_netip : NetIP := {|
  Addr := string; Prefix := string;
  ParseAddr := λ s, if has_prefix "10." s then Some s else None;
  Is4 := λ _, true; Addr_String := id; WithoutZone := id;
  ParsePrefix := λ s, if bool_decide (s = "10.0.0.0/8") then Some "10." else None;
  Masked := id; Prefix_Addr := id;
  Contains := λ p a, has_prefix p a |}.

Definition demo_regex (s : string) : option (string → bool) :=
  if has_prefix "(" s then None else Some (λ t, has_prefix s t).

Definition demo_groups : Nodegroups := {[ "web" := "web1 or web2"; "all" := "N@web or not E@db"; "loop" := "N@loop" ]}.
Definition demo_node (id : string) : Node := mkNode id None None None.
Definition demo_matches (kind : TKind) (expr id : string) : option bool :=
  match Compile demo_regex kind expr demo_groups with
  | Some (inr m) => Some (MatcherMatch m (demo_node id))
  | _ => None
  end.

Example demo_compound :
  (demo_matches Compound "web1 or web2 and not *" "web1", demo_matches Compound "(web1 or web2) and not *" "web1",
   demo_matches Compound "N@all and not web2" "web2", demo_matches Nodegroup "all" "db7", demo_matches Nodegroup "loop" "x")
  = (Some true, Some false, Some false, Some false, None).
Proof. by vm_compute. Qed.

Lemma compound_complete_witness :
  ∃ m, Compile demo_regex Compound "web1 or not L@db1" demo_groups = Some (inr m) ∧
       ∀ n, MatcherMatch m n =
         leaf_spec demo_regex Glob "web1" n && true || (negb (leaf_spec demo_regex List "db1" n) && true || false).
Proof.
  eapply (compound_complete demo_regex demo_groups "web1 or not L@db1" 1).
  - apply Nat.leb_le. vm_compute. reflexivity.
  - apply Nat.leb_le. vm_compute. reflexivity.
  - assert (tokenize "web1 or not L@db1" =
      ([mkTok "web1" 1] ++ []) ++ (mkTok "or" 6 :: ([mkTok "not" 9; mkTok "L@db1" 13] ++ []) ++ [])) as -> by (vm_compute; reflexivity).
    refine (D_or _ 0 _ _ 1 _ [_] _ (C_cons _ is_or LvAnd _ 1 _ _ 0 _ [] _ _ (C_nil _ _ _))).
    + refine (D_and _ 0 _ _ 0 _ [] (D_prim _ 0 _ _ (D_term _ _ _ _ _)) (C_nil _ _ _));
        [vm_compute; intuition discriminate|split; [reflexivity|right; reflexivity]].
    + reflexivity.
    + refine (D_and _ 1 _ _ 0 _ [] (D_not _ _ 0 _ _ _ (D_prim _ 0 _ _ (D_term _ _ _ _ _))) (C_nil _ _ _));
        [reflexivity|vm_compute; intuition discriminate|split; [reflexivity|discriminate]].
Defined.
