(* ===== verification/TargetGroups.v ===== *)
(** * Targets: what an expression means

    The meaning of a target, without the compiler of src/internal/target: what
    each kind of term says of a node, and what a nodegroup says, which is what
    its own text says as a unit.  The code substitutes the text of a nodegroup
    for its name; [unsplice] shows that for tidy texts this comes to the same. *)

From S2P Require Import Prelude GoLib Value Fnmatch Target.

Open Scope Z_scope.

(** ** What a term says of a node *)

Section terms.
Context `{Runtime} `{NetIP} (regex_Compile : string → option (string → bool)).

(** A value that is looked at: itself, or each item of a sequence; a mapping is
    not. *)
Inductive looked_at : value → value → Prop :=
| look_item l v : v ∈ l → looked_at (VSeq l) v
| look_scalar v : match v with VSeq _ | VMap _ | VNilMap => False | _ => True end → looked_at v v.

(** A path and a pattern an expression can be read as: with a colon between them
    and a path that is not empty, or the whole as a path and any value. *)
Inductive read_as : string → string → string → Prop :=
| read_split path pattern : path ≠ "" → read_as (path +:+ ":" +:+ pattern) path pattern
| read_whole expr : sall (λ c, c ≠ ":"%char) expr → read_as expr expr "*".

Definition path_says (root : value) (pred : string → string → Prop) (expr : string) : Prop :=
  ∃ path pattern v item, read_as expr path pattern ∧ Traverse root path ":" = Some v ∧ looked_at v item ∧ pred pattern (KeyString item).

Definition regex_says (pattern s : string) : Prop := ∃ re, regex_Compile pattern = Some re ∧ re s = true.

(** An address among the grains of a node. *)
Definition has_address (n : Node) (is4 : bool) (s : string) : Prop :=
  ∃ g l, Grains n = Some g ∧ Get g (VString (if is4 then "ipv4" else "ipv6")) = Some (VSeq l) ∧ VString s ∈ l.

(** A target that is an address names nodes that have it; one that is a network,
    nodes with an address of its family in it. *)
Definition subnet_says (expr : string) (n : Node) : Prop :=
  (∃ a, ParseAddr expr = Some a ∧ has_address n (Is4 a) (Addr_String a)) ∨
  (ParseAddr expr = None ∧ ∃ p s a, ParsePrefix expr = Some p ∧ has_address n (Is4 (Prefix_Addr (Masked p))) s ∧
     ParseAddr s = Some a ∧ Contains (Masked p) (WithoutZone a) = true).

Definition leaf_says (kind : TKind) (expr : string) (n : Node) : Prop :=
  match kind with
  | Glob => MatchGlob expr (nID n) = true
  | List => nID n ≠ "" ∧ ∃ part, part ∈ pieces "," expr ∧ TrimSpace part = nID n
  | Regex => regex_says expr (nID n)
  | Grain => path_says (pickGrains n) (λ p s, MatchGlob p s = true) expr
  | Pillar => path_says (pickPillar n) (λ p s, MatchGlob p s = true) expr
  | GrainRegex => path_says (pickGrains n) regex_says expr
  | PillarRegex => path_says (pickPillar n) regex_says expr
  | Subnet => subnet_says expr n
  | Nodegroup | Compound => False
  end.

Lemma looked_at_match v p : matchScalarOrList v p = true ↔ ∃ item, looked_at v item ∧ p (KeyString item) = true.
Proof.
  split.
  - destruct v as [| | | | | | |l| | | |]; cbn [matchScalarOrList]; try done; intros Hp.
    all: try (eexists; split; [by apply look_scalar|done]).
    apply existsb_exists in Hp as (x & Hx%list_elem_of_In & Hp). exists x. split; [by constructor|done].
  - intros (item & Hl & Hp). destruct Hl as [l x Hx|v Hv].
    + cbn [matchScalarOrList]. apply existsb_exists. exists x. split; [by apply list_elem_of_In|done].
    + by destruct v.
Qed.

Lemma path_splits_spec pre s path pattern :
  (path, pattern) ∈ split_colons pre s ↔ ∃ x, path = pre +:+ x ∧ path ≠ "" ∧ s = x +:+ ":" +:+ pattern.
Proof.
  revert pre. induction s as [|c r IH]; intros pre; cbn [split_colons].
  - rewrite elem_of_nil. split; [done|]. by intros ([] & _ & _ & [=]).
  - set (here := bool_decide (c = ":"%char) && negb (bool_decide (pre = ""))).
    assert ((path, pattern) ∈ (if here then split_colons (pre +:+ String c "") r ++ [(pre, r)] else split_colons (pre +:+ String c "") r) ↔
      (path, pattern) ∈ split_colons (pre +:+ String c "") r ∨ (here = true ∧ path = pre ∧ pattern = r)) as ->.
    { destruct here; [|naive_solver]. rewrite elem_of_app, list_elem_of_singleton. naive_solver. }
    rewrite IH. unfold here. rewrite andb_true_iff, negb_true_iff, bool_decide_eq_true, bool_decide_eq_false. split.
    + intros [(x & -> & Hne & ->)|[[-> Hp] [-> ->]]].
      * exists (String c x). by rewrite string_app_assoc in *.
      * exists "". by rewrite string_app_nil_r.
    + intros ([|a x] & -> & Hne & Hs).
      * right. rewrite string_app_nil_r in *. by injection Hs as -> ->.
      * left. injection Hs as -> ->. exists x. by rewrite string_app_assoc in *.
Qed.

Lemma readings_spec expr path pattern : (path, pattern) ∈ readings expr ↔ read_as expr path pattern.
Proof.
  unfold readings, splitCandidates. destruct (contains_any [":"%char] expr) eqn:Ec; cbn [negb].
  - assert ((path, pattern) ∈ split_colons "" expr ↔ read_as expr path pattern) as Hs.
    { rewrite path_splits_spec. split.
      - intros (x & -> & Hne & ->). by constructor.
      - inversion 1 as [p q Hne|e Hc]; subst; [by eexists|]. exfalso.
        rewrite (proj2 (contains_any_sall _ _)) in Ec; [done|]. eapply sall_impl; [|exact Hc]. set_solver. }
    rewrite <- Hs. destruct (split_colons "" expr); [by rewrite !elem_of_nil|done].
  - apply contains_any_sall in Ec. rewrite list_elem_of_singleton. split.
    + intros [= -> ->]. constructor. eapply sall_impl; [|exact Ec]. set_solver.
    + inversion 1 as [p q Hne|e Hc]; subst; [|done]. exfalso. rewrite !sall_app in Ec. destruct Ec as (_ & [Hc _] & _). set_solver.
Qed.

Lemma path_spec_says root (pred : string → string → bool) (says : string → string → Prop) expr :
  (∀ p s, pred p s = true ↔ says p s) → path_spec root pred (readings expr) = true ↔ path_says root says expr.
Proof.
  intros Hp. unfold path_spec, path_says. rewrite existsb_exists. split.
  - intros ([path pattern] & Hr%list_elem_of_In%readings_spec & Hm). cbn [fst snd] in Hm.
    destruct (Traverse root path ":") as [v|] eqn:Ev; [|done]. apply looked_at_match in Hm as (item & Hl & Hi%Hp). by exists path, pattern, v, item.
  - intros (path & pattern & v & item & Hr%readings_spec & Ev & Hl & Hi%Hp). exists (path, pattern). split; [by apply list_elem_of_In|].
    cbn [fst snd]. rewrite Ev. apply looked_at_match. eauto.
Qed.

Lemma regex_pred_says p s : regex_pred regex_Compile p s = true ↔ regex_says p s.
Proof. unfold regex_pred, regex_says. destruct (regex_Compile p); naive_solver. Qed.

Lemma anyGrainAddress_says n is4 pred :
  anyGrainAddress n (if is4 : bool then "ipv4" else "ipv6") pred = true ↔ ∃ s, has_address n is4 s ∧ pred s = true.
Proof.
  unfold anyGrainAddress, has_address. destruct (Grains n) as [g|]; [|naive_solver]. split.
  - destruct (Get g _) as [[| | | | | | |l| | | |]|] eqn:Eg; try done. intros (x & Hx%list_elem_of_In & Hp)%existsb_exists.
    destruct x; try done. naive_solver.
  - intros (s & (g' & l & [= <-] & -> & Hs) & Hp). apply existsb_exists. exists (VString s). split; [by apply list_elem_of_In|done].
Qed.

Lemma subnet_spec_says expr n : leaf_spec regex_Compile Subnet expr n = true ↔ subnet_says expr n.
Proof.
  cbn [leaf_spec]. unfold compileSubnet, subnet_says. destruct (ParseAddr expr) as [a|] eqn:Ea.
  - cbn [leaf_match fst]. unfold addressGrain. rewrite anyGrainAddress_says. setoid_rewrite bool_decide_eq_true. naive_solver.
  - destruct (ParsePrefix expr) as [p|] eqn:Ep; [|naive_solver]. cbn [leaf_match fst]. unfold addressGrain. rewrite anyGrainAddress_says. split.
    + intros (s & Hs & Hc). destruct (ParseAddr s) as [a|] eqn:Es; [|done]. right. split; [done|]. by exists p, s, a.
    + intros [(a & [=] & _)|(_ & p' & s & a & [= <-] & Hs & Es & Hc)]. exists s. by rewrite Es.
Qed.

Lemma leaf_spec_says kind expr n : leaf_spec regex_Compile kind expr n = true ↔ leaf_says kind expr n.
Proof.
  destruct kind; cbn [leaf_spec leaf_says]; try done.
  - unfold ListIDs. rewrite bool_decide_eq_true, list_elem_of_filter, list_elem_of_fmap, Split_pieces. naive_solver.
  - apply regex_pred_says.
  - by apply path_spec_says.
  - apply path_spec_says, regex_pred_says.
  - by apply path_spec_says.
  - apply path_spec_says, regex_pred_says.
  - apply subnet_spec_says.
Qed.
End terms.

(** ** Texts and their words *)

(** The words of a text, from a word that has begun and the brackets open in it. *)
Definition words (s : string) (cur : option string) (d : nat) : list string := text <$> tok_go s 0 ((λ t, (0%nat, t)) <$> cur) d.

Lemma words_eq s i cur d : text <$> tok_go s i cur d = words s (snd <$> cur) d.
Proof.
  unfold words. assert (∀ i j cur cur', snd <$> cur = snd <$> cur' → text <$> tok_go s i cur d = text <$> tok_go s j cur' d) as Hgo.
  { clear i cur. revert d. induction s as [|c r IH]; intros d i j cur cur' Hc; cbn [tok_go].
    - by destruct cur as [[]|], cur' as [[]|]; simplify_eq/=.
    - destruct (_ || _), (0 <? d)%nat, (bool_decide (c = "("%char)), (bool_decide (c = ")"%char)), cur as [[]|], cur' as [[]|]; simplify_eq/=; try done;
        rewrite ?fmap_app, ?fmap_cons; cbn [text]; first [by apply IH|by f_equal; apply IH|by f_equal; f_equal; apply IH|idtac]. }
  apply Hgo. by destruct cur as [[]|].
Qed.
Lemma tokenize_words s : text <$> tokenize s = words s None 0.
Proof. done. Qed.

(** A character that goes on with a word. *)
Definition plain_c (c : ascii) : Prop := c ∉ [" "%char; "009"%char; "("%char; ")"%char].

Lemma words_nil cur d : words "" cur d = option_list cur.
Proof. by destruct cur. Qed.
Lemma words_plain c r cur d : plain_c c → words (String c r) cur d = words r (Some (default "" cur +:+ String c "")) d.
Proof.
  intros Hc. unfold words at 1. cbn [tok_go]. assert (c ≠ " "%char ∧ c ≠ "009"%char ∧ c ≠ "("%char ∧ c ≠ ")"%char) as (H1 & H2 & H3 & H4) by (unfold plain_c in Hc; set_solver).
  rewrite !bool_decide_false by done. cbn [orb]. rewrite words_eq. by destruct cur.
Qed.
Lemma words_space c r cur d :
  c ∈ [" "%char; "009"%char] →
  words (String c r) cur d = if (0 <? d)%nat then words r (Some (default "" cur +:+ String c "")) d else option_list cur ++ words r None 0.
Proof.
  intros Hc. unfold words at 1. cbn [tok_go]. assert (bool_decide (c = " "%char) || bool_decide (c = "009"%char) = true) as ->.
  { rewrite orb_true_iff, !bool_decide_eq_true. set_solver. }
  destruct (0 <? d)%nat; [rewrite words_eq; by destruct cur|]. rewrite fmap_app, words_eq. by destruct cur.
Qed.
Lemma words_open r cur d :
  words (String "(" r) cur d = match cur with None => "(" :: words r None d | Some t => words r (Some (t +:+ "(")) (S d) end.
Proof. destruct cur as [t|]; [exact (words_eq r 1 (Some (0%nat, t +:+ "(")) (S d))|exact (f_equal (cons "(") (words_eq r 1 None d))]. Qed.
Lemma words_close r cur d :
  words (String ")" r) cur d =
  if (0 <? d)%nat then words r (Some (default "" cur +:+ ")")) (d - 1) else option_list cur ++ ")" :: words r None 0.
Proof.
  destruct d as [|d], cur as [t|].
  - exact (f_equal (λ l, t :: ")" :: l) (words_eq r 1 None 0)).
  - exact (f_equal (cons ")") (words_eq r 1 None 0)).
  - cbn [Nat.ltb Nat.leb default]. exact (words_eq r 1 (Some (0%nat, t +:+ ")")) _).
  - exact (words_eq r 1 (Some (0%nat, ")")) _).
Qed.

(** Whether every bracket inside a word is closed at the end. *)
Fixpoint closes (s : string) (begun : bool) (d : nat) : bool :=
  match s with
  | EmptyString => (d =? 0)%nat
  | String c r =>
      if bool_decide (c ∈ [" "%char; "009"%char]) then (if (0 <? d)%nat then closes r true d else closes r false 0)
      else if bool_decide (c = "("%char) then (if begun then closes r true (S d) else closes r false d)
      else if bool_decide (c = ")"%char) then (if (0 <? d)%nat then closes r true (d - 1) else closes r false 0)
      else closes r true d
  end.

Definition begun (cur : option string) : bool := match cur with Some _ => true | None => false end.

Inductive char_case (c : ascii) : Prop :=
| char_space : c ∈ [" "%char; "009"%char] → char_case c
| char_open : c = "("%char → char_case c
| char_close : c = ")"%char → char_case c
| char_plain : plain_c c → char_case c.
Lemma char_cases c : char_case c.
Proof.
  destruct (decide (c ∈ [" "%char; "009"%char])); [by apply char_space|]. destruct (decide (c = "("%char)); [by apply char_open|].
  destruct (decide (c = ")"%char)); [by apply char_close|]. apply char_plain. unfold plain_c. set_solver.
Qed.

Lemma closes_space c r b d : c ∈ [" "%char; "009"%char] → closes (String c r) b d = if (0 <? d)%nat then closes r true d else closes r false 0.
Proof. intros Hc. cbn [closes]. by rewrite bool_decide_true. Qed.
Lemma closes_plain c r b d : plain_c c → closes (String c r) b d = closes r true d.
Proof. intros Hc. unfold plain_c in Hc. cbn [closes]. rewrite !bool_decide_false by set_solver. done. Qed.

(** A text that closes its brackets ends its last word at a space. *)
Lemma words_app s r cur d :
  closes s (begun cur) d = true → words (s +:+ String " " r) cur d = words s cur d ++ words r None 0.
Proof.
  revert cur d. induction s as [|c s IH]; intros cur d.
  - cbn [closes]. intros ->%Nat.eqb_eq. change ("" +:+ ?x) with x. rewrite words_space, words_nil by set_solver. done.
  - change (String c s +:+ ?x) with (String c (s +:+ x)). destruct (char_cases c) as [Hc| -> | -> |Hc].
    + rewrite closes_space, !words_space by done. destruct (0 <? d)%nat; intros Hs; [by apply IH|]. rewrite IH by done. by rewrite (assoc_L (++)).
    + rewrite !words_open. destruct cur as [t|]; cbn; intros Hs; [by apply IH|]. by rewrite IH.
    + rewrite !words_close. cbn. destruct d as [|d]; cbn; intros Hs; [|by apply IH]. rewrite IH by done. by rewrite <- (assoc_L (++)).
    + rewrite closes_plain, !words_plain by done. intros Hs. by apply IH.
Qed.
Lemma closes_app s r b d : closes s b d = true → closes (s +:+ String " " r) b d = closes r false 0.
Proof.
  revert b d. induction s as [|c s IH]; intros b d.
  - cbn [closes]. intros ->%Nat.eqb_eq. done.
  - change (String c s +:+ ?x) with (String c (s +:+ x)). destruct (char_cases c) as [Hc| -> | -> |Hc].
    + rewrite !closes_space by done. destruct (0 <? d)%nat; apply IH.
    + cbn. destruct b; apply IH.
    + cbn. destruct d; apply IH.
    + rewrite !closes_plain by done. apply IH.
Qed.

Lemma words_begun s t d : ∃ x ws, words s (Some t) d = (t +:+ x) :: ws.
Proof.
  revert t d. induction s as [|c s IH]; intros t d; [exists "", []; by rewrite string_app_nil_r|].
  assert (∀ d c, ∃ x ws, words s (Some (t +:+ String c "")) d = (t +:+ x) :: ws) as Hgo.
  { intros d' c'. destruct (IH (t +:+ String c' "") d') as (x & ws & ->). exists (String c' x), ws. by rewrite string_app_assoc. }
  assert (∀ l, ∃ x ws, t :: l = (t +:+ x) :: ws) as Hend by (intros l; exists "", l; by rewrite string_app_nil_r).
  destruct (char_cases c) as [Hc| -> | -> |Hc].
  - rewrite words_space by done. destruct (0 <? d)%nat; [apply Hgo|apply Hend].
  - rewrite words_open. apply Hgo.
  - rewrite words_close. destruct (0 <? d)%nat; [apply Hgo|apply Hend].
  - rewrite words_plain by done. apply Hgo.
Qed.
Lemma words_run x r cur d : x ≠ "" → sall plain_c x → words (x +:+ r) cur d = words r (Some (default "" cur +:+ x)) d.
Proof.
  revert cur. induction x as [|c x IH]; intros cur; [done|]. intros _ [Hc Hx]. change (String c x +:+ r) with (String c (x +:+ r)). rewrite words_plain by done.
  destruct x as [|c' x]; [done|]. rewrite IH by done. cbn [from_option id]. by rewrite string_app_assoc.
Qed.
Lemma closes_run x r b d : x ≠ "" → sall plain_c x → closes (x +:+ r) b d = closes r true d.
Proof.
  revert b. induction x as [|c x IH]; intros b; [done|]. intros _ [Hc Hx]. change (String c x +:+ r) with (String c (x +:+ r)). rewrite closes_plain by done.
  destruct x as [|c' x]; [done|]. by rewrite IH.
Qed.

(** ** Substitution *)

Fixpoint norefb (s : string) : bool := match s with EmptyString => true | String c r => negb (has_prefix "N@" s) && norefb r end.
Lemma norefb_spec s : norefb s = true ↔ noref s.
Proof. induction s as [|c s IH]; [done|]. cbn [norefb noref]. by rewrite andb_true_iff, negb_true_iff, IH. Qed.

(** A word that is a reference as a whole, or holds none. *)
Definition good_word (w : string) : bool := norefb w || (has_prefix "N@" w && negb (contains_any ["("%char; ")"%char] w)).

(** The brackets open after some words. *)
Fixpoint depth_after (d : nat) (ws : list string) : option nat :=
  match ws with
  | [] => Some d
  | w :: ws =>
      if bool_decide (w = "(") then depth_after (S d) ws
      else if bool_decide (w = ")") then match d with O => None | S d => depth_after d ws end
      else depth_after d ws
  end.

(** A text in which a reference is a term of its own, words are separated by
    spaces, and the brackets inside a word and between words are balanced. *)
Definition tidy (s : string) : bool :=
  negb (contains_any ["009"%char] s) && closes s false 0 && forallb good_word (words s None 0) && bool_decide (depth_after 0 (words s None 0) = Some 0%nat).

(** Words in which references have been replaced by the words of a text. *)
Inductive splice (resolve : string → option (TError + string)) : list string → list string → Prop :=
| splice_nil : splice resolve [] []
| splice_word w ws vs : noref w → splice resolve ws vs → splice resolve (w :: ws) (w :: vs)
| splice_ref name inner ws vs :
    resolve name = Some (inr inner) → splice resolve ws vs →
    splice resolve (("N@" +:+ name) :: ws) ("(" :: words inner None 0 ++ ")" :: vs).

Lemma group_name_split t : ∃ r, t = group_name t +:+ r ∧ sall (λ c, c ∉ [" "%char; ")"%char; "("%char]) (group_name t) ∧
  match r with String c _ => c ∈ [" "%char; ")"%char; "("%char] | EmptyString => True end.
Proof.
  induction t as [|c t (r & Ht & Hs & Hr)]; [by exists ""|]. cbn [group_name]. case_bool_decide as Hc; [by exists (String c t)|].
  exists r. split_and!; [|done..]. change (String c (group_name t) +:+ r) with (String c (group_name t +:+ r)). by rewrite <- Ht.
Qed.
Lemma expand_skip resolve x y : expand resolve (x +:+ y) (String.length x) = expand resolve y 0.
Proof. induction x as [|c x IH]; [done|]. exact IH. Qed.

Lemma prefix_app p s t : has_prefix p s = true → has_prefix p (s +:+ t) = true.
Proof.
  revert s. induction p as [|a p IH]; intros [|b s] Hp; [by destruct t|by destruct t|done|].
  change (String b s +:+ t) with (String b (s +:+ t)). cbn [has_prefix] in *. case_decide; [by apply IH|done].
Qed.
Lemma not_prefix_app p s t : has_prefix p (s +:+ t) = false → has_prefix p s = false.
Proof. intros Ht. destruct (has_prefix p s) eqn:E; [|done]. by rewrite (prefix_app _ _ t) in Ht. Qed.
Lemma good_noref w : good_word w = true → has_prefix "N@" w = false → noref w.
Proof. unfold good_word. intros Hg Hp. rewrite Hp, orb_false_r in Hg. by apply norefb_spec. Qed.
Lemma ref_inside t x : norefb (t +:+ "N@" +:+ x) = false.
Proof. apply not_true_iff_false. intros Hn%norefb_spec%noref_app_r. by destruct Hn. Qed.

(** A word that has begun holds no reference, if it is not one. *)
Lemma ref_in_word t s d :
  t ≠ "" → has_prefix "N@" s = true → has_prefix "N@" (t +:+ s) = false → ¬ Forall (λ w, good_word w = true) (words s (Some t) d).
Proof.
  intros Ht [r ->]%has_prefix_app Hts Hw. rewrite words_run in Hw by (done || (repeat split; unfold plain_c; set_solver)).
  destruct (words_begun r (t +:+ "N@") d) as (x & ws & E). cbn [from_option id] in Hw. rewrite E in Hw.
  apply Forall_cons in Hw as [Hw _]. unfold good_word in Hw. rewrite string_app_assoc in Hw. rewrite ref_inside in Hw. cbn [orb] in Hw.
  apply andb_true_iff in Hw as [Hw _]. destruct t as [|a [|b t]]; [done| |].
  { change (has_prefix "N@" (String a (String "N" (String "@" x))) = true) in Hw. cbn [has_prefix] in Hw. by repeat case_decide. }
  change (has_prefix "N@" (String a (String b (t +:+ "N@" +:+ x))) = true) in Hw.
  change (has_prefix "N@" (String a (String b (t +:+ "N@" +:+ r))) = false) in Hts. cbn [has_prefix] in *. by repeat case_decide.
Qed.

Section splicing.
Context (resolve : string → option (TError + string)).
Context (Hinner : ∀ ref inner, resolve ref = Some (inr inner) → closes inner false 0 = true).

(** A reference ends where its name does. *)
Lemma ref_ends name r :
  match r with String c _ => c ∈ [" "%char; ")"%char; "("%char] | EmptyString => True end →
  Forall (λ w, good_word w = true) (words r (Some ("N@" +:+ name)) 0) →
  words r (Some ("N@" +:+ name)) 0 = ("N@" +:+ name) :: words r None 0 ∧ closes r true 0 = closes r false 0.
Proof.
  destruct r as [|c r]; [done|]. intros Hc Hg. assert (c = " "%char ∨ c = ")"%char ∨ c = "("%char) as [-> |[-> | -> ]] by set_solver.
  - by rewrite !words_space by set_solver.
  - by rewrite !words_close.
  - exfalso. rewrite words_open in Hg. destruct (words_begun r (("N@" +:+ name) +:+ "(") 1) as (x & ws & E). rewrite E in Hg.
    apply Forall_cons in Hg as [Hg _]. unfold good_word in Hg. apply orb_true_iff in Hg as [Hg|[_ Hg]%andb_true_iff].
    + rewrite !string_app_assoc in Hg. pose proof (ref_inside "" (name +:+ "(" +:+ x)) as Hn. change ("" +:+ ?y) with y in Hn. congruence.
    + apply negb_true_iff, contains_any_sall in Hg. rewrite !sall_app in Hg. destruct Hg as [[_ [Hg _]] _]. set_solver.
Qed.

Definition splices_at (s : string) (cur : option string) (d : nat) (out : string) : Prop :=
  splice resolve (words s cur d) (words out cur d) ∧ closes out (begun cur) d = true.
Record spliceable (s : string) (cur : option string) (d : nat) : Prop := {
  sp_none : cur = None → d = 0%nat;
  sp_some t : cur = Some t → t ≠ "" ∧ has_prefix "N@" (t +:+ s) = false;
  sp_tab : sall (λ c, c ≠ "009"%char) s;
  sp_good : Forall (λ w, good_word w = true) (words s cur d);
  sp_closes : closes s (begun cur) d = true }.

Lemma splices_ref name r inner out :
  spliceable ("N@" +:+ name +:+ r) None 0 → sall (λ c, c ∉ [" "%char; ")"%char; "("%char]) name →
  match r with String c _ => c ∈ [" "%char; ")"%char; "("%char] | EmptyString => True end → resolve name = Some (inr inner) →
  (spliceable r None 0 → splices_at r None 0 out) → splices_at ("N@" +:+ name +:+ r) None 0 ("( " +:+ inner +:+ " )" +:+ out).
Proof.
  intros [_ _ Ht Hg Hc] Hn Hr Hi IH. cbn [begun] in Hc. rewrite <- string_app_assoc in Ht, Hg, Hc. rewrite !sall_app in Ht. destruct Ht as [[_ Hnt] Hrt].
  assert (sall plain_c ("N@" +:+ name)) as Hp.
  { apply sall_app. split; [repeat split; unfold plain_c; set_solver|]. clear -Hn Hnt. induction name as [|c name IH]; [done|].
    destruct Hn as [H1 H2], Hnt as [H3 H4]. split; [unfold plain_c; set_solver|by apply IH]. }
  rewrite words_run in Hg by done. rewrite closes_run in Hc by done. cbn [from_option id] in Hg. change ("" +:+ ?x) with x in Hg.
  destruct (ref_ends name r Hr Hg) as [Ew Ec]. rewrite Ew in Hg. apply Forall_cons in Hg as [_ Hg]. rewrite Ec in Hc.
  destruct IH as [Hs Ho]; [by split|]. unfold splices_at. rewrite <- string_app_assoc, words_run by done. cbn [from_option id begun].
  change ("" +:+ ?x) with x. rewrite Ew. specialize (Hinner _ _ Hi).
  change ("( " +:+ inner +:+ " )" +:+ out) with (String "(" (String " " (inner +:+ String " " (String ")" out)))).
  rewrite words_open, words_space by set_solver. cbn [Nat.ltb Nat.leb option_list app]. rewrite words_app, words_close by done. split.
  - by constructor.
  - change (closes (inner +:+ String " " (String ")" out)) false 0 = true). by rewrite closes_app.
Qed.

(** A character that is not the start of a reference. *)
Lemma splices_char c s cur d out :
  spliceable (String c s) cur d → has_prefix "N@" (String c s) = false →
  (∀ cur' d', spliceable s cur' d' → splices_at s cur' d' out) → splices_at (String c s) cur d (String c out).
Proof.
  intros [H0 Hs [Hc Ht] Hg Hcl] Hp IH.
  assert (∀ d', words (String c s) cur d = words s (Some (default "" cur +:+ String c "")) d' →
    words (String c out) cur d = words out (Some (default "" cur +:+ String c "")) d' →
    closes (String c s) (begun cur) d = closes s true d' → closes (String c out) (begun cur) d = closes out true d' →
    splices_at (String c s) cur d (String c out)) as Hgrow.
  { intros d' E1 E2 E3 E4. unfold splices_at. rewrite E1, E2, E4. rewrite E1 in Hg. rewrite E3 in Hcl. apply IH. split; try done.
    intros t [= <-]. split; [by destruct cur as [[]|]|]. rewrite string_app_assoc. destruct cur as [t|]; [by apply Hs|done]. }
  assert (Forall noref (option_list cur) ∨ ¬ Forall (λ w, good_word w = true) (option_list cur)) as Hcur.
  { destruct cur as [t|]; [|left; constructor]. destruct (good_word t) eqn:Eg; [left|right; by intros [? _]%Forall_cons; congruence].
    constructor; [|constructor]. apply good_noref; [done|]. destruct (Hs t eq_refl) as [_ Hf]. by apply not_prefix_app in Hf. }
  assert (∀ ws vs, Forall noref (option_list cur) → splice resolve ws vs → splice resolve (option_list cur ++ ws) (option_list cur ++ vs)) as Happ.
  { intros ws vs Hn Hw. destruct cur as [t|]; [|done]. apply Forall_cons in Hn as [Hn _]. by constructor. }
  destruct (char_cases c) as [Hsp| -> | -> |Hpl].
  - destruct (0 <? d)%nat eqn:Ed.
    { apply (Hgrow d); rewrite ?words_space, ?closes_space by done; by rewrite Ed. }
    unfold splices_at. rewrite words_space, Ed in Hg |- * by done. rewrite words_space, Ed by done. rewrite closes_space, Ed in Hcl |- * by done.
    apply Forall_app in Hg as [Hg1 Hg2]. destruct Hcur as [Hcur|?]; [|done]. destruct (IH None 0%nat) as [IHs IHc]; [by split|]. split; [by apply Happ|done].
  - destruct cur as [t|].
    { apply (Hgrow (S d)); [by rewrite words_open..|done|done]. }
    unfold splices_at. rewrite words_open in Hg |- *. rewrite words_open. apply Forall_cons in Hg as [Hg1 Hg2].
    destruct (IH None d) as [IHs IHc]; [by split|]. split; [|done]. constructor; [by vm_compute|done].
  - destruct d as [|d].
    + unfold splices_at. rewrite words_close in Hg |- *. rewrite words_close. apply Forall_app in Hg as [Hg1 [_ Hg2]%Forall_cons].
      destruct Hcur as [Hcur|?]; [|done]. destruct (IH None 0%nat) as [IHs IHc]; [by split|]. split; [|done]. apply Happ; [done|].
      constructor; [by vm_compute|done].
    + apply (Hgrow d); [rewrite words_close..| |]; cbn; by rewrite ?Nat.sub_0_r.
  - apply (Hgrow d); by rewrite ?words_plain, ?closes_plain.
Qed.

Lemma expand_splices n s cur d out :
  (String.length s ≤ n)%nat → spliceable s cur d → expand resolve s 0 = Some (inr out) → splices_at s cur d out.
Proof.
  revert s cur d out. induction n as [|n IH]; intros [|c s] cur d out Hn Hs He; cbn [String.length] in Hn; try lia.
  1,2: injection He as <-; split; [|apply Hs]; rewrite words_nil; destruct cur as [t|]; repeat constructor;
       pose proof (sp_good _ _ _ Hs) as Hg; rewrite words_nil in Hg; apply Forall_cons in Hg as [Hg _]; apply good_noref; [done|];
       destruct (sp_some _ _ _ Hs t eq_refl) as [_ Hp]; by rewrite string_app_nil_r in Hp.
  cbn [expand] in He. destruct (has_prefix "N@" (String c s)) eqn:Ep.
  - destruct cur as [t|]; [exfalso; destruct (sp_some _ _ _ Hs t eq_refl); eapply (ref_in_word t (String c s) d); [done..|apply Hs]|].
    assert (d = 0%nat) as -> by by apply (sp_none _ _ _ Hs). apply has_prefix_app in Ep as [u Eu]. injection Eu as -> ->. change (sdrop 2 _) with u in He.
    destruct (group_name_split u) as (r & Hu & Hname & Hr). destruct (resolve (group_name u)) as [[e|inner]|] eqn:Ei; [done| |done].
    rewrite Hu in He at 1. change ("@" +:+ ?a +:+ ?b) with (("@" +:+ a) +:+ b) in He. change (1 + String.length ?x)%nat with (String.length ("@" +:+ x)) in He.
    rewrite expand_skip in He. destruct (expand resolve r 0) as [[e|out']|] eqn:Eo; [done| |done]. injection He as <-.
    change (String "N" ("@" +:+ u)) with ("N@" +:+ u) in *. rewrite Hu in Hs |- *. apply splices_ref; [done..|]. intros Hs'. apply IH; [|done|done].
    rewrite Hu in Hn. cbn in Hn. rewrite !length_app_string in Hn. lia.
  - destruct (expand resolve s 0) as [[e|out']|] eqn:Eo; [done| |done]. injection He as <-. apply splices_char; [done..|].
    intros cur' d' Hs'. apply IH; [lia|done|done].
Qed.
End splicing.

(** ** Phrases in which text was substituted *)

Lemma depth_app d ws vs : depth_after d (ws ++ vs) = depth_after d ws ≫= λ e, depth_after e vs.
Proof. revert d. induction ws as [|w ws IH]; intros d; [done|]. cbn [app depth_after]. repeat case_bool_decide; [apply IH|destruct d; [done|apply IH]|apply IH]. Qed.
Lemma depth_add k d ws e : depth_after d ws = Some e → depth_after (k + d) ws = Some (k + e)%nat.
Proof.
  revert d. induction ws as [|w ws IH]; intros d; cbn [depth_after]; [by intros [= ->]|]. repeat case_bool_decide.
  - rewrite <- Nat.add_succ_r. apply IH.
  - destruct d as [|d]; [done|]. rewrite Nat.add_succ_r. apply IH.
  - apply IH.
Qed.
Abbreviation even ws := (depth_after 0 ws = Some 0%nat).
Lemma even_from d ws vs : even ws → depth_after d (ws ++ vs) = depth_after d vs.
Proof. intros Hw. rewrite depth_app. apply (depth_add d) in Hw. rewrite Nat.add_0_r in Hw. by rewrite Hw. Qed.
Lemma even_app ws vs : even ws → even vs → even (ws ++ vs).
Proof. intros Hw Hv. by rewrite even_from. Qed.
Lemma even_block ws vs : even ws → even vs → even ("(" :: ws ++ ")" :: vs).
Proof. intros Hw Hv. cbn [depth_after]. rewrite bool_decide_true by done. by rewrite even_from. Qed.
Lemma even_word w ws : w ≠ "(" → w ≠ ")" → even ws → even (w :: ws).
Proof. intros H1 H2 Hw. cbn [depth_after]. by rewrite !bool_decide_false. Qed.

(** Two even lists before a closing bracket are the same. *)
Lemma even_prefix ws k z x : even ws → even (ws ++ k) → ")" :: z = k ++ ")" :: x → k = [] ∧ z = x.
Proof. intros Hw Hk Hz. destruct k as [|w k]; [by injection Hz|]. exfalso. rewrite even_from in Hk by done. by injection Hz as <- _. Qed.
Lemma even_unique ws vs x y : even ws → even vs → ws ++ ")" :: x = vs ++ ")" :: y → ws = vs ∧ x = y.
Proof.
  intros Hw Hv E. apply app_eq_app in E as [k [[E1 E2]|[E1 E2]]].
  - rewrite E1 in Hw. destruct (even_prefix vs k y x) as [-> ->]; [done..|]. by rewrite app_nil_r in E1.
  - rewrite E1 in Hv. destruct (even_prefix ws k x y) as [-> ->]; [done..|]. by rewrite app_nil_r in E1.
Qed.

Lemma operator_words t : is_and t = true ∨ is_or t = true ∨ is_not t = true → text t ≠ "(" ∧ text t ≠ ")".
Proof.
  unfold is_and, is_or, is_not. intros Ht. split; intros E; rewrite E in Ht; destruct Ht as [Ht|[Ht|Ht]]; vm_compute in Ht; done.
Qed.

(** A phrase is even. *)
Lemma derives_even (T : tok → (Node → bool) → Prop) :
  (∀ l d ts f, derives T l d ts f → even (text <$> ts)) ∧
  (∀ op l d ts fs, chain T op l d ts fs → op = is_and ∨ op = is_or → even (text <$> ts)).
Proof.
  apply (derives_chain_ind T (λ l d ts f, even (text <$> ts)) (λ op l d ts fs, op = is_and ∨ op = is_or → even (text <$> ts))).
  - intros t f (H1 & H2 & _) _. by apply even_word.
  - intros o c d ts f Ho Hc _ IH. rewrite fmap_cons, fmap_app, Ho. cbn [fmap list_fmap]. rewrite Hc. by apply even_block.
  - done.
  - intros t d ts f Ht _ IH. destruct (operator_words t) as [H1 H2]; [auto|]. by apply even_word.
  - intros d ts f d' ts' fs _ IH _ IHc. rewrite fmap_app. apply even_app; [done|]. apply IHc. by left.
  - intros d ts f d' ts' fs _ IH _ IHc. rewrite fmap_app. apply even_app; [done|]. apply IHc. by right.
  - done.
  - intros op l t d ts f d' ts' fs Ht _ IH _ IHc Hop. rewrite fmap_cons, fmap_app. destruct (operator_words t) as [H1 H2]; [naive_solver|].
    apply even_word; [done..|]. apply even_app; auto.
Qed.

Section unsplice.
Context (resolve : string → option (TError + string)).
Context (Heven : ∀ ref inner, resolve ref = Some (inr inner) → even (words inner None 0)).

(** A list that ends no bracket it did not open is not cut inside a text that was
    substituted. *)
Lemma splice_app e ws ts ts' :
  splice resolve ws (ts ++ ts') → depth_after e ts = Some 0%nat →
  ∃ ws1 ws2, ws = ws1 ++ ws2 ∧ splice resolve ws1 ts ∧ splice resolve ws2 ts'.
Proof.
  intros Hs. remember (ts ++ ts') as vs eqn:Ev. revert e ts Ev. induction Hs as [|w ws vs Hw Hs IH|name inner ws vs Hi Hs IH]; intros e ts Ev He.
  - symmetry in Ev. apply app_eq_nil in Ev as [-> ->]. exists [], []. split_and!; [done|constructor..].
  - destruct ts as [|t ts]; cbn [app] in Ev; [exists [], (w :: ws); split_and!; [done|constructor|subst ts'; by constructor]|].
    injection Ev as <- Ev. cbn [depth_after] in He.
    assert (∃ e', depth_after e' ts = Some 0%nat) as [e' He'] by (repeat case_bool_decide; [by eexists|destruct e; [done|by eexists]|by eexists]).
    destruct (IH e' ts Ev He') as (ws1 & ws2 & -> & H1 & H2). exists (w :: ws1), ws2. split_and!; [done|by constructor|done].
  - destruct ts as [|t ts]; cbn [app] in Ev; [exists [], (("N@" +:+ name) :: ws); split_and!; [done|constructor|subst ts'; by constructor]|].
    injection Ev as <- Ev. cbn [depth_after] in He. rewrite bool_decide_true in He by done. specialize (Heven _ _ Hi).
    apply app_eq_app in Ev as [k [[E1 E2]|[E1 E2]]].
    + exfalso. rewrite E1 in Heven. rewrite depth_app in Heven. destruct (depth_after 0 ts) as [m|] eqn:Em; [|done].
      apply (depth_add (S e)) in Em. rewrite Nat.add_0_r in Em. rewrite Em in He. done.
    + destruct k as [|w k]; [exfalso; rewrite app_nil_r in E1; subst ts; apply (depth_add (S e)) in Heven; rewrite Nat.add_0_r in Heven; rewrite Heven in He; done|].
      injection E2 as <- E2. subst ts. rewrite even_from in He by done. cbn [depth_after] in He. rewrite bool_decide_false, bool_decide_true in He by done.
      destruct (IH e k E2 He) as (ws1 & ws2 & -> & H1 & H2). exists (("N@" +:+ name) :: ws1), ws2. split_and!; [done|by constructor|done].
Qed.
Lemma splice_one ws w : splice resolve ws [w] → ws = [w] ∧ noref w.
Proof.
  intros Hs. inversion Hs as [|w' ws' vs Hw Hs'|name inner ws' vs Hi Hs']; subst.
  - by inversion Hs'.
  - exfalso. destruct (words inner None 0); discriminate.
Qed.
Lemma splice_head ws w vs : splice resolve ws (w :: vs) → w ≠ "(" → noref w ∧ ∃ ws', ws = w :: ws' ∧ splice resolve ws' vs.
Proof. intros Hs Hw. inversion Hs; subst; [eauto|done]. Qed.
End unsplice.

Lemma ref_plain t name : text t = "N@" +:+ name → plain_tok t.
Proof.
  intros Ht. unfold plain_tok, is_and, is_or, is_not, EqualFold. rewrite Ht.
  assert (runes ("N@" +:+ name) = 78 :: 64 :: runes name) as ->.
  { unfold runes, bytes. done. }
  split_and!; [done..| | |]; apply bool_decide_eq_false; by intros [=].
Qed.

Section phrases.
Context (resolve : string → option (TError + string)) (T T' : tok → (Node → bool) → Prop).
Context (Heven : ∀ ref inner, resolve ref = Some (inr inner) → even (words inner None 0)).
Context (HT : ∀ t u f, text t = text u → noref (text t) → T u f → T' t f).
Context (HR : ∀ name inner t d ts f,
  resolve name = Some (inr inner) → text t = "N@" +:+ name → text <$> ts = words inner None 0 → derives T LvOr d ts f → T' t f).

Lemma plain_text t u : text t = text u → plain_tok u → plain_tok t.
Proof. unfold plain_tok, is_and, is_or, is_not. by intros ->. Qed.

(** A phrase with the substituted texts is one with the references. *)
Lemma unsplice :
  (∀ l d ts f, derives T l d ts f → ∀ us, splice resolve (text <$> us) (text <$> ts) → ∃ d', derives T' l d' us f) ∧
  (∀ op l d ts fs, chain T op l d ts fs → op = is_and ∨ op = is_or → ∀ us, splice resolve (text <$> us) (text <$> ts) → ∃ d', chain T' op l d' us fs).
Proof.
  pose proof (derives_even T) as [Hev _].
  assert (∀ ts ts' us, even (text <$> ts) → splice resolve (text <$> us) (text <$> ts ++ ts') →
    ∃ us1 us2, us = us1 ++ us2 ∧ splice resolve (text <$> us1) (text <$> ts) ∧ splice resolve (text <$> us2) (text <$> ts')) as Hcut.
  { intros ts ts' us He Hs. rewrite fmap_app in Hs. destruct (splice_app resolve Heven 0 _ _ _ Hs He) as (ws1 & ws2 & E & H1 & H2).
    apply fmap_app_inv in E as (us1 & us2 & -> & -> & ->). by exists us1, us2. }
  assert (∀ t ts us, text t ≠ "(" → splice resolve (text <$> us) (text <$> t :: ts) →
    noref (text t) ∧ ∃ u us', us = u :: us' ∧ text u = text t ∧ splice resolve (text <$> us') (text <$> ts)) as Hhead.
  { intros t ts us Ht Hs. apply splice_head in Hs as (Hn & ws & E & Hs); [|done]. split; [done|]. destruct us as [|u us]; [done|]. injection E as E1 <-. eauto. }
  apply (derives_chain_ind T (λ l d ts f, ∀ us, splice resolve (text <$> us) (text <$> ts) → ∃ d', derives T' l d' us f)
    (λ op l d ts fs, op = is_and ∨ op = is_or → ∀ us, splice resolve (text <$> us) (text <$> ts) → ∃ d', chain T' op l d' us fs)).
  - intros t f Hp Ht us Hs. apply Hhead in Hs as (Hn & u & us' & -> & Eu & Hs); [|apply Hp]. inversion Hs as [E| |]; destruct us'; [|done..].
    exists 0%nat. constructor; [by eapply plain_text|]. eapply HT; [done|by rewrite Eu|done].
  - intros o c d ts f Ho Hc Hd IH us Hs. destruct us as [|u us]; [inversion Hs|].
    rewrite !fmap_cons, Ho in Hs. inversion Hs as [|w ws vs Hw Hs' E1 E2|name inner ws vs Hi Hs' E1 E2]; subst.
    + apply (Hcut ts [c] us (Hev _ _ _ _ Hd)) in Hs' as (us1 & us2 & -> & H1 & H2). apply splice_one in H2 as [E _].
      destruct us2 as [|x [|]]; try done. injection E as Ex. destruct (IH us1 H1) as [d' Hd']. exists (S d'). apply D_paren; [congruence..|done].
    + rewrite fmap_app in E2. cbn [fmap list_fmap] in E2. rewrite Hc in E2.
      apply even_unique in E2 as [Ew ->]; [|by eapply Heven|by eapply Hev]. assert (us = []) as -> by (by inversion Hs'; destruct us).
      exists 0%nat. apply D_term; [by eapply ref_plain|]. by eapply HR.
  - intros d ts f _ IH us Hs. destruct (IH us Hs) as [d' Hd']. exists d'. by constructor.
  - intros t d ts f Ht _ IH us Hs. destruct (operator_words t) as [H1 _]; [auto|]. apply Hhead in Hs as (_ & u & us' & -> & Eu & Hs); [|done].
    destruct (IH us' Hs) as [d' Hd']. exists (S d'). constructor; [unfold is_not in *; by rewrite Eu|done].
  - intros d ts f d' ts' fs Hd IH _ IHc us Hs. apply Hcut in Hs as (us1 & us2 & -> & H1 & H2); [|by eapply Hev].
    destruct (IH us1 H1) as [e He], (IHc (or_introl eq_refl) us2 H2) as [e' He']. eexists. by constructor.
  - intros d ts f d' ts' fs Hd IH _ IHc us Hs. apply Hcut in Hs as (us1 & us2 & -> & H1 & H2); [|by eapply Hev].
    destruct (IH us1 H1) as [e He], (IHc (or_intror eq_refl) us2 H2) as [e' He']. eexists. by constructor.
  - intros op l _ us Hs. exists 0%nat. destruct us; [constructor|by inversion Hs].
  - intros op l t d ts f d' ts' fs Ht Hd IH _ IHc Hop us Hs. destruct (operator_words t) as [H1 _]; [naive_solver|].
    apply Hhead in Hs as (_ & u & us' & -> & Eu & Hs); [|done]. apply Hcut in Hs as (us1 & us2 & -> & Hs1 & Hs2); [|by eapply Hev].
    destruct (IH us1 Hs1) as [e He], (IHc Hop us2 Hs2) as [e' He']. eexists. constructor; [|done..].
    destruct Hop as [-> | ->]; unfold is_and, is_or in *; by rewrite Eu.
Qed.
End phrases.

(** ** Nodegroups *)

Section groups.
Context `{Runtime} `{NetIP} (regex_Compile : string → option (string → bool)) (groups : Nodegroups).

(** What a token says: a term what its kind says of the node; a nodegroup what
    the phrase says that is its text, in which nodegroups may stand again, [k]
    levels of them. *)
Definition term_says (t : tok) (f : Node → bool) : Prop :=
  (reading t).1 ≠ Nodegroup ∧ ∀ n, f n = true ↔ leaf_says regex_Compile (reading t).1 (reading t).2 n.
Fixpoint token_says (k : nat) (t : tok) (f : Node → bool) : Prop :=
  term_says t f ∨
  match k with
  | O => False
  | S k => ∃ name expr d g, text t = "N@" +:+ name ∧ groups !! name = Some expr ∧
             derives (token_says k) LvOr d (tokenize expr) g ∧ ∀ n, f n = g n
  end.
Definition expr_says (expr : string) (d : nat) (f : Node → bool) : Prop := ∃ k, derives (token_says k) LvOr d (tokenize expr) f.

(** What a target of each kind says of a node. *)
Definition target_says (kind : TKind) (expr : string) (f : Node → bool) : Prop :=
  match kind with
  | Compound => ∃ d, expr_says expr d f ∧ (d ≤ maxCompoundDepth)%nat
  | Nodegroup => ∃ body d, groups !! expr = Some body ∧ expr_says body d f
  | _ => ∀ n, f n = true ↔ leaf_says regex_Compile kind expr n
  end.

Definition tidy_groups : Prop := map_Forall (λ _ expr, tidy expr = true) groups.

Lemma term0_says t f : term0 regex_Compile t f → term_says t f.
Proof. intros [Hk Hf]. split; [done|]. intros n. rewrite Hf. apply leaf_spec_says. Qed.

Context (Htidy : tidy_groups).

Lemma tidy_spliceable s : tidy s = true → spliceable s None 0 ∧ even (words s None 0).
Proof.
  unfold tidy. intros [[[Ht Hc]%andb_true_iff Hg]%andb_true_iff He]%andb_true_iff. apply bool_decide_eq_true in He. split; [|done].
  apply negb_true_iff, contains_any_sall in Ht. split; [done|done| | |done].
  - eapply sall_impl; [|exact Ht]. set_solver.
  - apply Forall_forall. intros w Hw. rewrite forallb_forall in Hg. by apply Hg, list_elem_of_In.
Qed.

Lemma splice_even resolve ws vs :
  (∀ ref inner, resolve ref = Some (inr inner) → even (words inner None 0)) → splice resolve ws vs → ∀ d, depth_after d vs = depth_after d ws.
Proof.
  intros Hr. induction 1 as [|w ws vs Hw _ IH|name inner ws vs Hi _ IH]; intros d; [done| |].
  - cbn [depth_after]. repeat case_bool_decide; [apply IH|destruct d; [done|apply IH]|apply IH].
  - cbn [depth_after]. rewrite bool_decide_true by done. rewrite even_from by by eapply Hr. cbn [depth_after]. rewrite bool_decide_false, bool_decide_true by done.
    by rewrite IH.
Qed.

(** What is substituted for a reference closes its brackets. *)
Lemma resolve_even fuel name depth seen out :
  resolveNodegroup fuel groups name depth seen = Some (inr out) → closes out false 0 = true ∧ even (words out None 0).
Proof.
  revert name depth seen out. induction fuel as [|fuel IH]; intros name depth seen out; [done|]. cbn [resolveNodegroup].
  destruct (10 <? depth)%nat; [done|]. case_bool_decide; [done|]. destruct (groups !! name) as [expr|] eqn:Eg; [|done]. intros He.
  destruct (tidy_spliceable expr (Htidy _ _ Eg)) as [Hs Hev].
  edestruct (expand_splices _ (λ ref inner E, proj1 (IH _ _ _ _ E)) _ expr None 0 out (le_n _) Hs He) as [Hsp Hcl]. split; [done|].
  rewrite (splice_even _ _ _ (λ ref inner E, proj2 (IH _ _ _ _ E)) Hsp). done.
Qed.

Lemma resolve_says fuel name depth seen out d ts f :
  resolveNodegroup fuel groups name depth seen = Some (inr out) → text <$> ts = words out None 0 → derives (term0 regex_Compile) LvOr d ts f →
  ∃ expr d', groups !! name = Some expr ∧ derives (token_says fuel) LvOr d' (tokenize expr) f.
Proof.
  revert name depth seen out d ts f. induction fuel as [|fuel IH]; intros name depth seen out d ts f; [done|]. cbn [resolveNodegroup].
  destruct (10 <? depth)%nat; [done|]. case_bool_decide; [done|]. destruct (groups !! name) as [expr|] eqn:Eg; [|done]. intros He Hts Hd.
  destruct (tidy_spliceable expr (Htidy _ _ Eg)) as [Hs _].
  edestruct (expand_splices _ (λ ref inner E, proj1 (resolve_even _ _ _ _ _ E)) _ expr None 0 out (le_n _) Hs He) as [Hsp _].
  rewrite <- Hts, <- tokenize_words in Hsp. exists expr.
  set (resolve := λ ref, resolveNodegroup fuel groups ref (S depth) (seen ++ [name])) in *.
  assert (∀ t u g, text t = text u → noref (text t) → term0 regex_Compile u g → token_says (S fuel) t g) as HT.
  { intros t u g Et _ Hg. left. apply term0_says. unfold term0, reading in *. by rewrite Et. }
  assert (∀ ref inner t d ts g, resolve ref = Some (inr inner) → text t = "N@" +:+ ref → text <$> ts = words inner None 0 →
    derives (term0 regex_Compile) LvOr d ts g → token_says (S fuel) t g) as HR.
  { intros ref inner t d' ts' g Hi Ht Hts' Hd'. right. destruct (IH _ _ _ _ _ _ _ Hi Hts' Hd') as (expr' & d2 & Eg' & Hd2).
    exists ref, expr', d2, g. by split_and!. }
  destruct (proj1 (unsplice resolve _ _ (λ ref inner E, proj2 (resolve_even _ _ _ _ _ E)) HT HR) _ _ _ _ Hd _ Hsp) as [d' Hd'].
  by exists d'.
Qed.

(** The token of a nodegroup. *)
Lemma group_token t : (reading t).1 = Nodegroup → text t = "N@" +:+ (reading t).2.
Proof.
  unfold reading. destruct (IndexByte "@" (text t)) as [[|i]|] eqn:Ei; [done| |done]. destruct (kindLetter _) as [k|] eqn:Ek; [|done]. cbn [fst snd]. intros ->.
  apply kindLetter_group in Ek. destruct (text t) as [|a [|b r]]; [done|cbn in Ei; case_decide; done|].
  destruct i as [|i]; [|by cbn in Ek]. cbn in Ek. injection Ek as ->. cbn in Ei. case_decide; [done|]. case_decide as Hb; [by subst b|].
  by destruct (IndexByte "@" r).
Qed.

Lemma expand_says name out d f :
  expandNodegroup groups name = Some (inr out) → derives (term0 regex_Compile) LvOr d (tokenize out) f →
  ∃ expr d', groups !! name = Some expr ∧ derives (token_says 12) LvOr d' (tokenize expr) f.
Proof. intros He Hd. by eapply resolve_says. Qed.

Lemma term1_says t f : term1 regex_Compile groups t f → token_says 13 t f.
Proof.
  intros [Ht|(Hk & out & d & g & He & Hd & Hf)]; [left; by apply term0_says|]. right.
  destruct (expand_says _ _ _ _ He Hd) as (expr & d' & Eg & Hd'). exists (reading t).2, expr, d', g. split_and!; [by apply group_token|done..].
Qed.

Lemma target_spec_says kind expr f : target_spec regex_Compile groups kind expr f → target_says kind expr f.
Proof.
  destruct kind; cbn [target_spec target_says]; try (intros Hf n; rewrite Hf; apply leaf_spec_says).
  - intros (resolved & d & He & Hd & _). destruct (expand_says expr resolved d f He) as (body & d' & Eg & Hd').
    + eapply derives_mono; [|exact Hd|apply tokenize_noref; by eapply resolve_noref].
      intros t g Hn [Ht|[Hk _]]; [done|]. by destruct (noref_reading t Hn).
    + exists body, d'. split; [done|]. by exists 12%nat.
  - intros (d & Hd & Hle). exists d. split; [|done]. exists 13%nat. eapply (derives_mono _ _ (λ _, True)); [|exact Hd|by apply Forall_true].
    intros t g _. apply term1_says.
Qed.

Lemma compile_says kind expr m :
  Compile regex_Compile kind expr groups = Some (inr m) → ∃ f, target_says kind expr f ∧ ∀ n, MatcherMatch m n = f n.
Proof. intros (f & Hf & Hm)%compiled_means. exists f. split; [by apply target_spec_says|done]. Qed.

End groups.

(** ** A target to evaluate *)

#[local] Existing Instance demo_runtime.
#[local] Existing Instance demo_netip.

Lemma demo_groups_tidy : tidy_groups demo_groups.
Proof. unfold tidy_groups. apply map_Forall_to_list. vm_compute. repeat constructor. Qed.

Definition group_matcher : Matcher :=
  match Compile demo_regex Compound "N@all and not L@db1,db2" demo_groups with Some (inr m) => m | _ => mkMatcher Glob "" (NAny []) [] end.


(** The substitution goes by the text: in a nodegroup a reference inside another
    term is replaced there, where in a target it is a part of the term. *)
Example reference_inside_a_term :
  expandNodegroup {[ "g" := "E@N@web"; "web" := "web1" ]} "g" = Some (inr "E@( web1 )") ∧
  reading (mkTok "E@N@web" 1) = (Regex, "N@web") ∧ tidy "E@N@web" = false.
Proof. by vm_compute. Qed.
