(* ===== verification/NodeJobs.v ===== *)
(** * Jobs arriving at a node

    Models src/cmd/halite-node/jobsignature.go (which jobs need a signature, and
    what a signed job has to satisfy), the executor of execute.go (Offer, Cancel,
    the worker's step) and acceptJob and refuse of enroll.go, over the replay
    guard, the record of signed jobs, signatures and targets of the files before.

    A node is its configuration; what changes from one offer to the next is read
    from an [offer_env]: the readings of the clock, in the order the code takes
    them, the answers of the file system, the grains, and the pillar or its
    failure to compile.  The queue is a bounded channel between the goroutine
    that reads the hub's stream, which offers and cancels, and the worker. *)

From S2P Require Import Prelude GoLib GoTime Value Signature Apply Job SignedReplay JobSign Target TargetGroups.

Open Scope Z_scope.

(** ** What the configuration requires *)

Record signatureRequirement := mkReq { req_all : bool; req_classes : gset string }.

Definition classArbitraryCode : string := "arbitrary_code".
Definition classState : string := "state".
Definition classMutating : string := "mutating".
Definition signatureClasses : list string := [classArbitraryCode; classState; classMutating].

Inductive req_error := BadSetting | NotClass (item : any) | UnknownClass (name : string).

Fixpoint addClasses (classes : gset string) (raw : list any) : req_error + gset string :=
  match raw with
  | [] => inr classes
  | AString name :: raw' =>
      match list_find (λ c, ToLower_is (TrimSpace name) c = true) signatureClasses with
      | Some (_, c) => addClasses ({[c]} ∪ classes) raw'
      | None => inl (UnknownClass name)
      end
  | item :: _ => inl (NotClass item)
  end.

(** The setting, absent or nil when it is [None]. *)
Definition parseSignatureRequirement (raw : option any) : req_error + signatureRequirement :=
  let classes l := match addClasses ∅ l with inl e => inl e | inr c => inr (mkReq false c) end in
  match raw with
  | None | Some ANil => inr (mkReq false ∅)
  | Some (ABool t) => inr (mkReq t ∅)
  | Some (AString t) =>
      if ToLower_is (TrimSpace t) "true" then inr (mkReq true ∅)
      else if ToLower_is (TrimSpace t) "false" || bool_decide (TrimSpace t = "") then inr (mkReq false ∅)
      else classes [AString t]
  | Some (ASlice l) => classes l
  | Some _ => inl BadSetting
  end.

Definition req_any (r : signatureRequirement) : bool := req_all r || negb (bool_decide (req_classes r = ∅)).

Definition req_String (r : signatureRequirement) : string :=
  if req_all r then "every job"
  else if bool_decide (req_classes r = ∅) then "nothing"
  else Join (filter (λ c, c ∈ req_classes r) signatureClasses) ", ".

Definition applyingStateFunction (fn : string) : bool := bool_decide (fn ∈ ["apply"; "highstate"; "sls"]).

(** Whether a function needs a signature and which class made it so, over the
    signatures of the functions this build ships. *)
Definition requires (lookup : string → option Signature.Signature) (r : signatureRequirement) (fun_ : string)
    : option string :=
  let has c := bool_decide (c ∈ req_classes r) in
  if req_all r then Some "every job"
  else if bool_decide (req_classes r = ∅) then None
  else match JobFunction fun_ with
  | Some fn =>
      if has classState && applyingStateFunction fn then Some classState
      else if has classMutating && applyingStateFunction fn then Some classMutating
      else None
  | None =>
      match lookup fun_ with
      | None => Some "a function this build does not ship"
      | Some sig =>
          if has classArbitraryCode && ArbitraryCode sig then Some classArbitraryCode
          else if has classMutating && Mutates sig then Some classMutating
          else None
      end
  end.

(** ** Signer keys *)

Inductive Curve := P256 | P384 | OtherCurve (name : string).
Definition checkCurve (c : Curve) : bool := match c with P256 | P384 => true | OtherCurve _ => false end.

Inductive key_error := NotKeyLine | KeyNotBase64 | KeyNotPKIX | KeyNotECDSA | KeyCurve (c : Curve).

Definition DefaultSignatureMaxTTL : Z := Hour.
Definition signatureExpirySkew : Z := Minute.

Section node.
Context `{Runtime} `{NetIP} (regex_Compile : string → option (string → bool)).
Context (ovf : SpecFloat.spec_float → Z).
Context {PK K : Type} (VerifyASN1 : K → string → string → bool) (sha256 : string → string)
  (base64_Decode : string → option string) (json_Marshal : any → option string)
  (ParsePKIXPublicKey : string → option PK) (as_ecdsa : PK → option K) (curve : K → Curve).

Definition ParseSignerKey (line : string) : key_error + SignerKey (K := K) :=
  match Fields (TrimSpace line) with
  | [name; text] =>
      match base64_Decode text with
      | None => inl KeyNotBase64
      | Some raw =>
          match ParsePKIXPublicKey raw with
          | None => inl KeyNotPKIX
          | Some parsed =>
              match as_ecdsa parsed with
              | None => inl KeyNotECDSA
              | Some pub => if checkCurve (curve pub) then inr (mkSignerKey name pub) else inl (KeyCurve (curve pub))
              end
          end
      end
  | _ => inl NotKeyLine
  end.

(** A key that does not parse stops the node. *)
Fixpoint signerKeys (lines : list string) : key_error + list (SignerKey (K := K)) :=
  match lines with
  | [] => inr []
  | line :: lines' =>
      match ParseSignerKey line with
      | inl e => inl e
      | inr key => match signerKeys lines' with inl e => inl e | inr keys => inr (key :: keys) end
      end
  end.

(** ** The node, and what it reads while a job is offered *)

Record node := mkNodeCfg {
  nodeID : string;
  signatureRequired : signatureRequirement;
  signerKeyList : list (SignerKey (K := K));
  (** job_signature_max_ttl, as Config.Duration reads it *)
  max_ttl : Z;
  exec_lookup : string → option Signature.Signature }.

Record offer_env := mkEnv {
  t_check : Z; t_seen : Z; t_sig : Z; t_record : Z; t_guard : Z;
  io_seen : IO; io_record : IO;
  grains_now : option Map; pillar_now : option Map }.

Inductive sig_error :=
| NoSignerKeys (why : string)
| NotVerified (why : string) (e : verify_error)
| TooFarAhead
| NoTarget | UnknownKind | TargetUnreadable (e : TError) | PillarUnreadable | NotTargeted.

Definition ttl_limit (n : node) : Z := if max_ttl n <=? 0 then DefaultSignatureMaxTTL else max_ttl n.

Definition boundedSignedExpiry (n : node) (j : Job) (now : Z) : option sig_error :=
  if wrap64 (ttl_limit n + signatureExpirySkew) <? Sub (Expires j) now then Some TooFarAhead else None.

(** Compiling never runs out of steps. *)
Definition compile_target (kind : TKind) (expr : string) : TError + Matcher :=
  default (inl (mkTErr expr 0 Unsupported)) (Target.Compile regex_Compile kind expr ∅).

(** What the target is matched against.  The loader answers nil when the pillar
    did not compile, and records that it did not. *)
Definition target_node (n : node) (env : offer_env) : Node :=
  mkNode (nodeID n) (grains_now env) None (Some (pillar_now env)).

Definition matchesSignedTarget (n : node) (env : offer_env) (j : Job) : option sig_error :=
  if bool_decide (Job.Target j = "") then Some NoTarget
  else match KindFromFlag (TargetKind j) with
  | None => Some UnknownKind
  | Some kind =>
      match compile_target kind (Job.Target j) with
      | inl e => Some (TargetUnreadable e)
      | inr matcher =>
          let '(hit, asked) := tmatch (ast matcher) (target_node n env) in
          if asked && bool_decide (pillar_now env = None) then Some PillarUnreadable
          else if negb hit then Some NotTargeted
          else None
      end
  end.

(** The signer's name, empty when no signature is needed. *)
Definition checkJobSignature (n : node) (env : offer_env) (j : Job) : sig_error + string :=
  match requires (exec_lookup n) (signatureRequired n) (Fun j) with
  | None => inr ""
  | Some why =>
      if bool_decide (length (signerKeyList n) = 0%nat) then inl (NoSignerKeys why)
      else match Verify ovf VerifyASN1 sha256 base64_Decode json_Marshal (signerKeyList n) (SigningPayload j) (Job.Signature j) with
      | inl e => inl (NotVerified why e)
      | inr signer =>
          match boundedSignedExpiry n j (t_sig env) with
          | Some e => inl e
          | None =>
              match matchesSignedTarget n env j with
              | Some e => inl e
              | None => inr signer
              end
          end
      end
  end.

(** A dry run is asked for with a boolean.  The detail leaves out the value as
    package fmt prints it. *)
Definition jobTestFlag (j : Job) : Refusal + bool :=
  match get_kwarg "test" (Kwarg j) with
  | None | Some ANil => inr false
  | Some (ABool test) => inr test
  | Some _ =>
      inl (mkRefusal ReasonMalforme
        ("the job's `test` is not a boolean, and a dry run is asked for with the boolean true or false; " +:+
         "refused rather than guessed, since guessing wrong runs it for real"))
  end.

(** ** The executor *)

Inductive offer_error :=
| ORefused (r : Refusal)
| OSignature (e : sig_error)
| ORecord (e : sr_error)
| ErrQueueFull
| OBadExpiry (text : string).

Inductive evidence_record :=
| JobAccepted (jid signer : string)
| JobRefused (jid : string) (reason : offer_error).

Record executor := mkExec {
  guard : Guard; signed : sr_state; queue : list Job; depth : nat;
  evidence : list evidence_record; refusals : list string }.

(** iteration over the record's map, when it is rewritten *)
Context (iter : gmap string Z → list (string * Z)).

Definition newExecutor (depth : Z) (file : option string) (compact : Z) : executor :=
  mkExec (NewGuard DefaultGuardSize) (mkSt file (NewSignedReplay compact)) []
    (Z.to_nat (if depth <=? 0 then 16 else depth)) [] [].

Definition set_guard (g : Guard) (e : executor) : executor :=
  mkExec g (signed e) (queue e) (depth e) (evidence e) (refusals e).
Definition set_signed (s : sr_state) (e : executor) : executor :=
  mkExec (guard e) s (queue e) (depth e) (evidence e) (refusals e).
Definition set_queue (q : list Job) (e : executor) : executor :=
  mkExec (guard e) (signed e) q (depth e) (evidence e) (refusals e).
Definition log_evidence (r : evidence_record) (e : executor) : executor :=
  mkExec (guard e) (signed e) (queue e) (depth e) (evidence e ++ [r]) (refusals e).

(** The end of Offer: the guard, the test flag, the evidence and the queue. *)
Definition offer_queue (env : offer_env) (j : Job) (signer : string) (e : executor) : option offer_error * executor :=
  match Guard_Admit (guard e) (Some j) (t_guard env) with
  | (Some r, g) => (Some (ORefused r), set_guard g e)
  | (None, g) =>
      let e := set_guard g e in
      match jobTestFlag j with
      | inl r => (Some (ORefused r), e)
      | inr _ =>
          let e := log_evidence (JobAccepted (JID j) signer) e in
          if (length (queue e) <? depth e)%nat then (None, set_queue (queue e ++ [j]) e)
          else (Some ErrQueueFull, e)
      end
  end.

(** Before it, a signed job is written to the replay record. *)
Definition offer_admit (env : offer_env) (j : Job) (signer : string) (e : executor) : option offer_error * executor :=
  if bool_decide (signer = "") then offer_queue env j signer e
  else match SR_Admit iter (io_record env) (t_record env) (Some j) (signed e) with
       | (Accepted, s) => offer_queue env j signer (set_signed s e)
       | (RefusedJob r, s) => (Some (ORefused r), set_signed s e)
       | (NotRecorded err, s) => (Some (ORecord err), set_signed s e)
       end.

Definition Offer (n : node) (env : offer_env) (j : Job) (e : executor) : option offer_error * executor :=
  match Guard_Check (guard e) (Some j) (t_check env) with
  | (Some r, g) => (Some (ORefused r), set_guard g e)
  | (None, g) =>
      let e := set_guard g e in
      let '(seen, e) :=
        if bool_decide (Job.Signature j = "") then (false, e)
        else let '(b, s) := SR_Seen iter (io_seen env) (t_seen env) (JID j) (signed e) in (b, set_signed s e) in
      if seen : bool then
        (Some (ORefused (mkRefusal ReasonReplayed ("this node has already accepted the signed job " +:+ JID j))), e)
      else match checkJobSignature n env j with
      | inl err => (Some (OSignature err), e)
      | inr signer => offer_admit env j signer e
      end
  end.

(** ** Messages of the hub *)

Record Message := mkMsg {
  mJID : string; mFun : string; mArg : list string; mKwarg : kwargs; mEnv : string; mNonce : string;
  mTraceParent : string; mSubmitter : string; mOnBehalfOf : string;
  mTarget : string; mTargetKind : string; mSignature : string; mExpires : string }.

Definition msg_job (m : Message) (expires : Z) : Job :=
  mkJob (mJID m) (mFun m) (mArg m) (mKwarg m) (mEnv m) (mNonce m) expires 0
    (mSubmitter m) (mOnBehalfOf m) "" (mTraceParent m) (mTarget m) (mTargetKind m) [] "" "" false
    (mkBatch 0 0 0 0) [] [] (mSignature m) "".

(** The refusals' channel holds sixteen. *)
Definition refuse (j : Job) (err : offer_error) (e : executor) : executor :=
  let e := log_evidence (JobRefused (JID j) err) e in
  if bool_decide (JID j = "") then e
  else if (length (refusals e) <? 16)%nat then
    mkExec (guard e) (signed e) (queue e) (depth e) (evidence e) (refusals e ++ [JID j])
  else e.

Definition acceptJob (n : node) (env : offer_env) (m : Message) (e : executor) : executor :=
  let offer j :=
    match Offer n env j e with
    | (None, e) => e
    | (Some err, e) => refuse j err e
    end in
  if bool_decide (mExpires m = "") then offer (msg_job m 0)
  else match Parse_RFC3339Nano (mExpires m) with
       | None => refuse (msg_job m 0) (OBadExpiry (mExpires m)) e
       | Some expires => offer (msg_job m expires)
       end.

(** ** Cancelling, while the worker runs

    Cancel drains the channel and refills it.  The worker may receive at any
    point: [choices] says, for each job in the channel, whether the worker gets
    it, and [takes] how many jobs the worker receives before each send of the
    refill. *)

Fixpoint cancel_drain (id : string) (choices : list bool) (q : list Job) : bool * list Job * list Job :=
  match q with
  | [] => (false, [], [])
  | j :: q' =>
      let '(dropped, kept, ran) := cancel_drain id (tail choices) q' in
      if default false (head choices) then (dropped, kept, j :: ran)
      else if bool_decide (JID j = id) then (true, kept, ran)
      else (dropped, j :: kept, ran)
  end.

Fixpoint cancel_refill (cap : nat) (takes : list nat) (kept q : list Job) : list Job * list Job :=
  match kept with
  | [] => (q, [])
  | j :: kept' =>
      let k := default 0%nat (head takes) in
      let q1 := drop k q in
      let q2 := if (length q1 <? cap)%nat then q1 ++ [j] else q1 in
      let '(q3, ran) := cancel_refill cap (tail takes) kept' q2 in (q3, take k q ++ ran)
  end.

(** Whether a job was dropped, what the worker received meanwhile, and the rest. *)
Definition Cancel (id : string) (choices : list bool) (takes : list nat) (e : executor)
    : bool * list Job * executor :=
  let '(dropped, kept, ran) := cancel_drain id choices (queue e) in
  let '(q, ran') := cancel_refill (depth e) takes kept [] in
  (dropped, ran ++ ran', set_queue q e).

(** ** Everything that can happen to a node *)

Inductive nevent :=
| NMessage (env : offer_env) (m : Message)
| NKill (id : string) (choices : list bool) (takes : list nat)
| NWork                                   (* the worker receives a job *)
| NPost                                   (* a refusal is sent to the hub *)
| NRestart.                               (* the process ends, and starts again *)

Definition nstep (n : node) (ev : nevent) (e : executor) : executor :=
  match ev with
  | NMessage env m => acceptJob n env m e
  | NKill id choices takes => (Cancel id choices takes e).2
  | NWork => set_queue (tail (queue e)) e
  | NPost => mkExec (guard e) (signed e) (queue e) (depth e) (evidence e) (tail (refusals e))
  | NRestart =>
      mkExec (NewGuard DefaultGuardSize) (restart (signed e)) [] (depth e) (evidence e) []
  end.

Definition nrun (n : node) (evs : list nevent) (e : executor) : executor := foldl (λ e ev, nstep n ev e) e evs.
End node.

(** ** Cancel loses nothing else *)

Section cancel.
Abbreviation others id := (filter (λ j : Job, JID j ≠ id)).

Lemma drain_spec id choices q :
  let '(dropped, kept, ran) := cancel_drain id choices q in
  others id (kept ++ ran) ≡ₚ others id q ∧ Forall (λ j, JID j ≠ id) kept ∧ (length kept ≤ length q)%nat ∧
  (dropped = false → kept ++ ran ≡ₚ q).
Proof.
  revert choices. induction q as [|j q IH]; intros choices; [by split_and!|]. cbn [cancel_drain].
  specialize (IH (tail choices)). destruct (cancel_drain id (tail choices) q) as [[dropped kept] ran].
  destruct IH as (Hp & Hk & Hl & Hd). destruct (default false (head choices)).
  - split_and!; [|done|simpl; lia|intros Hf; rewrite <- Hd by done; by rewrite Permutation_middle].
    rewrite <- Permutation_middle, !filter_cons. destruct (decide _); [by rewrite Hp|done].
  - case_bool_decide as Hj.
    + split_and!; [|done|simpl; lia|done]. rewrite filter_cons_False by naive_solver. done.
    + split_and!; [|by constructor|simpl; lia|intros Hf; cbn; by rewrite Hd].
      cbn [app]. rewrite !filter_cons_True by done. by rewrite Hp.
Qed.

Lemma refill_spec cap takes kept q :
  (length q + length kept ≤ cap)%nat →
  let '(q', ran) := cancel_refill cap takes kept q in ran ++ q' = q ++ kept ∧ (length q' ≤ cap)%nat.
Proof.
  revert takes q. induction kept as [|j kept IH]; intros takes q Hc; cbn [cancel_refill].
  { rewrite app_nil_r. simpl in Hc. split; [done|lia]. }
  set (k := default 0%nat (head takes)). cbn [length] in Hc. pose proof (length_drop q k) as Hd.
  rewrite (proj2 (Nat.ltb_lt _ _)) by lia.
  specialize (IH (tail takes) (drop k q ++ [j])). rewrite length_app in IH. cbn [length] in IH.
  destruct (cancel_refill cap (tail takes) kept (drop k q ++ [j])) as [q' ran]. destruct IH as [He Hl]; [lia|].
  split; [|done]. rewrite <- !(assoc_L (++)), He. rewrite !(assoc_L (++)), take_drop, <- (assoc_L (++)). done.
Qed.

(** Cancelling a job drops that job only.  Whatever the worker receives while
    the queue is drained and refilled, every other job is either handed to the
    worker or still queued, none twice, the job cancelled is not left in the
    queue, and without a drop the queue and the worker have exactly the jobs
    that were there. *)
Theorem cancel_keeps_the_rest id choices takes (e : executor) :
  (length (queue e) ≤ depth e)%nat →
  let '(dropped, ran, e') := Cancel id choices takes e in
  filter (λ j : Job, JID j ≠ id) (ran ++ queue e') ≡ₚ filter (λ j : Job, JID j ≠ id) (queue e) ∧
  Forall (λ j : Job, JID j ≠ id) (queue e') ∧ (length (queue e') ≤ depth e')%nat ∧
  (dropped = false → ran ++ queue e' ≡ₚ queue e).
Proof.
  intros Hlen. unfold Cancel. pose proof (drain_spec id choices (queue e)) as Hdr.
  destruct (cancel_drain id choices (queue e)) as [[dropped kept] ran]. destruct Hdr as (Hp & Hk & Hl & Hd).
  pose proof (refill_spec (depth e) takes kept []) as Hrf.
  destruct (cancel_refill (depth e) takes kept []) as [q ran']. destruct Hrf as [He Hc]; [simpl; lia|].
  cbn [app] in He. cbn [queue set_queue depth]. rewrite <- (assoc_L (++)), He.
  rewrite (comm (++) ran kept). split_and!; [done| |done|done].
  rewrite Forall_forall in *. intros x Hx. apply Hk. rewrite <- He. apply elem_of_app. by right.
Qed.
End cancel.

(** ** What an accepted job has passed *)

Section offer_props.
Context `{Runtime} `{NetIP} (regex_Compile : string → option (string → bool)).
Context (ovf : SpecFloat.spec_float → Z).
Context {PK K : Type} (VerifyASN1 : K → string → string → bool) (sha256 : string → string)
  (base64_Decode : string → option string) (json_Marshal : any → option string)
  (ParsePKIXPublicKey : string → option PK) (as_ecdsa : PK → option K) (curve : K → Curve).
Context (iter : gmap string Z → list (string * Z)).

Abbreviation offer := (Offer regex_Compile ovf VerifyASN1 sha256 base64_Decode json_Marshal iter).
Abbreviation check_sig := (checkJobSignature regex_Compile ovf VerifyASN1 sha256 base64_Decode json_Marshal).
Abbreviation verify := (Verify ovf VerifyASN1 sha256 base64_Decode json_Marshal).
Abbreviation step := (nstep regex_Compile ovf VerifyASN1 sha256 base64_Decode json_Marshal iter).
Abbreviation run_node := (nrun regex_Compile ovf VerifyASN1 sha256 base64_Decode json_Marshal iter).
Abbreviation needs n j := (is_Some (requires (exec_lookup n) (signatureRequired n) (Fun j))).

(** The longest a signed job may have left. *)
Definition longest (n : node (K := K)) : Z := ttl_limit n + signatureExpirySkew.

(** The node is one the target selects, and its pillar was read if the answer
    turned on it. *)
Definition targets (n : node (K := K)) (env : offer_env) (j : Job) : Prop :=
  ∃ kind m f, KindFromFlag (TargetKind j) = Some kind ∧
    Target.Compile regex_Compile kind (Job.Target j) ∅ = Some (inr m) ∧
    target_says regex_Compile ∅ kind (Job.Target j) f ∧ f (target_node n env) = true ∧
    ((tmatch (ast m) (target_node n env)).2 = true → is_Some (pillar_now env)).

Lemma matches_targets n env j : matchesSignedTarget regex_Compile n env j = None → targets n env j.
Proof.
  unfold matchesSignedTarget, compile_target. case_bool_decide; [done|].
  destruct (KindFromFlag _) as [kind|] eqn:Ek; [|done].
  destruct (Target.Compile _ _ _ _) as [[e|m]|] eqn:Ec; [done| |done]. cbn [from_option id].
  destruct (tmatch (ast m) (target_node n env)) as [hit asked] eqn:Em.
  destruct (compile_says _ ∅ (map_Forall_empty _) _ _ _ Ec) as (f & Hs & Hf).
  destruct (asked && _) eqn:Ea; [done|]. destruct hit; [|done]. intros _.
  exists kind, m, f. split_and!; [done..| |].
  - rewrite <- Hf. unfold MatcherMatch. by rewrite Em.
  - rewrite Em. cbn [snd]. intros ->. cbn in Ea. apply bool_decide_eq_false in Ea.
    by destruct (pillar_now env).
Qed.

(** What checkJobSignature has established when it lets a job through. *)
Lemma check_sig_passes n env j signer :
  check_sig n env j = inr signer →
  (requires (exec_lookup n) (signatureRequired n) (Fun j) = None ∧ signer = "") ∨
  (verify (signerKeyList n) (SigningPayload j) (Job.Signature j) = inr signer ∧
   boundedSignedExpiry n j (t_sig env) = None ∧ targets n env j).
Proof.
  unfold checkJobSignature. destruct (requires _ _ _) as [why|]; [|intros [= <-]; by left].
  case_bool_decide; [done|]. destruct (Verify _ _ _ _ _ _ _ _) as [err|name]; [done|].
  destruct (boundedSignedExpiry _ _ _) eqn:Eb; [done|].
  destruct (matchesSignedTarget _ _ _ _) eqn:Em; [done|]. intros [= ->]. right.
  split_and!; [done..|]. by apply matches_targets.
Qed.

Lemma bounded_expiry n j now :
  longest n < maxInt64 → boundedSignedExpiry n j now = None → Expires j - now ≤ longest n.
Proof.
  unfold boundedSignedExpiry, longest. intros Hl.
  assert (0 ≤ ttl_limit n) as Hpos.
  { unfold ttl_limit. destruct (Z.leb_spec (max_ttl n) 0); [done|lia]. }
  rewrite wrap64_small by (unfold signatureExpirySkew, Minute, Second, minInt64, maxInt64 in *; lia).
  destruct (Z.ltb_spec (ttl_limit n + signatureExpirySkew) (Sub (Expires j) now)) as [|Hle]; [done|]. intros _.
  unfold Sub in Hle. lia.
Qed.

Lemma Offer_cases n env j e :
  (offer n env j e).1 = None →
  ∃ signer e1, precheck (Some j) (t_check env) = None ∧ check_sig n env j = inr signer ∧
    (signed e1 = signed e ∨ signed e1 = (SR_Seen iter (io_seen env) (t_seen env) (JID j) (signed e)).2) ∧
    queue e1 = queue e ∧ depth e1 = depth e ∧ evidence e1 = evidence e ∧
    offer n env j e = offer_admit iter env j signer e1.
Proof.
  unfold Offer. rewrite Check_is_Admit. destruct (Guard_Admit_cases (guard e) j (t_check env)) as [(-> & Ha & _)|[[r ->] _]]; [|done].
  destruct Ha as (Hpre & _). case_bool_decide.
  - destruct (check_sig n env j) as [err|signer] eqn:Ec; [done|]. intros _.
    exists signer, (set_guard (guard e) e). split_and!; auto.
  - destruct (SR_Seen _ _ _ _ _) as [b s] eqn:Es. destruct b; [done|].
    destruct (check_sig n env j) as [err|signer] eqn:Ec; [done|]. intros _.
    exists signer, (set_signed s (set_guard (guard e) e)). split_and!; auto.
Qed.

Lemma offer_queue_signed env j signer e : signed (offer_queue env j signer e).2 = signed e.
Proof.
  unfold offer_queue. destruct (Guard_Admit _ _ _) as [[r|] g]; [done|].
  destruct (jobTestFlag j); [done|]. cbn zeta. by destruct (_ <? _)%nat.
Qed.

Lemma offer_queue_accepts env j signer e :
  (offer_queue env j signer e).1 = None →
  precheck (Some j) (t_guard env) = None ∧ (∃ test, jobTestFlag j = inr test) ∧ (length (queue e) < depth e)%nat ∧
  queue (offer_queue env j signer e).2 = queue e ++ [j] ∧
  evidence (offer_queue env j signer e).2 = evidence e ++ [JobAccepted (JID j) signer].
Proof.
  unfold offer_queue. destruct (Guard_Admit_cases (guard e) j (t_guard env)) as [(Hg & (Hp & _) & _)|[[r Hg] _]];
    destruct (Guard_Admit (guard e) (Some j) (t_guard env)) as [r' g]; cbn [fst] in Hg; subst r'; [|done].
  destruct (jobTestFlag j) as [r|test]; [done|]. cbn [log_evidence set_guard queue depth].
  destruct (Nat.ltb_spec (length (queue e)) (depth e)); [|done]. intros _. split_and!; eauto.
Qed.

Lemma offer_admit_accepts env j signer e :
  (offer_admit iter env j signer e).1 = None →
  let e' := (offer_admit iter env j signer e).2 in
  (∃ test, jobTestFlag j = inr test) ∧
  queue e' = queue e ++ [j] ∧ (length (queue e') ≤ depth e)%nat ∧
  evidence e' = evidence e ++ [JobAccepted (JID j) signer] ∧
  (signer ≠ "" → (SR_Admit iter (io_record env) (t_record env) (Some j) (signed e)).1 = Accepted ∧
                 signed e' = (SR_Admit iter (io_record env) (t_record env) (Some j) (signed e)).2).
Proof.
  unfold offer_admit. case_bool_decide as Hs.
  - intros Hr. destruct (offer_queue_accepts _ _ _ _ Hr) as (? & ? & ? & Hq & ?). cbn zeta. rewrite Hq, length_app.
    split_and!; [done..|simpl; lia|done|done].
  - destruct (SR_Admit _ _ _ _ _) as [[|r|er] s] eqn:Ea; [|done|done]. intros Hr.
    destruct (offer_queue_accepts _ _ _ _ Hr) as (? & ? & ? & Hq & ?). cbn zeta. rewrite Hq, length_app.
    split_and!; [done..|cbn in *; lia|done|]. intros _. split; [done|]. apply offer_queue_signed.
Qed.

(** *** The record of signed jobs, behind everything a node does *)

Definition env_in (b : Z → Prop) (env : offer_env) : Prop := b (t_seen env) ∧ b (t_record env).
Definition nevent_in (b : Z → Prop) (ev : nevent) : Prop :=
  match ev with NMessage env _ => env_in b env | _ => True end.

(** A step of the node is a sequence of steps of the record. *)
Definition projects (b : Z → Prop) (st st' : sr_state) : Prop :=
  ∃ evs, st' = (SignedReplay.run iter evs st).2 ∧ Forall event_valid evs ∧
         Forall (λ ev, ∀ now, SignedReplay.reading ev = Some now → b now) evs.

Lemma sr_run_app evs evs' st :
  (SignedReplay.run iter (evs ++ evs') st).2 = (SignedReplay.run iter evs' (SignedReplay.run iter evs st).2).2.
Proof. revert st. induction evs as [|ev evs IH]; intros st; [done|]. cbn [app]. by rewrite !run_cons, IH. Qed.

Lemma projects_refl b st : projects b st st.
Proof. exists []. by split_and!. Qed.
Lemma projects_trans b st1 st2 st3 : projects b st1 st2 → projects b st2 st3 → projects b st1 st3.
Proof.
  intros (e1 & -> & Hv1 & Hb1) (e2 & -> & Hv2 & Hb2). exists (e1 ++ e2).
  split_and!; [by rewrite sr_run_app|by apply Forall_app|by apply Forall_app].
Qed.
Lemma projects_one (b : Z → Prop) ev st :
  event_valid ev → (∀ now, SignedReplay.reading ev = Some now → b now) → projects b st (SignedReplay.step iter ev st).2.
Proof.
  intros Hv Hb. exists [ev]. split_and!; [by rewrite run_cons|by repeat constructor|by repeat constructor].
Qed.

Lemma projects_seen (b : Z → Prop) io now id st : b now → projects b st (SR_Seen iter io now id st).2.
Proof. intros Hb. apply (projects_one b (ESeen io now id)); [done|]. by intros ? [= <-]. Qed.

Lemma projects_admit (b : Z → Prop) io now j st :
  ID_Valid (JID j) = true → b now → projects b st (SR_Admit iter io now (Some j) st).2.
Proof.
  intros Hj Hb. pose proof (projects_one b (EAdmit io now j) st Hj) as Hp. cbn [SignedReplay.step] in Hp.
  destruct (SR_Admit iter io now (Some j) st) as [r st']. apply Hp. by intros ? [= <-].
Qed.

Lemma precheck_valid j now : precheck (Some j) now = None → ID_Valid (JID j) = true ∧ Expired j now = false.
Proof.
  unfold precheck. case_bool_decide; [done|]. destruct (ID_Valid (JID j)); [|done]. cbn [negb].
  case_bool_decide; [done|]. by destruct (Expired j now).
Qed.

Lemma offer_admit_projects (b : Z → Prop) env j signer e :
  ID_Valid (JID j) = true → b (t_record env) → projects b (signed e) (signed (offer_admit iter env j signer e).2).
Proof.
  intros Hj Hb. unfold offer_admit. case_bool_decide; [rewrite offer_queue_signed; apply projects_refl|].
  pose proof (projects_admit b (io_record env) (t_record env) j (signed e) Hj Hb) as Hp.
  destruct (SR_Admit _ _ _ _ _) as [[|r|er] s]; [by rewrite offer_queue_signed|done|done].
Qed.

Lemma offer_projects b n env j e :
  env_in b env → projects b (signed e) (signed (offer n env j e).2).
Proof.
  intros [Hs Hr]. unfold Offer. rewrite Check_is_Admit.
  destruct (Guard_Admit_cases (guard e) j (t_check env)) as [(-> & (Hpre & _) & _)|[[r ->] _]]; [|apply projects_refl].
  apply precheck_valid in Hpre as [Hj _]. case_bool_decide.
  - destruct (check_sig n env j) as [err|signer]; [apply projects_refl|].
    exact (offer_admit_projects b env j signer (set_guard (guard e) e) Hj Hr).
  - pose proof (projects_seen b (io_seen env) (t_seen env) (JID j) (signed e) Hs) as Hp.
    cbn [signed set_guard]. destruct (SR_Seen _ _ _ _ _) as [bs s]. cbn [snd] in Hp. destruct bs; [done|].
    destruct (check_sig n env j) as [err|signer]; [done|]. eapply projects_trans; [exact Hp|].
    exact (offer_admit_projects b env j signer (set_signed s (set_guard (guard e) e)) Hj Hr).
Qed.

Lemma refuse_signed j err e : signed (refuse j err e) = signed e.
Proof. unfold refuse. case_bool_decide; [done|]. by destruct (_ <? _)%nat. Qed.

Lemma step_projects b n ev e : nevent_in b ev → projects b (signed e) (signed (step n ev e)).
Proof.
  destruct ev as [env m|id choices takes| | |]; intros Hb; cbn [nstep].
  - unfold acceptJob.
    assert (∀ j, projects b (signed e)
              (signed match offer n env j e with (None, e) => e | (Some err, e) => refuse j err e end)) as Ho.
    { intros j. pose proof (offer_projects b n env j e Hb) as Hp.
      destruct (offer n env j e) as [[err|] e']; [by rewrite refuse_signed|done]. }
    case_bool_decide; [apply Ho|]. destruct (Parse_RFC3339Nano _); [apply Ho|]. rewrite refuse_signed. apply projects_refl.
  - unfold Cancel. destruct (cancel_drain _ _ _) as [[? kept] ?]. destruct (cancel_refill _ _ kept _). apply projects_refl.
  - apply projects_refl.
  - apply projects_refl.
  - cbn [signed]. by apply (projects_one b ERestart).
Qed.

Lemma run_projects b n evs e : Forall (nevent_in b) evs → projects b (signed e) (signed (run_node n evs e)).
Proof.
  intros Hb. revert e. induction Hb as [|ev evs Hev Hb IH]; intros e; [apply projects_refl|].
  eapply projects_trans; [by apply step_projects|]. apply (IH (step n ev e)).
Qed.

(** *** Accepted once *)

Lemma word_nonempty l cur w : w ∈ fields_go l cur → w ≠ "".
Proof.
  revert cur. induction l as [|p l IH]; intros cur; cbn [fields_go].
  - case_bool_decide; [by intros ?%elem_of_nil|]. by intros ->%list_elem_of_singleton.
  - destruct (space_piece p); [|apply IH]. intros [Hin|Hin]%elem_of_app; [|by eapply IH].
    revert Hin. case_bool_decide; [by intros ?%elem_of_nil|]. by intros ->%list_elem_of_singleton.
Qed.

Abbreviation signer_keys := (signerKeys base64_Decode ParsePKIXPublicKey as_ecdsa curve).

Lemma signer_names lines keys key : signer_keys lines = inr keys → key ∈ keys → Name key ≠ "".
Proof.
  revert keys. induction lines as [|line lines IH]; intros keys; cbn [signerKeys]; [intros [= <-]; by intros ?%elem_of_nil|].
  destruct (ParseSignerKey _ _ _ _ line) as [err|k] eqn:Ek; [done|].
  destruct (signer_keys lines) as [err|ks]; [done|]. intros [= <-] [->|Hin]%elem_of_cons; [|by eapply IH].
  unfold ParseSignerKey in Ek. destruct (Fields (TrimSpace line)) as [|name [|text [|? ?]]] eqn:Ef; try done.
  assert (name ≠ "") as Hn by (apply (word_nonempty (Split (TrimSpace line) "") ""); fold (Fields (TrimSpace line)); rewrite Ef; by left).
  destruct (base64_Decode text); [|done]. destruct (ParsePKIXPublicKey _); [|done]. destruct (as_ecdsa _); [|done].
  destruct (checkCurve _); [|done]. by simplify_eq.
Qed.

Lemma verify_name keys p sig name : verify keys p sig = inr name → pExpires p ≠ 0 ∧ ∃ key, key ∈ keys ∧ Name key = name.
Proof.
  unfold Verify. destruct keys as [|k0 keys0] eqn:Ek; [done|]. rewrite <- Ek.
  case_bool_decide; [done|]. unfold IsZero. destruct (Z.eqb_spec (pExpires p) 0); [done|].
  destruct (base64_Decode sig) as [der|]; [|done].
  destruct (first_verifying _ keys (Digest _ _ _) der) as [name'|] eqn:Ef; [|intros E; repeat case_match; discriminate E].
  intros [= ->]. split; [done|]. apply first_verifying_Some in Ef as (key & ? & ? & _). by exists key.
Qed.

Lemma not_expired j now : Expires j ≠ 0 → Expired j now = false → now ≤ Expires j.
Proof.
  unfold Expired, IsZero, After. destruct (Z.eqb_spec (Expires j) 0); [done|]. intros _. cbn [negb andb].
  by intros ?%Z.ltb_ge.
Qed.

Lemma live_until t e : t ≤ e → live t e.
Proof. unfold live, SignedReplayRetention, Hour, Minute, Second. lia. Qed.

(** What is known of an accepted job that needed a signature. *)
Lemma accepted_signed n env j e lines :
  signer_keys lines = inr (signerKeyList n) → needs n j → (offer n env j e).1 = None →
  ∃ signer e1, signer ≠ "" ∧ ID_Valid (JID j) = true ∧
    verify (signerKeyList n) (SigningPayload j) (Job.Signature j) = inr signer ∧
    t_check env ≤ Expires j ∧ boundedSignedExpiry n j (t_sig env) = None ∧ targets n env j ∧
    queue e1 = queue e ∧ depth e1 = depth e ∧ evidence e1 = evidence e ∧
    (∀ b : Z → Prop, b (t_seen env) → projects b (signed e) (signed e1)) ∧
    offer n env j e = offer_admit iter env j signer e1.
Proof.
  intros Hkeys [why Hneed] Hacc. destruct (Offer_cases n env j e Hacc) as (signer & e1 & Hpre & Hc & Hs & Hq & Hd & Hev & Heq).
  apply check_sig_passes in Hc as [[Hn _]|(Hv & Hb & Ht)]; [congruence|].
  destruct (verify_name _ _ _ _ Hv) as [Hexp (key & Hkey & <-)]. apply precheck_valid in Hpre as [Hj Hne].
  exists (Name key), e1. split_and!; try done.
  - by eapply signer_names.
  - by apply not_expired.
  - intros b Hb'. destruct Hs as [Hs|Hs]; rewrite Hs; [apply projects_refl|by apply projects_seen].
Qed.

Context (iter_perm : ∀ m, iter m ≡ₚ map_to_list m).

(** The clock does not go back while a job is offered. *)
Definition clock_ok (env : offer_env) : Prop :=
  0 ≤ t_check env ∧ t_check env ≤ t_seen env ∧ t_seen env ≤ t_sig env ∧ t_sig env ≤ t_record env ∧ t_record env ≤ t_guard env.

Lemma accepted_guard_time n env j e :
  (offer n env j e).1 = None → Expires j ≠ 0 → t_guard env ≤ Expires j.
Proof.
  intros Hacc Hne. destruct (Offer_cases n env j e Hacc) as (signer & e1 & _ & _ & _ & _ & _ & _ & Heq).
  rewrite Heq in Hacc. revert Hacc. unfold offer_admit.
  assert (∀ e2, (offer_queue env j signer e2).1 = None → t_guard env ≤ Expires j) as Hq.
  { intros e2 (Hp & _)%offer_queue_accepts. apply precheck_valid in Hp as [_ Hx]. by apply not_expired. }
  case_bool_decide; [apply Hq|]. destruct (SR_Admit _ _ _ _ _) as [[|r|er] s]; [apply Hq|done|done].
Qed.

Lemma projects_sane b st st' : projects b st st' → sane st → sane st'.
Proof. intros (evs & -> & Hv & _) Hs. by apply run_sane. Qed.

Lemma projects_knows J e st st' :
  ID_Valid J = true → writable e → projects (λ t, t ≤ e) st st' → knows J e st → knows J e st'.
Proof.
  intros HJ Hw (evs & -> & Hv & Hb) Hk. apply run_knows; try done. eapply Forall_impl; [exact Hb|].
  intros ev Hev now Hr. by apply live_until, Hev.
Qed.

Lemma signed_writable n env j :
  longest n < maxInt64 → clock_ok env → t_sig env + longest n < year10000 →
  t_check env ≤ Expires j → boundedSignedExpiry n j (t_sig env) = None → writable (Expires j).
Proof.
  intros Hl (H0' & _) Hy Hle Hb. apply bounded_expiry in Hb; [|done]. right. apply four_digit_before. lia.
Qed.

(** Accepting a job that needs a signature leaves its jid in the record. *)
Lemma accepted_is_known n env j e lines :
  signer_keys lines = inr (signerKeyList n) → longest n < maxInt64 → clock_ok env → t_sig env + longest n < year10000 →
  needs n j → sane (signed e) → (offer n env j e).1 = None →
  ID_Valid (JID j) = true ∧ writable (Expires j) ∧ knows (JID j) (Expires j) (signed (offer n env j e).2).
Proof.
  intros Hkeys Hl Hck Hy Hneed Hs Hacc. pose proof (accepted_guard_time n env j e Hacc) as Hg.
  destruct (accepted_signed n env j e lines Hkeys Hneed Hacc)
    as (signer & e1 & Hne & Hj & Hv & Hchk & Hb & _ & _ & _ & _ & Hpr & Heq).
  assert (writable (Expires j)) as Hw by (by eapply signed_writable).
  split_and!; [done..|]. rewrite Heq in *. apply offer_admit_accepts in Hacc as (_ & _ & _ & _ & Hsr).
  destruct (Hsr Hne) as [Ha ->]. apply accepted_known; try done.
  - apply live_until. destruct Hck as (? & ? & ? & ? & ?). destruct (verify_name _ _ _ _ Hv) as [Hx _]. specialize (Hg Hx). lia.
  - eapply projects_sane; [by apply (Hpr (λ _, True))|done].
Qed.

(** C12: A job that needs a signature is accepted at most once in its life.  After
    a node has accepted it, no message with the same jid, expiry and function
    is accepted again, whatever the hub sends, the worker does and the disk
    refuses in between, and however often the process restarts; the only
    assumption is a clock that does not go back. *)
Theorem signed_job_runs_once n d file compact evs0 env j evs env' j' lines :
  signer_keys lines = inr (signerKeyList n) → longest n < maxInt64 →
  clock_ok env → t_sig env + longest n < year10000 → needs n j →
  let e := run_node n evs0 (newExecutor d file compact) in
  (offer n env j e).1 = None →
  clock_ok env' → Forall (nevent_in (λ t, t ≤ t_check env')) evs →
  JID j' = JID j → Expires j' = Expires j → Fun j' = Fun j →
  (offer n env' j' (run_node n evs (offer n env j e).2)).1 ≠ None.
Proof.
  intros Hkeys Hl Hck Hy Hneed e Hacc Hck' Hevs HJ HE HF Hacc'.
  assert (sane (signed e)) as Hs.
  { apply (projects_sane (λ _, True) (signed (newExecutor d file compact))).
    - apply run_projects. apply Forall_true. by intros [].
    - split; [intros k x; cbn; by rewrite lookup_empty|done]. }
  destruct (accepted_is_known n env j e lines) as (Hj & Hw & Hk); try done.
  assert (needs n j') as Hneed' by (by rewrite HF).
  set (e2 := run_node n evs _) in *.
  pose proof (accepted_guard_time n env' j' e2 Hacc') as Hg.
  destruct (accepted_signed n env' j' e2 lines Hkeys Hneed' Hacc')
    as (signer & e1 & Hne & Hj' & Hv & Hchk & Hb & _ & _ & _ & _ & Hpr & Heq).
  destruct (verify_name _ _ _ _ Hv) as [Hx _]. specialize (Hg Hx). rewrite HE in Hg.
  destruct Hck' as (? & ? & ? & ? & ?).
  assert (knows (JID j) (Expires j) (signed e1)) as Hk1.
  { apply (projects_knows _ _ (signed e2)); [done|done|apply Hpr; lia|].
    apply (projects_knows _ _ (signed (offer n env j e).2)); [done|done| |done].
    apply run_projects. eapply Forall_impl; [exact Hevs|]. intros [env1 m| | | |]; cbn; unfold env_in; lia. }
  rewrite Heq in Hacc'. apply offer_admit_accepts in Hacc' as (_ & _ & _ & _ & Hsr). destruct (Hsr Hne) as [Ha _].
  eapply admit_knows; [exact iter_perm|exact Hj|exact Hj'|exact Hw| |exact Hk1|exact HJ|exact Ha]. apply live_until. lia.
Qed.

(** *** Signed by a trusted key *)

Context (signed_by : K → Payload → Prop).
Hypothesis unforgeable : ∀ k d s, VerifyASN1 k d s = true → ∃ q, signed_by k q ∧ d = Digest ovf sha256 q.
Hypothesis signed_expiry : ∀ k q, signed_by k q → writable (pExpires q).

(** C5: A job that needs a signature is queued only if the holder of a key in the
    node's own configuration signed a job that says the same as this one (the
    same function, arguments and target, and keyword values that say the same,
    whole numbers compared by value), or one whose bytes are another text with
    the same hash; the target selects this node, and the expiry has not passed
    and is no further off than the node allows.  The queue
    gains that job, within its bound, and the evidence names the key. *)
Theorem queued_job_was_signed n env j e lines :
  signer_keys lines = inr (signerKeyList n) → longest n < maxInt64 →
  clock_ok env → t_sig env + longest n < year10000 → needs n j →
  (offer n env j e).1 = None →
  let e' := (offer n env j e).2 in
  ∃ key q, key ∈ signerKeyList n ∧ signed_by (PubKey key) q ∧
    (same_payload (SigningPayload j) q ∨
     collision sha256 (Canonical ovf (SigningPayload j)) (Canonical ovf q)) ∧
    targets n env j ∧ t_check env ≤ Expires j ∧ Expires j - t_sig env ≤ longest n ∧
    (∃ test, jobTestFlag j = inr test) ∧
    queue e' = queue e ++ [j] ∧ (length (queue e') ≤ depth e)%nat ∧
    evidence e' = evidence e ++ [JobAccepted (JID j) (Name key)].
Proof.
  intros Hkeys Hl Hck Hy Hneed Hacc.
  destruct (accepted_signed n env j e lines Hkeys Hneed Hacc)
    as (signer & e1 & Hne & Hj & Hv & Hchk & Hb & Ht & Hq & Hd & Hev & Hpr & Heq).
  assert (writable (Expires j)) as Hw by (by eapply signed_writable).
  destruct (verify_signed ovf VerifyASN1 sha256 base64_Decode json_Marshal signed_by unforgeable
              signed_expiry (signerKeyList n) (SigningPayload j) (Job.Signature j) signer Hw Hv)
    as (_ & key & q & Hkey & <- & Hsq & Hsame).
  cbn zeta. rewrite Heq in *. destruct (offer_admit_accepts _ _ _ _ Hacc) as (Htest & Hq' & Hl' & Hev' & _).
  exists key, q. rewrite Hq', Hev', Hq, Hev in *. rewrite <- Hd.
  split_and!; try done. by apply bounded_expiry.
Qed.
End offer_props.

(** ** A node that requires signatures *)

#[local] Existing Instance demo_runtime.
#[local] Existing Instance demo_netip.

(** The job [demo_payload'] was signed for. *)
Definition demo_sjob (nonce sig : string) : Job :=
  mkJob (pJID demo_payload') (pFun demo_payload') (pArg demo_payload') (pKwarg demo_payload') (pEnv demo_payload') nonce
    (demo_now + Hour) 0 "" "" "" "" (pTarget demo_payload') (pTargetKind demo_payload') [] "" "" false
    (mkBatch 0 0 0 0) [] [] sig SignedJobSchema.
Definition demo_sig : string := Canonical demo_ovf demo_payload'.
Definition demo_nodecfg : node (K := string) :=
  mkNodeCfg "web1" (mkReq false {[classState]}) [mkSignerKey "ops" "alice"] 0 (λ _, None).
Definition demo_env (t : Z) : offer_env := mkEnv t t t t t io_fine io_fine None None.

Abbreviation demo_offer := (Offer demo_regex demo_ovf demo_verify (λ s, s) Some (λ _, None) map_to_list demo_nodecfg).
Abbreviation demo_run := (nrun demo_regex demo_ovf demo_verify (λ s, s) Some (λ _, None) map_to_list demo_nodecfg).
Definition demo_first := demo_offer (demo_env demo_now) (demo_sjob "n1" demo_sig) (newExecutor 4 None 0).

(** A setting with spaces and capitals, and one with a class nobody knows. *)
Example demo_requirement :
  parseSignatureRequirement (Some (ASlice [AString " State"; AString "arbitrary_code"])) =
    inr (mkReq false {[classState; classArbitraryCode]}) ∧
  parseSignatureRequirement (Some (AString "arbitrarycode")) = inl (UnknownClass "arbitrarycode") ∧
  parseSignatureRequirement (Some (AString "")) = inr (mkReq false ∅) ∧
  parseSignatureRequirement (Some (AString "TRUE")) = inr (mkReq true ∅).
Proof. by vm_compute. Qed.

(** Unsigned, signed for another node, and with a test that is not a boolean. *)
Example demo_refusals :
  (demo_offer (demo_env demo_now) (demo_sjob "n1" "") (newExecutor 4 None 0)).1 =
    Some (OSignature (NotVerified classState NoSignature)) ∧
  (Offer demo_regex demo_ovf demo_verify (λ s, s) Some (λ _, None) map_to_list
     (mkNodeCfg "db1" (mkReq true ∅) [mkSignerKey "ops" "alice"] 0 (λ _, None))
     (demo_env demo_now) (demo_sjob "n1" demo_sig) (newExecutor 4 None 0)).1 = Some (OSignature NotTargeted) ∧
  (demo_offer (demo_env (demo_now + 2 * Hour)) (demo_sjob "n1" demo_sig) (newExecutor 4 None 0)).1 ≠ None.
Proof. split_and!; vm_compute; [reflexivity|reflexivity|discriminate]. Qed.

Lemma demo_clock t : 0 ≤ t → clock_ok (demo_env t).
Proof. unfold clock_ok, demo_env. cbn. lia. Qed.

Lemma signed_job_runs_once_witness :
  (demo_offer (demo_env demo_now) (demo_sjob "n2" demo_sig)
     (demo_run [NWork; NRestart; NKill "x" [true] []] demo_first.2)).1 ≠ None.
Proof.
  apply (signed_job_runs_once demo_regex demo_ovf demo_verify (λ s, s) Some (λ _, None) Some Some (λ _, P256)
           map_to_list (λ _, reflexivity _) demo_nodecfg 4 None 0 [] (demo_env demo_now) (demo_sjob "n1" demo_sig)
           [NWork; NRestart; NKill "x" [true] []] (demo_env demo_now) (demo_sjob "n2" demo_sig) ["ops alice"]).
  - vm_compute. reflexivity.
  - vm_compute. reflexivity.
  - apply demo_clock. vm_compute. discriminate.
  - vm_compute. reflexivity.
  - vm_compute. eexists. reflexivity.
  - vm_compute. reflexivity.
  - apply demo_clock. vm_compute. discriminate.
  - repeat constructor.
  - reflexivity.
  - reflexivity.
  - reflexivity.
Defined.

Lemma queued_job_was_signed_witness :
  ∃ key q, key ∈ signerKeyList demo_nodecfg ∧ demo_signed_by (PubKey key) q ∧
    same_payload (SigningPayload (demo_sjob "n1" demo_sig)) q ∧
    queue demo_first.2 = [demo_sjob "n1" demo_sig] ∧ evidence demo_first.2 = [JobAccepted (pJID demo_payload') (Name key)].
Proof.
  destruct (queued_job_was_signed demo_regex demo_ovf demo_verify (λ s, s) Some (λ _, None) Some Some (λ _, P256)
           map_to_list demo_signed_by) with (n := demo_nodecfg) (env := demo_env demo_now)
           (j := demo_sjob "n1" demo_sig) (e := newExecutor 4 None 0) (lines := ["ops alice"])
    as (key & q & Hk & Hs & Hp & _ & _ & _ & _ & Hq & _ & He).
  - intros k d s Hv. apply bool_decide_eq_true in Hv as (-> & -> & _). by exists demo_payload'.
  - intros k q [_ ->]. apply demo_writable.
  - vm_compute. reflexivity.
  - vm_compute. reflexivity.
  - apply demo_clock. vm_compute. discriminate.
  - vm_compute. reflexivity.
  - vm_compute. eexists. reflexivity.
  - vm_compute. reflexivity.
  - exists key, q. split_and!; [exact Hk|exact Hs| |exact Hq|exact He].
    destruct Hp as [Hp|[Hne E]]; [exact Hp|by destruct Hne].
Defined.

Lemma cancel_keeps_the_rest_witness :
  let '(dropped, ran, e') := Cancel (pJID demo_payload') [] [] demo_first.2 in
  filter (λ j : Job, JID j ≠ pJID demo_payload') (ran ++ queue e') ≡ₚ
    filter (λ j : Job, JID j ≠ pJID demo_payload') (queue demo_first.2) ∧
  Forall (λ j : Job, JID j ≠ pJID demo_payload') (queue e') ∧ (length (queue e') ≤ depth e')%nat ∧
  (dropped = false → ran ++ queue e' ≡ₚ queue demo_first.2).
Proof. apply (cancel_keeps_the_rest (pJID demo_payload') [] [] demo_first.2). apply Nat.leb_le. vm_compute. reflexivity. Defined.
