(* ===== verification/Cron.v ===== *)
(** * Cron expressions

    Models src/internal/schedule/cron.go: reading a five-field expression, and
    the search for the next minute it matches.  A field is the set of values it
    matches; steps are added at 64 bits, as the code adds them.

    A time zone is the offset it gives each instant.  time.Date in a zone takes
    the fields as UTC, looks up the offset there and then the offset at the
    instant that gives. *)

From S2P Require Import Prelude GoLib GoTime Target.

Open Scope Z_scope.

(** ** Expressions *)

Record Cron := mkCron {
  cMinute : gset Z; cHour : gset Z; cDay : gset Z; cMonth : gset Z; cWeekday : gset Z;
  DayRestricted : bool; WeekdayRestricted : bool; Reboot : bool; Expr : string }.

Definition shorthands : list (string * string) :=
  [("@yearly", "0 0 1 1 *"); ("@annually", "0 0 1 1 *"); ("@monthly", "0 0 1 * *"); ("@weekly", "0 0 * * 0");
   ("@daily", "0 0 * * *"); ("@midnight", "0 0 * * *"); ("@hourly", "0 * * * *")].

Definition monthNames : list (string * Z) :=
  [("jan", 1); ("feb", 2); ("mar", 3); ("apr", 4); ("may", 5); ("jun", 6);
   ("jul", 7); ("aug", 8); ("sep", 9); ("oct", 10); ("nov", 11); ("dec", 12)].
Definition weekdayNames : list (string * Z) :=
  [("sun", 0); ("mon", 1); ("tue", 2); ("wed", 3); ("thu", 4); ("fri", 5); ("sat", 6)].

(** Lookup of strings.ToLower(s) in a table. *)
Definition lookup_lower {A} (s : string) (l : list (string * A)) : option A :=
  (λ p : nat * (string * A), p.2.2) <$> list_find (λ p : string * A, ToLower_is s p.1 = true) l.

Inductive field_error :=
| EmptyItem (field : string) | NotStep (text : string) | Backwards (part : string)
| NotValue (s : string) | Outside (v min max : Z) | MatchesNothing (field : string).
Inductive cron_error :=
| NoExpr | SixFields (expr : string) | FieldCount (expr : string) (n : nat)
| NotImplemented (expr : string) (token : ascii) | BadField (expr what : string) (e : field_error).

Definition fieldValue (s : string) (min max : Z) (names : list (string * Z)) : field_error + Z :=
  let s := TrimSpace s in
  match lookup_lower s names with
  | Some v => inr v
  | None =>
      match Atoi s with
      | None => inl (NotValue s)
      | Some v => if (v <? min) || (max <? v) then inl (Outside v min max) else inr v
      end
  end.

(** for v := low; v <= high; v += step, at 64 bits; a loop of more than [fuel]
    turns has no result. *)
Fixpoint collect (fuel : nat) (v high step : Z) (out : gset Z) : option (gset Z) :=
  match fuel with
  | O => None
  | S f => if v <=? high then collect f (wrap64 (v + step)) high step ({[v]} ∪ out) else Some out
  end.

(** The step of an item and what stands before it. *)
Definition item_step (part : string) : field_error + Z * string :=
  match IndexByte "/" part with
  | None => inr (1, part)
  | Some i =>
      match Atoi (TrimSpace (sdrop (S i) part)) with
      | Some n => if n <? 1 then inl (NotStep (sdrop (S i) part)) else inr (n, TrimSpace (stake i part))
      | None => inl (NotStep (sdrop (S i) part))
      end
  end.

(** The bounds of an item. *)
Definition item_bounds (part : string) (step min max : Z) (names : list (string * Z)) : field_error + Z * Z :=
  if bool_decide (part = "*") then inr (min, max)
  else match IndexByte "-" part with
  | Some i =>
      match fieldValue (stake i part) min max names with
      | inl e => inl e
      | inr low =>
          match fieldValue (sdrop (S i) part) min max names with
          | inl e => inl e
          | inr high => if high <? low then inl (Backwards part) else inr (low, high)
          end
      end
  | None =>
      match fieldValue part min max names with
      | inl e => inl e
      | inr v => inr (v, if 1 <? step then max else v)
      end
  end.

Definition loop_fuel : nat := 200.

Fixpoint parse_items (field : string) (parts : list string) (min max : Z) (names : list (string * Z)) (out : gset Z)
    : option (field_error + gset Z) :=
  match parts with
  | [] => Some (if bool_decide (out = ∅) then inl (MatchesNothing field) else inr out)
  | part :: parts' =>
      let part := TrimSpace part in
      if bool_decide (part = "") then Some (inl (EmptyItem field))
      else match item_step part with
      | inl e => Some (inl e)
      | inr (step, part) =>
          match item_bounds part step min max names with
          | inl e => Some (inl e)
          | inr (low, high) =>
              match collect loop_fuel low high step out with
              | None => None
              | Some out => parse_items field parts' min max names out
              end
          end
      end
  end.

Definition parseField (field : string) (min max : Z) (names : list (string * Z)) : option (field_error + gset Z) :=
  parse_items field (Split field ",") min max names ∅.

(** Of the runes outside ASCII none has L or W as its upper case. *)
Definition unsupported : list (list ascii * ascii) :=
  [(["L"%char; "l"%char], "L"%char); (["W"%char; "w"%char], "W"%char); (["#"%char], "#"%char); (["?"%char], "?"%char)].
Definition refuseUnsupported (field expr : string) : option cron_error :=
  (λ p : nat * (list ascii * ascii), NotImplemented expr p.2.2) <$>
    list_find (λ p : list ascii * ascii, contains_any p.1 field = true) unsupported.

Fixpoint first_error {A B} (f : A → option B) (l : list A) : option B :=
  match l with [] => None | x :: l' => match f x with Some e => Some e | None => first_error f l' end end.

(** Sequencing of the five fields. *)
Definition and_field {A} (expr what : string) (r : option (field_error + gset Z))
    (k : gset Z → option (cron_error + A)) : option (cron_error + A) :=
  match r with
  | None => None
  | Some (inl e) => Some (inl (BadField expr what e))
  | Some (inr s) => k s
  end.

Definition ParseCron (expr : string) : option (cron_error + Cron) :=
  let trimmed := TrimSpace expr in
  if bool_decide (trimmed = "") then Some (inl NoExpr)
  else if EqualFold trimmed "@reboot" then Some (inr (mkCron ∅ ∅ ∅ ∅ ∅ false false true trimmed))
  else
    let trimmed := default trimmed (lookup_lower trimmed shorthands) in
    match Fields trimmed with
    | [_; _; _; _; _; _] => Some (inl (SixFields expr))
    | [f0; f1; f2; f3; f4] =>
        match first_error (λ f, refuseUnsupported f expr) [f0; f1; f2; f3; f4] with
        | Some e => Some (inl e)
        | None =>
            and_field expr "minute" (parseField f0 0 59 []) (λ minute,
            and_field expr "hour" (parseField f1 0 23 []) (λ hour,
            and_field expr "day of month" (parseField f2 1 31 []) (λ day,
            and_field expr "month" (parseField f3 1 12 monthNames) (λ month,
            and_field expr "day of week" (parseField f4 0 7 weekdayNames) (λ wd,
              let wd := if bool_decide (7 ∈ wd) then ({[0]} ∪ wd) ∖ {[7]} else wd in
              Some (inr (mkCron minute hour day month wd
                (negb (bool_decide (TrimSpace f2 = "*"))) (negb (bool_decide (TrimSpace f4 = "*"))) false expr)))))))
        end
    | fields => Some (inl (FieldCount expr (length fields)))
    end.

Definition matchesDay (c : Cron) (day weekday : Z) : bool :=
  let dayOK := bool_decide (day ∈ cDay c) in
  let weekdayOK := bool_decide (weekday ∈ cWeekday c) in
  if DayRestricted c && WeekdayRestricted c then dayOK || weekdayOK else dayOK && weekdayOK.

(** ** Time zones *)

Definition zone := Z → Z.
Definition UTC : zone := λ _, 0.

(** The wall clock of an instant: its day number, and the minute of the day. *)
Definition wall_secs (z : zone) (t : Z) : Z := secs_of (t + z t).
Definition wall_day (z : zone) (t : Z) : Z := days_of (wall_secs z t).
Definition wall_date (z : zone) (t : Z) : Z * Z * Z := civil (wall_day z t).
Definition wall_hour (z : zone) (t : Z) : Z := (clock_of (wall_secs z t)).1.1.
Definition wall_minute (z : zone) (t : Z) : Z := (clock_of (wall_secs z t)).1.2.

Definition Date (z : zone) (y m d h mi : Z) : Z :=
  let u := Date_utc y m d h mi 0 0 in u - z (u - z u).

(** ** The search *)

Definition nextMonth (y m : Z) : Z * Z * Z := if m =? 12 then (y + 1, 1, 1) else (y, m + 1, 1).

(** Noon of the day in UTC, and AddDate of one day. *)
Definition nextDay (y m d : Z) : Z * Z * Z :=
  let '(y, m, d) := civil (date_days y m d) in civil (date_days y m (d + 1)).

Record walk := mkWalk { wy : Z; wm : Z; wd : Z; wh : Z; wmi : Z }.
Definition at_midnight (date : Z * Z * Z) : walk := mkWalk date.1.1 date.1.2 date.2 0 0.

Definition stepMinute (w : walk) : walk :=
  let '(h, mi) := if 59 <? wmi w + 1 then (wh w + 1, 0) else (wh w, wmi w + 1) in
  if 23 <? h then let '(y, m, d) := nextDay (wy w) (wm w) (wd w) in mkWalk y m d 0 mi
  else mkWalk (wy w) (wm w) (wd w) h mi.

(** Minutes of the day, from its midnight, until one is past the wanted one. *)
Fixpoint transition_scan (fuel : nat) (z : zone) (d want cand : Z) : option Z :=
  match fuel with
  | O => None
  | S f =>
      if negb (bool_decide ((wall_date z cand).2 = d)) then None
      else if want <? wall_hour z cand * 60 + wall_minute z cand then Some cand
      else transition_scan f z d want (cand + Minute)
  end.
Definition transitionAfter (z : zone) (w : walk) : option Z :=
  transition_scan (Z.to_nat (24 * 60 + 1)) z (wd w) (wh w * 60 + wmi w) (Date z (wy w) (wm w) (wd w) 0 0).

(** One turn of the loop: the fire time, or where to go on. *)
Definition next_turn (c : Cron) (z : zone) (after : Z) (w : walk) : Z + walk :=
  if negb (bool_decide (wm w ∈ cMonth c)) then inr (at_midnight (nextMonth (wy w) (wm w)))
  else
    let probe := Date z (wy w) (wm w) (wd w) 0 0 in
    let '(_, pm, pd) := wall_date z probe in
    if negb (bool_decide (pd = wd w)) || negb (bool_decide (pm = wm w)) then inr (at_midnight (nextMonth (wy w) (wm w)))
    else if negb (matchesDay c (wd w) (weekday (wall_day z probe))) then
      inr (at_midnight (nextDay (wy w) (wm w) (wd w)))
    else if negb (bool_decide (wh w ∈ cHour c)) then
      if 23 <? wh w + 1 then inr (at_midnight (nextDay (wy w) (wm w) (wd w)))
      else inr (mkWalk (wy w) (wm w) (wd w) (wh w + 1) 0)
    else if negb (bool_decide (wmi w ∈ cMinute c)) then inr (stepMinute w)
    else
      let fire := Date z (wy w) (wm w) (wd w) (wh w) (wmi w) in
      if negb (wall_hour z fire =? wh w) || negb (wall_minute z fire =? wmi w) then
        match transitionAfter z w with
        | Some t => if After t after then inl t else inr (stepMinute w)
        | None => inr (stepMinute w)
        end
      else if negb (After fire after) then inr (stepMinute w)
      else inl fire.

Fixpoint next_loop (fuel : nat) (c : Cron) (z : zone) (after : Z) (w : walk) : option Z :=
  match fuel with
  | O => None
  | S f => match next_turn c z after w with inl fire => Some fire | inr w' => next_loop f c z after w' end
  end.

Definition limit : nat := Z.to_nat (5 * 366 * 24 * 60).

(** The wall clock of the minute after [after]. *)
Definition first_walk (z : zone) (after : Z) : walk :=
  let t := Truncate after Minute + Minute in
  let '(y, m, d) := wall_date z t in mkWalk y m d (wall_hour z t) (wall_minute z t).

Definition Next (c : Cron) (z : zone) (after : Z) : option Z :=
  if Reboot c then None else next_loop limit c z after (first_walk z after).

(** ** Fields *)

Lemma collect_spec fuel v high step out :
  1 ≤ step → 0 ≤ v → high + step ≤ maxInt64 → (Z.to_nat (high - v + 1) < fuel)%nat →
  ∃ out', collect fuel v high step out = Some out' ∧
    ∀ x, x ∈ out' ↔ x ∈ out ∨ (v ≤ x ≤ high ∧ (x - v) mod step = 0).
Proof.
  intros Hs. revert v out. induction fuel as [|f IH]; intros v out Hv Hh Hf; [lia|]. cbn [collect].
  destruct (Z.leb_spec v high) as [Hle|Hlt].
  - unfold maxInt64 in *. rewrite wrap64_small by (unfold minInt64, maxInt64; lia).
    destruct (IH (v + step) ({[v]} ∪ out)) as (out' & E & Hin); [lia|lia|lia|].
    exists out'. split; [done|]. intros x. rewrite Hin, elem_of_union, elem_of_singleton.
    assert ((x - (v + step)) mod step = (x - v) mod step) as ->.
    { replace (x - (v + step)) with (x - v + (-1) * step) by lia. apply Z_mod_plus_full. }
    destruct (decide (x = v)) as [->|Hne].
    { rewrite Z.sub_diag, Z.mod_0_l by lia. split; [intros; right; lia|intros _; by left; left]. }
    split; [intros [[?|?]|?]; [done|by left|right; lia]|].
    intros [?|[[Hx Hxh] Hm]]; [by left; right|]. right. split; [|done].
    apply Z.mod_divide in Hm as [k Hk]; [|lia]. assert (1 ≤ k) by nia. nia.
  - exists out. split; [done|]. intros x. split; [by left|]. intros [?|[? _]]; [done|lia].
Qed.

Lemma collect_S f v high step out :
  collect (S f) v high step out =
  if v <=? high then collect f (wrap64 (v + step)) high step ({[v]} ∪ out) else Some out.
Proof. done. Qed.

(** A step that overflows comes round to a smaller value, so the loop ends. *)
Lemma collect_wraps n fuel v high step out :
  maxInt64 - 59 < step ≤ maxInt64 → 0 ≤ high ≤ 59 → v ≤ Z.of_nat n → -118 ≤ v ≤ 59 → (2 * n + 4 ≤ fuel)%nat →
  is_Some (collect fuel v high step out).
Proof.
  intros Hs Hh. revert fuel v out. induction n as [n IH] using lt_wf_ind. intros fuel v out Hn Hv Hf.
  destruct fuel as [|[|[|[|f]]]]; [lia..|]. rewrite collect_S.
  destruct (Z.leb_spec v high) as [Hle|]; [|done]. rewrite collect_S.
  destruct (decide (v + step ≤ maxInt64)) as [Hno|Hov].
  - rewrite wrap64_small by (unfold minInt64, maxInt64 in *; lia).
    destruct (Z.leb_spec (v + step) high); [unfold maxInt64 in *; lia|done].
  - assert (wrap64 (v + step) = v + step - 2 ^ 64) as ->.
    { unfold wrap64, maxInt64 in *. rewrite <- (Z.mod_unique (v + step + 2 ^ 63) (2 ^ 64) 1 (v + step + 2 ^ 63 - 2 ^ 64)); lia. }
    destruct (Z.leb_spec (v + step - 2 ^ 64) high); [|done].
    rewrite wrap64_small by (unfold minInt64, maxInt64 in *; lia).
    apply (IH (n - 1)%nat); unfold maxInt64 in *; lia.
Qed.

Lemma collect_total low high step out :
  0 ≤ low ≤ 59 → 0 ≤ high ≤ 59 → 1 ≤ step ≤ maxInt64 → is_Some (collect loop_fuel low high step out).
Proof.
  intros Hl Hh Hs. destruct (decide (step ≤ maxInt64 - 59)).
  - destruct (collect_spec loop_fuel low high step out) as (o & E & _); [lia|lia|lia|unfold loop_fuel; lia|]. by exists o.
  - apply (collect_wraps 59); unfold loop_fuel; lia.
Qed.

Definition names_in (min max : Z) (names : list (string * Z)) : Prop := Forall (λ p : string * Z, min ≤ p.2 ≤ max) names.

Lemma fieldValue_in s min max names v : names_in min max names → fieldValue s min max names = inr v → min ≤ v ≤ max.
Proof.
  intros Hn. unfold fieldValue, lookup_lower. destruct (list_find _ names) as [[i [k x]]|] eqn:E; simpl.
  - intros [= <-]. apply list_find_Some in E as (Hi & _). eapply Forall_lookup in Hn; [|exact Hi]. done.
  - destruct (Atoi _) as [x|]; [|done]. destruct (Z.ltb_spec x min), (Z.ltb_spec max x); try done. intros [= <-]. lia.
Qed.

Lemma item_bounds_in part step min max names low high :
  names_in min max names → min ≤ max → item_bounds part step min max names = inr (low, high) →
  min ≤ low ≤ high ∧ high ≤ max.
Proof.
  intros Hn Hm. unfold item_bounds. case_bool_decide; [intros [= <- <-]; lia|].
  destruct (IndexByte "-" part) as [i|].
  - destruct (fieldValue (stake i part) _ _ _) as [|l] eqn:El; [done|].
    destruct (fieldValue (sdrop (S i) part) _ _ _) as [|h] eqn:Eh; [done|].
    destruct (Z.ltb_spec h l); [done|]. intros [= <- <-].
    apply fieldValue_in in El; [|done]. apply fieldValue_in in Eh; [|done]. lia.
  - destruct (fieldValue part _ _ _) as [|v] eqn:Ev; [done|]. intros [= <- <-].
    apply fieldValue_in in Ev; [|done]. destruct (1 <? step); lia.
Qed.

Lemma Atoi_range s v : Atoi s = Some v → minInt64 ≤ v ≤ maxInt64.
Proof.
  unfold Atoi. destruct (match s with EmptyString => _ | _ => _ end) as [neg body].
  destruct body as [|a body]; [done|]. destruct (digits_go 0 _) as [x|]; [|done]. cbn [mbind option_bind].
  unfold in_range. destruct (_ && _) eqn:E; [|done]. intros [= <-]. destruct neg; lia.
Qed.

Lemma item_step_in part step rest : item_step part = inr (step, rest) → 1 ≤ step ≤ maxInt64.
Proof.
  unfold item_step. destruct (IndexByte "/" part); [|intros [= <- _]; by unfold maxInt64].
  destruct (Atoi _) as [v|] eqn:E; [|done]. apply Atoi_range in E. destruct (Z.ltb_spec v 1); [done|]. intros [= <- _]. lia.
Qed.

(** What an item of a field says of a value. *)
Definition item_says (min max : Z) (names : list (string * Z)) (part : string) (v : Z) : Prop :=
  ∃ step rest low high, item_step (TrimSpace part) = inr (step, rest) ∧
    item_bounds rest step min max names = inr (low, high) ∧ low ≤ v ≤ high ∧ (v - low) mod step = 0.
(** A step so large that a value plus the step overflows. *)
Definition small_step (part : string) : Prop :=
  ∀ step rest, item_step (TrimSpace part) = inr (step, rest) → step ≤ maxInt64 - 59.

Section fields.
Context (field : string) (min max : Z) (names : list (string * Z)).
Context (Hnames : names_in min max names) (Hmin : 0 ≤ min) (Hmm : min ≤ max) (Hmax : max ≤ 59).

Lemma parse_items_total parts out : is_Some (parse_items field parts min max names out).
Proof.
  revert out. induction parts as [|part parts IH]; intros out; [done|]. cbn [parse_items].
  case_bool_decide; [done|]. destruct (item_step _) as [e|[step rest]] eqn:Es; [done|].
  destruct (item_bounds _ _ _ _ _) as [e|[low high]] eqn:Eb; [done|].
  apply item_bounds_in in Eb; [|done|done]. apply item_step_in in Es.
  destruct (collect_total low high step out) as [o ->]; [lia..|]. apply IH.
Qed.

Lemma parse_items_spec parts out s :
  Forall small_step parts → parse_items field parts min max names out = Some (inr s) →
  ∀ v, v ∈ s ↔ v ∈ out ∨ ∃ part, part ∈ parts ∧ item_says min max names part v.
Proof.
  intros Hp. revert out. induction Hp as [|part parts Hsmall Hp IH]; intros out; cbn [parse_items].
  - case_bool_decide; [done|]. intros [= <-] v. split; [by left|]. by intros [?|(? & ?%elem_of_nil & _)].
  - case_bool_decide; [done|]. destruct (item_step _) as [e|[step rest]] eqn:Es; [done|].
    destruct (item_bounds _ _ _ _ _) as [e|[low high]] eqn:Eb; [done|].
    pose proof (item_bounds_in _ _ _ _ _ _ _ Hnames Hmm Eb) as Hb. pose proof (item_step_in _ _ _ Es) as Hs.
    pose proof (Hsmall _ _ Es) as Hsm.
    destruct (collect_spec loop_fuel low high step out) as (o & -> & Ho); [lia|lia|lia|unfold loop_fuel; lia|].
    intros E v. rewrite (IH _ E), Ho. split.
    + intros [[?|Hv]|(q & Hq & Hv)]; [by left| |right; exists q; split; [by right|done]].
      right. exists part. split; [by left|]. by exists step, rest, low, high.
    + intros [?|(q & [->|Hq]%elem_of_cons & Hv)]; [by left; left| |right; by exists q].
      left. right. destruct Hv as (step' & rest' & low' & high' & Es' & Eb' & Hv). rewrite Es in Es'. simplify_eq.
      rewrite Eb in Eb'. by simplify_eq.
Qed.
End fields.

Lemma monthNames_in : names_in 1 12 monthNames.
Proof. repeat constructor; simpl; lia. Qed.
Lemma weekdayNames_in : names_in 0 7 weekdayNames.
Proof. repeat constructor; simpl; lia. Qed.

(** Reading a cron expression always ends, whatever the steps it is given. *)
Theorem parse_cron_total expr : is_Some (ParseCron expr).
Proof.
  unfold ParseCron. case_bool_decide; [done|]. destruct (EqualFold _ _); [done|].
  destruct (Fields _) as [|f0 [|f1 [|f2 [|f3 [|f4 [|f5 [|]]]]]]]; try done.
  destruct (first_error _ _); [done|]. unfold and_field, parseField.
  repeat match goal with |- context [parse_items ?f ?l ?mn ?mx ?ns ∅] =>
    destruct (parse_items_total f mn mx ns ltac:(first [apply monthNames_in|apply weekdayNames_in|constructor])
      ltac:(lia) ltac:(lia) ltac:(lia) l ∅) as [[?|?] ->]; [done|] end.
  done.
Qed.

(** A field matches exactly the values its items name: each item is a value,
    a range or everything, every step-th value of it from the first, all of them
    within the field's bounds.  Steps close to the largest integer are left out. *)
Theorem field_matches_its_items field min max names s :
  names_in min max names → 0 ≤ min → min ≤ max → max ≤ 59 → Forall small_step (Split field ",") →
  parseField field min max names = Some (inr s) →
  ∀ v, (v ∈ s ↔ ∃ part, part ∈ Split field "," ∧ item_says min max names part v) ∧ (v ∈ s → min ≤ v ≤ max).
Proof.
  intros Hn H0 Hm H59 Hs E v.
  assert (v ∈ s ↔ ∃ part, part ∈ Split field "," ∧ item_says min max names part v) as Hv.
  { rewrite (parse_items_spec _ _ _ _ Hn H0 Hm H59 _ _ _ Hs E v). split; [intros [?|?]; [by set_solver|done]|by right]. }
  split; [done|]. rewrite Hv. intros (part & _ & step & rest & low & high & _ & Hb & Hlow & _).
  apply item_bounds_in in Hb; [|done|done]. lia.
Qed.

(** ** The next fire time *)

(** crontab's rule for days: both fields name it, or one of them does and
    neither field is a star. *)
Definition names_day (c : Cron) (d wd : Z) : bool :=
  bool_decide (d ∈ cDay c ∧ wd ∈ cWeekday c) ||
  bool_decide ((d ∈ cDay c ∨ wd ∈ cWeekday c) ∧ DayRestricted c = true ∧ WeekdayRestricted c = true).

Lemma matchesDay_names c d wd : matchesDay c d wd = names_day c d wd.
Proof.
  unfold matchesDay, names_day. destruct (DayRestricted c), (WeekdayRestricted c); cbn [andb];
    repeat case_bool_decide; naive_solver.
Qed.

(** Whether an expression matches a minute, counted from year one in UTC. *)
Definition matches (c : Cron) (n : Z) : bool :=
  let '(_, m, d) := civil (n / 1440) in
  bool_decide (m ∈ cMonth c) && names_day c d (weekday (n / 1440)) &&
  bool_decide (n mod 1440 / 60 ∈ cHour c) && bool_decide (n mod 60 ∈ cMinute c).

Definition walk_ok (w : walk) : Prop := valid_date (wy w) (wm w) (wd w) ∧ 0 ≤ wh w ≤ 23 ∧ 0 ≤ wmi w ≤ 59.
Definition walk_day (w : walk) : Z := date_days (wy w) (wm w) (wd w).
Definition walk_minute (w : walk) : Z := walk_day w * 1440 + wh w * 60 + wmi w.

Lemma date_days_add y m d k : date_days y m (d + k) = date_days y m d + k.
Proof. unfold date_days. lia. Qed.

Lemma nextDay_spec y m d :
  valid_date y m d → ∃ y' m' d', nextDay y m d = (y', m', d') ∧ valid_date y' m' d' ∧ date_days y' m' d' = date_days y m d + 1.
Proof.
  intros Hv. unfold nextDay. rewrite civil_date by done. rewrite date_days_add. apply civil_valid.
Qed.

Lemma nextMonth_spec y m d :
  valid_date y m d → ∃ y' m' d', nextMonth y m = (y', m', d') ∧ valid_date y' m' d' ∧
    date_days y m d < date_days y' m' d' ∧
    ∀ D, date_days y m d ≤ D < date_days y' m' d' → ∃ d'', civil D = (y, m, d'').
Proof.
  intros [Hm Hd].
  assert (∃ y' m', nextMonth y m = (y', m', 1) ∧ valid_date y' m' 1 ∧ date_days y' m' 1 = date_days y m 1 + daysIn m y)
    as (y' & m' & -> & Hv' & Hdd).
  { unfold nextMonth. destruct (Z.eqb_spec m 12) as [->|Hne].
    - exists (y + 1), 1. pose proof (daysIn_bounds 1 (y + 1)). split_and!; [done|split; lia|].
      rewrite !date_days_norm, year_days_step by lia. unfold daysIn, days_before. by destruct (isLeap y), (isLeap (y + 1)); simpl; lia.
    - exists y, (m + 1). pose proof (daysIn_bounds (m + 1) y). split_and!; [done|split; lia|].
      rewrite !date_days_norm by lia. unfold daysIn, days_before.
      assert (m = 1 ∨ m = 2 ∨ m = 3 ∨ m = 4 ∨ m = 5 ∨ m = 6 ∨ m = 7 ∨ m = 8 ∨ m = 9 ∨ m = 10 ∨ m = 11) as Hcase by lia.
      destruct (isLeap y); repeat destruct Hcase as [->|Hcase]; try subst m; simpl; lia. }
  exists y', m', 1. pose proof (date_days_add y m 1 (d - 1)) as Hd1. replace (1 + (d - 1)) with d in Hd1 by lia.
  split_and!; [done|done|lia|]. intros D HD. exists (d + (D - date_days y m d)).
  assert (D = date_days y m (d + (D - date_days y m d))) as Ed by (rewrite date_days_add; lia).
  rewrite Ed at 1. apply civil_date. split; lia.
Qed.

(** *** The wall clock of UTC *)

Lemma Date_UTC y m d h mi : Date UTC y m d h mi = (date_days y m d * 1440 + h * 60 + mi) * Minute.
Proof. unfold Date, UTC, Date_utc, date_secs, Minute, Second. lia. Qed.

Lemma wall_UTC n :
  wall_day UTC (n * Minute) = n / 1440 ∧ wall_hour UTC (n * Minute) = n mod 1440 / 60 ∧ wall_minute UTC (n * Minute) = n mod 60.
Proof.
  unfold wall_day, wall_hour, wall_minute, wall_secs, UTC, secs_of, days_of, clock_of, Minute. cbn [fst snd].
  assert ((n * (60 * Second) + 0) / Second = n * 60) as ->.
  { rewrite Z.add_0_r, Z.mul_assoc. by apply Z.div_mul. }
  Z.div_mod_to_equations; lia.
Qed.

Lemma walk_fields w :
  walk_ok w → walk_minute w / 1440 = walk_day w ∧ walk_minute w mod 1440 / 60 = wh w ∧ walk_minute w mod 60 = wmi w.
Proof. unfold walk_ok, walk_minute. intros (_ & Hh & Hmi). Z.div_mod_to_equations; lia. Qed.

(** A minute of the walk's day. *)
Lemma matches_day c w n :
  walk_ok w → n / 1440 = walk_day w →
  matches c n = bool_decide (wm w ∈ cMonth c) && matchesDay c (wd w) (weekday (walk_day w)) &&
                bool_decide (n mod 1440 / 60 ∈ cHour c) && bool_decide (n mod 60 ∈ cMinute c).
Proof. intros (Hv & _) Hn. rewrite matchesDay_names. unfold matches. rewrite Hn. unfold walk_day. by rewrite civil_date. Qed.

(** One turn passes over no minute that matches. *)
Definition passes (c : Cron) (w w' : walk) : Prop :=
  walk_ok w' ∧ walk_minute w < walk_minute w' ∧ ∀ n, walk_minute w ≤ n < walk_minute w' → matches c n = false.

Lemma passes_day c w :
  walk_ok w → (∀ n, walk_minute w ≤ n < (walk_day w + 1) * 1440 → matches c n = false) →
  passes c w (at_midnight (nextDay (wy w) (wm w) (wd w))).
Proof.
  intros (Hv & Hh & Hmi) Hn. destruct (nextDay_spec _ _ _ Hv) as (y & m & d & -> & Hv' & Hd).
  unfold passes, walk_ok, walk_minute, walk_day, at_midnight in *. cbn [wy wm wd wh wmi fst snd]. rewrite Hd.
  split_and!; [done|lia..|]. intros n Hr. apply Hn. lia.
Qed.

Lemma passes_month c w :
  walk_ok w → wm w ∉ cMonth c → passes c w (at_midnight (nextMonth (wy w) (wm w))).
Proof.
  intros (Hv & Hh & Hmi) Hm. destruct (nextMonth_spec _ _ _ Hv) as (y & m & d & -> & Hv' & Hlt & Hall).
  unfold passes, walk_ok, walk_minute, walk_day, at_midnight in *. cbn [wy wm wd wh wmi fst snd].
  split_and!; [done|lia..|]. intros n Hr. unfold matches.
  destruct (Hall (n / 1440)) as [d'' ->]; [Z.div_mod_to_equations; lia|].
  by rewrite bool_decide_false.
Qed.

Lemma same_day w n : walk_ok w → walk_minute w ≤ n < (walk_day w + 1) * 1440 → n / 1440 = walk_day w.
Proof. unfold walk_ok, walk_minute. intros (_ & ? & ?) ?. Z.div_mod_to_equations; lia. Qed.

Lemma passes_stepMinute c w :
  walk_ok w → matches c (walk_minute w) = false → passes c w (stepMinute w).
Proof.
  intros Hok Hm. pose proof Hok as (Hv & Hh & Hmi). unfold stepMinute.
  destruct (Z.ltb_spec 59 (wmi w + 1)).
  - destruct (Z.ltb_spec 23 (wh w + 1)).
    + assert (passes c w (at_midnight (nextDay (wy w) (wm w) (wd w)))) as Hp.
      { apply passes_day; [done|]. intros n Hn. replace n with (walk_minute w); [done|]. unfold walk_minute in *. lia. }
      destruct (nextDay (wy w) (wm w) (wd w)) as [[y m] d]. exact Hp.
    + split_and!; [split_and!; cbn; [done|lia..]|unfold walk_minute, walk_day in *; cbn; lia|].
      intros n Hn. replace n with (walk_minute w); [done|]. unfold walk_minute, walk_day in *. cbn in Hn. lia.
  - rewrite (proj2 (Z.ltb_ge 23 (wh w))) by lia.
    split_and!; [split_and!; cbn; [done|lia..]|unfold walk_minute, walk_day in *; cbn; lia|].
    intros n Hn. replace n with (walk_minute w); [done|]. unfold walk_minute, walk_day in *. cbn in Hn. lia.
Qed.

Lemma passes_hour c w :
  walk_ok w → wh w ∉ cHour c → 
  passes c w (if 23 <? wh w + 1 then at_midnight (nextDay (wy w) (wm w) (wd w)) else mkWalk (wy w) (wm w) (wd w) (wh w + 1) 0).
Proof.
  intros Hok Hno. pose proof Hok as (Hv & Hh & Hmi).
  assert (∀ n, walk_minute w ≤ n < walk_day w * 1440 + (wh w + 1) * 60 → matches c n = false) as Hn.
  { intros n Hn. rewrite (matches_day c w) by (try apply same_day; try done; unfold walk_minute in *; lia).
    assert (n mod 1440 / 60 = wh w) as -> by (unfold walk_minute in *; Z.div_mod_to_equations; lia).
    rewrite (bool_decide_false (wh w ∈ _)) by done. by rewrite andb_false_r. }
  destruct (Z.ltb_spec 23 (wh w + 1)).
  - apply passes_day; [done|]. intros n Hr. apply Hn. lia.
  - split_and!; [split_and!; cbn; [done|lia..]|unfold walk_minute, walk_day in *; cbn; lia|].
    intros n Hr. apply Hn. unfold walk_minute, walk_day in *. cbn in Hr. lia.
Qed.

Lemma turn_UTC c after w :
  walk_ok w → after < walk_minute w * Minute →
  match next_turn c UTC after w with
  | inl fire => fire = walk_minute w * Minute ∧ matches c (walk_minute w) = true
  | inr w' => passes c w w'
  end.
Proof.
  intros Hok Hafter. pose proof (walk_fields w Hok) as (Hday & Hhour & Hmin). pose proof Hok as (Hv & Hh & Hmi).
  assert (matches c (walk_minute w) = bool_decide (wm w ∈ cMonth c) && matchesDay c (wd w) (weekday (walk_day w)) &&
            bool_decide (wh w ∈ cHour c) && bool_decide (wmi w ∈ cMinute c)) as Hmatch.
  { rewrite (matches_day c w) by done. by rewrite Hhour, Hmin. }
  unfold next_turn. case_bool_decide as Hmo; [|by apply passes_month]. cbn [negb].
  assert (wall_day UTC (Date UTC (wy w) (wm w) (wd w) 0 0) = walk_day w) as Hpd.
  { rewrite Date_UTC. destruct (wall_UTC (date_days (wy w) (wm w) (wd w) * 1440 + 0 * 60 + 0)) as (-> & _).
    unfold walk_day. Z.div_mod_to_equations; lia. }
  unfold wall_date. rewrite Hpd. unfold walk_day at 1. rewrite civil_date by done.
  rewrite !bool_decide_true by done. cbn [negb orb].
  destruct (matchesDay c (wd w) _) eqn:Emd; cbn [negb].
  2: { apply passes_day; [done|]. intros n Hn. rewrite (matches_day c w), Emd by (try apply same_day; done).
       by rewrite andb_false_r. }
  case_bool_decide as Hho; cbn [negb].
  2: { pose proof (passes_hour c w Hok Hho) as Hp. by destruct (23 <? wh w + 1). }
  case_bool_decide as Hmn; cbn [negb].
  2: { apply passes_stepMinute; [done|]. by rewrite Hmatch. }
  rewrite Date_UTC. change (date_days (wy w) (wm w) (wd w) * 1440 + wh w * 60 + wmi w) with (walk_minute w).
  destruct (wall_UTC (walk_minute w)) as (_ & -> & ->). rewrite Hhour, Hmin, !Z.eqb_refl. cbn [negb orb].
  unfold After. rewrite (proj2 (Z.ltb_lt _ _) Hafter). cbn [negb]. split; [done|].
  by rewrite Hmatch.
Qed.

Lemma loop_UTC fuel c after w :
  walk_ok w → after < walk_minute w * Minute →
  match next_loop fuel c UTC after w with
  | Some fire => ∃ n, fire = n * Minute ∧ walk_minute w ≤ n ∧ matches c n = true ∧
                      ∀ k, walk_minute w ≤ k < n → matches c k = false
  | None => ∀ k, walk_minute w ≤ k < walk_minute w + Z.of_nat fuel → matches c k = false
  end.
Proof.
  revert w. induction fuel as [|f IH]; intros w Hok Hafter; cbn [next_loop]; [lia|].
  pose proof (turn_UTC c after w Hok Hafter) as Ht. destruct (next_turn c UTC after w) as [fire|w'].
  - destruct Ht as [-> Hm]. exists (walk_minute w). split_and!; [done|lia|done|lia].
  - destruct Ht as (Hok' & Hlt & Hno).
    assert (0 < Minute) by done. specialize (IH w' Hok' ltac:(nia)).
    destruct (next_loop f c UTC after w') as [fire|].
    + destruct IH as (n & -> & Hn & Hm & Hbefore). exists n. split_and!; [done|lia|done|].
      intros k Hk. destruct (decide (k < walk_minute w')); [apply Hno|apply Hbefore]; lia.
    + intros k Hk. destruct (decide (k < walk_minute w')); [apply Hno|apply IH]; lia.
Qed.

Lemma first_walk_UTC after :
  walk_ok (first_walk UTC after) ∧ walk_minute (first_walk UTC after) = after / Minute + 1.
Proof.
  unfold first_walk. assert (Truncate after Minute + Minute = (after / Minute + 1) * Minute) as ->.
  { unfold Truncate. pose proof (Z.div_mod after Minute ltac:(done)). lia. }
  set (n := after / Minute + 1). destruct (wall_UTC n) as (Hd & Hh & Hm). unfold wall_date. rewrite Hd, Hh, Hm.
  destruct (civil_valid (n / 1440)) as (y & m & d & -> & Hv & Hdd).
  unfold walk_ok, walk_minute, walk_day. cbn [wy wm wd wh wmi]. rewrite Hdd. split; [split; [done|]|]; Z.div_mod_to_equations; lia.
Qed.

(** The minutes after the given time: what Next returns matches, is later, and no
    minute in between does; and it returns a time whenever some minute of the
    next five years matches. *)
Lemma next_after c after :
  Reboot c = false →
  (∀ fire, Next c UTC after = Some fire →
     ∃ n, fire = n * Minute ∧ after < fire ∧ matches c n = true ∧
          ∀ k, after < k * Minute < fire → matches c k = false) ∧
  (∀ k, matches c k = true → after < k * Minute ≤ after + 5 * 366 * 24 * Hour →
     ∃ fire, Next c UTC after = Some fire ∧ fire ≤ k * Minute).
Proof.
  intros Hr. unfold Next. rewrite Hr. destruct (first_walk_UTC after) as [Hok Hw].
  assert (0 < Minute) as HM by done. pose proof (Z.div_mod after Minute ltac:(lia)) as Hdm.
  pose proof (Z.mod_pos_bound after Minute HM) as Hmod.
  pose proof (loop_UTC limit c after (first_walk UTC after) Hok ltac:(rewrite Hw; nia)) as Hl. rewrite Hw in Hl.
  destruct (next_loop limit c UTC after (first_walk UTC after)) as [fire|].
  - destruct Hl as (n & -> & Hn & Hm & Hno). split.
    + intros ? [= <-]. exists n. split_and!; [done|nia|done|]. intros k Hk. apply Hno. nia.
    + intros k Hk Hr'. eexists. split; [done|]. destruct (decide (k < n)); [|nia]. rewrite Hno in Hk; [done|nia].
  - split; [done|]. intros k Hk Hr'. exfalso. rewrite Hl in Hk; [done|].
    assert (Z.of_nat limit = 5 * 366 * 24 * 60) as -> by (unfold limit; lia).
    unfold Hour in Hr'. nia.
Qed.

(** C36: In UTC the scheduler finds the first minute at or after the given time
    that the expression matches, if that time is not itself such a minute: what
    it returns matches, is not earlier, and no minute in between does; and it
    returns a time whenever some minute of the next five years matches, so a job
    that can run in that time is never lost.  From a time that is itself a
    matching minute the code goes on to the next one, where the comment of Next
    says that it stays: [next_from_a_match]. *)
Theorem next_is_the_first_match c after :
  Reboot c = false → (∀ n, after = n * Minute → matches c n = false) →
  (∀ fire, Next c UTC after = Some fire →
     ∃ n, fire = n * Minute ∧ after ≤ fire ∧ matches c n = true ∧
          ∀ k, after ≤ k * Minute < fire → matches c k = false) ∧
  (∀ k, matches c k = true → after ≤ k * Minute ≤ after + 5 * 366 * 24 * Hour →
     ∃ fire, Next c UTC after = Some fire ∧ fire ≤ k * Minute).
Proof.
  intros Hr Hno. destruct (next_after c after Hr) as [H1 H2]. split.
  - intros fire Hf. destruct (H1 fire Hf) as (n & -> & Hlt & Hm & Hall). exists n. split_and!; [done|lia|done|].
    intros k Hk. destruct (decide (after = k * Minute)) as [E|E]; [by apply Hno|apply Hall; lia].
  - intros k Hm Hk. apply H2; [done|]. destruct (decide (after = k * Minute)) as [E|E]; [by rewrite Hno in Hm|lia].
Qed.

(** *** In any time zone *)

(** What a fire time is in a zone: a wall-clock time the expression names, read
    back as itself, or the first minute past a wall-clock time the expression
    names that the zone skips. *)
Definition fires_for (c : Cron) (z : zone) (w : walk) (fire : Z) : Prop :=
  wm w ∈ cMonth c ∧ names_day c (wd w) (weekday (wall_day z (Date z (wy w) (wm w) (wd w) 0 0))) = true ∧
  wh w ∈ cHour c ∧ wmi w ∈ cMinute c ∧
  let t := Date z (wy w) (wm w) (wd w) (wh w) (wmi w) in
  if bool_decide (wall_hour z t = wh w ∧ wall_minute z t = wmi w) then fire = t
  else (wall_date z fire).2 = wd w ∧ wh w * 60 + wmi w < wall_hour z fire * 60 + wall_minute z fire.

Lemma transition_scan_spec fuel z d want cand t :
  transition_scan fuel z d want cand = Some t →
  (wall_date z t).2 = d ∧ want < wall_hour z t * 60 + wall_minute z t.
Proof.
  revert cand. induction fuel as [|f IH]; intros cand; cbn [transition_scan]; [done|].
  case_bool_decide as Hd; cbn [negb]; [|done].
  destruct (Z.ltb_spec want (wall_hour z cand * 60 + wall_minute z cand)); [by intros [= <-]|apply IH].
Qed.

Lemma transitionAfter_spec z w t :
  transitionAfter z w = Some t →
  (wall_date z t).2 = wd w ∧ wh w * 60 + wmi w < wall_hour z t * 60 + wall_minute z t.
Proof. unfold transitionAfter. generalize (Z.to_nat (24 * 60 + 1)). intros fuel. apply transition_scan_spec. Qed.

Lemma turn_fires c z after w fire : next_turn c z after w = inl fire → after < fire ∧ fires_for c z w fire.
Proof.
  unfold next_turn, fires_for. case_bool_decide; [|done]. cbn [negb].
  set (probe := Date z (wy w) (wm w) (wd w) 0 0). destruct (wall_date z probe) as [[py pm] pd].
  destruct (_ || _); [done|]. rewrite matchesDay_names. destruct (names_day _ _ _) eqn:Em; [|done]. cbn [negb].
  destruct (bool_decide_reflect (wh w ∈ cHour c)); cbn [negb]; [|by destruct (23 <? wh w + 1)].
  destruct (bool_decide_reflect (wmi w ∈ cMinute c)); [|done]. cbn [negb].
  set (t := Date z (wy w) (wm w) (wd w) (wh w) (wmi w)). unfold After.
  destruct (Z.eqb_spec (wall_hour z t) (wh w)) as [Hh|Hh]; cbn [negb orb].
  - destruct (Z.eqb_spec (wall_minute z t) (wmi w)) as [Hm|Hm]; cbn [negb].
    + destruct (Z.ltb_spec after t); [|done]. intros [= <-]. rewrite bool_decide_true by done. done.
    + destruct (transitionAfter z w) as [t'|] eqn:Et; [|done]. destruct (Z.ltb_spec after t'); [|done]. intros [= <-].
      rewrite bool_decide_false by tauto. by apply transitionAfter_spec in Et.
  - destruct (transitionAfter z w) as [t'|] eqn:Et; [|done]. destruct (Z.ltb_spec after t'); [|done]. intros [= <-].
    rewrite bool_decide_false by tauto. by apply transitionAfter_spec in Et.
Qed.

Lemma fire_later c z after fire :
  Next c z after = Some fire → Reboot c = false ∧ after < fire ∧ ∃ w, fires_for c z w fire.
Proof.
  unfold Next. destruct (Reboot c); [done|]. generalize (first_walk z after), limit. intros w fuel.
  revert w. induction fuel as [|f IH]; intros w; cbn [next_loop]; [done|].
  destruct (next_turn c z after w) as [t|w'] eqn:Et; [|apply IH].
  intros [= ->]. apply turn_fires in Et as [? ?]. split_and!; [done|done|by exists w].
Qed.

(** In any time zone a fire time is later than the time asked for, and is one
    the expression asks for: a wall-clock time of a matching date, or, for a
    wall-clock time that the zone skips, a minute of the same day past it. *)
Theorem next_fires_for_the_expression c z after fire :
  Next c z after = Some fire → Reboot c = false ∧ after < fire ∧ ∃ w, fires_for c z w fire.
Proof. apply fire_later. Qed.

(** ** Concrete expressions *)

Definition demo_cron (expr : string) : Cron :=
  match ParseCron expr with Some (inr c) => c | _ => mkCron ∅ ∅ ∅ ∅ ∅ false false true "" end.
Definition demo_next (expr : string) (z : zone) (after : Z) : option (Z * Z * Z * Z * Z) :=
  (λ t, (wall_date z t, wall_hour z t, wall_minute z t)) <$> Next (demo_cron expr) z after.

(** New York in 2026: forward at two in the morning of the eighth of March. *)
Definition new_york : zone := λ t, if t <? Date_utc 2026 3 8 7 0 0 0 then - 5 * Hour else - 4 * Hour.
(** Santiago in 2026: forward at midnight, from the fifth to the sixth of September. *)
Definition santiago : zone := λ t, if t <? Date_utc 2026 9 6 4 0 0 0 then - 4 * Hour else - 3 * Hour.

Example demo_fire_times :
  demo_next "0 0 1 * mon" UTC (Date_utc 2026 8 23 0 0 0 0) = Some (2026, 8, 24, 0, 0) ∧
  demo_next "0 0 29 2 *" UTC (Date_utc 2097 9 5 12 0 0 0) = Some (2104, 2, 29, 0, 0) ∧
  demo_next "30 2 * * *" new_york (Date_utc 2026 3 8 5 0 0 0) = Some (2026, 3, 8, 3, 0) ∧
  demo_next "@daily" UTC (Date_utc 2026 12 31 23 59 59 0) = Some (2027, 1, 1, 0, 0).
Proof. by vm_compute. Qed.

(** Where the clocks go forward at midnight, the day's midnight reads back as the
    evening before; the day is taken for one its month does not have and the
    rest of the month is passed over.  A daily job and a minutely one, asked
    about on the fifth and on the sixth of September, next run in October. *)
Example midnight_gap_skips_the_month :
  demo_next "0 3 * * *" santiago (Date_utc 2026 9 5 12 0 0 0) = Some (2026, 10, 1, 3, 0) ∧
  demo_next "* * * * *" santiago (Date_utc 2026 9 6 12 0 0 0) = Some (2026, 10, 1, 0, 0) ∧
  demo_next "0 3 * * *" santiago (Date_utc 2026 9 7 12 0 0 0) = Some (2026, 9, 8, 3, 0).
Proof. by vm_compute. Qed.

(** July and Wednesday cannot be named: the letters L and W are taken for
    extensions before the names are looked up. *)
Example july_and_wednesday_refused :
  ParseCron "0 0 1 jul *" = Some (inl (NotImplemented "0 0 1 jul *" "L")) ∧
  ParseCron "0 0 * * wed" = Some (inl (NotImplemented "0 0 * * wed" "W")) ∧
  lookup_lower "jul" monthNames = Some 7 ∧ lookup_lower "wed" weekdayNames = Some 3.
Proof. by vm_compute. Qed.

(** From 5 in the largest steps there are also 3 and 1. *)
Example huge_step_wraps :
  bool_decide (5 ∈ cMinute (demo_cron "5/9223372036854775807 0 * * *") ∧ 3 ∈ cMinute (demo_cron "5/9223372036854775807 0 * * *") ∧
               1 ∈ cMinute (demo_cron "5/9223372036854775807 0 * * *")) = true.
Proof. by vm_compute. Qed.

Lemma field_matches_its_items_witness :
  (15 ∈ cMinute (demo_cron "*/15,7 3-5 * * mon") ↔ ∃ part, part ∈ Split "*/15,7" "," ∧ item_says 0 59 [] part 15) ∧
  (15 ∈ cMinute (demo_cron "*/15,7 3-5 * * mon") → 0 ≤ 15 ≤ 59).
Proof.
  apply (field_matches_its_items "*/15,7" 0 59 []); [constructor|lia|lia|lia| |vm_compute; reflexivity].
  repeat constructor; intros step rest E; vm_compute in E; injection E as <- _; vm_compute; discriminate.
Defined.

Lemma next_is_the_first_match_witness :
  ∃ fire, Next (demo_cron "0 0 1 * mon") UTC (Date_utc 2026 8 23 0 0 0 0) = Some fire ∧
          fire ≤ (date_days 2026 8 24 * 1440) * Minute.
Proof.
  apply (next_is_the_first_match (demo_cron "0 0 1 * mon") (Date_utc 2026 8 23 0 0 0 0)).
  - vm_compute. reflexivity.
  - intros n Hn. assert (Date_utc 2026 8 23 0 0 0 0 = date_days 2026 8 23 * 1440 * Minute) as E by (vm_compute; reflexivity).
    rewrite E in Hn. assert (n = date_days 2026 8 23 * 1440) as -> by (apply (Z.mul_reg_r _ _ Minute); [discriminate|exact (eq_sym Hn)]). vm_compute. reflexivity.
  - vm_compute. reflexivity.
  - split; vm_compute; discriminate.
Defined.

Lemma next_fires_for_the_expression_witness :
  ∃ w, fires_for (demo_cron "30 2 * * *") new_york w (Date_utc 2026 3 8 7 0 0 0).
Proof.
  apply (next_fires_for_the_expression (demo_cron "30 2 * * *") new_york (Date_utc 2026 3 8 5 0 0 0)).
  vm_compute. reflexivity.
Defined.

(** From a minute that matches, Next goes on to the next one. *)
Example next_from_a_match :
  matches (demo_cron "0 0 * * *") (date_days 2026 8 23 * 1440) = true ∧
  Next (demo_cron "0 0 * * *") UTC (date_days 2026 8 23 * 1440 * Minute) = Some (date_days 2026 8 24 * 1440 * Minute).
Proof. by vm_compute. Qed.
