(* ===== verification/Schedule.v ===== *)
(** * The node's scheduler

    Models src/internal/schedule: when a job runs next (Next, nextCandidate and
    blocked of schedule.go), its splay, and the engine of engine.go and
    control.go: which jobs are due, how many of each are running, and the
    changes an operator makes while it runs.  Reading a definition from its
    configuration is not modelled; a job here is one that was read.

    The engine's goroutines are the runs in flight: a run that was claimed is
    in [inflight] until it is released.  Times are instants and durations
    nanoseconds, added at their width. *)

From S2P Require Import Prelude GoLib GoTime Value Cron.

Open Scope Z_scope.

(** ** Jobs *)

Record SJob := mkSJob {
  sjName : string; sjFunction : string; sjArgs : list string; sjKwargs : option Map;
  sjCron : option Cron; Interval : Z; When : list Z; Once : Z;
  sjAfter : Z; Until : Z; RangeStart : Z; RangeEnd : Z; RangeInvert : bool;
  SkipStart : Z; SkipEnd : Z; SkipExplicit : list Z;
  Splay : Z; SplayStart : Z; MaxRunning : Z; ReturnJob : bool; RunOnStart : bool; Catchup : bool;
  Enabled : bool; Offset : Z; Metadata : option Map; Location : zone; LastRun : Z }.

Definition set_last (j : SJob) (t : Z) : SJob :=
  mkSJob (sjName j) (sjFunction j) (sjArgs j) (sjKwargs j) (sjCron j) (Interval j) (When j) (Once j)
    (sjAfter j) (Until j) (RangeStart j) (RangeEnd j) (RangeInvert j) (SkipStart j) (SkipEnd j) (SkipExplicit j)
    (Splay j) (SplayStart j) (MaxRunning j) (ReturnJob j) (RunOnStart j) (Catchup j) (Enabled j) (Offset j)
    (Metadata j) (Location j) t.
Definition set_enabled (j : SJob) (on : bool) : SJob :=
  mkSJob (sjName j) (sjFunction j) (sjArgs j) (sjKwargs j) (sjCron j) (Interval j) (When j) (Once j)
    (sjAfter j) (Until j) (RangeStart j) (RangeEnd j) (RangeInvert j) (SkipStart j) (SkipEnd j) (SkipExplicit j)
    (Splay j) (SplayStart j) (MaxRunning j) (ReturnJob j) (RunOnStart j) (Catchup j) on (Offset j)
    (Metadata j) (Location j) (LastRun j).

(** ** When a job runs next *)

Definition nextCandidate (j : SJob) (after : Z) : option Z :=
  match sjCron j with
  | Some c => if Reboot c then None else Cron.Next c (Location j) after
  | None =>
      if negb (IsZero (Once j)) then (if After (Once j) after then Some (Once j) else None)
      else match When j with
      | _ :: _ => snd <$> list_find (λ t, After t after = true) (When j)
      | [] =>
          if 0 <? Interval j then
            let from := if IsZero (LastRun j) || Before (LastRun j) after then after else LastRun j in
            Some (from + Interval j)
          else None
      end
  end.

Definition inside (start stop t : Z) : bool := negb (Before t start) && negb (After t stop).

Definition blocked (j : SJob) (t : Z) : bool :=
  (negb (IsZero (RangeStart j)) && negb (IsZero (RangeEnd j)) &&
     Bool.eqb (inside (RangeStart j) (RangeEnd j) t) (RangeInvert j)) ||
  (negb (IsZero (SkipStart j)) && negb (IsZero (SkipEnd j)) && inside (SkipStart j) (SkipEnd j) t) ||
  existsb (λ skip, t =? skip) (SkipExplicit j).

Fixpoint next_bounded (fuel : nat) (j : SJob) (candidate : Z) : option Z :=
  match fuel with
  | O => None
  | S f =>
      match nextCandidate j candidate with
      | None => None
      | Some next =>
          let next := if Offset j =? 0 then next else next + Offset j in
          if negb (IsZero (Until j)) && After next (Until j) then None
          else if negb (IsZero (sjAfter j)) && Before next (sjAfter j) then next_bounded f j (sjAfter j - Nanosecond)
          else if blocked j next then next_bounded f j next
          else Some next
      end
  end.

Definition Next (j : SJob) (now : Z) : option Z := if Enabled j then next_bounded 4096 j now else None.

(** The splay, over a source of numbers below its argument. *)
Definition SplayFor (j : SJob) (rand : Z → Z) : Z :=
  if Splay j <=? 0 then 0
  else
    let '(low, high) := if Splay j <=? SplayStart j then (0, Splay j) else (SplayStart j, Splay j) in
    let span := wrap64 (high - low) in
    if span <=? 0 then low else wrap64 (low + wrap64 (rand span)).

(** Eight bytes of randomness, read as a number of 64 bits; nothing when they
    could not be read. *)
Definition random (bytes8 : option Z) (n : Z) : Z :=
  if n <=? 0 then 0
  else match bytes8 with
       | None => 0
       | Some x => Z.shiftr x 1 mod n
       end.

(** ** The engine *)

Record SRun := mkSRun { rJob : SJob; Fire : Z }.

Record Engine := mkEngine {
  eJobs : list SJob; running : gmap string Z; due : gmap string Z; paused : bool;
  inflight : list SRun }.

Definition set_jobs (l : list SJob) (e : Engine) : Engine := mkEngine l (running e) (due e) (paused e) (inflight e).
Definition set_due (d : gmap string Z) (e : Engine) : Engine := mkEngine (eJobs e) (running e) d (paused e) (inflight e).

Definition running_of (e : Engine) (name : string) : Z := default 0 (running e !! name).

(** claim takes one of the job's slots. *)
Definition claim (j : SJob) (e : Engine) : bool * Engine :=
  if MaxRunning j <=? running_of e (sjName j) then (false, e)
  else (true, mkEngine (eJobs e) (<[sjName j := running_of e (sjName j) + 1]> (running e)) (due e) (paused e) (inflight e)).

Definition release (j : SJob) (e : Engine) : Engine :=
  if 0 <? running_of e (sjName j) then
    mkEngine (eJobs e) (<[sjName j := running_of e (sjName j) - 1]> (running e)) (due e) (paused e) (inflight e)
  else e.

(** start: a run that is claimed goes off on its own. *)
Definition start (r : SRun) (e : Engine) : Engine :=
  let '(ok, e) := claim (rJob r) e in
  if ok : bool then mkEngine (eJobs e) (running e) (due e) (paused e) (inflight e ++ [r]) else e.

(** A run ends, at whatever point: its deferred release. *)
Definition finish (i : nat) (e : Engine) : Engine :=
  match inflight e !! i with
  | None => e
  | Some r =>
      let e := release (rJob r) e in
      mkEngine (eJobs e) (running e) (due e) (paused e) (delete i (inflight e))
  end.

Definition start_all (rs : list SRun) (e : Engine) : Engine := foldl (λ e r, start r e) e rs.

Definition mark (name : string) (next : option Z) (d : gmap string Z) : gmap string Z :=
  match next with Some at_ => <[name := at_]> d | None => d end.
Definition mark_or_delete (name : string) (next : option Z) (d : gmap string Z) : gmap string Z :=
  match next with Some at_ => <[name := at_]> d | None => delete name d end.

(** What Run starts for one job when the engine starts. *)
Definition startup_runs (j : SJob) (now : Z) : list SRun :=
  (if RunOnStart j || match sjCron j with Some c => Reboot c | None => false end then [mkSRun j now] else []) ++
  (if Catchup j && negb (IsZero (LastRun j)) then
     match Next j (LastRun j) with
     | Some missed => if Before missed now then [mkSRun j missed] else []
     | None => []
     end
   else []).

Definition startup_job (now : Z) (e : Engine) (j : SJob) : Engine :=
  if negb (Enabled j) then e
  else let e := start_all (startup_runs j now) e in set_due (mark (sjName j) (Next j now) (due e)) e.

(** Run, up to its ticker: the counts start at nothing. *)
Definition Run (now : Z) (e : Engine) : Engine :=
  foldl (startup_job now) (mkEngine (eJobs e) ∅ (due e) (paused e) (inflight e)) (eJobs e).

(** The pass over the jobs: those that are ready, the jobs and the due times. *)
Fixpoint due_pass (now : Z) (jobs : list SJob) (d : gmap string Z) : list SRun * list SJob * gmap string Z :=
  match jobs with
  | [] => ([], [], d)
  | j :: jobs' =>
      match d !! sjName j with
      | Some at_ =>
          if negb (Before now at_) && Enabled j then
            let j' := set_last j now in
            let '(ready, js, d') := due_pass now jobs' (mark_or_delete (sjName j) (Next j' now) d) in
            (mkSRun j' at_ :: ready, j' :: js, d')
          else let '(ready, js, d') := due_pass now jobs' d in (ready, j :: js, d')
      | None => let '(ready, js, d') := due_pass now jobs' d in (ready, j :: js, d')
      end
  end.

Definition runDue (now : Z) (e : Engine) : Engine :=
  if paused e then e
  else
    let '(ready, js, d) := due_pass now (eJobs e) (due e) in
    start_all ready (mkEngine js (running e) d (paused e) (inflight e)).

(** ** Changes while it runs (control.go) *)

Inductive control_error := NoName | AlreadyScheduled | NotScheduled.

(** The definition has been read: [j]. *)
Definition Add (now : Z) (j : SJob) (e : Engine) : option control_error * Engine :=
  if bool_decide (sjName j = "") then (Some NoName, e)
  else if existsb (λ x, bool_decide (sjName x = sjName j)) (eJobs e) then (Some AlreadyScheduled, e)
  else (None, set_due (mark (sjName j) (Next j now) (due e)) (set_jobs (eJobs e ++ [j]) e)).

(** [said] is whether the definition mentions `enabled`. *)
Fixpoint modify_jobs (now : Z) (j : SJob) (said : bool) (jobs : list SJob) : option (SJob * list SJob) :=
  match jobs with
  | [] => None
  | x :: jobs' =>
      if bool_decide (sjName x = sjName j) then
        let j := if said then j else set_enabled j (Enabled x) in
        let j := set_last j (LastRun x) in Some (j, j :: jobs')
      else match modify_jobs now j said jobs' with Some (j', js) => Some (j', x :: js) | None => None end
  end.

Definition Modify (now : Z) (j : SJob) (said : bool) (e : Engine) : option control_error * Engine :=
  match modify_jobs now j said (eJobs e) with
  | Some (j', js) => (None, set_due (mark_or_delete (sjName j) (Next j' now) (due e)) (set_jobs js e))
  | None => (Some NotScheduled, e)
  end.

Fixpoint delete_job (name : string) (jobs : list SJob) : option (list SJob) :=
  match jobs with
  | [] => None
  | x :: jobs' => if bool_decide (sjName x = name) then Some jobs' else cons x <$> delete_job name jobs'
  end.

Definition Delete (name : string) (e : Engine) : option control_error * Engine :=
  match delete_job name (eJobs e) with
  | Some js => (None, set_due (delete name (due e)) (set_jobs js e))
  | None => (Some NotScheduled, e)
  end.

Fixpoint enable_job (name : string) (on : bool) (jobs : list SJob) : option (SJob * list SJob) :=
  match jobs with
  | [] => None
  | x :: jobs' =>
      if bool_decide (sjName x = name) then Some (set_enabled x on, set_enabled x on :: jobs')
      else match enable_job name on jobs' with Some (j, js) => Some (j, x :: js) | None => None end
  end.

Definition SetEnabled (now : Z) (name : string) (on : bool) (e : Engine) : option control_error * Engine :=
  if bool_decide (name = "") then (None, mkEngine (eJobs e) (running e) (due e) (negb on) (inflight e))
  else match enable_job name on (eJobs e) with
  | Some (j, js) =>
      (None, set_due (mark_or_delete name (if on then Next j now else None) (due e)) (set_jobs js e))
  | None => (Some NotScheduled, e)
  end.

(** The last definition of a name decides what is carried over. *)
Definition previous (jobs : list SJob) : gmap string Z := foldl (λ m j, <[sjName j := LastRun j]> m) ∅ jobs.

Definition Replace (now : Z) (jobs : list SJob) (e : Engine) : Engine :=
  let prev := previous (eJobs e) in
  let jobs := (λ j, match prev !! sjName j with Some last => set_last j last | None => j end) <$> jobs in
  set_due (foldl (λ d j, mark (sjName j) (Next j now) d) ∅ jobs) (set_jobs jobs e).

Definition find_job (name : string) (e : Engine) : option SJob :=
  snd <$> list_find (λ j, sjName j = name) (eJobs e).

(** RunJob runs the job on the caller's thread, and claims nothing. *)
Definition RunJob (now : Z) (name : string) (e : Engine) : control_error + SRun :=
  match find_job name e with Some j => inr (mkSRun j now) | None => inl NotScheduled end.

Definition NextFireTime (now : Z) (name : string) (e : Engine) : control_error + option Z :=
  match find_job name e with
  | Some j => inr (if paused e then None else Next j now)
  | None => inl NotScheduled
  end.

Inductive sevent :=
| STick (now : Z)
| SFinish (i : nat)
| SAdd (now : Z) (j : SJob)
| SModify (now : Z) (j : SJob) (said : bool)
| SDelete (name : string)
| SEnable (now : Z) (name : string) (on : bool)
| SReplace (now : Z) (jobs : list SJob).

Definition sstep (ev : sevent) (e : Engine) : Engine :=
  match ev with
  | STick now => runDue now e
  | SFinish i => finish i e
  | SAdd now j => (Add now j e).2
  | SModify now j said => (Modify now j said e).2
  | SDelete name => (Delete name e).2
  | SEnable now name on => (SetEnabled now name on e).2
  | SReplace now jobs => Replace now jobs e
  end.

Definition srun (evs : list sevent) (e : Engine) : Engine := foldl (λ e ev, sstep ev e) e evs.

(** ** Next keeps to the bounds *)

Lemma candidate_later j after t : nextCandidate j after = Some t → after < t.
Proof.
  unfold nextCandidate. destruct (sjCron j) as [c|].
  - destruct (Reboot c); [done|]. by intros (_ & ? & _)%fire_later.
  - destruct (IsZero (Once j)); cbn [negb].
    + destruct (When j) as [|w ws].
      * destruct (Z.ltb_spec 0 (Interval j)); [|done]. intros [= <-]. unfold Before, IsZero.
        destruct (Z.eqb_spec (LastRun j) 0), (Z.ltb_spec (LastRun j) after); simpl; lia.
      * destruct (list_find _ (w :: ws)) as [[i x]|] eqn:E; [|done]. intros [= <-].
        apply list_find_Some in E as (_ & Hx & _). unfold After in Hx. simpl. lia.
    + unfold After. destruct (Z.ltb_spec after (Once j)); [|done]. intros [= <-]. done.
Qed.

Lemma next_bounded_spec fuel j now t :
  next_bounded fuel j now = Some t →
  (Until j ≠ 0 → t ≤ Until j) ∧ (sjAfter j ≠ 0 → sjAfter j ≤ t) ∧ blocked j t = false ∧ (0 ≤ Offset j → now < t).
Proof.
  revert now. induction fuel as [|f IH]; intros now; cbn [next_bounded]; [done|].
  destruct (nextCandidate j now) as [next|] eqn:Ec; [|done]. apply candidate_later in Ec.
  set (next' := if Offset j =? 0 then next else next + Offset j).
  assert (0 ≤ Offset j → now < next') as Hlater by (subst next'; destruct (Z.eqb_spec (Offset j) 0); lia).
  clearbody next'. unfold IsZero, After, Before, Nanosecond.
  destruct (Z.eqb_spec (Until j) 0), (Z.ltb_spec (Until j) next'); simpl; try done;
    destruct (Z.eqb_spec (sjAfter j) 0), (Z.ltb_spec next' (sjAfter j)); simpl;
    try (intros E; apply IH in E as (? & ? & ? & ?); split_and!; try done; lia);
    (destruct (blocked j next') eqn:Eb;
      [intros E; apply IH in E as (? & ? & ? & ?); split_and!; try done; lia|intros [= <-]; split_and!; try done; lia]).
Qed.

(** The time a job is given is one its definition allows: not past `until`,
    not before `after`, inside its range and outside what it skips, and, unless
    an offset moves it back, later than the time asked about. *)
Theorem next_within_bounds j now t :
  Next j now = Some t →
  Enabled j = true ∧ (Until j ≠ 0 → t ≤ Until j) ∧ (sjAfter j ≠ 0 → sjAfter j ≤ t) ∧ blocked j t = false ∧
  (0 ≤ Offset j → now < t).
Proof. unfold Next. destruct (Enabled j); [|done]. generalize 4096%nat. intros fuel E%next_bounded_spec. by split. Qed.

(** A firing waits less than the splay, and no less than the start of its
    range. *)
Theorem splay_in_range j rand :
  0 ≤ SplayStart j → Splay j ≤ maxInt64 → (∀ n, 0 < n → 0 ≤ rand n < n) →
  let s := SplayFor j rand in
  0 ≤ s ∧ (0 < Splay j → s < Splay j) ∧ (SplayStart j < Splay j → SplayStart j ≤ s).
Proof.
  intros Hs Hm Hr. unfold SplayFor. destruct (Z.leb_spec (Splay j) 0); [cbn; lia|].
  assert (∀ low, 0 ≤ low < Splay j → let s := if wrap64 (Splay j - low) <=? 0 then low
            else wrap64 (low + wrap64 (rand (wrap64 (Splay j - low)))) in low ≤ s < Splay j) as Hlow.
  { intros low Hl. cbn zeta. rewrite (wrap64_small (Splay j - low)) by (unfold minInt64, maxInt64 in *; lia).
    destruct (Z.leb_spec (Splay j - low) 0); [lia|]. pose proof (Hr (Splay j - low) ltac:(lia)) as Hb.
    rewrite (wrap64_small (rand _)) by (unfold minInt64, maxInt64 in *; lia).
    rewrite wrap64_small by (unfold minInt64, maxInt64 in *; lia). lia. }
  destruct (Z.leb_spec (Splay j) (SplayStart j)); cbn zeta;
    [specialize (Hlow 0 ltac:(lia))|specialize (Hlow (SplayStart j) ltac:(lia))]; cbn zeta in Hlow; lia.
Qed.

(** ** No more than maxrunning at a time *)

Definition flying (name : string) (e : Engine) : Z :=
  Z.of_nat (length (filter (λ r, sjName (rJob r) = name) (inflight e))).

(** The counts are those of the runs in flight, and the jobs of a name allow at
    most [m]. *)
Definition counted (e : Engine) : Prop := ∀ name, running_of e name = flying name e.
Definition allows (name : string) (m : Z) (j : SJob) : Prop := sjName j = name → MaxRunning j ≤ m.
Definition capped (name : string) (m : Z) (e : Engine) : Prop :=
  counted e ∧ flying name e ≤ m ∧ Forall (allows name m) (eJobs e).

Lemma flying_snoc name js rn d p l r :
  flying name (mkEngine js rn d p (l ++ [r])) =
  Z.of_nat (length (filter (λ r, sjName (rJob r) = name) l)) + (if bool_decide (sjName (rJob r) = name) then 1 else 0).
Proof.
  unfold flying. cbn [inflight]. rewrite filter_app, length_app, filter_cons, filter_nil.
  case_decide; case_bool_decide; try done; cbn [length]; lia.
Qed.

Lemma start_spec name m r e :
  capped name m e → allows name m (rJob r) → capped name m (start r e) ∧ eJobs (start r e) = eJobs e ∧ due (start r e) = due e.
Proof.
  intros (Hc & Hf & Hj) Ha. unfold start, claim. destruct (Z.leb_spec (MaxRunning (rJob r)) (running_of e (sjName (rJob r)))) as [|Hlt];
    [done|]. cbn [eJobs running due paused inflight]. split_and!; [|done|done]. split_and!; [|clear Hj|done].
  - intros k. rewrite flying_snoc. unfold running_of at 1. cbn [running]. specialize (Hc k) as Hk.
    case_bool_decide as E; [subst k; rewrite lookup_insert_eq; cbn [from_option id]; by rewrite Hc|].
    rewrite lookup_insert_ne by done. change (default 0 (running e !! k)) with (running_of e k). unfold flying in Hk. lia.
  - rewrite flying_snoc. rewrite Hc in Hlt. case_bool_decide as E; [specialize (Ha E); rewrite E in Hlt|]; unfold flying in *; lia.
Qed.

Lemma start_all_spec name m rs e :
  capped name m e → Forall (λ r, allows name m (rJob r)) rs →
  capped name m (start_all rs e) ∧ eJobs (start_all rs e) = eJobs e ∧ due (start_all rs e) = due e.
Proof.
  intros He Hr. revert e He. induction Hr as [|r rs Hr Hrs IH]; intros e He; [done|].
  change (start_all (r :: rs) e) with (start_all rs (start r e)).
  destruct (start_spec name m r e He Hr) as (He' & Hj & Hd). destruct (IH _ He') as (? & -> & ->). by rewrite Hj, Hd.
Qed.

Lemma finish_capped name m i e : capped name m e → capped name m (finish i e).
Proof.
  intros (Hc & Hf & Hj). unfold finish. destruct (inflight e !! i) as [r|] eqn:Ei; [|done].
  assert (∀ k, flying k e = (if bool_decide (sjName (rJob r) = k) then 1 else 0) +
    Z.of_nat (length (filter (λ r, sjName (rJob r) = k) (delete i (inflight e))))) as Hdel.
  { intros k. unfold flying. rewrite <- (take_drop_middle (inflight e) i r Ei) at 1. rewrite delete_take_drop, !filter_app, !length_app.
    rewrite filter_cons. repeat case_decide; case_bool_decide; try done; cbn [length]; lia. }
  unfold release. pose proof (Hc (sjName (rJob r))) as Hr. rewrite (Hdel (sjName (rJob r))), bool_decide_true in Hr by done.
  rewrite (proj2 (Z.ltb_lt _ _)) by lia. cbn [eJobs running due paused inflight].
  split_and!; [|rewrite Hdel in Hf; unfold flying; cbn [inflight]; case_bool_decide; lia|done].
  intros k. specialize (Hc k). rewrite Hdel in Hc. unfold flying. cbn [inflight]. unfold running_of in *. cbn [running].
  case_bool_decide as E; [subst k; rewrite lookup_insert_eq; cbn; lia|rewrite lookup_insert_ne by done; lia].
Qed.

Lemma due_pass_allows name m now jobs d :
  Forall (allows name m) jobs →
  let '(ready, js, _) := due_pass now jobs d in
  Forall (λ r, allows name m (rJob r)) ready ∧ Forall (allows name m) js.
Proof.
  intros Hj. revert d. induction Hj as [|j jobs Hj Hjs IH]; intros d; cbn [due_pass]; [done|].
  assert (∀ d', let '(ready, js, d'') := (let '(ready, js, d'') := due_pass now jobs d' in (ready, j :: js, d'')) in
    Forall (λ r, allows name m (rJob r)) ready ∧ Forall (allows name m) js) as Hskip.
  { intros d'. specialize (IH d'). destruct (due_pass now jobs d') as [[ready js] d'']. destruct IH. split; [done|by constructor]. }
  destruct (d !! sjName j) as [at_|]; [|apply Hskip]. destruct (negb (Before now at_) && Enabled j); [|apply Hskip].
  specialize (IH (mark_or_delete (sjName j) (Next (set_last j now) now) d)).
  destruct (due_pass now jobs _) as [[ready js] d'']. destruct IH. split; by constructor.
Qed.

Definition event_allows (name : string) (m : Z) (ev : sevent) : Prop :=
  match ev with
  | SAdd _ j | SModify _ j _ => allows name m j
  | SReplace _ jobs => Forall (allows name m) jobs
  | _ => True
  end.

Lemma modify_allows name m now j said jobs j' js :
  Forall (allows name m) jobs → allows name m j → modify_jobs now j said jobs = Some (j', js) → Forall (allows name m) js.
Proof.
  intros Hjs Hj. revert j' js. induction Hjs as [|x jobs Hx Hjs IH]; intros j' js; cbn [modify_jobs]; [done|].
  case_bool_decide; [intros [= <- <-]; constructor; [by destruct said|done]|].
  destruct (modify_jobs now j said jobs) as [[j1 js1]|]; [|done]. intros [= <- <-]. constructor; [done|by eapply IH].
Qed.

Lemma enable_allows name m n on jobs j js :
  Forall (allows name m) jobs → enable_job n on jobs = Some (j, js) → Forall (allows name m) js.
Proof.
  intros Hjs. revert j js. induction Hjs as [|x jobs Hx Hjs IH]; intros j js; cbn [enable_job]; [done|].
  case_bool_decide; [by intros [= <- <-]; constructor|].
  destruct (enable_job n on jobs) as [[j1 js1]|]; [|done]. intros [= <- <-]. constructor; [done|by eapply IH].
Qed.

Lemma delete_allows name m n jobs js :
  Forall (allows name m) jobs → delete_job n jobs = Some js → Forall (allows name m) js.
Proof.
  intros Hjs. revert js. induction Hjs as [|x jobs Hx Hjs IH]; intros js; cbn [delete_job]; [done|].
  case_bool_decide; [by intros [= <-]|]. destruct (delete_job n jobs); [|done]. intros [= <-]. constructor; [done|by apply IH].
Qed.

Lemma step_capped name m ev e : event_allows name m ev → capped name m e → capped name m (sstep ev e).
Proof.
  intros Hev He. pose proof He as (Hc & Hf & Hj). destruct ev as [now|i|now j|now j said|n|now n on|now jobs]; cbn [sstep].
  - unfold runDue. destruct (paused e); [done|]. pose proof (due_pass_allows name m now (eJobs e) (due e) Hj) as Hd.
    destruct (due_pass now (eJobs e) (due e)) as [[ready js] d]. destruct Hd as [Hr Hjs].
    by apply start_all_spec.
  - by apply finish_capped.
  - unfold Add. case_bool_decide; [done|]. destruct (existsb _ _); [done|]. split_and!; [done|done|].
    apply Forall_app. split; [done|]. by constructor.
  - unfold Modify. destruct (modify_jobs now j said (eJobs e)) as [[j' js]|] eqn:E; [|done].
    split_and!; [done|done|]. by eapply modify_allows.
  - unfold Delete. destruct (delete_job n (eJobs e)) as [js|] eqn:E; [|done]. split_and!; [done|done|]. by eapply delete_allows.
  - unfold SetEnabled. case_bool_decide; [done|]. destruct (enable_job n on (eJobs e)) as [[j js]|] eqn:E; [|done].
    split_and!; [done|done|]. by eapply enable_allows.
  - split_and!; [done|done|]. cbn. apply Forall_fmap. eapply Forall_impl; [exact Hev|]. intros j Hj'. cbn.
    by destruct (previous (eJobs e) !! sjName j).
Qed.

Lemma startup_capped name m now e : inflight e = [] → 0 ≤ m → Forall (allows name m) (eJobs e) → capped name m (Run now e).
Proof.
  intros Hi Hm Hj. unfold Run. set (e0 := mkEngine _ _ _ _ _).
  assert (capped name m e0) as He.
  { subst e0. split_and!; [|unfold flying; cbn; rewrite Hi; cbn; lia|done].
    intros k. unfold running_of, flying. cbn. by rewrite lookup_empty, Hi. }
  clearbody e0. clear Hi. revert e0 He. induction Hj as [|j jobs Hj Hjs IH]; intros e0 He; [done|]. cbn [foldl]. apply IH.
  unfold startup_job. destruct (Enabled j); [|done]. cbn [negb].
  destruct (start_all_spec name m (startup_runs j now) e0 He) as (Hs & _ & _).
  { unfold startup_runs. apply Forall_app. split; [by destruct (_ || _); repeat constructor|].
    destruct (_ && _); [|constructor]. destruct (Next j (LastRun j)); [|constructor]. destruct (Before _ now); by repeat constructor. }
  by destruct Hs as (? & ? & ?).
Qed.

(** However the schedule is driven, started, ticked, changed, reloaded, its
    runs ending in any order, no more runs of a name are in flight at once than
    its definitions allow; and the engine's count of them is exact. *)
Theorem maxrunning_holds name m now e evs :
  inflight e = [] → 0 ≤ m → Forall (allows name m) (eJobs e) → Forall (event_allows name m) evs →
  let e' := srun evs (Run now e) in flying name e' ≤ m ∧ running_of e' name = flying name e'.
Proof.
  intros Hi Hm Hj Hev. assert (capped name m (srun evs (Run now e))) as (Hc & Hf & _); [|by split].
  pose proof (startup_capped name m now e Hi Hm Hj) as He. revert He. generalize (Run now e).
  induction Hev as [|ev evs Hev Hevs IH]; intros e1 He; [done|]. apply (IH (sstep ev e1)). by apply step_capped.
Qed.

(** ** What a tick runs *)

(** The time a job fell due, if it has. *)
Definition fell_due (now : Z) (d : gmap string Z) (j : SJob) : option Z :=
  at_ ← d !! sjName j; if negb (Before now at_) && Enabled j then Some at_ else None.

(** A pass over [d1] has done what the due times [d] say. *)
Definition passed (now : Z) (jobs : list SJob) (d d1 : gmap string Z) : Prop :=
  let '(ready, js, d') := due_pass now jobs d1 in
  ready = omap (λ j, mkSRun (set_last j now) <$> fell_due now d j) jobs ∧
  js = (λ j, match fell_due now d j with Some _ => set_last j now | None => j end) <$> jobs ∧
  (∀ j, j ∈ jobs → d' !! sjName j =
     match fell_due now d j with Some _ => Next (set_last j now) now | None => d !! sjName j end) ∧
  (∀ n, n ∉ sjName <$> jobs → d' !! n = d1 !! n).

Lemma passed_ext now jobs d d1 :
  (∀ n, n ∈ sjName <$> jobs → d1 !! n = d !! n) → passed now jobs d1 d1 → passed now jobs d d1.
Proof.
  intros Hsame. unfold passed. destruct (due_pass now jobs d1) as [[ready js] d']. intros (-> & -> & Hd & Hn).
  assert (∀ i, i ∈ jobs → d1 !! sjName i = d !! sjName i) as Hs.
  { intros i Hi. apply Hsame. by apply (list_elem_of_fmap_2 sjName). }
  assert (∀ i, i ∈ jobs → fell_due now d1 i = fell_due now d i) as Hf.
  { intros i Hi. unfold fell_due. by rewrite Hs. }
  clear Hsame. split_and!; [| | |done].
  - clear -Hf. induction jobs as [|i jobs IH]; [done|]. cbn [omap list_omap]. rewrite Hf by (by left).
    rewrite IH; [done|]. intros k Hk. apply Hf. by right.
  - apply list_fmap_ext. intros k i Hi. rewrite Hf; [done|]. by eapply list_elem_of_lookup_2.
  - intros i Hi. by rewrite Hd, Hf, Hs.
Qed.

Lemma lookup_mark_or_delete n next (d : gmap string Z) : mark_or_delete n next d !! n = next.
Proof. unfold mark_or_delete. by destruct next; [rewrite lookup_insert_eq|rewrite lookup_delete_eq]. Qed.
Lemma lookup_mark_or_delete_ne n k next (d : gmap string Z) : n ≠ k → mark_or_delete n next d !! k = d !! k.
Proof. intros. unfold mark_or_delete. by destruct next; [rewrite lookup_insert_ne|rewrite lookup_delete_ne]. Qed.

Lemma due_pass_cons now j jobs d :
  due_pass now (j :: jobs) d =
  let d1 := match fell_due now d j with Some _ => mark_or_delete (sjName j) (Next (set_last j now) now) d | None => d end in
  let '(ready, js, d') := due_pass now jobs d1 in
  (omap (λ j, mkSRun (set_last j now) <$> fell_due now d j) [j] ++ ready,
   match fell_due now d j with Some _ => set_last j now | None => j end :: js, d').
Proof.
  cbn [due_pass omap list_omap]. unfold fell_due. destruct (d !! sjName j) as [a|]; [|done]. cbn [mbind option_bind].
  destruct (negb (Before now a) && Enabled j); cbn; by destruct (due_pass now jobs _) as [[ready js] d'].
Qed.

Lemma due_pass_spec now jobs d : NoDup (sjName <$> jobs) → passed now jobs d d.
Proof.
  revert d. induction jobs as [|j jobs IH]; intros d Hnd; [by split_and!; try done; intros ? ?%elem_of_nil|].
  apply NoDup_cons in Hnd as [Hj Hnd]. unfold passed. rewrite due_pass_cons. cbn zeta.
  set (d1 := match fell_due now d j with Some _ => _ | None => d end).
  assert (∀ n, n ≠ sjName j → d1 !! n = d !! n) as Hne.
  { intros n Hn. subst d1. destruct (fell_due now d j); [by apply lookup_mark_or_delete_ne|done]. }
  assert (passed now jobs d d1) as Hp.
  { apply passed_ext; [|by apply IH]. intros n Hn. apply Hne. by intros ->. }
  assert (d1 !! sjName j = match fell_due now d j with Some _ => Next (set_last j now) now | None => d !! sjName j end) as Hx.
  { subst d1. destruct (fell_due now d j); [by apply lookup_mark_or_delete|done]. }
  clearbody d1. unfold passed in Hp. destruct (due_pass now jobs d1) as [[ready js] d'].
  destruct Hp as (-> & -> & Hd & Hn). split_and!.
  - cbn [omap list_omap]. by destruct (fell_due now d j).
  - done.
  - intros i [->|Hi]%elem_of_cons; [by rewrite Hn|by apply Hd].
  - intros n Hnn. cbn [fmap list_fmap] in Hnn. apply not_elem_of_cons in Hnn as [? ?]. rewrite Hn by done. by apply Hne.
Qed.

(** The runs of a name in flight, after some were started in turn. *)
Abbreviation runs_of name e := (filter (λ r, sjName (rJob r) = name) (inflight e)).

Lemma start_runs name r e :
  runs_of name (start r e) = runs_of name e ++
    (if bool_decide (sjName (rJob r) = name ∧ running_of e name < MaxRunning (rJob r)) then [r] else []) ∧
  (sjName (rJob r) ≠ name → running_of (start r e) name = running_of e name).
Proof.
  unfold start, claim. destruct (Z.leb_spec (MaxRunning (rJob r)) (running_of e (sjName (rJob r)))) as [Hle|Hlt].
  - rewrite bool_decide_false by (intros [<- ?]; lia). by rewrite app_nil_r.
  - cbn [inflight]. rewrite filter_app, filter_cons, filter_nil. split.
    + f_equal. case_decide as E; [rewrite bool_decide_true; [done|by subst]|].
      rewrite bool_decide_false; [done|by intros [? _]].
    + intros Hne. unfold running_of. cbn [running]. by rewrite lookup_insert_ne.
Qed.

Lemma start_all_runs name rs e :
  NoDup (sjName ∘ rJob <$> rs) →
  runs_of name (start_all rs e) = runs_of name e ++
    filter (λ r, sjName (rJob r) = name ∧ running_of e name < MaxRunning (rJob r)) rs.
Proof.
  revert e. induction rs as [|r rs IH]; intros e Hnd; [by rewrite filter_nil, app_nil_r|].
  apply NoDup_cons in Hnd as [Hr Hnd]. change (start_all (r :: rs) e) with (start_all rs (start r e)).
  rewrite IH by done. destruct (start_runs name r e) as [-> Hrun]. rewrite <- (assoc_L (++)). f_equal. rewrite filter_cons.
  destruct (decide (sjName (rJob r) = name)) as [E|E].
  - assert (∀ P : SRun → Prop, ∀ `{!∀ x, Decision (P x)}, filter (λ x, sjName (rJob x) = name ∧ P x) rs = []) as Hno.
    { intros P ?. apply filter_none. intros x Hx [Hn _]. apply Hr. cbn. rewrite E, <- Hn.
      by apply (list_elem_of_fmap_2 (sjName ∘ rJob)). }
    rewrite !Hno, app_nil_r. case_decide; case_bool_decide; done.
  - rewrite Hrun by done. rewrite bool_decide_false by tauto. rewrite decide_False by tauto. done.
Qed.

Lemma start_all_due rs e : due (start_all rs e) = due e.
Proof.
  revert e. induction rs as [|r rs IH]; intros e; [done|]. change (start_all (r :: rs) e) with (start_all rs (start r e)).
  rewrite IH. unfold start, claim. by destruct (MaxRunning (rJob r) <=? _).
Qed.

Section ready.
Context (now : Z) (d : gmap string Z).
Abbreviation ready jobs := (omap (λ j, mkSRun (set_last j now) <$> fell_due now d j) jobs).

Lemma ready_names (jobs : list SJob) (n : string) : n ∈ sjName ∘ rJob <$> ready jobs → n ∈ sjName <$> jobs.
Proof.
  intros (r & -> & (i & Hi & Hr)%list_elem_of_omap)%list_elem_of_fmap. destruct (fell_due now d i); [|done].
  injection Hr as <-. exact (list_elem_of_fmap_2 sjName _ _ Hi).
Qed.

Lemma ready_NoDup (jobs : list SJob) : NoDup (sjName <$> jobs) → NoDup (sjName ∘ rJob <$> ready jobs).
Proof.
  induction jobs as [|i l IH]; intros Hnd; [constructor|]. apply NoDup_cons in Hnd as [Hi Hnd].
  cbn [omap list_omap]. destruct (fell_due now d i); [|by apply IH]. cbn. constructor; [|by apply IH].
  intros Hin. apply Hi. by apply ready_names.
Qed.

Lemma ready_of j (jobs : list SJob) (P : SRun → Prop) `{!∀ x, Decision (P x)} :
  NoDup (sjName <$> jobs) → j ∈ jobs →
  filter (λ r, sjName (rJob r) = sjName j ∧ P r) (ready jobs) =
  match fell_due now d j with
  | Some at_ => if bool_decide (P (mkSRun (set_last j now) at_)) then [mkSRun (set_last j now) at_] else []
  | None => []
  end.
Proof.
  intros Hnd. induction jobs as [|i l IH]; [by intros ?%elem_of_nil|]. apply NoDup_cons in Hnd as [Hi Hnd].
  intros [->|Hj]%elem_of_cons; cbn [omap list_omap].
  - assert (filter (λ r, sjName (rJob r) = sjName i ∧ P r) (ready l) = []) as Hno.
    { apply filter_none. intros r Hr [Hn _]. apply Hi, ready_names. rewrite <- Hn.
      by apply (list_elem_of_fmap_2 (sjName ∘ rJob)). }
    destruct (fell_due now d i) as [at_|]; [|done]. cbn [fmap option_fmap option_map]. rewrite filter_cons, Hno.
    case_decide as E; case_bool_decide; try done; [by destruct E|by destruct E].
  - rewrite <- (IH Hnd Hj). destruct (fell_due now d i) as [at_|]; [|done]. cbn [fmap option_fmap option_map]. rewrite filter_cons_False; [done|].
    intros [Hn _]. apply Hi. cbn in Hn. rewrite Hn. by apply (list_elem_of_fmap_2 sjName).
Qed.
End ready.

(** A tick runs what has fallen due, once.  For a job whose time has come the
    runs of its name gain exactly one, for the time it fell due, if one of its
    slots is free and none otherwise, and its next time is worked out from now;
    a job that is not due, or not enabled, is left as it was.  A schedule that
    is paused runs nothing. *)
Theorem tick_runs_what_is_due now e j :
  NoDup (sjName <$> eJobs e) → j ∈ eJobs e →
  let e' := runDue now e in
  if paused e then e' = e
  else match fell_due now (due e) j with
  | Some at_ =>
      runs_of (sjName j) e' = runs_of (sjName j) e ++
        (if bool_decide (running_of e (sjName j) < MaxRunning j) then [mkSRun (set_last j now) at_] else []) ∧
      due e' !! sjName j = Next (set_last j now) now
  | None => runs_of (sjName j) e' = runs_of (sjName j) e ∧ due e' !! sjName j = due e !! sjName j
  end.
Proof.
  intros Hnd Hj. unfold runDue. destruct (paused e); [done|].
  pose proof (due_pass_spec now (eJobs e) (due e) Hnd) as Hp. unfold passed in Hp.
  destruct (due_pass now (eJobs e) (due e)) as [[rs js] d]. destruct Hp as (-> & -> & Hd & _). cbn zeta.
  rewrite start_all_due. cbn [due]. rewrite (Hd j Hj). rewrite start_all_runs by (by apply ready_NoDup). cbn [inflight].
  rewrite (ready_of now (due e) j _ _ Hnd Hj).
  destruct (fell_due now (due e) j) as [at_|]; [done|]. by rewrite app_nil_r.
Qed.

(** ** Schedules to look at *)

Definition demo_sjob (name : string) (cron : option Cron) (interval offset skip_start skip_end last : Z) : SJob :=
  mkSJob name "state.apply" [] None cron interval [] 0 0 0 0 0 false skip_start skip_end [] 0 0 1 true false false true
    offset None UTC last.

(** An interval is counted from the time asked about, never from the last run
    before it: a reload or a change starts the clock again. *)
Lemma interval_restarts j now :
  sjCron j = None → Once j = 0 → When j = [] → 0 < Interval j → LastRun j ≤ now →
  nextCandidate j now = Some (now + Interval j).
Proof.
  intros Hc Ho Hw Hi Hl. unfold nextCandidate. rewrite Hc, Ho, Hw. cbn.
  rewrite (proj2 (Z.ltb_lt _ _) Hi). unfold IsZero, Before. f_equal.
  destruct (Z.eqb_spec (LastRun j) 0), (Z.ltb_spec (LastRun j) now); simpl; lia.
Qed.

Definition noon : Z := Date_utc 2026 8 19 12 0 0 0.

(** An hourly job reloaded every half hour is due half an hour after it should
    have run, however often that happens. *)
Example reload_postpones :
  let job := demo_sjob "hourly" None Hour 0 0 0 noon in
  let e := mkEngine [job] ∅ {["hourly" := noon + Hour]} false [] in
  due (Replace (noon + 30 * Minute) [job] e) !! "hourly" = Some (noon + Hour + 30 * Minute).
Proof. by vm_compute. Qed.

(** With an offset of minus one hour a daily job for three o'clock is due at two;
    having run at two it is due at two again, at every tick until three. *)
Example negative_offset_runs_again :
  let job := demo_sjob "daily" (Some (demo_cron "0 3 * * *")) 0 (- Hour) 0 0 0 in
  let two := Date_utc 2026 8 20 2 0 0 0 in
  let e := mkEngine [job] ∅ {["daily" := two]} false [] in
  Next job noon = Some two ∧ due (runDue (two + Second) e) !! "daily" = Some two ∧
  length (inflight (srun [STick (two + Second); SFinish 0; STick (two + 2 * Second)] e)) = 1%nat.
Proof. by vm_compute. Qed.

(** A job every ten seconds that is not to run for the next twelve hours has
    more than 4096 times to pass over, and has no next time at all. *)
Example long_skip_ends_the_job :
  let job := demo_sjob "often" None (10 * Second) 0 noon (noon + 12 * Hour) 0 in
  let e := mkEngine [job] ∅ {["often" := noon - Second]} false [] in
  Next job (noon - Second) = None ∧ due (runDue (noon - Second) e) !! "often" = None.
Proof. by vm_compute. Qed.

Definition demo_engine : Engine :=
  mkEngine [demo_sjob "a" None Hour 0 0 0 0; demo_sjob "b" (Some (demo_cron "30 * * * *")) 0 0 0 0 0] ∅
    {["a" := noon; "b" := noon + 30 * Minute]} false [].

Lemma next_within_bounds_witness :
  let j := demo_sjob "b" (Some (demo_cron "30 * * * *")) 0 0 0 0 0 in
  blocked j (noon + 30 * Minute) = false ∧ (0 ≤ Offset j → noon < noon + 30 * Minute).
Proof.
  apply (next_within_bounds (demo_sjob "b" (Some (demo_cron "30 * * * *")) 0 0 0 0 0) noon (noon + 30 * Minute)).
  vm_compute. reflexivity.
Defined.

Definition demo_splay : SJob :=
  mkSJob "s" "state.apply" [] None None Hour [] 0 0 0 0 0 false 0 0 [] (15 * Minute) Minute 1 true false false true 0 None UTC 0.

Lemma splay_in_range_witness :
  SplayFor demo_splay (random (Some 123456789)) < 15 * Minute ∧ Minute ≤ SplayFor demo_splay (random (Some 123456789)).
Proof.
  destruct (splay_in_range demo_splay (random (Some 123456789))) as (_ & Hlt & Hge).
  - vm_compute. discriminate.
  - vm_compute. discriminate.
  - intros n Hn. unfold random. rewrite (proj2 (Z.leb_gt _ _) Hn). by apply Z.mod_pos_bound.
  - split; [apply Hlt|apply Hge]; vm_compute; reflexivity.
Defined.

Lemma maxrunning_holds_witness :
  flying "a" (srun [STick noon; STick (noon + Hour); SFinish 0; STick (noon + 2 * Hour)] (Run noon demo_engine)) ≤ 1.
Proof.
  apply (maxrunning_holds "a" 1 noon demo_engine [STick noon; STick (noon + Hour); SFinish 0; STick (noon + 2 * Hour)]).
  - reflexivity.
  - lia.
  - repeat constructor; intros _; vm_compute; discriminate.
  - repeat constructor.
Defined.

Lemma tick_runs_what_is_due_witness :
  Fire <$> inflight (runDue noon demo_engine) = [noon] ∧ due (runDue noon demo_engine) !! "a" = Some (noon + Hour).
Proof.
  destruct (tick_runs_what_is_due noon demo_engine (demo_sjob "a" None Hour 0 0 0 0)) as [_ Hd].
  - apply (bool_decide_unpack _). vm_compute. exact I.
  - by left.
  - split; [vm_compute; reflexivity|]. change "a" with (sjName (demo_sjob "a" None Hour 0 0 0 0)). rewrite Hd.
    vm_compute. reflexivity.
Defined.
