(* ===== verification/Top.v ===== *)
(** * The top file

    Models src/internal/state/top.go: which SLS names a node is given.  The top
    file of every environment is rendered and matched against the node with the
    targets of Target, and what the files say is put together by one of three
    strategies; CompileHighstate of compile.go then compiles the result.

    A Go map is a [gmap]; where the code ranges over one without sorting its
    keys, the order is the parameter [iter].  How target errors print is a
    parameter too. *)

From S2P Require Import Prelude GoLib Value StateTypes Signature States Runner Compile Apply Target.

Open Scope Z_scope.

Definition TopName : string := "top".

(** What each environment's top file says: the names, by environment. *)
Abbreviation topfiles := (gmap string (gmap string (list string))).

(** ** Lists without repetition *)

Definition appendUnique (dst src : list string) : list string :=
  foldl (λ dst s, if bool_decide (s ∈ dst) then dst else dst ++ [s]) dst src.

Definition sortedStringKeys {A} (m : gmap string A) : list string := merge_sort str_le (elements (dom m)).

(** out[env] = appendUnique(out[env], names) *)
Definition add_names (env : string) (names : list string) (out : gmap string (list string)) : gmap string (list string) :=
  <[env := appendUnique (default [] (out !! env)) names]> out.

(** ** Entries of a top file *)

Section top.
Context `{Runtime} `{NetIP} (regex_Compile : string → option (string → bool)) (target_error : TError → string).

Definition TopMatchKind (body : value) : string :=
  match body with
  | VSeq items =>
      (fix go items := match items with
        | [] => ""
        | VMap m :: items' =>
            match entries m with
            | [e] => if bool_decide (KeyString (Key e) = "match") then KeyString (Val e) else go items'
            | _ => go items'
            end
        | _ :: items' => go items'
        end) items
  | _ => ""
  end.

Definition matchAlias (name : string) : string :=
  if bool_decide (name = "glob") then "" else if bool_decide (name = "list") then "L"
  else if bool_decide (name = "pcre") then "E" else if bool_decide (name = "grain") then "G"
  else if bool_decide (name = "grain_pcre") then "P" else if bool_decide (name = "pillar") then "I"
  else if bool_decide (name = "pillar_pcre") then "J" else if bool_decide (name = "ipcidr") then "S"
  else if bool_decide (name = "nodegroup") then "N" else if bool_decide (name = "compound") then "C"
  else name.

Inductive top_target_error := TargetErr (e : TError) | UnknownMatch (expr kind : string).

Definition CompileTopTarget (expr : string) (body : value) (groups : Nodegroups)
    : option (top_target_error + Matcher) :=
  let wrap r := match r with
                | None => None
                | Some (inl e) => Some (inl (TargetErr e))
                | Some (inr m) => Some (inr m)
                end in
  let kindName := TopMatchKind body in
  if bool_decide (kindName = "") then wrap (CompileAuto regex_Compile expr groups)
  else match KindFromFlag (matchAlias kindName) with
       | None => Some (inl (UnknownMatch expr kindName))
       | Some kind => wrap (Target.Compile regex_Compile kind expr groups)
       end.

Definition top_error (e : top_target_error) : string :=
  match e with
  | TargetErr e => target_error e
  | UnknownMatch expr kind => expr +:+ ": unknown match type " +:+ kind
  end.

(** The names of a list, less the directives. *)
Fixpoint top_names (items : list value) (pos : Pos) : DW (list string) :=
  match items with
  | [] => mret []
  | item :: items' =>
      here ← (match item with
              | VString t => mret [t]
              | VMap m =>
                  let directive := match entries m with
                                   | [e] => bool_decide (KeyString (Key e) ∈ ["match"; "ignore_missing"])
                                   | _ => false
                                   end in
                  if directive then mret []
                  else Add pos TopName "" "an SLS name must be a string, found a mapping" [];; mret []
              | VNilMap => Add pos TopName "" "an SLS name must be a string, found a mapping" [];; mret []
              | _ => Add pos TopName "" "an SLS name must be a string, found %s" [FStr (TypeName item)];; mret []
              end);
      rest ← top_names items' pos;
      mret (here ++ rest)
  end.

Definition topSLSNames (v : value) (pos : Pos) : DW (list string) :=
  match v with
  | VSeq items => top_names items pos
  | _ => Add pos TopName "" "a top file target must hold a list of SLS names, found %s" [FStr (TypeName v)];; mret []
  end.

(** The compiler's configuration, as far as the top file reads it. *)
Record TopConfig := mkTopConfig {
  TopMergeStrategy : string; Envs : list string;
  tNodeID : string; tGrains : option Map; tPillar : option Map; tNodegroups : Nodegroups }.

Definition top_node (t : TopConfig) : Node := mkNode (tNodeID t) (tGrains t) (tPillar t) None.

(** The targets of one environment.  Compiling a target never runs out of steps;
    [None] would be that. *)
Fixpoint match_targets (t : TopConfig) (env : string) (targets : list Entry) (out : gmap string (list string))
    : DW (option (gmap string (list string))) :=
  match targets with
  | [] => mret (Some out)
  | te :: targets' =>
      match CompileTopTarget (KeyString (Key te)) (Val te) (tNodegroups t) with
      | None => mret None
      | Some (inl err) => Add (KeyPos te) TopName "" "%v" [FStr (top_error err)];; match_targets t env targets' out
      | Some (inr matcher) =>
          if negb (MatcherMatch matcher (top_node t)) then match_targets t env targets' out
          else
            names ← topSLSNames (Val te) (ValPos te);
            match_targets t env targets' (add_names env names out)
      end
  end.

Definition entries_of (v : value) : option (list Entry) :=
  match v with VMap m => Some (entries m) | VNilMap => Some [] | _ => None end.

Fixpoint match_envs (t : TopConfig) (envs : list Entry) (out : gmap string (list string))
    : DW (option (gmap string (list string))) :=
  match envs with
  | [] => mret (Some out)
  | e :: envs' =>
      let env := KeyString (Key e) in
      if bool_decide (env = "include") then match_envs t envs' out
      else match entries_of (Val e) with
      | None =>
          Add (ValPos e) TopName ""
            "the %q environment in the top file must hold a mapping of target expressions, found %s"
            [FStr env; FStr (TypeName (Val e))];; match_envs t envs' out
      | Some targets =>
          o ← match_targets t env targets out;
          match o with None => mret None | Some out => match_envs t envs' out end
      end
  end.

Definition matchTop (t : TopConfig) (v : value) (filePath : string) : DW (option (gmap string (list string))) :=
  match v with
  | VNull => mret (Some ∅)
  | _ =>
      match entries_of v with
      | None =>
          Add (mkPos filePath 0 0) TopName "" "a top file must hold a mapping of environments, found %s"
            [FStr (TypeName v)];; mret (Some ∅)
      | Some envs => match_envs t envs ∅
      end
  end.

(** ** Every environment's top file *)

(** What each file says, and the environments that had one. *)
Fixpoint read_tops (c : Compiler) (t : TopConfig) (envs : list string) (perEnv : topfiles) (found : list string)
    : DW (option (topfiles * list string)) :=
  match envs with
  | [] => mret (Some (perEnv, found))
  | env :: envs' =>
      match Source c env TopName with
      | inl ErrNotFound => read_tops c t envs' perEnv found
      | inl (ErrRead msg) =>
          Add (mkPos TopName 0 0) TopName "" "reading the top file for %q: %v" [FStr env; FStr msg];;
          read_tops c t envs' perEnv found
      | inr (src, filePath) =>
          match Render c env TopName filePath src with
          | (inl err, _) =>
              Add (mkPos filePath 0 0) TopName "" "%v" [FStr err];; read_tops c t envs' perEnv (found ++ [env])
          | (inr v, _) =>
              o ← matchTop t v filePath;
              match o with
              | None => mret None
              | Some m => read_tops c t envs' (<[env := m]> perEnv) (found ++ [env])
              end
          end
      end
  end.

Definition merge_env (matched : gmap string (list string)) (out : gmap string (list string)) : gmap string (list string) :=
  foldl (λ out e, add_names e (default [] (matched !! e)) out) out (sortedStringKeys matched).

Definition merge_in (perEnv : topfiles) (order : list string) : gmap string (list string) :=
  foldl (λ out env, match perEnv !! env with Some m => merge_env m out | None => out end) ∅ order.

(** The primary environment, then every environment in order, each once. *)
Definition merge_order (primary : string) (perEnv : topfiles) : list string :=
  appendUnique [primary] (sortedStringKeys perEnv).

(** An entry for another environment than its own can never take effect. *)
Definition same_entry (env : string) (out : gmap string (list string)) (p : string * list string)
    : DW (gmap string (list string)) :=
  if bool_decide (p.1 = env) then mret (add_names env p.2 out)
  else Add (mkPos TopName 0 0) TopName ""
         "top_file_merging_strategy is `same`, so the top file in %q may not declare states for %q"
         [FStr env; FStr p.1];; mret out.

Fixpoint fold_DW {A B} (f : B → A → DW B) (b : B) (l : list A) : DW B :=
  match l with [] => mret b | x :: l' => b' ← f b x; fold_DW f b' l' end.

Context (iter : ∀ A, gmap string A → list (string * A)).

Definition merge_same (perEnv : topfiles) : DW (gmap string (list string)) :=
  fold_DW (λ out p, fold_DW (same_entry p.1) out (iter _ p.2)) ∅ (iter _ perEnv).

Definition merge_tops (strategy primary : string) (perEnv : topfiles) : DW (gmap string (list string)) :=
  if bool_decide (strategy = "same") then merge_same perEnv
  else if bool_decide (strategy = "merge_all") then mret (merge_in perEnv (sortedStringKeys perEnv))
  else mret (merge_in perEnv (merge_order primary perEnv)).

Definition resolveTop (c : Compiler) (t : TopConfig) : DW (option (gmap string (list string))) :=
  let envs := if bool_decide (Envs t = []) then [env_ c] else Envs t in
  o ← read_tops c t envs ∅ [];
  match o with
  | None => mret None
  | Some (perEnv, found) =>
      if bool_decide (found = []) then
        Add (mkPos "" 0 0) TopName "" "no top file was found in any environment (%v); a highstate needs one"
          [FStr ("[" +:+ Join envs " " +:+ "]")];; mret (Some ∅)
      else out ← merge_tops (TopMergeStrategy t) (env_ c) perEnv; mret (Some out)
  end.

Definition CompileHighstate (fuel : nat) (c : Compiler) (t : TopConfig) : DW (option compiled) :=
  o ← resolveTop c t;
  match o with None => mret None | Some matched => CompileMatched fuel c matched end.
End top.

(** ** Lists without repetition *)

Lemma appendUnique_app d a b : appendUnique d (a ++ b) = appendUnique (appendUnique d a) b.
Proof. apply foldl_app. Qed.

Lemma appendUnique_elem d l x : x ∈ appendUnique d l ↔ x ∈ d ∨ x ∈ l.
Proof.
  revert d. induction l as [|y l IH]; intros d; [set_solver|]. cbn [appendUnique foldl].
  change (x ∈ appendUnique (if bool_decide (y ∈ d) then d else d ++ [y]) l ↔ x ∈ d ∨ x ∈ y :: l). rewrite IH.
  case_bool_decide; set_solver.
Qed.

Lemma appendUnique_NoDup d l : NoDup d → NoDup (appendUnique d l).
Proof.
  revert d. induction l as [|y l IH]; intros d Hd; [done|]. apply (IH (if bool_decide (y ∈ d) then d else d ++ [y])).
  case_bool_decide; [done|]. apply NoDup_app. split_and!; [done|set_solver|apply NoDup_singleton].
Qed.

Lemma appendUnique_subset d l : (∀ x, x ∈ l → x ∈ d) → appendUnique d l = d.
Proof.
  revert d. induction l as [|y l IH]; intros d Hl; [done|].
  change (appendUnique (if bool_decide (y ∈ d) then d else d ++ [y]) l = d).
  rewrite bool_decide_true by (apply Hl; by left). apply IH. intros x Hx. apply Hl. by right.
Qed.

Lemma appendUnique_snoc d l y :
  appendUnique d (l ++ [y]) = if bool_decide (y ∈ appendUnique d l) then appendUnique d l else appendUnique d l ++ [y].
Proof. by rewrite appendUnique_app. Qed.

(** Taking repetitions out beforehand makes no difference. *)
Lemma appendUnique_idem d l : appendUnique d (appendUnique [] l) = appendUnique d l.
Proof.
  induction l as [|y l IH] using rev_ind; [done|]. rewrite !appendUnique_snoc.
  destruct (bool_decide_reflect (y ∈ appendUnique [] l)) as [Hy|Hy].
  - rewrite IH, bool_decide_true; [done|]. rewrite appendUnique_elem in Hy |- *. set_solver.
  - rewrite appendUnique_snoc, IH. done.
Qed.

Lemma appendUnique_concat (f : string → list string) d l :
  appendUnique d (concat ((λ x, appendUnique [] (f x)) <$> l)) = appendUnique d (concat (f <$> l)).
Proof.
  revert d. induction l as [|x l IH]; intros d; [done|]. cbn [fmap list_fmap concat].
  by rewrite !appendUnique_app, appendUnique_idem, IH.
Qed.

Abbreviation names_of m e := (default [] (m !! e)).

Lemma names_add e env names out :
  names_of (add_names env names out) e = if bool_decide (e = env) then appendUnique (names_of out e) names else names_of out e.
Proof.
  unfold add_names. case_bool_decide as E; [subst; by rewrite lookup_insert_eq|by rewrite lookup_insert_ne].
Qed.

(** ** What a top file says *)

Section top_props.
Context `{Runtime} `{NetIP} (regex_Compile : string → option (string → bool)) (target_error : TError → string).

Definition listed (v : value) : list string :=
  match v with VSeq items => omap (λ item, match item with VString s => Some s | _ => None end) items | _ => [] end.

(** The names an entry gives the node, if it matches it. *)
Definition target_gives (t : TopConfig) (te : Entry) : list string :=
  match CompileTopTarget regex_Compile (KeyString (Key te)) (Val te) (tNodegroups t) with
  | Some (inr m) => if MatcherMatch m (top_node t) then listed (Val te) else []
  | _ => []
  end.
Definition env_gives (t : TopConfig) (env : string) (e : Entry) : list string :=
  if bool_decide (KeyString (Key e) = env ∧ env ≠ "include") then
    concat (target_gives t <$> default [] (entries_of (Val e)))
  else [].
(** The names a rendered top file gives the node in an environment, in order. *)
Definition gives (t : TopConfig) (v : value) (env : string) : list string :=
  concat (env_gives t env <$> default [] (entries_of v)).

Lemma top_names_listed items pos : (top_names items pos).1 = listed (VSeq items).
Proof.
  induction items as [|item items IH]; [done|]. cbn [top_names]. rewrite !bind_fst. cbn [mret]. unfold Writer.W_ret. cbn [fst].
  rewrite IH. cbn [listed omap list_omap]. destruct item; try done.
  by destruct (match entries m with [] => _ | _ => _ end).
Qed.

Lemma CompileTopTarget_total expr body groups : is_Some (CompileTopTarget regex_Compile expr body groups).
Proof.
  assert (∀ kind, is_Some match Target.Compile regex_Compile kind expr groups with
    | None => None | Some (inl e) => Some (inl (TargetErr e)) | Some (inr m) => Some (inr m) end) as Hw.
  { intros kind. by destruct (compile_ends regex_Compile kind expr groups) as [[e|m] ->]. }
  unfold CompileTopTarget. case_bool_decide; [unfold CompileAuto; destruct (looksCompound expr); apply Hw|].
  destruct (KindFromFlag _); [apply Hw|done].
Qed.

Lemma match_targets_spec t env targets out :
  ∃ out', (match_targets regex_Compile target_error t env targets out).1 = Some out' ∧
    ∀ e, names_of out' e = if bool_decide (e = env) then appendUnique (names_of out e) (concat (target_gives t <$> targets))
                           else names_of out e.
Proof.
  revert out. induction targets as [|te targets IH]; intros out; cbn [match_targets].
  { exists out. split; [done|]. intros e. by case_bool_decide. }
  cbn [fmap list_fmap concat]. unfold target_gives at 1.
  destruct (CompileTopTarget_total (KeyString (Key te)) (Val te) (tNodegroups t)) as [[err|m] ->].
  - rewrite bind_fst. apply IH.
  - destruct (MatcherMatch m (top_node t)); cbn [negb]; [|apply IH]. rewrite bind_fst.
    assert ((topSLSNames (Val te) (ValPos te)).1 = listed (Val te)) as ->.
    { unfold topSLSNames. destruct (Val te); try done. apply top_names_listed. }
    destruct (IH (add_names env (listed (Val te)) out)) as (out' & Ho & Hn). exists out'. split; [done|].
    intros e. rewrite Hn, !names_add. case_bool_decide; [by rewrite appendUnique_app|done].
Qed.

Lemma match_envs_spec t envs out :
  ∃ out', (match_envs regex_Compile target_error t envs out).1 = Some out' ∧
    ∀ e, names_of out' e = appendUnique (names_of out e) (concat (env_gives t e <$> envs)).
Proof.
  revert out. induction envs as [|en envs IH]; intros out; cbn [match_envs]; [by exists out|].
  set (env := KeyString (Key en)). destruct (bool_decide_reflect (env = "include")) as [Hinc|Hinc].
  { destruct (IH out) as (out' & Ho & Hn). exists out'. split; [done|]. intros e. rewrite Hn. cbn [fmap list_fmap concat].
    unfold env_gives at 2. rewrite bool_decide_false; [done|]. fold env. rewrite Hinc. intros [<- ?]. done. }
  destruct (entries_of (Val en)) as [targets|] eqn:Ee.
  - rewrite bind_fst. destruct (match_targets_spec t env targets out) as (out1 & -> & Hn1).
    destruct (IH out1) as (out' & Ho & Hn). exists out'. split; [done|]. intros e. rewrite Hn, Hn1. cbn [fmap list_fmap concat].
    rewrite appendUnique_app. f_equal. unfold env_gives. fold env. rewrite Ee. cbn [from_option id].
    destruct (decide (e = env)) as [->|Hne]; [by rewrite !bool_decide_true|].
    rewrite !bool_decide_false; [done|naive_solver..].
  - rewrite bind_fst. destruct (IH out) as (out' & Ho & Hn). exists out'. split; [done|]. intros e. rewrite Hn.
    cbn [fmap list_fmap concat]. unfold env_gives at 2. rewrite Ee. by case_bool_decide.
Qed.

Lemma matchTop_spec t v f :
  ∃ out, (matchTop regex_Compile target_error t v f).1 = Some out ∧ ∀ e, names_of out e = appendUnique [] (gives t v e).
Proof.
  unfold matchTop, gives. destruct (entries_of v) as [envs|] eqn:Ev.
  - destruct (match_envs_spec t envs ∅) as (out & Ho & Hn). setoid_rewrite lookup_empty in Hn.
    exists out. split; [|done]. by destruct v.
  - exists ∅. split; [by destruct v|]. intros e. by rewrite lookup_empty.
Qed.

(** *** Putting the files together *)

Lemma sortedStringKeys_elem {A} (m : gmap string A) k : k ∈ sortedStringKeys m ↔ is_Some (m !! k).
Proof. unfold sortedStringKeys. rewrite merge_sort_Permutation, elem_of_elements. apply elem_of_dom. Qed.
Lemma sortedStringKeys_NoDup {A} (m : gmap string A) : NoDup (sortedStringKeys m).
Proof. unfold sortedStringKeys. rewrite merge_sort_Permutation. apply NoDup_elements. Qed.

Lemma fold_names (g : string → list string) (l : list string) out e :
  NoDup l →
  names_of (foldl (λ out e, add_names e (g e) out) out l) e =
  if bool_decide (e ∈ l) then appendUnique (names_of out e) (g e) else names_of out e.
Proof.
  intros Hl. revert out. induction Hl as [|k l Hk Hl IH]; intros out; [done|]. cbn [foldl]. rewrite IH, names_add.
  destruct (decide (e = k)) as [->|Hne].
  - rewrite (bool_decide_false (k ∈ l)) by done. rewrite !bool_decide_true; [done|by left|done].
  - rewrite (bool_decide_false (e = k)) by done. by rewrite (bool_decide_ext (e ∈ k :: l) (e ∈ l)) by set_solver.
Qed.

Lemma merge_env_names matched out e : names_of (merge_env matched out) e = appendUnique (names_of out e) (names_of matched e).
Proof.
  unfold merge_env. rewrite fold_names by apply sortedStringKeys_NoDup. case_bool_decide as Hk; [done|].
  rewrite sortedStringKeys_elem in Hk. by destruct (matched !! e) eqn:E; [destruct Hk|].
Qed.

Lemma merge_in_names perEnv order e :
  names_of (merge_in perEnv order) e =
  appendUnique [] (concat ((λ env, names_of (default ∅ (perEnv !! env)) e) <$> order)).
Proof.
  unfold merge_in. change (@nil string) with (names_of (∅ : gmap string (list string)) e) at 2.
  generalize (∅ : gmap string (list string)) at 1 3. induction order as [|env order IH]; intros out; [done|].
  cbn [foldl fmap list_fmap concat]. rewrite IH, appendUnique_app. f_equal.
  destruct (perEnv !! env) as [m|]; [apply merge_env_names|]. cbn. by rewrite lookup_empty.
Qed.

(** What rendering an environment's top file gives. *)
Definition top_value (c : Compiler) (env : string) : option value :=
  match Source c env TopName with
  | inr (src, filePath) => match Render c env TopName filePath src with (inr v, _) => Some v | _ => None end
  | inl _ => None
  end.
Definition top_exists (c : Compiler) (env : string) : bool := match Source c env TopName with inr _ => true | inl _ => false end.

Definition reads_top (c : Compiler) (t : TopConfig) (perEnv : topfiles) (envs : list string) : Prop :=
  ∀ env, (is_Some (perEnv !! env) ↔ env ∈ envs ∧ is_Some (top_value c env)) ∧
         (∀ m v, perEnv !! env = Some m → top_value c env = Some v → ∀ e, names_of m e = appendUnique [] (gives t v e)).

Lemma reads_top_skip c t perEnv envs env :
  top_value c env = None → reads_top c t perEnv envs → reads_top c t perEnv (envs ++ [env]).
Proof.
  intros Hno Hr k. destruct (Hr k) as [Hiff Hv]. split; [|done]. rewrite Hiff, elem_of_app, list_elem_of_singleton.
  split; [naive_solver|]. intros [[?| ->] Hs]; [done|]. rewrite Hno in Hs. by destruct Hs.
Qed.

Lemma reads_top_add c t perEnv envs env v m :
  top_value c env = Some v → (∀ e, names_of m e = appendUnique [] (gives t v e)) →
  reads_top c t perEnv envs → reads_top c t (<[env := m]> perEnv) (envs ++ [env]).
Proof.
  intros Htv Hm Hr k. destruct (Hr k) as [Hiff Hv]. rewrite elem_of_app, list_elem_of_singleton.
  destruct (decide (k = env)) as [->|Hne].
  - rewrite lookup_insert_eq, Htv. split; [naive_solver|]. by intros ? ? [= <-] [= <-].
  - rewrite lookup_insert_ne by done. split; [naive_solver|done].
Qed.

Lemma read_tops_spec c t envs done_ perEnv found :
  reads_top c t perEnv done_ →
  ∃ perEnv' found', (read_tops regex_Compile target_error c t envs perEnv found).1 = Some (perEnv', found') ∧
    reads_top c t perEnv' (done_ ++ envs) ∧
    (found' = [] ↔ found = [] ∧ Forall (λ e, top_exists c e = false) envs).
Proof.
  revert done_ perEnv found. induction envs as [|env envs IH]; intros done_ perEnv found Hr; cbn [read_tops].
  { exists perEnv, found. rewrite !app_nil_r. split_and!; [done..|]. rewrite Forall_nil. tauto. }
  pose proof (reads_top_skip c t perEnv done_ env) as Hskip. pose proof (λ v m, reads_top_add c t perEnv done_ env v m) as Hadd.
  replace (done_ ++ env :: envs) with ((done_ ++ [env]) ++ envs) by (by rewrite <- (assoc_L (++))).
  setoid_rewrite Forall_cons. assert (top_exists c env = match Source c env TopName with inr _ => true | inl _ => false end) as He by done.
  unfold top_value in Hskip, Hadd.
  destruct (Source c env TopName) as [[|msg]|[src filePath]]; setoid_rewrite He.
  - destruct (IH (done_ ++ [env]) perEnv found) as (p & f & ? & ? & ?); [by apply Hskip|]. exists p, f. split_and!; [done..|tauto].
  - rewrite bind_fst. destruct (IH (done_ ++ [env]) perEnv found) as (p & f & ? & ? & ?); [by apply Hskip|].
    exists p, f. split_and!; [done..|tauto].
  - destruct (Render c env TopName filePath src) as [[err|v] w]; rewrite bind_fst.
    + destruct (IH (done_ ++ [env]) perEnv (found ++ [env])) as (p & f & ? & ? & Hf); [by apply Hskip|].
      exists p, f. split_and!; [done..|]. rewrite Hf, app_nil. naive_solver.
    + destruct (matchTop_spec t v filePath) as (m & -> & Hm).
      destruct (IH (done_ ++ [env]) (<[env := m]> perEnv) (found ++ [env])) as (p & f & ? & ? & Hf); [by eapply Hadd|].
      exists p, f. split_and!; [done..|]. rewrite Hf, app_nil. naive_solver.
Qed.

(** The names one environment's file gives the node in [e]. *)
Definition file_gives (c : Compiler) (t : TopConfig) (e env : string) : list string :=
  match top_value c env with Some v => gives t v e | None => [] end.

Definition top_envs (c : Compiler) (t : TopConfig) : list string := if bool_decide (Envs t = []) then [env_ c] else Envs t.

(** The environments with a top file that renders, sorted. *)
Definition readable (c : Compiler) (t : TopConfig) : list string :=
  merge_sort str_le (elements (filter (λ env, is_Some (top_value c env)) (list_to_set (top_envs c t) : gset string))).

Lemma readable_keys c t perEnv : reads_top c t perEnv (top_envs c t) → sortedStringKeys perEnv = readable c t.
Proof.
  intros Hr. unfold sortedStringKeys, readable. do 2 f_equal. apply set_eq. intros env.
  rewrite elem_of_dom, elem_of_filter, elem_of_list_to_set. destruct (Hr env) as [-> _]. tauto.
Qed.

Lemma reads_top_gives c t perEnv envs e order :
  reads_top c t perEnv envs → Forall (λ env, is_Some (perEnv !! env)) order →
  appendUnique [] (concat ((λ env, names_of (default ∅ (perEnv !! env)) e) <$> order)) =
  appendUnique [] (concat (file_gives c t e <$> order)).
Proof.
  intros Hr Hall. rewrite <- (appendUnique_concat (file_gives c t e)). do 2 f_equal. apply list_fmap_ext.
  intros i env Hi. eapply Forall_lookup in Hall; [|exact Hi]. destruct (Hr env) as [Hiff Hv].
  destruct Hall as [m Hm]. rewrite Hm. cbn [from_option id]. destruct (proj1 Hiff (mk_is_Some _ _ Hm)) as [_ [v Htv]].
  rewrite (Hv m v Hm Htv). unfold file_gives. by rewrite Htv.
Qed.

(** The primary environment's file is read first, if there is one. *)
Definition primary_first (primary : string) (l : list string) : list string :=
  if bool_decide (primary ∈ l) then appendUnique [primary] l else l.

Lemma merge_in_primary (perEnv : topfiles) primary e :
  names_of (merge_in perEnv (merge_order primary perEnv)) e =
  names_of (merge_in perEnv (primary_first primary (sortedStringKeys perEnv))) e.
Proof.
  unfold merge_order, primary_first. case_bool_decide as Hp; [done|]. rewrite !merge_in_names.
  assert (appendUnique [primary] (sortedStringKeys perEnv) = [primary] ++ sortedStringKeys perEnv) as ->.
  { revert Hp. pose proof (sortedStringKeys_NoDup perEnv) as Hnd. generalize dependent (sortedStringKeys perEnv).
    intros l. induction l as [|k l IH] using rev_ind; intros Hnd Hp; [done|].
    apply NoDup_app in Hnd as (Hnd & Hd & _). rewrite appendUnique_snoc, IH by set_solver.
    rewrite bool_decide_false; [by rewrite (assoc_L (++))|]. set_solver. }
  cbn [app fmap list_fmap concat]. rewrite sortedStringKeys_elem in Hp.
  destruct (perEnv !! primary) eqn:E; [by destruct Hp|]. cbn. by rewrite lookup_empty.
Qed.

Context (iter : ∀ A, gmap string A → list (string * A)).
Abbreviation resolve := (resolveTop regex_Compile target_error iter).

Lemma resolve_reads c t out :
  (resolve c t).1 = Some out →
  ∃ perEnv, reads_top c t perEnv (top_envs c t) ∧
    (out = (merge_tops iter (TopMergeStrategy t) (env_ c) perEnv).1 ∨ out = ∅ ∧ perEnv = ∅).
Proof.
  unfold resolveTop. fold (top_envs c t). rewrite bind_fst.
  destruct (read_tops_spec c t (top_envs c t) [] ∅ []) as (perEnv & found & -> & Hr & Hf).
  { intros env. rewrite lookup_empty. split; [split; [by intros []|by intros [?%elem_of_nil _]]|done]. }
  cbn [app] in Hr. intros Ho. exists perEnv. split; [done|]. case_bool_decide as Hnone; rewrite bind_fst in Ho; injection Ho as <-; [right|by left].
  split; [done|]. apply map_empty. intros k. apply eq_None_not_Some. intros [Hin Hv]%Hr.
  apply Hf in Hnone as [_ Hno]. rewrite Forall_forall in Hno. specialize (Hno k Hin).
  unfold top_exists in Hno. unfold top_value in Hv. by destruct (Source c k TopName), Hv.
Qed.

Lemma resolve_names c t out :
  TopMergeStrategy t ≠ "same" → (resolve c t).1 = Some out →
  ∀ e, names_of out e = appendUnique [] (concat (file_gives c t e <$>
    (if bool_decide (TopMergeStrategy t = "merge_all") then readable c t else primary_first (env_ c) (readable c t)))).
Proof.
  intros Hs (perEnv & Hr & Ho)%resolve_reads e. pose proof (readable_keys c t perEnv Hr) as Hk.
  assert (Forall (λ env, is_Some (perEnv !! env)) (sortedStringKeys perEnv)) as Hall.
  { apply Forall_forall. intros env. apply sortedStringKeys_elem. }
  destruct Ho as [-> |[-> ->]]; [|rewrite <- Hk; by case_bool_decide].
  unfold merge_tops. rewrite (bool_decide_false (TopMergeStrategy t = "same")) by done. case_bool_decide; cbn [mret].
  - change ((mret ?x : DW _).1) with x. rewrite merge_in_names, <- Hk. by eapply reads_top_gives.
  - change ((mret ?x : DW _).1) with x. rewrite merge_in_primary, merge_in_names, <- Hk. eapply reads_top_gives; [done|].
    unfold primary_first. case_bool_decide; [|done]. rewrite Forall_forall in Hall |- *. intros env.
    rewrite appendUnique_elem, list_elem_of_singleton. intros [->|?]; by apply Hall.
Qed.

(** *** Each environment's own file

    The maps are gone through in some order of their entries. *)
Context (Hiter : ∀ A (m : gmap string A), iter A m ≡ₚ map_to_list m).

Lemma iter_at {A} (m : gmap string A) e :
  filter (λ p, p.1 = e) (iter A m) = match m !! e with Some x => [(e, x)] | None => [] end.
Proof.
  symmetry. enough (match m !! e with Some x => [(e, x)] | None => [] end ≡ₚ filter (λ p, p.1 = e) (iter A m)) as Hp.
  { destruct (m !! e); [by apply Permutation_singleton_l in Hp|by apply Permutation_nil_l in Hp]. }
  rewrite Hiter. apply NoDup_Permutation.
  - destruct (m !! e); [apply NoDup_singleton|constructor].
  - apply NoDup_filter, NoDup_map_to_list.
  - intros [k x]. rewrite list_elem_of_filter, elem_of_map_to_list. cbn [fst].
    destruct (m !! e) as [y|] eqn:Ee; rewrite ?list_elem_of_singleton, ?elem_of_nil; split; naive_solver.
Qed.

Lemma same_entry_names env out p e :
  names_of (same_entry env out p).1 e = appendUnique (names_of out e) (if bool_decide (p.1 = env ∧ e = env) then p.2 else []).
Proof.
  unfold same_entry. destruct (decide (p.1 = env)) as [Ep|Ep].
  - rewrite (bool_decide_true (p.1 = env)) by done. change ((mret (add_names env p.2 out) : DW _).1) with (add_names env p.2 out). rewrite names_add.
    destruct (decide (e = env)) as [Ee|Ee]; [by rewrite !bool_decide_true|by rewrite !bool_decide_false by naive_solver].
  - rewrite (bool_decide_false (p.1 = env)), bind_fst, (bool_decide_false (_ ∧ _)) by naive_solver. done.
Qed.

Lemma same_file_names env l out e :
  names_of (fold_DW (same_entry env) out l).1 e =
  appendUnique (names_of out e) (if bool_decide (e = env) then concat (snd <$> filter (λ p, p.1 = env) l) else []).
Proof.
  revert out. induction l as [|p l IH]; intros out; cbn [fold_DW]; [by case_bool_decide|].
  rewrite bind_fst, IH, same_entry_names. case_bool_decide as He; [|by rewrite bool_decide_false by naive_solver].
  rewrite <- appendUnique_app. f_equal. rewrite filter_cons. repeat case_bool_decide; case_decide; try done; naive_solver.
Qed.

Lemma merge_same_names perEnv e : names_of (merge_same iter perEnv).1 e = appendUnique [] (names_of (default ∅ (perEnv !! e)) e).
Proof.
  unfold merge_same. assert (∀ (l : list (string * gmap string (list string))) out,
    names_of (fold_DW (λ out p, fold_DW (same_entry p.1) out (iter _ p.2)) out l).1 e =
    appendUnique (names_of out e) (concat ((λ p, names_of p.2 e) <$> filter (λ p, p.1 = e) l))) as Hgo.
  { induction l as [|p l IH]; intros out; cbn [fold_DW]; [done|]. rewrite bind_fst, IH, same_file_names, filter_cons.
    case_decide as Hp; case_bool_decide; try congruence; [|done]. cbn [fmap list_fmap concat]. rewrite <- appendUnique_app, iter_at.
    subst e. destruct (p.2 !! p.1); cbn; by rewrite ?app_nil_r. }
  rewrite Hgo, lookup_empty, iter_at. cbn [from_option id]. destruct (perEnv !! e); cbn; by rewrite ?app_nil_r, ?lookup_empty.
Qed.

Lemma resolve_same c t out :
  TopMergeStrategy t = "same" → (resolve c t).1 = Some out →
  ∀ e, names_of out e = appendUnique [] (if bool_decide (e ∈ top_envs c t) then file_gives c t e e else []).
Proof.
  intros Hs (perEnv & Hr & Ho)%resolve_reads e. assert (names_of out e = appendUnique [] (names_of (default ∅ (perEnv !! e)) e)) as ->.
  { destruct Ho as [-> |[-> ->]]; [|by rewrite !lookup_empty]. unfold merge_tops. rewrite bool_decide_true by done. apply merge_same_names. }
  destruct (Hr e) as [Hiff Hv]. unfold file_gives. destruct (perEnv !! e) as [m|] eqn:Em.
  - destruct (proj1 Hiff (mk_is_Some _ _ eq_refl)) as [Hin [v Htv]]. rewrite bool_decide_true by done. rewrite Htv. cbn [from_option id].
    by rewrite (Hv m v eq_refl Htv), appendUnique_idem.
  - cbn [from_option id]. rewrite lookup_empty. case_bool_decide as Hin; [|done]. destruct (top_value c e); [|done].
    destruct (proj2 Hiff) as [? [=]]. split; [done|by eexists].
Qed.

(** Names of one file only are the same in whatever order the files are read. *)
Lemma primary_order (f : string → list string) primary l :
  f primary = [] ∨ (∀ env, env ∈ l → env ≠ primary → f env = []) → NoDup l →
  concat (f <$> primary_first primary l) = concat (f <$> l).
Proof.
  unfold primary_first. case_bool_decide as Hp; [|done]. intros Hf Hnd.
  assert (∀ l', NoDup (primary :: l') → appendUnique [primary] l' = primary :: l') as Hcons.
  { induction l' as [|y l' IH] using rev_ind; [done|]. intros [H1 (H2 & H3 & _)%NoDup_app]%NoDup_cons. rewrite appendUnique_snoc, IH.
    - rewrite bool_decide_false; [done|]. set_solver.
    - apply NoDup_cons. set_solver. }
  apply list_elem_of_split in Hp as (l1 & l2 & ->). rewrite NoDup_app, NoDup_cons in Hnd. destruct Hnd as (H1 & H2 & H3 & H4).
  assert (appendUnique [primary] (l1 ++ primary :: l2) = primary :: l1 ++ l2) as ->.
  { change (primary :: l2) with ([primary] ++ l2). rewrite !appendUnique_app. rewrite (Hcons l1) by (apply NoDup_cons; set_solver).
    rewrite (appendUnique_subset _ [primary]) by set_solver. rewrite <- (Hcons l1) by (apply NoDup_cons; set_solver). rewrite <- appendUnique_app.
    apply Hcons. apply NoDup_cons. split; [set_solver|]. apply NoDup_app. set_solver. }
  rewrite fmap_cons, !fmap_app, fmap_cons. cbn [concat]. rewrite !concat_app. cbn [concat]. destruct Hf as [-> |Hf]; [done|].
  assert (∀ l', (∀ x, x ∈ l' → x ∈ l1 ++ l2) → concat (f <$> l') = []) as Hz.
  { induction l' as [|y l' IH]; intros Hl; [done|]. cbn. rewrite IH by set_solver. rewrite Hf; [done|set_solver|set_solver]. }
  rewrite !Hz by set_solver. by rewrite ?app_nil_l, ?app_nil_r.
Qed.

(** C38: What a highstate applies.  In each environment the node is given names
    listed under the targets that match it, each name once, in the order of its
    first appearance: with merge_all those of the top files of all environments,
    by name; with same those of the environment's own top file; with merge those
    of all the files, wherever the file of the primary environment is not one of
    several that declare the environment.  (Where it is, the comment in top.go
    says that it wins and the code merges: [merge_takes_what_merge_all_takes].)
    Go's maps may be gone through in any order. *)
Theorem top_gives_what_matches c t out :
  (resolve c t).1 = Some out →
  ∀ e, NoDup (names_of out e) ∧
    (TopMergeStrategy t = "merge_all" → names_of out e = appendUnique [] (concat (file_gives c t e <$> readable c t))) ∧
    (TopMergeStrategy t = "same" → names_of out e = appendUnique [] (if bool_decide (e ∈ top_envs c t) then file_gives c t e e else [])) ∧
    (TopMergeStrategy t ∉ ["same"; "merge_all"] →
     file_gives c t e (env_ c) = [] ∨ (∀ env, env ∈ readable c t → env ≠ env_ c → file_gives c t e env = []) →
     names_of out e = appendUnique [] (concat (file_gives c t e <$> readable c t))).
Proof.
  intros Ho e. destruct (decide (TopMergeStrategy t = "same")) as [Hs|Hs].
  - rewrite (resolve_same c t out Hs Ho e). split_and!; [apply appendUnique_NoDup; constructor|by rewrite Hs|done|set_solver].
  - rewrite (resolve_names c t out Hs Ho e). split_and!; [apply appendUnique_NoDup; constructor|intros ->; by rewrite bool_decide_true|done|].
    intros Hm Hf. rewrite bool_decide_false by set_solver. f_equal. apply primary_order; [done|]. unfold readable.
    rewrite (merge_sort_Permutation str_le). apply NoDup_elements.
Qed.

Lemma resolve_total c t : is_Some (resolve c t).1.
Proof.
  unfold resolveTop. fold (top_envs c t). rewrite bind_fst.
  destruct (read_tops_spec c t (top_envs c t) [] ∅ []) as (perEnv & found & -> & _).
  { intros env. rewrite lookup_empty. split; [split; [by intros []|by intros [?%elem_of_nil _]]|done]. }
  by case_bool_decide.
Qed.

(** A highstate is the job that is given what the top file resolved to. *)
Lemma highstate_is_the_job fuel c t args :
  ∃ matched, (resolve c t).1 = Some matched ∧
    CompileHighstate regex_Compile target_error iter fuel c t =
    compile_job fuel c matched (resolve c t).2 "highstate" args.
Proof.
  destruct (resolve_total c t) as [matched Hm]. exists matched. split; [done|].
  unfold CompileHighstate, compile_job. rewrite andb_false_r. unfold mbind, Writer.W_bind. by rewrite Hm.
Qed.

Definition with_strategy (t : TopConfig) (s : string) : TopConfig :=
  mkTopConfig s (Envs t) (tNodeID t) (tGrains t) (tPillar t) (tNodegroups t).

(** The strategies merge and merge_all give a node the same states: where
    several top files declare the same environment none of them wins, and only
    the order of the names differs. *)
Theorem merge_takes_what_merge_all_takes c t out out' :
  (resolve c (with_strategy t "merge")).1 = Some out → (resolve c (with_strategy t "merge_all")).1 = Some out' →
  ∀ e, names_of out e ≡ₚ names_of out' e.
Proof.
  intros Ho Ho' e. rewrite (resolve_names c (with_strategy t "merge") out ltac:(done) Ho e),
    (resolve_names c (with_strategy t "merge_all") out' ltac:(done) Ho' e).
  cbn [TopMergeStrategy with_strategy]. rewrite (bool_decide_false (_ = _)) by done. rewrite bool_decide_true by done.
  apply NoDup_Permutation; [apply appendUnique_NoDup; constructor..|]. intros x. rewrite !appendUnique_elem.
  assert (∀ l, x ∈ concat (file_gives c t e <$> l) ↔ ∃ env, env ∈ l ∧ x ∈ file_gives c t e env) as Hc.
  { intros l. rewrite list_elem_of_In, in_concat. setoid_rewrite <- list_elem_of_In. split.
    - intros (y & (env & -> & Hl)%list_elem_of_fmap & Hx). by exists env.
    - intros (env & Hl & Hx). eexists. split; [by apply (list_elem_of_fmap_2 (file_gives c t e))|done]. }
  change (file_gives c (with_strategy t _) e) with (file_gives c t e). rewrite !Hc.
  change (readable c (with_strategy t _)) with (readable c t).
  enough (∀ env, env ∈ primary_first (env_ c) (readable c t) ↔ env ∈ readable c t) as Hp by (by setoid_rewrite Hp).
  intros env. unfold primary_first. case_bool_decide; [|done]. rewrite appendUnique_elem, list_elem_of_singleton. naive_solver.
Qed.
End top_props.

(** ** Two environments on a concrete node *)

#[local] Existing Instance demo_runtime.
#[local] Existing Instance demo_netip.

Definition demo_top (env : string) : option value :=
  if bool_decide (env = "base") then
    Some (VMap (MapOf [
      (VString "base", VMap (MapOf [
         (VString "*", VSeq [VString "users"; VString "ntp"]);
         (VString "web*", VSeq [VString "nginx"; VString "users"]);
         (VString "db1,db2", VSeq [VMap (MapOf [(VString "match", VString "list")]); VString "postgres"])]));
      (VString "dev", VMap (MapOf [(VString "*", VSeq [VString "tools"])]))]))
  else if bool_decide (env = "dev") then
    Some (VMap (MapOf [(VString "dev", VMap (MapOf [(VString "web1 or web2", VSeq [VString "debug"; VString "tools"])]));
                       (VString "base", VMap (MapOf [(VString "web1", VSeq [VString "extra"])]))]))
  else None.
Definition top_compiler : Compiler :=
  mkCompiler (λ env name, match demo_top env with Some _ => inr (name, name +:+ ".sls") | None => inl ErrNotFound end)
    (λ env name _ _, (inr (default VNull (demo_top env)), [])) None (mkConfig "base" [] []).
Definition top_config (strategy id : string) : TopConfig := mkTopConfig strategy ["prod"; "dev"; "base"] id None None ∅.
Abbreviation demo_resolve strategy id :=
  (resolveTop demo_regex (λ e, teExpr e) (λ A (m : gmap string A), map_to_list m) top_compiler (top_config strategy id)).

Example demo_resolved :
  (names_of (default ∅ (demo_resolve "merge" "web1").1) "base" = ["users"; "ntp"; "nginx"; "extra"]) ∧
  (names_of (default ∅ (demo_resolve "merge_all" "web1").1) "base" = ["users"; "ntp"; "nginx"; "extra"]) ∧
  (names_of (default ∅ (demo_resolve "merge_all" "web1").1) "dev" = ["tools"; "debug"]) ∧
  (names_of (default ∅ (demo_resolve "merge" "db1").1) "base" = ["users"; "ntp"; "postgres"]) ∧
  length (demo_resolve "same" "web1").2 = 2%nat.
Proof. by vm_compute. Qed.

Lemma top_gives_what_matches_witness :
  names_of (default ∅ (demo_resolve "merge_all" "web1").1) "base" =
    appendUnique [] (concat (file_gives demo_regex top_compiler (top_config "merge_all" "web1") "base" <$> ["base"; "dev"])) ∧
  names_of (default ∅ (demo_resolve "same" "web1").1) "dev" =
    appendUnique [] (file_gives demo_regex top_compiler (top_config "same" "web1") "dev" "dev") ∧
  names_of (default ∅ (demo_resolve "merge" "db1").1) "base" =
    appendUnique [] (concat (file_gives demo_regex top_compiler (top_config "merge" "db1") "base" <$> ["base"; "dev"])).
Proof.
  assert (∀ strategy id, (demo_resolve strategy id).1 = Some (default ∅ (demo_resolve strategy id).1) → ∀ e, _) as Hgo
    by (intros strategy id; exact (top_gives_what_matches demo_regex (λ e, teExpr e) (λ A (m : gmap string A), map_to_list m)
          (λ A m, reflexivity (map_to_list m)) top_compiler (top_config strategy id) (default ∅ (demo_resolve strategy id).1))).
  split; [|split].
  - destruct (Hgo "merge_all" "web1" ltac:(vm_compute; reflexivity) "base") as (_ & He & _ & _).
    etransitivity; [exact (He eq_refl)|]. vm_compute. reflexivity.
  - destruct (Hgo "same" "web1" ltac:(vm_compute; reflexivity) "dev") as (_ & _ & He & _).
    etransitivity; [exact (He eq_refl)|]. vm_compute. reflexivity.
  - destruct (Hgo "merge" "db1" ltac:(vm_compute; reflexivity) "base") as (_ & _ & _ & He).
    etransitivity; [apply He|]; [by apply (bool_decide_unpack _); vm_compute| |vm_compute; reflexivity].
    right. intros env Henv Hne. assert (readable top_compiler (top_config "merge" "db1") = ["base"; "dev"]) as Hr by (vm_compute; reflexivity).
    rewrite Hr in Henv. apply elem_of_cons in Henv as [-> |Henv]; [by destruct Hne|]. apply list_elem_of_singleton in Henv as ->. vm_compute. reflexivity.
Defined.

Lemma merge_takes_what_merge_all_takes_witness :
  names_of (default ∅ (demo_resolve "merge" "web1").1) "dev" ≡ₚ names_of (default ∅ (demo_resolve "merge_all" "web1").1) "dev".
Proof.
  apply (merge_takes_what_merge_all_takes demo_regex (λ e, teExpr e) (λ A (m : gmap string A), map_to_list m) top_compiler
    (top_config "merge" "web1")); vm_compute; reflexivity.
Defined.
