(* ===== verification/Policy.v ===== *)
(** * Authorization: who may run what, where, and with which arguments

    Models src/internal/policy (policy.go, argfamily.go, pillar.go,
    runnerscope.go), JobFunctions of state/jobfunctions.go and ValidateNodeID
    of pki/pki.go.  A policy is roles, each a list of rules, and bindings of
    principals to roles; a request is allowed when one rule of one role grants
    it whole: the target, the function, and the arguments.

    A nil *Policy, a nil Shipped and a nil Resumes are [None].  The document is
    the value the YAML parser produced.  Reasons of refusals are constructors
    that carry what the message is built from. *)

From Stdlib Require Import SpecFloat.
From S2P Require Import Prelude GoLib Value Signature Fnmatch HighState StateTypes Compile Runner Apply Job Target.

Open Scope Z_scope.

(** ** The policy *)

Record ArgRule := mkArgRule {
  AllowSLS : list string; DenySLS : list string; AllowEnv : list string; DenyEnv : list string;
  AllowMods : list string; DenyKwargs : list string; RequireKwargs : gmap string value }.

Record Rule := mkRule {
  ruTarget : string; ruFunctions : list string; ruRunners : list string;
  ruArgs : gmap string ArgRule; ActFor : list string }.

Record Binding := mkBinding { bPrincipal : string; bRoles : list string }.

Record Policy := mkPolicy {
  Roles : gmap string (list Rule); Bindings : list Binding; pPath : string;
  pArbitraryCode : gset string; Shipped : option (gset string) }.

Definition rules_of (p : Policy) (role : string) : list Rule := default [] (Roles p !! role).

Definition JobFunctions : list string := (λ f, "state." +:+ f) <$> jobFunctions.

Definition UseCatalog (p : Policy) (registries : list SigRegistry) : Policy :=
  mkPolicy (Roles p) (Bindings p) (pPath p)
    (⋃ ((λ r : SigRegistry, dom (filter (λ e, ArbitraryCode e.2 = true) r)) <$> registries))
    (Some (list_to_set JobFunctions ∪ ⋃ ((λ r : SigRegistry, dom r) <$> registries))).

Definition shipped (p : Policy) (fun_ : string) : bool :=
  match Shipped p with Some s => bool_decide (fun_ ∈ s) | None => false end.

Definition wildcardGrants (p : Policy) (fun_ : string) : bool :=
  shipped p fun_ && negb (bool_decide (fun_ ∈ pArbitraryCode p)).

(** ** Requests and decisions *)

Record Request := mkRequest {
  rqPrincipal : string; rqTarget : string; rqKind : string; rqFun : string; rqArg : list string;
  rqKwarg : kwargs; rqTest : bool; rqEnv : string; rqResumes : option (list string); rqRunner : bool }.

Inductive arg_reason :=
| DeniedKwarg (name : string)
| MissingKwarg (name : string) (want : value)
| OtherKwarg (name : string) (want : value) (got : any)
| EnvNotText (got : any)
| DeniedEnv (env : string)
| EnvNotAllowed (env : string) (allowed : list string)
| SlsNotText (got : any)
| NotCanonical (arg why : string)
| DeniedSLS (arg : string)
| WholeHighstate (allowed : list string)
| NamesNothing (allowed : list string)
| NotAllowedSLS (arg : string) (allowed : list string)
| NoOrchestration (allowed : list string)
| NotAllowedMod (arg : string) (allowed : list string).

Inductive reason :=
| NoHubPolicy | NoPolicy
| NoRole (principal path : string)
| NotKind (flag : string)
| NoRule (roles : list string) (fun_ : string) (kind : option TKind) (target : string)
| PillarWildcard (fun_ list_ : string)
| CodeWildcard (fun_ : string)
| NoCatalog (fun_ : string)
| NotShipped (fun_ : string)
| BadArgs (fun_ : string) (why : arg_reason) (written : string).

Record Decision := mkDecision { Allowed : bool; dRole : string; RuleIndex : nat; Reason : option reason }.

Definition denied (r : reason) : Decision := mkDecision false "" 0 (Some r).

(** ** Patterns *)

Definition matchPrincipal (pattern principal : string) : bool :=
  bool_decide (pattern = principal) || Fnmatch.Match pattern principal.

Definition matchGlob (pattern s : string) : bool := bool_decide (pattern = "*") || Fnmatch.Match pattern s.

Definition matchAny (patterns : list string) (s : string) : bool :=
  existsb (λ p, bool_decide (p = s) || matchGlob p s) patterns.

Definition namedExactly (patterns : list string) (fun_ : string) : bool := bool_decide (fun_ ∈ patterns).

(** ** Node identities, and what a rule's target covers *)

Definition id_rune (r : rune) : bool :=
  ((97 <=? r) && (r <=? 122)) || ((65 <=? r) && (r <=? 90)) || ((48 <=? r) && (r <=? 57)) ||
  (r =? 46) || (r =? 45) || (r =? 95).

Inductive id_error := IdEmpty | IdTooLong (n : nat) | IdStart | IdDots | IdRune (r : rune).

Definition ValidateNodeID (nodeID : string) : option id_error :=
  if bool_decide (nodeID = "") then Some IdEmpty
  else if (253 <? String.length nodeID)%nat then Some (IdTooLong (String.length nodeID))
  else if has_prefix "-" nodeID || has_prefix "." nodeID then Some IdStart
  else if contains ".." nodeID then Some IdDots
  else IdRune <$> find (λ r, negb (id_rune r)) (runes nodeID).

Definition literalCovered (granted id : string) : bool :=
  if bool_decide (granted = "*") then true
  else match ValidateNodeID id with
  | Some _ => false
  | None => bool_decide (granted = id) || MatchGlob granted id
  end.

Definition targetCovered (granted : string) (kind : TKind) (asked : string) : bool :=
  if bool_decide (granted = "*") then true
  else match kind with
  | Glob => bool_decide (granted = asked) || literalCovered granted asked
  | List =>
      let ids := ListIDs asked in
      if bool_decide (ids = []) then false else forallb (literalCovered granted) ids
  | _ => false
  end.

(** ** Functions that read pillar (pillar.go) *)

Definition pillarFunctions : list string := ["pillar.items"; "pillar.raw"; "pillar.get"; "config.get"].
Definition pillarRunners : list string := ["pillar.show_pillar"; "cache.pillar"].
Definition ReadsPillar (fun_ : string) (runner : bool) : bool :=
  bool_decide (fun_ ∈ if runner then pillarRunners else pillarFunctions).
Definition PillarReaders : list string * list string :=
  (merge_sort str_le pillarFunctions, merge_sort str_le pillarRunners).

(** ** Argument rules and their families (argfamily.go) *)

Definition orchestrationRunners : list string :=
  ["state.orch"; "state.orchestrate"; "state.orchestrate_show_sls"].
Definition resumeRunner : string := "state.orch_resume".

Definition family (runner : bool) : list string :=
  if runner then orchestrationRunners ++ [resumeRunner] else JobFunctions.
Definition ArgumentFamily (fun_ : string) (runner : bool) : list string :=
  if bool_decide (fun_ ∈ family runner) then merge_sort str_le (family runner) else [].

(** The rules with the functions they were written under. *)
Definition argRulesFor (rule : Rule) (fun_ : string) (runner : bool) : list (string * ArgRule) :=
  from_option (λ own, [(fun_, own)]) [] (ruArgs rule !! fun_) ++
  omap (λ member, if bool_decide (member = fun_) then None else (λ r, (member, r)) <$> ruArgs rule !! member)
    (ArgumentFamily fun_ runner).

Section decide.
Context `{Runtime}.

Definition wireKwargs (r : Request) : kwargs :=
  if rqTest r then set_kwarg "test" (ABool true) (rqKwarg r) else rqKwarg r.

Definition toFloat (v : any) : option spec_float :=
  match v with
  | AInt z => Some (f64_of_Z z)
  | AFloat f => Some f
  | ANumber text => ParseFloat text
  | _ => None
  end.

(** A required value is a bool, a string or a number. *)
Definition want_float (v : value) : option spec_float :=
  match v with VInt z | VGoInt z => Some (f64_of_Z z) | VFloat f => Some f | _ => None end.

Definition sameScalar (want : value) (got : any) : bool :=
  match want with
  | VBool w => match got with ABool g => bool_decide (g = w) | _ => false end
  | VString w => match got with AString g => bool_decide (g = w) | _ => false end
  | _ => match want_float want, toFloat got with Some w, Some g => f64_eqb w g | _, _ => false end
  end.

Fixpoint check_names (required : gmap string value) (kw : kwargs) (names : list string) : option arg_reason :=
  match names with
  | [] => None
  | name :: names' =>
      match required !! name with
      | None => check_names required kw names'
      | Some want =>
          match get_kwarg name kw with
          | None => Some (MissingKwarg name want)
          | Some got => if sameScalar want got then check_names required kw names' else Some (OtherKwarg name want got)
          end
      end
  end.

Definition checkRequired (required : gmap string value) (kw : kwargs) : option arg_reason :=
  check_names required kw (merge_sort str_le (elements (dom required))).

(** The environment to judge, if there is one. *)
Definition requestEnv (req : Request) : arg_reason + option string :=
  if negb (rqRunner req) then inr (if bool_decide (rqEnv req = "") then None else Some (rqEnv req))
  else if bool_decide (rqFun req = resumeRunner) then
    inr (match rqResumes req with Some _ => Some (rqEnv req) | None => None end)
  else if negb (bool_decide (rqFun req ∈ orchestrationRunners)) then inr None
  else
    let positional :=
      inr (Some (match rqArg req !! 1%nat with Some a => if bool_decide (a = "") then "base" else a | None => "base" end)) in
    match get_kwarg "env" (rqKwarg req) with
    | None | Some ANil | Some (AString "") => positional
    | Some (AString s) => inr (Some s)
    | Some raw => inl (EnvNotText raw)
    end.

Definition checkEnv (c : ArgRule) (req : Request) : option arg_reason :=
  if bool_decide (AllowEnv c = []) && bool_decide (DenyEnv c = []) then None
  else match requestEnv req with
  | inl why => Some why
  | inr None => None
  | inr (Some env) =>
      if matchAny (DenyEnv c) env then Some (DeniedEnv env)
      else if negb (bool_decide (AllowEnv c = [])) && negb (matchAny (AllowEnv c) env)
      then Some (EnvNotAllowed env (AllowEnv c))
      else None
  end.

Definition splitNames (spec : string) : list string :=
  filter (λ part, part ≠ "") (TrimSpace <$> Split spec ",").

Definition runnerNames (req : Request) : arg_reason + list string :=
  if bool_decide (rqFun req = resumeRunner) then inr (default [] (rqResumes req))
  else
    let names := rqArg req ≫= splitNames in
    match get_kwarg "sls" (rqKwarg req) with
    | None => inr names
    | Some (AString s) => inr (names ++ splitNames s)
    | Some raw => inl (SlsNotText raw)
    end.

(** The first argument a check refuses, with the reason. *)
Fixpoint first_refused {A} (check : string → option A) (args : list string) : option A :=
  match args with
  | [] => None
  | arg :: args' => match check arg with Some why => Some why | None => first_refused check args' end
  end.

(** One check, and then the next. *)
Definition or_else {A} (x y : option A) : option A := match x with Some why => Some why | None => y end.

Definition check_spelling (c : ArgRule) (names : list string) : option arg_reason :=
  if bool_decide (DenySLS c = []) && bool_decide (AllowSLS c = []) then None
  else first_refused (λ arg, NotCanonical arg <$> CanonicalSLS arg) names.

Definition check_deny (c : ArgRule) (names : list string) : option arg_reason :=
  first_refused (λ arg, if matchAny (DenySLS c) arg then Some (DeniedSLS arg) else None) names.

Definition check_allow (c : ArgRule) (req : Request) : option arg_reason :=
  if bool_decide (AllowSLS c = []) then None
  else if bool_decide (rqFun req = "state.highstate") then Some (WholeHighstate (AllowSLS c))
  else if bool_decide (rqArg req = []) then Some (NamesNothing (AllowSLS c))
  else first_refused (λ arg, if matchAny (AllowSLS c) arg then None else Some (NotAllowedSLS arg (AllowSLS c))) (rqArg req).

Definition check_mods (c : ArgRule) (names : list string) : option arg_reason :=
  if bool_decide (AllowMods c = []) then None
  else if bool_decide (names = []) then Some (NoOrchestration (AllowMods c))
  else first_refused (λ arg, if matchAny (AllowMods c) arg then None else Some (NotAllowedMod arg (AllowMods c))) names.

Definition check_sls (c : ArgRule) (req : Request) (names : list string) : option arg_reason :=
  or_else (check_spelling c names) (or_else (check_deny c names) (or_else (check_allow c req) (check_mods c names))).

Definition check_kwargs (c : ArgRule) (kw : kwargs) : option arg_reason :=
  first_refused (λ k, first_refused (λ name, if bool_decide (name = k) || matchGlob k name
                                             then Some (DeniedKwarg name) else None) kw.*1) (DenyKwargs c).

(** The names are the arguments of a job, and those a runner will compile. *)
Definition check_request_names (c : ArgRule) (req : Request) : option arg_reason :=
  if rqRunner req && (negb (bool_decide (DenySLS c = [])) || negb (bool_decide (AllowMods c = []))) then
    if bool_decide (rqFun req = resumeRunner) && bool_decide (rqResumes req = None) then None
    else match runnerNames req with
         | inl why => Some why
         | inr names => check_sls c req names
         end
  else check_sls c req (rqArg req).

Definition checkArgRule (c : ArgRule) (req : Request) : option arg_reason :=
  let kw := wireKwargs req in
  or_else (check_kwargs c kw)
    (or_else (checkRequired (RequireKwargs c) kw) (or_else (checkEnv c req) (check_request_names c req))).

Fixpoint check_each (req : Request) (rules : list (string * ArgRule)) : option reason :=
  match rules with
  | [] => None
  | (written, c) :: rules' =>
      match checkArgRule c req with
      | Some why => Some (BadArgs (rqFun req) why written)
      | None => check_each req rules'
      end
  end.

Definition checkArgs (rule : Rule) (req : Request) : option reason :=
  check_each req (argRulesFor rule (rqFun req) (rqRunner req)).

(** ** The decision *)

Definition functionGranted (p : Policy) (rule : Rule) (fun_ : string) : bool :=
  existsb (λ pattern, bool_decide (pattern = fun_) || (matchGlob pattern fun_ && wildcardGrants p fun_)) (ruFunctions rule).

(** One rule of the loop: the request passes, or not, with the reason there is
    to report so far. *)
Definition judge (p : Policy) (req : Request) (kind : TKind) (rule : Rule) (best : reason) : unit + reason :=
  let args := match checkArgs rule req with Some why => inr why | None => inl tt end in
  if rqRunner req then
    if negb (matchAny (ruRunners rule) (rqFun req)) then inr best
    else if ReadsPillar (rqFun req) true && negb (namedExactly (ruRunners rule) (rqFun req))
    then inr (PillarWildcard (rqFun req) "runners")
    else args
  else if negb (targetCovered (ruTarget rule) kind (rqTarget req)) then inr best
  else if ReadsPillar (rqFun req) false && negb (namedExactly (ruFunctions rule) (rqFun req)) then
    inr (if matchAny (ruFunctions rule) (rqFun req) then PillarWildcard (rqFun req) "functions" else best)
  else if negb (functionGranted p rule (rqFun req)) then
    let best := if bool_decide (rqFun req ∈ pArbitraryCode p) && matchAny (ruFunctions rule) "*"
                then CodeWildcard (rqFun req) else best in
    inr (if bool_decide (Shipped p = None) && matchAny (ruFunctions rule) (rqFun req) then NoCatalog (rqFun req)
         else if negb (shipped p (rqFun req)) && matchAny (ruFunctions rule) (rqFun req) then NotShipped (rqFun req)
         else best)
  else args.

Fixpoint judge_rules (p : Policy) (req : Request) (kind : TKind) (role : string) (i : nat) (rules : list Rule)
    (best : reason) : Decision + reason :=
  match rules with
  | [] => inr best
  | rule :: rules' =>
      match judge p req kind rule best with
      | inl _ => inl (mkDecision true role i None)
      | inr best => judge_rules p req kind role (S i) rules' best
      end
  end.

Fixpoint judge_roles (p : Policy) (req : Request) (kind : TKind) (roles : list string) (best : reason) : Decision :=
  match roles with
  | [] => denied best
  | role :: roles' =>
      match judge_rules p req kind role 0 (rules_of p role) best with
      | inl d => d
      | inr best => judge_roles p req kind roles' best
      end
  end.

Definition AuthorizeAs (p : option Policy) (req : Request) (roles : list string) : Decision :=
  match p with
  | None => denied NoPolicy
  | Some p =>
      if bool_decide (roles = []) then denied (NoRole (rqPrincipal req) (pPath p))
      else if rqRunner req then judge_roles p req Glob roles (NoRule roles (rqFun req) None (rqTarget req))
      else match KindFromFlag (rqKind req) with
      | None => denied (NotKind (rqKind req))
      | Some kind =>
          judge_roles p req kind roles
            (NoRule roles (rqFun req) (if bool_decide (kind = Glob) then None else Some kind) (rqTarget req))
      end
  end.

(** The roles bound to a principal, each once, sorted. *)
Definition RolesFor (p : Policy) (principal : string) : list string :=
  merge_sort str_le
    (elements (list_to_set (Bindings p ≫= λ b, if matchPrincipal (bPrincipal b) principal then bRoles b else [])
               : gset string)).

Definition Authorize (p : option Policy) (req : Request) : Decision :=
  match p with
  | None => denied NoHubPolicy
  | Some pol => AuthorizeAs p req (RolesFor pol (rqPrincipal req))
  end.

Definition MayActFor (p : option Policy) (principal operator : string) : bool :=
  match p with
  | None => false
  | Some p =>
      if bool_decide (operator = "") then false
      else existsb (λ role, existsb (λ rule, existsb (λ pattern, matchPrincipal pattern operator) (ActFor rule))
                              (rules_of p role)) (RolesFor p principal)
  end.

Definition VisibleNode (p : option Policy) (roles : list string) (node : string) : bool :=
  match p with
  | None => false
  | Some p => existsb (λ role, existsb (λ rule, negb (bool_decide (ruTarget rule = "")) && literalCovered (ruTarget rule) node)
                                 (rules_of p role)) roles
  end.

Definition HasAnyRule (p : option Policy) (roles : list string) : bool :=
  match p with
  | None => false
  | Some p => existsb (λ role, existsb (λ rule, negb (bool_decide (ruFunctions rule = [])) ||
                                                 negb (bool_decide (ruRunners rule = []))) (rules_of p role)) roles
  end.

(** ** Scopes of runners (runnerscope.go) *)

#[warnings="-register-all"]
Inductive Scope := mkScope (targets : list string) (within : option Scope).

Fixpoint Covers (s : Scope) (node : string) : bool :=
  let 'mkScope targets within := s in
  match within with Some w => Covers w node | None => true end && existsb (λ t, literalCovered t node) targets.

Definition Within (s other : Scope) : Scope := let 'mkScope targets _ := s in mkScope targets (Some other).

Fixpoint Everything (s : Scope) : bool :=
  let 'mkScope targets within := s in
  match within with Some w => Everything w | None => true end && existsb (λ t, bool_decide (t = "*")) targets.

Definition scope_rule (fun_ : string) (sc : list string) (rule : Rule) : list string :=
  if negb (matchAny (ruRunners rule) fun_) then sc
  else if ReadsPillar fun_ true && negb (namedExactly (ruRunners rule) fun_) then sc
  else if bool_decide (ruTarget rule = "") || bool_decide (ruTarget rule ∈ sc) then sc
  else sc ++ [ruTarget rule].

Definition RunnerScopeFor (p : option Policy) (roles : list string) (fun_ : string) : Scope :=
  match p with
  | None => mkScope [] None
  | Some p => mkScope (foldl (λ sc role, foldl (scope_rule fun_) sc (rules_of p role)) [] roles) None
  end.

Definition RunnerScope (p : option Policy) (principal fun_ : string) : Scope :=
  match p with
  | None => mkScope [] None
  | Some pol => RunnerScopeFor p (RolesFor pol principal) fun_
  end.

(** ** What no argument rule holds (argfamily.go) *)

Record Unheld := mkUnheld { uPattern : string; uRunner : bool; uNames : list string; Granted : nat }.

Definition collect_unheld (p : Policy) (rule : Rule) (runner : bool) (catalog : list string) (pattern : string)
    : option Unheld :=
  let granted :=
    if negb (contains_any ["*"%char; "?"%char; "["%char] pattern) then [pattern]
    else filter (λ name, matchGlob pattern name && negb (ReadsPillar name runner) &&
                         (runner || wildcardGrants p name) = true) catalog in
  let names := filter (λ name, argRulesFor rule name runner = []) granted in
  if bool_decide (names = []) then None else Some (mkUnheld pattern runner names (length granted)).

Definition UnheldGrants (p : Policy) (rule : Rule) (runnerCatalog : list string) : list Unheld :=
  omap (collect_unheld p rule false (merge_sort str_le (elements (default ∅ (Shipped p))))) (ruFunctions rule) ++
  omap (collect_unheld p rule true (merge_sort str_le runnerCatalog)) (ruRunners rule).

(** ** Reading a policy file *)

Inductive load_error :=
| NotMapping | RolesNotMapping | BindingsNotList
| BindingNotMapping (i : nat) | NoPrincipal (i : nat) | UnknownRole (principal role : string)
| RoleNotList (role : string) | RuleNotMapping (role : string) (i : nat)
| UnknownKey (key what : string) (known : list string) (guess : string)
| NotString (key : string) (i : nat) (item : value) | NotStrings (key : string) (v : value)
| RequireNotMapping (v : value) | RequireNoName | RequireNotScalar (name : string) (v : value)
| GrantsNothing | ActForTarget | NoTarget | ArgsNotMapping | ArgNotMapping (fn : string)
| InRule (role : string) (i : nat) (e : load_error)
| InArgs (fn : string) (e : load_error)
| InBinding (principal : string) (e : load_error).

Definition as_map (v : value) : option Map :=
  match v with VMap m => Some m | VNilMap => Some (mkMap [] ∅ noPos) | _ => None end.

(** One row of the distance: [prev] is the row before, [left] the entry made last. *)
Fixpoint edit_row (ca : ascii) (b : list ascii) (prev : list nat) (left : nat) : list nat :=
  match b, prev with
  | cb :: b', p0 :: ((p1 :: _) as prev') =>
      let cost := if decide (ca = cb) then 0%nat else 1%nat in
      let cur := Nat.min (Nat.min (p1 + 1) (left + 1)) (p0 + cost) in
      cur :: edit_row ca b' prev' cur
  | _, _ => []
  end.

Fixpoint edit_rows (i : nat) (a b : list ascii) (prev : list nat) : list nat :=
  match a with
  | [] => prev
  | ca :: a' => edit_rows (S i) a' b (i :: edit_row ca b prev i)
  end.

Definition editDistance (a b : string) : nat :=
  let b := list_ascii_of_string b in
  default 0%nat (last (edit_rows 1 (list_ascii_of_string a) b (seq 0 (S (length b))))).

Definition closer (k : string) (limit : nat) (best : string * nat) (candidate : string) : string * nat :=
  let d := editDistance k candidate in
  if (limit <? d)%nat then best
  else if bool_decide (best.1 = "") || (d <? best.2)%nat then (candidate, d) else best.

Definition closestKey (k : string) (known : list string) : string :=
  let limit := if (String.length k <=? 3)%nat then 1%nat else 2%nat in
  (foldl (closer k limit) ("", 0%nat) known).1.

Definition ruleKeys : list string := ["act_for"; "args"; "functions"; "runners"; "target"].
Definition argRuleKeys : list string :=
  ["allow_env"; "allow_mods"; "allow_sls"; "deny_env"; "deny_kwargs"; "deny_sls"; "require_kwargs"].

Definition unknownKey (m : Map) (known : list string) (what : string) : option load_error :=
  match find (λ e, negb (bool_decide (KeyString (Key e) ∈ known))) (entries m) with
  | None => None
  | Some e => let k := KeyString (Key e) in Some (UnknownKey k what known (closestKey k known))
  end.

Fixpoint strings_of (key : string) (i : nat) (l : list value) : load_error + list string :=
  match l with
  | [] => inr []
  | VString s :: l' => match strings_of key (S i) l' with inr out => inr (s :: out) | e => e end
  | item :: _ => inl (NotString key i item)
  end.

Definition stringList (m : Map) (key : string) : load_error + list string :=
  match Get m (VString key) with
  | None | Some VNull => inr []
  | Some (VString t) => inr [t]
  | Some (VSeq t) => strings_of key 0 t
  | Some v => inl (NotStrings key v)
  end.

Fixpoint require_entries (l : list Entry) (out : gmap string value) : load_error + gmap string value :=
  match l with
  | [] => inr out
  | e :: l' =>
      let name := KeyString (Key e) in
      if bool_decide (name = "") then inl RequireNoName
      else match Val e with
      | VBool _ | VString _ | VInt _ | VFloat _ => require_entries l' (<[name := Val e]> out)
      | v => inl (RequireNotScalar name v)
      end
  end.

Definition requireKwargs (m : Map) : load_error + gmap string value :=
  match Get m (VString "require_kwargs") with
  | None | Some VNull => inr ∅
  | Some v =>
      match as_map v with
      | None => inl (RequireNotMapping v)
      | Some rm => require_entries (entries rm) ∅
      end
  end.

Definition or_fail {A B} (x : load_error + A) (k : A → load_error + B) : load_error + B :=
  match x with inl e => inl e | inr a => k a end.
Definition refuse_if {B} (e : option load_error) (k : load_error + B) : load_error + B :=
  match e with Some e => inl e | None => k end.
Local Notation "x '←?' e ';' k" := (or_fail e (λ x, k)) (at level 100, e at next level, k at level 200, right associativity).

Definition parseArgRule (cm : Map) : load_error + ArgRule :=
  refuse_if (unknownKey cm argRuleKeys "an argument rule")
  (req ←? requireKwargs cm;
   allow_sls ←? stringList cm "allow_sls"; deny_sls ←? stringList cm "deny_sls";
   allow_mods ←? stringList cm "allow_mods"; deny_kwargs ←? stringList cm "deny_kwargs";
   allow_env ←? stringList cm "allow_env"; deny_env ←? stringList cm "deny_env";
   inr (mkArgRule allow_sls deny_sls allow_env deny_env allow_mods deny_kwargs req)).

Fixpoint parse_arg_rules (l : list Entry) (out : gmap string ArgRule) : load_error + gmap string ArgRule :=
  match l with
  | [] => inr out
  | e :: l' =>
      let fn := KeyString (Key e) in
      match as_map (Val e) with
      | None => inl (ArgNotMapping fn)
      | Some cm =>
          match parseArgRule cm with
          | inl err => inl (InArgs fn err)
          | inr ar => parse_arg_rules l' (<[fn := ar]> out)
          end
      end
  end.

(** The checks on what a rule grants, before its arguments are read. *)
Definition check_grants (target : string) (functions runners act_for : list string) : option load_error :=
  if bool_decide (functions = []) && bool_decide (runners = []) && bool_decide (act_for = []) then Some GrantsNothing
  else if bool_decide (functions = []) && bool_decide (runners = []) && negb (bool_decide (target = ""))
  then Some ActForTarget
  else if negb (bool_decide (functions = [])) && bool_decide (target = "") then Some NoTarget
  else None.

Definition parseRule (m : Map) : load_error + Rule :=
  refuse_if (unknownKey m ruleKeys "a rule")
  (let target := match Get m (VString "target") with Some (VString t) => t | _ => "" end in
   functions ←? stringList m "functions"; runners ←? stringList m "runners"; act_for ←? stringList m "act_for";
   refuse_if (check_grants target functions runners act_for)
   (args ←? match Get m (VString "args") with
            | None => inr ∅
            | Some v => match as_map v with
                        | None => inl ArgsNotMapping
                        | Some am => parse_arg_rules (entries am) ∅
                        end
            end;
    inr (mkRule target functions runners args act_for))).

Fixpoint parse_rule_list (role : string) (i : nat) (l : list value) : load_error + list Rule :=
  match l with
  | [] => inr []
  | item :: l' =>
      match as_map item with
      | None => inl (RuleNotMapping role i)
      | Some m =>
          match parseRule m with
          | inl e => inl (InRule role i e)
          | inr r => rs ←? parse_rule_list role (S i) l'; inr (r :: rs)
          end
      end
  end.

Definition parseRules (role : string) (v : value) : load_error + list Rule :=
  match v with VSeq l => parse_rule_list role 0 l | _ => inl (RoleNotList role) end.

Fixpoint load_roles (l : list Entry) (out : gmap string (list Rule)) : load_error + gmap string (list Rule) :=
  match l with
  | [] => inr out
  | e :: l' => rules ←? parseRules (KeyString (Key e)) (Val e); load_roles l' (<[KeyString (Key e) := rules]> out)
  end.

Definition load_binding (roles : gmap string (list Rule)) (i : nat) (item : value) : load_error + Binding :=
  match as_map item with
  | None => inl (BindingNotMapping i)
  | Some m =>
      let principal := match Get m (VString "principal") with Some (VString s) => s | _ => "" end in
      if bool_decide (principal = "") then inl (NoPrincipal i)
      else match stringList m "roles" with
      | inl e => inl (InBinding principal e)
      | inr names =>
          match find (λ role, bool_decide (roles !! role = None)) names with
          | Some role => inl (UnknownRole principal role)
          | None => inr (mkBinding principal names)
          end
      end
  end.

Fixpoint load_bindings (roles : gmap string (list Rule)) (i : nat) (l : list value) : load_error + list Binding :=
  match l with
  | [] => inr []
  | item :: l' => b ←? load_binding roles i item; bs ←? load_bindings roles (S i) l'; inr (b :: bs)
  end.

(** Load, of the document the parser gave. *)
Definition Load (doc : value) (path : string) : load_error + Policy :=
  match doc with
  | VNull => inr (mkPolicy ∅ [] path ∅ None)
  | _ =>
      match as_map doc with
      | None => inl NotMapping
      | Some root =>
          roles ←? match Get root (VString "roles") with
                   | None => inr ∅
                   | Some v => match as_map v with None => inl RolesNotMapping | Some m => load_roles (entries m) ∅ end
                   end;
          bindings ←? match Get root (VString "bindings") with
                      | None => inr []
                      | Some (VSeq l) => load_bindings roles 0 l
                      | Some _ => inl BindingsNotList
                      end;
          inr (mkPolicy roles bindings path ∅ None)
      end
  end.
End decide.

(** ** Node identities are literals *)

Lemma id_rune_ascii r : id_rune r = true → r < 128.
Proof. unfold id_rune. rewrite !orb_true_iff, !andb_true_iff, !Z.leb_le, !Z.eqb_eq. lia. Qed.

Lemma valid_id_runes id : ValidateNodeID id = None → Forall (λ r, id_rune r = true) (runes id).
Proof.
  unfold ValidateNodeID. case_bool_decide; [done|]. repeat (case_match; [done|]).
  destruct (find _ _) eqn:E; [done|]. intros _. apply Forall_forall. intros r Hr.
  apply list_elem_of_In, (List.find_none _ _ E) in Hr. by destruct (id_rune r).
Qed.

Lemma valid_id_literal id : ValidateNodeID id = None → IsLiteral id = true.
Proof.
  intros Hid%valid_id_runes. destruct (ascii_runes id) as [Hv Hb].
  { eapply Forall_impl; [done|]. apply id_rune_ascii. }
  unfold IsLiteral. rewrite Hv, andb_true_r, negb_true_iff. apply contains_any_sall.
  rewrite <- Hb in Hid. clear -Hid. unfold bytes in Hid. induction id as [|a id IH]; [done|].
  apply Forall_cons in Hid as [Ha Hid]. split; [|by apply IH].
  intros Hm. repeat (apply elem_of_cons in Hm as [->|Hm]; [by vm_compute in Ha|]). by apply elem_of_nil in Hm.
Qed.

Lemma MatchGlob_valid id s : ValidateNodeID id = None → MatchGlob id s = bool_decide (id = s).
Proof.
  intros Hid. unfold MatchGlob. case_bool_decide as E; [subst; by vm_compute in Hid|].
  unfold Match. by rewrite valid_id_literal.
Qed.

Lemma literal_covered granted id : literalCovered granted id = true → MatchGlob granted id = true.
Proof.
  unfold literalCovered. case_bool_decide; [by subst|]. destruct (ValidateNodeID id) eqn:Hid; [done|].
  case_bool_decide; [subst; intros _|done]. rewrite MatchGlob_valid by done. by rewrite bool_decide_true.
Qed.

(** ** What a rule grants *)

Section granting.
Context `{Runtime}.

(** Two functions whose argument rules hold each other. *)
Definition same_family (runner : bool) (f g : string) : Prop :=
  f = g ∨ (f ∈ family runner ∧ g ∈ family runner).

(** Every argument rule written for the function or for its family is met. *)
Definition args_met (rule : Rule) (req : Request) : Prop :=
  ∀ fn c, ruArgs rule !! fn = Some c → same_family (rqRunner req) (rqFun req) fn → checkArgRule c req = None.

(** A rule grants a request: a runner by a pattern of [runners], a function
    within the rule's target by its name, or by a pattern if this build ships
    it and it neither runs code of the caller's nor reads pillar; and the
    arguments are met. *)
Definition grants (p : Policy) (req : Request) (rule : Rule) : Prop :=
  (if rqRunner req then
     (∃ pat, pat ∈ ruRunners rule ∧ (pat = rqFun req ∨ matchGlob pat (rqFun req) = true)) ∧
     (rqFun req ∈ pillarRunners → rqFun req ∈ ruRunners rule)
   else
     (∃ kind, KindFromFlag (rqKind req) = Some kind ∧ targetCovered (ruTarget rule) kind (rqTarget req) = true) ∧
     (rqFun req ∈ ruFunctions rule ∨
      ((∃ pat, pat ∈ ruFunctions rule ∧ matchGlob pat (rqFun req) = true) ∧
       shipped p (rqFun req) = true ∧ (rqFun req ∉ pArbitraryCode p) ∧ (rqFun req ∉ pillarFunctions)))) ∧
  args_met rule req.

Lemma matchAny_spec pats s : matchAny pats s = true ↔ ∃ pat, pat ∈ pats ∧ (pat = s ∨ matchGlob pat s = true).
Proof.
  unfold matchAny. rewrite existsb_exists. setoid_rewrite <- list_elem_of_In.
  split; intros (pat & Hp & Hm); exists pat; (split; [done|]).
  - apply orb_true_iff in Hm as [Hm%bool_decide_eq_true|Hm]; auto.
  - destruct Hm as [-> | ->]; [by rewrite bool_decide_true|apply orb_true_r].
Qed.

Lemma family_members f runner g :
  g ∈ ArgumentFamily f runner ↔ f ∈ family runner ∧ g ∈ family runner.
Proof.
  unfold ArgumentFamily. case_bool_decide as E.
  - rewrite (merge_sort_Permutation str_le). tauto.
  - split; [by intros ?%elem_of_nil|tauto].
Qed.

Lemma argRulesFor_spec rule f runner fn c :
  (fn, c) ∈ argRulesFor rule f runner ↔ ruArgs rule !! fn = Some c ∧ same_family runner f fn.
Proof.
  unfold argRulesFor, same_family. rewrite elem_of_app, list_elem_of_omap. setoid_rewrite family_members. split.
  - intros [Hown|(g & Hg & Hc)].
    + destruct (ruArgs rule !! f) eqn:E; [|by apply elem_of_nil in Hown]. apply list_elem_of_singleton in Hown. naive_solver.
    + case_bool_decide; [done|]. destruct (ruArgs rule !! g) eqn:E; naive_solver.
  - intros [Hc Hf]. destruct (decide (fn = f)) as [->|Hne].
    + left. rewrite Hc. by apply list_elem_of_singleton.
    + right. exists fn. rewrite bool_decide_false, Hc by done. naive_solver.
Qed.

Lemma check_each_spec req rules :
  check_each req rules = None ↔ ∀ w c, (w, c) ∈ rules → checkArgRule c req = None.
Proof.
  induction rules as [|[w c] rules IH]; cbn [check_each].
  { split; [|done]. by intros _ ? ? ?%elem_of_nil. }
  destruct (checkArgRule c req) eqn:E.
  - split; [done|]. intros Hall. specialize (Hall w c ltac:(by left)). congruence.
  - rewrite IH. split; [|by intros Hall w' c' Hin; apply (Hall w' c'); right].
    intros Hall w' c' [[= -> ->]|Hin]%elem_of_cons; [done|by eapply Hall].
Qed.

Lemma checkArgs_spec rule req : checkArgs rule req = None ↔ args_met rule req.
Proof.
  unfold checkArgs, args_met. rewrite check_each_spec. setoid_rewrite argRulesFor_spec. naive_solver.
Qed.

Lemma functionGranted_spec p rule f :
  functionGranted p rule f = true ↔
  f ∈ ruFunctions rule ∨
  (∃ pat, pat ∈ ruFunctions rule ∧ matchGlob pat f = true) ∧ shipped p f = true ∧ f ∉ pArbitraryCode p.
Proof.
  unfold functionGranted, wildcardGrants. rewrite existsb_exists. setoid_rewrite <- list_elem_of_In. split.
  - intros (pat & Hp & Hm). apply orb_true_iff in Hm as [->%bool_decide_eq_true|Hm]; [by left|right].
    apply andb_true_iff in Hm as [Hm (Hs & Hc%negb_true_iff%bool_decide_eq_false)%andb_true_iff]. eauto.
  - intros [Hin|((pat & Hp & Hm) & Hs & Hc)]; [exists f; by rewrite (bool_decide_true (f = f))|].
    exists pat. rewrite Hm, Hs, (bool_decide_false (f ∈ _)) by done. split; [done|apply orb_true_r].
Qed.

(** A request's kind, as the loop has it: of no account for a runner. *)
Definition kind_read (req : Request) (kind : TKind) : Prop :=
  rqRunner req = false → KindFromFlag (rqKind req) = Some kind.

Lemma judge_grants p req kind rule best :
  kind_read req kind → judge p req kind rule best = inl tt ↔ grants p req rule.
Proof.
  unfold kind_read, judge, grants, ReadsPillar, namedExactly. intros Hk. rewrite <- checkArgs_spec.
  assert (∀ x : option reason, match x with Some why => inr why | None => inl tt end = inl (B:=reason) tt ↔ x = None) as Ha
    by (by intros []).
  destruct (rqRunner req) eqn:Er.
  - rewrite <- matchAny_spec. destruct (matchAny _ _); cbn [negb]; [|naive_solver].
    repeat case_bool_decide; cbn [negb andb]; rewrite ?Ha; naive_solver.
  - specialize (Hk eq_refl). rewrite Hk.
    assert ((∃ k, Some kind = Some k ∧ targetCovered (ruTarget rule) k (rqTarget req) = true) ↔
            targetCovered (ruTarget rule) kind (rqTarget req) = true) as -> by naive_solver.
    destruct (targetCovered _ _ _); cbn [negb]; [|naive_solver].
    pose proof (functionGranted_spec p rule (rqFun req)) as Hf.
    destruct (decide (rqFun req ∈ pillarFunctions)) as [Hp|Hp];
      [rewrite (bool_decide_true _ Hp)|rewrite (bool_decide_false _ Hp)];
    destruct (decide (rqFun req ∈ ruFunctions rule)) as [Hn|Hn];
      rewrite ?(bool_decide_true (rqFun req ∈ ruFunctions rule) Hn), ?(bool_decide_false (rqFun req ∈ ruFunctions rule) Hn);
    destruct (functionGranted _ _ _); cbn [negb andb]; rewrite ?Ha; clear Ha Hk; try (split; [done|]); naive_solver.
Qed.

Lemma judge_rules_spec p req kind role i rules best :
  kind_read req kind →
  match judge_rules p req kind role i rules best with
  | inl d => ∃ k rule, d = mkDecision true role (i + k) None ∧ rules !! k = Some rule ∧ grants p req rule
  | inr _ => ∀ rule, rule ∈ rules → ¬ grants p req rule
  end.
Proof.
  intros Hk. revert i best. induction rules as [|rule rules IH]; intros i best; cbn [judge_rules].
  { by intros ? ?%elem_of_nil. }
  pose proof (judge_grants p req kind rule best Hk) as Hj. destruct (judge p req kind rule best) as [[]|best'].
  - exists 0%nat, rule. rewrite Nat.add_0_r. split_and!; [done|done|]. by apply Hj.
  - specialize (IH (S i) best'). destruct (judge_rules _ _ _ _ _ _ _) as [d|b0].
    + destruct IH as (k & r & -> & Hl & Hg). exists (S k), r. by rewrite Nat.add_succ_r.
    + intros r [->|Hin]%elem_of_cons; [|by apply IH]. rewrite <- Hj. done.
Qed.

(** Decided by a rule of one of the roles. *)
Definition decided_by (p : Policy) (req : Request) (roles : list string) (d : Decision) : Prop :=
  ∃ rule, dRole d ∈ roles ∧ rules_of p (dRole d) !! RuleIndex d = Some rule ∧ grants p req rule.

Lemma judge_roles_spec p req kind roles best :
  kind_read req kind →
  let d := judge_roles p req kind roles best in
  (Allowed d = true → decided_by p req roles d) ∧
  ∀ role rule, role ∈ roles → rule ∈ rules_of p role → grants p req rule → Allowed d = true.
Proof.
  intros Hk. revert best. induction roles as [|role roles IH]; intros best; cbn [judge_roles].
  { split; [done|]. by intros ? ? ?%elem_of_nil. }
  pose proof (judge_rules_spec p req kind role 0 (rules_of p role) best Hk) as Hr.
  destruct (judge_rules _ _ _ _ _ _ _) as [d|best'].
  - destruct Hr as (k & rule & -> & Hl & Hg). split; [|done]. intros _. exists rule. split; [by left|done].
  - destruct (IH best') as [IH1 IH2]. split.
    + intros Ha. destruct (IH1 Ha) as (rule & Hin & Hrest). exists rule. split; [by right|done].
    + intros role' rule [->|Hin]%elem_of_cons Hrule Hg; [by apply Hr in Hrule|by eapply IH2].
Qed.

Lemma authorized_spec p req roles :
  let d := AuthorizeAs (Some p) req roles in
  (Allowed d = true → decided_by p req roles d) ∧
  ∀ role rule, role ∈ roles → rule ∈ rules_of p role → grants p req rule → Allowed d = true.
Proof.
  cbn [AuthorizeAs]. case_bool_decide as En; [subst; split; [done|by intros ? ? ?%elem_of_nil]|].
  destruct (rqRunner req) eqn:Er; [apply judge_roles_spec; intros ?; congruence|].
  destruct (KindFromFlag (rqKind req)) as [kind|] eqn:Ek; [apply judge_roles_spec; by intros _|].
  split; [done|]. intros role rule _ _ [Hg _]. rewrite Er in Hg. destruct Hg as [(k & Hk & _) _]. congruence.
Qed.

Lemma Authorize_roles p req : Authorize (Some p) req = AuthorizeAs (Some p) req (RolesFor p (rqPrincipal req)).
Proof. done. Qed.

(** A principal holds a role when a binding whose pattern matches it lists the role. *)
Lemma RolesFor_spec p principal role :
  role ∈ RolesFor p principal ↔ ∃ b, b ∈ Bindings p ∧ matchPrincipal (bPrincipal b) principal = true ∧ role ∈ bRoles b.
Proof.
  unfold RolesFor. rewrite (merge_sort_Permutation str_le), elem_of_elements, elem_of_list_to_set, list_elem_of_bind.
  split.
  - intros (b & Hr & Hb). destruct (matchPrincipal _ _) eqn:E; [|by apply elem_of_nil in Hr]. eauto.
  - intros (b & Hb & Hm & Hr). exists b. by rewrite Hm.
Qed.

(** C16: A request is allowed exactly when one rule of one role the principal is
    bound to grants it whole: the target, the function and every argument rule
    of the function's family, in the same rule.  The decision names that rule.
    Nothing is allowed without a policy. *)
Theorem allowed_by_one_rule p req :
  let d := Authorize p req in
  (Allowed d = true ↔
     ∃ pol b role rule, p = Some pol ∧ b ∈ Bindings pol ∧ matchPrincipal (bPrincipal b) (rqPrincipal req) = true ∧
       role ∈ bRoles b ∧ rule ∈ rules_of pol role ∧ grants pol req rule) ∧
  (Allowed d = true →
     ∃ pol rule, p = Some pol ∧ rules_of pol (dRole d) !! RuleIndex d = Some rule ∧ grants pol req rule).
Proof.
  destruct p as [pol|]; [|split; [split; [done|naive_solver]|done]].
  cbn [Authorize]. set (roles := RolesFor pol (rqPrincipal req)).
  destruct (authorized_spec pol req roles) as [H1 H2]. split; [split|].
  - intros (rule & Hin & Hl & Hg)%H1. apply RolesFor_spec in Hin as (b & Hb & Hm & Hr).
    exists pol, b, (dRole (AuthorizeAs (Some pol) req roles)), rule. split_and!; [done..|by eapply list_elem_of_lookup_2|done].
  - intros (pol' & b & role & rule & [= <-] & Hb & Hm & Hr & Hrule & Hg). eapply H2; [|done|done].
    apply RolesFor_spec. eauto.
  - intros (rule & _ & Hl & Hg)%H1. eauto.
Qed.
End granting.

(** ** What an authorized job reaches, runs and names *)

Section reach.
Context `{Runtime} `{NetIP} (regex_Compile : string → option (string → bool)).

Lemma covered_reach granted kind asked groups m n :
  targetCovered granted kind asked = true → Compile regex_Compile kind asked groups = Some (inr m) →
  MatcherMatch m n = true → MatchGlob granted (nID n) = true.
Proof.
  unfold targetCovered. case_bool_decide as Hstar; [by subst|].
  intros Hc (f & Hf & Hm)%compiled_means. rewrite Hm. destruct kind; try done; rewrite Hf; cbn [leaf_spec].
  - case_bool_decide as E; [by subst|]. cbn [orb] in Hc. unfold literalCovered in Hc. rewrite bool_decide_false in Hc by done.
    destruct (ValidateNodeID asked) eqn:Hid; [done|]. rewrite MatchGlob_valid by done.
    intros <-%bool_decide_eq_true. by rewrite bool_decide_false in Hc.
  - case_bool_decide; [done|]. intros Hin%bool_decide_eq_true. apply literal_covered.
    rewrite forallb_forall in Hc. by apply Hc, list_elem_of_In.
Qed.

(** A job that is authorized reaches no node outside the rule that allowed
    it: whatever the kind of target it was asked with, every node the compiled
    target matches is matched by the target of that rule as a glob, and the
    same rule grants the function. *)
Theorem authorized_reaches p req kind groups m :
  Allowed (Authorize (Some p) req) = true → rqRunner req = false →
  KindFromFlag (rqKind req) = Some kind → Compile regex_Compile kind (rqTarget req) groups = Some (inr m) →
  ∃ rule, rules_of p (dRole (Authorize (Some p) req)) !! RuleIndex (Authorize (Some p) req) = Some rule ∧
    matchAny (ruFunctions rule) (rqFun req) = true ∧
    ∀ n, MatcherMatch m n = true → MatchGlob (ruTarget rule) (nID n) = true.
Proof.
  rewrite Authorize_roles. intros (rule & _ & Hl & Hg & _)%authorized_spec Er Hk Hm. exists rule. split; [done|].
  rewrite Er in Hg. destruct Hg as [(k & Hk' & Hc) Hf]. split; [|intros n; eapply covered_reach; [|done]; congruence].
  apply matchAny_spec. destruct Hf as [Hf|((pat & Hp & Hpm) & _)]; eauto.
Qed.

(** C30: No pattern grants a function that runs code of the caller's, one this
    build does not ship, or one that reads pillar: if a job (a request that is
    not for a runner) with such a function is authorized, the very rule that
    allowed it, of a role of the principal, lists the function by its name, and
    no node the job's target matches is outside the target of that rule. *)
Theorem wildcards_never_grant_code p registries req :
  let pol := UseCatalog p registries in
  let d := Authorize (Some pol) req in
  Allowed d = true → rqRunner req = false →
  (∃ r sig, r ∈ registries ∧ r !! rqFun req = Some sig ∧ ArbitraryCode sig = true) ∨
  ((rqFun req ∉ JobFunctions) ∧ ∀ r, r ∈ registries → r !! rqFun req = None) ∨ rqFun req ∈ pillarFunctions →
  ∃ rule, dRole d ∈ RolesFor pol (rqPrincipal req) ∧ rules_of pol (dRole d) !! RuleIndex d = Some rule ∧
    rqFun req ∈ ruFunctions rule ∧
    ∀ kind groups m n, KindFromFlag (rqKind req) = Some kind → Compile regex_Compile kind (rqTarget req) groups = Some (inr m) →
      MatcherMatch m n = true → MatchGlob (ruTarget rule) (nID n) = true.
Proof.
  cbn zeta. rewrite Authorize_roles. intros (rule & Hr & Hl & Hg & _)%authorized_spec Er Hd. rewrite Er in Hg.
  destruct Hg as [(k & Hk & Hcov) [Hf|(_ & Hs & Hc & Hp)]].
  { exists rule. split_and!; [done..|]. intros kind groups m n Hk' Hm. eapply covered_reach; [|done]. congruence. }
  exfalso. destruct Hd as [(r & sig & Hin & Hsig & Ha)|[[Hj Hn]|Hd]]; [apply Hc| |done].
  - cbn [pArbitraryCode UseCatalog]. apply elem_of_union_list. eexists. split; [by apply list_elem_of_fmap_2|].
    apply elem_of_dom. exists sig. by apply map_lookup_filter_Some.
  - unfold shipped, UseCatalog in Hs. cbn [Shipped] in Hs. apply bool_decide_eq_true, elem_of_union in Hs as [Hs|Hs].
    + by apply elem_of_list_to_set in Hs.
    + apply elem_of_union_list in Hs as (d & (r & -> & Hin)%list_elem_of_fmap & [sig Hd]%elem_of_dom).
      specialize (Hn r Hin). congruence.
Qed.
End reach.

(** ** What an argument rule demands *)

Section arguments.
Context `{Runtime}.

Lemma first_refused_None {A} (check : string → option A) args :
  first_refused check args = None ↔ ∀ a, a ∈ args → check a = None.
Proof.
  induction args as [|a args IH]; cbn [first_refused]; [split; [by intros _ ? ?%elem_of_nil|done]|].
  destruct (check a) eqn:E.
  - split; [done|]. intros Hall. specialize (Hall a ltac:(by left)). congruence.
  - rewrite IH. split; [|by intros Hall b Hb; apply Hall; right]. intros Hall b [->|Hb]%elem_of_cons; auto.
Qed.

Lemma check_names_None required kw names :
  check_names required kw names = None ↔
  ∀ name want, name ∈ names → required !! name = Some want → ∃ got, get_kwarg name kw = Some got ∧ sameScalar want got = true.
Proof.
  induction names as [|n names IH]; cbn [check_names]; [split; [by intros _ ? ? ?%elem_of_nil|done]|].
  destruct (required !! n) as [want|] eqn:Er.
  2: { rewrite IH. split; [|by intros Hall m w Hm; apply Hall; right].
       intros Hall m w [->|Hm]%elem_of_cons Hw; [congruence|by eapply Hall]. }
  destruct (get_kwarg n kw) as [got|] eqn:Eg.
  2: { split; [done|]. intros Hall. destruct (Hall n want ltac:(by left) Er) as (? & ? & _). congruence. }
  destruct (sameScalar want got) eqn:Es.
  2: { split; [done|]. intros Hall. destruct (Hall n want ltac:(by left) Er) as (? & ? & ?). congruence. }
  rewrite IH. split; [|by intros Hall m w Hm; apply Hall; right].
  intros Hall m w [->|Hm]%elem_of_cons Hw; [|by eapply Hall]. exists got. split; congruence.
Qed.

Lemma checkRequired_None required kw :
  checkRequired required kw = None ↔
  ∀ name want, required !! name = Some want → ∃ got, get_kwarg name kw = Some got ∧ sameScalar want got = true.
Proof.
  unfold checkRequired. rewrite check_names_None. split; [|by eauto].
  intros Hall name want Hw. apply (Hall name want); [|done].
  rewrite (merge_sort_Permutation str_le), elem_of_elements. by apply elem_of_dom_2 in Hw.
Qed.

(** What deny_sls, allow_sls and allow_mods demand of the names. *)
Definition names_met (c : ArgRule) (req : Request) (names : list string) : Prop :=
  ((DenySLS c ≠ [] ∨ AllowSLS c ≠ []) → ∀ a, a ∈ names → CanonicalSLS a = None) ∧
  (∀ a, a ∈ names → matchAny (DenySLS c) a = false) ∧
  (AllowSLS c ≠ [] → rqFun req ≠ "state.highstate" ∧ rqArg req ≠ [] ∧ ∀ a, a ∈ rqArg req → matchAny (AllowSLS c) a = true) ∧
  (AllowMods c ≠ [] → names ≠ [] ∧ ∀ a, a ∈ names → matchAny (AllowMods c) a = true).

Lemma or_else_None {A} (x y : option A) : or_else x y = None ↔ x = None ∧ y = None.
Proof. destruct x; naive_solver. Qed.

Lemma allow_refused {A} (pats args : list string) (why : string → A) :
  first_refused (λ a, if matchAny pats a then None else Some (why a)) args = None ↔ ∀ x, x ∈ args → matchAny pats x = true.
Proof. rewrite first_refused_None. split; intros Hall x Hx; specialize (Hall x Hx); by destruct (matchAny pats x). Qed.

Lemma check_spelling_None c names :
  check_spelling c names = None ↔ ((DenySLS c ≠ [] ∨ AllowSLS c ≠ []) → ∀ a, a ∈ names → CanonicalSLS a = None).
Proof.
  unfold check_spelling. destruct (decide (DenySLS c = [] ∧ AllowSLS c = [])) as [[Hd Ha]|Hn].
  { rewrite Hd, Ha. split; [|done]. intros _ []; congruence. }
  replace (_ && _) with false by (repeat case_bool_decide; naive_solver). rewrite first_refused_None.
  split; intros Hall; [intros _|]; intros x Hx.
  - specialize (Hall x Hx). by destruct (CanonicalSLS x).
  - rewrite Hall; [done| |done]. destruct (decide (DenySLS c = [])); naive_solver.
Qed.

Lemma check_deny_None c names : check_deny c names = None ↔ ∀ a, a ∈ names → matchAny (DenySLS c) a = false.
Proof.
  unfold check_deny. rewrite first_refused_None.
  split; intros Hall x Hx; specialize (Hall x Hx); by destruct (matchAny (DenySLS c) x).
Qed.

Lemma check_sls_None c req names : check_sls c req names = None ↔ names_met c req names.
Proof.
  unfold check_sls, names_met. rewrite !or_else_None, check_spelling_None, check_deny_None.
  unfold check_allow, check_mods. repeat case_bool_decide; rewrite ?allow_refused; naive_solver.
Qed.

Lemma check_kwargs_None c kw :
  check_kwargs c kw = None ↔ ∀ k name v, k ∈ DenyKwargs c → (name, v) ∈ kw → name ≠ k ∧ matchGlob k name = false.
Proof.
  unfold check_kwargs. rewrite first_refused_None. setoid_rewrite first_refused_None. split.
  - intros Hall k name v Hk Hn. specialize (Hall k Hk name (list_elem_of_fmap_2' _ _ (name, v) _ Hn eq_refl)).
    case_bool_decide; [done|]. cbn [orb] in Hall. by destruct (matchGlob k name).
  - intros Hall k Hk name ([name' v] & -> & Hn)%list_elem_of_fmap. cbn [fst]. destruct (Hall k name' v Hk Hn) as [Hne Hg].
    by rewrite bool_decide_false, Hg.
Qed.

Lemma checkEnv_job c req :
  rqRunner req = false →
  checkEnv c req = None ↔
  (rqEnv req ≠ "" → matchAny (DenyEnv c) (rqEnv req) = false ∧ (AllowEnv c ≠ [] → matchAny (AllowEnv c) (rqEnv req) = true)).
Proof.
  intros Er. unfold checkEnv, requestEnv. rewrite Er. cbn [negb].
  destruct (decide (AllowEnv c = [] ∧ DenyEnv c = [])) as [[Ha Hd]|Hn].
  { rewrite Ha, Hd. cbn. split; [|done]. intros _ _. by split. }
  replace (_ && _) with false by (repeat case_bool_decide; naive_solver).
  case_bool_decide; [naive_solver|]. destruct (matchAny (DenyEnv c) _) eqn:Ed; [naive_solver|].
  case_bool_decide; cbn [negb andb]; [naive_solver|]. destruct (matchAny (AllowEnv c) _); naive_solver.
Qed.

(** A job meets an argument rule when no keyword is a denied one, every required
    one has its value, its environment, if it names one, is allowed, and its
    names are. *)
Lemma job_meets_rule c req :
  rqRunner req = false →
  checkArgRule c req = None ↔
  (∀ k name v, k ∈ DenyKwargs c → (name, v) ∈ wireKwargs req → name ≠ k ∧ matchGlob k name = false) ∧
  (∀ name want, RequireKwargs c !! name = Some want →
     ∃ got, get_kwarg name (wireKwargs req) = Some got ∧ sameScalar want got = true) ∧
  (rqEnv req ≠ "" → matchAny (DenyEnv c) (rqEnv req) = false ∧ (AllowEnv c ≠ [] → matchAny (AllowEnv c) (rqEnv req) = true)) ∧
  names_met c req (rqArg req).
Proof.
  intros Er. unfold checkArgRule.
  rewrite !or_else_None, check_kwargs_None, checkRequired_None, checkEnv_job by done.
  unfold check_request_names. rewrite Er. cbn [andb]. by rewrite check_sls_None.
Qed.

Lemma JobFunction_spec f fn : JobFunction f = Some fn → f = "state." +:+ fn ∧ f ∈ JobFunctions.
Proof.
  unfold JobFunction. destruct (has_prefix "state." f) eqn:Ep; [|done].
  assert (f = "state." +:+ sdrop 6 f) as Hf.
  { do 6 (destruct f as [|? f]; [done|]; cbn [has_prefix] in Ep; case_decide; [subst|done]). done. }
  case_bool_decide as Hin; [|done]. intros [= <-]. split; [done|]. rewrite Hf. by apply list_elem_of_fmap_2.
Qed.


(** ** Scopes *)

(** A rule that grants a runner, by the test of Authorize. *)
Definition runner_granted (rule : Rule) (f : string) : Prop :=
  matchAny (ruRunners rule) f = true ∧ (f ∈ pillarRunners → f ∈ ruRunners rule).

Lemma scope_rule_spec f sc rule t :
  t ∈ scope_rule f sc rule ↔ t ∈ sc ∨ (t = ruTarget rule ∧ t ≠ "" ∧ runner_granted rule f).
Proof.
  unfold scope_rule, runner_granted, ReadsPillar, namedExactly.
  destruct (matchAny (ruRunners rule) f); cbn [negb]; [|naive_solver].
  repeat case_bool_decide; cbn [negb andb orb]; rewrite ?elem_of_app, ?list_elem_of_singleton; naive_solver.
Qed.

Lemma scope_rules_spec f rules sc t :
  t ∈ foldl (scope_rule f) sc rules ↔
  t ∈ sc ∨ ∃ rule, rule ∈ rules ∧ t = ruTarget rule ∧ t ≠ "" ∧ runner_granted rule f.
Proof.
  revert sc. induction rules as [|rule rules IH]; intros sc; cbn [foldl].
  { split; [by left|]. intros [?|(? & ?%elem_of_nil & _)]; done. }
  rewrite IH, scope_rule_spec. setoid_rewrite elem_of_cons. naive_solver.
Qed.

Lemma scope_targets p f roles sc t :
  t ∈ foldl (λ sc role, foldl (scope_rule f) sc (rules_of p role)) sc roles ↔
  t ∈ sc ∨ ∃ role rule, role ∈ roles ∧ rule ∈ rules_of p role ∧ t = ruTarget rule ∧ t ≠ "" ∧ runner_granted rule f.
Proof.
  revert sc. induction roles as [|role roles IH]; intros sc; cbn [foldl].
  { split; [by left|]. intros [?|(? & ? & ?%elem_of_nil & _)]; done. }
  rewrite IH, scope_rules_spec. setoid_rewrite elem_of_cons. naive_solver.
Qed.

(** A runner reaches the nodes covered by the targets of the rules that
    grant it, by the test that authorizes it, and no others; narrowed to the
    scope of the operator it acts for, the nodes inside both. *)
Theorem runner_scope_is_what_is_granted p roles f node other :
  (Covers (RunnerScopeFor (Some p) roles f) node = true ↔
     ∃ role rule, role ∈ roles ∧ rule ∈ rules_of p role ∧ ruTarget rule ≠ "" ∧ runner_granted rule f ∧
       literalCovered (ruTarget rule) node = true) ∧
  (Covers (Within (RunnerScopeFor (Some p) roles f) other) node = true ↔
     Covers (RunnerScopeFor (Some p) roles f) node = true ∧ Covers other node = true) ∧
  Covers (RunnerScopeFor None roles f) node = false.
Proof.
  split_and!; [|cbn [Covers Within RunnerScopeFor andb]; rewrite andb_true_iff; tauto|done].
  cbn [Covers RunnerScopeFor andb]. rewrite existsb_exists. setoid_rewrite <- list_elem_of_In.
  setoid_rewrite scope_targets. setoid_rewrite elem_of_nil. naive_solver.
Qed.
End arguments.

(** ** A policy that loads *)

Section loading.
Context `{Runtime}.

Definition rule_wf (r : Rule) : Prop :=
  (ruFunctions r ≠ [] ∨ ruRunners r ≠ [] ∨ ActFor r ≠ []) ∧ (ruFunctions r ≠ [] → ruTarget r ≠ "") ∧
  (ruFunctions r = [] → ruRunners r = [] → ruTarget r = "").

Definition policy_wf (p : Policy) : Prop :=
  map_Forall (λ _ rules, Forall rule_wf rules) (Roles p) ∧
  Forall (λ b, bPrincipal b ≠ "" ∧ Forall (λ role, is_Some (Roles p !! role)) (bRoles b)) (Bindings p).

Definition keys_known (m : Map) (known : list string) : Prop := Forall (λ e, KeyString (Key e) ∈ known) (entries m).

(** The document of a rule: its keys, and those of its argument rules, are known. *)
Definition rule_doc (m : Map) : Prop :=
  keys_known m ruleKeys ∧
  ∀ v am, Get m (VString "args") = Some v → as_map v = Some am →
    Forall (λ e, ∃ cm, as_map (Val e) = Some cm ∧ keys_known cm argRuleKeys) (entries am).

Definition role_doc (v : value) : Prop :=
  ∃ l, v = VSeq l ∧ Forall (λ item, ∃ m, as_map item = Some m ∧ rule_doc m) l.

Lemma unknownKey_None m known what : unknownKey m known what = None → keys_known m known.
Proof.
  unfold unknownKey, keys_known. destruct (find _ _) eqn:E; [done|]. intros _. apply Forall_forall. intros e He.
  apply list_elem_of_In, (List.find_none _ _ E), negb_false_iff, bool_decide_eq_true in He. done.
Qed.

Lemma parse_arg_rules_known l out args :
  parse_arg_rules l out = inr args → Forall (λ e, ∃ cm, as_map (Val e) = Some cm ∧ keys_known cm argRuleKeys) l.
Proof.
  revert out. induction l as [|e l IH]; intros out; cbn [parse_arg_rules]; [by constructor|].
  destruct (as_map (Val e)) as [cm|] eqn:Em; [|done]. destruct (parseArgRule cm) as [|ar] eqn:Ep; [done|].
  intros Hl. constructor; [|by eapply IH]. exists cm. split; [done|].
  unfold parseArgRule, refuse_if in Ep. destruct (unknownKey _ _ _) eqn:Eu; [done|]. by eapply unknownKey_None.
Qed.

Lemma check_grants_None t fs rs act args : check_grants t fs rs act = None → rule_wf (mkRule t fs rs args act).
Proof. unfold check_grants, rule_wf. cbn. repeat case_bool_decide; naive_solver. Qed.

Lemma parseRule_wf m r : parseRule m = inr r → rule_wf r ∧ rule_doc m.
Proof.
  unfold parseRule, refuse_if, or_fail. destruct (unknownKey _ _ _) eqn:Eu; [done|].
  do 3 (destruct (stringList m _); [done|]). destruct (check_grants _ _ _ _) eqn:Eg; [done|].
  destruct (match Get m (VString "args") with None => _ | Some _ => _ end) as [|args] eqn:Ea; [done|]. intros [= <-].
  split; [by apply check_grants_None|]. split; [by eapply unknownKey_None|].
  intros v am Hv Ham. rewrite Hv, Ham in Ea. by eapply parse_arg_rules_known.
Qed.

Lemma parse_rule_list_wf role i l rules :
  parse_rule_list role i l = inr rules →
  Forall rule_wf rules ∧ Forall (λ item, ∃ m, as_map item = Some m ∧ rule_doc m) l.
Proof.
  revert i rules. induction l as [|item l IH]; intros i rules; cbn [parse_rule_list]; [by intros [= <-]|].
  destruct (as_map item) as [m|] eqn:Em; [|done]. destruct (parseRule m) as [|r] eqn:Er; [done|].
  unfold or_fail. destruct (parse_rule_list role (S i) l) as [|rs] eqn:El; [done|]. intros [= <-].
  apply IH in El as [Hw Hd]. apply parseRule_wf in Er as [Hr Hm]. split; constructor; eauto.
Qed.

Lemma load_roles_wf l out roles :
  load_roles l out = inr roles → map_Forall (λ _ rules, Forall rule_wf rules) out →
  map_Forall (λ _ rules, Forall rule_wf rules) roles ∧ Forall (λ e, role_doc (Val e)) l.
Proof.
  revert out. induction l as [|e l IH]; intros out; cbn [load_roles]; [by intros [= <-]|].
  unfold or_fail at 1, parseRules. destruct (Val e) as [| | | | | | |items| | | |] eqn:Ev; try done.
  destruct (parse_rule_list _ _ items) as [|rules] eqn:Ep; [done|]. intros Hl Ho.
  apply parse_rule_list_wf in Ep as [Hw Hd]. destruct (IH _ Hl) as [Hr Hf]; [by apply map_Forall_insert_2|].
  split; [done|]. constructor; [|done]. rewrite Ev. by exists items.
Qed.

Lemma load_bindings_wf roles i l bs :
  load_bindings roles i l = inr bs →
  Forall (λ b, bPrincipal b ≠ "" ∧ Forall (λ role, is_Some (roles !! role)) (bRoles b)) bs.
Proof.
  revert i bs. induction l as [|item l IH]; intros i bs; cbn [load_bindings]; [by intros [= <-]|].
  unfold or_fail. destruct (load_binding roles i item) as [|b] eqn:Eb; [done|].
  destruct (load_bindings roles (S i) l) as [|bs'] eqn:El; [done|]. intros [= <-]. constructor; [|by eapply IH].
  revert Eb. unfold load_binding. destruct (as_map item) as [m|]; [|done]. case_bool_decide as Hp; [done|].
  destruct (stringList m "roles") as [|names]; [done|]. destruct (find _ names) eqn:Ef; [done|]. intros [= <-].
  split; [done|]. apply Forall_forall. intros role Hr.
  apply list_elem_of_In, (List.find_none _ _ Ef), bool_decide_eq_false in Hr. by destruct (roles !! role).
Qed.

(** A policy that loads says what it means: every rule grants something,
    names a target when it grants functions, and no target when it grants only
    to act for another; every binding names a principal and only roles that are
    defined; and no key of a rule or of an argument rule was unknown, so a
    misspelt restriction is never dropped. *)
Theorem loaded_policy_wf doc path p :
  Load doc path = inr p →
  policy_wf p ∧
  ∀ root v m, as_map doc = Some root → Get root (VString "roles") = Some v → as_map v = Some m →
    Forall (λ e, role_doc (Val e)) (entries m).
Proof.
  unfold Load. intros Hl. assert (doc = VNull ∨ ∃ root, as_map doc = Some root) as [->|[root Hroot]].
  { destruct doc; first [by left|by right; eexists|done]. }
  { injection Hl as <-. split; [|done]. split; [apply map_Forall_empty|constructor]. }
  rewrite Hroot in Hl. unfold or_fail in Hl.
  destruct (match Get root (VString "roles") with None => _ | Some _ => _ end) as [|roles] eqn:Er; [by destruct doc|].
  destruct (match Get root (VString "bindings") with None => _ | Some _ => _ end) as [|bs] eqn:Eb; [by destruct doc|].
  assert (p = mkPolicy roles bs path ∅ None) as -> by (destruct doc; by simplify_eq/=).
  assert (map_Forall (λ _ rules, Forall rule_wf rules) roles ∧
          ∀ v m, Get root (VString "roles") = Some v → as_map v = Some m → Forall (λ e, role_doc (Val e)) (entries m)) as [Hw Hd].
  { destruct (Get root (VString "roles")) as [v|]; [|injection Er as <-; split; [apply map_Forall_empty|done]].
    destruct (as_map v) as [m|] eqn:Em; [|done]. apply load_roles_wf in Er as [Hr Hf]; [|apply map_Forall_empty].
    split; [done|]. intros ? ? [= <-] Hm. congruence. }
  split; [split; [done|]|intros root' v m Hr'; rewrite Hroot in Hr'; injection Hr' as <-; by apply Hd].
  cbn [Bindings Roles]. destruct (Get root (VString "bindings")) as [[]|]; try done; [|by injection Eb as <-].
  by eapply load_bindings_wf.
Qed.
End loading.

(** ** The distance of the suggestion is the least number of edits *)

Inductive edits : nat → list ascii → list ascii → Prop :=
| ed_nil : edits 0 [] []
| ed_keep n c a b : edits n a b → edits n (c :: a) (c :: b)
| ed_sub n c d a b : edits n a b → edits (S n) (c :: a) (d :: b)
| ed_del n c a b : edits n a b → edits (S n) (c :: a) b
| ed_ins n d a b : edits n a b → edits (S n) a (d :: b).

Fixpoint lev (a b : list ascii) : nat :=
  match a with
  | [] => length b
  | ca :: a' =>
      (fix inner (b : list ascii) : nat :=
         match b with
         | [] => S (length a')
         | cb :: b' =>
             Nat.min (Nat.min (lev a' b + 1) (inner b' + 1)) (lev a' b' + if decide (ca = cb) then 0 else 1)
         end) b
  end.

Lemma lev_cons ca a cb b :
  lev (ca :: a) (cb :: b) =
  Nat.min (Nat.min (lev a (cb :: b) + 1) (lev (ca :: a) b + 1)) (lev a b + if decide (ca = cb) then 0 else 1).
Proof. done. Qed.

Lemma lev_nil_r a : lev a [] = length a.
Proof. by destruct a. Qed.

Lemma edits_app n m a b a' b' : edits n a b → edits m a' b' → edits (n + m) (a ++ a') (b ++ b').
Proof. induction 1; intros; simpl; eauto using edits. Qed.

Lemma edits_rev n a b : edits n a b → edits n (rev a) (rev b).
Proof.
  induction 1; cbn [rev]; [constructor|..].
  - rewrite <- (Nat.add_0_r n). eauto using edits_app, edits.
  - rewrite <- (Nat.add_1_r n). eauto using edits_app, edits.
  - rewrite <- (Nat.add_1_r n), <- (app_nil_r (rev b)). eauto using edits_app, edits.
  - rewrite <- (Nat.add_1_r n), <- (app_nil_r (rev a)). eauto using edits_app, edits.
Qed.

Lemma lev_step_l a c b : (lev (c :: a) b ≤ S (lev a b))%nat.
Proof. destruct b as [|d b]; [rewrite !lev_nil_r; simpl; lia|]. rewrite lev_cons. lia. Qed.

Lemma lev_step_r a d b : (lev a (d :: b) ≤ S (lev a b))%nat.
Proof. destruct a as [|c a]; [simpl; lia|]. rewrite lev_cons. lia. Qed.

Lemma lev_least n a b : edits n a b → (lev a b ≤ n)%nat.
Proof.
  induction 1 as [|n c a b _ IH|n c d a b _ IH|n c a b _ IH|n d a b _ IH]; [done|rewrite lev_cons..| |].
  - rewrite decide_True by done. lia.
  - destruct (decide _); lia.
  - pose proof (lev_step_l a c b). lia.
  - pose proof (lev_step_r a d b). lia.
Qed.

Lemma lev_edits a b : edits (lev a b) a b.
Proof.
  revert b. induction a as [|c a IHa]; intros b; [induction b; simpl; eauto using edits|].
  induction b as [|d b IHb]; [rewrite lev_nil_r; simpl; rewrite <- (lev_nil_r a); eauto using edits|].
  rewrite lev_cons.
  destruct (Nat.min_spec (Nat.min (lev a (d :: b) + 1) (lev (c :: a) b + 1)) (lev a b + if decide (c = d) then 0 else 1))
    as [[_ ->]|[_ ->]].
  - destruct (Nat.min_spec (lev a (d :: b) + 1) (lev (c :: a) b + 1)) as [[_ ->]|[_ ->]];
      rewrite Nat.add_1_r; eauto using edits.
  - destruct (decide (c = d)) as [->|]; rewrite ?Nat.add_0_r, ?Nat.add_1_r; eauto using edits.
Qed.

(** A row of the table, for the prefix of the first string read so far and
    growing prefixes of the second, both kept reversed. *)
Fixpoint row (ra rb b : list ascii) : list nat :=
  lev ra rb :: match b with [] => [] | c :: b' => row ra (c :: rb) b' end.

Lemma edit_row_spec ca ra rb b : lev (ca :: ra) rb :: edit_row ca b (row ra rb b) (lev (ca :: ra) rb) = row (ca :: ra) rb b.
Proof.
  revert rb. induction b as [|cb b IH]; intros rb; cbn [row edit_row]; [done|].
  destruct (row ra (cb :: rb) b) as [|p1 r] eqn:Er; [by destruct b|].
  assert (p1 = lev ra (cb :: rb)) as -> by (by destruct b; cbn [row] in Er; simplify_eq).
  f_equal. rewrite <- lev_cons. rewrite <- (IH (cb :: rb)), Er. done.
Qed.

Lemma edit_rows_spec a ra b : edit_rows (S (length ra)) a b (row ra [] b) = row (rev a ++ ra) [] b.
Proof.
  revert ra. induction a as [|ca a IH]; intros ra; cbn [edit_rows rev app]; [done|].
  rewrite <- (app_assoc (rev a)). cbn [app]. rewrite <- IH. cbn [length]. f_equal.
  apply (edit_row_spec ca ra [] b).
Qed.

Lemma last_row ra rb b : last (row ra rb b) = Some (lev ra (rev b ++ rb)).
Proof.
  revert rb. induction b as [|c b IH]; intros rb; cbn [row]; [done|]. cbn [rev]. rewrite <- app_assoc. cbn [app].
  rewrite <- IH. destruct (row ra (c :: rb) b) eqn:E; [by destruct b|]. done.
Qed.

Lemma first_row rb b : seq (length rb) (S (length b)) = row [] rb b.
Proof. revert rb. induction b as [|c b IH]; intros rb; cbn [row]; [done|]. cbn [length seq]. f_equal. apply (IH (c :: rb)). Qed.

(** The two-row table computes the least number of insertions, deletions and
    replacements of a character that turn one key into the other. *)
Theorem editDistance_is_least a b :
  edits (editDistance a b) (list_ascii_of_string a) (list_ascii_of_string b) ∧
  ∀ n, edits n (list_ascii_of_string a) (list_ascii_of_string b) → (editDistance a b ≤ n)%nat.
Proof.
  unfold editDistance. set (x := list_ascii_of_string a). set (y := list_ascii_of_string b).
  change (seq 0 (S (length y))) with (seq (length (@nil ascii)) (S (length y))). rewrite first_row.
  change 1%nat with (S (length (@nil ascii))). rewrite edit_rows_spec, last_row, !app_nil_r. cbn [default from_option]. split.
  - rewrite <- (rev_involutive x), <- (rev_involutive y) at 2. apply edits_rev, lev_edits.
  - intros n Hn. by apply lev_least, edits_rev.
Qed.

(** ** A policy to look at *)

#[local] Existing Instance demo_runtime.
#[local] Existing Instance demo_netip.

Definition demo_kv (k : string) (v : value) : value * value := (VString k, v).
Definition demo_doc : value :=
  VMap (MapOf [
    demo_kv "roles" (VMap (MapOf [
      demo_kv "web" (VSeq [VMap (MapOf [
        demo_kv "target" (VString "web*"); demo_kv "functions" (VSeq [VString "state.*"; VString "cmd.run"]);
        demo_kv "args" (VMap (MapOf [demo_kv "state.apply" (VMap (MapOf [demo_kv "allow_sls" (VSeq [VString "web.*"])]))]))])])]));
    demo_kv "bindings" (VSeq [VMap (MapOf [demo_kv "principal" (VString "alice"); demo_kv "roles" (VString "web")])])]).

Definition demo_catalog : SigRegistry :=
  {[ "cmd.run" := mkSignature "cmd" "run" "" [] true TestReliable [] [] false true "" "";
     "test.ping" := mkSignature "test" "ping" "" [] false TestReliable [] [] false false "" "" ]}.

Definition demo_policy : Policy :=
  match Load demo_doc "policy.yaml" with
  | inr p => UseCatalog p [demo_catalog]
  | inl _ => mkPolicy ∅ [] "" ∅ None
  end.

Definition demo_ask (kind target fun_ : string) (args : list string) : Request :=
  mkRequest "alice" target kind fun_ args [] false "" None false.

Example demo_decisions :
  (λ r, Allowed (Authorize (Some demo_policy) r)) <$>
    [demo_ask "" "web1" "state.sls" ["web.nginx"]; demo_ask "" "web1" "state.sls" ["db.secret"];
     demo_ask "" "web1" "state.highstate" ["web.nginx"]; demo_ask "" "*" "state.sls" ["web.nginx"];
     demo_ask "L" "web1,web2" "cmd.run" ["id"]; demo_ask "L" "web1,db1" "cmd.run" ["id"];
     demo_ask "" "web1,db1" "cmd.run" ["id"]; demo_ask "C" "web1" "cmd.run" ["id"]]
  = [true; false; false; false; true; false; false; false].
Proof. by vm_compute. Qed.

Definition demo_list_matcher : Matcher :=
  match Compile demo_regex List "web1,web2" ∅ with Some (inr m) => m | _ => mkMatcher Glob "" (NAny []) [] end.

Lemma authorized_reaches_witness :
  ∃ rule, rules_of demo_policy "web" !! 0%nat = Some rule ∧ matchAny (ruFunctions rule) "cmd.run" = true ∧
    ∀ n, MatcherMatch demo_list_matcher n = true → MatchGlob (ruTarget rule) (nID n) = true.
Proof.
  apply (authorized_reaches demo_regex demo_policy (demo_ask "L" "web1,web2" "cmd.run" ["id"]) List ∅ demo_list_matcher);
    vm_compute; reflexivity.
Defined.

Lemma wildcards_never_grant_code_witness :
  ∃ rule, "web" ∈ RolesFor (UseCatalog demo_policy [demo_catalog]) "alice" ∧
    rules_of (UseCatalog demo_policy [demo_catalog]) "web" !! 0%nat = Some rule ∧ "cmd.run" ∈ ruFunctions rule ∧
    ∀ n, MatcherMatch demo_list_matcher n = true → MatchGlob (ruTarget rule) (nID n) = true.
Proof.
  assert (∃ r sig, r ∈ [demo_catalog] ∧ r !! "cmd.run" = Some sig ∧ ArbitraryCode sig = true) as Hc
    by (eexists demo_catalog, _; split; [left|split; vm_compute; reflexivity]).
  destruct (wildcards_never_grant_code demo_regex demo_policy [demo_catalog] (demo_ask "L" "web1,web2" "cmd.run" ["id"])
    ltac:(vm_compute; reflexivity) eq_refl (or_introl Hc)) as (rule & Hr & Hl & Hf & Hn).
  exists rule. split; [|split; [|split; [exact Hf|]]].
  - assert (dRole (Authorize (Some (UseCatalog demo_policy [demo_catalog])) (demo_ask "L" "web1,web2" "cmd.run" ["id"])) = "web") as Hd
      by (vm_compute; reflexivity). rewrite Hd in Hr. exact Hr.
  - rewrite <- Hl. vm_compute. reflexivity.
  - intros n. apply (Hn List ∅ demo_list_matcher n); vm_compute; reflexivity.
Defined.


Lemma loaded_policy_wf_witness :
  policy_wf (mkPolicy (Roles demo_policy) (Bindings demo_policy) "policy.yaml" ∅ None).
Proof. eapply (loaded_policy_wf demo_doc "policy.yaml"). vm_compute. reflexivity. Defined.

(** A restriction that is misspelt is refused, with the key that was meant. *)
Example misspelt_restriction_refused :
  parseArgRule (MapOf [demo_kv "allow_envv" (VSeq [VString "base"])]) =
  inl (UnknownKey "allow_envv" "an argument rule" argRuleKeys "allow_env").
Proof. by vm_compute. Qed.
