(* ===== verification/JobCache.v ===== *)
(** * The hub's job cache

    Models src/internal/job/cache.go and the return of job/model.go.  The cache
    is a directory for each job, holding its record and a file for each node
    that answered: here two maps, from the identifier to the record and from
    the identifier and the node to the return.  Encoding to JSON and back is
    taken to give the same record.  Whether a read or a write succeeds is the
    system's answer, an argument; a write replaces the whole file or leaves it.
    Update holds the job's lock, so it is one step.  AddReturn is one step too,
    although the source looks for the file of the return and then writes it
    without a lock: two answers of one node at the same time are not modelled. *)

From S2P Require Import Prelude GoLib GoTime Value Job.

Open Scope Z_scope.

Record Return_ := mkReturn {
  rJID : string; rNodeID : string; rFun : string; rFunArgs : list string; rSuccess : bool; rRetCode : Z;
  rReturn : string; rOut : string; rStart : string; rDurationMS : Z; rVersion : string; rSchema : string; rChunk : Z }.

Definition Return_Key (r : Return_) : string := rJID r +:+ "/" +:+ rNodeID r +:+ "/" +:+ FormatInt (rChunk r).

Record store := mkStore { records : gmap string Job; filed : gmap string (gmap string Return_) }.

Inductive cache_error :=
| NotAnID (id : string) | ErrNoJob (id : string) | CacheIO (id : string)
| ErrForeignRecord (id schema known : string) | ErrNotTargeted (id node : string)
| BadChunk (node : string) (chunk : Z) | NotANode (node : string) | Abandoned.

(** What the system answers. *)
Record disk := mkDisk { can_read : bool; can_write : bool }.

Definition with_schema (j : Job) (s : string) : Job :=
  mkJob (JID j) (Fun j) (Arg j) (Kwarg j) (Env j) (Nonce j) (Expires j) (Created j) (Submitter j)
    (OnBehalfOf j) (Correlation j) (TraceParent j) (Target j) (TargetKind j) (Nodes j) (Offline j)
    (State j) (Test j) (batch j) (Delivered j) (Queued j) (Signature j) s.
Definition with_state (j : Job) (s : string) : Job :=
  mkJob (JID j) (Fun j) (Arg j) (Kwarg j) (Env j) (Nonce j) (Expires j) (Created j) (Submitter j)
    (OnBehalfOf j) (Correlation j) (TraceParent j) (Target j) (TargetKind j) (Nodes j) (Offline j)
    s (Test j) (batch j) (Delivered j) (Queued j) (Signature j) (Schema j).
Definition with_delivered (j : Job) (l : list string) : Job :=
  mkJob (JID j) (Fun j) (Arg j) (Kwarg j) (Env j) (Nonce j) (Expires j) (Created j) (Submitter j)
    (OnBehalfOf j) (Correlation j) (TraceParent j) (Target j) (TargetKind j) (Nodes j) (Offline j)
    (State j) (Test j) (batch j) l (Queued j) (Signature j) (Schema j).

Definition checkSchema (j : Job) : option cache_error :=
  if bool_decide (Schema j ∈ [""; JobSchema; SignedJobSchema]) then None
  else Some (ErrForeignRecord (JID j) (Schema j) (SchemaFor (Some j))).

(** Put also sets the schema of the record it is given. *)
Definition Put (io : disk) (j : Job) (c : store) : option cache_error * store :=
  match checkSchema j with
  | Some e => (Some e, c)
  | None =>
      let j := with_schema j (SchemaFor (Some j)) in
      if negb (ID_Valid (JID j)) then (Some (NotAnID (JID j)), c)
      else if can_write io then (None, mkStore (<[JID j := j]> (records c)) (filed c))
      else (Some (CacheIO (JID j)), c)
  end.

Definition Get (io : disk) (id : string) (c : store) : cache_error + Job :=
  if negb (ID_Valid id) then inl (NotAnID id)
  else match records c !! id with
  | None => inl (ErrNoJob id)
  | Some j => if can_read io then inr j else inl (CacheIO id)
  end.

(** The change is made to the record as it is; [None] abandons it. *)
Definition Update (io : disk) (id : string) (mutate : Job → option Job) (c : store) : (cache_error + Job) * store :=
  match Get io id c with
  | inl e => (inl e, c)
  | inr j =>
      match checkSchema j with
      | Some e => (inl e, c)
      | None =>
          match mutate j with
          | None => (inl Abandoned, c)
          | Some j' =>
              match Put io j' c with
              | (Some e, c) => (inl e, c)
              | (None, c) => (inr (with_schema j' (SchemaFor (Some j'))), c)
              end
          end
      end
  end.

(** The name of a return's file, less its extension. *)
Definition returnFile (nodeID : string) (chunk : Z) : option string :=
  if bool_decide (nodeID = "") || contains_any ["/"%char; "\"%char] nodeID || contains ".." nodeID
  then None
  else if chunk =? 0 then Some nodeID else Some (nodeID +:+ "." +:+ FormatInt chunk).

(** Whether a return was filed. *)
Definition AddReturn (io : disk) (r : Return_) (c : store) : (cache_error + bool) * store :=
  if negb (ID_Valid (rJID r)) then (inl (NotAnID (rJID r)), c)
  else if negb (rChunk r =? 0) then (inl (BadChunk (rNodeID r) (rChunk r)), c)
  else match Get io (rJID r) c with
  | inl e => (inl e, c)
  | inr j =>
      if negb (bool_decide (rNodeID r ∈ Nodes j)) then (inl (ErrNotTargeted (rJID r) (rNodeID r)), c)
      else match returnFile (rNodeID r) (rChunk r) with
      | None => (inl (NotANode (rNodeID r)), c)
      | Some name =>
          let returns := default ∅ (filed c !! rJID r) in
          if bool_decide (is_Some (returns !! name)) then (inr false, c)
          else if can_write io then (inr true, mkStore (records c) (<[rJID r := <[name := r]> returns]> (filed c)))
          else (inl (CacheIO (rJID r)), c)
      end
  end.

(** In node order. *)
Definition by_node (a b : Return_) : Prop := str_le (rNodeID a) (rNodeID b).
#[global] Instance by_node_dec a b : Decision (by_node a b) := str_le_dec _ _.

Definition Returns (io : disk) (id : string) (c : store) : cache_error + list Return_ :=
  if negb (ID_Valid id) then inl (NotAnID id)
  else match filed c !! id with
  | None => inr []
  | Some rs => if can_read io then inr (merge_sort by_node (map_to_list rs).*2) else inl (CacheIO id)
  end.

Definition Missing (io : disk) (id : string) (c : store) : cache_error + list string :=
  match Get io id c with
  | inl e => inl e
  | inr j =>
      match Returns io id c with
      | inl e => inl e
      | inr returns =>
          let answered : gset string := list_to_set (rNodeID <$> returns) in
          inr (merge_sort str_le (filter (λ node, node ∉ answered) (Nodes j)))
      end
  end.

(** Newest first: the days in reverse order, and the jobs within a day. *)
Definition str_ge (a b : string) : Prop := str_le b a.
#[global] Instance str_ge_dec a b : Decision (str_ge a b) := str_le_dec b a.

Fixpoint list_go (io : disk) (c : store) (limit : nat) (ids : list string) (out : list Job) : cache_error + list Job :=
  match ids with
  | [] => inr out
  | id :: ids' =>
      match Get io id c with
      | inl (ErrNoJob _) => list_go io c limit ids' out
      | inl e => inl e
      | inr j =>
          let out := out ++ [j] in
          if (0 <? limit)%nat && (limit <=? length out)%nat then inr out else list_go io c limit ids' out
      end
  end.

Definition List_ (io : disk) (limit : nat) (c : store) : cache_error + list Job :=
  list_go io c limit (merge_sort str_ge (elements (dom (records c)))) [].

(** ** Retention *)

Record segment := mkSegment { sgID : string; sgAt : Z; sgBytes : Z }.

Definition remove (id : string) (c : store) : store := mkStore (delete id (records c)) (delete id (filed c)).

(** The pass over the jobs by age: what is left to weigh. [None] is a removal
    that failed. *)
Fixpoint prune_old (retention now : Z) (size : string → Z) (removable : string → bool) (ids : list string)
    (segs : list segment) (removed : nat) (c : store) : bool * (list segment * nat * store) :=
  match ids with
  | [] => (true, (segs, removed, c))
  | id :: ids' =>
      match ID_Time id with
      | None => prune_old retention now size removable ids' segs removed c
      | Some at_ =>
          if (0 <? retention) && (retention <? Sub now at_) then
            if removable id then prune_old retention now size removable ids' segs (S removed) (remove id c)
            else (false, (segs, removed, c))
          else prune_old retention now size removable ids' (segs ++ [mkSegment id at_ (size id)]) removed c
      end
  end.

Definition total_bytes (segs : list segment) : Z := foldr (λ s t, sgBytes s + t) 0 segs.

Definition earlier (a b : segment) : Prop := sgAt a ≤ sgAt b.
#[global] Instance earlier_dec a b : Decision (earlier a b) := Z_le_dec _ _.
#[global] Instance earlier_total : Total earlier.
Proof. intros a b. unfold earlier. lia. Qed.
#[global] Instance earlier_trans : Transitive earlier.
Proof. intros a b c. unfold earlier. lia. Qed.

Fixpoint prune_size (max total : Z) (removable : string → bool) (segs : list segment) (removed : nat) (c : store)
    : bool * (nat * store) :=
  match segs with
  | [] => (true, (removed, c))
  | s :: segs' =>
      if total <=? max then (true, (removed, c))
      else if removable (sgID s) then prune_size max (total - sgBytes s) removable segs' (S removed) (remove (sgID s) c)
      else (false, (removed, c))
  end.

(** Prune: whether it went through, how many jobs it removed, and the rest. *)
Definition Prune (retention max now : Z) (size : string → Z) (removable : string → bool) (c : store) : bool * (nat * store) :=
  match prune_old retention now size removable (merge_sort str_le (elements (dom (records c)))) [] 0 c with
  | (false, (_, removed, c)) => (false, (removed, c))
  | (true, (segs, removed, c)) =>
      if (0 <? max) && (max <? total_bytes segs)
      then prune_size max (total_bytes segs) removable (merge_sort earlier segs) removed c
      else (true, (removed, c))
  end.

(** ** What the cache holds *)

Definition store_ok (c : store) : Prop :=
  (∀ id j, records c !! id = Some j → JID j = id ∧ ID_Valid id = true) ∧
  (∀ id rs name r, filed c !! id = Some rs → rs !! name = Some r →
     rNodeID r = name ∧ rJID r = id ∧ ∃ j, records c !! id = Some j ∧ name ∈ Nodes j).

(** The hub's operations on it.  A record is first put with its nodes, which no
    later write changes. *)
Inductive cache_step : store → store → Prop :=
| step_put io j c :
    (∀ old, records c !! JID j = Some old → Nodes old = Nodes j) → cache_step c (Put io j c).2
| step_update io id mutate c :
    (∀ j j', mutate j = Some j' → JID j' = JID j ∧ Nodes j' = Nodes j) → cache_step c (Update io id mutate c).2
| step_return io r c : cache_step c (AddReturn io r c).2
| step_prune retention max now size removable c : cache_step c (Prune retention max now size removable c).2.2.

Lemma put_ok io j c :
  store_ok c → (∀ old, records c !! JID j = Some old → Nodes old = Nodes j) → store_ok (Put io j c).2.
Proof.
  intros [Hr Hf] Hn. unfold Put. destruct (checkSchema j); [done|]. cbn [JID with_schema].
  destruct (ID_Valid (JID j)) eqn:Ev; [|done]. destruct (can_write io); [|done]. cbn [negb snd]. split; cbn [records filed].
  - intros id j' [[<- <-]|[_ Hj]]%lookup_insert_Some; [done|by apply Hr].
  - intros id rs name r Hrs Hname. destruct (Hf _ _ _ _ Hrs Hname) as (H1 & H2 & j' & Hj & Hin).
    split_and!; [done..|]. destruct (decide (id = JID j)) as [->|Hne].
    + rewrite lookup_insert_eq. eexists. split; [done|]. cbn [Nodes with_schema]. by rewrite <- (Hn j' Hj).
    + rewrite lookup_insert_ne by done. eauto.
Qed.

Lemma Get_inr io id c j : Get io id c = inr j → records c !! id = Some j ∧ ID_Valid id = true.
Proof.
  unfold Get. destruct (ID_Valid id); [|done]. cbn [negb]. destruct (records c !! id); [|done].
  destruct (can_read io); [|done]. by intros [= <-].
Qed.

Lemma update_ok io id mutate c :
  store_ok c → (∀ j j', mutate j = Some j' → JID j' = JID j ∧ Nodes j' = Nodes j) → store_ok (Update io id mutate c).2.
Proof.
  intros Hok Hm. unfold Update. destruct (Get io id c) as [|j] eqn:Eg; [done|].
  destruct (checkSchema j); [done|]. destruct (mutate j) as [j'|] eqn:Em; [|done].
  apply Get_inr in Eg as [Hj _]. destruct (Hm _ _ Em) as [Hid Hn]. destruct (proj1 Hok _ _ Hj) as [<- _].
  assert (store_ok (Put io j' c).2) as Hp.
  { apply put_ok; [done|]. rewrite Hid. intros old Hold. congruence. }
  destruct (Put io j' c) as [[]]; done.
Qed.

Lemma returnFile_0 node name : returnFile node 0 = Some name → name = node.
Proof. unfold returnFile. destruct (_ || _); [done|]. by intros [= <-]. Qed.

Lemma add_ok io r c : store_ok c → store_ok (AddReturn io r c).2.
Proof.
  intros Hok. unfold AddReturn. destruct (ID_Valid _); [|done]. destruct (Z.eqb_spec (rChunk r) 0) as [E|]; [|done]. cbn [negb].
  destruct (Get io (rJID r) c) as [|j] eqn:Eg; [done|]. apply Get_inr in Eg as [Hj _].
  case_bool_decide as Hin; [|done]. cbn [negb]. rewrite E. destruct (returnFile _ _) as [name|] eqn:Ef; [|done].
  apply returnFile_0 in Ef as ->. case_bool_decide; [done|]. destruct (can_write io); [|done]. cbn [snd].
  split; [apply Hok|]. cbn [records filed]. intros id rs name r'.
  intros [[<- <-]|[_ Hrs]]%lookup_insert_Some Hname; [|by eapply (proj2 Hok)].
  apply lookup_insert_Some in Hname as [[<- <-]|[_ Hname]]; [by eauto|].
  destruct (filed c !! rJID r) as [rs|] eqn:Efl; simpl in Hname; [|by rewrite lookup_empty in Hname].
  by eapply (proj2 Hok).
Qed.

Lemma remove_ok id c : store_ok c → store_ok (remove id c).
Proof.
  intros [Hr Hf]. split; cbn [records filed remove].
  - intros id' j [_ Hj]%lookup_delete_Some. by apply Hr.
  - intros id' rs name r [Hne Hrs]%lookup_delete_Some Hname. destruct (Hf _ _ _ _ Hrs Hname) as (? & ? & j & Hj & ?).
    split_and!; [done..|]. exists j. by rewrite lookup_delete_ne.
Qed.

Lemma prune_old_inv (P : store → Prop) retention now size removable ids segs removed c :
  (∀ id c, P c → P (remove id c)) → P c → P (prune_old retention now size removable ids segs removed c).2.2.
Proof.
  intros Hrm. revert segs removed c. induction ids as [|id ids IH]; intros segs removed c Hc; cbn [prune_old]; [done|].
  destruct (ID_Time id); [|by apply IH]. destruct (_ && _); [destruct (removable id); [|done]|]; apply IH; auto.
Qed.

Lemma prune_size_inv (P : store → Prop) max total removable segs removed c :
  (∀ id c, P c → P (remove id c)) → P c → P (prune_size max total removable segs removed c).2.2.
Proof.
  intros Hrm. revert total removed c. induction segs as [|s segs IH]; intros total removed c Hc; cbn [prune_size]; [done|].
  destruct (_ <=? _); [done|]. destruct (removable _); [|done]. apply IH; auto.
Qed.

Lemma prune_inv (P : store → Prop) retention max now size removable c :
  (∀ id c, P c → P (remove id c)) → P c → P (Prune retention max now size removable c).2.2.
Proof.
  intros Hrm Hc. unfold Prune.
  pose proof (prune_old_inv P retention now size removable (merge_sort str_le (elements (dom (records c)))) [] 0 c Hrm Hc) as Ho.
  destruct (prune_old _ _ _ _ _ _ _ _) as [[] [[segs removed] c']]; [|done]. cbn [snd] in *.
  destruct (_ && _); [by apply prune_size_inv|done].
Qed.

Lemma reachable_ok c : rtc cache_step (mkStore ∅ ∅) c → store_ok c.
Proof.
  apply (rtc_ind_r store_ok); [by split; [intros id j Hj|intros id rs name r Hrs]; cbn in *; simplify_map_eq|].
  intros c1 c2 _ Hstep Hok. destruct Hstep; [by apply put_ok|by apply update_ok|by apply add_ok|].
  apply prune_inv; [apply remove_ok|done].
Qed.

(** The nodes that answered a job. *)
Definition answered (c : store) (id node : string) : Prop := ∃ rs, filed c !! id = Some rs ∧ is_Some (rs !! node).

Lemma Returns_answered io id c rs :
  store_ok c → Returns io id c = inr rs → ∀ node, node ∈ (rNodeID <$> rs) ↔ answered c id node.
Proof.
  intros [_ Hf]. unfold Returns, answered. destruct (ID_Valid id); [|done]. cbn [negb].
  destruct (filed c !! id) as [m|] eqn:Em.
  - destruct (can_read io); [|done]. intros [= <-] node. rewrite (merge_sort_Permutation by_node), list_elem_of_fmap. split.
    + intros (r & -> & ([name r'] & -> & Hm%elem_of_map_to_list)%list_elem_of_fmap).
      destruct (Hf _ _ _ _ Em Hm) as (Hn & _). cbn [snd]. rewrite Hn. eauto.
    + intros (m' & [= <-] & r & Hr). destruct (Hf _ _ _ _ Em Hr) as (Hn & _). exists r. split; [done|].
      apply list_elem_of_fmap. exists (node, r). by rewrite elem_of_map_to_list.
  - intros [= <-] node. split; [by intros ?%elem_of_nil|naive_solver].
Qed.

Lemma Missing_spec io id c l :
  store_ok c → Missing io id c = inr l →
  ∃ j, records c !! id = Some j ∧ ∀ node, node ∈ l ↔ node ∈ Nodes j ∧ ¬ answered c id node.
Proof.
  intros Hok. unfold Missing. destruct (Get io id c) as [|j] eqn:Eg; [done|]. apply Get_inr in Eg as [Hj _].
  destruct (Returns io id c) as [|rs] eqn:Er; [done|]. intros [= <-]. exists j. split; [done|]. intros node.
  rewrite (merge_sort_Permutation str_le), list_elem_of_filter, elem_of_list_to_set, (Returns_answered io id c rs) by done.
  tauto.
Qed.

Lemma answered_default c id node : answered c id node ↔ is_Some (default ∅ (filed c !! id) !! node).
Proof.
  unfold answered. destruct (filed c !! id) as [rs|]; simpl; [naive_solver|].
  split; [naive_solver|]. intros [? Hx]. by rewrite lookup_empty in Hx.
Qed.

Definition file_return (r : Return_) (c : store) : store :=
  mkStore (records c) (<[rJID r := <[rNodeID r := r]> (default ∅ (filed c !! rJID r))]> (filed c)).

Lemma AddReturn_inr io r c c' b :
  AddReturn io r c = (inr b, c') →
  ID_Valid (rJID r) = true ∧ rChunk r = 0 ∧ returnFile (rNodeID r) 0 = Some (rNodeID r) ∧
  (∃ j, records c !! rJID r = Some j ∧ rNodeID r ∈ Nodes j) ∧
  ((b = false ∧ answered c (rJID r) (rNodeID r) ∧ c' = c) ∨ (b = true ∧ c' = file_return r c)).
Proof.
  unfold AddReturn. destruct (ID_Valid _) eqn:Ev; [|done]. destruct (Z.eqb_spec (rChunk r) 0) as [E|]; [|done]. cbn [negb].
  destruct (Get io (rJID r) c) as [|j] eqn:Eg; [done|]. apply Get_inr in Eg as [Hj _].
  case_bool_decide as Hin; [|done]. cbn [negb]. rewrite E. destruct (returnFile _ _) as [name|] eqn:Ef; [|done].
  pose proof (returnFile_0 _ _ Ef) as ->. intros Hc. split_and!; [done..|by eauto|]. rewrite answered_default.
  case_bool_decide; [left; naive_solver|]. destruct (can_write io); naive_solver.
Qed.

Lemma file_return_answered r c id node :
  answered (file_return r c) id node ↔ answered c id node ∨ (id = rJID r ∧ node = rNodeID r).
Proof.
  rewrite !answered_default. cbn [filed file_return]. destruct (decide (id = rJID r)) as [->|Hne].
  - rewrite lookup_insert_eq. simpl. destruct (decide (node = rNodeID r)) as [->|Hn].
    + rewrite lookup_insert_eq. naive_solver.
    + rewrite lookup_insert_ne by done. naive_solver.
  - rewrite lookup_insert_ne by done. naive_solver.
Qed.

(** C39: A job is answered by the nodes it was sent to, each once.  In every cache
    the hub's operations lead to, a return is filed under the job and node it
    names, and the node is one of the job's.  A return that is filed takes its
    node, and no other, off the missing; filing it again is accepted, counted
    as nothing new and changes nothing. *)
Theorem answers_once_from_those_asked io r c c' b :
  rtc cache_step (mkStore ∅ ∅) c → AddReturn io r c = (inr b, c') →
  (∃ j, records c !! rJID r = Some j ∧ rNodeID r ∈ Nodes j) ∧ answered c' (rJID r) (rNodeID r) ∧
  (∀ io1 io2 l l', Missing io1 (rJID r) c = inr l → Missing io2 (rJID r) c' = inr l' →
     ∀ node, node ∈ l' ↔ node ∈ l ∧ node ≠ rNodeID r) ∧
  ∀ io', can_read io' = true → AddReturn io' r c' = (inr false, c').
Proof.
  intros Hok%reachable_ok Ha.
  assert (store_ok c') as Hok' by (pose proof (add_ok io r c Hok) as Hp; by rewrite Ha in Hp).
  apply AddReturn_inr in Ha as (Hv & Hch & Hf & (j & Hj & Hn) & Hb).
  assert (records c' = records c ∧ ∀ node, answered c' (rJID r) node ↔ answered c (rJID r) node ∨ node = rNodeID r)
    as [Hrec Hans].
  { destruct Hb as [(_ & Hb & ->)|(_ & ->)]; (split; [done|]); intros node; [naive_solver|].
    rewrite file_return_answered. naive_solver. }
  split_and!; [by eauto|apply Hans; by right| |].
  - intros io1 io2 l l' (j1 & Hj1 & H1)%Missing_spec (j2 & Hj2 & H2)%Missing_spec node; [|done..].
    rewrite Hrec in Hj2. assert (j2 = j1) as -> by congruence. rewrite H1, H2, Hans. tauto.
  - intros io' Hr. unfold AddReturn. rewrite Hv, Hch. cbn [negb Z.eqb]. unfold Get. rewrite Hv, Hrec, Hj, Hr. cbn [negb].
    rewrite bool_decide_true by done. cbn [negb]. rewrite Hf.
    rewrite bool_decide_true; [done|]. apply answered_default, Hans. by right.
Qed.

(** ** Pruning *)

Section prune.
Context (retention max now : Z) (size : string → Z) (removable : string → bool).

Definition aged (id : string) : bool :=
  match ID_Time id with Some at_ => (0 <? retention) && (retention <? Sub now at_) | None => false end.
Definition segment_of (id : string) : segment := mkSegment id (default 0 (ID_Time id)) (size id).
Definition remove_all (ids : list string) (c : store) : store := foldl (λ c id, remove id c) c ids.

(** The bytes the cache takes. *)
Definition cache_bytes (c : store) : Z := total_bytes (segment_of <$> elements (dom (records c))).

Lemma remove_all_lookup ids c id :
  records (remove_all ids c) !! id = if decide (id ∈ ids) then None else records c !! id.
Proof.
  unfold remove_all. revert c. induction ids as [|i ids IH]; intros c; cbn [foldl].
  { rewrite decide_False; [done|]. apply not_elem_of_nil. }
  rewrite IH. cbn [records remove]. destruct (decide (id ∈ ids)) as [Hin|Hin].
  - rewrite decide_True; [done|]. by right.
  - destruct (decide (id = i)) as [->|Hne].
    + rewrite decide_True by (by left). by rewrite lookup_delete_eq.
    + rewrite decide_False by (by intros [?|?]%elem_of_cons). by rewrite lookup_delete_ne.
Qed.

Lemma prune_old_spec ids segs removed c segs' removed' c' :
  (∀ id, id ∈ ids → is_Some (ID_Time id)) →
  prune_old retention now size removable ids segs removed c = (true, (segs', removed', c')) →
  segs' = segs ++ (segment_of <$> filter (λ id, aged id = false) ids) ∧
  removed' = (removed + length (filter (λ id, aged id = true) ids))%nat ∧
  c' = remove_all (filter (λ id, aged id = true) ids) c.
Proof.
  revert segs removed c. induction ids as [|id ids IH]; intros segs removed c Ht; cbn [prune_old].
  { intros [= <- <- <-]. rewrite app_nil_r, Nat.add_0_r. done. }
  assert (∀ id', id' ∈ ids → is_Some (ID_Time id')) as Ht' by (intros ? ?; apply Ht; by right).
  destruct (Ht id ltac:(by left)) as [at_ Hat]. rewrite Hat. rewrite !filter_cons.
  assert (aged id = ((0 <? retention) && (retention <? Sub now at_))) as -> by (unfold aged; by rewrite Hat).
  destruct (_ && _); cbn [decide_rel decide bool_eq_dec].
  - destruct (removable id); [|done]. intros (-> & -> & ->)%IH; [|done]. simpl. split_and!; [done|lia|done].
  - intros (-> & -> & ->)%IH; [|done]. simpl. rewrite <- app_assoc. unfold segment_of at 2. rewrite Hat. done.
Qed.

Lemma prune_size_spec segs removed c removed' c' :
  0 ≤ max → prune_size max (total_bytes segs) removable segs removed c = (true, (removed', c')) →
  ∃ gone kept, segs = gone ++ kept ∧ removed' = (removed + length gone)%nat ∧
    c' = remove_all (sgID <$> gone) c ∧ total_bytes kept ≤ max.
Proof.
  intros Hmax. revert removed c. induction segs as [|s segs IH]; intros removed c; cbn [prune_size].
  { intros [= <- <-]. exists [], []. split_and!; [done|simpl; lia|done|done]. }
  destruct (Z.leb_spec (total_bytes (s :: segs)) max).
  { intros [= <- <-]. exists [], (s :: segs). split_and!; [done|simpl; lia|done|done]. }
  destruct (removable (sgID s)); [|done]. replace (total_bytes (s :: segs) - sgBytes s) with (total_bytes segs) by (simpl; lia).
  intros (gone & kept & -> & -> & -> & Hk)%IH. exists (s :: gone), kept. split_and!; [done|simpl; lia|done|done].
Qed.

Lemma total_bytes_perm l l' : l ≡ₚ l' → total_bytes l = total_bytes l'.
Proof. induction 1; simpl; lia. Qed.

Lemma cache_bytes_of c segs :
  NoDup (sgID <$> segs) → Forall (λ s, s = segment_of (sgID s)) segs →
  (∀ id, id ∈ (sgID <$> segs) ↔ is_Some (records c !! id)) → cache_bytes c = total_bytes segs.
Proof.
  intros Hnd Hseg Hin. unfold cache_bytes. apply total_bytes_perm.
  transitivity (segment_of <$> (sgID <$> segs)).
  - apply fmap_Permutation, NoDup_Permutation; [apply NoDup_elements|done|]. intros id.
    by rewrite elem_of_elements, elem_of_dom, Hin.
  - rewrite <- list_fmap_compose. replace (segment_of ∘ sgID <$> segs) with segs; [done|].
    clear -Hseg. induction Hseg as [|s segs Hs _ IH]; [done|]. cbn [fmap list_fmap]. by rewrite <- IH, Hs at 1.
Qed.

(** The segments there are, split into those removed for size and those kept. *)
Lemma Prune_split c removed c' :
  store_ok c → Prune retention max now size removable c = (true, (removed, c')) →
  ∃ ids gone kept, ids ≡ₚ elements (dom (records c)) ∧
    segment_of <$> filter (λ id, aged id = false) ids ≡ₚ gone ++ kept ∧
    (∀ a b, a ∈ gone → b ∈ kept → sgAt a ≤ sgAt b) ∧ (0 < max → total_bytes kept ≤ max) ∧
    c' = remove_all (sgID <$> gone) (remove_all (filter (λ id, aged id = true) ids) c) ∧
    removed = (length (filter (λ id, aged id = true) ids) + length gone)%nat.
Proof.
  intros Hok. unfold Prune. set (ids := merge_sort str_le (elements (dom (records c)))).
  assert (ids ≡ₚ elements (dom (records c))) as Hids by apply merge_sort_Permutation.
  assert (∀ id, id ∈ ids → is_Some (ID_Time id)) as Ht.
  { intros id. rewrite Hids, elem_of_elements, elem_of_dom. intros [j Hj].
    destruct (proj1 Hok _ _ Hj) as [_ Hv]. unfold ID_Valid in Hv. destruct (ID_Time id); [done|]. by rewrite andb_false_r in Hv. }
  destruct (prune_old _ _ _ _ ids [] 0 c) as [[] [[segs r] c1]] eqn:Eo; [|done].
  apply prune_old_spec in Eo as (-> & -> & ->); [|done]. cbn [app].
  set (segs := segment_of <$> filter (λ id, aged id = false) ids). intros Hp. exists ids. revert Hp.
  destruct (Z.ltb_spec 0 max); cbn [andb]; [destruct (Z.ltb_spec max (total_bytes segs))|].
  - rewrite (total_bytes_perm segs (merge_sort earlier segs)) by (by rewrite (merge_sort_Permutation earlier)).
    intros (gone & kept & Hs & -> & -> & Hk)%prune_size_spec; [|lia]. exists gone, kept.
    split_and!; [done|by rewrite <- Hs, (merge_sort_Permutation earlier)| |done|done|done].
    pose proof (StronglySorted_merge_sort earlier segs) as Hsort. rewrite Hs in Hsort.
    intros a b Ha Hb. by eapply (StronglySorted_app_1_elem_of earlier gone kept a b).
  - intros [= <- <-]. exists [], segs. split_and!; [done|done|by intros ? ? ?%elem_of_nil|by intros _|done|by rewrite Nat.add_0_r].
  - intros [= <- <-]. exists [], segs. split_and!; [done|done|by intros ? ? ?%elem_of_nil|lia|done|by rewrite Nat.add_0_r].
Qed.

(** The ids of the kept segments are those of the records that are left, and
    the others are the old ones and the removed ones. *)
Lemma Prune_left c ids gone kept :
  let old := filter (λ id, aged id = true) ids in
  ids ≡ₚ elements (dom (records c)) → segment_of <$> filter (λ id, aged id = false) ids ≡ₚ gone ++ kept →
  NoDup (sgID <$> kept) ∧ Forall (λ s, s = segment_of (sgID s)) (gone ++ kept) ∧
  (∀ id, is_Some (records (remove_all (sgID <$> gone) (remove_all old c)) !! id) ↔ id ∈ (sgID <$> kept)) ∧
  (∀ id, id ∈ (sgID <$> gone) ∨ id ∈ (sgID <$> kept) ↔ is_Some (records c !! id) ∧ aged id = false) ∧
  length ids = (length old + length gone + length kept)%nat.
Proof.
  intros old Hids Hsplit. set (young := filter (λ id, aged id = false) ids) in *.
  assert (∀ id, id ∈ ids ↔ is_Some (records c !! id)) as Hin by (intros id; by rewrite Hids, elem_of_elements, elem_of_dom).
  assert (sgID <$> (segment_of <$> young) = young) as Hyoung by (rewrite <- list_fmap_compose; apply list_fmap_id).
  assert (∀ id, id ∈ (sgID <$> gone) ∨ id ∈ (sgID <$> kept) ↔ is_Some (records c !! id) ∧ aged id = false) as Hgk.
  { intros id. rewrite <- elem_of_app, <- fmap_app, <- Hsplit, Hyoung. unfold young. rewrite list_elem_of_filter, Hin. tauto. }
  assert (NoDup (sgID <$> gone ++ kept)) as Hnd.
  { rewrite <- Hsplit, Hyoung. apply NoDup_filter. rewrite Hids. apply NoDup_elements. }
  rewrite fmap_app in Hnd. apply NoDup_app in Hnd as (Hndg & Hdisj & Hndk). split_and!; [done| | |done|].
  - rewrite <- Hsplit. apply Forall_fmap, Forall_true. done.
  - intros id. rewrite !remove_all_lookup. specialize (Hgk id). specialize (Hdisj id). specialize (Hin id).
    assert (id ∈ old ↔ aged id = true ∧ id ∈ ids) as Hold by (unfold old; by rewrite list_elem_of_filter).
    destruct (decide (id ∈ sgID <$> gone)); [split; [by intros []|tauto]|].
    destruct (decide (id ∈ old)); [split; [by intros []|intros Hk]; destruct (aged id); naive_solver|].
    destruct (aged id) eqn:Ea; naive_solver.
  - apply Permutation_length in Hsplit. rewrite length_fmap, length_app in Hsplit. rewrite <- Nat.add_assoc, <- Hsplit.
    apply length_filter_split.
Qed.

Lemma records_size c (l : list string) : l ≡ₚ elements (dom (records c)) → base.size (records c) = length l.
Proof. intros ->. rewrite <- (size_dom (D:=gset string)). done. Qed.

Lemma kept_size c (kept : list segment) :
  NoDup (sgID <$> kept) → (∀ id, is_Some (records c !! id) ↔ id ∈ (sgID <$> kept)) → base.size (records c) = length kept.
Proof.
  intros Hnd Hin. rewrite <- (length_fmap sgID kept). apply records_size, NoDup_Permutation; [done|apply NoDup_elements|].
  intros id. by rewrite <- Hin, elem_of_elements, elem_of_dom.
Qed.

(** Pruning keeps the newest.  When it goes through, no job older than the
    retention is left; what is left takes no more than the bound; a job removed
    for its size is older than every job that stays; the jobs that stay are
    unchanged; and the number it reports is the number removed. *)
Theorem prune_keeps_the_newest c removed c' :
  rtc cache_step (mkStore ∅ ∅) c → Prune retention max now size removable c = (true, (removed, c')) →
  (∀ id, is_Some (records c' !! id) → aged id = false) ∧
  (0 < max → cache_bytes c' ≤ max) ∧
  (∀ id id' at_ at', is_Some (records c !! id) → records c' !! id = None → aged id = false →
     is_Some (records c' !! id') → ID_Time id = Some at_ → ID_Time id' = Some at' → at_ ≤ at') ∧
  records c' ⊆ records c ∧ base.size (records c) = (removed + base.size (records c'))%nat.
Proof.
  intros Hok%reachable_ok (ids & gone & kept & Hids & Hsplit & Hord & Hmax & -> & ->)%Prune_split; [|done].
  destruct (Prune_left c ids gone kept Hids Hsplit) as (Hnd & Hseg & Hleft & Hgk & Hlen).
  apply Forall_app in Hseg as [Hsg Hsk]. rewrite Forall_forall in Hsg, Hsk. split_and!.
  - intros id Hid%Hleft. by apply Hgk; right.
  - intros H0. rewrite (cache_bytes_of _ kept); [by apply Hmax|done|by apply Forall_forall|]. intros id. by rewrite Hleft.
  - intros id id' at_ at' Hin Hgone Ha Hin'%Hleft Ht Ht'.
    assert (id ∈ (sgID <$> gone)) as (a & -> & Ha')%list_elem_of_fmap.
    { destruct (proj2 (Hgk id)) as [?|Hk]; [done..|]. apply Hleft in Hk. rewrite Hgone in Hk. by destruct Hk. }
    apply list_elem_of_fmap in Hin' as (b & -> & Hb). specialize (Hord a b Ha' Hb).
    rewrite (Hsg a Ha'), (Hsk b Hb) in Hord. cbn in Hord. by rewrite Ht, Ht' in Hord.
  - apply map_subseteq_spec. intros id j. rewrite !remove_all_lookup. by repeat case_decide.
  - rewrite (kept_size _ kept Hnd Hleft), (records_size _ ids Hids). exact Hlen.
Qed.
End prune.

(** ** A cache to look at *)

#[local] Existing Instance demo_runtime.

Definition disk_fine : disk := mkDisk true true.
Definition cached_job (id : string) (nodes : list string) : Job :=
  mkJob id "test.ping" [] [] "" "n1" 0 0 "alice" "" "" "" "*" "glob" nodes "skip" "dispatched" false
    (mkBatch 0 0 0 0) [] [] "" "".
Definition answer_of (id node : string) : Return_ :=
  mkReturn id node "test.ping" [] true 0 "true" "" "" 1 "" ReturnSchema 0.

Definition demo_cache : store :=
  (Put disk_fine (cached_job "20260819T142212023456" ["db1"])
     (Put disk_fine (cached_job "20260819T142211023456" ["web1"; "web2"]) (mkStore ∅ ∅)).2).2.

Lemma demo_cache_reached : rtc cache_step (mkStore ∅ ∅) demo_cache.
Proof.
  eapply rtc_l; [|eapply rtc_once].
  - apply (step_put disk_fine (cached_job "20260819T142211023456" ["web1"; "web2"])). intros old Hold. vm_compute in Hold. discriminate.
  - apply (step_put disk_fine (cached_job "20260819T142212023456" ["db1"])). intros old Hold. vm_compute in Hold. discriminate.
Defined.

Definition demo_answered : store := (AddReturn disk_fine (answer_of "20260819T142211023456" "web1") demo_cache).2.

Lemma answers_once_from_those_asked_witness :
  Missing disk_fine "20260819T142211023456" demo_cache = inr ["web1"; "web2"] ∧
  Missing disk_fine "20260819T142211023456" demo_answered = inr ["web2"] ∧
  ("web1" ∈ ["web2"] ↔ "web1" ∈ ["web1"; "web2"] ∧ "web1" ≠ "web1") ∧
  AddReturn disk_fine (answer_of "20260819T142211023456" "web1") demo_answered = (inr false, demo_answered).
Proof.
  destruct (answers_once_from_those_asked disk_fine (answer_of "20260819T142211023456" "web1") demo_cache demo_answered true)
    as (_ & _ & Hm & Ha); [exact demo_cache_reached|vm_compute; reflexivity|].
  split; [vm_compute; reflexivity|]. split; [vm_compute; reflexivity|]. split; [|apply Ha; reflexivity].
  apply (Hm disk_fine disk_fine); vm_compute; reflexivity.
Defined.

(** Two jobs of eight bytes under a bound of ten: the older one goes. *)
Definition demo_pruned : store := (Prune 0 10 0 (λ _, 8) (λ _, true) demo_cache).2.2.

Lemma prune_keeps_the_newest_witness :
  cache_bytes (λ _, 8) demo_pruned ≤ 10 ∧ records demo_pruned !! "20260819T142211023456" = None ∧
  is_Some (records demo_pruned !! "20260819T142212023456").
Proof.
  destruct (prune_keeps_the_newest 0 10 0 (λ _, 8) (λ _, true) demo_cache 1 demo_pruned) as (_ & Hb & _);
    [exact demo_cache_reached|vm_compute; reflexivity|].
  split; [apply Hb; reflexivity|]. split; [vm_compute; reflexivity|]. eexists. vm_compute. reflexivity.
Defined.
