(* ===== verification/HubJobs.v ===== *)
(** * The hub: submitting, dispatching, batching and queueing jobs

    Models src/internal/hub/dispatch.go, batch.go, queue.go, delegation.go, the
    submit, kill and completeIfDone of jobs.go and dispatchFor of
    runners_fleet.go, ParseBatchSize of job/model.go, WireValues of
    jobsign/jobsign.go and prepareSigning of cmd/halite-hub/run.go.

    The hub is its job cache, the index of queued jobs, the last instant of its
    clock, the batches it has started, and what it has put on the nodes'
    streams.  What it reads while it works, the fleet, the nodes' cached data,
    clocks, random numbers and the answers of the disk, is an argument of each
    operation.  A hub without a job cache, metrics, events, logs and tracing
    are not modelled.  A signed submission and its message go through JSON
    ([json_message]); elsewhere a message is the record it is decoded into. *)

From Stdlib Require Import SpecFloat.
From S2P Require Import Prelude GoLib GoTime Value Heap Job JobSign Target NodeJobs Policy JobCache.

Open Scope Z_scope.

(** ** Batch sizes (job/model.go) *)

Section batch_size.
(** fmt.Sscanf with %g: the float at the front of the text. *)
Context (scan_float : string → option spec_float) (ovf : spec_float → Z).

(** fmt.Sscanf with %d: the digits at the front, after spaces and a sign; what
    follows them is not read. *)
Fixpoint digit_prefix (s : string) : string :=
  match s with
  | String c r => if isDigit c then String c (digit_prefix r) else EmptyString
  | EmptyString => EmptyString
  end.

Definition scan_int (s : string) : option Z :=
  match s with
  | String c r =>
      if bool_decide (c = "-"%char) || bool_decide (c = "+"%char) then Atoi (String c (digit_prefix r))
      else Atoi (digit_prefix s)
  | EmptyString => None
  end.

Inductive batch_error := BatchNotNumber (spec : string) | BatchNotPercent (spec : string) | BatchNotPositive (spec : string).

Definition ParseBatchSize (spec : string) (matched : nat) : batch_error + Z :=
  let spec := TrimSpace spec in
  if bool_decide (spec = "") then inr 0
  else if HasSuffix spec "%" then
    match scan_float (TrimSuffix spec "%") with
    | None => inl (BatchNotNumber spec)
    | Some percent =>
        if SFleb percent (f64_of_Z 0) || SFltb (f64_of_Z 100) percent then inl (BatchNotPercent spec)
        else
          let size := int64_of ovf (SFdiv 53 1024 (f64_mul (f64_of_Z (Z.of_nat matched)) percent) (f64_of_Z 100)) in
          inr (if size <? 1 then 1 else size)
    end
  else match scan_int spec with
  | None => inl (BatchNotNumber spec)
  | Some size => if size <? 1 then inl (BatchNotPositive spec) else inr size
  end.
End batch_size.

(** ** The hub *)

Inductive wire := WJob (m : Message) | WKill (jid : string).

Record hub := mkHub {
  hCache : store; hQueue : gmap string (gset string); hSeeded : bool; hClock : Z; hBatches : list Job;
  hSent : list (string * wire) }.

Definition set_cache (c : store) (h : hub) : hub := mkHub c (hQueue h) (hSeeded h) (hClock h) (hBatches h) (hSent h).
Definition set_queue (q : gmap string (gset string)) (h : hub) : hub := mkHub (hCache h) q (hSeeded h) (hClock h) (hBatches h) (hSent h).
Definition set_clock (t : Z) (h : hub) : hub := mkHub (hCache h) (hQueue h) (hSeeded h) t (hBatches h) (hSent h).
Definition start_batch (j : Job) (h : hub) : hub := mkHub (hCache h) (hQueue h) (hSeeded h) (hClock h) (hBatches h ++ [j]) (hSent h).

(** Send: one message to each node that takes it. *)
Definition send_all (takes : string → bool) (w : wire) (nodes : list string) (h : hub) : hub :=
  mkHub (hCache h) (hQueue h) (hSeeded h) (hClock h) (hBatches h)
    (hSent h ++ ((λ id, (id, w)) <$> filter (λ id, takes id = true) nodes)).

Definition messageFor (j : Job) : Message :=
  mkMsg (JID j) (Fun j) (Arg j) (WireKwargs j) (Env j) (Nonce j) (TraceParent j) (Submitter j) (OnBehalfOf j)
    (Target j) (TargetKind j) (Signature j) (Format_RFC3339Nano (Expires j)).

(** deliver: the record first, then the streams. *)
Definition deliver (io : disk) (takes : string → bool) (j : Job) (msg : Message) (nodes : list string) (h : hub) : Job * hub :=
  let j := with_delivered j (Delivered j ++ nodes) in
  let c := (Update io (JID j) (λ cur, Some (with_delivered cur (Delivered cur ++ nodes))) (hCache h)).2 in
  (j, send_all takes (WJob msg) nodes (set_cache c h)).

(** The queue's index is a hint beside the records. *)
Definition queue_add (j : Job) (h : hub) : hub :=
  set_queue (foldl (λ q node, <[node := {[JID j]} ∪ default ∅ (q !! node)]> q) (hQueue h) (Queued j)) h.
Definition queue_drop (node id : string) (h : hub) : hub :=
  set_queue (alter (λ s, s ∖ {[id]}) node (hQueue h)) h.
Definition candidates (node : string) (h : hub) : list string :=
  merge_sort str_le (elements (default ∅ (hQueue h !! node))).

(** ** Resolving a target *)

Record Submission := mkSub {
  sTarget : string; sTargetKind : string; sFun : string; sArg : list string; sKwarg : kwargs; sEnv : string;
  sTest : bool; sOffline : string; sTTL : Z; sBatchSpec : string; sBatch : Batch; sSubset : Z;
  sSubmitter : string; sOnBehalfOf : string; sJID : string; sExpires : Z; sSignature : string; sCorrelation : string }.

Inductive dispatch_error :=
| NoFunction | BadKind (flag : string) | BadTarget (e : TError) | NoTargetable | NoPillarRoots
| Undecided (nodes : list string) | Unreadable (nodes : list string)
| NoRandom | NotConnected (absent matched : list string) | BadBatch (e : batch_error) | NoNonce
| OnlySigned | NotJID (id : string) | NoExpiry | AlreadyExpired | HaveJob (id : string) | LookupFailed (e : cache_error)
| NotEncoded | LineTooLong (n : Z) | NotPut (e : cache_error).

(** What the hub reads while it dispatches. *)
Record dispatch_env := mkDEnv {
  d_nodes : option (list string);              (* the targetable nodes, if they can be listed *)
  d_grains : string → option Map;              (* a node's cached grains; [None] cannot be read *)
  d_roots : bool;                              (* whether the hub compiles pillar *)
  d_pillar : string → option Map;              (* a node's pillar, if it compiles *)
  d_connected : gset string;
  d_random : nat → option nat;                 (* a random number below the given one *)
  d_nonce : option string; d_now : Z; d_trace : string;
  d_wire : Message → option Z;                 (* the length of the message's line *)
  d_disk : disk; d_takes : string → bool }.

Definition MaxSubscribeLine : Z := 2 ^ 20.
Definition QueuedTTL : Z := Hour.
Definition DefaultTTL : Z := 15 * Minute.

Definition reads_pillar (m : Matcher) : bool :=
  existsb (λ t, bool_decide (Target.Kind t = Pillar) || bool_decide (Target.Kind t = PillarRegex)) (mterms m).

(** What one node is found to be. *)
Inductive verdict := Hit | Miss | SkippedNode | UndecidedNode.
#[global] Instance verdict_eq_dec : EqDecision verdict.
Proof. solve_decision. Defined.

Section resolving.
Context `{Runtime}.

Definition judge_node (m : Matcher) (env : dispatch_env) (id : string) : verdict :=
  match d_grains env id with
  | None => SkippedNode
  | Some grains =>
      let reads := reads_pillar m in
      let n := mkNode id (Some grains) None (if reads then Some (d_pillar env id) else None) in
      let '(hit, asked) := tmatch (ast m) n in
      if reads && asked && bool_decide (d_pillar env id = None) then UndecidedNode
      else if hit : bool then Hit else Miss
  end.

Definition resolve (m : Matcher) (env : dispatch_env) : dispatch_error + list string :=
  match d_nodes env with
  | None => inl NoTargetable
  | Some ids =>
      if reads_pillar m && negb (d_roots env) then inl NoPillarRoots
      else
        let undecided := filter (λ id, judge_node m env id = UndecidedNode) ids in
        let skipped := filter (λ id, judge_node m env id = SkippedNode) ids in
        let matched := filter (λ id, judge_node m env id = Hit) ids in
        if negb (bool_decide (undecided = [])) then inl (Undecided (merge_sort str_le undecided))
        else if bool_decide (matched = []) && negb (bool_decide (skipped = [])) then inl (Unreadable (merge_sort str_le skipped))
        else inr (merge_sort str_le matched)
  end.
End resolving.

(** ** A random subset *)

(** for i := len - 1; i > 0; i--: the element at [i] is exchanged with one at or
    before it. *)
Fixpoint shuffle (random : nat → option nat) (i : nat) (l : list string) : option (list string) :=
  match i with
  | O => Some l
  | S i' =>
      match random (S i) with
      | None => None
      | Some k =>
          let k := (k mod S i)%nat in
          match l !! i, l !! k with
          | Some a, Some b => shuffle random i' (swap l i k a b)
          | _, _ => None
          end
      end
  end.

Definition subsetOf (random : nat → option nat) (nodes : list string) (n : Z) : dispatch_error + list string :=
  if (n <=? 0) || (Z.of_nat (length nodes) <=? n) then inr nodes
  else match shuffle random (length nodes - 1) nodes with
  | None => inl NoRandom
  | Some shuffled => inr (merge_sort str_le (take (Z.to_nat n) shuffled))
  end.

(** ** Identifiers and expiries *)

Definition identify (env : dispatch_env) (sub : Submission) (ttl : Z) (h : hub) : (dispatch_error + string * Z) * hub :=
  if bool_decide (sSignature sub = "") then
    if negb (bool_decide (sJID sub = "")) || negb (IsZero (sExpires sub)) then (inl OnlySigned, h)
    else let '(id, t) := Clock_Next (hClock h) (d_now env) in (inr (id, d_now env + ttl), set_clock t h)
  else if negb (ID_Valid (sJID sub)) then (inl (NotJID (sJID sub)), h)
  else if IsZero (sExpires sub) then (inl NoExpiry, h)
  else if negb (After (sExpires sub) (d_now env)) then (inl AlreadyExpired, h)
  else match Get (d_disk env) (sJID sub) (hCache h) with
  | inr _ => (inl (HaveJob (sJID sub)), h)
  | inl (ErrNoJob _) => (inr (sJID sub, sExpires sub), h)
  | inl e => (inl (LookupFailed e), h)
  end.

(** ** Dispatch *)

Section dispatch.
Context `{Runtime} `{NetIP} (regex_Compile : string → option (string → bool)).
Context (scan_float : string → option spec_float) (ovf : spec_float → Z).

(** Put of a record the hub goes on to use, whose schema it sets. *)
Definition put_job (io : disk) (j : Job) (h : hub) : cache_error + Job * hub :=
  match Put io j (hCache h) with
  | (Some e, _) => inl e
  | (None, c) => inr (with_schema j (SchemaFor (Some j)), set_cache c h)
  end.

(** The nodes that are away are put on record and in the index. *)
Definition queue_absent (env : dispatch_env) (sub : Submission) (j : Job) (h : hub) : cache_error + Job * hub :=
  let absent := filter (λ id, id ∉ d_connected env) (Nodes j) in
  if bool_decide (sOffline sub = Queue) && negb (bool_decide (absent = [])) then
    match put_job (d_disk env) (with_queued j absent) h with
    | inl e => inl e
    | inr (j, h) => inr (j, queue_add j h)
    end
  else inr (j, h).

(** What is done with the job once it is on record. *)
Definition send_job (env : dispatch_env) (sub : Submission) (j : Job) (h : hub) : (dispatch_error + Job) * hub :=
  let msg := messageFor j in
  if Batched j then
    match put_job (d_disk env) (with_state j "batching") h with
    | inl e => (inl (NotPut e), h)
    | inr (j, h) => (inr j, start_batch j h)
    end
  else
    match queue_absent env sub j h with
    | inl e => (inl (NotPut e), h)
    | inr (j, h) => let '(j, h) := deliver (d_disk env) (d_takes env) j msg (Nodes j) h in (inr j, h)
    end.

(** Between the identifier and the record. *)
Definition record_job (env : dispatch_env) (sub : Submission) (j : Job) (h : hub) : (dispatch_error + Job) * hub :=
  match d_wire env (messageFor j) with
  | None => (inl NotEncoded, h)
  | Some n =>
      if MaxSubscribeLine <? n then (inl (LineTooLong n), h)
      else match put_job (d_disk env) j h with
      | inl e => (inl (NotPut e), h)
      | inr (j, h) => send_job env sub j h
      end
  end.

Definition job_of (env : dispatch_env) (sub : Submission) (kind : TKind) (matched : list string) (batch : Batch) (nonce : string)
    (jid : string) (expires : Z) : Job :=
  mkJob jid (sFun sub) (sArg sub) (sKwarg sub) (sEnv sub) nonce expires (d_now env) (sSubmitter sub)
    (sOnBehalfOf sub) (sCorrelation sub) (d_trace env) (sTarget sub) (TKind_String kind) matched (sOffline sub)
    "dispatched" (sTest sub) batch [] [] (sSignature sub) "".

(** From the matched nodes on. *)
Definition dispatch_to (env : dispatch_env) (sub : Submission) (kind : TKind) (matched : list string) (h : hub)
    : (dispatch_error + Job) * hub :=
  let absent := filter (λ id, id ∉ d_connected env) matched in
  if bool_decide (sOffline sub = Require_) && negb (bool_decide (absent = [])) then (inl (NotConnected absent matched), h)
  else match ParseBatchSize scan_float ovf (sBatchSpec sub) (length matched) with
  | inl e => (inl (BadBatch e), h)
  | inr size =>
      match d_nonce env with
      | None => (inl NoNonce, h)
      | Some nonce =>
          let ttl := if sTTL sub <=? 0 then if bool_decide (sOffline sub = Queue) then QueuedTTL else DefaultTTL else sTTL sub in
          match identify env sub ttl h with
          | (inl e, h) => (inl e, h)
          | (inr (jid, expires), h) =>
              let b := mkBatch size (Wait (sBatch sub)) (SafeLimit (sBatch sub)) (Timeout (sBatch sub)) in
              record_job env sub (job_of env sub kind matched b nonce jid expires) h
          end
      end
  end.

(** Compiling a target always ends, so the first case of it never comes. *)
Definition Dispatch (groups : Nodegroups) (env : dispatch_env) (sub : Submission) (h : hub) : (dispatch_error + Job) * hub :=
  if bool_decide (sFun sub = "") then (inl NoFunction, h)
  else match KindFromFlag (sTargetKind sub) with
  | None => (inl (BadKind (sTargetKind sub)), h)
  | Some kind =>
      match Target.Compile regex_Compile kind (sTarget sub) groups with
      | None => (inl (BadTarget (mkTErr (sTarget sub) 0 Unsupported)), h)
      | Some (inl e) => (inl (BadTarget e), h)
      | Some (inr m) =>
          match resolve m env with
          | inl e => (inl e, h)
          | inr matched =>
              match (if 0 <? sSubset sub then subsetOf (d_random env) matched (sSubset sub) else inr matched) with
              | inl e => (inl e, h)
              | inr matched => dispatch_to env sub kind matched h
              end
          end
      end
  end.

(** ** Who asks (jobs.go, delegation.go, runners_fleet.go) *)

Inductive submit_error := Forbidden (r : option Policy.reason) | Malformed (e : dispatch_error).

Definition question (principal : string) (sub : Submission) : Request :=
  mkRequest principal (sTarget sub) (sTargetKind sub) (sFun sub) (sArg sub) (sKwarg sub) (sTest sub) (sEnv sub) None false.

Definition with_submitter (sub : Submission) (principal behalf : string) : Submission :=
  mkSub (sTarget sub) (sTargetKind sub) (sFun sub) (sArg sub) (sKwarg sub) (sEnv sub) (sTest sub) (sOffline sub) (sTTL sub)
    (sBatchSpec sub) (sBatch sub) (sSubset sub) principal behalf (sJID sub) (sExpires sub) (sSignature sub) (sCorrelation sub).

(** POST /v1/jobs: [sub] is the request's submission. *)
Definition submit (p : option Policy) (groups : Nodegroups) (env : dispatch_env) (principal : string) (sub : Submission) (h : hub)
    : (submit_error + Job) * hub :=
  let d := Authorize p (question principal sub) in
  if Allowed d then
    match Dispatch groups env (with_submitter sub principal (sOnBehalfOf sub)) h with
    | (inl e, h) => (inl (Malformed e), h)
    | (inr j, h) => (inr j, h)
    end
  else (inl (Forbidden (Reason d)), h).

(** Whom a caller acts for, with the roles of that operator's token. *)
Record Delegation := mkDelegation { delPrincipal : string; delRoles : list string }.

Inductive delegation_error := NamesNobody | MayNotAct.

Definition checkDelegation (p : option Policy) (principal : string) (ob : option Delegation) : option delegation_error :=
  match ob with
  | None => None
  | Some ob =>
      if bool_decide (delPrincipal ob = "") then Some NamesNobody
      else if negb (MayActFor p principal (delPrincipal ob)) then Some MayNotAct
      else None
  end.

Definition with_principal (req : Request) (principal : string) : Request :=
  mkRequest principal (rqTarget req) (rqKind req) (rqFun req) (rqArg req) (rqKwarg req) (rqTest req) (rqEnv req) (rqResumes req) (rqRunner req).

Definition authorizeFor (p : option Policy) (req : Request) (ob : option Delegation) : Decision :=
  let d := Authorize p req in
  if negb (Allowed d) then d
  else match ob with
  | None => d
  | Some ob => AuthorizeAs p (with_principal req (delPrincipal ob)) (delRoles ob)
  end.

Definition actingFor (ob : option Delegation) : string := from_option delPrincipal "" ob.
Definition sameCaller (submitter onBehalfOf principal : string) (ob : option Delegation) : bool :=
  bool_decide (submitter = principal) && bool_decide (onBehalfOf = actingFor ob).

Definition dispatchFor (p : option Policy) (groups : Nodegroups) (env : dispatch_env) (principal : string) (ob : option Delegation)
    (sub : Submission) (h : hub) : (submit_error + Job) * hub :=
  let d := authorizeFor p (question principal sub) ob in
  if Allowed d then
    match Dispatch groups env (with_submitter sub principal (from_option delPrincipal (sOnBehalfOf sub) ob)) h with
    | (inl e, h) => (inl (Malformed e), h)
    | (inr j, h) => (inr j, h)
    end
  else (inl (Forbidden (Reason d)), h).
End dispatch.

(** ** Signing a submission (cmd/halite-hub/run.go) *)

(** *** Through JSON

    A submission and a message are encoded with encoding/json and decoded with
    UseNumber: text is coerced to UTF-8, a number keeps its digits, a []string
    becomes a list.  The order of an association list stands for nothing.  (Two
    keys that are coerced to the same text are both kept, where a Go map keeps
    the last.) *)

#[local] Arguments json_text : simpl never.

Section wire_values.
(** Whether encoding/json writes a json.Number, a float64 or another Go value,
    and what is read back of the latter two. *)
Context (json_encodes : any → bool) (json_other : any → any).

Fixpoint json_any (v : any) : any :=
  match v with
  | ANil | ABool _ => v
  | ANumber s => ANumber (if bool_decide (s = "") then "0" else s)
  | AInt z | AUint64 z => ANumber (FormatInt z)
  | AString s => AString (json_text s)
  | ASlice l => ASlice (json_any <$> l)
  | AStrings l => ASlice ((λ s, AString (json_text s)) <$> l)
  | AMap m => AMap ((fix go m := match m with [] => [] | (k, x) :: m' => (json_text k, json_any x) :: go m' end) m)
  | AFloat _ | AOther _ => json_other v
  end.
Definition json_kwargs (m : kwargs) : kwargs := (λ e, (json_text e.1, json_any e.2)) <$> m.

Fixpoint encodable (v : any) : bool :=
  match v with
  | ANumber _ | AFloat _ | AOther _ => json_encodes v
  | ASlice l => forallb encodable l
  | AMap m => (fix go m := match m with [] => true | (_, x) :: m' => encodable x && go m' end) m
  | _ => true
  end.

(** jobsign.WireValues: keyword arguments as a node will decode them. *)
Definition WireValues (m : kwargs) : option kwargs :=
  match m with
  | [] => Some []
  | _ => if forallb (λ e, encodable e.2) m then Some (json_kwargs m) else None
  end.

Definition json_message (m : Message) : Message :=
  mkMsg (json_text (mJID m)) (json_text (mFun m)) (json_text <$> mArg m) (json_kwargs (mKwarg m)) (json_text (mEnv m))
    (json_text (mNonce m)) (json_text (mTraceParent m)) (json_text (mSubmitter m)) (json_text (mOnBehalfOf m))
    (json_text (mTarget m)) (json_text (mTargetKind m)) (json_text (mSignature m)) (json_text (mExpires m)).
End wire_values.
#[local] Arguments json_kwargs : simpl never.

(** What encoding/json decodes into an interface with UseNumber: nothing, a
    boolean, a number as text, valid text, a list or a map of such values. *)
Fixpoint wire_value (v : any) : bool :=
  match v with
  | ANil | ABool _ => true
  | ANumber s => negb (bool_decide (s = ""))
  | AString s => ValidString s
  | ASlice l => forallb wire_value l
  | AMap m => (fix go m := match m with [] => true | (k, x) :: m' => ValidString k && wire_value x && go m' end) m
  | _ => false
  end.
Definition wire_values (m : kwargs) : Prop := Forall (λ e, ValidString e.1 = true ∧ wire_value e.2 = true) m.

Section sign_request.
Context (json_encodes : any → bool) (json_other : any → any).

(** What is signed, and the request it goes into; the two readings of the clock
    are the expiry's and the identifier's. *)
Definition prepareSigning (now now' ttlSeconds : Z) (sub : Submission) : option (Job * (kwargs * string * string)) :=
  match KindFromFlag (sTargetKind sub), WireValues json_encodes json_other (sKwarg sub) with
  | Some kind, Some wire =>
      let ttl := ttlSeconds * Second in
      let ttl := if ttl <=? 0 then DefaultTTL else ttl in
      let expires := now + ttl in
      let jid := NewID now' in
      Some (mkJob jid (sFun sub) (sArg sub) wire (sEnv sub) "" expires 0 "" "" "" "" (sTarget sub) (TKind_String kind) [] "" ""
              (sTest sub) (mkBatch 0 0 0 0) [] [] "" "", (wire, jid, Format_RFC3339Nano expires))
  | _, _ => None
  end.

(** The submission the hub reads from the body of the signed request; the
    submitter and the correlation are not of the body. *)
Definition signed_submission (sub : Submission) (req : kwargs * string * string) (signature : string) : option Submission :=
  let '(wire, jid, text) := req in
  match Parse_RFC3339Nano (json_text text) with
  | None => None
  | Some expires =>
      Some (mkSub (json_text (sTarget sub)) (json_text (sTargetKind sub)) (json_text (sFun sub)) (json_text <$> sArg sub)
              (json_kwargs json_other wire) (json_text (sEnv sub)) (sTest sub) (json_text (sOffline sub)) (sTTL sub)
              (json_text (sBatchSpec sub)) (sBatch sub) (sSubset sub) (sSubmitter sub) (json_text (sOnBehalfOf sub))
              (json_text jid) expires (json_text signature) (sCorrelation sub))
  end.
End sign_request.

(** ** The state of a record *)

(** completeIfDone: every node answered, and nobody has decided otherwise. *)
Definition completeIfDone (io : disk) (id : string) (c : store) : store :=
  match Missing io id c with
  | inr [] =>
      (Update io id (λ cur, if bool_decide (State cur ∈ ["complete"; "aborted"]) then None
                            else Some (with_state cur "complete")) c).2
  | _ => c
  end.

Definition settleExpired (io : disk) (j : Job) (c : store) : (cache_error + bool) * store :=
  match Missing io (JID j) c with
  | inl e => (inl e, c)
  | inr missing =>
      let state := if bool_decide (missing = []) then "complete"
                   else if bool_decide (Remaining j = []) then "partial" else "aborted" in
      match Update io (JID j) (λ cur, if bool_decide (State cur ∈ ["dispatched"; "batching"])
                                      then Some (with_state cur state) else None) c with
      | (inl Abandoned, c) => (inr false, c)
      | (inl e, c) => (inl e, c)
      | (inr _, c) => (inr true, c)
      end
  end.

Fixpoint settle_all (io : disk) (now : Z) (jobs : list Job) (n : nat) (c : store) : (cache_error + nat) * store :=
  match jobs with
  | [] => (inr n, c)
  | j :: jobs' =>
      if negb (bool_decide (State j ∈ ["dispatched"; "batching"])) || negb (Expired j now) then settle_all io now jobs' n c
      else match settleExpired io j c with
      | (inl e, c) => (inl e, c)
      | (inr closed, c) => settle_all io now jobs' (if closed then S n else n) c
      end
  end.

Definition Settle (io : disk) (now : Z) (c : store) : (cache_error + nat) * store :=
  match List_ io 500 c with
  | inl e => (inl e, c)
  | inr jobs => settle_all io now jobs 0 c
  end.

(** The calls of runners the hub was making when it stopped. *)
Definition RunnerTarget : string := "hub".
Definition runnerJobWindow : nat := 5000.

Fixpoint abandon_all (io : disk) (jobs : list Job) (closed : nat) (c : store) : (cache_error * nat + nat) * store :=
  match jobs with
  | [] => (inr closed, c)
  | j :: jobs' =>
      if bool_decide (Target j ≠ RunnerTarget) || bool_decide (State j ≠ "dispatched") then abandon_all io jobs' closed c
      else match Update io (JID j) (λ cur, Some (if bool_decide (State cur = "dispatched") then with_state cur "aborted" else cur)) c with
      | (inl e, c) => (inl (e, closed), c)
      | (inr _, c) => abandon_all io jobs' (S closed) c
      end
  end.

Definition AbandonRunnerJobs (io : disk) (c : store) : (cache_error * nat + nat) * store :=
  match List_ io runnerJobWindow c with
  | inl e => (inl (e, 0%nat), c)
  | inr jobs => abandon_all io jobs 0 c
  end.

(** The record's part of a kill, and the nodes that are told. *)
Definition killed (now : Z) (j : Job) : Job :=
  mkJob (JID j) (Fun j) (Arg j) (Kwarg j) (Env j) (Nonce j) (now - Second) (Created j) (Submitter j)
    (OnBehalfOf j) (Correlation j) (TraceParent j) (Target j) (TargetKind j) (Nodes j) (Offline j)
    "aborted" (Test j) (batch j) (Delivered j) [] (Signature j) (Schema j).

Definition kill (io : disk) (takes : string → bool) (now : Z) (id : string) (h : hub) : (cache_error + unit) * hub :=
  match Get io id (hCache h) with
  | inl e => (inl e, h)
  | inr j =>
      match Update io id (λ cur, if bool_decide (State cur = "complete") then None else Some (killed now cur)) (hCache h) with
      | (inl e, c) => (inl e, set_cache c h)
      | (inr _, c) => (inr tt, send_all takes (WKill id) (Delivered j) (set_cache c h))
      end
  end.

(** ** Batches *)

Definition DefaultBatchTimeout : Z := 5 * Minute.

Definition sliceWait (configured expires now : Z) : Z :=
  let wait := if configured <=? 0 then DefaultBatchTimeout else configured in
  let wait := if negb (IsZero expires) && (Sub expires now <? wait) then Sub expires now else wait in
  if wait <? 0 then 0 else wait.

(** A look at the returns while a slice is awaited: what was read, whether the
    deadline had passed, and whether the hub was stopping. *)
Record poll := mkPoll { p_returns : cache_error + list Return_; p_late : bool; p_stopping : bool }.

(** [None]: it is still waiting. *)
Fixpoint awaitBatch (j : Job) (slice : list string) (polls : list poll) : option Z :=
  match polls with
  | [] => None
  | p :: polls' =>
      match p_returns p with
      | inl _ => Some 0
      | inr returns =>
          let failed := Z.of_nat (length (filter (λ r, rSuccess r = false) returns)) in
          let answered := length (filter (λ r, rNodeID r ∈ slice) returns) in
          let returned : gset string := list_to_set (rNodeID <$> returns) in
          if (length slice <=? answered)%nat || p_late p then
            Some (failed + Z.of_nat (length (filter (λ id, id ∉ returned) (Delivered j))))
          else if p_stopping p then Some failed
          else awaitBatch j slice polls'
      end
  end.

(** What a turn of a batch meets: what the hub did elsewhere since the last
    one, the clock, the disk and the nodes, and the wait. *)
Record batch_env := mkBEnv {
  b_others : hub → hub; b_stopped : bool; b_now : Z; b_disk : disk; b_takes : string → bool;
  b_polls : list poll; b_interrupted : bool }.

Inductive batch_end := BatchRuns | BatchWaits | BatchStopped | BatchComplete | BatchExpired | BatchAborted.

(** One turn of the loop, on the batch's own copy of the job. *)
Definition batch_turn (env : batch_env) (msg : Message) (j : Job) (h : hub) : batch_end * (Job * hub * list string) :=
  let h := b_others env h in
  if b_stopped env then (BatchStopped, (j, h, []))
  else
    let remaining := Remaining j in
    if bool_decide (remaining = []) then
      let c := (Update (b_disk env) (JID j) (λ cur, if bool_decide (State cur = "batching")
                                                    then Some (with_state cur "dispatched") else None) (hCache h)).2 in
      (BatchComplete, (j, set_cache (completeIfDone (b_disk env) (JID j) c) h, []))
    else if Expired j (b_now env) then
      let c := match Get (b_disk env) (JID j) (hCache h) with
               | inl _ => hCache h
               | inr cur => (settleExpired (b_disk env) cur (hCache h)).2
               end in
      (BatchExpired, (j, set_cache c h, []))
    else
      let size := if Size (batch j) <? 1 then 1 else Size (batch j) in
      let slice := take (Z.to_nat size) remaining in
      let '(j, h) := deliver (b_disk env) (b_takes env) j msg slice h in
      match awaitBatch j slice (b_polls env) with
      | None => (BatchWaits, (j, h, slice))
      | Some failed =>
      if (0 <? SafeLimit (batch j)) && (SafeLimit (batch j) <=? failed) then
        let c := (Update (b_disk env) (JID j) (λ cur, Some (with_state cur "aborted")) (hCache h)).2 in
        (BatchAborted, (with_state j "aborted", set_cache c h, slice))
      else if negb (bool_decide (Remaining j = [])) && (0 <? Wait (batch j)) && b_interrupted env
      then (BatchStopped, (j, h, slice))
      else (BatchRuns, (j, h, slice))
      end.

(** The turns there were; the slices delivered, with the time of each. *)
Fixpoint runBatches (envs : list batch_env) (msg : Message) (j : Job) (h : hub)
    : batch_end * (Job * hub * list (Z * list string)) :=
  match envs with
  | [] => (BatchRuns, (j, h, []))
  | env :: envs' =>
      match batch_turn env msg j h with
      | (BatchRuns, (j, h, slice)) =>
          let '(e, (j, h, slices)) := runBatches envs' msg j h in (e, (j, h, (b_now env, slice) :: slices))
      | (e, (j, h, slice)) => (e, (j, h, if bool_decide (slice = []) then [] else [(b_now env, slice)]))
      end
  end.

(** Resume: a batch goes on from its record. *)
Definition Resume (io : disk) (now : Z) (id : string) (h : hub) : (cache_error + option Job) * hub :=
  match Get io id (hCache h) with
  | inl e => (inl e, h)
  | inr j =>
      if bool_decide (Remaining j = []) then (inr (Some j), h)
      else if Expired j now then (inr None, h)
      else
        let j := with_state j "batching" in
        match Update io id (λ cur, Some (with_state cur "batching")) (hCache h) with
        | (inl e, c) => (inl e, set_cache c h)
        | (inr _, c) => (inr (Some j), start_batch j (set_cache c h))
        end
  end.

(** ** The queue *)

Definition deliver_one (io : disk) (takes : string → bool) (now : Z) (node : string) (h : hub) (id : string) : hub :=
  match Get io id (hCache h) with
  | inl _ => queue_drop node id h
  | inr j =>
      if negb (bool_decide (Offline j = Queue)) || negb (IsQueuedFor j node) then queue_drop node id h
      else if Expired j now then
        match Update io id (λ cur, Some (Dequeue cur node)) (hCache h) with
        | (inl _, c) => set_cache c h
        | (inr _, c) => queue_drop node id (set_cache c h)
        end
      else if takes node then
        let h := send_all takes (WJob (messageFor j)) [node] h in
        match Update io id (λ cur, Some (Dequeue cur node)) (hCache h) with
        | (inl _, c) => set_cache c h
        | (inr _, c) => queue_drop node id (set_cache c h)
        end
      else h
  end.

(** seed: the index is filled from the records once. *)
Definition seed (io : disk) (h : hub) : option cache_error * hub :=
  if hSeeded h then (None, h)
  else match List_ io 0 (hCache h) with
  | inl e => (Some e, h)
  | inr all =>
      let h := foldl (λ h j, queue_add j h) h (filter (λ j, Offline j = Queue) all) in
      (None, mkHub (hCache h) (hQueue h) true (hClock h) (hBatches h) (hSent h))
  end.

(** The disk answers for the index, and for each job. *)
Definition deliverQueued (io : disk) (ios : string → disk) (takes : string → bool) (now : Z) (node : string) (h : hub) : hub :=
  match seed io h with
  | (Some _, h) => h
  | (None, h) => foldl (λ h id, deliver_one (ios id) takes now node h id) h (candidates node h)
  end.

(** ** Batches deliver each node once *)

Lemma Remaining_filter j : Remaining j = filter (λ id, id ∉ Delivered j) (Nodes j).
Proof.
  unfold Remaining. set (sent := foldl _ _ (Delivered j)).
  assert (∀ id, id ∈ sent ↔ id ∈ Delivered j) as Hs.
  { intros id. unfold sent. transitivity (id ∈ Delivered j ∨ id ∈ (∅ : gset string)); [|set_solver].
    generalize (∅ : gset string) as s. induction (Delivered j) as [|x l IH]; intros s; simpl; [set_solver|].
    rewrite IH. set_solver. }
  enough (∀ out, foldl (λ out id, if bool_decide (id ∈ sent) then out else out ++ [id]) out (Nodes j)
               = out ++ filter (λ id, id ∉ Delivered j) (Nodes j)) as He by apply (He []).
  induction (Nodes j) as [|x l IH]; intros out; simpl; [by rewrite app_nil_r|].
  rewrite IH, filter_cons. case_bool_decide as Hx; rewrite Hs in Hx.
  - by rewrite decide_False by tauto.
  - by rewrite decide_True, <- app_assoc.
Qed.

Lemma Remaining_after j slice rest :
  NoDup (Nodes j) → Remaining j = slice ++ rest → Remaining (with_delivered j (Delivered j ++ slice)) = rest.
Proof.
  intros Hnd Hr. rewrite Remaining_filter in Hr |- *. cbn [Nodes Delivered with_delivered].
  assert (NoDup (slice ++ rest)) as Hs by (rewrite <- Hr; by apply NoDup_filter).
  apply NoDup_app in Hs as (_ & Hdisj & _).
  transitivity (filter (λ id, id ∉ slice) (filter (λ id, id ∉ Delivered j) (Nodes j))).
  { rewrite list_filter_filter. apply list_filter_iff. set_solver. }
  rewrite Hr, filter_app, (filter_none _ slice), (filter_all _ rest); [done|set_solver..].
Qed.

Definition slice_size (j : Job) : nat := Z.to_nat (if Size (batch j) <? 1 then 1 else Size (batch j)).

Lemma slice_size_pos j : (0 < slice_size j)%nat.
Proof. unfold slice_size. destruct (Z.ltb_spec (Size (batch j)) 1); lia. Qed.

(** A look that does not end the wait: returns are outstanding, there is time,
    and the hub goes on. *)
Definition outstanding (slice : list string) (p : poll) : Prop :=
  ∃ returns, p_returns p = inr returns ∧
    (length (filter (λ r, rNodeID r ∈ slice) returns) < length slice)%nat ∧ p_late p = false ∧ p_stopping p = false.

(** The nodes a limit counts: those that answered with a failure, and those
    that were sent the job and have not answered. *)
Definition failures (returns : list Return_) : Z := Z.of_nat (length (filter (λ r, rSuccess r = false) returns)).
Definition silent (delivered : list string) (returns : list Return_) : Z :=
  Z.of_nat (length (filter (λ id, id ∉ (rNodeID <$> returns)) delivered)).

(** The wait for a slice was over at the first look that was not outstanding,
    and the safe limit was not reached: when the whole slice had answered or
    the time was up, by failed and silent nodes together; when the hub was
    stopping, by failed ones.  When the returns could not be read the limit was
    not judged. *)
Definition within_limit (limit : Z) (delivered slice : list string) (polls : list poll) : Prop :=
  ∃ k p, polls !! k = Some p ∧ Forall (outstanding slice) (take k polls) ∧
    match p_returns p with
    | inl _ => True
    | inr returns =>
        ((length slice ≤ length (filter (λ r, rNodeID r ∈ slice) returns))%nat ∨ p_late p = true) ∧
          (0 < limit → failures returns + silent delivered returns < limit) ∨
        p_stopping p = true ∧ (0 < limit → failures returns < limit)
    end.

Lemma awaitBatch_within j slice polls failed :
  awaitBatch j slice polls = Some failed → (0 < SafeLimit (batch j) → failed < SafeLimit (batch j)) →
  within_limit (SafeLimit (batch j)) (Delivered j) slice polls.
Proof.
  intros Ha Hl. induction polls as [|p polls IH]; cbn [awaitBatch] in Ha; [done|].
  destruct (p_returns p) as [e|returns] eqn:Hp.
  { exists 0%nat, p. split_and!; [done|constructor|by rewrite Hp]. }
  set (answered := length (filter (λ r, rNodeID r ∈ slice) returns)) in *.
  assert (Hsil : filter (λ id, id ∉ (list_to_set (rNodeID <$> returns) : gset string)) (Delivered j)
    = filter (λ id, id ∉ (rNodeID <$> returns)) (Delivered j)).
  { apply list_filter_iff. intros id. by rewrite elem_of_list_to_set. }
  destruct ((length slice <=? answered)%nat || p_late p) eqn:Ho.
  { injection Ha as <-. exists 0%nat, p. split_and!; [done|constructor|]. rewrite Hp. left. split.
    - apply orb_true_iff in Ho as [?%Nat.leb_le|?]; auto.
    - unfold failures, silent. rewrite <-Hsil. exact Hl. }
  apply orb_false_iff in Ho as [Hans%Nat.leb_gt Hlate].
  destruct (p_stopping p) eqn:Hs.
  { injection Ha as <-. exists 0%nat, p. split_and!; [done|constructor|]. rewrite Hp. by right. }
  destruct (IH Ha) as (k & p' & Hk & Hf & Hm). exists (S k), p'. split_and!; [done| |done].
  cbn [take]. constructor; [|done]. by exists returns.
Qed.

(** A turn delivers nothing and ends, or delivers the next slice. *)
Lemma batch_turn_spec env msg j h e j' h' slice :
  batch_turn env msg j h = (e, (j', h', slice)) →
  (slice = [] ∧ j' = j ∧ e ≠ BatchRuns ∧ e ≠ BatchWaits ∧ (e = BatchComplete → Remaining j = [])) ∨
  (slice = take (slice_size j) (Remaining j) ∧ slice ≠ [] ∧ Expired j (b_now env) = false ∧
   Delivered j' = Delivered j ++ slice ∧ e ≠ BatchComplete ∧
   (e = BatchRuns → j' = with_delivered j (Delivered j ++ slice) ∧
     within_limit (SafeLimit (batch j)) (Delivered j') slice (b_polls env)) ∧
   (e = BatchWaits → awaitBatch (with_delivered j (Delivered j ++ slice)) slice (b_polls env) = None)).
Proof.
  unfold batch_turn. destruct (b_stopped env); [intros [= <- <- <- <-]; by left|].
  case_bool_decide as Hr; [intros [= <- <- <- <-]; by left|].
  destruct (Expired j (b_now env)) eqn:Ex; [intros [= <- <- <- <-]; by left|].
  fold (slice_size j). cbn [deliver fst]. set (s := take (slice_size j) (Remaining j)).
  assert (s ≠ []) as Hs.
  { pose proof (slice_size_pos j). unfold s. destruct (Remaining j); [done|]. by destruct (slice_size j); [lia|]. }
  destruct (awaitBatch _ s (b_polls env)) as [n|] eqn:Ea; [|intros [= <- <- <- <-]; right; by split_and!].
  destruct ((0 <? SafeLimit _) && _) eqn:El; [intros [= <- <- <- <-]; right; by split_and!|].
  destruct (_ && _ && _); intros [= <- <- <- <-]; right; split_and!; try done.
  intros _. split; [done|]. eapply (awaitBatch_within (with_delivered j _)); [done|]. cbn [batch with_delivered] in *. lia.
Qed.

(** The slices a batch delivers, one after another. *)
Definition slice_ok (j : Job) (s : Z * list string) : Prop :=
  s.2 ≠ [] ∧ (length s.2 ≤ slice_size j)%nat ∧ Expired j s.1 = false.

Lemma slice_run_cons j slice given rest :
  NoDup (Nodes j) → slice = take (slice_size j) (Remaining j) →
  given ++ rest = Remaining (with_delivered j (Delivered j ++ slice)) → (slice ++ given) ++ rest = Remaining j.
Proof.
  intros Hnd -> Hg. rewrite (Remaining_after j _ (drop (slice_size j) (Remaining j))) in Hg; [|done|by rewrite take_drop].
  by rewrite <- app_assoc, Hg, take_drop.
Qed.

Lemma runBatches_spec envs msg j h e j' h' slices :
  NoDup (Nodes j) → runBatches envs msg j h = (e, (j', h', slices)) →
  Delivered j' = Delivered j ++ concat slices.*2 ∧
  (∃ rest, concat slices.*2 ++ rest = Remaining j ∧ (e = BatchComplete → rest = [])) ∧
  Forall (slice_ok j) slices.
Proof.
  intros Hnd. revert j h j' h' slices Hnd. induction envs as [|env envs IH]; intros j h j' h' slices Hnd; cbn [runBatches].
  { intros [= <- <- <- <-]. split_and!; [by rewrite app_nil_r|by eexists|done]. }
  destruct (batch_turn env msg j h) as [e1 [[j1 h1] slice]] eqn:Et.
  apply batch_turn_spec in Et as [(-> & -> & Hne & _ & Hc)|(Hs & Hsn & Hx & Hd & Hc & Hruns & _)].
  { destruct e1; try done; intros [= <- <- <- <-]; (split_and!; [by rewrite app_nil_r| |done]); eexists; (split; [done|]); auto; done. }
  assert (slice_ok j (b_now env, slice)) as Hok by (split_and!; [done|cbn; rewrite Hs, length_take; lia|done]).
  destruct e1; try done.
  { destruct (Hruns eq_refl) as [Hj _].
    destruct (runBatches envs msg j1 h1) as [e2 [[j2 h2] slices2]] eqn:Er. intros [= <- <- <- <-].
    rewrite Hj in Er. apply IH in Er as (Hd2 & (rest & Hg & He) & Hf); [|done]. cbn [fmap list_fmap concat snd]. split_and!.
    - by rewrite Hd2, app_assoc.
    - exists rest. split; [by apply slice_run_cons|done].
    - constructor; [done|]. exact Hf. }
  all: rewrite bool_decide_false by done; intros [= <- <- <- <-]; cbn [fmap list_fmap concat snd]; rewrite !app_nil_r;
    split_and!; [done| |by constructor]; exists (drop (slice_size j) (Remaining j)); split; [by rewrite Hs, take_drop|done].
Qed.

Lemma runBatches_limit envs msg j h e j' h' slices k env slice :
  runBatches envs msg j h = (e, (j', h', slices)) → (S k < length slices)%nat →
  envs !! k = Some env → slices.*2 !! k = Some slice →
  within_limit (SafeLimit (batch j)) (Delivered j ++ concat (take (S k) slices.*2)) slice (b_polls env).
Proof.
  revert j h j' h' slices k. induction envs as [|env0 envs IH]; intros j h j' h' slices k; cbn [runBatches]; [done|].
  destruct (batch_turn env0 msg j h) as [e1 [[j1 h1] slice1]] eqn:Et.
  destruct e1; try (intros [= <- <- <- <-]; case_bool_decide; cbn [length]; lia).
  destruct (runBatches envs msg j1 h1) as [e2 [[j2 h2] slices2]] eqn:Er. intros [= <- <- <- <-] Hk.
  apply batch_turn_spec in Et as [(_ & _ & ? & _)|(_ & _ & _ & Hd & _ & Hruns & _)]; [done|].
  destruct (Hruns eq_refl) as [Hj Hw]. destruct k as [|k]; cbn [lookup list_lookup fmap list_fmap snd take concat].
  - intros [= <-] [= <-]. rewrite app_nil_r, <- Hd. done.
  - intros Hen Hsl. cbn [length] in Hk. specialize (IH _ _ _ _ _ k Er ltac:(lia) Hen Hsl).
    rewrite Hd, <- app_assoc, Hj in IH. done.
Qed.

Lemma awaitBatch_ends j slice polls : Exists (λ p, p_late p = true) polls → is_Some (awaitBatch j slice polls).
Proof.
  induction 1 as [p polls Hp|p polls _ IH]; cbn [awaitBatch]; destruct (p_returns p); try done.
  - rewrite Hp, orb_true_r. done.
  - destruct (_ || _); [done|]. by destruct (p_stopping p).
Qed.

(** *** What a batch puts on the streams *)

Definition of_job (id : string) (e : string * wire) : bool :=
  match e.2 with WJob m => bool_decide (mJID m = id) | WKill _ => false end.
Definition sent_of (id : string) (h : hub) : list (string * wire) := filter (λ e, of_job id e = true) (hSent h).

(** What the hub does elsewhere takes back no message and sends none of this
    job. *)
Definition apart (id : string) (env : batch_env) : Prop := ∀ h, sent_of id (b_others env h) = sent_of id h.

(** The messages of a slice: one for each node that takes it. *)
Definition slice_messages (msg : Message) (env : batch_env) (slice : list string) : list (string * wire) :=
  (λ id, (id, WJob msg)) <$> filter (λ id, b_takes env id = true) slice.

Lemma sent_of_cache id c h : sent_of id (set_cache c h) = sent_of id h.
Proof. done. Qed.

Lemma batch_turn_sent env msg j h e j' h' slice :
  apart (mJID msg) env → batch_turn env msg j h = (e, (j', h', slice)) →
  sent_of (mJID msg) h' = sent_of (mJID msg) h ++ slice_messages msg env slice.
Proof.
  intros Hap. rewrite <-(Hap h).
  assert (Hnone : sent_of (mJID msg) (b_others env h) = sent_of (mJID msg) (b_others env h) ++ slice_messages msg env [])
    by (unfold slice_messages; by rewrite app_nil_r).
  assert (Hdel : ∀ slice c, sent_of (mJID msg) (send_all (b_takes env) (WJob msg) slice (set_cache c (b_others env h)))
    = sent_of (mJID msg) (b_others env h) ++ slice_messages msg env slice).
  { intros sl c. unfold sent_of, send_all. cbn [hSent set_cache]. rewrite filter_app. f_equal.
    apply filter_all. intros x Hx. unfold slice_messages in Hx. apply list_elem_of_fmap in Hx as (id & -> & _).
    unfold of_job. cbn [snd]. by rewrite bool_decide_eq_true_2. }
  unfold batch_turn. destruct (b_stopped env); [by intros [= <- <- <- <-]|].
  case_bool_decide; [by intros [= <- <- <- <-]|]. destruct (Expired j (b_now env)); [by intros [= <- <- <- <-]|].
  cbn [deliver fst]. destruct (awaitBatch _ _ _); [|intros [= <- <- <- <-]; apply Hdel].
  destruct (_ && _); [intros [= <- <- <- <-]; rewrite sent_of_cache; apply Hdel|].
  destruct (_ && _ && _); intros [= <- <- <- <-]; apply Hdel.
Qed.

Lemma runBatches_sent envs msg j h e j' h' slices :
  Forall (apart (mJID msg)) envs → runBatches envs msg j h = (e, (j', h', slices)) →
  sent_of (mJID msg) h' = sent_of (mJID msg) h ++ concat (zip_with (slice_messages msg) envs slices.*2).
Proof.
  intros Hap. revert j h j' h' slices. induction Hap as [|env envs Hap _ IH]; intros j h j' h' slices; cbn [runBatches].
  { intros [= <- <- <- <-]. by rewrite app_nil_r. }
  destruct (batch_turn env msg j h) as [e1 [[j1 h1] slice]] eqn:Et. apply batch_turn_sent in Et; [|done].
  assert (Hend : sent_of (mJID msg) h1 = sent_of (mJID msg) h ++
    concat (zip_with (slice_messages msg) (env :: envs) (if bool_decide (slice = []) then [] else [(b_now env, slice)]).*2)).
  { rewrite Et. case_bool_decide as Hs; [by rewrite Hs|]. cbn. by rewrite zip_with_nil_r, !app_nil_r. }
  destruct e1; try (intros [= <- <- <- <-]; exact Hend).
  destruct (runBatches envs msg j1 h1) as [e2 [[j2 h2] slices2]] eqn:Er. intros [= <- <- <- <-].
  apply IH in Er. by rewrite Er, Et, <-app_assoc.
Qed.

Lemma elem_of_concat_zip {A B C} (f : A → B → list C) l k x :
  x ∈ concat (zip_with f l k) ↔ ∃ i a b, l !! i = Some a ∧ k !! i = Some b ∧ x ∈ f a b.
Proof.
  revert k. induction l as [|a l IH]; intros [|b k]; cbn [zip_with concat];
    try (split; [by intros []%elem_of_nil|by intros (i & ? & ? & ? & ? & _)]).
  rewrite elem_of_app, IH. split.
  - intros [Hx|(i & a' & b' & ? & ? & ?)]; [by exists 0%nat, a, b|by exists (S i), a', b'].
  - intros ([|i] & a' & b' & Ha & Hb & Hx); simplify_eq/=; [by left|right; eauto 8].
Qed.

Lemma slice_messages_nodes msg envs ll :
  (concat (zip_with (slice_messages msg) envs ll)).*1 `sublist_of` concat ll.
Proof.
  revert ll. induction envs as [|env envs IH]; intros [|l ll]; cbn; try apply sublist_nil_l.
  rewrite fmap_app. apply sublist_app; [|apply IH]. unfold slice_messages. rewrite <-list_fmap_compose.
  rewrite (list_fmap_ext _ id), list_fmap_id by done. apply sublist_filter.
Qed.

(** C6: A batched job is delivered to each node once, in slices.  Whatever the
    hub does elsewhere meanwhile, the slices a batch delivers are, in order, a
    prefix of the nodes that remained; none is empty or above the size of the
    batch; none goes out after the expiry the batch started with; and a batch
    that completes has gone through every node.  What is put on the streams is
    one message of the job for each node of a slice that takes it at that turn,
    and no node is sent two.  Each slice but the last was waited for and the
    safe limit, if there is one, was not reached by the nodes that had failed
    or stayed silent; it is not judged when the returns cannot be read. *)
Theorem batch_delivers_each_node_once envs msg j h e j' h' slices :
  NoDup (Nodes j) → Forall (apart (mJID msg)) envs → runBatches envs msg j h = (e, (j', h', slices)) →
  Delivered j' = Delivered j ++ concat slices.*2 ∧
  (∃ rest, concat slices.*2 ++ rest = Remaining j ∧ (e = BatchComplete → rest = [])) ∧
  Forall (slice_ok j) slices ∧
  (∃ new, sent_of (mJID msg) h' = sent_of (mJID msg) h ++ new ∧ NoDup new.*1 ∧
     ∀ node w, (node, w) ∈ new ↔ w = WJob msg ∧
       ∃ k env slice, envs !! k = Some env ∧ slices.*2 !! k = Some slice ∧ node ∈ slice ∧ b_takes env node = true) ∧
  ∀ k env slice, (S k < length slices)%nat → envs !! k = Some env → slices.*2 !! k = Some slice →
    within_limit (SafeLimit (batch j)) (Delivered j ++ concat (take (S k) slices.*2)) slice (b_polls env).
Proof.
  intros Hnd Hap Hr. destruct (runBatches_spec _ _ _ _ _ _ _ _ Hnd Hr) as (Hd & (rest & Hrest & He) & Hf).
  split_and!; [done|by eauto|done| |intros k env slice; by apply runBatches_limit with (1 := Hr)].
  exists (concat (zip_with (slice_messages msg) envs slices.*2)). split_and!; [by eapply runBatches_sent| |].
  - eapply sublist_NoDup; [|apply slice_messages_nodes].
    assert (NoDup (concat slices.*2 ++ rest)) as Hall; [|by apply NoDup_app in Hall as [? _]].
    rewrite Hrest, Remaining_filter. by apply NoDup_filter.
  - intros node w. rewrite elem_of_concat_zip. unfold slice_messages. setoid_rewrite list_elem_of_fmap.
    setoid_rewrite list_elem_of_filter. naive_solver.
Qed.

(** A turn that meets its deadline. *)
Definition turn_ends (env : batch_env) : Prop :=
  b_stopped env = false ∧ b_interrupted env = false ∧ Exists (λ p, p_late p = true) (b_polls env).

(** A batch comes to an end.  While the hub is up and the wait for each slice
    meets its deadline, a batch is over within one turn more than there are
    nodes left: every node was reached, or the job expired, or the safe limit
    stopped it. *)
Theorem batch_ends envs msg j h e j' h' slices :
  NoDup (Nodes j) → Forall turn_ends envs → (length (Remaining j) < length envs)%nat →
  runBatches envs msg j h = (e, (j', h', slices)) →
  e = BatchComplete ∧ concat slices.*2 = Remaining j ∨ e = BatchExpired ∨ e = BatchAborted.
Proof.
  intros Hnd Hends Hlen Hr.
  assert (e = BatchComplete ∨ e = BatchExpired ∨ e = BatchAborted) as [->|?]; [|left|by right].
  2:{ destruct (runBatches_spec _ _ _ _ _ _ _ _ Hnd Hr) as (_ & (rest & Hrest & He) & _).
      rewrite (He eq_refl), app_nil_r in Hrest. done. }
  revert j h j' h' slices Hnd Hlen Hr. induction Hends as [|env envs (Hst & Hin & Hlate) _ IH]; [simpl; lia|].
  intros j h j' h' slices Hnd Hlen. cbn [runBatches]. destruct (batch_turn env msg j h) as [e1 [[j1 h1] slice]] eqn:Et.
  assert (e1 ≠ BatchStopped) as Hns.
  { intros ->. revert Et. unfold batch_turn. rewrite Hst, Hin. cbn [deliver fst].
    case_bool_decide; [done|]. destruct (Expired _ _); [done|]. destruct (awaitBatch _ _ _); [|done].
    rewrite andb_false_r. by destruct (_ && _). }
  apply batch_turn_spec in Et as [(-> & -> & Hne & Hnw & _)|(Hs & Hsn & _ & _ & Hc & Hruns & Hwaits)].
  { destruct e1; try done; intros [= <- <- <- <-]; auto. }
  destruct e1; try done; try (intros [= <- <- <- <-]; by auto).
  - destruct (runBatches envs msg j1 h1) as [e2 [[j2 h2] slices2]] eqn:Er. intros [= <- <- <- <-].
    destruct (Hruns eq_refl) as [Hj _]. apply (IH _ _ _ _ _) in Er; [done|by rewrite Hj|].
    rewrite Hj, (Remaining_after j _ (drop (slice_size j) (Remaining j))) by (done || by rewrite Hs, take_drop).
    pose proof (slice_size_pos j). assert (Remaining j ≠ []) by (intros E; by rewrite Hs, E, take_nil in Hsn).
    rewrite length_drop. cbn [length] in Hlen. destruct (Remaining j); [done|]. cbn [length] in *. lia.
  - destruct (awaitBatch_ends (with_delivered j (Delivered j ++ slice)) slice _ Hlate) as [n Hn]. rewrite Hwaits in Hn; done.
Qed.

(** ** A job reaches no node outside what its submitter was granted *)

(** The jobs the index holds for a node. *)
Definition queued_for (h : hub) (node id : string) : Prop := id ∈ default ∅ (hQueue h !! node).

Lemma queue_add_spec j h node id :
  queued_for (queue_add j h) node id ↔ queued_for h node id ∨ node ∈ Queued j ∧ id = JID j.
Proof.
  unfold queued_for, queue_add. cbn [hQueue set_queue]. generalize (hQueue h) as q.
  induction (Queued j) as [|x l IH]; intros q; cbn [foldl]; [set_solver|]. rewrite IH. clear IH.
  destruct (decide (x = node)) as [->|Hne]; [rewrite lookup_insert_eq|rewrite lookup_insert_ne by done]; cbn [default]; set_solver.
Qed.

Section reaching.
Context `{Runtime} `{NetIP} (regex_Compile : string → option (string → bool)).
Context (scan_float : string → option spec_float) (ovf : spec_float → Z).

Lemma resolve_matched m env l id : resolve m env = inr l → id ∈ l → ∃ n, nID n = id ∧ MatcherMatch m n = true.
Proof.
  unfold resolve. destruct (d_nodes env) as [ids|]; [|done]. destruct (_ && _); [done|].
  case_bool_decide; [|done]. destruct (_ && _); [done|]. cbn [negb]. intros [= <-].
  rewrite merge_sort_Permutation, list_elem_of_filter. intros [Hj _]. revert Hj. unfold judge_node.
  destruct (d_grains env id) as [g|]; [|done].
  set (n := mkNode id _ _ _). destruct (tmatch (ast m) n) as [hit asked] eqn:Et. destruct (_ && _ && _); [done|].
  intros Hhit. exists n. split; [done|]. unfold MatcherMatch. rewrite Et. by destruct hit.
Qed.

Lemma shuffle_perm random i l l' : shuffle random i l = Some l' → l' ≡ₚ l.
Proof.
  revert l. induction i as [|i IH]; intros l; cbn [shuffle]; [by intros [= <-]|].
  destruct (random _) as [k|]; [|done]. set (k' := (k mod S (S i))%nat).
  destruct (l !! S i) as [a|] eqn:Ea; [|done]. destruct (l !! k') as [b|] eqn:Eb; [|done].
  intros ->%IH. destruct (decide (S i = k')) as [E|Hne]; [|by apply swap_perm].
  rewrite <- E in *. assert (a = b) as <- by congruence. unfold swap. by rewrite !list_insert_id; [|done|rewrite list_insert_id].
Qed.

Lemma subsetOf_sub random l n l' : subsetOf random l n = inr l' → l' ⊆+ l ∧ (0 < n → Z.of_nat (length l') ≤ n).
Proof.
  unfold subsetOf. destruct ((n <=? 0) || _) eqn:E.
  { intros [= <-]. split; [done|]. intros. apply orb_true_iff in E as [?|?]; lia. }
  destruct (shuffle _ _ _) as [s|] eqn:Es; [|done]. intros [= <-]. apply shuffle_perm in Es. split.
  - rewrite merge_sort_Permutation, <- Es. apply sublist_submseteq, sublist_take.
  - rewrite merge_sort_Permutation, length_take. lia.
Qed.

(** What is put on record for a submission, and what leaves the hub for it. *)
Definition same_order (j j' : Job) : Prop :=
  JID j' = JID j ∧ Nodes j' = Nodes j ∧ messageFor j' = messageFor j.

Lemma put_job_same io j h j' h' :
  put_job io j h = inr (j', h') → same_order j j' ∧ hSent h' = hSent h ∧ hQueue h' = hQueue h ∧ hBatches h' = hBatches h.
Proof. unfold put_job. destruct (Put io j (hCache h)) as [[e|] c]; [done|]. intros [= <- <-]. by split_and!. Qed.

(** Everything a hub does for one job. *)
Definition only_for (j : Job) (h h' : hub) : Prop :=
  (∀ node w, (node, w) ∈ hSent h' → (node, w) ∈ hSent h ∨ node ∈ Nodes j ∧ w = WJob (messageFor j)) ∧
  (∀ node id, queued_for h' node id → queued_for h node id ∨ node ∈ Nodes j ∧ id = JID j) ∧
  (∀ b, b ∈ hBatches h' → b ∈ hBatches h ∨ same_order j b).

Lemma queue_absent_only env sub j h j1 h1 :
  queue_absent env sub j h = inr (j1, h1) →
  same_order j j1 ∧ hSent h1 = hSent h ∧ hBatches h1 = hBatches h ∧
  ∀ node id, queued_for h1 node id → queued_for h node id ∨ node ∈ Nodes j ∧ id = JID j.
Proof.
  unfold queue_absent. destruct (_ && _); [|intros [= <- <-]; split_and!; by auto]. set (absent := filter _ _).
  destruct (put_job _ _ h) as [|[j2 h2]] eqn:Ep; [done|]. intros [= <- <-].
  assert (Queued j2 = absent) as Hab by (revert Ep; unfold put_job; destruct (Put _ _ _) as [[]]; [done|by intros [= <- _]]).
  apply put_job_same in Ep as (Hs & Hsent & Hq & Hb). split_and!; [done..|].
  intros node id Hin%queue_add_spec. unfold queued_for in *. rewrite Hq, Hab in Hin. destruct Hin as [?|[Hin ->]]; [by left|right].
  split; [|apply Hs]. by apply list_elem_of_filter in Hin as [_ ?].
Qed.

Lemma send_job_only env sub j h j' h' : send_job env sub j h = (inr j', h') → same_order j j' ∧ only_for j h h'.
Proof.
  unfold send_job, only_for. destruct (Batched j).
  { destruct (put_job _ _ h) as [|[j1 h1]] eqn:Ep; [done|]. intros [= <- <-].
    apply put_job_same in Ep as (Hs & Hsent & Hq & Hb). cbn [hSent hBatches start_batch]. unfold queued_for. cbn [hQueue start_batch].
    rewrite Hsent, Hq, Hb. split; [done|]. split_and!; [by left|by left|]. intros b [?| ->%list_elem_of_singleton]%elem_of_app; [by left|by right]. }
  destruct (queue_absent env sub j h) as [|[j1 h1]] eqn:Eq; [done|].
  apply queue_absent_only in Eq as (Hs & Hsent & Hb & Hq). cbn [deliver].
  intros [= <- <-]. split; [exact Hs|]. split_and!.
  - intros node w. cbn [hSent send_all set_cache]. rewrite Hsent. intros [?|Hin]%elem_of_app; [by left|right].
    apply list_elem_of_fmap in Hin as (id & [= -> ->] & [_ Hin]%list_elem_of_filter). split; [|done]. by destruct Hs as (_ & <- & _).
  - apply Hq.
  - cbn [hBatches send_all set_cache]. rewrite Hb. by left.
Qed.

Lemma record_job_only env sub j h j' h' : record_job env sub j h = (inr j', h') → same_order j j' ∧ only_for j h h'.
Proof.
  unfold record_job. destruct (d_wire env _) as [n|]; [|done]. destruct (MaxSubscribeLine <? n); [done|].
  destruct (put_job _ _ h) as [|[j1 h1]] eqn:Ep; [done|].
  apply put_job_same in Ep as ((Hid & Hn & Hm) & Hsent & Hq & Hb). intros ((Hid' & Hn' & Hm') & Ho)%send_job_only.
  split; [split_and!; congruence|]. unfold only_for, same_order, queued_for in *. rewrite Hid, Hn, Hm, Hsent, Hq, Hb in Ho. done.
Qed.

Lemma identify_keeps env sub ttl h r h' :
  identify env sub ttl h = (r, h') → hSent h' = hSent h ∧ hQueue h' = hQueue h ∧ hBatches h' = hBatches h.
Proof. unfold identify. intros E. repeat case_match; by simplify_eq. Qed.

Abbreviation Dispatch' := (Dispatch regex_Compile scan_float ovf).

Lemma only_for_same j j' h h' : same_order j j' → only_for j h h' → only_for j' h h'.
Proof.
  unfold only_for, same_order. intros (Hid & Hn & Hm) Ho. rewrite Hid, Hn, Hm. exact Ho.
Qed.

(** What a job says of its submission. *)
Definition of_submission (sub : Submission) (m : Message) : Prop :=
  mFun m = sFun sub ∧ mArg m = sArg sub ∧ mEnv m = sEnv sub ∧ mTarget m = sTarget sub ∧ mSubmitter m = sSubmitter sub ∧
  mOnBehalfOf m = sOnBehalfOf sub ∧ mSignature m = sSignature sub.

Lemma dispatch_to_only env sub kind matched h j h' :
  dispatch_to scan_float ovf env sub kind matched h = (inr j, h') →
  Nodes j = matched ∧ of_submission sub (messageFor j) ∧ only_for j h h' ∧
  ∃ b nonce jid expires ttl, messageFor j = messageFor (job_of env sub kind matched b nonce jid expires) ∧
    (identify env sub ttl h).1 = inr (jid, expires).
Proof.
  unfold dispatch_to. destruct (_ && _); [done|]. destruct (ParseBatchSize _ _ _ _) as [|size]; [done|].
  destruct (d_nonce env) as [nonce|]; [|done].
  destruct (identify env sub _ h) as [[|[jid expires]] h1] eqn:Ei; [done|].
  pose proof Ei as Ei'. apply identify_keeps in Ei as (Hsent & Hq & Hb). intros [Hs Ho]%record_job_only.
  pose proof (only_for_same _ _ _ _ Hs Ho) as Ho'. unfold only_for, queued_for in Ho'. rewrite Hsent, Hq, Hb in Ho'.
  destruct Hs as (_ & Hn & Hm). rewrite Hn, Hm. split_and!; [done..|].
  eexists _, _, _, _, _. split; [done|]. by rewrite Ei'.
Qed.

Lemma Dispatch_only groups env sub h j h' :
  Dispatch' groups env sub h = (inr j, h') →
  ∃ kind m, KindFromFlag (sTargetKind sub) = Some kind ∧ Target.Compile regex_Compile kind (sTarget sub) groups = Some (inr m) ∧
    (∀ id, id ∈ Nodes j → ∃ n, nID n = id ∧ MatcherMatch m n = true) ∧
    (0 < sSubset sub → Z.of_nat (length (Nodes j)) ≤ sSubset sub) ∧ of_submission sub (messageFor j) ∧ only_for j h h' ∧
    ∃ b nonce jid expires ttl, messageFor j = messageFor (job_of env sub kind (Nodes j) b nonce jid expires) ∧
      (identify env sub ttl h).1 = inr (jid, expires).
Proof.
  unfold Dispatch. case_bool_decide; [done|]. destruct (KindFromFlag _) as [kind|]; [|done].
  destruct (Target.Compile _ _ _ _) as [[|m]|] eqn:Em; [done| |done]. destruct (resolve m env) as [|matched] eqn:Er; [done|].
  destruct (Z.ltb_spec 0 (sSubset sub)) as [Hpos|Hneg].
  - destruct (subsetOf _ _ _) as [|chosen] eqn:Es; [done|]. apply subsetOf_sub in Es as [Hsub Hlen].
    intros (-> & Hf & Ho & Hj)%dispatch_to_only. exists kind, m. split_and!; [done..| |done|done|done|done].
    intros id Hid. eapply resolve_matched; [done|]. by eapply elem_of_submseteq.
  - intros (-> & Hf & Ho & Hj)%dispatch_to_only. exists kind, m. split_and!; [done..| |lia|done|done|done].
    intros id Hid. by eapply resolve_matched.
Qed.

(** A rule that grants a function on every node of a job. *)
Definition granted_on (p : Policy) (roles : list string) (j : Job) : Prop :=
  ∃ role rule, role ∈ roles ∧ rule ∈ rules_of p role ∧ matchAny (ruFunctions rule) (Fun j) = true ∧
    ∀ id, id ∈ Nodes j → MatchGlob (ruTarget rule) id = true.

Lemma authorized_grants p req roles kind groups m j :
  Allowed (AuthorizeAs (Some p) req roles) = true → rqRunner req = false → KindFromFlag (rqKind req) = Some kind →
  Target.Compile regex_Compile kind (rqTarget req) groups = Some (inr m) → Fun j = rqFun req →
  (∀ id, id ∈ Nodes j → ∃ n, nID n = id ∧ MatcherMatch m n = true) → granted_on p roles j.
Proof.
  intros (rule & Hr & Hl & Hg & _)%authorized_spec Er Hk Hm Hf Hn. rewrite Er in Hg. destruct Hg as [(k & Hk' & Hc) Hfun].
  exists (dRole (AuthorizeAs (Some p) req roles)), rule. split_and!; [done|by eapply list_elem_of_lookup_2| |].
  - rewrite Hf. apply matchAny_spec. destruct Hfun as [Hfun|((pat & Hp & Hpm) & _)]; eauto.
  - intros id (n & <- & Hmatch)%Hn. eapply covered_reach; [|done..]. congruence.
Qed.

(** C3: A submitted job reaches no node its submitter was not granted.  If the hub
    takes a submission, one rule of one of the submitter's roles grants the
    function on every node of the job; the messages that left the hub went to
    those nodes and carry that job, the nodes queued for are among them, a batch
    started for it is of those nodes; and a subset is no larger than asked. *)
Theorem submitted_job_reaches_only_granted p groups env principal sub h j h' :
  submit regex_Compile scan_float ovf (Some p) groups env principal sub h = (inr j, h') →
  granted_on p (RolesFor p principal) j ∧ of_submission (with_submitter sub principal (sOnBehalfOf sub)) (messageFor j) ∧
  only_for j h h' ∧
  (0 < sSubset sub → Z.of_nat (length (Nodes j)) ≤ sSubset sub).
Proof.
  unfold submit. destruct (Allowed _) eqn:Ea; [|done]. destruct (Dispatch' _ _ _ _) as [[|j1] h1] eqn:Ed; [done|].
  intros [= -> ->]. apply Dispatch_only in Ed as (kind & m & Hk & Hm & Hn & Hl & Hf & Ho & _). cbn in Hk, Hm, Hl.
  split_and!; [|done..]. rewrite Authorize_roles in Ea. eapply authorized_grants with (1 := Ea); [done..|apply Hf|done].
Qed.

(** Who acts for another is held to both.  A job the hub dispatches on an
    operator's behalf is granted, on every node of it, to the caller and to the
    operator with the roles of their token; and it records the operator. *)
Theorem delegated_job_granted_to_both p groups env principal ob sub h j h' :
  dispatchFor regex_Compile scan_float ovf (Some p) groups env principal (Some ob) sub h = (inr j, h') →
  granted_on p (RolesFor p principal) j ∧ granted_on p (delRoles ob) j ∧
  of_submission (with_submitter sub principal (delPrincipal ob)) (messageFor j) ∧ only_for j h h'.
Proof.
  unfold dispatchFor, authorizeFor. destruct (Allowed (Authorize _ _)) eqn:Ea; cbn [negb]; [|by rewrite Ea].
  destruct (Allowed (AuthorizeAs _ _ _)) eqn:Eb; [|done]. destruct (Dispatch' _ _ _ _) as [[|j1] h1] eqn:Ed; [done|].
  intros [= -> ->]. apply Dispatch_only in Ed as (kind & m & Hk & Hm & Hn & _ & Hf & Ho & _). cbn in Hk, Hm.
  rewrite Authorize_roles in Ea. split_and!; [| |done|done].
  - eapply authorized_grants with (1 := Ea); [done..|apply Hf|done].
  - eapply authorized_grants with (1 := Eb); [done..|apply Hf|done].
Qed.
End reaching.

(** ** A queued job is delivered once *)

(** What the records say. *)
Definition owed (c : store) (node id : string) : bool :=
  match records c !! id with Some j => bool_decide (Offline j = Queue) && IsQueuedFor j node | None => false end.
Definition expired_at (c : store) (id : string) (now : Z) : bool :=
  match records c !! id with Some j => Expired j now | None => false end.
Definition is_for (node id : string) (e : string * wire) : bool :=
  bool_decide (e.1 = node) && match e.2 with WJob m => bool_decide (mJID m = id) | WKill _ => false end.
(** How often a job was put on a node's stream. *)
Definition sent (h : hub) (node id : string) : nat := length (filter (λ e, is_for node id e = true) (hSent h)).

(** Records this hub wrote. *)
Definition records_ok (c : store) : Prop :=
  ∀ id j, records c !! id = Some j → JID j = id ∧ ID_Valid id = true ∧ checkSchema j = None.

Lemma checkSchema_own j : checkSchema (with_schema j (SchemaFor (Some j))) = None.
Proof. unfold checkSchema. cbn [Schema with_schema SchemaFor]. repeat case_bool_decide; set_solver. Qed.

Lemma IsQueuedFor_Dequeue j node n : IsQueuedFor (Dequeue j node) n = IsQueuedFor j n && bool_decide (n ≠ node).
Proof.
  unfold IsQueuedFor, Dequeue. cbn [Queued with_queued].
  enough (∀ out, existsb (λ id, bool_decide (id = n)) (foldl (λ out id, if bool_decide (id ≠ node) then out ++ [id] else out) out (Queued j))
    = existsb (λ id, bool_decide (id = n)) out || existsb (λ id, bool_decide (id = n)) (Queued j) && bool_decide (n ≠ node)) as He by apply (He []).
  induction (Queued j) as [|x l IH]; intros out; cbn [foldl existsb]; [by rewrite orb_false_r|].
  rewrite IH. clear IH. destruct (decide (x = node)) as [->|Hx].
  - rewrite (bool_decide_false (node ≠ node)) by tauto. destruct (decide (n = node)) as [->|Hn].
    + rewrite (bool_decide_false (node ≠ node)) by tauto. by rewrite !andb_false_r.
    + by rewrite (bool_decide_false (node = n)) by congruence.
  - rewrite (bool_decide_true (x ≠ node)) by done. rewrite existsb_app. cbn [existsb]. rewrite orb_false_r.
    case_bool_decide as Hn; [subst|by rewrite orb_false_r].
    rewrite bool_decide_true by done. by rewrite !orb_true_r.
Qed.

(** The queue entry of one node is struck off a record. *)
Definition strike (node id : string) (j : Job) (c : store) : store :=
  mkStore (<[id := with_schema (Dequeue j node) (SchemaFor (Some (Dequeue j node)))]> (records c)) (filed c).

Lemma update_dequeue io c id j node :
  records_ok c → records c !! id = Some j → can_read io = true →
  if can_write io then ∃ r, Update io id (λ cur, Some (Dequeue cur node)) c = (inr r, strike node id j c)
  else ∃ e, Update io id (λ cur, Some (Dequeue cur node)) c = (inl e, c).
Proof.
  intros Hok Hj Hr. destruct (Hok _ _ Hj) as (Hid & Hv & Hs). unfold Update, Get, Put. rewrite Hv, Hj, Hr. cbn [negb].
  rewrite Hs. change (checkSchema (Dequeue j node)) with (checkSchema j). rewrite Hs.
  cbn [JID with_schema Dequeue with_queued]. rewrite Hid, Hv. destruct (can_write io); cbn; by eexists.
Qed.

Lemma strike_ok node id j c : records_ok c → records c !! id = Some j → records_ok (strike node id j c).
Proof.
  intros Hok Hj id' j'. cbn [records strike]. intros [[<- <-]|[_ Hj']]%lookup_insert_Some; [|by apply Hok].
  destruct (Hok _ _ Hj) as (Hid & Hv & _). split_and!; [done|done|apply checkSchema_own].
Qed.

Lemma strike_owed node id j c n i :
  records c !! id = Some j → owed (strike node id j c) n i = owed c n i && bool_decide ((n, i) ≠ (node, id)).
Proof.
  intros Hj. unfold owed, strike. cbn [records]. destruct (decide (i = id)) as [->|Hne].
  - rewrite lookup_insert_eq, Hj. unfold IsQueuedFor at 1. cbn [Queued with_schema Offline Dequeue with_queued].
    pose proof (IsQueuedFor_Dequeue j node n) as Hd. unfold IsQueuedFor in Hd at 1. cbn [Queued Dequeue with_queued] in Hd. rewrite Hd.
    rewrite andb_assoc. f_equal. apply bool_decide_ext. naive_solver.
  - rewrite lookup_insert_ne by done. rewrite (bool_decide_true ((n, i) ≠ _)) by congruence. by rewrite andb_true_r.
Qed.

Lemma strike_expired node id j c i now : records c !! id = Some j → expired_at (strike node id j c) i now = expired_at c i now.
Proof.
  intros Hj. unfold expired_at, strike. cbn [records]. destruct (decide (i = id)) as [->|]; [|by rewrite lookup_insert_ne].
  by rewrite lookup_insert_eq, Hj.
Qed.

(** An entry is gone from the records and from the index, and the job was sent
    [k] times. *)
Record struck (k : nat) (node id : string) (h h' : hub) : Prop := {
  struck_ok : records_ok (hCache h');
  struck_expired : ∀ i t, expired_at (hCache h') i t = expired_at (hCache h) i t;
  struck_seeded : hSeeded h' = hSeeded h;
  struck_owed : ∀ n i, owed (hCache h') n i = owed (hCache h) n i && bool_decide ((n, i) ≠ (node, id));
  struck_index : ∀ n i, queued_for h' n i ↔ queued_for h n i ∧ (n, i) ≠ (node, id);
  struck_sent : ∀ n i, sent h' n i = (sent h n i + if bool_decide ((n, i) = (node, id)) then k else 0)%nat }.

Lemma queue_drop_index node id h n i : queued_for (queue_drop node id h) n i ↔ queued_for h n i ∧ (n, i) ≠ (node, id).
Proof.
  unfold queued_for. cbn [hQueue queue_drop set_queue]. destruct (decide (n = node)) as [->|Hn].
  - rewrite lookup_alter_eq. destruct (hQueue h !! node); simpl; set_solver.
  - rewrite lookup_alter_ne by done. set_solver.
Qed.

Lemma struck_stale node id h :
  records_ok (hCache h) → owed (hCache h) node id = false → struck 0 node id h (queue_drop node id h).
Proof.
  intros Hok Ho. split; [done..| | |].
  - intros n i. cbn [hCache queue_drop set_queue]. destruct (decide ((n, i) = (node, id))) as [E|E].
    + injection E as -> ->. by rewrite Ho.
    + by rewrite bool_decide_true, andb_true_r.
  - apply queue_drop_index.
  - intros n i. case_bool_decide; unfold sent; cbn; lia.
Qed.

Lemma struck_record node id j h :
  records_ok (hCache h) → records (hCache h) !! id = Some j →
  struck 0 node id h (queue_drop node id (set_cache (strike node id j (hCache h)) h)).
Proof.
  intros Hok Hj. split; [by apply strike_ok|intros; by apply strike_expired|done|intros; by apply strike_owed|intros n i; rewrite queue_drop_index; done|].
  intros n i. case_bool_decide; unfold sent; cbn; lia.
Qed.

Lemma sent_one takes m node h n i :
  takes node = true → sent (send_all takes (WJob m) [node] h) n i = (sent h n i + if bool_decide ((n, i) = (node, mJID m)) then 1 else 0)%nat.
Proof.
  intros Ht. unfold sent. cbn [hSent send_all]. rewrite filter_app, length_app. f_equal.
  rewrite filter_cons_True, filter_nil by done. cbn [fmap list_fmap]. rewrite filter_cons, filter_nil. unfold is_for. cbn [fst snd].
  destruct (decide (n = node)) as [->|Hn]; [|rewrite decide_False, bool_decide_false; [done|congruence|]].
  - rewrite bool_decide_true by done. cbn [andb]. destruct (decide (i = mJID m)) as [->|Hi].
    + by rewrite decide_True, bool_decide_true by (by rewrite ?bool_decide_true).
    + rewrite decide_False, bool_decide_false; [done|congruence|]. by rewrite bool_decide_false.
  - by rewrite bool_decide_false.
Qed.

Lemma set_cache_same h : set_cache (hCache h) h = h.
Proof. by destruct h. Qed.

(** One job of a node's queue.  It stays as it is when the node does not take
    it; a record that cannot be read loses its hint; otherwise it is no longer
    owed, and was sent if it was owed and in time; if the record cannot be
    written it is still owed. *)
Lemma deliver_one_spec io takes now node h id :
  records_ok (hCache h) →
  let h' := deliver_one io takes now node h id in
  let live := owed (hCache h) node id && negb (expired_at (hCache h) id now) in
  (h' = h ∧ (live = true → takes node = false)) ∨
  (can_read io = false ∧ h' = queue_drop node id h) ∨
  struck (if live then 1 else 0) node id h h' ∨
  (can_write io = false ∧ live = true ∧ takes node = true ∧
   ∃ m, mJID m = id ∧ h' = send_all takes (WJob m) [node] h).
Proof.
  intros Hok. cbn. unfold deliver_one, owed, expired_at. destruct (records (hCache h) !! id) as [j|] eqn:Hj.
  2:{ right. right. left. unfold Get. rewrite Hj. destruct (ID_Valid id); apply struck_stale; [done| |done|]; unfold owed; by rewrite Hj. }
  destruct (Hok _ _ Hj) as (Hid & Hv & _).
  destruct (can_read io) eqn:Hr; [|right; left; unfold Get; by rewrite Hv, Hj, Hr].
  assert (Get io id (hCache h) = inr j) as -> by (unfold Get; by rewrite Hv, Hj, Hr).
  pose proof (update_dequeue io _ _ _ node Hok Hj Hr) as Hu.
  destruct (bool_decide (Offline j = Queue)) eqn:Eo; cbn [negb orb andb].
  2:{ right. right. left. apply struck_stale; [done|]. unfold owed. by rewrite Hj, Eo. }
  destruct (IsQueuedFor j node) eqn:Eq; cbn [negb andb].
  2:{ right. right. left. apply struck_stale; [done|]. unfold owed. by rewrite Hj, Eo. }
  destruct (Expired j now); cbn [negb].
  { destruct (can_write io); destruct Hu as [r ->]; [right; right; left; by apply struck_record|left].
    by rewrite set_cache_same. }
  destruct (takes node) eqn:Et; [|by left]. right. right. cbn [hCache send_all].
  destruct (can_write io); destruct Hu as [r ->]; [left|right; split_and!; [done..|]; by exists (messageFor j)].
  destruct (struck_record node id j (send_all takes (WJob (messageFor j)) [node] h) Hok Hj) as [H1 H2 H3 H4 H5 H6].
  split; [exact H1|exact H2|exact H3|exact H4|exact H5|]. intros n i. etransitivity; [apply H6|].
  rewrite sent_one by done. cbn [mJID messageFor]. rewrite Hid. repeat case_bool_decide; simpl; try done; lia.
Qed.

Definition due (h : hub) (n i : string) : nat := if owed (hCache h) n i then 1 else 0.
(** The index holds an entry if it is owed. *)
Definition hinted (h : hub) (n i : string) : Prop := owed (hCache h) n i = true → queued_for h n i.

(** What may happen to one entry, [lost] times of it because a delivery could
    not be recorded; [late] is whether the job had expired. *)
Record entry_step (node id : string) (lost : nat) (late : bool) (h h' : hub) : Prop := {
  es_ok : records_ok (hCache h');
  es_expired : ∀ i t, expired_at (hCache h') i t = expired_at (hCache h) i t;
  es_mono : (sent h node id ≤ sent h' node id)%nat;
  es_due : (due h' node id ≤ due h node id)%nat;
  es_upper : (sent h' node id + due h' node id ≤ sent h node id + due h node id + lost * due h node id)%nat;
  es_late : late = true → sent h' node id = sent h node id;
  es_kept : late = false → (sent h node id + due h node id ≤ sent h' node id + due h' node id)%nat }.

Lemma entry_refl node id late h : records_ok (hCache h) → entry_step node id 0 late h h.
Proof. by split; try lia. Qed.

Lemma entry_trans node id k1 k2 late h1 h2 h3 :
  entry_step node id k1 late h1 h2 → entry_step node id k2 late h2 h3 → entry_step node id (k1 + k2) late h1 h3.
Proof.
  intros [A1 A2 A3 A4 A5 A6 A7] [B1 B2 B3 B4 B5 B6 B7]. split; [done|intros; by rewrite B2|lia|lia|nia| |].
  - intros Hl. by rewrite B6, A6.
  - intros Hl. specialize (A7 Hl). specialize (B7 Hl). lia.
Qed.

(** One job of one node's queue, seen from any entry. *)
Lemma deliver_one_entry io takes now node0 h id0 node id :
  records_ok (hCache h) →
  let h' := deliver_one io takes now node0 h id0 in
  let here := bool_decide ((node, id) = (node0, id0)) in
  entry_step node id (if here && negb (can_write io) then 1 else 0) (expired_at (hCache h) id now) h h' ∧
  hSeeded h' = hSeeded h ∧
  (here = false ∨ can_read io = true → hinted h node id → hinted h' node id) ∧
  (here = true → can_read io = true → takes node = true → expired_at (hCache h) id now = false →
   (sent h node id + due h node id ≤ sent h' node id)%nat).
Proof.
  intros Hok. cbn zeta. pose proof (deliver_one_spec io takes now node0 h id0 Hok) as Hspec. cbn zeta in Hspec.
  set (h' := deliver_one io takes now node0 h id0) in *. unfold hinted, due.
  destruct Hspec as [[-> Hlive]|[[Hr ->]|[Hst|(Hw & Hlive & Ht & m & Hm & ->)]]].
  - split_and!; [split; try done; unfold due; nia|done|done|].
    intros [= <- <-]%bool_decide_eq_true Hr Ht Hx. rewrite Hx, andb_true_r in Hlive.
    destruct (owed (hCache h) node id); [by rewrite Hlive in Ht|lia].
  - split_and!; [split; try done; unfold due, sent; cbn; nia|done| |intros _ Hr'; congruence].
    intros [Hne%bool_decide_eq_false|?] Hi Ho; [|congruence]. apply queue_drop_index. split; [by apply Hi|done].
  - destruct Hst as [S1 S2 S3 S4 S5 S6]. specialize (S4 node id). specialize (S6 node id). specialize (S5 node id).
    destruct (decide ((node, id) = (node0, id0))) as [E|E].
    + rewrite bool_decide_false, andb_false_r in S4 by tauto. rewrite bool_decide_true in S6 by done.
      rewrite bool_decide_true by done. injection E as <- <-.
      split_and!; [|done|by rewrite S4|intros _ _ _ Hx; rewrite S6, Hx; destruct (owed (hCache h) node id); simpl; lia].
      split; [done|done|unfold due; rewrite ?S4, ?S6..|intros Hl; rewrite S6, Hl, andb_false_r; lia|
        intros Hl; unfold due; rewrite S4, S6, Hl]; destruct (owed (hCache h) node id), (expired_at _ _ _); simpl; nia.
    + rewrite bool_decide_true, andb_true_r in S4 by done. rewrite bool_decide_false in S6 by done.
      rewrite bool_decide_false by done. cbn [andb].
      split_and!; [split; [done|done|unfold due; rewrite ?S4, ?S6; nia..|intros; lia|intros; unfold due; rewrite S4, S6; lia]|done| |done].
      intros _ Hi. rewrite S4, S5. auto.
  - apply andb_true_iff in Hlive as [Ho Hx%negb_true_iff]. pose proof (sent_one takes m node0 h node id Ht) as Hs.
    rewrite Hm in Hs. split_and!; [|done|done|].
    + split; [done|done|rewrite Hs; lia|unfold due; cbn [hCache send_all]; lia| |intros Hl; rewrite Hs|intros _; unfold due; cbn [hCache send_all]; rewrite Hs; lia].
      * unfold due. cbn [hCache send_all]. rewrite Hs, Hw. case_bool_decide as E; cbn; [|lia].
        injection E as -> ->. rewrite Ho. lia.
      * case_bool_decide as E; [|lia]. injection E as -> ->. congruence.
    + intros [= -> ->]%bool_decide_eq_true _ _ _. rewrite Hs, Ho, bool_decide_true by done. lia.
Qed.
(** The jobs of one connection. *)
Lemma deliver_all_entry ios takes now node0 ids h node id :
  records_ok (hCache h) → NoDup ids →
  let h' := foldl (λ h id, deliver_one (ios id) takes now node0 h id) h ids in
  let here := bool_decide (node = node0 ∧ id ∈ ids) in
  entry_step node id (if here && negb (can_write (ios id)) then 1 else 0) (expired_at (hCache h) id now) h h' ∧
  hSeeded h' = hSeeded h ∧
  (node ≠ node0 ∨ can_read (ios id) = true → hinted h node id → hinted h' node id) ∧
  (here = true → can_read (ios id) = true → takes node = true → expired_at (hCache h) id now = false →
   (sent h node id + due h node id ≤ sent h' node id)%nat).
Proof.
  revert h. induction ids as [|x ids IH]; intros h Hok Hnd; cbn [foldl].
  { rewrite bool_decide_false by (intros [_ ?%elem_of_nil]; done). cbn [andb]. split_and!; [by apply entry_refl|done..]. }
  apply NoDup_cons in Hnd as [Hx Hnd].
  destruct (deliver_one_entry (ios x) takes now node0 h x node id Hok) as (E1 & S1 & I1 & D1). cbn zeta in *.
  set (h1 := deliver_one (ios x) takes now node0 h x) in *.
  destruct (IH h1 (es_ok _ _ _ _ _ _ E1) Hnd) as (E2 & S2 & I2 & D2). cbn zeta in *. set (h2 := foldl _ h1 ids) in *.
  rewrite (es_expired _ _ _ _ _ _ E1) in E2, D2. pose proof (entry_trans _ _ _ _ _ _ _ _ E1 E2) as E.
  split_and!; [|congruence| |].
  - destruct (decide ((node, id) = (node0, x))) as [[= -> ->]|Hne].
    + rewrite (bool_decide_false (node0 = node0 ∧ x ∈ ids)) in E by tauto.
      rewrite (bool_decide_true (node0 = node0 ∧ _)) by (split; [done|by left]).
      rewrite bool_decide_true in E by done. cbn [andb] in *. by rewrite Nat.add_0_r in E.
    + rewrite (bool_decide_false ((node, id) = _)) in E by done. cbn [andb Nat.add] in E.
      rewrite (bool_decide_ext (node = node0 ∧ id ∈ x :: ids) (node = node0 ∧ id ∈ ids)); [done|].
      rewrite elem_of_cons. naive_solver.
  - intros Hor Hi. apply I2; [done|]. apply I1; [|done]. destruct (decide ((node, id) = (node0, x))) as [[= -> ->]|Hne].
    + right. by destruct Hor.
    + left. by apply bool_decide_eq_false.
  - intros [-> Hin]%bool_decide_eq_true Hr Ht Hlate. apply elem_of_cons in Hin as [->|Hin].
    + etransitivity; [apply D1; [by apply bool_decide_eq_true|done..]|apply E2].
    + pose proof (es_kept _ _ _ _ _ _ E1 Hlate). specialize (D2 ltac:(by apply bool_decide_eq_true) Hr Ht Hlate). lia.
Qed.

(** A listing that succeeds has read every record. *)
Lemma list_go_all io c ids out all :
  records_ok c → (∀ id, id ∈ ids → is_Some (records c !! id)) →
  list_go io c 0 ids out = inr all → all = out ++ omap (λ id, records c !! id) ids.
Proof.
  intros Hok. revert out. induction ids as [|id ids IH]; intros out Hin; cbn [list_go]; [intros [= <-]; by rewrite app_nil_r|].
  destruct (Hin id) as [j Hj]; [by left|]. destruct (Hok _ _ Hj) as (_ & Hv & _).
  unfold Get. rewrite Hv, Hj. cbn [negb]. destruct (can_read io); [|done]. cbn [omap list_omap]. rewrite Hj.
  intros ->%IH; [by rewrite <- app_assoc|]. intros i Hi. apply Hin. by right.
Qed.
Lemma list_go_reads io c ids out :
  records_ok c → (∀ id, id ∈ ids → is_Some (records c !! id)) → can_read io = true →
  ∃ all, list_go io c 0 ids out = inr all.
Proof.
  intros Hok Hin Hr. revert out Hin. induction ids as [|id ids IH]; intros out Hin; cbn [list_go]; [by eexists|].
  destruct (Hin id) as [j Hj]; [by left|]. destruct (Hok _ _ Hj) as (_ & Hv & _).
  unfold Get. rewrite Hv, Hj, Hr. apply IH. intros i Hi. apply Hin. by right.
Qed.

Lemma queue_add_all jobs h :
  let h' := foldl (λ h j, queue_add j h) h jobs in
  hCache h' = hCache h ∧ hSent h' = hSent h ∧ ∀ n i, queued_for h' n i ↔ queued_for h n i ∨ ∃ j, j ∈ jobs ∧ n ∈ Queued j ∧ i = JID j.
Proof.
  revert h. induction jobs as [|j jobs IH]; intros h; cbn [foldl].
  { split; [done|]. split; [done|]. intros n i. split; [by left|]. intros [?|(j & Hj%elem_of_nil & _)]; done. }
  destruct (IH (queue_add j h)) as (Hc & Hs & Hq). rewrite Hc, Hs. split; [done|]. split; [done|].
  intros n i. rewrite Hq, queue_add_spec. set_solver.
Qed.

Lemma IsQueuedFor_elem j n : IsQueuedFor j n = true ↔ n ∈ Queued j.
Proof.
  unfold IsQueuedFor. rewrite existsb_exists. split.
  - intros (x & Hx & <-%bool_decide_eq_true). by apply list_elem_of_In.
  - intros Hn%list_elem_of_In. exists n. by rewrite bool_decide_true.
Qed.

Lemma seed_spec io h node id :
  records_ok (hCache h) →
  let r := seed io h in
  hCache r.2 = hCache h ∧ hSent r.2 = hSent h ∧
  (can_read io = true → r.1 = None) ∧
  (r.1 = None → hSeeded r.2 = true ∧ ((hSeeded h = true → hinted h node id) → hinted r.2 node id)) ∧
  (r.1 ≠ None → r.2 = h ∧ hSeeded h = false).
Proof.
  intros Hok. cbn zeta. unfold seed. destruct (hSeeded h) eqn:Es; [by split_and!; [..|auto|]|]. unfold List_.
  set (ids := merge_sort str_ge _).
  assert (∀ id, id ∈ ids ↔ is_Some (records (hCache h) !! id)) as Hids.
  { intros i. unfold ids. by rewrite merge_sort_Permutation, elem_of_elements, elem_of_dom. }
  assert (Hread : can_read io = true → ∃ all, list_go io (hCache h) 0 ids [] = inr all)
    by (apply list_go_reads; [done|intros; by apply Hids]).
  destruct (list_go io (hCache h) 0 ids []) as [e|all] eqn:El.
  { split_and!; [done..| |done|done]. intros Hr. by destruct (Hread Hr). }
  apply list_go_all in El; [|done|intros; by apply Hids]. cbn [app] in El.
  destruct (queue_add_all (filter (λ j, Offline j = Queue) all) h) as (Hc & Hs & Hq). set (h1 := foldl _ h _) in *.
  split_and!; [exact Hc|exact Hs|done| |done]. intros _. split; [done|]. intros _. unfold hinted. cbn [hCache snd]. rewrite Hc.
  intros Ho. apply Hq. right.
  unfold owed in Ho. destruct (records (hCache h) !! id) as [j|] eqn:Hj; [|done]. apply andb_true_iff in Ho as [Hof%bool_decide_eq_true Hn].
  exists j. split_and!; [|by apply IsQueuedFor_elem|by destruct (Hok _ _ Hj)].
  apply list_elem_of_filter. split; [done|]. rewrite El. apply list_elem_of_omap. exists id. split; [by apply Hids|done].
Qed.

(** A node's stream opens: its name, the time, which nodes take a message, and
    the answers of the disk to the reading of all records and to the reading
    and writing of each. *)
Record connection := mkConn {
  cn_node : string; cn_now : Z; cn_takes : string → bool; cn_seed : disk; cn_disk : string → disk }.
Definition connect (h : hub) (c : connection) : hub :=
  deliverQueued (cn_seed c) (cn_disk c) (cn_takes c) (cn_now c) (cn_node c) h.

(** Connections of a node at which the record of a job could not be written. *)
Definition unrecorded (node id : string) (c : connection) : bool :=
  bool_decide (cn_node c = node) && negb (can_write (cn_disk c id)).

Lemma entry_more node id k k' late h h' : (k ≤ k')%nat → entry_step node id k late h h' → entry_step node id k' late h h'.
Proof. intros Hk [A1 A2 A3 A4 A5 A6 A7]. split; [done..|nia|done|done]. Qed.

Lemma connect_entry h c node id :
  records_ok (hCache h) →
  entry_step node id (if unrecorded node id c then 1 else 0) (expired_at (hCache h) id (cn_now c)) h (connect h c) ∧
  ((hSeeded h = true → hinted h node id) → (cn_node c = node → can_read (cn_disk c id) = true) →
   (hSeeded (connect h c) = true → hinted (connect h c) node id) ∧
   (cn_node c = node → cn_takes c node = true → can_read (cn_seed c) = true →
    expired_at (hCache h) id (cn_now c) = false → (sent h node id + due h node id ≤ sent (connect h c) node id)%nat)).
Proof.
  intros Hok. unfold connect, deliverQueued. pose proof (seed_spec (cn_seed c) h node id Hok) as Hseed. cbn zeta in Hseed.
  destruct (seed (cn_seed c) h) as [[e|] h1]; cbn [fst snd] in Hseed; destruct Hseed as (Hc & Hs & Hr & Hi & He).
  { destruct He as [-> Hsd]; [done|]. split; [by eapply entry_more, entry_refl; [lia|]|]. intros Hh _. split; [done|].
    intros _ _ Hr'. by specialize (Hr Hr'). }
  destruct (Hi eq_refl) as [Hsd Hhint].
  assert (Hsame : sent h1 node id = sent h node id ∧ due h1 node id = due h node id).
  { unfold sent, due. by rewrite Hc, Hs. }
  assert (Hnd : NoDup (candidates (cn_node c) h1)).
  { unfold candidates. rewrite merge_sort_Permutation. apply NoDup_elements. }
  destruct (deliver_all_entry (cn_disk c) (cn_takes c) (cn_now c) (cn_node c) (candidates (cn_node c) h1) h1 node id)
    as (E & S & I & D); [by rewrite Hc|done|]. cbn zeta in *. rewrite Hc in E, D. set (h2 := foldl _ h1 _) in *.
  destruct Hsame as [Hs1 Hd1]. rewrite Hs1, Hd1 in D. split.
  - eapply (entry_more _ _ (0 + _)); [|eapply (entry_trans _ _ _ _ _ h h1); [|exact E]].
    + unfold unrecorded. rewrite (bool_decide_ext (cn_node c = node) (node = cn_node c)) by done.
      destruct (can_write _); [by rewrite !andb_false_r|]. rewrite !andb_true_r.
      destruct (decide (node = cn_node c)) as [->|Hn]; [rewrite (bool_decide_true (cn_node c = _)) by done; case_bool_decide; simpl; lia|].
      rewrite (bool_decide_false (node = _ ∧ _)) by tauto. simpl. lia.
    + split; [by rewrite Hc|by rewrite Hc|lia|lia|lia|done|lia].
  - intros Hh Hread. split.
    + intros _. apply I; [|by apply Hhint]. destruct (decide (node = cn_node c)) as [->|]; [right; by apply Hread|by left].
    + intros Hn Ht Hrs Hlate. destruct (owed (hCache h) node id) eqn:Ho.
      * apply D; [|by apply Hread|done|done]. apply bool_decide_eq_true. split; [done|].
        unfold candidates. rewrite merge_sort_Permutation, elem_of_elements, Hn. apply Hhint; [done|by rewrite Hc].
      * pose proof (es_mono _ _ _ _ _ _ E) as Hm. unfold due. rewrite Ho. lia.
Qed.

(** C19: A queued job is delivered once.  However often nodes connect and
    whatever the disk does, a job is put on a node's stream only if the node was
    owed it, at most once more than the times its record could not be written
    after it was sent, and never at a connection after the job expired.  It is
    delivered if it has not expired, its record can be read whenever the node
    connects, and the node connects and takes it at a time when the records can
    be listed; so with a disk that works it is delivered exactly once. *)
Theorem queued_job_delivered_once cs h node id :
  records_ok (hCache h) →
  let h' := foldl connect h cs in
  let lost := length (filter (λ c, unrecorded node id c = true) cs) in
  (sent h node id ≤ sent h' node id ≤ sent h node id + due h node id * (1 + lost))%nat ∧
  (Forall (λ c, expired_at (hCache h) id (cn_now c) = true) cs → sent h' node id = sent h node id) ∧
  (Forall (λ c, expired_at (hCache h) id (cn_now c) = false) cs →
   (hSeeded h = true → hinted h node id) →
   Forall (λ c, cn_node c = node → can_read (cn_disk c id) = true) cs →
   Exists (λ c, cn_node c = node ∧ cn_takes c node = true ∧ can_read (cn_seed c) = true) cs →
   (sent h node id + due h node id ≤ sent h' node id)%nat).
Proof.
  cbn zeta. revert h. induction cs as [|c cs IH]; intros h Hok; cbn [foldl].
  { split_and!; [lia|unfold due; destruct (owed _ _ _); lia|done|by intros _ _ _ ?%Exists_nil]. }
  destruct (connect_entry h c node id Hok) as [E Hgood]. pose proof E as [Ok Ex Em Ed Eu El Ek].
  destruct (IH (connect h c) Ok) as ([Hlo Hhi] & Hlate & Hin).
  assert (Hx : ∀ b, Forall (λ c, expired_at (hCache h) id (cn_now c) = b) cs →
    Forall (λ d, expired_at (hCache (connect h c)) id (cn_now d) = b) cs).
  { intros b Hf. eapply Forall_impl; [exact Hf|]. intros d. cbn. by rewrite Ex. }
  split_and!; [lia| | |].
  - rewrite filter_cons. destruct (unrecorded node id c); cbn [decide]; case_decide; simplify_eq/=; nia.
  - intros [Hx1 Hxs]%Forall_cons. rewrite Hlate by auto. by apply El.
  - intros [Hx1 Hxs]%Forall_cons Hh [Hr Hrs]%Forall_cons Hex. destruct (Hgood Hh Hr) as [Hh1 Hdel].
    apply Exists_cons in Hex as [(Hn & Ht & Hsr)|Hex].
    + etransitivity; [by apply Hdel|lia].
    + etransitivity; [by apply Ek|]. apply Hin; auto.
Qed.

(** ** A signature arrives *)

Section arriving.
Context `{Runtime} `{NetIP} (regex_Compile : string → option (string → bool)).
Context (scan_float : string → option spec_float) (ovf : spec_float → Z) (json_encodes : any → bool) (json_other : any → any).
Context {K P : Type} (VerifyASN1 : K → string → string → bool) (sha256 : string → string)
  (base64_Decode : string → option string) (json_Marshal : any → option string)
  (curve_ok : P → bool) (SignASN1 : P → string → option string) (base64_Encode : string → string) (public : P → K).
Hypothesis sign_correct : ∀ k d s, SignASN1 k d = Some s → VerifyASN1 (public k) d s = true.
Hypothesis base64_correct : ∀ s, base64_Decode (base64_Encode s) = Some s.
Hypothesis base64_text : ∀ k d s, SignASN1 k d = Some s → TrimSpace (base64_Encode s) ≠ "".
Hypothesis base64_ascii : ∀ s, sall ascii_c (base64_Encode s).
Hypothesis other_values : ∀ v, wire_value (json_other v) = true.

Lemma FormatInt_not_empty z : FormatInt z ≠ "".
Proof.
  destruct z as [|n|n]; [done| |]; destruct (pretty_pos n) as (c & t & E & _); [by change (FormatInt _) with (pretty (Zpos n)); rewrite E|].
  change (FormatInt (Zneg n)) with ("-" +:+ pretty (Zpos n)). by rewrite E.
Qed.
(** What is decoded is of the kinds the decoder makes. *)
Lemma json_any_decodes v : wire_value (json_any json_other v) = true.
Proof.
  induction v as [v Hv|l IH|m IH] using any_ind'.
  - destruct v as [| |s|z|z|f|s|l|l|m|]; try done; cbn; try apply json_text_is_valid; try apply other_values.
    + destruct (decide (s = "")) as [->|Hs]; [done|]. by rewrite (bool_decide_false (s = "")), bool_decide_false.
    + by apply negb_true_iff, bool_decide_eq_false, FormatInt_not_empty.
    + by apply negb_true_iff, bool_decide_eq_false, FormatInt_not_empty.
    + induction l as [|s l IHl]; [done|]. cbn. by rewrite json_text_is_valid.
  - cbn. induction IH as [|x l Hx _ IHl]; [done|]. cbn. by rewrite Hx.
  - cbn. induction m as [|[k x] m IHm]; [done|]. apply Forall_cons in IH as [Hx IH]. cbn in *. by rewrite json_text_is_valid, Hx, IHm.
Qed.
Lemma json_kwargs_decode m : wire_values (json_kwargs json_other m).
Proof.
  unfold wire_values, json_kwargs. induction m as [|e m IH]; [constructor|]. constructor; [|exact IH].
  split; [apply json_text_is_valid|apply json_any_decodes].
Qed.
Lemma WireValues_decoded m w : WireValues json_encodes json_other m = Some w → wire_values w.
Proof.
  unfold WireValues. destruct m as [|e m]; [by intros [= <-]; constructor|].
  destruct (forallb _ _); [|done]. intros E. injection E as <-. apply json_kwargs_decode.
Qed.

Lemma json_any_wire v : wire_value v = true → json_any json_other v = v.
Proof.
  induction v as [v Hv|l IH|m IH] using any_ind'; intros Hj.
  - destruct v; try done; cbn in *; [by rewrite bool_decide_false by by apply negb_true_iff, bool_decide_eq_false in Hj|by rewrite json_text_valid].
  - cbn in *. f_equal. rewrite Forall_forall in IH. rewrite forallb_forall in Hj.
    transitivity (id <$> l); [|apply list_fmap_id]. apply list_fmap_ext. intros i x Hx%list_elem_of_lookup_2. apply IH; [done|].
    by apply Hj, list_elem_of_In.
  - cbn in *. f_equal. induction m as [|[k x] m IHm]; [done|]. apply Forall_cons in IH as [Hx IH].
    apply andb_true_iff in Hj as [[Hk Hjx]%andb_true_iff Hj]. f_equal; [|by apply IHm]. cbn [snd] in Hx. by rewrite (json_text_valid k Hk), (Hx Hjx).
Qed.
Lemma json_kwargs_wire m : wire_values m → json_kwargs json_other m = m.
Proof.
  unfold wire_values, json_kwargs. induction 1 as [|[k x] m [Hk Hx] _ IH]; [done|].
  cbn [fmap list_fmap fst snd] in *. by rewrite (json_text_valid k), (json_any_wire x), IH.
Qed.

Lemma set_kwarg_values k v m :
  ValidString k = true → wire_value v = true → wire_values m → wire_values (set_kwarg k v m).
Proof.
  unfold wire_values. intros Hk Hv Hm. apply Forall_app. split; [|by repeat constructor]. rewrite Forall_forall in *.
  intros e [_ He]%list_elem_of_filter. by apply Hm.
Qed.

Lemma sign_nonempty key p sig :
  Sign ovf sha256 curve_ok SignASN1 base64_Encode (Some key) p = inr sig → sig ≠ "".
Proof.
  unfold Sign. destruct (curve_ok key); [|done]. cbn [negb]. destruct (IsZero _); [done|].
  destruct (SignASN1 key _) as [der|] eqn:Es; [|done]. intros [= <-] E. apply (base64_text _ _ _ Es). by rewrite E.
Qed.

Lemma identify_signed env sub ttl h jid expires :
  (identify env sub ttl h).1 = inr (jid, expires) → sSignature sub ≠ "" → jid = sJID sub ∧ expires = sExpires sub.
Proof.
  unfold identify. intros E Hs. rewrite bool_decide_false in E by done. revert E.
  destruct (ID_Valid _); [|done]. destruct (IsZero _); [done|]. destruct (After _ _); [|done]. cbn [negb].
  destruct (Get _ _ _) as [[]|]; try done. cbn. intros E. by injection E as <- <-.
Qed.

Lemma TKind_String_ascii kind : sall ascii_c (TKind_String kind).
Proof. destruct kind; by repeat split. Qed.
Lemma NewID_ascii t : sall ascii_c (NewID t).
Proof.
  unfold NewID, format. apply sall_app. split; [apply sall_stake|apply sall_sdrop]; apply Format_jid_ascii.
Qed.
Lemma json_text_ascii s : sall ascii_c s → json_text s = s.
Proof. intros Hs. by apply json_text_valid, ascii_valid. Qed.
Lemma json_texts l : Forall (λ s, ValidString s = true) l → json_text <$> l = l.
Proof. induction 1; [done|]. cbn. by rewrite json_text_valid by done; f_equal. Qed.

Lemma sign_ascii key p sig :
  Sign ovf sha256 curve_ok SignASN1 base64_Encode (Some key) p = inr sig → json_text sig = sig.
Proof.
  unfold Sign. destruct (negb (curve_ok key)); [done|]. destruct (IsZero _); [done|].
  destruct (SignASN1 _ _); [|done]. intros [= <-]. by apply json_text_ascii.
Qed.

(** C14: A signed job verifies where it arrives.  The request is encoded as JSON
    and decoded by the hub, which dispatches it, and the message for the job is
    encoded and decoded by the node.  If the texts of the request (target and
    kind, function, arguments, environment) are valid UTF-8, whatever the
    keyword arguments are, the payload the node rebuilds is the payload that
    was signed, its identifier and expiry included, and a node that trusts the
    key accepts the signature.  (An argument that is not valid UTF-8 arrives as
    another and is refused: [invalid_argument_is_not_what_was_signed].  A
    message made later from the record of the job is not covered.) *)
Theorem signed_submission_arrives now now' ttl sub signed req key sig sub' groups env h j h' keys name :
  Forall (λ s, ValidString s = true) (sTarget sub :: sTargetKind sub :: sFun sub :: sEnv sub :: sArg sub) →
  prepareSigning json_encodes json_other now now' ttl sub = Some (signed, req) → four_digit (Expires signed) →
  Sign ovf sha256 curve_ok SignASN1 base64_Encode (Some key) (SigningPayload signed) = inr sig →
  signed_submission json_other sub req sig = Some sub' →
  Dispatch regex_Compile scan_float ovf groups env sub' h = (inr j, h') → mkSignerKey name (public key) ∈ keys →
  let m := json_message json_other (messageFor j) in
  only_for j h h' ∧
  ∃ expires, Parse_RFC3339Nano (mExpires m) = Some expires ∧ SigningPayload (msg_job m expires) = SigningPayload signed ∧
    ∃ name', Verify ovf VerifyASN1 sha256 base64_Decode json_Marshal keys (SigningPayload (msg_job m expires)) (mSignature m) = inr name'.
Proof.
  intros Hv. apply Forall_cons in Hv as [Vt Hv]. apply Forall_cons in Hv as [Vk Hv].
  apply Forall_cons in Hv as [Vf Hv]. apply Forall_cons in Hv as [Ve Va]. unfold prepareSigning.
  destruct (KindFromFlag (sTargetKind sub)) as [kind|] eqn:Ek; [|done].
  destruct (WireValues _ _ _) as [wire|] eqn:Ew; [|done]. apply WireValues_decoded in Ew. cbn zeta.
  generalize (if ttl * Second <=? 0 then DefaultTTL else ttl * Second) as ttl'. intros ttl' [= <- <-] Hy Hsign. cbn [Expires] in Hy.
  pose proof (sign_ascii _ _ _ Hsign) as Hsig. unfold signed_submission.
  rewrite (json_text_ascii (Format_RFC3339Nano _)), Parse_Format_RFC3339Nano by (done || apply Format_RFC3339Nano_ascii).
  rewrite Hsig, (json_text_valid (sTarget sub)), (json_text_valid (sTargetKind sub)), (json_text_valid (sFun sub)),
    (json_text_valid (sEnv sub)), json_texts, json_kwargs_wire, (json_text_ascii (NewID _)) by (done || apply NewID_ascii).
  intros [= <-] Hd Hkey.
  apply Dispatch_only in Hd as (k & m & Hk & _ & _ & _ & _ & Ho & b & nonce & jid & expires & t & Hm & Hi).
  cbn [sTargetKind] in Hk. assert (k = kind) as -> by congruence.
  apply identify_signed in Hi as [-> ->]; [|by eapply sign_nonempty]. cbn zeta. split; [done|]. rewrite Hm.
  exists (now + ttl'). cbn [mExpires json_message messageFor job_of Expires sExpires].
  rewrite (json_text_ascii (Format_RFC3339Nano _)) by apply Format_RFC3339Nano_ascii.
  split; [by apply Parse_Format_RFC3339Nano|].
  match goal with |- ?p = ?q ∧ _ => assert (p = q) as Hp end.
  { unfold SigningPayload, WireKwargs. cbn.
    rewrite (json_text_valid (sTarget sub)), (json_text_valid (sFun sub)), (json_text_valid (sEnv sub)), json_texts,
      (json_text_ascii (NewID _)), (json_text_ascii (TKind_String _))
      by (done || apply NewID_ascii || apply TKind_String_ascii).
    rewrite json_kwargs_wire; [done|]. unfold WireKwargs. cbn. destruct (sTest sub); [by apply set_kwarg_values|done]. }
  split; [done|]. rewrite Hp. cbn [mSignature json_message messageFor job_of Signature sSignature]. rewrite Hsig.
  by eapply sign_verify.
Qed.
End arriving.

(** ** A hub to look at *)

#[local] Existing Instance demo_runtime.
#[local] Existing Instance demo_netip.

Definition demo_scan (_ : string) : option spec_float := None.
Definition demo_empty_hub : hub := mkHub (mkStore ∅ ∅) ∅ false 0 [] [].
Definition demo_fleet : dispatch_env :=
  mkDEnv (Some ["web2"; "web1"; "db1"]) (λ _, Some (MapOf [])) false (λ _, None) {["web1"]} (λ _, Some 0%nat) (Some "nonce") demo_now ""
    (λ _, Some 200) disk_fine (λ id, bool_decide (id = "web1")).
Definition demo_submission (target kind fun_ offline batch : string) : Submission :=
  mkSub target kind fun_ ["id"] [] "" false offline 0 batch (mkBatch 0 0 1 0) 0 "" "" "" 0 "" "".

Definition demo_queue_sub : Submission := demo_submission "web1,web2" "L" "cmd.run" "queue" "".
Definition demo_submit (sub : Submission) : (submit_error + Job) * hub :=
  submit demo_regex demo_scan demo_ovf (Some demo_policy) ∅ demo_fleet "alice" sub demo_empty_hub.
Definition job_or (r : submit_error + Job) : Job :=
  match r with inr j => j | inl _ => cached_job "" [] end.
Definition demo_queued_job : Job := job_or (demo_submit demo_queue_sub).1.
Definition demo_hub : hub := (demo_submit demo_queue_sub).2.

Lemma submitted_job_reaches_only_granted_witness :
  Nodes demo_queued_job = ["web1"; "web2"] ∧ granted_on demo_policy (RolesFor demo_policy "alice") demo_queued_job ∧
  (λ s, s.1) <$> hSent demo_hub = ["web1"].
Proof.
  destruct (submitted_job_reaches_only_granted demo_regex demo_scan demo_ovf demo_policy ∅ demo_fleet "alice" demo_queue_sub demo_empty_hub
    demo_queued_job demo_hub) as (Hg & _); [vm_compute; reflexivity|].
  split; [vm_compute; reflexivity|]. split; [exact Hg|vm_compute; reflexivity].
Defined.

Definition demo_delegation : Delegation := mkDelegation "carol" ["web"].
Definition demo_delegated : (submit_error + Job) * hub :=
  dispatchFor demo_regex demo_scan demo_ovf (Some demo_policy) ∅ demo_fleet "alice" (Some demo_delegation) demo_queue_sub demo_empty_hub.

Lemma delegated_job_granted_to_both_witness :
  granted_on demo_policy ["web"] (job_or demo_delegated.1) ∧ OnBehalfOf (job_or demo_delegated.1) = "carol".
Proof.
  destruct (delegated_job_granted_to_both demo_regex demo_scan demo_ovf demo_policy ∅ demo_fleet "alice" demo_delegation demo_queue_sub
    demo_empty_hub (job_or demo_delegated.1) demo_delegated.2) as (_ & Hg & _ & _); [vm_compute; reflexivity|].
  split; [exact Hg|vm_compute; reflexivity].
Defined.

(** The node that was away connects twice; the second time with a disk of its
    own. *)
Definition demo_conn (minutes : Z) (io : disk) : connection :=
  mkConn "web2" (demo_now + minutes * Minute) (λ _, true) disk_fine (λ _, io).
Definition demo_connections : list connection := [demo_conn 1 disk_fine; demo_conn 2 disk_fine].

Lemma demo_hub_ok : records_ok (hCache demo_hub).
Proof.
  assert (map_Forall (λ id j, JID j = id ∧ ID_Valid id = true ∧ checkSchema j = None) (records (hCache demo_hub))) as Hall.
  { apply (bool_decide_unpack (map_Forall _ _)). vm_compute. exact I. }
  exact Hall.
Defined.

Lemma queued_job_delivered_once_witness :
  sent (foldl connect demo_hub demo_connections) "web2" (JID demo_queued_job) = 1%nat ∧
  owed (hCache demo_hub) "web2" (JID demo_queued_job) = true.
Proof.
  split; [|vm_compute; reflexivity].
  destruct (queued_job_delivered_once demo_connections demo_hub "web2" (JID demo_queued_job)) as ([_ Hhi] & _ & Hlo).
  - exact demo_hub_ok.
  - apply Nat.le_antisymm; [exact Hhi|]. apply Hlo.
    + repeat constructor.
    + intros E. vm_compute in E. discriminate E.
    + repeat constructor.
    + left. split_and!; reflexivity.
Defined.

(** A delivery that cannot be recorded is made again. *)
Lemma failed_update_delivers_again :
  sent (foldl connect demo_hub [demo_conn 1 (mkDisk true false); demo_conn 2 disk_fine]) "web2" (JID demo_queued_job) = 2%nat.
Proof. vm_compute. reflexivity. Qed.

(** A record that cannot be read once is taken for stale: the job stays owed
    and is not delivered at any later connection of this hub. *)
Lemma read_error_forgets_a_queued_job :
  let h := foldl connect demo_hub [demo_conn 1 (mkDisk false true); demo_conn 2 disk_fine; demo_conn 3 disk_fine] in
  owed (hCache h) "web2" (JID demo_queued_job) = true ∧ sent h "web2" (JID demo_queued_job) = 0%nat.
Proof. split; vm_compute; reflexivity. Qed.

(** Three nodes in slices of two: the second slice waits for the first. *)
Definition demo_batch_job : Job :=
  mkJob "20260819T142211023456" "cmd.run" ["id"] [] "" "nonce" (demo_now + Hour) demo_now "alice" "" "" "" "web*" "glob"
    ["web1"; "web2"; "web3"] "skip" "batching" false (mkBatch 2 0 1 0) [] [] "" JobSchema.
Definition demo_batch_hub (j : Job) : hub := set_cache (Put disk_fine j (mkStore ∅ ∅)).2 demo_empty_hub.
Definition demo_poll (nodes : list string) : poll := mkPoll (inr (answer_of "20260819T142211023456" <$> nodes)) true false.
Definition demo_turn (nodes : list string) : batch_env :=
  mkBEnv (λ h, h) false demo_now disk_fine (λ _, true) [demo_poll nodes] false.
Definition demo_run (envs : list batch_env) : batch_end * (Job * hub * list (Z * list string)) :=
  runBatches envs (messageFor demo_batch_job) demo_batch_job (demo_batch_hub demo_batch_job).
Definition demo_answers : list batch_env := demo_turn <$> [["web1"; "web2"]; ["web1"; "web2"; "web3"]; []; []].

Lemma demo_nodes : NoDup (Nodes demo_batch_job).
Proof. apply (bool_decide_unpack (NoDup _)). vm_compute. exact I. Defined.

Lemma batch_delivers_each_node_once_witness :
  Delivered (demo_run demo_answers).2.1.1 = ["web1"; "web2"; "web3"] ∧
  (demo_run demo_answers).1 = BatchComplete ∧ (demo_run (demo_turn <$> [["web1"]; []])).1 = BatchAborted.
Proof.
  destruct (batch_delivers_each_node_once demo_answers (messageFor demo_batch_job) demo_batch_job (demo_batch_hub demo_batch_job)
    (demo_run demo_answers).1 (demo_run demo_answers).2.1.1 (demo_run demo_answers).2.1.2 (demo_run demo_answers).2.2) as (Hd & _);
    [exact demo_nodes|apply Forall_fmap, Forall_true; done|vm_compute; reflexivity|].
  split; [rewrite Hd; vm_compute; reflexivity|]. split; vm_compute; reflexivity.
Defined.

(** Returns that cannot be read pass any limit: the next slice goes out. *)
Lemma unreadable_returns_pass_the_limit :
  let blind := mkBEnv (λ h, h) false demo_now disk_fine (λ _, true) [mkPoll (inl (CacheIO "")) true false] false in
  SafeLimit (batch demo_batch_job) = 1 ∧
  (demo_run (demo_turn <$> [[]; []])).2.2.*2 = [["web1"; "web2"]] ∧
  (demo_run [blind; blind]).2.2.*2 = [["web1"; "web2"]; ["web3"]].
Proof. split_and!; vm_compute; reflexivity. Qed.

Lemma batch_ends_witness :
  (demo_run demo_answers).1 = BatchComplete ∧ concat (demo_run demo_answers).2.2.*2 = Remaining demo_batch_job ∨
  (demo_run demo_answers).1 = BatchExpired ∨ (demo_run demo_answers).1 = BatchAborted.
Proof.
  apply (batch_ends demo_answers (messageFor demo_batch_job) demo_batch_job (demo_batch_hub demo_batch_job)
    (demo_run demo_answers).1 (demo_run demo_answers).2.1.1 (demo_run demo_answers).2.1.2).
  - exact demo_nodes.
  - repeat constructor.
  - vm_compute. lia.
  - vm_compute. reflexivity.
Defined.

(** A kill marks the record expired and aborted, and the batch, which reads its
    own copy of the job, goes on: the node that had not been reached is sent the
    job after the kill. *)
Definition demo_killed_turn (nodes : list string) : batch_env :=
  mkBEnv (λ h, (kill disk_fine (λ _, true) demo_now "20260819T142211023456" h).2) false demo_now disk_fine (λ _, true) [demo_poll nodes] false.

Example killed_batch_goes_on :
  let '(e, (_, h, _)) := demo_run [demo_turn ["web1"; "web2"]; demo_killed_turn ["web1"; "web2"; "web3"]] in
  (λ s, (s.1, match s.2 with WJob _ => true | WKill _ => false end)) <$> hSent h
  = [("web1", true); ("web2", true); ("web1", false); ("web2", false); ("web3", true)].
Proof. vm_compute. reflexivity. Qed.

(** A batched job is not queued for the nodes that are away: [offline: queue]
    holds only for a job that is not batched. *)
Example batched_job_is_not_queued :
  let '(r, h) := demo_submit (demo_submission "web1,web2" "L" "cmd.run" "queue" "1") in
  Offline (job_or r) = Queue ∧ Queued (job_or r) = [] ∧ hQueue h = ∅ ∧ Nodes (job_or r) = ["web1"; "web2"] ∧
  ("web2" ∉ d_connected demo_fleet).
Proof. vm_compute. repeat split. intros E. by inversion E. Qed.

(** Sscanf reads a number and leaves the rest. *)
Example batch_size_trailing :
  (λ s, ParseBatchSize demo_scan demo_ovf s 100) <$> ["5abc"; "1e2"; "3 %x"; "0"; "-1"; "x"]
  = [inr 5; inr 1; inr 3; inl (BatchNotPositive "0"); inl (BatchNotPositive "-1"); inl (BatchNotNumber "x")].
Proof. vm_compute. reflexivity. Qed.

(** A signed submission and the job it becomes.  Signatures are written in
    binary. *)
Definition demo_bit (b : bool) : ascii := if b then "1" else "0".
Fixpoint demo_enc (s : string) : string :=
  match s with
  | EmptyString => EmptyString
  | String (Ascii b0 b1 b2 b3 b4 b5 b6 b7) r =>
      String (demo_bit b0) (String (demo_bit b1) (String (demo_bit b2) (String (demo_bit b3)
        (String (demo_bit b4) (String (demo_bit b5) (String (demo_bit b6) (String (demo_bit b7) (demo_enc r))))))))
  end.
Definition demo_unbit (c : ascii) : bool := bool_decide (c = "1"%char).
Fixpoint demo_dec (s : string) : option string :=
  match s with
  | EmptyString => Some EmptyString
  | String c0 (String c1 (String c2 (String c3 (String c4 (String c5 (String c6 (String c7 r))))))) =>
      String (Ascii (demo_unbit c0) (demo_unbit c1) (demo_unbit c2) (demo_unbit c3)
                (demo_unbit c4) (demo_unbit c5) (demo_unbit c6) (demo_unbit c7)) <$> demo_dec r
  | _ => None
  end.
Lemma demo_dec_enc s : demo_dec (demo_enc s) = Some s.
Proof. induction s as [|[[] [] [] [] [] [] [] []] s IH]; [done|..]; cbn; rewrite IH; done. Qed.
Lemma demo_enc_ascii s : sall ascii_c (demo_enc s).
Proof. induction s as [|[[] [] [] [] [] [] [] []] s IH]; [done|..]; repeat split; exact IH. Qed.

Definition demo_prepared (sub : Submission) : Job * (kwargs * string * string) :=
  default (cached_job "" [], ([], "", "")) (prepareSigning (λ _, true) (λ _, ANil) demo_now demo_now 60 sub).
Definition demo_signed_sub (sub : Submission) : Submission :=
  default sub (signed_submission (λ _, ANil) sub (demo_prepared sub).2 (demo_enc "sig")).
Definition demo_signed_dispatch (sub : Submission) : (dispatch_error + Job) * hub :=
  Dispatch demo_regex demo_scan demo_ovf ∅ demo_fleet (demo_signed_sub sub) demo_empty_hub.
Definition demo_signed_job (sub : Submission) : Job :=
  match (demo_signed_dispatch sub).1 with inr j => j | inl _ => cached_job "" [] end.
Definition demo_arrived (sub : Submission) : Message := json_message (λ _, ANil) (messageFor (demo_signed_job sub)).

Lemma signed_submission_arrives_witness :
  ∃ expires, Parse_RFC3339Nano (mExpires (demo_arrived demo_queue_sub)) = Some expires ∧
    SigningPayload (msg_job (demo_arrived demo_queue_sub) expires) = SigningPayload (demo_prepared demo_queue_sub).1.
Proof.
  destruct (signed_submission_arrives demo_regex demo_scan demo_ovf (λ _, true) (λ _, ANil)
    (λ (_ : string) _ s, bool_decide (s = "sig")) (λ s, s) demo_dec (λ _, None)
    (λ _ : unit, true) (λ _ _, Some "sig") demo_enc (λ _, "alice")) with
    (now := demo_now) (now' := demo_now) (ttl := 60) (sub := demo_queue_sub) (signed := (demo_prepared demo_queue_sub).1)
    (req := (demo_prepared demo_queue_sub).2) (key := tt) (sig := demo_enc "sig") (sub' := demo_signed_sub demo_queue_sub)
    (groups := (∅ : Nodegroups)) (env := demo_fleet) (h := demo_empty_hub) (j := demo_signed_job demo_queue_sub)
    (h' := (demo_signed_dispatch demo_queue_sub).2) (keys := [mkSignerKey "ops" "alice"]) (name := "ops")
    as (_ & expires & Hp & Hs & _).
  - intros k d s [= <-]. vm_compute. reflexivity.
  - exact demo_dec_enc.
  - intros k d s [= <-] E. vm_compute in E. discriminate E.
  - exact demo_enc_ascii.
  - done.
  - repeat constructor.
  - vm_compute. reflexivity.
  - unfold four_digit. split; vm_compute; [discriminate|reflexivity].
  - vm_compute. reflexivity.
  - vm_compute. reflexivity.
  - vm_compute. reflexivity.
  - left.
  - exists expires. split; [exact Hp|exact Hs].
Defined.

(** Only the keyword arguments are signed as JSON gives them back: a positional
    argument that is not UTF-8 is signed as it is and arrives as another. *)
Definition demo_raw_sub : Submission :=
  mkSub "web1,web2" "L" "cmd.run" [String "255" ""] [] "" false "queue" 0 "" (mkBatch 0 0 1 0) 0 "" "" "" 0 "" "".

Lemma invalid_argument_is_not_what_was_signed :
  pArg (SigningPayload (demo_prepared demo_raw_sub).1) = [String "255" ""] ∧
  mArg (demo_arrived demo_raw_sub) = [String "239" (String "191" (String "189" ""))] ∧
  Canonical demo_ovf (SigningPayload (msg_job (demo_arrived demo_raw_sub) (Expires (demo_prepared demo_raw_sub).1))) ≠
  Canonical demo_ovf (SigningPayload (demo_prepared demo_raw_sub).1).
Proof. split_and!; [vm_compute; reflexivity..|]. intros E. vm_compute in E. discriminate E. Qed.
