(* ===== verification/YamlScalar.v ===== *)
(** * YAML: the reader and the scalars

    Models src/internal/yaml: the reader of parse.go, the resolution of scalars
    (scalar.go), and plain, quoted and block scalars (scalars.go).

    The parser is a state: what was read, backwards, what is to be read, and the
    position.  Every function of it is code over that state that may stop with
    an error; two errors stand for what must not happen, a read past the end
    (the source panics) and a loop that needs more turns than there is input.
    The texts of messages are a data type. *)

From Stdlib Require Import SpecFloat.
From S2P Require Import Prelude GoLib Value.

Open Scope Z_scope.

(** ** Characters *)

Definition NL : ascii := "010".
Definition TAB : ascii := "009".
Definition NUL_ : ascii := "000".
Definition DQ : ascii := "034".
Definition isc (c d : ascii) : bool := bool_decide (c = d).
Definition is_blank (c : ascii) : bool := isc c " " || isc c TAB.
Definition is_white (c : ascii) : bool := is_blank c || isc c NL.
Definition isFlowIndicator (c : ascii) : bool := isc c "," || isc c "[" || isc c "]" || isc c "{" || isc c "}".

(** How many characters at the front satisfy a test. *)
Fixpoint span (f : ascii → bool) (s : string) : nat :=
  match s with
  | String c r => if f c then S (span f r) else O
  | EmptyString => O
  end.

Definition rtrim : string → string := TrimRight [" "%char; TAB].

(** ** The state *)

Inductive WarnKind := WarnBool11 | WarnOctalImplicit | WarnSexagesimal | WarnDuplicateKey | WarnDirective.
Record Warning := mkWarning { wKind : WarnKind; wPos : Pos }.

Record Options := mkOptions {
  oFile : string; oBool11 : bool; oMaxDepth : Z; oMaxNodes : Z; oMaxAliasDepth : Z; oStream : bool; oAllowDuplicateKeys : bool }.

Record pst := mkPst {
  prev : string; rest : string; line : Z; col : Z;
  anchors : gmap string value; warnings : list Warning; nodes : Z; markerLine : Z }.

Inductive ymsg :=
| Panics | OutOfTurns
| TooManyNodes | TooDeep | TabAfter | TabIndent | HashNoSpace | AfterDocEnd | AfterValue | OnMarkerLine
| ColonInPlain | FlowKeyLines | UnterminatedSingle | UnterminatedDouble | UnterminatedEscape | MarkerInQuoted
| UnknownEscape (e : ascii) | TruncatedHex | InvalidHex | NotCodePoint
| TwoChomps | TwoIndents | BadHeader | LeadingBlank
| BadBool | BadInt | BadFloat | BadBinary | BadTimestamp | TagOnScalar | UnknownTag (tag : string) | TagMismatch
| TwoAnchors | TwoTags | EmptyAnchor | AliasAnchor | AliasTag | EmptyAlias | NoAnchor (name : string) | AliasNodes | AliasDepth
| SeqInline | SeqOnProps | KeyInline | MapInline | SecondProps
| UnexpectedIndent | KeyLines | NoColon | ColonNoSpace | BadMerge | DuplicateKey | CollectionKey
| UnterminatedSeq | UnterminatedMap | MissingEntry | ExpectedComma | DashInFlow | MarkerInFlow | NotFlow
| DirectiveNotClosed | DirectiveNoName | TwoVersions | VersionArgs | BadVersion | DirectiveNoDoc
| NotUTF8 | ManyDocuments | TrailingContent.

Record yerr := mkYerr { eMsg : ymsg; ePos : Pos; eRelated : list Pos }.

Definition P (A : Type) : Type := pst → (yerr * pst) + (A * pst).
#[global] Instance P_ret : MRet P := λ A x p, inr (x, p).
#[global] Instance P_bind : MBind P := λ A B f m p,
  match m p with inl e => inl e | inr (x, p') => f x p' end.

Definition get {A} (f : pst → A) : P A := λ p, inr (f p, p).
Definition put (p' : pst) : P unit := λ _, inr (tt, p').
Definition modify (f : pst → pst) : P unit := λ p, inr (tt, f p).

(** ** Reading (parse.go) *)

Definition eof (p : pst) : bool := match rest p with EmptyString => true | _ => false end.
Definition peek (p : pst) : ascii := match rest p with String c _ => c | EmptyString => NUL_ end.
Definition peekAt (n : nat) (p : pst) : ascii := match sdrop n (rest p) with String c _ => c | EmptyString => NUL_ end.
(** The character before the position, if any. *)
Definition before (p : pst) : option ascii := match prev p with String c _ => Some c | EmptyString => None end.

Definition advance (p : pst) : pst :=
  match rest p with
  | EmptyString => p
  | String c r =>
      mkPst (String c (prev p)) r (if isc c NL then line p + 1 else line p) (if isc c NL then 1 else col p + 1)
        (anchors p) (warnings p) (nodes p) (markerLine p)
  end.
Definition advances (n : nat) (p : pst) : pst := Nat.iter n advance p.

Definition add_warning (w : Warning) (p : pst) : pst :=
  mkPst (prev p) (rest p) (line p) (col p) (anchors p) (warnings p ++ [w]) (nodes p) (markerLine p).
Definition set_anchors (a : gmap string value) (p : pst) : pst :=
  mkPst (prev p) (rest p) (line p) (col p) a (warnings p) (nodes p) (markerLine p).
Definition add_nodes (n : Z) (p : pst) : pst :=
  mkPst (prev p) (rest p) (line p) (col p) (anchors p) (warnings p) (nodes p + n) (markerLine p).
Definition set_marker (l : Z) (p : pst) : pst :=
  mkPst (prev p) (rest p) (line p) (col p) (anchors p) (warnings p) (nodes p) l.

Section reader.
Context (opts : Options).

Definition pos (p : pst) : Pos := mkPos (oFile opts) (line p) (col p).

Definition errAt {A} (at_ : Pos) (m : ymsg) : P A := λ p, inl (mkYerr m at_ [], p).
Definition err {A} (m : ymsg) : P A := λ p, inl (mkYerr m (pos p) [], p).
Definition warn (k : WarnKind) (at_ : Pos) : P unit := modify (add_warning (mkWarning k at_)).

(** p.next, which indexes the input. *)
Definition next : P ascii := λ p,
  match rest p with
  | String c _ => inr (c, advance p)
  | EmptyString => inl (mkYerr Panics (pos p) [], p)
  end.

Definition count : P unit := λ p,
  let p := add_nodes 1 p in
  if oMaxNodes opts <? nodes p then err TooManyNodes p else inr (tt, p).

Definition skipSpaces : P unit := modify (λ p, advances (span is_blank (rest p)) p).
Definition to_line_end (p : pst) : pst := advances (span (λ c, negb (isc c NL)) (rest p)) p.
Definition skipLine : P unit := modify (λ p, advance (to_line_end p)).

(** Only blanks since the start of the line. *)
Fixpoint blanks_back (s : string) : bool :=
  match s with
  | String c r => if isc c NL then true else is_blank c && blanks_back r
  | EmptyString => true
  end.
Definition atIndentation (p : pst) : bool := blanks_back (prev p).
Definition commentStart (p : pst) : bool := match before p with Some c => is_white c | None => true end.

Definition markerEnd (n : nat) (p : pst) : bool :=
  match sdrop n (rest p) with String c _ => is_white c | EmptyString => true end.
Definition atDocStart (p : pst) : bool := (col p =? 1) && has_prefix "---" (rest p) && markerEnd 3 p.
Definition atDocEnd (p : pst) : bool := (col p =? 1) && has_prefix "..." (rest p) && markerEnd 3 p.
Definition atDirectiveLine (p : pst) : bool := (col p =? 1) && negb (eof p) && isc (peek p) "%".
Definition atDocBoundary (p : pst) : bool := atDocStart p || atDocEnd p || atDirectiveLine p.
Definition is_end (c : ascii) : bool := is_white c || isc c NUL_.
Definition isBlockSeqEntry (p : pst) : bool := isc (peek p) "-" && is_end (peekAt 1 p).

Fixpoint skip_blank (turns : nat) : P unit :=
  match turns with
  | O => err OutOfTurns
  | S turns => λ p,
      if eof p then inr (tt, p)
      else if isc (peek p) " " || isc (peek p) NL then skip_blank turns (advance p)
      else if isc (peek p) TAB then
        if atIndentation p then err TabIndent p else skip_blank turns (advance p)
      else if isc (peek p) "#" && commentStart p then skip_blank turns (advance (to_line_end p))
      else inr (tt, p)
  end.
Definition skipBlank : P unit := λ p, skip_blank (S (String.length (rest p))) p.

Fixpoint skip_flow_blank (turns : nat) : P unit :=
  match turns with
  | O => err OutOfTurns
  | S turns => λ p,
      if eof p then inr (tt, p)
      else if isc (peek p) " " || isc (peek p) NL then skip_flow_blank turns (advance p)
      else if isc (peek p) TAB then
        if atIndentation p then err TabIndent p else skip_flow_blank turns (advance p)
      else if isc (peek p) "#" then
        if commentStart p then skip_flow_blank turns (advance (to_line_end p)) else err HashNoSpace p
      else if atDocStart p || atDocEnd p then err MarkerInFlow p
      else inr (tt, p)
  end.
Definition skipFlowBlank : P unit := λ p, skip_flow_blank (S (String.length (rest p))) p.

(** The separation after an indicator: spaces, and no tab. *)
Definition skipIndicatorSeparation : P unit := λ p,
  let p := advances (span (λ c, isc c " ") (rest p)) p in
  if isc (peek p) TAB then err TabAfter p else inr (tt, p).

Definition skipInlineTrailer : P unit :=
  skipSpaces;;
  p ← get id;
  if isc (peek p) "#" then if commentStart p then skipLine else err HashNoSpace
  else if negb (eof p) && negb (isc (peek p) NL) then err AfterValue
  else modify advance.

Definition skipInlineTrailerIfLineEnd : P unit :=
  skipSpaces;;
  p ← get id;
  if eof p || isc (peek p) NL || isc (peek p) "#" then skipInlineTrailer else mret tt.

Definition skipDocEnd : P unit :=
  next;; next;; next;; skipSpaces;;
  p ← get id;
  if negb (eof p) && negb (isc (peek p) NL) && negb (isc (peek p) "#") then err AfterDocEnd else skipLine.

Definition blockOnMarkerLine : P unit := λ p,
  if negb (markerLine p =? 0) && (line p =? markerLine p) then err OnMarkerLine p else inr (tt, p).

(** ** Resolving plain scalars (scalar.go) *)

Context `{Runtime}.

Definition bool11 (s : string) : option bool :=
  if bool_decide (s ∈ ["yes"; "Yes"; "YES"; "on"; "On"; "ON"]) then Some true
  else if bool_decide (s ∈ ["no"; "No"; "NO"; "off"; "Off"; "OFF"]) then Some false
  else None.

Fixpoint all_digits_ (s : string) : bool :=
  match s with String c r => bool_decide (is_Some (digit_of c)) && all_digits_ r | EmptyString => true end.
Fixpoint remove_one (c : ascii) (s : string) : string :=
  match s with String a r => if isc a c then r else String a (remove_one c r) | EmptyString => EmptyString end.
Fixpoint remove_all_ (c : ascii) (s : string) : string :=
  match s with String a r => if isc a c then remove_all_ c r else String a (remove_all_ c r) | EmptyString => EmptyString end.

Fixpoint sexagesimal_parts (l : list string) : bool :=
  match l with
  | [] => true
  | [part] => bool_decide (part ≠ "") && bool_decide (remove_one "." part ≠ "") && all_digits_ (remove_one "." part)
  | part :: l' => bool_decide (part ≠ "") && all_digits_ part && sexagesimal_parts l'
  end.
Definition isSexagesimal (s : string) : bool :=
  let body := TrimPrefix (TrimPrefix s "-") "+" in
  contains ":" body && sexagesimal_parts (Split body ":").

(** strconv.ParseInt(s, base, 64), for the bases 2, 8 and 16. *)
Definition hex_value (c : ascii) : option Z :=
  let b := byte_of c in
  if in_range 48 57 b then Some (b - 48)
  else if in_range 97 102 b then Some (b - 87)
  else if in_range 65 70 b then Some (b - 55)
  else None.
Fixpoint based_go (base acc : Z) (s : string) : option Z :=
  match s with
  | EmptyString => Some acc
  | String c r => match hex_value c with
                  | Some d => if d <? base then based_go base (acc * base + d) r else None
                  | None => None
                  end
  end.
Definition ParseInt (base : Z) (s : string) : option Z :=
  let '(neg, body) := match s with
                      | String "-" r => (true, r)
                      | String "+" r => (false, r)
                      | _ => (false, s)
                      end in
  match body with
  | EmptyString => None
  | _ => v ← based_go base 0 body;
         let v := if neg : bool then - v else v in
         if in_range minInt64 maxInt64 v then Some v else None
  end.

Definition stripUnderscores : string → string := remove_all_ "_".
Fixpoint hasDigit (s : string) : bool :=
  match s with String c r => bool_decide (is_Some (digit_of c)) || hasDigit r | EmptyString => false end.
Definition allDigits (s : string) : bool := all_digits_ s && bool_decide (s ≠ "").

(** The loop of looksLikeFloat, with what it has seen. *)
Fixpoint float_go (digit dot exp : bool) (s : string) : bool :=
  match s with
  | EmptyString => digit && dot
  | String c r =>
      if bool_decide (is_Some (digit_of c)) then float_go true dot exp r
      else if isc c "." then if dot || exp then false else float_go digit true exp r
      else if isc c "e" || isc c "E" then
        if exp || negb digit then false
        else match r with
        | String s' r' => if isc s' "+" || isc s' "-" then match r' with EmptyString => false | _ => float_go digit dot true r' end else false
        | EmptyString => false
        end
      else false
  end.
Definition looksLikeFloat : string → bool := float_go false false false.

Definition two_letters (x y y' : ascii) (s : string) : bool :=
  match s with String a (String b _) => isc a x && (isc b y || isc b y') | _ => false end.

(** The number after its sign, with whether it was read as octal. *)
Definition number_body (sign : Z) (body : string) : option (value * bool) :=
  let int n := VInt (wrap64 (sign * n)) in
  match body with
  | EmptyString => None
  | String c _ =>
      if isc c "-" || isc c "+" then None
      else if bool_decide (body ∈ [".inf"; ".Inf"; ".INF"]) then Some (VFloat (S754_infinity (sign <? 0)), false)
      else if bool_decide (body ∈ [".nan"; ".NaN"; ".NAN"]) then Some (VFloat S754_nan, false)
      else if two_letters "0" "x" "X" body then (λ n, (int n, false)) <$> ParseInt 16 (stripUnderscores (sdrop 2 body))
      else if two_letters "0" "b" "B" body then (λ n, (int n, false)) <$> ParseInt 2 (stripUnderscores (sdrop 2 body))
      else
        let clean := stripUnderscores body in
        if bool_decide (clean = "") || negb (hasDigit clean) then None
        else if (1 <? String.length clean)%nat && has_prefix "0" clean && allDigits clean then
          (λ n, (int n, true)) <$> ParseInt 8 (sdrop 1 clean)
        else match Atoi clean with
        | Some n => Some (int n, false)
        | None =>
            if looksLikeFloat clean then (λ f, (VFloat (f64_mul (f64_of_Z sign) f), false)) <$> ParseFloat clean else None
        end
  end.
Definition resolveNumber (s : string) : option (value * bool) :=
  match s with
  | String "-" r => number_body (-1) r
  | String "+" r => number_body 1 r
  | _ => number_body 1 s
  end.

(** resolveNumber with its warning. *)
Definition number_at (s : string) (at_ : Pos) : P (option value) :=
  match resolveNumber s with
  | Some (v, true) => warn WarnOctalImplicit at_;; mret (Some v)
  | Some (v, false) => mret (Some v)
  | None => mret None
  end.

Definition resolvePlain (s : string) (at_ : Pos) : P value :=
  if bool_decide (s = "") then mret VNull
  else if bool_decide (s ∈ ["~"; "null"; "Null"; "NULL"]) then mret VNull
  else if bool_decide (s ∈ ["true"; "True"; "TRUE"]) then mret (VBool true)
  else if bool_decide (s ∈ ["false"; "False"; "FALSE"]) then mret (VBool false)
  else match bool11 s with
  | Some b => if oBool11 opts then warn WarnBool11 at_;; mret (VBool b) else mret (VString s)
  | None =>
      if isSexagesimal s then warn WarnSexagesimal at_;; mret (VString s)
      else v ← number_at s at_; mret (default (VString s) v)
  end.

(** ** Tags *)

(** base64 and the layouts of package time. *)
Context (base64_Decode : string → option string) (time_Parse : string → string → option Z).

Definition timestampLayouts : list string :=
  ["2006-01-02T15:04:05.999999999Z07:00"; "2006-01-02T15:04:05Z07:00"; "2006-01-02T15:04:05.999999999Z0700";
   "2006-01-02t15:04:05.999999999Z07:00"; "2006-01-02 15:04:05.999999999 -0700"; "2006-01-02 15:04:05.999999999";
   "2006-01-02 15:04:05"; "2006-01-02"].
Fixpoint first_layout (s : string) (layouts : list string) : option Z :=
  match layouts with
  | [] => None
  | l :: ls => match time_Parse l s with Some t => Some t | None => first_layout s ls end
  end.
Definition parseTimestamp (s : string) : option Z := first_layout (TrimSpace s) timestampLayouts.

Definition is_tag (short tag : string) : bool := bool_decide (tag = "!!" +:+ short) || bool_decide (tag = "tag:yaml.org,2002:" +:+ short).
Definition binary_text (raw : string) : string :=
  remove_all_ "013" (remove_all_ TAB (remove_all_ NL (remove_all_ " " raw))).

Definition applyTag (tag raw : string) (quoted : bool) (at_ : Pos) : P value :=
  if bool_decide (tag = "") then if quoted then mret (VString raw) else resolvePlain raw at_
  else if is_tag "str" tag then mret (VString raw)
  else if is_tag "bool" tag then
    if existsb (ToLower_is raw) ["true"; "yes"; "on"; "y"] then mret (VBool true)
    else if existsb (ToLower_is raw) ["false"; "no"; "off"; "n"] then mret (VBool false)
    else errAt at_ BadBool
  else if is_tag "null" tag then mret VNull
  else if is_tag "int" tag then
    v ← number_at raw at_;
    match v with Some (VInt n) => mret (VInt n) | _ => errAt at_ BadInt end
  else if is_tag "float" tag then
    v ← number_at raw at_;
    match v with
    | Some (VFloat f) => mret (VFloat f)
    | Some (VInt n) => mret (VFloat (f64_of_Z n))
    | _ => errAt at_ BadFloat
    end
  else if is_tag "binary" tag then
    match base64_Decode (binary_text raw) with Some b => mret (VBinary b) | None => errAt at_ BadBinary end
  else if is_tag "timestamp" tag then
    match parseTimestamp raw with Some t => mret (VTimestamp t) | None => errAt at_ BadTimestamp end
  else if is_tag "seq" tag || is_tag "map" tag then errAt at_ TagOnScalar
  else errAt at_ (UnknownTag tag).
End reader.

(** ** Scalars (scalars.go) *)

Inductive flowMode := notFlow | flowInSeq | flowInMap.
#[global] Instance flowMode_eq_dec : EqDecision flowMode.
Proof. solve_decision. Defined.

Section scalars.
Context (opts : Options).

(** Where the scan of a line of a plain scalar stops. *)
Inductive plain_stop := AtEnd | AtBreak | AtIndicator | AtColon.
#[global] Instance plain_stop_eq_dec : EqDecision plain_stop.
Proof. solve_decision. Defined.

(** [last] is the character before, if it belongs to this line of the scalar. *)
Fixpoint plain_span (inFlow : bool) (last : option ascii) (s : string) : nat * plain_stop :=
  match s with
  | EmptyString => (0%nat, AtEnd)
  | String c r =>
      let n := match r with String d _ => d | EmptyString => NUL_ end in
      if isc c NL then (0%nat, AtBreak)
      else if isc c "#" && match last with Some b => is_blank b | None => false end then (0%nat, AtIndicator)
      else if inFlow && isFlowIndicator c then (0%nat, AtIndicator)
      else if isc c ":" && (is_end n || (inFlow && isFlowIndicator n)) then (0%nat, AtColon)
      else let '(k, stop) := plain_span inFlow (Some c) r in (S k, stop)
  end.

Definition hasContent (lines : list string) : bool := existsb (λ l, bool_decide (TrimSpace l ≠ "")) lines.

Fixpoint fold_rest (breaks : nat) (lines : list string) : string :=
  match lines with
  | [] => ""
  | ln :: lines' =>
      let ln := TrimSpace ln in
      if bool_decide (ln = "") then fold_rest (S breaks) lines'
      else (if (0 <? breaks)%nat then string_of_list_ascii (repeat NL breaks) else " ") +:+ ln +:+ fold_rest 0 lines'
  end.
Definition foldLines (lines : list string) : string :=
  match lines with
  | [] => ""
  | [ln] => rtrim ln
  | ln :: lines' => TrimSpace ln +:+ fold_rest 0 lines'
  end.

(** lineIsMappingEntry and what it calls (collection.go), over the text from the
    position on; [seen] is what was passed, backwards. *)
Fixpoint quoteOpensAToken (seen : string) : bool :=
  match seen with
  | EmptyString => true
  | String c r => if is_blank c then quoteOpensAToken r else bool_decide (c ∈ ["["; "{"; ","; ":"; "-"; "?"]%char)
  end.

(** scanQuoted: how far the quoted scalar goes after its quote, if it is closed
    on the line. *)
Fixpoint scanQuoted (quote : ascii) (s : string) : option nat :=
  match s with
  | EmptyString => None
  | String c r =>
      if isc c NL then None
      else if isc quote DQ && isc c "\" then
        match r with
        | EmptyString => None
        | String _ r' => (λ n, S (S n)) <$> scanQuoted quote r'
        end
      else if isc c quote then
        match r with
        | String d r' => if isc quote "'" && isc d "'" then (λ n, S (S n)) <$> scanQuoted quote r' else Some 1%nat
        | EmptyString => Some 1%nat
        end
      else S <$> scanQuoted quote r
  end.

(** [skip] characters are inside a quoted scalar. *)
Fixpoint mapping_entry (seen : string) (skip : nat) (flow : nat) (s : string) : bool :=
  match s with
  | EmptyString => false
  | String c r =>
      let go skip flow := mapping_entry (String c seen) skip flow r in
      match skip with
      | S k => go k flow
      | O =>
          if isc c NL then false
          else if isc c "'" || isc c DQ then
            if quoteOpensAToken seen then
              match scanQuoted c r with Some n => go n flow | None => false end
            else go O flow
          else if isc c "[" || isc c "{" then go O (S flow)
          else if isc c "]" || isc c "}" then go O (pred flow)
          else if isc c "#" && match seen with String b _ => is_blank b | EmptyString => false end then false
          else if isc c ":" && (flow =? 0)%nat && match r with String d _ => is_white d | EmptyString => true end then true
          else go O flow
      end
  end.
Definition lineIsMappingEntry (p : pst) : bool := mapping_entry "" 0 0 (rest p).

Fixpoint plain_lines (turns : nat) (minIndent : Z) (asKey : bool) (flow : flowMode) (lines : list string) : P (list string) :=
  match turns with
  | O => err opts OutOfTurns
  | S turns => λ p,
      let inFlow := bool_decide (flow ≠ notFlow) in
      let '(n, stop) := plain_span inFlow None (rest p) in
      let p1 := advances n p in
      let colon := bool_decide (stop = AtColon) in
      if colon && bool_decide (flow = flowInSeq) && hasContent lines then err opts FlowKeyLines p1
      else if colon && negb (asKey || inFlow) then err opts ColonInPlain p1
      else
        let lines := lines ++ [rtrim (stake n (rest p))] in
        if asKey || eof p1 || negb (bool_decide (stop = AtBreak)) then inr (lines, p1)
        else
          let blanks := span (λ c, isc c NL) (rest p1) in
          let p2 := advances blanks p1 in
          let p2 := advances (span is_blank (rest p2)) p2 in
          let ends := eof p2 || (col p2 <=? minIndent) || atDocStart p2 || atDocEnd p2 || isc (peek p2) "#"
                      || (if inFlow then isFlowIndicator (peek p2) else isBlockSeqEntry p2 || lineIsMappingEntry p2) in
          if ends || (String.length (rest p2) =? String.length (rest p))%nat then inr (lines, p1)
          else plain_lines turns minIndent asKey flow (lines ++ repeat "" (pred blanks)) p2
  end.
Definition parsePlain (minIndent : Z) (asKey : bool) (flow : flowMode) : P string :=
  λ p, (lines ← plain_lines (S (String.length (rest p))) minIndent asKey flow []; mret (foldLines lines)) p.

(** *** Quoted scalars *)

(** A line of a quoted scalar: its bytes, each with whether it came from an
    escape. *)
Definition qline : Type := list (ascii * bool).
Definition raw_byte (c : ascii) : qline := [(c, false)].
Definition escaped (s : string) : qline := (λ c, (c, true)) <$> list_ascii_of_string s.
Definition qtext (l : qline) : string := string_of_list_ascii l.*1.

Fixpoint qdrop (l : qline) : qline :=
  match l with
  | (c, b) :: l' => if is_blank c && negb b then qdrop l' else l
  | [] => []
  end.
Definition trimmed (left right : bool) (l : qline) : string :=
  let l := if left then qdrop l else l in
  qtext (if right then reverse (qdrop (reverse l)) else l).
Definition qblank (l : qline) : bool := bool_decide (trimmed true true l = "").

Definition joint (breaks : nat) : string := if (0 <? breaks)%nat then string_of_list_ascii (repeat NL breaks) else " ".
Fixpoint fold_quoted_rest (breaks : nat) (lines : list qline) : string :=
  match lines with
  | [] => ""
  | [ln] => joint breaks +:+ trimmed true false ln
  | ln :: lines' =>
      if qblank ln then fold_quoted_rest (S breaks) lines'
      else joint breaks +:+ trimmed true true ln +:+ fold_quoted_rest 0 lines'
  end.
Definition foldQuoted (lines : list qline) : string :=
  match lines with
  | [] => ""
  | [ln] => qtext ln
  | ln :: lines' => trimmed false true ln +:+ fold_quoted_rest 0 lines'
  end.

Definition markerInQuoted (open : Pos) : P unit := λ p,
  if atDocStart p || atDocEnd p then errAt open MarkerInQuoted p else inr (tt, p).

Fixpoint single_quoted (turns : nat) (open : Pos) (lines : list qline) (cur : qline) : P string :=
  match turns with
  | O => err opts OutOfTurns
  | S turns => λ p,
      if eof p then errAt open UnterminatedSingle p
      else
        let c := peek p in let p := advance p in
        if isc c "'" then
          if isc (peek p) "'" then single_quoted turns open lines (cur ++ raw_byte "'") (advance p)
          else inr (foldQuoted (lines ++ [cur]), p)
        else if isc c NL then
          (markerInQuoted open;; skipSpaces;; single_quoted turns open (lines ++ [cur]) []) p
        else single_quoted turns open lines (cur ++ raw_byte c) p
  end.
Definition parseSingleQuoted : P string := λ p,
  (next opts;; p' ← get id; single_quoted (S (String.length (rest p'))) (pos opts p) [] []) p.

Definition hexEscape (n : nat) : P string := λ p,
  if (String.length (rest p) <? n)%nat then err opts TruncatedHex p
  else
    let digits := stake n (rest p) in
    let p := advances n p in
    match based_go 16 0 digits with
    | None => err opts InvalidHex p
    | Some v =>
        if negb (n =? 2)%nat && (1114111 <? v) then err opts NotCodePoint p
        else inr (string_of_bytes (EncodeRune (if in_range 55296 57343 v then RuneError else v)), p)
    end.

Definition escape (e : ascii) : P string :=
  let b := byte_of e in
  if b =? 48 then mret (String NUL_ "")                       (* 0 *)
  else if isc e "a" then mret (String "007" "")
  else if isc e "b" then mret (String "008" "")
  else if isc e "t" || isc e TAB then mret (String TAB "")
  else if isc e "n" then mret (String NL "")
  else if isc e "v" then mret (String "011" "")
  else if isc e "f" then mret (String "012" "")
  else if isc e "r" then mret (String "013" "")
  else if isc e "e" then mret (String "027" "")
  else if isc e " " then mret " "
  else if isc e DQ then mret (String DQ "")
  else if isc e "/" then mret "/"
  else if isc e "\" then mret "\"
  else if isc e "N" then mret (string_of_bytes (EncodeRune 133))
  else if isc e "_" then mret (string_of_bytes (EncodeRune 160))
  else if isc e "L" then mret (string_of_bytes (EncodeRune 8232))
  else if isc e "P" then mret (string_of_bytes (EncodeRune 8233))
  else if isc e "x" then hexEscape 2
  else if isc e "u" then hexEscape 4
  else if isc e "U" then hexEscape 8
  else err opts (UnknownEscape e).

Fixpoint double_quoted (turns : nat) (open : Pos) (lines : list qline) (cur : qline) : P string :=
  match turns with
  | O => err opts OutOfTurns
  | S turns => λ p,
      if eof p then errAt open UnterminatedDouble p
      else
        let c := peek p in let p := advance p in
        if isc c DQ then inr (foldQuoted (lines ++ [cur]), p)
        else if isc c NL then
          (markerInQuoted open;; skipSpaces;; double_quoted turns open (lines ++ [cur]) []) p
        else if isc c "\" then
          if eof p then errAt open UnterminatedEscape p
          else if isc (peek p) NL then
            (modify advance;; skipSpaces;; double_quoted turns open lines cur) p
          else
            (e ← next opts; str ← escape e; double_quoted turns open lines (cur ++ escaped str)) p
        else double_quoted turns open lines (cur ++ raw_byte c) p
  end.
Definition parseDoubleQuoted : P string := λ p,
  (next opts;; p' ← get id; double_quoted (S (String.length (rest p'))) (pos opts p) [] []) p.

(** The text, and whether it was quoted. *)
Definition parseScalar (minIndent : Z) (asKey : bool) (flow : flowMode) : P (string * bool) := λ p,
  (if isc (peek p) "'" then s ← parseSingleQuoted; mret (s, true)
   else if isc (peek p) DQ then s ← parseDoubleQuoted; mret (s, true)
   else s ← parsePlain minIndent asKey flow; mret (s, false)) p.
End scalars.
