(* ===== verification/YamlParse.v ===== *)
(** * YAML: block scalars, collections and documents

    Models src/internal/yaml: parseBlockScalar of scalars.go, block.go,
    collection.go, flow.go and the streams of parse.go.

    The nesting of the source is bounded by MaxDepth, counted at parseBlockValue
    and parseFlow; the functions here recurse on the levels that are left, so
    the bound of the source is what makes them definitions.  A loop has one turn
    more than there is input to read. *)

From S2P Require Import Prelude GoLib Value YamlScalar.

Open Scope Z_scope.

Section blocks.
Context (opts : Options).

(** ** Block scalars *)

Record rawLine := mkRaw { rText : string; rIndent : Z; rBlank : bool; rBr : bool }.

(** The indicators after the style: chomping and indentation, each once. *)
Fixpoint block_header (i : nat) (chomp : option ascii) (indent : Z) : P (option ascii * Z) :=
  match i with
  | O => mret (chomp, indent)
  | S i => λ p,
      let c := peek p in
      if isc c "-" || isc c "+" then
        match chomp with
        | Some _ => err opts TwoChomps p
        | None => block_header i (Some c) indent (advance p)
        end
      else if in_range 49 57 (byte_of c) then
        if indent =? 0 then block_header i chomp (byte_of c - 48) (advance p) else err opts TwoIndents p
      else inr ((chomp, indent), p)
  end.

Definition header_end : P unit :=
  skipSpaces;;
  p ← get id;
  if isc (peek p) "#" then if commentStart p then skipLine else err opts HashNoSpace
  else if isc (peek p) NL then modify advance
  else if eof p then mret tt
  else err opts BadHeader.

(** The lines, with the indentation of the block if it was found. *)
Fixpoint block_lines (turns : nat) (parentIndent : Z) (found : option Z) (leading : Z) (raw : list rawLine)
    : P (list rawLine * option Z) :=
  match turns with
  | O => err opts OutOfTurns
  | S turns => λ p,
      if eof p then inr ((raw, found), p)
      else
        let n := span (λ c, isc c " ") (rest p) in
        let indent := Z.of_nat n in
        let p1 := advances n p in
        let blank := eof p1 || isc (peek p1) NL in
        let leading := if blank && negb (bool_decide (is_Some found)) && (leading <? indent) then indent else leading in
        let line_ found :=
          let k := span (λ c, negb (isc c NL)) (rest p1) in
          let p2 := advances k p1 in
          let br := negb (eof p2) in
          let ln := if blank then mkRaw "" indent true br else mkRaw (stake k (rest p1)) indent false br in
          block_lines turns parentIndent found leading (raw ++ [ln]) (advance p2) in
        if blank then line_ found
        else match found with
        | None =>
            if indent <=? parentIndent then inr (([], None), p)
            else if indent <? leading then err opts LeadingBlank p1
            else line_ (Some indent)
        | Some b => if indent <? b then inr ((raw, found), p) else line_ found
        end
  end.

Definition breaksIn (lines : list rawLine) : nat := length (filter (λ l, rBr l = true) lines).
Definition newlines (n : nat) : string := string_of_list_ascii (repeat NL n).
Definition spaces (n : Z) : string := string_of_list_ascii (repeat " "%char (Z.to_nat n)).

(** Blanks past the block's indentation are content. *)
Definition mark_content (found : option Z) (l : rawLine) : rawLine :=
  match found with
  | Some b => if rBlank l && (b <? rIndent l) then mkRaw "" (rIndent l) false (rBr l) else l
  | None => l
  end.

(** The lines to the last that is content, and those from it on. *)
Fixpoint split_content (lines : list rawLine) : option (list rawLine * list rawLine) :=
  match lines with
  | [] => None
  | l :: ls =>
      match split_content ls with
      | Some (cs, tail) => Some (l :: cs, tail)
      | None => if rBlank l then None else Some ([l], l :: ls)
      end
  end.

Definition extra (b : Z) (l : rawLine) : string := spaces (rIndent l - b).
Definition moreIndented (b : Z) (l : rawLine) : bool := (b <? rIndent l) || has_prefix (String TAB "") (rText l).

Fixpoint literal (b : Z) (lines : list rawLine) : string :=
  match lines with
  | [] => ""
  | l :: ls =>
      extra b l +:+ (if rBlank l then newlines 1 else rText l +:+ match ls with [] => "" | _ => newlines 1 end) +:+ literal b ls
  end.

Fixpoint folded (b : Z) (blanks : nat) (started prevMore : bool) (lines : list rawLine) : string :=
  match lines with
  | [] => ""
  | l :: ls =>
      if rBlank l then folded b (S blanks) started prevMore ls
      else
        let more := moreIndented b l in
        let sep := if negb started then newlines blanks
                   else if (0 <? blanks)%nat then newlines (if more || prevMore then S blanks else blanks)
                   else if more || prevMore then newlines 1 else " " in
        sep +:+ extra b l +:+ rText l +:+ folded b 0 true more ls
  end.

Definition block_text (fold : bool) (chomp : option ascii) (found : option Z) (raw : list rawLine) : string :=
  let raw := mark_content found <$> raw in
  let keep := bool_decide (chomp = Some "+"%char) in
  match split_content raw with
  | None => if keep then newlines (breaksIn raw) else ""
  | Some (lines, tail) =>
      let b := default 0 found in
      let text := if fold then folded b 0 false false lines else literal b lines in
      let trailing := breaksIn tail in
      if bool_decide (chomp = Some "-"%char) then text
      else if keep then text +:+ newlines trailing
      else if (0 <? trailing)%nat then text +:+ newlines 1 else text
  end.

Definition parseBlockScalar (parentIndent : Z) : P string :=
  style ← next opts;
  h ← block_header 2 None 0;
  header_end;;
  p ← get id;
  let found := if 0 <? h.2 then Some (Z.max parentIndent 0 + h.2) else None in
  r ← block_lines (S (String.length (rest p))) parentIndent found 0 [];
  mret (block_text (isc style ">") h.1 r.2 r.1).

(** ** Properties of nodes (block.go) *)

Record nodeProps := mkProps { npAnchor : string; npTag : string; npPos : Pos }.
Definition has_props (np : nodeProps) : bool := bool_decide (npAnchor np ≠ "") || bool_decide (npTag np ≠ "").

Definition skipToNextProp (np : nodeProps) (minIndent : Z) : P unit :=
  skipSpaces;;
  modify (λ p,
    if eof p || negb (isc (peek p) NL) then p
    else
      let q := advances (span is_white (rest p)) p in
      if eof q || (col q <? minIndent) then p
      else if isc (peek q) "&" && bool_decide (npAnchor np = "") then q
      else if isc (peek q) "!" && bool_decide (npTag np = "") then q
      else p).

Definition name_char (c : ascii) : bool := negb (isFlowIndicator c || isc c " " || isc c NL).

Fixpoint read_props (i : nat) (np : nodeProps) (minIndent : Z) : P nodeProps :=
  match i with
  | O => mret np
  | S i => λ p,
      if isc (peek p) "&" then
        if bool_decide (npAnchor np ≠ "") then err opts TwoAnchors p
        else
          let p := advance p in
          let n := span name_char (rest p) in
          let np := mkProps (stake n (rest p)) (npTag np) (npPos np) in
          let p := advances n p in
          if bool_decide (npAnchor np = "") then err opts EmptyAnchor p
          else (skipToNextProp np minIndent;; read_props i np minIndent) p
      else if isc (peek p) "!" then
        if bool_decide (npTag np ≠ "") then err opts TwoTags p
        else
          let n1 := if isc (peekAt 1 p) "!" then 2%nat else 1%nat in
          let n := (n1 + span (λ c, negb (is_white c)) (sdrop n1 (rest p)))%nat in
          let np := mkProps (npAnchor np) (stake n (rest p)) (npPos np) in
          (skipToNextProp np minIndent;; read_props i np minIndent) (advances n p)
      else inr (np, p)
  end.
Definition readProps (minIndent : Z) : P nodeProps := λ p, read_props 2 (mkProps "" "" (pos opts p)) minIndent p.

Definition refuseAliasProps (np : nodeProps) : P unit :=
  if bool_decide (npAnchor np ≠ "") then errAt (npPos np) AliasAnchor
  else if bool_decide (npTag np ≠ "") then errAt (npPos np) AliasTag
  else mret tt.

Definition bind_ (np : nodeProps) (v : value) : P value :=
  (if bool_decide (npAnchor np ≠ "") then modify (λ p, set_anchors (<[npAnchor np := v]> (anchors p)) p) else mret tt);;
  mret v.

Definition checkCollectionTag (np : nodeProps) (k : Kind) : P unit :=
  if bool_decide (npTag np = "") then mret tt
  else if is_tag "seq" (npTag np) then match k with KindSeq => mret tt | _ => errAt (npPos np) TagMismatch end
  else if is_tag "map" (npTag np) then match k with KindMap => mret tt | _ => errAt (npPos np) TagMismatch end
  else errAt (npPos np) (UnknownTag (npTag np)).

(** ** Aliases *)

Fixpoint countNodes (v : value) : Z :=
  match v with
  | VMap m => 1 + (fix go (es : list Entry) : Z := match es with [] => 0 | e :: r => 1 + countNodes (Val e) + go r end) (entries m)
  | VSeq l => 1 + (fix go (l : list value) : Z := match l with [] => 0 | x :: r => countNodes x + go r end) l
  | _ => 1
  end.

Fixpoint depthOf (v : value) (d : Z) : Z :=
  if 200 <? d then d
  else match v with
  | VMap m => (fix go (es : list Entry) (mx : Z) : Z := match es with [] => mx | e :: r => go r (Z.max mx (depthOf (Val e) (d + 1))) end) (entries m) d
  | VSeq l => (fix go (l : list value) (mx : Z) : Z := match l with [] => mx | x :: r => go r (Z.max mx (depthOf x (d + 1))) end) l d
  | _ => d
  end.

Definition parseAlias : P value := λ p,
  let at_ := pos opts p in
  (next opts;;
   p ← get id;
   let n := span name_char (rest p) in
   let name := stake n (rest p) in
   modify (advances n);;
   if bool_decide (name = "") then errAt at_ EmptyAlias
   else match anchors p !! name with
   | None => errAt at_ (NoAnchor name)
   | Some v =>
       modify (add_nodes (countNodes v));;
       p ← get id;
       if oMaxNodes opts <? nodes p then errAt at_ AliasNodes
       else if oMaxAliasDepth opts <? depthOf v 0 then errAt at_ AliasDepth
       else mret v
   end) p.

(** ** Merge keys (collection.go) *)

Definition mergeKey : string := "<<".
Record mergeRecord := mkMerge { mrAt : nat; mrSrc : list Map }.

Definition is_merge_key (k : value) : bool := match k with VString s => bool_decide (s = mergeKey) | _ => false end.

Fixpoint maps_of (l : list value) : option (list Map) :=
  match l with
  | [] => Some []
  | VMap m :: l' => (cons m) <$> maps_of l'
  | _ => None
  end.
Definition mergeSources (v : value) (at_ : Pos) : P (list Map) :=
  match v with
  | VMap m => mret [m]
  | VSeq l => match maps_of l with Some ms => mret ms | None => errAt at_ BadMerge end
  | _ => errAt at_ BadMerge
  end.

Context `{Runtime} (base64_Decode : string → option string) (time_Parse : string → string → option Z).
Abbreviation applyTag := (applyTag opts base64_Decode time_Parse).
Abbreviation resolvePlain := (resolvePlain opts).
Abbreviation parseScalar := (parseScalar opts).

Definition merge_entry (explicit : gset string) (out : Map) (e : Entry) : Map :=
  if bool_decide (CanonKey (Key e) ∈ explicit) || Has out (Key e) then out else set_entry out e.
Definition merge_at (explicit : gset string) (merges : list mergeRecord) (i : nat) (out : Map) : Map :=
  foldl (λ out r, foldl (λ out src, foldl (merge_entry explicit) out (entries src)) out (mrSrc r)) out
    (filter (λ r, mrAt r = i) merges).
Fixpoint apply_merges (explicit : gset string) (merges : list mergeRecord) (i : nat) (es : list Entry) (out : Map) : Map :=
  let out := merge_at explicit merges i out in
  match es with
  | [] => out
  | e :: es' => apply_merges explicit merges (S i) es' (set_entry out e)
  end.
Definition applyMerges (m : Map) (merges : list mergeRecord) : Map :=
  apply_merges (list_to_set ((λ e, CanonKey (Key e)) <$> entries m)) merges 0 (entries m) (mkMap [] ∅ (mpos m)).
Definition finish_map (m : Map) (merges : list mergeRecord) : Map :=
  match merges with [] => m | _ => applyMerges m merges end.

(** An entry is added: a merge is kept for later, a key that is there already is
    an error, or a warning. *)
Definition add_entry (m : Map) (merges : list mergeRecord) (key val : value) (keyPos valPos : Pos) : P (Map * list mergeRecord) :=
  if is_merge_key key then
    srcs ← mergeSources val valPos;
    mret (m, merges ++ [mkMerge (Len m) srcs])
  else
    match Entry_ m key with
    | Some e =>
        if oAllowDuplicateKeys opts then warn WarnDuplicateKey keyPos
        else λ p, inl (mkYerr DuplicateKey keyPos [KeyPos e], p)
    | None => mret tt
    end;;
    count opts;;
    mret (SetAt m key val keyPos valPos, merges).

(** ** Flow collections (flow.go)

    [flow] reads a nested collection, [pair_value] the value of a pair written
    without braces. *)

Definition node_end (c : ascii) : bool := isc c "," || isc c "]" || isc c "}".

Definition flow_scalar (allowImplicitPair : bool) (pair_value : P value) (np : nodeProps) : P value := λ p,
  let at_ := pos opts p in
  (if isc (peek p) "-" && (isFlowIndicator (peekAt 1 p) || is_white (peekAt 1 p)) then err opts DashInFlow
   else
     '(raw, quoted) ← parseScalar 0 false (if allowImplicitPair then flowInSeq else flowInMap);
     count opts;;
     (if allowImplicitPair : bool then
        modify (λ p, let q := advances (span is_blank (rest p)) p in if isc (peek q) ":" then q else p)
      else mret tt);;
     p ← get id;
     if allowImplicitPair && isc (peek p) ":" && (isc (peekAt 1 p) " " || isFlowIndicator (peekAt 1 p) || isc (peekAt 1 p) NL) then
       next opts;;
       skipFlowBlank opts;;
       key ← (if quoted : bool then mret (VString raw) else resolvePlain raw at_);
       p ← get id;
       val ← (if node_end (peek p) then mret VNull else pair_value);
       p ← get id;
       bind_ np (VMap (SetAt (mkMap [] ∅ at_) key val at_ (pos opts p)))
     else
       v ← applyTag (npTag np) raw quoted at_;
       bind_ np v) p.

Definition kind_of_collection (v : value) : Kind := match v with VMap _ => KindMap | _ => KindSeq end.

Definition flow_node (flow pair_value : P value) (allowImplicitPair : bool) : P value :=
  np ← readProps 0;
  skipFlowBlank opts;;
  p ← get id;
  if isc (peek p) "*" then
    refuseAliasProps np;;
    v ← parseAlias;
    bind_ np v
  else if isc (peek p) "[" || isc (peek p) "{" then
    v ← flow;
    checkCollectionTag np (kind_of_collection v);;
    bind_ np v
  else flow_scalar allowImplicitPair pair_value np.

Fixpoint flow_seq (turns : nat) (node : P value) (open : Pos) (items : list value) : P value :=
  match turns with
  | O => err opts OutOfTurns
  | S turns =>
      skipFlowBlank opts;;
      p ← get id;
      if eof p then errAt open UnterminatedSeq
      else if isc (peek p) "]" then next opts;; mret (VSeq items)
      else if isc (peek p) "," then err opts MissingEntry
      else
        v ← node;
        skipFlowBlank opts;;
        p ← get id;
        if isc (peek p) "," then next opts;; flow_seq turns node open (items ++ [v])
        else if isc (peek p) "]" then next opts;; mret (VSeq (items ++ [v]))
        else if eof p then errAt open UnterminatedSeq
        else err opts ExpectedComma
  end.

(** The value after a key, if there is one, with its position. *)
Definition flow_value (node : P value) (keyPos : Pos) : P (value * Pos) :=
  p ← get id;
  if isc (peek p) ":" then
    if negb (line p =? Line keyPos) then errAt keyPos FlowKeyLines
    else
      next opts;;
      skipFlowBlank opts;;
      p ← get id;
      let valPos := pos opts p in
      v ← (if isc (peek p) "," || isc (peek p) "}" then mret VNull else node);
      mret (v, valPos)
  else mret (VNull, keyPos).

Fixpoint flow_map (turns : nat) (node : P value) (open : Pos) (m : Map) (merges : list mergeRecord) : P value :=
  match turns with
  | O => err opts OutOfTurns
  | S turns =>
      skipFlowBlank opts;;
      p ← get id;
      if eof p then errAt open UnterminatedMap
      else if isc (peek p) "}" then next opts;; mret (VMap (finish_map m merges))
      else if isc (peek p) "," then err opts MissingEntry
      else if isc (peek p) "[" || isc (peek p) "{" then errAt (pos opts p) CollectionKey
      else
        let keyPos := pos opts p in
        '(raw, quoted) ← parseScalar 0 false flowInMap;
        key ← (if quoted : bool then mret (VString raw) else resolvePlain raw keyPos);
        skipFlowBlank opts;;
        '(val, valPos) ← flow_value node keyPos;
        '(m, merges) ← add_entry m merges key val keyPos valPos;
        skipFlowBlank opts;;
        p ← get id;
        if isc (peek p) "," then next opts;; flow_map turns node open m merges
        else if isc (peek p) "}" then next opts;; mret (VMap (finish_map m merges))
        else if eof p then errAt open UnterminatedMap
        else err opts ExpectedComma
  end.

(** [levels]: the nesting that is left. *)
Fixpoint parseFlow (levels : nat) : P value :=
  match levels with
  | O => err opts TooDeep
  | S levels =>
      let flow := parseFlow levels in
      let plain_node := flow_node flow (mret VNull) false in
      p ← get id;
      if isc (peek p) "[" then
        next opts;; count opts;;
        q ← get id;
        flow_seq (S (String.length (rest q))) (flow_node flow plain_node true) (pos opts p) []
      else if isc (peek p) "{" then
        next opts;; count opts;;
        q ← get id;
        flow_map (S (String.length (rest q))) plain_node (pos opts p) (mkMap [] ∅ (pos opts p)) []
      else err opts NotFlow
  end.

(** ** Block collections (collection.go)

    [value_at] reads a nested block value. *)

Section nested.
Context (value_at : Z → Z → bool → P value).

Fixpoint block_seq (turns : nat) (indent : Z) (items : list value) : P (list value) :=
  match turns with
  | O => err opts OutOfTurns
  | S turns =>
      skipBlank opts;;
      p ← get id;
      if eof p || atDocBoundary p || negb (col p =? indent) || negb (isBlockSeqEntry p) then mret items
      else
        next opts;;
        skipIndicatorSeparation opts;;
        p ← get id;
        if eof p || isc (peek p) NL || isc (peek p) "#" then
          (if isc (peek p) "#" then skipLine else modify advance);;
          skipBlank opts;;
          p ← get id;
          v ← (if negb (eof p) && (indent <? col p) && negb (atDocBoundary p) then value_at (col p) (indent - 1) false else mret VNull);
          block_seq turns indent (items ++ [v])
        else
          v ← value_at (col p) (indent - 1) false;
          block_seq turns indent (items ++ [v])
  end.
Definition parseBlockSeq (indent : Z) : P value :=
  count opts;;
  blockOnMarkerLine opts;;
  p ← get id;
  items ← block_seq (S (String.length (rest p))) indent [];
  mret (VSeq items).

Definition parseMapValue (keyIndent : Z) (explicitEntry : bool) : P value :=
  skipSpaces;;
  p ← get id;
  if negb (eof p) && negb (isc (peek p) NL) && negb (isc (peek p) "#") then
    if isc (peek p) "|" || isc (peek p) ">" then s ← parseBlockScalar (keyIndent - 1); mret (VString s)
    else value_at (keyIndent + 1) (keyIndent - 1) (negb explicitEntry)
  else
    (if isc (peek p) "#" then skipLine else modify advance);;
    skipBlank opts;;
    p ← get id;
    if eof p || atDocBoundary p then mret VNull
    else if keyIndent <? col p then value_at (col p) (keyIndent - 1) false
    else if (col p =? keyIndent) && isBlockSeqEntry p then parseBlockSeq (col p)
    else mret VNull.

Definition is_collection (v : value) : bool := match v with VMap _ | VSeq _ => true | _ => false end.

Definition parseExplicitKey (indent : Z) : P value := λ p,
  let at_ := pos opts p in
  (if isc (peek p) "[" || isc (peek p) "{" || isBlockSeqEntry p then errAt at_ CollectionKey
   else if isc (peek p) "|" || isc (peek p) ">" then s ← parseBlockScalar (indent - 1); mret (VString s)
   else if eof p || isc (peek p) NL || commentStart p then
     skipBlank opts;;
     p ← get id;
     if eof p || (col p <=? indent) then mret VNull
     else
       v ← value_at (col p) indent false;
       if is_collection v then errAt at_ CollectionKey else mret v
   else
     '(raw, quoted) ← parseScalar indent false notFlow;
     if quoted : bool then mret (VString raw) else resolvePlain raw at_) p.

(** An explicit key: the key, and whether a value follows. *)
Definition explicit_key (indent : Z) : P (value * bool) :=
  next opts;;
  skipIndicatorSeparation opts;;
  key ← parseExplicitKey indent;
  skipBlank opts;;
  p ← get id;
  if (col p =? indent) && isc (peek p) ":" && is_end (peekAt 1 p) then next opts;; mret (key, true) else mret (key, false).

(** A key before its colon, with the position it is reported at. *)
Definition implicit_key (indent : Z) : P (value * Pos) := λ p,
  let at_ := pos opts p in
  (np ← readProps indent;
   let keyPos := if has_props np then npPos np else at_ in
   p ← get id;
   key ← (if isc (peek p) "*" then
            refuseAliasProps np;;
            v ← parseAlias;
            skipSpaces;;
            mret v
          else
            let keyLine := line p in
            '(raw, quoted) ← parseScalar indent true notFlow;
            q ← get id;
            if negb (line q =? keyLine) then errAt keyPos KeyLines
            else
              key ← (if quoted : bool then mret (VString raw) else resolvePlain raw keyPos);
              if bool_decide (npTag np ≠ "") then applyTag (npTag np) raw quoted (npPos np) else mret key);
   skipSpaces;;
   p ← get id;
   if negb (isc (peek p) ":") then err opts NoColon
   else
     next opts;;
     bind_ np key;;
     mret (key, keyPos)) p.

Fixpoint block_map (turns : nat) (indent : Z) (m : Map) (merges : list mergeRecord) : P value :=
  match turns with
  | O => err opts OutOfTurns
  | S turns =>
      skipBlank opts;;
      p ← get id;
      if eof p || atDocBoundary p || (col p <? indent) then mret (VMap (finish_map m merges))
      else if indent <? col p then err opts UnexpectedIndent
      else if isBlockSeqEntry p then mret (VMap (finish_map m merges))
      else
        let explicit := isc (peek p) "?" && is_white (peekAt 1 p) in
        '(key, keyPos, hasValue) ←
          (if explicit then '(key, v) ← explicit_key indent; mret (key, pos opts p, v)
           else '(key, keyPos) ← implicit_key indent; mret (key, keyPos, true));
        p ← get id;
        if hasValue && negb (eof p) && negb (is_white (peek p)) then err opts ColonNoSpace
        else
          let valPos := pos opts p in
          val ← (if hasValue : bool then parseMapValue indent explicit else mret VNull);
          '(m, merges) ← add_entry m merges key val keyPos valPos;
          block_map turns indent m merges
  end.
Definition parseBlockMap (indent : Z) : P value :=
  count opts;;
  blockOnMarkerLine opts;;
  p ← get id;
  block_map (S (String.length (rest p))) indent (mkMap [] ∅ (pos opts p)) [].
End nested.

(** ** Block values (block.go) *)

Definition tagged (np : nodeProps) (k : Kind) (v : P value) : P value :=
  x ← v;
  checkCollectionTag np k;;
  bind_ np x.

(** From the node on, after its properties; [start] is the state before them. *)
Definition node_at (value_at : Z → Z → bool → P value) (flow : P value) (parentIndent : Z) (inline : bool)
    (start : pst) (np : nodeProps) : P value :=
  p ← get id;
  if isc (peek p) "*" then
    refuseAliasProps np;;
    v ← parseAlias;
    skipInlineTrailerIfLineEnd opts;;
    bind_ np v
  else if isBlockSeqEntry p then
    if inline then err opts SeqInline
    else if has_props np && (Line (npPos np) =? line p) then err opts SeqOnProps
    else tagged np KindSeq (parseBlockSeq value_at (col p))
  else if isc (peek p) "[" then tagged np KindSeq (v ← flow; skipInlineTrailer opts;; mret v)
  else if isc (peek p) "{" then tagged np KindMap (v ← flow; skipInlineTrailer opts;; mret v)
  else if isc (peek p) "|" || isc (peek p) ">" then
    raw ← parseBlockScalar parentIndent;
    v ← applyTag (npTag np) raw true (npPos np);
    bind_ np v
  else if isc (peek p) "?" && is_white (peekAt 1 p) then
    if inline then err opts KeyInline else tagged np KindMap (parseBlockMap value_at (col p))
  else if lineIsMappingEntry p then
    if inline then err opts MapInline
    else if has_props np && (Line (npPos np) =? line p) then
      put start;; tagged (mkProps "" "" (npPos np)) KindMap (parseBlockMap value_at (Col (npPos np)))
    else tagged np KindMap (parseBlockMap value_at (col p))
  else
    '(raw, quoted) ← parseScalar (parentIndent + 1) false notFlow;
    count opts;;
    v ← applyTag (npTag np) raw quoted (npPos np);
    bind_ np v.

Fixpoint parseBlockValue (levels : nat) (minIndent parentIndent : Z) (inline : bool) : P value :=
  match levels with
  | O => err opts TooDeep
  | S levels =>
      k ← get line;
      skipBlank opts;;
      p ← get id;
      if eof p || atDocBoundary p || (col p <? minIndent) then mret VNull
      else
        np ← readProps minIndent;
        skipBlank opts;;
        q ← get id;
        let inline := inline && (line q =? k) in
        if negb (eof q) && negb (line q =? Line (npPos np)) &&
           ((isc (peek q) "&" && bool_decide (npAnchor np ≠ "")) || (isc (peek q) "!" && bool_decide (npTag np ≠ ""))) &&
           negb (lineIsMappingEntry q)
        then err opts SecondProps
        else if eof q || (col q <? minIndent) then
          v ← applyTag (npTag np) "" false (npPos np);
          bind_ np v
        else node_at (parseBlockValue levels) (parseFlow levels) parentIndent inline p np
  end.

(** ** Documents (parse.go) *)

Definition isVersionNumber (s : string) : bool :=
  match IndexByte "." s with
  | None => false
  | Some i =>
      let major := stake i s in let minor := sdrop (S i) s in
      bool_decide (major ≠ "") && bool_decide (minor ≠ "") && all_digits_ major && all_digits_ minor
  end.

(** strings.Fields. *)
Fixpoint fields_go (cur : string) (l : list string) : list string :=
  let flush := if bool_decide (cur = "") then [] else [cur] in
  match l with
  | [] => flush
  | p :: l' => if space_piece p then flush ++ fields_go "" l' else fields_go (cur +:+ p) l'
  end.
Definition Fields (s : string) : list string := if bool_decide (s = "") then [] else fields_go "" (Split s "").

Fixpoint to_comment (args : list string) : list string :=
  match args with
  | [] => []
  | a :: args' => if has_prefix "#" a then [] else a :: to_comment args'
  end.

(** One directive; whether a version was seen. *)
Definition directive (at_ : Pos) (text : string) (seenYAML : bool) : P bool :=
  match Fields (TrimPrefix (TrimSpace text) "%") with
  | [] => errAt at_ DirectiveNoName
  | name :: args =>
      let args := to_comment args in
      if bool_decide (name = "YAML") then
        if seenYAML then errAt at_ TwoVersions
        else match args with
        | [v] =>
            if negb (isVersionNumber v) then errAt at_ BadVersion
            else (if bool_decide (v ∈ ["1.1"; "1.2"]) then mret tt else warn WarnDirective at_);; mret true
        | _ => errAt at_ VersionArgs
        end
      else warn WarnDirective at_;; mret seenYAML
  end.

Fixpoint skip_directives (turns : nat) (afterDocEnd seen seenYAML : bool) : P unit :=
  match turns with
  | O => err opts OutOfTurns
  | S turns =>
      p ← get id;
      if atDirectiveLine p then
        let n := span (λ c, negb (isc c NL)) (rest p) in
        modify (λ p, advance (advances n p));;
        if negb afterDocEnd then errAt (pos opts p) DirectiveNotClosed
        else
          seenYAML ← directive (pos opts p) (stake n (rest p)) seenYAML;
          skipBlank opts;;
          skip_directives turns afterDocEnd true seenYAML
      else if seen && (eof p || negb (atDocStart p)) then err opts DirectiveNoDoc
      else mret tt
  end.
Definition skipDirectives (afterDocEnd : bool) : P unit := λ p,
  skip_directives (S (String.length (rest p))) afterDocEnd false false p.

(** Whether only markers and blanks are left; the state is put back. *)
Fixpoint only_markers (turns : nat) (p : pst) : bool :=
  match turns with
  | O => false
  | S turns =>
      match skipBlank opts p with
      | inl _ => false
      | inr (_, p) =>
          if eof p then true
          else if atDocStart p || atDocEnd p then only_markers turns (advance (to_line_end p))
          else false
      end
  end.
Definition onlyTrailingMarkers (p : pst) : bool := only_markers (S (String.length (rest p))) p.

(** The --- of a document: whether there is a node to read. *)
Definition document_start : P bool :=
  p ← get id;
  if atDocStart p then
    modify (λ p, set_marker (line p) p);;
    next opts;; next opts;; next opts;;
    modify (set_anchors ∅);;
    skipSpaces;;
    p ← get id;
    if negb (eof p) && negb (isc (peek p) NL) && negb (commentStart p) then mret true
    else
      skipBlank opts;;
      p ← get id;
      mret (negb (eof p || atDocBoundary p))
  else mret true.

Fixpoint documents (turns levels : nat) (docClosed : bool) (docs : list value) : P (list value) :=
  match turns with
  | O => err opts OutOfTurns
  | S turns =>
      skipBlank opts;;
      p ← get id;
      if eof p then mret docs
      else if atDocEnd p then skipDocEnd opts;; documents turns levels true docs
      else
        skipDirectives docClosed;;
        p ← get id;
        if eof p then mret docs
        else
          node ← document_start;
          if negb node then
            p ← get id;
            documents turns levels (atDirectiveLine p) (docs ++ [VNull])
          else
            v ← parseBlockValue levels 0 (-1) false;
            skipBlank opts;;
            p ← get id;
            if eof p then mret (docs ++ [v])
            else if atDirectiveLine p then
              if negb (oStream opts) then err opts ManyDocuments else documents turns levels true (docs ++ [v])
            else if negb (atDocStart p) && negb (atDocEnd p) then err opts TrailingContent
            else if negb (oStream opts) && negb (onlyTrailingMarkers p) then err opts ManyDocuments
            else documents turns levels false (docs ++ [v])
  end.
End blocks.

(** ** Parse *)

Definition CR : ascii := "013".
(** \r\n and \r alone become a line break. *)
Fixpoint normalizeNewlines (s : string) : string :=
  match s with
  | EmptyString => EmptyString
  | String c r =>
      if isc c CR then
        match r with
        | String d r' => if isc d NL then String NL (normalizeNewlines r') else String NL (normalizeNewlines r)
        | EmptyString => String NL EmptyString
        end
      else String c (normalizeNewlines r)
  end.

Definition BOM : string := string_of_bytes [239; 187; 191].
Definition or_default (z d : Z) : Z := if z =? 0 then d else z.
Definition with_defaults (o : Options) : Options :=
  mkOptions (oFile o) (oBool11 o) (or_default (oMaxDepth o) 100) (or_default (oMaxNodes o) 1000000)
    (or_default (oMaxAliasDepth o) 100) (oStream o) (oAllowDuplicateKeys o).
Definition DefaultOptions (file : string) : Options := mkOptions file true 100 1000000 100 false false.

Definition initial (src : string) : pst := mkPst "" src 1 1 ∅ [] 0 0.

Section parse.
Context `{Runtime} (base64_Decode : string → option string) (time_Parse : string → string → option Z).

Definition parseStream (src : string) (o : Options) : (yerr + list value) * list Warning :=
  let o := with_defaults o in
  let src := TrimPrefix src BOM in
  if negb (ValidString src) then (inl (mkYerr NotUTF8 (mkPos (oFile o) 0 0) []), [])
  else
    let src := normalizeNewlines src in
    match documents o base64_Decode time_Parse (S (S (String.length src))) (Z.to_nat (oMaxDepth o)) true [] (initial src) with
    | inl (e, p) => (inl e, warnings p)
    | inr (docs, p) =>
        if negb (oStream o) && (1 <? length docs)%nat then (inl (mkYerr ManyDocuments (mkPos (oFile o) 0 0) []), warnings p)
        else (inr docs, warnings p)
    end.

Definition Parse (src : string) (o : Options) : (yerr + value) * list Warning :=
  match parseStream src o with
  | (inl e, w) => (inl e, w)
  | (inr docs, w) => (inr (default VNull (head docs)), w)
  end.

Definition ParseStream (src : string) (o : Options) : (yerr + list value) * list Warning :=
  parseStream src (mkOptions (oFile o) (oBool11 o) (oMaxDepth o) (oMaxNodes o) (oMaxAliasDepth o) true (oAllowDuplicateKeys o)).
End parse.
