(* ===== verification/YamlEncode.v ===== *)
(** * YAML: writing

    Models src/internal/yaml/encode.go.  A strings.Builder is the text written
    so far.  writeBlock, writeChild and writeSeqItem call each other on the same
    value; they are one function here, with the place the value is written at,
    so that it recurses on the value. *)

From Stdlib Require Import SpecFloat.
From S2P Require Import Prelude GoLib GoTime Value YamlScalar.

Open Scope Z_scope.

Record EncodeOptions := mkEncode { eIndent : Z; eFlow : bool; eMaxBytes : Z }.

Definition full (o : EncodeOptions) (b : string) : bool := (0 <? eMaxBytes o) && (eMaxBytes o <? Z.of_nat (String.length b)).

Definition pad (n : nat) : string := string_of_list_ascii (repeat " "%char n).
Definition nl : string := String NL "".

Section encode.
Context `{Runtime} (base64_Encode : string → string).

(** ** Strings *)

Definition probe_opts : Options := mkOptions "" true 0 0 0 false false.
(** Whether the resolver gives the string back, and says nothing. *)
Definition resolves_to_itself (s : string) : bool :=
  match resolvePlain probe_opts s noPos (mkPst "" "" 0 0 ∅ [] 0 0) with
  | inr (VString t, p) => bool_decide (t = s) && bool_decide (length (warnings p) = 0%nat)
  | _ => false
  end.

Definition first_indicators : list ascii :=
  ["-"; "?"; ":"; ","; "["; "]"; "{"; "}"; "#"; "&"; "*"; "!"; "|"; ">"; "'"; DQ; "%"; "@"; "`"; " "]%char.

Definition needsQuoting (s : string) : bool :=
  match s with
  | EmptyString => true
  | String c _ =>
      negb (resolves_to_itself s) || bool_decide (c ∈ first_indicators)
      || contains_any [NL; "013"%char; TAB; NUL_] s
      || contains ": " s || HasSuffix s ":" || contains " #" s
      || bool_decide (s ≠ TrimSpace s)
  end.

Definition needsEscaping (s : string) : bool := existsb (λ r, (r <? 32) || (r =? 127)) (runes s).

Definition rune_text (r : rune) : string := string_of_bytes (EncodeRune r).
Definition concat_text (l : list string) : string := foldr String.append "" l.

Definition quote_piece (r : rune) : string :=
  if r =? 34 then String "\" (String DQ "")
  else if r =? 92 then "\\"
  else if r =? 10 then "\n"
  else if r =? 9 then "\t"
  else if r =? 13 then "\r"
  else if r <? 32 then "\x" +:+ hex_go 2 r
  else rune_text r.
Definition yaml_Quote (s : string) : string :=
  String DQ (concat_text (quote_piece <$> runes s) +:+ String DQ "").

Definition isBreak (r : rune) : bool := (r =? 10) || (r =? 133) || (r =? 8232) || (r =? 8233).
(** [run]: the runes before are breaks. *)
Fixpoint single_pieces (run : bool) (l : list rune) : string :=
  match l with
  | [] => ""
  | r :: l' =>
      if isBreak r then (if negb run && (r =? 10) then nl else "") +:+ rune_text r +:+ single_pieces true l'
      else (if r =? 39 then "''" else rune_text r) +:+ single_pieces false l'
  end.
Definition SingleQuote (s : string) : string := String "'" (single_pieces false (runes s) +:+ "'").

Definition writeString (s : string) : string :=
  if negb (needsQuoting s) then s
  else if needsEscaping s then yaml_Quote s
  else SingleQuote s.

(** ** Scalars and keys *)

Definition float_text (f : spec_float) : string :=
  match f with
  | S754_infinity false => ".inf"
  | S754_infinity true => "-.inf"
  | S754_nan => ".nan"
  | _ =>
      let s := FormatFloat f in
      if contains_any ["."; "e"; "E"; "n"]%char s then s else s +:+ ".0"
  end.

Definition writeScalar (v : value) : string :=
  match v with
  | VNull => "null"
  | VBool b => FormatBool b
  | VInt z => FormatInt z
  | VGoInt z => FormatInt z
  | VFloat f => float_text f
  | VBinary b => "!!binary " +:+ base64_Encode b
  | VTimestamp t => "!!timestamp " +:+ Format_RFC3339Nano t
  | VString s => if ValidString s then writeString s else "!!binary " +:+ base64_Encode s
  | _ => writeString (Sprint v)
  end.
Definition EncodeScalar : value → string := writeScalar.

Definition key_rune (r : rune) : bool :=
  in_range 97 122 r || in_range 65 90 r || in_range 48 57 r || (r =? 95) || (r =? 45) || (r =? 46) || (r =? 47) || (r =? 43) || (r =? 32).
Definition plainSafeKey (s : string) : bool :=
  if needsQuoting s || negb (ValidString s) then false else forallb key_rune (runes s).
Definition writeKey (v : value) : string :=
  match v with
  | VString s => if plainSafeKey s then writeScalar v else yaml_Quote s
  | _ => writeScalar v
  end.

(** ** Block style *)

(** On lines of its own, after a key, or after a dash. *)
Inductive place := Block | Child | Item.

(** The loops over the entries and the items; [wr] writes a value after its key,
    or after its dash.  The first element of a collection after a dash shares
    its line. *)
Definition entries_at (o : EncodeOptions) (wr : value → nat → string → string) (inner : nat) :=
  fix go (first : bool) (es : list Entry) (b : string) {struct es} : string :=
    match es with
    | [] => b
    | e :: es' =>
        if full o b then b
        else go false es' (wr (Val e) inner (b +:+ (if first then " " else pad inner) +:+ writeKey (Key e) +:+ ":"))
    end.
Definition items_at (o : EncodeOptions) (wr : value → nat → string → string) (inner : nat) :=
  fix go (first : bool) (l : list value) (b : string) {struct l} : string :=
    match l with
    | [] => b
    | x :: l' =>
        if full o b then b
        else go false l' (wr x inner (b +:+ (if first then " " else pad inner) +:+ "-"))
    end.

(** [write o at_ v indent b]: what is in the builder once [v] is written. *)
Fixpoint write (o : EncodeOptions) (at_ : place) (v : value) (indent : nat) (b : string) {struct v} : string :=
  let stop := match at_ with Child => false | _ => full o b end in
  let sep := match at_ with Block => "" | _ => " " end in
  let step := Z.to_nat (eIndent o) in
  let entries_at := entries_at o (λ x i b, write o Child x i b) in
  let items_at := items_at o (λ x i b, write o Item x i b) in
  if stop then b
  else match v with
  | VMap m =>
      match entries m with
      | [] => b +:+ sep +:+ "{}" +:+ nl
      | es => match at_ with
              | Block => entries_at indent false es b
              | Child => let b := b +:+ nl in if full o b then b else entries_at (indent + step)%nat false es b
              | Item => entries_at (indent + step)%nat true es b
              end
      end
  | VNilMap => b +:+ sep +:+ "{}" +:+ nl
  | VSeq l =>
      match l with
      | [] => b +:+ sep +:+ "[]" +:+ nl
      | _ => match at_ with
             | Block => items_at indent false l b
             | Child => let b := b +:+ nl in if full o b then b else items_at indent false l b
             | Item => items_at (indent + step)%nat true l b
             end
      end
  | _ => b +:+ sep +:+ writeScalar v +:+ nl
  end.

Definition writeBlock (o : EncodeOptions) (v : value) (indent : nat) (b : string) : string := write o Block v indent b.
Definition writeChild (o : EncodeOptions) (v : value) (indent : nat) (b : string) : string := write o Child v indent b.
Definition writeSeqItem (o : EncodeOptions) (v : value) (indent : nat) (b : string) : string := write o Item v indent b.

(** ** Flow style *)

Fixpoint writeFlow (v : value) : string :=
  match v with
  | VMap m =>
      "{" +:+ (fix go (first : bool) (es : list Entry) : string :=
                 match es with
                 | [] => ""
                 | e :: es' => (if first then "" else ", ") +:+ writeKey (Key e) +:+ ": " +:+ writeFlow (Val e) +:+ go false es'
                 end) true (entries m) +:+ "}"
  | VNilMap => "{}"
  | VSeq l =>
      "[" +:+ (fix go (first : bool) (l : list value) : string :=
                 match l with
                 | [] => ""
                 | x :: l' => (if first then "" else ", ") +:+ writeFlow x +:+ go false l'
                 end) true l +:+ "]"
  | _ => writeScalar v
  end.

Definition Encode (v : value) (o : EncodeOptions) : string :=
  let o := if eIndent o <=? 0 then mkEncode 2 (eFlow o) (eMaxBytes o) else o in
  if eFlow o then writeFlow v else writeBlock o v 0 "".
End encode.
