(* ===== verification/YamlText.v ===== *)
(** * YAML: scalars are read as they are written

    Encode (encode.go) writes a scalar plain or quoted; the scalar readers
    (scalars.go) give it back.  The proofs follow the reader over the text:
    [after t p] is the state once [t] was read, [lands] where the parser may stop
    before the next line. *)

From S2P Require Import Prelude GoLib GoTime Value YamlScalar YamlParse YamlEncode.

Open Scope Z_scope.

(** ** Moving over a text *)

Definition after (t : string) (p : pst) : pst := advances (String.length t) p.
Definition no_nl : string → Prop := sall (λ c, c ≠ NL).
(** On one line, and left alone by the normalization of line breaks. *)
Definition no_break : string → Prop := sall (λ c, c ≠ NL ∧ c ≠ CR).

Lemma no_break_nl s : no_break s → no_nl s.
Proof. apply sall_impl. by intros c []. Qed.
Lemma length_app_str (s t : string) : String.length (s +:+ t) = (String.length s + String.length t)%nat.
Proof. induction s as [|c s IH]; [done|]. exact (f_equal S IH). Qed.

Lemma advances_add n m p : advances (n + m) p = advances m (advances n p).
Proof.
  unfold advances. rewrite Nat.add_comm. induction m as [|m IH]; [done|]. exact (f_equal advance IH).
Qed.
Lemma advances_S n p : advances (S n) p = advances n (advance p).
Proof. exact (advances_add 1 n p). Qed.

Lemma after_app t u p : after (t +:+ u) p = after u (after t p).
Proof. unfold after. by rewrite length_app_str, advances_add. Qed.
Lemma after_cons c t p : after (String c t) p = after t (advance p).
Proof. exact (advances_S _ _). Qed.

Lemma after_cons_app c t u p : after (String c t +:+ u) p = after (t +:+ u) (advance p).
Proof. exact (after_cons c (t +:+ u) p). Qed.

Lemma advance_rest c r p : rest p = String c r → rest (advance p) = r.
Proof. intros E. unfold advance. by rewrite E. Qed.
Lemma after_rest t k p : rest p = t +:+ k → rest (after t p) = k.
Proof.
  revert p. induction t as [|c t IH]; intros p E; [done|]. rewrite after_cons. apply IH. by eapply advance_rest.
Qed.

Lemma advance_line c r p : rest p = String c r → c ≠ NL → line (advance p) = line p ∧ col (advance p) = col p + 1.
Proof. intros E Hc. unfold advance. rewrite E. cbn. unfold isc. by rewrite bool_decide_false. Qed.
Lemma after_line t k p :
  rest p = t +:+ k → no_nl t → line (after t p) = line p ∧ col (after t p) = col p + Z.of_nat (String.length t).
Proof.
  revert p. induction t as [|c t IH]; intros p E Ht; [cbn; lia|]. destruct Ht as [Hc Ht]. rewrite after_cons.
  destruct (advance_line c (t +:+ k) p E Hc) as [Hl Hcol].
  destruct (IH (advance p) (advance_rest _ _ _ E) Ht) as [Hl' Hc']. rewrite Hl', Hc', Hl, Hcol. cbn [String.length]. lia.
Qed.
Lemma after_nl k p : rest p = nl +:+ k → col (after nl p) = 1 ∧ line (after nl p) = line p + 1.
Proof. intros E. unfold after, advances, nl. cbn. unfold advance. by rewrite E. Qed.

(** What moving does not change. *)
Definition same_books (p q : pst) : Prop :=
  anchors q = anchors p ∧ warnings q = warnings p ∧ markerLine q = markerLine p.
#[global] Instance same_books_pre : PreOrder same_books.
Proof. split; [by intros p; split_and!|]. intros p q r (A1 & A2 & A3) (B1 & B2 & B3). split_and!; congruence. Qed.

Lemma advance_books p : same_books p (advance p) ∧ nodes (advance p) = nodes p.
Proof. unfold advance. destruct (rest p); by split_and!. Qed.
Lemma advances_books n p : same_books p (advances n p) ∧ nodes (advances n p) = nodes p.
Proof.
  revert p. induction n as [|n IH]; intros p; [by split_and!|]. rewrite advances_S.
  destruct (advance_books p) as [H1 H2]. destruct (IH (advance p)) as [H3 H4]. split; [by transitivity (advance p)|congruence].
Qed.

(** ** Scanning *)

Lemma span_app f t k :
  sall (λ c, f c = true) t → match k with String c _ => f c = false | EmptyString => True end →
  span f (t +:+ k) = String.length t.
Proof.
  induction t as [|c t IH]; intros Ht Hk; [destruct k as [|c k]; [done|]; change (span f ("" +:+ String c k)) with (if f c then S (span f k) else O); by rewrite Hk|].
  destruct Ht as [Hc Ht]. change (String c t +:+ k) with (String c (t +:+ k)). cbn [span]. rewrite Hc. exact (f_equal S (IH Ht Hk)).
Qed.

Lemma sall_pad (Q : ascii → Prop) n : Q " "%char → sall Q (pad n).
Proof. intros HQ. induction n as [|n IH]; [done|]. exact (conj HQ IH). Qed.
Lemma length_pad n : String.length (pad n) = n.
Proof. induction n as [|n IH]; [done|]. exact (f_equal S IH). Qed.

Lemma stake_text t k : stake (String.length t) (t +:+ k) = t.
Proof. induction t as [|c t IH]; [by destruct k|]. exact (f_equal (String c) IH). Qed.
Lemma sdrop_text t k : sdrop (String.length t) (t +:+ k) = k.
Proof. induction t as [|c t IH]; [by destruct k|]. exact IH. Qed.

Lemma isc_true c d : isc c d = true ↔ c = d.
Proof. apply bool_decide_eq_true. Qed.
Lemma isc_false c d : isc c d = false ↔ c ≠ d.
Proof. apply bool_decide_eq_false. Qed.
Lemma isc_refl c : isc c c = true.
Proof. by apply isc_true. Qed.

(** Characters that are known are compared. *)
Ltac isc_compute :=
  repeat match goal with
  | |- context [isc ?x ?y] =>
      let b := eval vm_compute in (isc x y) in
      match b with true => change (isc x y) with true | false => change (isc x y) with false end
  end; cbn [orb andb negb].

(** ** Where a line may start *)

(** A character that starts something: not a blank, a break or a comment. *)
Definition starts (c : ascii) : Prop := is_white c = false ∧ c ≠ "#"%char.

(** [k] is nothing, or a line that starts [j] spaces in, [j] no more than [i],
    with something that is neither a marker nor, at [i], an entry of a
    sequence. *)
Definition is_dash (s : string) : bool := match s with String c r => isc c "-" && match r with String d _ => is_end d | EmptyString => true end | EmptyString => false end.
Definition is_marker (s : string) : bool :=
  ((has_prefix "---" s || has_prefix "..." s) && match sdrop 3 s with String c _ => is_white c | EmptyString => true end) || has_prefix "%" s.
Definition begins (k : string) : Prop := match k with String c _ => starts c | EmptyString => True end.
Record follow (i : Z) (dash_ok : bool) (j : nat) (s : string) : Prop := {
  follow_begins : begins s;
  follow_in : s ≠ "" → Z.of_nat j ≤ i;
  follow_dash : Z.of_nat j = i → dash_ok = false → is_dash s = false;
  follow_marker : j = 0%nat → is_marker s = false }.

(** Where the parser is once it has read up to a line that starts with [s], [j]
    spaces in: before the break, after it, or after the spaces. *)
Definition lands (p : pst) (j : nat) (s : string) : Prop :=
  rest p = nl +:+ pad j +:+ s ∨ (rest p = pad j +:+ s ∧ col p = 1) ∨ (rest p = s ∧ col p = Z.of_nat j + 1).

Lemma follow_up i i' d d' j s : follow i d j s → i < i' → follow i' d' j s.
Proof.
  intros [Hb Hi Hd Hm] Hlt. split; [done| | |done].
  - intros Hs. specialize (Hi Hs). lia.
  - intros Hj _. destruct s as [|c s]; [done|]. specialize (Hi ltac:(done)). lia.
Qed.
Lemma follow_true i d j s : follow i d j s → follow i true j s.
Proof. intros [Hb Hi Hd Hm]. by split. Qed.
Lemma lands_length p j s : lands p j s → (String.length s ≤ String.length (rest p) ≤ 1 + j + String.length s)%nat.
Proof.
  intros [->|[[-> _]|[-> _]]]; rewrite ?length_app_str, ?length_pad; [change (String.length nl) with 1%nat|..]; lia.
Qed.

(** ** Texts by bytes *)

Fixpoint bmap (g : ascii → string) (s : string) : string :=
  match s with String c r => g c +:+ bmap g r | EmptyString => EmptyString end.

(** A text made rune by rune, of runes outside ASCII as they are, is made byte
    by byte. *)
Definition by_byte (f : rune → string) (c : ascii) : string := if byte_of c <? 128 then f (byte_of c) else String c "".

Lemma bmap_app g s t : bmap g (s +:+ t) = bmap g s +:+ bmap g t.
Proof.
  induction s as [|c s IH]; [done|]. change (String c s +:+ t) with (String c (s +:+ t)). cbn [bmap]. by rewrite IH, string_app_assoc.
Qed.
Lemma bytes_range s : Forall (λ b, 0 ≤ b < 256) (bytes s).
Proof.
  induction s as [|c s IH]; [done|]. constructor; [|exact IH]. unfold byte_of. pose proof (N_ascii_bounded c). lia.
Qed.

(** A valid string is the text of its runes, whose bytes are bytes. *)
Lemma valid_runes s :
  ValidString s = true →
  s = concat_text (rune_text <$> runes s) ∧ Forall (λ r, Forall (λ b, 0 ≤ b < 256) (EncodeRune r)) (runes s).
Proof.
  intros Hv. assert (concat (EncodeRune <$> runes s) = bytes s) as E by exact (decode_go_encode _ _ (Nat.le_refl _) Hv).
  pose proof (bytes_range s) as Hr. split.
  - rewrite <- (string_of_bytes_bytes s) at 1. rewrite <- E. clear. induction (runes s) as [|r l IH]; [done|].
    cbn [fmap list_fmap concat]. rewrite string_of_bytes_app. exact (f_equal (String.append _) IH).
  - rewrite <- E in Hr. clear -Hr. induction (runes s) as [|r l IH]; [done|]. cbn [fmap list_fmap concat] in Hr.
    apply Forall_app in Hr as [H1 H2]. constructor; [done|]. by apply IH.
Qed.

Lemma byte_of_ascii b : 0 ≤ b < 256 → byte_of (ascii_of_N (Z.to_N b)) = b.
Proof. intros Hb. unfold byte_of. rewrite N_ascii_embedding; lia. Qed.

Lemma bmap_high g l : Forall (λ b, 128 ≤ b < 256) l → (∀ c, 128 ≤ byte_of c → g c = String c "") → bmap g (string_of_bytes l) = string_of_bytes l.
Proof.
  intros Hl Hg. induction Hl as [|b l Hb _ IH]; [done|]. rewrite string_of_bytes_cons. cbn [bmap].
  rewrite Hg by (rewrite byte_of_ascii; lia). exact (f_equal (String _) IH).
Qed.

Lemma bmap_rune f r :
  (128 ≤ r → f r = rune_text r) → Forall (λ b, 0 ≤ b < 256) (EncodeRune r) → bmap (by_byte f) (rune_text r) = f r.
Proof.
  intros Hf Hb. destruct (Z.lt_ge_cases r 128) as [Hr|Hr].
  - unfold rune_text in *. unfold EncodeRune in *. rewrite (proj2 (Z.ltb_lt r 128) Hr) in *. apply Forall_cons in Hb as [Hb _].
    cbn [string_of_bytes fmap list_fmap string_of_list_ascii bmap]. rewrite string_app_nil_r. unfold by_byte.
    rewrite byte_of_ascii by done. by rewrite (proj2 (Z.ltb_lt r 128) Hr).
  - rewrite Hf by done. apply bmap_high.
    + pose proof (EncodeRune_high r Hr) as Hh. apply Forall_and. split; [done|]. eapply Forall_impl; [exact Hb|]. cbn. lia.
    + intros c Hc. unfold by_byte. by rewrite (proj2 (Z.ltb_ge _ _) Hc).
Qed.

Lemma concat_runes (f : rune → string) s :
  (∀ r, 128 ≤ r → f r = rune_text r) → ValidString s = true → concat_text (f <$> runes s) = bmap (by_byte f) s.
Proof.
  intros Hf Hv. destruct (valid_runes s Hv) as [E Hb]. rewrite E at 2. clear E. induction Hb as [|r l Hr _ IH]; [done|].
  cbn [fmap list_fmap concat_text foldr]. rewrite bmap_app, bmap_rune by auto. exact (f_equal (String.append _) IH).
Qed.

(** ** What plain text looks like *)

(** No character of it ends a plain scalar, whatever follows. *)
Fixpoint plain_tail (last : option ascii) (s : string) : Prop :=
  match s with
  | EmptyString => True
  | String c r =>
      (c ∉ [NL; CR; TAB; NUL_]) ∧ (c = ":"%char → r ≠ "" ∧ ¬ (∃ t, r = String " " t)) ∧ (c = "#"%char → match last with Some b => is_blank b = false | None => True end) ∧
      plain_tail (Some c) r
  end.

Lemma not_special c : c ∉ [NL; CR; TAB; NUL_] → isc c NL = false ∧ isc c TAB = false ∧ isc c NUL_ = false.
Proof. rewrite !not_elem_of_cons. intros (? & ? & ? & ? & _). by rewrite !isc_false. Qed.

Lemma contains_tail sub c s : contains sub (String c s) = false → has_prefix sub (String c s) = false ∧ contains sub s = false.
Proof. cbn [contains]. apply orb_false_iff. Qed.
Lemma prefix_two a b c s : has_prefix (String a (String b "")) (String c s) = false → c = a → ¬ ∃ t, s = String b t.
Proof. intros Hp -> [t ->]. cbn in Hp. by rewrite !decide_True in Hp. Qed.
Lemma HasSuffix_app t u : HasSuffix (t +:+ u) u = true.
Proof.
  unfold HasSuffix. rewrite length_app_str. apply andb_true_iff. split; [apply Nat.leb_le; lia|].
  replace (String.length t + String.length u - String.length u)%nat with (String.length t) by lia. by rewrite sdrop_text, bool_decide_true.
Qed.

Lemma plain_tail_from last s :
  sall (λ c, c ∉ [NL; CR; TAB; NUL_]) s → contains ": " s = false → (∀ t, s ≠ t +:+ ":") → contains " #" s = false →
  match last with Some b => is_blank b = true → ¬ (∃ t, s = String "#" t) | None => True end → plain_tail last s.
Proof.
  revert last. induction s as [|c s IH]; intros last; [done|]. intros [Hc Hs] Hcol Hend Hhash Hlast.
  apply contains_tail in Hcol as [Hcol Hcol']. apply contains_tail in Hhash as [Hhash Hhash'].
  cbn [plain_tail]. split_and!; [done| | |].
  - intros ->. split; [intros ->; by apply (Hend "")|]. by eapply prefix_two.
  - intros ->. destruct last as [b|]; [|done]. destruct (is_blank b); [|done]. exfalso. apply Hlast; [done|]. by eexists.
  - apply IH; [done|done| |done|].
    + intros t ->. by apply (Hend (String c t)).
    + intros Hb. eapply prefix_two; [done|]. apply not_special in Hc as (_ & Htab & _). unfold is_blank in Hb. rewrite Htab, orb_false_r in Hb. by apply isc_true.
Qed.

(** *** The blank at the end that TrimSpace takes *)

Lemma cont_in lo hi l x r :
  128 ≤ lo → cont lo hi (l ++ [32]) = Some (x, r) → ∃ l', r = l' ++ [32] ∧ length l = S (length l').
Proof.
  intros Hlo. destruct l as [|b l]; cbn; [unfold in_range; by rewrite (proj2 (Z.leb_gt lo 32)) by lia|].
  destruct (in_range lo hi b); [|done]. intros [= _ <-]. by exists l.
Qed.
Lemma DecodeRune_in b l r w ok : DecodeRune b (l ++ [32]) = (r, w, ok) → (pred w ≤ length l)%nat.
Proof.
  unfold DecodeRune. intros E.
  repeat match type of E with
  | (if ?c then _ else _) = _ => destruct c
  | match cont ?lo ?hi ?l with _ => _ end = _ =>
      let Ec := fresh "Ec" in destruct (cont lo hi l) as [[? ?]|] eqn:Ec;
      [apply cont_in in Ec as (? & -> & ?); [|repeat case_match; lia]|]
  end; simplify_eq; cbn; lia.
Qed.

Lemma explode_last k t : (k ≤ String.length t)%nat → ∃ l, explode_go k (t +:+ " ") = l ++ [" "].
Proof.
  revert k. induction t as [|c t IH]; intros k Hk; [destruct k; [|cbn in Hk; lia]; by exists []|].
  change (String c t +:+ " ") with (String c (t +:+ " ")). cbn [String.length] in Hk. destruct k as [|k]; cbn [explode_go]; [|apply IH; lia].
  rewrite bytes_app. change (bytes " ") with [32]. destruct (DecodeRune (byte_of c) (bytes t ++ [32])) as [[r w] ok] eqn:E.
  apply DecodeRune_in in E. rewrite length_bytes in E. destruct (IH (pred w) E) as [l ->]. by eexists (_ :: l).
Qed.

Definition total (l : list string) : nat := sum_list_with String.length l.
Lemma length_Join l : String.length (Join l "") = total l.
Proof.
  induction l as [|x l IH]; [done|]. destruct l as [|y l]; [cbn; lia|].
  change (Join (x :: y :: l) "") with (x +:+ "" +:+ Join (y :: l) ""). rewrite !length_app_str. rewrite IH. done.
Qed.
Lemma length_stake n s : String.length (stake n s) = (n `min` String.length s)%nat.
Proof. revert s. induction n as [|n IH]; intros [|c s]; [done..|]. exact (f_equal S (IH s)). Qed.
Lemma explode_total k s : (total (explode_go k s) ≤ String.length s - k)%nat.
Proof.
  revert k. induction s as [|c s IH]; intros [|k]; [done..| |].
  - cbn [explode_go]. destruct (DecodeRune _ _) as [[r w] ok]. unfold total. cbn [sum_list_with]. rewrite length_stake.
    fold (total (explode_go (pred w) s)). specialize (IH (pred w)). cbn [String.length]. lia.
  - cbn [explode_go String.length]. specialize (IH k). lia.
Qed.
Lemma drop_space_total l : (total (drop_space l) ≤ total l)%nat.
Proof. induction l as [|x l IH]; [done|]. cbn [drop_space]. destruct (space_piece x); unfold total in *; cbn [sum_list_with]; lia. Qed.
Lemma total_app l l' : total (l ++ l') = (total l + total l')%nat.
Proof. apply sum_list_with_app. Qed.
Lemma total_reverse l : total (reverse l) = total l.
Proof. apply sum_list_with_reverse. Qed.
Lemma drop_space_last l : drop_space (l ++ [" "]) = [] ∨ ∃ l', drop_space (l ++ [" "]) = l' ++ [" "] ∧ (total l' ≤ total l)%nat.
Proof.
  induction l as [|x l IH]; [by left|]. cbn [app drop_space]. destruct (space_piece x); [|right; by exists (x :: l)].
  destruct IH as [IH|(l' & IH & Hl)]; [by left|right]. exists l'. split; [done|]. unfold total in *. cbn [sum_list_with]. lia.
Qed.
Lemma TrimSpace_shorter t : TrimSpace (t +:+ " ") ≠ t +:+ " ".
Proof.
  intros E. apply (f_equal String.length) in E. revert E. unfold TrimSpace, Split. rewrite length_Join, total_reverse, length_app_str.
  destruct (explode_last 0 t ltac:(lia)) as [l El]. pose proof (explode_total 0 (t +:+ " ")) as Ht. rewrite El in *.
  rewrite length_app_str, total_app in Ht. change (total [" "]) with 1%nat in Ht. change (String.length " ") with 1%nat in *.
  destruct (drop_space_last l) as [->|(l' & -> & Hl)]; [cbn; lia|]. rewrite reverse_app, reverse_singleton.
  change (drop_space ([" "] ++ reverse l')) with (drop_space (reverse l')).
  pose proof (drop_space_total (reverse l')) as Hd. rewrite total_reverse in Hd. lia.
Qed.

Lemma string_snoc s : s = "" ∨ ∃ t c, s = t +:+ String c "".
Proof.
  induction s as [|c s IH]; [by left|right]. destruct IH as [->|(t & d & ->)]; [by exists "", c|]. by exists (String c t), d.
Qed.
Lemma text_list_app s t : list_ascii_of_string (s +:+ t) = list_ascii_of_string s ++ list_ascii_of_string t.
Proof. induction s as [|c s IH]; [done|]. exact (f_equal (cons c) IH). Qed.
Lemma rtrim_id s : sall (λ c, c ≠ TAB) s → (∀ t, s ≠ t +:+ " ") → rtrim s = s.
Proof.
  intros Ht Hs. destruct (string_snoc s) as [->|(t & c & ->)]; [done|]. unfold rtrim, TrimRight.
  rewrite text_list_app, reverse_app. change (reverse (list_ascii_of_string (String c ""))) with [c]. cbn [app drop_cut].
  apply sall_app in Ht as [_ [Hc _]]. rewrite bool_decide_false.
  - rewrite reverse_cons, reverse_involutive. rewrite <- (string_of_list_ascii_of_string (t +:+ String c "")). by rewrite text_list_app.
  - intros [->|[->|[]%elem_of_nil]%elem_of_cons]%elem_of_cons; [by apply (Hs t)|done].
Qed.

(** A text that is read as a plain scalar. *)
Record plain_text (t : string) : Prop := {
  pt_first : match t with String c _ => starts c ∧ c ∉ ["*"; "&"; "!"; "["; "{"; "|"; ">"; "'"; DQ; "?"]%char | EmptyString => False end;
  pt_dash : is_dash t = false;
  pt_tail : plain_tail None t;
  pt_trim : rtrim t = t;
  pt_quotes : sall (λ c, c ≠ DQ) t ∨ ∀ u, t ≠ u +:+ "\";
  pt_marker : is_marker t = false }.

Lemma plain_tail_sall last t : plain_tail last t → sall (λ c, c ∉ [NL; CR; TAB; NUL_]) t.
Proof. revert last. induction t as [|c t IH]; intros last; [done|]. intros (Hc & _ & _ & Ht). split; [done|]. by eapply IH. Qed.

(** What a colon inside the text is followed by. *)
Lemma colon_inside t u :
  sall (λ c, c ∉ [NL; CR; TAB; NUL_]) t → t ≠ "" → ¬ (∃ r, t = String " " r) → ∃ d r, t +:+ u = String d r ∧ is_end d = false.
Proof.
  intros Ht Hne Hsp. destruct t as [|d t]; [done|]. exists d, (t +:+ u). split; [done|]. destruct Ht as [Hd _].
  apply not_special in Hd as (H1 & H2 & H3). unfold is_end, is_white, is_blank. rewrite H1, H2, H3.
  destruct (isc d " ") eqn:E; [|done]. apply isc_true in E as ->. exfalso. apply Hsp. by eexists.
Qed.

Lemma plain_span_app t u stop last :
  (∀ last, plain_span false last u = (0%nat, stop)) → plain_tail last t → plain_span false last (t +:+ u) = (String.length t, stop).
Proof.
  intros Hu. revert last. induction t as [|c t IH]; intros last; [intros _; apply Hu|]. intros (Hc & Hcol & Hhash & Ht).
  change (String c t +:+ u) with (String c (t +:+ u)). cbn [plain_span]. apply not_special in Hc as (-> & _ & _).
  rewrite (IH _ Ht). cbn [andb orb].
  assert (isc c "#" && match last with Some b => is_blank b | None => false end = false) as ->.
  { destruct (isc c "#") eqn:E; [|done]. apply isc_true in E. specialize (Hhash E). by destruct last. }
  destruct (isc c ":") eqn:E; [|done]. apply isc_true in E. destruct (Hcol E) as [Hne Hsp].
  destruct (colon_inside t u (plain_tail_sall _ _ Ht) Hne Hsp) as (d & r & -> & ->). done.
Qed.

(** A quoted part of a line ends on the line. *)
Lemma scan_on_line q t k n :
  no_nl t → isc q DQ = false ∨ (∀ u, t ≠ u +:+ "\") → scanQuoted q (t +:+ String NL k) = Some n → (n ≤ String.length t)%nat.
Proof.
  remember (String.length t) as l eqn:El. revert t n El. induction l as [l IH] using lt_wf_ind. intros t n -> Ht Hb.
  destruct t as [|c t]; [done|]. destruct Ht as [Hc Ht]. change (String c t +:+ ?x) with (String c (t +:+ x)).
  assert (isc q DQ = false ∨ (∀ u, t ≠ u +:+ "\")) as Hb1 by (destruct Hb as [?|Hb]; [by left|right; intros u ->; by apply (Hb (String c u))]).
  assert (∀ d t', t = String d t' → isc q DQ = false ∨ (∀ u, t' ≠ u +:+ "\")) as Hb2.
  { intros d t' ->. destruct Hb1 as [?|Hb1]; [by left|right; intros u ->; by apply (Hb1 (String d u))]. }
  cbn [scanQuoted]. rewrite (proj2 (isc_false c NL) Hc). destruct (isc q DQ && isc c "\") eqn:Eq.
  { apply andb_true_iff in Eq as [Eq Ec]. apply isc_true in Ec as ->. destruct t as [|d t].
    - destruct Hb as [Hb|Hb]; [by rewrite Hb in Eq|]. by destruct (Hb "").
    - change (String d t +:+ ?x) with (String d (t +:+ x)). cbv beta iota. destruct (scanQuoted q (t +:+ String NL k)) as [n'|] eqn:E; [|done].
      intros [= <-]. destruct Ht as [_ Ht]. apply (IH (String.length t)) in E; cbn [String.length]; [lia|lia|done..|by eapply Hb2]. }
  destruct (isc c q).
  - destruct t as [|d t].
    + change ("" +:+ String NL k) with (String NL k). cbn [String.length]. change (isc NL "'") with false. rewrite andb_false_r. intros [= <-]. lia.
    + change (String d t +:+ ?x) with (String d (t +:+ x)). cbv beta iota. destruct (isc q "'" && isc d "'"); [|intros [= <-]; cbn; lia].
      destruct (scanQuoted q (t +:+ String NL k)) as [n'|] eqn:E; [|done]. intros [= <-]. destruct Ht as [_ Ht].
      apply (IH (String.length t)) in E; cbn [String.length]; [lia|lia|done..|by eapply Hb2].
  - destruct (scanQuoted q (t +:+ String NL k)) as [n'|] eqn:E; [|done]. intros [= <-].
    apply (IH (String.length t)) in E; cbn [String.length]; [lia|lia|done..].
Qed.

(** A line that is plain text is not an entry of a mapping. *)
Lemma mapping_entry_plain last t seen skip flow k :
  plain_tail last t → sall (λ c, c ≠ DQ) t ∨ (∀ u, t ≠ u +:+ "\") → (skip ≤ String.length t)%nat →
  mapping_entry seen skip flow (t +:+ String NL k) = false.
Proof.
  revert last seen skip flow. induction t as [|c t IH]; intros last seen skip flow.
  { intros _ _ Hk. destruct skip; [done|cbn in Hk; lia]. }
  intros (Hc & Hcol & _ & Ht) Hq Hk. change (String c t +:+ ?x) with (String c (t +:+ x)). cbn [mapping_entry].
  assert (sall (λ c, c ≠ DQ) t ∨ (∀ u, t ≠ u +:+ "\")) as Hq1.
  { destruct Hq as [[_ ?]|Hq]; [by left|right; intros u ->; by apply (Hq (String c u))]. }
  assert (∀ skip flow, (skip ≤ String.length t)%nat → mapping_entry (String c seen) skip flow (t +:+ String NL k) = false) as Hgo by (intros; by eapply IH).
  cbn [String.length] in Hk. destruct skip as [|skip]; [|apply Hgo; lia]. pose proof (not_special c Hc) as (-> & _ & _).
  destruct (isc c "'" || isc c DQ) eqn:Eq.
  { destruct (quoteOpensAToken seen); [|apply Hgo; lia]. destruct (scanQuoted c (t +:+ String NL k)) as [n|] eqn:E; [|done].
    apply Hgo. eapply scan_on_line; [|  |exact E].
    - eapply sall_impl; [|by eapply plain_tail_sall]. intros a Ha2. rewrite !not_elem_of_cons in Ha2. by destruct_and! Ha2.
    - destruct Hq as [[Hq _]|Hq]; [left; by apply isc_false|]. right. intros u ->. by apply (Hq (String c u)). }
  repeat match goal with |- (if ?b then _ else _) = false => destruct b eqn:?; try by (apply Hgo; lia) end; [done|].
  exfalso. match goal with H : _ && _ && _ = true |- _ => apply andb_true_iff in H as [H Hw]; apply andb_true_iff in H as [H _] end.
  match goal with H : isc c ":" = true |- _ => apply isc_true in H; destruct (Hcol H) as [Hne Hsp] end.
  destruct (colon_inside t (String NL k) (plain_tail_sall _ _ Ht) Hne Hsp) as (d & r & Ed & He). rewrite Ed in Hw.
  unfold is_end in He. by rewrite Hw in He.
Qed.

(** A string that needs no quotes is plain text. *)
Lemma needs_no_quotes `{Runtime} s :
  needsQuoting s = false → sall (λ c, c ≠ DQ) s ∨ (∀ u, s ≠ u +:+ "\") → is_marker s = false → plain_text s ∧ resolves_to_itself s = true.
Proof.
  intros Hn Hq Hm. destruct s as [|c s]; [done|]. unfold needsQuoting in Hn. set (t := String c s) in *. rewrite !orb_false_iff in Hn.
  destruct Hn as ((((((Hr & Hf) & Ha) & Hcol) & Hend) & Hhash) & Ht). apply negb_false_iff in Hr. split; [|done].
  apply bool_decide_eq_false in Hf. apply contains_any_sall in Ha. apply bool_decide_eq_false in Ht. apply dec_stable in Ht.
  unfold first_indicators in Hf. rewrite !not_elem_of_cons in Hf. destruct_and! Hf.
  assert (¬ is_white c) as Hw.
  { destruct Ha as [Ha _]. apply not_special in Ha as (Hnl & Htab & _). unfold is_white, is_blank. rewrite Hnl, Htab.
    unfold isc. rewrite bool_decide_false by done. by intros []. }
  split; [split| | | | |]; try done.
  - split; [|done]. by destruct (is_white c).
  - rewrite !not_elem_of_cons. by split_and!; try apply not_elem_of_nil.
  - cbn. by rewrite (proj2 (isc_false c "-")).
  - apply plain_tail_from; try done. intros u Hu. rewrite Hu, HasSuffix_app in Hend. done.
  - apply rtrim_id.
    + eapply sall_impl; [|exact Ha]. intros a Ha2. rewrite !not_elem_of_cons in Ha2. by destruct_and! Ha2.
    + intros u Hu. rewrite Hu in Ht. by eapply TrimSpace_shorter.
Qed.

Section round.
Context (opts : Options).

Lemma starts_facts c : starts c → isc c " " = false ∧ isc c NL = false ∧ isc c TAB = false ∧ isc c "#" = false.
Proof.
  intros [Hw Hh]. unfold is_white, is_blank in Hw. apply orb_false_iff in Hw as [Hw ?]. apply orb_false_iff in Hw as [? ?].
  split_and!; [done..|]. by apply isc_false.
Qed.

Lemma skip_blank_over turns w k p :
  rest p = w +:+ k → sall (λ c, c = " "%char ∨ c = NL) w → begins k → (String.length (rest p) < turns)%nat →
  skip_blank opts turns p = inr (tt, after w p).
Proof.
  revert w p. induction turns as [|turns IH]; intros w p E Hw Hk Ht; [lia|]. cbn [skip_blank].
  destruct w as [|c w].
  - change ("" +:+ k) with k in E. unfold eof, peek. rewrite E. destruct k as [|c k]; [done|].
    apply starts_facts in Hk as (-> & -> & -> & ->). done.
  - destruct Hw as [Hc Hw]. change (String c w +:+ k) with (String c (w +:+ k)) in E. unfold eof, peek. rewrite E.
    assert (isc c " " || isc c NL = true) as -> by (destruct Hc as [-> | ->]; done).
    rewrite after_cons. apply IH; [by eapply advance_rest|done..|].
    rewrite (advance_rest _ _ _ E). rewrite E in Ht. cbn [String.length] in Ht. lia.
Qed.
Lemma skipBlank_over w k p :
  rest p = w +:+ k → sall (λ c, c = " "%char ∨ c = NL) w → begins k → skipBlank opts p = inr (tt, after w p).
Proof. intros. unfold skipBlank. eapply skip_blank_over; [done..|lia]. Qed.
Lemma skipBlank_here p : begins (rest p) → skipBlank opts p = inr (tt, p).
Proof. intros Hb. exact (skipBlank_over "" (rest p) p eq_refl I Hb). Qed.

(** From where it lands, the parser goes to the start of the next line. *)
Lemma lands_skip p j s :
  lands p j s → begins s →
  ∃ q, skipBlank opts p = inr (tt, q) ∧ rest q = s ∧ col q = Z.of_nat j + 1 ∧ same_books p q ∧ nodes q = nodes p.
Proof.
  intros Hl Hb.
  assert (∀ w, rest p = w +:+ s → sall (λ c, c = " "%char ∨ c = NL) w → col (after w p) = Z.of_nat j + 1 →
    ∃ q, skipBlank opts p = inr (tt, q) ∧ rest q = s ∧ col q = Z.of_nat j + 1 ∧ same_books p q ∧ nodes q = nodes p) as Hgo.
  { intros w E Hw Hc. exists (after w p). split_and!; [by eapply skipBlank_over|by apply after_rest|done|apply advances_books..]. }
  destruct Hl as [E|[[E Hc]|[E Hc]]].
  - apply (Hgo (nl +:+ pad j)); [by rewrite E, string_app_assoc|exact (conj (or_intror eq_refl) (sall_pad _ j (or_introl eq_refl)))|].
    rewrite after_app. pose proof (after_rest nl _ p E) as E1. destruct (after_nl _ p E) as [Hc _].
    destruct (after_line (pad j) s (after nl p) E1) as [_ ->]; [by apply sall_pad|]. rewrite Hc, length_pad. lia.
  - apply (Hgo (pad j)); [done|by apply sall_pad; left|].
    destruct (after_line (pad j) s p E) as [_ ->]; [by apply sall_pad|]. rewrite Hc, length_pad. lia.
  - by apply (Hgo "").
Qed.

Lemma follow_boundary i d j s p : follow i d j s → rest p = s → col p = Z.of_nat j + 1 → atDocBoundary p = false.
Proof.
  intros Hf E Hc. unfold atDocBoundary, atDocStart, atDocEnd, atDirectiveLine, markerEnd, eof, peek. rewrite E, Hc.
  destruct (Z.eqb_spec (Z.of_nat j + 1) 1) as [Hj|]; [|done]. pose proof (follow_marker _ _ _ _ Hf ltac:(lia)) as Hm.
  unfold is_marker in Hm. apply orb_false_iff in Hm as [Hm Hp]. cbn [andb]. 
  rewrite <- andb_orb_distrib_l. rewrite Hm. cbn [orb]. destruct s as [|c s]; [done|]. cbn [negb andb].
  cbn [has_prefix] in Hp. unfold isc. case_bool_decide as Hb; [|done]. subst c. done.
Qed.

(** ** Quoted scalars *)

Lemma after_snoc t c k p : rest p = t +:+ String c k → advance (after t p) = after (t +:+ String c "") p.
Proof. intros E. by rewrite after_app. Qed.

Definition sq (r : rune) : string := if r =? 39 then "''" else rune_text r.
Lemma single_pieces_flat run l : Forall (λ r, r ≠ 10) l → single_pieces run l = concat_text (sq <$> l).
Proof.
  intros Hl. revert run. induction Hl as [|r l Hr _ IH]; intros run; [done|]. cbn [single_pieces fmap list_fmap concat_text foldr].
  rewrite (proj2 (Z.eqb_neq r 10) Hr), andb_false_r. destruct (isBreak r) eqn:Eb; rewrite IH; [|done].
  unfold sq at 2. destruct (Z.eqb_spec r 39) as [->|]; [done|]. done.
Qed.

Lemma by_byte_plain f c : f (byte_of c) = rune_text (byte_of c) → by_byte f c = String c "".
Proof.
  unfold by_byte. destruct (Z.ltb_spec (byte_of c) 128) as [Hc|]; [|done]. intros ->. unfold rune_text, EncodeRune.
  rewrite (proj2 (Z.ltb_lt _ _) Hc). cbn. by rewrite ascii_of_byte.
Qed.

Definition raws (s : string) : qline := (λ c, (c, false)) <$> list_ascii_of_string s.
Lemma raws_cons c s : raws (String c s) = raw_byte c ++ raws s.
Proof. done. Qed.
Lemma qtext_raws s : qtext (raws s) = s.
Proof. unfold qtext, raws. rewrite <- list_fmap_compose. cbn. rewrite list_fmap_id. apply string_of_list_ascii_of_string. Qed.

Lemma byte_inj c d : byte_of c = byte_of d → c = d.
Proof. intros E. rewrite <- (ascii_of_byte c), E. apply ascii_of_byte. Qed.

Lemma single_read s turns open lines cur k p :
  rest p = bmap (by_byte sq) s +:+ String "'" k → isc (match k with String c _ => c | EmptyString => NUL_ end) "'" = false →
  no_nl s → (String.length (rest p) < turns)%nat →
  single_quoted opts turns open lines cur p = inr (foldQuoted (lines ++ [cur ++ raws s]), after (bmap (by_byte sq) s +:+ "'") p).
Proof.
  intros E Hk Hs. revert s cur p E Hs. induction turns as [|turns IH]; intros s cur p E Hs Ht; [lia|]. cbn [single_quoted].
  destruct s as [|c s].
  { cbn [bmap] in *. change ("" +:+ String "'" k) with (String "'" k) in E. unfold eof, peek at 1 2. rewrite E.
    unfold peek. rewrite (advance_rest _ _ _ E), Hk. cbn. by rewrite app_nil_r. }
  destruct Hs as [Hc Hs]. cbn [bmap] in *. destruct (decide (c = "'"%char)) as [->|Hq].
  - rewrite string_app_assoc in E. change (by_byte sq "'") with "''" in *.
    change ("''" +:+ (bmap (by_byte sq) s +:+ String "'" k)) with (String "'" (String "'" (bmap (by_byte sq) s +:+ String "'" k))) in E.
    unfold eof, peek at 1 2. rewrite E. cbn [isc]. rewrite isc_refl. unfold peek. pose proof (advance_rest _ _ _ E) as E1. rewrite E1, isc_refl.
    pose proof (advance_rest _ _ _ E1) as E2. rewrite (IH s (cur ++ raw_byte "'") (advance (advance p)) E2 Hs).
    + rewrite raws_cons, <- app_assoc. change ("''" +:+ bmap (by_byte sq) s) with (String "'" (String "'" (bmap (by_byte sq) s))).
      by rewrite !after_cons_app.
    + rewrite E2. rewrite E in Ht. cbn [String.length] in Ht. lia.
  - assert (by_byte sq c = String c "") as Eb.
    { apply by_byte_plain. unfold sq. destruct (Z.eqb_spec (byte_of c) 39) as [E39|]; [|done]. exfalso. by apply Hq, byte_inj. }
    rewrite Eb in *. change (String c "" +:+ bmap (by_byte sq) s) with (String c (bmap (by_byte sq) s)) in *.
    change (String c (bmap (by_byte sq) s) +:+ String "'" k) with (String c (bmap (by_byte sq) s +:+ String "'" k)) in E.
    unfold eof, peek. rewrite E. rewrite (proj2 (isc_false c "'") Hq), (proj2 (isc_false c NL) Hc).
    pose proof (advance_rest _ _ _ E) as E1. rewrite (IH s (cur ++ raw_byte c) (advance p) E1 Hs).
    + rewrite raws_cons, <- app_assoc. by rewrite after_cons_app.
    + rewrite E1. rewrite E in Ht. cbn [String.length] in Ht. lia.
Qed.

(** A byte in double quotes is itself, or a backslash and what names it. *)
Definition names (e : ascii) (r : string) (c : ascii) : Prop :=
  e ≠ NL ∧ sall (λ d, d ≠ DQ ∧ d ≠ NL ∧ d ≠ "\"%char) r ∧ ∀ q k, rest q = r +:+ k → escape opts e q = inr (String c "", after r q).

Lemma hex_names a b c :
  based_go 16 0 (String a (String b "")) = Some (byte_of c) → byte_of c < 128 →
  sall (λ d, d ≠ DQ ∧ d ≠ NL ∧ d ≠ "\"%char) (String a (String b "")) → names "x" (String a (String b "")) c.
Proof.
  intros Hv Hc Hs. split_and!; [done|done|]. intros q k E. unfold escape.
  change (hexEscape opts 2 q = inr (String c "", after (String a (String b "")) q)). unfold hexEscape.
  rewrite E. change (String a (String b "") +:+ k) with (String a (String b k)). cbn -[based_go]. rewrite Hv. cbn -[EncodeRune]. pose proof (N_ascii_bounded c).
  unfold in_range. rewrite (proj2 (Z.leb_gt 55296 (byte_of c))) by lia. cbn [andb]. unfold EncodeRune.
  rewrite (proj2 (Z.ltb_lt _ _) Hc). rewrite string_of_bytes_cons, ascii_of_byte. done.
Qed.

Definition raw_in_quotes (c : ascii) : Prop := by_byte quote_piece c = String c "" ∧ c ≠ DQ ∧ c ≠ NL ∧ c ≠ "\"%char.
Lemma quote_piece_cases c :
  raw_in_quotes c ∨ ∃ e r, by_byte quote_piece c = String "\" (String e r) ∧ names e r c.
Proof.
  destruct c as [[] [] [] [] [] [] [] []];
    first [ left; split_and!; [vm_compute; reflexivity|done|done|done]
          | right; eexists _, ""; split; [vm_compute; reflexivity|]; split_and!; [done|done|]; intros q k E; vm_compute; reflexivity
          | right; eexists _, _; split; [vm_compute; reflexivity|]; apply hex_names; [vm_compute; reflexivity..|by split_and!] ].
Qed.

Definition mark (c : ascii) : ascii * bool := (c, match by_byte quote_piece c with String d _ => isc d "\" | EmptyString => true end).
Definition marks (s : string) : qline := mark <$> list_ascii_of_string s.
Lemma qtext_marks s : qtext (marks s) = s.
Proof. unfold qtext, marks. rewrite <- list_fmap_compose. cbn. rewrite list_fmap_id. apply string_of_list_ascii_of_string. Qed.

Lemma double_read s turns open lines cur k p :
  rest p = bmap (by_byte quote_piece) s +:+ String DQ k → (String.length (rest p) < turns)%nat →
  double_quoted opts turns open lines cur p =
    inr (foldQuoted (lines ++ [cur ++ marks s]), after (bmap (by_byte quote_piece) s +:+ String DQ "") p).
Proof.
  revert s cur p. induction turns as [|turns IH]; intros s cur p E Ht; [lia|]. cbn [double_quoted].
  destruct s as [|c s].
  { change (bmap (by_byte quote_piece) "" +:+ String DQ k) with (String DQ k) in E. unfold eof, peek. rewrite E. cbn. by rewrite app_nil_r. }
  cbn [bmap] in *. rewrite string_app_assoc in E.
  assert (marks (String c s) = [mark c] ++ marks s) as -> by done.
  destruct (quote_piece_cases c) as [(Ec & Hd & Hn & Hb)|(e & r & Ec & Hne & _ & Hr)].
  - assert (mark c = (c, false)) as -> by (unfold mark; rewrite Ec; by rewrite (proj2 (isc_false c "\") Hb)). rewrite Ec in *.
    change (String c "" +:+ ?t) with (String c t) in E. unfold eof, peek. rewrite E.
    rewrite (proj2 (isc_false c DQ) Hd), (proj2 (isc_false c NL) Hn), (proj2 (isc_false c "\") Hb).
    pose proof (advance_rest _ _ _ E) as E1. rewrite (IH s (cur ++ raw_byte c) (advance p) E1).
    + rewrite <- app_assoc. by rewrite (string_app_assoc (String c "")), after_cons_app.
    + rewrite E1. rewrite E in Ht. cbn [String.length] in Ht. lia.
  - assert (mark c = (c, true)) as -> by (unfold mark; by rewrite Ec). rewrite Ec in *.
    change (String "\" (String e r) +:+ ?t) with (String "\" (String e (r +:+ t))) in E. unfold eof at 1, peek at 1 2 3. rewrite E.
    cbn [isc]. change (isc "\" DQ) with false. change (isc "\" NL) with false. rewrite isc_refl.
    pose proof (advance_rest _ _ _ E) as E1. unfold eof, peek. rewrite E1, (proj2 (isc_false e NL) Hne).
    unfold mbind, P_bind, next. rewrite E1. pose proof (advance_rest _ _ _ E1) as E2. rewrite (Hr _ _ E2).
    pose proof (after_rest _ _ _ E2) as E3. rewrite (IH s (cur ++ escaped (String c "")) _ E3).
    + rewrite <- app_assoc. by rewrite (string_app_assoc (String _ (String e r))), !after_cons_app, (after_app r).
    + rewrite E3. rewrite E in Ht. cbn [String.length] in Ht. rewrite (length_app_str r) in Ht. lia.
Qed.

(** ** Plain scalars *)

(** Over the break and the spaces to the next line. *)
Lemma next_line_at p j s :
  rest p = nl +:+ pad j +:+ s → begins s →
  advances (span (λ c, isc c NL) (rest p)) p = after nl p ∧
  advances (span is_blank (rest (after nl p))) (after nl p) = after (nl +:+ pad j) p.
Proof.
  intros E Hb. pose proof (after_rest nl _ p E) as E1. split.
  - rewrite E. replace (span _ _) with 1%nat; [done|]. symmetry. apply (span_app _ nl); [by split|].
    destruct j as [|j]; [|done]. change (pad 0 +:+ s) with s. destruct s as [|c s]; [done|]. by apply starts_facts in Hb as (_ & ? & _).
  - rewrite E1, after_app. replace (span _ _) with (String.length (pad j)); [done|]. symmetry. apply span_app; [by apply sall_pad|].
    destruct s as [|c s]; [done|]. apply starts_facts in Hb as (H1 & _ & H2 & _). unfold is_blank. by rewrite H1, H2.
Qed.
Lemma next_line_pos p j s :
  rest p = nl +:+ pad j +:+ s → rest (after (nl +:+ pad j) p) = s ∧ col (after (nl +:+ pad j) p) = Z.of_nat j + 1.
Proof.
  intros E. split; [apply after_rest; by rewrite E, string_app_assoc|]. rewrite after_app. pose proof (after_rest nl _ p E) as E1.
  destruct (after_nl _ p E) as [Hc _]. destruct (after_line (pad j) s (after nl p) E1) as [_ ->]; [by apply sall_pad|]. rewrite Hc, length_pad. lia.
Qed.

Lemma plain_text_line t k p minIndent asKey stop :
  plain_text t → rest p = t +:+ k → (∀ last, plain_span false last k = (0%nat, stop)) →
  (asKey = true ∨ stop ≠ AtColon) →
  (asKey = true ∨ k = "" ∨ ∃ j s, k = nl +:+ pad j +:+ s ∧ follow (minIndent - 1) true j s) →
  parsePlain opts minIndent asKey notFlow p = inr (t, after t p).
Proof.
  intros Ht E Hk Hcolon Hnext. unfold parsePlain, mbind, P_bind, mret, P_ret. cbn [plain_lines].
  rewrite bool_decide_false by auto. rewrite E, (plain_span_app t k stop None Hk (pt_tail t Ht)). fold (after t p).
  rewrite (bool_decide_false (notFlow = flowInSeq)), andb_false_r, stake_text, (pt_trim t Ht) by done. cbn [andb].
  assert (bool_decide (stop = AtColon) && negb (asKey || false) = false) as ->.
  { destruct Hcolon as [->|Hs]; [by rewrite andb_false_r|by rewrite bool_decide_false]. }
  pose proof (after_rest t k p E) as E1. unfold eof at 1. rewrite E1. cbn [app].
  destruct Hnext as [->|[->|(j & s & -> & Hf)]]; [exact (f_equal (λ x, inr (x, _)) (pt_trim t Ht))| |].
  - rewrite orb_true_r. exact (f_equal (λ x, inr (x, _)) (pt_trim t Ht)).
  - destruct (_ || _ || _); [exact (f_equal (λ x, inr (x, _)) (pt_trim t Ht))|]. destruct (next_line_at _ j s E1 (follow_begins _ _ _ _ Hf)) as [N1 N2].
    rewrite <- E1, N1, N2. destruct (next_line_pos _ j s E1) as [E2 C2]. set (p2 := after (nl +:+ pad j) _) in *.
    assert (eof p2 || (col p2 <=? minIndent) = true) as ->; [|exact (f_equal (λ x, inr (x, _)) (pt_trim t Ht))].
    unfold eof. rewrite E2, C2. destruct s as [|c s]; [done|]. apply orb_true_iff. right. apply Z.leb_le.
    pose proof (follow_in _ _ _ _ Hf ltac:(done)). lia.
Qed.

(** ** Quoted text on a line *)

Lemma scan_double s k :
  scanQuoted DQ (bmap (by_byte quote_piece) s +:+ String DQ k) = Some (S (String.length (bmap (by_byte quote_piece) s))).
Proof.
  assert (∀ r u n, sall (λ d, d ≠ DQ ∧ d ≠ NL ∧ d ≠ "\"%char) r → scanQuoted DQ u = Some n →
    scanQuoted DQ (r +:+ u) = Some (String.length r + n)%nat) as Hraw.
  { induction r as [|d r IHr]; intros u n Hr Hu; [done|]. destruct Hr as [(H1 & H2 & H3) Hr].
    change (String d r +:+ u) with (String d (r +:+ u)). cbn [scanQuoted].
    rewrite (proj2 (isc_false d NL) H2), (proj2 (isc_false d "\") H3), andb_false_r, (proj2 (isc_false d DQ) H1), (IHr u n Hr Hu). done. }
  induction s as [|c s IH]; [by destruct k|]. cbn [bmap]. rewrite string_app_assoc, length_app_str.
  destruct (quote_piece_cases c) as [(-> & Hd & Hn & Hb)|(e & r & -> & Hne & Hr & _)].
  - rewrite (Hraw (String c "") _ _ ltac:(by split_and!) IH). f_equal.
  - change (String "\" (String e r) +:+ ?u) with (String "\" (String e (r +:+ u))). cbn [scanQuoted].
    change (isc "\" NL) with false. rewrite !isc_refl. cbn [andb]. rewrite (Hraw r _ _ Hr IH). cbn. f_equal. lia.
Qed.

Lemma scan_single s k :
  no_nl s → isc (match k with String c _ => c | EmptyString => NUL_ end) "'" = false →
  scanQuoted "'" (bmap (by_byte sq) s +:+ String "'" k) = Some (S (String.length (bmap (by_byte sq) s))).
Proof.
  intros Hs Hk. induction s as [|c s IH].
  { change (bmap _ "" +:+ ?u) with u. cbn [scanQuoted]. change (isc "'" NL) with false. change (isc "'" DQ) with false. rewrite !isc_refl.
    cbn [andb]. destruct k as [|d k]; [done|]. by rewrite Hk. }
  destruct Hs as [Hc Hs]. specialize (IH Hs). cbn [bmap]. rewrite string_app_assoc, length_app_str.
  destruct (decide (c = "'"%char)) as [->|Hq].
  - change (by_byte sq "'") with "''". change ("''" +:+ ?u) with (String "'" (String "'" u)). cbn [scanQuoted].
    change (isc "'" NL) with false. change (isc "'" DQ) with false. rewrite !isc_refl. cbn [andb]. by rewrite IH.
  - assert (by_byte sq c = String c "") as ->.
    { apply by_byte_plain. unfold sq. destruct (Z.eqb_spec (byte_of c) 39) as [E39|]; [|done]. exfalso. by apply Hq, byte_inj. }
    change (String c "" +:+ ?u) with (String c u). cbn [scanQuoted]. rewrite (proj2 (isc_false c NL) Hc), (proj2 (isc_false c "'") Hq).
    change (isc "'" DQ) with false. cbn [andb]. by rewrite IH.
Qed.

Lemma mapping_entry_skip seen t flow u :
  ∃ seen', mapping_entry seen (String.length t) flow (t +:+ u) = mapping_entry seen' 0 flow u.
Proof. revert seen. induction t as [|c t IH]; intros seen; [by exists seen|]. exact (IH (String c seen)). Qed.

Definition key_char (c : ascii) : bool := key_rune (byte_of c).
Lemma key_char_facts c :
  key_char c = true →
  isc c NL = false ∧ isc c "'" = false ∧ isc c DQ = false ∧ isc c "[" = false ∧ isc c "{" = false ∧ isc c "]" = false ∧ isc c "}" = false
  ∧ isc c "#" = false ∧ isc c ":" = false.
Proof. destruct c as [[] [] [] [] [] [] [] []]; intros Hk; vm_compute in Hk; first [discriminate|by split_and!]. Qed.

Lemma mapping_entry_key seen t w k :
  sall (λ c, key_char c = true) t → is_white w = true → mapping_entry seen 0 0 (t +:+ String ":" (String w k)) = true.
Proof.
  revert seen. induction t as [|c t IH]; intros seen Ht Hw; [change ("" +:+ ?x) with x; cbn [mapping_entry]; by rewrite Hw|]. destruct Ht as [Hc Ht].
  change (String c t +:+ ?x) with (String c (t +:+ x)). cbn [mapping_entry].
  apply key_char_facts in Hc as (-> & -> & -> & -> & -> & -> & -> & -> & ->). by apply IH.
Qed.

(** ** Scalars as they are written *)

Definition quoted_with (q : ascii) (body : string) : string := String q (body +:+ String q "").

(** The text [t] is the scalar [raw], in quotes or not. *)
Inductive written : string → string → bool → Prop :=
| written_plain t : plain_text t → written t t false
| written_single s : no_break s → written (quoted_with "'" (bmap (by_byte sq) s)) s true
| written_double s : written (quoted_with DQ (bmap (by_byte quote_piece) s)) s true.

(** After a scalar comes a line break, or the colon of a key. *)
Definition ends_scalar (k : string) : Prop :=
  (∃ j s, k = nl +:+ pad j +:+ s) ∨ ∃ w u, k = String ":" (String w u) ∧ is_white w = true.

Lemma quoted_app q body k : quoted_with q body +:+ k = String q (body +:+ String q k).
Proof. unfold quoted_with. change (String q ?x +:+ k) with (String q (x +:+ k)). by rewrite string_app_assoc. Qed.

Lemma ends_scalar_first k : ends_scalar k → ∃ d u, k = String d u ∧ (d = NL ∨ d = ":"%char).
Proof. intros [(j & s & ->)|(w & u & -> & _)]; [exists NL, (pad j +:+ s)|exists ":"%char, (String w u)]; auto. Qed.

Lemma is_marker_app t k : is_marker t = false → t ≠ "" → ends_scalar k → is_marker (t +:+ k) = false.
Proof.
  intros Ht Hne (d & u & -> & Hd)%ends_scalar_first.
  assert (d ≠ "-"%char ∧ d ≠ "."%char) as [Hd1 Hd2] by (by destruct Hd as [-> | ->]).
  destruct t as [|a [|b [|c t]]]; [done| | |]; unfold is_marker in *;
    [change (String a "" +:+ ?x) with (String a x)|change (String a (String b "") +:+ ?x) with (String a (String b x))
    |change (String a (String b (String c t)) +:+ ?x) with (String a (String b (String c (t +:+ x))))];
    cbn [has_prefix sdrop] in *.
  - repeat case_decide; subst; try done; destruct u; repeat case_decide; done.
  - repeat case_decide; subst; try done; destruct u; repeat case_decide; done.
  - destruct t as [|e t]; [|exact Ht]. repeat case_decide; subst; done.
Qed.

Lemma written_first t raw q k :
  written t raw q → ends_scalar k →
  ∃ c r, t +:+ k = String c r ∧ starts c ∧ (c ∉ ["*"; "&"; "!"; "["; "{"; "|"; ">"; "?"]%char) ∧ is_dash (t +:+ k) = false ∧ is_marker (t +:+ k) = false.
Proof.
  intros Hw Hk. destruct Hw as [t Ht|s Hs|s].
  - pose proof (pt_first t Ht) as Hf. pose proof (pt_dash t Ht) as Hd. pose proof (pt_marker t Ht) as Hm. destruct t as [|c t]; [done|].
    destruct Hf as [Hc Hn]. exists c, (t +:+ k). split_and!; [done|done| | |by apply is_marker_app].
    + rewrite !not_elem_of_cons in *. by destruct_and! Hn.
    + destruct t as [|d t]; [|exact Hd]. cbn in Hd. rewrite andb_true_r in Hd.
      destruct (ends_scalar_first k Hk) as (d & u & -> & _). change (String c "" +:+ ?x) with (String c x). cbn. by rewrite Hd.
  - rewrite quoted_app. eexists _, _. split_and!; [done|by split| |done|done]. rewrite !not_elem_of_cons. by split_and!; try apply not_elem_of_nil.
  - rewrite quoted_app. eexists _, _. split_and!; [done|by split| |done|done]. rewrite !not_elem_of_cons. by split_and!; try apply not_elem_of_nil.
Qed.

Lemma quote_piece_no_break c : no_break (by_byte quote_piece c).
Proof. destruct c as [[] [] [] [] [] [] [] []]; by split_and!. Qed.
Lemma sq_no_break c : c ≠ NL → c ≠ CR → no_break (by_byte sq c).
Proof.
  intros H1 H2. destruct (decide (c = "'"%char)) as [->|Hq]; [by split_and!|].
  rewrite by_byte_plain; [by split_and!|]. unfold sq. destruct (Z.eqb_spec (byte_of c) 39) as [E39|]; [|done]. exfalso. by apply Hq, byte_inj.
Qed.
Lemma bmap_no_break g s : sall (λ c, no_break (g c)) s → no_break (bmap g s).
Proof. induction s as [|c s IH]; [done|]. intros [Hc Hs]. apply sall_app. by split; [|apply IH]. Qed.
Lemma written_no_break t raw q : written t raw q → no_break t.
Proof.
  intros [t' Ht|s' Hs|s'].
  - eapply sall_impl; [|exact (plain_tail_sall _ _ (pt_tail _ Ht))]. intros c. rewrite !not_elem_of_cons. by intros (? & ? & _).
  - split; [done|]. apply sall_app. split; [|by split_and!]. apply bmap_no_break. eapply sall_impl; [|exact Hs]. intros c []. by apply sq_no_break.
  - split; [done|]. apply sall_app. split; [|by split_and!]. apply bmap_no_break. induction s' as [|c s' IH]; [done|]. split; [apply quote_piece_no_break|done].
Qed.

Lemma plain_first_quotes t k p : plain_text t → rest p = t +:+ k → isc (peek p) "'" = false ∧ isc (peek p) DQ = false.
Proof.
  intros Ht E. pose proof (pt_first t Ht) as Hf. destruct t as [|c t]; [done|]. destruct Hf as [_ Hn].
  rewrite !not_elem_of_cons in Hn. destruct_and! Hn. unfold peek. rewrite E. by rewrite !isc_false.
Qed.

Lemma quoted_scalar t raw k p minIndent asKey :
  written t raw true → rest p = t +:+ k → ends_scalar k → parseScalar opts minIndent asKey notFlow p = inr ((raw, true), after t p).
Proof.
  intros Hw E (d & u & -> & Hd)%ends_scalar_first.
  assert (isc (match String d u with String c _ => c | EmptyString => NUL_ end) "'" = false) as Hq by (by destruct Hd as [-> | ->]).
  inversion Hw as [|s Hs|s]; subst; rewrite quoted_app in E; unfold parseScalar, peek; rewrite E;
    pose proof (advance_rest _ _ _ E) as E1.
  - rewrite isc_refl. unfold parseSingleQuoted, mbind, P_bind, next. rewrite E. cbn [get id].
    rewrite (single_read _ _ _ _ _ _ _ E1 Hq (no_break_nl _ Hs)) by lia. cbn [app foldQuoted]. rewrite qtext_raws. unfold quoted_with. by rewrite after_cons.
  - change (isc DQ "'") with false. rewrite isc_refl. unfold parseDoubleQuoted, mbind, P_bind, next. rewrite E. cbn [get id].
    rewrite (double_read _ _ _ _ _ _ _ E1) by lia. cbn [app foldQuoted]. rewrite qtext_marks. unfold quoted_with. by rewrite after_cons.
Qed.

(** A scalar that is a value. *)
Lemma scalar_value t raw q p minIndent j s :
  written t raw q → rest p = t +:+ nl +:+ pad j +:+ s → follow (minIndent - 1) true j s →
  parseScalar opts minIndent false notFlow p = inr ((raw, q), after t p).
Proof.
  intros Hw E Hf. destruct q; [eapply quoted_scalar; [done..|left; by eexists _, _]|].
  inversion Hw as [? Ht| |]; subst. unfold parseScalar. destruct (plain_first_quotes _ _ _ Ht E) as [-> ->].
  unfold mbind, P_bind. by rewrite (plain_text_line raw (nl +:+ pad j +:+ s) p minIndent false AtBreak Ht E); [|done|right|right; right; eauto].
Qed.

(** A scalar that is a key. *)
Lemma scalar_key t raw q p minIndent w k :
  written t raw q → rest p = t +:+ String ":" (String w k) → is_white w = true →
  parseScalar opts minIndent true notFlow p = inr ((raw, q), after t p).
Proof.
  intros Hw E Hwh. destruct q; [eapply quoted_scalar; [done..|right; by eexists _, _]|].
  inversion Hw as [? Ht| |]; subst. unfold parseScalar. destruct (plain_first_quotes _ _ _ Ht E) as [-> ->].
  unfold mbind, P_bind. rewrite (plain_text_line raw (String ":" (String w k)) p minIndent true AtColon Ht E); [done| |by left..].
  intros last. cbn [plain_span]. change (isc ":" NL) with false. change (isc ":" "#") with false. rewrite isc_refl. unfold is_end. by rewrite Hwh.
Qed.

(** Which lines are entries of a mapping. *)
Lemma quoted_passed t raw u :
  written t raw true → isc (match u with String c _ => c | EmptyString => NUL_ end) "'" = false →
  ∃ seen, mapping_entry "" 0 0 (t +:+ u) = mapping_entry seen 0 0 u.
Proof.
  intros Hw Hu.
  assert (∀ c body, scanQuoted c (body +:+ String c u) = Some (S (String.length body)) → isc c NL = false → isc c "'" || isc c DQ = true →
    ∃ seen, mapping_entry "" 0 0 (quoted_with c body +:+ u) = mapping_entry seen 0 0 u) as Hgo.
  { intros c body Hs Hn Hc. rewrite quoted_app. cbn [mapping_entry]. rewrite Hn, Hc. cbn [quoteOpensAToken]. rewrite Hs.
    replace (S _) with (String.length (body +:+ String c "")) by (rewrite length_app_str; cbn; lia).
    replace (body +:+ String c u) with ((body +:+ String c "") +:+ u) by apply string_app_assoc.
    destruct (mapping_entry_skip (String c "") (body +:+ String c "") 0 u) as [seen ->]. by exists seen. }
  inversion Hw; subst; apply Hgo; try done; [by apply scan_single; [apply no_break_nl|]|apply scan_double].
Qed.

Lemma written_not_entry t raw q k : written t raw q → mapping_entry "" 0 0 (t +:+ String NL k) = false.
Proof.
  intros Hw. destruct q; [by destruct (quoted_passed t raw (String NL k) Hw eq_refl) as [seen ->]|].
  inversion Hw as [? Ht| |]; subst. eapply mapping_entry_plain; [exact (pt_tail _ Ht)|exact (pt_quotes _ Ht)|lia].
Qed.
Lemma written_entry t raw q w k :
  written t raw q → (q = false → sall (λ c, key_char c = true) t) → is_white w = true →
  mapping_entry "" 0 0 (t +:+ String ":" (String w k)) = true.
Proof.
  intros Hw Hk Hwh. destruct q; [|by apply mapping_entry_key; [apply Hk|]].
  destruct (quoted_passed t raw (String ":" (String w k)) Hw eq_refl) as [seen ->]. by apply (mapping_entry_key seen "").
Qed.
End round.

(** ** Numbers *)

Lemma digit_c_facts c : digit_c c → (isc c "-" = false ∧ isc c "+" = false ∧ isc c "_" = false ∧ isc c ":" = false ∧ isc c "." = false ∧ isc c "x" = false ∧ isc c "X" = false ∧ isc c "b" = false ∧ isc c "B" = false) ∧ key_char c = true.
Proof. intros [z Hz]. destruct c as [[] [] [] [] [] [] [] []]; vm_compute in Hz; first [discriminate|by split_and!]. Qed.

Lemma digits_strip t : sall digit_c t → stripUnderscores t = t.
Proof.
  induction t as [|c t IH]; [done|]. intros [Hc Ht]. unfold stripUnderscores. cbn [remove_all_].
  apply digit_c_facts in Hc as [(_ & _ & -> & _) _]. exact (f_equal (String c) (IH Ht)).
Qed.

(** A text that starts like a number is none of the words. *)
Definition numeric (s : string) : bool := match s with String c _ => isc c "-" || bool_decide (is_Some (digit_of c)) | EmptyString => false end.
Lemma numeric_not_in s l : numeric s = true → forallb (λ w, negb (numeric w)) l = true → s ∉ l.
Proof. intros Hs Hl Hin. apply forallb_forall with (x := s) in Hl; [by rewrite Hs in Hl|]. by apply list_elem_of_In. Qed.

Record numeral (t : string) (n : Z) : Prop := {
  nm_digits : sall digit_c t;
  nm_first : match t with String c r => c ≠ "0"%char ∨ r = "" | EmptyString => False end;
  nm_value : digits_go 0 t = Some n;
  nm_range : 0 ≤ n ≤ maxInt64 }.

Lemma pretty_numeral z : 0 ≤ z ≤ maxInt64 → numeral (pretty z) z.
Proof.
  intros Hz. destruct z as [|n|n]; [|destruct (pretty_pos n) as (c & t & -> & Hc & Ht & Hv); by split; auto|lia].
  split; [split; [by eexists|done]|by right|done|done].
Qed.
Lemma pretty_neg n : pretty (Zneg n) = String "-" (pretty (Zpos n)).
Proof. done. Qed.

Lemma numeral_Atoi t n : numeral t n → Atoi t = Some n.
Proof. intros [Hd Hf Hv Hr]. apply Atoi_digits; try done. by destruct t. Qed.

Lemma numeral_body `{Runtime} t n sign :
  numeral t n → sign = 1 ∨ sign = -1 →
  number_body sign t = Some (VInt (sign * n), false).
Proof.
  intros Ht Hs. unfold number_body. cbv zeta. rewrite (digits_strip t (nm_digits _ _ Ht)), (numeral_Atoi t n Ht).
  pose proof (nm_range _ _ Ht) as Hr. rewrite wrap64_small by (unfold minInt64, maxInt64 in *; destruct Hs as [-> | ->]; lia).
  pose proof (nm_digits _ _ Ht) as Hd. pose proof (nm_first _ _ Ht) as Hf. destruct t as [|c t]; [done|]. destruct Hd as [Hc Hd].
  pose proof (digit_c_facts c Hc) as [(E1 & E2 & _) _]. rewrite E1, E2. cbn [orb].
  assert (numeric (String c t) = true) as Hn by (cbn; by rewrite E1, bool_decide_true).
  rewrite !bool_decide_false by (first [by apply numeric_not_in|done]).
  assert (hasDigit (String c t) = true) as -> by (cbn [hasDigit]; by rewrite bool_decide_true). cbn [orb negb].
  assert (∀ x x', (x = "x" ∧ x' = "X" ∨ x = "b" ∧ x' = "B")%char → two_letters "0" x x' (String c t) = false) as Htl.
  { intros x x' Hx. destruct t as [|d t]; [done|]. destruct Hd as [Hd _]. apply digit_c_facts in Hd as [Hd _]. destruct_and! Hd.
    cbn. destruct Hx as [[-> ->]|[-> ->]]; repeat match goal with E : isc d _ = false |- _ => rewrite E; clear E end; by rewrite andb_false_r. }
  rewrite !Htl by auto. destruct Hf as [Hf|Hf].
  - cbn [has_prefix]. rewrite decide_False by congruence. by rewrite andb_false_r.
  - by rewrite Hf.
Qed.

Lemma resolveNumber_numeral `{Runtime} t n : numeral t n → resolveNumber t = Some (VInt n, false).
Proof.
  intros Ht. pose proof (numeral_body t n 1 Ht (or_introl eq_refl)) as Hb. rewrite Z.mul_1_l in Hb. unfold resolveNumber.
  destruct t as [|c t]; [by destruct (nm_first _ _ Ht)|]. pose proof (nm_digits _ _ Ht) as [Hc _].
  assert (∀ A (x y z : A), match c with "-"%char => x | "+"%char => y | _ => z end = z) as Hm.
  { intros A x y z. apply digit_c_facts in Hc as [(H1 & H2 & _) _]. revert H1 H2. clear. by destruct c as [[] [] [] [] [] [] [] []]. }
  rewrite Hm. exact Hb.
Qed.
Lemma resolveNumber_neg `{Runtime} t n : numeral t n → resolveNumber (String "-" t) = Some (VInt (- n), false).
Proof.
  intros Ht. pose proof (numeral_body t n (-1) Ht (or_intror eq_refl)) as Hb. replace (-1 * n) with (- n) in Hb by lia. exact Hb.
Qed.

(** ** Which text a scalar has *)

Definition word_char (c : ascii) : Prop := key_char c = true ∧ c ≠ " "%char.
Lemma word_char_facts c :
  word_char c → (starts c ∧ c ∉ ["*"; "&"; "!"; "["; "{"; "|"; ">"; "'"; DQ; "?"]%char) ∧ c ≠ DQ ∧ c ≠ "\"%char.
Proof.
  intros [Hk Hs]. destruct c as [[] [] [] [] [] [] [] []]; vm_compute in Hk; try discriminate Hk.
  all: split_and!; try done; first [by split|rewrite !not_elem_of_cons; by split_and!; try apply not_elem_of_nil|done].
Qed.
Lemma key_char_plain c : key_char c = true → (c ∉ [NL; CR; TAB; NUL_]) ∧ c ≠ ":"%char ∧ c ≠ "#"%char ∧ c ≠ DQ.
Proof.
  intros Hk. destruct c as [[] [] [] [] [] [] [] []]; vm_compute in Hk; try discriminate Hk.
  all: split_and!; try done; rewrite !not_elem_of_cons; by split_and!; try apply not_elem_of_nil.
Qed.
Lemma key_text_tail last t : sall (λ c, key_char c = true) t → plain_tail last t.
Proof.
  revert last. induction t as [|c t IH]; intros last; [done|]. intros [Hc Ht]. apply key_char_plain in Hc as (H1 & H2 & H3 & _).
  by split_and!; [..|apply IH].
Qed.

Lemma word_text t : sall word_char t → t ≠ "" → is_dash t = false → is_marker t = false → plain_text t.
Proof.
  intros Ht Hne Hd Hm. assert (sall (λ c, key_char c = true) t) as Hk by (eapply sall_impl; [|exact Ht]; by intros c []).
  split; [|done|by apply key_text_tail| |left|done].
  - destruct t as [|c t]; [done|]. destruct Ht as [Hc _]. by apply word_char_facts in Hc as [? _].
  - apply rtrim_id.
    + eapply sall_impl; [|exact Hk]. intros c Hc ->. done.
    + intros u ->. apply sall_app in Ht as [_ [[_ Hs] _]]. done.
  - eapply sall_impl; [|exact Hk]. intros c Hc. by apply key_char_plain in Hc as (_ & _ & _ & ?).
Qed.

Lemma digits_words t : sall digit_c t → sall word_char t.
Proof. apply sall_impl. intros c Hc. pose proof (digit_c_facts c Hc) as [_ Hk]. split; [done|]. intros ->. by destruct Hc. Qed.

Lemma numeral_text t n : numeral t n → plain_text t ∧ plain_text (String "-" t).
Proof.
  intros Ht. pose proof (nm_digits _ _ Ht) as Hd. pose proof (nm_first _ _ Ht) as Hf. destruct t as [|c t]; [done|].
  pose proof (digits_words _ Hd) as Hw. destruct Hd as [Hc _]. pose proof (digit_c_facts c Hc) as [(H1 & _ & _ & _ & H2 & _) _].
  apply isc_false in H1, H2. assert (c ≠ "%"%char) as H3 by (intros ->; by destruct Hc).
  split; apply word_text; [done..| | |by split|done| |].
  - cbn. by rewrite (proj2 (isc_false c "-") H1).
  - unfold is_marker. cbn [has_prefix]. rewrite !decide_False by congruence. done.
  - cbn. apply digits_words in Hc || idtac. destruct Hw as [Hw _]. apply word_char_facts in Hw as [[[Hw _] _] _]. unfold is_end. rewrite Hw.
    destruct (isc c NUL_) eqn:E; [|done]. apply isc_true in E as ->. by destruct Hc.
  - unfold is_marker. cbn [has_prefix]. rewrite (decide_False (P := "-"%char = c)) by congruence. done.
Qed.

Section scalars.
Context `{Runtime}.

(** The scalar [raw] stands for [v]: as a string if it is quoted, by resolution
    otherwise, without a warning. *)
Definition stands_for (raw : string) (q : bool) (v : value) : Prop :=
  if q then v = VString raw else ∀ opts at_ p, resolvePlain opts raw at_ p = inr (v, p).

Lemma resolveNumber_kind s v b : resolveNumber s = Some (v, b) → match v with VInt _ | VFloat _ => True | _ => False end.
Proof.
  assert (∀ sign body, number_body sign body = Some (v, b) → match v with VInt _ | VFloat _ => True | _ => False end) as Hb.
  { intros sign body. unfold number_body. repeat first [case_match|done]; intros E; simplify_option_eq; done. }
  unfold resolveNumber. repeat case_match; apply Hb.
Qed.
Lemma resolves_string s : resolves_to_itself s = true → stands_for s false (VString s).
Proof.
  unfold resolves_to_itself, stands_for. intros Hr opts at_ p. revert Hr. unfold resolvePlain.
  destruct (bool_decide (s = "")); [done|]. destruct (bool_decide (s ∈ _)); [done|]. destruct (bool_decide (s ∈ _)); [done|].
  destruct (bool_decide (s ∈ _)); [done|]. destruct (bool11 s); [done|]. destruct (isSexagesimal s); [intros [_ Hr]%andb_true_iff; by apply bool_decide_eq_true in Hr|].
  unfold number_at. destruct (resolveNumber s) as [[v []]|] eqn:E; [| |done].
  - pose proof (resolveNumber_kind s v true E) as Hv. by destruct v.
  - pose proof (resolveNumber_kind s v false E) as Hv. by destruct v.
Qed.

(** From the runes of a string to its bytes. *)
Lemma runes_sall (Q : rune → Prop) (R : ascii → Prop) s :
  ValidString s = true → Forall Q (runes s) → (∀ c, Q (byte_of c) → R c) → (∀ r c, Q r → 128 ≤ r → 128 ≤ byte_of c → R c) → sall R s.
Proof.
  intros Hv HQ Hlow Hhigh. destruct (valid_runes s Hv) as [E Hb]. rewrite E. clear E Hv. induction Hb as [|r l Hr _ IH]; [done|].
  apply Forall_cons in HQ as [Hq HQ]. cbn [fmap list_fmap concat_text foldr]. apply sall_app. split; [|by apply IH].
  unfold rune_text. destruct (Z.lt_ge_cases r 128) as [H128|H128].
  - unfold EncodeRune in *. rewrite (proj2 (Z.ltb_lt r 128) H128) in *. apply Forall_cons in Hr as [Hr _].
    split; [|done]. apply Hlow. by rewrite byte_of_ascii.
  - pose proof (EncodeRune_high r H128) as Hh. revert Hr Hh. generalize (EncodeRune r). intros bs. induction bs as [|b bs IHb]; [done|].
    intros [Hr1 Hr2]%Forall_cons [Hh1 Hh2]%Forall_cons. rewrite string_of_bytes_cons. split; [|by apply IHb].
    apply (Hhigh r); [done|done|]. by rewrite byte_of_ascii.
Qed.

Lemma no_escapes s : ValidString s = true → needsEscaping s = false → no_break s ∧ Forall (λ r, r ≠ 10 ∧ r ≠ 13) (runes s).
Proof.
  intros Hv He. assert (Forall (λ r, r ≠ 10 ∧ r ≠ 13) (runes s)) as Hr.
  { apply Forall_forall. intros r Hr. assert (¬ (r < 32)) as Hlt; [|lia]. intros Hlt. assert (needsEscaping s = true) as Ht; [|congruence].
    apply existsb_exists. exists r. split; [by apply list_elem_of_In|]. by rewrite (proj2 (Z.ltb_lt r 32) Hlt). }
  split; [|done]. eapply (runes_sall _ (λ c, c ≠ NL ∧ c ≠ CR)); [done|exact Hr| |].
  - intros c [Hc Hc']. split; intros ->; [by apply Hc|by apply Hc'].
  - intros r c _ _ Hc. split; intros ->; vm_compute in Hc; by apply Hc.
Qed.

Lemma Quote_flat s : ValidString s = true → yaml_Quote s = quoted_with DQ (bmap (by_byte quote_piece) s).
Proof.
  intros Hv. unfold yaml_Quote, quoted_with. rewrite concat_runes; [done| |done]. intros r Hr. unfold quote_piece.
  repeat match goal with |- context [r =? ?n] => rewrite (proj2 (Z.eqb_neq r n)) by lia end. by rewrite (proj2 (Z.ltb_ge r 32)) by lia.
Qed.
Lemma SingleQuote_flat s : ValidString s = true → needsEscaping s = false → SingleQuote s = quoted_with "'" (bmap (by_byte sq) s).
Proof.
  intros Hv He. destruct (no_escapes s Hv He) as [_ Hr]. unfold SingleQuote, quoted_with.
  rewrite single_pieces_flat by (eapply Forall_impl; [exact Hr|]; by intros r []).
  rewrite concat_runes; [done| |done]. intros r Hr'. unfold sq. by rewrite (proj2 (Z.eqb_neq r 39)) by lia.
Qed.

(** The strings that are written so that they read back: valid UTF-8, and if
    plain, no document marker and no double quote before a last backslash. *)
Definition plain_safe (s : string) : Prop := (sall (λ c, c ≠ DQ) s ∨ ∀ u, s ≠ u +:+ "\") ∧ is_marker s = false.
Definition string_ok (s : string) : Prop := ValidString s = true ∧ (needsQuoting s = false → plain_safe s).

Lemma writeString_written s : string_ok s → written (writeString s) s (needsQuoting s) ∧ stands_for s (needsQuoting s) (VString s).
Proof.
  intros [Hv Hp]. unfold writeString. destruct (needsQuoting s) eqn:En; cbn [negb].
  - split; [|done]. destruct (needsEscaping s) eqn:Ee; [rewrite Quote_flat by done; constructor|].
    rewrite SingleQuote_flat by done. constructor. by apply no_escapes.
  - destruct (Hp eq_refl) as [Hq Hm]. destruct (needs_no_quotes s En Hq Hm) as [Ht Hr]. split; [by constructor|by apply resolves_string].
Qed.

Definition int_ok (z : Z) : Prop := minInt64 < z ≤ maxInt64.
Definition word_ok (t : string) (v : value) : Prop := written t t false ∧ stands_for t false v ∧ sall (λ c, key_char c = true) t.

Lemma numeric_resolves t z : numeric t = true → isSexagesimal t = false → resolveNumber t = Some (VInt z, false) → stands_for t false (VInt z).
Proof.
  intros Hn Hs Hr opts at_ p. unfold resolvePlain. rewrite !bool_decide_false by (first [by apply numeric_not_in|by intros ->]).
  unfold bool11. rewrite !bool_decide_false by by apply numeric_not_in. rewrite Hs. unfold number_at. by rewrite Hr.
Qed.

Lemma contains_absent c s : sall (λ a, a ≠ c) s → contains (String c "") s = false.
Proof. induction s as [|a s IH]; [done|]. intros [Ha Hs]. cbn. rewrite decide_False by congruence. exact (IH Hs). Qed.
Lemma no_colon t : sall (λ c, key_char c = true) t → isSexagesimal t = false.
Proof.
  intros Ht. unfold isSexagesimal. rewrite contains_absent; [done|]. assert (sall (λ a, a ≠ ":"%char) t) as Hc.
  { eapply sall_impl; [|exact Ht]. intros c Hc. by apply key_char_plain in Hc as (_ & ? & _). }
  unfold TrimPrefix. repeat case_match; repeat apply sall_sdrop; done.
Qed.

Lemma int_word z : int_ok z → word_ok (FormatInt z) (VInt z).
Proof.
  intros Hz. unfold int_ok, minInt64, maxInt64 in Hz. unfold FormatInt. destruct z as [|n|n].
  - split_and!; [constructor; by apply (numeral_text "0" 0 (pretty_numeral 0 ltac:(unfold maxInt64; lia)))|by intros opts at_ p|by split_and!].
  - pose proof (pretty_numeral (Zpos n) ltac:(unfold maxInt64; lia)) as Hn. destruct (numeral_text _ _ Hn) as [Ht _].
    assert (sall (λ c, key_char c = true) (pretty (Zpos n))) as Hk by (eapply sall_impl; [|exact (nm_digits _ _ Hn)]; intros c Hc; by apply digit_c_facts).
    split_and!; [by constructor| |done]. apply numeric_resolves; [|by apply no_colon|by apply resolveNumber_numeral].
    pose proof (nm_first _ _ Hn). pose proof (nm_digits _ _ Hn) as Hd. destruct (pretty (Zpos n)); [done|]. destruct Hd as [Hd _].
    cbn. by rewrite (bool_decide_true _ Hd), orb_true_r.
  - pose proof (pretty_numeral (Zpos n) ltac:(unfold maxInt64; lia)) as Hn. destruct (numeral_text _ _ Hn) as [_ Ht]. rewrite pretty_neg.
    assert (sall (λ c, key_char c = true) (String "-" (pretty (Zpos n)))) as Hk.
    { split; [done|]. eapply sall_impl; [|exact (nm_digits _ _ Hn)]. intros c Hc. by apply digit_c_facts. }
    split_and!; [by constructor| |done]. apply numeric_resolves; [done|by apply no_colon|exact (resolveNumber_neg _ _ Hn)].
Qed.

(** Words that are written as they are: null and the booleans. *)
Lemma fixed_word v : match v with VNull | VBool _ => True | _ => False end → word_ok (writeScalar (λ _, "") v) v.
Proof.
  intros Hv. assert (∀ t, sall word_char t → t ≠ "" → is_dash t = false → is_marker t = false → (∀ opts at_ p, resolvePlain opts t at_ p = inr (v, p)) → word_ok t v) as Hgo.
  { intros t Ht Hne Hd Hm Hr. split_and!; [constructor; by apply word_text|done|]. eapply sall_impl; [|exact Ht]. by intros c []. }
  destruct v as [|[]| | | | | | | | | |]; try done; apply Hgo; try done; by split_and!.
Qed.

Definition scalar_ok (v : value) : Prop :=
  match v with VNull | VBool _ => True | VInt z => int_ok z | VString s => string_ok s | _ => False end.
(** Keys: a string that is quoted as a value may be plain as a key, and the
    merge key is never a key. *)
Definition key_ok (k : value) : Prop :=
  match k with
  | VString s => ValidString s = true ∧ s ≠ "<<" ∧ (plainSafeKey s = true → is_marker s = false)
  | _ => scalar_ok k
  end.

Context (base64_Encode : string → string).
Lemma scalar_written v : scalar_ok v → ∃ raw q, written (writeScalar base64_Encode v) raw q ∧ stands_for raw q v.
Proof.
  intros Hv. destruct v as [|b|z| |s| | | | | | |]; try done.
  - destruct (fixed_word VNull I) as (? & ? & _). by eexists _, _.
  - destruct (fixed_word (VBool b) I) as (? & ? & _). by eexists _, _.
  - destruct (int_word z Hv) as (? & ? & _). by eexists _, _.
  - unfold writeScalar. pose proof (proj1 Hv) as ->. eexists _, _. by apply writeString_written.
Qed.

Lemma key_rune_low r : 128 ≤ r → key_rune r = false.
Proof.
  intros Hr. unfold key_rune, in_range. repeat rewrite (proj2 (Z.leb_gt r _)) by lia.
  repeat match goal with |- context [r =? ?n] => rewrite (proj2 (Z.eqb_neq r n)) by lia end. by rewrite !andb_false_r.
Qed.
Lemma key_written k :
  key_ok k → ∃ raw q, written (writeKey base64_Encode k) raw q ∧ stands_for raw q k ∧ (q = false → sall (λ c, key_char c = true) (writeKey base64_Encode k)).
Proof.
  intros Hk. destruct k as [|b|z| |s| | | | | | |]; try done.
  - destruct (fixed_word VNull I) as (? & ? & ?). by eexists _, _.
  - destruct (fixed_word (VBool b) I) as (? & ? & ?). by eexists _, _.
  - destruct (int_word z Hk) as (? & ? & ?). by eexists _, _.
  - destruct Hk as (Hv & _ & Hm). unfold writeKey. destruct (plainSafeKey s) eqn:Ep; [|eexists s, true; split_and!; [rewrite Quote_flat by done; constructor|done..]].
    unfold plainSafeKey in Ep. destruct (needsQuoting s) eqn:En; [done|]. rewrite Hv in Ep. cbn [orb negb] in Ep.
    assert (sall (λ c, key_char c = true) s) as Hc.
    { eapply (runes_sall (λ r, key_rune r = true)); [done| |done|].
      - apply Forall_forall. intros r Hr. apply (proj1 (forallb_forall _ _) Ep). by apply list_elem_of_In.
      - intros r c Hr Hh _. by rewrite key_rune_low in Hr. }
    assert (string_ok s) as Hs.
    { split; [done|]. intros _. split; [left|by apply Hm]. eapply sall_impl; [|exact Hc]. intros c Hcc. by apply key_char_plain in Hcc as (_ & _ & _ & ?). }
    destruct (writeString_written s Hs) as [Hw Hst]. unfold writeScalar. rewrite Hv. exists s, false. rewrite En in *. split_and!; [done|done|].
    intros _. unfold writeString. by rewrite En.
Qed.
End scalars.

(** ** Valid UTF-8

    Text is made of the encodings of runes, so that joining and quoting keep it
    valid. *)

Definition valid_utf8 (l : list Z) : Prop := forallb snd (decode_go 0 l) = true.

(** A valid sequence of bytes begins with a rune. *)
Lemma valid_cons b l :
  valid_utf8 (b :: l) →
  ∃ c w, (pred w ≤ length l)%nat ∧ b :: take (pred w) l = EncodeRune c ∧ valid_utf8 (drop (pred w) l) ∧
         ∀ l', valid_utf8 l' → valid_utf8 ((b :: take (pred w) l) ++ l').
Proof.
  unfold valid_utf8. cbn [decode_go]. destruct (DecodeRune b l) as [[c w] ok] eqn:E. cbn [forallb snd]. intros [-> Hv]%andb_true_iff.
  destruct (DecodeRune_prefix _ _ _ _ E) as [Hw Hl]. exists c, w. split_and!; [done|by apply DecodeRune_Encode in E as [_ ?]|by rewrite decode_go_skip in Hv|].
  intros l' Hl'. cbn [app decode_go]. rewrite Hl. cbn [forallb snd]. rewrite decode_go_skip, drop_app_length'; [done|]. rewrite length_take. lia.
Qed.
Lemma valid_utf8_app l l' : valid_utf8 l → valid_utf8 l' → valid_utf8 (l ++ l').
Proof.
  intros Hl Hl'. remember (length l) as n eqn:En. revert l En Hl. induction n as [n IH] using lt_wf_ind. intros [|b l] -> Hl; [done|].
  destruct (valid_cons b l Hl) as (c & w & Hw & _ & Hd & Hp). rewrite <- (take_drop (pred w) l) at 1. change (b :: ?x ++ ?y) with ((b :: x) ++ y).
  rewrite <- app_assoc. apply Hp. eapply IH; [|done|done]. rewrite length_drop. cbn. lia.
Qed.
Lemma ValidString_app s t : ValidString s = true → ValidString t = true → ValidString (s +:+ t) = true.
Proof. intros Hs Ht. unfold ValidString. rewrite bytes_app. by apply valid_utf8_app. Qed.
Lemma ValidString_ascii s : sall (λ c, byte_of c < 128) s → ValidString s = true.
Proof.
  induction s as [|c s IH]; [done|]. intros [Hc Hs]. unfold ValidString, bytes. cbn [list_ascii_of_string fmap list_fmap decode_go].
  unfold DecodeRune. rewrite (proj2 (Z.ltb_lt _ _) Hc). exact (IH Hs).
Qed.

Lemma bytes_string l : Forall (λ b, 0 ≤ b < 256) l → bytes (string_of_bytes l) = l.
Proof.
  induction 1 as [|b l Hb _ IH]; [done|]. rewrite string_of_bytes_cons. unfold bytes. cbn [list_ascii_of_string fmap list_fmap].
  rewrite byte_of_ascii by done. exact (f_equal (cons b) IH).
Qed.

(** Replacing ASCII by valid text keeps the text valid. *)
Lemma ValidString_bmap f s :
  (∀ c, byte_of c < 128 → ValidString (f (byte_of c)) = true) → ValidString s = true → ValidString (bmap (by_byte f) s) = true.
Proof.
  intros Hf Hs. rewrite <- (string_of_bytes_bytes s). pose proof (bytes_range s) as Hr. unfold ValidString in Hs. fold (valid_utf8 (bytes s)) in Hs.
  revert Hr Hs. generalize (bytes s). clear s. intros l. remember (length l) as n eqn:En. revert l En.
  induction n as [n IH] using lt_wf_ind. intros [|b l] -> Hr Hs; [done|].
  destruct (valid_cons b l Hs) as (c & w & Hw & Ec & Hd & Hp). rewrite <- (take_drop (pred w) l). change (b :: ?x ++ ?y) with ((b :: x) ++ y).
  rewrite <- (take_drop (pred w) l) in Hr. change (b :: ?x ++ ?y) with ((b :: x) ++ y) in Hr. apply Forall_app in Hr as [Hr1 Hr2].
  rewrite string_of_bytes_app, bmap_app. apply ValidString_app; [|eapply IH; [|done..]; rewrite length_drop; cbn; lia].
  pose proof (Hp [] eq_refl) as Hv. rewrite app_nil_r, Ec in *. destruct (Z.lt_ge_cases c 128) as [Hc|Hc].
  - unfold EncodeRune in *. rewrite (proj2 (Z.ltb_lt c 128) Hc) in *. apply Forall_cons in Hr1 as [Hr1 _].
    cbn [string_of_bytes fmap list_fmap string_of_list_ascii bmap]. rewrite string_app_nil_r. unfold by_byte. pose proof (byte_of_ascii c Hr1) as Eb.
    rewrite Eb, (proj2 (Z.ltb_lt c 128) Hc), <- Eb. apply Hf. lia.
  - rewrite bmap_high.
    + unfold ValidString. by rewrite bytes_string.
    + pose proof (EncodeRune_high c Hc) as Hh. apply Forall_and. split; [done|]. eapply Forall_impl; [exact Hr1|]. cbn. lia.
    + intros a Ha. unfold by_byte. by rewrite (proj2 (Z.ltb_ge _ _) Ha).
Qed.
