(* ===== verification/YamlRound.v ===== *)
(** * YAML: a tree is read as it is written

    Encode (encode.go) writes a value in block style; Parse (parse.go, block.go,
    collection.go) reads the same value back, but for the positions it records.

    [node v i] is the text of a value whose lines start [i] spaces in; the
    encoder writes it, and the parser is followed over it. *)

From S2P Require Import Prelude GoLib GoTime Value YamlScalar YamlParse YamlEncode YamlText.

Open Scope Z_scope.

(** ** Induction on values *)

Definition is_leaf (v : value) : Prop := match v with VSeq _ | VMap _ => False | _ => True end.
Lemma value_tree_ind (Q : value → Prop) :
  (∀ v, is_leaf v → Q v) → (∀ l, Forall Q l → Q (VSeq l)) → (∀ m, Forall (λ e, Q (Val e)) (entries m) → Q (VMap m)) → ∀ v, Q v.
Proof.
  intros Hleaf Hseq Hmap. fix IH 1. intros v. destruct v as [| | | | | | |l|m| | |]; try (by apply Hleaf).
  - apply Hseq. induction l as [|x l IHl]; constructor; [apply IH|exact IHl].
  - apply Hmap. destruct m as [es idx at_]. cbn [entries]. induction es as [|[k x kp vp] es IHes]; constructor; [exact (IH x)|exact IHes].
Qed.

(** ** What is kept of a value: all but the positions *)

Fixpoint erase (v : value) : value :=
  match v with
  | VSeq l => VSeq (erase <$> l)
  | VMap m => VMap (mkMap ((λ e, mkEntry (Key e) (erase (Val e)) noPos noPos) <$> entries m) (index m) noPos)
  | _ => v
  end.
Definition bare (e : Entry) : Entry := mkEntry (Key e) (erase (Val e)) noPos noPos.

Section text.
Context `{Runtime} (base64_Encode : string → string).
Abbreviation writeScalar := (writeScalar base64_Encode).
Abbreviation writeKey := (writeKey base64_Encode).
Abbreviation write := (write base64_Encode).

(** ** The text *)

Definition is_nested (v : value) : bool :=
  match v with VMap m => bool_decide (entries m ≠ []) | VSeq l => bool_decide (l ≠ []) | _ => false end.
(** Where the lines of a value start that hangs off a key: a sequence where the
    key does. *)
Definition inner (v : value) (i : nat) : nat := match v with VMap _ => i + 2 | _ => i end.
(** After a key: on lines of its own, or on the line of the key. *)
Definition hang (v : value) (i : nat) (text : nat → string) : string :=
  if is_nested v then nl +:+ pad (inner v i) +:+ text (inner v i) else " " +:+ text i.

(** The lines of a mapping and of a sequence; [text] is the text of a value. *)
Definition ents_with (text : value → nat → string) (i : nat) :=
  fix go (es : list Entry) : string :=
    match es with
    | [] => ""
    | e :: es' => writeKey (Key e) +:+ ":" +:+ hang (Val e) i (text (Val e)) +:+ match es' with [] => "" | _ => pad i +:+ go es' end
    end.
Definition itms_with (text : value → nat → string) (i : nat) :=
  fix go (l : list value) : string :=
    match l with
    | [] => ""
    | x :: l' => "- " +:+ text x (i + 2)%nat +:+ match l' with [] => "" | _ => pad i +:+ go l' end
    end.
Fixpoint node (v : value) (i : nat) : string :=
  match v with
  | VMap m => match entries m with [] => "{}" +:+ nl | es => ents_with node i es end
  | VNilMap => "{}" +:+ nl
  | VSeq l => match l with [] => "[]" +:+ nl | _ => itms_with node i l end
  | _ => writeScalar v +:+ nl
  end.
Abbreviation ents := (ents_with node).
Abbreviation itms := (itms_with node).

Lemma node_map m i : entries m ≠ [] → node (VMap m) i = ents i (entries m).
Proof. intros Hne. cbn [node]. by destruct (entries m). Qed.
Lemma node_seq l i : l ≠ [] → node (VSeq l) i = itms i l.
Proof. intros Hne. cbn [node]. by destruct l. Qed.

(** The encoder writes it. *)
Definition plain_opts : EncodeOptions := mkEncode 2 false 0.
Lemma never_full b : full plain_opts b = false.
Proof. done. Qed.

Definition written_at (at_ : place) (v : value) (i : nat) : string :=
  match at_ with
  | Block => (if is_nested v then pad i else "") +:+ node v i
  | Child => hang v i (node v)
  | Item => " " +:+ node v (i + 2)
  end.

Abbreviation writes_at at_ := (λ v, ∀ i b, write plain_opts at_ v i b = b +:+ written_at at_ v i).

Lemma entries_text es i first b :
  Forall (λ e, writes_at Child (Val e)) es → es ≠ [] →
  entries_at base64_Encode plain_opts (λ x i b, write plain_opts Child x i b) i first es b = b +:+ (if first then " " else pad i) +:+ ents i es.
Proof.
  intros Hes. revert first b. induction Hes as [|e es He _ IH]; intros first b Hne; [done|].
  cbn [entries_at ents_with]. rewrite never_full, He. cbn [written_at]. destruct es as [|e' es].
  - cbn [entries_at]. by rewrite !string_app_assoc, string_app_nil_r.
  - rewrite IH by done. by rewrite !string_app_assoc.
Qed.
Lemma items_text l i first b :
  Forall (writes_at Item) l → l ≠ [] →
  items_at plain_opts (λ x i b, write plain_opts Item x i b) i first l b = b +:+ (if first then " " else pad i) +:+ itms i l.
Proof.
  intros Hl. revert first b. induction Hl as [|x l Hx _ IH]; intros first b Hne; [done|].
  cbn [items_at itms_with]. rewrite never_full, Hx. cbn [written_at]. destruct l as [|y l].
  - cbn [items_at]. by rewrite !string_app_assoc, string_app_nil_r.
  - rewrite IH by done. by rewrite !string_app_assoc.
Qed.

Lemma write_text v at_ : writes_at at_ v.
Proof.
  revert at_. induction v as [v Hv|l IH|m IH] using value_tree_ind; intros at_ i b.
  - destruct v, at_; try done; cbn -[append]; rewrite ?string_app_assoc; done.
  - destruct l as [|x l]; [by destruct at_|].
    assert (Forall (writes_at Item) (x :: l)) as Hi by (eapply Forall_impl; [exact IH|]; intros y Hy; apply Hy).
    destruct at_; cbn [write eIndent plain_opts]; rewrite ?never_full; rewrite items_text by done; cbn [written_at]; rewrite ?string_app_assoc; done.
  - destruct m as [es idx at0]. cbn [entries] in IH. destruct es as [|e es]; [by destruct at_|].
    assert (Forall (λ e, writes_at Child (Val e)) (e :: es)) as Hi by (eapply Forall_impl; [exact IH|]; intros y Hy; apply Hy).
    destruct at_; cbn [write eIndent plain_opts entries]; rewrite ?never_full; rewrite entries_text by done; cbn [written_at]; rewrite ?string_app_assoc; done.
Qed.

Lemma Encode_text v : Encode base64_Encode v plain_opts = written_at Block v 0.
Proof. exact (write_text v Block 0%nat ""). Qed.
End text.

(** ** The values that read back

    Nulls, booleans, integers and strings, in sequences and mappings whose keys
    are such scalars; a mapping is well formed. *)

Section storable.
Context `{Runtime}.
Fixpoint storable (v : value) : Prop :=
  match v with
  | VSeq l => (fix go (l : list value) : Prop := match l with [] => True | x :: l' => storable x ∧ go l' end) l
  | VMap m =>
      map_wf m ∧
      (fix go (es : list Entry) : Prop := match es with [] => True | e :: es' => (key_ok (Key e) ∧ storable (Val e)) ∧ go es' end) (entries m)
  | _ => scalar_ok v
  end.
Definition entry_ok (e : Entry) : Prop := key_ok (Key e) ∧ storable (Val e).
Lemma storable_seq l : storable (VSeq l) ↔ Forall storable l.
Proof.
  induction l as [|x l IH]; [by split|]. rewrite Forall_cons, <- IH. done.
Qed.
Lemma storable_map m : storable (VMap m) ↔ map_wf m ∧ Forall entry_ok (entries m).
Proof.
  assert (∀ es : list Entry, (fix go (es : list Entry) : Prop := match es with [] => True | e :: es' => (key_ok (Key e) ∧ storable (Val e)) ∧ go es' end) es ↔ Forall entry_ok es) as Hes.
  { induction es as [|e es IH]; [by split|]. rewrite Forall_cons, <- IH. done. }
  cbn [storable]. by rewrite Hes.
Qed.

(** How many levels the parser needs: one for a scalar, two for an empty
    collection, which is read as a flow collection. *)
Fixpoint height (v : value) : nat :=
  match v with
  | VSeq l => S (1 `max` max_list (height <$> l))
  | VMap m => S (1 `max` max_list ((λ e, height (Val e)) <$> entries m))
  | _ => 1
  end.
Lemma height_pos v : (1 ≤ height v)%nat.
Proof. destruct v; cbn; lia. Qed.
Lemma height_seq l n : (height (VSeq l) ≤ S n)%nat → (1 ≤ n)%nat ∧ Forall (λ x, height x ≤ n)%nat l.
Proof.
  cbn [height]. intros Hh. split; [lia|]. apply Forall_forall. intros x Hx.
  assert (height x ≤ max_list (height <$> l))%nat; [|lia]. apply max_list_elem_of_le. by apply list_elem_of_fmap_2.
Qed.
Lemma height_map m n : (height (VMap m) ≤ S n)%nat → (1 ≤ n)%nat ∧ Forall (λ e, height (Val e) ≤ n)%nat (entries m).
Proof.
  cbn [height]. intros Hh. split; [lia|]. apply Forall_forall. intros e He.
  assert (height (Val e) ≤ max_list ((λ e, height (Val e)) <$> entries m))%nat; [|lia].
  apply max_list_elem_of_le. apply list_elem_of_fmap. eauto.
Qed.

Definition count_seq (l : list value) : Z := foldr (λ x n, countNodes x + n) 0 l.
Definition count_map (es : list Entry) : Z := foldr (λ e n, 1 + countNodes (Val e) + n) 0 es.
Lemma countNodes_seq l : countNodes (VSeq l) = 1 + count_seq l.
Proof. cbn [countNodes]. f_equal. Qed.
Lemma countNodes_map m : countNodes (VMap m) = 1 + count_map (entries m).
Proof. cbn [countNodes]. f_equal. Qed.
Lemma countNodes_pos v : 1 ≤ countNodes v.
Proof.
  induction v as [v Hv|l IH|m IH] using value_tree_ind; [by destruct v|rewrite countNodes_seq|rewrite countNodes_map].
  - assert (0 ≤ count_seq l); [|lia]. induction IH as [|x l Hx _ IH]; cbn; [lia|]. unfold count_seq in IH. lia.
  - assert (0 ≤ count_map (entries m)); [|lia]. induction IH as [|x l Hx _ IH]; cbn; [lia|]. unfold count_map in IH. lia.
Qed.
Lemma count_seq_nonneg l : 0 ≤ count_seq l.
Proof. induction l as [|x l IH]; cbn; [lia|]. pose proof (countNodes_pos x). unfold count_seq in IH. lia. Qed.
Lemma count_map_nonneg es : 0 ≤ count_map es.
Proof. induction es as [|e es IH]; cbn; [lia|]. pose proof (countNodes_pos (Val e)). unfold count_map in IH. lia. Qed.
End storable.

(** ** Following the parser *)

Section reading.
Context `{Runtime} (base64_Encode : string → string) (base64_Decode : string → option string) (time_Parse : string → string → option Z).
Context (opts : Options).
Abbreviation node := (node base64_Encode).
Abbreviation ents := (ents_with base64_Encode node).
Abbreviation itms := (itms_with node).
Abbreviation writeKey := (writeKey base64_Encode).
Abbreviation value_at := (parseBlockValue opts base64_Decode time_Parse).
Abbreviation flow := (parseFlow opts base64_Decode time_Parse).
Abbreviation applyTag := (applyTag opts base64_Decode time_Parse).
Abbreviation node_at := (node_at opts base64_Decode time_Parse).

Lemma hang_white v i t k : ∃ w u, hang v i t +:+ k = String w u ∧ is_white w = true.
Proof. unfold hang. destruct (is_nested v); by eexists _, _. Qed.

(** How the text of a mapping starts: with its first key. *)
Lemma ents_key i e es k : ∃ w u, ents i (e :: es) +:+ k = writeKey (Key e) +:+ String ":" (String w u) ∧ is_white w = true.
Proof.
  destruct (hang_white (Val e) i (node (Val e)) (match es with [] => "" | _ => pad i +:+ ents i es end +:+ k)) as (w & u & E & Hw).
  exists w, u. split; [|done]. cbn [ents_with]. rewrite !string_app_assoc, E. done.
Qed.
Lemma ents_first i e es k :
  key_ok (Key e) →
  ∃ c r, ents i (e :: es) +:+ k = String c r ∧ starts c ∧ (c ∉ ["*"; "&"; "!"; "["; "{"; "|"; ">"; "?"]%char)
         ∧ is_dash (ents i (e :: es) +:+ k) = false ∧ is_marker (ents i (e :: es) +:+ k) = false.
Proof.
  intros Hk. destruct (ents_key i e es k) as (w & u & -> & Hw). destruct (key_written base64_Encode (Key e) Hk) as (raw & q & Hwr & _).
  eapply written_first; [done|]. right. by eexists _, _.
Qed.
Lemma itms_first i x l k : ∃ r, itms i (x :: l) +:+ k = String "-" (String " " r).
Proof. cbn [itms_with]. rewrite string_app_assoc. by eexists. Qed.

(** Every value starts with something, and not with a property or a block
    scalar. *)
Lemma node_first v i j s :
  storable v →
  ∃ c r, node v i +:+ pad j +:+ s = String c r ∧ starts c ∧ (c ∉ ["&"; "!"; "|"; ">"]%char) ∧ is_marker (node v i +:+ pad j +:+ s) = false.
Proof.
  intros Hv.
  assert (∀ c, (c ∉ ["*"; "&"; "!"; "["; "{"; "|"; ">"; "?"]%char) → c ∉ ["&"; "!"; "|"; ">"]%char) as Hsub.
  { intros c. rewrite !not_elem_of_cons. intros Hn. destruct_and! Hn. by split_and!; try apply not_elem_of_nil. }
  assert (scalar_ok v → node v i = YamlEncode.writeScalar base64_Encode v +:+ nl →
    ∃ c r, node v i +:+ pad j +:+ s = String c r ∧ starts c ∧ (c ∉ ["&"; "!"; "|"; ">"]%char) ∧ is_marker (node v i +:+ pad j +:+ s) = false) as Hsc.
  { intros Hs ->. rewrite string_app_assoc. destruct (scalar_written base64_Encode v Hs) as (raw & q & Hw & _).
    destruct (written_first _ _ _ (nl +:+ pad j +:+ s) Hw ltac:(left; by eexists _, _)) as (c & r & E & Hc & Hn & _ & Hm).
    exists c, r. auto. }
  destruct v as [| | | | | | |l|m| | |]; try done; try (by apply Hsc).
  - destruct l as [|x l]; [|rewrite node_seq by done; destruct (itms_first i x l (pad j +:+ s)) as [r ->]];
      (eexists _, _; split_and!; [done|by split| |done]; rewrite !not_elem_of_cons; by split_and!; try apply not_elem_of_nil).
  - apply storable_map in Hv as [_ Hv]. destruct (entries m) as [|e es] eqn:Ee.
    + cbn [YamlRound.node]. rewrite Ee. eexists _, _; split_and!; [done|by split| |done]; rewrite !not_elem_of_cons; by split_and!; try apply not_elem_of_nil.
    + rewrite node_map by (by rewrite Ee). rewrite Ee. apply Forall_cons in Hv as [[Hk _] _].
      destruct (ents_first i e es (pad j +:+ s) Hk) as (c & r & E & Hc & Hn & _ & Hm). exists c, r. auto.
Qed.

Lemma not_boundary p : is_marker (rest p) = false → atDocBoundary p = false.
Proof.
  intros Hm. unfold atDocBoundary, atDocStart, atDocEnd, atDirectiveLine, markerEnd, eof, peek. destruct (col p =? 1); [|done].
  unfold is_marker in Hm. apply orb_false_iff in Hm as [Hm Hp]. cbn [andb]. rewrite <- andb_orb_distrib_l, Hm. cbn [orb].
  destruct (rest p) as [|c s]; [done|]. cbn [negb andb]. cbn [has_prefix] in Hp. unfold isc. case_bool_decide as Hb; [|done]. by subst c.
Qed.

(** At the first character of a value. *)
Definition no_props (p : pst) : nodeProps := mkProps "" "" (pos opts p).
Lemma value_start levels minIndent parentIndent inline p c r :
  rest p = String c r → starts c → (c ∉ ["&"; "!"; "|"; ">"]%char) → is_marker (rest p) = false → minIndent ≤ col p →
  value_at (S levels) minIndent parentIndent inline p =
    node_at (value_at levels) (flow levels) parentIndent inline p (no_props p) p.
Proof.
  intros E Hc Hn Hm Hcol. cbn [parseBlockValue]. unfold mbind at 1 2 3, P_bind at 1 2 3. cbn [get].
  rewrite (skipBlank_here opts p) by (by rewrite E). cbn [id].
  assert (eof p = false) as He by (unfold eof; by rewrite E). rewrite He, (not_boundary p Hm), (proj2 (Z.ltb_ge _ _) Hcol). cbn [orb].
  rewrite !not_elem_of_cons in Hn. destruct_and! Hn.
  assert (readProps opts minIndent p = inr (no_props p, p)) as Hr.
  { unfold readProps. cbn [read_props]. unfold peek. rewrite E. by rewrite !(proj2 (isc_false c _)) by done. }
  unfold mbind at 1 2 3, P_bind at 1 2 3. rewrite Hr, (skipBlank_here opts p) by (by rewrite E). cbn [get id].
  cbn [npPos no_props pos Line]. rewrite !Z.eqb_refl, He. cbn [negb andb]. rewrite (proj2 (Z.ltb_ge _ _) Hcol). cbn [orb]. by rewrite andb_true_r.
Qed.

Lemma peek_is p c r : rest p = String c r → peek p = c.
Proof. intros E. unfold peek. by rewrite E. Qed.
Lemma dash_is p : is_dash (rest p) = false → isBlockSeqEntry p = false.
Proof.
  unfold is_dash, isBlockSeqEntry, peek, peekAt. destruct (rest p) as [|c [|d r]]; [done| |done]. cbn [sdrop].
  rewrite andb_true_r. by intros ->.
Qed.

(** What a reader gives back for [v] when the line after it starts with [s], [j]
    spaces in. *)
Definition reads (v : value) (p : pst) (j : nat) (s : string) (r : (yerr * pst) + (value * pst)) : Prop :=
  ∃ v' q, r = inr (v', q) ∧ erase v' = erase v ∧ lands q j s ∧ same_books p q ∧ nodes q = nodes p + countNodes v.

Lemma count_ok p n : nodes p + n ≤ oMaxNodes opts → 1 ≤ n → count opts p = inr (tt, add_nodes 1 p).
Proof. intros Hn H1. unfold count. by rewrite (proj2 (Z.ltb_ge _ _)) by (cbn; lia). Qed.

(** Scalars. *)
Lemma scalar_reads v levels minIndent parentIndent inline p i j s :
  scalar_ok v → node v i = YamlEncode.writeScalar base64_Encode v +:+ nl → countNodes v = 1 → erase v = v →
  rest p = node v i +:+ pad j +:+ s → minIndent ≤ col p → nodes p + 1 ≤ oMaxNodes opts → follow parentIndent true j s →
  reads v p j s (value_at (S levels) minIndent parentIndent inline p).
Proof.
  intros Hv En Hcn Hev E Hcol Hnodes Hf. rewrite En, string_app_assoc in E.
  destruct (scalar_written base64_Encode v Hv) as (raw & q & Hw & Hst). set (t := YamlEncode.writeScalar base64_Encode v) in *.
  destruct (written_first t raw q (nl +:+ pad j +:+ s) Hw ltac:(left; by eexists _, _)) as (c & r & Ec & Hc & Hn & Hd & Hm).
  rewrite <- E in Hd, Hm. rewrite Ec in E. assert (rest p = t +:+ nl +:+ pad j +:+ s) as E' by congruence.
  assert (c ∉ ["&"; "!"; "|"; ">"]%char) as Hn' by (rewrite !not_elem_of_cons in *; destruct_and! Hn; by split_and!; try apply not_elem_of_nil).
  rewrite (value_start _ _ _ _ p c r E Hc Hn' Hm Hcol). unfold YamlParse.node_at. unfold mbind at 1, P_bind at 1. cbn [get id].
  rewrite !not_elem_of_cons in Hn. destruct_and! Hn. rewrite (peek_is p c r E), (dash_is p Hd).
  rewrite !(proj2 (isc_false c _)) by done. cbn [orb andb]. unfold lineIsMappingEntry. rewrite E'.
  rewrite (written_not_entry opts t raw q (pad j +:+ s) Hw : mapping_entry "" 0 0 (t +:+ nl +:+ pad j +:+ s) = false).
  unfold mbind, P_bind. rewrite (scalar_value opts t raw q p (parentIndent + 1) j s Hw E') by (by replace (parentIndent + 1 - 1) with parentIndent by lia).
  destruct (advances_books (String.length t) p) as [Hb Hnn]. fold (after t p) in *.
  rewrite (count_ok (after t p) 1) by lia. change (npTag (no_props p)) with "".
  assert (applyTag "" raw q (npPos (no_props p)) (add_nodes 1 (after t p)) = inr (v, add_nodes 1 (after t p))) as ->.
  { unfold YamlScalar.applyTag. rewrite bool_decide_true by done. destruct q; [cbn in Hst; by rewrite Hst|apply Hst]. }
  exists v, (add_nodes 1 (after t p)). split_and!; [done|done|left; exact (after_rest t _ p E')|exact Hb|]. rewrite Hcn. cbn. lia.
Qed.

(** Empty collections, written as flow collections. *)
Lemma skipFlowBlank_close p c k : rest p = String c k → c = "}"%char ∨ c = "]"%char → skipFlowBlank opts p = inr (tt, p).
Proof.
  intros E Hc. unfold skipFlowBlank. cbn [skip_flow_blank]. unfold eof, peek, atDocStart, atDocEnd. rewrite E.
  destruct Hc as [-> | ->]; cbn; by rewrite !andb_false_r.
Qed.
Lemma empty_map_flow levels p k :
  rest p = String "{" (String "}" k) → nodes p + 1 ≤ oMaxNodes opts →
  flow (S levels) p = inr (VMap (mkMap [] ∅ (pos opts p)), advance (add_nodes 1 (advance p))).
Proof.
  intros E Hn. cbn [parseFlow]. unfold mbind, P_bind, next. cbn [get id]. rewrite (peek_is p _ _ E).
  change (isc "{" "[") with false. rewrite isc_refl, E. pose proof (advance_rest _ _ _ E) as E1.
  pose proof (proj2 (advance_books p)) as Hp. rewrite (count_ok (advance p) 1) by lia. cbn [get id flow_map].
  assert (rest (add_nodes 1 (advance p)) = String "}" k) as E2 by exact E1.
  unfold mbind, P_bind. rewrite (skipFlowBlank_close _ _ _ E2) by auto. cbn [get id]. unfold eof. rewrite E2, (peek_is _ _ _ E2), isc_refl.
  unfold next. by rewrite E2.
Qed.
Lemma empty_seq_flow levels p k :
  rest p = String "[" (String "]" k) → nodes p + 1 ≤ oMaxNodes opts →
  flow (S levels) p = inr (VSeq [], advance (add_nodes 1 (advance p))).
Proof.
  intros E Hn. cbn [parseFlow]. unfold mbind, P_bind, next. cbn [get id]. rewrite (peek_is p _ _ E), isc_refl, E. pose proof (advance_rest _ _ _ E) as E1.
  pose proof (proj2 (advance_books p)) as Hp. rewrite (count_ok (advance p) 1) by lia. cbn [get id flow_seq].
  assert (rest (add_nodes 1 (advance p)) = String "]" k) as E2 by exact E1.
  unfold mbind, P_bind. rewrite (skipFlowBlank_close _ _ _ E2) by auto. cbn [get id]. unfold eof. rewrite E2, (peek_is _ _ _ E2), isc_refl.
  unfold next. by rewrite E2.
Qed.
Lemma trailer_at_break p k : rest p = nl +:+ k → skipInlineTrailer opts p = inr (tt, advance p).
Proof.
  intros E. change (nl +:+ k) with (String NL k) in E. unfold skipInlineTrailer, skipSpaces, mbind, P_bind, modify.
  assert (advances (span is_blank (rest p)) p = p) as -> by (by rewrite E). cbn [get id]. unfold eof. by rewrite (peek_is _ _ _ E), E.
Qed.

Lemma advance_at_break p k : rest p = nl +:+ k → rest (advance p) = k ∧ col (advance p) = 1.
Proof. intros E. split; [by apply (advance_rest NL)|]. unfold advance. by rewrite E. Qed.

Lemma tagged_plain p0 k m p : tagged (no_props p0) k m p = match m p with inl e => inl e | inr (v, q) => inr (v, q) end.
Proof. unfold tagged, mbind, P_bind. destruct (m p) as [|[v q]]; done. Qed.

(** From the flow collection over the end of its line. *)
Lemma empty_reads v v' levels minIndent parentIndent inline o c p j s :
  (o = "{" ∧ c = "}" ∨ o = "[" ∧ c = "]")%char → rest p = String o (String c (nl +:+ pad j +:+ s)) → minIndent ≤ col p →
  flow levels p = inr (v', advance (add_nodes 1 (advance p))) → erase v' = erase v → countNodes v = 1 →
  reads v p j s (value_at (S levels) minIndent parentIndent inline p).
Proof.
  intros Hoc E Hcol Hf Hv Hn.
  assert (starts o ∧ (o ∉ ["&"; "!"; "|"; ">"]%char) ∧ is_marker (rest p) = false ∧ is_dash (rest p) = false) as (Hc & Hno & Hm & Hd).
  { rewrite E. destruct Hoc as [[-> ->]|[-> ->]]; (split_and!; [by split| |done|done]); rewrite !not_elem_of_cons; by split_and!; try apply not_elem_of_nil. }
  rewrite (value_start _ _ _ _ p _ _ E Hc Hno Hm Hcol). unfold YamlParse.node_at. unfold mbind at 1, P_bind at 1. cbn [get id].
  rewrite (peek_is p _ _ E), (dash_is p Hd). set (p3 := advance (add_nodes 1 (advance p))) in *.
  assert (rest p3 = nl +:+ pad j +:+ s) as E3 by (apply (advance_rest c); exact (advance_rest _ _ _ E)).
  assert ((mbind (λ v, skipInlineTrailer opts;; mret v) (flow levels)) p = inr (v', advance p3)) as Hr.
  { unfold mbind, P_bind. rewrite Hf. by rewrite (trailer_at_break _ _ E3). }
  destruct (advance_at_break p3 _ E3) as [E4 C4].
  exists v', (advance p3). split_and!; [|done|by right; left| |].
  - destruct Hoc as [[-> ->]|[-> ->]]; isc_compute; rewrite tagged_plain, Hr; done.
  - transitivity p3; [|apply advance_books]. transitivity (advance p); [apply advance_books|]. exact (proj1 (advance_books (add_nodes 1 (advance p)))).
  - rewrite Hn. rewrite (proj2 (advance_books p3)). unfold p3. rewrite (proj2 (advance_books _)). cbn. rewrite (proj2 (advance_books p)). done.
Qed.

(** ** Collections *)

(** Where a value may be read: the lines after it do not belong to it. *)
Definition place_ok (v : value) (parentIndent : Z) (i : nat) (inline : bool) (p : pst) (j : nat) (s : string) : Prop :=
  if is_nested v then
    inline = false ∧ col p = Z.of_nat i + 1 ∧
    match v with VMap _ => follow (Z.of_nat i - 1) true j s | _ => follow (Z.of_nat i) false j s end
  else follow parentIndent true j s.

Definition room (v : value) (levels : nat) (p : pst) : Prop :=
  storable v ∧ (height v ≤ levels)%nat ∧ markerLine p = 0 ∧ nodes p + countNodes v ≤ oMaxNodes opts.

Definition value_read (v : value) : Prop := ∀ levels minIndent parentIndent inline p i j s,
  room v levels p → rest p = node v i +:+ pad j +:+ s → minIndent ≤ col p → place_ok v parentIndent i inline p j s →
  reads v p j s (value_at levels minIndent parentIndent inline p).

(** The line after a sequence or a mapping, or the next line of it. *)
Definition seq_line (i : nat) (l : list value) (j : nat) (s : string) : nat * string :=
  match l with [] => (j, s) | _ => (i, itms i l +:+ pad j +:+ s) end.

Lemma itms_split i x l j s :
  itms i (x :: l) +:+ pad j +:+ s = String "-" (String " " (node x (i + 2) +:+ pad (seq_line i l j s).1 +:+ (seq_line i l j s).2)).
Proof.
  cbn [itms_with]. destruct l as [|y l]; cbn [seq_line fst snd]; rewrite ?string_app_nil_r, !string_app_assoc; done.
Qed.
Lemma seq_line_follow i l j s : follow (Z.of_nat i) false j s → follow (Z.of_nat i) true (seq_line i l j s).1 (seq_line i l j s).2.
Proof.
  intros Hf. destruct l as [|x l]; [by eapply follow_true|]. cbn [seq_line fst snd]. destruct (itms_first i x l (pad j +:+ s)) as [r ->].
  by split; [split|lia|..].
Qed.

Lemma separation_one p k : rest p = " " +:+ k → begins k → k ≠ "" → skipIndicatorSeparation opts p = inr (tt, advance p) ∧ rest (advance p) = k.
Proof.
  intros E Hb Hk. assert (rest (advance p) = k) as E1 by (by apply (advance_rest " ")). split; [|done]. unfold skipIndicatorSeparation. rewrite E.
  rewrite (span_app _ " " k); [|by split|by destruct k; [|apply starts_facts in Hb as (? & _)]].
  change (advances (String.length " ") p) with (advance p). destruct k as [|c k]; [done|]. rewrite (peek_is _ _ _ E1).
  by apply starts_facts in Hb as (_ & _ & -> & _).
Qed.

(** An item is read, up to the next line. *)
Lemma item_read x levels p i j s :
  value_read x → room x levels p → rest p = String "-" (String " " (node x (i + 2) +:+ pad j +:+ s)) → col p = Z.of_nat i + 1 →
  follow (Z.of_nat i) true j s →
  ∃ q, (next opts;; skipIndicatorSeparation opts) p = inr (tt, q) ∧ eof q || isc (peek q) NL || isc (peek q) "#" = false ∧
       reads x p j s (value_at levels (col q) (Z.of_nat i + 1 - 1) false q).
Proof.
  intros Hx (Hst & Hh & Hm & Hn) E Hc Hf. destruct (node_first x (i + 2) j s Hst) as (c & r & Ec & Hsc & Hnc & _).
  pose proof (advance_rest _ _ _ E) as E1. destruct (separation_one (advance p) _ E1) as [Hs E2]; [by rewrite Ec|by rewrite Ec|].
  exists (advance (advance p)). destruct (advance_line _ _ p E ltac:(done)) as [_ C1]. destruct (advance_line _ _ _ E1 ltac:(done)) as [_ C2].
  destruct (advances_books 2 p) as [Hb Hnn]. change (advances 2 p) with (advance (advance p)) in *. split_and!.
  - unfold mbind, P_bind, next. by rewrite E.
  - unfold eof, peek. rewrite E2, Ec. apply starts_facts in Hsc as (_ & -> & _ & ->). done.
  - destruct (Hx levels (col (advance (advance p))) (Z.of_nat i + 1 - 1) false (advance (advance p)) (i + 2)%nat j s) as (v' & q & Hr & He & Hl & Hbq & Hnq).
    + split_and!; [done|done| |by rewrite Hnn]. destruct Hb as (_ & _ & ->). done.
    + done.
    + lia.
    + unfold place_ok. replace (Z.of_nat i + 1 - 1) with (Z.of_nat i) by lia. destruct (is_nested x); [|done]. split_and!; [done|lia|].
      destruct x; (eapply follow_up; [exact Hf|lia]).
    + exists v', q. split_and!; [done..|by transitivity (advance (advance p))|by rewrite Hnq, Hnn].
Qed.

(** What a collection asks of its parts. *)
Definition parts_room (levels : nat) (vs : list value) : Prop := Forall (λ x, value_read x ∧ storable x ∧ (height x ≤ levels)%nat) vs.

Lemma items_read levels i j s l :
  parts_room levels l → follow (Z.of_nat i) false j s → ∀ turns items p,
  lands p (seq_line i l j s).1 (seq_line i l j s).2 → (String.length (rest p) < turns)%nat → markerLine p = 0 → nodes p + count_seq l ≤ oMaxNodes opts →
  ∃ l' q, block_seq opts (value_at levels) turns (Z.of_nat i + 1) items p = inr (items ++ l', q) ∧ erase <$> l' = erase <$> l ∧
          lands q j s ∧ same_books p q ∧ nodes q = nodes p + count_seq l.
Proof.
  intros Hl Hf. induction Hl as [|x l (Hx & Hst & Hh) Hl IH]; intros [|turns] items p Hp Ht Hm Hn; [lia| |lia|]; cbn [block_seq];
    unfold mbind at 1 2, P_bind at 1 2.
  - destruct (lands_skip opts p j s Hp (follow_begins _ _ _ _ Hf)) as (q & -> & E & Hc & Hb & Hnn). cbn [get id].
    assert (eof q || atDocBoundary q || negb (col q =? Z.of_nat i + 1) || negb (isBlockSeqEntry q) = true) as ->.
    { destruct s as [|c s]; [unfold eof; by rewrite E|]. pose proof (follow_in _ _ _ _ Hf ltac:(done)) as Hi. rewrite Hc.
      destruct (Z.eqb_spec (Z.of_nat j + 1) (Z.of_nat i + 1)) as [Hj|]; [|by rewrite !orb_true_r].
      rewrite dash_is; [by rewrite !orb_true_r|]. rewrite E. apply (follow_dash _ _ _ _ Hf); [lia|done]. }
    exists [], q. rewrite app_nil_r. split_and!; [done|done|by right; right|done|cbn; lia].
  - cbn [seq_line fst snd] in Hp. rewrite itms_split in Hp. set (jj := (seq_line i l j s).1) in *. set (ss := (seq_line i l j s).2) in *.
    pose proof (lands_length _ _ _ Hp) as [Hlen _]. cbn [String.length] in Hlen. rewrite !length_app_str, length_pad in Hlen.
    destruct (lands_skip opts p i _ Hp ltac:(by split)) as (q & -> & E & Hc & Hb & Hnn). cbn [get id].
    rewrite (not_boundary q) by (by rewrite E). unfold eof at 1, isBlockSeqEntry at 1, peek at 1, peekAt at 1. rewrite E, Hc, Z.eqb_refl.
    cbn [sdrop]. isc_compute. change (is_end " ") with true. cbn [negb]. cbn [count_seq foldr] in Hn. fold (count_seq l) in Hn. pose proof (count_seq_nonneg l).
    destruct (item_read x levels q i jj ss Hx) as (q2 & Hq2 & Hpk & v' & q3 & Hr & He & Hl3 & Hb3 & Hn3).
    { split_and!; [done|done|destruct Hb as (_ & _ & ->); done|lia]. } { done. } { done. } { by apply seq_line_follow. }
    unfold mbind, P_bind in Hq2 |- *. destruct (next opts q) as [|[a q1]]; [done|]. rewrite Hq2. cbn [get id]. rewrite Hpk, Hr.
    pose proof (lands_length _ _ _ Hl3) as [_ Hlen3].
    destruct (IH turns (items ++ [v']) q3 Hl3) as (l' & q4 & Hr4 & He4 & Hl4 & Hb4 & Hn4); [lia| |lia|].
    { destruct Hb as (_ & _ & Hb), Hb3 as (_ & _ & Hb3). congruence. }
    unfold mbind, P_bind in Hr4. rewrite Hr4. exists (v' :: l'), q4. split_and!; [by rewrite <- app_assoc| |done|by transitivity q; [|transitivity q3]|].
    + cbn [fmap list_fmap]. by rewrite He, He4.
    + cbn [count_seq foldr]. fold (count_seq l). lia.
Qed.

(** A block sequence, from its first dash. *)
Lemma sequence_reads levels i j s l p :
  parts_room levels l → l ≠ [] → follow (Z.of_nat i) false j s → rest p = itms i l +:+ pad j +:+ s → col p = Z.of_nat i + 1 →
  markerLine p = 0 → nodes p + countNodes (VSeq l) ≤ oMaxNodes opts →
  reads (VSeq l) p j s (parseBlockSeq opts (value_at levels) (Z.of_nat i + 1) p).
Proof.
  intros Hl Hne Hf E Hc Hm Hn. rewrite countNodes_seq in Hn. pose proof (count_seq_nonneg l). unfold parseBlockSeq, mbind, P_bind.
  rewrite (count_ok p 1) by lia. set (p1 := add_nodes 1 p). unfold blockOnMarkerLine. assert (markerLine p1 = 0) as -> by done. cbn [Z.eqb negb andb get id].
  destruct (items_read levels i j s l Hl Hf (S (String.length (rest p1))) [] p1) as (l' & q & Hr & He & Hq & Hb & Hnn).
  - destruct l as [|x l]; [done|]. by right; right.
  - lia.
  - done.
  - cbn. lia.
  - rewrite Hr. exists (VSeq l'), q. split_and!; [done| |done|exact Hb|].
    + cbn [erase]. by rewrite He.
    + rewrite countNodes_seq, Hnn. cbn. lia.
Qed.

Definition items_known (v : value) : Prop := match v with VSeq l => Forall value_read l | _ => True end.

Lemma room_parts l levels p : Forall value_read l → room (VSeq l) (S levels) p → parts_room levels l.
Proof.
  intros Hl (Hst & Hh & _). apply storable_seq in Hst. apply height_seq in Hh as [_ Hh]. unfold parts_room.
  rewrite !Forall_forall in *. intros x Hx. split_and!; auto.
Qed.
Lemma room_books v levels p q : room v levels p → same_books p q → nodes q = nodes p → room v levels q.
Proof. intros (? & ? & ? & ?) (_ & _ & Hb) Hn. split_and!; [done|done|congruence|congruence]. Qed.
Lemma reads_from v p p' j s r : same_books p p' → nodes p' = nodes p → reads v p' j s r → reads v p j s r.
Proof. intros Hb Hn (v' & q & -> & He & Hl & Hb' & Hn'). exists v', q. split_and!; [done..|by transitivity p'|congruence]. Qed.

Lemma parts_more levels levels' l : (levels ≤ levels')%nat → parts_room levels l → parts_room levels' l.
Proof. intros Hle Hl. eapply Forall_impl; [exact Hl|]. intros x (? & ? & ?). split_and!; [done|done|lia]. Qed.

(** The value after a key, on its line or on lines of its own. *)
Lemma child_reads v levels i p j s :
  value_read v → items_known v → room v levels p → rest p = hang v i (node v) +:+ pad j +:+ s → Z.of_nat i + 2 ≤ col p →
  follow (Z.of_nat i) false j s → reads v p j s (parseMapValue opts (value_at levels) (Z.of_nat i + 1) false p).
Proof.
  intros Hv Hk Hroom E Hc Hf. pose proof Hroom as (Hst & _). unfold parseMapValue, skipSpaces, mbind, P_bind, modify. unfold hang in E.
  destruct (is_nested v) eqn:En.
  - rewrite !string_app_assoc in E. assert (advances (span is_blank (rest p)) p = p) as -> by (by rewrite E). cbn [get id].
    change (nl +:+ ?k) with (String NL k) in E. rewrite (peek_is _ _ _ E). isc_compute. rewrite andb_false_r. cbn [negb andb].
    destruct (node_first v (inner v i) j s Hst) as (c & r & Ec & Hsc & Hnc & Hm).
    destruct (advance_at_break p _ E) as [E1 C1].
    destruct (lands_skip opts (advance p) (inner v i) (node v (inner v i) +:+ pad j +:+ s)) as (q & -> & E2 & C2 & Hb & Hn).
    { right; left. split; [|done]. rewrite E1. done. } { by rewrite Ec. }
    destruct (advance_books p) as [Hb0 Hn0]. assert (same_books p q) as Hbq by (by transitivity (advance p)). assert (nodes q = nodes p) as Hnq by congruence.
    rewrite (not_boundary q) by (by rewrite E2). unfold eof. rewrite E2, Ec. cbn [orb get id]. rewrite C2.
    apply (reads_from v p q); [done|done|]. pose proof (room_books _ _ _ _ Hroom Hbq Hnq) as Hrq.
    destruct v as [| | | | | | |l|m| | |]; try done; cbn [inner] in *.
    + rewrite Z.ltb_irrefl, Z.eqb_refl. apply bool_decide_eq_true in En. rewrite node_seq in E2, Ec by done. destruct l as [|x l]; [done|].
      assert (isBlockSeqEntry q = true) as ->.
      { unfold isBlockSeqEntry, peek, peekAt. rewrite E2, itms_split. done. }
      cbn [andb]. destruct Hrq as (Hst' & Hh & Hmk & Hnd). apply sequence_reads; [|done..].
      apply (parts_more (pred levels)); [lia|]. apply (room_parts _ _ q); [done|]. pose proof (height_pos (VSeq (x :: l))). split_and!; [done|lia|done|done].
    + rewrite (proj2 (Z.ltb_lt _ _)) by lia. eapply Hv; [done|exact E2|lia|]. unfold place_ok. rewrite En. split_and!; [done|lia|].
      eapply follow_up; [exact Hf|lia].
  - rewrite string_app_assoc in E. destruct (node_first v i j s Hst) as (c & r & Ec & Hsc & Hnc & Hm).
    assert (advances (span is_blank (rest p)) p = advance p) as ->.
    { rewrite E, Ec. rewrite (span_app is_blank " " (String c r)); [done|by split|]. apply starts_facts in Hsc as (Hs1 & _ & Hs2 & _). unfold is_blank. by rewrite Hs1, Hs2. }
    pose proof (advance_rest " " _ p E) as E1. cbn [get id]. assert (rest (advance p) = String c r) as E2 by (by rewrite E1, Ec).
    unfold eof. rewrite (peek_is _ _ _ E2), E2. apply starts_facts in Hsc as (_ & -> & _ & ->). rewrite !not_elem_of_cons in Hnc. destruct_and! Hnc.
    rewrite !(proj2 (isc_false c _)) by done. cbn [negb andb orb]. destruct (advance_books p) as [Hb0 Hn0].
    destruct (advance_line " " _ p E ltac:(done)) as [_ C1].
    apply (reads_from v p (advance p)); [done|done|]. eapply Hv; [by eapply room_books|exact E1|lia|]. unfold place_ok. rewrite En.
    replace (Z.of_nat i + 1 - 1) with (Z.of_nat i) by lia. by eapply follow_true.
Qed.

(** A key is read, with its colon. *)
Lemma key_reads k p indent w u :
  key_ok k → rest p = writeKey k +:+ String ":" (String w u) → is_white w = true →
  implicit_key opts base64_Decode time_Parse indent p = inr ((k, pos opts p), after (writeKey k +:+ ":") p).
Proof.
  intros Hk E Hw. destruct (key_written base64_Encode k Hk) as (raw & q & Hwr & Hst & _). set (t := writeKey k) in *.
  destruct (written_first t raw q (String ":" (String w u)) Hwr ltac:(right; by eexists _, _)) as (c & r & Ec & Hc & Hn & _).
  assert (rest p = String c r) as E0 by congruence. rewrite !not_elem_of_cons in Hn. destruct_and! Hn.
  unfold implicit_key. unfold mbind at 1, P_bind at 1. unfold readProps. cbn [read_props]. rewrite (peek_is _ _ _ E0), !(proj2 (isc_false c _)) by done.
  unfold mbind, P_bind. cbn [get id]. rewrite (peek_is _ _ _ E0), (proj2 (isc_false c "*")) by done.
  rewrite (scalar_key opts t raw q p indent w u Hwr E Hw).
  destruct (after_line t _ p E (no_break_nl _ (written_no_break _ _ _ Hwr))) as [-> _]. rewrite Z.eqb_refl. cbn [negb].
  assert ((if q then mret (VString raw) else resolvePlain opts raw (pos opts p)) (after t p) = inr (k, after t p)) as Hres.
  { destruct q; [cbn in Hst; by rewrite Hst|apply Hst]. }
  change (has_props (mkProps "" "" (pos opts p))) with false. cbn [npTag npPos]. cbn iota. rewrite Hres.
  rewrite bool_decide_false by auto. cbn [mret P_ret]. unfold skipSpaces, modify. pose proof (after_rest t _ p E) as E1.
  assert (advances (span is_blank (rest (after t p))) (after t p) = after t p) as -> by (by rewrite E1). cbn [get id].
  rewrite (peek_is _ _ _ E1), isc_refl. cbn [negb]. unfold next. rewrite E1. by rewrite after_app.
Qed.

Definition map_line (i : nat) (es : list Entry) (j : nat) (s : string) : nat * string :=
  match es with [] => (j, s) | _ => (i, ents i es +:+ pad j +:+ s) end.
Lemma ents_split i e es j s :
  ents i (e :: es) +:+ pad j +:+ s =
    writeKey (Key e) +:+ ":" +:+ hang (Val e) i (node (Val e)) +:+ pad (map_line i es j s).1 +:+ (map_line i es j s).2.
Proof.
  cbn [ents_with]. destruct es as [|y es]; cbn [map_line fst snd]; rewrite ?string_app_nil_r, !string_app_assoc; done.
Qed.
Lemma map_line_follow i es j s :
  Forall entry_ok es → follow (Z.of_nat i - 1) true j s → follow (Z.of_nat i) false (map_line i es j s).1 (map_line i es j s).2.
Proof.
  intros Hes Hf. destruct es as [|e es]; [eapply follow_up; [exact Hf|lia]|]. cbn [map_line fst snd]. apply Forall_cons in Hes as [[Hk _] _].
  destruct (ents_first i e es (pad j +:+ s) Hk) as (c & r & Ec & Hc & Hn & Hd & Hm). split; [by rewrite Ec|lia|done|done].
Qed.

Lemma add_fresh m k v kp vp p :
  key_ok k → Entry_ m k = None → nodes p + 1 ≤ oMaxNodes opts → add_entry opts m [] k v kp vp p = inr ((SetAt m k v kp vp, []), add_nodes 1 p).
Proof.
  intros Hk Hf Hn. unfold add_entry. assert (is_merge_key k = false) as ->.
  { destruct k; try done. destruct Hk as (_ & Hne & _). by apply bool_decide_eq_false. }
  rewrite Hf. unfold mbind, P_bind. cbn [mret P_ret]. by rewrite (count_ok p 1) by lia.
Qed.
Lemma SetAt_fresh m k v kp vp : map_wf m → CanonKey k ∉ ckeys m → entries (SetAt m k v kp vp) = entries m ++ [mkEntry k v kp vp].
Proof.
  intros Hwf Hk. apply (proj2 (Entry_None m k Hwf)) in Hk. unfold SetAt, Entry_ in *. destruct (index m !! CanonKey k) as [i|] eqn:Ei; [|done].
  apply Hwf in Ei as (e & He & _). cbn in Hk. congruence.
Qed.

(** An entry is read: the key, the value, and what the map becomes. *)
Definition entry_known (levels : nat) (e : Entry) : Prop :=
  value_read (Val e) ∧ items_known (Val e) ∧ entry_ok e ∧ (height (Val e) ≤ levels)%nat.

Lemma entry_reads levels e i j s p :
  entry_known levels e → rest p = writeKey (Key e) +:+ ":" +:+ hang (Val e) i (node (Val e)) +:+ pad j +:+ s → col p = Z.of_nat i + 1 →
  follow (Z.of_nat i) false j s → markerLine p = 0 → nodes p + countNodes (Val e) ≤ oMaxNodes opts →
  ∃ p1, implicit_key opts base64_Decode time_Parse (Z.of_nat i + 1) p = inr ((Key e, pos opts p), p1) ∧ is_white (peek p1) = true ∧
        reads (Val e) p j s (parseMapValue opts (value_at levels) (Z.of_nat i + 1) false p1).
Proof.
  intros (Hv & Hi & [Hk Hst] & Hh) E Hc Hf Hm Hn.
  destruct (hang_white (Val e) i (node (Val e)) (pad j +:+ s)) as (w & u & Ew & Hw).
  assert (rest p = writeKey (Key e) +:+ String ":" (String w u)) as E' by (rewrite E, Ew; done).
  exists (after (writeKey (Key e) +:+ ":") p). rewrite (key_reads _ _ _ _ _ Hk E' Hw).
  assert (rest p = (writeKey (Key e) +:+ ":") +:+ hang (Val e) i (node (Val e)) +:+ pad j +:+ s) as E2 by (by rewrite string_app_assoc).
  pose proof (after_rest _ _ _ E2) as E1. destruct (advances_books (String.length (writeKey (Key e) +:+ ":")) p) as [Hb Hnn].
  split_and!; [done|by rewrite (peek_is _ w u) by (by rewrite E1, Ew)|]. apply (reads_from _ p (after (writeKey (Key e) +:+ ":") p)); [done|done|].
  apply child_reads; [done|done|by eapply (room_books _ _ p)|done| |done].
  destruct (key_written base64_Encode (Key e) Hk) as (raw & q & Hwr & _). pose proof (no_break_nl _ (written_no_break _ _ _ Hwr)) as Hnl.
  destruct (after_line _ _ p E2) as [_ ->]; [apply sall_app; by split|]. rewrite length_app_str, Hc. change (String.length ":") with 1%nat. lia.
Qed.

Lemma entries_read levels i j s es :
  Forall (entry_known levels) es → follow (Z.of_nat i - 1) true j s → ∀ turns m p,
  lands p (map_line i es j s).1 (map_line i es j s).2 → (String.length (rest p) < turns)%nat → markerLine p = 0 → nodes p + count_map es ≤ oMaxNodes opts →
  map_wf m → NoDup (ckeys m ++ (CanonKey ∘ Key <$> es)) →
  ∃ m' q, block_map opts base64_Decode time_Parse (value_at levels) turns (Z.of_nat i + 1) m [] p = inr (VMap m', q) ∧ map_wf m' ∧
          bare <$> entries m' = (bare <$> entries m) ++ (bare <$> es) ∧ lands q j s ∧ same_books p q ∧ nodes q = nodes p + count_map es.
Proof.
  intros Hes Hf. induction Hes as [|e es He Hes IH]; intros [|turns] m p Hp Ht Hm Hn Hwf Hnd; [lia| |lia|]; cbn [block_map];
    unfold mbind at 1 2, P_bind at 1 2.
  - destruct (lands_skip opts p j s Hp (follow_begins _ _ _ _ Hf)) as (q & -> & E & Hc & Hb & Hnn). cbn [get id].
    assert (eof q || atDocBoundary q || (col q <? Z.of_nat i + 1) = true) as ->.
    { destruct s as [|c s]; [unfold eof; by rewrite E|]. pose proof (follow_in _ _ _ _ Hf ltac:(done)) as Hi. rewrite Hc.
      rewrite (proj2 (Z.ltb_lt _ _)) by lia. by rewrite orb_true_r. }
    exists m, q. rewrite app_nil_r. split_and!; [done|done|done|by right; right|done|cbn; lia].
  - assert (Forall entry_ok (e :: es)) as Hok.
    { constructor; [apply He|]. eapply Forall_impl; [exact Hes|]. by intros x (_ & _ & ? & _). }
    pose proof He as (_ & _ & [Hk _] & _). destruct (ents_first i e es (pad j +:+ s) Hk) as (c & r & Ec & Hc1 & Hc2 & Hd & Hmk).
    cbn [map_line fst snd] in Hp. pose proof (lands_length _ _ _ Hp) as [Hlen _]. apply Forall_cons in Hok as [_ Hok].
    destruct (lands_skip opts p i _ Hp ltac:(by rewrite Ec)) as (q & -> & E & Hc & Hb & Hnn). cbn [get id].
    rewrite <- E in Hd, Hmk. rewrite (not_boundary q Hmk), (dash_is q Hd). unfold eof at 1. rewrite E, Ec, Hc, Z.ltb_irrefl. cbn [orb].
    rewrite !not_elem_of_cons in Hc2. destruct_and! Hc2. rewrite (peek_is q c r), (proj2 (isc_false c "?")) by (congruence || done). cbn [andb].
    rewrite ents_split in E, Hlen. rewrite !length_app_str, length_pad in Hlen. cbn [count_map foldr] in Hn. fold (count_map es) in Hn.
    pose proof (count_map_nonneg es). assert (markerLine q = 0) as Hmq by (destruct Hb as (_ & _ & ->); done).
    destruct (entry_reads levels e i _ _ q He E Hc (map_line_follow i es j s Hok Hf) Hmq ltac:(lia)) as (p1 & Hkey & Hwh & v' & q2 & Hval & Hev & Hl2 & Hb2 & Hn2).
    unfold mbind, P_bind. rewrite Hkey. cbn [mret P_ret get id]. rewrite Hwh. cbn [negb]. rewrite andb_false_r, Hval.
    apply NoDup_app in Hnd as Hnd'. destruct Hnd' as (_ & Hdis & _). assert (CanonKey (Key e) ∉ ckeys m) as Hfresh by (intros Hin; apply (Hdis _ Hin); by left).
    rewrite add_fresh; [|done|by apply Entry_None|lia]. cbn iota.
    destruct (IH turns (SetAt m (Key e) v' (pos opts q) (pos opts p1)) (add_nodes 1 q2)) as (m' & q3 & Hr3 & Hwf3 & He3 & Hl3 & Hb3 & Hn3).
    + exact Hl2.
    + pose proof (lands_length _ _ _ Hl2) as [_ Hlen2]. change (rest (add_nodes 1 q2)) with (rest q2). change (String.length ":") with 1%nat in Hlen.
      assert (1 ≤ String.length (hang (Val e) i (node (Val e))))%nat by (unfold hang; destruct (is_nested _); rewrite length_app_str; cbn [String.length nl]; lia). lia.
    + destruct Hb2 as (_ & _ & Hb2). cbn. congruence.
    + cbn. lia.
    + by apply SetAt_wf.
    + rewrite ckeys_SetAt, decide_False by done. rewrite <- app_assoc. exact Hnd.
    + unfold mbind, P_bind in Hr3. rewrite Hr3. exists m', q3. split_and!; [done|done| |done|by transitivity q; [|transitivity q2]|].
      * rewrite He3, SetAt_fresh, fmap_app by done. rewrite <- app_assoc. f_equal. cbn. f_equal. unfold bare. cbn. by rewrite Hev.
      * cbn [count_map foldr]. fold (count_map es). rewrite Hn3. cbn. lia.
Qed.

(** Well-formed mappings with the same entries are the same, but for the
    positions. *)
Lemma same_erase m m' : map_wf m → map_wf m' → bare <$> entries m' = bare <$> entries m → erase (VMap m') = erase (VMap m).
Proof.
  intros Hm Hm' He. assert (index m' = index m) as Hi.
  { apply map_eq. intros ck. apply option_eq. intros i. rewrite (Hm ck i), (Hm' ck i).
    assert (∀ e e', bare e = bare e' → CanonKey (Key e) = CanonKey (Key e')) as Hck by (intros e e' [= E _]; congruence).
    apply (f_equal (.!! i)) in He. rewrite !list_lookup_fmap in He. destruct (entries m' !! i) as [e'|], (entries m !! i) as [e|]; try done; cbn in He.
    apply Some_inj, Hck in He. split; intros (x & [= <-] & <-); eauto. }
  cbn [erase]. change (λ e, mkEntry (Key e) (erase (Val e)) noPos noPos) with bare. by rewrite He, Hi.
Qed.
Lemma empty_wf (at_ : Pos) : map_wf (mkMap [] ∅ at_).
Proof. intros ck i. cbn. rewrite lookup_empty. split; [done|]. by intros (e & ? & _). Qed.
Lemma map_keys_NoDup m : map_wf m → NoDup (CanonKey ∘ Key <$> entries m).
Proof. apply map_wf_NoDup. Qed.

Lemma mapping_reads levels i j s m p :
  Forall (entry_known levels) (entries m) → map_wf m → entries m ≠ [] → follow (Z.of_nat i - 1) true j s →
  rest p = ents i (entries m) +:+ pad j +:+ s → col p = Z.of_nat i + 1 → markerLine p = 0 → nodes p + countNodes (VMap m) ≤ oMaxNodes opts →
  reads (VMap m) p j s (parseBlockMap opts base64_Decode time_Parse (value_at levels) (Z.of_nat i + 1) p).
Proof.
  intros Hes Hwf Hne Hf E Hc Hm Hn. rewrite countNodes_map in Hn. pose proof (count_map_nonneg (entries m)). unfold parseBlockMap, mbind, P_bind.
  rewrite (count_ok p 1) by lia. set (p1 := add_nodes 1 p). unfold blockOnMarkerLine. assert (markerLine p1 = 0) as -> by done. cbn [Z.eqb negb andb get id].
  destruct (entries_read levels i j s (entries m) Hes Hf (S (String.length (rest p1))) (mkMap [] ∅ (pos opts p1)) p1) as (m' & q & Hr & Hwf' & He & Hq & Hb & Hnn).
  - destruct (entries m) as [|e es]; [done|]. by right; right.
  - lia.
  - done.
  - cbn. lia.
  - apply empty_wf.
  - by apply map_keys_NoDup.
  - rewrite Hr. exists (VMap m'), q. split_and!; [done|by apply same_erase|done|exact Hb|]. rewrite countNodes_map, Hnn. cbn. lia.
Qed.

(** ** Every value is read back *)

Lemma nested_seq_reads l : Forall value_read l → l ≠ [] → value_read (VSeq l).
Proof.
  intros Hl Hne [|levels] minIndent parentIndent inline p i j s Hroom E Hcol Hp; [destruct Hroom as (_ & Hh & _); cbn in Hh; lia|].
  pose proof Hroom as (_ & _ & Hmk & Hnd). unfold place_ok in Hp. cbn [is_nested] in Hp. rewrite bool_decide_true in Hp by done. destruct Hp as (-> & Hc & Hf).
  rewrite node_seq in E by done. destruct l as [|x l]; [done|]. pose proof E as E0. rewrite itms_split in E0.
  rewrite (value_start _ _ _ _ p _ _ E0); [| by split | | by rewrite E0 | done].
  - unfold YamlParse.node_at. unfold mbind at 1, P_bind at 1. cbn [get id]. rewrite (peek_is _ _ _ E0). isc_compute.
    assert (isBlockSeqEntry p = true) as -> by (unfold isBlockSeqEntry, peek, peekAt; by rewrite E0).
    change (has_props (no_props p)) with false. cbn [andb]. rewrite tagged_plain, Hc.
    destruct (sequence_reads levels i j s (x :: l) p) as (v' & q & -> & Hrest); [by eapply room_parts|done..|]. by exists v', q.
  - rewrite !not_elem_of_cons. by split_and!; try apply not_elem_of_nil.
Qed.

Lemma nested_map_reads m : Forall (λ e, value_read (Val e) ∧ items_known (Val e)) (entries m) → entries m ≠ [] → value_read (VMap m).
Proof.
  intros Hes Hne [|levels] minIndent parentIndent inline p i j s Hroom E Hcol Hp; [destruct Hroom as (_ & Hh & _); cbn in Hh; lia|].
  destruct Hroom as (Hst & Hh & Hmk & Hnd). unfold place_ok in Hp. cbn [is_nested] in Hp. rewrite bool_decide_true in Hp by done. destruct Hp as (-> & Hc & Hf).
  rewrite node_map in E by done. apply storable_map in Hst as [Hwf Hok]. apply height_map in Hh as [_ Hh].
  assert (Forall (entry_known levels) (entries m)) as Hkn.
  { rewrite !Forall_forall in *. intros e He. destruct (Hes e He). split_and!; auto; apply (Hok e He). }
  destruct (entries m) as [|e es] eqn:Ee; [done|]. apply Forall_cons in Hok as [[Hk _] _].
  destruct (ents_first i e es (pad j +:+ s) Hk) as (c & r & Ec & Hc1 & Hc2 & Hd & Hm). rewrite <- E in Hd, Hm, Ec.
  rewrite !not_elem_of_cons in Hc2. destruct_and! Hc2.
  rewrite (value_start _ _ _ _ p c r Ec Hc1); [| rewrite !not_elem_of_cons; by split_and!; try apply not_elem_of_nil | done | done].
  unfold YamlParse.node_at. unfold mbind at 1, P_bind at 1. cbn [get id]. rewrite (peek_is _ _ _ Ec), (dash_is p Hd), !(proj2 (isc_false c _)) by done. cbn [orb andb].
  assert (lineIsMappingEntry p = true) as ->.
  { unfold lineIsMappingEntry. rewrite E. destruct (ents_key i e es (pad j +:+ s)) as (w & u & -> & Hw).
    destruct (key_written base64_Encode (Key e) Hk) as (raw & q & Hwr & _ & Hkc). exact (written_entry opts _ _ _ _ _ Hwr Hkc Hw). }
  change (has_props (no_props p)) with false. cbn [andb]. rewrite tagged_plain, Hc.
  destruct (mapping_reads levels i j s m p) as (v' & q & -> & Hrest); [by rewrite Ee|done|by rewrite Ee|done|by rewrite Ee|done..|]. by exists v', q.
Qed.

Lemma leaf_reads v : is_leaf v → value_read v.
Proof.
  intros Hv [|levels] minIndent parentIndent inline p i j s (Hst & Hh & Hmk & Hnd) E Hcol Hp; [pose proof (height_pos v); lia|].
  assert (scalar_ok v ∧ node v i = YamlEncode.writeScalar base64_Encode v +:+ nl ∧ countNodes v = 1 ∧ erase v = v ∧ is_nested v = false)
    as (H1 & H2 & H3 & H4 & H5) by (by destruct v).
  eapply scalar_reads; [done..|by rewrite H3 in Hnd|]. unfold place_ok in Hp. by rewrite H5 in Hp.
Qed.
Lemma empty_collection_reads v :
  match v with VSeq l => l = [] | VMap m => entries m = [] | _ => False end → value_read v.
Proof.
  intros Hv [|[|levels]] minIndent parentIndent inline p i j s (Hst & Hh & Hmk & Hnd) E Hcol Hp;
    [pose proof (height_pos v); lia|by destruct v as [| | | | | | |l|m| | |]; try done; cbn in Hh; lia|].
  destruct v as [| | | | | | |l|m| | |]; try done.
  - subst l. eapply (empty_reads _ (VSeq []) _ _ _ _ "[" "]"); [by right|exact E|done|exact (empty_seq_flow _ p (nl +:+ pad j +:+ s) E Hnd)|done|done].
  - apply storable_map in Hst as [Hwf _]. rewrite countNodes_map, Hv in Hnd. assert (node (VMap m) i = "{}" +:+ nl) as En by (cbn [YamlRound.node]; by rewrite Hv).
    rewrite En in E. eapply (empty_reads _ (VMap (mkMap [] ∅ (pos opts p))) _ _ _ _ "{" "}"); [by left|exact E|done|exact (empty_map_flow _ p (nl +:+ pad j +:+ s) E Hnd)| |].
    + apply same_erase; [done|apply empty_wf|by rewrite Hv].
    + by rewrite countNodes_map, Hv.
Qed.

Lemma values_read v : value_read v ∧ items_known v.
Proof.
  induction v as [v Hv|l IH|m IH] using value_tree_ind.
  - split; [by apply leaf_reads|by destruct v].
  - assert (Forall value_read l) as Hl by (eapply Forall_impl; [exact IH|]; by intros x []). split; [|done].
    destruct l as [|x l]; [by apply empty_collection_reads|by apply nested_seq_reads].
  - split; [|done]. destruct (decide (entries m = [])); [by apply empty_collection_reads|by apply nested_map_reads].
Qed.

(** ** Documents *)

Lemma follow_nothing i d : follow i d 0 "".
Proof. by split. Qed.

Lemma document_reads v levels turns p :
  storable v → is_collection v = true → (height v ≤ levels)%nat → countNodes v ≤ oMaxNodes opts →
  rest p = node v 0 → col p = 1 → markerLine p = 0 → nodes p = 0 →
  ∃ v' q, documents opts base64_Decode time_Parse (S turns) levels true [] p = inr ([v'], q) ∧ erase v' = erase v ∧ warnings q = warnings p.
Proof.
  intros Hst Hcol Hh Hn E Hc Hmk Hnd. assert (rest p = node v 0 +:+ pad 0 +:+ "") as E' by (by rewrite E, string_app_nil_r).
  destruct (node_first v 0 0 "" Hst) as (c & r & Ec & Hsc & Hnc & Hm). rewrite <- E' in Ec, Hm. pose proof (not_boundary p Hm) as Hb.
  unfold atDocBoundary in Hb. apply orb_false_iff in Hb as [[Hb1 Hb2]%orb_false_iff Hb3].
  cbn [documents]. unfold mbind at 1 2, P_bind at 1 2. rewrite (skipBlank_here opts p) by (by rewrite Ec). cbn [get id].
  assert (eof p = false) as He by (unfold eof; by rewrite Ec). rewrite He, Hb2.
  unfold mbind at 1 2, P_bind at 1 2. unfold skipDirectives. cbn [skip_directives]. unfold mbind at 1, P_bind at 1. cbn [get id]. rewrite Hb3. cbn [andb mret P_ret].
  rewrite He. unfold mbind at 1, P_bind at 1. unfold document_start. unfold mbind at 1, P_bind at 1. cbn [get id]. rewrite Hb1. cbn [mret P_ret negb].
  destruct (proj1 (values_read v) levels 0 (-1) false p 0%nat 0%nat "") as (v' & q & Hr & Hev & Hl & Hbk & _).
  - by split_and!; [..|lia].
  - done.
  - lia.
  - unfold place_ok. destruct (is_nested v); [|apply follow_nothing]. split_and!; [done|done|]. destruct v; apply follow_nothing.
  - unfold mbind, P_bind. rewrite Hr. destruct (lands_skip opts q 0 "" Hl I) as (q2 & -> & E2 & _ & Hb4 & _). cbn [get id].
    unfold eof. rewrite E2. exists v', q2. split_and!; [done|done|]. destruct Hbk as (_ & Hw & _), Hb4 as (_ & Hw4 & _). congruence.
Qed.
End reading.

(** ** The whole text

    What the encoder writes is valid UTF-8 without carriage returns, so that the
    parser takes it as it is. *)

Definition clean (t : string) : Prop := ValidString t = true ∧ sall (λ c, c ≠ CR) t.
Lemma clean_app s t : clean s → clean t → clean (s +:+ t).
Proof. intros [Hs Hs'] [Ht Ht']. split; [by apply ValidString_app|by apply sall_app]. Qed.
Lemma clean_ascii t : sall (λ c, byte_of c < 128 ∧ c ≠ CR) t → clean t.
Proof. intros Ht. split; [apply ValidString_ascii|]; (eapply sall_impl; [|exact Ht]); by intros c []. Qed.
Lemma clean_pad n : clean (pad n).
Proof. apply clean_ascii. by apply sall_pad. Qed.
Lemma key_char_ascii c : key_char c = true → byte_of c < 128 ∧ c ≠ CR.
Proof.
  intros Hk. split; [|by intros ->]. destruct (Z.lt_ge_cases (byte_of c) 128) as [|Hc]; [done|]. unfold key_char in Hk. by rewrite key_rune_low in Hk.
Qed.
Lemma normalize_clean t : sall (λ c, c ≠ CR) t → normalizeNewlines t = t.
Proof. induction t as [|c t IH]; [done|]. intros [Hc Ht]. cbn [normalizeNewlines]. rewrite (proj2 (isc_false c CR) Hc). by rewrite IH. Qed.

Section whole.
Context `{Runtime} (base64_Encode : string → string).

Lemma quoted_clean q body : q = DQ ∨ q = "'"%char → clean body → clean (quoted_with q body).
Proof.
  intros Hq Hb. unfold quoted_with. change (String q ?x) with (String q "" +:+ x). apply clean_app; [|apply clean_app; [done|]];
    apply clean_ascii; by destruct Hq as [-> | ->].
Qed.
Lemma Quote_clean s : ValidString s = true → clean (yaml_Quote s).
Proof.
  intros Hv. rewrite Quote_flat by done. apply quoted_clean; [by left|]. split.
  - apply ValidString_bmap; [|done]. clear. intros c Hc. pose proof (N_ascii_bounded c). revert Hc.
    destruct c as [[] [] [] [] [] [] [] []]; first [vm_compute; reflexivity|vm_compute; congruence].
  - eapply sall_impl; [|apply (bmap_no_break (by_byte quote_piece) s)]; [by intros c []|]. induction s as [|c s IH]; [done|].
    split; [apply quote_piece_no_break|]. clear. induction s as [|d s IH]; [done|]. split; [apply quote_piece_no_break|done].
Qed.
Lemma Single_clean s : ValidString s = true → needsEscaping s = false → clean (SingleQuote s).
Proof.
  intros Hv He. rewrite SingleQuote_flat by done. apply quoted_clean; [by right|]. destruct (no_escapes s Hv He) as [Hb _]. split.
  - apply ValidString_bmap; [|done]. clear. intros c Hc. revert Hc.
    destruct c as [[] [] [] [] [] [] [] []]; first [vm_compute; reflexivity|vm_compute; congruence].
  - eapply sall_impl; [|apply (bmap_no_break (by_byte sq) s)]; [by intros c []|]. eapply sall_impl; [|exact Hb]. intros c []. by apply sq_no_break.
Qed.
Lemma word_clean t v : word_ok t v → clean t.
Proof. intros (_ & _ & Hk). apply clean_ascii. eapply sall_impl; [|exact Hk]. apply key_char_ascii. Qed.

Lemma scalar_clean v : scalar_ok v → clean (writeScalar base64_Encode v).
Proof.
  intros Hv. destruct v as [|b|z| |s| | | | | | |]; try done.
  - exact (word_clean _ _ (fixed_word (VBool b) I)).
  - exact (word_clean _ _ (int_word z Hv)).
  - cbn [writeScalar]. rewrite (proj1 Hv). pose proof (writeString_written s Hv) as [Hw _]. unfold writeString in *.
    destruct (needsQuoting s); cbn [negb] in *.
    + destruct (needsEscaping s) eqn:Ee; [by apply Quote_clean, Hv|by apply Single_clean; [apply Hv|]].
    + split; [apply Hv|]. eapply sall_impl; [|exact (written_no_break _ _ _ Hw)]. by intros c [].
Qed.
Lemma key_clean k : key_ok k → clean (writeKey base64_Encode k).
Proof.
  intros Hk. destruct k as [| | | |s| | | | | | |]; try (by apply scalar_clean). destruct (key_written base64_Encode _ Hk) as (raw & q & Hw & _).
  unfold writeKey in *. destruct Hk as (Hv & _). destruct (plainSafeKey s) eqn:Ep; [|by apply Quote_clean].
  unfold plainSafeKey in Ep. destruct (needsQuoting s) eqn:En; [done|].
  split; [|eapply sall_impl; [|exact (written_no_break _ _ _ Hw)]; by intros c []]. cbn [writeScalar]. rewrite Hv. unfold writeString. by rewrite En.
Qed.

Lemma node_clean v i : storable v → clean (node base64_Encode v i).
Proof.
  revert i. induction v as [v Hv|l IH|m IH] using value_tree_ind; intros i Hst.
  - assert (scalar_ok v ∧ node base64_Encode v i = writeScalar base64_Encode v +:+ nl) as [Hs ->] by (by destruct v).
    apply clean_app; [by apply scalar_clean|by apply clean_ascii].
  - apply storable_seq in Hst. destruct (decide (l = [])) as [->|Hne]; [by apply clean_ascii|]. rewrite node_seq by done. clear Hne.
    induction IH as [|x l Hx _ IHl]; [by apply clean_ascii|]. apply Forall_cons in Hst as [Hsx Hsl]. cbn [itms_with].
    apply clean_app; [by apply clean_ascii|]. apply clean_app; [by apply Hx|]. destruct l; [by apply clean_ascii|]. apply clean_app; [apply clean_pad|by apply IHl].
  - apply storable_map in Hst as [_ Hst]. destruct (decide (entries m = [])) as [Ee|Hne].
    { cbn [node]. rewrite Ee. by apply clean_ascii. }
    rewrite node_map by done. clear Hne. induction IH as [|e es He _ IHl]; [by apply clean_ascii|]. apply Forall_cons in Hst as [[Hk Hv] Hes]. cbn [ents_with].
    apply clean_app; [by apply key_clean|]. apply clean_app; [by apply clean_ascii|]. apply clean_app.
    + unfold hang. destruct (is_nested (Val e)); [apply clean_app; [by apply clean_ascii|apply clean_app; [apply clean_pad|by apply He]]|].
      apply clean_app; [by apply clean_ascii|by apply He].
    + destruct es; [by apply clean_ascii|]. apply clean_app; [apply clean_pad|by apply IHl].
Qed.

(** A collection does not begin with a byte order mark. *)
Lemma no_BOM v i : storable v → is_collection v = true → TrimPrefix (node base64_Encode v i) BOM = node base64_Encode v i.
Proof.
  intros Hst Hc. unfold TrimPrefix. assert (has_prefix BOM (node base64_Encode v i) = false) as ->; [|done].
  destruct v as [| | | | | | |l|m| | |]; try done.
  - destruct l; [done|]. rewrite node_seq by done. done.
  - apply storable_map in Hst as [_ Hst]. destruct (entries m) as [|e es] eqn:Ee; [cbn [node]; by rewrite Ee|]. rewrite node_map by (by rewrite Ee). rewrite Ee.
    apply Forall_cons in Hst as [[Hk _] _]. destruct (ents_key base64_Encode i e es "") as (w & u & E & _). rewrite string_app_nil_r in E. rewrite E.
    destruct (key_written base64_Encode (Key e) Hk) as (raw & q & Hw & _ & Hkc). destruct Hw as [t Ht|s' Hs|s']; [|done|done].
    pose proof (pt_first _ Ht) as Hf. specialize (Hkc eq_refl). destruct t as [|c t]; [done|]. destruct Hkc as [Hkc _].
    change (String c t +:+ ?x) with (String c (t +:+ x)). unfold BOM. cbn [string_of_bytes fmap list_fmap string_of_list_ascii has_prefix].
    rewrite decide_False; [done|]. intros <-. done.
Qed.
End whole.

Section theorems.
Context `{Runtime} (base64_Encode : string → string) (base64_Decode : string → option string) (time_Parse : string → string → option Z).

Lemma encode_then_parse v o :
  storable v → is_collection v = true → oStream o = false →
  Z.of_nat (height v) ≤ oMaxDepth (with_defaults o) → countNodes v ≤ oMaxNodes (with_defaults o) →
  ∃ v', Parse base64_Decode time_Parse (Encode base64_Encode v plain_opts) o = (inr v', []) ∧ erase v' = erase v.
Proof.
  intros Hst Hc Hs Hh Hn. rewrite Encode_text. cbn [written_at]. assert ((if is_nested v then pad 0 else "") = "") as -> by (by destruct (is_nested v)).
  change ("" +:+ ?x) with x. destruct (node_clean base64_Encode v 0 Hst) as [Hv Hcr].
  unfold Parse, parseStream. rewrite no_BOM by done. rewrite Hv. cbn [negb]. rewrite normalize_clean by done.
  destruct (document_reads base64_Encode base64_Decode time_Parse (with_defaults o) v (Z.to_nat (oMaxDepth (with_defaults o)))
    (S (String.length (node base64_Encode v 0))) (initial (node base64_Encode v 0))) as (v' & q & -> & He & Hw); [done..|lia|done|done|done|done|done|].
  cbn [length]. rewrite Hw. change (1 <? 1)%nat with false. rewrite andb_false_r. exists v'. done.
Qed.

(** C20: A collection, of any nesting, of nulls, booleans, 64-bit integers and
    strings, with keys of these kinds, that is written in block style with the
    indentation the program uses, is read back by Parse as the same value but for
    the positions, without an error or a warning, as long as it is within the
    limits of the parser on depth and on the number of nodes.  [storable] leaves
    out exactly: floats, binaries, times and the other kinds of value (a float
    may be read back as a string, [float_reads_as_string]); the smallest int64
    ([min_int_reads_as_string]); strings that are not UTF-8; the key `<<`
    ([merge_key_is_no_key]); and of the strings that needsQuoting leaves plain,
    those that begin like a document marker ([marker_reads_as_nothing]) and
    those that hold a double quote and end in a backslash
    ([quote_scan_crosses_lines]).  The flow style is not covered
    ([flow_string_reads_as_two]). *)
Theorem encode_parse_roundtrip v eo o :
  storable v → is_collection v = true → eFlow eo = false → eMaxBytes eo = 0 → eIndent eo ≤ 0 ∨ eIndent eo = 2 → oStream o = false →
  Z.of_nat (height v) ≤ oMaxDepth (with_defaults o) → countNodes v ≤ oMaxNodes (with_defaults o) →
  ∃ v', Parse base64_Decode time_Parse (Encode base64_Encode v eo) o = (inr v', []) ∧ erase v' = erase v.
Proof.
  intros Hst Hc Hfl Hmax Hi Hs Hh Hn. assert (Encode base64_Encode v eo = Encode base64_Encode v plain_opts) as ->.
  { destruct eo as [ind fl mb]. cbn in Hfl, Hmax, Hi. subst fl mb. destruct Hi as [Hi| ->]; [|done]. unfold Encode. cbn [eIndent eFlow eMaxBytes].
    by rewrite (proj2 (Z.leb_le ind 0) Hi). }
  by apply encode_then_parse.
Qed.

(** A string written by Encode is read back by the scalar reader and the
    resolver as that string, whatever the options, where it stands as the value
    of a key or an item: quoted with single or double quotes, or plain if no
    reading would take it for something else. *)
Theorem string_scalar_roundtrip (opts : Options) (s : string) (p : pst) (minIndent : Z) (j : nat) (k : string) :
  string_ok s → rest p = writeString s +:+ nl +:+ pad j +:+ k → follow (minIndent - 1) true j k →
  (mbind (λ '(raw, q), applyTag opts base64_Decode time_Parse "" raw q (pos opts p)) (parseScalar opts minIndent false notFlow)) p =
    inr (VString s, after (writeString s) p).
Proof.
  intros Hs E Hf. destruct (writeString_written s Hs) as [Hw Hst]. unfold mbind, P_bind.
  rewrite (scalar_value opts _ _ _ p minIndent j k Hw E Hf). unfold applyTag. rewrite bool_decide_true by done.
  destruct (needsQuoting s); [done|]. apply Hst.
Qed.
End theorems.

(** ** Witnesses *)

Section witnesses.
#[local] Existing Instance demo_runtime.

Definition demo_inner : Map := MapOf [(VInt 8080, VString "- x")].
Definition demo_list : list value := [VInt (-5); VString "it's"; VMap demo_inner; VSeq [VNull; VSeq []]].
Definition demo_tree : value :=
  VMap (MapOf [(VString "on: off", VSeq demo_list); (VString "name", VString "a #b"); (VBool true, VMap NewMap); (VString "list", VSeq [VString "plain text"])]).

Lemma demo_strings : Forall string_ok ["it's"; "- x"; "a #b"; "plain text"].
Proof. repeat constructor; try (vm_compute; reflexivity); intros Hq; vm_compute in Hq; first [discriminate Hq|left; vm_compute; split_and!; try done; by intros [=]]. Qed.
Lemma demo_keys : Forall (λ s, key_ok (VString s)) ["on: off"; "name"; "list"].
Proof. repeat constructor; try (vm_compute; reflexivity); done. Qed.

Lemma demo_tree_storable : storable demo_tree.
Proof.
  pose proof demo_strings as Hs. pose proof demo_keys as Hk. do 4 rewrite Forall_cons in Hs. do 3 rewrite Forall_cons in Hk.
  assert (storable (VMap demo_inner)) as Hi.
  { apply storable_map. split; [apply MapOf_wf|]. assert (entries demo_inner = [mkEntry (VInt 8080) (VString "- x") noPos noPos]) as -> by (vm_compute; reflexivity).
    repeat constructor; try apply Hs; by vm_compute. }
  assert (storable (VMap NewMap)) as He by (apply storable_map; split; [apply NewMap_wf|constructor]).
  apply storable_map. split; [apply MapOf_wf|].
  assert (entries (MapOf [(VString "on: off", VSeq demo_list); (VString "name", VString "a #b"); (VBool true, VMap NewMap); (VString "list", VSeq [VString "plain text"])]) =
    [mkEntry (VString "on: off") (VSeq demo_list) noPos noPos; mkEntry (VString "name") (VString "a #b") noPos noPos;
     mkEntry (VBool true) (VMap NewMap) noPos noPos; mkEntry (VString "list") (VSeq [VString "plain text"]) noPos noPos]) as -> by (vm_compute; reflexivity).
  assert (int_ok (-5)) by (by vm_compute). assert (storable (VSeq demo_list)) by (apply storable_seq; unfold demo_list; rewrite !Forall_cons; split_and!; try apply Hs; done).
  assert (storable (VSeq [VString "plain text"])) by (apply storable_seq; constructor; [apply Hs|constructor]).
  destruct Hk as (Hk1 & Hk2 & Hk3 & _), Hs as (_ & _ & Hs3 & _). repeat (constructor; [split; done|]). constructor.
Qed.

Lemma encode_parse_roundtrip_witness :
  ∃ v', Parse (λ _, None) (λ _ _, None) (Encode (λ s, s) demo_tree (mkEncode 0 false 0)) (DefaultOptions "demo.sls") = (inr v', []) ∧ erase v' = erase demo_tree.
Proof.
  apply (encode_parse_roundtrip (λ s, s) (λ _, None) (λ _ _, None) demo_tree (mkEncode 0 false 0) (DefaultOptions "demo.sls")).
  - exact demo_tree_storable.
  - reflexivity.
  - reflexivity.
  - reflexivity.
  - left. vm_compute. discriminate.
  - reflexivity.
  - vm_compute. discriminate.
  - vm_compute. discriminate.
Defined.

Lemma string_scalar_roundtrip_witness :
  ∃ q, (mbind (λ '(raw, q), applyTag (DefaultOptions "demo.sls") (λ _, None) (λ _ _, None) "" raw q (pos (DefaultOptions "demo.sls") (initial ("'- x'" +:+ nl +:+ "next: 1"))))
          (parseScalar (DefaultOptions "demo.sls") 1 false notFlow)) (initial ("'- x'" +:+ nl +:+ "next: 1")) = inr (VString "- x", q).
Proof.
  eexists. apply (string_scalar_roundtrip (λ _, None) (λ _ _, None) (DefaultOptions "demo.sls") "- x" (initial ("'- x'" +:+ nl +:+ "next: 1")) 1 0 "next: 1").
  - pose proof demo_strings as Hs. do 2 rewrite Forall_cons in Hs. exact (proj1 (proj2 Hs)).
  - vm_compute. reflexivity.
  - split; [by vm_compute|vm_compute; discriminate|done|done].
Defined.

(** ** What does not read back

    Each is a value the encoder writes and the parser reads as something else,
    or a text the resolver takes for a number. *)

Definition reread (v : value) : (yerr + value) * list Warning :=
  Parse (λ _, None) (λ _ _, None) (Encode (λ s, s) v (mkEncode 2 false 0)) (DefaultOptions "demo.sls").
Definition read_text (s : string) : option value :=
  match Parse (λ _, None) (λ _ _, None) s (DefaultOptions "demo.sls") with (inr v, _) => Some v | _ => None end.
Definition fails_with (m : ymsg) (r : (yerr + value) * list Warning) : Prop := match r with (inl e, _) => eMsg e = m | _ => False end.

(** A float of a million is written as 1e+06, which has no point. *)
Lemma float_reads_as_string : reread (VSeq [VFloat (f64_of_Z 1000000)]) = (inr (VSeq [VString "1e+06"]), []).
Proof. vm_compute. reflexivity. Qed.
(** The magnitude of the smallest integer does not fit. *)
Lemma min_int_reads_as_string : reread (VSeq [VInt minInt64]) = (inr (VSeq [VString "-9223372036854775808"]), []).
Proof. vm_compute. reflexivity. Qed.
(** Flow style does not quote the indicators of flow style. *)
Lemma flow_string_reads_as_two :
  Encode (λ s, s) (VSeq [VString "a,b"]) (mkEncode 2 true 0) = "[a,b]" ∧ read_text "[a,b]" = Some (VSeq [VString "a"; VString "b"]).
Proof. vm_compute. done. Qed.
(** A scalar that is the marker of a document end is written plain. *)
Lemma marker_reads_as_nothing : reread (VString "...") = (inr VNull, []).
Proof. vm_compute. reflexivity. Qed.
(** A key is quoted, and is a merge key nevertheless. *)
Lemma merge_key_is_no_key : fails_with BadMerge (reread (VMap (MapOf [(VString "<<", VInt 1)]))).
Proof. vm_compute. reflexivity. Qed.
(** A quote before a backslash at the end of the line: the scan for a mapping
    entry goes on into the next line. *)
Lemma quote_scan_crosses_lines :
  fails_with MapInline (reread (VMap (MapOf [(VString "a", VString (String "a" (String "," (String DQ "b\")))); (VString "c: d", VInt 1)]))).
Proof. vm_compute. reflexivity. Qed.
(** Signs and underscores inside a number. *)
Lemma odd_numbers :
  read_text "_5" = Some (VInt 5) ∧ read_text "_-7" = Some (VInt (-7)) ∧ read_text "0x-5" = Some (VInt (-5)).
Proof. vm_compute. done. Qed.
End witnesses.
