(* ===== verification/YamlTotal.v ===== *)
(** * YAML: the parser ends, reads within its input, and builds well-formed maps

    Every function of the parser (src/internal/yaml) is followed from a state to
    its result: either an error that is none of the two that must not happen (a
    read past the end, which the source would panic at, and a loop that takes
    more turns than it is given), or a state further on in the same input, with
    values whose mappings are all well formed. *)

From S2P Require Import Prelude GoLib Value YamlScalar YamlParse YamlText.

Open Scope Z_scope.

(** ** Moving on *)

Definition len (p : pst) : nat := String.length (rest p).
Definition core (p : pst) : string * string * Z * Z := (prev p, rest p, line p, col p).

Lemma core_advance p q : core p = core q → core (advance p) = core (advance q).
Proof. destruct p, q. unfold core. cbn. intros [= -> -> -> ->]. unfold advance. cbn. by case_match. Qed.
Lemma core_advances n p q : core p = core q → core (advances n p) = core (advances n q).
Proof. intros E. induction n as [|n IH]; [done|]. by apply core_advance. Qed.

(** [q] is some characters after [p]. *)
Definition moved (p q : pst) : Prop := ∃ n, core q = core (advances n p).
#[global] Instance moved_pre : PreOrder moved.
Proof.
  split; [intros p; by exists 0%nat|]. intros p q r [n Hn] [m Hm]. exists (n + m)%nat. rewrite Hm, advances_add. by apply core_advances.
Qed.
Lemma moved_advances n p : moved p (advances n p).
Proof. by exists n. Qed.
Lemma moved_advance p : moved p (advance p).
Proof. by exists 1%nat. Qed.
Lemma moved_core p q : core q = core p → moved p q.
Proof. intros E. by exists 0%nat. Qed.

Lemma len_advance p : len (advance p) = pred (len p).
Proof. unfold len, advance. destruct (rest p) as [|c r] eqn:E; [by rewrite E|done]. Qed.
Lemma len_advances n p : len (advances n p) = (len p - n)%nat.
Proof. induction n as [|n IH]; [cbn; lia|]. change (advances (S n) p) with (advance (advances n p)). rewrite len_advance, IH. lia. Qed.
Lemma len_core p q : core p = core q → len p = len q.
Proof. intros [= _ E _ _]. unfold len. by rewrite E. Qed.
Lemma moved_len p q : moved p q → (len q ≤ len p)%nat.
Proof. intros [n Hn]. rewrite (len_core _ _ Hn), len_advances. lia. Qed.
(** Who has not moved is where it was. *)
Lemma moved_same p q : moved p q → len q = len p → core q = core p.
Proof.
  intros [n Hn] Hl. rewrite Hn. apply len_core in Hn as Hln. rewrite len_advances in Hln. destruct n as [|n]; [done|]. assert (len p = 0%nat) as H0 by lia.
  clear Hn Hl Hln. induction (S n) as [|k IH]; [done|]. change (advances (S k) p) with (advance (advances k p)). transitivity (core (advances k p)); [|done].
  assert (rest (advances k p) = "") as Hr.
  { pose proof (len_advances k p) as Hk. rewrite H0 in Hk. unfold len in Hk. by destruct (rest (advances k p)). }
  unfold advance. by rewrite Hr.
Qed.

(** ** Well-formed values *)

Section total.
Context `{Runtime}.

Fixpoint deep_wf (v : value) : Prop :=
  match v with
  | VSeq l => (fix go (l : list value) : Prop := match l with [] => True | x :: l' => deep_wf x ∧ go l' end) l
  | VMap m =>
      map_wf m ∧
      (fix go (es : list Entry) : Prop := match es with [] => True | e :: es' => (deep_wf (Key e) ∧ deep_wf (Val e)) ∧ go es' end) (entries m)
  | _ => True
  end.
Definition entry_wf (e : Entry) : Prop := deep_wf (Key e) ∧ deep_wf (Val e).
Definition wf_map (m : Map) : Prop := map_wf m ∧ Forall entry_wf (entries m).
Lemma deep_seq l : deep_wf (VSeq l) ↔ Forall deep_wf l.
Proof. induction l as [|x l IH]; [by split|]. rewrite Forall_cons, <- IH. done. Qed.
Lemma deep_map m : deep_wf (VMap m) ↔ wf_map m.
Proof.
  assert (∀ es : list Entry, (fix go (es : list Entry) : Prop := match es with [] => True | e :: es' => (deep_wf (Key e) ∧ deep_wf (Val e)) ∧ go es' end) es ↔ Forall entry_wf es) as Hes.
  { induction es as [|e es IH]; [by split|]. rewrite Forall_cons, <- IH. done. }
  unfold wf_map. cbn [deep_wf]. by rewrite Hes.
Qed.

Lemma wf_map_SetAt m k v kp vp : wf_map m → deep_wf k → deep_wf v → wf_map (SetAt m k v kp vp).
Proof.
  intros [Hwf Hes] Hk Hv. split; [by apply SetAt_wf|]. unfold SetAt. destruct (index m !! CanonKey k) as [i|]; cbn [entries].
  - apply Forall_alter; [done|]. intros e _ [He _]. by split.
  - apply Forall_app. split; [done|]. constructor; [by split|constructor].
Qed.
Lemma wf_map_empty at_ : wf_map (mkMap [] ∅ at_).
Proof. split; [|constructor]. intros ck i. cbn. rewrite lookup_empty. split; [done|]. by intros (e & ? & _). Qed.

Definition sound (p : pst) : Prop := map_Forall (λ _ v, deep_wf v) (anchors p).

(** ** Results *)

Definition bad (m : ymsg) : bool := match m with Panics | OutOfTurns => true | _ => false end.

(** What may come of a function that is called at [p]. *)
Definition ok {A} (p : pst) (r : (yerr * pst) + (A * pst)) (Q : A → pst → Prop) : Prop :=
  match r with
  | inl (e, _) => bad (eMsg e) = false
  | inr (x, q) => moved p q ∧ sound q ∧ Q x q
  end.

Lemma ok_ret {A} p q (x : A) (Q : A → pst → Prop) : moved p q → sound q → Q x q → ok p (inr (x, q)) Q.
Proof. done. Qed.
Lemma ok_bind {A B} p q (m : P A) (f : A → P B) (R : A → pst → Prop) (Q : B → pst → Prop) :
  ok q (m q) R → (∀ x r, moved q r → sound r → R x r → ok p (f x r) Q) → ok p ((m ≫= f) q) Q.
Proof. unfold mbind, P_bind. destruct (m q) as [[e q']|[x r]]; [done|]. intros (Hm & Hs & HR) Hf. by apply Hf. Qed.
Lemma ok_get {A B} p q (g : pst → A) (f : A → P B) (Q : B → pst → Prop) : ok p (f (g q) q) Q → ok p ((get g ≫= f) q) Q.
Proof. done. Qed.
Lemma ok_modify {B} p q g (f : unit → P B) (Q : B → pst → Prop) : ok p (f tt (g q)) Q → ok p ((modify g ≫= f) q) Q.
Proof. done. Qed.
Lemma ok_mret {A B} p q (x : A) (f : A → P B) (Q : B → pst → Prop) : ok p (f x q) Q → ok p ((mret x ≫= f) q) Q.
Proof. done. Qed.
Lemma ok_assoc {A B C} p q (m : P A) (f : A → P B) (g : B → P C) (Q : C → pst → Prop) :
  ok p ((m ≫= λ x, f x ≫= g) q) Q → ok p (((m ≫= f) ≫= g) q) Q.
Proof. unfold mbind, P_bind. by destruct (m q) as [|[x r]]. Qed.
Lemma ok_conseq {A} p q r (R Q : A → pst → Prop) : moved p q → ok q r R → (∀ x q', moved q q' → sound q' → R x q' → Q x q') → ok p r Q.
Proof. destruct r as [[e q']|[x r]]; [done|]. intros Hp (Hm & Hs & HR) HQ. split_and!; [by transitivity q|done|by apply HQ]. Qed.
Lemma ok_from {A} p q r (Q : A → pst → Prop) : moved p q → ok q r Q → ok p r Q.
Proof. intros Hp Hr. eapply ok_conseq; [done|done|]. done. Qed.

Lemma sound_advances n p : sound p → sound (advances n p).
Proof. intros Hs. unfold sound. destruct (advances_books n p) as [(-> & _) _]. done. Qed.
Lemma sound_advance p : sound p → sound (advance p).
Proof. apply (sound_advances 1). Qed.

Lemma peek_eof p c : isc (peek p) c = true → c ≠ NUL_ → eof p = false.
Proof. intros E Hc. apply isc_true in E. unfold eof, peek in *. by destruct (rest p). Qed.
Lemma eof_len p : eof p = false → (0 < len p)%nat.
Proof. unfold eof, len. destruct (rest p); [done|]. cbn. lia. Qed.

(** *** Automation: moving, soundness, lengths, and one step of a function. *)

Ltac mv :=
  lazymatch goal with
  | |- moved ?p ?x =>
      first [ constr_eq p x; reflexivity
            | lazymatch x with
              | advance ?y => transitivity y; [mv|apply moved_advance]
              | advances ?n ?y => transitivity y; [mv|apply moved_advances]
              | add_nodes _ ?y => transitivity y; [mv|apply moved_core; reflexivity]
              | add_warning _ ?y => transitivity y; [mv|apply moved_core; reflexivity]
              | set_marker _ ?y => transitivity y; [mv|apply moved_core; reflexivity]
              | set_anchors _ ?y => transitivity y; [mv|apply moved_core; reflexivity]
              | to_line_end ?y => transitivity y; [mv|apply moved_advances]
              | id ?y => change (moved p y); mv
              | (if ?c then _ else _) => destruct c; mv
              end
            | match goal with Hm : moved ?z x |- _ => transitivity z; [mv|exact Hm] end ]
  end.
Ltac snd_ :=
  lazymatch goal with
  | |- sound ?x =>
      first [ assumption
            | lazymatch x with
              | advance ?y => apply sound_advance; snd_
              | advances ?n ?y => apply sound_advances; snd_
              | to_line_end ?y => apply sound_advances; snd_
              | add_nodes _ ?y => change (sound y); snd_
              | add_warning _ ?y => change (sound y); snd_
              | set_marker _ ?y => change (sound y); snd_
              | set_anchors ∅ _ => apply map_Forall_empty
              | id ?y => change (sound y); snd_
              | (if ?c then _ else _) => destruct c; snd_
              end ]
  end.
Lemma len_to_line_end p : (len (to_line_end p) ≤ len p)%nat.
Proof. apply moved_len, moved_advances. Qed.

Lemma len_anchors a p : len (set_anchors a p) = len p.
Proof. done. Qed.
Lemma len_marker l p : len (set_marker l p) = len p.
Proof. done. Qed.

(** The lengths of the states in the context. *)
Ltac lens :=
  repeat match goal with
  | Hm : moved ?a ?b |- _ => lazymatch goal with _ : (len b ≤ len a)%nat |- _ => fail | _ => pose proof (moved_len a b Hm) end
  | He : eof ?a = false |- _ => lazymatch goal with _ : (0 < len a)%nat |- _ => fail | _ => pose proof (eof_len a He) end
  end;
  repeat first [rewrite len_advance in * | rewrite len_advances in * | rewrite len_anchors in * | rewrite len_marker in *];
  try lia.

Ltac not_eof :=
  lazymatch goal with
  | |- eof ?p = false =>
      first [ assumption
            | match goal with
              | Hp : isc (peek p) ?c = true |- _ => by apply (peek_eof p c Hp)
              | Hp : isc (peek p) ?c || isc (peek p) ?d = true |- _ =>
                  apply orb_true_iff in Hp as [Hp|Hp]; [by apply (peek_eof p c Hp)|by apply (peek_eof p d Hp)]
              end ]
  end.

Create HintDb yaml_ok.
#[local] Hint Extern 2 (sound _) => snd_ : yaml_ok.
#[local] Hint Extern 2 (eof _ = false) => not_eof : yaml_ok.

Ltac conds :=
  repeat match goal with
  | E : _ && _ = true |- _ => apply andb_true_iff in E as [? ?]
  | E : _ || _ = false |- _ => apply orb_false_iff in E as [? ?]
  | E : negb _ = true |- _ => apply negb_true_iff in E
  | E : negb _ = false |- _ => apply negb_false_iff in E
  end.

Ltac tidy := subst; repeat match goal with Hm : moved ?z ?z |- _ => clear Hm end.
Ltac step :=
  lazymatch goal with
  | |- ok _ (inl _) _ => done
  | |- ok _ (err _ _ _) _ => done
  | |- ok _ (errAt _ _ _) _ => done
  | |- ok _ ((err _ _ ≫= _) _) _ => done
  | |- ok _ ((errAt _ _ ≫= _) _) _ => done
  | |- ok _ (inr _) _ => apply ok_ret; [mv|snd_|]
  | |- ok _ (mret _ _) _ => apply ok_ret; [mv|snd_|]
  | |- ok _ ((get _ ≫= _) _) _ => apply ok_get; cbn beta; unfold id
  | |- ok _ ((modify _ ≫= _) _) _ => apply ok_modify; cbn beta
  | |- ok _ ((mret _ ≫= _) _) _ => apply ok_mret; cbn beta
  | |- ok _ (((_ ≫= _) ≫= _) _) _ => apply ok_assoc
  | |- ok _ (((if ?b then _ else _) ≫= _) _) _ => destruct b eqn:?; conds
  | |- ok _ ((if ?b then _ else _) _) _ => destruct b eqn:?; conds
  | |- ok _ (if ?b then _ else _) _ => destruct b eqn:?; conds
  | |- ok _ ((let '(_, _) := ?x in _) _) _ => destruct x eqn:?
  | |- ok _ (((let '(_, _) := ?x in _) ≫= _) _) _ => destruct x eqn:?
  | |- ok _ ((_ ≫= _) _) _ => eapply ok_bind; [solve [eauto 3 with yaml_ok]|cbn beta; intros; tidy]
  | |- ok ?p (?m ?q) _ => eapply (ok_conseq p q); [mv|solve [eauto 3 with yaml_ok]|cbn beta; intros]
  end.

(** ** Reading *)

Section reader.
Context (opts : Options).

Lemma next_ok p : sound p → eof p = false → ok p (next opts p) (λ _ q, q = advance p ∧ (len q < len p)%nat).
Proof.
  intros Hs He. pose proof (eof_len p He). unfold next, eof in *. destruct (rest p) as [|c r] eqn:E; [done|].
  apply ok_ret; [mv|snd_|]. split; [done|]. lens.
Qed.
Lemma count_ok' p : sound p → ok p (count opts p) (λ _ q, core q = core p).
Proof. intros Hs. unfold count. by repeat step. Qed.
Lemma warn_ok k at_ p : sound p → ok p (warn k at_ p) (λ _ q, core q = core p).
Proof. intros Hs. apply ok_ret; [mv|snd_|done]. Qed.
Lemma skipSpaces_ok p : sound p → ok p (skipSpaces p) (λ _ _, True).
Proof. intros Hs. apply ok_ret; [mv|snd_|done]. Qed.
Lemma skipLine_ok p : sound p → ok p (skipLine p) (λ _ _, True).
Proof. intros Hs. apply ok_ret; [mv|snd_|done]. Qed.
#[local] Hint Resolve next_ok count_ok' warn_ok skipSpaces_ok skipLine_ok : yaml_ok.

Lemma skip_blank_ok turns p : sound p → (len p < turns)%nat → ok p (skip_blank opts turns p) (λ _ _, True).
Proof.
  revert p. induction turns as [|turns IH]; intros p Hs Ht; [lia|]. cbn [skip_blank].
  repeat step; try done; (eapply ok_from; [|apply IH; [snd_|]]; [mv|]); lens.
  pose proof (len_to_line_end p). lens.
Qed.
Lemma skipBlank_ok p : sound p → ok p (skipBlank opts p) (λ _ _, True).
Proof. intros Hs. apply skip_blank_ok; [done|]. unfold len. lia. Qed.
#[local] Hint Resolve skipBlank_ok : yaml_ok.

Lemma skip_flow_blank_ok turns p : sound p → (len p < turns)%nat → ok p (skip_flow_blank opts turns p) (λ _ _, True).
Proof.
  revert p. induction turns as [|turns IH]; intros p Hs Ht; [lia|]. cbn [skip_flow_blank].
  repeat step; try done; (eapply ok_from; [|apply IH; [snd_|]]; [mv|]); lens.
  pose proof (len_to_line_end p). lens.
Qed.
Lemma skipFlowBlank_ok p : sound p → ok p (skipFlowBlank opts p) (λ _ _, True).
Proof. intros Hs. apply skip_flow_blank_ok; [done|]. unfold len. lia. Qed.
Lemma skipIndicatorSeparation_ok p : sound p → ok p (skipIndicatorSeparation opts p) (λ _ _, True).
Proof. intros Hs. unfold skipIndicatorSeparation. by repeat step. Qed.
Lemma skipInlineTrailer_ok p : sound p → ok p (skipInlineTrailer opts p) (λ _ _, True).
Proof. intros Hs. unfold skipInlineTrailer. repeat step; try done. apply ok_ret; [mv|snd_|done]. Qed.
#[local] Hint Resolve skipFlowBlank_ok skipIndicatorSeparation_ok skipInlineTrailer_ok : yaml_ok.
Lemma skipInlineTrailerIfLineEnd_ok p : sound p → ok p (skipInlineTrailerIfLineEnd opts p) (λ _ _, True).
Proof. intros Hs. unfold skipInlineTrailerIfLineEnd. by repeat step. Qed.
Lemma blockOnMarkerLine_ok p : sound p → ok p (blockOnMarkerLine opts p) (λ _ q, q = p).
Proof. intros Hs. unfold blockOnMarkerLine. by repeat step. Qed.
#[local] Hint Resolve skipInlineTrailerIfLineEnd_ok blockOnMarkerLine_ok : yaml_ok.

(** Three characters of a marker. *)
Lemma marker_three (a : ascii) p (B : Type) (f : P B) (Q : B → pst → Prop) :
  sound p → has_prefix (String a (String a (String a ""))) (rest p) = true →
  (∀ q, moved p q → sound q → (len q < len p)%nat → ok p (f q) Q) → ok p ((next opts;; next opts;; next opts;; f) p) Q.
Proof.
  intros Hs Hp Hf. destruct (rest p) as [|c1 [|c2 [|c3 r]]] eqn:E; cbn in Hp; repeat case_decide; try done.
  unfold mbind, P_bind, next. rewrite E. pose proof (advance_rest _ _ _ E) as E1. rewrite E1. pose proof (advance_rest _ _ _ E1) as E2. rewrite E2.
  apply Hf; [mv|snd_|]. rewrite !len_advance. unfold len. rewrite E. cbn. lia.
Qed.
Lemma atDocEnd_prefix p : atDocEnd p = true → has_prefix "..." (rest p) = true.
Proof. unfold atDocEnd. by intros [[_ ?]%andb_true_iff _]%andb_true_iff. Qed.
Lemma atDocStart_prefix p : atDocStart p = true → has_prefix "---" (rest p) = true.
Proof. unfold atDocStart. by intros [[_ ?]%andb_true_iff _]%andb_true_iff. Qed.
Lemma skipDocEnd_ok p : sound p → atDocEnd p = true → ok p (skipDocEnd opts p) (λ _ q, (len q < len p)%nat).
Proof.
  intros Hs Hd. unfold skipDocEnd. apply (marker_three "."); [done|by apply atDocEnd_prefix|]. intros q Hq Hsq Hl. repeat step. lens.
Qed.

(** ** Scalars *)

Definition scalar_at (p : pst) (v : value) (q : pst) : Prop := deep_wf v ∧ core q = core p.

Lemma number_ok s at_ p : sound p → ok p (number_at s at_ p) (λ v q, match v with Some (VInt _ | VFloat _) | None => True | _ => False end ∧ core q = core p).
Proof.
  intros Hs. unfold number_at. destruct (resolveNumber s) as [[v []]|] eqn:E; [| |by step].
  - pose proof (resolveNumber_kind s v true E). repeat step. by destruct v.
  - pose proof (resolveNumber_kind s v false E). repeat step. by destruct v.
Qed.
#[local] Hint Resolve number_ok : yaml_ok.
Lemma resolvePlain_ok s at_ p : sound p → ok p (resolvePlain opts s at_ p) (scalar_at p).
Proof.
  intros Hs. unfold resolvePlain. repeat step; try done. destruct (bool11 s); repeat step; try done.
  all: match goal with |- scalar_at _ (default _ ?v) _ => destruct v as [[]|] end; by destruct_and?.
Qed.
Context (base64_Decode : string → option string) (time_Parse : string → string → option Z).
Abbreviation applyTag := (applyTag opts base64_Decode time_Parse).
#[local] Hint Resolve resolvePlain_ok : yaml_ok.
Lemma applyTag_ok tag raw q at_ p : sound p → ok p (applyTag tag raw q at_ p) (scalar_at p).
Proof.
  intros Hs. unfold YamlScalar.applyTag. repeat step; try done.
  all: repeat (case_match; try done); try (step; by destruct_and?).
Qed.
#[local] Hint Resolve applyTag_ok : yaml_ok.

Lemma plain_lines_ok turns minIndent asKey flow lines p :
  sound p → (len p < turns)%nat → ok p (plain_lines opts turns minIndent asKey flow lines p) (λ _ _, True).
Proof.
  revert lines p. induction turns as [|turns IH]; intros lines p Hs Ht; [lia|]. cbn [plain_lines].
  destruct (plain_span _ None (rest p)) as [n stop]. cbv zeta.
  set (p1 := advances n p). set (p2 := advances _ p1). set (p3 := advances _ p2).
  assert (moved p p1) as M1 by (unfold p1; mv). assert (moved p p3) as M3 by (unfold p3, p2; mv).
  assert (sound p1) by (unfold p1; snd_). assert (sound p3) by (unfold p3, p2; snd_). repeat step; try done.
  eapply ok_from; [exact M3|]. apply IH; [done|]. match goal with E : (_ =? _)%nat = false |- _ => apply Nat.eqb_neq in E end.
  pose proof (moved_len _ _ M3). unfold len in *. lia.
Qed.
Lemma parsePlain_ok minIndent asKey flow p : sound p → ok p (parsePlain opts minIndent asKey flow p) (λ _ _, True).
Proof.
  intros Hs. unfold parsePlain. eapply ok_bind; [apply plain_lines_ok; [done|unfold len; lia]|]. intros. by step.
Qed.

Lemma markerInQuoted_ok open p : sound p → ok p (markerInQuoted open p) (λ _ q, q = p).
Proof. intros Hs. unfold markerInQuoted. by repeat step. Qed.
#[local] Hint Resolve parsePlain_ok markerInQuoted_ok : yaml_ok.
Lemma single_quoted_ok turns open lines cur p : sound p → (len p < turns)%nat → ok p (single_quoted opts turns open lines cur p) (λ _ _, True).
Proof.
  revert lines cur p. induction turns as [|turns IH]; intros lines cur p Hs Ht; [lia|]. cbn [single_quoted]. cbv zeta.
  repeat step; try done; subst; (eapply ok_from; [|apply IH; [snd_|]]; [mv|]); lens.
Qed.
Lemma parseSingleQuoted_ok p : sound p → eof p = false → ok p (parseSingleQuoted opts p) (λ _ _, True).
Proof.
  intros Hs He. unfold parseSingleQuoted. repeat step. eapply ok_from; [|apply single_quoted_ok; [snd_|unfold len; lia]]. mv.
Qed.

Lemma hexEscape_ok n p : sound p → ok p (hexEscape opts n p) (λ _ _, True).
Proof. intros Hs. unfold hexEscape. step; [done|]. cbv zeta. case_match; by repeat step. Qed.
#[local] Hint Resolve hexEscape_ok : yaml_ok.
Lemma escape_ok e p : sound p → ok p (escape opts e p) (λ _ _, True).
Proof. intros Hs. unfold escape. cbv zeta. by repeat step. Qed.
#[local] Hint Resolve escape_ok : yaml_ok.
Lemma double_quoted_ok turns open lines cur p : sound p → (len p < turns)%nat → ok p (double_quoted opts turns open lines cur p) (λ _ _, True).
Proof.
  revert lines cur p. induction turns as [|turns IH]; intros lines cur p Hs Ht; [lia|]. cbn [double_quoted]. cbv zeta.
  repeat step; try done; destruct_and?; subst; (eapply ok_from; [|apply IH; [snd_|]]; [mv|]); lens.
Qed.
Lemma parseDoubleQuoted_ok p : sound p → eof p = false → ok p (parseDoubleQuoted opts p) (λ _ _, True).
Proof.
  intros Hs He. unfold parseDoubleQuoted. repeat step. eapply ok_from; [|apply double_quoted_ok; [snd_|unfold len; lia]]. mv.
Qed.
#[local] Hint Resolve parseSingleQuoted_ok parseDoubleQuoted_ok : yaml_ok.
Lemma parseScalar_ok minIndent asKey flow p : sound p → ok p (parseScalar opts minIndent asKey flow p) (λ _ _, True).
Proof. intros Hs. unfold parseScalar. by repeat step. Qed.
#[local] Hint Resolve parseScalar_ok : yaml_ok.

(** ** Block scalars *)

Lemma block_header_ok i chomp indent p : sound p → ok p (block_header opts i chomp indent p) (λ _ _, True).
Proof.
  revert chomp indent p. induction i as [|i IH]; intros chomp indent p Hs; cbn [block_header]; [by step|]. cbv zeta.
  destruct chomp; by repeat step.
Qed.
Lemma header_end_ok p : sound p → ok p (header_end opts p) (λ _ _, True).
Proof. intros Hs. unfold header_end. repeat step; try done. apply ok_ret; [mv|snd_|done]. Qed.
#[local] Hint Resolve block_header_ok header_end_ok : yaml_ok.

Lemma block_lines_ok turns parentIndent found leading raw p :
  sound p → (len p < turns)%nat → ok p (block_lines opts turns parentIndent found leading raw p) (λ _ _, True).
Proof.
  revert found leading raw p. induction turns as [|turns IH]; intros found leading raw p Hs Ht; [lia|]. cbn [block_lines].
  step; [by step|]. cbv zeta. set (p1 := advances _ p). set (k := span _ (rest p1)). set (p2 := advances k p1).
  assert (moved p p1) as M1 by (unfold p1; mv). assert (moved p (advance p2)) as M2 by (unfold p2, p1; mv).
  assert (sound p1) as S1 by (unfold p1; snd_). assert (sound (advance p2)) as S2 by (unfold p2, p1; snd_).
  assert (len (advance p2) < turns)%nat as L2 by (unfold p2, p1; lens).
  assert (∀ f l r, ok p (block_lines opts turns parentIndent f l r (advance p2)) (λ _ _, True)) as Hgo by (intros; eapply ok_from; [exact M2|by apply IH]).
  step; [apply Hgo|]. destruct found as [b|]; repeat step; try done; apply Hgo.
Qed.
Lemma parseBlockScalar_ok parentIndent p : sound p → eof p = false → ok p (parseBlockScalar opts parentIndent p) (λ _ _, True).
Proof.
  intros Hs He. unfold parseBlockScalar. do 4 step. eapply ok_bind; [apply block_lines_ok; [snd_|unfold len; lia]|]. intros. by step.
Qed.
#[local] Hint Resolve parseBlockScalar_ok : yaml_ok.

(** ** Properties and aliases *)

Lemma skipToNextProp_ok np minIndent p : sound p → ok p (skipToNextProp np minIndent p) (λ _ _, True).
Proof.
  intros Hs. unfold skipToNextProp. step. apply ok_ret; [| |done]; cbv zeta; repeat case_match; first [mv|snd_].
Qed.
#[local] Hint Resolve skipToNextProp_ok : yaml_ok.
Lemma read_props_ok i np minIndent p : sound p → ok p (read_props opts i np minIndent p) (λ _ _, True).
Proof.
  revert np p. induction i as [|i IH]; intros np p Hs; cbn [read_props]; [by step|]. cbv zeta.
  repeat step; try done; (eapply ok_from; [|apply IH; snd_]); mv.
Qed.
Lemma readProps_ok minIndent p : sound p → ok p (readProps opts minIndent p) (λ _ _, True).
Proof. apply read_props_ok. Qed.
Lemma refuseAliasProps_ok np p : sound p → ok p (refuseAliasProps np p) (λ _ q, q = p).
Proof. intros Hs. unfold refuseAliasProps. by repeat step. Qed.
Lemma checkCollectionTag_ok np k p : sound p → ok p (checkCollectionTag np k p) (λ _ q, q = p).
Proof. intros Hs. unfold checkCollectionTag. repeat step; try done; by destruct k; repeat step. Qed.
Lemma bind_ok np v p : sound p → deep_wf v → ok p (bind_ np v p) (λ x q, deep_wf x ∧ core q = core p).
Proof.
  intros Hs Hv. unfold bind_. repeat step; try done. apply ok_ret; [mv| |done]. by apply map_Forall_insert_2.
Qed.
#[local] Hint Resolve readProps_ok refuseAliasProps_ok checkCollectionTag_ok bind_ok : yaml_ok.
Lemma parseAlias_ok p : sound p → eof p = false → ok p (parseAlias opts p) (λ v _, deep_wf v).
Proof.
  intros Hs He. unfold parseAlias. repeat step. destruct (anchors r !! _) as [v|] eqn:E; [|done].
  repeat step; try done. match goal with Hr : sound ?r |- _ => exact (map_Forall_lookup_1 _ _ _ _ Hr E) end.
Qed.
#[local] Hint Resolve parseAlias_ok : yaml_ok.

(** ** Merges *)

Definition merges_wf (l : list mergeRecord) : Prop := Forall (λ r, Forall wf_map (mrSrc r)) l.

Lemma maps_of_wf l ms : maps_of l = Some ms → Forall deep_wf l → Forall wf_map ms.
Proof.
  revert ms. induction l as [|v l IH]; intros ms; cbn [maps_of]; [intros [= <-] _; constructor|]. destruct v as [| | | | | | | |m| | |]; try done.
  destruct (maps_of l) as [ms'|]; [|done]. intros [= <-] [Hm Hl]%Forall_cons. constructor; [by apply deep_map|by apply IH].
Qed.
Lemma mergeSources_ok v at_ p : sound p → deep_wf v → ok p (mergeSources v at_ p) (λ ms q, q = p ∧ Forall wf_map ms).
Proof.
  intros Hs Hv. unfold mergeSources. destruct v as [| | | | | | |l|m| | |]; try done.
  - destruct (maps_of l) as [ms|] eqn:E; [|done]. step. split; [done|]. eapply maps_of_wf; [done|]. by apply deep_seq.
  - step. split; [done|]. constructor; [by apply deep_map|constructor].
Qed.

Lemma merge_entries_wf X es out : wf_map out → Forall entry_wf es → wf_map (foldl (merge_entry X) out es).
Proof.
  intros Ho Hes. revert out Ho. induction Hes as [|e es [Hk Hv] _ IH]; intros out Ho; [done|]. cbn [foldl]. apply IH. unfold merge_entry.
  destruct (_ || _); [done|]. by apply wf_map_SetAt.
Qed.
Lemma merge_sources_wf X ms out : wf_map out → Forall wf_map ms → wf_map (foldl (λ out src, foldl (merge_entry X) out (entries src)) out ms).
Proof.
  intros Ho Hms. revert out Ho. induction Hms as [|m ms [_ Hm] _ IH]; intros out Ho; [done|]. cbn [foldl]. apply IH. by apply merge_entries_wf.
Qed.
Lemma merge_at_wf X merges i out : wf_map out → merges_wf merges → wf_map (merge_at X merges i out).
Proof.
  intros Ho Hm. unfold merge_at. assert (merges_wf (filter (λ r, mrAt r = i) merges)) as Hf by (unfold merges_wf in *; rewrite Forall_forall in *; intros r [_ Hr]%list_elem_of_filter; auto).
  revert out Ho. induction Hf as [|r l Hr _ IH]; intros out Ho; [done|]. cbn [foldl]. apply IH. by apply merge_sources_wf.
Qed.
Lemma apply_merges_wf X merges i es out : wf_map out → merges_wf merges → Forall entry_wf es → wf_map (apply_merges X merges i es out).
Proof.
  intros Ho Hm Hes. revert i out Ho. induction Hes as [|e es [Hk Hv] _ IH]; intros i out Ho; cbn [apply_merges].
  - by apply merge_at_wf.
  - apply IH. apply wf_map_SetAt; [by apply merge_at_wf|done|done].
Qed.
Lemma finish_map_wf m merges : wf_map m → merges_wf merges → wf_map (finish_map m merges).
Proof.
  intros Hm Hg. unfold finish_map. destruct merges; [done|]. unfold applyMerges. apply apply_merges_wf; [apply wf_map_empty|done|apply Hm].
Qed.
#[local] Hint Resolve mergeSources_ok : yaml_ok.

Lemma add_entry_ok m merges key val kp vp p :
  sound p → wf_map m → merges_wf merges → deep_wf key → deep_wf val →
  ok p (add_entry opts m merges key val kp vp p) (λ r _, wf_map r.1 ∧ merges_wf r.2).
Proof.
  intros Hs Hm Hg Hk Hv. unfold add_entry. step.
  - repeat step. destruct_and?. split; [done|]. apply Forall_app. split; [done|]. constructor; [done|constructor].
  - destruct (Entry_ m key) as [e|]; repeat step; try done; (split; [by apply wf_map_SetAt|done]).
Qed.

(** ** Flow collections *)

(** A reader of values. *)
Definition reader_ok (m : P value) : Prop := ∀ p, sound p → ok p (m p) (λ v _, deep_wf v).

Ltac deep :=
  lazymatch goal with
  | |- deep_wf ?v =>
      first [ assumption
            | match goal with
              | Hv : scalar_at _ v _ |- _ => exact (proj1 Hv)
              | Hv : deep_wf v ∧ _ |- _ => exact (proj1 Hv)
              end
            | lazymatch v with
              | VMap (SetAt (mkMap [] _ _) _ _ _ _) => apply deep_map, wf_map_SetAt; [apply wf_map_empty|deep|deep]
              | VMap (finish_map _ _) => apply deep_map, finish_map_wf; by destruct_and?
              | VSeq [] => exact I
              end
            | exact I ]
  end.
#[local] Hint Extern 2 (deep_wf _) => deep : yaml_ok.

Lemma flow_scalar_ok b pair np p : reader_ok pair → sound p → ok p (flow_scalar opts base64_Decode time_Parse b pair np p) (λ v _, deep_wf v).
Proof.
  intros Hp Hs. unfold reader_ok in Hp. unfold flow_scalar. cbv zeta.
  step; [done|]. step. destruct x as [raw q]. step. by repeat step; try deep.
Qed.
Lemma flow_node_ok flow pair b : reader_ok flow → reader_ok pair → reader_ok (flow_node opts base64_Decode time_Parse flow pair b).
Proof.
  intros Hf Hp p Hs. pose proof (λ b np q, flow_scalar_ok b pair np q Hp) as Hsc. unfold reader_ok in Hf. unfold flow_node.
  repeat step; subst; try deep.
Qed.

Lemma flow_seq_ok turns node open items p :
  reader_ok node → sound p → Forall deep_wf items → (len p < turns)%nat → ok p (flow_seq opts turns node open items p) (λ v _, deep_wf v).
Proof.
  intros Hn. revert items p. induction turns as [|turns IH]; intros items p Hs Hi Ht; [lia|]. cbn [flow_seq]. unfold reader_ok in Hn.
  repeat step; try (by apply deep_seq); try (apply deep_seq, Forall_app; by split; [|constructor; [|constructor]]).
  destruct_and?. eapply ok_from; [|apply IH; [snd_| |lens]]; [mv|]. apply Forall_app. by split; [|constructor; [|constructor]].
Qed.

Lemma flow_value_ok node kp p : reader_ok node → sound p → ok p (flow_value opts node kp p) (λ r _, deep_wf r.1).
Proof. intros Hn Hs. unfold reader_ok in Hn. unfold flow_value. by repeat step; cbn [fst]; try deep. Qed.
#[local] Hint Resolve flow_value_ok add_entry_ok : yaml_ok.

Lemma flow_map_ok turns node open m merges p :
  reader_ok node → sound p → wf_map m → merges_wf merges → (len p < turns)%nat →
  ok p (flow_map opts turns node open m merges p) (λ v _, deep_wf v).
Proof.
  intros Hn. revert m merges p. induction turns as [|turns IH]; intros m merges p Hs Hm Hg Ht; [lia|]. cbn [flow_map].
  repeat step; try deep; destruct_and?; cbn [fst snd] in *; (eapply ok_from; [|apply IH; [snd_|done|done|lens]]; mv).
Qed.

Lemma parseFlow_ok levels : reader_ok (parseFlow opts base64_Decode time_Parse levels).
Proof.
  induction levels as [|levels IH]; intros p Hs; [done|]. cbn [parseFlow]. cbv zeta.
  assert (reader_ok (mret VNull)) as H0 by (intros q Hq; by step). pose proof (flow_node_ok _ _ false IH H0) as Hpl.
  pose proof (flow_node_ok _ _ true IH Hpl) as Hin. repeat step; destruct_and?.
  - eapply ok_from; [|apply flow_seq_ok; [done|snd_|constructor|unfold len; lia]]. mv.
  - eapply ok_from; [|apply flow_map_ok; [done|snd_|apply wf_map_empty|constructor|unfold len; lia]]. mv.
Qed.

(** ** Block collections *)

Section nested.
Context (value_at : Z → Z → bool → P value) (Hval : ∀ a b c, reader_ok (value_at a b c)).

Lemma value_at_ok a b c p : sound p → ok p (value_at a b c p) (λ v _, deep_wf v).
Proof. apply Hval. Qed.
#[local] Hint Resolve value_at_ok : yaml_ok.

Lemma block_seq_ok turns indent items p :
  sound p → Forall deep_wf items → (len p < turns)%nat → ok p (block_seq opts value_at turns indent items p) (λ l _, Forall deep_wf l).
Proof.
  revert items p. induction turns as [|turns IH]; intros items p Hs Hi Ht; [lia|]. cbn [block_seq].
  repeat step; try done; destruct_and?; (eapply ok_from; [|apply IH; [snd_| |lens]]; [mv|]); apply Forall_app; by split; [|constructor; [|constructor]].
Qed.
Lemma parseBlockSeq_ok indent p : sound p → ok p (parseBlockSeq opts value_at indent p) (λ v _, deep_wf v).
Proof.
  intros Hs. unfold parseBlockSeq. repeat step. eapply ok_bind; [apply block_seq_ok; [snd_|constructor|unfold len; lia]|]. intros. step. by apply deep_seq.
Qed.
#[local] Hint Resolve parseBlockSeq_ok : yaml_ok.
Lemma parseMapValue_ok keyIndent b p : sound p → ok p (parseMapValue opts value_at keyIndent b p) (λ v _, deep_wf v).
Proof. intros Hs. unfold parseMapValue. by repeat step; try deep. Qed.
Lemma parseExplicitKey_ok indent p : sound p → ok p (parseExplicitKey opts value_at indent p) (λ v _, deep_wf v).
Proof. intros Hs. unfold parseExplicitKey. cbv zeta. by repeat step; try deep. Qed.
#[local] Hint Resolve parseMapValue_ok parseExplicitKey_ok : yaml_ok.
Lemma explicit_key_ok indent p : sound p → eof p = false → ok p (explicit_key opts value_at indent p) (λ r q, deep_wf r.1 ∧ (len q < len p)%nat).
Proof. intros Hs He. unfold explicit_key. repeat step; destruct_and?; (split; [deep|lens]). Qed.
Lemma implicit_key_ok indent p : sound p → ok p (implicit_key opts base64_Decode time_Parse indent p) (λ r q, deep_wf r.1 ∧ (len q < len p)%nat).
Proof. intros Hs. unfold implicit_key. cbv zeta. repeat step; cbn [fst]; (split; [deep|destruct_and?; lens]). Qed.
#[local] Hint Resolve explicit_key_ok implicit_key_ok : yaml_ok.

Lemma block_map_ok turns indent m merges p :
  sound p → wf_map m → merges_wf merges → (len p < turns)%nat →
  ok p (block_map opts base64_Decode time_Parse value_at turns indent m merges p) (λ v _, deep_wf v).
Proof.
  revert m merges p. induction turns as [|turns IH]; intros m merges p Hs Hm Hg Ht; [lia|]. cbn [block_map]. cbv zeta.
  repeat step; try deep.
  all: cbn [fst] in *; repeat step; destruct_and?; cbn [fst snd] in *; (eapply ok_from; [|apply IH; [snd_|done|done|lens]]; mv).
Qed.
Lemma parseBlockMap_ok indent p : sound p → ok p (parseBlockMap opts base64_Decode time_Parse value_at indent p) (λ v _, deep_wf v).
Proof.
  intros Hs. unfold parseBlockMap. repeat step. eapply ok_from; [|apply block_map_ok; [snd_|apply wf_map_empty|constructor|unfold len; lia]]. mv.
Qed.
#[local] Hint Resolve parseBlockMap_ok : yaml_ok.

Lemma tagged_ok np k (m : P value) p : ok p (m p) (λ v _, deep_wf v) → ok p (tagged np k m p) (λ v _, deep_wf v).
Proof. intros Hm. unfold tagged. eapply ok_bind; [exact Hm|]. intros. by repeat step; tidy; repeat step; try deep. Qed.

Lemma node_at_ok flow parentIndent inline start np p :
  reader_ok flow → sound p → sound start → moved start p →
  ok start (node_at opts base64_Decode time_Parse value_at flow parentIndent inline start np p) (λ v _, deep_wf v).
Proof.
  intros Hf Hs Hst Hm. unfold reader_ok in Hf. unfold node_at.
  assert (reader_ok (v ← flow; skipInlineTrailer opts;; mret v)) as Htr by (intros q Hq; by repeat step).
  repeat step; try deep.
  all: try (eapply ok_from; [exact Hm|]; apply tagged_ok; by repeat step).
  change (ok start (tagged (mkProps "" "" (npPos np)) KindMap (parseBlockMap opts base64_Decode time_Parse value_at (Col (npPos np))) start) (λ v _, deep_wf v)).
  apply tagged_ok. by repeat step.
Qed.
End nested.

Lemma parseBlockValue_ok levels minIndent parentIndent inline : reader_ok (parseBlockValue opts base64_Decode time_Parse levels minIndent parentIndent inline).
Proof.
  revert minIndent parentIndent inline. induction levels as [|levels IH]; intros minIndent parentIndent inline p Hs; [done|]. cbn [parseBlockValue].
  repeat step; try deep. cbv zeta. repeat step; try deep.
  eapply ok_from; [|apply node_at_ok; [exact IH|apply parseFlow_ok|snd_|snd_|mv]]. mv.
Qed.

(** ** Documents *)

Lemma at_core p q : core p = core q → atDocStart p = atDocStart q ∧ atDocEnd p = atDocEnd q ∧ atDirectiveLine p = atDirectiveLine q.
Proof.
  intros E. unfold core in E. injection E as _ Er _ Ec. unfold atDocStart, atDocEnd, atDirectiveLine, markerEnd, eof, peek. by rewrite Er, Ec.
Qed.
Lemma directive_len p : atDirectiveLine p = true → eof p = false.
Proof. unfold atDirectiveLine. intros [[_ He]%andb_true_iff _]%andb_true_iff. by apply negb_true_iff. Qed.

Lemma directive_ok at_ text seen p : sound p → ok p (directive at_ text seen p) (λ _ q, core q = core p).
Proof.
  intros Hs. unfold directive. destruct (Fields _) as [|name args]; [done|]. cbv zeta. repeat step; try done.
  destruct (to_comment args) as [|v [|]]; try done. by repeat step.
Qed.
#[local] Hint Resolve directive_ok : yaml_ok.
Lemma skip_directives_ok turns b seen seenYAML p :
  sound p → (len p < turns)%nat → ok p (skip_directives opts turns b seen seenYAML p) (λ _ q, atDirectiveLine q = false).
Proof.
  revert seen seenYAML p. induction turns as [|turns IH]; intros seen seenYAML p Hs Ht; [lia|]. cbn [skip_directives]. cbv zeta.
  repeat step; try done. match goal with E : atDirectiveLine _ = true |- _ => apply directive_len in E end.
  eapply ok_from; [|apply IH; [snd_|]]; [mv|]. lens.
Qed.
Lemma skipDirectives_ok b p : sound p → ok p (skipDirectives opts b p) (λ _ q, atDirectiveLine q = false).
Proof. intros Hs. apply skip_directives_ok; [done|]. unfold len. lia. Qed.
#[local] Hint Resolve skipDirectives_ok : yaml_ok.

Lemma document_start_ok p :
  sound p → ok p (document_start opts p) (λ b q, if atDocStart p then (len q < len p)%nat else q = p ∧ b = true).
Proof.
  intros Hs. unfold document_start. step. destruct (atDocStart p) eqn:E; [|by step]. step.
  apply (ok_from p (set_marker (line p) p)); [mv|]. apply (marker_three "-"); [snd_|by apply atDocStart_prefix|].
  intros q Hq Hsq Hl. repeat step; lens.
Qed.
#[local] Hint Resolve document_start_ok skipDocEnd_ok : yaml_ok.
Lemma value_ok levels a b c p : sound p → ok p (parseBlockValue opts base64_Decode time_Parse levels a b c p) (λ v _, deep_wf v).
Proof. apply parseBlockValue_ok. Qed.
#[local] Hint Resolve value_ok : yaml_ok.

(** A document that is followed by a marker or a directive took something. *)
Lemma document_progress (b : bool) r r0 r1 r2 r3 :
  moved r r0 → moved r0 r1 → moved r1 r2 → moved r2 r3 → atDocEnd r = false → atDirectiveLine r0 = false →
  (if atDocStart r0 then (len r1 < len r0)%nat else r1 = r0 ∧ b = true) → atDocBoundary r3 = true → (len r3 < len r)%nat.
Proof.
  intros M0 M1 M2 M3 He Hd Hst Hb. assert (moved r r3) as M by mv. assert (moved r0 r3) as M' by mv. lens.
  destruct (decide (len r3 < len r)%nat) as [|Hn]; [done|exfalso].
  destruct (atDocStart r0) eqn:Es; [lia|]. assert (core r3 = core r0) as E1 by (apply moved_same; [done|lia]).
  assert (core r3 = core r) as E2 by (apply moved_same; [done|lia]).
  destruct (at_core _ _ E1) as (A1 & _ & A3). destruct (at_core _ _ E2) as (_ & A2 & _). unfold atDocBoundary in Hb. by rewrite A1, A2, A3, Es, He, Hd in Hb.
Qed.

Lemma documents_ok turns levels closed docs p :
  sound p → Forall deep_wf docs → (len p < turns)%nat →
  ok p (documents opts base64_Decode time_Parse turns levels closed docs p) (λ l _, Forall deep_wf l).
Proof.
  revert closed docs p. induction turns as [|turns IH]; intros closed docs p Hs Hd Ht; [lia|]. cbn [documents].
  assert (∀ v c q, deep_wf v → moved p q → sound q → (len q < len p)%nat →
    ok p (documents opts base64_Decode time_Parse turns levels c (docs ++ [v]) q) (λ l _, Forall deep_wf l)) as Hgo.
  { intros v c q Hv Hq Hsq Hl. eapply ok_from; [exact Hq|]. apply IH; [done| |lia]. apply Forall_app. by split; [|constructor; [|constructor]]. }
  repeat step; try done.
  - eapply ok_from; [|apply IH; [snd_|done|lens]]. mv.
  - apply Hgo; [done|mv|snd_|]. destruct (atDocStart r0); [lens|destruct_and?; congruence].
  - apply Forall_app. by split; [|constructor; [|constructor]].
  - apply Hgo; [done|mv|snd_|]. assert (len r3 < len r)%nat by (eapply (document_progress true r r0 r1 r2 r3); try done; unfold atDocBoundary; by destruct (atDirectiveLine r3), (atDocStart r3), (atDocEnd r3)). lens.
  - apply Hgo; [done|mv|snd_|]. assert (len r3 < len r)%nat; [|lens]. eapply (document_progress true r r0 r1 r2 r3); try done.
    unfold atDocBoundary. match goal with E : negb (atDocStart r3) && _ = false |- _ => revert E end. by destruct (atDirectiveLine r3), (atDocStart r3), (atDocEnd r3).
Qed.

(** More turns change nothing: the look at trailing markers ends by itself. *)
Lemma skip_blank_moved turns p : match skip_blank opts turns p with inr (_, q) => moved p q | inl _ => True end.
Proof.
  revert p. induction turns as [|turns IH]; intros p; [done|]. cbn [skip_blank].
  assert (∀ q, moved p q → match skip_blank opts turns q with inr (_, r) => moved p r | inl _ => True end) as Hgo.
  { intros q Hq. specialize (IH q). destruct (skip_blank opts turns q) as [|[? r]]; [done|]. by transitivity q. }
  destruct (eof p); [reflexivity|]. destruct (_ || _); [apply Hgo; mv|]. destruct (isc _ TAB); [destruct (atIndentation p); [done|apply Hgo; mv]|].
  destruct (_ && _); [apply Hgo; mv|reflexivity].
Qed.
Lemma only_markers_turns t t' p : (len p < t)%nat → (len p < t')%nat → only_markers opts t p = only_markers opts t' p.
Proof.
  revert t' p. induction t as [|t IH]; intros [|t'] p Ht Ht'; [lia..|]. cbn [only_markers].
  pose proof (skip_blank_moved (S (String.length (rest p))) p) as Hm. unfold skipBlank.
  destruct (skip_blank opts (S (String.length (rest p))) p) as [|[u q]]; [done|]. destruct (eof q) eqn:He; [done|]. destruct (_ || _); [|done].
  pose proof (len_to_line_end q). apply IH; lens.
Qed.
End reader.

(** C21: Whatever the input and the options, the parser returns: it never reads
    past the end of its input, where the source would panic, none of its loops
    takes more turns than there are characters left (so the bounds given to them
    are enough), and what it returns is an error of its own or a value all of
    whose mappings are well formed, those that come through anchors, aliases and
    merge keys included. *)
Theorem yaml_parse_total (base64_Decode : string → option string) (time_Parse : string → string → option Z) (src : string) (o : Options) :
  match (Parse base64_Decode time_Parse src o).1 with
  | inl e => eMsg e ≠ Panics ∧ eMsg e ≠ OutOfTurns
  | inr v => deep_wf v
  end.
Proof.
  unfold Parse, parseStream. destruct (ValidString _); cbn [negb]; [|done]. set (src' := normalizeNewlines _).
  pose proof (documents_ok (with_defaults o) base64_Decode time_Parse (S (S (String.length src'))) (Z.to_nat (oMaxDepth (with_defaults o))) true [] (initial src')) as Hd.
  unfold len in Hd. cbn [initial rest] in Hd. specialize (Hd (map_Forall_empty _) (Forall_nil_2 _) ltac:(lia)).
  destruct (documents _ _ _ _ _ _ _ _) as [[e q]|[docs q]]; cbn in Hd |- *.
  - by destruct (eMsg e).
  - destruct Hd as (_ & _ & Hd). destruct (_ && _); [done|]. cbn. destruct Hd as [|v docs Hv _]; [done|exact Hv].
Qed.
End total.
