(* ===== verification/Pillar.v ===== *)
(** * Compiling a node's pillar

    Models src/internal/pillar: which pillar files the top files deliver to a
    node (pillar.go), on the node's identity and on the grains it is trusted
    with, how the files and their includes are merged, and the external
    sources that are merged after them (ext.go).

    The file server, the renderer and the external sources are parameters.  A
    compilation writes its diagnostics and threads the rest of the record it
    returns, with the set of files it has seen. *)

From S2P Require Import Prelude GoLib Value Fnmatch StateTypes HighState Compile Target Top.

Open Scope Z_scope.
Import Writer.

(** ** Data *)

Definition TrustedGrains : list string :=
  ["id"; "os"; "os_family"; "osrelease"; "kernel"; "cpuarch"; "virtual"; "fips_mode"].

Record ExtRequest := mkExtRequest {
  req_NodeID : string; req_Env : string; req_Grains : option Map; req_Pillar : value }.

(** An external source: its answer is an error or the mapping it contributes,
    which may be nil. *)
Record ExtSource := mkExtSource {
  ext_Name : string;
  ext_Pillar : ExtRequest → string + option Map;
  FailSoft : bool;
  Secret : bool }.

(** What pillar.go itself reads of its configuration; the rest is handed to the
    renderer.  [OnSecret] says whether there is somebody to be told of secrets,
    [OnRendered] whether there is somebody to be shown what was rendered. *)
Record PillarConfig := mkPillarConfig {
  pEnv : string;
  AllEnvs : bool;
  pNodeID : string;
  pGrains : option Map;
  NodeAttrs : option Map;
  pTrustedGrains : list string;
  pStrategy : Strategy;
  pMergeLists : bool;
  pNodegroups : Nodegroups;
  Ext : list ExtSource;
  OnSecret : bool;
  OnRendered : bool }.

Record AuditEntry := mkAudit { aEnv : string; aTarget : string; aBasis : string; aSLS : list string }.

(** A rendering: the value or the error, the warnings, and the text with the
    pipeline that produced it. *)
Record Rendered := mkRendered {
  rResult : string + value; rWarnings : list string; rText : string; rPipeline : list string }.

(** [pRender env sls path src partial] renders a file against the pillar
    compiled so far; a top file has none. *)
Record PillarCompiler := mkPillarCompiler {
  pSource : string → string → source_error + (string * string);
  pEnvs : list string;
  pRender : string → string → string → string → option value → Rendered;
  pConfig : PillarConfig }.

(** The record Compile returns, less its diagnostics, with the files that have
    been seen, the secrets offered and the renderings shown. *)
Record Compiled := mkPillar {
  cPillar : value;
  cAudit : list AuditEntry;
  cSLSNames : list string;
  cExt : list string;
  ExtFailed : list string;
  cRenderWarnings : list string;
  cSeen : gset string;
  cSecrets : list string;
  cShown : list (string * string * list string * string) }.

Definition with_pillar (v : value) (o : Compiled) : Compiled :=
  mkPillar v (cAudit o) (cSLSNames o) (cExt o) (ExtFailed o) (cRenderWarnings o) (cSeen o) (cSecrets o) (cShown o).
Definition add_audit (a : AuditEntry) (o : Compiled) : Compiled :=
  mkPillar (cPillar o) (cAudit o ++ [a]) (cSLSNames o) (cExt o) (ExtFailed o) (cRenderWarnings o) (cSeen o) (cSecrets o) (cShown o).
Definition add_sls (name : string) (o : Compiled) : Compiled :=
  mkPillar (cPillar o) (cAudit o) (cSLSNames o ++ [name]) (cExt o) (ExtFailed o) (cRenderWarnings o) (cSeen o) (cSecrets o) (cShown o).
Definition add_ext (name : string) (o : Compiled) : Compiled :=
  mkPillar (cPillar o) (cAudit o) (cSLSNames o) (cExt o ++ [name]) (ExtFailed o) (cRenderWarnings o) (cSeen o) (cSecrets o) (cShown o).
Definition add_failed (name : string) (o : Compiled) : Compiled :=
  mkPillar (cPillar o) (cAudit o) (cSLSNames o) (cExt o) (ExtFailed o ++ [name]) (cRenderWarnings o) (cSeen o) (cSecrets o) (cShown o).
Definition add_warnings (l : list string) (o : Compiled) : Compiled :=
  mkPillar (cPillar o) (cAudit o) (cSLSNames o) (cExt o) (ExtFailed o) (cRenderWarnings o ++ l) (cSeen o) (cSecrets o) (cShown o).
Definition add_seen (key : string) (o : Compiled) : Compiled :=
  mkPillar (cPillar o) (cAudit o) (cSLSNames o) (cExt o) (ExtFailed o) (cRenderWarnings o) ({[key]} ∪ cSeen o) (cSecrets o) (cShown o).
Definition add_secrets (l : list string) (o : Compiled) : Compiled :=
  mkPillar (cPillar o) (cAudit o) (cSLSNames o) (cExt o) (ExtFailed o) (cRenderWarnings o) (cSeen o) (cSecrets o ++ l) (cShown o).
Definition add_shown (p : string * string * list string * string) (o : Compiled) : Compiled :=
  mkPillar (cPillar o) (cAudit o) (cSLSNames o) (cExt o) (ExtFailed o) (cRenderWarnings o) (cSeen o) (cSecrets o) (cShown o ++ [p]).

(** What one environment's heading delivers. *)
Record topMatch := mkTopMatch { tmEnv : string; tmNames : list string; tmOptional : gset string }.

(** An entry of a top file, under its heading. *)
Record topEntry := mkTopEntry { teEnv : string; teTarget : string; teVal : value; teValPos : Pos; teKeyPos : Pos }.

(** A diagnostic at the top file from an error. *)
Definition add_err (pos : Pos) (err : gomsg) : DW unit := ((), [mkDiag pos TopName "" err [] false]).

Section pillar.
Context `{Runtime} `{NetIP} (regex_Compile : string → option (string → bool)) (target_error : TError → string).

Definition env (c : PillarCompiler) : string :=
  if bool_decide (pEnv (pConfig c) ≠ "") then pEnv (pConfig c) else "base".

Definition trusted (c : PillarCompiler) : list string :=
  if bool_decide (pTrustedGrains (pConfig c) ≠ []) then pTrustedGrains (pConfig c) else TrustedGrains.

(** ** What a top expression is evaluated against *)

Definition map_Get (m : option Map) (k : string) : option value := m ≫= λ m, Get m (VString k).

Definition trusted_grains (c : PillarCompiler) : Map :=
  foldl (λ out name, match map_Get (pGrains (pConfig c)) name with
                     | Some v => MSet out (VString name) v
                     | None => out
                     end) Value.NewMap (trusted c).

Definition targetNode (c : PillarCompiler) : Node :=
  let grains := match NodeAttrs (pConfig c) with
                | Some attrs => if (0 <? Len attrs)%nat then MSet (trusted_grains c) (VString "node") (VMap attrs)
                                else trusted_grains c
                | None => trusted_grains c
                end in
  mkNode (pNodeID (pConfig c)) (Some grains) None None.

Definition topEnvs (c : PillarCompiler) : list string :=
  if AllEnvs (pConfig c) then pEnvs c else [env c].

(** ** Which expressions are permitted *)

Fixpoint dedupe_from (prev : string) (l : list string) : list string :=
  match l with
  | [] => []
  | s :: l' => if bool_decide (s ≠ prev) then s :: dedupe_from s l' else dedupe_from s l'
  end.
Definition dedupe (sorted : list string) : list string :=
  match sorted with [] => [] | s :: l => s :: dedupe_from s l end.

Definition node_path (key : string) : bool := bool_decide (key = "node") || has_prefix "node:" key.

(** The loop over the terms: the basis, and the grains that are not trusted. *)
Fixpoint check_terms (expr : string) (tr : list string) (ts : list Term) (basis : string) (untrusted : list string)
    : gomsg + string * list string :=
  match ts with
  | [] => inr (basis, untrusted)
  | t :: ts' =>
      match Kind t with
      | Glob | List | Regex => check_terms expr tr ts' basis untrusted
      | Subnet =>
          inl (Msg "pillar top expression %q targets on an address (S@ or match: ipcidr), which is read from the ipv4 and ipv6 grains a node reports about itself; target the node ID, or a hub-authoritative attribute under node: (SPEC section 12.4)" [FStr expr])
      | Target.Pillar | PillarRegex =>
          inl (Msg "pillar top expression %q targets on pillar, which is not available while pillar is being compiled" [FStr expr])
      | Grain | GrainRegex =>
          if node_path (TKey t) then check_terms expr tr ts' "grain" untrusted
          else if bool_decide (TKey t ∈ tr) then check_terms expr tr ts' "grain" untrusted
          else check_terms expr tr ts' "grain" (untrusted ++ [TKey t])
      | k =>
          inl (Msg "pillar top expression %q uses a term of kind %s, which pillar targeting does not know to be safe (SPEC section 12.4)" [FStr expr; FStr (TKind_String k)])
      end
  end.

Definition checkTargetIsPermitted (c : PillarCompiler) (expr : string) (matcher : Matcher) : gomsg + string :=
  match check_terms expr (trusted c) (mterms matcher) "glob" [] with
  | inl e => inl e
  | inr (basis, []) => inr basis
  | inr (_, untrusted) =>
      inl (Msg "pillar top expression %q targets on the grain(s) %s, which a node controls and which are not in pillar_trusted_grains; add them deliberately, or move the attribute to a hub-authoritative node attribute (SPEC section 12.4)"
             [FStr expr; FStr (Join (dedupe (merge_sort str_le untrusted)) ", ")])
  end.

(** The names of a target's list, and whether a missing one is passed over. *)
Fixpoint top_items (items : list value) (names : list string) (ignoreMissing : bool) : list string * bool :=
  match items with
  | [] => (names, ignoreMissing)
  | VString t :: items' => top_items items' (names ++ [t]) ignoreMissing
  | VMap m :: items' =>
      match entries m with
      | [e] => top_items items' names
                 (if bool_decide (KeyString (Key e) = "ignore_missing") then Truthy (Val e) else ignoreMissing)
      | _ => top_items items' names ignoreMissing
      end
  | _ :: items' => top_items items' names ignoreMissing
  end.

Definition topSLSNames (v : value) (pos : Pos) : DW (list string * bool) :=
  match v with
  | VSeq items => mret (top_items items [] false)
  | _ => Add pos TopName "" "a pillar top target must hold a list of SLS names, found %s" [FStr (TypeName v)];;
         mret ([], false)
  end.

(** ** Reading the top files *)

(** rendered: the text that was rendered is shown, if anybody asked. *)
Definition rendered (c : PillarCompiler) (path sls : string) (res : Rendered) (out : Compiled) : Compiled :=
  if OnRendered (pConfig c) && bool_decide (rText res ≠ "") then add_shown (path, sls, rPipeline res, rText res) out else out.

Definition readTop (c : PillarCompiler) (env : string) (out : Compiled) : DW (option (list Entry) * Compiled) :=
  match pSource c env TopName with
  | inl ErrNotFound => mret (None, out)
  | inl (ErrRead msg) =>
      Add (mkPos TopName 0 0) TopName "" "reading the pillar top file for %q: %v" [FStr env; FStr msg];; mret (None, out)
  | inr (src, path) =>
      let res := pRender c env TopName path src None in
      let out := add_warnings (rWarnings res) (rendered c path TopName res out) in
      match rResult res with
      | inl err => Add (mkPos path 0 0) TopName "" "%v" [FStr err];; mret (None, out)
      | inr VNull => mret (None, out)
      | inr v =>
          match entries_of v with
          | Some es => mret (Some es, out)
          | None => Add (mkPos path 0 0) TopName "" "a pillar top file must hold a mapping of environments, found %s"
                      [FStr (TypeName v)];; mret (None, out)
          end
      end
  end.

(** The entries gathered so far: the keys in the order of their first
    appearance, and what each stands for. *)
Definition gathered : Type := list string * gmap string topEntry.

Definition gather_target (heading : string) (g : gathered) (te : Entry) : gathered :=
  let expr := KeyString (Key te) in
  let k := heading +:+ "|" +:+ expr in
  (if bool_decide (is_Some (g.2 !! k)) then g.1 else g.1 ++ [k],
   <[k := mkTopEntry heading expr (Val te) (ValPos te) (KeyPos te)]> g.2).

Definition gather_heading (c : PillarCompiler) (g : gathered) (e : Entry) : DW gathered :=
  let heading := KeyString (Key e) in
  match entries_of (Val e) with
  | None =>
      Add (ValPos e) TopName ""
        "the %q environment in the pillar top file must hold a mapping of target expressions" [FStr heading];; mret g
  | Some targets =>
      if negb (AllEnvs (pConfig c)) && bool_decide (heading ≠ env c) then mret g
      else mret (foldl (gather_target heading) g targets)
  end.

Fixpoint gather_tops (c : PillarCompiler) (envs : list string) (g : gathered) (out : Compiled)
    : DW (gathered * Compiled) :=
  match envs with
  | [] => mret (g, out)
  | e :: envs' =>
      r ← readTop c e out;
      match r with
      | (None, out) => gather_tops c envs' g out
      | (Some es, out) => g ← fold_DW (gather_heading c) g es; gather_tops c envs' g out
      end
  end.

(** The match of an environment grows where it is, or is added at the end. *)
Fixpoint add_match (e : string) (names : list string) (ignoreMissing : bool) (ms : list topMatch) : list topMatch :=
  let opt := if ignoreMissing then list_to_set names else ∅ in
  match ms with
  | [] => [mkTopMatch e (appendUnique [] names) opt]
  | m :: ms' =>
      if bool_decide (tmEnv m = e) then mkTopMatch e (appendUnique (tmNames m) names) (tmOptional m ∪ opt) :: ms'
      else m :: add_match e names ignoreMissing ms'
  end.

(** One entry: compiled, judged on what it compiled to, and matched.  [None] is
    the compilation of the target running out of steps, which it does not. *)
Definition resolve_entry (c : PillarCompiler) (e : topEntry) (ms : list topMatch) (out : Compiled)
    : DW (option (list topMatch * Compiled)) :=
  match CompileTopTarget regex_Compile (teTarget e) (teVal e) (pNodegroups (pConfig c)) with
  | None => mret None
  | Some (inl err) =>
      Add (teKeyPos e) TopName "" "%v" [FStr (top_error target_error err)];; mret (Some (ms, out))
  | Some (inr matcher) =>
      match checkTargetIsPermitted c (teTarget e) matcher with
      | inl err => add_err (teKeyPos e) err;; mret (Some (ms, out))
      | inr basis =>
          if negb (MatcherMatch matcher (targetNode c)) then mret (Some (ms, out))
          else
            r ← topSLSNames (teVal e) (teValPos e);
            let '(names, ignoreMissing) := r in
            if bool_decide (teEnv e ∉ pEnvs c) then
              Add (teKeyPos e) TopName ""
                "the pillar top file delivers %s from environment %q, which pillar_roots does not serve"
                [FStr (Join names ", "); FStr (teEnv e)];; mret (Some (ms, out))
            else
              mret (Some (add_match (teEnv e) names ignoreMissing ms,
                          add_audit (mkAudit (teEnv e) (teTarget e) basis names) out))
      end
  end.

Fixpoint resolve_entries (c : PillarCompiler) (es : list topEntry) (ms : list topMatch) (out : Compiled)
    : DW (option (list topMatch * Compiled)) :=
  match es with
  | [] => mret (Some (ms, out))
  | e :: es' =>
      o ← resolve_entry c e ms out;
      match o with None => mret None | Some (ms, out) => resolve_entries c es' ms out end
  end.

Definition resolveTops (c : PillarCompiler) (out : Compiled) : DW (option (list topMatch * Compiled)) :=
  r ← gather_tops c (topEnvs c) ([], ∅) out;
  let '((order, es), out) := r in
  resolve_entries c (omap (λ k, es !! k) order) [] out.

(** ** Merging the files *)

Definition isPackage (path : string) : bool := HasSuffix path "/init.sls" || bool_decide (path = "init.sls").

Definition resolveRelative (name sls : string) (pkg : bool) : string :=
  if negb (has_prefix "." name) then name
  else
    let rest := TrimLeft "." name in
    let levels := (String.length name - String.length rest)%nat in
    let comps := if bool_decide (sls ≠ "") then Split sls "." else [] in
    let comps := if pkg then comps ++ ["init"] else comps in
    if (length comps <? levels)%nat then rest
    else match take (length comps - levels) comps with
         | [] => rest
         | comps => Join comps "." +:+ "." +:+ rest
         end.

Definition includeNames (v : value) (from path : string) : list string :=
  let pkg := isPackage path in
  match v with
  | VSeq items => omap (λ item, match item with VString s => Some (resolveRelative s from pkg) | _ => None end) items
  | VString s => [resolveRelative s from pkg]
  | _ => []
  end.

Definition withoutKey (m : Map) (key : string) : Map :=
  foldl (λ out e, if bool_decide (KeyString (Key e) = key) then out else set_entry out e) Value.NewMap (entries m).

Definition merge_opts (c : PillarCompiler) : MergeOpts := mkMergeOpts (pStrategy (pConfig c)) (pMergeLists (pConfig c)).

(** mergeSLS up to its includes: the path and the body of a file that is to be
    merged. *)
Definition open_pillar (c : PillarCompiler) (stack : list string) (env name : string) (optional : bool) (out : Compiled)
    : DW (Compiled * option (string * value)) :=
  let key := sls_key env name in
  match cycle_from key stack with
  | Some path =>
      Warn (mkPos name 0 0) name "" "pillar include cycle: %s; the second arrival is skipped"
        [FStr (Join (path ++ [key]) " -> ")];; mret (out, None)
  | None =>
      if bool_decide (key ∈ cSeen out) then mret (out, None)
      else
        let out := add_seen key out in
        match pSource c env name with
        | inl ErrNotFound =>
            if optional then mret (out, None)
            else Add (mkPos name 0 0) name "" "pillar sls %q was not found in environment %q" [FStr name; FStr env];;
                 mret (out, None)
        | inl (ErrRead msg) =>
            Add (mkPos name 0 0) name "" "reading pillar sls %q: %v" [FStr name; FStr msg];; mret (out, None)
        | inr (src, path) =>
            let res := pRender c env name path src (Some (cPillar out)) in
            let out := add_warnings (rWarnings res) (rendered c path name res out) in
            match rResult res with
            | inl err => Add (mkPos path 0 0) name "" "%v" [FStr err];; mret (out, None)
            | inr VNull => mret (add_sls name out, None)
            | inr v =>
                match entries_of v with
                | Some _ => mret (out, Some (path, v))
                | None => Add (mkPos path 0 0) name "" "a pillar sls must hold a mapping, found %s" [FStr (TypeName v)];;
                          mret (out, None)
                end
            end
        end
  end.

(** The names a body includes, and the body without them. *)
Definition includes_of (name path : string) (body : value) : list string * value :=
  match body with
  | VMap m =>
      match Get m (VString "include") with
      | Some inc => (includeNames inc name path, VMap (withoutKey m "include"))
      | None => ([], body)
      end
  | _ => ([], body)
  end.

(** What follows the includes. *)
Definition close_pillar (c : PillarCompiler) (name : string) (body : value) (out : Compiled) : Compiled :=
  add_sls name (with_pillar (Merge (cPillar out) body (merge_opts c)) out).

Fixpoint mergeSLS (fuel : nat) (c : PillarCompiler) (stack : list string) (env name : string) (optional : bool)
    (out : Compiled) : DW (option Compiled) :=
  match fuel with
  | O => mret None
  | S f =>
      o ← open_pillar c stack env name optional out;
      match o with
      | (out, None) => mret (Some out)
      | (out, Some (path, body)) =>
          let '(names, body) := includes_of name path body in
          o ← load_all (λ n, mergeSLS f c (stack ++ [sls_key env name]) env n false) names out;
          match o with
          | None => mret None
          | Some out => mret (Some (close_pillar c name body out))
          end
      end
  end.

(** ** External sources *)

Fixpoint offerStrings (v : value) : list string :=
  match v with
  | VMap m => (fix go es := match es with [] => [] | e :: r => offerStrings (Val e) ++ go r end) (entries m)
  | VSeq l => (fix go l := match l with [] => [] | x :: r => offerStrings x ++ go r end) l
  | VString s => [s]
  | _ => []
  end.

Definition merge_source (c : PillarCompiler) (out : Compiled) (src : ExtSource) : DW Compiled :=
  let pos := mkPos ("ext_pillar:" +:+ ext_Name src) 0 0 in
  match ext_Pillar src (mkExtRequest (pNodeID (pConfig c)) (env c) (pGrains (pConfig c)) (cPillar out)) with
  | inl err =>
      let out := add_failed (ext_Name src) out in
      if FailSoft src then
        Warn pos "ext_pillar" (ext_Name src)
          "the external pillar source %q failed and ext_pillar_fail is ignore, so this node's pillar is missing whatever it would have contributed: %v"
          [FStr (ext_Name src); FStr err];; mret out
      else
        Add pos "ext_pillar" (ext_Name src) "the external pillar source %q failed: %v" [FStr (ext_Name src); FStr err];;
        mret out
  | inr None => mret out
  | inr (Some m) =>
      if (Len m =? 0)%nat then mret out
      else
        let out := if OnSecret (pConfig c) && Secret src then add_secrets (offerStrings (VMap m)) out else out in
        mret (add_ext (ext_Name src) (with_pillar (Merge (cPillar out) (VMap m) (merge_opts c)) out))
  end.

Definition mergeExt (c : PillarCompiler) (out : Compiled) : DW Compiled := fold_DW (merge_source c) out (Ext (pConfig c)).

(** ** Compile *)

Definition merge_match (fuel : nat) (c : PillarCompiler) (m : topMatch) (out : Compiled) : DW (option Compiled) :=
  load_all (λ name, mergeSLS fuel c [] (tmEnv m) name (bool_decide (name ∈ tmOptional m))) (tmNames m) out.

Definition empty_pillar : Compiled := mkPillar (VMap Value.NewMap) [] [] [] [] [] ∅ [] [].

Definition Compile (fuel : nat) (c : PillarCompiler) : DW (option Compiled) :=
  r ← resolveTops c empty_pillar;
  match r with
  | None => mret None
  | Some (ms, out) =>
      o ← load_all (merge_match fuel c) ms out;
      match o with
      | None => mret None
      | Some out => out ← mergeExt c out; mret (Some out)
      end
  end.
End pillar.
