(* ===== verification/PillarTrust.v ===== *)
(** * What a pillar target can read

    The check of src/internal/pillar/pillar.go judges the terms a target was
    compiled to.  Here: the terms a matcher reports are exactly the leaves of
    its tree, wherever they are written (a fact of internal/target), and so a
    target that passes the check reads nothing of a node but its identity, the
    grains on the allowlist and what the hub says of it. *)

From S2P Require Import Prelude GoLib Value Fnmatch StateTypes HighState Compile Target Top Pillar.

Open Scope Z_scope.

(** ** Terms and leaves *)

Fixpoint leaves (t : tnode) : list leaf :=
  match t with
  | NLeaf l => [l]
  | NAny l | NAll l => (fix go l := match l with [] => [] | x :: r => leaves x ++ go r end) l
  | NNot x => leaves x
  end.

Definition leaves_of (l : list tnode) : list leaf := concat (leaves <$> l).

Lemma leaves_any l : leaves (NAny l) = leaves_of l.
Proof. unfold leaves_of. induction l as [|x l IH]; [done|]. cbn in *. by rewrite IH. Qed.
Lemma leaves_all l : leaves (NAll l) = leaves_of l.
Proof. unfold leaves_of. induction l as [|x l IH]; [done|]. cbn in *. by rewrite IH. Qed.
Lemma leaves_of_app l l' : leaves_of (l ++ l') = leaves_of l ++ leaves_of l'.
Proof. unfold leaves_of. by rewrite fmap_app, concat_app. Qed.
Lemma leaves_mk_any l : leaves (mk_any l) = leaves_of l.
Proof. destruct l as [|x [|y l]]; [done| |apply leaves_any]. unfold leaves_of. cbn. by rewrite app_nil_r. Qed.
Lemma leaves_mk_all l : leaves (mk_all l) = leaves_of l.
Proof. destruct l as [|x [|y l]]; [done| |apply leaves_all]. unfold leaves_of. cbn. by rewrite app_nil_r. Qed.

Section terms.
Context `{Runtime} `{NetIP} (regex_Compile : string → option (string → bool)).

(** A term names the kind and the key of the text its leaf was compiled from. *)
Definition leaf_for (l : leaf) (t : Term) : Prop :=
  ∃ expr b b', compileLeaf regex_Compile (Kind t) expr b = inr (l, b') ∧ TKey t = leafKey (Kind t) expr.

(** A run records the leaves of what it returns, after the terms it began with. *)
Definition recorded (st st' : pst) (ls : list leaf) : Prop :=
  ∃ ts, terms st' = terms st ++ ts ∧ Forall2 leaf_for ls ts.

Lemma recorded_nil st : recorded st st [].
Proof. exists []. by rewrite app_nil_r. Qed.

Lemma recorded_app st st1 st2 l l' : recorded st st1 l → recorded st1 st2 l' → recorded st st2 (l ++ l').
Proof.
  intros (ts & E & HF) (ts' & E' & HF'). exists (ts ++ ts').
  split; [by rewrite E', E, (assoc_L (++))|by apply Forall2_app].
Qed.

Section parser.
Context (src : string) (all : list tok) (compileTerm : tok → pst → presult).
Hypothesis term_recorded : ∀ t st n st', compileTerm t st = Some (inr (n, st')) → recorded st st' (leaves n).

Definition records (p : nat → pst → presult) : Prop :=
  ∀ depth st n st', p depth st = Some (inr (n, st')) → recorded st st' (leaves n).
(** A loop adds the leaves of what it reads to those it was given. *)
Definition records_loop (p : nat → list tnode → pst → presult) : Prop :=
  ∀ depth acc st n st', p depth acc st = Some (inr (n, st')) →
    ∃ ls, leaves n = leaves_of acc ++ ls ∧ recorded st st' ls.

Lemma chain_records (p : nat → pst → presult) loop depth st n st' :
  records p → records_loop loop →
  match p depth st with Some (inr (first, st)) => loop depth [first] st | e => e end = Some (inr (n, st')) →
  recorded st st' (leaves n).
Proof.
  intros Hp Hl E. destruct (p depth st) as [[e|[x st1]]|] eqn:E1; [done| |done].
  destruct (Hl _ _ _ _ _ E) as (ls & -> & Hls). eapply recorded_app; [|done].
  unfold leaves_of. cbn. rewrite app_nil_r. by eapply Hp.
Qed.

Lemma loop_records (p : nat → pst → presult) loop (op : tok → bool) mk depth acc st n st' :
  (∀ l, leaves (mk l) = leaves_of l) → records p → records_loop loop →
  match rest st with
  | t :: r =>
      if op t then
        match p depth (set_rest r st) with Some (inr (rhs, st)) => loop depth (acc ++ [rhs]) st | e => e end
      else Some (inr (mk acc, st))
  | [] => Some (inr (mk acc, st))
  end = Some (inr (n, st')) →
  ∃ ls, leaves n = leaves_of acc ++ ls ∧ recorded st st' ls.
Proof.
  intros Hmk Hp Hl. assert ((Some (inr (mk acc, st)) : presult) = Some (inr (n, st')) →
    ∃ ls, leaves n = leaves_of acc ++ ls ∧ recorded st st' ls) as Hstop.
  { intros [= <- <-]. exists []. rewrite app_nil_r, Hmk. split; [done|apply recorded_nil]. }
  destruct (rest st) as [|t r]; [done|]. destruct (op t); [|done].
  destruct (p depth (set_rest r st)) as [[e|[x st1]]|] eqn:E1; [done| |done]. intros E.
  destruct (Hl _ _ _ _ _ E) as (ls & -> & Hls). exists (leaves x ++ ls).
  rewrite leaves_of_app, <-(assoc_L (++)). unfold leaves_of at 2. cbn. rewrite app_nil_r. split; [done|].
  eapply recorded_app; [|done]. by apply (Hp _ _ _ _ E1).
Qed.

Lemma parser_records fuel :
  records (parseOr src all compileTerm fuel) ∧ records_loop (or_loop src all compileTerm fuel) ∧
  records (parseAnd src all compileTerm fuel) ∧ records_loop (and_loop src all compileTerm fuel) ∧
  records (parseNot src all compileTerm fuel) ∧ records (parsePrimary src all compileTerm fuel).
Proof.
  induction fuel as [|f (IHor & IHol & IHand & IHal & IHnot & IHprim)]; [by split_and!|]. split_and!.
  - intros depth st n st'. rewrite parseOr_S. by apply chain_records.
  - intros depth acc st n st'. rewrite or_loop_S. by apply (loop_records _ _ _ mk_any); [apply leaves_mk_any|..].
  - intros depth st n st'. rewrite parseAnd_S. by apply chain_records.
  - intros depth acc st n st'. rewrite and_loop_S. by apply (loop_records _ _ _ mk_all); [apply leaves_mk_all|..].
  - intros depth st n st'. rewrite parseNot_S. destruct (rest st) as [|t r]; [apply IHprim|].
    destruct (is_not t); [|apply IHprim]. destruct (_ <=? _)%nat; [done|].
    destruct (parseNot _ _ _ _ _ _) as [[e|[x st1]]|] eqn:E1; [done| |done]. intros [= <- <-].
    by apply (IHnot _ _ _ _ E1).
  - intros depth st n st'. rewrite parsePrimary_S. destruct (rest st) as [|t r]; [done|].
    case_bool_decide.
    + destruct (_ <=? _)%nat; [done|]. destruct (parseOr _ _ _ _ _ _) as [[e|[x st1]]|] eqn:E1; [done| |done].
      destruct (rest st1); [done|]. case_bool_decide; [|done]. intros [= <- <-]. apply (IHor _ _ _ _ E1).
    + case_bool_decide; [done|]. destruct (is_and t || is_or t); [done|]. by intros ?%term_recorded.
Qed.
End parser.

Lemma leaf_term_records kind expr c st n st' :
  leaf_term regex_Compile kind (leafKey kind expr) expr c st = Some (inr (n, st')) → recorded st st' (leaves n).
Proof.
  unfold leaf_term. destruct (compileLeaf _ kind expr _) as [e|[l b]] eqn:E; [done|]. intros [= <- <-].
  exists [mkTerm kind (leafKey kind expr)]. split; [done|]. constructor; [|done]. by exists expr, (left_ st), b.
Qed.

Lemma compileTerm_records sub groups src t st n st' :
  (∀ e b n ts b', sub e b = Some (inr (n, ts, b')) → Forall2 leaf_for (leaves n) ts) →
  compileTerm regex_Compile sub groups src t st = Some (inr (n, st')) → recorded st st' (leaves n).
Proof.
  intros Hsub. unfold compileTerm. pose proof (leaf_term_records Glob (text t) (col t) st n st') as Hg.
  change (leafKey Glob (text t)) with "" in Hg.
  destruct (IndexByte "@" (text t)) as [[|at_]|]; [done| |done].
  destruct (kindLetter _) as [kind|]; [|done]. case_bool_decide; [done|].
  case_bool_decide; [|apply leaf_term_records].
  destruct (expandNodegroup groups _) as [[e|expanded]|]; [done| |done].
  destruct (sub expanded (left_ st)) as [[e|[[node ts] b]]|] eqn:Es; [done| |done]. intros [= <- <-].
  exists ts. split; [done|]. by eapply Hsub.
Qed.

Lemma parse_records nest groups src b node ts b' :
  parse regex_Compile nest groups src b = Some (inr (node, ts, b')) → Forall2 leaf_for (leaves node) ts.
Proof.
  revert src b node ts b'. induction nest as [|nest IH]; intros src b node ts b'; [done|]. rewrite parse_S.
  destruct (tokenize src) as [|t0 toks]; [done|]. cbn zeta.
  destruct (parseOr _ _ _ _ _ _) as [[e|[x st]]|] eqn:E; [done| |done]. destruct (rest st); [|done].
  intros [= <- <- _]. refine ((λ Hp, _) (proj1 (parser_records _ _ _ _ _) _ _ _ _ E)).
  - destruct Hp as (ts & -> & HF). done.
  - intros t st0 n st'. apply compileTerm_records, IH.
Qed.

(** The terms of a matcher are its leaves, in order. *)
Lemma matcher_records kind expr groups m :
  Target.Compile regex_Compile kind expr groups = Some (inr m) → Forall2 leaf_for (leaves (ast m)) (mterms m).
Proof.
  unfold Target.Compile. destruct (_ <? _)%nat; [done|].
  assert (∀ src, with_ast kind expr (parse regex_Compile 2 groups src maxPatternBytes) = Some (inr m) →
            Forall2 leaf_for (leaves (ast m)) (mterms m)) as Hp.
  { intros src. destruct (parse _ _ _ _ _) as [[e|[[node ts] b]]|] eqn:E; [done| |done]. intros [= <-].
    by eapply parse_records. }
  destruct kind; try (destruct (compileLeaf _ _ _ _) as [e|[l b]] eqn:E; [done|]; intros [= <-];
    constructor; [|constructor]; by exists expr, maxPatternBytes, b).
  - destruct (expandNodegroup groups expr) as [[e|resolved]|]; [done|apply Hp|done].
  - apply Hp.
Qed.

Lemma top_matcher_records expr body groups m :
  CompileTopTarget regex_Compile expr body groups = Some (inr m) → Forall2 leaf_for (leaves (ast m)) (mterms m).
Proof.
  unfold CompileTopTarget.
  assert (∀ kind, match Target.Compile regex_Compile kind expr groups with
    | None => None | Some (inl e) => Some (inl (TargetErr e)) | Some (inr m) => Some (inr m) end = Some (inr m) →
    Forall2 leaf_for (leaves (ast m)) (mterms m)) as Hw.
  { intros kind. destruct (Target.Compile _ _ _ _) as [[e|m']|] eqn:E; [done| |done]. intros [= <-].
    by eapply matcher_records. }
  case_bool_decide; [unfold CompileAuto; destruct (looksCompound expr); apply Hw|].
  destruct (KindFromFlag _); [apply Hw|done].
Qed.

(** Two nodes on which the leaves agree are the same to a matcher. *)
Lemma tmatch_leaves t n n' : Forall (λ l, leaf_match l n = leaf_match l n') (leaves t) → tmatch t n = tmatch t n'.
Proof.
  revert t. fix IH 1. intros [l|l|l|x] Ht.
  - by apply Forall_inv in Ht.
  - rewrite leaves_any in Ht. induction l as [|x l IHl]; [done|].
    unfold leaves_of in Ht. cbn in Ht. apply Forall_app in Ht as [Hx Hl]. cbn. rewrite (IH x Hx).
    destruct (tmatch x n') as [[] ?]; [done|]. specialize (IHl Hl). cbn in IHl. by rewrite IHl.
  - rewrite leaves_all in Ht. induction l as [|x l IHl]; [done|].
    unfold leaves_of in Ht. cbn in Ht. apply Forall_app in Ht as [Hx Hl]. cbn. rewrite (IH x Hx).
    destruct (tmatch x n') as [[] ?]; [|done]. specialize (IHl Hl). cbn in IHl. by rewrite IHl.
  - cbn in *. by rewrite (IH x Ht).
Qed.
End terms.

(** ** The first component of a path *)

Definition first_part (s : string) : string := default "" (head (pieces ":" s)).

Lemma first_part_app a b : first_part (a +:+ String ":" b) = first_part a.
Proof.
  unfold first_part. induction a as [|x a IH]; [done|]. change (String x a +:+ ?t) with (String x (a +:+ t)).
  cbn [pieces]. case_decide; [done|]. destruct (pieces_cons ":" a) as (p & l & E), (pieces_cons ":" (a +:+ String ":" b)) as (p' & l' & E').
  rewrite E, E' in *. cbn in *. by subst.
Qed.

Lemma first_part_plain s : sall (λ a, a ≠ ":"%char) s → first_part s = s.
Proof. intros Hs. rewrite <-(string_app_nil_r s) at 1. unfold first_part. rewrite pieces_app by done. cbn. apply string_app_nil_r. Qed.

Lemma split_colons_spec p s pre r : (pre, r) ∈ split_colons p s → p +:+ s = pre +:+ String ":" r ∧ pre ≠ "".
Proof.
  revert p. induction s as [|c s IH]; intros p; cbn [split_colons]; [by intros ?%elem_of_nil|].
  assert ((pre, r) ∈ split_colons (p +:+ String c "") s → p +:+ String c s = pre +:+ String ":" r ∧ pre ≠ "") as Hl.
  { intros Hin%IH. by rewrite string_app_assoc in Hin. }
  destruct (bool_decide (c = ":"%char) && negb (bool_decide (p = ""))) eqn:E; [|done].
  apply andb_true_iff in E as [->%bool_decide_eq_true Hp%negb_true_iff%bool_decide_eq_false].
  intros [Hin|[= -> ->]%list_elem_of_singleton]%elem_of_app; [auto|done].
Qed.

Lemma IndexByte_split c s k :
  IndexByte c s = Some k →
  list_ascii_of_string s !! k = Some c ∧ ∀ j, list_ascii_of_string s !! j = Some c → (k ≤ j)%nat.
Proof.
  revert k. induction s as [|a s IH]; intros k; cbn [IndexByte]; [done|].
  case_decide as Ha; [intros [= <-]; subst; split; [done|lia]|].
  destruct (IndexByte c s) as [i|]; [|done]. intros [= <-]. destruct (IH i eq_refl) as [Hi Hmin]. split; [done|].
  intros [|j]; cbn; [by intros [= ->]|]. intros Hj%Hmin. lia.
Qed.

Lemma stake_at i s c : list_ascii_of_string s !! i = Some c → s = stake i s +:+ String c (sdrop (S i) s).
Proof.
  revert i. induction s as [|a s IH]; intros [|i]; cbn; [done|done|by intros [= ->]; destruct s|].
  intros E%IH. exact (f_equal (String a) E).
Qed.

Lemma length_list_ascii s : length (list_ascii_of_string s) = String.length s.
Proof. induction s; cbn; auto. Qed.

(** The last colon of an expression, found from its end. *)
Lemma last_colon expr k :
  IndexByte ":" (string_of_list_ascii (reverse (list_ascii_of_string expr))) = Some k →
  list_ascii_of_string expr !! (String.length expr - 1 - k)%nat = Some ":"%char ∧
  ∀ j, list_ascii_of_string expr !! j = Some ":"%char → (j ≤ String.length expr - 1 - k)%nat.
Proof.
  intros [E Hmin]%IndexByte_split. rewrite list_ascii_of_string_of_list_ascii in E, Hmin.
  pose proof (lookup_lt_Some _ _ _ E) as Hk. rewrite length_reverse, length_list_ascii in Hk.
  rewrite reverse_lookup, length_list_ascii in E by by rewrite length_list_ascii.
  replace (String.length expr - S k)%nat with (String.length expr - 1 - k)%nat in E by lia. split; [done|].
  intros j Hj. pose proof (lookup_lt_Some _ _ _ Hj) as Hl. rewrite length_list_ascii in Hl.
  specialize (Hmin (String.length expr - S j)%nat). rewrite reverse_lookup, length_list_ascii in Hmin by (rewrite length_list_ascii; lia).
  replace (String.length expr - S (String.length expr - S j))%nat with j in Hmin by lia. specialize (Hmin Hj). lia.
Qed.

Lemma splitKeyValue_first expr key pattern :
  splitKeyValue expr = inr (key, pattern) → first_part key = first_part expr.
Proof.
  unfold splitKeyValue. destruct (IndexByte ":" _) as [k|] eqn:E; [|by intros [= -> _]]. cbn zeta.
  apply last_colon in E as [E _]. destruct (_ =? 0)%nat; [done|]. intros [= <- _].
  apply stake_at, (f_equal first_part) in E. by rewrite first_part_app in E.
Qed.

Lemma splitKeyValue_fails expr e cands : splitKeyValue expr = inl e → splitCandidates expr ≠ inr cands.
Proof.
  unfold splitKeyValue, splitCandidates. destruct (IndexByte ":" _) as [k|] eqn:E; [|done]. cbn zeta.
  destruct (_ =? 0)%nat eqn:E0; [|done]. apply Nat.eqb_eq in E0. intros _. apply last_colon in E as [E Hmax].
  rewrite E0 in E, Hmax. destruct (negb _) eqn:Hn.
  - apply negb_true_iff, contains_any_sall in Hn. destruct expr as [|c expr]; [done|]. injection E as ->.
    destruct Hn as [Hn _]. by destruct Hn; left.
  - destruct (split_colons "" expr) as [|[pre r] l] eqn:Es; [done|]. exfalso.
    assert ((pre, r) ∈ split_colons "" expr) as [Heq Hpre]%split_colons_spec by (rewrite Es; by left).
    change ("" +:+ expr) with expr in Heq. destruct pre as [|c pre]; [done|].
    specialize (Hmax (S (String.length pre))). rewrite Heq in Hmax. cbn in Hmax.
    assert (S (String.length pre) ≤ 0)%nat; [|lia]. apply Hmax. clear. by induction pre.
Qed.

(** Every reading of a path target begins with the same component. *)
Lemma candidates_first expr cands :
  splitCandidates expr = inr cands → Forall (λ c, first_part c.1 = first_part expr) cands.
Proof.
  unfold splitCandidates. destruct (negb _); [intros [= <-]; by repeat constructor|].
  destruct (split_colons "" expr) as [|p l] eqn:E; [done|]. intros [= <-]. rewrite <-E. apply Forall_forall.
  intros [pre r] Hin. apply split_colons_spec in Hin as [Heq _]. change ("" +:+ expr) with expr in Heq.
  rewrite Heq. by rewrite first_part_app.
Qed.

Section trust.
Context `{Runtime} `{NetIP} (regex_Compile : string → option (string → bool)).

(** ** Two nodes with the same grains under some keys *)

Definition grain (n : Node) (k : string) : option value := map_Get (Grains n) k.

Lemma pickGrains_map n : ∃ m, pickGrains n = VMap m ∧ ∀ k, Get m (VString k) = grain n k.
Proof. unfold pickGrains, grain. destruct (Grains n) as [m|]; [by exists m|]. by exists Value.NewMap. Qed.

Lemma path_same n n' path p :
  grain n (first_part path) = grain n' (first_part path) →
  match Traverse (pickGrains n) path ":" with Some v => matchScalarOrList v p | None => false end =
  match Traverse (pickGrains n') path ":" with Some v => matchScalarOrList v p | None => false end.
Proof.
  destruct (pickGrains_map n) as (m & -> & Hm), (pickGrains_map n') as (m' & -> & Hm').
  unfold Traverse, first_part. case_bool_decide; [done|]. rewrite Split_pieces.
  destruct (pieces_cons ":" path) as (q & l & ->). cbn. rewrite Hm, Hm'. by intros ->.
Qed.

Lemma cands_same n n' k cands :
  grain n k = grain n' k → Forall (λ c : string * option (string → bool), first_part c.1 = k) cands →
  cands_match (pickGrains n) cands = cands_match (pickGrains n') cands.
Proof.
  intros Hk. unfold cands_match. induction 1 as [|[path [p|]] cands Hc Hcs IH]; [done| |]; cbn in *; [|done].
  rewrite IH. f_equal. apply path_same. by rewrite Hc.
Qed.

Lemma compile_globs_paths expr cands b gs b' :
  compile_globs expr cands b = inr (gs, b') → gs.*1 = cands.*1.
Proof.
  revert b gs. induction cands as [|[key pat] cands IH]; intros b gs; cbn [compile_globs]; [by intros [= <- _]|].
  destruct (compileGlob expr pat b) as [e|[g b1]]; [done|].
  destruct (compile_globs expr cands b1) as [e|[gs1 b2]] eqn:E; [done|]. intros [= <- ->]. by rewrite !fmap_cons, (IH _ _ E).
Qed.

Lemma compile_regexes_paths expr first cands b gs b' :
  compile_regexes regex_Compile expr first cands b = inr (gs, b') → gs.*1 = cands.*1.
Proof.
  revert first b gs. induction cands as [|[key pat] cands IH]; intros first b gs; cbn [compile_regexes]; [by intros [= <- _]|].
  destruct (spend b expr _) as [e|b1]; [done|].
  assert (∀ re, match compile_regexes regex_Compile expr false cands b1 with
    | inl e => inl e | inr (gs0, b0) => inr ((key, re) :: gs0, b0) end = inr (gs, b') → gs.*1 = key :: cands.*1) as Hc.
  { intros re. destruct (compile_regexes _ expr false cands b1) as [e|[gs1 b2]] eqn:E; [done|]. intros [= <- ->].
    by rewrite fmap_cons, (IH _ _ _ E). }
  destruct (regex_Compile pat) as [re|]; [apply Hc|]. destruct first; [done|apply Hc].
Qed.

Lemma paths_first expr cands (gs : list (string * option (string → bool))) :
  splitCandidates expr = inr cands → gs.*1 = cands.*1 → Forall (λ c, first_part c.1 = first_part expr) gs.
Proof.
  intros Hc%candidates_first Heq.
  assert (Forall (λ p, first_part p = first_part expr) gs.*1) as Hg by (rewrite Heq; by apply Forall_fmap).
  by apply Forall_fmap in Hg.
Qed.

(** A leaf on a grain reads the grain that its key begins with. *)
Lemma grain_leaf_same kind expr b l b' n n' :
  kind ∈ [Grain; GrainRegex] → compileLeaf regex_Compile kind expr b = inr (l, b') →
  grain n (first_part (leafKey kind expr)) = grain n' (first_part (leafKey kind expr)) →
  leaf_match l n = leaf_match l n'.
Proof.
  intros Hk Hc Hg.
  assert (leafKey kind expr = match splitKeyValue expr with inr (key, _) => key | inl _ => "" end) as Ek.
  { unfold leafKey. rewrite bool_decide_true; [done|]. set_solver. }
  assert (∀ cands, splitCandidates expr = inr cands → first_part (leafKey kind expr) = first_part expr) as Hf.
  { intros cands Hs. rewrite Ek. destruct (splitKeyValue expr) as [e|[key pat]] eqn:Ev; [|by eapply splitKeyValue_first].
    by destruct (splitKeyValue_fails _ _ cands Ev). }
  assert (∀ gs, (∃ cands, splitCandidates expr = inr cands ∧ gs.*1 = cands.*1) →
            leaf_match (LPath false gs) n = leaf_match (LPath false gs) n') as Hleaf.
  { intros gs (cands & Hs & Hp). cbn [leaf_match]. f_equal. eapply cands_same; [|by eapply paths_first].
    by rewrite <-(Hf _ Hs). }
  clear Hf Ek Hg.
  apply elem_of_cons in Hk as [-> | ->%list_elem_of_singleton]; cbn [compileLeaf] in Hc;
    destruct (splitCandidates expr) as [e|cands]; try done.
  - destruct (compile_globs expr cands b) as [e|[gs b1]] eqn:E; [done|]. injection Hc as <- _. apply Hleaf.
    exists cands. split; [done|]. by eapply compile_globs_paths.
  - destruct (compile_regexes _ expr true cands b) as [e|[gs b1]] eqn:E; [done|]. injection Hc as <- _. apply Hleaf.
    exists cands. split; [done|]. by eapply compile_regexes_paths.
Qed.

(** ** What the check accepts *)

Definition permitted (tr : list string) (t : Term) : Prop :=
  Kind t ∈ [Glob; List; Regex] ∨
  (Kind t ∈ [Grain; GrainRegex] ∧ (node_path (TKey t) = true ∨ TKey t ∈ tr)).

Lemma check_terms_spec expr tr ts basis u :
  match check_terms expr tr ts basis u with
  | inl _ => ¬ Forall (permitted tr) ts
  | inr (_, u') => ∃ more, u' = u ++ more ∧ (more = [] ↔ Forall (permitted tr) ts)
  end.
Proof.
  revert basis u. induction ts as [|t ts IH]; intros basis u; cbn [check_terms].
  { exists []. by rewrite app_nil_r. }
  assert (∀ basis u, permitted tr t → match check_terms expr tr ts basis u with
    | inl _ => ¬ Forall (permitted tr) (t :: ts)
    | inr (_, u') => ∃ more, u' = u ++ more ∧ (more = [] ↔ Forall (permitted tr) (t :: ts)) end) as Hok.
  { intros basis0 u0 Ht. specialize (IH basis0 u0). destruct (check_terms _ _ _ _ _) as [|[? u']].
    - rewrite Forall_cons. tauto.
    - destruct IH as (more & -> & Hm). exists more. split; [done|]. rewrite Forall_cons, Hm. tauto. }
  unfold permitted in Hok. destruct (Kind t) eqn:Ek; try (apply Hok; set_solver);
    try (rewrite Forall_cons; unfold permitted; rewrite Ek; set_solver).
  all: destruct (node_path (TKey t)) eqn:En; [apply Hok; set_solver|].
  all: case_bool_decide; [apply Hok; set_solver|].
  all: specialize (IH "grain" (u ++ [TKey t])); destruct (check_terms _ _ _ _ _) as [|[? u']];
    [rewrite Forall_cons; tauto|]; destruct IH as (more & -> & _); exists (TKey t :: more);
    split; [by rewrite <-(assoc_L (++))|]; split; [done|];
    rewrite Forall_cons; unfold permitted; rewrite Ek, En; set_solver.
Qed.

(** The check passes exactly the targets whose every term is on the node's
    identity, on a trusted grain or on what the hub says of the node. *)
Lemma check_accepts c expr m :
  (∃ basis, checkTargetIsPermitted c expr m = inr basis) ↔ Forall (permitted (trusted c)) (mterms m).
Proof.
  unfold checkTargetIsPermitted. pose proof (check_terms_spec expr (trusted c) (mterms m) "glob" []) as Hs.
  destruct (check_terms _ _ _ _ _) as [e|[basis u]]; [split; [by intros []|done]|].
  destruct Hs as (more & -> & Hm). rewrite <-Hm. change ([] ++ more) with more. destruct more; split; try done; [eauto|by intros []].
Qed.

Lemma map_Get_fold (g : option Map) names out :
  map_wf out →
  let out' := foldl (λ out name, match map_Get g name with Some v => MSet out (VString name) v | None => out end) out names in
  map_wf out' ∧
  ∀ k, Get out' (VString k) = if bool_decide (k ∈ names) then match map_Get g k with Some v => Some v | None => Get out (VString k) end
                              else Get out (VString k).
Proof.
  revert out. induction names as [|x names IH]; intros out Hw; cbn zeta; [by split|]. cbn [foldl].
  set (out1 := match map_Get g x with Some v => _ | None => _ end).
  assert (map_wf out1) as Hw1 by (unfold out1; destruct (map_Get g x); [by apply SetAt_wf|done]).
  destruct (IH out1 Hw1) as [Hw' Hg]. split; [done|]. intros k. rewrite Hg.
  assert (Get out1 (VString k) = match map_Get g x with Some v => if bool_decide (k = x) then Some v else Get out (VString k)
    | None => Get out (VString k) end) as ->.
  { unfold out1. destruct (map_Get g x); [|done]. unfold MSet. rewrite Get_SetAt by done.
    repeat case_decide || case_bool_decide; naive_solver. }
  destruct (decide (k = x)) as [->|Hne].
  - rewrite (bool_decide_true (x = x)), (bool_decide_true (x ∈ x :: names)) by (done || by left).
    case_bool_decide; by destruct (map_Get g x).
  - rewrite (bool_decide_false (k = x)) by done.
    assert (bool_decide (k ∈ x :: names) = bool_decide (k ∈ names)) as ->; [|by destruct (map_Get g x)].
    apply bool_decide_ext. rewrite elem_of_cons. tauto.
Qed.

Lemma targetNode_grain c k : k ∈ trusted c → k ≠ "node" → grain (targetNode c) k = map_Get (pGrains (pConfig c)) k.
Proof.
  intros Hk Hn. destruct (map_Get_fold (pGrains (pConfig c)) (trusted c) Value.NewMap) as [Hw Hg]; [apply NewMap_wf|].
  specialize (Hg k). rewrite bool_decide_true in Hg by done.
  assert (Get (trusted_grains c) (VString k) = map_Get (pGrains (pConfig c)) k) as Ht.
  { unfold trusted_grains. rewrite Hg. by destruct (map_Get _ k). }
  unfold grain, targetNode. cbn [Grains map_Get option_bind mbind]. destruct (NodeAttrs (pConfig c)) as [attrs|]; [|done].
  destruct (0 <? Len attrs)%nat; [|done]. unfold MSet. cbn. rewrite Get_SetAt by done. case_decide; naive_solver.
Qed.

(** A node in full: the identity the hub authenticated, all the grains it
    reports but for [node], and under [node] what the hub says of it. *)
Record in_full (c : PillarCompiler) (n : Node) : Prop := {
  full_id : nID n = pNodeID (pConfig c);
  full_grains k : k ≠ "node" → grain n k = map_Get (pGrains (pConfig c)) k;
  full_node : grain n "node" = grain (targetNode c) "node" }.

Lemma leaf_in_full c n l t :
  Forall (sall (λ a, a ≠ ":"%char)) (trusted c) → in_full c n →
  leaf_for regex_Compile l t → permitted (trusted c) t → leaf_match l (targetNode c) = leaf_match l n.
Proof.
  intros Hcol [Hid Hgr Hnode] (expr & b & b' & Hc & Hkey) [Hk|[Hk Hp]].
  - assert (∃ p, l = LId p) as [p ->].
    { rewrite !elem_of_cons, elem_of_nil in Hk. destruct Hk as [Hk|[Hk|[Hk|[]]]]; rewrite Hk in Hc; cbn [compileLeaf] in Hc.
      - destruct (compileGlob _ _ _) as [|[]]; naive_solver.
      - naive_solver.
      - destruct (spend _ _ _); [done|]. destruct (regex_Compile expr); naive_solver. }
    cbn. by rewrite Hid.
  - eapply grain_leaf_same; [done..|]. rewrite <-Hkey.
    assert (first_part (TKey t) = "node" ∨ first_part (TKey t) ∈ trusted c) as Hf.
    { destruct Hp as [Hp|Hp].
      - left. unfold node_path in Hp. apply orb_true_iff in Hp as [->%bool_decide_eq_true|Hp]; [done|].
        apply has_prefix_app in Hp as [r ->]. apply (first_part_app "node" r).
      - right. rewrite Forall_forall in Hcol. by rewrite first_part_plain by auto. }
    destruct (decide (first_part (TKey t) = "node")) as [->|Hne]; [done|]. rewrite Hgr by done.
    apply targetNode_grain; naive_solver.
Qed.

(** C7: A pillar target that passes the check reads nothing it is not trusted
    with: it says of the node as the compiler shows it, with its trusted grains
    only, what it says of the node in full.  So no target delivers a pillar, or
    withholds one under a [not], because a grain was hidden from it, provided
    the names on the allowlist are grains and not paths into them. *)
Theorem permitted_target_sees_all_it_reads c expr body m basis n :
  CompileTopTarget regex_Compile expr body (pNodegroups (pConfig c)) = Some (inr m) →
  checkTargetIsPermitted c expr m = inr basis →
  Forall (sall (λ a, a ≠ ":"%char)) (trusted c) → in_full c n →
  MatcherMatch m (targetNode c) = MatcherMatch m n.
Proof.
  intros Hc%top_matcher_records Hp Hcol Hfull. unfold MatcherMatch. f_equal. apply tmatch_leaves.
  assert (Forall (permitted (trusted c)) (mterms m)) as Hok by (apply (check_accepts c expr); eauto).
  revert Hok. induction Hc as [|l t ls ts Hlt Hc IH]; intros [Ht Hts]%Forall_cons || intros _; [done|].
  constructor; [by eapply leaf_in_full|by apply IH].
Qed.
End trust.

(** ** A target that is judged *)

#[local] Existing Instance demo_runtime.
#[local] Existing Instance demo_netip.

Definition trust_config (allow : list string) (grains : list (value * value)) : PillarConfig :=
  mkPillarConfig "" false "db1" (Some (MapOf grains)) (Some (MapOf [(VString "tier", VString "gold")])) allow Smart false
    {[ "gold" := "G@node:tier:gold and not G@os:Windows" ]} [] false false.
Definition trust_compiler (allow : list string) (grains : list (value * value)) : PillarCompiler :=
  mkPillarCompiler (λ _ _, inl ErrNotFound) ["base"] (λ _ _ _ _ _, mkRendered (inr VNull) [] "" [])
    (trust_config allow grains).

(** What the check says of an expression, and whether it matches. *)
Definition judged (c : PillarCompiler) (expr : string) : option (gomsg + bool) :=
  match CompileTopTarget demo_regex expr VNull (pNodegroups (pConfig c)) with
  | Some (inr m) =>
      match checkTargetIsPermitted c expr m with
      | inl e => Some (inl e)
      | inr _ => Some (inr (MatcherMatch m (targetNode c)))
      end
  | _ => None
  end.

(** A node that claims a role, and an attribute only the hub gives. *)
Definition claims : list (value * value) :=
  [(VString "os", VString "Linux"); (VString "role", VMap (MapOf [(VString "name", VString "database")]));
   (VString "node", VMap (MapOf [(VString "tier", VString "platinum")]))].
Definition claimant (allow : list string) : PillarCompiler := trust_compiler allow claims.

Example demo_judged :
  (judged (claimant []) "N@gold", judged (claimant []) "G@node:tier:platinum") = (Some (inr true), Some (inr false)) ∧
  match judged (claimant []) "not G@role:name:web", judged (claimant []) "not S@10.0.0.0/8" with
  | Some (inl e), Some (inl e') => FArgs e !! 1%nat = Some (FStr "role:name") ∧ length (FArgs e') = 1%nat
  | _, _ => False
  end.
Proof. by vm_compute. Qed.

(** A path on the allowlist passes the check and is never shown: the target is
    false of the node it describes, and its negation is true of it. *)
Lemma allowed_path_is_not_shown :
  (judged (claimant ["role:name"]) "G@role:name:database", judged (claimant ["role:name"]) "not G@role:name:database")
  = (Some (inr false), Some (inr true)).
Proof. by vm_compute. Qed.

Definition full_claimant : Node :=
  mkNode "db1" (Some (MSet (MapOf claims) (VString "node") (VMap (MapOf [(VString "tier", VString "gold")])))) None None.

Lemma claimant_in_full : in_full (claimant []) full_claimant.
Proof.
  split; [done| |by vm_compute]. intros k Hk. unfold grain, full_claimant. cbn [Grains map_Get mbind option_bind].
  unfold MSet. rewrite Get_SetAt; [|unfold claims, MapOf; repeat apply SetAt_wf; apply NewMap_wf].
  case_decide as Hc; [|done]. exfalso. apply Hk. by injection Hc.
Qed.

Definition gold_matcher : Matcher :=
  match CompileTopTarget demo_regex "N@gold" VNull (pNodegroups (pConfig (claimant []))) with
  | Some (inr m) => m
  | _ => mkMatcher Glob "" (NAny []) []
  end.

Lemma permitted_target_sees_all_it_reads_witness :
  MatcherMatch gold_matcher (targetNode (claimant [])) = MatcherMatch gold_matcher full_claimant ∧
  MatcherMatch gold_matcher full_claimant = true.
Proof.
  split; [|vm_compute; reflexivity].
  apply (permitted_target_sees_all_it_reads demo_regex (claimant []) "N@gold" VNull gold_matcher "grain" full_claimant).
  - vm_compute. reflexivity.
  - vm_compute. reflexivity.
  - repeat constructor; discriminate.
  - apply claimant_in_full.
Defined.
