(* ===== verification/PillarTop.v ===== *)
(** * Which pillar files a node is given

    The top files of src/internal/pillar/pillar.go: a file is delivered exactly
    when the last entry for its heading and target lists it, the target is
    permitted and describes the node, and the heading is an environment that
    is served; and the audit says so. *)

From S2P Require Import Prelude GoLib Value Fnmatch StateTypes HighState Compile Target Top Pillar PillarTrust.

Open Scope Z_scope.

Section delivery.
Context `{Runtime} `{NetIP} (regex_Compile : string → option (string → bool)) (target_error : TError → string).

(** ** What the top files list *)

(** The mapping an environment's top file holds, if it has one that renders. *)
Definition top_file (c : PillarCompiler) (env : string) : list Entry :=
  match pSource c env TopName with
  | inl _ => []
  | inr (src, path) =>
      match rResult (pRender c env TopName path src None) with
      | inr v => default [] (entries_of v)
      | inl _ => []
      end
  end.

Definition entry_at (heading : string) (te : Entry) : topEntry :=
  mkTopEntry heading (KeyString (Key te)) (Val te) (ValPos te) (KeyPos te).

(** The entries under a heading, if it counts. *)
Definition heading_lists (c : PillarCompiler) (h : Entry) : list topEntry :=
  let heading := KeyString (Key h) in
  if negb (AllEnvs (pConfig c)) && bool_decide (heading ≠ env c) then []
  else entry_at heading <$> default [] (entries_of (Val h)).

(** Every entry of every top file that is read, in order. *)
Definition listing (c : PillarCompiler) : list topEntry :=
  f ← topEnvs c; h ← top_file c f; heading_lists c h.

Definition entry_key (e : topEntry) : string := teEnv e +:+ "|" +:+ teTarget e.

(** The last entry of its heading and target. *)
Definition wins (l : list topEntry) (e : topEntry) : Prop := last (filter (λ x, entry_key x = entry_key e) l) = Some e.

(** ** Gathering *)

Definition add_entry (g : gathered) (e : topEntry) : gathered :=
  (if bool_decide (is_Some (g.2 !! entry_key e)) then g.1 else g.1 ++ [entry_key e], <[entry_key e := e]> g.2).

Lemma gather_heading_lists c g h : (gather_heading c g h).1 = foldl add_entry g (heading_lists c h).
Proof.
  unfold gather_heading, heading_lists. destruct (entries_of (Val h)) as [ts|]; cbn [default].
  - destruct (negb _ && _); [done|]. cbn. revert g. induction ts as [|te ts IH]; intros g; [done|]. apply IH.
  - by destruct (negb _ && _).
Qed.

Lemma fold_headings c es g : (fold_DW (gather_heading c) g es).1 = foldl add_entry g (es ≫= heading_lists c).
Proof.
  revert g. induction es as [|h es IH]; intros g; [done|]. cbn [fold_DW]. rewrite bind_fst, IH, gather_heading_lists.
  cbn [mbind list_bind]. by rewrite foldl_app.
Qed.

(** Reading a top file changes neither the audit nor the files seen. *)
Definition same_log (o o' : Compiled) : Prop :=
  cPillar o' = cPillar o ∧ cAudit o' = cAudit o ∧ cSLSNames o' = cSLSNames o ∧ cSeen o' = cSeen o ∧
  cExt o' = cExt o ∧ ExtFailed o' = ExtFailed o.
#[local] Instance same_log_preorder : PreOrder same_log.
Proof. split; [by intros o|]. intros x y z (?&?&?&?&?&?) (?&?&?&?&?&?). unfold same_log. split_and!; by etrans. Qed.

Lemma shown_same_log c path sls res o l : same_log o (add_warnings l (rendered c path sls res o)).
Proof. unfold rendered. by destruct (_ && _). Qed.

Lemma readTop_spec c f out :
  default [] (readTop c f out).1.1 = top_file c f ∧ same_log out (readTop c f out).1.2.
Proof.
  unfold readTop, top_file. destruct (pSource c f TopName) as [[|msg]|[src path]]; [done..|]. cbn zeta.
  set (res := pRender c f TopName path src None).
  pose proof (shown_same_log c path TopName res out (rWarnings res)) as Hs.
  destruct (rResult res) as [err|v]; [done|]. destruct v; cbn [entries_of default]; done.
Qed.

Lemma gather_tops_spec c fs g out :
  (gather_tops c fs g out).1.1 = foldl add_entry g (f ← fs; h ← top_file c f; heading_lists c h) ∧
  same_log out (gather_tops c fs g out).1.2.
Proof.
  revert g out. induction fs as [|f fs IH]; intros g out; [done|]. cbn [gather_tops]. rewrite bind_fst.
  destruct (readTop_spec c f out) as [Hr Hs]. destruct (readTop c f out).1 as [[es|] out1]; cbn [from_option id fst snd] in Hr, Hs.
  - rewrite bind_fst, fold_headings, Hr. cbn [mbind list_bind]. rewrite foldl_app. destruct (IH (foldl add_entry g (top_file c f ≫= heading_lists c)) out1) as [-> Hs'].
    split; [done|by etrans].
  - destruct (IH g out1) as [-> Hs']. cbn [mbind list_bind]. rewrite <-Hr. split; [done|by etrans].
Qed.

(** What has been gathered is the last entry under each key. *)
Lemma gathered_last l :
  let g := foldl add_entry ([], ∅) l in
  (∀ k, g.2 !! k = last (filter (λ x, entry_key x = k) l)) ∧ (∀ k, k ∈ g.1 ↔ is_Some (g.2 !! k)).
Proof.
  cbn zeta. induction l as [|e l [IHm IHo]] using rev_ind.
  { split; [done|]. intros k. split; [by intros ?%elem_of_nil|by intros []]. }
  rewrite foldl_snoc. set (g := foldl add_entry ([], ∅) l) in *. cbn [add_entry fst snd]. split.
  - intros k. rewrite filter_app, filter_cons, filter_nil. case_decide as Hk.
    + subst k. by rewrite lookup_insert_eq, last_snoc.
    + rewrite lookup_insert_ne by done. by rewrite app_nil_r.
  - intros k. rewrite lookup_insert_is_Some'. case_bool_decide as Hin.
    + rewrite IHo. split; [by right|]. intros [<-|?]; done.
    + rewrite elem_of_app, list_elem_of_singleton, IHo. naive_solver.
Qed.

Lemma gathered_wins l e :
  let g := foldl add_entry ([], ∅) l in e ∈ omap (λ k, g.2 !! k) g.1 ↔ wins l e.
Proof.
  cbn zeta. destruct (gathered_last l) as [Hm Ho]. rewrite list_elem_of_omap. unfold wins. split.
  - intros (k & _ & Hk). rewrite Hm in Hk. assert (entry_key e = k) as Ek.
    { apply last_Some_elem_of, list_elem_of_filter in Hk as [? _]. done. }
    by rewrite Ek.
  - intros Hw. exists (entry_key e). rewrite Ho, !Hm, Hw. split; [by eexists|done].
Qed.

(** ** Resolving *)

(** What an entry gives this node: the basis it was permitted on and the names,
    with whether one that is missing is passed over. *)
Definition entry_gives (c : PillarCompiler) (e : topEntry) : option (string * list string * bool) :=
  match CompileTopTarget regex_Compile (teTarget e) (teVal e) (pNodegroups (pConfig c)) with
  | Some (inr m) =>
      match checkTargetIsPermitted c (teTarget e) m with
      | inr basis =>
          if MatcherMatch m (targetNode c) && bool_decide (teEnv e ∈ pEnvs c) then
            let '(names, ignore) := (topSLSNames (teVal e) (teValPos e)).1 in Some (basis, names, ignore)
          else None
      | inl _ => None
      end
  | _ => None
  end.

Lemma resolve_entry_gives c e ms out :
  (resolve_entry regex_Compile target_error c e ms out).1 =
  Some match entry_gives c e with
       | Some (basis, names, ignore) =>
           (add_match (teEnv e) names ignore ms, add_audit (mkAudit (teEnv e) (teTarget e) basis names) out)
       | None => (ms, out)
       end.
Proof.
  unfold resolve_entry, entry_gives.
  destruct (CompileTopTarget_total regex_Compile (teTarget e) (teVal e) (pNodegroups (pConfig c))) as [[err|m] ->]; [done|].
  destruct (checkTargetIsPermitted c (teTarget e) m) as [err|basis]; [done|].
  destruct (MatcherMatch m (targetNode c)); [|done]. cbn [negb andb]. rewrite bind_fst.
  destruct (topSLSNames (teVal e) (teValPos e)).1 as [names ignore].
  destruct (decide (teEnv e ∈ pEnvs c)) as [He|He].
  - rewrite (bool_decide_true (teEnv e ∈ pEnvs c)), bool_decide_false by (done || by intros ?). done.
  - rewrite (bool_decide_false (teEnv e ∈ pEnvs c)), bool_decide_true by done. done.
Qed.

Definition delivered (ms : list topMatch) (env name : string) : Prop := ∃ m, m ∈ ms ∧ tmEnv m = env ∧ name ∈ tmNames m.
Definition may_miss (ms : list topMatch) (env name : string) : Prop := ∃ m, m ∈ ms ∧ tmEnv m = env ∧ name ∈ tmOptional m.

Lemma add_match_delivers e names ignore ms env name :
  (delivered (add_match e names ignore ms) env name ↔ delivered ms env name ∨ env = e ∧ name ∈ names) ∧
  (may_miss (add_match e names ignore ms) env name ↔ may_miss ms env name ∨ env = e ∧ ignore = true ∧ name ∈ names).
Proof.
  assert (∀ n, n ∈ (if ignore then list_to_set names else ∅ : gset string) ↔ ignore = true ∧ n ∈ names) as Hopt.
  { intros n. destruct ignore; rewrite ?elem_of_list_to_set; set_solver. }
  unfold delivered, may_miss. induction ms as [|m ms [IH1 IH2]]; cbn [add_match].
  - setoid_rewrite list_elem_of_singleton. setoid_rewrite elem_of_nil. split.
    + split; [|by intros [[? [[] _]]|[-> Hn]]; eexists; split; [done|]; cbn; rewrite appendUnique_elem; auto].
      intros (? & -> & <- & Hn). cbn in Hn. rewrite appendUnique_elem in Hn. set_solver.
    + split; [|by intros [[? [[] _]]|(-> & Hi & Hn)]; eexists; split; [done|]; cbn; rewrite Hopt; auto].
      intros (? & -> & <- & Hn). cbn in Hn. rewrite Hopt in Hn. auto.
  - case_bool_decide as Em.
    + setoid_rewrite elem_of_cons. split; split.
      * intros (x & [->|Hx] & <- & Hn); [|left; eauto]. cbn in Hn |- *. rewrite appendUnique_elem in Hn.
        destruct Hn; [left; exists m; auto|auto].
      * intros [(x & [->|Hx] & <- & Hn)|[-> Hn]]; [|by exists x; auto|];
          (eexists; split; [by left|]; cbn; rewrite appendUnique_elem; auto).
      * intros (x & [->|Hx] & <- & Hn); [|left; eauto]. cbn in Hn |- *. rewrite elem_of_union, Hopt in Hn.
        destruct Hn; [left; exists m; auto|auto].
      * intros [(x & [->|Hx] & <- & Hn)|(-> & Hi & Hn)]; [|by exists x; auto|];
          (eexists; split; [by left|]; cbn; rewrite elem_of_union, Hopt; auto).
    + assert (∀ P : topMatch → Prop, (∃ x, x ∈ m :: add_match e names ignore ms ∧ P x) ↔
        P m ∨ ∃ x, x ∈ add_match e names ignore ms ∧ P x) as HE by (intros P; setoid_rewrite elem_of_cons; naive_solver).
      assert (∀ P : topMatch → Prop, (∃ x, x ∈ m :: ms ∧ P x) ↔ P m ∨ ∃ x, x ∈ ms ∧ P x) as HE'
        by (intros P; setoid_rewrite elem_of_cons; naive_solver).
      rewrite !HE, !HE', IH1, IH2. tauto.
Qed.

Definition audit_of (c : PillarCompiler) (e : topEntry) : option AuditEntry :=
  (λ r : string * list string * bool, mkAudit (teEnv e) (teTarget e) r.1.1 r.1.2) <$> entry_gives c e.

Lemma resolve_entries_spec c es ms out :
  ∃ ms' out', (resolve_entries regex_Compile target_error c es ms out).1 = Some (ms', out') ∧
    (∀ env name, delivered ms' env name ↔
       delivered ms env name ∨ ∃ e r, e ∈ es ∧ entry_gives c e = Some r ∧ env = teEnv e ∧ name ∈ r.1.2) ∧
    (∀ env name, may_miss ms' env name ↔
       may_miss ms env name ∨ ∃ e r, e ∈ es ∧ entry_gives c e = Some r ∧ env = teEnv e ∧ r.2 = true ∧ name ∈ r.1.2) ∧
    cAudit out' = cAudit out ++ omap (audit_of c) es.
Proof.
  revert ms out. induction es as [|e es IH]; intros ms out.
  { exists ms, out. split_and!; [done|set_solver|set_solver|by rewrite app_nil_r]. }
  cbn [resolve_entries]. rewrite bind_fst, resolve_entry_gives.
  destruct (entry_gives c e) as [[[basis names] ignore]|] eqn:Eg.
  - destruct (IH (add_match (teEnv e) names ignore ms) (add_audit (mkAudit (teEnv e) (teTarget e) basis names) out))
      as (ms' & out' & -> & Hd & Hm & Ha). exists ms', out'. split_and!; [done| | |].
    + intros env name. rewrite Hd, (proj1 (add_match_delivers _ _ _ _ _ _)). setoid_rewrite elem_of_cons.
      split; [naive_solver|]. intros [?|(e' & r & [->|?] & Hr & -> & Hn)]; [auto| |naive_solver]. simplify_eq. auto.
    + intros env name. rewrite Hm, (proj2 (add_match_delivers _ _ _ _ _ _)). setoid_rewrite elem_of_cons.
      split; [naive_solver|]. intros [?|(e' & r & [->|?] & Hr & -> & Hn)]; [auto| |naive_solver]. simplify_eq. auto.
    + rewrite Ha. cbn [omap list_omap]. unfold audit_of at 2. rewrite Eg. cbn. by rewrite <-(assoc_L (++)).
  - destruct (IH ms out) as (ms' & out' & -> & Hd & Hm & Ha). exists ms', out'. split_and!; [done| | |].
    + intros env name. rewrite Hd. setoid_rewrite elem_of_cons. naive_solver.
    + intros env name. rewrite Hm. setoid_rewrite elem_of_cons. naive_solver.
    + rewrite Ha. cbn [omap list_omap]. unfold audit_of at 2. by rewrite Eg.
Qed.

Lemma top_items_listed items names ignore : (top_items items names ignore).1 = names ++ listed (VSeq items).
Proof.
  revert names ignore. induction items as [|item items IH]; intros names ignore; [by rewrite app_nil_r|].
  destruct item; cbn [top_items listed omap list_omap]; try apply IH.
  - rewrite IH. cbn [listed]. by rewrite <-(assoc_L (++)).
  - destruct (entries m) as [|e [|? ?]]; apply IH.
Qed.

(** An entry counts for this node: its target compiles, is permitted on that
    basis and describes the node, and its heading is served. *)
Definition counts (c : PillarCompiler) (e : topEntry) (basis : string) : Prop :=
  ∃ m, CompileTopTarget regex_Compile (teTarget e) (teVal e) (pNodegroups (pConfig c)) = Some (inr m) ∧
       checkTargetIsPermitted c (teTarget e) m = inr basis ∧
       MatcherMatch m (targetNode c) = true ∧ teEnv e ∈ pEnvs c.

Lemma entry_gives_counts c e r :
  entry_gives c e = Some r ↔ counts c e r.1.1 ∧ r.1.2 = listed (teVal e) ∧ r.2 = (topSLSNames (teVal e) (teValPos e)).1.2.
Proof.
  assert ((topSLSNames (teVal e) (teValPos e)).1.1 = listed (teVal e)) as Hl.
  { unfold topSLSNames. destruct (teVal e); try done. cbn. by rewrite top_items_listed. }
  unfold entry_gives, counts. destruct (CompileTopTarget _ _ _ _) as [[err|m]|];
    [by split; [|by intros ((? & ? & _) & _)]| |by split; [|by intros ((? & ? & _) & _)]].
  destruct (checkTargetIsPermitted c (teTarget e) m) as [err|basis] eqn:Ep;
    [split; [done|]; intros ((? & [= <-] & Hp & _) & _); congruence|].
  destruct (topSLSNames (teVal e) (teValPos e)).1 as [names ignore]. cbn in Hl. subst names.
  destruct (MatcherMatch m (targetNode c)) eqn:Em; [|split; [done|]; intros ((? & [= <-] & _ & Hm & _) & _); congruence].
  cbn [andb]. case_bool_decide as He; [|by split; [done|]; intros ((? & [= <-] & _ & _ & ?) & _)].
  destruct r as [[b n] i]. cbn. split; [intros [= -> -> ->]; eauto 10|].
  intros ((? & [= <-] & Hp & _) & -> & ->). congruence.
Qed.

Lemma resolveTops_total c : is_Some (resolveTops regex_Compile target_error c empty_pillar).1.
Proof.
  unfold resolveTops. rewrite bind_fst.
  destruct (gather_tops c (topEnvs c) ([], ∅) empty_pillar) as [[[order es] out0] ds]. cbn [fst snd].
  destruct (resolve_entries_spec c (omap (λ k, es !! k) order) [] out0) as (ms & out & E & _).
  exists (ms, out). exact E.
Qed.

(** C31: A pillar file is delivered to a node, from an environment, exactly
    when the entry that wins under its heading and target lists it, the target
    compiles, is permitted and describes the node by its trusted grains, and
    the heading is an environment that is served; with one environment
    configured, only its own heading is read.  The audit holds exactly the
    entries that counted, each with its basis and its files. *)
Theorem pillar_delivery c :
  ∃ ms out, (resolveTops regex_Compile target_error c empty_pillar).1 = Some (ms, out) ∧
    (∀ env name, delivered ms env name ↔
       ∃ e basis, wins (listing c) e ∧ counts c e basis ∧ env = teEnv e ∧ name ∈ listed (teVal e)) ∧
    (∀ a, a ∈ cAudit out ↔
       ∃ e basis, wins (listing c) e ∧ counts c e basis ∧ a = mkAudit (teEnv e) (teTarget e) basis (listed (teVal e))).
Proof.
  unfold resolveTops. rewrite bind_fst. destruct (gather_tops_spec c (topEnvs c) ([], ∅) empty_pillar) as [Hg Hs].
  destruct (gather_tops c (topEnvs c) ([], ∅) empty_pillar) as [[[order es] out0] ds]. cbn [fst snd] in Hg, Hs |- *.
  destruct (resolve_entries_spec c (omap (λ k, es !! k) order) [] out0) as (ms & out & -> & Hd & _ & Ha).
  assert (∀ e, e ∈ omap (λ k, es !! k) order ↔ wins (listing c) e) as Hw.
  { intros e. rewrite <-gathered_wins. unfold listing. by rewrite <-Hg. }
  exists ms, out. split_and!; [done| |].
  - intros env name. rewrite Hd. setoid_rewrite Hw. setoid_rewrite entry_gives_counts. split.
    + intros [(? & []%elem_of_nil & _)|(e & r & ? & (? & Hl & _) & -> & Hn)]. rewrite Hl in Hn. eauto 10.
    + intros (e & basis & ? & ? & -> & ?). right.
      by exists e, (basis, listed (teVal e), (topSLSNames (teVal e) (teValPos e)).1.2).
  - intros a. rewrite Ha. destruct Hs as (_ & -> & _). rewrite elem_of_app, list_elem_of_omap. setoid_rewrite Hw.
    unfold audit_of. split.
    + intros [[]%elem_of_nil|(e & Hwin & Hr)]. apply fmap_Some in Hr as (r & Hr & ->).
      apply entry_gives_counts in Hr as (? & Hl & _). rewrite Hl. eauto.
    + intros (e & basis & ? & ? & ->). right. exists e. split; [done|].
      rewrite (proj2 (entry_gives_counts c e (basis, listed (teVal e), (topSLSNames (teVal e) (teValPos e)).1.2))); done.
Qed.
End delivery.
