(* ===== verification/PillarMerge.v ===== *)
(** * How a pillar is put together

    The merging of src/internal/pillar: every file is merged at most once,
    after the files it includes, and the pillar is the fold of those merges in
    the order they are reported; the external sources come after them, and one
    that fails is an error unless it was told to be soft.  Compiling ends. *)

From S2P Require Import Prelude GoLib Value Fnmatch StateTypes HighState Compile Target Top Pillar PillarTrust PillarTop.

Open Scope Z_scope.
Import Writer.

Section merging.
Context `{Runtime} (c : PillarCompiler).

(** ** A file that has been merged *)

(** Where it was, what it includes, and what it added; an empty file adds
    nothing. *)
Record file := mkFile { fEnv : string; fName : string; fIncludes : list string; fBody : option value }.
Definition file_key (f : file) : string := sls_key (fEnv f) (fName f).

(** What the file says, rendered against some pillar. *)
Definition says (f : file) : Prop :=
  ∃ src path partial, pSource c (fEnv f) (fName f) = inr (src, path) ∧
    ∃ v, rResult (pRender c (fEnv f) (fName f) path src (Some partial)) = inr v ∧
      match fBody f with
      | None => v = VNull ∧ fIncludes f = []
      | Some b => is_Some (entries_of v) ∧ includes_of (fName f) path v = (fIncludes f, b)
      end.

Definition merge_in_turn (p : value) (l : list value) : value := foldl (λ p b, Merge p b (merge_opts c)) p l.

(** From one state of the compilation to another by merging files. *)
Record traced (out : Compiled) (fs : list file) (out' : Compiled) : Prop := {
  tr_pillar : cPillar out' = merge_in_turn (cPillar out) (omap fBody fs);
  tr_sls : cSLSNames out' = cSLSNames out ++ (fName <$> fs);
  tr_seen : cSeen out ⊆ cSeen out';
  tr_new : ∀ k, k ∈ (file_key <$> fs) → (k ∉ cSeen out) ∧ k ∈ cSeen out';
  tr_once : NoDup (file_key <$> fs);
  tr_says : Forall says fs;
  tr_ext : cExt out' = cExt out }.

Lemma traced_nil out out' :
  cPillar out' = cPillar out → cSLSNames out' = cSLSNames out → cSeen out ⊆ cSeen out' → cExt out' = cExt out →
  traced out [] out'.
Proof. intros. split; cbn; rewrite ?app_nil_r; try done; [by intros k ?%elem_of_nil|constructor]. Qed.

Lemma traced_app out fs out1 fs' out2 : traced out fs out1 → traced out1 fs' out2 → traced out (fs ++ fs') out2.
Proof.
  intros [P1 S1 N1 K1 O1 F1 E1] [P2 S2 N2 K2 O2 F2 E2]. split.
  - unfold merge_in_turn in *. by rewrite omap_app, foldl_app, <-P1.
  - by rewrite S2, S1, fmap_app, (assoc_L (++)).
  - by etrans.
  - intros k. rewrite fmap_app, elem_of_app. intros [Hk|Hk]; [apply K1 in Hk|apply K2 in Hk]; set_solver.
  - rewrite fmap_app. apply NoDup_app. split_and!; [done| |done]. intros k Hk Hk'.
    apply K1 in Hk as [_ Hk]. by apply K2 in Hk' as [Hk' _].
  - by apply Forall_app.
  - congruence.
Qed.

(** ** What has been seen in a run without diagnostics *)

(** A file that is not there. *)
Definition missing (k : string) : Prop := ∃ env name, k = sls_key env name ∧ pSource c env name = inl ErrNotFound.
Definition settled (ks : list string) (k : string) : Prop := k ∈ ks ∨ missing k.
Definition accounted (out : Compiled) (ks stack : list string) : Prop :=
  ∀ k, k ∈ cSeen out → settled ks k ∨ k ∈ stack.
(** Every file comes after the files it includes. *)
Definition in_order (pre : list string) (fs : list file) : Prop :=
  ∀ i f n, fs !! i = Some f → n ∈ fIncludes f → settled (pre ++ (file_key <$> take i fs)) (sls_key (fEnv f) n).

Lemma settled_mono ks ks' k : ks ⊆ ks' → settled ks k → settled ks' k.
Proof. unfold settled. set_solver. Qed.

Lemma in_order_app pre fs fs' :
  in_order pre fs → in_order (pre ++ (file_key <$> fs)) fs' → in_order pre (fs ++ fs').
Proof.
  intros H1 H2 i f n Hi Hn. apply lookup_app_Some in Hi as [Hi|[Hle Hi]].
  - rewrite take_app_le by (apply lookup_lt_Some in Hi; lia). by apply (H1 i f n).
  - rewrite take_app_ge by done. rewrite fmap_app, (assoc_L (++)). by apply (H2 _ f n).
Qed.

(** What a run that was to merge the files of [want] has done. *)
Definition ran (stack want : list string) (out out' : Compiled) (d : Diags) : Prop :=
  ∃ fs, traced out fs out' ∧
    (d = [] → ∀ pre, accounted out pre stack →
       let done_ := pre ++ (file_key <$> fs) in
       accounted out' done_ stack ∧ (∀ k, k ∈ want → settled done_ k) ∧ in_order pre fs).

Lemma ran_nil stack out : ran stack [] out out [].
Proof.
  exists []. split; [by apply traced_nil|]. intros _ pre Ha. cbn. rewrite app_nil_r.
  split_and!; [done|by intros k ?%elem_of_nil|by intros i f n].
Qed.

Lemma ran_app stack w w' out out1 out2 d d' :
  ran stack w out out1 d → ran stack w' out1 out2 d' → ran stack (w ++ w') out out2 (d ++ d').
Proof.
  intros (fs & T1 & H1) (fs' & T2 & H2). exists (fs ++ fs'). split; [by eapply traced_app|].
  intros [-> ->]%app_eq_nil pre Ha. destruct (H1 eq_refl pre Ha) as (A1 & W1 & O1).
  destruct (H2 eq_refl _ A1) as (A2 & W2 & O2). cbn zeta in *. rewrite fmap_app, (assoc_L (++)). split_and!; [done| |by apply in_order_app].
  intros k [Hk|Hk]%elem_of_app; [|by apply W2]. eapply settled_mono; [|by apply W1]. set_solver.
Qed.

Lemma load_all_ran {I} (load : I → Compiled → DW (option Compiled)) stack (want : I → list string) l out out' d :
  (∀ i out out' d, load i out = (Some out', d) → ran stack (want i) out out' d) →
  load_all load l out = (Some out', d) → ran stack (l ≫= want) out out' d.
Proof.
  intros Hload. revert out d. induction l as [|i l IH]; intros out d; cbn [load_all].
  { intros [= <- <-]. apply ran_nil. }
  unfold mbind at 1, W_bind. destruct (load i out) as [[out1|] d1] eqn:El; cbn [fst snd]; [|done].
  destruct (load_all load l out1) as [o d2] eqn:Er. cbn. intros [= -> <-].
  apply ran_app with out1; [by apply Hload|by apply IH].
Qed.

(** ** Opening a file *)

Lemma cycle_from_None key stack : cycle_from key stack = None ↔ key ∉ stack.
Proof.
  induction stack as [|s stack IH]; cbn [cycle_from]; [split; [by intros _ ?%elem_of_nil|done]|].
  rewrite not_elem_of_cons. case_bool_decide; [naive_solver|]. rewrite IH. naive_solver.
Qed.

(** What opening a file comes to: it was known already, or it cannot be merged,
    or it is empty, or it is to be merged. *)
Inductive opened (stack : list string) (env name : string) (out : Compiled) : Compiled → option (string * value) → Diags → Prop :=
| O_known d : (d = [] → sls_key env name ∈ cSeen out ∧ sls_key env name ∉ stack) → opened stack env name out out None d
| O_failed out1 d :
    traced out [] out1 → cSeen out1 = {[sls_key env name]} ∪ cSeen out → (d = [] → missing (sls_key env name)) →
    opened stack env name out out1 None d
| O_empty out1 f d :
    traced out [f] out1 → fEnv f = env → fName f = name → fIncludes f = [] →
    cSeen out1 = {[sls_key env name]} ∪ cSeen out → opened stack env name out out1 None d
| O_open out1 path v :
    traced out [] out1 → cSeen out1 = {[sls_key env name]} ∪ cSeen out → sls_key env name ∉ cSeen out →
    says (mkFile env name (includes_of name path v).1 (Some (includes_of name path v).2)) →
    opened stack env name out out1 (Some (path, v)) [].

Lemma open_pillar_opened stack env name optional out :
  let r := open_pillar c stack env name optional out in opened stack env name out r.1.1 r.1.2 r.2.
Proof.
  cbn zeta. unfold open_pillar. destruct (cycle_from _ stack) as [path|] eqn:Ec; [by apply O_known|].
  apply cycle_from_None in Ec. case_bool_decide as Hseen; [by apply O_known|].
  destruct (pSource c env name) as [[|msg]|[src path]] eqn:Es.
  - assert (missing (sls_key env name)) as Hm by by exists env, name.
    destruct optional; (apply O_failed; [apply traced_nil; cbn; set_solver|done|done]).
  - apply O_failed; [apply traced_nil; cbn; set_solver|done|done].
  - cbn zeta. set (res := pRender _ _ _ _ _ _).
    set (out1 := add_warnings _ _). assert (traced out [] out1 ∧ cSeen out1 = {[sls_key env name]} ∪ cSeen out) as [Ht Hs].
    { unfold out1, rendered. destruct (_ && _); (split; [apply traced_nil; cbn; set_solver|done]). }
    clearbody out1. destruct (rResult res) as [err|v] eqn:Er; [by apply O_failed|].
    assert (is_Some (entries_of v) → says (mkFile env name (includes_of name path v).1 (Some (includes_of name path v).2))) as Hsays.
    { intros Hv. exists src, path, (cPillar (add_seen (sls_key env name) out)). split; [done|]. exists v. split; [done|]. cbn.
      split; [done|]. by destruct (includes_of name path v). }
    destruct v; try (by apply O_failed); try (apply O_open; [done..|apply Hsays; cbn; eauto]).
    apply (O_empty _ _ _ _ _ (mkFile env name [] None)); try done.
    destruct Ht as [P S N K O F E]. cbn in P, S. rewrite app_nil_r in S.
    split; cbn; try done; [by rewrite S| |apply NoDup_singleton|].
    + intros k ->%list_elem_of_singleton. rewrite Hs. set_solver.
    + constructor; [|done]. exists src, path, (cPillar (add_seen (sls_key env name) out)). split; [done|]. by exists VNull.
Qed.

(** ** Merging a file and what it includes *)

Lemma ran_without_files stack env name out out1 d :
  traced out [] out1 → (d = [] → ∀ pre, accounted out pre stack → accounted out1 pre stack ∧ settled pre (sls_key env name)) →
  ran stack [sls_key env name] out out1 d.
Proof.
  intros Ht Hd. exists []. split; [done|]. intros -> pre Ha. cbn. rewrite app_nil_r.
  destruct (Hd eq_refl pre Ha) as [Ha1 Hk]. split_and!; [done|by intros k ->%list_elem_of_singleton|by intros i f n].
Qed.

Lemma close_ran stack env name incs body out out1 out2 d :
  sls_key env name ∉ cSeen out → cSeen out1 = {[sls_key env name]} ∪ cSeen out → traced out [] out1 →
  says (mkFile env name incs (Some body)) →
  ran (stack ++ [sls_key env name]) (sls_key env <$> incs) out1 out2 d →
  ran stack [sls_key env name] out (close_pillar c name body out2) d.
Proof.
  intros Hnew Hs1 T1 Hf (fs & T2 & Hd). set (f := mkFile env name incs (Some body)) in *.
  pose proof (traced_app _ _ _ _ _ T1 T2) as T. change ([] ++ fs) with fs in T.
  assert (sls_key env name ∈ cSeen out2) as Hin by (apply (tr_seen _ _ _ T2); set_solver).
  exists (fs ++ [f]). split.
  - destruct T as [P S N K O F E]. split.
    + cbn. rewrite P. unfold merge_in_turn. by rewrite omap_app, foldl_app.
    + cbn. by rewrite S, fmap_app, (assoc_L (++)).
    + done.
    + intros k. rewrite fmap_app, elem_of_app. intros [Hk|Hk]; [by apply K|]. apply list_elem_of_singleton in Hk as ->. by split.
    + rewrite fmap_app. apply NoDup_app. split_and!; [done| |apply NoDup_singleton].
      intros k Hk Hk'. apply list_elem_of_singleton in Hk' as ->. apply (tr_new _ _ _ T2) in Hk as [Hk _]. set_solver.
    + apply Forall_app. split; [done|by apply Forall_singleton].
    + done.
  - intros -> pre Ha. destruct (Hd eq_refl pre) as (A2 & W2 & O2).
    { intros k. rewrite Hs1, elem_of_union, elem_of_singleton, elem_of_app, list_elem_of_singleton.
      intros [->|Hk]; [auto|]. destruct (Ha k Hk); auto. }
    cbn zeta in *. rewrite fmap_app, (assoc_L (++)). change (file_key <$> [f]) with [sls_key env name]. split_and!.
    + intros k Hk. destruct (A2 k Hk) as [Hk'|Hk']; [left; eapply settled_mono; [|exact Hk']; set_solver|].
      apply elem_of_app in Hk' as [Hk'|Hk']; [auto|]. left. left. set_solver.
    + intros k ->%list_elem_of_singleton. left. set_solver.
    + apply in_order_app; [done|]. intros [|i] f' n Hi Hn; [|done]. injection Hi as <-. cbn. rewrite app_nil_r.
      apply W2. by apply list_elem_of_fmap_2.
Qed.

Lemma mergeSLS_ran fuel stack env name optional out out' d :
  mergeSLS fuel c stack env name optional out = (Some out', d) → ran stack [sls_key env name] out out' d.
Proof.
  revert stack env name optional out out' d. induction fuel as [|fuel IH]; intros stack env name optional out out' d; [done|].
  cbn [mergeSLS]. unfold mbind at 1, W_bind. pose proof (open_pillar_opened stack env name optional out) as Ho.
  destruct (open_pillar c stack env name optional out) as [[out1 r] d1]. cbn [fst snd] in Ho |- *.
  assert (∀ o d', (o, d1 ++ []) = (Some out', d') → o = Some out1 → out' = out1 ∧ d' = d1) as Hret
    by (intros o d' [= -> <-] [= ->]; by rewrite app_nil_r).
  destruct Ho as [d1 Hk|out1 d1 T Hs Hm|out1 f d1 T He Hn Hi Hs|out1 path v T Hs Hnew Hf].
  - intros [-> ->]%Hret; [|done]. apply ran_without_files; [by apply traced_nil|]. intros Hd pre Ha. split; [done|].
    destruct (Hk Hd) as [Hk1 Hk2]. by destruct (Ha _ Hk1).
  - intros [-> ->]%Hret; [|done]. apply ran_without_files; [done|]. intros Hd pre Ha. split; [|right; auto].
    intros k. rewrite Hs, elem_of_union, elem_of_singleton. intros [->|Hk]; [left; right; auto|auto].
  - intros [-> ->]%Hret; [|done]. subst env name. exists [f]. split; [done|]. intros -> pre Ha. cbn. split_and!.
    + intros k. rewrite Hs, elem_of_union, elem_of_singleton. intros [->|Hk]; [left; left; set_solver|].
      destruct (Ha k Hk); [left; eapply settled_mono; [|done]; set_solver|auto].
    + intros k ->%list_elem_of_singleton. left. set_solver.
    + intros [|i] f' n Hf Hin; [|done]. injection Hf as <-. rewrite Hi in Hin. by apply elem_of_nil in Hin.
  - destruct (includes_of name path v) as [incs body]. cbn [fst snd] in Hf. unfold mbind at 1, W_bind.
    destruct (load_all _ incs out1) as [[out2|] d2] eqn:El; cbn [fst snd]; [|done]. intros [= <- <-].
    rewrite app_nil_r. eapply close_ran; [done..|]. replace (sls_key env <$> incs) with (incs ≫= λ n, [sls_key env n]).
    + eapply load_all_ran; [|exact El]. intros n o o' d'. apply IH.
    + clear. induction incs as [|n incs IHi]; [done|]. cbn. by f_equal.
Qed.

(** ** External sources *)

Definition request (out : Compiled) : ExtRequest :=
  mkExtRequest (pNodeID (pConfig c)) (env c) (pGrains (pConfig c)) (cPillar out).

(** A mapping that a source contributed. *)
Definition contributed (name : string) (v : value) : Prop :=
  ∃ src req m, src ∈ Ext (pConfig c) ∧ ext_Name src = name ∧ ext_Pillar src req = inr (Some m) ∧ v = VMap m.

Lemma merge_source_spec src out :
  src ∈ Ext (pConfig c) → let out' := (merge_source c out src).1 in
  cSLSNames out' = cSLSNames out ∧ ∃ names vs, cExt out' = cExt out ++ names ∧ Forall2 contributed names vs ∧
    cPillar out' = merge_in_turn (cPillar out) vs.
Proof.
  intros Hin. cbn zeta. unfold merge_source.
  assert (∀ o, cSLSNames o = cSLSNames out → cExt o = cExt out → cPillar o = cPillar out →
    cSLSNames o = cSLSNames out ∧ ∃ names vs, cExt o = cExt out ++ names ∧ Forall2 contributed names vs ∧
    cPillar o = merge_in_turn (cPillar out) vs) as Hnone.
  { intros o -> -> ->. split; [done|]. exists [], []. by rewrite app_nil_r. }
  destruct (ext_Pillar src _) as [err|[m|]] eqn:Ep; [destruct (FailSoft src); by apply Hnone| |by apply Hnone].
  destruct (_ =? 0)%nat; [by apply Hnone|].
  set (o1 := if OnSecret _ && Secret src then _ else out).
  assert (cSLSNames o1 = cSLSNames out ∧ cExt o1 = cExt out ∧ cPillar o1 = cPillar out) as (E1 & E2 & E3)
    by (unfold o1; by destruct (_ && _)). clearbody o1. cbn.
  rewrite E1, E2, E3. split; [done|]. exists [ext_Name src], [VMap m]. split_and!; [done| |done].
  constructor; [|done]. by exists src, (request out), m.
Qed.

Lemma mergeExt_spec out :
  cSLSNames (mergeExt c out).1 = cSLSNames out ∧ ∃ names vs, cExt (mergeExt c out).1 = cExt out ++ names ∧
    Forall2 contributed names vs ∧ cPillar (mergeExt c out).1 = merge_in_turn (cPillar out) vs.
Proof.
  unfold mergeExt. assert (∀ l, l ⊆ Ext (pConfig c) → ∀ out, cSLSNames (fold_DW (merge_source c) out l).1 = cSLSNames out ∧
    ∃ names vs, cExt (fold_DW (merge_source c) out l).1 = cExt out ++ names ∧ Forall2 contributed names vs ∧
    cPillar (fold_DW (merge_source c) out l).1 = merge_in_turn (cPillar out) vs) as Hl; [|by apply Hl].
  clear out. intros l. induction l as [|src l IH]; intros Hsub out; cbn [fold_DW].
  { split; [done|]. exists [], []. by rewrite app_nil_r. }
  rewrite bind_fst. destruct (merge_source_spec src out) as (S1 & n1 & v1 & E1 & C1 & P1); [set_solver|]. cbn zeta in *.
  destruct (IH ltac:(set_solver) (merge_source c out src).1) as (S2 & n2 & v2 & E2 & C2 & P2).
  rewrite S2, S1, E2, E1, P2, P1. split; [done|]. exists (n1 ++ n2), (v1 ++ v2).
  split_and!; [by rewrite (assoc_L (++))|by apply Forall2_app|]. unfold merge_in_turn. by rewrite foldl_app.
Qed.

Lemma failed_grows src out : ∃ l, ExtFailed (merge_source c out src).1 = ExtFailed out ++ l.
Proof.
  unfold merge_source. destruct (ext_Pillar src _) as [err|[m|]].
  - exists [ext_Name src]. by destruct (FailSoft src).
  - exists []. rewrite app_nil_r. destruct (_ =? 0)%nat; [done|]. by destruct (_ && _).
  - exists []. by rewrite app_nil_r.
Qed.

Lemma failed_grows_all l out : ∃ l', ExtFailed (fold_DW (merge_source c) out l).1 = ExtFailed out ++ l'.
Proof.
  revert out. induction l as [|src l IH]; intros out; cbn [fold_DW]; [exists []; by rewrite app_nil_r|].
  rewrite bind_fst. destruct (failed_grows src out) as [l1 E1], (IH (merge_source c out src).1) as [l2 E2].
  exists (l1 ++ l2). by rewrite E2, E1, (assoc_L (++)).
Qed.

Lemma fold_DW_app {A B} (f : B → A → DW B) b l l' : fold_DW f b (l ++ l') = (b' ← fold_DW f b l; fold_DW f b' l').
Proof.
  revert b. induction l as [|x l IH]; intros b.
  - cbn [app fold_DW]. unfold mbind, W_bind, mret, W_ret. cbn. by destruct (fold_DW f b l').
  - cbn [app fold_DW]. unfold mbind at 1 3, W_bind. rewrite IH. unfold mbind, W_bind. cbn. by rewrite (assoc_L (++)).
Qed.

(** An external source that fails is never passed over in silence: its
    name is among the failed, and unless it was configured to fail softly the
    compilation has an error, whatever the sources before and after it did. *)
Theorem ext_failure_is_an_error out pre src post err :
  Ext (pConfig c) = pre ++ src :: post →
  ext_Pillar src (request (fold_DW (merge_source c) out pre).1) = inl err →
  ext_Name src ∈ ExtFailed (mergeExt c out).1 ∧
  (FailSoft src = false → HasErrors (mergeExt c out).2 = true).
Proof.
  intros HE Hf. unfold mergeExt. rewrite HE, fold_DW_app. set (o := (fold_DW (merge_source c) out pre).1) in *.
  cbn [fold_DW]. rewrite !bind_fst. fold o.
  assert ((merge_source c o src).1 = add_failed (ext_Name src) o ∧
    (FailSoft src = false → HasErrors (merge_source c o src).2 = true)) as [Es Hd].
  { unfold merge_source. unfold request in Hf. rewrite Hf. by destruct (FailSoft src). }
  split.
  - destruct (failed_grows_all post (merge_source c o src).1) as [l ->]. rewrite Es. cbn. set_solver.
  - intros Hsoft. unfold mbind, W_bind. cbn [fst snd]. fold o. rewrite !HasErrors_app, (Hd Hsoft). by rewrite orb_true_r.
Qed.
End merging.

(** ** The whole compilation *)

Section compile.
Context `{Runtime} `{NetIP} (regex_Compile : string → option (string → bool)) (target_error : TError → string).
Context (c : PillarCompiler).

Lemma resolve_entries_log es ms out ms' out' :
  (resolve_entries regex_Compile target_error c es ms out).1 = Some (ms', out') →
  cPillar out' = cPillar out ∧ cSLSNames out' = cSLSNames out ∧ cSeen out' = cSeen out ∧ cExt out' = cExt out.
Proof.
  revert ms out. induction es as [|e es IH]; intros ms out; cbn [resolve_entries]; [by intros [= -> ->]|].
  rewrite bind_fst, resolve_entry_gives. destruct (entry_gives _ c e) as [[[basis names] ignore]|]; by intros ?%IH.
Qed.

Lemma resolveTops_log ms out :
  (resolveTops regex_Compile target_error c empty_pillar).1 = Some (ms, out) →
  cPillar out = VMap Value.NewMap ∧ cSLSNames out = [] ∧ cSeen out = ∅ ∧ cExt out = [].
Proof.
  unfold resolveTops. rewrite bind_fst. destruct (gather_tops_spec c (topEnvs c) ([], ∅) empty_pillar) as [_ Hs].
  destruct (gather_tops c (topEnvs c) ([], ∅) empty_pillar) as [[[order es] out0] ds]. cbn [fst snd] in Hs |- *.
  intros (-> & -> & -> & ->)%resolve_entries_log. destruct Hs as (-> & _ & -> & -> & -> & _). done.
Qed.

Lemma merge_match_ran fuel m out out' d :
  merge_match fuel c m out = (Some out', d) → ran c [] (sls_key (tmEnv m) <$> tmNames m) out out' d.
Proof.
  intros Hm. replace (sls_key (tmEnv m) <$> tmNames m) with (tmNames m ≫= λ n, [sls_key (tmEnv m) n]).
  - unfold merge_match in Hm. eapply load_all_ran; [|exact Hm]. intros n o o' d' E. exact (mergeSLS_ran _ _ _ _ _ _ _ _ _ E).
  - generalize (tmNames m). intros l. induction l as [|n l IH]; [done|]. cbn. by f_equal.
Qed.

(** C34: A pillar is the merge, one after the other, of the files it reports
    and then of what its external sources gave.  No file is merged twice; each
    is what it was rendered to, without its [include]; and in a compilation
    without diagnostics every file follows the files it includes, so that its
    own keys win, and every file that was delivered is among them, unless it
    is not there. *)
Theorem pillar_is_merged_in_order fuel out d :
  Compile regex_Compile target_error fuel c = (Some out, d) →
  ∃ ms o fs exts,
    (resolveTops regex_Compile target_error c empty_pillar).1 = Some (ms, o) ∧
    cPillar out = merge_in_turn c (VMap Value.NewMap) (omap fBody fs ++ exts) ∧
    cSLSNames out = fName <$> fs ∧ Forall (says c) fs ∧ NoDup (file_key <$> fs) ∧
    Forall2 (contributed c) (cExt out) exts ∧
    (d = [] → in_order c [] fs ∧
       ∀ env name, delivered ms env name → settled c (file_key <$> fs) (sls_key env name)).
Proof.
  unfold Compile. unfold mbind at 1, W_bind.
  destruct (resolveTops regex_Compile target_error c empty_pillar) as [[[ms o]|] d0] eqn:Er; cbn [fst snd]; [|done].
  assert ((resolveTops regex_Compile target_error c empty_pillar).1 = Some (ms, o)) as Hr by by rewrite Er.
  apply resolveTops_log in Hr as (P0 & S0 & K0 & E0). unfold mbind at 1, W_bind.
  destruct (load_all (merge_match fuel c) ms o) as [[o1|] d1] eqn:El; cbn [fst snd]; [|done].
  unfold mbind at 1, W_bind. intros [= <- <-]. destruct (mergeExt_spec c o1) as (S2 & names & exts & E2 & C2 & P2).
  destruct (load_all_ran c _ [] (λ m, sls_key (tmEnv m) <$> tmNames m) ms o o1 d1 (merge_match_ran fuel) El) as (fs & T & Hd).
  destruct T as [P1 S1 _ _ O1 F1 E1]. rewrite P0 in P1. rewrite S0 in S1. rewrite E0 in E1. rewrite E1 in E2.
  exists ms, o, fs, exts. split_and!; try done.
  - rewrite P2, P1. unfold merge_in_turn. by rewrite foldl_app.
  - by rewrite S2, S1.
  - by rewrite E2.
  - intros [-> [-> _]%app_eq_nil]%app_eq_nil. destruct (Hd eq_refl []) as (_ & W & O).
    { intros k. by rewrite K0, elem_of_empty. }
    split; [done|]. intros env name (m & Hm & <- & Hn). apply W, list_elem_of_bind. exists m.
    split; [by apply list_elem_of_fmap_2|done].
Qed.
End compile.

(** ** Compiling ends *)

Section termination.
Context `{Runtime} (c : PillarCompiler) (U : gset string).
(** The pillar files there are: every one that is found has its key in [U]. *)
Context (U_all : ∀ env name p, pSource c env name = inr p → sls_key env name ∈ U).

Lemma mergeSLS_mono fuel fuel' stack env name optional out out' :
  (fuel ≤ fuel')%nat → (mergeSLS fuel c stack env name optional out).1 = Some out' →
  mergeSLS fuel' c stack env name optional out = mergeSLS fuel c stack env name optional out.
Proof.
  revert fuel' stack env name optional out out'. induction fuel as [|fuel IH]; intros fuel' stack env name optional out out' Hle; [done|].
  destruct fuel' as [|fuel']; [lia|]. cbn [mergeSLS]. rewrite bind_fst. intros Hr. apply bind_eq. revert Hr.
  destruct (open_pillar c stack env name optional out).1 as [out1 [[path v]|]]; [|done].
  destruct (includes_of name path v) as [incs body]. rewrite bind_fst.
  destruct (load_all _ _ _).1 as [out2|] eqn:Hl; [|done]. intros _.
  erewrite (load_all_mono _ (λ n, mergeSLS fuel' c _ _ n false)); [done| |exact Hl].
  intros n o o' Hn. eapply IH; [lia|exact Hn].
Qed.

(** A loop over files whose merging ends, ends; [P] says what it may assume. *)
Lemma load_all_ends {I} (load : I → Compiled → DW (option Compiled)) (S0 : gset string) l out :
  (∀ i out, S0 ⊆ cSeen out → ∃ out', (load i out).1 = Some out' ∧ cSeen out ⊆ cSeen out') →
  S0 ⊆ cSeen out → ∃ out', (load_all load l out).1 = Some out' ∧ cSeen out ⊆ cSeen out'.
Proof.
  intros Hl. revert out. induction l as [|i l IH]; intros out Hs; [by exists out|]. cbn [load_all]. rewrite bind_fst.
  destruct (Hl i out Hs) as (o1 & -> & H1). destruct (IH o1) as (o2 & -> & H2); [set_solver|]. exists o2. set_solver.
Qed.

Lemma mergeSLS_total fuel stack env name optional out :
  (size (U ∖ cSeen out) < fuel)%nat →
  ∃ out', (mergeSLS fuel c stack env name optional out).1 = Some out' ∧ cSeen out ⊆ cSeen out'.
Proof.
  revert stack env name optional out. induction fuel as [|fuel IH]; intros stack env name optional out Hlt; [lia|].
  cbn [mergeSLS]. rewrite bind_fst. pose proof (open_pillar_opened c stack env name optional out) as Ho. cbn zeta in Ho.
  destruct (open_pillar c stack env name optional out) as [[out1 r] d]. cbn [fst snd] in Ho |- *.
  destruct Ho as [d Hk|out1 d T Hs Hm|out1 f d T He Hn Hi Hs|out1 path v T Hs Hnew Hf];
    [by exists out|exists out1; set_solver|exists out1; set_solver|].
  destruct Hf as (src & path' & partial & Hsrc & _). apply U_all in Hsrc. cbn in Hsrc.
  destruct (includes_of name path v) as [incs body]. rewrite bind_fst.
  destruct (load_all_ends (λ n, mergeSLS fuel c (stack ++ [sls_key env name]) env n false) (cSeen out1) incs out1)
    as (out2 & -> & H2); [|done|].
  - intros n o Hsub. apply IH. assert (size (U ∖ cSeen o) < size (U ∖ cSeen out))%nat; [|lia].
    apply subset_size. set_solver.
  - eexists. split; [reflexivity|]. cbn. set_solver.
Qed.

Lemma merge_all_total fuel ms out : (size U < fuel)%nat → is_Some (load_all (merge_match fuel c) ms out).1.
Proof.
  intros Hf. assert (∀ env name optional o, ∃ o', (mergeSLS fuel c [] env name optional o).1 = Some o' ∧ cSeen o ⊆ cSeen o') as Hone.
  { intros env name optional o. apply mergeSLS_total. pose proof (subseteq_size (U ∖ cSeen o) U). set_solver by lia. }
  destruct (load_all_ends (merge_match fuel c) ∅ ms out) as (o & -> & _); [|set_solver|done].
  intros m o _. apply (load_all_ends _ ∅); [|set_solver]. intros n o1 _. apply Hone.
Qed.

Lemma merge_all_mono fuel fuel' ms out out' :
  (fuel ≤ fuel')%nat → (load_all (merge_match fuel c) ms out).1 = Some out' →
  load_all (merge_match fuel' c) ms out = load_all (merge_match fuel c) ms out.
Proof.
  intros Hle. apply load_all_mono. intros m o o'. apply load_all_mono. intros n o1 o1'. by apply mergeSLS_mono.
Qed.

(** Compiling a pillar always ends, whatever its files include, cycles
    too: when the tree holds finitely many pillar files, a depth of one more
    than their number is enough, and any greater bound gives the same pillar
    and the same diagnostics. *)
Theorem pillar_terminates `{NetIP} regex_Compile target_error :
  ∃ out diags, ∀ fuel, (size U < fuel)%nat → Compile regex_Compile target_error fuel c = (Some out, diags).
Proof.
  destruct (resolveTops regex_Compile target_error c empty_pillar) as [r d0] eqn:Er.
  destruct (resolveTops_total regex_Compile target_error c) as [[ms o] Hr]. rewrite Er in Hr. cbn in Hr. subst r.
  destruct (merge_all_total (S (size U)) ms o) as [o1 H1]; [lia|].
  destruct (load_all (merge_match (S (size U)) c) ms o) as [r d1] eqn:E1. cbn in H1. subst r.
  exists (mergeExt c o1).1, (d0 ++ d1 ++ (mergeExt c o1).2). intros fuel Hf. unfold Compile. rewrite Er.
  unfold mbind at 1, W_bind. cbn [fst snd]. rewrite (merge_all_mono (S (size U)) fuel ms o o1) by (lia || by rewrite E1).
  rewrite E1. unfold mbind, W_bind, mret, W_ret. cbn. by rewrite app_nil_r.
Qed.
End termination.

(** ** A pillar that is compiled *)

#[local] Existing Instance demo_runtime.
#[local] Existing Instance demo_netip.

Definition ymap (l : list (string * value)) : value := VMap (MapOf ((λ p : string * value, (VString p.1, p.2)) <$> l)).

(** A top file that lists [names], an [app] that includes its siblings
    [common] and [secrets], and no file [secrets]. *)
Definition tree (names : list value) (name : string) : option value :=
  if bool_decide (name = "top") then Some (ymap [("base", ymap [("web*", VSeq names)])])
  else if bool_decide (name = "app") then
    Some (ymap [("include", VSeq [VString ".common"; VString ".secrets"]); ("port", VInt 80)])
  else if bool_decide (name = "web") then Some (ymap [("include", VString "common"); ("port", VInt 443)])
  else if bool_decide (name = "common") then Some (ymap [("port", VInt 0); ("user", VString "www")])
  else None.

Definition vault (soft : bool) : ExtSource :=
  mkExtSource "vault" (λ req, if bool_decide (req_NodeID req = "web1") then inr (Some (MapOf [(VString "key", VString "s3")]))
                              else inl "no such node") soft true.

Definition tree_compiler (names : list value) (id : string) (ext : list ExtSource) : PillarCompiler :=
  mkPillarCompiler
    (λ env name, match tree names name with
                 | Some _ => if bool_decide (env = "base") then inr (name, name +:+ ".sls") else inl ErrNotFound
                 | None => inl ErrNotFound
                 end)
    ["base"]
    (λ env name path src partial, mkRendered (inr (default VNull (tree names name))) [] "" [])
    (mkPillarConfig "" true id None None [] Smart false ∅ ext true false).

Definition compiled (names : list value) (id : string) (ext : list ExtSource) : option Compiled * Diags :=
  Compile demo_regex (λ _, "bad target") 5 (tree_compiler names id ext).

Definition ignore_missing : value := ymap [("ignore_missing", VBool true)].

Example demo_pillar :
  match compiled [VString "web"; VString "common"] "web1" [vault false] with
  | (Some out, []) =>
      cSLSNames out = ["common"; "web"] ∧ cSecrets out = ["s3"] ∧
      ((λ k, map_Get (match cPillar out with VMap m => Some m | _ => None end) k) <$> ["port"; "user"; "key"]) =
        [Some (VInt 443); Some (VString "www"); Some (VString "s3")]
  | _ => False
  end.
Proof. by vm_compute. Qed.

(** An include of a file that is not there is an error, but not when the top
    file listed it before, under [ignore_missing]. *)
Lemma missing_include_depends_on_order :
  (compiled [ignore_missing; VString "app"; VString "secrets"] "web1" []).2 ≠ [] ∧
  (compiled [ignore_missing; VString "secrets"; VString "app"] "web1" []).2 = [].
Proof. by vm_compute. Qed.

Definition demo_names : list value := [VString "web"; VString "common"].

Lemma pillar_is_merged_in_order_witness :
  ∃ out, compiled demo_names "web1" [] = (Some out, []) ∧ ∃ fs, cSLSNames out = fName <$> fs ∧
    in_order (tree_compiler demo_names "web1" []) [] fs.
Proof.
  destruct (compiled demo_names "web1" []) as [[out|] d] eqn:E; [|exfalso; revert E; vm_compute; discriminate].
  assert (d = []) as Hd by (revert E; vm_compute; by intros [= _ <-]). exists out.
  split; [by rewrite Hd|]. unfold compiled in E.
  destruct (pillar_is_merged_in_order demo_regex (λ _, "bad target") (tree_compiler demo_names "web1" []) 5 out d E)
    as (ms & o & fs & exts & _ & _ & Hs & _ & _ & _ & Ho).
  exists fs. split; [exact Hs|]. apply (Ho Hd).
Defined.

Definition demo_tree_keys : gset string := list_to_set ["base|top"; "base|app"; "base|web"; "base|common"].

Lemma demo_tree_all env name p :
  pSource (tree_compiler demo_names "web1" []) env name = inr p → sls_key env name ∈ demo_tree_keys.
Proof. cbn. unfold tree. repeat case_bool_decide; subst; intros Hs; try discriminate Hs; set_solver. Qed.

Lemma pillar_terminates_witness :
  ∃ out diags, ∀ fuel, (4 < fuel)%nat →
    Compile demo_regex (λ _, "bad target") fuel (tree_compiler demo_names "web1" []) = (Some out, diags).
Proof.
  destruct (pillar_terminates (tree_compiler demo_names "web1" []) demo_tree_keys demo_tree_all demo_regex (λ _, "bad target"))
    as (out & diags & Hf).
  exists out, diags. intros fuel Hlt. apply Hf. assert (size demo_tree_keys = 4%nat) as -> by (vm_compute; reflexivity). exact Hlt.
Defined.

Lemma ext_failure_is_an_error_witness :
  ext_Name (vault false) ∈ ExtFailed (mergeExt (tree_compiler [] "db1" [vault true; vault false]) empty_pillar).1 ∧
  HasErrors (mergeExt (tree_compiler [] "db1" [vault true; vault false]) empty_pillar).2 = true.
Proof.
  destruct (ext_failure_is_an_error (tree_compiler [] "db1" [vault true; vault false]) empty_pillar [vault true] (vault false) []
    "no such node") as [Hn He]; [vm_compute; reflexivity..|]. split; [exact Hn|]. by apply He.
Defined.
