(* ===== verification/EventBus.v ===== *)
(** * The event bus of the hub

    Models src/internal/eventbus: the durable log of bus.go, which is a
    directory of segments, each a file of lines; tags and their globs, and the
    encoding of a record as a line (event.go); the node an event is about
    (nodeof.go).  How an event is written as JSON and read back is a parameter.

    The directory holds the bus's own files, a file by its sequence number
    with its contents and the time it was last written.  What the disk does in
    an append is an argument: an open or a sync that fails, and a write that
    fails after some of its bytes. *)

From S2P Require Import Prelude GoLib PathMatch.

Open Scope Z_scope.

(** ** Events *)

Definition Schema : string := "halite.event/1".

(** A stamp that has not been set is [None]. *)
Record Event {D : Type} := mkEvent {
  eTag : string; eStamp : option Z; eNode : string; eCorrelation : string; eSchema : string; eData : D; eOffset : string }.
Arguments Event : clear implicits.

Definition set_offset {D} (o : string) (e : Event D) : Event D :=
  mkEvent D (eTag e) (eStamp e) (eNode e) (eCorrelation e) (eSchema e) (eData e) o.
Definition stamped {D} (now : Z) (e : Event D) : Event D :=
  mkEvent D (eTag e) (Some (default now (eStamp e))) (eNode e) (eCorrelation e) (eSchema e) (eData e) (eOffset e).
Definition with_schema {D} (e : Event D) : Event D :=
  mkEvent D (eTag e) (eStamp e) (eNode e) (eCorrelation e) Schema (eData e) (eOffset e).

(** encoding/json on events. *)
Class EventJSON (D : Type) := {
  Marshal : Event D → option string;
  Unmarshal : string → option (Event D) }.

(** ** Tags *)

Inductive tag_error := NoTag | TagTooLong (n : nat) | TagDots | TagControl.

Fixpoint has_control (s : string) : bool :=
  match s with
  | EmptyString => false
  | String a r => (byte_of a <? 32) || (byte_of a =? 127) || has_control r
  end.

Definition ValidTag (tag : string) : option tag_error :=
  if bool_decide (tag = "") then Some NoTag
  else if (512 <? String.length tag)%nat then Some (TagTooLong (String.length tag))
  else if contains ".." tag then Some TagDots
  else if has_control tag then Some TagControl
  else None.

Definition path_matches (pattern s : string) : bool := match path_Match pattern s with Some b => b | None => false end.

Fixpoint tails {A} (l : list A) : list (list A) := l :: match l with [] => [] | _ :: r => tails r end.

Fixpoint matchSegments (pattern tag : list string) : bool :=
  match pattern with
  | [] => bool_decide (tag = [])
  | p :: pattern' =>
      if bool_decide (p = "**") then
        if bool_decide (pattern' = []) then true else existsb (matchSegments pattern') (tails tag)
      else match tag with
           | [] => false
           | t :: tag' => path_matches p t && matchSegments pattern' tag'
           end
  end.

Definition MatchTag (pattern tag : string) : bool :=
  if bool_decide (pattern ∈ [""; "*"; "**"]) then true
  else if negb (contains "**" pattern) then path_matches pattern tag
  else matchSegments (Split pattern "/") (Split tag "/").

Definition MatchAny (patterns : list string) (tag : string) : bool :=
  if bool_decide (patterns = []) then true else existsb (λ p, MatchTag p tag) patterns.

Definition SaltTag (tag : string) : string :=
  if negb (has_prefix "halite/" tag) then ""
  else
    let rest := sdrop 7 tag in
    if has_prefix "node/" rest then "salt/minion/" +:+ sdrop 5 rest
    else if has_prefix "state/" rest then
      match Split (sdrop 6 rest) "/" with
      | [jid; id; result] => "salt/state_result/" +:+ jid +:+ "/" +:+ result +:+ "/" +:+ id
      | _ => "salt/" +:+ rest
      end
    else "salt/" +:+ rest.

Definition nodeFromTag (tag : string) : string :=
  match Split tag "/" with
  | root :: kind :: p2 :: more =>
      if bool_decide (root ≠ "halite") then ""
      else if bool_decide (kind ∈ ["node"; "beacon"; "key"; "mine"]) then p2
      else if bool_decide (kind = "job") then
        match more with
        | p3 :: p4 :: _ => if bool_decide (p3 ∈ ["ret"; "prog"]) then p4 else ""
        | _ => ""
        end
      else if bool_decide (kind = "state") then match more with p3 :: _ => p3 | [] => "" end
      else ""
  | _ => ""
  end.

Definition NodeOf {D} (e : Event D) : string := if bool_decide (eNode e ≠ "") then eNode e else nodeFromTag (eTag e).

(** ** The log *)

Record seg_file := mkSeg { sContent : string; sMod : Z }.
Definition size_of (f : seg_file) : Z := Z.of_nat (String.length (sContent f)).

Record Bus := mkBus {
  files : gmap Z seg_file;
  current : bool;          (* the segment is open for writing *)
  segment : Z;
  written : Z;
  closed : bool;
  waiters : nat;
  SegmentBytes : Z;
  Retention : Z;
  MaxBytes : Z;
  FsyncAlways : list string }.

Definition DefaultSegmentBytes : Z := Z.shiftl 32 20.
Definition DefaultRetention : Z := 30 * 24 * 3600 * 1000000000.
Definition DefaultMaxBytes : Z := Z.shiftl 4 30.
Definition SecurityTags : list string := ["halite/auth**"; "halite/key/**"].

Definition with_files (f : gmap Z seg_file) (b : Bus) : Bus :=
  mkBus f (current b) (segment b) (written b) (closed b) (waiters b) (SegmentBytes b) (Retention b) (MaxBytes b) (FsyncAlways b).
Definition with_current (c : bool) (seg w : Z) (b : Bus) : Bus :=
  mkBus (files b) c seg w (closed b) (waiters b) (SegmentBytes b) (Retention b) (MaxBytes b) (FsyncAlways b).
Definition with_closed (b : Bus) : Bus :=
  mkBus (files b) false (segment b) (written b) true (waiters b) (SegmentBytes b) (Retention b) (MaxBytes b) (FsyncAlways b).
Definition with_waiters (n : nat) (b : Bus) : Bus :=
  mkBus (files b) (current b) (segment b) (written b) (closed b) n (SegmentBytes b) (Retention b) (MaxBytes b) (FsyncAlways b).

(** The segments there are, in order. *)
Definition segments_in (f : gmap Z seg_file) : list Z := merge_sort Z.le (elements (dom f)).
Definition segments (b : Bus) : list Z := segments_in (files b).

(** Open on a directory that can be read. *)
Definition Open (dir : gmap Z seg_file) : Bus :=
  mkBus dir false (default 1 (last (segments_in dir))) 0 false 0
    DefaultSegmentBytes DefaultRetention DefaultMaxBytes SecurityTags.

(** What the disk does in an append. *)
Record io := mkIO { io_open : bool; io_rotate : bool; io_write : option nat; io_sync : bool }.
Definition fine : io := mkIO true true None true.

Inductive bus_error :=
| BadTag (e : tag_error) | BadEvent | Closed | IOError
| BadOffset (offset : string) | LagError (from oldest : string) (segments : Z).

(** fmt's verb %08d *)
Definition pad8 (n : Z) : string :=
  let s := FormatInt n in string_of_list_ascii (replicate (8 - String.length s) "0"%char) +:+ s.
Definition offset_at (seq pos : Z) : string := pad8 seq +:+ ":" +:+ FormatInt pos.

(** openCurrent: the file is created when it is not there. *)
Definition openCurrent (io : io) (now : Z) (b : Bus) : bus_error + Bus :=
  if closed b then inl Closed
  else if current b then inr b
  else if negb (io_open io) then inl IOError
  else
    let f := default (mkSeg "" now) (files b !! segment b) in
    inr (with_current true (segment b) (size_of f) (with_files (<[segment b := f]> (files b)) b)).

Definition rotate (io : io) (now : Z) (b : Bus) : (bus_error + unit) * Bus :=
  if negb (io_rotate io) then (inl IOError, b)
  else
    let b := with_current false (segment b + 1) 0 b in
    match openCurrent io now b with inl e => (inl e, b) | inr b => (inr (), b) end.

(** A write that may end early; what was written counts. *)
Definition write_bytes (s : string) (now : Z) (b : Bus) : Bus :=
  let f := default (mkSeg "" now) (files b !! segment b) in
  with_files (<[segment b := mkSeg (sContent f +:+ s) now]> (files b)) b.

Definition wake (b : Bus) : Bus := with_waiters 0 b.
Definition Wait (b : Bus) : Bus := with_waiters (S (waiters b)) b.
Definition Waiting (b : Bus) : nat := waiters b.

Definition NL : ascii := "010"%char.

Section bus.
Context {D : Type} `{EventJSON D}.

Definition encode (e : Event D) : option string :=
  raw ← Marshal (set_offset "" (with_schema e)); Some (raw +:+ String NL "").

(** Append after the segment to write to is open: the write, the offset and the
    sync. *)
Definition append_line (io : io) (now : Z) (tag line : string) (b : Bus) : (bus_error + string) * Bus :=
  match io_write io with
  | Some n => (inl IOError, write_bytes (stake n line) now b)
  | None =>
      let b := write_bytes line now b in
      let b := with_current true (segment b) (written b + Z.of_nat (String.length line)) b in
      let offset := offset_at (segment b) (written b) in
      if MatchAny (FsyncAlways b) tag && negb (io_sync io) then (inl IOError, b)
      else (inr offset, wake b)
  end.

Definition Append (io : io) (now : Z) (e : Event D) (b : Bus) : (bus_error + string) * Bus :=
  match ValidTag (eTag e) with
  | Some err => (inl (BadTag err), b)
  | None =>
      match encode (stamped now e) with
      | None => (inl BadEvent, b)
      | Some line =>
          match openCurrent io now b with
          | inl err => (inl err, b)
          | inr b =>
              if (0 <? SegmentBytes b) && (SegmentBytes b <? written b + Z.of_nat (String.length line)) && (0 <? written b) then
                match rotate io now b with
                | (inl err, b) => (inl err, b)
                | (inr _, b) => append_line io now (eTag e) line b
                end
              else append_line io now (eTag e) line b
          end
      end
  end.

Definition Close (b : Bus) : Bus := with_closed b.

(** *** Offsets *)

Definition Earliest : string := "earliest".
Definition Latest : string := "latest".

Definition parseOffset (offset : string) : bus_error + Z * Z :=
  match IndexByte ":" offset with
  | None => inl (BadOffset offset)
  | Some i =>
      match Atoi (stake i offset), Atoi (sdrop (S i) offset) with
      | Some seg, Some at_ => if at_ <? 0 then inl (BadOffset offset) else inr (seg, at_)
      | _, _ => inl (BadOffset offset)
      end
  end.

Definition Lag (b : Bus) (from : string) : option bus_error :=
  if bool_decide (from ∈ [""; Latest; Earliest]) then None
  else match parseOffset from with
  | inl _ => None
  | inr (seg, _) =>
      match segments b with
      | [] => None
      | oldest :: _ =>
          if oldest <=? seg then None else Some (LagError from (offset_at oldest 0) (oldest - seg))
      end
  end.

Definition Resolve (b : Bus) (from : string) : bus_error + Z * Z :=
  if bool_decide (from ∈ [""; Latest]) then
    match last (segments b) with
    | None => inr (1, 0)
    | Some seq => inr (seq, match files b !! seq with Some f => size_of f | None => 0 end)
    end
  else if bool_decide (from = Earliest) then
    match segments b with [] => inr (1, 0) | seq :: _ => inr (seq, 0) end
  else parseOffset from.

(** *** Reading *)

(** The lines of a file from a position on: [cur] is the line that has begun.
    A line that does not end is left for later, and one that does not parse is
    passed over. *)
Fixpoint scan (seq : Z) (tags : list string) (s cur : string) (pos : Z) (limit : nat) : list (Event D) * Z :=
  match limit with
  | O => ([], pos)
  | S more =>
      match s with
      | EmptyString => ([], pos)
      | String a r =>
          if bool_decide (a = NL) then
            let line := cur +:+ String NL "" in
            let pos := pos + Z.of_nat (String.length line) in
            match Unmarshal line with
            | Some e =>
                if MatchAny tags (eTag e) then
                  let '(es, end_) := scan seq tags r "" pos more in (set_offset (offset_at seq pos) e :: es, end_)
                else scan seq tags r "" pos limit
            | None => scan seq tags r "" pos limit
            end
          else scan seq tags r (cur +:+ String a "") pos limit
      end
  end.

Definition readSegment (b : Bus) (seq at_ : Z) (tags : list string) (limit : nat) : list (Event D) * Z :=
  match files b !! seq with
  | None => ([], at_)
  | Some f => scan seq tags (sdrop (Z.to_nat at_) (sContent f)) "" at_ limit
  end.

(** The segments one after the other, until there are enough events. *)
Fixpoint read_all (b : Bus) (seqs : list Z) (seg at_ : Z) (tags : list string) (limit : nat) (next : string)
    : list (Event D) * string :=
  match seqs with
  | [] => ([], next)
  | seq :: seqs' =>
      if seq <? seg then read_all b seqs' seg at_ tags limit next
      else
        let start := if seq =? seg then at_ else 0 in
        let '(es, end_) := readSegment b seq start tags limit in
        let next := offset_at seq end_ in
        if (limit <=? length es)%nat then (es, next)
        else
          let '(es', next) := read_all b seqs' seg at_ tags (limit - length es) next in (es ++ es', next)
  end.

Definition Read (b : Bus) (from : string) (tags : list string) (limit : Z) : bus_error + list (Event D) * string :=
  match Lag b from with
  | Some e => inl e
  | None =>
      match Resolve b from with
      | inl e => inl e
      | inr (seg, at_) =>
          let limit := if limit <=? 0 then 200 else limit in
          inr (read_all b (segments b) seg at_ tags (Z.to_nat limit) (offset_at seg at_))
      end
  end.
End bus.

(** *** Retention *)

(** The first loop of Prune: the files left, what they hold but for the one
    being written, and how much that is in all. *)
Fixpoint prune_old (b : Bus) (now : Z) (seqs : list Z) (dir : gmap Z seg_file)
    : gmap Z seg_file * list (Z * Z) * Z :=
  match seqs with
  | [] => (dir, [], 0)
  | seq :: seqs' =>
      match dir !! seq with
      | None => prune_old b now seqs' dir
      | Some f =>
          if seq =? segment b then
            let '(dir, keep, total) := prune_old b now seqs' dir in (dir, keep, size_of f + total)
          else if (0 <? Retention b) && (Retention b <? now - sMod f) then prune_old b now seqs' (delete seq dir)
          else let '(dir, keep, total) := prune_old b now seqs' dir in (dir, (seq, size_of f) :: keep, size_of f + total)
      end
  end.

(** The second: the oldest go until what is left fits. *)
Fixpoint prune_size (max total : Z) (keep : list (Z * Z)) (dir : gmap Z seg_file) : gmap Z seg_file :=
  match keep with
  | [] => dir
  | (seq, n) :: keep' =>
      if (max <=? 0) || (total <=? max) then dir else prune_size max (total - n) keep' (delete seq dir)
  end.

(** How many segments were removed, and what is left. *)
Definition Prune (now : Z) (b : Bus) : nat * Bus :=
  let '(dir, keep, total) := prune_old b now (segments b) (files b) in
  let left_ := prune_size (MaxBytes b) total keep dir in
  ((size (files b) - size left_)%nat, with_files left_ b).
