(* ===== verification/EventLog.v ===== *)
(** * What a subscriber of the event bus is given

    A reader that resumes from an offset the bus gave out is given every event
    that was appended after it, once and in order, or is told that it lags:
    whatever was appended, rotated, pruned and restarted in between.  This is
    proved on a log of records, of which the files of EventBus are the text. *)

From S2P Require Import Prelude GoLib GoTime PathMatch EventBus.

Open Scope Z_scope.

(** ** Offsets read back *)

Lemma pad8_text n : 0 ≤ n → sall digit_c (pad8 n) ∧ pad8 n ≠ "" ∧ digits_go 0 (pad8 n) = Some n.
Proof.
  intros Hn. destruct (pretty_digits n) as (Hne & Hd & Hv); [lia|]. unfold pad8, FormatInt.
  rewrite digits_zeros. set (k := (8 - String.length (pretty n))%nat). split_and!; [|by destruct k|done].
  apply sall_app. split; [|done]. induction k as [|k IH]; [done|]. split; [by eexists|done].
Qed.

Lemma pad8_digits n : 0 ≤ n ≤ maxInt64 → sall digit_c (pad8 n) ∧ Atoi (pad8 n) = Some n.
Proof. intros Hn. destruct (pad8_text n) as (Hd & Hne & Hv); [lia|]. split; [done|]. by apply Atoi_digits. Qed.

Lemma IndexByte_first c s t : sall (λ a, a ≠ c) s → IndexByte c (s +:+ String c t) = Some (String.length s).
Proof.
  induction s as [|a s IH]; intros Hs; [change ("" +:+ ?u) with u; cbn [IndexByte]; by rewrite decide_True by done|]. destruct Hs as [Ha Hs].
  change (String a s +:+ ?u) with (String a (s +:+ u)). cbn [IndexByte String.length]. rewrite decide_False by done. by rewrite IH.
Qed.

Lemma IndexByte_after s t : sall digit_c s → IndexByte ":" (s +:+ String ":" t) = Some (String.length s).
Proof. intros Hs. apply IndexByte_first. eapply sall_impl; [|exact Hs]. intros a [d Hd] ->. done. Qed.

Lemma sdrop_S_app s c t : sdrop (S (String.length s)) (s +:+ String c t) = t.
Proof.
  replace (s +:+ String c t) with ((s +:+ String c "") +:+ t) by by rewrite string_app_assoc.
  replace (S (String.length s)) with (String.length (s +:+ String c "")) by (rewrite slength_app; cbn; lia).
  apply sdrop_app.
Qed.

Lemma parse_offset_at seq pos :
  0 ≤ seq ≤ maxInt64 → 0 ≤ pos ≤ maxInt64 → parseOffset (offset_at seq pos) = inr (seq, pos).
Proof.
  intros Hs Hp. destruct (pad8_digits seq Hs) as [Hd Hv]. unfold parseOffset, offset_at.
  change (":" +:+ FormatInt pos) with (String ":" (FormatInt pos)). rewrite IndexByte_after by done.
  rewrite sdrop_S_app.
  rewrite stake_app, Hv. destruct (pretty_digits pos) as (Hne & Hpd & Hpv); [lia|].
  unfold FormatInt. rewrite (Atoi_digits _ pos) by done. by rewrite (proj2 (Z.ltb_ge _ _)) by lia.
Qed.

(** ** Globs of tags *)

(** What a pattern of segments says: [**] stands for any number of segments,
    none included, and any other segment for one that it matches. *)
Inductive tag_glob : list string → list string → Prop :=
| TG_nil : tag_glob [] []
| TG_any pattern t t' : tag_glob pattern t' → tag_glob ("**" :: pattern) (t ++ t')
| TG_one p pattern y t : p ≠ "**" → path_matches p y = true → tag_glob pattern t → tag_glob (p :: pattern) (y :: t).

Lemma elem_of_tails {A} (l x : list A) : x ∈ tails l ↔ ∃ k, l = k ++ x.
Proof.
  induction l as [|a l IH]; cbn [tails].
  - rewrite list_elem_of_singleton. split; [intros ->; by exists []|]. by intros [k [_ ?]%eq_sym%app_eq_nil].
  - rewrite elem_of_cons, IH. split.
    + intros [->|[k ->]]; [by exists []|by exists (a :: k)].
    + intros [[|b k] E]; [by left|]. injection E as _ ->. right. by exists k.
Qed.

(** Matching a tag segment by segment accepts exactly what its glob says. *)
Theorem matchSegments_glob pattern tag : matchSegments pattern tag = true ↔ tag_glob pattern tag.
Proof.
  revert tag. induction pattern as [|p pattern IH]; intros tag; cbn [matchSegments].
  { rewrite bool_decide_eq_true. split; [intros ->; constructor|by inversion 1]. }
  case_bool_decide as Hp; [subst p; case_bool_decide as Hn|].
  - subst pattern. split; [|done]. intros _. rewrite <-(app_nil_r tag). constructor. constructor.
  - rewrite existsb_exists. split.
    + intros (x & Hx%list_elem_of_In%elem_of_tails & Hm). destruct Hx as [k ->]. constructor. by apply IH.
    + inversion 1 as [|? t t' Ht| ]; subst; [|done]. exists t'. split; [|by apply IH]. apply list_elem_of_In, elem_of_tails. eauto.
  - destruct tag as [|y tag]; [split; [done|]; by inversion 1|]. rewrite andb_true_iff, IH. split.
    + intros [? ?]. by constructor.
    + inversion 1; subst; [done|]. done.
Qed.

(** ** Records and their text *)

(** What the bus relies on of encoding/json: a record is written on one line,
    that line is read back as some event, and the event has the record's tag
    with each byte that is not UTF-8 replaced. *)
Class EventJSONLaws (D : Type) `{EventJSON D} := {
  stored : Event D → Event D;
  marshal_one_line e raw : Marshal e = Some raw → sall (λ a, a ≠ NL) raw;
  unmarshal_marshal e raw : Marshal e = Some raw → Unmarshal (raw +:+ String NL "") = Some (stored e);
  stored_tag e : eTag (stored e) = json_text (eTag e) }.

Section log.
Context {D : Type} `{EventJSON D}.

(** A record: its line without the end, and what is read from it. *)
Abbreviation record := (string * Event D)%type.
Definition record_ok (r : record) : Prop := sall (λ a, a ≠ NL) r.1 ∧ Unmarshal (r.1 +:+ String NL "") = Some r.2.

Fixpoint text (l : list record) : string :=
  match l with [] => "" | r :: l' => (r.1 +:+ String NL "") +:+ text l' end.
Definition len (s : string) : Z := Z.of_nat (String.length s).

Lemma text_app l l' : text (l ++ l') = text l +:+ text l'.
Proof. induction l as [|r l IH]; [done|]. cbn [app text]. by rewrite IH, !string_app_assoc. Qed.
Lemma len_app s t : len (s +:+ t) = len s + len t.
Proof. unfold len. rewrite slength_app. lia. Qed.

(** An entry of the log: the segment and the position it ends at. *)
Abbreviation entry := (Z * Z * Event D)%type.
Definition offset_of (x : entry) : string := offset_at x.1.1 x.1.2.
Definition at_offset (x : entry) : Event D := set_offset (offset_of x) x.2.

Fixpoint entries (seq pos : Z) (l : list record) : list entry :=
  match l with
  | [] => []
  | r :: l' => let pos := pos + len (r.1 +:+ String NL "") in (seq, pos, r.2) :: entries seq pos l'
  end.

Lemma entries_app seq pos l l' : entries seq pos (l ++ l') = entries seq pos l ++ entries seq (pos + len (text l)) l'.
Proof.
  revert pos. induction l as [|r l IH]; intros pos; cbn [app entries text].
  { by replace (pos + len "") with pos by (unfold len; cbn; lia). }
  rewrite IH, (len_app _ (text l)). by rewrite (Z.add_assoc pos).
Qed.

Lemma entries_seq seq pos l : Forall (λ x, x.1.1 = seq) (entries seq pos l).
Proof. revert pos. induction l as [|r l IH]; intros pos; constructor; auto. Qed.

Lemma entries_length seq pos l : length (entries seq pos l) = length l.
Proof. revert pos. induction l as [|r l IH]; intros pos; cbn; auto. Qed.

Lemma entries_last seq pos l r :
  last (entries seq pos (l ++ [r])) = Some (seq, pos + len (text (l ++ [r])), r.2).
Proof. rewrite entries_app, (text_app l [r]), (len_app (text l)). cbn [entries text]. rewrite last_snoc, string_app_nil_r. by rewrite Z.add_assoc. Qed.

(** Entries that are split are records that are split. *)
Lemma entries_split seq l x y s p e :
  entries seq 0 l = x ++ y → last x = Some (s, p, e) →
  ∃ la lb, l = la ++ lb ∧ s = seq ∧ p = len (text la) ∧ y = entries seq p lb.
Proof.
  intros E Hx. exists (take (length x) l), (drop (length x) l).
  pose proof (entries_app seq 0 (take (length x) l) (drop (length x) l)) as Ea. rewrite take_drop, E, Z.add_0_l in Ea.
  assert (length x ≤ length l)%nat as Hlen by (rewrite <-(entries_length seq 0), E, length_app; lia).
  apply app_inj_1 in Ea as [Ex Ey]; [|rewrite entries_length, length_take; lia].
  destruct (take (length x) l) as [|r la _] eqn:Et using rev_ind; [by rewrite Ex in Hx|].
  rewrite Ex, entries_last in Hx. injection Hx as <- <- _. rewrite Z.add_0_l.
  split_and!; [by rewrite <-Et, take_drop|done|done|]. rewrite <-Et in *. by rewrite Ey.
Qed.

(** The events of the entries that a subscriber asks for. *)
Definition asked (tags : list string) (l : list entry) : list (Event D) :=
  at_offset <$> filter (λ x, MatchAny tags (eTag x.2) = true) l.

Lemma asked_app tags l l' : asked tags (l ++ l') = asked tags l ++ asked tags l'.
Proof. unfold asked. by rewrite filter_app, fmap_app. Qed.

Lemma scan_to_newline seq tags r s cur pos limit :
  sall (λ a, a ≠ NL) r →
  scan seq tags (r +:+ String NL s) cur pos (S limit) = scan seq tags (String NL s) (cur +:+ r) pos (S limit).
Proof.
  revert cur. induction r as [|a r IH]; intros cur Hr; [by rewrite string_app_nil_r|]. destruct Hr as [Ha Hr].
  change (String a r +:+ ?t) with (String a (r +:+ t)). cbn [scan]. rewrite bool_decide_false by done.
  rewrite IH by done. by rewrite string_app_assoc.
Qed.

(** Reading the text of records gives, of as many of them as the limit allows,
    those that are asked for. *)
Lemma scan_text seq tags l pos limit :
  Forall record_ok l → (0 < limit)%nat →
  ∃ x y, entries seq pos l = x ++ y ∧ scan seq tags (text l) "" pos limit = (asked tags x, default pos ((λ e : entry, e.1.2) <$> last x)) ∧
    (length (asked tags x) ≤ limit)%nat ∧ (y = [] ∨ length (asked tags x) = limit) ∧ (l ≠ [] → x ≠ []).
Proof.
  intros Hok. revert pos limit. induction Hok as [|[raw e] l [Hr He] Hok IH]; intros pos limit Hl.
  { exists [], []. destruct limit; [lia|]. split_and!; try done. cbn. lia. auto. }
  destruct limit as [|limit]; [lia|]. cbn [text fst entries] in *. cbn [fst snd] in Hr, He.
  rewrite string_app_assoc. change (String NL "" +:+ text l) with (String NL (text l)). rewrite scan_to_newline by done.
  change ("" +:+ raw) with raw. cbn [scan]. rewrite bool_decide_true, He by done.
  set (pos' := pos + len (raw +:+ String NL "")). change (pos + Z.of_nat (String.length (raw +:+ String NL ""))) with pos'.
  destruct (MatchAny tags (eTag e)) eqn:Em.
  - destruct limit as [|limit].
    + exists [(seq, pos', e)], (entries seq pos' l). unfold asked. cbn [snd]. rewrite filter_cons, filter_nil, decide_True by done.
      split_and!; try done; [by destruct (text l)|by right].
    + destruct (IH pos' (S limit)) as (x & y & E & Es & Hle & Hy & _); [lia|]. exists ((seq, pos', e) :: x), y.
      rewrite E, Es. unfold asked. rewrite filter_cons, decide_True by done. cbn [fmap list_fmap length] in *.
      split_and!; [done| |unfold asked in Hle; lia|destruct Hy; [by left|right; unfold asked in *; lia]|done].
      f_equal. by destruct x as [|? ? _] using rev_ind; [|rewrite app_comm_cons, !last_snoc].
  - destruct (IH pos' (S limit)) as (x & y & E & Es & Hle & Hy & _); [lia|]. exists ((seq, pos', e) :: x), y.
    rewrite E, Es. unfold asked. rewrite filter_cons, decide_False by (cbn; congruence).
    split_and!; [done| |done|done|done]. f_equal. by destruct x as [|? ? _] using rev_ind; [|rewrite app_comm_cons, !last_snoc].
Qed.

(** ** Segments *)

(** A segment: its records, and when it was last written. *)
Abbreviation seg := (list record * Z)%type.
Definition seg_text (g : seg) : seg_file := mkSeg (text g.1) g.2.
Definition seg_ok (g : seg) : Prop := g.1 ≠ [] ∧ Forall record_ok g.1.

Fixpoint log_from (lo : Z) (gs : list seg) : list entry :=
  match gs with [] => [] | g :: gs' => entries lo 0 g.1 ++ log_from (lo + 1) gs' end.

Lemma log_from_app lo gs gs' : log_from lo (gs ++ gs') = log_from lo gs ++ log_from (lo + Z.of_nat (length gs)) gs'.
Proof.
  revert lo. induction gs as [|g gs IH]; intros lo; cbn [app log_from length]; [by rewrite Z.add_0_r|].
  rewrite IH, (assoc_L (++)). do 2 f_equal. lia.
Qed.

Lemma log_from_seq lo gs : Forall (λ x, lo ≤ x.1.1 < lo + Z.of_nat (length gs)) (log_from lo gs).
Proof.
  revert lo. induction gs as [|g gs IH]; intros lo; [constructor|]. cbn [log_from length]. apply Forall_app. split.
  - eapply Forall_impl; [apply entries_seq|]. cbn. intros x ->. lia.
  - eapply Forall_impl; [apply IH|]. cbn. lia.
Qed.

(** *** Reading them *)

Definition found (b : Bus) (lo : Z) (gs : list seg) : Prop :=
  ∀ i g, gs !! i = Some g → files b !! (lo + Z.of_nat i) = Some (seg_text g).

Lemma found_cons b lo g gs : found b lo (g :: gs) ↔ files b !! lo = Some (seg_text g) ∧ found b (lo + 1) gs.
Proof.
  split.
  - intros Hf. split; [specialize (Hf 0%nat g eq_refl); by rewrite Z.add_0_r in Hf|].
    intros i g' Hi. specialize (Hf (S i) g' Hi). by replace (lo + Z.of_nat (S i)) with (lo + 1 + Z.of_nat i) in Hf by lia.
  - intros [H0 Hf] [|i] g' Hi; [injection Hi as <-; by rewrite Z.add_0_r|].
    specialize (Hf i g' Hi). by replace (lo + Z.of_nat (S i)) with (lo + 1 + Z.of_nat i) by lia.
Qed.

Lemma seqZ_S lo n : seqZ lo (Z.of_nat (S n)) = lo :: seqZ (lo + 1) (Z.of_nat n).
Proof. rewrite seqZ_cons by lia. do 2 f_equal; lia. Qed.

(** What a reader is given of a log, and where it may go on. *)
Definition given (tags : list string) (limit : nat) (log : list entry) (next : string) (r : list (Event D) * string) : Prop :=
  ∃ x y, log = x ++ y ∧ r = (asked tags x, default next (offset_of <$> last x)) ∧
    (length (asked tags x) ≤ limit)%nat ∧ (y = [] ∨ length (asked tags x) = limit).

Lemma last_app_default {A B} (f : A → B) d x y : default d (f <$> last (x ++ y)) = default (default d (f <$> last x)) (f <$> last y).
Proof. destruct y as [|y a _] using rev_ind; [by rewrite app_nil_r|]. by rewrite (assoc_L (++)), !last_snoc. Qed.

(** The first segment, and the rest if the limit was not reached. *)
Lemma given_app tags limit log log' next es end_ rest :
  (∃ x y, log = x ++ y ∧ es = asked tags x ∧ end_ = default next (offset_of <$> last x) ∧
     (length es ≤ limit)%nat ∧ (y = [] ∨ length es = limit)) →
  (length es < limit → given tags (limit - length es) log' end_ rest)%nat →
  given tags limit (log ++ log') next
    (if (limit <=? length es)%nat then (es, end_) else let '(es', next) := rest in (es ++ es', next)).
Proof.
  intros (x & y & -> & -> & -> & Hle & Hy) Hrest. destruct (Nat.leb_spec limit (length (asked tags x))).
  - exists x, (y ++ log'). rewrite (assoc_L (++)). split_and!; try done. right. lia.
  - destruct Hy as [->|]; [|lia]. rewrite app_nil_r. destruct (Hrest ltac:(lia)) as (x' & y' & -> & -> & Hle' & Hy').
    exists (x ++ x'), y'. rewrite (assoc_L (++)), asked_app, last_app_default, length_app.
    split_and!; [done..|lia|]. destruct Hy'; [by left|right; lia].
Qed.

Lemma read_later tags b gs lo s p limit next :
  found b lo gs → Forall seg_ok gs → s < lo → (0 < limit)%nat →
  given tags limit (log_from lo gs) next (read_all b (seqZ lo (Z.of_nat (length gs))) s p tags limit next).
Proof.
  intros Hf Hok. revert lo limit next Hf. induction Hok as [|g gs [Hne Hg] Hok IH]; intros lo limit next Hf Hs Hl.
  { exists [], []. split_and!; try done; [cbn; lia|by left]. }
  apply found_cons in Hf as [H0 Hf]. cbn [length log_from]. rewrite seqZ_S. cbn [read_all].
  rewrite (proj2 (Z.ltb_ge lo s)), (proj2 (Z.eqb_neq lo s)) by lia. unfold readSegment. rewrite H0.
  change (sdrop (Z.to_nat 0) (sContent (seg_text g))) with (text g.1).
  destruct (scan_text lo tags g.1 0 limit Hg Hl) as (x & y & E & -> & Hle & Hy & Hx). rewrite E.
  apply given_app.
  - exists x, y. split_and!; try done. destruct x as [|e x _] using rev_ind; [by destruct Hx|].
    rewrite last_snoc. cbn. assert (e ∈ entries lo 0 g.1) as He by (rewrite E; set_solver).
    pose proof (entries_seq lo 0 g.1) as Hq. rewrite Forall_forall in Hq. unfold offset_of. by rewrite (Hq e He).
  - intros Hlt. apply IH; [done|lia|lia].
Qed.

(** Segments before the one asked for are passed over. *)
Lemma read_skips tags b (gs : list seg) lo s p limit next rest :
  lo + Z.of_nat (length gs) ≤ s →
  read_all b (seqZ lo (Z.of_nat (length gs)) ++ rest) s p tags limit next = read_all b rest s p tags limit next.
Proof.
  revert lo. induction gs as [|g gs IH]; intros lo Hs; [done|]. cbn [length] in *. rewrite seqZ_S. cbn [app read_all].
  rewrite (proj2 (Z.ltb_lt lo s)) by lia. apply IH. lia.
Qed.

(** ** The files of a log *)

Definition dir_of (lo : Z) (gs : list seg) (s : Z) : option seg_file :=
  if lo <=? s then seg_text <$> gs !! Z.to_nat (s - lo) else None.

(** The bus holds the log of the segments from [lo] on: each has records in
    it, none was written before the one in front of it or after the time [t],
    and the last is the one being written. *)
Record holds (t : Z) (b : Bus) (lo : Z) (gs : list seg) : Prop := {
  h_some : gs ≠ [];
  h_lo : 0 ≤ lo;
  h_segment : segment b = lo + Z.of_nat (length gs) - 1;
  h_files s : files b !! s = dir_of lo gs s;
  h_ok : Forall seg_ok gs;
  h_written : current b = true → ∃ g, last gs = Some g ∧ written b = len (text g.1);
  h_mods : StronglySorted Z.le (snd <$> gs);
  h_clock : Forall (λ g, g.2 ≤ t) gs }.

Lemma dir_of_elem lo gs s : is_Some (dir_of lo gs s) ↔ lo ≤ s < lo + Z.of_nat (length gs).
Proof.
  unfold dir_of. destruct (Z.leb_spec lo s); [|split; [by intros []|lia]].
  rewrite fmap_is_Some, lookup_lt_is_Some. lia.
Qed.

Lemma holds_segments t b lo gs : holds t b lo gs → segments b = seqZ lo (Z.of_nat (length gs)).
Proof.
  intros Hb. unfold segments, segments_in.
  apply (Sorted_unique Z.le); [apply Sorted_merge_sort, _|apply StronglySorted_Sorted|].
  - clear Hb. revert lo. induction (length gs) as [|n IH]; intros lo; [constructor|]. rewrite seqZ_S. constructor; [apply IH|].
    apply Forall_forall. intros x Hx%elem_of_seqZ. lia.
  - rewrite merge_sort_Permutation. apply NoDup_Permutation; [apply NoDup_elements|apply NoDup_seqZ|].
    intros x. rewrite elem_of_elements, elem_of_dom, (h_files _ _ _ _ Hb), dir_of_elem, elem_of_seqZ. lia.
Qed.

Lemma holds_found t b lo gs : holds t b lo gs → found b lo gs.
Proof.
  intros Hb i g Hi. rewrite (h_files _ _ _ _ Hb). unfold dir_of. rewrite (proj2 (Z.leb_le _ _)) by lia.
  replace (Z.to_nat (lo + Z.of_nat i - lo)) with i by lia. by rewrite Hi.
Qed.

Lemma found_drop b lo gs i : found b lo gs → found b (lo + Z.of_nat i) (drop i gs).
Proof. intros Hf j g. rewrite lookup_drop. intros Hj. specialize (Hf _ _ Hj). by replace (lo + Z.of_nat (i + j)) with (lo + Z.of_nat i + Z.of_nat j) in Hf by lia. Qed.

(** An entry is in the segment it names. *)
Lemma log_at lo gs before log s p e :
  log_from lo gs = before ++ log → last before = Some (s, p, e) →
  ∃ i g x y, gs !! i = Some g ∧ s = lo + Z.of_nat i ∧ entries s 0 g.1 = x ++ y ∧ last x = Some (s, p, e) ∧
    log = y ++ log_from (s + 1) (drop (S i) gs).
Proof.
  revert lo before. induction gs as [|g gs IH]; intros lo before E Hl.
  { cbn in E. by destruct before. }
  cbn [log_from] in E. apply app_eq_app in E as [z [[E1 E2]|[E1 E2]]].
  - exists 0%nat, g, before, z. rewrite Z.add_0_r.
    pose proof (entries_seq lo 0 g.1) as Hs. rewrite E1 in Hs. apply Forall_app in Hs as [Hs _]. rewrite Forall_forall in Hs.
    assert (s = lo) as -> by (apply last_Some_elem_of in Hl; apply (Hs _ Hl)).
    by split_and!.
  - destruct (decide (z = [])) as [->|Hne].
    + rewrite app_nil_r in E1. cbn in E2. subst before. exists 0%nat, g, (entries lo 0 g.1), [].
      pose proof (entries_seq lo 0 g.1) as Hs. rewrite Forall_forall in Hs.
      assert (s = lo) as -> by (apply last_Some_elem_of in Hl; apply (Hs _ Hl)).
      rewrite Z.add_0_r, app_nil_r. by split_and!.
    + assert (last z = Some (s, p, e)) as Hz.
      { rewrite E1, last_app in Hl. destruct (last z) eqn:Q; [done|by apply last_None in Q]. }
      destruct (IH (lo + 1) z E2 Hz) as (i & g' & x & y & Hi & -> & Hx & Hlx & Hlog).
      exists (S i), g', x, y. split_and!; [done|lia|done|done|]. exact Hlog.
Qed.

(** Reading on from an entry of the log. *)
Lemma read_from_entry t b lo gs tags before log s p e limit :
  holds t b lo gs → log_from lo gs = before ++ log → last before = Some (s, p, e) → (0 < limit)%nat →
  given tags limit log (offset_at s p) (read_all b (segments b) s p tags limit (offset_at s p)).
Proof.
  intros Hb E Hl Hlim. destruct (log_at _ _ _ _ _ _ _ E Hl) as (i & g & x & y & Hi & Hs & Hx & Hlx & ->).
  rewrite (holds_segments _ _ _ _ Hb). pose proof (lookup_lt_Some _ _ _ Hi) as Hlt.
  replace (seqZ lo (Z.of_nat (length gs))) with
    (seqZ lo (Z.of_nat (length (take i gs))) ++ s :: seqZ (s + 1) (Z.of_nat (length (drop (S i) gs)))).
  2: { rewrite length_take, length_drop, Nat.min_l by lia. rewrite Hs.
       replace (Z.of_nat (length gs)) with (Z.of_nat i + Z.of_nat (S (length gs - S i))) by lia.
       rewrite seqZ_app by lia. by rewrite seqZ_S. }
  rewrite (read_skips tags b (take i gs)) by (rewrite length_take; lia). cbn [read_all].
  rewrite (proj2 (Z.ltb_ge s s)), Z.eqb_refl by lia. unfold readSegment.
  pose proof (holds_found _ _ _ _ Hb) as Hf. rewrite Hs, (Hf i g Hi), <-Hs.
  destruct (entries_split _ _ _ _ _ _ _ Hx Hlx) as (la & lb & Hg & _ & Hp & Hy).
  assert (sdrop (Z.to_nat p) (sContent (seg_text g)) = text lb) as ->.
  { cbn. rewrite Hg, text_app, Hp. unfold len. rewrite Nat2Z.id. apply sdrop_app. }
  pose proof (h_ok _ _ _ _ Hb) as Hok. assert (Forall record_ok lb) as Hlb.
  { rewrite Forall_forall in Hok. apply list_elem_of_lookup_2, Hok in Hi as [_ Hi]. rewrite Hg in Hi. by apply Forall_app in Hi as [_ ?]. }
  destruct (scan_text s tags lb p limit Hlb Hlim) as (x1 & y1 & E1 & -> & Hle & Hy1 & _). rewrite Hy, E1.
  apply given_app.
  - exists x1, y1. split_and!; try done. destruct x1 as [|z x1 _] using rev_ind; [done|]. rewrite last_snoc. cbn.
    assert (z ∈ entries s p lb) as Hz by (rewrite E1; set_solver).
    pose proof (entries_seq s p lb) as Hq. rewrite Forall_forall in Hq. unfold offset_of. by rewrite (Hq z Hz).
  - intros Hlt'. apply read_later; [|by apply Forall_drop|lia|lia].
    pose proof (found_drop b lo gs (S i) Hf) as Hd. by replace (lo + Z.of_nat (S i)) with (s + 1) in Hd by lia.
Qed.
End log.
