(* ===== verification/EventResume.v ===== *)
(** * Nothing is missed on the event bus

    Appending, rotating, pruning and restarting keep the files of the bus the
    text of a log that only grows at its end and only shrinks at its start, so
    that a subscriber who resumes misses nothing without being told. *)

From S2P Require Import Prelude GoLib GoTime PathMatch EventBus EventLog.

Open Scope Z_scope.

Section resume.
Context {D : Type} `{EventJSONLaws D}.

Abbreviation record := (string * Event D)%type.
Abbreviation seg := (list record * Z)%type.
Abbreviation entry := (Z * Z * Event D)%type.

(** ** Appending *)

(** What is read back of an event that was appended at a time. *)
Definition as_stored (now : Z) (e : Event D) : Event D := stored (set_offset "" (with_schema (stamped now e))).

Lemma as_stored_tag now e : eTag (as_stored now e) = json_text (eTag e).
Proof. unfold as_stored. rewrite stored_tag. by destruct e. Qed.

Lemma encode_record now e line :
  encode (stamped now e) = Some line → ∃ r : record, record_ok r ∧ r.2 = as_stored now e ∧ line = r.1 +:+ String NL "".
Proof.
  unfold encode. destruct (Marshal _) as [raw|] eqn:E; [|done]. intros [= <-]. exists (raw, as_stored now e).
  split_and!; [|done|done]. split; [by eapply marshal_one_line|by apply unmarshal_marshal].
Qed.

(** A log that grows by a record: in its last segment or in a new one. *)
Inductive grows (now : Z) (r : record) : list seg → list seg → Prop :=
| G_same gs l m : grows now r (gs ++ [(l, m)]) (gs ++ [(l ++ [r], now)])
| G_new gs : grows now r gs (gs ++ [([r], now)]).

Lemma grows_log now r gs gs' lo :
  grows now r gs gs' → ∃ p, log_from lo gs' = log_from lo gs ++ [(lo + Z.of_nat (length gs') - 1, p, r.2)] ∧
    ∃ g, last gs' = Some g ∧ p = len (text g.1).
Proof.
  intros [gs0 l m|gs0].
  - exists (len (text (l ++ [r]))). split; [|by eexists; rewrite last_snoc].
    rewrite !log_from_app, length_app. cbn [log_from length fst]. rewrite !app_nil_r, entries_app.
    rewrite <-(assoc_L (++)). do 2 f_equal. cbn [entries]. rewrite Z.add_0_l, text_app. cbn [text].
    rewrite string_app_nil_r, !len_app. repeat f_equal. lia.
  - exists (len (text [r])). split; [|by eexists; rewrite last_snoc].
    rewrite log_from_app, length_app. cbn [log_from length entries text fst app]. rewrite string_app_nil_r, Z.add_0_l. do 4 f_equal. lia.
Qed.

Lemma grows_ok now r gs gs' : record_ok r → grows now r gs gs' → Forall seg_ok gs → Forall seg_ok gs'.
Proof.
  intros Hr [gs0 l m|gs0] Hok.
  - apply Forall_app in Hok as [Ha [[_ Hl] _]%Forall_cons]. apply Forall_app. split; [done|]. apply Forall_singleton.
    split; [by destruct l|]. apply Forall_app. split; [done|by apply Forall_singleton].
  - apply Forall_app. split; [done|]. apply Forall_singleton. split; [done|by apply Forall_singleton].
Qed.

Lemma sorted_snoc l t now : StronglySorted Z.le l → Forall (λ x, x ≤ t) l → t ≤ now → StronglySorted Z.le (l ++ [now]).
Proof.
  intros Hs Hc Ht. induction Hs as [|x l Hs IH Hx]; [repeat constructor|]. apply Forall_cons in Hc as [Hxt Hc].
  cbn. constructor; [by apply IH|]. apply Forall_app. split; [done|]. apply Forall_singleton. lia.
Qed.

Lemma grows_mods now r gs gs' t :
  grows now r gs gs' → StronglySorted Z.le (snd <$> gs) → Forall (λ g, g.2 ≤ t) gs → t ≤ now →
  StronglySorted Z.le (snd <$> gs') ∧ Forall (λ g, g.2 ≤ now) gs'.
Proof.
  intros Hg Hs Hc Ht. assert (∀ l : list seg, Forall (λ g, g.2 ≤ t) l → Forall (λ g, g.2 ≤ now) l ∧ Forall (λ x, x ≤ t) (snd <$> l)) as Hw.
  { intros l Hl. split; [eapply Forall_impl; [exact Hl|]; cbn; lia|by apply Forall_fmap]. }
  destruct Hg as [gs0 l m|gs0]; rewrite fmap_app in *.
  - apply Forall_app in Hc as [Hc _]. destruct (Hw _ Hc) as [H1 H2]. apply StronglySorted_app_1_l in Hs.
    split; [by eapply sorted_snoc|]. apply Forall_app. split; [done|]. apply Forall_singleton. cbn. lia.
  - destruct (Hw _ Hc) as [H1 H2]. split; [by eapply sorted_snoc|]. apply Forall_app. split; [done|]. apply Forall_singleton. cbn. lia.
Qed.

(** The file that is written to, and the directory after it. *)
Lemma grows_dir now r gs gs' lo s :
  grows now r gs gs' → 
  dir_of lo gs' s = if decide (s = lo + Z.of_nat (length gs') - 1) then seg_text <$> last gs' else dir_of lo gs s.
Proof.
  intros Hg. unfold dir_of. assert (∀ (l : list seg) g i, (i < length l)%nat → (l ++ [g]) !! i = l !! i) as Hl
    by (intros; by apply lookup_app_l).
  assert (∀ (l : list seg) g i, (length l < i)%nat → (l ++ [g]) !! i = None) as Hn
    by (intros; apply lookup_ge_None_2; rewrite length_app; cbn; lia).
  destruct Hg as [gs0 l m|gs0]; rewrite length_app, last_snoc; cbn [length]; case_decide as Hs.
  - subst s. rewrite (proj2 (Z.leb_le _ _)) by lia. rewrite lookup_app_r by lia.
    by replace (Z.to_nat _ - length gs0)%nat with 0%nat by lia.
  - destruct (Z.leb_spec lo s); [|done]. destruct (decide (Z.to_nat (s - lo) < length gs0)%nat).
    + by rewrite !Hl by done.
    + by rewrite !Hn by lia.
  - subst s. rewrite (proj2 (Z.leb_le _ _)) by lia. rewrite lookup_app_r by lia.
    by replace (Z.to_nat _ - length gs0)%nat with 0%nat by lia.
  - destruct (Z.leb_spec lo s); [|done]. destruct (decide (Z.to_nat (s - lo) < length gs0)%nat).
    + by rewrite !Hl by done.
    + rewrite Hn by lia. by rewrite lookup_ge_None_2 by lia.
Qed.

(** A bus whose log has grown. *)
Lemma grown t now b b' lo gs gs' r g :
  holds t b lo gs ∨ (files b = ∅ ∧ gs = [] ∧ 0 ≤ lo) → t ≤ now → record_ok r → grows now r gs gs' → last gs' = Some g →
  segment b' = lo + Z.of_nat (length gs') - 1 →
  files b' = <[segment b' := seg_text g]> (files b) →
  (current b' = true → written b' = len (text g.1)) → holds now b' lo gs'.
Proof.
  intros Hb Ht Hr Hg Hl Hs Hf Hw.
  assert (0 ≤ lo ∧ (∀ s, files b !! s = dir_of lo gs s) ∧ Forall seg_ok gs ∧ StronglySorted Z.le (snd <$> gs) ∧
          Forall (λ g, g.2 ≤ t) gs) as (Hlo & Hd & Hok & Hm & Hc).
  { destruct Hb as [[]|(E & -> & ?)]; [by split_and!|]. split_and!; try done; [|constructor].
    intros s. rewrite E, lookup_empty. unfold dir_of. by destruct (_ <=? _). }
  destruct (grows_mods _ _ _ _ t Hg Hm Hc Ht) as [Hm' Hc'].
  split; [by destruct gs'|done|done| |by eapply grows_ok|intros ?; exists g; auto|done|done].
  intros s. rewrite Hf, (grows_dir _ _ _ _ _ _ Hg), <-Hs. case_decide as Es; [subst s|by rewrite lookup_insert_ne].
  by rewrite lookup_insert_eq, Hl.
Qed.

Lemma holds_last t b lo gs : holds t b lo gs →
  ∃ gs0 l m, gs = gs0 ++ [(l, m)] ∧ files b !! segment b = Some (mkSeg (text l) m) ∧ files b !! (segment b + 1) = None ∧
    (current b = true → written b = len (text l)).
Proof.
  intros Hb. destruct gs as [|[l m] gs0 _] using rev_ind; [by destruct (h_some _ _ _ _ Hb)|]. exists gs0, l, m.
  split; [done|]. pose proof (h_segment _ _ _ _ Hb) as Hs. rewrite length_app in Hs. cbn in Hs. split_and!.
  - rewrite (h_files _ _ _ _ Hb). unfold dir_of. rewrite (proj2 (Z.leb_le _ _)) by lia.
    rewrite lookup_app_r by lia. by replace (Z.to_nat (segment b - lo) - length gs0)%nat with 0%nat by lia.
  - rewrite (h_files _ _ _ _ Hb). apply eq_None_not_Some. rewrite dir_of_elem, length_app. cbn. lia.
  - intros Hc. destruct (h_written _ _ _ _ Hb Hc) as (g & Hg & ->). rewrite last_snoc in Hg. by injection Hg as <-.
Qed.

Lemma append_line_fine now tag line b :
  let b' := (append_line fine now tag line b).2 in
  (append_line fine now tag line b).1 = inr (offset_at (segment b) (written b + len line)) ∧
  segment b' = segment b ∧ written b' = written b + len line ∧
  files b' = <[segment b := mkSeg (sContent (default (mkSeg "" now) (files b !! segment b)) +:+ line) now]> (files b).
Proof. cbn zeta. unfold append_line. cbn [io_write fine io_sync negb]. by rewrite andb_false_r. Qed.

(** The state of a bus on which nothing was ever appended. *)
Definition fresh (b : Bus) : Prop := files b = ∅ ∧ current b = false ∧ 0 ≤ segment b.

Lemma openCurrent_fine t b lo gs now b1 :
  holds t b lo gs → openCurrent fine now b = inr b1 →
  files b1 = files b ∧ segment b1 = segment b ∧ ∃ gs0 l m, gs = gs0 ++ [(l, m)] ∧
    files b !! segment b = Some (mkSeg (text l) m) ∧ files b !! (segment b + 1) = None ∧ written b1 = len (text l).
Proof.
  intros Hb. destruct (holds_last _ _ _ _ Hb) as (gs0 & l & m & E & Hf & Hn & Hw). unfold openCurrent.
  destruct (closed b); [done|]. destruct (current b) eqn:Ec.
  - intros [= <-]. split_and!; [done..|]. exists gs0, l, m. auto.
  - cbn [io_open fine negb]. rewrite Hf. cbn [default]. intros [= <-]. cbn. rewrite insert_id by done.
    split_and!; [done..|]. exists gs0, l, m. by split_and!.
Qed.

(** What an append to a log does. *)
Definition appended (now : Z) (e : Event D) (lo : Z) (gs : list seg) (off : string) (b' : Bus) : Prop :=
  ∃ gs' r g, grows now r gs gs' ∧ r.2 = as_stored now e ∧ holds now b' lo gs' ∧ last gs' = Some g ∧
    off = offset_at (lo + Z.of_nat (length gs') - 1) (len (text g.1)).

Lemma line_appended t now b1 b2 tag line e lo gs gs' r g off b' :
  holds t b2 lo gs ∨ (files b2 = ∅ ∧ gs = [] ∧ 0 ≤ lo) → t ≤ now → record_ok r → r.2 = as_stored now e →
  grows now r gs gs' → last gs' = Some g → segment b1 = lo + Z.of_nat (length gs') - 1 →
  written b1 + len line = len (text g.1) →
  <[segment b1 := mkSeg (sContent (default (mkSeg "" now) (files b1 !! segment b1)) +:+ line) now]> (files b1) =
    <[segment b1 := seg_text g]> (files b2) →
  append_line fine now tag line b1 = (inr off, b') → appended now e lo gs off b'.
Proof.
  intros Hb Ht Hr Hre Hg Hl Hs Hw Hf E. pose proof (append_line_fine now tag line b1) as Ha. cbn zeta in Ha. rewrite E in Ha.
  destruct Ha as (Ho & Hs' & Hw' & Hf'). injection Ho as ->. cbn [snd] in *. exists gs', r, g. rewrite Hw, <-Hs.
  split_and!; [done|done| |done|done]. eapply grown; [exact Hb|done|done|exact Hg|done| | |].
  - by rewrite Hs'.
  - by rewrite Hs', Hf', Hf.
  - intros _. by rewrite Hw'.
Qed.

Lemma Append_holds t b lo gs now e off b' :
  holds t b lo gs → t ≤ now → Append fine now e b = (inr off, b') → appended now e lo gs off b'.
Proof.
  intros Hb Ht. unfold Append. destruct (ValidTag _); [done|].
  destruct (encode (stamped now e)) as [line|] eqn:Ee; [|done]. destruct (encode_record _ _ _ Ee) as (r & Hr & Hre & ->).
  destruct (openCurrent fine now b) as [err|b1] eqn:Eo; [done|].
  destruct (openCurrent_fine _ _ _ _ _ _ Hb Eo) as (Hf1 & Hs1 & gs0 & l & m & -> & Hf & Hn & Hw).
  pose proof (h_segment _ _ _ _ Hb) as Hseg. rewrite length_app in Hseg. cbn in Hseg.
  assert (closed b1 = false) as Hcl.
  { unfold openCurrent in Eo. destruct (closed b) eqn:?; [done|]. destruct (current b); [by simplify_eq|]. cbn in Eo. by injection Eo as <-. }
  destruct (_ && _).
  - unfold rotate. cbn [io_rotate fine negb]. unfold openCurrent. cbn [closed with_current current io_open fine negb].
    rewrite Hcl. cbn -[append_line]. rewrite Hf1, Hs1, Hn. cbn [default from_option id].
    eapply (line_appended t now _ b _ _ e lo _ _ r ([r], now)); [by left|done|done|done|apply G_new|by rewrite last_snoc| | |].
    + cbn. rewrite !length_app. cbn. lia.
    + cbn. by rewrite string_app_nil_r.
    + cbn [files with_current with_files segment]. rewrite lookup_insert_eq, insert_insert_eq. unfold seg_text.
      cbn [fst snd text from_option id sContent]. by rewrite string_app_nil_r.
  - eapply (line_appended t now _ b _ _ e lo _ _ r (l ++ [r], now)); [by left|done|done|done|apply G_same|by rewrite last_snoc| | |].
    + rewrite Hs1, length_app. cbn. lia.
    + rewrite Hw. cbn [fst]. rewrite (text_app l [r]), (len_app (text l)). cbn [text]. by rewrite string_app_nil_r.
    + rewrite Hf1, Hs1, Hf. unfold seg_text. cbn [fst snd from_option id sContent]. rewrite text_app. cbn [text].
      by rewrite string_app_nil_r.
Qed.

Lemma Append_fresh t b now e off b' :
  fresh b → t ≤ now → Append fine now e b = (inr off, b') → appended now e (segment b) [] off b'.
Proof.
  intros (Hf & Hc & Hs) Ht. unfold Append. destruct (ValidTag _); [done|].
  destruct (encode (stamped now e)) as [line|] eqn:Ee; [|done]. destruct (encode_record _ _ _ Ee) as (r & Hr & Hre & ->).
  destruct (openCurrent fine now b) as [err|b1] eqn:Eo; [done|]. unfold openCurrent in Eo.
  destruct (closed b); [done|]. rewrite Hc, Hf in Eo. cbn in Eo. injection Eo as <-. cbn [written with_current].
  rewrite andb_false_r.
  eapply (line_appended t now _ b _ _ e (segment b) [] _ r ([r], now)); [by right|done|done|done|apply (G_new _ _ [])|done| | |].
  - cbn. lia.
  - cbn. by rewrite string_app_nil_r.
  - cbn [files with_current with_files segment]. rewrite Hf, lookup_insert_eq, insert_insert_eq. unfold seg_text.
    cbn [fst snd text from_option id sContent]. by rewrite string_app_nil_r.
Qed.

(** ** Pruning removes segments from the start *)

Definition without_first (lo : Z) (k : nat) (dir : gmap Z seg_file) : gmap Z seg_file :=
  foldl (λ d s, delete s d) dir (seqZ lo (Z.of_nat k)).

Lemma without_first_lookup lo k dir s :
  without_first lo k dir !! s = if decide (lo ≤ s < lo + Z.of_nat k) then None else dir !! s.
Proof.
  unfold without_first. revert lo dir. induction k as [|k IH]; intros lo dir; [by rewrite decide_False by lia|].
  rewrite seqZ_S. cbn [foldl]. rewrite IH. repeat case_decide; try done; try lia.
  - destruct (decide (s = lo)) as [->|]; [by rewrite lookup_delete_eq|lia].
  - rewrite lookup_delete_ne by lia. done.
Qed.

Lemma without_first_S lo k dir : without_first (lo + 1) k (delete lo dir) = without_first lo (S k) dir.
Proof. unfold without_first. by rewrite seqZ_S. Qed.

Lemma without_first_add lo k j dir : without_first (lo + Z.of_nat k) j (without_first lo k dir) = without_first lo (k + j) dir.
Proof. unfold without_first. rewrite Nat2Z.inj_add, seqZ_app, foldl_app by lia. done. Qed.

(** All the segments but the last, with their sizes. *)
Fixpoint keep_of (lo : Z) (gs : list seg) : list (Z * Z) :=
  match gs with
  | [] => []
  | g :: gs' => match gs' with [] => [] | _ => (lo, size_of (seg_text g)) :: keep_of (lo + 1) gs' end
  end.

Definition old (b : Bus) (now : Z) (g : seg) : bool := (0 <? Retention b) && (Retention b <? now - g.2).

Lemma prune_old_prefix b now gs lo dir :
  gs ≠ [] → segment b = lo + Z.of_nat (length gs) - 1 → StronglySorted Z.le (snd <$> gs) →
  (∀ i g, gs !! i = Some g → dir !! (lo + Z.of_nat i) = Some (seg_text g)) →
  ∃ k total, (k < length gs)%nat ∧ (0 < k → ∃ g, head gs = Some g ∧ old b now g = true)%nat ∧
    prune_old b now (seqZ lo (Z.of_nat (length gs))) dir = (without_first lo k dir, keep_of (lo + Z.of_nat k) (drop k gs), total).
Proof.
  intros Hne. revert lo dir. induction gs as [|g gs IH]; [done|]. intros lo dir Hs Hm Hf. cbn [length] in *. rewrite seqZ_S. cbn [prune_old].
  pose proof (Hf 0%nat g eq_refl) as Hg0. rewrite Z.add_0_r in Hg0. rewrite Hg0.
  destruct gs as [|g1 gs].
  - exists 0%nat, (size_of (seg_text g) + 0). cbn [length] in *. rewrite (proj2 (Z.eqb_eq lo (segment b))) by lia. cbn. split_and!; [lia|lia|done].
  - rewrite (proj2 (Z.eqb_neq lo (segment b))) by (cbn [length] in *; lia).
    assert (∀ dir' : gmap Z seg_file, (∀ s, lo < s → dir' !! s = dir !! s) → ∀ i g', (g1 :: gs) !! i = Some g' → dir' !! (lo + 1 + Z.of_nat i) = Some (seg_text g')) as Hf'.
    { intros dir' Hd i g' Hi. rewrite Hd by lia. specialize (Hf (S i) g' Hi). by replace (lo + Z.of_nat (S i)) with (lo + 1 + Z.of_nat i) in Hf by lia. }
    apply StronglySorted_inv in Hm as [Hm Hle]. change (sMod (seg_text g)) with g.2. fold (old b now g).
    destruct (old b now g) eqn:Eo.
    + destruct (IH ltac:(done) (lo + 1) (delete lo dir)) as (k & total & Hk & _ & ->);
        [cbn [length] in *; lia|done|apply Hf'; intros s Hlt; by rewrite lookup_delete_ne by lia|].
      exists (S k), total. split_and!; [lia|by eexists|]. rewrite without_first_S. cbn [drop].
      by replace (lo + 1 + Z.of_nat k) with (lo + Z.of_nat (S k)) by lia.
    + destruct (IH ltac:(done) (lo + 1) dir) as (k & total & Hk & Hold & ->); [cbn [length] in *; lia|done|by apply Hf'|].
      assert (k = 0%nat) as ->.
      { destruct k; [done|]. destruct (Hold ltac:(lia)) as (g' & [= <-] & Ho). apply Forall_cons in Hle as [Hle _].
        unfold old in *. destruct (0 <? Retention b); [|done]. cbn in *. apply Z.ltb_ge in Eo. apply Z.ltb_lt in Ho. lia. }
      exists 0%nat, (size_of (seg_text g) + total). rewrite !Z.add_0_r, !drop_0. split_and!; [lia|lia|done].
Qed.

Lemma prune_size_prefix max gs lo total dir :
  ∃ k, (k = 0 ∨ k < length gs)%nat ∧ prune_size max total (keep_of lo gs) dir = without_first lo k dir.
Proof.
  revert lo total dir. induction gs as [|g gs IH]; intros lo total dir; [exists 0%nat; by split; [left|]|].
  destruct gs as [|g1 gs]; [exists 0%nat; by split; [left|]|].
  change (keep_of lo (g :: g1 :: gs)) with ((lo, size_of (seg_text g)) :: keep_of (lo + 1) (g1 :: gs)). cbn [prune_size].
  destruct (_ || _); [exists 0%nat; by split; [left|]|].
  destruct (IH (lo + 1) (total - size_of (seg_text g)) (delete lo dir)) as (k & Hk & ->).
  exists (S k). rewrite without_first_S. split; [|done]. right. cbn [length] in *. lia.
Qed.

Lemma sorted_drop (l : list Z) k : StronglySorted Z.le l → StronglySorted Z.le (drop k l).
Proof. rewrite <-(take_drop k l) at 1. apply StronglySorted_app_1_r. Qed.

Lemma holds_drop t now b lo gs k :
  holds t b lo gs → t ≤ now → (k < length gs)%nat →
  holds now (with_files (without_first lo k (files b)) b) (lo + Z.of_nat k) (drop k gs).
Proof.
  intros [Hne Hlo Hs Hf Hok Hw Hm Hc] Ht Hk. split.
  - intros E%(f_equal length). rewrite length_drop in E. cbn in E. lia.
  - lia.
  - cbn. rewrite length_drop. lia.
  - intros s. cbn. rewrite without_first_lookup, Hf. unfold dir_of. case_decide.
    + by rewrite (proj2 (Z.leb_gt _ _)) by lia.
    + destruct (Z.leb_spec lo s), (Z.leb_spec (lo + Z.of_nat k) s); try lia; [|done].
      rewrite lookup_drop. do 2 f_equal. lia.
  - by apply Forall_drop.
  - intros Hcur. destruct (Hw Hcur) as (g & Hg & Hwr). exists g. split; [|done].
    rewrite <-(take_drop k gs), last_app in Hg. destruct (last (drop k gs)) eqn:E; [done|].
    apply last_None, (f_equal length) in E. rewrite length_drop in E. cbn in E. lia.
  - rewrite fmap_drop. by apply sorted_drop.
  - apply Forall_drop. eapply Forall_impl; [exact Hc|]. cbn. lia.
Qed.

Lemma Prune_holds t b lo gs now :
  holds t b lo gs → t ≤ now → ∃ k, (k < length gs)%nat ∧ holds now (Prune now b).2 (lo + Z.of_nat k) (drop k gs).
Proof.
  intros Hb Ht. unfold Prune. rewrite (holds_segments _ _ _ _ Hb).
  destruct (prune_old_prefix b now gs lo (files b)) as (k & total & Hk & _ & ->);
    [apply Hb|apply Hb|apply Hb|apply (holds_found _ _ _ _ Hb)|]. cbn [snd].
  destruct (prune_size_prefix (MaxBytes b) (drop k gs) (lo + Z.of_nat k) total (without_first lo k (files b))) as (j & Hj & ->).
  rewrite without_first_add. rewrite length_drop in Hj. exists (k + j)%nat. split; [lia|]. apply (holds_drop t); [done|done|lia].
Qed.

(** ** Histories *)

Definition configured (sb ret max : Z) (fsync : list string) (b : Bus) : Bus :=
  mkBus (files b) (current b) (segment b) (written b) (closed b) (waiters b) sb ret max fsync.

(** What happens to a bus whose disk does not fail, with the offsets it gives
    out and the events they stand for: [fine] opens, writes and syncs every
    time.  The clock does not go back.  What a write that fails and a clock that
    goes back do is below. *)
Inductive step : Z * Bus → list (string * Event D) → Z * Bus → Prop :=
| S_append t now e b off b' :
    t ≤ now → Append fine now e b = (inr off, b') → step (t, b) [(off, as_stored now e)] (now, b')
| S_refused t now e b err b' : t ≤ now → Append fine now e b = (inl err, b') → step (t, b) [] (now, b')
| S_prune t now b : t ≤ now → step (t, b) [] (now, (Prune now b).2)
| S_close t b : step (t, b) [] (t, Close b)
| S_restart t b : step (t, b) [] (t, Open (files b))
| S_configure t b sb ret max fsync : step (t, b) [] (t, configured sb ret max fsync b)
| S_wait t b : step (t, b) [] (t, Wait b).

(** From an empty directory on. *)
Inductive history : list (string * Event D) → Z * Bus → Prop :=
| H_start t : history [] (t, Open ∅)
| H_step h st h' st' : history h st → step st h' st' → history (h ++ h') st'.

Definition listed (x : entry) : string * Event D := (offset_of x, x.2).

(** An entry that was in a segment before [lo]. *)
Definition below (lo : Z) (x : entry) : Prop := 0 ≤ x.1.1 < lo ∧ 0 ≤ x.1.2.

Lemma entries_pos seq pos (l : list record) : 0 ≤ pos → Forall (λ x, 0 ≤ x.1.2) (entries seq pos l).
Proof.
  revert pos. induction l as [|r l IH]; intros pos Hp; constructor; cbn [fst snd]; [|apply IH];
    pose proof (Nat2Z.is_nonneg (String.length (r.1 +:+ String NL ""))); unfold len; lia.
Qed.

Lemma log_from_pos lo (gs : list seg) : Forall (λ x, 0 ≤ x.1.2) (log_from lo gs).
Proof. revert lo. induction gs as [|g gs IH]; intros lo; [constructor|]. apply Forall_app. split; [by apply entries_pos|apply IH]. Qed.

(** The history is what has been pruned and what the bus holds. *)
Definition records_history (h : list (string * Event D)) (st : Z * Bus) : Prop :=
  (fresh st.2 ∧ h = []) ∨
  ∃ lo gs gone, holds st.1 st.2 lo gs ∧ h = listed <$> gone ++ log_from lo gs ∧ Forall (below lo) gone.

Lemma holds_later t now b lo gs : holds t b lo gs → t ≤ now → holds now b lo gs.
Proof. intros [] Ht. split; try done. eapply Forall_impl; [eassumption|]. cbn. lia. Qed.

Lemma refused_same now e b err b' : Append fine now e b = (inl err, b') → b' = b.
Proof.
  unfold Append. destruct (ValidTag _); [by intros [= _ <-]|]. destruct (encode _) as [line|]; [|by intros [= _ <-]].
  destruct (openCurrent fine now b) as [e0|b1] eqn:Eo; [by intros [= _ <-]|].
  assert (∀ b0, append_line fine now (eTag e) line b0 ≠ (inl err, b')) as Hl.
  { intros b0 E. pose proof (append_line_fine now (eTag e) line b0) as [Ho _]. by rewrite E in Ho. }
  assert (closed b1 = false) as Hcl.
  { unfold openCurrent in Eo. destruct (closed b) eqn:?; [done|]. destruct (current b); [by simplify_eq|]. cbn in Eo. by injection Eo as <-. }
  destruct (_ && _); [|by intros ?%Hl]. unfold rotate, openCurrent. cbn -[append_line]. rewrite Hcl. by intros ?%Hl.
Qed.

Lemma history_appended h lo gs gone now e off b' :
  h = listed <$> gone ++ log_from lo gs → Forall (below lo) gone → appended now e lo gs off b' →
  records_history (h ++ [(off, as_stored now e)]) (now, b').
Proof.
  intros Hh Hg (gs' & r & g & Hgr & Hr & Hb & Hl & ->). right. exists lo, gs', gone. split_and!; [done| |done].
  destruct (grows_log _ _ _ _ lo Hgr) as (p & -> & g' & Hl' & ->). rewrite Hl in Hl'. injection Hl' as <-.
  rewrite Hh, (assoc_L (++) gone), (fmap_app listed (gone ++ log_from lo gs)). f_equal.
  cbn [fmap list_fmap]. unfold listed, offset_of. cbn [fst snd]. by rewrite Hr.
Qed.

Lemma step_records h st h' st' : records_history h st → step st h' st' → records_history (h ++ h') st'.
Proof.
  assert (∀ (h : list (string * Event D)) st, records_history h st → records_history (h ++ []) st) as Hnil by (intros; by rewrite app_nil_r).
  intros Hr Hs. destruct Hs as [t now e b off b' Ht Ha|t now e b err b' Ht Ha|t now b Ht|t b|t b|t b sb ret max fs|t b].
  - destruct Hr as [[Hf ->]|(lo & gs & gone & Hb & Hh & Hg)].
    + eapply (history_appended [] (segment b) [] []); [done|constructor|by eapply Append_fresh].
    + eapply history_appended; [exact Hh|done|by eapply Append_holds].
  - apply Hnil. apply refused_same in Ha as ->. destruct Hr as [[Hf ->]|(lo & gs & gone & Hb & Hh & Hg)]; [by left|].
    right. exists lo, gs, gone. split; [by eapply holds_later|done].
  - apply Hnil. destruct Hr as [[(Hf & Hc & Hs) ->]|(lo & gs & gone & Hb & Hh & Hg)].
    + left. split; [|done]. unfold Prune, segments, segments_in. cbn in Hf |- *. rewrite Hf. by split_and!.
    + right. destruct (Prune_holds _ _ _ _ now Hb Ht) as (k & Hk & Hb'). exists (lo + Z.of_nat k), (drop k gs), (gone ++ log_from lo (take k gs)).
      split_and!; [done| |].
      * rewrite Hh, <-(take_drop k gs) at 1. rewrite log_from_app, length_take, Nat.min_l by lia. by rewrite (assoc_L (++)).
      * pose proof (h_lo _ _ _ _ Hb) as Hlo. cbn in Hlo. apply Forall_app. split; [eapply Forall_impl; [exact Hg|]; unfold below; lia|].
        eapply Forall_impl; [apply Forall_and; split; [apply log_from_seq|apply log_from_pos]|]. unfold below. cbn. rewrite length_take. lia.
  - apply Hnil. destruct Hr as [[(Hf & Hc & Hs) ->]|(lo & gs & gone & [] & Hh & Hg)]; [by left|]. right. exists lo, gs, gone. by split.
  - apply Hnil. destruct Hr as [[(Hf & Hc & Hs) ->]|(lo & gs & gone & Hb & Hh & Hg)].
    + left. split; [|done]. cbn in Hf. rewrite Hf. by split_and!.
    + right. exists lo, gs, gone. split; [|done]. cbn [fst snd] in Hb. pose proof (holds_segments _ _ _ _ Hb) as Hseg. destruct Hb as [Hne Hlo Hs Hf Hok Hw Hm Hc].
      split; try done. cbn [segment Open snd]. unfold segments in Hseg. rewrite Hseg.
      destruct gs as [|g gs _] using rev_ind; [done|]. rewrite length_app, Nat2Z.inj_add, seqZ_app by lia. cbn [length].
      rewrite (seqZ_S _ 0). change (seqZ (lo + Z.of_nat (length gs) + 1) (Z.of_nat 0)) with (@nil Z). rewrite last_snoc. cbn. lia.
  - apply Hnil. destruct Hr as [[(Hf & Hc & Hs) ->]|(lo & gs & gone & [] & Hh & Hg)]; [by left|]. right. exists lo, gs, gone. by split.
  - apply Hnil. destruct Hr as [[(Hf & Hc & Hs) ->]|(lo & gs & gone & [] & Hh & Hg)]; [by left|]. right. exists lo, gs, gone. by split.
Qed.

Lemma history_records h st : history h st → records_history h st.
Proof.
  induction 1 as [t|h st h' st' _ IH Hs]; [|by eapply step_records]. left. split; [|done]. by split_and!.
Qed.

(** ** Resuming *)

(** An offset whose segment and position are 64-bit integers. *)
Definition readable (o : string) : Prop := ∃ s p, parseOffset o = inr (s, p).

Lemma Atoi_of_digits s n m : s ≠ "" → sall digit_c s → digits_go 0 s = Some n → Atoi s = Some m → m = n ∧ n ≤ maxInt64.
Proof.
  intros Hne Hs Hv. destruct s as [|c s]; [done|]. destruct Hs as [Hc _]. unfold Atoi. rewrite digit_no_sign by done.
  rewrite Hv. cbn [mbind option_bind]. unfold in_range. destruct (Z.leb_spec n maxInt64); [|by rewrite andb_false_r].
  destruct (_ && _); [|done]. by intros [= <-].
Qed.

Lemma readable_bounds s p : 0 ≤ s → 0 ≤ p → readable (offset_at s p) → s ≤ maxInt64 ∧ p ≤ maxInt64.
Proof.
  intros Hs Hp (s' & p' & E). destruct (pad8_text s Hs) as (Hd & Hne & Hv). unfold parseOffset, offset_at in E.
  change (":" +:+ FormatInt p) with (String ":" (FormatInt p)) in E. rewrite IndexByte_after in E by done.
  rewrite stake_app, sdrop_S_app in E. destruct (pretty_digits p Hp) as (Hne' & Hd' & Hv').
  destruct (Atoi (pad8 s)) as [ns|] eqn:E1; [|done]. destruct (Atoi (FormatInt p)) as [np|] eqn:E2; [|done].
  split; [by apply (Atoi_of_digits (pad8 s) s ns)|by apply (Atoi_of_digits (FormatInt p) p np)].
Qed.

Lemma offset_is_no_word s p : 0 ≤ s ≤ maxInt64 → 0 ≤ p ≤ maxInt64 → offset_at s p ∉ [""; Latest; Earliest].
Proof.
  intros Hs Hp Hin. pose proof (parse_offset_at s p Hs Hp) as E. rewrite !elem_of_cons, elem_of_nil in Hin.
  destruct Hin as [Hin|[Hin|[Hin|[]]]]; rewrite Hin in E; vm_compute in E; discriminate.
Qed.

(** The events of a part of the history that were asked for. *)
Definition wanted (tags : list string) (l : list (string * Event D)) : list (Event D) :=
  (λ p : string * Event D, set_offset p.1 p.2) <$> filter (λ p : string * Event D, MatchAny tags (eTag p.2) = true) l.

Lemma wanted_listed tags (l : list entry) : wanted tags (listed <$> l) = asked tags l.
Proof.
  unfold wanted, asked. induction l as [|x l IH]; [done|]. rewrite fmap_cons, !filter_cons. cbn [listed snd].
  case_decide; [|done]. rewrite !fmap_cons. by f_equal.
Qed.

(** Pairs of the history are entries of the log. *)
Lemma listed_split (l : list entry) before off e after :
  listed <$> l = before ++ (off, e) :: after →
  ∃ l1 x l2, l = (l1 ++ [x]) ++ l2 ∧ off = offset_of x ∧ after = listed <$> l2.
Proof.
  intros (l1 & l2 & _ & Hl & ->)%fmap_app_inv. destruct l2 as [|x l2]; [done|]. injection Hl as Hoff _ Hl.
  exists l1, x, l2. split_and!; [by rewrite <-(assoc_L (++))|done|done].
Qed.

(** An entry of the history has been pruned, or the log goes on after it. *)
Lemma entry_place t b lo gs gone l1 s p ev l2 :
  holds t b lo gs → Forall (below lo) gone → gone ++ log_from lo gs = (l1 ++ [(s, p, ev)]) ++ l2 →
  0 ≤ s ∧ 0 ≤ p ∧ (s < lo ∨ ∃ z, log_from lo gs = z ++ l2 ∧ last z = Some (s, p, ev)).
Proof.
  intros Hb Hg E. rewrite Forall_forall in Hg. assert ((s, p, ev) ∈ gone → 0 ≤ s ∧ 0 ≤ p ∧ s < lo) as Hgone.
  { intros [? ?]%Hg. cbn in *. lia. }
  apply app_eq_app in E as [z [[E1 E2]|[E1 E2]]].
  - destruct Hgone as (? & ? & ?); [rewrite E1; set_solver|]. auto.
  - destruct z as [|x z _] using rev_ind.
    { rewrite app_nil_r in E1. destruct Hgone as (? & ? & ?); [rewrite <-E1; set_solver|]. auto. }
    rewrite (assoc_L (++)) in E1. apply app_inj_tail in E1 as [_ <-].
    pose proof (log_from_seq lo gs) as Hq. pose proof (log_from_pos lo gs) as Hp. rewrite E2 in Hq, Hp.
    rewrite Forall_forall in Hq, Hp. pose proof (h_lo _ _ _ _ Hb).
    assert ((s, p, ev) ∈ (z ++ [(s, p, ev)]) ++ l2) as Hin by set_solver. specialize (Hq _ Hin). specialize (Hp _ Hin).
    cbn in Hq, Hp. split_and!; [lia|lia|]. right. exists (z ++ [(s, p, ev)]). split; [done|by rewrite last_snoc].
Qed.

(** C13: A subscriber that resumes from any offset the bus ever gave out misses
    nothing: it is given, of the events appended since, exactly those its tags
    ask for, in order and each once, up to its limit, with an offset from
    which the rest follows; or it is told that it lags, when the segment of its
    offset has been pruned.  This holds whatever was appended and refused,
    however segments were rotated and pruned, and however often the bus was
    closed and opened again, as long as every write to the disk succeeds, the
    clock does not go back and the offsets fit in 64-bit integers.  An event
    that was appended is the one encoding/json reads back: [as_stored_tag], its
    tag is unchanged where it is valid UTF-8. *)
Theorem resume_misses_nothing h t b before off e after tags limit :
  history h (t, b) → h = before ++ (off, e) :: after → Forall (λ p, readable p.1) h → 0 < limit →
  (∃ seg p oldest n, off = offset_at seg p ∧ n = oldest - seg ∧ 0 < n ∧ head (segments b) = Some oldest ∧
     Read b off tags limit = inl (LagError off (offset_at oldest 0) n)) ∨
  (∃ x y, after = x ++ y ∧ Read b off tags limit = inr (wanted tags x, default off (fst <$> last x)) ∧
     (y = [] ∨ length (wanted tags x) = Z.to_nat limit)).
Proof.
  intros Hh Hsplit Hfit Hlim. destruct (history_records _ _ Hh) as [[_ ->]|(lo & gs & gone & Hb & Hlog & Hgone)]; [by destruct before|].
  cbn [fst snd] in Hb. rewrite Hlog in Hsplit, Hfit. destruct (listed_split _ _ _ _ _ Hsplit) as (l1 & [[s p] ev] & l2 & Hl & Hoff & ->).
  pose proof (h_lo _ _ _ _ Hb) as Hlo. unfold offset_of in Hoff. cbn [fst snd] in Hoff.
  assert (0 ≤ s ∧ 0 ≤ p ∧ (s < lo ∨ ∃ z, log_from lo gs = z ++ l2 ∧ last z = Some (s, p, ev))) as (Hs & Hp & Hwhere)
    by by eapply entry_place.
  assert (readable (offset_at s p)) as Hr.
  { rewrite Forall_forall in Hfit. rewrite <-Hoff. apply (Hfit (off, ev)). apply list_elem_of_fmap. exists (s, p, ev).
    split; [by rewrite Hoff|]. rewrite Hl. set_solver. }
  destruct (readable_bounds s p Hs Hp Hr) as [Hs' Hp']. rewrite Hoff. unfold Read, Lag.
  rewrite bool_decide_false by by apply offset_is_no_word. rewrite parse_offset_at by done.
  assert (segments b = lo :: seqZ (lo + 1) (Z.of_nat (pred (length gs)))) as Hseg.
  { rewrite (holds_segments _ _ _ _ Hb). pose proof (h_some _ _ _ _ Hb). destruct gs; [done|]. apply seqZ_S. }
  rewrite Hseg. destruct Hwhere as [Hlt|(z & Hz & Hzl)].
  - left. rewrite (proj2 (Z.leb_gt lo s)) by lia. exists s, p, lo, (lo - s). split_and!; [done..|lia|done|done].
  - right. rewrite (proj2 (Z.leb_le lo s)).
    2: { pose proof (log_from_seq lo gs) as Hq. rewrite Hz in Hq. apply Forall_app in Hq as [Hq _]. rewrite Forall_forall in Hq.
         apply last_Some_elem_of, Hq in Hzl. cbn in Hzl. lia. }
    unfold Resolve. rewrite bool_decide_false by (pose proof (offset_is_no_word s p); set_solver).
    rewrite bool_decide_false by (pose proof (offset_is_no_word s p); set_solver). rewrite parse_offset_at by done.
    rewrite (proj2 (Z.leb_gt limit 0)) by lia. rewrite <-Hseg.
    destruct (read_from_entry _ _ _ _ tags _ _ _ _ _ (Z.to_nat limit) Hb Hz Hzl ltac:(lia)) as (x & y & -> & -> & _ & Hy).
    exists (listed <$> x), (listed <$> y). rewrite fmap_app, wanted_listed, fmap_last. split_and!; [done| |].
    + do 3 f_equal. by destruct (last x).
    + destruct Hy as [->|Hy]; [by left|by right].
Qed.
End resume.

(** ** A bus to evaluate

    Events without data, written as their tag between brackets. *)

Definition tag_event (tag : string) : Event unit := mkEvent unit tag None "" "" Schema () "".

#[local] Instance tag_json : EventJSON unit := {|
  Marshal e :=
    let tag := json_text (eTag e) in
    if contains_any ["<"%char; ">"%char; NL] tag then None else Some ("<" +:+ tag +:+ ">");
  Unmarshal line :=
    match line with
    | String "<" r =>
        match IndexByte ">" r with
        | Some i => if bool_decide (sdrop i r = String ">" (String NL "")) && negb (contains_any ["<"%char] r)
                    then Some (tag_event (stake i r)) else None
        | None => None
        end
    | _ => None
    end |}.

Lemma tag_json_reads (tag : string) :
  contains_any ["<"%char; ">"%char; NL] tag = false →
  Unmarshal (("<" +:+ tag +:+ ">") +:+ String NL "") = Some (tag_event tag).
Proof.
  intros Hc%contains_any_sall. assert (∀ a, a ∉ ["<"%char; ">"%char; NL] → a ≠ ">"%char ∧ a ∉ ["<"%char]) as Ha by set_solver.
  change (("<" +:+ tag +:+ ">") +:+ String NL "") with (String "<" ((tag +:+ ">") +:+ String NL "")).
  rewrite string_app_assoc. change (">" +:+ String NL "") with (String ">" (String NL "")). cbn [Unmarshal tag_json].
  rewrite IndexByte_first by (eapply sall_impl; [|exact Hc]; intros a Q; apply Ha, Q).
  rewrite sdrop_app, bool_decide_true by done. rewrite (proj2 (contains_any_sall _ _)).
  - cbn [negb andb]. by rewrite stake_app.
  - apply sall_app. split; [eapply sall_impl; [|exact Hc]; intros a Q; apply Ha, Q|]. split_and!; set_solver.
Qed.

#[local] Program Instance tag_json_laws : EventJSONLaws unit := {| stored e := tag_event (json_text (eTag e)) |}.
Next Obligation.
  intros e raw E. cbn in E. destruct (contains_any _ _) eqn:Hc; [done|]. injection E as <-. apply contains_any_sall in Hc.
  rewrite !sall_app. split_and!; [vm_compute; split; [discriminate|done]| |vm_compute; split; [discriminate|done]].
  eapply sall_impl; [|exact Hc]. set_solver.
Qed.
Next Obligation. intros e raw E. cbn in E. destruct (contains_any _ _) eqn:Hc; [done|]. injection E as <-. by apply tag_json_reads. Qed.
Next Obligation. done. Qed.

(** Appends of tags, one a second, to a bus; the offsets they were given. *)
Fixpoint append_tags (now : Z) (tags : list string) (b : Bus) : list (bus_error + string) * Bus :=
  match tags with
  | [] => ([], b)
  | tag :: tags' =>
      let '(r, b) := Append fine now (tag_event tag) b in
      let '(rs, b) := append_tags (now + 1) tags' b in (r :: rs, b)
  end.

Definition small_bus : Bus := configured 30 0 0 [] (Open ∅).
Definition demo_bus : list (bus_error + string) * Bus := append_tags 0 ["halite/a"; "halite/b"; "halite/c"; "other/d"] small_bus.

Example demo_read :
  demo_bus.1 = [inr "00000001:11"; inr "00000001:22"; inr "00000002:11"; inr "00000002:21"] ∧
  match Read demo_bus.2 "00000001:11" ["halite/**"] 1, Read demo_bus.2 "00000001:22" ["halite/**"] 5 with
  | inr (es, next), inr (es', next') => (eTag <$> es) = ["halite/b"] ∧ next = "00000001:22" ∧ (eTag <$> es') = ["halite/c"] ∧ next' = "00000002:21"
  | _, _ => False
  end.
Proof. by vm_compute. Qed.

(** After a write that was cut short, the first event that is appended is lost:
    its line goes on from the torn one, and neither is read. *)
Lemma torn_write_takes_the_next_event :
  let torn := (Append (mkIO true true (Some 5%nat) true) 0 (tag_event "halite/a") small_bus).2 in
  let '(offsets, b) := append_tags 1 ["halite/b"; "halite/c"] (Open (files torn)) in
  offsets = [inr "00000001:16"; inr "00000001:27"] ∧
  match Read b Earliest [] 10 with inr (es, _) => (eTag <$> es) = ["halite/c"] | inl _ => False end.
Proof. by vm_compute. Qed.

(** When the bus goes on without being opened again, the offsets it gives out
    fall short of the lines they stand for. *)
Lemma failed_write_shifts_offsets :
  let torn := (Append (mkIO true true (Some 5%nat) true) 0 (tag_event "halite/a") small_bus).2 in
  let '(offsets, b) := append_tags 1 ["halite/b"] torn in
  offsets = [inr "00000001:11"] ∧ (size_of <$> files b !! 1) = Some 16.
Proof. by vm_compute. Qed.

(** When the clock goes back a segment in the middle can be the oldest.  It is
    pruned, and a reader passes over it without being told. *)
Lemma clock_that_goes_back_hides_a_segment :
  let b := (append_tags 5 ["halite/c"; "halite/d"; "halite/e"] (append_tags 1000 ["halite/a"; "halite/b"] small_bus).2).2 in
  let b := (Prune 1010 (configured 30 500 0 [] b)).2 in
  segments b = [1; 3] ∧
  match Read b "00000001:11" [] 10 with inr (es, _) => (eTag <$> es) = ["halite/b"; "halite/e"] | inl _ => False end.
Proof. by vm_compute. Qed.

Definition demo_tags : list string := ["halite/a"; "halite/b"; "halite/c"].
Definition demo_bus3 : Bus := (append_tags 0 demo_tags small_bus).2.

Lemma demo_history : history
  [("00000001:11", tag_event "halite/a"); ("00000001:22", tag_event "halite/b"); ("00000002:11", tag_event "halite/c")]
  (2, demo_bus3).
Proof.
  set (b1 := (Append fine 0 (tag_event "halite/a") small_bus).2). set (b2 := (Append fine 1 (tag_event "halite/b") b1).2).
  assert (history [] (0, small_bus)) as H0 by exact (H_step [] (0, Open ∅) [] _ (H_start 0) (S_configure _ _ 30 0 0 [])).
  assert (history [("00000001:11", tag_event "halite/a")] (0, b1)) as H1.
  { refine (H_step [] _ [_] _ H0 (S_append 0 0 (tag_event "halite/a") _ _ _ _ _)); [lia|by vm_compute]. }
  assert (history [("00000001:11", tag_event "halite/a"); ("00000001:22", tag_event "halite/b")] (1, b2)) as H2.
  { refine (H_step [_] _ [_] _ H1 (S_append 0 1 (tag_event "halite/b") _ _ _ _ _)); [lia|by vm_compute]. }
  refine (H_step [_; _] _ [_] _ H2 (S_append 1 2 (tag_event "halite/c") _ _ _ _ _)); [lia|by vm_compute].
Qed.

Lemma resume_misses_nothing_witness :
  Read demo_bus3 "00000001:11" ["halite/*"] 9 = inr (wanted ["halite/*"]
    [("00000001:22", tag_event "halite/b"); ("00000002:11", tag_event "halite/c")], "00000002:11").
Proof.
  destruct (resume_misses_nothing _ 2 demo_bus3 [] "00000001:11" (tag_event "halite/a")
    [("00000001:22", tag_event "halite/b"); ("00000002:11", tag_event "halite/c")] ["halite/*"] 9 demo_history eq_refl)
    as [(s & p & oldest & n & _ & _ & _ & _ & E)|(x & y & Ha & E & Hy)].
  - repeat constructor; eexists _, _; vm_compute; reflexivity.
  - reflexivity.
  - exfalso. revert E. vm_compute. discriminate.
  - assert (y = []) as Hy'.
    { destruct Hy as [Hy|Hy]; [exact Hy|]. exfalso. assert (length (wanted ["halite/*"] x) ≤ length x)%nat.
      { unfold wanted. rewrite length_fmap. apply length_filter. }
      apply (f_equal length) in Ha. rewrite length_app in Ha. cbn in Ha, Hy. lia. }
    subst y. rewrite app_nil_r in Ha. subst x. exact E.
Defined.
