(* ===== verification/BeaconQueue.v ===== *)
(** * The queue between a node's beacons and its hub

    Models src/internal/beacon/queue.go, the bounded queue that collapses
    identical events, and of engine.go the two ends of it: offer, which applies
    the rate limit, pushes an event and reports what was dropped, and forward,
    which sends what has waited long enough.  The token bucket's answer, the
    digest of an event are arguments; a message counts as sent when it is handed
    to Send, and blocking is a step that is not taken. *)

From S2P Require Import Prelude GoLib.

Open Scope Z_scope.

Section queue.
Context {D : Type}.

Record queued := mkQueued {
  qtag : string; qdata : D; qkey : string; qat : Z; qwindow : Z; qcount : nat }.

Definition ready (now : Z) (q : queued) : bool := qwindow q <=? now - qat q.

Definition DefaultQueueDepth : Z := 1000.
Definition newCoalescingQueue (limit : Z) : nat := Z.to_nat (if limit <? 1 then DefaultQueueDepth else limit).

Definition with_count (n : nat) (q : queued) : queued := mkQueued (qtag q) (qdata q) (qkey q) (qat q) (qwindow q) n.

(** The first event with the same key whose window is still open, counted once
    more. *)
Fixpoint coalesce (item : queued) (items : list queued) : option (list queued) :=
  match items with
  | [] => None
  | q :: items' =>
      if bool_decide (qkey q ≠ qkey item) then cons q <$> coalesce item items'
      else if qwindow q <? qat item - qat q then cons q <$> coalesce item items'
      else Some (with_count (S (qcount q)) q :: items')
  end.

(** What is dropped to make room, the oldest first. *)
Definition overflow (limit : nat) (items : list queued) : nat := (S (length items) - limit)%nat.

Definition push (limit : nat) (item : queued) (items : list queued) : nat * list queued :=
  match coalesce item items with
  | Some items => (0%nat, items)
  | None =>
      let dropped := overflow limit items in
      (dropped, drop dropped items ++ [with_count 1 item])
  end.

(** pop, when it does not block. *)
Definition pop (now : Z) (items : list queued) : option (queued * list queued) :=
  match items with
  | q :: items' => if ready now q then Some (q, items') else None
  | [] => None
  end.

(** ** The engine around it *)

Inductive message := Fired (tag : string) (data : D) (count : nat) | Overflow (tag : string) (dropped : nat).

(** What the engine holds and what it has reported: its queue, the counters of
    Observe, and the messages sent. *)
Record Engine := mkEngine {
  eItems : list queued; eFired : nat; eLimited : nat; eDropped : nat; eSent : list message }.
Definition newEngine : Engine := mkEngine [] 0 0 0 [].

Definition TagPrefix : string := "beacon/".

Definition offer (limit : nat) (allow : bool) (name suffix digest : string) (data : D) (now window : Z) (e : Engine) : Engine :=
  if negb allow then mkEngine (eItems e) (eFired e) (S (eLimited e)) (eDropped e) (eSent e)
  else
    let tag := TagPrefix +:+ name +:+ (if bool_decide (suffix ≠ "") then "/" +:+ suffix else "") in
    let '(dropped, items) :=
      push limit (mkQueued tag data (name +:+ String "000"%char digest) now window 0) (eItems e) in
    mkEngine items (S (eFired e)) (eLimited e) (eDropped e + dropped)
      (if (0 <? dropped)%nat then eSent e ++ [Overflow (TagPrefix +:+ name +:+ "/overflow") dropped] else eSent e).

(** One turn of forward.  A count of one is not written in the event. *)
Definition forward (now : Z) (e : Engine) : Engine :=
  match pop now (eItems e) with
  | None => e
  | Some (q, items) => mkEngine items (eFired e) (eLimited e) (eDropped e) (eSent e ++ [Fired (qtag q) (qdata q) (qcount q)])
  end.
End queue.
Arguments queued : clear implicits.
Arguments message : clear implicits.
Arguments Engine : clear implicits.

(** ** What becomes of every event *)

Section account.
Context {D : Type}.

Definition in_queue (items : list (queued D)) : nat := sum_list (qcount <$> items).
Definition in_messages (l : list (message D)) : nat :=
  sum_list ((λ m, match m with Fired _ _ n => n | Overflow _ _ => 0%nat end) <$> l).
(** The losses the engine told the hub of. *)
Definition told (l : list (message D)) : nat :=
  sum_list ((λ m, match m with Fired _ _ _ => 0%nat | Overflow _ n => n end) <$> l).

Inductive step (limit : nat) : Engine D → Engine D → Prop :=
| Q_offer allow name suffix digest data now window e : step limit e (offer limit allow name suffix digest data now window e)
| Q_forward now e : step limit e (forward now e).

Inductive reached (limit : nat) : Engine D → Prop :=
| R_new : reached limit newEngine
| R_step e e' : reached limit e → step limit e e' → reached limit e'.

Lemma coalesce_spec item (items items' : list (queued D)) :
  coalesce item items = Some items' →
  length items' = length items ∧ in_queue items' = S (in_queue items) ∧
  (Forall (λ q, (0 < qcount q)%nat) items → Forall (λ q, (0 < qcount q)%nat) items').
Proof.
  unfold in_queue. revert items'. induction items as [|q items IH]; intros items'; cbn [coalesce]; [done|].
  assert (cons q <$> coalesce item items = Some items' → length items' = length (q :: items) ∧
    sum_list (qcount <$> items') = S (sum_list (qcount <$> q :: items)) ∧
    (Forall (λ q, (0 < qcount q)%nat) (q :: items) → Forall (λ q, (0 < qcount q)%nat) items')) as Hlater.
  { intros (l & Hl & ->)%fmap_Some. destruct (IH l Hl) as (H1 & H2 & H3). cbn. rewrite H1. cbn in H2. rewrite H2.
    split_and!; [done|lia|]. intros [? ?]%Forall_cons. constructor; auto. }
  case_bool_decide; [done|]. destruct (_ <? _); [done|]. intros [= <-]. cbn.
  split_and!; [done|lia|]. intros [? ?]%Forall_cons. constructor; [cbn; lia|done].
Qed.

Record accounted (limit : nat) (e : Engine D) (lost : nat) : Prop := {
  q_bounded : (length (eItems e) ≤ limit)%nat;
  q_counts : Forall (λ q, (0 < qcount q)%nat) (eItems e);
  q_events : eFired e = (in_messages (eSent e) + in_queue (eItems e) + lost)%nat;
  q_reported : eDropped e = told (eSent e);
  q_lost : (eDropped e ≤ lost)%nat;
  q_silent : eDropped e = 0%nat → lost = 0%nat }.

Lemma sum_list_drop n (l : list nat) : (sum_list l = sum_list (take n l) + sum_list (drop n l))%nat.
Proof. rewrite <-(take_drop n l) at 1. apply sum_list_with_app. Qed.

Lemma positive_sum (l : list (queued D)) : Forall (λ q, (0 < qcount q)%nat) l → (length l ≤ in_queue l)%nat.
Proof. unfold in_queue. induction 1; cbn; lia. Qed.

Lemma sent_more l (m : message D) :
  in_messages (l ++ [m]) = (in_messages l + match m with Fired _ _ n => n | Overflow _ _ => 0 end)%nat ∧
  told (l ++ [m]) = (told l + match m with Fired _ _ _ => 0 | Overflow _ n => n end)%nat.
Proof. unfold in_messages, told. rewrite !fmap_app. split; (etrans; [apply sum_list_with_app|]); cbn; lia. Qed.

Lemma offer_accounted limit allow name suffix digest data now window e lost :
  (0 < limit)%nat → accounted limit e lost →
  ∃ lost', accounted limit (offer limit allow name suffix digest data now window e) lost'.
Proof.
  intros Hlim [Hb Hc He Hr Hl Hs]. unfold offer. destruct allow; [|by exists lost].
  cbn [negb]. set (item := mkQueued _ _ _ _ _ _). unfold push.
  destruct (coalesce item (eItems e)) as [items|] eqn:E.
  { destruct (coalesce_spec _ _ _ E) as (H1 & H2 & H3). exists lost.
    split; cbn [eItems eFired eDropped eSent Nat.ltb Nat.leb]; rewrite ?Nat.add_0_r; [lia|auto|lia|done..]. }
  set (n := overflow limit (eItems e)). set (gone := in_queue (take n (eItems e))).
  assert (n ≤ gone)%nat as Hgone.
  { etrans; [|apply positive_sum, Forall_take, Hc]. rewrite length_take. unfold n, overflow. lia. }
  assert (in_queue (eItems e) = gone + in_queue (drop n (eItems e)))%nat as Hq.
  { unfold gone, in_queue. rewrite (sum_list_drop n), fmap_take, fmap_drop. done. }
  assert (in_queue (drop n (eItems e) ++ [with_count 1 item]) = S (in_queue (drop n (eItems e)))) as Hq'.
  { unfold in_queue. rewrite fmap_app. etrans; [apply sum_list_with_app|]. cbn. lia. }
  exists (lost + gone)%nat. split; cbn [eItems eFired eDropped eSent].
  - rewrite length_app, length_drop. unfold n, overflow. cbn. lia.
  - apply Forall_app. split; [by apply Forall_drop|]. apply Forall_singleton. cbn. lia.
  - rewrite Hq', He. destruct (0 <? n)%nat; [rewrite (proj1 (sent_more _ _))|]; lia.
  - rewrite Hr. destruct (Nat.ltb_spec 0 n); [by rewrite (proj2 (sent_more _ _))|lia].
  - lia.
  - intros H0. assert (n = 0%nat) as Hn by lia. unfold gone. rewrite Hn. cbn. rewrite Hs by lia. done.
Qed.

Lemma forward_accounted limit now e lost : accounted limit e lost → accounted limit (forward now e) lost.
Proof.
  intros [Hb Hc He Hr Hl Hs]. unfold forward, pop. destruct (eItems e) as [|q items] eqn:Eq; [by split; rewrite ?Eq|].
  destruct (ready now q); [|by split; rewrite ?Eq]. apply Forall_cons in Hc as [_ Hc].
  split; cbn [eItems eFired eDropped eSent]; try done; [cbn in Hb; lia| |].
  - rewrite (proj1 (sent_more _ _)), He. unfold in_queue. cbn. lia.
  - rewrite (proj2 (sent_more _ _)), Hr. lia.
Qed.

(** Every event a beacon fires is in one place: in a message that was
    sent, counted in an event that waits, or lost with one that was dropped to
    make room.  The queue is never longer than its limit; as many events are
    reported dropped to the hub as to the counter, never more than were lost,
    and nothing is lost without a report. *)
Theorem every_event_is_accounted_for limit e :
  (0 < limit)%nat → reached limit e → ∃ lost, accounted limit e lost.
Proof.
  intros Hlim. induction 1 as [|e e' _ [lost IH] Hs].
  - exists 0%nat. split; cbn; try done; lia.
  - destruct Hs; [by eapply offer_accounted|]. exists lost. by apply forward_accounted.
Qed.
End account.

(** ** Events that are collapsed *)

Definition demo_offer (digest : string) (now : Z) (e : Engine unit) : Engine unit :=
  offer 1 true "disk" "" digest () now 100 e.
Definition demo_engine : Engine unit := demo_offer "full" 3 (demo_offer "low" 2 (demo_offer "low" 1 (demo_offer "low" 0 newEngine))).

(** A dropped event that stands for three is reported as one. *)
Lemma dropped_counts_entries_not_events :
  eFired demo_engine = 4%nat ∧ eDropped demo_engine = 1%nat ∧ in_queue (eItems demo_engine) = 1%nat ∧
  eSent demo_engine = [Overflow "beacon/disk/overflow" 1].
Proof. by vm_compute. Qed.

Lemma demo_reached : reached 1 demo_engine.
Proof. unfold demo_engine, demo_offer. do 4 (eapply R_step; [|apply Q_offer]). apply R_new. Qed.

Lemma every_event_is_accounted_for_witness :
  ∃ lost, accounted 1 demo_engine lost ∧ lost = 3%nat.
Proof.
  destruct (every_event_is_accounted_for 1 demo_engine) as [lost Ha]; [lia|apply demo_reached|]. exists lost. split; [exact Ha|].
  destruct Ha as [_ _ He _ _ _]. vm_compute in He. lia.
Defined.
