(* ===== verification/Redact.v ===== *)
(** * Package redact: scrubbing known secrets out of text

    Models src/internal/redact/redact.go.  A [Set_] holds the secrets long
    enough to look for inside text and, apart, the ones too short for it; the
    receiver of a method is an [option], [None] being the nil set.  The
    credentials of a URL are found by the source's regular expression,
    [[a-zA-Z][a-zA-Z0-9+.\-]*://[^/?#\s@]*@]: the scheme and the user part are
    runs of a class that excludes the byte behind them, so there is one way to
    match at a position, and every excluded byte is ASCII, so runs of bytes and
    runs of characters end at the same place.

    The values a parsed document holds are those of [Value.value]; a Go
    [map[string]any] is not one of them.  sort.Slice leaves the order of equal
    elements open; [replaceOutside_reference] (RedactText.v) shows that the text
    does not depend on it. *)

From S2P Require Import Prelude GoLib GoTime Value.

Open Scope nat_scope.

Definition Placeholder : string := "**********".
Definition minLength : nat := 6.
Definition URLPlaceholder : string := "<redacted>".
Definition nl : ascii := ascii_of_nat 10.
Definition NL : string := String nl "".

(** ** The credentials of URLs *)

Definition is_letter (a : ascii) : bool :=
  in_range 65 90 (byte_of a) || in_range 97 122 (byte_of a).
Definition scheme_char (a : ascii) : bool :=
  is_letter a || in_range 48 57 (byte_of a) || bool_decide (a ∈ ["+"; "."; "-"]%char).
(** The class [\s] of package regexp is tab, newline, form feed, return and
    space. *)
Definition user_char (a : ascii) : bool :=
  negb (bool_decide (a ∈ ["/"; "?"; "#"; "@"]%char) || existsb (Z.eqb (byte_of a)) [9; 10; 12; 13; 32]%Z).

(** A greedy run of a class, and what is behind it. *)
Fixpoint take_run (f : ascii → bool) (s : string) : string * string :=
  match s with
  | String a r => if f a then let '(x, y) := take_run f r in (String a x, y) else ("", s)
  | EmptyString => ("", "")
  end.

(** The match at the front of [s]: the scheme, the user part, and what is left
    behind the [@]. *)
Definition match_url (s : string) : option (string * string * string) :=
  match s with
  | String a _ =>
      if is_letter a then
        let '(scheme, r) := take_run scheme_char s in
        if has_prefix "://" r then
          match take_run user_char (sdrop 3 r) with
          | (user, String "@" rest) => Some (scheme, user, rest)
          | _ => None
          end
        else None
      else None
  | EmptyString => None
  end.

(** ReplaceAllString: the leftmost match is replaced, and the search goes on
    behind it. *)
Fixpoint replace_urls (skip : nat) (s : string) : string :=
  match s with
  | EmptyString => ""
  | String a r =>
      match skip with
      | S k => replace_urls k r
      | O =>
          match match_url s with
          | Some (scheme, user, _) =>
              scheme +:+ "://" +:+ URLPlaceholder +:+ "@" +:+
              replace_urls (String.length scheme + 3 + String.length user) r
          | None => String a (replace_urls 0 r)
          end
      end
  end.

Definition URLCredentials (text : string) : string :=
  if negb (contains "@" text) then text else replace_urls 0 text.

(** ** The set *)

Record Set_ := mkSet { values : list string; short : gset string }.
Definition New : Set_ := mkSet [] ∅.

Definition longer (a b : string) : Prop := String.length b ≤ String.length a.
#[global] Instance longer_dec a b : Decision (longer a b) := decide (_ ≤ _).

Definition Add (s : Set_) (v : string) : Set_ :=
  let v := TrimSpace v in
  if bool_decide (v = "") then s
  else if String.length v <? minLength then mkSet (values s) ({[ v ]} ∪ short s)
  else if existsb (λ e, bool_decide (e = v)) (values s) then s
  else mkSet (merge_sort longer (values s ++ [v])) (short s).

Fixpoint AddTree (s : Set_) (v : value) : Set_ :=
  match v with
  | VString t => Add s t
  | VSeq l => foldl AddTree s l
  | VMap m => foldl (λ s e, AddTree s (Val e)) s (entries m)
  | _ => s
  end.

Definition SetLen (s : option Set_) : nat :=
  match s with None => 0 | Some s => length (values s) end.

Definition Holds (s : option Set_) (v : string) : bool :=
  match s with
  | None => false
  | Some s =>
      let v := TrimSpace v in
      if bool_decide (v = "") then false
      else if bool_decide (v ∈ short s) then true
      else existsb (λ e, bool_decide (e = v)) (values s)
  end.

(** ** Replacing *)

Record span := mkSpan { start : nat; end_ : nat }.
#[global] Instance span_eq_dec : EqDecision span.
Proof. solve_decision. Defined.

Definition by_start (a b : span) : Prop := start a ≤ start b.
#[global] Instance by_start_dec a b : Decision (by_start a b) := decide (_ ≤ _).

Definition slice (i j : nat) (s : string) : string := stake (j - i) (sdrop i s).

(** The occurrences of one kept literal from [from] on, each search resuming
    behind the last; a literal is not empty, so [length text] searches are
    enough. *)
Fixpoint keep_spans (fuel : nat) (text k : string) (from : nat) : list span :=
  match fuel with
  | O => []
  | S fuel =>
      match Index (sdrop from text) k with
      | None => []
      | Some i =>
          let pos := from + i in
          mkSpan pos (pos + String.length k) :: keep_spans fuel text k (pos + String.length k)
      end
  end.

(** The loop that merges: [last] is the span at the end of the result. *)
Fixpoint merge_spans (last : span) (l : list span) : list span :=
  match l with
  | [] => [last]
  | s :: r =>
      if start s <=? end_ last
      then merge_spans (if end_ last <? end_ s then mkSpan (start last) (end_ s) else last) r
      else last :: merge_spans s r
  end.

Definition protectedSpans (text : string) (keep : list string) : list span :=
  let out := concat ((λ k, if bool_decide (k = "") then [] else keep_spans (S (String.length text)) text k 0) <$> keep) in
  if length out <? 2 then out
  else match merge_sort by_start out with
       | [] => []
       | s :: r => merge_spans s r
       end.

Definition containedBy (spans : list span) (a b : nat) : bool :=
  existsb (λ sp, (start sp <=? a) && (b <=? end_ sp)) spans.

(** The occurrences of one secret from [from] on, each search resuming one byte
    on; [from] grows, so [S (length text)] searches are enough. *)
Fixpoint value_hits (fuel : nat) (text v : string) (spans : list span) (from : nat) : list span :=
  match fuel with
  | O => []
  | S fuel =>
      if from + String.length v <=? String.length text then
        match Index (sdrop from text) v with
        | None => []
        | Some i =>
            let pos := from + i in
            (if containedBy spans pos (pos + String.length v) then [] else [mkSpan pos (pos + String.length v)]) ++
            value_hits fuel text v spans (S pos)
        end
      else []
  end.

Definition all_hits (vs : list string) (text : string) (spans : list span) : list span :=
  concat ((λ v, value_hits (S (String.length text)) text v spans 0) <$> vs).

(** The loop over the sorted hits: [run] grows while the next hit starts inside
    it. *)
Fixpoint runs_from (run : span) (hits : list span) : list span :=
  match hits with
  | [] => [run]
  | h :: r =>
      if start h <? end_ run
      then runs_from (if end_ run <? end_ h then mkSpan (start run) (end_ h) else run) r
      else run :: runs_from h r
  end.

(** What is written for a run, and the lines added to [lines]. *)
Definition write_run (covered : string) (lines : option Set_) : string * option Set_ :=
  match lines with
  | Some l =>
      if contains NL covered then
        let parts := Split covered NL in
        (Join ((λ _, Placeholder) <$> parts) NL, Some (foldl Add l parts))
      else (Placeholder, lines)
  | None => (Placeholder, None)
  end.

Fixpoint write_runs (text : string) (pos : nat) (runs : list span) (lines : option Set_) : string * option Set_ :=
  match runs with
  | [] => (sdrop pos text, lines)
  | run :: r =>
      let '(w, lines) := write_run (slice (start run) (end_ run) text) lines in
      let '(rest, lines) := write_runs text (end_ run) r lines in
      (slice pos (start run) text +:+ w +:+ rest, lines)
  end.

Definition replaceOutside (s : option Set_) (text : string) (spans : list span) (lines : option Set_)
  : string * option Set_ :=
  match s with
  | None => (text, lines)
  | Some s =>
      match merge_sort by_start (all_hits (values s) text spans) with
      | [] => (text, lines)
      | h :: r => write_runs text 0 (runs_from h r) lines
      end
  end.

Definition Scrub (s : option Set_) (text : string) : string :=
  if bool_decide (text = "") then text
  else match s with
       | None => URLCredentials text
       | Some _ => (replaceOutside s (URLCredentials text) [] None).1
       end.

Definition ScrubLines (s : option Set_) (text : string) : string * Set_ :=
  if bool_decide (text = "") then (text, New)
  else match s with
       | None => (URLCredentials text, New)
       | Some _ =>
           let '(out, lines) := replaceOutside s (URLCredentials text) [] (Some New) in
           (out, default New lines)
       end.

Definition ScrubExcept (s : option Set_) (text : string) (keep : list string) : string :=
  if bool_decide (text = "") then text
  else
    let spans := protectedSpans text keep in
    if bool_decide (length spans = 0) then Scrub s text
    else URLCredentials (replaceOutside s text spans None).1.

(** ** Parsed values *)

Section values.
Context `{Runtime}.

Fixpoint ScrubValue (s : option Set_) (v : value) : value :=
  match v with
  | VString t => VString (Scrub s t)
  | VSeq l => VSeq (map (ScrubValue s) l)
  | VMap m =>
      VMap (foldl (λ out e, SetAt out e.1.1 e.1.2 e.2.1 e.2.2) NewMap
        (map (λ e, ((ScrubValue s (Key e), ScrubValue s (Val e)), (KeyPos e, ValPos e))) (entries m)))
  | VNilMap => VMap NewMap
  | _ => v
  end.

Fixpoint mask (s : Set_) (v : value) : value * bool :=
  match v with
  | VString t =>
      if Holds (Some s) t then (VString Placeholder, true)
      else let out := (replaceOutside (Some s) t [] None).1 in (VString out, negb (bool_decide (out = t)))
  | VSeq l =>
      let out := map (mask s) l in (VSeq (map fst out), existsb snd out)
  | VMap m =>
      let out := map (λ e, ((mask s (Key e), mask s (Val e)), (KeyPos e, ValPos e))) (entries m) in
      (VMap (foldl (λ acc e, SetAt acc e.1.1.1 e.1.2.1 e.2.1 e.2.2) NewMap out),
       existsb (λ e, e.1.1.2 || e.1.2.2) out)
  | VNilMap => (VMap NewMap, false)
  | _ => (v, false)
  end.

Definition MaskValue (s : option Set_) (v : value) : value * bool :=
  match s with None => (v, false) | Some s => mask s v end.
End values.
