(* ===== verification/RedactText.v ===== *)
(** * Redaction of text is byte by byte

    [replaceOutside] (Redact.v) collects the occurrences of the secrets, sorts
    them, merges the overlapping ones and copies the text around them.  Here it
    is compared with [reference], which decides each byte on its own: a byte
    inside no occurrence is kept, and a byte inside one is dropped, leaving a
    placeholder where no occurrence reaches in from the left.  From it follow
    that no secret is left in the text, and that line numbers survive. *)

From S2P Require Import Prelude GoLib GoTime Value Job YamlText Redact.

Open Scope nat_scope.

(** ** The reference *)

(** A secret of [vs] occurs at [a], unspared, and reaches behind [i]. *)
Definition reaches (vs : list string) (text : string) (spans : list span) (a i : nat) : bool :=
  existsb (λ v, has_prefix v (sdrop a text) && negb (containedBy spans a (a + String.length v)) &&
                (i <? a + String.length v)) vs.
Definition secret_byte vs text spans (i : nat) : bool := existsb (λ a, reaches vs text spans a i) (seq 0 (S i)).
Definition secret_joint vs text spans (i : nat) : bool := existsb (λ a, reaches vs text spans a i) (seq 0 i).

Section reference.
Variables (cov crs : nat → bool) (per_line : bool).

Definition cell (i : nat) (a : ascii) : string :=
  if cov i then
    (if crs i then "" else Placeholder) +:+ (if per_line && bool_decide (a = nl) then NL +:+ Placeholder else "")
  else String a "".

Fixpoint bytewise (i : nat) (s : string) : string :=
  match s with
  | EmptyString => ""
  | String a r => cell i a +:+ bytewise (S i) r
  end.

Lemma bytewise_app i x y : bytewise i (x +:+ y) = bytewise i x +:+ bytewise (i + String.length x) y.
Proof.
  revert i. induction x as [|a x IH]; intros i.
  - simpl. by rewrite Nat.add_0_r.
  - change (String a x +:+ y) with (String a (x +:+ y)). cbn [bytewise String.length].
    rewrite IH, string_app_assoc. do 3 f_equal. lia.
Qed.

Lemma bytewise_plain i x : (∀ j, i ≤ j < i + String.length x → cov j = false) → bytewise i x = x.
Proof.
  revert i. induction x as [|a x IH]; intros i Hc; [done|]. cbn [bytewise]. unfold cell.
  cbn [String.length] in Hc. rewrite Hc by lia. rewrite IH; [done|]. intros j Hj. apply Hc. lia.
Qed.

(** The inside of a run. *)
Lemma bytewise_inside i x :
  (∀ j, i ≤ j < i + String.length x → cov j = true ∧ crs j = true) →
  Placeholder +:+ bytewise i x = if per_line then Join ((λ _, Placeholder) <$> pieces nl x) NL else Placeholder.
Proof.
  revert i. induction x as [|a x IH]; intros i Hc.
  { cbn [bytewise]. rewrite string_app_nil_r. by destruct per_line. }
  cbn [bytewise]. unfold cell. cbn [String.length] in Hc. destruct (Hc i) as [-> ->]; [lia|].
  change ("" +:+ ?t) with t. specialize (IH (S i)). destruct per_line; cbn [andb] in *.
  - cbn [pieces]. case_bool_decide as Ha.
    + rewrite decide_True by done. rewrite string_app_assoc, IH by (intros j Hj; apply Hc; lia).
      destruct (pieces_cons nl x) as (p & l & ->). done.
    + rewrite decide_False by done. change ("" +:+ ?t) with t. rewrite IH by (intros j Hj; apply Hc; lia).
      destruct (pieces_cons nl x) as (p & l & ->). done.
  - change ("" +:+ ?t) with t. apply IH. intros j Hj. apply Hc. lia.
Qed.

Lemma bytewise_run i x :
  0 < String.length x → cov i = true → crs i = false →
  (∀ j, i < j < i + String.length x → cov j = true ∧ crs j = true) →
  bytewise i x = if per_line then Join ((λ _, Placeholder) <$> pieces nl x) NL else Placeholder.
Proof.
  intros Hx Hi Hn Hin. destruct x as [|a x]; [simpl in Hx; lia|]. cbn [String.length] in Hin.
  cbn [bytewise]. unfold cell. rewrite Hi, Hn, !string_app_assoc.
  assert (Hb : Placeholder +:+ bytewise (S i) x =
    if per_line then Join ((λ _, Placeholder) <$> pieces nl x) NL else Placeholder)
    by (apply bytewise_inside; intros j Hj; apply Hin; lia).
  destruct per_line; cbn [andb]; [|exact Hb].
  cbn [pieces]. case_bool_decide as Ha.
  - rewrite decide_True by done. rewrite string_app_assoc, Hb.
    destruct (pieces_cons nl x) as (p & l & ->). done.
  - rewrite decide_False by done. change ("" +:+ ?t) with t. rewrite Hb.
    destruct (pieces_cons nl x) as (p & l & ->). done.
Qed.
End reference.

Lemma bytewise_ext cov crs cov' crs' pl i s :
  (∀ j, i ≤ j → cov j = cov' j ∧ crs j = crs' j) → bytewise cov crs pl i s = bytewise cov' crs' pl i s.
Proof.
  revert i. induction s as [|a s IH]; intros i Hj; [done|]. cbn [bytewise]. unfold cell.
  destruct (Hj i) as [-> ->]; [lia|]. f_equal. apply IH. intros j ?. apply Hj. lia.
Qed.

Definition reference (vs : list string) (spans : list span) (per_line : bool) (text : string) : string :=
  bytewise (secret_byte vs text spans) (secret_joint vs text spans) per_line 0 text.

(** ** Runs of spans *)

Definition covered (l : list span) (i : nat) : bool := existsb (λ h, (start h <=? i) && (i <? end_ h)) l.
Definition crossed (l : list span) (i : nat) : bool := existsb (λ h, (start h <? i) && (i <? end_ h)) l.

Ltac nat_bool :=
  repeat match goal with
  | |- context [?a <=? ?b] => destruct (Nat.leb_spec a b)
  | |- context [?a <? ?b] => destruct (Nat.ltb_spec a b)
  end; simpl; try reflexivity; try lia.

Lemma runs_covered run hits i :
  Forall (λ h, start run ≤ start h) hits → StronglySorted by_start hits →
  covered (runs_from run hits) i = covered (run :: hits) i ∧ crossed (runs_from run hits) i = crossed (run :: hits) i.
Proof.
  revert run. induction hits as [|h hits IH]; intros run Hrun Hs; [done|]. cbn [runs_from].
  inversion Hs as [|?? Hs' Hh]; subst. inversion Hrun as [|?? Hrh Hrun']; subst.
  destruct (Nat.ltb_spec (start h) (end_ run)).
  - destruct (IH (if end_ run <? end_ h then mkSpan (start run) (end_ h) else run)) as [-> ->]; [by destruct (_ <? _)|done|].
    unfold covered, crossed. cbn [existsb]. rewrite !orb_assoc.
    split; apply (f_equal2 orb); try done; destruct (Nat.ltb_spec (end_ run) (end_ h)); cbn [start end_]; nat_bool.
  - destruct (IH h Hh Hs') as [Hc Hx]. unfold covered, crossed in *. cbn [existsb]. by rewrite Hc, Hx.
Qed.

(** Runs lie one behind the other, from [pos] on, and none is empty. *)
Fixpoint chain (pos n : nat) (l : list span) : Prop :=
  match l with
  | [] => pos ≤ n
  | h :: r => pos ≤ start h ∧ start h < end_ h ∧ chain (end_ h) n r
  end.

Lemma runs_chain pos n run hits :
  pos ≤ start run → Forall (λ h, start h < end_ h ≤ n) (run :: hits) → chain pos n (runs_from run hits).
Proof.
  revert pos run. induction hits as [|h hits IH]; intros pos run Hp [Hr Hh]%Forall_cons; [simpl; lia|].
  apply Forall_cons in Hh as [Hh Hhs]. cbn [runs_from]. destruct (Nat.ltb_spec (start h) (end_ run)).
  - apply IH; [by destruct (_ <? _)|]. constructor; [|done]. destruct (Nat.ltb_spec (end_ run) (end_ h)); cbn [start end_]; lia.
  - cbn [chain]. split_and!; [done|lia|]. apply IH; [done|by constructor].
Qed.

Lemma chain_outside pos n l i : chain pos n l → i < pos → covered l i = false ∧ crossed l i = false.
Proof.
  revert pos. induction l as [|h l IH]; intros pos; [done|]. intros (Hp & Hh & Hl) Hi.
  destruct (IH _ Hl) as [Hc Hx]; [lia|]. unfold covered, crossed in *. cbn [existsb]. rewrite Hc, Hx. split; nat_bool.
Qed.

Lemma chain_le pos n l : chain pos n l → pos ≤ n.
Proof. revert pos. induction l as [|h l IH]; intros pos; [done|]. intros (? & ? & ?%IH). lia. Qed.

(** ** Writing runs out *)

Definition is_some {A} (o : option A) : bool := match o with Some _ => true | None => false end.

Lemma contains_pieces c s : contains (String c "") s = false → pieces c s = [s].
Proof.
  induction s as [|a s IH]; [done|]. intros [Hp Hs]%contains_tail. cbn [pieces]. cbn [has_prefix] in Hp.
  destruct (decide (c = a)) as [->|Ha]; [done|]. rewrite decide_False by congruence. by rewrite IH.
Qed.

Lemma write_run_eq c lines :
  (write_run c lines).1 = (if is_some lines then Join ((λ _, Placeholder) <$> pieces nl c) NL else Placeholder) ∧
  is_some (write_run c lines).2 = is_some lines.
Proof.
  unfold write_run. destruct lines as [l|]; [|done]. destruct (contains NL c) eqn:E; cbn [fst snd is_some].
  - unfold NL. by rewrite Split_pieces.
  - by rewrite (contains_pieces _ _ E).
Qed.

Lemma slice_rest i j s : i ≤ j → slice i j s +:+ sdrop j s = sdrop i s.
Proof.
  intros Hij. unfold slice. rewrite <- (stake_sdrop (j - i) (sdrop i s)) at 2. f_equal.
  replace j with (i + (j - i)) at 1 by lia. generalize (j - i). intros k. clear.
  revert s. induction i as [|i IH]; intros s; [done|]. destruct s as [|a s]; [by destruct k|]. apply IH.
Qed.

Lemma length_slice i j s : i ≤ j → j ≤ String.length s → String.length (slice i j s) = j - i.
Proof. intros. unfold slice. rewrite stake_length; [done|]. rewrite sdrop_length. lia. Qed.

Lemma write_runs_bytewise text runs pos lines :
  chain pos (String.length text) runs →
  (write_runs text pos runs lines).1 =
  bytewise (covered runs) (crossed runs) (is_some lines) pos (sdrop pos text).
Proof.
  revert pos lines. induction runs as [|run runs IH]; intros pos lines Hc.
  { simpl. by rewrite bytewise_plain. }
  pose proof Hc as (Hp & Hr & Hrest). pose proof (chain_le _ _ _ Hrest) as Hle. cbn [write_runs].
  destruct (write_run_eq (slice (start run) (end_ run) text) lines) as [Hw Hl].
  destruct (write_run _ lines) as [w lines'] eqn:Ew. cbn [fst snd] in Hw, Hl.
  specialize (IH (end_ run) lines' Hrest). destruct (write_runs text (end_ run) runs lines') as [rest lines''].
  cbn [fst] in IH |- *. rewrite IH, <- (slice_rest pos (start run) text Hp), <- (slice_rest (start run) (end_ run) text) by lia.
  rewrite !bytewise_app, !length_slice, Hl by lia.
  replace (pos + (start run - pos)) with (start run) by lia. replace (start run + (end_ run - start run)) with (end_ run) by lia.
  assert (Hout : ∀ j, j < end_ run → covered runs j = false ∧ crossed runs j = false) by (intros; by eapply chain_outside).
  apply (f_equal2 String.append); [|apply (f_equal2 String.append)].
  - symmetry. apply bytewise_plain. rewrite length_slice by lia. intros j Hj. unfold covered in *. cbn [existsb].
    rewrite (proj1 (Hout j ltac:(lia))). nat_bool.
  - rewrite Hw. symmetry. apply bytewise_run; rewrite ?length_slice by lia; [lia|..]; unfold covered, crossed; cbn [existsb].
    + nat_bool.
    + unfold crossed in Hout. rewrite (proj2 (Hout _ Hr)). nat_bool.
    + intros j Hj. split; nat_bool.
  - apply bytewise_ext. intros j Hj. unfold covered, crossed. cbn [existsb]. split; nat_bool.
Qed.

(** ** Finding the occurrences *)

Lemma has_prefix_place v s i : v ≠ "" → has_prefix v (sdrop i s) = true → i + String.length v ≤ String.length s.
Proof.
  intros Hv Hp%has_prefix_fits. rewrite sdrop_length in Hp. destruct v; [done|]. simpl in *. lia.
Qed.

Lemma value_hits_elem fuel text v spans from h :
  v ≠ "" → String.length text < fuel + from →
  h ∈ value_hits fuel text v spans from ↔
  from ≤ start h ∧ end_ h = start h + String.length v ∧ has_prefix v (sdrop (start h) text) = true ∧
  containedBy spans (start h) (end_ h) = false.
Proof.
  intros Hv. revert from. induction fuel as [|fuel IH]; intros from Hf; cbn [value_hits].
  { split; [by intros ?%not_elem_of_nil|]. intros (H1 & _ & H2 & _). apply has_prefix_place in H2; [lia|done]. }
  destruct (Nat.leb_spec (from + String.length v) (String.length text)).
  2: { split; [by intros ?%not_elem_of_nil|]. intros (H1 & _ & H2 & _). apply has_prefix_place in H2; [lia|done]. }
  destruct (Index _ v) as [i|] eqn:Ei.
  2: { split; [by intros ?%not_elem_of_nil|]. intros (H1 & _ & H2 & _).
    pose proof (Index_None _ _ (start h - from) Ei) as Hn. rewrite sdrop_add in Hn.
    replace (from + (start h - from)) with (start h) in Hn by lia. congruence. }
  destruct (Index_Some _ _ _ Ei) as [Hp Hb]. rewrite sdrop_add in Hp.
  rewrite elem_of_app, IH by lia. split.
  - intros [Hh|(? & ? & ? & ?)]; [|split_and!; try done; lia].
    destruct (containedBy spans (from + i) _) eqn:Ec; [by apply not_elem_of_nil in Hh|].
    apply list_elem_of_singleton in Hh as ->. cbn [start end_]. split_and!; try done; lia.
  - intros (H1 & H2 & H3 & H4). destruct (decide (start h = from + i)) as [Hs|Hs].
    + left. destruct h as [a b]. cbn [start end_] in *. subst. rewrite H4. apply list_elem_of_singleton. done.
    + right. split_and!; try done. destruct (decide (start h < from + i)); [|lia].
      specialize (Hb (start h - from) ltac:(lia)). rewrite sdrop_add in Hb.
      replace (from + (start h - from)) with (start h) in Hb by lia. congruence.
Qed.

Lemma all_hits_elem vs text spans h :
  Forall (λ v, v ≠ "") vs →
  h ∈ all_hits vs text spans ↔
  ∃ v, v ∈ vs ∧ end_ h = start h + String.length v ∧ has_prefix v (sdrop (start h) text) = true ∧
       containedBy spans (start h) (end_ h) = false.
Proof.
  intros Hvs. unfold all_hits. rewrite list_elem_of_In, in_concat. setoid_rewrite <- list_elem_of_In. rewrite Forall_forall in Hvs. split.
  - intros (l & (v & -> & Hv)%list_elem_of_fmap & Hh). apply value_hits_elem in Hh as (_ & ? & ? & ?); [|auto|lia].
    exists v. by split_and!.
  - intros (v & Hv & ? & ? & ?). eexists. split; [apply list_elem_of_fmap; exists v; done|].
    apply value_hits_elem; [auto|lia|]. split_and!; try done. lia.
Qed.

(** The hits decide the bytes the way the reference does, whatever their order. *)
Lemma hits_bytes vs text spans hits i :
  Forall (λ v, v ≠ "") vs → hits ≡ₚ all_hits vs text spans →
  covered hits i = secret_byte vs text spans i ∧ crossed hits i = secret_joint vs text spans i.
Proof.
  intros Hvs Hp. assert (Hin : ∀ n (P : nat → bool),
    (∀ a, P a = true ↔ a < n) → n ≤ S i →
    existsb (λ h, P (start h) && (i <? end_ h)) hits = existsb (λ a, reaches vs text spans a i) (seq 0 n)).
  { intros n P HP Hn. apply eq_true_iff_eq. rewrite !existsb_exists. split.
    - intros (h & Hh%list_elem_of_In & [Hs He%Nat.ltb_lt]%andb_true_iff). rewrite Hp, all_hits_elem in Hh by done.
      destruct Hh as (v & Hv & Hend & Hpre & Hc). exists (start h). split; [apply in_seq; apply HP in Hs; lia|].
      unfold reaches. apply existsb_exists. exists v. split; [by apply list_elem_of_In|].
      rewrite Hpre, <- Hend, Hc. simpl. by apply Nat.ltb_lt.
    - intros (a & Ha%in_seq & (v & Hv%list_elem_of_In & Hr)%existsb_exists).
      apply andb_true_iff in Hr as [[Hpre Hc%negb_true_iff]%andb_true_iff He].
      exists (mkSpan a (a + String.length v)). cbn [start end_]. split.
      + apply list_elem_of_In. rewrite Hp, all_hits_elem by done. exists v. by split_and!.
      + rewrite He, (proj2 (HP a)) by lia. done. }
  split.
  - apply (Hin (S i) (λ a, a <=? i)); [|done]. intros a. rewrite Nat.leb_le. lia.
  - apply (Hin i (λ a, a <? i)); [|lia]. intros a. apply Nat.ltb_lt.
Qed.

Lemma all_hits_inside vs text spans :
  Forall (λ v, v ≠ "") vs → Forall (λ h, start h < end_ h ≤ String.length text) (all_hits vs text spans).
Proof.
  intros Hvs. apply Forall_forall. intros h (v & Hv & -> & Hp & _)%all_hits_elem; [|done].
  rewrite Forall_forall in Hvs. specialize (Hvs v Hv). apply has_prefix_place in Hp; [|done]. destruct v; [done|]. simpl in *. lia.
Qed.

#[global] Instance by_start_trans : Transitive by_start.
Proof. intros a b c. unfold by_start. lia. Qed.
#[global] Instance by_start_total : Total by_start.
Proof. intros a b. unfold by_start. lia. Qed.

Lemma replaceOutside_reference s text spans lines :
  Forall (λ v, v ≠ "") (values s) →
  (replaceOutside (Some s) text spans lines).1 = reference (values s) spans (is_some lines) text.
Proof.
  intros Hvs. unfold replaceOutside, reference.
  pose proof (merge_sort_Permutation by_start (all_hits (values s) text spans)) as Hp.
  pose proof (StronglySorted_merge_sort by_start (all_hits (values s) text spans)) as Hs.
  pose proof (all_hits_inside (values s) text spans Hvs) as Hin. rewrite <- Hp in Hin.
  destruct (merge_sort by_start _) as [|h r].
  - symmetry. apply bytewise_plain. intros j _. by destruct (hits_bytes _ _ _ _ j Hvs Hp) as [<- _].
  - inversion Hs as [|?? Hs' Hh]; subst. rewrite write_runs_bytewise by (apply runs_chain; [lia|done]).
    apply bytewise_ext. intros j _. destruct (runs_covered h r j Hh Hs') as [-> ->]. by apply hits_bytes.
Qed.

(** ** What is left in the text *)

Definition starless : string → Prop := sall (λ a, a ≠ "*"%char).

Lemma contains_skip c v t : c = "*"%char → v ≠ "" → starless v → contains v (String c t) = true → contains v t = true.
Proof.
  intros -> Hv Hs. cbn [contains]. intros [Hp|Hc]%orb_true_iff; [|done]. exfalso.
  destruct v as [|a v]; [done|]. cbn [has_prefix] in Hp. destruct Hs as [Ha _]. case_decide; congruence.
Qed.

Lemma contains_Placeholder v t : v ≠ "" → starless v → contains v (Placeholder +:+ t) = true → contains v t = true.
Proof. intros Hv Hs Hc. do 10 (apply (contains_skip "*") in Hc; [|done..]). exact Hc. Qed.

Lemma contains_joint v t :
  2 ≤ String.length v → starless v → contains v (NL +:+ Placeholder +:+ t) = true → contains v t = true.
Proof.
  intros Hl Hs Hc. assert (v ≠ "") by (by intros ->; simpl in Hl; lia). apply contains_Placeholder; [done..|].
  change (NL +:+ ?x) with (String nl x) in Hc. cbn [contains] in Hc. apply orb_true_iff in Hc as [Hp|Hc]; [|exact Hc].
  exfalso. destruct v as [|a [|b v]]; simpl in Hl; [lia..|]. destruct Hs as (_ & Hb & _).
  cbn [has_prefix] in Hp. case_decide; [|done]. unfold Placeholder in Hp. change ("**********" +:+ t) with (String "*" ("*********" +:+ t)) in Hp.
  cbn [has_prefix] in Hp. case_decide; congruence.
Qed.

Section left_over.
Variables (cov crs : nat → bool) (per_line : bool).
Hypothesis crs_here : ∀ i, crs i = true → cov i = true.
Hypothesis crs_left : ∀ i, crs (S i) = true → cov i = true.

Lemma bytewise_prefix v i s :
  starless v → crs i = false → has_prefix v (bytewise cov crs per_line i s) = true →
  has_prefix v s = true ∧ (v ≠ "" → cov i = false).
Proof.
  revert i s. induction v as [|a v IH]; intros i s Hs Hi Hp; [done|]. destruct s as [|b s]; [done|].
  cbn [bytewise] in Hp. unfold cell in Hp. destruct Hs as [Ha Hs]. rewrite Hi in Hp. destruct (cov i) eqn:Ec.
  - exfalso. rewrite string_app_assoc in Hp. unfold Placeholder in Hp at 1.
    change ("**********" +:+ ?t) with (String "*" ("*********" +:+ t)) in Hp. cbn [has_prefix] in Hp. case_decide; congruence.
  - change (String b "" +:+ ?t) with (String b t) in Hp. cbn [has_prefix] in Hp |- *. case_decide; [|done]. split; [|done].
    apply (IH (S i)); [done| |done]. destruct (crs (S i)) eqn:E; [|done]. apply crs_left in E. congruence.
Qed.

Lemma bytewise_contains v i s :
  starless v → 2 ≤ String.length v → contains v (bytewise cov crs per_line i s) = true →
  ∃ k, has_prefix v (sdrop k s) = true ∧ cov (i + k) = false.
Proof.
  intros Hs Hl. assert (v ≠ "") as Hv by (by intros ->; simpl in Hl; lia).
  revert i. induction s as [|a s IH]; intros i.
  { cbn [bytewise contains]. destruct v; [done|]. done. }
  assert (contains v (bytewise cov crs per_line (S i) s) = true → ∃ k, has_prefix v (sdrop k (String a s)) = true ∧ cov (i + k) = false) as Hrest.
  { intros (k & Hk & Hc)%IH. exists (S k). split; [done|]. by rewrite Nat.add_succ_r. }
  cbn [bytewise]. unfold cell. destruct (cov i) eqn:Ec.
  - intros Hc. apply Hrest. rewrite string_app_assoc in Hc. destruct (crs i).
    + change ("" +:+ ?t) with t in Hc. destruct (per_line && _); [|done]. rewrite string_app_assoc in Hc. by apply contains_joint.
    + apply contains_Placeholder in Hc; [|done..]. destruct (per_line && _); [|done]. rewrite string_app_assoc in Hc. by apply contains_joint.
  - change (String a "" +:+ ?t) with (String a t). cbn [contains]. intros [Hp|Hc]%orb_true_iff; [|by apply Hrest].
    exists 0. rewrite Nat.add_0_r. split; [|done]. apply (bytewise_prefix v i (String a s)); [done| |].
    + destruct (crs i) eqn:E; [|done]. apply crs_here in E. congruence.
    + cbn [bytewise]. unfold cell. by rewrite Ec.
Qed.

Definition newlines (s : string) : nat := length (filter (λ a, a = nl) (list_ascii_of_string s)).

Lemma newlines_app s t : newlines (s +:+ t) = newlines s + newlines t.
Proof. unfold newlines. by rewrite list_ascii_app, filter_app, length_app. Qed.

Lemma bytewise_newlines i s :
  per_line = true → newlines (bytewise cov crs per_line i s) = newlines s.
Proof.
  intros Hpl. revert i. induction s as [|a s IH]; intros i; [done|]. cbn [bytewise].
  change (String a s) with (String a "" +:+ s). rewrite !newlines_app, IH. f_equal. unfold cell. rewrite Hpl.
  destruct (cov i); [|done]. rewrite newlines_app. cbn [andb].
  assert (newlines (if crs i then "" else Placeholder) = 0) as -> by (by destruct (crs i)).
  unfold newlines at 2. cbn [list_ascii_of_string]. rewrite filter_cons. case_bool_decide; case_decide; try done.
Qed.
End left_over.
