(* ===== verification/RedactSet.v ===== *)
(** * The set of secrets, and what the redactor promises

    The invariant of [Set_] (Redact.v), what [Add] and [AddTree] record, and the
    promises of the package: a scrubbed text holds no recorded secret, its line
    numbers are those of the text, and a masked return holds none in any key or
    value. *)

From S2P Require Import Prelude GoLib GoTime Value Job YamlText Redact RedactText RedactURL.

Open Scope nat_scope.

(** ** The invariant *)

Record set_ok (s : Set_) : Prop := {
  ok_long : Forall (λ v, minLength ≤ String.length v) (values s);
  ok_short : ∀ v, v ∈ short s → v ≠ "" ∧ String.length v < minLength;
  ok_nodup : NoDup (values s);
  ok_sorted : StronglySorted longer (values s) }.

#[global] Instance longer_trans : Transitive longer.
Proof. intros a b c. unfold longer. lia. Qed.
#[global] Instance longer_total : Total longer.
Proof. intros a b. unfold longer. lia. Qed.

Lemma New_ok : set_ok New.
Proof. split; [constructor|set_solver|constructor|constructor]. Qed.

Lemma existsb_eq_elem (l : list string) v : existsb (λ e, bool_decide (e = v)) l = true ↔ v ∈ l.
Proof.
  rewrite existsb_exists. setoid_rewrite bool_decide_eq_true. rewrite list_elem_of_In. split.
  - by intros (x & Hx & ->).
  - intros Hv. by exists v.
Qed.

Lemma Add_ok s v : set_ok s → set_ok (Add s v).
Proof.
  intros [Hl Hs Hn Ho]. unfold Add. case_bool_decide as Hv; [done|].
  destruct (Nat.ltb_spec (String.length (TrimSpace v)) minLength).
  - split; cbn [values short]; [done| |done|done]. intros w [->%elem_of_singleton|Hw]%elem_of_union; auto.
  - destruct (existsb _ _) eqn:E; [done|]. assert (TrimSpace v ∉ values s) as Hnv by (rewrite <- existsb_eq_elem; congruence).
    split; cbn [values short]; [| | |apply StronglySorted_merge_sort; apply _].
    + rewrite merge_sort_Permutation. apply Forall_app. split; [done|]. by constructor.
    + done.
    + rewrite merge_sort_Permutation. apply NoDup_app. split_and!; [done| |apply NoDup_singleton].
      intros w Hw ->%list_elem_of_singleton. done.
Qed.

(** ** What is recorded *)

Lemma Holds_elem s v : Holds (Some s) v = true ↔ TrimSpace v ≠ "" ∧ (TrimSpace v ∈ values s ∨ TrimSpace v ∈ short s).
Proof.
  unfold Holds. case_bool_decide as Hv; [naive_solver|]. case_bool_decide as Hs; [naive_solver|].
  rewrite existsb_eq_elem. naive_solver.
Qed.

Lemma Add_elem s v w :
  w ∈ values (Add s v) ∨ w ∈ short (Add s v) ↔ (w ∈ values s ∨ w ∈ short s) ∨ (w = TrimSpace v ∧ w ≠ "").
Proof.
  unfold Add. case_bool_decide as Hv; [naive_solver|]. destruct (_ <? _); cbn [values short]; [set_solver|].
  destruct (existsb _ _) eqn:E; [apply existsb_eq_elem in E; naive_solver|]. cbn [values short].
  rewrite merge_sort_Permutation. set_solver.
Qed.

Lemma Add_values s v w :
  w ∈ values (Add s v) ↔ w ∈ values s ∨ (w = TrimSpace v ∧ minLength ≤ String.length w).
Proof.
  unfold Add. case_bool_decide as Hv.
  - split; [by left|]. intros [?|[-> Hl]]; [done|]. rewrite Hv in Hl. unfold minLength in Hl. simpl in Hl. lia.
  - destruct (Nat.ltb_spec (String.length (TrimSpace v)) minLength); cbn [values].
    + split; [by left|]. intros [?|[-> Hl]]; [done|lia].
    + destruct (existsb _ _) eqn:E; [apply existsb_eq_elem in E; naive_solver|]. cbn [values].
      rewrite merge_sort_Permutation, elem_of_app, list_elem_of_singleton. naive_solver.
Qed.

(** The strings AddTree reaches: the values, at any depth, and not the keys. *)
Fixpoint leaves (v : value) : list string :=
  match v with
  | VString t => [t]
  | VSeq l => concat (map leaves l)
  | VMap m => concat (map (λ e, leaves (Val e)) (entries m))
  | _ => []
  end.

Lemma AddTree_leaves v s : AddTree s v = foldl Add s (leaves v).
Proof.
  revert s. induction v as [l IH|m IH|v Hv] using value_nested_ind; [| |by destruct v].
  - cbn [AddTree leaves]. induction IH as [|x l Hx Hl IHl]; intros s; [done|]. cbn [foldl map concat].
    rewrite foldl_app, Hx. apply IHl.
  - cbn [AddTree leaves]. induction IH as [|e l [_ Hx] Hl IHl]; intros s; [done|]. cbn [foldl map concat].
    rewrite foldl_app, Hx. apply IHl.
Qed.

Lemma Adds_ok l s : set_ok s → set_ok (foldl Add s l).
Proof. intros Hs. apply (foldl_inv set_ok); [done|]. intros. by apply Add_ok. Qed.

Lemma Adds_elem l s w :
  w ∈ values (foldl Add s l) ∨ w ∈ short (foldl Add s l) ↔
  (w ∈ values s ∨ w ∈ short s) ∨ ∃ t, t ∈ l ∧ w = TrimSpace t ∧ w ≠ "".
Proof.
  revert s. induction l as [|v l IH]; intros s; cbn [foldl]; [set_solver|]. rewrite IH, Add_elem. set_solver.
Qed.

Lemma Adds_values l s w :
  w ∈ values (foldl Add s l) ↔ w ∈ values s ∨ ∃ t, t ∈ l ∧ w = TrimSpace t ∧ minLength ≤ String.length w.
Proof.
  revert s. induction l as [|v l IH]; intros s; cbn [foldl]; [set_solver|]. rewrite IH, Add_values. set_solver.
Qed.

(** seeding a set with a pillar keeps its invariant -- the secrets looked for
    in text are at least six bytes, distinct and longest first, the short ones
    are apart -- and the set then holds exactly what it held and the strings the
    tree has as values, at any depth, without the space around them. *)
Theorem seeding_records_every_value s v w :
  set_ok s →
  set_ok (AddTree s v) ∧
  (Holds (Some (AddTree s v)) w = true ↔
   Holds (Some s) w = true ∨ ∃ t, t ∈ leaves v ∧ TrimSpace t = TrimSpace w ∧ TrimSpace t ≠ "").
Proof.
  intros Hs. rewrite AddTree_leaves. split; [by apply Adds_ok|]. rewrite !Holds_elem, Adds_elem. split.
  - intros [Hw [?|(t & Ht & Heq & _)]]; [by left|]. right. exists t. by rewrite <- Heq.
  - intros [[Hw ?]|(t & Ht & Heq & Hne)]; [by auto|]. rewrite <- Heq. split; [done|]. right. by exists t.
Qed.

Lemma seeding_records_every_value_witness :
  let v := VMap (mkMap [mkEntry (VString "db") (VSeq [VString " s3cret-1 "; VString "pw"]) noPos noPos] {["sdb" := 0]} noPos) in
  set_ok (AddTree New v) ∧ (Holds (Some (AddTree New v)) "pw" = true ↔ Holds (Some New) "pw" = true ∨ ∃ t, t ∈ leaves v ∧ TrimSpace t = TrimSpace "pw" ∧ TrimSpace t ≠ "").
Proof. intros v. exact (seeding_records_every_value New v "pw" New_ok). Defined.

(** ** Text *)

Lemma ok_nonempty s : set_ok s → Forall (λ v, v ≠ "") (values s).
Proof. intros Hs. eapply Forall_impl; [apply (ok_long _ Hs)|]. intros v Hv ->. unfold minLength in Hv. simpl in Hv. lia. Qed.

Lemma secret_joint_byte vs text spans i : secret_joint vs text spans i = true → secret_byte vs text spans i = true.
Proof.
  unfold secret_joint, secret_byte. rewrite !existsb_exists. intros (a & Ha%in_seq & Hr). exists a.
  split; [apply in_seq; lia|done].
Qed.

Lemma secret_joint_left vs text spans i : secret_joint vs text spans (S i) = true → secret_byte vs text spans i = true.
Proof.
  unfold secret_joint, secret_byte. rewrite !existsb_exists. intros (a & Ha & Hr). exists a. split; [done|].
  unfold reaches in *. apply existsb_exists in Hr as (v & Hv & Hr). apply existsb_exists. exists v. split; [done|].
  apply andb_true_iff in Hr as [-> Hi%Nat.ltb_lt]. simpl. apply Nat.ltb_lt. lia.
Qed.

(** An occurrence of a secret in the result is one of the text that was spared. *)
Lemma replaceOutside_left s text spans lines v :
  set_ok s → v ∈ values s → starless v → contains v (replaceOutside (Some s) text spans lines).1 = true →
  ∃ a, has_prefix v (sdrop a text) = true ∧ containedBy spans a (a + String.length v) = true.
Proof.
  intros Hs Hv Hst. rewrite replaceOutside_reference by (by apply ok_nonempty). intros Hc.
  assert (minLength ≤ String.length v) as Hl by (by apply (proj1 (Forall_forall _ _) (ok_long _ Hs))). unfold minLength in Hl.
  apply bytewise_contains in Hc as (k & Hp & Hk); [|apply secret_joint_byte|apply secret_joint_left|done|lia].
  exists k. split; [done|]. destruct (containedBy _ _ _) eqn:E; [done|]. exfalso. simpl in Hk.
  assert (secret_byte (values s) text spans k = true) as Hb; [|congruence].
  unfold secret_byte. apply existsb_exists. exists k. split; [apply in_seq; lia|]. unfold reaches. apply existsb_exists.
  exists v. split; [by apply list_elem_of_In|]. rewrite Hp, E. simpl. apply Nat.ltb_lt. lia.
Qed.

Lemma no_hits_same s text lines :
  set_ok s → (∀ v, v ∈ values s → contains v text = false) → (replaceOutside (Some s) text [] lines).1 = text.
Proof.
  intros Hs Hno. rewrite replaceOutside_reference by (by apply ok_nonempty). apply bytewise_plain. intros j _.
  destruct (secret_byte _ _ _ j) eqn:E; [|done]. exfalso. unfold secret_byte in E.
  apply existsb_exists in E as (a & _ & (v & Hv%list_elem_of_In & Hr)%existsb_exists).
  apply andb_true_iff in Hr as [[Hp _]%andb_true_iff _]. specialize (Hno v Hv).
  assert (contains v text = true); [|congruence]. clear -Hp. revert a Hp.
  induction text as [|c t IH]; intros [|a] Hp; cbn [sdrop] in Hp; cbn [contains]; rewrite ?Hp; try done.
  rewrite (IH a Hp). apply orb_true_r.
Qed.

(** C9: no secret text of a pillar is left in a diagnostic.  Whatever the pillar
    and the text, once the set is seeded with the pillar, a string value of it
    that is at least six bytes without the space around it, and has no asterisk,
    does not occur in the scrubbed text, nor, as a whole, in the text scrubbed
    line by line.  (Placeholders are made of asterisks, and one may complete a
    secret that has some: [starred_secret_may_appear].  Values that are not
    strings are not recorded: [numbers_are_not_recorded].) *)
Theorem no_pillar_value_is_printed pillar text t :
  t ∈ leaves pillar → minLength ≤ String.length (TrimSpace t) → starless (TrimSpace t) →
  contains (TrimSpace t) (Scrub (Some (AddTree New pillar)) text) = false ∧
  contains (TrimSpace t) (ScrubLines (Some (AddTree New pillar)) text).1 = false.
Proof.
  intros Ht Hl Hst. rewrite AddTree_leaves. set (s := foldl Add New (leaves pillar)).
  assert (set_ok s) as Hs by apply Adds_ok, New_ok.
  assert (TrimSpace t ∈ values s) as Hv by (apply Adds_values; right; by exists t).
  assert (∀ x lines, contains (TrimSpace t) (replaceOutside (Some s) x [] lines).1 = false) as Hno.
  { intros x lines. destruct (contains _ _) eqn:E; [|done]. apply replaceOutside_left in E as (a & _ & Hc); [|done..]. done. }
  unfold Scrub, ScrubLines. case_bool_decide as Hx.
  - subst text. destruct (TrimSpace t); [simpl in Hl; unfold minLength in Hl; lia|]. done.
  - pose proof (Hno (URLCredentials text) (Some New)) as H2. destruct (replaceOutside _ _ _ (Some New)). split; [apply Hno|exact H2].
Qed.

Lemma no_pillar_value_is_printed_witness :
  let pillar := VSeq [VString "alpha-shared"; VString "shared-omega "; VString "pw"] in
  contains (TrimSpace "shared-omega ") (Scrub (Some (AddTree New pillar)) "x alpha-shared-omega y") = false ∧
  contains (TrimSpace "shared-omega ") (ScrubLines (Some (AddTree New pillar)) "x alpha-shared-omega y").1 = false.
Proof.
  intros pillar. apply (no_pillar_value_is_printed pillar "x alpha-shared-omega y" "shared-omega ").
  - apply (bool_decide_eq_true_1 _). vm_compute. reflexivity.
  - vm_compute; lia.
  - vm_compute. repeat split; discriminate.
Defined.

(** A secret with asterisks may appear where there was none. *)
Lemma starred_secret_may_appear :
  let s := AddTree New (VSeq [VString "a*****"; VString "secret"]) in
  contains "a*****" "asecret" = false ∧ contains "a*****" (Scrub (Some s) "asecret") = true.
Proof. split; vm_compute; reflexivity. Qed.

(** A number of the pillar is printed. *)
Lemma numbers_are_not_recorded :
  Scrub (Some (AddTree New (VSeq [VInt 98765432]))) "the pin is 98765432" = "the pin is 98765432".
Proof. vm_compute. reflexivity. Qed.

Lemma scrub_reference s text :
  set_ok s → text ≠ "" →
  Scrub (Some s) text = reference (values s) [] false (URLCredentials text) ∧
  (ScrubLines (Some s) text).1 = reference (values s) [] true (URLCredentials text).
Proof.
  intros Hs Ht. pose proof (ok_nonempty _ Hs) as Hne. unfold Scrub, ScrubLines. rewrite bool_decide_false by done. split.
  - by apply (replaceOutside_reference s _ [] None).
  - pose proof (replaceOutside_reference s (URLCredentials text) [] (Some New) Hne) as H2.
    by destruct (replaceOutside _ _ _ (Some New)).
Qed.

(** C28: the scrubbing of a text without credentials in URLs is the byte-by-byte
    reference, whatever the order in which the secrets are held and their
    occurrences sorted: a byte is kept exactly when no occurrence of a secret
    covers it; overlapping secrets leave one placeholder, secrets that touch
    leave two, and where lines are kept each newline inside a secret stays, with
    a placeholder on both sides.  (Credentials in URLs are removed before the
    secrets are looked for.) *)
Theorem scrubbing_is_bytewise s text :
  set_ok s → URLCredentials text = text →
  Scrub (Some s) text = reference (values s) [] false text ∧
  (ScrubLines (Some s) text).1 = reference (values s) [] true text.
Proof.
  intros Hs Hu. destruct (decide (text = "")) as [->|Ht]; [done|].
  pose proof (scrub_reference s text Hs Ht) as Hr. by rewrite Hu in Hr.
Qed.

Lemma scrubbing_is_bytewise_witness :
  let s := foldl Add New ["shared-alpha"; "alpha-omega"; "recurse"] in
  Scrub (Some s) "x shared-alpha-omega recurserecurse y" =
    reference (values s) [] false "x shared-alpha-omega recurserecurse y" ∧
  Scrub (Some s) "x shared-alpha-omega recurserecurse y" = "x ********** ******************** y".
Proof.
  intros s. split; [|vm_compute; reflexivity].
  apply (scrubbing_is_bytewise s "x shared-alpha-omega recurserecurse y"); [apply Adds_ok, New_ok|vm_compute; reflexivity].
Defined.

(** ScrubLines keeps the line count: line N of its result is line N of the
    text, so a window cut from it shows the line a parser named. *)
Theorem scrub_lines_keeps_the_count s text :
  match s with Some s => set_ok s | None => True end →
  length (Split (ScrubLines s text).1 NL) = length (Split text NL).
Proof.
  intros Hs. assert (∀ x, length (Split x NL) = S (newlines x)) as Hlen.
  { intros x. unfold NL. rewrite Split_pieces. induction x as [|a x IH]; [done|]. change (String a x) with (String a "" +:+ x) at 2.
    rewrite newlines_app. cbn [pieces]. unfold newlines at 1. cbn [list_ascii_of_string]. rewrite filter_cons.
    case_decide; simpl; [lia|]. destruct (pieces_cons nl x) as (p & l & Hp). rewrite Hp in *. simpl in *. lia. }
  rewrite !Hlen. f_equal. unfold ScrubLines. case_bool_decide; [done|]. destruct s as [s|]; [|apply URLCredentials_newlines].
  rewrite <- (URLCredentials_newlines text).
  pose proof (replaceOutside_reference s (URLCredentials text) [] (Some New) (ok_nonempty _ Hs)) as H2.
  destruct (replaceOutside _ _ _ (Some New)) as [out lines]. cbn [fst] in H2 |- *. rewrite H2. by apply bytewise_newlines.
Qed.

Lemma scrub_lines_keeps_the_count_witness :
  let s := Add New ("-----BEGIN" +:+ NL +:+ "MIIE") in
  let text := "key: -----BEGIN" +:+ NL +:+ "MIIE" +:+ NL +:+ "bad: [" in
  length (Split (ScrubLines (Some s) text).1 NL) = length (Split text NL) ∧
  (ScrubLines (Some s) text).1 = "key: **********" +:+ NL +:+ "**********" +:+ NL +:+ "bad: [".
Proof.
  intros s text. split; [|vm_compute; reflexivity]. apply (scrub_lines_keeps_the_count (Some s) text). apply Add_ok, New_ok.
Defined.

(** The credentials of a URL are removed first, so a secret that is a whole URL
    with credentials is no longer found, and the rest of it stays. *)
Example url_pass_leaves_the_rest_of_a_secret :
  Scrub (Some (Add New "https://u:pw@hooks.example.com/T0/B0/XX")) "post to https://u:pw@hooks.example.com/T0/B0/XX" =
    "post to https://<redacted>@hooks.example.com/T0/B0/XX" ∧
  ScrubExcept (Some (Add New "https://u:pw@hooks.example.com/T0/B0/XX")) "post to https://u:pw@hooks.example.com/T0/B0/XX" ["post"] =
    "post to **********".
Proof. split; vm_compute; reflexivity. Qed.

(** Two kept identifiers that touch are one span, so a secret that neither of
    them contains is spared. *)
Example touching_identifiers_spare_a_secret :
  ScrubExcept (Some (Add New "phabra")) "alphabravo" ["alpha"; "bravo"] = "alphabravo".
Proof. vm_compute. reflexivity. Qed.

(** ** TrimSpace removes only space *)

Lemma explode_concat k s : Join (explode_go k s) "" = sdrop k s.
Proof.
  assert (Hj : ∀ x l, Join (x :: l) "" = x +:+ Join l "") by (intros x [|y l]; [by rewrite string_app_nil_r|done]).
  revert k. induction s as [|a s IH]; intros k; [by destruct k|]. destruct k as [|k]; cbn [explode_go sdrop]; [|apply IH].
  destruct (DecodeRune (byte_of a) (bytes s)) as [[r w] ok] eqn:E. rewrite Hj, IH.
  assert (1 ≤ w) as Hw by (by unfold DecodeRune in E; repeat case_match; simplify_eq; lia).
  destruct w as [|w]; [lia|]. cbn [stake pred]. rewrite string_app_cons. f_equal. apply stake_sdrop.
Qed.

Lemma starless_bytes s : starless s ↔ Forall (λ b, b ≠ 42)%Z (bytes s).
Proof.
  induction s as [|a s IH]; [by split|]. unfold starless, bytes in *. cbn [sall list_ascii_of_string]. rewrite fmap_cons, Forall_cons, IH.
  assert (a ≠ "*"%char ↔ byte_of a ≠ 42%Z) as ->; [|done]. split; intros Hn Ha; apply Hn; [|by subst].
  unfold byte_of in Ha. rewrite <- (ascii_N_embedding a). by rewrite (N2Z.inj (N_of_ascii a) 42 Ha).
Qed.

Lemma space_piece_starless k s p : p ∈ explode_go k s → space_piece p = true → starless p.
Proof.
  revert k. induction s as [|a s IH]; intros k; [by intros ?%not_elem_of_nil|].
  destruct k as [|k]; cbn [explode_go]; [|apply IH].
  destruct (DecodeRune (byte_of a) (bytes s)) as [[r w] ok] eqn:E. intros [->|Hp]%elem_of_cons; [|by eapply IH].
  destruct (decide (w = 1)) as [->|Hw].
  - cbn [stake]. replace (stake 0 s) with "" by (by destruct s). intros Hs. split; [|done]. intros ->. by vm_compute in Hs.
  - intros _. assert (ok = true) as -> by (by unfold DecodeRune in E; repeat case_match; simplify_eq).
    pose proof E as E2. apply DecodeRune_Encode in E as [Hw1 HE]. destruct w as [|w]; [lia|]. rewrite starless_bytes, bytes_stake.
    change (bytes (String a s)) with (byte_of a :: bytes s). cbn [take pred] in *. rewrite HE.
    destruct (Z.lt_ge_cases r 128) as [Hr|Hr].
    + exfalso. unfold EncodeRune in HE. rewrite (proj2 (Z.ltb_lt _ _) Hr) in HE. injection HE as _ HE.
      destruct w as [|w]; [lia|]. destruct s as [|b s]; [|done]. unfold DecodeRune in E2. cbn in E2.
      repeat case_match; simplify_eq.
    + eapply Forall_impl; [by apply EncodeRune_high|]. simpl. lia.
Qed.

Lemma drop_space_split l : ∃ d, l = d ++ drop_space l ∧ Forall (λ p, space_piece p = true) d.
Proof.
  induction l as [|p l (d & Hd & Hs)]; [by exists []|]. cbn [drop_space]. destruct (space_piece p) eqn:E.
  - exists (p :: d). split; [by rewrite Hd at 1|by constructor].
  - by exists [].
Qed.

Lemma Join_app l l' : Join (l ++ l') "" = Join l "" +:+ Join l' "".
Proof.
  assert (Hj : ∀ x l, Join (x :: l) "" = x +:+ Join l "") by (intros x [|y r]; [by rewrite string_app_nil_r|done]).
  induction l as [|x l IH]; [done|]. cbn [app]. by rewrite !Hj, IH, string_app_assoc.
Qed.

Lemma Join_starless l : Forall starless l → starless (Join l "").
Proof. intros Hl. by apply Join_sall. Qed.

(** A text whose trimmed form has no asterisk has none. *)
Lemma TrimSpace_starless s : starless (TrimSpace s) → starless s.
Proof.
  unfold TrimSpace. intros Ht. change (Split s "") with (explode_go 0 s) in Ht.
  destruct (drop_space_split (explode_go 0 s)) as (d1 & E1 & H1).
  set (r := drop_space (explode_go 0 s)) in *. destruct (drop_space_split (reverse r)) as (d2 & E2 & H2).
  set (q := drop_space (reverse r)) in *. apply (f_equal reverse) in E2. rewrite reverse_involutive, reverse_app in E2.
  assert (Hd : ∀ d, d ⊆ explode_go 0 s → Forall (λ p, space_piece p = true) d → starless (Join d "")).
  { intros d Hin Hd. apply Join_starless, Forall_forall. intros p Hp. eapply space_piece_starless; [by apply Hin|].
    by apply (proj1 (Forall_forall _ _) Hd). }
  rewrite <- (explode_concat 0 s : Join (explode_go 0 s) "" = s). rewrite E1, E2, !Join_app.
  apply sall_app. split; [|apply sall_app; split; [done|]].
  - apply Hd; [|done]. intros p Hp. rewrite E1. apply elem_of_app. by left.
  - apply Hd; [|by rewrite Forall_reverse]. intros p Hp. rewrite E1, E2, !elem_of_app. auto.
Qed.
