(* ===== verification/RedactMask.v ===== *)
(** * Masking a return

    What [MaskValue] (Redact.v) promises of the data a caller asked for: no key
    or value of the result holds a secret, masking a masked value changes
    nothing, and a value reported unchanged is the value that came. *)

From S2P Require Import Prelude GoLib GoTime Value Job YamlText Redact RedactText RedactURL RedactSet.

Open Scope nat_scope.

Section mask.
Context `{Runtime}.

(** Every string of a value, keys and values. *)
Fixpoint strings (v : value) : list string :=
  match v with
  | VString t => [t]
  | VSeq l => concat (map strings l)
  | VMap m => concat (map (λ e, strings (Key e) ++ strings (Val e)) (entries m))
  | _ => []
  end.

Lemma strings_seq l x : x ∈ strings (VSeq l) ↔ ∃ v, v ∈ l ∧ x ∈ strings v.
Proof.
  cbn [strings]. rewrite list_elem_of_In, in_concat. setoid_rewrite in_map_iff. setoid_rewrite <- list_elem_of_In. naive_solver.
Qed.
Lemma strings_map m x : x ∈ strings (VMap m) ↔ ∃ e, e ∈ entries m ∧ (x ∈ strings (Key e) ∨ x ∈ strings (Val e)).
Proof.
  cbn [strings]. rewrite list_elem_of_In, in_concat. setoid_rewrite in_map_iff. setoid_rewrite <- list_elem_of_In.
  setoid_rewrite <- elem_of_app. naive_solver.
Qed.

(** What masking makes of one string, and whether that is a change. *)
Definition mask_string (s : Set_) (t : string) : string :=
  if Holds (Some s) t then Placeholder else (replaceOutside (Some s) t [] None).1.
Definition mask_changes (s : Set_) (t : string) : bool := Holds (Some s) t || negb (bool_decide (mask_string s t = t)).

Lemma mask_leaf s t : mask s (VString t) = (VString (mask_string s t), mask_changes s t).
Proof. cbn [mask]. unfold mask_changes, mask_string. by destruct (Holds (Some s) t). Qed.

(** A mapping filled entry by entry has the keys and values it was given. *)
Lemma SetAt_entries m k v kp vp e :
  e ∈ entries (SetAt m k v kp vp) →
  (Key e = k ∨ ∃ e', e' ∈ entries m ∧ Key e = Key e') ∧ (Val e = v ∨ ∃ e', e' ∈ entries m ∧ Val e = Val e').
Proof.
  unfold SetAt. destruct (index m !! CanonKey k) as [i|]; cbn [entries].
  - intros (j & Hj)%list_elem_of_lookup. rewrite list_lookup_alter in Hj. case_decide; [|naive_solver eauto using list_elem_of_lookup_2].
    destruct (entries m !! j) as [e0|] eqn:E; subst; rewrite E in Hj; [|done]. apply list_elem_of_lookup_2 in E.
    injection Hj as <-. cbn. naive_solver.
  - intros [He| ->%list_elem_of_singleton]%elem_of_app; naive_solver.
Qed.

Lemma fill_entries (l : list ((value * value) * (Pos * Pos))) m e :
  e ∈ entries (foldl (λ acc e, SetAt acc e.1.1 e.1.2 e.2.1 e.2.2) m l) →
  (Key e ∈ l.*1.*1 ∨ ∃ e', e' ∈ entries m ∧ Key e = Key e') ∧ (Val e ∈ l.*1.*2 ∨ ∃ e', e' ∈ entries m ∧ Val e = Val e').
Proof.
  revert m. induction l as [|x l IH]; intros m; cbn [foldl]; [naive_solver|].
  intros [[Hk|(e1 & H1 & Hk)] [Hv|(e2 & H2 & Hv)]]%IH; cbn [fmap list_fmap];
    rewrite !elem_of_cons; (split; [|]); try (by auto);
    try (apply SetAt_entries in H1 as [[?|?] _]); try (apply SetAt_entries in H2 as [_ [?|?]]); rewrite ?Hk, ?Hv; naive_solver.
Qed.

Lemma mask_entries s l :
  foldl (λ acc e, SetAt acc e.1.1.1 e.1.2.1 e.2.1 e.2.2) NewMap
    (map (λ e, ((mask s (Key e), mask s (Val e)), (KeyPos e, ValPos e))) l) =
  foldl (λ acc e, SetAt acc e.1.1 e.1.2 e.2.1 e.2.2) NewMap
    (map (λ e, (((mask s (Key e)).1, (mask s (Val e)).1), (KeyPos e, ValPos e))) l).
Proof. generalize NewMap. induction l as [|e l IH]; intros m; [done|]. apply IH. Qed.

(** The strings of a masked value are masked strings, and the flag is set
    exactly where masking changes a string. *)
Lemma mask_strings s v x : x ∈ strings (mask s v).1 → ∃ t, t ∈ strings v ∧ x = mask_string s t.
Proof.
  revert x. induction v as [l IH|m IH|v Hv] using value_nested_ind; intros x.
  - cbn [mask fst]. rewrite strings_seq. setoid_rewrite strings_seq.
    intros (w & (p & <- & (y & <- & Hy%list_elem_of_In)%in_map_iff)%list_elem_of_In%in_map_iff & Hx). rewrite Forall_forall in IH.
    apply IH in Hx as (t & ? & ?); [|done]. naive_solver.
  - cbn [mask fst]. rewrite mask_entries, strings_map. setoid_rewrite strings_map.
    intros (e & He & Hx). rewrite Forall_forall in IH. apply fill_entries in He as [Hk Hv].
    destruct Hx as [Hx|Hx]; [destruct Hk as [Hk|(?&?%not_elem_of_nil&_)]|clear Hk; destruct Hv as [Hk|(?&?%not_elem_of_nil&_)]]; try done;
      apply list_elem_of_fmap in Hk as (p & Ep & (q & -> & (e0 & <- & He0%list_elem_of_In)%list_elem_of_In%in_map_iff)%list_elem_of_fmap);
      cbn [fst snd] in Ep; rewrite Ep in Hx; apply IH in Hx as (t & ? & ?); try done; naive_solver.
  - destruct v; try done; try by intros ?%not_elem_of_nil. rewrite mask_leaf. cbn [fst strings].
    rewrite list_elem_of_singleton. intros ->. exists s0. split; [by left|done].
Qed.

Lemma mask_flag s v : (mask s v).2 = existsb (mask_changes s) (strings v).
Proof.
  induction v as [l IH|m IH|v Hv] using value_nested_ind.
  - cbn [mask snd strings]. induction IH as [|x l Hx Hl IHl]; [done|]. cbn [map existsb concat]. by rewrite existsb_app, Hx, IHl.
  - cbn [mask snd strings]. induction IH as [|e l [Hk Hx] Hl IHl]; [done|]. cbn [map existsb concat fst snd].
    by rewrite !existsb_app, Hk, Hx, IHl.
  - destruct v; try done. rewrite mask_leaf. cbn. by rewrite orb_false_r.
Qed.

(** ** No secret is left *)

(** No recorded secret has an asterisk, the character of the placeholder. *)
Definition set_starless (s : Set_) : Prop := ∀ v, v ∈ values s ∨ v ∈ short s → starless v.

Lemma Placeholder_clean s : set_ok s → set_starless s → Holds (Some s) Placeholder = false ∧ ∀ v, v ∈ values s → contains v Placeholder = false.
Proof.
  intros Hs Hst. split.
  - destruct (Holds _ _) eqn:E; [|done]. apply Holds_elem in E as [_ Hin]. apply Hst, TrimSpace_starless in Hin. by destruct Hin.
  - intros v Hv. destruct (contains v Placeholder) eqn:E; [|done]. exfalso.
    rewrite <- (string_app_nil_r Placeholder) in E. assert (v ≠ "") as Hne by (by apply (proj1 (Forall_forall _ _) (ok_nonempty _ Hs))).
    apply contains_Placeholder in E; [|done|by apply Hst; left]. by destruct v.
Qed.

(** Where something was replaced there is an asterisk. *)
Lemma bytewise_changed cov crs pl i s :
  (∀ j, crs j = true → cov j = true) → (∀ j, crs (S j) = true → cov j = true) → crs i = false →
  starless (bytewise cov crs pl i s) → bytewise cov crs pl i s = s.
Proof.
  intros H1 H2. revert i. induction s as [|a s IH]; intros i Hi; [done|]. cbn [bytewise]. unfold cell. rewrite Hi.
  destruct (cov i) eqn:Ec; [by intros [Hs _]|]. rewrite string_app_cons, string_nil_app. intros [_ Hs]. f_equal. apply IH; [|done].
  destruct (crs (S i)) eqn:E; [|done]. apply H2 in E. congruence.
Qed.

Lemma mask_string_clean s t :
  set_ok s → set_starless s →
  Holds (Some s) (mask_string s t) = false ∧ ∀ v, v ∈ values s → contains v (mask_string s t) = false.
Proof.
  intros Hs Hst. unfold mask_string. destruct (Holds (Some s) t) eqn:Et; [by apply Placeholder_clean|]. split.
  - destruct (Holds _ (replaceOutside _ _ _ _).1) eqn:E; [|done]. pose proof E as E'.
    apply Holds_elem in E' as [_ Hin]. apply Hst, TrimSpace_starless in Hin.
    rewrite replaceOutside_reference in E, Hin by (by apply ok_nonempty). unfold reference in E, Hin.
    rewrite bytewise_changed in E; [congruence|apply secret_joint_byte|apply secret_joint_left|done|done].
  - intros v Hv. destruct (contains _ _) eqn:E; [|done].
    apply replaceOutside_left in E as (a & _ & Hc); [done|done|done|]. apply Hst. by left.
Qed.

Lemma masked_strings_clean s v x :
  set_ok s → set_starless s → x ∈ strings (mask s v).1 →
  Holds (Some s) x = false ∧ ∀ w, w ∈ values s → contains w x = false.
Proof. intros Hs Hst (t & _ & ->)%mask_strings. by apply mask_string_clean. Qed.

(** a masked return holds no secret.  In what MaskValue returns, at any depth
    and in keys as in values, no string is as a whole a recorded secret, short
    ones included, and none contains a secret of six bytes or more; and masking
    the result again reports no change. *)
Theorem masked_return_holds_no_secret s v :
  set_ok s → set_starless s →
  (∀ x, x ∈ strings (MaskValue (Some s) v).1 →
     Holds (Some s) x = false ∧ ∀ w, w ∈ values s → contains w x = false) ∧
  (MaskValue (Some s) (MaskValue (Some s) v).1).2 = false.
Proof.
  intros Hs Hst. cbn [MaskValue].
  assert (∀ x, x ∈ strings (mask s v).1 → Holds (Some s) x = false ∧ ∀ w, w ∈ values s → contains w x = false) as Hx.
  { intros x. by apply masked_strings_clean. }
  split; [done|]. rewrite mask_flag. apply not_true_iff_false. rewrite existsb_exists.
  intros (x & [Hh Hc]%list_elem_of_In%Hx & Hch). unfold mask_changes, mask_string in Hch. rewrite Hh in Hch. cbn [orb] in Hch.
  by rewrite (no_hits_same s x None Hs Hc), bool_decide_true in Hch.
Qed.

(** ** What holds no secret is kept *)

(** A value as decoded JSON has it: string keys, no positions, every mapping
    with its index. *)
Fixpoint json_tree (v : value) : Prop :=
  match v with
  | VSeq l => foldr (λ x P, json_tree x ∧ P) True l
  | VMap m =>
      map_wf m ∧ mpos m = noPos ∧
      foldr (λ e P, (match Key e with VString _ => True | _ => False end) ∧ json_tree (Val e) ∧ P) True (entries m)
  | VNilMap => False
  | _ => True
  end.

(** a return in which nothing is a recorded secret is left as it came: where
    MaskValue reports no change, its result is the value it was given, for every
    value of the shape JSON decodes to. *)
Theorem unmasked_return_is_unchanged s v o :
  json_tree v → MaskValue s v = (o, false) → o = v.
Proof.
  destruct s as [s|]; [|by intros _ [= <-]]. cbn [MaskValue]. intros Hv Ho.
  assert ((mask s v).2 = false) as Hf by (by rewrite Ho). replace o with (mask s v).1 by (by rewrite Ho). clear o Ho.
  induction v as [l IH|m IH|v Hl] using value_nested_ind.
  - cbn [mask fst snd] in *. f_equal. cbn [json_tree] in Hv. induction IH as [|x l Hx _ IHl]; [done|].
    cbn [map existsb foldr] in *. apply orb_false_iff in Hf as [Hf1 Hf2]. destruct Hv as [Hv1 Hv2].
    by rewrite Hx, IHl.
  - cbn [mask fst snd] in *. rewrite mask_entries. destruct Hv as (Hwf & Hp & Hes). f_equal.
    transitivity (foldl set_entry NewMap (entries m)); [|by apply refill]. clear Hwf Hp. revert Hf Hes.
    generalize NewMap. induction IH as [|e l [Hk Hx] _ IHl]; intros acc Hf Hes; [done|]. cbn [map foldl].
    cbn [map existsb fst snd foldr] in Hf, Hes. apply orb_false_iff in Hf as [[Hfk Hfv]%orb_false_iff Hf].
    destruct Hes as (Hks & Hve & Hes). rewrite Hx, Hk; [by apply IHl|by destruct (Key e)|done|done|done].
  - destruct v; try done. rewrite mask_leaf in *. cbn [fst snd] in *. unfold mask_changes in Hf.
    apply orb_false_iff in Hf as [_ Hf%negb_false_iff%bool_decide_eq_true]. by rewrite Hf.
Qed.
End mask.

(** The runtime functions, for the witnesses: nothing here asks them. *)
#[local] Instance no_runtime : Runtime :=
  {| Sprint := λ _, ""; TypeString := λ _, ""; time_ParseDuration := λ _, None; ParseFloat := λ _, None; IsPrint := λ _, false |}.

Lemma masked_return_holds_no_secret_witness :
  let s := foldl Add New ["hunter2-token"; "pw"] in
  let v := VMap (MapOf [(VString "hunter2-token", VSeq [VString " pw"; VString "uses hunter2-token!"; VInt 1])]) in
  (∀ x, x ∈ strings (MaskValue (Some s) v).1 → Holds (Some s) x = false ∧ ∀ w, w ∈ values s → contains w x = false) ∧
  (MaskValue (Some s) (MaskValue (Some s) v).1).2 = false ∧ (MaskValue (Some s) v).2 = true.
Proof.
  intros s v. split; [|split; [|vm_compute; reflexivity]];
    apply (masked_return_holds_no_secret s v); try (apply Adds_ok, New_ok);
    intros w [Hw%Adds_elem|Hw%Adds_elem] || intros w Hw%Adds_elem; destruct Hw as [[Hw|Hw]|(t & Ht & -> & _)];
    try (by apply not_elem_of_nil in Hw); try (by apply elem_of_empty in Hw);
    (repeat apply elem_of_cons in Ht as [->|Ht]; [vm_compute; repeat split; discriminate..|by apply not_elem_of_nil in Ht]).
Defined.

Lemma unmasked_return_is_unchanged_witness :
  let s := foldl Add New ["hunter2-token"; "pw"] in
  let v := VMap (MapOf [(VString "a", VSeq [VString "p w"; VInt 1])]) in
  ∃ o, MaskValue (Some s) v = (o, false) ∧ o = v.
Proof.
  intros s v. eexists. split; [vm_compute; reflexivity|].
  apply (unmasked_return_is_unchanged (Some s) v); [|vm_compute; reflexivity].
  split; [apply MapOf_wf|]. split; [reflexivity|]. vm_compute. tauto.
Defined.

(** Two keys that are both secrets become one key, and an entry is lost. *)
Example two_secret_keys_become_one :
  let s := foldl Add New ["token-alpha"; "token-bravo"] in
  let v := VMap (MapOf [(VString "token-alpha", VInt 1); (VString "token-bravo", VInt 2)]) in
  ScrubValue (Some s) v = VMap (MapOf [(VString Placeholder, VInt 2)]) ∧
  MaskValue (Some s) v = (VMap (MapOf [(VString Placeholder, VInt 2)]), true).
Proof. split; vm_compute; reflexivity. Qed.
