(* ===== verification/Json.v ===== *)
(** * Package value: JSON

    Models src/internal/value/json.go: [DecodeJSON], which reads a document into
    the ordered model through the tokens of a [tokenSource], and [EncodeJSON],
    which writes one in any layout.  The token stream of package encoding/json
    is modelled as its documentation has it: the separators are elided, the
    delimiters it returns are nested and matched, strings are coerced to valid
    UTF-8, numbers are kept as text (UseNumber); [Token] and [More] are the two
    operations json.go uses of it.  [FromJSON] is modelled on values of the
    model, where it rebuilds sequences and mappings; a [map[string]any] and a
    [json.Number] are outside it. *)

From Stdlib Require Import SpecFloat.
From S2P Require Import Prelude GoLib GoTime Value.

Open Scope Z_scope.

(** ** The token stream *)

Inductive token :=
| TDelim (c : ascii)
| TString (s : string)
| TNumber (s : string)
| TBool (b : bool)
| TNull.

Inductive jerror :=
| JEOF
| JSyntax (rest : string)
| JDepth
| JKeyNotString
| JDuplicate (key : string)
| JUnexpected (c : ascii)
| JFloat (text : string)
| JTrailing.

(** What the source needs of a decoder. *)
Class tokenSource (D : Type) := {
  Token : D → jerror + (token * D);
  More : D → bool;
}.

(** Where the decoder stands between tokens. *)
Inductive tstate :=
| TopValue | ArrayStart | ArrayValue | ArrayComma
| ObjectStart | ObjectKey | ObjectColon | ObjectValue | ObjectComma.
#[global] Instance tstate_eq_dec : EqDecision tstate.
Proof. solve_decision. Defined.

Record Decoder := mkDecoder { input : string; state : tstate; stack : list tstate }.

Definition json_space (a : ascii) : bool := existsb (Z.eqb (byte_of a)) [32; 9; 13; 10].
Fixpoint skip_space (s : string) : string :=
  match s with
  | String a r => if json_space a then skip_space r else s
  | EmptyString => ""
  end.

Definition value_allowed (s : tstate) : bool :=
  match s with TopValue | ArrayStart | ArrayValue | ObjectValue => true | _ => false end.
Definition value_end (s : tstate) : tstate :=
  match s with
  | ArrayStart | ArrayValue => ArrayComma
  | ObjectValue => ObjectComma
  | _ => s
  end.

(** *** Strings *)

Definition hex_val (a : ascii) : option Z :=
  let b := byte_of a in
  if in_range 48 57 b then Some (b - 48)
  else if in_range 97 102 b then Some (b - 87)
  else if in_range 65 70 b then Some (b - 55)
  else None.
Definition hex4 (s : string) : option Z :=
  match s with
  | String a (String b (String c (String d _))) =>
      x ← hex_val a; y ← hex_val b; z ← hex_val c; w ← hex_val d;
      Some (((x * 16 + y) * 16 + z) * 16 + w)
  | _ => None
  end.

Definition rune_string (r : rune) : string := string_of_bytes (EncodeRune r).

(** The escape behind a backslash: what it stands for, and its length.  A
    surrogate that is not the first half of a pair is the replacement rune. *)
Definition json_escape (s : string) : option (string * nat) :=
  match s with
  | String a r =>
      let one (z : Z) := Some (string_of_bytes [z], 1%nat) in
      let b := byte_of a in
      if (b =? 34) || (b =? 92) || (b =? 47) then one b
      else if b =? 98 then one 8
      else if b =? 102 then one 12
      else if b =? 110 then one 10
      else if b =? 114 then one 13
      else if b =? 116 then one 9
      else if b =? 117 then
        u ← hex4 r;
        if in_range 55296 57343 u then
          match (if has_prefix "\u" (sdrop 4 r) then hex4 (sdrop 6 r) else None) with
          | Some l =>
              if in_range 55296 56319 u && in_range 56320 57343 l
              then Some (rune_string (65536 + (u - 55296) * 1024 + (l - 56320)), 11%nat)
              else Some (rune_string RuneError, 5%nat)
          | None => Some (rune_string RuneError, 5%nat)
          end
        else Some (rune_string u, 5%nat)
      else None
  | EmptyString => None
  end.

(** The rest of a string behind its opening quote, and what is behind the
    closing one. *)
Fixpoint read_string (skip : nat) (s : string) : option (string * string) :=
  match s with
  | EmptyString => None
  | String a r =>
      match skip with
      | S k => read_string k r
      | O =>
          let b := byte_of a in
          if b =? 34 then Some ("", r)
          else if b =? 92 then
            match json_escape r with
            | Some (out, n) => '(x, rest) ← read_string n r; Some (out +:+ x, rest)
            | None => None
            end
          else if b <? 32 then None
          else
            let '(_, w, ok) := DecodeRune b (bytes r) in
            '(x, rest) ← read_string (pred w) r;
            Some ((if ok : bool then stake w s else rune_string RuneError) +:+ x, rest)
      end
  end.

(** *** Numbers *)

Definition is_digit (a : ascii) : bool := in_range 48 57 (byte_of a).
Fixpoint digit_run (s : string) : string * string :=
  match s with
  | String a r => if is_digit a then let '(x, y) := digit_run r in (String a x, y) else ("", s)
  | EmptyString => ("", "")
  end.

(** At least one digit. *)
Definition digits1 (s : string) : option (string * string) :=
  match digit_run s with
  | (EmptyString, _) => None
  | p => Some p
  end.

(** One byte [c] at the front, if it is there. *)
Definition take_byte (c : ascii) (s : string) : option string :=
  match s with String a r => if decide (a = c) then Some r else None | EmptyString => None end.

Definition int_part (s : string) : option (string * string) :=
  match take_byte "0" s with
  | Some r => Some ("0", r)
  | None => digits1 s
  end.
Definition frac_part (s : string) : option (string * string) :=
  match take_byte "." s with
  | Some r => '(x, y) ← digits1 r; Some ("." +:+ x, y)
  | None => Some ("", s)
  end.
Definition exp_digits (e : ascii) (r : string) : option (string * string) :=
  match take_byte "+" r, take_byte "-" r with
  | Some r', _ => '(x, y) ← digits1 r'; Some (String e (String "+" x), y)
  | None, Some r' => '(x, y) ← digits1 r'; Some (String e (String "-" x), y)
  | None, None => '(x, y) ← digits1 r; Some (String e x, y)
  end.
Definition exp_part (s : string) : option (string * string) :=
  match take_byte "e" s, take_byte "E" s with
  | Some r, _ => exp_digits "e" r
  | None, Some r => exp_digits "E" r
  | None, None => Some ("", s)
  end.
Definition read_number (s : string) : option (string * string) :=
  let '(sign, s) := match take_byte "-" s with Some r => ("-", r) | None => ("", s) end in
  '(i, s) ← int_part s; '(f, s) ← frac_part s; '(e, s) ← exp_part s;
  Some (sign +:+ i +:+ f +:+ e, s).

(** A scalar at the front of [s]. *)
Definition read_scalar (s : string) : jerror + (token * string) :=
  match s with
  | EmptyString => inl JEOF
  | String a r =>
      if byte_of a =? 34 then
        match read_string 0 r with Some (x, rest) => inr (TString x, rest) | None => inl (JSyntax s) end
      else if has_prefix "true" s then inr (TBool true, sdrop 4 s)
      else if has_prefix "false" s then inr (TBool false, sdrop 5 s)
      else if has_prefix "null" s then inr (TNull, sdrop 4 s)
      else match read_number s with Some (x, rest) => inr (TNumber x, rest) | None => inl (JSyntax s) end
  end.

(** *** Token and More *)

Definition peek (d : Decoder) : string := skip_space (input d).

(** A colon or a comma that may stand here is passed over. *)
Definition elide (d : Decoder) : Decoder :=
  match take_byte ":" (peek d), take_byte "," (peek d) with
  | Some r, _ => if decide (state d = ObjectColon) then mkDecoder r ObjectValue (stack d) else d
  | None, Some r =>
      if decide (state d = ArrayComma) then mkDecoder r ArrayValue (stack d)
      else if decide (state d = ObjectComma) then mkDecoder r ObjectKey (stack d)
      else d
  | None, None => d
  end.

Definition open_delim (c : ascii) (r : string) (d : Decoder) : jerror + (token * Decoder) :=
  if value_allowed (state d)
  then inr (TDelim c, mkDecoder r (if decide (c = "["%char) then ArrayStart else ObjectStart) (state d :: stack d))
  else inl (JSyntax (peek d)).
Definition close_delim (c : ascii) (r : string) (a b : tstate) (d : Decoder) : jerror + (token * Decoder) :=
  if bool_decide (state d = a) || bool_decide (state d = b) then
    match stack d with
    | top :: rest => inr (TDelim c, mkDecoder r (value_end top) rest)
    | [] => inl (JSyntax (peek d))
    end
  else inl (JSyntax (peek d)).

Definition quote_byte : ascii := ascii_of_N 34.

Definition json_Token (d0 : Decoder) : jerror + (token * Decoder) :=
  let d := elide d0 in
  match peek d with
  | EmptyString => inl JEOF
  | String c r =>
      if decide (c = "["%char) then open_delim "[" r d
      else if decide (c = "{"%char) then open_delim "{" r d
      else if decide (c = "]"%char) then close_delim "]" r ArrayStart ArrayComma d
      else if decide (c = "}"%char) then close_delim "}" r ObjectStart ObjectComma d
      else
        let key := (bool_decide (state d = ObjectStart) || bool_decide (state d = ObjectKey)) && bool_decide (c = quote_byte) in
        if key || value_allowed (state d) then
          match read_scalar (String c r) with
          | inl e => inl e
          | inr (t, rest) => inr (t, mkDecoder rest (if key then ObjectColon else value_end (state d)) (stack d))
          end
        else inl (JSyntax (String c r))
  end.

Definition json_More (d : Decoder) : bool :=
  match peek d with
  | EmptyString => false
  | String c _ => negb (bool_decide (c = "]"%char) || bool_decide (c = "}"%char))
  end.

#[global] Instance Decoder_source : tokenSource Decoder := {| Token := json_Token; More := json_More |}.

(** ** Decoding *)

Definition maxJSONDepth : Z := 10000.
Definition MaxDepth : Z := maxJSONDepth.

Section decode.
Context `{Runtime} {D : Type} `{!tokenSource D}.

Definition decodeNumber (t : string) : jerror + value :=
  match Atoi t with
  | Some n => inr (VInt n)
  | None => match ParseFloat t with Some f => inr (VFloat f) | None => inl (JFloat t) end
  end.

(** [None] is the fuel's end; [decode_total] shows it is not reached.  The two
    loops are the bodies of the source's [for dec.More()]. *)
Fixpoint decodeValue (fuel : nat) (dec : D) (depth : Z) : option (jerror + (value * D)) :=
  match fuel with
  | O => None
  | S fuel =>
      match Token dec with
      | inl e => Some (inl e)
      | inr (TDelim c, dec) =>
          if maxJSONDepth <=? depth then Some (inl JDepth)
          else if decide (c = "{"%char) then decodeObject fuel dec depth NewMap
          else if decide (c = "["%char) then decodeArray fuel dec depth []
          else Some (inl (JUnexpected c))
      | inr (TNumber t, dec) =>
          Some (match decodeNumber t with inl e => inl e | inr v => inr (v, dec) end)
      | inr (TString s, dec) => Some (inr (VString s, dec))
      | inr (TBool b, dec) => Some (inr (VBool b, dec))
      | inr (TNull, dec) => Some (inr (VNull, dec))
      end
  end
with decodeObject (fuel : nat) (dec : D) (depth : Z) (m : Map) : option (jerror + (value * D)) :=
  match fuel with
  | O => None
  | S fuel =>
      if More dec then
        match Token dec with
        | inl e => Some (inl e)
        | inr (TString key, dec) =>
            match decodeValue fuel dec (depth + 1) with
            | Some (inr (v, dec)) =>
                if Has m (VString key) then Some (inl (JDuplicate key))
                else decodeObject fuel dec depth (MSet m (VString key) v)
            | r => r
            end
        | inr _ => Some (inl JKeyNotString)
        end
      else match Token dec with
           | inl e => Some (inl e)
           | inr (_, dec) => Some (inr (VMap m, dec))
           end
  end
with decodeArray (fuel : nat) (dec : D) (depth : Z) (out : list value) : option (jerror + (value * D)) :=
  match fuel with
  | O => None
  | S fuel =>
      if More dec then
        match decodeValue fuel dec (depth + 1) with
        | Some (inr (v, dec)) => decodeArray fuel dec depth (out ++ [v])
        | r => r
        end
      else match Token dec with
           | inl e => Some (inl e)
           | inr (_, dec) => Some (inr (VSeq out, dec))
           end
  end.
End decode.

Definition NewDecoder (b : string) : Decoder := mkDecoder b TopValue [].

Definition DecodeJSON `{Runtime} (b : string) : option (jerror + value) :=
  match decodeValue (2 * String.length b + 1) (NewDecoder b) 0 with
  | None => None
  | Some (inl e) => Some (inl e)
  | Some (inr (v, dec)) => Some (if More dec then inl JTrailing else inr v)
  end.

(** ** Encoding *)

(** encoding/json of a float: the shortest decimal, with an exponent below 1e-6
    and from 1e21 on, and no leading zero in the exponent; not a number and the
    infinities are refused. *)
Definition json_digits (ds : string) (dp : Z) : string :=
  let nd := Z.of_nat (String.length ds) in
  let x := dp - 1 in
  if (x <? -6) || (21 <=? x) then
    stake 1 ds +:+ (if nd <=? 1 then "" else "." +:+ sdrop 1 ds) +:+ "e" +:+ (if x <? 0 then "-" else "+") +:+ pretty (Z.abs x)
  else if dp <=? 0 then "0." +:+ zeros (Z.to_nat (- dp)) +:+ ds
  else if nd <=? dp then ds +:+ zeros (Z.to_nat (dp - nd))
  else stake (Z.to_nat dp) ds +:+ "." +:+ sdrop (Z.to_nat dp) ds.
Definition json_float (f : spec_float) : option string :=
  match f with
  | S754_zero s => Some (if s then "-0" else "0")
  | S754_infinity _ | S754_nan => None
  | S754_finite s mp e =>
      let m := Z.pos mp in
      let '(n, d) := scale2 m e in
      let '(c, k) := shortest_go 16 m e n d (dec_point n d) 1 in
      let '(c, k) := strip_zeros 20 c k in
      let ds := pretty c in
      Some ((if s : bool then "-" else "") +:+ json_digits ds (k + Z.of_nat (String.length ds)))
  end.

(** encoding/base64, the standard alphabet with padding. *)
Definition base64_char (z : Z) : string :=
  stake 1 (sdrop (Z.to_nat z) "ABCDEFGHIJKLMNOPQRSTUVWXYZabcdefghijklmnopqrstuvwxyz0123456789+/").
Fixpoint base64 (l : list Z) : string :=
  match l with
  | a :: b :: c :: r =>
      base64_char (a / 4) +:+ base64_char (a mod 4 * 16 + b / 16) +:+
      base64_char (b mod 16 * 4 + c / 64) +:+ base64_char (c mod 64) +:+ base64 r
  | [a; b] => base64_char (a / 4) +:+ base64_char (a mod 4 * 16 + b / 16) +:+ base64_char (b mod 16 * 4) +:+ "="
  | [a] => base64_char (a / 4) +:+ base64_char (a mod 4 * 16) +:+ "=="
  | [] => ""
  end.

Definition Quote_ (s : string) : string := String quote_byte (s +:+ String quote_byte "").

(** The body of a JSON string, HTML not escaped.  U+2028 and U+2029 are escaped
    all the same, and an invalid byte is the replacement rune. *)
Fixpoint json_quote (skip : nat) (s : string) : string :=
  match s with
  | EmptyString => ""
  | String a r =>
      match skip with
      | S k => json_quote k r
      | O =>
          let b := byte_of a in
          if b <? 128 then
            (if (b =? 34) || (b =? 92) then String "\" (String a "")
             else if b =? 8 then "\b" else if b =? 12 then "\f" else if b =? 10 then "\n"
             else if b =? 13 then "\r" else if b =? 9 then "\t"
             else if b <? 32 then "\u00" +:+ hex_go 2 b
             else String a "") +:+ json_quote 0 r
          else
            let '(c, w, ok) := DecodeRune b (bytes r) in
            (if negb ok then "\ufffd"
             else if (c =? 8232) || (c =? 8233) then "\u202" +:+ hex_digit (c mod 16)
             else stake w s) +:+ json_quote (pred w) r
      end
  end.
Definition writeJSONString (s : string) : string := Quote_ (json_quote 0 s).

(** What the standard encoder writes for a value that is no mapping, sequence or
    string; [None] is its error. *)
Definition encode_scalar (v : value) : option string :=
  match v with
  | VNull => Some "null"
  | VBool b => Some (FormatBool b)
  | VInt z | VGoInt z | VGoDuration z => Some (FormatInt z)
  | VFloat f => json_float f
  | VBinary b => Some (Quote_ (base64 (bytes b)))
  | VTimestamp t =>
      let y := (civil (days_of (secs_of t))).1.1 in
      if in_range 0 9999 y then Some (Quote_ (Format_RFC3339Nano t)) else None
  | _ => None
  end.

Definition spaces (n : nat) : string := string_of_list_ascii (replicate n " "%char).

Section encode.
Context `{Runtime} (indent : nat) (spaced : bool).

Definition pad (n : nat) : string :=
  if (0 <? indent)%nat then String (ascii_of_nat 10) (spaces (indent * n)) else "".
(** What stands between two items, and behind a key. *)
Definition item_sep : string := "," +:+ (if spaced && (indent =? 0)%nat then " " else "").
Definition key_sep : string := ":" +:+ (if (0 <? indent)%nat || spaced then " " else "").

(** The items of a container, each on its own line where there is an indent. *)
Definition write_items (depth : nat) (opening closing : string) (items : list (option string)) : option string :=
  parts ← mapM id items;
  Some (match parts with
        | [] => opening +:+ closing
        | _ => opening +:+ Join ((λ p, pad (S depth) +:+ p) <$> parts) item_sep +:+ pad depth +:+ closing
        end).

Fixpoint writeJSON (depth : nat) (v : value) : option string :=
  match v with
  | VMap m =>
      write_items depth "{" "}"
        (map (λ e, t ← writeJSON (S depth) (Val e); Some (writeJSONString (KeyString (Key e)) +:+ key_sep +:+ t)) (entries m))
  | VNilMap => Some "{}"
  | VSeq l => write_items depth "[" "]" (map (writeJSON (S depth)) l)
  | VString s => Some (writeJSONString s)
  | _ => encode_scalar v
  end.
End encode.

Definition EncodeJSONSpaced `{Runtime} (v : value) (indent : nat) (spaced : bool) : option string :=
  writeJSON indent spaced 0 v.
Definition EncodeJSON `{Runtime} (v : value) (indent : nat) : option string := EncodeJSONSpaced v indent false.
Definition MarshalJSON `{Runtime} (m : Map) : option string := EncodeJSON (VMap m) 0.

(** FromJSON on the values of the model. *)
Fixpoint FromJSON `{Runtime} (v : value) : value :=
  match v with
  | VMap m =>
      VMap (foldl (λ acc e, SetAt acc e.1.1 e.1.2 e.2.1 e.2.2) NewMap
        (map (λ e, ((Key e, FromJSON (Val e)), (KeyPos e, ValPos e))) (entries m)))
  | VNilMap => VMap NewMap
  | VSeq l => VSeq (map FromJSON l)
  | _ => v
  end.
