(* ===== verification/JsonText.v ===== *)
(** * JSON scalars read back

    The strings and numbers [Json.v] writes are read back by its token stream as
    the same strings and numbers, whatever follows them. *)

From S2P Require Import Prelude GoLib GoTime Value Job Json.

Open Scope Z_scope.

(** ** Strings *)

Lemma read_string_skip n s : read_string n s = read_string 0 (sdrop n s).
Proof. revert s. induction n as [|n IH]; intros [|a s]; try done. apply IH. Qed.
Lemma json_quote_skip n s : json_quote n s = json_quote 0 (sdrop n s).
Proof. revert s. induction n as [|n IH]; intros [|a s]; try done. apply IH. Qed.

Lemma ValidString_sdrop a s r w ok :
  ValidString (String a s) = true → DecodeRune (byte_of a) (bytes s) = (r, w, ok) →
  ok = true ∧ ValidString (sdrop (pred w) s) = true.
Proof.
  intros Hv E. unfold ValidString in *. change (bytes (String a s)) with (byte_of a :: bytes s) in Hv.
  cbn [decode_go] in Hv. rewrite E in Hv. rewrite decode_go_skip, <- bytes_sdrop in Hv. simpl in Hv.
  by apply andb_true_iff in Hv.
Qed.

Lemma rune_string_stake a s c w :
  DecodeRune (byte_of a) (bytes s) = (c, w, true) → (1 ≤ w)%nat ∧ rune_string c = stake w (String a s).
Proof.
  intros [Hw HE]%DecodeRune_Encode. split; [done|]. unfold rune_string. rewrite <- HE.
  rewrite <- (string_of_bytes_bytes (stake w (String a s))). f_equal. rewrite bytes_stake.
  change (bytes (String a s)) with (byte_of a :: bytes s). destruct w as [|w]; [lia|]. done.
Qed.

(** [piece] stands for [out], wherever it is in a string. *)
Definition stands_for (piece out : string) : Prop :=
  ∀ t, read_string 0 (piece +:+ t) = ('(x, rest) ← read_string 0 t; Some (out +:+ x, rest)).

Definition low_piece (a : ascii) : string :=
  let b := byte_of a in
  if (b =? 34) || (b =? 92) then String "\" (String a "")
  else if b =? 8 then "\b" else if b =? 12 then "\f" else if b =? 10 then "\n"
  else if b =? 13 then "\r" else if b =? 9 then "\t"
  else if b <? 32 then "\u00" +:+ hex_go 2 b
  else String a "".

Lemma low_stands a : byte_of a < 128 → stands_for (low_piece a) (String a "").
Proof.
  intros Ha t. destruct a as [[] [] [] [] [] [] [] []]; try (by vm_compute in Ha);
    cbv -[read_string String.append mbind option_bind]; cbn [read_string String.append];
    rewrite ?string_app_cons, ?string_nil_app; cbn [read_string]; try reflexivity.
Qed.

Lemma cont_length lo hi l x r : cont lo hi l = Some (x, r) → length l = S (length r).
Proof. destruct l as [|b l]; simpl; [done|]. destruct (in_range lo hi b); [|done]. by intros [= _ <-]. Qed.

Lemma DecodeRune_width b l c w : DecodeRune b l = (c, w, true) → (pred w ≤ length l)%nat.
Proof.
  unfold DecodeRune. repeat (match goal with |- context [if ?x then _ else _] => destruct x end; try done);
    try (by intros [= _ <-]; simpl; lia).
  all: repeat (match goal with |- context [match cont ?lo ?hi ?l with _ => _ end = _] => destruct (cont lo hi l) as [[? ?]|] eqn:?; [|done] end).
  all: intros [= _ <-]; repeat match goal with H : cont _ _ _ = Some _ |- _ => apply cont_length in H end; simpl; lia.
Qed.

Lemma stake_cut n s t : (n ≤ String.length s)%nat → sdrop n (stake n s +:+ t) = t ∧ stake n (stake n s +:+ t) = stake n s.
Proof.
  revert s. induction n as [|n IH]; intros s Hn; [by destruct s, t|]. destruct s as [|a s]; simpl in Hn; [lia|].
  destruct (IH s) as [H1 H2]; [lia|]. cbn [stake]. rewrite string_app_cons. cbn [sdrop stake]. by rewrite H1, H2.
Qed.

Lemma high_stands a s c w :
  128 ≤ byte_of a → DecodeRune (byte_of a) (bytes s) = (c, w, true) → stands_for (stake w (String a s)) (stake w (String a s)).
Proof.
  intros Ha E t. pose proof (DecodeRune_width _ _ _ _ E) as Hw. destruct (rune_string_stake _ _ _ _ E) as [Hw1 _].
  destruct w as [|w]; [lia|]. cbn [stake pred] in *. rewrite length_bytes in Hw. rewrite string_app_cons. cbn [read_string].
  rewrite (proj2 (Z.eqb_neq (byte_of a) 34)), (proj2 (Z.eqb_neq (byte_of a) 92)), (proj2 (Z.ltb_ge (byte_of a) 32)) by lia.
  rewrite bytes_app, bytes_stake. pose proof (proj2 (DecodeRune_prefix _ _ _ _ E) (bytes t)) as E'. cbn [pred] in E'. rewrite E'.
  cbn [pred]. rewrite read_string_skip. destruct (stake_cut w s t Hw) as [H1 H2]. rewrite H1. cbn [stake]. rewrite H2.
  destruct (read_string 0 t) as [[x rest]|]; done.
Qed.

Lemma line_sep_stands c : (c =? 8232) || (c =? 8233) = true → stands_for ("\u202" +:+ hex_digit (c mod 16)) (rune_string c).
Proof. intros [->%Z.eqb_eq| ->%Z.eqb_eq]%orb_true_iff t; done. Qed.

Lemma byte_of_range a : 0 ≤ byte_of a < 256.
Proof. unfold byte_of. pose proof (N_ascii_bounded a). lia. Qed.

(** A string of valid UTF-8 is read back from what the encoder writes for
    it, whatever is behind it. *)
Lemma quoted_string_reads_back s rest :
  ValidString s = true → read_string 0 (json_quote 0 s +:+ String quote_byte rest) = Some (s, rest).
Proof.
  remember (String.length s) as n eqn:Hn. revert s Hn. induction (lt_wf n) as [n _ IH]. intros s -> Hv.
  destruct s as [|a s]; [done|]. cbn [json_quote]. destruct (Z.ltb_spec (byte_of a) 128) as [Ha|Ha].
  - fold (low_piece a). rewrite string_app_assoc, (low_stands a Ha).
    destruct (ValidString_sdrop a s (byte_of a) 1 true Hv) as [_ Hv'].
    { unfold DecodeRune. by rewrite (proj2 (Z.ltb_lt _ _) Ha). }
    rewrite (IH (String.length s)); [done|simpl; lia|done|]. by destruct s.
  - destruct (DecodeRune (byte_of a) (bytes s)) as [[c w] ok] eqn:E.
    destruct (ValidString_sdrop a s c w ok Hv E) as [-> Hv']. destruct (rune_string_stake _ _ _ _ E) as [Hw Hr].
    assert (String a s = stake w (String a s) +:+ sdrop (pred w) s) as Hs.
    { destruct w as [|w]; [lia|]. cbn [stake pred]. rewrite string_app_cons. f_equal. symmetry. apply stake_sdrop. }
    cbn [negb]. rewrite string_app_assoc, json_quote_skip.
    assert (stands_for (if (c =? 8232) || (c =? 8233) then "\u202" +:+ hex_digit (c mod 16) else stake w (String a s)) (stake w (String a s))) as Hst.
    { destruct ((c =? 8232) || (c =? 8233)) eqn:Ec; [rewrite <- Hr; by apply line_sep_stands|by eapply high_stands]. }
    rewrite Hst, (IH (String.length (sdrop (pred w) s))); [|pose proof (DecodeRune_width _ _ _ _ E)|done|done].
    + cbn. by rewrite <- Hs.
    + clear. assert (∀ k t, String.length (sdrop k t) ≤ String.length t)%nat as Hl.
      { intros k t. revert k. induction t as [|b t IH]; intros [|k]; simpl; try lia. specialize (IH k). lia. }
      specialize (Hl (pred w) s). simpl. lia.
Qed.

(** ** Numbers *)

(** No byte that could go on with a number is at the front. *)
Definition stops (s : string) : Prop :=
  match s with
  | EmptyString => True
  | String a _ => is_digit a = false ∧ a ∉ ["."; "e"; "E"]%char
  end.

Lemma take_byte_other c s : (∀ r, s ≠ String c r) → take_byte c s = None.
Proof. destruct s as [|a s]; [done|]. intros Hs. cbn [take_byte]. case_decide; [|done]. subst. by destruct (Hs s). Qed.

Lemma digit_c_is a : digit_c a → is_digit a = true.
Proof. unfold digit_c, digit_of, is_digit. destruct (in_range _ _ _); [done|]. by intros [? ?]. Qed.

Lemma digit_run_app x rest : sall digit_c x → stops rest → digit_run (x +:+ rest) = (x, rest).
Proof.
  intros Hx Hr. induction x as [|a x IH].
  - rewrite string_nil_app. destruct rest as [|b rest]; [done|]. destruct Hr as [Hb _]. cbn [digit_run]. by rewrite Hb.
  - destruct Hx as [Ha Hx]. rewrite string_app_cons. cbn [digit_run]. by rewrite (digit_c_is _ Ha), (IH Hx).
Qed.

(** The digits of a non-negative number, behind an optional sign. *)
Lemma nat_parts x rest :
  sall digit_c x → (x = "0" ∨ ∃ c t, x = String c t ∧ c ≠ "0"%char) → stops rest →
  int_part (x +:+ rest) = Some (x, rest) ∧ frac_part rest = Some ("", rest) ∧ exp_part rest = Some ("", rest).
Proof.
  intros Hx Hf Hr.
  assert (∀ c, c ∈ ["."; "e"; "E"]%char → take_byte c rest = None) as Hno.
  { intros c Hc. apply take_byte_other. intros r ->. destruct Hr as [_ Hr]. done. }
  split; [|unfold frac_part, exp_part; rewrite !Hno by set_solver; done].
  unfold int_part. destruct Hf as [->|(c & t & -> & Hc)]; [done|].
  rewrite take_byte_other by (intros r; rewrite string_app_cons; congruence).
  unfold digits1. by rewrite digit_run_app.
Qed.

Lemma FormatInt_cases z :
  ∃ x, FormatInt z = (if z <? 0 then "-" else "") +:+ x ∧ sall digit_c x ∧ (x = "0" ∨ ∃ c t, x = String c t ∧ c ≠ "0"%char) ∧
       digits_go 0 x = Some (Z.abs z).
Proof.
  unfold FormatInt. destruct z as [|p|p].
  - exists "0". split_and!; try done; [|by left]. split; [by eexists|done].
  - destruct (pretty_pos p) as (c & t & E & Hc & Ht & Hv). exists (pretty (Zpos p)). rewrite E in *. split_and!; try done; eauto.
  - destruct (pretty_pos p) as (c & t & E & Hc & Ht & Hv). exists (pretty (Zpos p)). rewrite E. split_and!; try done; eauto.
    change (Zneg p <? 0) with true. cbn [Z.abs]. rewrite <- E. done.
Qed.

Lemma number_reads_back z rest :
  minInt64 ≤ z ≤ maxInt64 → stops rest →
  read_number (FormatInt z +:+ rest) = Some (FormatInt z, rest) ∧ Atoi (FormatInt z) = Some z.
Proof.
  intros Hz Hr. destruct (FormatInt_cases z) as (x & -> & Hx & Hf & Hv).
  destruct (nat_parts x rest Hx Hf Hr) as (Hi & Hfr & He).
  assert (x ≠ "") as Hne by (by destruct Hf as [->|(? & ? & -> & _)]). split.
  - unfold read_number. destruct (Z.ltb_spec z 0).
    + rewrite string_app_assoc. change ("-" +:+ ?t) with (String "-" t). cbn [take_byte]. rewrite decide_True by done.
      rewrite Hi. cbn [mbind option_bind]. rewrite Hfr. cbn [mbind option_bind]. rewrite He. cbn [mbind option_bind].
      by rewrite !string_app_nil_r.
    + rewrite string_nil_app, take_byte_other.
      * rewrite Hi. cbn [mbind option_bind]. rewrite Hfr. cbn [mbind option_bind]. rewrite He. cbn [mbind option_bind].
        by rewrite !string_app_nil_r.
      * intros r E. destruct x as [|c x]; [done|]. rewrite string_app_cons in E. injection E as -> _.
        destruct Hx as [[d Hd] _]. by vm_compute in Hd.
  - destruct (Z.ltb_spec z 0).
    + change ("-" +:+ x) with (String "-" x). unfold Atoi. destruct x as [|c x]; [done|]. rewrite Hv. cbn [mbind option_bind].
      rewrite Z.abs_neq by lia. rewrite Z.opp_involutive. unfold in_range.
      by rewrite (proj2 (Z.leb_le minInt64 z)), (proj2 (Z.leb_le z maxInt64)) by lia.
    + rewrite string_nil_app. rewrite Z.abs_eq in Hv by lia. apply Atoi_digits; try done. lia.
Qed.
