(* ===== verification/JsonRound.v ===== *)
(** * JSON documents: decoding ends, and reads back what was encoded

    [decodeValue] (Json.v) is followed against the interface it uses: any token
    source whose tokens use up input gives a decoder that ends.  On the text
    source, every document [EncodeJSONSpaced] writes for a value of null, bools,
    integers, strings, sequences and mappings, in any layout, decodes to that
    value. *)

From S2P Require Import Prelude GoLib GoTime Value Job Json JsonText.

Open Scope Z_scope.

(** ** Decoding ends *)

(** A source that ends: every token uses some of what is left. *)
Class finiteSource (D : Type) `{!tokenSource D} := {
  left_over : D → nat;
  Token_uses d t d' : Token d = inr (t, d') → (left_over d' < left_over d)%nat;
}.

Section total.
Context `{Runtime} {D : Type} `{!tokenSource D} `{!finiteSource D}.

(** The bodies of the three loops. *)
Lemma decodeValue_S fuel (dec : D) depth :
  decodeValue (S fuel) dec depth =
  match Token dec with
  | inl e => Some (inl e)
  | inr (TDelim c, dec) =>
      if maxJSONDepth <=? depth then Some (inl JDepth)
      else if decide (c = "{"%char) then decodeObject fuel dec depth NewMap
      else if decide (c = "["%char) then decodeArray fuel dec depth []
      else Some (inl (JUnexpected c))
  | inr (TNumber t, dec) => Some (match decodeNumber t with inl e => inl e | inr v => inr (v, dec) end)
  | inr (TString s, dec) => Some (inr (VString s, dec))
  | inr (TBool b, dec) => Some (inr (VBool b, dec))
  | inr (TNull, dec) => Some (inr (VNull, dec))
  end.
Proof. done. Qed.
Lemma decodeObject_S fuel (dec : D) depth m :
  decodeObject (S fuel) dec depth m =
  if More dec then
    match Token dec with
    | inl e => Some (inl e)
    | inr (TString key, dec) =>
        match decodeValue fuel dec (depth + 1) with
        | Some (inr (v, dec)) =>
            if Has m (VString key) then Some (inl (JDuplicate key))
            else decodeObject fuel dec depth (MSet m (VString key) v)
        | r => r
        end
    | inr _ => Some (inl JKeyNotString)
    end
  else match Token dec with inl e => Some (inl e) | inr (_, dec) => Some (inr (VMap m, dec)) end.
Proof. done. Qed.
Lemma decodeArray_S fuel (dec : D) depth out :
  decodeArray (S fuel) dec depth out =
  if More dec then
    match decodeValue fuel dec (depth + 1) with
    | Some (inr (v, dec)) => decodeArray fuel dec depth (out ++ [v])
    | r => r
    end
  else match Token dec with inl e => Some (inl e) | inr (_, dec) => Some (inr (VSeq out, dec)) end.
Proof. done. Qed.

Definition ends (n : nat) (r : option (jerror + (value * D))) : Prop :=
  match r with Some (inr (_, d)) => (left_over d < n)%nat | Some (inl _) => True | None => False end.

Lemma decode_ends fuel :
  (∀ d depth, (2 * left_over d + 1 ≤ fuel)%nat → ends (left_over d) (decodeValue fuel d depth)) ∧
  (∀ d depth m, (2 * left_over d + 2 ≤ fuel)%nat → ends (left_over d) (decodeObject fuel d depth m)) ∧
  (∀ d depth l, (2 * left_over d + 2 ≤ fuel)%nat → ends (left_over d) (decodeArray fuel d depth l)).
Proof.
  assert (Hw : ∀ n m r, ends n r → (n ≤ m)%nat → ends m r).
  { intros n m [[e|[v d]]|]; simpl; try done. lia. }
  induction fuel as [|fuel (IHv & IHo & IHa)]; [split_and!; intros; lia|]. split_and!.
  - intros d depth Hf. rewrite decodeValue_S. destruct (Token d) as [e|[t d']] eqn:E; [done|]. apply Token_uses in E.
    destruct t; try done.
    + destruct (_ <=? _); [done|]. case_decide; [|case_decide; [|done]].
      * eapply Hw; [apply IHo; lia|lia].
      * eapply Hw; [apply IHa; lia|lia].
    + by destruct (decodeNumber _).
  - intros d depth m Hf. rewrite decodeObject_S. destruct (More d).
    + destruct (Token d) as [e|[t d']] eqn:E; [done|]. apply Token_uses in E. destruct t as [?|key|?|?|]; try done.
      pose proof (IHv d' (depth + 1) ltac:(lia)) as Hv. destruct (decodeValue fuel d' (depth + 1)) as [[?|[v d'']]|]; try done.
      destruct (Has _ _); [done|]. simpl in Hv. eapply Hw; [apply IHo; lia|lia].
    + destruct (Token d) as [e|[t d']] eqn:E; [done|]. by apply Token_uses in E.
  - intros d depth l Hf. rewrite decodeArray_S. destruct (More d).
    + pose proof (IHv d (depth + 1) ltac:(lia)) as Hv. destruct (decodeValue fuel d (depth + 1)) as [[?|[v d'']]|]; try done.
      simpl in Hv. eapply Hw; [apply IHa; lia|lia].
    + destruct (Token d) as [e|[t d']] eqn:E; [done|]. by apply Token_uses in E.
Qed.

(** More fuel changes no answer. *)
Lemma decode_more fuel :
  (∀ d depth r, decodeValue fuel d depth = Some r → decodeValue (S fuel) d depth = Some r) ∧
  (∀ d depth m r, decodeObject fuel d depth m = Some r → decodeObject (S fuel) d depth m = Some r) ∧
  (∀ d depth l r, decodeArray fuel d depth l = Some r → decodeArray (S fuel) d depth l = Some r).
Proof.
  induction fuel as [|fuel (IHv & IHo & IHa)]; [done|]. split_and!.
  - intros d depth r Hr. rewrite decodeValue_S. rewrite decodeValue_S in Hr.
    destruct (Token d) as [e|[t d']]; [done|]. destruct t; try done.
    destruct (_ <=? _); [done|]. case_decide; [by apply IHo|]. case_decide; [by apply IHa|done].
  - intros d depth m r Hr. rewrite decodeObject_S. rewrite decodeObject_S in Hr.
    destruct (More d); [|done]. destruct (Token d) as [e|[t d']]; [done|]. destruct t as [?|key|?|?|]; try done.
    destruct (decodeValue fuel d' (depth + 1)) as [x|] eqn:E; [|done]. rewrite (IHv _ _ _ E).
    destruct x as [?|[v d'']]; [done|]. destruct (Has _ _); [done|]. by apply IHo.
  - intros d depth l r Hr. rewrite decodeArray_S. rewrite decodeArray_S in Hr.
    destruct (More d); [|done]. destruct (decodeValue fuel d (depth + 1)) as [x|] eqn:E; [|done]. rewrite (IHv _ _ _ E).
    destruct x as [?|[v d'']]; [done|]. by apply IHa.
Qed.

Lemma decodeValue_fuel n m d depth r : (n ≤ m)%nat → decodeValue n d depth = Some r → decodeValue m d depth = Some r.
Proof. induction 1 as [|m _ IH]; [done|]. intros Hr. by apply (decode_more m), IH. Qed.
End total.

(** ** The text source *)

Lemma skip_space_le s : (String.length (skip_space s) ≤ String.length s)%nat.
Proof. induction s as [|a s IH]; simpl; [lia|]. destruct (json_space a); simpl; lia. Qed.

Lemma read_string_uses n s x rest : read_string n s = Some (x, rest) → (String.length rest < String.length s)%nat.
Proof.
  revert n x rest. induction s as [|a s IH]; intros n x rest; [done|]. destruct n as [|n]; cbn [read_string].
  2: { intros Hr%IH. simpl. lia. }
  destruct (_ =? 34); [intros [= _ <-]; simpl; lia|]. destruct (_ =? 92).
  - destruct (json_escape s) as [[out k]|]; [|done]. destruct (read_string k s) as [[y z]|] eqn:E; [|done].
    intros [= _ <-]. apply IH in E. simpl. lia.
  - destruct (_ <? 32); [done|]. destruct (DecodeRune _ _) as [[c w] ok].
    destruct (read_string (pred w) s) as [[y z]|] eqn:E; [|done]. intros [= _ <-]. apply IH in E. simpl. lia.
Qed.

Lemma digit_run_split s x y : digit_run s = (x, y) → s = x +:+ y.
Proof.
  revert x y. induction s as [|a s IH]; intros x y; cbn [digit_run]; [by intros [= <- <-]|].
  destruct (is_digit a); [|by intros [= <- <-]]. destruct (digit_run s) as [x' y']. intros [= <- <-].
  rewrite string_app_cons. by rewrite (IH _ _ eq_refl).
Qed.
Lemma take_byte_split c s r : take_byte c s = Some r → s = String c r.
Proof. destruct s as [|a s]; [done|]. cbn [take_byte]. case_decide; [|done]. by intros [= <-]; subst. Qed.

Lemma digits1_split s x y : digits1 s = Some (x, y) → s = x +:+ y ∧ x ≠ "".
Proof.
  unfold digits1. destruct (digit_run s) as [x' y'] eqn:E. apply digit_run_split in E. destruct x' as [|c x']; [done|].
  by intros [= <- <-].
Qed.

(** Take the parts of a number apart. *)
Ltac split_parts :=
  repeat match goal with
  | H : (match take_byte ?c ?s with _ => _ end) = _ |- _ => destruct (take_byte c s) eqn:?
  | H : (_ ≫= _) = Some _ |- _ => apply bind_Some in H as ([? ?] & ? & ?)
  | H : take_byte _ _ = Some _ |- _ => apply take_byte_split in H as ->
  | H : digits1 _ = Some _ |- _ => apply digits1_split in H as [-> ?]
  | H : Some _ = Some _ |- _ => injection H as <- <-
  end.

Lemma read_number_split s x rest : read_number s = Some (x, rest) → s = x +:+ rest ∧ x ≠ "".
Proof.
  assert (Hi : ∀ s x y, int_part s = Some (x, y) → s = x +:+ y ∧ x ≠ "") by (intros ??? Hp; unfold int_part in Hp; by split_parts).
  assert (Hf : ∀ s x y, frac_part s = Some (x, y) → s = x +:+ y) by (intros ??? Hp; unfold frac_part in Hp; by split_parts).
  assert (He : ∀ s x y, exp_part s = Some (x, y) → s = x +:+ y) by (intros ??? Hp; unfold exp_part, exp_digits in Hp; by split_parts).
  unfold read_number. destruct (match take_byte "-" s with Some r => ("-", r) | None => ("", s) end) as [sign s1] eqn:E1.
  assert (s = sign +:+ s1) as -> by (destruct (take_byte "-" s) eqn:Eb; injection E1 as <- <-; [by apply take_byte_split in Eb|done]).
  intros ([i s2] & [-> Hne]%Hi & ([f s3] & ->%Hf & ([e s4] & ->%He & [= <- <-])%bind_Some)%bind_Some)%bind_Some.
  rewrite !string_app_assoc. split; [done|]. by destruct sign, i.
Qed.

Lemma sdrop_S_lt n a s : (String.length (sdrop (S n) (String a s)) < String.length (String a s))%nat.
Proof.
  cbn [sdrop]. revert n. induction s as [|b s IH]; intros [|n]; cbn [sdrop String.length]; try lia. specialize (IH n). cbn [String.length] in IH. lia.
Qed.

Lemma read_scalar_uses s t rest : read_scalar s = inr (t, rest) → (String.length rest < String.length s)%nat.
Proof.
  unfold read_scalar. destruct s as [|a s]; [done|]. destruct (_ =? 34).
  - destruct (read_string 0 s) as [[x r]|] eqn:E; [|done]. intros [= _ <-]. apply read_string_uses in E. simpl. lia.
  - destruct (has_prefix "true" _); [intros [= _ <-]; exact (sdrop_S_lt 3 a s)|].
    destruct (has_prefix "false" _); [intros [= _ <-]; exact (sdrop_S_lt 4 a s)|].
    destruct (has_prefix "null" _); [intros [= _ <-]; exact (sdrop_S_lt 3 a s)|].
    destruct (read_number _) as [[x r]|] eqn:E; [|done]. intros [= _ <-]. apply read_number_split in E as [-> Hx].
    rewrite length_app_string. destruct x; [done|]. simpl. lia.
Qed.

Lemma elide_le d : (String.length (input (elide d)) ≤ String.length (input d))%nat.
Proof.
  pose proof (skip_space_le (input d)) as Hs. unfold elide. fold (peek d) in Hs.
  destruct (take_byte ":" (peek d)) eqn:E1; [|destruct (take_byte "," (peek d)) eqn:E2]; repeat case_decide; cbn [input]; try lia;
    match goal with E : take_byte _ _ = Some _ |- _ => apply take_byte_split in E; rewrite E in Hs; simpl in Hs; lia end.
Qed.

Lemma Token_shorter d t d' : json_Token d = inr (t, d') → (String.length (input d') < String.length (input d))%nat.
Proof.
  intros HT. unfold json_Token in HT. pose proof (elide_le d) as H1. pose proof (skip_space_le (input (elide d))) as H2.
  fold (peek (elide d)) in H2. destruct (peek (elide d)) as [|c r]; [done|]. cbn [String.length] in H2.
  unfold open_delim, close_delim in HT.
  repeat (case_decide; [by repeat case_match; simplify_eq; cbn [input]; lia|]).
  destruct (_ || value_allowed _); [|done]. destruct (read_scalar _) as [e|[t' rest]] eqn:E; [done|].
  apply read_scalar_uses in E. cbn [String.length] in E. injection HT as <- <-. cbn [input]. lia.
Qed.

#[global] Instance Decoder_finite : finiteSource Decoder :=
  {| left_over := λ d, String.length (input d); Token_uses := Token_shorter |}.

(** decoding ends with a value or an error, whatever the bytes: the fuel of
    the model is never used up. *)
Theorem decoding_ends `{Runtime} b : is_Some (DecodeJSON b).
Proof.
  unfold DecodeJSON. destruct (decode_ends (2 * String.length b + 1)) as [Hv _].
  specialize (Hv (NewDecoder b) 0 ltac:(cbn; lia)). destruct (decodeValue _ _ _) as [[e|[v d]]|]; [by eexists..|done].
Qed.

(** Only what is not a closing bracket is seen behind the document. *)
Example trailing_brackets_are_accepted `{Runtime} :
  DecodeJSON "{} x" = Some (inl JTrailing) ∧ DecodeJSON "[1]]" = DecodeJSON "[1]" ∧ DecodeJSON "true}}garbage" = DecodeJSON "true".
Proof. split_and!; vm_compute; reflexivity. Qed.

(** ** Reading back *)

(** The values JSON has, as the decoder builds them. *)
Fixpoint json_value `{Runtime} (v : value) : Prop :=
  match v with
  | VNull | VBool _ => True
  | VInt z => minInt64 ≤ z ≤ maxInt64
  | VString s => ValidString s = true
  | VSeq l => foldr (λ x P, json_value x ∧ P) True l
  | VMap m =>
      map_wf m ∧ mpos m = noPos ∧
      foldr (λ e P, (match Key e with VString k => ValidString k = true | _ => False end) ∧
                    KeyPos e = noPos ∧ ValPos e = noPos ∧ json_value (Val e) ∧ P) True (entries m)
  | _ => False
  end.

(** How deep the containers of a value are nested. *)
Fixpoint height (v : value) : Z :=
  match v with
  | VSeq l => 1 + foldr (λ x h, Z.max (height x) h) 0 l
  | VMap m => 1 + foldr (λ e h, Z.max (height (Val e)) h) 0 (entries m)
  | _ => 0
  end.

(** The bytes a value may begin with. *)
Definition starter (c : ascii) : bool :=
  negb (json_space c || bool_decide (c ∈ ["]"; "}"; ","; ":"]%char)).
Definition starts (s : string) : Prop := match s with String c _ => starter c = true | EmptyString => False end.

Section read_back.
Context `{Runtime} (indent : nat) (spaced : bool).
Abbreviation write := (writeJSON indent spaced).

Lemma skip_space_starts x s : sall (λ a, json_space a = true) x → starts s → skip_space (x +:+ s) = s.
Proof.
  intros Hx Hs. induction x as [|a x IH].
  - rewrite string_nil_app. destruct s as [|c s]; [done|]. cbn [skip_space]. simpl in Hs. unfold starter in Hs.
    by destruct (json_space c).
  - destruct Hx as [Ha Hx]. rewrite string_app_cons. cbn [skip_space]. rewrite Ha. by apply IH.
Qed.

Lemma pad_space n : sall (λ a, json_space a = true) (pad indent n).
Proof.
  unfold pad. destruct (0 <? indent)%nat; [|done]. split; [done|]. unfold spaces. generalize (indent * n)%nat.
  intros k. induction k as [|k IH]; [done|]. by split.
Qed.

Lemma writeJSONString_eq s t : writeJSONString s +:+ t = String quote_byte (json_quote 0 s +:+ String quote_byte t).
Proof. unfold writeJSONString, Quote_. rewrite string_app_cons, string_app_assoc. done. Qed.

Lemma digit_starter c t : digit_c c → starts (String c t).
Proof. intros [d Hd]. destruct c as [[] [] [] [] [] [] [] []]; vm_compute in Hd; first [discriminate|done]. Qed.

Lemma write_starts depth v t rest : json_value v → write depth v = Some t → starts (t +:+ rest).
Proof.
  destruct v as [|b|z|?|s|?|?|l|m| | |]; intros Hv Ht; try done; cbn [writeJSON encode_scalar] in Ht.
  - by injection Ht as <-.
  - injection Ht as <-. by destruct b.
  - injection Ht as <-. destruct (FormatInt_cases z) as (x & -> & Hx & Hf & _). rewrite string_app_assoc.
    destruct (z <? 0); [done|]. rewrite string_nil_app. destruct Hf as [->|(c & y & -> & _)]; [done|]. destruct Hx as [Hc _].
    rewrite string_app_cons. by apply digit_starter.
  - injection Ht as <-. by rewrite writeJSONString_eq.
  - unfold write_items in Ht. apply bind_Some in Ht as (ps & _ & [= <-]). by destruct ps.
  - unfold write_items in Ht. apply bind_Some in Ht as (ps & _ & [= <-]). by destruct ps.
Qed.

(** The decoder is about to read [s] as a value. *)
Record at_value (d : Decoder) (s : string) (st : tstate) (stk : list tstate) : Prop := {
  at_peek : peek (elide d) = s;
  at_state : state (elide d) = st;
  at_stack : stack (elide d) = stk;
  at_allowed : value_allowed st = true }.

Lemma starts_not s c : c ∈ ["]"; "}"; ","; ":"]%char → starts s → take_byte c s = None.
Proof.
  intros Hc Hs. apply take_byte_other. intros r ->. cbn [starts] in Hs. unfold starter in Hs.
  rewrite bool_decide_true, orb_true_r in Hs by done. done.
Qed.

Lemma elide_starts x s st stk :
  sall (λ a, json_space a = true) x → starts s → elide (mkDecoder (x +:+ s) st stk) = mkDecoder (x +:+ s) st stk.
Proof.
  intros Hx Hs. unfold elide, peek. cbn [input]. rewrite skip_space_starts by done.
  by rewrite !starts_not by (done || set_solver).
Qed.

Lemma at_start x s st stk :
  sall (λ a, json_space a = true) x → starts s → value_allowed st = true → at_value (mkDecoder (x +:+ s) st stk) s st stk.
Proof.
  intros Hx Hs Hst. pose proof (elide_starts x s st stk Hx Hs) as He. split; rewrite ?He; try done.
  unfold peek. cbn [input]. by apply skip_space_starts.
Qed.
Lemma at_comma x s stk :
  sall (λ a, json_space a = true) x → starts s → at_value (mkDecoder (String "," (x +:+ s)) ArrayComma stk) s ArrayValue stk.
Proof.
  intros Hx Hs. assert (elide (mkDecoder (String "," (x +:+ s)) ArrayComma stk) = mkDecoder (x +:+ s) ArrayValue stk) as He by done.
  split; rewrite ?He; try done. unfold peek. cbn [input]. by apply skip_space_starts.
Qed.
Lemma at_colon x s stk :
  sall (λ a, json_space a = true) x → starts s → at_value (mkDecoder (String ":" (x +:+ s)) ObjectColon stk) s ObjectValue stk.
Proof.
  intros Hx Hs. assert (elide (mkDecoder (String ":" (x +:+ s)) ObjectColon stk) = mkDecoder (x +:+ s) ObjectValue stk) as He by done.
  split; rewrite ?He; try done. unfold peek. cbn [input]. by apply skip_space_starts.
Qed.

Lemma More_starts x s st stk : sall (λ a, json_space a = true) x → starts s → More (mkDecoder (x +:+ s) st stk) = true.
Proof.
  intros Hx Hs. cbn. unfold json_More, peek. cbn [input]. rewrite skip_space_starts by done.
  destruct s as [|c r]; [done|]. cbn [starts] in Hs. unfold starter in Hs.
  rewrite !bool_decide_false; [done| |]; intros ->; by vm_compute in Hs.
Qed.

Lemma Token_scalar d c r st stk t rest :
  at_value d (String c r) st stk → c ∉ ["["; "{"; "]"; "}"]%char → read_scalar (String c r) = inr (t, rest) →
  Token d = inr (t, mkDecoder rest (value_end st) stk).
Proof.
  intros [Hp Hs Hk Ha] Hc Hr. cbn. unfold json_Token. rewrite Hp, Hs, Hk, Hr. rewrite !decide_False by set_solver.
  assert (bool_decide (st = ObjectStart) || bool_decide (st = ObjectKey) = false) as -> by (by destruct st).
  cbn [andb orb]. by rewrite Ha.
Qed.
Lemma Token_open d r st stk :
  (at_value d (String "[" r) st stk → Token d = inr (TDelim "[", mkDecoder r ArrayStart (st :: stk))) ∧
  (at_value d (String "{" r) st stk → Token d = inr (TDelim "{", mkDecoder r ObjectStart (st :: stk))).
Proof. split; intros [Hp Hs Hk Ha]; cbn; unfold json_Token, open_delim; by rewrite Hp, Hs, Hk, Ha. Qed.

(** A container closes where its items end. *)
Lemma More_close x c rest st stk :
  sall (λ a, json_space a = true) x → c = "]"%char ∨ c = "}"%char → More (mkDecoder (x +:+ String c rest) st stk) = false ∧
  peek (mkDecoder (x +:+ String c rest) st stk) = String c rest.
Proof.
  intros Hx Hc. assert (skip_space (x +:+ String c rest) = String c rest) as Hs.
  { induction x as [|a x IH]; [rewrite string_nil_app; by destruct Hc as [-> | ->]|]. destruct Hx as [Ha Hx].
    rewrite string_app_cons. cbn [skip_space]. rewrite Ha. by apply IH. }
  split; [|exact Hs]. cbn. unfold json_More, peek. cbn [input]. rewrite Hs. by destruct Hc as [-> | ->].
Qed.
Lemma Token_close x c rest st top stk :
  sall (λ a, json_space a = true) x →
  (c = "]"%char ∧ (st = ArrayStart ∨ st = ArrayComma)) ∨ (c = "}"%char ∧ (st = ObjectStart ∨ st = ObjectComma)) →
  Token (mkDecoder (x +:+ String c rest) st (top :: stk)) = inr (TDelim c, mkDecoder rest (value_end top) stk).
Proof.
  intros Hx Hc. assert (peek (mkDecoder (x +:+ String c rest) st (top :: stk)) = String c rest) as Hp
    by (apply More_close; [done|naive_solver]).
  assert (elide (mkDecoder (x +:+ String c rest) st (top :: stk)) = mkDecoder (x +:+ String c rest) st (top :: stk)) as He.
  { unfold elide. rewrite Hp. by destruct Hc as [[-> _]|[-> _]]. }
  cbn. unfold json_Token, close_delim. rewrite He, Hp. cbn [state stack].
  destruct Hc as [[-> [-> | ->]]|[-> [-> | ->]]]; done.
Qed.

(** ** Items *)

(** The text behind the first item: the others, each behind a separator. *)
Definition tail_text (depth : nat) (ps : list string) (k : string) : string :=
  foldr (λ p acc, item_sep indent spaced +:+ pad indent (S depth) +:+ p +:+ acc) k ps.

Lemma Join_tail depth p ps k :
  Join ((λ p, pad indent (S depth) +:+ p) <$> p :: ps) (item_sep indent spaced) +:+ k =
  pad indent (S depth) +:+ p +:+ tail_text depth ps k.
Proof.
  revert p. induction ps as [|q ps IH]; intros p; [simpl; by rewrite string_app_assoc|].
  rewrite !fmap_cons, Join_cons, !string_app_assoc. specialize (IH q). rewrite fmap_cons in IH. by rewrite IH.
Qed.

Lemma item_sep_eq : ∃ x, item_sep indent spaced = String "," x ∧ sall (λ a, json_space a = true) x.
Proof. unfold item_sep. destruct (spaced && _); eexists; (split; [reflexivity|repeat split]). Qed.
Lemma key_sep_eq : ∃ x, key_sep indent spaced = String ":" x ∧ sall (λ a, json_space a = true) x.
Proof. unfold key_sep. destruct (_ || spaced); eexists; (split; [reflexivity|repeat split]). Qed.

Lemma tail_stops depth ps c rest : c = "]"%char ∨ c = "}"%char → stops (tail_text depth ps (pad indent depth +:+ String c rest)).
Proof.
  intros Hc. destruct ps as [|p ps]; cbn [tail_text foldr].
  - unfold pad. destruct (0 <? indent)%nat; [split; [done|by apply (bool_decide_eq_false_1 _)]|].
    rewrite string_nil_app. destruct Hc as [-> | ->]; (split; [done|by apply (bool_decide_eq_false_1 _)]).
  - destruct item_sep_eq as (x & -> & _). rewrite string_app_cons. split; [done|by apply (bool_decide_eq_false_1 _)].
Qed.

(** ** Values *)

Definition reads (d : Decoder) (dz : Z) (v : value) (d' : Decoder) : Prop :=
  ∃ n, ∀ fuel, (n ≤ fuel)%nat → decodeValue fuel d dz = Some (inr (v, d')).

(** A value is read back wherever the decoder may read one. *)
Definition reads_back (v : value) : Prop :=
  ∀ depth t d rest st stk dz,
    json_value v → write depth v = Some t → stops rest → dz + height v ≤ maxJSONDepth →
    at_value d (t +:+ rest) st stk → reads d dz v (mkDecoder rest (value_end st) stk).

Lemma scalar_reads_back v c r t rest d st stk dz :
  at_value d (String c r) st stk → c ∉ ["["; "{"; "]"; "}"]%char → read_scalar (String c r) = inr (t, rest) →
  (match t with TDelim _ => False | TString x => v = VString x | TBool b => v = VBool b | TNull => v = VNull
   | TNumber x => decodeNumber x = inr v end) →
  reads d dz v (mkDecoder rest (value_end st) stk).
Proof.
  intros Hat Hc Hr Hv. exists 1%nat. intros [|fuel] Hf; [lia|]. rewrite decodeValue_S, (Token_scalar _ _ _ _ _ _ _ Hat Hc Hr).
  destruct t as [?|?|x|?|]; try done; subst; try done. by rewrite Hv.
Qed.

Lemma array_tail depth l ps st stk dz rest :
  Forall reads_back l → foldr (λ x P, json_value x ∧ P) True l → Forall2 (λ v p, write (S depth) v = Some p) l ps →
  Forall (λ v, dz + 1 + height v ≤ maxJSONDepth) l →
  ∀ out, ∃ n, ∀ fuel, (n ≤ fuel)%nat →
    decodeArray fuel (mkDecoder (tail_text depth ps (pad indent depth +:+ String "]" rest)) ArrayComma (st :: stk)) dz out =
    Some (inr (VSeq (out ++ l), mkDecoder rest (value_end st) stk)).
Proof.
  intros HI Hj HF. revert HI Hj. induction HF as [|v p l ps Hp HF IH]; intros HI Hj Hh out.
  - exists 1%nat. intros [|fuel] Hf; [lia|]. rewrite decodeArray_S. cbn [tail_text foldr].
    rewrite (proj1 (More_close _ "]" _ _ _ (pad_space depth) (or_introl eq_refl))), Token_close by (apply pad_space || auto).
    by rewrite app_nil_r.
  - inversion_clear HI as [|?? Hv HI']. destruct Hj as [Hjv Hj]. inversion_clear Hh as [|?? Hhv Hh'].
    destruct (IH HI' Hj Hh' (out ++ [v])) as [n2 H2].
    destruct item_sep_eq as (x & Ex & Hx).
    set (tl := tail_text depth ps (pad indent depth +:+ String "]" rest)) in *.
    assert (tail_text depth (p :: ps) (pad indent depth +:+ String "]" rest) = String "," ((x +:+ pad indent (S depth)) +:+ p +:+ tl)) as Et.
    { change (item_sep indent spaced +:+ pad indent (S depth) +:+ p +:+ tl = String "," ((x +:+ pad indent (S depth)) +:+ p +:+ tl)).
      by rewrite Ex, string_app_cons, string_app_assoc. }
    rewrite Et. assert (starts (p +:+ tl)) as Hst by (by eapply write_starts).
    assert (sall (λ a, json_space a = true) (x +:+ pad indent (S depth))) as Hsp by (apply sall_app; split; [done|apply pad_space]).
    destruct (Hv (S depth) p _ tl _ _ (dz + 1) Hjv Hp (tail_stops depth ps "]" rest (or_introl eq_refl)) Hhv (at_comma _ _ (st :: stk) Hsp Hst)) as [n1 H1].
    exists (S (n1 + n2)). intros [|fuel] Hf; [lia|]. rewrite decodeArray_S.
    change (More _) with true. cbn match. rewrite H1 by lia. cbn [value_end]. rewrite H2 by lia. by rewrite <- app_assoc.
Qed.

(** An entry as the decoder builds one, and its text. *)
Definition entry_ok (e : Entry) : Prop :=
  (match Key e with VString k => ValidString k = true | _ => False end) ∧ KeyPos e = noPos ∧ ValPos e = noPos ∧ json_value (Val e).
Definition entry_text (depth : nat) (e : Entry) (p : string) : Prop :=
  ∃ t, write (S depth) (Val e) = Some t ∧ p = writeJSONString (KeyString (Key e)) +:+ key_sep indent spaced +:+ t.

Lemma fresh_key m e es :
  map_wf m → NoDup (ckeys m ++ (CanonKey ∘ Key <$> e :: es)) →
  Has m (Key e) = false ∧ map_wf (set_entry m e) ∧ NoDup (ckeys (set_entry m e) ++ (CanonKey ∘ Key <$> es)).
Proof.
  intros Hm Hnd. assert (CanonKey (Key e) ∉ ckeys m) as Hk.
  { intros Hin. rewrite fmap_cons in Hnd. apply NoDup_app in Hnd as (_ & Hd & _). apply (Hd _ Hin). by left. }
  split_and!.
  - unfold Has. apply bool_decide_eq_false. by rewrite Get_is_Some.
  - by apply SetAt_wf.
  - assert (index m !! CanonKey (Key e) = None) as Hn.
    { apply eq_None_not_Some. intros [i Hi]. apply Hk. apply Hm in Hi as (e' & He' & Hck). unfold ckeys. apply list_elem_of_fmap.
      exists e'. split; [done|]. by eapply list_elem_of_lookup_2. }
    unfold set_entry, SetAt, ckeys. rewrite Hn. cbn [entries]. rewrite fmap_app, <- app_assoc. by destruct e.
Qed.

Lemma entry_step depth e p d tl dz m st stk R :
  reads_back (Val e) → entry_ok e → entry_text depth e p → dz + 1 + height (Val e) ≤ maxJSONDepth →
  peek (elide d) = p +:+ tl → (state (elide d) = ObjectStart ∨ state (elide d) = ObjectKey) → stack (elide d) = st :: stk →
  stops tl → More d = true → Has m (Key e) = false →
  (∃ n, ∀ fuel, (n ≤ fuel)%nat → decodeObject fuel (mkDecoder tl ObjectComma (st :: stk)) dz (set_entry m e) = R) →
  ∃ n, ∀ fuel, (n ≤ fuel)%nat → decodeObject fuel d dz m = R.
Proof.
  intros HI (Hk & Hkp & Hvp & Hj) (t & Ht & ->) Hh Hp Hs Hstk Htl HM Hhas [n2 H2].
  destruct (Key e) as [| | | |k| | | | | | |] eqn:Ek; try done. cbn [KeyString] in Hp.
  destruct (key_sep_eq) as (x & Ex & Hx).
  assert (Token d = inr (TString k, mkDecoder (String ":" (x +:+ t +:+ tl)) ObjectColon (st :: stk))) as HT.
  { rewrite string_app_assoc, writeJSONString_eq in Hp. cbn. unfold json_Token. rewrite Hp, Hstk.
    rewrite !decide_False by done. rewrite (bool_decide_true (quote_byte = quote_byte)) by done.
    assert (bool_decide (state (elide d) = ObjectStart) || bool_decide (state (elide d) = ObjectKey) = true) as ->
      by (destruct Hs as [-> | ->]; done).
    cbn [andb orb]. unfold read_scalar. change (byte_of quote_byte =? 34) with true. cbn match.
    rewrite quoted_string_reads_back by done. by rewrite Ex, string_app_assoc, string_app_cons. }
  assert (starts (t +:+ tl)) as Hst by (by eapply write_starts).
  destruct (HI (S depth) t _ tl _ _ (dz + 1) Hj Ht Htl Hh (at_colon _ _ (st :: stk) Hx Hst)) as [n1 H1].
  exists (S (n1 + n2)). intros [|fuel] Hf; [lia|]. rewrite decodeObject_S, HM, HT, H1, Hhas by lia. cbn [value_end].
  rewrite <- (H2 fuel) by lia. do 2 f_equal. unfold set_entry, MSet. by rewrite Ek, Hkp, Hvp.
Qed.

Lemma object_tail depth es ps st stk dz rest :
  Forall (λ e, reads_back (Val e)) es → Forall entry_ok es → Forall2 (entry_text depth) es ps →
  Forall (λ e, dz + 1 + height (Val e) ≤ maxJSONDepth) es →
  ∀ m, map_wf m → NoDup (ckeys m ++ (CanonKey ∘ Key <$> es)) →
  ∃ n, ∀ fuel, (n ≤ fuel)%nat →
    decodeObject fuel (mkDecoder (tail_text depth ps (pad indent depth +:+ String "}" rest)) ObjectComma (st :: stk)) dz m =
    Some (inr (VMap (foldl set_entry m es), mkDecoder rest (value_end st) stk)).
Proof.
  intros HI Hj HF. revert HI Hj. induction HF as [|e p es ps Hp HF IH]; intros HI Hj Hh m Hm Hnd.
  - exists 1%nat. intros [|fuel] Hf; [lia|]. rewrite decodeObject_S. cbn [tail_text foldr].
    rewrite (proj1 (More_close _ "}" _ _ _ (pad_space depth) (or_intror eq_refl))), Token_close by (apply pad_space || auto). done.
  - inversion_clear HI as [|?? Hv HI']. inversion_clear Hj as [|?? Hje Hj']. inversion_clear Hh as [|?? Hhv Hh'].
    destruct (fresh_key m e es Hm Hnd) as (Hhas & Hm' & Hnd'). specialize (IH HI' Hj' Hh' _ Hm' Hnd').
    destruct item_sep_eq as (x & Ex & Hx). set (tl := tail_text depth ps (pad indent depth +:+ String "}" rest)) in *.
    assert (tail_text depth (p :: ps) (pad indent depth +:+ String "}" rest) = String "," ((x +:+ pad indent (S depth)) +:+ p +:+ tl)) as Et.
    { change (item_sep indent spaced +:+ pad indent (S depth) +:+ p +:+ tl = String "," ((x +:+ pad indent (S depth)) +:+ p +:+ tl)).
      by rewrite Ex, string_app_cons, string_app_assoc. }
    rewrite Et. eapply entry_step; try done; [|by right|apply tail_stops; by right].
    change (skip_space ((x +:+ pad indent (S depth)) +:+ p +:+ tl) = p +:+ tl). apply skip_space_starts.
    + apply sall_app. split; [done|apply pad_space].
    + destruct Hp as (t & _ & ->). rewrite string_app_assoc, writeJSONString_eq. done.
Qed.

Lemma written_items depth opening closing items t rest :
  write_items indent spaced depth opening closing items = Some t →
  ∃ ps, Forall2 (λ i p, i = Some p) items ps ∧
    t +:+ rest = opening +:+ match ps with [] => closing +:+ rest | p :: ps => pad indent (S depth) +:+ p +:+ tail_text depth ps (pad indent depth +:+ closing +:+ rest) end.
Proof.
  unfold write_items. intros (ps & Hps & [= <-])%bind_Some. exists ps. split.
  - apply mapM_Some_1 in Hps. eapply Forall2_impl; [exact Hps|]. done.
  - destruct ps as [|p ps]; [by rewrite string_app_assoc|]. by rewrite !string_app_assoc, Join_tail.
Qed.

Lemma foldr_height {A} (f : A → Z) l x : x ∈ l → f x ≤ foldr (λ x h, Z.max (f x) h) 0 l.
Proof. induction l as [|y l IH]; [by intros ?%not_elem_of_nil|]. intros [->|Hx]%elem_of_cons; simpl; [lia|]. specialize (IH Hx). lia. Qed.

Lemma foldr_nonneg {A} (f : A → Z) l : 0 ≤ foldr (λ x h, Z.max (f x) h) 0 l.
Proof. induction l as [|y l IH]; simpl; lia. Qed.

Lemma array_reads_back l : Forall reads_back l → reads_back (VSeq l).
Proof.
  intros HI depth t d rest st stk dz Hj Ht Hr Hh Hat. cbn [writeJSON] in Ht.
  destruct (written_items _ _ _ _ _ rest Ht) as (ps & HF & E). rewrite E in Hat. cbn [height] in Hh.
  pose proof (foldr_nonneg height l) as Hnn. apply Forall2_fmap_l in HF.
  assert (Forall (λ v, dz + 1 + height v ≤ maxJSONDepth) l) as Hhl.
  { apply Forall_forall. intros v Hv. pose proof (foldr_height height l v Hv). lia. }
  change ("[" +:+ ?x) with (String "[" x) in Hat. pose proof (proj1 (Token_open _ _ _ _) Hat) as HT.
  assert (∃ n, ∀ fuel, (n ≤ fuel)%nat → decodeArray fuel (mkDecoder (match ps with [] => "]" +:+ rest | p :: ps => pad indent (S depth) +:+ p +:+ tail_text depth ps (pad indent depth +:+ "]" +:+ rest) end) ArrayStart (st :: stk)) dz [] =
    Some (inr (VSeq l, mkDecoder rest (value_end st) stk))) as [n Hn].
  { destruct HF as [|v p l ps Hp HF].
    - exists 1%nat. intros [|fuel] Hf; [lia|]. rewrite decodeArray_S. change ("]" +:+ rest) with ("" +:+ String "]" rest).
      rewrite (proj1 (More_close "" "]" _ _ _ I (or_introl eq_refl))), Token_close by (done || auto). done.
    - inversion_clear HI as [|?? Hv HI']. destruct Hj as [Hjv Hj]. inversion_clear Hhl as [|?? Hhv Hh'].
      change ("]" +:+ rest) with (String "]" rest). set (tl := tail_text depth ps (pad indent depth +:+ String "]" rest)).
      destruct (array_tail depth l ps st stk dz rest HI' Hj HF Hh' [v]) as [n2 H2].
      assert (starts (p +:+ tl)) as Hst by (by eapply write_starts).
      destruct (Hv (S depth) p _ tl _ _ (dz + 1) Hjv Hp (tail_stops depth ps "]" rest (or_introl eq_refl)) Hhv
        (at_start _ _ ArrayStart (st :: stk) (pad_space (S depth)) Hst eq_refl)) as [n1 H1].
      exists (S (n1 + n2)). intros [|fuel] Hf; [lia|]. rewrite decodeArray_S.
      rewrite (More_starts _ _ _ _ (pad_space (S depth)) Hst), H1 by lia. cbn [value_end app]. by rewrite H2 by lia. }
  exists (S n). intros [|fuel] Hf; [lia|]. rewrite decodeValue_S, HT.
  rewrite (proj2 (Z.leb_gt maxJSONDepth dz)) by lia. rewrite decide_False, decide_True by done. apply Hn. lia.
Qed.

Lemma object_reads_back m : Forall (λ e, reads_back (Key e) ∧ reads_back (Val e)) (entries m) → reads_back (VMap m).
Proof.
  intros HI depth t d rest st stk dz (Hwf & Hpos & Hj) Ht Hr Hh Hat. cbn [writeJSON] in Ht.
  destruct (written_items _ _ _ _ _ rest Ht) as (ps & HF & E). rewrite E in Hat. cbn [height] in Hh.
  pose proof (foldr_nonneg (λ e, height (Val e)) (entries m)) as Hnn. apply Forall2_fmap_l in HF.
  assert (Forall (λ e, dz + 1 + height (Val e) ≤ maxJSONDepth) (entries m)) as Hhl.
  { apply Forall_forall. intros v Hv. pose proof (foldr_height (λ e, height (Val e)) _ v Hv). cbn in *. lia. }
  assert (Forall entry_ok (entries m)) as Hok.
  { clear -Hj. induction (entries m) as [|e es IH]; [done|]. destruct Hj as (? & ? & ? & ? & ?). constructor; [done|by apply IH]. }
  assert (Forall2 (entry_text depth) (entries m) ps) as HF'.
  { eapply Forall2_impl; [exact HF|]. intros e p (x & Hx & [= <-])%bind_Some. by exists x. }
  assert (Forall (λ e, reads_back (Val e)) (entries m)) as HIv by (eapply Forall_impl; [exact HI|]; by intros e [_ ?]).
  pose proof (map_wf_NoDup _ Hwf) as Hnd. unfold ckeys in Hnd. rewrite <- (refill m Hwf Hpos).
  change ("{" +:+ ?x) with (String "{" x) in Hat. pose proof (proj2 (Token_open _ _ _ _) Hat) as HT.
  assert (∃ n, ∀ fuel, (n ≤ fuel)%nat → decodeObject fuel (mkDecoder (match ps with [] => "}" +:+ rest | p :: ps => pad indent (S depth) +:+ p +:+ tail_text depth ps (pad indent depth +:+ "}" +:+ rest) end) ObjectStart (st :: stk)) dz NewMap =
    Some (inr (VMap (foldl set_entry NewMap (entries m)), mkDecoder rest (value_end st) stk))) as [n Hn].
  { clear HF HI Hj E Ht HT Hat Hh. destruct HF' as [|e p es ps Hp HF].
    - exists 1%nat. intros [|fuel] Hf; [lia|]. rewrite decodeObject_S. change ("}" +:+ rest) with ("" +:+ String "}" rest).
      rewrite (proj1 (More_close "" "}" _ _ _ I (or_intror eq_refl))), Token_close by (done || auto). done.
    - inversion_clear HIv as [|?? Hv HI']. inversion_clear Hok as [|?? Hje Hj]. inversion_clear Hhl as [|?? Hhv Hh'].
      change ("}" +:+ rest) with (String "}" rest). set (tl := tail_text depth ps (pad indent depth +:+ String "}" rest)).
      destruct (fresh_key NewMap e es NewMap_wf Hnd) as (Hhas & Hm' & Hnd').
      assert (starts (p +:+ tl)) as Hst by (destruct Hp as (y & _ & ->); by rewrite string_app_assoc, writeJSONString_eq).
      pose proof (elide_starts (pad indent (S depth)) (p +:+ tl) ObjectStart (st :: stk) (pad_space (S depth)) Hst) as He.
      apply (entry_step depth e p _ tl dz NewMap st stk _ Hv Hje Hp Hhv); [| | | | |done|exact (object_tail depth es ps st stk dz rest HI' Hj HF Hh' (set_entry NewMap e) Hm' Hnd')]; rewrite ?He.
      + unfold peek. cbn [input]. apply skip_space_starts; [apply pad_space|done].
      + by left.
      + done.
      + apply tail_stops. by right.
      + apply More_starts; [apply pad_space|done]. }
  exists (S n). intros [|fuel] Hf; [lia|]. rewrite decodeValue_S, HT.
  rewrite (proj2 (Z.leb_gt maxJSONDepth dz)) by lia. rewrite decide_True by done. apply Hn. lia.
Qed.

Lemma all_read_back v : reads_back v.
Proof.
  induction v as [l IH|m IH|v Hl] using value_nested_ind; [by apply array_reads_back|by apply object_reads_back|].
  intros depth t d rest st stk dz Hj Ht Hr Hh Hat. destruct v as [|b|z|?|s|?|?|?|?| | |]; try done; cbn [writeJSON encode_scalar] in Ht; injection Ht as <-.
  - by eapply scalar_reads_back; [exact Hat|by apply (bool_decide_eq_false_1 _)|reflexivity|].
  - by destruct b; (eapply scalar_reads_back; [exact Hat|by apply (bool_decide_eq_false_1 _)|reflexivity|]).
  - destruct (number_reads_back z rest Hj Hr) as [Hn Ha].
    assert (∃ c r, FormatInt z +:+ rest = String c r ∧ (c = "-"%char ∨ digit_c c)) as (c & r & E & Hc).
    { destruct (FormatInt_cases z) as (x & -> & Hx & Hf & _). rewrite string_app_assoc. destruct (z <? 0); [by eauto|].
      rewrite string_nil_app. destruct Hf as [->|(c & y & -> & _)]; [|destruct Hx; by eauto]. do 2 eexists. split; [done|]. right. by eexists. }
    rewrite E in Hat, Hn.
    assert ((c ∉ ["["; "{"; "]"; "}"]%char) ∧ (byte_of c =? 34) = false ∧ ∀ p x, p ∈ ["t"; "f"; "n"]%char → has_prefix (String p x) (String c r) = false) as (Hc1 & Hc2 & Hc3).
    { assert (c ∉ ["["; "{"; "]"; "}"; "t"; "f"; "n"; quote_byte]%char) as Hno.
      { intros Hin. destruct Hc as [->|[dg Hdg]]; [by apply (bool_decide_eq_true_2 _) in Hin; vm_compute in Hin|].
        repeat apply elem_of_cons in Hin as [->|Hin]; try (by vm_compute in Hdg). by apply not_elem_of_nil in Hin. }
      split_and!; [set_solver| |].
      - apply Z.eqb_neq. intros Hb. apply Hno. assert (c = quote_byte) as ->; [|set_solver].
        unfold byte_of in Hb. rewrite <- (ascii_N_embedding c). by rewrite (N2Z.inj (N_of_ascii c) 34 Hb).
      - intros q x Hq. cbn [has_prefix]. rewrite decide_False; [done|]. intros ->. set_solver. }
    apply (scalar_reads_back (VInt z) c r (TNumber (FormatInt z)) rest); [exact Hat|done| |by unfold decodeNumber; rewrite Ha].
    unfold read_scalar. rewrite Hc2, !Hc3 by set_solver. by rewrite Hn.
  - rewrite writeJSONString_eq in Hat. eapply (scalar_reads_back _ _ _ (TString s) rest); [exact Hat|by apply (bool_decide_eq_false_1 _)| |done].
    unfold read_scalar. change (byte_of quote_byte =? 34) with true. cbn match. by rewrite quoted_string_reads_back.
Qed.

Lemma json_round v :
  json_value v → height v ≤ maxJSONDepth →
  ∃ text, EncodeJSONSpaced v indent spaced = Some text ∧ DecodeJSON text = Some (inr v).
Proof.
  intros Hj Hh. assert (∀ depth, is_Some (write depth v)) as Henc.
  { clear Hh. revert Hj. induction v as [l IH|m IH|v Hl] using value_nested_ind; intros Hj depth; [| |by destruct v].
    - cbn [writeJSON]. unfold write_items. assert (is_Some (mapM id (map (write (S depth)) l))) as [ps ->]; [|by eexists].
      apply mapM_is_Some_2. apply Forall_fmap. cbn [json_value] in Hj. induction IH as [|x l Hx Hl IHl]; constructor; [by apply Hx, Hj|by apply IHl, Hj].
    - cbn [writeJSON]. unfold write_items.
      assert (is_Some (mapM id (map (λ e, t ← write (S depth) (Val e); Some (writeJSONString (KeyString (Key e)) +:+ key_sep indent spaced +:+ t)) (entries m)))) as [ps ->]; [|by eexists].
      apply mapM_is_Some_2. apply Forall_fmap. destruct Hj as (_ & _ & Hj). induction IH as [|e l [_ Hx] Hl IHl]; constructor.
      + destruct Hj as (_ & _ & _ & Hj & _). cbn. destruct (Hx Hj (S depth)) as [t ->]. by eexists.
      + apply IHl, Hj. }
  destruct (Henc 0%nat) as [t Ht]. exists t. split; [done|]. unfold DecodeJSON.
  assert (at_value (NewDecoder t) (t +:+ "") TopValue []) as Hat.
  { rewrite string_app_nil_r. apply (at_start "" t); [done| |done]. rewrite <- (string_app_nil_r t). by eapply write_starts. }
  destruct (all_read_back v 0%nat t _ "" _ _ 0 Hj Ht I ltac:(lia) Hat) as [n Hn].
  destruct (decode_ends (2 * String.length t + 1)) as [Hv _]. specialize (Hv (NewDecoder t) 0 ltac:(cbn; lia)).
  destruct (decodeValue (2 * String.length t + 1) (NewDecoder t) 0) as [r|] eqn:Er; [|done].
  set (N := (n + (2 * String.length t + 1))%nat).
  assert (2 * String.length t + 1 ≤ N)%nat as HN1 by (unfold N; lia). assert (n ≤ N)%nat as HN2 by (unfold N; lia).
  pose proof (decodeValue_fuel _ N _ _ _ HN1 Er) as E2. rewrite (Hn N HN2) in E2. by injection E2 as <-.
Qed.

(** C22: what is encoded reads back.  For every value of null, bools, 64-bit
    integers, valid strings, sequences and mappings with string keys, nested at
    most as deep as the decoder follows, the document EncodeJSONSpaced writes,
    compact or spaced or with any indent, is decoded to that very value: integers
    are not bent through floats, and the order of the keys is kept. *)
Theorem json_reads_back v :
  json_value v → height v ≤ maxJSONDepth →
  ∃ text, EncodeJSONSpaced v indent spaced = Some text ∧ DecodeJSON text = Some (inr v).
Proof. apply json_round. Qed.
End read_back.

(** The runtime functions, for the witness: nothing here asks them. *)
#[local] Instance no_runtime_json : Runtime :=
  {| Sprint := λ _, ""; TypeString := λ _, ""; time_ParseDuration := λ _, None; ParseFloat := λ _, None; IsPrint := λ _, false |}.

Definition demo_map : Map :=
  MapOf [(VString "mem_total", VInt 9007199254740993); (VString "a", VSeq [VNull; VBool false; VString "tab	 and \ é"; VSeq []])].

Lemma json_reads_back_witness :
  ∃ text, EncodeJSONSpaced (VMap demo_map) 2 true = Some text ∧ DecodeJSON text = Some (inr (VMap demo_map)).
Proof.
  apply (json_reads_back 2 true (VMap demo_map)).
  - split; [apply MapOf_wf|]. split; [reflexivity|].
    change (entries demo_map) with
      [mkEntry (VString "mem_total") (VInt 9007199254740993) noPos noPos;
       mkEntry (VString "a") (VSeq [VNull; VBool false; VString "tab	 and \ é"; VSeq []]) noPos noPos].
    cbn [foldr json_value Key Val KeyPos ValPos].
    repeat split; first [reflexivity|vm_compute; discriminate].
  - vm_compute. discriminate.
Defined.
