(* ===== verification/HubFleet.v ===== *)
(** * The hub's fleet: streams, relays and routes

    Models src/internal/hub/fleet.go and relay.go, the part of subscribe.go that
    opens and closes streams, and the node data cache's operations they use
    (nodes.go).  A stream is an object that the fleet and the handler serving it
    share, and that outlives its place in the fleet; so streams live in a store,
    under addresses, and [streams] holds for each node the address of the current
    one.  The handler of a subscription takes the fleet's lock several times;
    each time is a step of its own ([fleet_step]), so that handlers interleave as
    the code lets them.  A message's payload is a parameter.  [Send] is one step,
    although the source lets go of the lock between finding the stream and
    putting the message on it. *)

From S2P Require Import Prelude GoLib GoTime Value Target Policy.

Open Scope Z_scope.

Section fleet.
Context {P : Type}.

(** ** The fleet *)

Record Message := mkMessage { mT : string; mNode : string; mReason : string; mFinal : bool; mPayload : option P }.

Record stream := mkStream { sNode : string; sOut : list Message; sDone : bool; sSince : Z }.
Record pendingRelay := mkPending { subordinates : list string; pAt : Z }.

Record Fleet := mkFleet {
  heap : gmap nat stream;
  nextAddr : nat;
  streams : gmap string nat;
  via : gmap string string;
  pending : gmap string pendingRelay }.

Definition relayAnnounceGrace : Z := 30 * Second.
Definition queueDepth : nat := 64.

Definition newFleet : Fleet := mkFleet ∅ 0 ∅ ∅ ∅.

Definition with_heap (f : Fleet) (h : gmap nat stream) : Fleet := mkFleet h (nextAddr f) (streams f) (via f) (pending f).
Definition with_via (f : Fleet) (v : gmap string string) : Fleet := mkFleet (heap f) (nextAddr f) (streams f) v (pending f).
Definition with_pending (f : Fleet) (p : gmap string pendingRelay) : Fleet := mkFleet (heap f) (nextAddr f) (streams f) (via f) p.

Definition stream_close (st : stream) : stream := mkStream (sNode st) (sOut st) true (sSince st).
Definition put_out (m : Message) (st : stream) : stream := mkStream (sNode st) (sOut st ++ [m]) (sDone st) (sSince st).

(** route: a relay's routes are replaced; a node with a stream of its own keeps
    it. *)
Definition unroute (relayID : string) (v : gmap string string) : gmap string string :=
  filter (λ p, p.2 ≠ relayID) v.
Definition route (relayID : string) (subs : list string) (f : Fleet) : Fleet :=
  with_via f
    (foldl (λ v node, if bool_decide (is_Some (streams f !! node)) then v else <[node := relayID]> v)
       (unroute relayID (via f)) subs).

Definition attach (nodeID : string) (now fnow : Z) (f : Fleet) : nat * Fleet :=
  let a := nextAddr f in
  let h := match streams f !! nodeID with
           | Some old => alter stream_close old (heap f)
           | None => heap f
           end in
  let f1 := mkFleet (<[a := mkStream nodeID [] false now]> h) (S a) (<[nodeID := a]> (streams f)) (via f) (pending f) in
  (a, match pending f !! nodeID with
      | Some p =>
          let f2 := with_pending f1 (delete nodeID (pending f)) in
          if Sub fnow (pAt p) <=? relayAnnounceGrace then route nodeID (subordinates p) f2 else f2
      | None => f1
      end).

Definition detach (a : nat) (f : Fleet) : bool * Fleet :=
  match heap f !! a with
  | None => (false, f)
  | Some st =>
      let current := bool_decide (streams f !! sNode st = Some a) in
      (current,
       mkFleet (alter stream_close a (heap f)) (nextAddr f)
         (if current then delete (sNode st) (streams f) else streams f) (via f) (pending f))
  end.

Definition Relay (relayID : string) (subs : list string) (fnow : Z) (f : Fleet) : Fleet :=
  match streams f !! relayID with
  | None => with_pending f (<[relayID := mkPending subs fnow]> (pending f))
  | Some _ => route relayID subs (with_pending f (delete relayID (pending f)))
  end.

Definition RelayFor (nodeID : string) (f : Fleet) : option string := via f !! nodeID.

Definition dropRelay (relayID : string) (f : Fleet) : Fleet :=
  with_via (with_pending f (delete relayID (pending f))) (unroute relayID (via f)).

(** The select of Send: where the queue has room and the stream is also done,
    the runtime takes either case; [pick] says which. *)
Definition offer_to (pick : bool) (a : nat) (m : Message) (f : Fleet) : bool * Fleet :=
  match heap f !! a with
  | None => (false, f)
  | Some st =>
      if (length (sOut st) <? queueDepth)%nat && (negb (sDone st) || pick)
      then (true, with_heap f (<[a := put_out m st]> (heap f)))
      else (false, f)
  end.
Definition to_node (m : Message) (node : string) : Message := mkMessage (mT m) node (mReason m) (mFinal m) (mPayload m).

Definition Send (pick : bool) (nodeID : string) (msg : Message) (f : Fleet) : bool * Fleet :=
  match streams f !! nodeID with
  | Some a => offer_to pick a msg f
  | None =>
      match via f !! nodeID with
      | Some r =>
          match streams f !! r with
          | Some a => offer_to pick a (to_node msg nodeID) f
          | None => (false, f)
          end
      | None => (false, f)
      end
  end.

Definition Broadcast (pick : bool) (msg : Message) (f : Fleet) : nat * Fleet :=
  foldl (λ acc id, let '(ok, f') := Send pick id msg acc.2 in ((if ok : bool then S acc.1 else acc.1), f'))
    (0%nat, f) (elements (dom (streams f))).

(** end: the message if there is room, and the stream is closed. *)
Definition end_stream (nodeID : string) (m : Message) (f : Fleet) : bool * Fleet :=
  match streams f !! nodeID with
  | None => (false, f)
  | Some a =>
      (true, with_heap f (alter (λ st, stream_close (if (length (sOut st) <? queueDepth)%nat then put_out m st else st)) a (heap f)))
  end.
Definition Disconnect (nodeID why : string) (f : Fleet) : bool * Fleet :=
  end_stream nodeID (mkMessage "revoke" "" why true None) f.
Definition Reload (nodeID why : string) (f : Fleet) : bool * Fleet :=
  end_stream nodeID (mkMessage "reload" "" why true None) f.

Definition Relayed (f : Fleet) : gmap string string := via f.
Definition since_of (f : Fleet) (a : nat) : Z := default 0 (sSince <$> heap f !! a).
Definition Connected (f : Fleet) : gmap string Z :=
  union (omap (λ r, since_of f <$> streams f !! r) (via f)) (since_of f <$> streams f).

(** ** The node data cache *)

Record NodeData := mkNodeData { ndID : string; ndGrains : string; ndVersion : string; ndLastSeen : Z }.
(** [None] is a hub without a cache directory. *)
Definition NodeCache : Type := option (gmap string NodeData).

Definition nodes_Put (ok : bool) (d : NodeData) (c : NodeCache) : NodeCache :=
  match c with
  | None => None
  | Some m => Some (match ValidateNodeID (ndID d) with
                    | None => if ok then <[ndID d := d]> m else m
                    | Some _ => m
                    end)
  end.
Definition nodes_Get (ok : bool) (id : string) (c : NodeCache) : option NodeData :=
  match c, ValidateNodeID id with
  | Some m, None => if ok then m !! id else None
  | _, _ => None
  end.

(** ** Relays *)

(** The hub's settings that decide about relays. *)
Record RelayConfig := mkRelayConfig {
  AcceptRelays : bool; hubPolicy : option Policy; MaxRelayDepth_ : Z; RelaySubordinates : gmap string (list string) }.

Definition MaxRelayDepth : Z := 2.
Definition relayDepth (c : RelayConfig) : Z := if 0 <? MaxRelayDepth_ c then MaxRelayDepth_ c else MaxRelayDepth.

Record Subordinate := mkSub { subID : string; subGrains : string; subVersion : string }.
Record SubscribeRequest := mkSubscribe {
  srNodeID : string; srGrains : string; srVersion : string; srRelay : bool; srDepth : Z; srSubordinates : list Subordinate }.

Inductive relay_error :=
| NoRelays
| MayNotRelay (why : option reason)
| TooDeep (depth limit : Z)
| NoSubID
| OwnSubordinate (id : string)
| UnusableID (id : string).

(** Why a relay may not claim a node. *)
Inductive claim_refusal := NoNames | NoGlob | EnrolledHere.

(** [store] is the set of names with a record in the key store, [None] where the
    hub has no key store. *)
Definition relayMayNotClaim (c : RelayConfig) (store : option (gset string)) (relayID nodeID : string) : option claim_refusal :=
  let globs := default [] (RelaySubordinates c !! relayID) in
  if bool_decide (globs = []) then Some NoNames
  else if negb (existsb (λ g, MatchGlob g nodeID) globs) then Some NoGlob
  else match store with
       | Some keys => if bool_decide (nodeID ∈ keys) then Some EnrolledHere else None
       | None => None
       end.

(** [ok] says whether the node cache takes the write. *)
Fixpoint recordSubordinates (c : RelayConfig) (store : option (gset string)) (ok : bool) (now : Z) (relayID : string)
    (subs : list Subordinate) (names : list string) (nc : NodeCache) : (relay_error + list string) * NodeCache :=
  match subs with
  | [] => (inr names, nc)
  | sub :: rest =>
      if bool_decide (subID sub = "") then (inl NoSubID, nc)
      else if bool_decide (subID sub = relayID) then (inl (OwnSubordinate relayID), nc)
      else if contains_any ["/"; "\"; " "; ascii_of_nat 9]%char (subID sub) then (inl (UnusableID (subID sub)), nc)
      else match relayMayNotClaim c store relayID (subID sub) with
      | Some _ => recordSubordinates c store ok now relayID rest names nc
      | None =>
          let names := names ++ [subID sub] in
          let nc := if bool_decide (subGrains sub = "") then nc
                    else nodes_Put ok (mkNodeData (subID sub) (subGrains sub) (subVersion sub) now) nc in
          recordSubordinates c store ok now relayID rest names nc
      end
  end.

Definition relay_request (relayID : string) : Request :=
  mkRequest ("node:" +:+ relayID) "" "" "relay.proxy" [] [] false "" None true.

Section relays.
Context `{Runtime}.

Definition acceptRelay (c : RelayConfig) (store : option (gset string)) (ok : bool) (now fnow : Z) (relayID : string)
    (req : SubscribeRequest) (nc : NodeCache) (f : Fleet) : option relay_error * NodeCache * Fleet :=
  if negb (AcceptRelays c) then (Some NoRelays, nc, f)
  else
    let d := Authorize (hubPolicy c) (relay_request relayID) in
    if negb (Allowed d) then (Some (MayNotRelay (Reason d)), nc, f)
    else if relayDepth c <=? srDepth req then (Some (TooDeep (srDepth req + 1) (relayDepth c)), nc, f)
    else match recordSubordinates c store ok now relayID (srSubordinates req) [] nc with
         | (inl e, nc) => (Some e, nc, f)
         | (inr names, nc) => (None, nc, Relay relayID names fnow f)
         end.

Definition relayUpdate (c : RelayConfig) (store : option (gset string)) (ok : bool) (now fnow : Z) (relayID : string)
    (subs : list Subordinate) (nc : NodeCache) (f : Fleet) : option relay_error * NodeCache * Fleet :=
  if negb (AcceptRelays c) then (Some NoRelays, nc, f)
  else
    let d := Authorize (hubPolicy c) (relay_request relayID) in
    if negb (Allowed d) then (Some (MayNotRelay (Reason d)), nc, f)
    else match recordSubordinates c store ok now relayID subs [] nc with
         | (inl e, nc) => (Some e, nc, f)
         | (inr names, nc) => (None, nc, Relay relayID names fnow f)
         end.
End relays.

Definition relayMayReturn (relayID nodeID : string) (f : Fleet) : bool :=
  if bool_decide (relayID = nodeID) then true
  else match RelayFor nodeID f with Some r => bool_decide (r = relayID) | None => false end.

(** targetableNodes: [accepted] are the names the key store lists as accepted. *)
Definition targetableNodes (accepted : list string) (f : Fleet) : list string :=
  let seen := list_to_set accepted : gset string in
  merge_sort str_le (elements seen ++ filter (λ n, n ∉ seen) (elements (dom (Relayed f)))).
End fleet.

Arguments Message : clear implicits.
Arguments stream : clear implicits.
Arguments Fleet : clear implicits.
