(* ===== verification/HubFleetSafe.v ===== *)
(** * The hub's fleet as a state machine

    The handlers of subscriptions and of relay updates, each step taken under
    the fleet's lock a step here, in any interleaving ([fleet_step]).  In every
    state they reach, routes follow the configuration and a node has at most one
    stream that is open. *)

From S2P Require Import Prelude GoLib GoTime Value Target Policy HubFleet.

Open Scope Z_scope.

Section machine.
Context {P : Type} `{Runtime} (c : RelayConfig).

(** The handlers in flight: subscriptions accepted and not yet attached, with
    whether they are a relay's; open streams, with the same; and relays whose
    stream was the current one when it ended, and whose routes are yet to be
    dropped. *)
Record hub_state := mkHub {
  hFleet : Fleet P;
  hNodes : NodeCache;
  hStore : option (gset string);
  hAccepted : list (string * bool);
  hOpen : gmap nat bool;
  hDropping : list string }.

Definition with_fleet (h : hub_state) (f : Fleet P) : hub_state :=
  mkHub f (hNodes h) (hStore h) (hAccepted h) (hOpen h) (hDropping h).

(** The grains of a subscription: an empty report keeps those held, with their
    age. *)
Definition record_report (io : bool) (now : Z) (nodeID : string) (req : SubscribeRequest) (nc : NodeCache) : NodeCache :=
  if bool_decide (srGrains req = "") && bool_decide (srVersion req = "") then nc
  else
    let '(grains, seen) :=
      if bool_decide (srGrains req = "") then
        match nodes_Get io nodeID nc with
        | Some old => (ndGrains old, ndLastSeen old)
        | None => (srGrains req, now)
        end
      else (srGrains req, now) in
    nodes_Put io (mkNodeData nodeID grains (srVersion req) seen) nc.

(** subscribe, up to the stream. *)
Definition subscribe_accept (io : bool) (now fnow : Z) (nodeID : string) (req : SubscribeRequest) (h : hub_state) : hub_state :=
  if negb (bool_decide (srNodeID req = "")) && negb (bool_decide (srNodeID req = nodeID)) then h
  else
    let nc := record_report io now nodeID req (hNodes h) in
    if srRelay req then
      match acceptRelay c (hStore h) io now fnow nodeID req nc (hFleet h) with
      | (Some _, nc, f) => mkHub f nc (hStore h) (hAccepted h) (hOpen h) (hDropping h)
      | (None, nc, f) => mkHub f nc (hStore h) ((nodeID, true) :: hAccepted h) (hOpen h) (hDropping h)
      end
    else mkHub (hFleet h) nc (hStore h) ((nodeID, false) :: hAccepted h) (hOpen h) (hDropping h).

(** subscribe, the stream opened. *)
Definition subscribe_attach (now fnow : Z) (i : nat) (h : hub_state) : hub_state :=
  match hAccepted h !! i with
  | None => h
  | Some (nodeID, relay) =>
      let '(a, f) := attach nodeID now fnow (hFleet h) in
      mkHub f (hNodes h) (hStore h) (delete i (hAccepted h)) (<[a := relay]> (hOpen h)) (hDropping h)
  end.

(** subscribe, returning: the stream is detached, and a relay's routes are
    dropped afterwards where it was the current one. *)
Definition subscribe_detach (a : nat) (h : hub_state) : hub_state :=
  match hOpen h !! a, heap (hFleet h) !! a with
  | Some relay, Some st =>
      let '(current, f) := detach a (hFleet h) in
      mkHub f (hNodes h) (hStore h) (hAccepted h) (delete a (hOpen h))
        (if current && relay then sNode st :: hDropping h else hDropping h)
  | _, _ => h
  end.
Definition subscribe_drop (i : nat) (h : hub_state) : hub_state :=
  match hDropping h !! i with
  | None => h
  | Some nodeID =>
      mkHub (dropRelay nodeID (hFleet h)) (hNodes h) (hStore h) (hAccepted h) (hOpen h) (delete i (hDropping h))
  end.

Definition relay_update (io : bool) (now fnow : Z) (relayID : string) (subs : list Subordinate) (h : hub_state) : hub_state :=
  let '(_, nc, f) := relayUpdate c (hStore h) io now fnow relayID subs (hNodes h) (hFleet h) in
  mkHub f nc (hStore h) (hAccepted h) (hOpen h) (hDropping h).

(** The handler of an open stream takes the next message. *)
Definition take_message (a : nat) (h : hub_state) : hub_state :=
  with_fleet h (with_heap (hFleet h) (alter (λ st, mkStream (sNode st) (drop 1 (sOut st)) (sDone st) (sSince st)) a (heap (hFleet h)))).

Inductive fleet_step : hub_state → hub_state → Prop :=
| fs_accept io now fnow nodeID req h : fleet_step h (subscribe_accept io now fnow nodeID req h)
| fs_attach now fnow i h : fleet_step h (subscribe_attach now fnow i h)
| fs_detach a h : fleet_step h (subscribe_detach a h)
| fs_drop i h : fleet_step h (subscribe_drop i h)
| fs_update io now fnow relayID subs h : fleet_step h (relay_update io now fnow relayID subs h)
| fs_send pick nodeID msg h : fleet_step h (with_fleet h (Send pick nodeID msg (hFleet h)).2)
| fs_end nodeID msg h : fleet_step h (with_fleet h (end_stream nodeID msg (hFleet h)).2)
| fs_take a h : fleet_step h (take_message a h)
| fs_keys keys h : fleet_step h (mkHub (hFleet h) (hNodes h) keys (hAccepted h) (hOpen h) (hDropping h)).

Definition start (keys : option (gset string)) (nc : NodeCache) : hub_state := mkHub newFleet nc keys [] ∅ [].

(** ** The invariant *)

(** The configuration lets the relay claim the node. *)
Definition claimable (relayID nodeID : string) : Prop :=
  AcceptRelays c = true ∧ Allowed (Authorize (hubPolicy c) (relay_request relayID)) = true ∧
  nodeID ≠ "" ∧ nodeID ≠ relayID ∧
  ∃ g, g ∈ default [] (RelaySubordinates c !! relayID) ∧ MatchGlob g nodeID = true.

Record fleet_ok (f : Fleet P) : Prop := {
  ok_via : ∀ n r, via f !! n = Some r → claimable r n;
  ok_pending : ∀ r p, pending f !! r = Some p → Forall (claimable r) (subordinates p);
  ok_addr : ∀ a, is_Some (heap f !! a) → (a < nextAddr f)%nat;
  ok_streams : ∀ n a, streams f !! n = Some a → ∃ st, heap f !! a = Some st ∧ sNode st = n;
  ok_current : ∀ a st, heap f !! a = Some st → sDone st = false → streams f !! sNode st = Some a;
  ok_queue : ∀ a st, heap f !! a = Some st → (length (sOut st) ≤ queueDepth)%nat }.

Lemma newFleet_ok : fleet_ok newFleet.
Proof. split; unfold newFleet; cbn; intros; try (by rewrite lookup_empty in *); by destruct H0 as [? ?%lookup_empty_Some]. Qed.

Lemma unroute_Some r v n r' : unroute r v !! n = Some r' ↔ v !! n = Some r' ∧ r' ≠ r.
Proof. unfold unroute. rewrite map_lookup_filter_Some. done. Qed.

Lemma route_ok r subs f : Forall (claimable r) subs → fleet_ok f → fleet_ok (route r subs f).
Proof.
  intros Hs [H1 H2 H3 H4 H5 H6]. split; unfold route, with_via; cbn; try done.
  assert (∀ v : gmap string string, (∀ n r', v !! n = Some r' → claimable r' n) →
    ∀ n r', foldl (λ v node, if bool_decide (is_Some (streams f !! node)) then v else <[node:=r]> v) v subs !! n = Some r' → claimable r' n) as Hf.
  { induction Hs as [|s subs Hc Hs IH]; intros v Hv; cbn [foldl]; [done|]. apply IH. case_bool_decide; [done|].
    intros n r'. rewrite lookup_insert. case_decide; [|apply Hv]. intros [= <-]. by subst. }
  apply Hf. intros n r' [? _]%unroute_Some. by apply H1.
Qed.

Lemma with_pending_ok f p : fleet_ok f → (∀ r q, p !! r = Some q → Forall (claimable r) (subordinates q)) → fleet_ok (with_pending f p).
Proof. intros [H1 H2 H3 H4 H5 H6] Hp. by split. Qed.

Lemma delete_pending_ok f r : fleet_ok f → fleet_ok (with_pending f (delete r (pending f))).
Proof. intros Hf. apply with_pending_ok; [done|]. intros r' q [_ Hq]%lookup_delete_Some. by eapply ok_pending. Qed.

Lemma Relay_ok r subs now f : Forall (claimable r) subs → fleet_ok f → fleet_ok (Relay r subs now f).
Proof.
  intros Hs Hf. unfold Relay. destruct (streams f !! r).
  - apply route_ok; [done|]. by apply delete_pending_ok.
  - apply with_pending_ok; [done|]. intros r' q. rewrite lookup_insert. case_decide; [|by eapply ok_pending].
    intros [= <-]. by subst.
Qed.

Lemma attach_ok n now fnow f : fleet_ok f → fleet_ok (attach n now fnow f).2.
Proof.
  intros Hf. unfold attach. cbn [snd]. set (h := match streams f !! n with Some old => _ | None => _ end).
  set (f1 := mkFleet _ _ _ _ _). assert (fleet_ok f1) as Hf1.
  { destruct Hf as [H1 H2 H3 H4 H5 H6].
    assert (∀ a st, h !! a = Some st → ∃ st0, heap f !! a = Some st0 ∧ sNode st0 = sNode st ∧ sOut st0 = sOut st ∧
      (sDone st = false → sDone st0 = false ∧ streams f !! n ≠ Some a)) as Hh.
    { intros a st. unfold h. destruct (streams f !! n) as [old|]; [|by intros Ha; exists st; split_and!].
      rewrite lookup_alter. case_decide as E; [subst|].
      - intros (st0 & Ha & ->)%fmap_Some. by exists st0.
      - intros Ha. exists st. split_and!; try done. intros Hd. split; [done|congruence]. }
    assert (h !! nextAddr f = None) as Hnew.
    { apply eq_None_not_Some. intros [st Hst]. apply Hh in Hst as (st0 & Hst0 & _). specialize (H3 (nextAddr f) ltac:(by eexists)). lia. }
    split; unfold f1; cbn [via pending heap nextAddr streams]; [done|done| | | |].
    - intros a. rewrite lookup_insert. case_decide; [lia|]. intros [st (st0 & ? & _)%Hh]. specialize (H3 a ltac:(by eexists)). lia.
    - intros m a. rewrite lookup_insert. case_decide.
      + intros [= <-]. rewrite lookup_insert, decide_True by done. subst. by eexists.
      + intros Ha. destruct (H4 m a Ha) as (st & Hst & Hn). rewrite lookup_insert_ne by (intros <-; specialize (H3 (nextAddr f) ltac:(by eexists)); lia).
        unfold h. destruct (streams f !! n) as [old|] eqn:Eo; [|by eauto]. rewrite lookup_alter. case_decide; [|by eauto].
        subst. exfalso. destruct (H4 n a Eo) as (st' & ? & ?). congruence.
    - intros a st. rewrite lookup_insert. case_decide as E.
      + intros [= <-] _. subst. cbn [sNode]. by rewrite lookup_insert, decide_True.
      + intros (st0 & Ha & Hn & _ & Hd)%Hh Hdone. destruct (Hd Hdone) as [Hd0 Hne]. rewrite <- Hn.
        specialize (H5 a st0 Ha Hd0). rewrite lookup_insert_ne; [done|]. intros ->. congruence.
    - intros a st. rewrite lookup_insert. case_decide; [intros [= <-]; apply Nat.le_0_l|].
      intros (st0 & Ha & _ & <- & _)%Hh. by eapply H6. }
  destruct (pending f !! n) as [p|] eqn:Ep; [|done].
  assert (fleet_ok (with_pending f1 (delete n (pending f)))) as Hf2 by (by apply (delete_pending_ok f1 n)).
  destruct (_ <=? _); [|done]. apply route_ok; [|done]. exact (ok_pending f Hf n p Ep).
Qed.

(** A change of the store that closes streams and fills or drains their queues
    keeps the invariant. *)
Lemma heap_ok (g : stream P → stream P) a f :
  (∀ st, sNode (g st) = sNode st ∧ (sDone (g st) = false → sDone st = false) ∧
         ((length (sOut st) ≤ queueDepth)%nat → (length (sOut (g st)) ≤ queueDepth)%nat)) →
  fleet_ok f → fleet_ok (with_heap f (alter g a (heap f))).
Proof.
  intros Hg [H1 H2 H3 H4 H5 H6].
  assert (∀ b st, alter g a (heap f) !! b = Some st → ∃ st0, heap f !! b = Some st0 ∧ (st = st0 ∨ st = g st0)) as Hb.
  { intros b st. rewrite lookup_alter. case_decide; [|by intros ?; exists st; auto].
    intros (st0 & ? & ->)%fmap_Some. exists st0. subst. by auto. }
  split; unfold with_heap; cbn [via pending heap nextAddr streams]; [done|done| | | |].
  - intros b [st (st0 & ? & _)%Hb]. apply H3. by eexists.
  - intros n b Hn. destruct (H4 n b Hn) as (st & Hst & Hnode). rewrite lookup_alter. case_decide; [|by eauto].
    subst. rewrite Hst. cbn. eexists. split; [done|]. apply Hg.
  - intros b st (st0 & Hst0 & [-> | ->])%Hb Hd; [by apply H5|]. destruct (Hg st0) as (-> & Hd0 & _). by apply H5, Hd0.
  - intros b st (st0 & Hst0 & [-> | ->])%Hb; [by eapply H6|]. eapply Hg, H6, Hst0.
Qed.

Lemma put_out_le (m : Message P) st : (length (sOut st) < queueDepth)%nat → (length (sOut (put_out m st)) ≤ queueDepth)%nat.
Proof. intros Hl. unfold put_out. cbn [sOut]. rewrite length_app. simpl. lia. Qed.

Lemma detach_ok a f : fleet_ok f → fleet_ok (detach a f).2.
Proof.
  intros Hf. unfold detach. destruct (heap f !! a) as [st|] eqn:Ea; [|done]. cbn [snd].
  assert (fleet_ok (with_heap f (alter stream_close a (heap f)))) as Hc by (apply heap_ok; [|done]; intros st0; by split_and!).
  case_bool_decide as Hcur; [|exact Hc]. destruct Hc as [H1 H2 H3 H4 H5 H6]. split; cbn in *; try done.
  - intros n b [_ Hn]%lookup_delete_Some. by apply H4.
  - intros b st0 Hb Hd. rewrite lookup_delete_ne; [by apply H5|]. intros E. specialize (H5 b st0 Hb Hd). rewrite <- E, Hcur in H5.
    injection H5 as <-. rewrite lookup_alter, decide_True, Ea in Hb by done. injection Hb as <-. done.
Qed.

Lemma dropRelay_ok r f : fleet_ok f → fleet_ok (dropRelay r f).
Proof.
  intros Hf. destruct (delete_pending_ok f r Hf) as [H1 H2 H3 H4 H5 H6]. split; unfold dropRelay, with_via; cbn in *; try done.
  intros n r' [? _]%unroute_Some. by apply H1.
Qed.

Lemma Send_ok pick n m f : fleet_ok f → fleet_ok (Send pick n m f).2.
Proof.
  intros Hf. assert (∀ a m', fleet_ok (offer_to pick a m' f).2) as Ho.
  { intros a m'. unfold offer_to. destruct (heap f !! a) as [st|] eqn:Ea; [|done].
    destruct (Nat.ltb_spec (length (sOut st)) queueDepth); [|done]. destruct (_ || _); [|done]. cbn [andb snd].
    destruct Hf as [H1 H2 H3 H4 H5 H6]. split; unfold with_heap; cbn [via pending heap nextAddr streams]; [done|done| | | |].
    - intros b. rewrite lookup_insert. case_decide; [|apply H3]. subst. intros _. apply H3. by eexists.
    - intros k b Hk. destruct (H4 k b Hk) as (st0 & Hst0 & Hnode). rewrite lookup_insert. case_decide; [|by eauto].
      subst. rewrite Ea in Hst0. injection Hst0 as ->. by eexists.
    - intros b st0. rewrite lookup_insert. case_decide; [|by apply H5]. intros [= <-] Hd. subst. by apply (H5 b st).
    - intros b st0. rewrite lookup_insert. case_decide; [|by apply H6]. intros [= <-]. by apply put_out_le. }
  unfold Send. destruct (streams f !! n); [done|]. destruct (via f !! n); [|done]. by destruct (streams f !! s).
Qed.

Lemma end_ok n m f : fleet_ok f → fleet_ok (end_stream n m f).2.
Proof.
  intros Hf. unfold end_stream. destruct (streams f !! n) as [a|]; [|done]. apply heap_ok; [|done]. intros st.
  destruct (Nat.ltb_spec (length (sOut st)) queueDepth); split_and!; try done. intros _. by apply put_out_le.
Qed.

Lemma recordSubordinates_claimable store ok now r subs names nc names' nc' :
  AcceptRelays c = true → Allowed (Authorize (hubPolicy c) (relay_request r)) = true →
  Forall (claimable r) names → recordSubordinates c store ok now r subs names nc = (inr names', nc') → Forall (claimable r) names'.
Proof.
  intros Ha Hp. revert names nc. induction subs as [|sub subs IH]; intros names nc Hn; cbn [recordSubordinates]; [by intros [= <- _]|].
  case_bool_decide as H1; [done|]. case_bool_decide as H2; [done|]. destruct (contains_any _ _); [done|].
  destruct (relayMayNotClaim c store r (subID sub)) eqn:Em; [by apply IH|]. apply IH. apply Forall_app. split; [done|].
  constructor; [|done]. unfold relayMayNotClaim in Em. case_bool_decide; [done|].
  destruct (existsb _ _) eqn:Ex; [|done]. apply existsb_exists in Ex as (g & Hg & Hm). split_and!; try done.
  exists g. split; [by apply list_elem_of_In|done].
Qed.

Lemma acceptRelay_ok store ok now fnow r req nc f e nc' f' :
  fleet_ok f → acceptRelay c store ok now fnow r req nc f = (e, nc', f') → fleet_ok f'.
Proof.
  intros Hf. unfold acceptRelay. destruct (AcceptRelays c) eqn:Ea; [|by intros [= _ _ <-]]. cbn [negb].
  destruct (Allowed (Authorize (hubPolicy c) (relay_request r))) eqn:Ep; [|by intros [= _ _ <-]]. cbn [negb].
  destruct (_ <=? _); [by intros [= _ _ <-]|]. destruct (recordSubordinates _ _ _ _ _ _ _ _) as [[err|names] nc1] eqn:Er; intros [= _ _ <-]; [done|].
  apply Relay_ok; [|done]. by eapply recordSubordinates_claimable in Er.
Qed.

Lemma relayUpdate_ok store ok now fnow r subs nc f e nc' f' :
  fleet_ok f → relayUpdate c store ok now fnow r subs nc f = (e, nc', f') → fleet_ok f'.
Proof.
  intros Hf. unfold relayUpdate. destruct (AcceptRelays c) eqn:Ea; [|by intros [= _ _ <-]]. cbn [negb].
  destruct (Allowed (Authorize (hubPolicy c) (relay_request r))) eqn:Ep; [|by intros [= _ _ <-]]. cbn [negb].
  destruct (recordSubordinates _ _ _ _ _ _ _ _) as [[err|names] nc1] eqn:Er; intros [= _ _ <-]; [done|].
  apply Relay_ok; [|done]. by eapply recordSubordinates_claimable in Er.
Qed.

Lemma step_ok h h' : fleet_step h h' → fleet_ok (hFleet h) → fleet_ok (hFleet h').
Proof.
  intros Hs Hf. destruct Hs.
  - unfold subscribe_accept. destruct (_ && _); [done|]. destruct (srRelay req); [|done].
    destruct (acceptRelay _ _ _ _ _ _ _ _ _) as [[[e|] nc] f] eqn:E; by eapply acceptRelay_ok in E.
  - unfold subscribe_attach. destruct (hAccepted h !! i) as [[n relay]|]; [|done].
    pose proof (attach_ok n now fnow (hFleet h) Hf) as Ha. by destruct (attach _ _ _ _).
  - unfold subscribe_detach. destruct (hOpen h !! a), (heap (hFleet h) !! a); try done.
    pose proof (detach_ok a (hFleet h) Hf) as Ha. by destruct (detach _ _).
  - unfold subscribe_drop. destruct (hDropping h !! i); [|done]. by apply dropRelay_ok.
  - unfold relay_update. destruct (relayUpdate _ _ _ _ _ _ _ _ _) as [[e nc] f] eqn:E. by eapply relayUpdate_ok in E.
  - by apply Send_ok.
  - by apply end_ok.
  - unfold take_message. apply heap_ok; [|done]. intros st. split_and!; try done. cbn [sOut]. rewrite length_drop. lia.
  - done.
Qed.

Lemma fleet_reachable_ok keys nc h : rtc fleet_step (start keys nc) h → fleet_ok (hFleet h).
Proof.
  intros Hr. assert (fleet_ok (hFleet (start keys nc))) as H0 by apply newFleet_ok. revert H0.
  induction Hr; [done|]. intros. apply IHHr. by eapply step_ok.
Qed.

(** C23: however the handlers of subscriptions, relay updates, disconnections and
    deliveries interleave, every route the hub follows is one the configuration
    gives: the hub accepts relays, the policy lets this one relay, and the node's
    name matches one of its globs and is not the relay's own.  A stream that is
    open is the only open one of its node and the one the fleet uses, and no
    stream holds more than 64 messages. *)
Theorem routes_follow_the_configuration keys nc h :
  rtc fleet_step (start keys nc) h →
  (∀ n r, via (hFleet h) !! n = Some r → claimable r n) ∧
  (∀ a st, heap (hFleet h) !! a = Some st → sDone st = false → streams (hFleet h) !! sNode st = Some a) ∧
  (∀ a st, heap (hFleet h) !! a = Some st → (length (sOut st) ≤ 64)%nat).
Proof. intros [H1 _ _ _ H5 H6]%fleet_reachable_ok. done. Qed.

(** a message the hub reports as taken went to the end of the queue of one
    stream, and no other stream changed: the node's own current stream, or, for a
    node without one, the current stream of a relay the configuration lets claim
    it, with the node's name on the message. *)
Theorem message_takes_its_route keys nc h pick n m f' :
  rtc fleet_step (start keys nc) h → Send pick n m (hFleet h) = (true, f') →
  ∃ a st m', heap (hFleet h) !! a = Some st ∧ f' = with_heap (hFleet h) (<[a := put_out m' st]> (heap (hFleet h))) ∧
    ((sNode st = n ∧ streams (hFleet h) !! n = Some a ∧ m' = m) ∨
     (∃ r, streams (hFleet h) !! n = None ∧ claimable r n ∧ sNode st = r ∧ streams (hFleet h) !! r = Some a ∧ m' = to_node m n)).
Proof.
  intros Hr. apply fleet_reachable_ok in Hr as [H1 _ _ H4 _ _]. set (f := hFleet h) in *. clearbody f.
  assert (∀ a m', offer_to pick a m' f = (true, f') → ∃ st, heap f !! a = Some st ∧ f' = with_heap f (<[a := put_out m' st]> (heap f))) as Ho.
  { intros a m'. unfold offer_to. destruct (heap f !! a) as [st|]; [|done]. destruct (_ && _); [|done]. intros [= <-]. by exists st. }
  unfold Send. destruct (streams f !! n) as [a|] eqn:En.
  - intros (st & Hst & ->)%Ho. destruct (H4 n a En) as (st' & Hst' & Hn). exists a, st, m. split_and!; try done. left.
    split_and!; try done. congruence.
  - destruct (via f !! n) as [r|] eqn:Ev; [|done]. destruct (streams f !! r) as [a|] eqn:Er; [|done].
    intros (st & Hst & ->)%Ho. destruct (H4 r a Er) as (st' & Hst' & Hn). exists a, st, (to_node m n). split_and!; try done. right.
    exists r. split_and!; try done; [by apply H1|congruence].
Qed.
End machine.

(** ** Runs *)

(** The runtime functions: nothing here asks them. *)
#[local] Instance no_runtime_fleet : Runtime :=
  {| Sprint := λ _, ""; TypeString := λ _, ""; time_ParseDuration := λ _, None; ParseFloat := λ _, None; IsPrint := λ _, false |}.

Definition demo_relay_policy : Policy :=
  mkPolicy {["relays" := [mkRule "" [] ["relay.proxy"] ∅ []]]} [mkBinding "node:relay1" ["relays"]] "" ∅ None.
Definition demo_relays : RelayConfig := mkRelayConfig true (Some demo_relay_policy) 0 {["relay1" := ["web*"]]}.
Definition demo_sub (relay : bool) : SubscribeRequest := mkSubscribe "" "" "" relay 0 (if relay then [mkSub "web1" "" ""] else []).
Definition demo_start : hub_state (P := unit) := start (Some {["relay1"]}) None.

(** relay1 connects and its stream opens. *)
Definition demo_open : hub_state := subscribe_attach 0 0 0 (subscribe_accept demo_relays true 0 0 "relay1" (demo_sub true) demo_start).

Lemma demo_open_reachable : rtc (fleet_step demo_relays) demo_start demo_open.
Proof. eapply rtc_l; [apply fs_accept|]. eapply rtc_l; [apply fs_attach|]. apply rtc_refl. Qed.

Lemma routes_follow_the_configuration_witness :
  via (hFleet demo_open) !! "web1" = Some "relay1" ∧ claimable demo_relays "relay1" "web1".
Proof.
  assert (via (hFleet demo_open) !! "web1" = Some "relay1") as Hv by (vm_compute; reflexivity). split; [exact Hv|].
  exact (proj1 (routes_follow_the_configuration demo_relays (Some {["relay1"]}) None demo_open demo_open_reachable) _ _ Hv).
Defined.

Lemma message_takes_its_route_witness :
  let m := mkMessage "job" "" "" false (Some tt) in
  let f' := (Send false "web1" m (hFleet demo_open)).2 in
  ∃ a st m', heap (hFleet demo_open) !! a = Some st ∧ f' = with_heap (hFleet demo_open) (<[a := put_out m' st]> (heap (hFleet demo_open))) ∧
    ((sNode st = "web1" ∧ streams (hFleet demo_open) !! "web1" = Some a ∧ m' = m) ∨
     (∃ r, streams (hFleet demo_open) !! "web1" = None ∧ claimable demo_relays r "web1" ∧ sNode st = r ∧
        streams (hFleet demo_open) !! r = Some a ∧ m' = to_node m "web1")).
Proof.
  intros m f'. apply (message_takes_its_route demo_relays (Some {["relay1"]}) None demo_open false "web1" m f' demo_open_reachable).
  vm_compute. reflexivity.
Defined.

(** A relay that reconnects after its stream was detached and before its routes
    were dropped loses the routes of the new connection. *)
Definition demo_race : hub_state :=
  subscribe_drop 0
    (subscribe_attach 0 0 0 (subscribe_accept demo_relays true 0 0 "relay1" (demo_sub true) (subscribe_detach 0 demo_open))).
Example reconnecting_relay_loses_its_routes :
  is_Some (streams (hFleet demo_race) !! "relay1") ∧ via (hFleet demo_race) !! "web1" = None ∧
  (Send false "web1" (mkMessage "job" "" "" false (Some tt)) (hFleet demo_race)).1 = false.
Proof. split_and!; [eexists; vm_compute; reflexivity|vm_compute; reflexivity..]. Qed.

(** A node that announces subordinates and whose stream is not a relay's leaves
    its routes behind. *)
Definition demo_stale : hub_state :=
  subscribe_detach 0 (relay_update demo_relays true 0 0 "relay1" [mkSub "web1" "" ""]
    (subscribe_attach 0 0 0 (subscribe_accept demo_relays true 0 0 "relay1" (demo_sub false) demo_start))).
Example routes_outlive_an_ordinary_stream :
  streams (hFleet demo_stale) !! "relay1" = None ∧ hDropping demo_stale = [] ∧ via (hFleet demo_stale) !! "web1" = Some "relay1" ∧
  targetableNodes [] (hFleet demo_stale) = ["web1"].
Proof. split_and!; vm_compute; reflexivity. Qed.

(** A node that enrolls with the hub and connects while a relay has claimed it:
    the relay may go on answering for it. *)
Definition demo_enrolled : hub_state :=
  subscribe_attach 0 0 0 (subscribe_accept demo_relays true 0 0 "web1" (demo_sub false)
    (mkHub (hFleet demo_open) None (Some {["relay1"; "web1"]}) [] (hOpen demo_open) [])).
Example relay_answers_for_an_enrolled_node :
  relayMayNotClaim demo_relays (hStore demo_enrolled) "relay1" "web1" = Some EnrolledHere ∧
  is_Some (streams (hFleet demo_enrolled) !! "web1") ∧ relayMayReturn "relay1" "web1" (hFleet demo_enrolled) = true.
Proof. split_and!; [vm_compute; reflexivity|eexists; vm_compute; reflexivity|vm_compute; reflexivity]. Qed.

(** A stream that was ended is in the fleet until its handler returns, and a
    message may be put into it and reported as taken. *)
Example ended_stream_takes_a_message :
  let f := (Disconnect "relay1" "" (hFleet demo_open)).2 in
  (sDone <$> heap f !! 0%nat) = Some true ∧ (Send true "relay1" (mkMessage "job" "" "" false (Some tt)) f).1 = true.
Proof. split; vm_compute; reflexivity. Qed.
