(* ===== verification/HubReturn.v ===== *)
(** * Returns on their way into the hub

    Models src/internal/hub/returnscrub.go, the handler [returned] of
    src/internal/hub/jobs.go from the decoded body to its answer, and the
    scrubbing of a run's own returns in src/internal/runner/schema.go.  The
    handler composes the fleet (who may answer for whom), the redactor, the JSON
    codec and the job cache.  What it writes to logs and metrics is left out;
    the events and the forwarded return are its result. *)

From S2P Require Import Prelude GoLib GoTime Value Job JobCache HubJobs Redact RedactText RedactURL RedactSet RedactMask Json JsonRound HubFleet HubFleetSafe.

Open Scope Z_scope.

Section returns.
Context `{Runtime}.

(** ** Masking a return *)

(** json.Marshal of a string, which escapes the characters of HTML. *)
Fixpoint html_escape (s : string) : string :=
  match s with
  | EmptyString => ""
  | String a r =>
      (if bool_decide (a = "<"%char) then "\u003c" else if bool_decide (a = ">"%char) then "\u003e"
       else if bool_decide (a = "&"%char) then "\u0026" else String a "") +:+ html_escape r
  end.
Definition marshal_string (s : string) : string := Quote_ (html_escape (json_quote 0 s)).

Definition with_args (r : Return_) (args : list string) : Return_ :=
  mkReturn (rJID r) (rNodeID r) (rFun r) args (rSuccess r) (rRetCode r) (rReturn r) (rOut r) (rStart r)
    (rDurationMS r) (rVersion r) (rSchema r) (rChunk r).
Definition with_return (r : Return_) (body : string) : Return_ :=
  mkReturn (rJID r) (rNodeID r) (rFun r) (rFunArgs r) (rSuccess r) (rRetCode r) body (rOut r) (rStart r)
    (rDurationMS r) (rVersion r) (rSchema r) (rChunk r).

(** A string as it is masked; MaskValue answers a string with a string. *)
Definition mask_text (s : Set_) (t : string) : string :=
  match MaskValue (Some s) (VString t) with
  | (VString x, true) => x
  | _ => t
  end.

Definition maskUnreadable (s : Set_) (r : Return_) : Return_ :=
  match MaskValue (Some s) (VString (rReturn r)) with
  | (VString x, true) => with_return r (marshal_string x)
  | _ => r
  end.

Definition hub_scrubReturn (secrets : option Set_) (r : Return_) : Return_ :=
  match secrets with
  | None => r
  | Some s =>
      let r := with_args r (mask_text s <$> rFunArgs r) in
      if bool_decide (rReturn r = "") then r
      else match DecodeJSON (rReturn r) with
      | Some (inr decoded) =>
          let '(masked, changed) := MaskValue (Some s) decoded in
          if negb changed then r
          else match EncodeJSON masked 0 with
               | Some encoded => with_return r encoded
               | None => maskUnreadable s r
               end
      | _ => maskUnreadable s r
      end
  end.

(** ** The handler *)

Definition with_node (r : Return_) (node : string) : Return_ :=
  mkReturn (rJID r) node (rFun r) (rFunArgs r) (rSuccess r) (rRetCode r) (rReturn r) (rOut r) (rStart r)
    (rDurationMS r) (rVersion r) (rSchema r) (rChunk r).
Definition with_return_schema (r : Return_) (schema : string) : Return_ :=
  mkReturn (rJID r) (rNodeID r) (rFun r) (rFunArgs r) (rSuccess r) (rRetCode r) (rReturn r) (rOut r) (rStart r)
    (rDurationMS r) (rVersion r) schema (rChunk r).

Definition appliesState (fun_ : string) : bool := bool_decide (fun_ ∈ ["state.apply"; "state.highstate"; "state.sls"]).
Definition tagJobRet (jid node : string) : string := "halite/job/" +:+ jid +:+ "/ret/" +:+ node.
Definition tagState (jid node result : string) : string := "halite/state/" +:+ jid +:+ "/" +:+ node +:+ "/" +:+ result.

Inductive return_answer :=
| NotYours (cert node : string)
| NoCache
| Pong
| Refused_ (e : cache_error)
| Filed (fresh : bool) (events : list string) (forwarded : option Return_).

(** [io1] is the disk when the return is filed, [io2] when the record is read
    for the events, [io3] when the job is completed. *)
Definition returned {P} (f : Fleet P) (secrets : option Set_) (jobs : option store) (io1 io2 io3 : disk) (upstream : bool)
    (cert : string) (r : Return_) : return_answer * option store :=
  if negb (bool_decide (rNodeID r = "")) && negb (bool_decide (rNodeID r = cert)) && negb (relayMayReturn cert (rNodeID r) f)
  then (NotYours cert (rNodeID r), jobs)
  else
    let r := if bool_decide (rNodeID r = "") then with_node r cert else r in
    let ran := rNodeID r in
    let r := if bool_decide (rSchema r = "") then with_return_schema r ReturnSchema else r in
    match jobs with
    | None => (NoCache, None)
    | Some c =>
        if bool_decide (rFun r = "pong") && bool_decide (rJID r = "") then (Pong, Some c)
        else
          let r := hub_scrubReturn secrets r in
          match AddReturn io1 r c with
          | (inl e, c) => (Refused_ e, Some c)
          | (inr false, c) => (Filed false [] None, Some c)
          | (inr true, c) =>
              let ranAState := match Get io2 (rJID r) c with inr j => appliesState (Fun j) | inl _ => false end in
              let events :=
                tagJobRet (rJID r) ran ::
                (if bool_decide (rOut r = "highstate") && ranAState
                 then [tagState (rJID r) ran (if rSuccess r then "ok" else "failed")] else []) in
              (Filed true events (if upstream then Some r else None), Some (completeIfDone io3 (rJID r) c))
          end
    end.

(** ** The returns of a run *)

Fixpoint unused_go (fuel : nat) (out : Map) (key : string) (n : Z) : string :=
  let candidate := key +:+ " (" +:+ FormatInt n +:+ ")" in
  match fuel with
  | O => candidate
  | S fuel => if Has out (VString candidate) then unused_go fuel out key (n + 1) else candidate
  end.
(** Each candidate differs from the others, so one more than there are entries
    are enough. *)
Definition unusedKey (out : Map) (key : string) : string :=
  if Has out (VString key) then unused_go (Len out) out key 2 else key.

Definition scrubbed_key (secrets : option Set_) (out : Map) (k : value) : value :=
  match k with
  | VString s => let x := Scrub secrets s in if bool_decide (x = s) then k else VString (unusedKey out x)
  | _ => k
  end.

Fixpoint scrubData (secrets : option Set_) (v : value) : value :=
  match v with
  | VString s => VString (Scrub secrets s)
  | VMap m =>
      VMap (foldl (λ out e, SetAt out (scrubbed_key secrets out e.1.1) e.1.2 e.2.1 e.2.2) NewMap
        (map (λ e, ((Key e, scrubData secrets (Val e)), (KeyPos e, ValPos e))) (entries m)))
  | VNilMap => VMap NewMap
  | VSeq l => VSeq (map (scrubData secrets) l)
  | _ => v
  end.

Definition schemaField (k : value) : bool := bool_decide (KeyString k ∈ ["__id__"; "__sls__"; "__run_num__"]).

Definition same_string (v : value) (w : option value) : bool :=
  match v, w with VString a, Some (VString b) => bool_decide (a = b) | _, _ => false end.

(** runner.scrubReturn: the fields that address the declaration keep their
    values and lose their credentials.  The source compares [name] with the ID
    as Go values; both are strings. *)
Definition run_scrubReturn (secrets : option Set_) (m : Map) : Map :=
  let id := GetString m "__id__" in
  foldl (λ m e,
    if schemaField (Key e) || (bool_decide (KeyString (Key e) = "name") && same_string (Val e) id) then
      match Val e with
      | VString s => MSet m (Key e) (VString (URLCredentials s))
      | _ => m
      end
    else match Val e with
         | VString _ | VMap _ | VNilMap | VSeq _ => MSet m (Key e) (scrubData secrets (Val e))
         | _ => m
         end) m (entries m).

(** ** What is filed *)

(** A text in which the set finds nothing. *)
Definition clean (s : Set_) (x : string) : Prop := Holds (Some s) x = false ∧ ∀ w, w ∈ values s → contains w x = false.

Lemma mask_unchanged_clean s v : set_ok s → set_starless s → (mask s v).2 = false → ∀ x, x ∈ strings v → clean s x.
Proof.
  intros Hs Hst Hf x Hx. rewrite mask_flag in Hf. assert (mask_changes s x = false) as Hc.
  { destruct (mask_changes s x) eqn:E; [|done]. rewrite (proj2 (existsb_exists _ _)) in Hf; [done|]. exists x. split; [by apply list_elem_of_In|done]. }
  unfold mask_changes in Hc. apply orb_false_iff in Hc as [_ Hc%negb_false_iff%bool_decide_eq_true].
  rewrite <- Hc. by apply mask_string_clean.
Qed.

Lemma mask_text_clean s t : set_ok s → set_starless s → clean s (mask_text s t).
Proof.
  intros Hs Hst. unfold mask_text. cbn [MaskValue]. rewrite mask_leaf. destruct (mask_changes s t) eqn:E; [by apply mask_string_clean|].
  apply (mask_unchanged_clean s (VString t)); [done|done|by rewrite mask_leaf|by left].
Qed.

(** A value no string of which, keys included, holds a secret. *)
Definition value_clean (s : Set_) (v : value) : Prop := ∀ x, x ∈ strings v → clean s x.

(** What may be kept of a body [b0].  If it is JSON, it is kept as it came when
    the value in it is clean, and otherwise replaced by the encoding of a clean
    value, which reads back as that value if its numbers are integers and its
    strings are valid.  If it is not JSON, or the masked value has no encoding,
    the text itself holds no secret: it is kept as it came or is replaced by a
    JSON string of the masked text. *)
Definition body_clean (s : Set_) (b0 b : string) : Prop :=
  let as_text := ∃ t, (b = b0 ∧ t = b0 ∨ b = marshal_string t) ∧ clean s t in
  match DecodeJSON b0 with
  | Some (inr v0) =>
      (b = b0 ∧ value_clean s v0) ∨
      (∃ v, EncodeJSON v 0 = Some b ∧ value_clean s v ∧
         (json_value v → height v ≤ maxJSONDepth → DecodeJSON b = Some (inr v))) ∨
      (EncodeJSON (mask s v0).1 0 = None ∧ as_text)
  | _ => as_text
  end.

Lemma maskUnreadable_clean s r :
  set_ok s → set_starless s →
  ∃ t, (rReturn (maskUnreadable s r) = rReturn r ∧ t = rReturn r ∨ rReturn (maskUnreadable s r) = marshal_string t) ∧ clean s t.
Proof.
  intros Hs Hst. unfold maskUnreadable. cbn [MaskValue]. rewrite mask_leaf. destruct (mask_changes s (rReturn r)) eqn:E.
  - exists (mask_string s (rReturn r)). split; [by right|by apply mask_string_clean].
  - exists (rReturn r). split; [by left|].
    apply (mask_unchanged_clean s (VString (rReturn r))); [done|done|by rewrite mask_leaf|by left].
Qed.

Lemma empty_clean s : set_ok s → clean s "".
Proof.
  intros Hs. split; [done|]. intros w Hw. apply (proj1 (Forall_forall _ _) (ok_nonempty _ Hs)) in Hw. by destruct w.
Qed.

Lemma scrubReturn_clean s r :
  set_ok s → set_starless s →
  let r' := hub_scrubReturn (Some s) r in
  (∀ a, a ∈ rFunArgs r' → clean s a) ∧ body_clean s (rReturn r) (rReturn r') ∧ rJID r' = rJID r ∧ rNodeID r' = rNodeID r.
Proof.
  intros Hs Hst. cbn zeta. unfold hub_scrubReturn. set (r1 := with_args r (mask_text s <$> rFunArgs r)).
  assert (∀ a, a ∈ rFunArgs r1 → clean s a) as Ha.
  { intros a (t & -> & _)%list_elem_of_fmap. by apply mask_text_clean. }
  assert (rFunArgs (maskUnreadable s r1) = rFunArgs r1 ∧ rJID (maskUnreadable s r1) = rJID r1 ∧ rNodeID (maskUnreadable s r1) = rNodeID r1) as (Hu1 & Hu2 & Hu3).
  { unfold maskUnreadable. cbn [MaskValue]. rewrite mask_leaf. by destruct (mask_changes _ _). }
  pose proof (maskUnreadable_clean s r1 Hs Hst) as Hu. unfold body_clean. change (rReturn r1) with (rReturn r) in *.
  case_bool_decide as He.
  { rewrite He. split_and!; [done| |done|done]. cbn. exists "". split; [by left|by apply empty_clean]. }
  destruct (DecodeJSON (rReturn r)) as [[e|v]|] eqn:Ed; [by rewrite Hu1, Hu2, Hu3| |by rewrite Hu1, Hu2, Hu3].
  destruct (MaskValue (Some s) v) as [masked changed] eqn:Em. cbn [MaskValue] in Em. destruct changed; cbn [negb].
  - destruct (EncodeJSON masked 0) as [enc|] eqn:Ee.
    + split_and!; [done| |done|done]. right. left. exists masked. split; [done|]. split.
      * intros x Hx. eapply masked_strings_clean; [done|done|]. by rewrite Em.
      * intros Hj Hh. destruct (json_round 0 false masked Hj Hh) as (text & Ht & Hd). unfold EncodeJSON in Ee.
        cbn [rReturn with_return]. congruence.
    + rewrite Hu1, Hu2, Hu3, Em. cbn [fst]. split_and!; [done| |done|done]. right. right. done.
  - split_and!; [done| |done|done]. left. split; [done|]. intros x. apply mask_unchanged_clean; [done|done|]. by rewrite Em.
Qed.

Lemma AddReturn_inl io r c e c' : AddReturn io r c = (inl e, c') → c' = c.
Proof. unfold AddReturn. repeat case_match; intros Heq; by simplify_eq. Qed.

Lemma Update_filed io id g c : filed (Update io id g c).2 = filed c.
Proof.
  unfold Update. destruct (Get io id c); [done|]. destruct (checkSchema _); [done|]. destruct (g j) as [j'|]; [|done].
  destruct (Put io j' c) as [e c'] eqn:E. assert (filed c' = filed c) as Hf; [|by destruct e].
  unfold Put in E. repeat case_match; simplify_eq; done.
Qed.

Lemma completeIfDone_filed io id c : filed (completeIfDone io id c) = filed c.
Proof. unfold completeIfDone. destruct (Missing io id c) as [|[|]]; [done| |done]. apply Update_filed. Qed.

(** C8: a return is filed for the node that may answer, without its secrets.
    Where the hub answers that a return was filed as new, however handlers
    interleaved before, the return in the cache names the node of the
    certificate it came on, or a node the configuration lets that relay claim;
    the job was sent to that node; and its arguments and its body, which is also
    what a relay forwards, hold no recorded secret: a body that is JSON is kept
    only if no string or key of the value in it holds one, and is otherwise the
    encoding of such a value; a body that is not is held to its text.  Recorded
    secrets are taken to be free of asterisks, which masking writes.  Whatever
    else the answer is, the cache is as it was. *)
Theorem filed_return_is_attributed_and_masked {P} cfg keys nc (h : hub_state (P := P)) s c io1 io2 io3 up cert r answer c' :
  rtc (fleet_step cfg) (start keys nc) h → set_ok s → set_starless s →
  returned (hFleet h) (Some s) (Some c) io1 io2 io3 up cert r = (answer, Some c') →
  match answer with
  | Filed true _ fwd =>
      ∃ r', filed c' = filed (file_return r' c) ∧ (rNodeID r = "" ∨ rNodeID r = rNodeID r') ∧ rJID r' = rJID r ∧
        (rNodeID r' = cert ∨ claimable cfg cert (rNodeID r')) ∧
        (∃ j, records c !! rJID r' = Some j ∧ rNodeID r' ∈ Nodes j) ∧
        (∀ a, a ∈ rFunArgs r' → clean s a) ∧ body_clean s (rReturn r) (rReturn r') ∧ fwd = (if up then Some r' else None)
  | _ => c' = c
  end.
Proof.
  intros Hr Hs Hst. apply fleet_reachable_ok in Hr. unfold returned.
  destruct (negb (bool_decide (rNodeID r = "")) && negb (bool_decide (rNodeID r = cert)) && negb (relayMayReturn cert (rNodeID r) (hFleet h))) eqn:Ey;
    [by intros Heq; injection Heq as <- <-|].
  set (r1 := if bool_decide (rNodeID r = "") then with_node r cert else r).
  set (r2 := if bool_decide (rSchema r1 = "") then with_return_schema r1 ReturnSchema else r1).
  assert (rNodeID r2 = rNodeID r1 ∧ rJID r2 = rJID r ∧ rReturn r2 = rReturn r) as (Hn & Hj & Hb0).
  { unfold r2, r1. by destruct (bool_decide (rNodeID r = "")), (bool_decide (rSchema _ = "")). }
  assert ((rNodeID r = "" ∨ rNodeID r = rNodeID r1) ∧ (rNodeID r1 = cert ∨ claimable cfg cert (rNodeID r1))) as [Hown Hmay].
  { unfold r1. case_bool_decide as He; [by split; left|]. split; [by right|]. cbn [negb andb] in Ey.
    case_bool_decide as Hc; [by left|]. cbn [negb andb] in Ey. apply negb_false_iff in Ey. unfold relayMayReturn, RelayFor in Ey.
    rewrite bool_decide_false in Ey by congruence. destruct (via (hFleet h) !! rNodeID r) as [v|] eqn:Ev; [|done].
    apply bool_decide_eq_true in Ey as ->. right. by apply (ok_via _ _ Hr). }
  destruct (bool_decide (rFun r2 = "pong") && bool_decide (rJID r2 = "")); [by intros Heq; injection Heq as <- <-|].
  destruct (scrubReturn_clean s r2 Hs Hst) as (Ha & Hb & Hj' & Hn'). rewrite Hb0 in Hb.
  set (r3 := hub_scrubReturn (Some s) r2) in *.
  destruct (AddReturn io1 r3 c) as [[e|[|]] c1] eqn:Eadd.
  - intros Heq; injection Heq as <- <-. by apply AddReturn_inl in Eadd.
  - intros Heq; injection Heq as <- <-. apply AddReturn_inr in Eadd as (_ & _ & _ & Hjob & [(? & _)|(_ & ->)]); [done|].
    exists r3. rewrite completeIfDone_filed. rewrite Hn', Hn, Hj', Hj in *. by split_and!.
  - intros Heq; injection Heq as <- <-. by apply AddReturn_inr in Eadd as (_ & _ & _ & _ & [(_ & _ & ->)|(? & _)]).
Qed.

(** ** Numbered keys *)

Definition candidate (key : string) (n : Z) : string := key +:+ " (" +:+ FormatInt n +:+ ")".

Lemma candidate_inj key n n' : candidate key n = candidate key n' → n = n'.
Proof.
  unfold candidate. intros E%(f_equal list_ascii_of_string). rewrite !list_ascii_app in E. apply app_inv_head, app_inv_head, app_inv_tail in E.
  apply (inj pretty). apply (f_equal string_of_list_ascii) in E. by rewrite !string_of_list_ascii_of_string in E.
Qed.

Lemma unused_go_taken fuel out key n :
  Has out (VString (unused_go fuel out key n)) = true →
  ∀ i, (i ≤ fuel)%nat → Has out (VString (candidate key (n + Z.of_nat i))) = true.
Proof.
  revert n. induction fuel as [|fuel IH]; intros n; cbn [unused_go]; fold (candidate key n).
  - intros Hh i Hi. replace (n + Z.of_nat i) with n by lia. done.
  - destruct (Has out (VString (candidate key n))) eqn:E; [|congruence]. intros Hh [|i] Hi; [by rewrite Z.add_0_r|].
    replace (n + Z.of_nat (S i)) with (n + 1 + Z.of_nat i) by lia. apply IH; [done|lia].
Qed.

(** the search for an unused key ends, within one candidate more than the
    mapping has entries, and the key it gives is not taken. *)
Theorem unused_key_is_unused out key : map_wf out → Has out (VString (unusedKey out key)) = false.
Proof.
  intros Hwf. unfold unusedKey. destruct (Has out (VString key)) eqn:Ek; [|done].
  destruct (Has out (VString (unused_go _ _ _ _))) eqn:Eh; [|done]. exfalso. pose proof (unused_go_taken _ _ _ _ Eh) as Hall.
  set (l := (λ i, CanonKey (VString (candidate key (2 + Z.of_nat i)))) <$> seq 0 (S (Len out))).
  assert (NoDup l) as Hnd.
  { apply NoDup_fmap_2_strong; [|apply NoDup_seq]. intros i j _ _ E. cbn [CanonKey] in E. change ("s" +:+ ?t) with (String "s" t) in E.
    injection E as E. apply candidate_inj in E. lia. }
  assert (l ⊆ ckeys out) as Hsub.
  { intros x (i & -> & [_ Hi]%elem_of_seq)%list_elem_of_fmap. specialize (Hall i ltac:(lia)).
    unfold Has in Hall. apply bool_decide_eq_true in Hall. by apply Get_is_Some. }
  pose proof (submseteq_length _ _ (NoDup_submseteq _ _ Hnd Hsub)) as Hlen.
  unfold l, ckeys, Len in Hlen. rewrite !length_fmap, length_seq in Hlen. lia.
Qed.
End returns.

(** ** Runs *)

#[local] Instance no_runtime_return : Runtime :=
  {| Sprint := λ _, ""; TypeString := λ _, ""; time_ParseDuration := λ _, None; ParseFloat := λ _, None; IsPrint := λ _, false |}.

Definition demo_secrets : Set_ := foldl Add New ["hunter2-token"; "pw"].
Definition demo_jid : string := "20260819T142211023456".
Definition demo_answer : Return_ := mkReturn demo_jid "" "pillar.get" ["hunter2-token"] true 0 (marshal_string "got hunter2-token") "" "" 1 "" "" 0.

Lemma demo_starless : set_starless demo_secrets.
Proof.
  intros w Hw%Adds_elem. destruct Hw as [[Hw|Hw]|(t & Ht & -> & _)]; [by apply not_elem_of_nil in Hw|by apply elem_of_empty in Hw|].
  repeat apply elem_of_cons in Ht as [->|Ht]; [vm_compute; repeat split; discriminate..|by apply not_elem_of_nil in Ht].
Qed.

Lemma filed_return_is_attributed_and_masked_witness :
  ∃ events c' r', returned (hFleet demo_open) (Some demo_secrets) (Some demo_cache) disk_fine disk_fine disk_fine true "web1" demo_answer =
    (Filed true events (Some r'), Some c') ∧ (∀ a, a ∈ rFunArgs r' → clean demo_secrets a) ∧
    body_clean demo_secrets (rReturn demo_answer) (rReturn r').
Proof.
  destruct (returned (hFleet demo_open) (Some demo_secrets) (Some demo_cache) disk_fine disk_fine disk_fine true "web1" demo_answer) as [[| | | |[|] events [r'|]] [c'|]] eqn:E;
    try (exfalso; vm_compute in E; discriminate E).
  exists events, c', r'. split; [reflexivity|].
  pose proof (filed_return_is_attributed_and_masked demo_relays (Some {["relay1"]}) None demo_open demo_secrets demo_cache disk_fine disk_fine disk_fine
    true "web1" demo_answer _ c' demo_open_reachable (Adds_ok _ _ New_ok) demo_starless E) as (r'' & _ & _ & _ & _ & _ & Ha & Hb & [= <-]).
  split; [exact Ha|exact Hb].
Defined.

Lemma unused_key_is_unused_witness :
  let out := MapOf [(VString "k", VNull); (VString "k (2)", VNull)] in
  Has out (VString (unusedKey out "k")) = false ∧ unusedKey out "k" = "k (3)".
Proof. intros out. split; [|vm_compute; reflexivity]. apply (unused_key_is_unused out "k"). apply MapOf_wf. Defined.

(** A key that needs no scrubbing is not looked for, so an entry whose key was
    scrubbed to the same text before it is lost. *)
Example plain_key_replaces_a_scrubbed_one :
  scrubData (Some demo_secrets) (VMap (MapOf [(VString "hunter2-token", VInt 1); (VString Placeholder, VInt 2)])) =
    VMap (MapOf [(VString Placeholder, VInt 2)]) ∧
  scrubData (Some demo_secrets) (VMap (MapOf [(VString Placeholder, VInt 2); (VString "hunter2-token", VInt 1)])) =
    VMap (MapOf [(VString Placeholder, VInt 2); (VString (Placeholder +:+ " (2)"), VInt 1)]).
Proof. split; vm_compute; reflexivity. Qed.
