(* ===== verification/TemplateLex.v ===== *)
(** * Templates: the lexer

    Models src/internal/template/lex.go: a template into text, delimiters and
    the tokens between them, with whitespace control, raw blocks and the cache
    of the next delimiters.  The lexer's fields are a record; [src], the file,
    the delimiters and the options do not change and are parameters.

    Each loop has one turn more than there is source to read.  Running out of
    turns and an index out of range are errors of the model that the code has
    no message for; [TemplateLexSafe] shows that they do not happen. *)

From S2P Require Import Prelude GoLib.
From Stdlib Require Import SpecFloat.

Open Scope Z_scope.

(** ** Code that may stop with an error *)

Definition EM (E S A : Type) : Type := S → E + A * S.
#[global] Instance EM_ret E S : MRet (EM E S) := λ A x s, inr (x, s).
#[global] Instance EM_bind E S : MBind (EM E S) := λ A B f m s,
  match m s with inl e => inl e | inr (x, s') => f x s' end.

Definition em_get {E S A} (f : S → A) : EM E S A := λ s, inr (f s, s).
Definition em_modify {E S} (f : S → S) : EM E S unit := λ s, inr (tt, f s).
Definition em_fail {E S A} (e : E) : EM E S A := λ _, inl e.

(** ** Tokens *)

Record TPos := mkTPos { tFile : string; tLine : Z; tCol : Z }.

Inductive tokenKind :=
| tokEOF | tokText | tokVarStart | tokVarEnd | tokTagStart | tokTagEnd
| tokName | tokString | tokInt | tokFloat | tokOp.
#[global] Instance tokenKind_eq_dec : EqDecision tokenKind.
Proof. solve_decision. Defined.

Inductive number := NoNum | NumInt (z : Z) | NumFloat (f : spec_float).

Record token := mkToken { kind : tokenKind; val : string; num : number; tpos : TPos }.

Inductive tmsg :=
| Panics | OutOfTurns
| UnterminatedComment | UnterminatedTag (close : string)
| UnterminatedRaw (name : string) | NoEndTag (name endTag : string)
| UnexpectedChar (r : rune) | InvalidNumber (text : string)
| UnterminatedString | TruncatedEscape | InvalidEscape
| Expected (want : string) (found : token) | UnexpectedToken (t : token) | UnexpectedInExpr (t : token)
| UnexpectedEnd (endTags : list string) | UnexpectedEndTag (name : string)
| StatementsTooDeep (limit : Z) | ExprTooDeep (limit : Z)
| UnknownTag (name : string) | UnsupportedTag (name : string)
| OutsideLoop (name : string) | EndblockMismatch (closing name : string)
| ExpectedTest (t : token) | ExpectedAttr (t : token) | SliceParts | EmptySubscript.

Record Error := mkError { ePos : TPos; eMsg : tmsg }.

(** ** The lexer *)

Record Delimiters := mkDelims {
  VarStart : string; VarEnd : string; BlockStart : string; BlockEnd : string; CommentStart : string; CommentEnd : string }.

Definition DefaultDelimiters : Delimiters := mkDelims "{{" "}}" "{%" "%}" "{#" "#}".

Record lexOptions := mkLexOptions { TrimBlocks : bool; LstripBlocks : bool }.

(** The opening delimiters, in the order in which they are looked for. *)
Inductive opener := OpenVar | OpenBlock | OpenComment.
#[global] Instance opener_eq_dec : EqDecision opener.
Proof. solve_decision. Defined.

(** An unfilled entry of the cache is [None]. *)
Record lexer := mkLexer {
  off : nat; line : Z; col : Z; toks : list token;
  trimNextText : bool; atLineStart : bool; keepNextText : bool;
  bracketDepth : nat; nextDelim : opener → option nat; scanned : nat }.

Definition NLc : ascii := "010".
Definition white : list ascii := [" "%char; "009"%char; "013"%char; NLc].
Definition blank : list ascii := [" "%char; "009"%char].

(** strings.TrimLeft with an ASCII cutset, and what else of package strings the
    lexer uses. *)
Definition TrimLeftSet (cs : list ascii) (s : string) : string :=
  string_of_list_ascii (drop_cut cs (list_ascii_of_string s)).
Definition TrimSet (cs : list ascii) (s : string) : string := TrimRight cs (TrimLeftSet cs s).
Fixpoint CountByte (c : ascii) (s : string) : nat :=
  match s with EmptyString => O | String a r => (if decide (a = c) then 1 else 0) + CountByte c r end%nat.
Fixpoint IndexAny (cs : list ascii) (s : string) : option nat :=
  match s with
  | EmptyString => None
  | String a r => if bool_decide (a ∈ cs) then Some O else S <$> IndexAny cs r
  end.
Definition byte_at (i : nat) (s : string) : option ascii :=
  match sdrop i s with String a _ => Some a | EmptyString => None end.
Definition is_byte (c : ascii) (o : option ascii) : bool := bool_decide (o = Some c).

(** The number of leading bytes that satisfy [f]. *)
Fixpoint span_of (f : ascii → bool) (s : string) : nat :=
  match s with EmptyString => O | String a r => if f a then S (span_of f r) else O end.

Definition isNameByte (c : ascii) : bool :=
  bool_decide (c = "_"%char) || in_range 97 122 (byte_of c) || in_range 65 90 (byte_of c) || (128 <=? byte_of c).
Definition is_digit (c : ascii) : bool := in_range 48 57 (byte_of c).
Definition isNameRest (c : ascii) : bool := isNameByte c || is_digit c.

Inductive followedBy := followedByNothing | followedByVariable | followedByBlock | followedByComment.
Definition kindFollowing (o : opener) : followedBy :=
  match o with OpenVar => followedByVariable | OpenBlock => followedByBlock | OpenComment => followedByComment end.
Definition stripsLeadingWhitespace (f : followedBy) : bool :=
  match f with followedByBlock | followedByComment => true | _ => false end.

Definition delim_of (d : Delimiters) (o : opener) : string :=
  match o with OpenVar => VarStart d | OpenBlock => BlockStart d | OpenComment => CommentStart d end.
Definition openers : list opener := [OpenVar; OpenBlock; OpenComment].

(** Scanning with fmt.Sscanf("%x"): blanks are passed over, a line break is an
    error, the digits that follow are read, and the rest is left. *)
Definition hex_val (r : rune) : option Z :=
  if in_range 48 57 r then Some (r - 48)
  else if in_range 97 102 r then Some (r - 87)
  else if in_range 65 70 r then Some (r - 55)
  else None.
Fixpoint hex_digits (acc : Z) (l : list rune) : Z :=
  match l with
  | r :: l' => match hex_val r with Some d => hex_digits (acc * 16 + d) l' | None => acc end
  | [] => acc
  end.
Fixpoint scan_hex (l : list rune) : option Z :=
  match l with
  | [] => None
  | r :: l' =>
      if r =? 10 then None else if IsSpace r then scan_hex l'
      else d ← hex_val r; Some (hex_digits d l')
  end.

(** strings.Builder.WriteRune *)
Definition write_rune (v : Z) : string :=
  string_of_bytes (EncodeRune (if in_range 0 1114111 v && negb (in_range 55296 57343 v) then v else RuneError)).

(** ** Strings *)

Definition escape_len (e : ascii) : option nat :=
  if bool_decide (e = "x"%char) then Some 2%nat
  else if bool_decide (e = "u"%char) then Some 4%nat
  else if bool_decide (e = "U"%char) then Some 8%nat
  else None.
Definition plain_escape (e : ascii) : option ascii :=
  if bool_decide (e = "n"%char) then Some NLc
  else if bool_decide (e = "t"%char) then Some "009"%char
  else if bool_decide (e = "r"%char) then Some "013"%char
  else if bool_decide (e = "\"%char) then Some "\"%char
  else if bool_decide (e = "'"%char) then Some "'"%char
  else if bool_decide (e = "034"%char) then Some "034"%char
  else if bool_decide (e = "0"%char) then Some "000"%char
  else None.

(** What an escape writes, and how many bytes it takes behind its letter. *)
Definition escape_text (e : ascii) (r : string) : tmsg + string * nat :=
  match plain_escape e with
  | Some a => inr (String a "", O)
  | None =>
      match escape_len e with
      | Some n =>
          if (String.length r <? n)%nat then inl TruncatedEscape
          else match scan_hex (runes (stake n r)) with
          | None => inl InvalidEscape
          | Some v => inr (if bool_decide (e = "x"%char) then string_of_bytes [v mod 256] else write_rune v, n)
          end
      | None => inr (String "\" (String e ""), O)
      end
  end.

(** The text of a literal behind its opening quote, and the bytes it takes with
    the closing one. *)
Fixpoint string_go (quote : ascii) (skip : nat) (s : string) : tmsg + string * nat :=
  match s with
  | EmptyString => inl UnterminatedString
  | String c r =>
      match skip with
      | S k => match string_go quote k r with inr (t, n) => inr (t, S n) | inl e => inl e end
      | O =>
          if decide (c = quote) then inr ("", 1%nat)
          else
            let continue (piece : string) (k : nat) :=
              match string_go quote k r with inr (t, n) => inr (piece +:+ t, S n) | inl e => inl e end in
            match r with
            | String e r' =>
                if decide (c = "\"%char) then
                  match escape_text e r' with
                  | inl m => inl m
                  | inr (piece, n) => continue piece (S n)
                  end
                else continue (String c "") O
            | EmptyString => continue (String c "") O
            end
      end
  end.

(** ** Numbers *)

Definition digit_at (i : nat) (s : string) : bool := match byte_at i s with Some c => is_digit c | None => false end.
Definition sign_at (i : nat) (s : string) : bool := is_byte "+" (byte_at i s) || is_byte "-" (byte_at i s).

Fixpoint number_go (skip : nat) (isFloat : bool) (s : string) : nat * bool :=
  match s with
  | EmptyString => (O, isFloat)
  | String c r =>
      let take k f := let '(n, f') := number_go k f r in (S n, f') in
      match skip with
      | S k => take k isFloat
      | O =>
          if is_digit c || bool_decide (c = "_"%char) then take O isFloat
          else if bool_decide (c = "."%char) then
            if digit_at 0 r && negb isFloat then take O true else (O, isFloat)
          else if bool_decide (c = "e"%char) || bool_decide (c = "E"%char) then
            if digit_at 0 r then take 1%nat true
            else if sign_at 0 r && digit_at 1 r then take 2%nat true
            else (O, isFloat)
          else (O, isFloat)
      end
  end.

Fixpoint remove_byte (c : ascii) (s : string) : string :=
  match s with EmptyString => EmptyString | String a r => if decide (a = c) then remove_byte c r else String a (remove_byte c r) end.

(** What fmt.Sscanf("%g") takes of a text that begins with a digit and holds
    digits, points, exponents and signs: one fraction and one exponent. *)
Definition float_token (s : string) : string :=
  let n := span_of is_digit s in
  let n := (if is_byte "." (byte_at n s) then S n + span_of is_digit (sdrop (S n) s) else n)%nat in
  let n := if is_byte "e" (byte_at n s) || is_byte "E" (byte_at n s) then
             let k := if sign_at (S n) s then S (S n) else S n in
             (k + span_of is_digit (sdrop k s))%nat
           else n in
  stake n s.

(** ** The end of a raw block *)

Definition slice_of (i j : nat) (s : string) : string := stake (j - i) (sdrop i s).

(** The body, the bytes to pass, and the markers at either side of the tag. *)
Fixpoint end_tag_go (turns : nat) (src : string) (d : Delimiters) (endTag : string) (depth i : nat)
    : tmsg + option (string * nat * bool * bool) :=
  match turns with
  | O => inl OutOfTurns
  | S turns =>
      if (String.length src <=? i)%nat then inr None
      else match Index (sdrop i src) (BlockStart d) with
      | None => inr None
      | Some j0 =>
          let j := (j0 + i)%nat in
          let after := (j + String.length (BlockStart d))%nat in
          if (String.length src <? after)%nat then inr None
          else match Index (sdrop after src) (BlockEnd d) with
          | None => inr None
          | Some k0 =>
              let k := (k0 + after)%nat in
              let inner := TrimSpace (TrimSet ["-"%char] (slice_of after k src)) in
              let word := match IndexAny blank inner with Some sp => stake sp inner | None => inner end in
              let next depth := end_tag_go turns src d endTag depth (k + String.length (BlockEnd d)) in
              if decide (word = TrimPrefix endTag "end") then next (S depth)
              else if decide (word = endTag) then
                match depth with
                | S depth => next depth
                | O =>
                    match byte_at after src, k with
                    | Some a, S k' =>
                        inr (Some (stake j src, (k + String.length (BlockEnd d))%nat, bool_decide (a = "-"%char), is_byte "-" (byte_at k' src)))
                    | _, _ => inl Panics
                    end
                end
              else next depth
          end
      end
  end.
Definition findEndTag (src : string) (d : Delimiters) (endTag : string) : tmsg + option (string * nat * bool * bool) :=
  end_tag_go (S (String.length src)) src d endTag 0 0.

Section lexer.
Context {V : Type} {RT : GoRuntime V} (src file : string) (delims : Delimiters) (opts : lexOptions).

Definition newLexer : lexer := mkLexer 0 1 1 [] false true false 0 (λ _, None) 0.

Definition rest (l : lexer) : string := sdrop (off l) src.
Definition eof (l : lexer) : bool := (String.length src <=? off l)%nat.
Definition pos (l : lexer) : TPos := mkTPos file (line l) (col l).

Definition set_flags (trim start keep : bool) (l : lexer) : lexer :=
  mkLexer (off l) (line l) (col l) (toks l) trim start keep (bracketDepth l) (nextDelim l) (scanned l).
Definition set_depth (n : nat) (l : lexer) : lexer :=
  mkLexer (off l) (line l) (col l) (toks l) (trimNextText l) (atLineStart l) (keepNextText l) n (nextDelim l) (scanned l).
Definition set_next (o : opener) (i n : nat) (l : lexer) : lexer :=
  mkLexer (off l) (line l) (col l) (toks l) (trimNextText l) (atLineStart l) (keepNextText l) (bracketDepth l)
    (λ o', if decide (o' = o) then Some i else nextDelim l o') (scanned l + n).
Definition emit (t : token) (l : lexer) : lexer :=
  mkLexer (off l) (line l) (col l) (toks l ++ [t]) (trimNextText l) (atLineStart l) (keepNextText l) (bracketDepth l)
    (nextDelim l) (scanned l).

Definition advance_one (l : lexer) : lexer :=
  match rest l with
  | EmptyString => l
  | String c _ =>
      mkLexer (S (off l)) (if decide (c = NLc) then line l + 1 else line l) (if decide (c = NLc) then 1 else col l + 1)
        (toks l) (trimNextText l) (atLineStart l) (keepNextText l) (bracketDepth l) (nextDelim l) (scanned l)
  end.
Definition advance (n : nat) (l : lexer) : lexer := Nat.iter n advance_one l.

Definition L (A : Type) : Type := EM Error lexer A.
Definition fail_at {A} (p : TPos) (m : tmsg) : L A := em_fail (mkError p m).

(** ** Finding delimiters *)

Definition search (o : opener) (l : lexer) : lexer :=
  match Index (rest l) (delim_of delims o) with
  | Some i => set_next o (off l + i) (i + String.length (delim_of delims o)) l
  | None => set_next o (String.length src) (String.length src - off l) l
  end.
Definition fill (o : opener) (l : lexer) : lexer :=
  match nextDelim l o with
  | Some i => if (i <? off l)%nat then search o l else l
  | None => search o l
  end.
Definition better (at_ : option nat) (o : opener) (best : option (nat * opener)) : option (nat * opener) :=
  match at_ with
  | Some i =>
      if (i <? String.length src)%nat && match best with Some (b, _) => (i <? b)%nat | None => true end then Some (i, o) else best
  | None => best
  end.
Definition findNextDelim (l : lexer) : option (nat * opener) * lexer :=
  foldl (λ '(best, l) o, let l' := fill o l in (better (nextDelim l' o) o best, l')) (None, l) openers.

(** ** Text *)

(** The whitespace between the start of a line and a tag. *)
Definition strip_line (s : string) : option string :=
  match LastIndexByte NLc s with
  | Some i => Some (if bool_decide (TrimLeftSet blank (sdrop (S i) s) = "") then stake (S i) s else s)
  | None => None
  end.

(** What the tag before takes of the text, and whether it took a line break. *)
Definition text_left (raw : string) (l : lexer) : string * bool :=
  if trimNextText l then (TrimLeftSet white raw, false)
  else if keepNextText l then (raw, false)
  else if TrimBlocks opts && has_prefix (String "013" (String NLc "")) raw then (sdrop 2 raw, true)
  else if TrimBlocks opts && has_prefix (String NLc "") raw then (sdrop 1 raw, true)
  else (raw, false).

(** What the tag behind takes of it. *)
Definition text_right (s : string) (trimAfter keepBefore start : bool) (next : followedBy) : string :=
  if trimAfter then TrimRight white s
  else if LstripBlocks opts && negb keepBefore && stripsLeadingWhitespace next then
    match strip_line s with
    | Some s' => s'
    | None => if start && bool_decide (TrimLeftSet blank s = "") then "" else s
    end
  else s.

Definition emitText (raw : string) (trimAfter keepBefore : bool) (next : followedBy) (l : lexer) : lexer :=
  let '(s, openedLine) := text_left raw l in
  let start := atLineStart l || openedLine in
  let skippedLines := CountByte NLc (stake (String.length raw - String.length s) raw) in
  let s := text_right s trimAfter keepBefore start next in
  let l' := set_flags false (if bool_decide (s = "") then start else HasSuffix s (String NLc "")) false l in
  if bool_decide (s = "") then l'
  else emit (mkToken tokText s NoNum
         (mkTPos file (line l + Z.of_nat skippedLines) (if (0 <? skippedLines)%nat then 1 else col l))) l'.

(** ** Comments and raw blocks *)

Definition is_marker (o : option ascii) : bool := is_byte "-" o || is_byte "+" o.
Definition skip_marker (l : lexer) : lexer := if is_marker (byte_at (off l) src) then advance 1 l else l.
(** The byte before place [i] of what is left, if it is [c]. *)
Definition marked (c : ascii) (i : nat) (l : lexer) : bool :=
  match i with S k => is_byte c (byte_at (off l + k) src) | O => false end.

Definition lexComment : L unit := λ l,
  let start := pos l in
  let l := skip_marker (advance (String.length (CommentStart delims)) l) in
  match Index (rest l) (CommentEnd delims) with
  | None => fail_at start UnterminatedComment l
  | Some i =>
      let l' := advance (i + String.length (CommentEnd delims)) l in
      inr (tt, set_flags (marked "-" i l) (atLineStart l') (marked "+" i l) l')
  end.

Definition peekTagName (l : lexer) : option string :=
  let i := (off l + String.length (BlockStart delims))%nat in
  let i := if is_marker (byte_at i src) then S i else i in
  let i := (i + span_of (λ c, bool_decide (c ∈ blank)) (sdrop i src))%nat in
  match sdrop i src with
  | String c r => if isNameByte c then Some (String c (stake (span_of isNameRest r) r)) else None
  | EmptyString => None
  end.

Definition lexRaw (name : string) : L unit := λ l,
  let start := pos l in
  match Index (rest l) (BlockEnd delims) with
  | None => fail_at start (UnterminatedRaw name) l
  | Some i =>
      let trimAfterOpen := marked "-" i l in
      let l := advance (i + String.length (BlockEnd delims)) l in
      let endTag := "end" +:+ name in
      match findEndTag (rest l) delims endTag with
      | inl m => fail_at start m l
      | inr None => fail_at start (NoEndTag name endTag) l
      | inr (Some (body, consumed, trimBeforeClose, trimAfterClose)) =>
          let body := if trimAfterOpen then TrimLeftSet white body else body in
          let body :=
            if trimBeforeClose then TrimRight white body
            else if LstripBlocks opts then default body (strip_line body)
            else body in
          let l1 := if bool_decide (body = "") then l else emit (mkToken tokText body NoNum (pos l)) l in
          let l2 := advance consumed (set_flags (trimNextText l1) (HasSuffix body (String NLc "")) (keepNextText l1) l1) in
          inr (tt, set_flags trimAfterClose (atLineStart l2) (keepNextText l2) l2)
      end
  end.

(** ** Expressions *)

Definition skipTagSpace (l : lexer) : lexer := advance (span_of (λ c, bool_decide (c ∈ white)) (rest l)) l.

Definition lexNumber (p : TPos) : L unit := λ l,
  let '(n, isFloat) := number_go 0 false (rest l) in
  let text := remove_byte "_" (stake n (rest l)) in
  let l := advance n l in
  if isFloat then
    match ParseFloat (float_token text) with
    | Some f => inr (tt, emit (mkToken tokFloat text (NumFloat f) p) l)
    | None => fail_at p (InvalidNumber text) l
    end
  else
    match Atoi text with
    | Some n => inr (tt, emit (mkToken tokInt text (NumInt n) p) l)
    | None => fail_at p (InvalidNumber text) l
    end.

Definition lexString (p : TPos) : L unit := λ l,
  match rest l with
  | EmptyString => fail_at p Panics l
  | String quote r =>
      match string_go quote 0 r with
      | inl m => fail_at p m l
      | inr (text, n) => inr (tt, emit (mkToken tokString text NoNum p) (advance (S n) l))
      end
  end.

Definition operators : list string := ["//"; "**"; "=="; "!="; "<="; ">="; "and"; "or"].
Definition punctuation : list ascii := list_ascii_of_string "+-*/%~<>=|.,:()[]{}!".
Definition opening : list ascii := ["("%char; "["%char; "{"%char].
Definition closing : list ascii := [")"%char; "]"%char; "}"%char].

Definition lexOne : L unit := λ l,
  let p := pos l in
  match rest l with
  | EmptyString => fail_at p Panics l
  | String c r =>
      if isNameByte c then
        let name := String c (stake (span_of isNameRest r) r) in
        inr (tt, emit (mkToken tokName name NoNum p) (advance (String.length name) l))
      else if is_digit c then lexNumber p l
      else if bool_decide (c = "'"%char) || bool_decide (c = "034"%char) then lexString p l
      else match list_find (λ op, has_prefix op (String c r) = true) operators with
      | Some (_, op) => inr (tt, emit (mkToken tokOp op NoNum p) (advance (String.length op) l))
      | None =>
          if bool_decide (c ∈ punctuation) then
            let depth := if bool_decide (c ∈ opening) then S (bracketDepth l)
                         else if bool_decide (c ∈ closing) then pred (bracketDepth l)
                         else bracketDepth l in
            inr (tt, emit (mkToken tokOp (String c "") NoNum p) (advance 1 (set_depth depth l)))
          else if IsSpace (byte_of c) then inr (tt, advance 1 l)
          else fail_at p (UnexpectedChar (byte_of c)) l
      end
  end.

Fixpoint tag_go (turns : nat) (start : TPos) (close : string) (closeKind : tokenKind) : L unit :=
  match turns with
  | O => fail_at start OutOfTurns
  | S turns => λ l,
      let l := skipTagSpace l in
      let finish n l := let l' := advance n l in emit (mkToken closeKind close NoNum (pos l')) l' in
      if eof l then fail_at start (UnterminatedTag close) l
      else if (bracketDepth l =? 0)%nat && is_marker (byte_at (off l) src) && has_prefix close (sdrop (S (off l)) src) then
        let l' := finish (S (String.length close)) l in
        inr (tt, set_flags (is_byte "-" (byte_at (off l) src)) (atLineStart l') (is_byte "+" (byte_at (off l) src)) l')
      else if (bracketDepth l =? 0)%nat && has_prefix close (rest l) then inr (tt, finish (String.length close) l)
      else (lexOne;; tag_go turns start close closeKind) l
  end.

Definition lexTag (open close : string) (openKind closeKind : tokenKind) : L unit := λ l,
  let start := pos l in
  let l := skip_marker (advance (String.length open) (emit (mkToken openKind open NoNum start) (set_depth 0 l))) in
  tag_go (S (String.length src)) start close closeKind l.

Definition lexBlock : L unit := λ l,
  match peekTagName l with
  | Some name =>
      if bool_decide (name = "raw") || bool_decide (name = "verbatim") then lexRaw name l
      else lexTag (BlockStart delims) (BlockEnd delims) tokTagStart tokTagEnd l
  | None => lexTag (BlockStart delims) (BlockEnd delims) tokTagStart tokTagEnd l
  end.

(** ** The template *)

Definition lex_tag_of (o : opener) : L unit :=
  match o with
  | OpenVar => lexTag (VarStart delims) (VarEnd delims) tokVarStart tokVarEnd
  | OpenBlock => lexBlock
  | OpenComment => lexComment
  end.

Definition emit_eof (l : lexer) : lexer := emit (mkToken tokEOF "" NoNum (pos l)) l.

Fixpoint run_go (turns : nat) : L unit :=
  match turns with
  | O => λ l, fail_at (pos l) OutOfTurns l
  | S turns => λ l,
      if eof l then inr (tt, emit_eof l)
      else
        let '(found, l) := findNextDelim l in
        match found with
        | None =>
            inr (tt, emit_eof (advance (String.length src - off l) (emitText (rest l) false false followedByNothing l)))
        | Some (next, o) =>
            let marker := byte_at (next + String.length (delim_of delims o)) src in
            let raw := slice_of (off l) next src in
            let n := (next - off l)%nat in
            let l := advance n (emitText raw (is_byte "-" marker) (is_byte "+" marker) (kindFollowing o) l) in
            (lex_tag_of o;; run_go turns) l
        end
  end.

Definition run : L unit := run_go (S (String.length src)).

Definition lex : Error + list token :=
  match run newLexer with inl e => inl e | inr (_, l) => inr (toks l) end.

End lexer.
