(* ===== verification/TemplateLexSafe.v ===== *)
(** * Templates: the lexer ends, and its cache is only a cache

    Every step of the lexer of [TemplateLex] moves forward, so it ends without
    an index out of range; the cached search for delimiters agrees with one
    from scratch, at a cost linear in the template; what is quoted is read
    back. *)

From S2P Require Import Prelude GoLib TemplateLex.
From Stdlib Require Import SpecFloat.

Open Scope nat_scope.

(** ** Counting bytes *)

Lemma span_of_le f s : span_of f s ≤ String.length s.
Proof. induction s as [|a s IH]; simpl; [lia|]. destruct (f a); lia. Qed.

Lemma number_go_le k f s : (number_go k f s).1 ≤ String.length s.
Proof.
  revert k f. induction s as [|a s IH]; intros k f; cbn [number_go String.length]; [simpl; lia|].
  repeat case_match; simpl; try lia;
    match goal with H : number_go ?k ?f s = _ |- _ => pose proof (IH k f) as Hn; rewrite H in Hn; simpl in Hn; lia end.
Qed.
Lemma number_go_digit c s : is_digit c = true → 1 ≤ (number_go 0 false (String c s)).1.
Proof. intros Hc. cbn [number_go]. rewrite Hc. simpl. destruct (number_go 0 false s). simpl. lia. Qed.

Lemma string_go_le q k s t n : string_go q k s = inr (t, n) → 1 ≤ n ≤ String.length s.
Proof.
  revert k t n. induction s as [|c s IH]; intros k t n; cbn [string_go String.length]; [done|].
  assert (∀ k piece, match string_go q k s with inr (t, n) => inr ((piece +:+ t)%string, S n) | inl e => inl e end = inr (t, n) → 1 ≤ n ≤ S (String.length s)) as Hc.
  { intros k' piece. destruct (string_go q k' s) as [|[t' n']] eqn:E; [done|]. intros [= <- <-]. apply IH in E. lia. }
  destruct k as [|k]; [|intros H; by apply (Hc k "")].
  destruct (decide (c = q)); [intros [= <- <-]; lia|].
  destruct s as [|e r]; [by apply Hc|]. destruct (decide (c = _)); [|by apply Hc].
  destruct (escape_text e r) as [|[piece m]]; [done|]. by apply Hc.
Qed.

Lemma string_go_fine q k s e : string_go q k s = inl e → e ≠ Panics ∧ e ≠ OutOfTurns.
Proof.
  revert k. induction s as [|c s IH]; intros k; cbn [string_go]; [by intros [= <-]|].
  assert (∀ k piece, match string_go q k s with inr (t, n) => inr ((piece +:+ t)%string, S n) | inl e => inl e end = inl e → e ≠ Panics ∧ e ≠ OutOfTurns) as Hc.
  { intros k' piece. destruct (string_go q k' s) as [|[t' n']] eqn:E; [|done]. intros [= ->]. by eapply IH. }
  destruct k as [|k]; [|by apply (Hc k "")]. destruct (decide (c = q)); [done|].
  destruct s as [|e' r]; [by apply Hc|]. destruct (decide (c = _)); [|by apply Hc].
  destruct (escape_text e' r) as [m|[piece m]] eqn:E; [|by apply Hc]. intros [= <-].
  unfold escape_text in E. repeat case_match; by simplify_eq.
Qed.

Lemma byte_at_Some i s c : byte_at i s = Some c → i < String.length s.
Proof. unfold byte_at. intros H. pose proof (sdrop_length i s). destruct (sdrop i s); [done|]. simpl in *. lia. Qed.
Lemma byte_at_is_Some i s : i < String.length s → is_Some (byte_at i s).
Proof. unfold byte_at. intros H. pose proof (sdrop_length i s). destruct (sdrop i s); simpl in *; [lia|by eexists]. Qed.

Lemma Index_fits s v i : Index s v = Some i → i + String.length v ≤ String.length s.
Proof.
  revert i. induction s as [|a s IH]; intros i; cbn [Index]; destruct (has_prefix v _) eqn:E; try done.
  - intros [= <-]. by apply has_prefix_fits in E.
  - intros [= <-]. by apply has_prefix_fits in E.
  - intros (k & Hk & ->)%fmap_Some. apply IH in Hk. simpl. lia.
Qed.

(** ** The end of a raw block *)

Lemma TrimSpace_nil : TrimSpace "" = "".
Proof. reflexivity. Qed.

Lemma end_tag_go_ok turns src d name depth i :
  BlockStart d ≠ "" → name ≠ "" → i ≤ String.length src → String.length src < turns + i →
  match end_tag_go turns src d ("end" +:+ name) depth i with
  | inl _ => False
  | inr None => True
  | inr (Some (body, n, _, _)) => 1 ≤ n ≤ String.length src ∧ ∃ x, src = body +:+ x
  end.
Proof.
  intros Hb Hname. assert (1 ≤ String.length (BlockStart d)) as Hb1 by (destruct (BlockStart d); simpl; [done|lia]).
  revert depth i. induction turns as [|turns IH]; intros depth i Hi Ht; cbn [end_tag_go]; [lia|].
  destruct (Nat.leb_spec (String.length src) i); [done|].
  destruct (Index (sdrop i src) (BlockStart d)) as [j|] eqn:Ej; [|done].
  apply Index_fits in Ej. rewrite sdrop_length in Ej. set (after := j + i + String.length (BlockStart d)).
  destruct (Nat.ltb_spec (String.length src) after); [done|].
  destruct (Index (sdrop after src) (BlockEnd d)) as [k|] eqn:Ek; [|done].
  pose proof (Index_fits _ _ _ Ek) as Ek'. rewrite sdrop_length in Ek'.
  destruct (decide _); [apply IH; subst after; lia|].
  case_decide as Hw; [|apply IH; subst after; lia]. destruct depth as [|depth]; [|apply IH; subst after; lia].
  destruct (decide (after < String.length src)) as [Ha|Ha].
  - destruct (byte_at_is_Some _ _ Ha) as [a ->]. destruct (k + after) as [|k'] eqn:E; [subst after; lia|].
    split; [lia|]. exists (sdrop (j + i) src). by rewrite stake_sdrop.
  - exfalso. assert (sdrop after src = "") as Hs.
    { pose proof (sdrop_length after src). destruct (sdrop after src); [done|]. simpl in *. lia. }
    assert (slice_of after (k + after) src = "") as E by (unfold slice_of; rewrite Hs; by destruct (k + after - after)).
    rewrite E in Hw. change (TrimSpace (TrimSet ["-"%char] "")) with "" in Hw. done.
Qed.

(** ** Lines and columns *)

Lemma CountByte_app c s t : CountByte c (s +:+ t) = CountByte c s + CountByte c t.
Proof. induction s as [|a s IH]; [done|]. rewrite string_app_cons. cbn [CountByte]. rewrite IH. lia. Qed.

Lemma stake_add i j s : stake (i + j) s = stake i s +:+ stake j (sdrop i s).
Proof. revert s. induction i as [|i IH]; intros s; [by destruct s|]. destruct s as [|a s]; [by destruct j|]. cbn. by rewrite IH. Qed.

Lemma LastIndexByte_snoc c s a :
  LastIndexByte c (s +:+ String a "") = if decide (a = c) then Some (String.length s) else LastIndexByte c s.
Proof.
  induction s as [|b s IH]; [done|]. rewrite string_app_cons. cbn [LastIndexByte String.length]. rewrite IH.
  by destruct (decide (a = c)).
Qed.

Lemma sdrop_cons i s c r : sdrop i s = String c r → i < String.length s ∧ sdrop (S i) s = r ∧ stake (S i) s = stake i s +:+ String c "".
Proof.
  intros E. pose proof (sdrop_length i s) as Hl. rewrite E in Hl. simpl in Hl. split; [lia|]. split.
  - replace (S i) with (i + 1) by lia. by rewrite <- sdrop_add, E.
  - replace (S i) with (i + 1) by lia. by rewrite stake_add, E.
Qed.

(** The line and the column of a place in a text. *)
Definition line_at (src : string) (i : nat) : Z := 1 + Z.of_nat (CountByte NLc (stake i src)).
Definition col_at (src : string) (i : nat) : Z :=
  match LastIndexByte NLc (stake i src) with Some k => Z.of_nat (i - k) | None => Z.of_nat i + 1 end.

Lemma LastIndexByte_lt c s k : LastIndexByte c s = Some k → k < String.length s.
Proof.
  revert k. induction s as [|a s IH]; intros k; cbn; [done|]. destruct (LastIndexByte c s) as [i|]; [|case_decide]; intros [= <-]; [|lia].
  specialize (IH i eq_refl). lia.
Qed.

Lemma line_col_step src i c r :
  sdrop i src = String c r →
  line_at src (S i) = (if decide (c = NLc) then line_at src i + 1 else line_at src i)%Z ∧
  col_at src (S i) = (if decide (c = NLc) then 1 else col_at src i + 1)%Z.
Proof.
  intros (Hi & _ & E)%sdrop_cons. unfold line_at, col_at. rewrite E, CountByte_app, LastIndexByte_snoc. cbn [CountByte].
  rewrite stake_length by lia. case_decide; (split; [lia|]).
  - lia.
  - destruct (LastIndexByte NLc (stake i src)) as [k|] eqn:Ek; [|lia].
    apply LastIndexByte_lt in Ek. rewrite stake_length in Ek by lia. lia.
Qed.

(** ** Trimming *)

Definition all_white (s : string) : Prop := sall (λ a, a ∈ white) s.

Lemma drop_cut_split cs l : ∃ x, l = x ++ drop_cut cs l ∧ Forall (λ a, a ∈ cs) x.
Proof.
  induction l as [|a l (x & E & Hx)]; [by exists []|]. simpl. case_bool_decide; [|by exists []].
  exists (a :: x). split; [by rewrite E at 1|]. by constructor.
Qed.

Lemma of_list_app x y : string_of_list_ascii (x ++ y) = string_of_list_ascii x +:+ string_of_list_ascii y.
Proof. induction x as [|a x IH]; [done|]. exact (f_equal (String a) IH). Qed.
Lemma of_list_sall (P : ascii → Prop) x : Forall P x → sall P (string_of_list_ascii x).
Proof. by induction 1. Qed.

Lemma TrimLeftSet_split cs s : ∃ x, s = x +:+ TrimLeftSet cs s ∧ sall (λ a, a ∈ cs) x.
Proof.
  destruct (drop_cut_split cs (list_ascii_of_string s)) as (x & E & Hx). exists (string_of_list_ascii x). split; [|by apply of_list_sall].
  unfold TrimLeftSet. rewrite <- of_list_app, <- E. by rewrite string_of_list_ascii_of_string.
Qed.

Lemma TrimRight_split cs s : ∃ x, s = TrimRight cs s +:+ x ∧ sall (λ a, a ∈ cs) x.
Proof.
  destruct (drop_cut_split cs (reverse (list_ascii_of_string s))) as (x & E & Hx). exists (string_of_list_ascii (reverse x)).
  split; [|apply of_list_sall; by apply Forall_reverse].
  unfold TrimRight. rewrite <- of_list_app, <- reverse_app, <- E, reverse_involutive. by rewrite string_of_list_ascii_of_string.
Qed.

(** ** Moving forward *)

Section safe.
Context {V : Type} {RT : GoRuntime V} (src file : string) (delims : Delimiters) (opts : lexOptions).
Hypothesis Hopen : ∀ o, delim_of delims o ≠ "".

#[local] Abbreviation rest := (rest src).
#[local] Abbreviation advance := (advance src).
#[local] Abbreviation advance_one := (advance_one src).
#[local] Abbreviation len := (String.length src).

(** A text token stands in the source, after the blanks that were trimmed
    before it, and its line is that of the blanks or its own. *)
Definition text_ok (t : token) : Prop :=
  val t ≠ "" ∧ ∃ j i, j ≤ i ∧ has_prefix (val t) (sdrop i src) = true ∧ all_white (slice_of j i src) ∧ tLine (tpos t) = line_at src j.
Definition tok_ok (t : token) : Prop :=
  kind t ≠ tokEOF ∧ (kind t = tokText → text_ok t) ∧
  (kind t ≠ tokText → ∃ j, j ≤ len ∧ tpos t = mkTPos file (line_at src j) (col_at src j)).

Record lexer_ok (l : lexer) : Prop := {
  ok_off : off l ≤ len;
  ok_line : line l = line_at src (off l);
  ok_col : col l = col_at src (off l) }.

Record moves (l l' : lexer) : Prop := {
  mv_ok : lexer_ok l';
  mv_off : off l ≤ off l';
  mv_next : nextDelim l' = nextDelim l;
  mv_scan : scanned l' = scanned l;
  mv_toks : ∃ new, toks l' = toks l ++ new ∧ Forall tok_ok new }.

Lemma moves_refl l : lexer_ok l → moves l l.
Proof. intros Hl. constructor; try done. exists []. by rewrite app_nil_r. Qed.
Lemma moves_trans l1 l2 l3 : moves l1 l2 → moves l2 l3 → moves l1 l3.
Proof.
  intros [H1 H2 H3 H4 (n & H5 & H6)] [K1 K2 K3 K4 (m & K5 & K6)]. constructor; [done|lia|by rewrite K3|by rewrite K4|].
  exists (n ++ m). rewrite K5, H5, app_assoc. split; [done|]. by apply Forall_app.
Qed.

Lemma rest_cons l c r : rest l = String c r → off l < len.
Proof. by intros [? _]%sdrop_cons. Qed.

Lemma advance_one_moves l : lexer_ok l → moves l (advance_one l) ∧ off (advance_one l) = Nat.min (S (off l)) len.
Proof.
  intros Hl. unfold TemplateLex.advance_one. destruct (rest l) as [|c r] eqn:E.
  - split; [by apply moves_refl|]. unfold TemplateLex.rest in E. pose proof (sdrop_length (off l) src) as Hn. rewrite E in Hn. simpl in Hn.
    pose proof (ok_off _ Hl). lia.
  - pose proof (rest_cons _ _ _ E). destruct (line_col_step _ _ _ _ E) as [El Ec]. destruct Hl as [H1 H2 H3]. split.
    + constructor; simpl; try done; [|lia|]; [constructor; simpl; [lia|by rewrite El, H2|by rewrite Ec, H3]|].
      exists []. by rewrite app_nil_r.
    + cbn [off]. lia.
Qed.

Lemma advance_moves n l : lexer_ok l → moves l (advance n l) ∧ off (advance n l) = Nat.min (n + off l) len.
Proof.
  intros Hl. unfold TemplateLex.advance. induction n as [|n [IH Eo]].
  - split; [by apply moves_refl|]. pose proof (ok_off _ Hl). cbn. lia.
  - change (Nat.iter (S n) advance_one l) with (advance_one (Nat.iter n advance_one l)).
    destruct (advance_one_moves _ (mv_ok _ _ IH)) as [Hm Eo']. split; [by eapply moves_trans|]. rewrite Eo', Eo. lia.
Qed.

Lemma set_flags_moves a b c l : lexer_ok l → moves l (set_flags a b c l).
Proof. intros [H1 H2 H3]. constructor; try done. exists []. by rewrite app_nil_r. Qed.
Lemma set_depth_moves n l : lexer_ok l → moves l (set_depth n l).
Proof. intros [H1 H2 H3]. constructor; try done. exists []. by rewrite app_nil_r. Qed.
Lemma emit_moves t l : lexer_ok l → tok_ok t → moves l (emit t l).
Proof. intros [H1 H2 H3] Ht. constructor; try done. exists [t]. split; [done|]. by constructor. Qed.

Lemma tok_ok_at k v n l : lexer_ok l → k ≠ tokEOF → k ≠ tokText → tok_ok (mkToken k v n (pos file l)).
Proof.
  intros [H1 H2 H3] Hk Ht. split; [done|]. split; [done|]. intros _. exists (off l). split; [done|].
  unfold pos. simpl. by rewrite H2, H3.
Qed.

(** ** Text *)

Lemma strip_line_prefix s s' : strip_line s = Some s' → ∃ x, s = s' +:+ x.
Proof.
  unfold strip_line. destruct (LastIndexByte NLc s) as [i|]; [|done]. case_bool_decide; intros [= <-].
  - exists (sdrop (S i) s). symmetry. apply (stake_sdrop (S i)).
  - exists "". by rewrite string_app_nil_r.
Qed.

Lemma has_prefix_app_l s x t : has_prefix s (s +:+ x +:+ t) = true.
Proof. induction s as [|a s IH]; [done|]. rewrite string_app_cons. cbn [has_prefix]. by rewrite decide_True by done. Qed.

(** The text of [raw] at place [i], without what was trimmed in front. *)
Lemma text_at i raw x s y t :
  i + String.length raw ≤ len → stake (String.length raw) (sdrop i src) = raw → raw = x +:+ s → s = t +:+ y →
  has_prefix t (sdrop (i + String.length x) src) = true.
Proof.
  intros Hi Hr -> ->. rewrite <- sdrop_add. set (r := sdrop i src) in *.
  rewrite <- (stake_sdrop (String.length (x +:+ t +:+ y)) r), Hr, string_app_assoc.
  rewrite sdrop_past by lia. rewrite Nat.sub_diag. cbn [sdrop]. rewrite string_app_assoc. apply has_prefix_app_l.
Qed.

Lemma text_left_split raw l s b : text_left opts raw l = (s, b) → ∃ x, raw = x +:+ s ∧ all_white x.
Proof.
  unfold text_left. destruct (trimNextText l); [intros [= <- <-]; apply TrimLeftSet_split|].
  assert (∃ x, raw = x +:+ raw ∧ all_white x) as Hnil by (by exists "").
  destruct (keepNextText l); [by intros [= <- <-]|]. destruct (TrimBlocks opts); [|by intros [= <- <-]]. cbn [andb].
  destruct (has_prefix (String "013" (String NLc "")) raw) eqn:E1; [|destruct (has_prefix (String NLc "") raw) eqn:E2; [|by intros [= <- <-]]].
  all: intros Heq; injection Heq as <- <-.
  - apply has_prefix_app in E1 as [r ->]. exists (String "013" (String NLc "")). split; [done|]. repeat split; set_solver.
  - apply has_prefix_app in E2 as [r ->]. exists (String NLc ""). split; [done|]. repeat split; set_solver.
Qed.

Lemma text_right_split s a k st next : ∃ y, s = text_right opts s a k st next +:+ y.
Proof.
  assert (∃ y, s = s +:+ y) as Hnil by (exists ""; by rewrite string_app_nil_r).
  unfold text_right. destruct a; [destruct (TrimRight_split white s) as (y & E & _); by exists y|].
  destruct (_ && _); [|done]. destruct (strip_line s) as [s'|] eqn:E; [by apply strip_line_prefix|]. destruct (_ && _); [by exists s|done].
Qed.

Lemma raw_slice l n : lexer_ok l → off l ≤ n → n ≤ len →
  let raw := slice_of (off l) n src in off l + String.length raw = n ∧ stake (String.length raw) (rest l) = raw.
Proof.
  intros Hl H1 H2 raw. assert (String.length raw = n - off l) as E.
  { unfold raw, slice_of. apply stake_length. rewrite sdrop_length. lia. }
  rewrite E. split; [lia|done].
Qed.

Lemma emitText_moves n a k next l :
  lexer_ok l → off l ≤ n → n ≤ len → moves l (emitText file opts (slice_of (off l) n src) a k next l).
Proof.
  intros Hl H1 H2. destruct (raw_slice l n Hl H1 H2) as [Hlen Hraw]. set (raw := slice_of (off l) n src) in *.
  unfold emitText. destruct (text_left opts raw l) as [s b] eqn:E. apply text_left_split in E as (x & Ex & Hx).
  destruct (text_right_split s a k (atLineStart l || b) next) as [y Ey].
  set (t := text_right opts s a k (atLineStart l || b) next) in *. case_bool_decide as Ht; [by apply set_flags_moves|].
  eapply moves_trans; [by apply set_flags_moves|]. apply emit_moves; [by apply (mv_ok l); apply set_flags_moves|].
  split; [done|]. split; [|done]. intros _. split; [done|]. exists (off l + String.length x), (off l + String.length x). split; [done|].
  assert (String.length raw - String.length s = String.length x) as Hd by (rewrite Ex, length_app_string; lia).
  split_and!; [by apply (text_at (off l) raw x s y t); [lia|..]| |].
  - unfold slice_of. rewrite Nat.sub_diag. by destruct (sdrop _ _).
  - assert (stake (String.length x) raw = stake (String.length x) (rest l)) as E.
    { rewrite <- Hraw. rewrite <- (stake_sdrop (String.length raw) (rest l)) at 2.
      symmetry. apply stake_app_le. rewrite Hraw, Ex, length_app_string. lia. }
    cbn [tpos tLine]. rewrite (ok_line _ Hl), Hd, E. unfold line_at. rewrite stake_add, CountByte_app. unfold TemplateLex.rest. lia.
Qed.

(** ** Tags *)

Definition fine (e : Error) : Prop := eMsg e ≠ Panics ∧ eMsg e ≠ OutOfTurns.
(** Code that went forward, or stopped with a message of the source. *)
Definition goes (l : lexer) (r : Error + unit * lexer) : Prop :=
  match r with inl e => fine e | inr (_, l') => moves l l' ∧ off l < off l' end.

Lemma emit_goes k v n m l :
  lexer_ok l → off l < len → 1 ≤ m → k ≠ tokEOF → k ≠ tokText →
  goes l (inr (tt, emit (mkToken k v n (pos file l)) (advance m l))).
Proof.
  intros Hl Hlt Hm Hk Ht. destruct (advance_moves m l Hl) as [Hadv Ho]. split; [|cbn [emit off]; lia].
  eapply moves_trans; [exact Hadv|]. apply emit_moves; [apply Hadv|]. by apply tok_ok_at.
Qed.

Lemma goes_weaken l l' r : moves l l' → goes l' r → goes l r.
Proof.
  intros Hm. destruct r as [e|[[] l2]]; [done|]. intros [H1 H2]. split; [by eapply moves_trans|]. pose proof (mv_off _ _ Hm). lia.
Qed.

Lemma lexNumber_goes l c r : lexer_ok l → rest l = String c r → is_digit c = true → goes l (lexNumber src (pos file l) l).
Proof.
  intros Hl E Hd. pose proof (rest_cons _ _ _ E) as Hlt. unfold lexNumber. rewrite E.
  pose proof (number_go_digit c r Hd) as H1. destruct (number_go 0 false (String c r)) as [n f]. simpl in H1.
  destruct f; [destruct (ParseFloat _)|destruct (Atoi _)]; first [by apply emit_goes|done].
Qed.

Lemma lexString_goes l c r : lexer_ok l → rest l = String c r → goes l (lexString src (pos file l) l).
Proof.
  intros Hl E. pose proof (rest_cons _ _ _ E) as Hlt. unfold lexString. rewrite E.
  destruct (string_go c 0 r) as [m|[t n]] eqn:Es; [by apply string_go_fine in Es|]. apply emit_goes; try done. lia.
Qed.

Lemma lexOne_goes l : lexer_ok l → off l < len → goes l (lexOne src file l).
Proof.
  intros Hl Hlt. unfold lexOne. destruct (rest l) as [|c r] eqn:E.
  { exfalso. pose proof (sdrop_length (off l) src) as Hn. unfold TemplateLex.rest in E. rewrite E in Hn. simpl in Hn. lia. }
  destruct (isNameByte c); [apply emit_goes; try done; simpl; lia|].
  destruct (is_digit c) eqn:Hd; [by eapply lexNumber_goes|].
  destruct (_ || _); [by eapply lexString_goes|].
  destruct (list_find _ operators) as [[i op]|] eqn:Eo.
  { apply list_find_Some in Eo as (Hi & _ & _). apply emit_goes; try done.
    apply list_elem_of_lookup_2 in Hi. unfold operators in Hi. repeat (apply elem_of_cons in Hi as [->|Hi]; [simpl; lia|]). by apply not_elem_of_nil in Hi. }
  case_bool_decide.
  - set (d := if bool_decide (c ∈ opening) then _ else _). apply (goes_weaken _ (set_depth d l)); [by apply set_depth_moves|].
    apply (emit_goes tokOp _ NoNum 1 (set_depth d l)); try done. by apply (mv_ok l), set_depth_moves.
  - destruct (IsSpace _); [|done]. destruct (advance_moves 1 l Hl) as [Hm Ho]. split; [done|lia].
Qed.

Lemma skipTagSpace_moves l : lexer_ok l → moves l (skipTagSpace src l).
Proof. intros Hl. by apply advance_moves. Qed.

Lemma tag_go_moves turns start close k l :
  lexer_ok l → k ≠ tokEOF → k ≠ tokText → len - off l < turns →
  match tag_go src file turns start close k l with inl e => fine e | inr (_, l') => moves l l' end.
Proof.
  intros Hl Hk Ht. revert l Hl. induction turns as [|turns IH]; intros l Hl Hturns; [lia|]. cbn [tag_go].
  pose proof (skipTagSpace_moves l Hl) as Hs. set (l1 := skipTagSpace src l) in *. pose proof (mv_ok _ _ Hs) as Hl1.
  assert (∀ n, moves l (emit (mkToken k close NoNum (pos file (advance n l1))) (advance n l1))) as Hfin.
  { intros n. destruct (advance_moves n l1 Hl1) as [Ha _]. eapply moves_trans; [exact Hs|]. eapply moves_trans; [exact Ha|].
    apply emit_moves; [apply Ha|]. apply tok_ok_at; [apply Ha|done..]. }
  destruct (Nat.leb_spec len (off l1)) as [He|He]; unfold eof; [rewrite (proj2 (Nat.leb_le _ _) He); done|rewrite (proj2 (Nat.leb_gt _ _) He)].
  destruct (_ && _ && _).
  { eapply moves_trans; [apply Hfin|]. apply set_flags_moves. apply (Hfin (S (String.length close))). }
  destruct (_ && _); [apply Hfin|]. unfold mbind, EM_bind.
  pose proof (lexOne_goes l1 Hl1 He) as Hone. destruct (lexOne src file l1) as [e|[[] l2]]; [done|]. destruct Hone as [H1 H2].
  pose proof (mv_off _ _ Hs). specialize (IH l2 (mv_ok _ _ H1)). destruct (tag_go src file turns start close k l2) as [e|[[] l3]]; [apply IH; lia|].
  eapply moves_trans; [exact Hs|]. eapply moves_trans; [exact H1|]. apply IH. lia.
Qed.

Lemma skip_marker_moves l : lexer_ok l → moves l (skip_marker src l).
Proof. intros Hl. unfold skip_marker. destruct (is_marker _); [by apply advance_moves|by apply moves_refl]. Qed.

Lemma prefix_room s l : s ≠ "" → lexer_ok l → has_prefix s (rest l) = true → 1 ≤ String.length s ∧ off l + String.length s ≤ len.
Proof.
  intros Hs Hl Hp%has_prefix_fits. unfold TemplateLex.rest in Hp. rewrite sdrop_length in Hp. pose proof (ok_off _ Hl).
  destruct s; [done|]. simpl in *. lia.
Qed.

Lemma lexTag_goes open close k1 k2 l :
  open ≠ "" → lexer_ok l → has_prefix open (rest l) = true → k1 ≠ tokEOF → k1 ≠ tokText → k2 ≠ tokEOF → k2 ≠ tokText →
  goes l (lexTag src file open close k1 k2 l).
Proof.
  intros Ho Hl Hp K1 K2 K3 K4. destruct (prefix_room _ _ Ho Hl Hp) as [H1 H2]. unfold lexTag.
  set (l1 := emit _ (set_depth 0 l)). assert (moves l l1) as M1.
  { eapply moves_trans; [by apply (set_depth_moves 0)|]. apply emit_moves; [by apply (mv_ok l), set_depth_moves|]. by apply tok_ok_at. }
  destruct (advance_moves (String.length open) l1 (mv_ok _ _ M1)) as [M2 O2].
  pose proof (skip_marker_moves _ (mv_ok _ _ M2)) as M3. set (l3 := skip_marker src _) in *.
  assert (off l < off l3) as Hlt by (pose proof (mv_off _ _ M3); change (off l1) with (off l) in O2; lia).
  assert (moves l l3) as M by (eapply moves_trans; [exact M1|]; by eapply moves_trans).
  pose proof (tag_go_moves (S len) (pos file l) close k2 l3 (mv_ok _ _ M) K3 K4 ltac:(lia)) as HT.
  destruct (tag_go _ _ _ _ _ _ _) as [e|[[] l4]]; [done|]. split; [by eapply moves_trans|]. pose proof (mv_off _ _ HT). lia.
Qed.

Lemma lexComment_goes l : lexer_ok l → has_prefix (CommentStart delims) (rest l) = true → goes l (lexComment src file delims l).
Proof.
  intros Hl Hp. destruct (prefix_room (CommentStart delims) _ (Hopen OpenComment) Hl Hp) as [H1 H2]. unfold lexComment.
  destruct (advance_moves (String.length (CommentStart delims)) l Hl) as [M1 O1].
  pose proof (skip_marker_moves _ (mv_ok _ _ M1)) as M2. set (l2 := skip_marker src _) in *.
  destruct (Index (rest l2) _) as [i|]; [|done].
  destruct (advance_moves (i + String.length (CommentEnd delims)) l2 (mv_ok _ _ M2)) as [M3 O3]. split.
  - eapply moves_trans; [exact M1|]. eapply moves_trans; [exact M2|]. eapply moves_trans; [exact M3|]. apply set_flags_moves, M3.
  - pose proof (mv_off _ _ M2). pose proof (mv_off _ _ M3). cbn [set_flags off]. lia.
Qed.

(** The body of a raw block, as it is emitted. *)
Lemma raw_text_ok l (body x : string) (b : bool) :
  lexer_ok l → rest l = body +:+ x →
  let t := if b then TrimLeftSet white body else body in
  ∀ s y : string, t = s +:+ y → s ≠ "" → tok_ok (mkToken tokText s NoNum (pos file l)).
Proof.
  intros Hl Hr t s y Hs Hne. split; [done|]. split; [|done]. intros _. split; [done|].
  assert (∃ w, body = w +:+ t ∧ all_white w) as (w & Ew & Hw) by (unfold t; destruct b; [apply TrimLeftSet_split|by exists ""]).
  exists (off l), (off l + String.length w). split; [lia|]. cbn [val tpos tLine pos].
  unfold TemplateLex.rest in Hr. split_and!; [| |apply Hl].
  - rewrite <- sdrop_add, Hr, Ew, Hs, !string_app_assoc, sdrop_past by lia. rewrite Nat.sub_diag. cbn [sdrop]. rewrite <- (string_app_assoc s). rewrite string_app_assoc. apply has_prefix_app_l.
  - unfold slice_of. rewrite Hr, Ew, string_app_assoc. replace (off l + String.length w - off l) with (String.length w) by lia. by rewrite stake_app.
Qed.

Lemma lexRaw_goes name l : name ≠ "" → lexer_ok l → goes l (lexRaw src file delims opts name l).
Proof.
  intros Hname Hl. unfold lexRaw. destruct (Index (rest l) (BlockEnd delims)) as [i|]; [|done].
  destruct (advance_moves (i + String.length (BlockEnd delims)) l Hl) as [M1 O1]. set (l1 := advance _ l) in *.
  pose proof (end_tag_go_ok (S (String.length (rest l1))) (rest l1) delims name 0 0 (Hopen OpenBlock) Hname ltac:(lia) ltac:(lia)) as HE.
  unfold findEndTag. destruct (end_tag_go _ _ _ _ _ _) as [m|[[[[body n] a] b]|]]; [done| |done].
  destruct HE as [Hn [x Hx]]. set (t := if marked src "-" i l then TrimLeftSet white body else body).
  set (s := if a then TrimRight white t else _). assert (∃ y, t = s +:+ y) as [y Hy].
  { unfold s. destruct a; [destruct (TrimRight_split white t) as (y & E & _); by exists y|].
    assert (∃ y, t = t +:+ y) by (exists ""; by rewrite string_app_nil_r). destruct (LstripBlocks opts); [|done].
    destruct (strip_line t) as [s'|] eqn:E; [by apply strip_line_prefix in E|done]. }
  set (l2 := if bool_decide (s = "") then l1 else _). assert (moves l l2) as M2.
  { unfold l2. case_bool_decide as He; [done|]. eapply moves_trans; [exact M1|]. apply emit_moves; [apply M1|].
    by eapply (raw_text_ok l1 body x (marked src "-" i l) (mv_ok _ _ M1) Hx s y). }
  set (l3 := set_flags (trimNextText l2) _ _ l2). assert (moves l l3) as M3 by (eapply moves_trans; [exact M2|]; apply set_flags_moves, M2).
  destruct (advance_moves n l3 (mv_ok _ _ M3)) as [M4 O4]. split.
  - eapply moves_trans; [exact M3|]. eapply moves_trans; [exact M4|]. apply set_flags_moves, M4.
  - cbn [set_flags off]. rewrite O4. assert (off l3 = off l1) as -> by (unfold l3, l2; cbn; by case_bool_decide).
    unfold TemplateLex.rest in Hn. rewrite sdrop_length in Hn. pose proof (mv_off _ _ M1). lia.
Qed.

Lemma lex_tag_of_goes o l : lexer_ok l → has_prefix (delim_of delims o) (rest l) = true → goes l (lex_tag_of src file delims opts o l).
Proof.
  intros Hl Hp. destruct o; cbn [lex_tag_of].
  - apply lexTag_goes; try done. apply (Hopen OpenVar).
  - unfold lexBlock. assert (goes l (lexTag src file (BlockStart delims) (BlockEnd delims) tokTagStart tokTagEnd l)) as HT.
    { apply lexTag_goes; try done. apply (Hopen OpenBlock). }
    destruct (peekTagName src delims l) as [name|]; [|done]. destruct (_ || _) eqn:E; [|done]. apply lexRaw_goes; [|done].
    intros ->. done.
  - by apply lexComment_goes.
Qed.

(** ** The cache of delimiters *)

Definition cache_ok (l : lexer) : Prop :=
  ∀ o i, nextDelim l o = Some i →
    i ≤ len ∧ (i < len → has_prefix (delim_of delims o) (sdrop i src) = true) ∧
    ∀ j, off l ≤ j < i → has_prefix (delim_of delims o) (sdrop j src) = false.

(** The next delimiter, searched from scratch. *)
Definition search_next (l : lexer) : option (nat * opener) :=
  foldl (λ best o, better src (Nat.add (off l) <$> Index (rest l) (delim_of delims o)) o best) None openers.

Definition width (o : opener) : nat := String.length (delim_of delims o).
(** What the searches that filled the cache may have cost. *)
Definition paid (l : lexer) (o : opener) : nat := match nextDelim l o with Some i => width o * S i | None => 0 end.
Definition cost_ok (l : lexer) : Prop := scanned l ≤ paid l OpenVar + paid l OpenBlock + paid l OpenComment.

(** A lexer but for its cache. *)
Definition recache (c : opener → option nat) (n : nat) (l : lexer) : lexer :=
  mkLexer (off l) (line l) (col l) (toks l) (trimNextText l) (atLineStart l) (keepNextText l) (bracketDepth l) c n.
Lemma recache_self l : recache (nextDelim l) (scanned l) l = l.
Proof. by destruct l. Qed.

Lemma width_pos o : 1 ≤ width o.
Proof. unfold width. pose proof (Hopen o). destruct (delim_of delims o); [done|]. simpl. lia. Qed.

Lemma search_spec o l :
  lexer_ok l → cache_ok l →
  ∃ i n, search src delims o l = set_next o i n l ∧ off l ≤ i ≤ len ∧ n ≤ i - off l + width o ∧
    (i < len → has_prefix (delim_of delims o) (sdrop i src) = true) ∧
    (∀ j, off l ≤ j < i → has_prefix (delim_of delims o) (sdrop j src) = false) ∧
    (Nat.add (off l) <$> Index (rest l) (delim_of delims o)) = (if i <? len then Some i else None).
Proof.
  intros Hl Hc. pose proof (ok_off _ Hl) as Ho. pose proof (width_pos o) as Hw. unfold search. destruct (Index (rest l) _) as [k|] eqn:E.
  - pose proof (Index_fits _ _ _ E) as Hf. unfold TemplateLex.rest in Hf. rewrite sdrop_length in Hf. apply Index_Some in E as [Hp Hb].
    unfold TemplateLex.rest in Hp, Hb. rewrite sdrop_add in Hp. unfold width in *. exists (off l + k), (k + width o).
    split; [done|]. split; [lia|]. split; [unfold width; lia|]. split; [done|]. split.
    + intros j Hj. specialize (Hb (j - off l) ltac:(lia)). rewrite sdrop_add in Hb. by replace (off l + (j - off l)) with j in Hb by lia.
    + cbn [fmap option_fmap option_map]. by rewrite (proj2 (Nat.ltb_lt _ _)) by lia.
  - exists len, (len - off l). split; [done|]. split; [lia|]. split; [lia|]. split; [lia|]. split.
    + intros j Hj. pose proof (Index_None _ _ (j - off l) E) as Hb. unfold TemplateLex.rest in Hb. rewrite sdrop_add in Hb.
      by replace (off l + (j - off l)) with j in Hb by lia.
    + by rewrite Nat.ltb_irrefl.
Qed.

Lemma pay_more w i0 i n f : 1 ≤ w → i0 < f → f ≤ i → n ≤ i - f + w → w * S i0 + n ≤ w * S i.
Proof. intros Hw H1 H2 H3. assert (∃ x, i = i0 + S x) as [x ->] by (exists (i - i0 - 1); lia). nia. Qed.

Lemma cost_step l l' o n :
  (∀ o', o' ≠ o → paid l' o' = paid l o') → paid l o + n ≤ paid l' o → scanned l' = scanned l + n → cost_ok l → cost_ok l'.
Proof.
  unfold cost_ok. intros Hother Hpaid Hs Hc. rewrite Hs.
  destruct o; pose proof (Hother OpenVar); pose proof (Hother OpenBlock); pose proof (Hother OpenComment);
    repeat match goal with H : ?x ≠ ?y → _ |- _ => specialize (H ltac:(discriminate)) | H : ?x ≠ ?x → _ |- _ => clear H end; lia.
Qed.

Definition fill_ok (o : opener) (l l' : lexer) : Prop :=
  ∃ c n, l' = recache c n l ∧ cache_ok l' ∧ cost_ok l' ∧
    ∀ best, better src (c o) o best = better src (Nat.add (off l) <$> Index (rest l) (delim_of delims o)) o best.

Lemma better_at i o best : i ≤ len → better src (Some i) o best = better src (if i <? len then Some i else None) o best.
Proof. intros Hi. destruct (Nat.ltb_spec i len); [done|]. unfold better. by rewrite (proj2 (Nat.ltb_ge _ _)) by lia. Qed.

Lemma search_fill o l :
  lexer_ok l → cache_ok l → cost_ok l → (∀ i, nextDelim l o = Some i → i < off l) → fill_ok o l (search src delims o l).
Proof.
  intros Hl Hc Hk Hold. destruct (search_spec o l Hl Hc) as (i & n & -> & Hi & Hn & Hp & Hb & Er).
  exists (λ o', if decide (o' = o) then Some i else nextDelim l o'), (scanned l + n). split; [done|]. split_and!.
  - intros o' i'. cbn [set_next nextDelim off]. case_decide; [subst; intros [= <-]; split; [lia|done]|]. apply Hc.
  - apply (cost_step l _ o n); [| |done|done].
    + intros o' Ho. unfold paid. cbn [set_next nextDelim]. by rewrite decide_False by done.
    + unfold paid. cbn [set_next nextDelim]. rewrite decide_True by done. pose proof (width_pos o). destruct (nextDelim l o) as [i0|] eqn:E0.
      * eapply pay_more; [done|by apply Hold|by apply Hi|done].
      * nia.
  - intros best. rewrite Er, decide_True by done. apply better_at. lia.
Qed.

Lemma fill_spec o l : lexer_ok l → cache_ok l → cost_ok l → fill_ok o l (fill src delims o l).
Proof.
  intros Hl Hc Hk. unfold fill. destruct (nextDelim l o) as [i0|] eqn:E0; [|apply search_fill; [done..|congruence]].
  destruct (Nat.ltb_spec i0 (off l)); [apply search_fill; [done..|congruence]|].
  exists (nextDelim l), (scanned l). rewrite recache_self. split_and!; [done..|]. intros best.
  destruct (search_spec o l Hl Hc) as (i & n & _ & Hi & Hn & Hp & Hb & ->). destruct (Hc o i0 E0) as (Hi0 & Hp0 & Hb0).
  assert (i0 = i) as ->.
  { destruct (Nat.lt_trichotomy i0 i) as [Hlt|[->|Hlt]]; [exfalso|done|exfalso].
    - specialize (Hb i0 ltac:(lia)). by rewrite Hp0 in Hb by lia.
    - specialize (Hb0 i ltac:(lia)). by rewrite Hp in Hb0 by lia. }
  rewrite E0. by apply better_at.
Qed.

Lemma recache_ok c n l : lexer_ok l → lexer_ok (recache c n l).
Proof. by intros [H1 H2 H3]. Qed.

Lemma findNextDelim_spec l :
  lexer_ok l → cache_ok l → cost_ok l →
  ∃ c n, findNextDelim src delims l = (search_next l, recache c n l) ∧ cache_ok (recache c n l) ∧ cost_ok (recache c n l).
Proof.
  intros Hl Hc Hk. unfold findNextDelim, search_next, openers. cbn [foldl].
  destruct (fill_spec OpenVar l Hl Hc Hk) as (c1 & n1 & E1 & Hc1 & Hk1 & B1). rewrite E1 in *.
  destruct (fill_spec OpenBlock _ (recache_ok c1 n1 l Hl) Hc1 Hk1) as (c2 & n2 & E2 & Hc2 & Hk2 & B2). rewrite E2 in *.
  destruct (fill_spec OpenComment _ (recache_ok c2 n2 _ (recache_ok c1 n1 l Hl)) Hc2 Hk2) as (c3 & n3 & E3 & Hc3 & Hk3 & B3). rewrite E3 in *.
  exists c3, n3. cbn [recache nextDelim]. split_and!; [|done..]. by rewrite <- B1, <- B2, <- B3.
Qed.

Lemma better_Some at_ o best n o' :
  better src at_ o best = Some (n, o') → best = Some (n, o') ∨ at_ = Some n ∧ o' = o ∧ n < len.
Proof.
  unfold better. destruct at_ as [i|]; [|by left]. destruct (Nat.ltb_spec i len); [|by left]. cbn [andb].
  destruct best as [[b ob]|]; [destruct (i <? b)|]; first [by left|intros [= <- <-]; by right].
Qed.

Lemma search_next_Some l n o :
  lexer_ok l → search_next l = Some (n, o) → off l ≤ n < len ∧ has_prefix (delim_of delims o) (sdrop n src) = true.
Proof.
  intros Hl. unfold search_next, openers. cbn [foldl]. intros H.
  assert (∃ o', Nat.add (off l) <$> Index (rest l) (delim_of delims o') = Some n ∧ o = o' ∧ n < len) as (o' & Hi & -> & Hn).
  { do 3 (apply better_Some in H as [H|H]; [|by eauto]). done. }
  apply fmap_Some in Hi as (k & Hk & ->). apply Index_Some in Hk as [Hp _]. unfold TemplateLex.rest in Hp. rewrite sdrop_add in Hp.
  split; [lia|done].
Qed.

(** ** The lexer without the cache *)

Fixpoint plain_go (turns : nat) : L unit :=
  match turns with
  | O => λ l, fail_at (pos file l) OutOfTurns l
  | S turns => λ l,
      if eof src l then inr (tt, emit_eof file l)
      else match search_next l with
      | None => inr (tt, emit_eof file (advance (len - off l) (emitText file opts (rest l) false false followedByNothing l)))
      | Some (next, o) =>
          let marker := byte_at (next + String.length (delim_of delims o)) src in
          let raw := slice_of (off l) next src in
          let l := advance (next - off l) (emitText file opts raw (is_byte "-" marker) (is_byte "+" marker) (kindFollowing o) l) in
          (lex_tag_of src file delims opts o;; plain_go turns) l
      end
  end.
(** Every delimiter is searched for from where the lexer stands. *)
Definition plain_lex : Error + list token :=
  match plain_go (S len) newLexer with inl e => inl e | inr (_, l) => inr (toks l) end.

Definition through {A} (c : opener → option nat) (n : nat) (r : Error + A * lexer) : Error + A * lexer :=
  match r with inl e => inl e | inr (x, l) => inr (x, recache c n l) end.

Lemma advance_recache c n k l : advance k (recache c n l) = recache c n (advance k l).
Proof.
  unfold TemplateLex.advance. induction k as [|k IH]; [done|].
  change (advance_one (Nat.iter k advance_one (recache c n l)) = recache c n (advance_one (Nat.iter k advance_one l))).
  rewrite IH. set (l' := Nat.iter k advance_one l).
  unfold TemplateLex.advance_one. change (rest (recache c n l')) with (rest l'). by destruct (rest l').
Qed.

Lemma emitText_recache raw a k f c n l : emitText file opts raw a k f (recache c n l) = recache c n (emitText file opts raw a k f l).
Proof.
  unfold emitText. change (text_left opts raw (recache c n l)) with (text_left opts raw l). destruct (text_left opts raw l) as [s b].
  change (atLineStart (recache c n l)) with (atLineStart l). cbv zeta. by destruct (bool_decide (text_right _ _ _ _ _ _ = "")).
Qed.

Lemma lexOne_recache c n l : lexOne src file (recache c n l) = through c n (lexOne src file l).
Proof.
  unfold lexOne. change (rest (recache c n l)) with (rest l). destruct (rest l) as [|a r] eqn:E; [done|].
  destruct (isNameByte a); [cbn [through]; by rewrite advance_recache|].
  destruct (is_digit a).
  { unfold lexNumber. change (rest (recache c n l)) with (rest l). rewrite E. destruct (number_go _ _ _) as [m f]. rewrite advance_recache.
    destruct f; [by destruct (ParseFloat _)|by destruct (Atoi _)]. }
  destruct (_ || _).
  { unfold lexString. change (rest (recache c n l)) with (rest l). rewrite E. destruct (string_go _ _ _) as [|[t m]]; [done|]. by rewrite advance_recache. }
  destruct (list_find _ _) as [[i op]|]; [cbn [through]; by rewrite advance_recache|].
  case_bool_decide; [|by destruct (IsSpace _); [rewrite advance_recache|]].
  change (bracketDepth (recache c n l)) with (bracketDepth l). set (d := if bool_decide (a ∈ opening) then _ else _).
  change (set_depth d (recache c n l)) with (recache c n (set_depth d l)). by rewrite advance_recache.
Qed.

Lemma tag_go_recache turns start close k c n l :
  tag_go src file turns start close k (recache c n l) = through c n (tag_go src file turns start close k l).
Proof.
  revert l. induction turns as [|turns IH]; intros l; [done|]. cbn [tag_go].
  assert (skipTagSpace src (recache c n l) = recache c n (skipTagSpace src l)) as -> by apply advance_recache.
  set (l1 := skipTagSpace src l). change (eof src (recache c n l1)) with (eof src l1). destruct (eof src l1); [done|].
  change (bracketDepth (recache c n l1)) with (bracketDepth l1). change (off (recache c n l1)) with (off l1). change (rest (recache c n l1)) with (rest l1).
  rewrite !advance_recache. destruct (_ && _ && _); [done|]. destruct (_ && _); [done|].
  unfold mbind, EM_bind. rewrite lexOne_recache. destruct (lexOne src file l1) as [e|[[] l2]]; [done|]. apply IH.
Qed.

Lemma skip_marker_recache c n l : skip_marker src (recache c n l) = recache c n (skip_marker src l).
Proof. unfold skip_marker. change (off (recache c n l)) with (off l). destruct (is_marker _); [apply advance_recache|done]. Qed.

Lemma lexTag_recache open close k1 k2 c n l :
  lexTag src file open close k1 k2 (recache c n l) = through c n (lexTag src file open close k1 k2 l).
Proof.
  unfold lexTag. change (emit ?t (set_depth 0 (recache c n l))) with (recache c n (emit t (set_depth 0 l))).
  by rewrite advance_recache, skip_marker_recache, tag_go_recache.
Qed.

Lemma lex_tag_of_recache o c n l :
  lex_tag_of src file delims opts o (recache c n l) = through c n (lex_tag_of src file delims opts o l).
Proof.
  destruct o; cbn [lex_tag_of]; [apply lexTag_recache| |].
  - unfold lexBlock. change (peekTagName src delims (recache c n l)) with (peekTagName src delims l).
    destruct (peekTagName src delims l) as [name|]; [|apply lexTag_recache]. destruct (_ || _); [|apply lexTag_recache].
    unfold lexRaw. change (rest (recache c n l)) with (rest l). destruct (Index (rest l) _) as [i|]; [|done].
    rewrite advance_recache. set (l1 := advance _ l). change (rest (recache c n l1)) with (rest l1).
    destruct (findEndTag _ _ _) as [|[[[[body m] a] b]|]]; [done| |done]. cbv zeta.
    change (marked src "-" i (recache c n l)) with (marked src "-" i l).
    set (t := if a then TrimRight white _ else _). cbn [through]. case_bool_decide; cbv zeta.
    + change (set_flags ?x ?y ?z (recache c n l1)) with (recache c n (set_flags x y z l1)). by rewrite advance_recache.
    + change (emit ?x (recache c n l1)) with (recache c n (emit x l1)).
      change (set_flags ?x ?y ?z (recache c n (emit ?w l1))) with (recache c n (set_flags x y z (emit w l1))). by rewrite advance_recache.
  - unfold lexComment. rewrite advance_recache, skip_marker_recache. set (l1 := skip_marker src _). change (rest (recache c n l1)) with (rest l1).
    destruct (Index (rest l1) _) as [i|]; [|done]. cbv zeta. by rewrite advance_recache.
Qed.

Lemma plain_go_recache turns c n l : plain_go turns (recache c n l) = through c n (plain_go turns l).
Proof.
  revert c n l. induction turns as [|turns IH]; intros c n l; [done|]. cbn [plain_go].
  change (eof src (recache c n l)) with (eof src l). destruct (eof src l); [done|].
  change (search_next (recache c n l)) with (search_next l). change (off (recache c n l)) with (off l). change (rest (recache c n l)) with (rest l).
  destruct (search_next l) as [[next o]|]; [|by rewrite emitText_recache, advance_recache].
  rewrite emitText_recache, advance_recache. unfold mbind, EM_bind. rewrite lex_tag_of_recache.
  destruct (lex_tag_of _ _ _ _ _ _) as [e|[[] l2]]; [done|]. apply IH.
Qed.

Lemma moves_cache l l' : moves l l' → cache_ok l → cache_ok l'.
Proof.
  intros Hm Hc o i Hi. rewrite (mv_next _ _ Hm) in Hi. destruct (Hc o i Hi) as (H1 & H2 & H3). split_and!; [done..|].
  intros j Hj. apply H3. pose proof (mv_off _ _ Hm). lia.
Qed.
Lemma moves_cost l l' : moves l l' → cost_ok l → cost_ok l'.
Proof. intros Hm. unfold cost_ok, paid. by rewrite (mv_next _ _ Hm), (mv_scan _ _ Hm). Qed.

(** What lexing from [l] on gives. *)
Definition lexed (l : lexer) (r r' : Error + unit * lexer) : Prop :=
  match r, r' with
  | inl e, inl e' => e = e' ∧ fine e
  | inr (_, l1), inr (_, l2) =>
      toks l1 = toks l2 ∧ cache_ok l1 ∧ cost_ok l1 ∧
      ∃ new last, toks l1 = toks l ++ new ++ [last] ∧ Forall tok_ok new ∧ kind last = tokEOF
  | _, _ => False
  end.

Lemma lexed_eof l l1 l2 :
  moves l l1 → cache_ok l1 → cost_ok l1 → toks l1 = toks l2 → pos file l1 = pos file l2 →
  lexed l (inr (tt, emit_eof file l1)) (inr (tt, emit_eof file l2)).
Proof.
  intros Hm Hc Hk Ht Hp. destruct (mv_toks _ _ Hm) as (new & E & Hnew). unfold emit_eof, lexed. cbn [toks emit]. rewrite Ht, Hp. split_and!; [done..|].
  rewrite <- Ht, E, <- Hp. by exists new, (mkToken tokEOF "" NoNum (pos file l1)); rewrite app_assoc.
Qed.

Lemma lexed_moves l l1 r r' : moves l l1 → lexed l1 r r' → lexed l r r'.
Proof.
  intros Hm. unfold lexed. destruct r as [e|[[] l2]], r' as [e'|[[] l3]]; try done. intros (H1 & H2 & H3 & new & last & E & H4 & H5). split_and!; [done..|].
  destruct (mv_toks _ _ Hm) as (n & En & Hn). exists (n ++ new), last. rewrite E, En, <- !app_assoc. split_and!; [done| |done]. by apply Forall_app.
Qed.

Lemma lexed_through l c n r r' : lexed l r (through c n r') → lexed l r r'.
Proof. by destruct r as [e|[[] l2]], r' as [e'|[[] l3]]. Qed.

Lemma run_go_lexed turns l :
  lexer_ok l → cache_ok l → cost_ok l → len - off l < turns →
  lexed l (run_go src file delims opts turns l) (plain_go turns l).
Proof.
  revert l. induction turns as [|turns IH]; intros l Hl Hc Hk Ht; [lia|]. destruct (eof src l) eqn:Ee.
  { cbn [run_go plain_go]. rewrite Ee. by apply lexed_eof; [apply moves_refl|..]. }
  destruct (findNextDelim_spec l Hl Hc Hk) as (c & n & Ef & Hc' & Hk').
  apply (lexed_through l c n). rewrite <- plain_go_recache. cbn [run_go plain_go]. rewrite Ee, Ef.
  pose proof (recache_ok c n l Hl) as Hl'. change (lexed l) with (lexed (recache c n l)). change (search_next l) with (search_next (recache c n l)).
  change (eof src l) with (eof src (recache c n l)) in Ee. change (off l) with (off (recache c n l)) in Ht. clear Ef Hl Hc Hk. set (l0 := recache c n l) in *. clearbody l0. clear l.
  rewrite Ee. unfold eof in Ee. apply Nat.leb_gt in Ee. destruct (search_next l0) as [[next o]|] eqn:Es.
  - apply search_next_Some in Es as [Hn Hp]; [|done]. set (l1 := emitText _ _ _ _ _ _ l0).
    assert (moves l0 l1) as M1 by (apply emitText_moves; [done|lia|lia]).
    assert (off l1 = off l0) as Eo by (unfold l1, emitText; destruct (text_left _ _ _); cbv zeta; by destruct (bool_decide (text_right _ _ _ _ _ _ = ""))).
    destruct (advance_moves (next - off l0) l1 (mv_ok _ _ M1)) as [M2 O2]. set (l2 := advance _ l1) in *. pose proof (moves_trans _ _ _ M1 M2) as M.
    assert (off l2 = next) as En by lia. unfold mbind, EM_bind. pose proof (lex_tag_of_goes o l2 (mv_ok _ _ M)) as Hg.
    unfold TemplateLex.rest in Hg. rewrite En in Hg. specialize (Hg Hp). destruct (lex_tag_of src file delims opts o l2) as [e|[[] l3]]; [done|].
    destruct Hg as [M3 Hlt]. pose proof (moves_trans _ _ _ M M3) as M4. apply (lexed_moves _ l3); [done|].
    apply IH; [apply M4|by eapply moves_cache|by eapply moves_cost|lia].
  - set (l1 := emitText _ _ _ _ _ _ l0). assert (rest l0 = slice_of (off l0) len src) as Er.
    { unfold slice_of, TemplateLex.rest. rewrite stake_all; [done|]. rewrite sdrop_length. lia. }
    assert (moves l0 l1) as M1 by (unfold l1; rewrite Er; apply emitText_moves; [done|lia|lia]).
    destruct (advance_moves (len - off l0) l1 (mv_ok _ _ M1)) as [M2 _]. pose proof (moves_trans _ _ _ M1 M2) as M.
    by apply lexed_eof; [exact M|by eapply moves_cache|by eapply moves_cost|..].
Qed.
End safe.

(** ** What the lexer promises *)

Lemma start_ok src : lexer_ok src newLexer.
Proof. constructor; cbn; [lia|done|done]. Qed.
Lemma start_lexed {V} {RT : GoRuntime V} src file delims opts :
  (∀ o, delim_of delims o ≠ "") →
  lexed src file delims newLexer (run src file delims opts newLexer) (plain_go src file delims opts (S (String.length src)) newLexer).
Proof. intros Hopen. apply run_go_lexed; [done|apply start_ok|done|unfold cost_ok; cbn; lia|cbn; lia]. Qed.

(** lexing ends, and its tokens stand in the source.  For delimiters that
    are not empty the lexer ends without an index out of range, with a message
    of its own or with tokens of which the last, and only it, is the end of the
    template.  Each token but text carries the line and column of a place in
    the source; each text stands in the source, behind blanks that were trimmed
    at most, and its line is that of the text or of those blanks. *)
Theorem lexing_ends {V} {RT : GoRuntime V} src file delims opts :
  (∀ o, delim_of delims o ≠ "") →
  match lex src file delims opts with
  | inl e => fine e
  | inr ts => ∃ new last, ts = new ++ [last] ∧ Forall (tok_ok src file) new ∧ kind last = tokEOF
  end.
Proof.
  intros Hopen. pose proof (start_lexed src file delims opts Hopen) as H. unfold lex.
  destruct (run _ _ _ _ _) as [e|[[] l]], (plain_go _ _ _ _ _ _) as [e'|[[] l']]; try done; [by destruct H|].
  by destruct H as (_ & _ & _ & H).
Qed.

Lemma paid_le src delims l o : cache_ok src delims l → paid delims l o ≤ width delims o * S (String.length src).
Proof. intros Hc. unfold paid. destruct (nextDelim l o) as [i|] eqn:E; [|lia]. destruct (Hc o i E) as [Hi _]. nia. Qed.

(** C26: the cache of delimiters is only a cache, and makes lexing linear.  The
    lexer with the cache gives what the lexer that searches for each delimiter
    from where it stands gives, error or tokens; and when it has read a
    template, its searches have looked at no more bytes than the template has,
    times the lengths of the three opening delimiters. *)
Theorem delimiter_cache_is_linear {V} {RT : GoRuntime V} src file delims opts :
  (∀ o, delim_of delims o ≠ "") →
  lex src file delims opts = plain_lex src file delims opts ∧
  ∀ l, run src file delims opts newLexer = inr (tt, l) →
    scanned l ≤ (String.length (VarStart delims) + String.length (BlockStart delims) + String.length (CommentStart delims)) * S (String.length src).
Proof.
  intros Hopen. pose proof (start_lexed src file delims opts Hopen) as H. unfold lex, plain_lex. split.
  - destruct (run _ _ _ _ _) as [e|[[] l]], (plain_go _ _ _ _ _ _) as [e'|[[] l']]; try done; destruct H as [H _]; by rewrite H.
  - intros l El. rewrite El in H. destruct (plain_go _ _ _ _ _ _) as [e'|[[] l']]; [done|]. destruct H as (_ & Hc & Hk & _).
    unfold cost_ok in Hk. pose proof (paid_le src delims l OpenVar Hc) as H1. pose proof (paid_le src delims l OpenBlock Hc) as H2.
    pose proof (paid_le src delims l OpenComment Hc) as H3. unfold width in *. cbn [delim_of] in *. lia.
Qed.

(** A text as a literal between quotes [q]. *)
Fixpoint quoted (q : ascii) (s : string) : string :=
  match s with
  | EmptyString => EmptyString
  | String c r => if decide (c = q ∨ c = "\"%char) then String "\" (String c (quoted q r)) else String c (quoted q r)
  end.

Lemma string_go_skip q c s : string_go q 1 (String c s) = match string_go q 0 s with inr (t, n) => inr (t, S n) | inl e => inl e end.
Proof. done. Qed.

(** every text can be written as a literal: quoted with either quote, with
    a backslash before the quote and before each backslash, it is read back. *)
Theorem quoted_text_reads_back q s t :
  q = "'"%char ∨ q = "034"%char →
  string_go q 0 (quoted q s +:+ String q t) = inr (s, S (String.length (quoted q s))).
Proof.
  intros Hq. assert (q ≠ "\"%char) as Hne by (by destruct Hq as [-> | ->]).
  induction s as [|c s IH]; cbn [quoted].
  { rewrite string_nil_app. cbn [string_go]. by rewrite decide_True by done. }
  case_decide as Hc; rewrite ?string_app_cons; cbn [string_go]; rewrite decide_False by (naive_solver congruence).
  - rewrite decide_True by done. assert (plain_escape c = Some c) as Ep by (destruct Hc as [-> | ->], Hq as [-> | ->]; done).
    unfold escape_text. rewrite Ep. rewrite IH. done.
  - rewrite IH. destruct (quoted q s +:+ String q t) as [|e r]; [done|]. by rewrite decide_False by naive_solver.
Qed.

#[local] Instance demo_rt : GoRuntime unit :=
  {| Sprint := λ _, ""; TypeString := λ _, ""; time_ParseDuration := λ _, None; ParseFloat := λ _, None; IsPrint := λ _, false |}.
Definition plain_options : lexOptions := mkLexOptions false false.
Definition trim_options : lexOptions := mkLexOptions true false.
Definition texts (r : Error + list token) : option (list (tokenKind * string * Z)) :=
  match r with inl _ => None | inr ts => Some ((λ t, (kind t, val t, tLine (tpos t))) <$> ts) end.

Lemma default_openers o : delim_of DefaultDelimiters o ≠ "".
Proof. by destruct o. Qed.

Definition demo_template : string := "a{{ x|join(',') -}} b{% if y %}{# note #}{% raw %}{{z}}{% endraw %}{% endif %}".

Lemma lexing_ends_witness :
  (∀ o, delim_of DefaultDelimiters o ≠ "") ∧
  match lex demo_template "f" DefaultDelimiters plain_options with
  | inl e => fine e
  | inr ts => ∃ new last, ts = new ++ [last] ∧ Forall (tok_ok demo_template "f") new ∧ kind last = tokEOF
  end.
Proof. split; [apply default_openers|]. apply (lexing_ends demo_template "f" DefaultDelimiters plain_options), default_openers. Defined.

Lemma delimiter_cache_is_linear_witness :
  ∃ l, run demo_template "f" DefaultDelimiters plain_options newLexer = inr (tt, l) ∧ scanned l = 154 ∧ length (toks l) = 19 ∧
    scanned l ≤ 6 * S (String.length demo_template).
Proof.
  destruct (run demo_template "f" DefaultDelimiters plain_options newLexer) as [e|[[] l]] eqn:E; [exfalso; vm_compute in E; discriminate E|].
  exists l. split; [reflexivity|]. split_and!; [vm_compute in E; by injection E as <-..|].
  apply (delimiter_cache_is_linear demo_template "f" DefaultDelimiters plain_options default_openers), E.
Defined.

Lemma quoted_text_reads_back_witness :
  string_go "'" 0 (quoted "'" "it's \n" +:+ "' ~ x") = inr ("it's \n", 10%nat) ∧ quoted "'" "it's \n" = "it\'s \\n".
Proof. split; [|reflexivity]. apply (quoted_text_reads_back "'" "it's \n" " ~ x"). by left. Defined.

(** ** What the lexer does that its comments do not say *)

(** The text of a raw block whose opening tag trims is reported where the blanks
    before it begin, not where it stands. *)
Example trimmed_raw_text_is_reported_early :
  let nl := String NLc "" in
  texts (lex ("{% raw -%}" +:+ nl +:+ nl +:+ "foo{% endraw %}") "f" DefaultDelimiters plain_options) =
    Some [(tokText, "foo", 1%Z); (tokEOF, "", 3%Z)] ∧
  texts (lex ("{% if x -%}" +:+ nl +:+ nl +:+ "foo{% endif %}") "f" DefaultDelimiters plain_options) =
    Some [(tokTagStart, "{%", 1%Z); (tokName, "if", 1%Z); (tokName, "x", 1%Z); (tokTagEnd, "%}", 1%Z); (tokText, "foo", 3%Z);
          (tokTagStart, "{%", 3%Z); (tokName, "endif", 3%Z); (tokTagEnd, "%}", 3%Z); (tokEOF, "", 3%Z)].
Proof. split; vm_compute; reflexivity. Qed.

(** A raw block closed with the marker + is not found closed. *)
Example plus_endraw_is_not_found :
  texts (lex "{%+ raw %}a{% endraw %}" "f" DefaultDelimiters plain_options) = Some [(tokText, "a", 1%Z); (tokEOF, "", 1%Z)] ∧
  lex "{% raw %}a{%+ endraw %}" "f" DefaultDelimiters plain_options = inl (mkError (mkTPos "f" 1 1) (NoEndTag "raw" "endraw")).
Proof. split; vm_compute; reflexivity. Qed.

(** With trim_blocks the line break behind a variable goes too. *)
Example trim_blocks_takes_the_break_behind_a_variable :
  texts (lex ("{{ a }}" +:+ String NLc "b") "f" DefaultDelimiters trim_options) =
    Some [(tokVarStart, "{{", 1%Z); (tokName, "a", 1%Z); (tokVarEnd, "}}", 1%Z); (tokText, "b", 2%Z); (tokEOF, "", 2%Z)] ∧
  texts (lex (String NLc "b") "f" DefaultDelimiters trim_options) = Some [(tokText, "b", 2%Z); (tokEOF, "", 2%Z)].
Proof. split; vm_compute; reflexivity. Qed.

(** An escape of two hexadecimal digits is taken with one, and the second byte
    is lost; a number of two exponents is read to the first. *)
Example short_hex_escape_is_accepted :
  string_go "'" 0 "\x1g'" = inr (String "001" "", 5%nat) ∧ float_token "1e5e6" = "1e5".
Proof. split; vm_compute; reflexivity. Qed.
