(* ===== verification/TemplateParse.v ===== *)
(** * Templates: the parser

    Models src/internal/template/ast.go, parse.go, parse_expr.go, depth.go and
    Parse of env.go: the tokens of [TemplateLex] into statements and
    expressions.

    The source bounds its own recursion: every cycle of the expression grammar
    passes through nest, every cycle of statements through parseStatement.  The
    functions here recurse on the levels these bounds leave ([level],
    [body_level]); each loop has one turn more than there are tokens.  Running
    out of either, and an index behind the last token, are errors of the model
    that the code has no message for; [TemplateParseSafe] shows that they do not
    happen. *)

From S2P Require Import Prelude GoLib TemplateLex.
From Stdlib Require Import SpecFloat.

Open Scope Z_scope.

(** ** The tree (ast.go) *)

Inductive lit := LNil | LBool (b : bool) | LInt (z : Z) | LFloat (f : spec_float) | LStr (s : string).

Inductive Expr :=
| LiteralExpr (p : TPos) (v : lit)
| NameExpr (p : TPos) (name : string)
| AttrExpr (p : TPos) (obj : Expr) (attr : string)
| ItemExpr (p : TPos) (obj index : Expr)
| SliceExpr (p : TPos) (obj : Expr) (start stop step : option Expr)
| CallExpr (p : TPos) (fn : Expr) (args : list Expr) (kwargs : list (string * Expr)) (starArgs starKw : option Expr)
| FilterExpr (p : TPos) (obj : Expr) (name : string) (args : list Expr) (kwargs : list (string * Expr))
| TestExpr (p : TPos) (obj : Expr) (name : string) (args : list Expr) (negated : bool)
| BinaryExpr (p : TPos) (op : string) (l r : Expr)
| CompareExpr (p : TPos) (first : Expr) (ops : list string) (rest : list Expr)
| UnaryExpr (p : TPos) (op : string) (x : Expr)
| CondExpr (p : TPos) (cond true_ : Expr) (false_ : option Expr)
| ListExpr (p : TPos) (items : list Expr)
| TupleExpr (p : TPos) (items : list Expr)
| DictExpr (p : TPos) (keys vals : list Expr).

Record Param := mkParam { pName : string; pDefault : option Expr }.
Record ImportName := mkImportName { iName : string; iAs : string }.

Inductive Node :=
| TextNode (p : TPos) (text : string)
| OutputNode (p : TPos) (e : Expr)
| IfNode (p : TPos) (conds : list Expr) (blocks : list (list Node)) (else_ : list Node)
| ForNode (p : TPos) (targets : list string) (iter : Expr) (cond : option Expr) (body else_ : list Node) (recursive : bool)
| SetNode (p : TPos) (targets : list string) (value : option Expr) (body : list Node) (filter : option Expr) (namespace attr : string)
| MacroNode (p : TPos) (name : string) (params : list Param) (body : list Node)
| CallNode (p : TPos) (params : list Param) (call : Expr) (body : list Node)
| IncludeNode (p : TPos) (name : Expr) (ignoreMissing withContext : bool)
| ImportNode (p : TPos) (name : Expr) (as_ : string) (withContext : bool)
| DataImportNode (p : TPos) (name : Expr) (as_ format : string)
| FromImportNode (p : TPos) (name : Expr) (names : list ImportName) (withContext : bool)
| ExtendsNode (p : TPos) (name : Expr)
| BlockNode (p : TPos) (name : string) (body : list Node) (scoped : bool)
| FilterNode (p : TPos) (filter : Expr) (body : list Node)
| DoNode (p : TPos) (e : Expr)
| BreakNode (p : TPos)
| ContinueNode (p : TPos)
| WithNode (p : TPos) (targets : list string) (values : list Expr) (body : list Node)
| AutoescapeNode (p : TPos) (body : list Node).

Definition expr_pos (e : Expr) : TPos :=
  match e with
  | LiteralExpr p _ | NameExpr p _ | AttrExpr p _ _ | ItemExpr p _ _ | SliceExpr p _ _ _ _ | CallExpr p _ _ _ _ _
  | FilterExpr p _ _ _ _ | TestExpr p _ _ _ _ | BinaryExpr p _ _ _ | CompareExpr p _ _ _ | UnaryExpr p _ _
  | CondExpr p _ _ _ | ListExpr p _ | TupleExpr p _ | DictExpr p _ _ => p
  end.

(** ** Measuring the tree (depth.go) *)

(** An omitted part is not listed. *)
Definition exprChildren (e : Expr) : list Expr :=
  match e with
  | LiteralExpr _ _ | NameExpr _ _ => []
  | AttrExpr _ obj _ => [obj]
  | ItemExpr _ obj index => [obj; index]
  | SliceExpr _ obj start stop step => obj :: option_list start ++ option_list stop ++ option_list step
  | CallExpr _ fn args kwargs starArgs starKw => fn :: option_list starArgs ++ option_list starKw ++ args ++ kwargs.*2
  | FilterExpr _ obj _ args kwargs => obj :: args ++ kwargs.*2
  | TestExpr _ obj _ args _ => obj :: args
  | BinaryExpr _ _ l r => [l; r]
  | UnaryExpr _ _ x => [x]
  | CompareExpr _ first _ rest => first :: rest
  | CondExpr _ cond true_ false_ => cond :: true_ :: option_list false_
  | ListExpr _ items | TupleExpr _ items => items
  | DictExpr _ keys vals => keys ++ vals
  end.

Definition param_exprs (ps : list Param) : list Expr := mjoin ((λ p, option_list (pDefault p)) <$> ps).

(** The expressions a statement holds, and the bodies inside it. *)
Definition nodeParts (n : Node) : list Expr * list (list Node) :=
  match n with
  | TextNode _ _ | BreakNode _ | ContinueNode _ => ([], [])
  | OutputNode _ e | DoNode _ e => ([e], [])
  | IfNode _ conds blocks else_ => (conds, blocks ++ [else_])
  | ForNode _ _ iter cond body else_ _ => (iter :: option_list cond, [body; else_])
  | SetNode _ _ value body filter _ _ => (option_list value ++ option_list filter, [body])
  | MacroNode _ _ params body => (param_exprs params, [body])
  | CallNode _ params call body => (call :: param_exprs params, [body])
  | IncludeNode _ name _ _ | ImportNode _ name _ _ | DataImportNode _ name _ _ | FromImportNode _ name _ _ | ExtendsNode _ name => ([name], [])
  | BlockNode _ _ body _ | AutoescapeNode _ body => ([], [body])
  | FilterNode _ filter body => ([filter], [body])
  | WithNode _ _ values body => (values, [body])
  end.

Fixpoint first_some {A B} (f : A → option B) (l : list A) : option B :=
  match l with [] => None | x :: l => match f x with Some y => Some y | None => first_some f l end end.

(** There remain [limit + 1 - depth] levels, none when the depth is past the
    limit. *)
Fixpoint tallerThan (remaining : nat) (e : Expr) : option Expr :=
  match remaining with O => Some e | S n => first_some (tallerThan n) (exprChildren e) end.

Definition maxExprDepth : Z := 1000.

Fixpoint check_height (levels : nat) (limit : Z) (body : list Node) : option Error :=
  match levels with
  | O => Some (mkError (mkTPos "" 0 0) OutOfTurns)
  | S levels =>
      first_some (λ n,
        let '(exprs, bodies) := nodeParts n in
        match first_some (tallerThan (Z.to_nat limit)) exprs with
        | Some deep => Some (mkError (expr_pos deep) (ExprTooDeep limit))
        | None => first_some (check_height levels limit) bodies
        end) body
  end.

(** ** The parser *)

Record parser := mkParser { pi : nat; loops : nat; blocks : Z; exprs : Z }.

Definition set_i (n : nat) (p : parser) : parser := mkParser n (loops p) (blocks p) (exprs p).
Definition set_loops (n : nat) (p : parser) : parser := mkParser (pi p) n (blocks p) (exprs p).
Definition set_blocks (n : Z) (p : parser) : parser := mkParser (pi p) (loops p) n (exprs p).
Definition set_exprs (n : Z) (p : parser) : parser := mkParser (pi p) (loops p) (blocks p) n.

Definition tokenKindName (k : tokenKind) : string :=
  match k with
  | tokName => "a name" | tokString => "a string" | tokTagEnd => "%}" | tokVarEnd => "}}" | _ => "a token"
  end.

Definition matches (k : tokenKind) (v : string) (t : token) : bool :=
  bool_decide (kind t = k) && (bool_decide (v = "") || bool_decide (val t = v)).
Definition is_op (v : string) (t : token) : bool := bool_decide (kind t = tokOp) && bool_decide (val t = v).
Definition is_name (v : string) (t : token) : bool := bool_decide (kind t = tokName) && bool_decide (val t = v).
Definition one_of (vs : list string) (t : token) : bool := bool_decide (val t ∈ vs).

Fixpoint allDigits (s : string) : bool :=
  match s with EmptyString => true | String c r => is_digit c && allDigits r end.
Definition splitNumericAttrs (t : token) : option (string * string) :=
  if bool_decide (kind t = tokFloat) then
    match IndexByte "." (val t) with
    | Some (S d) =>
        let a := stake (S d) (val t) in
        let b := sdrop (S (S d)) (val t) in
        if bool_decide (S d = String.length (val t) - 1)%nat then None
        else if allDigits a && allDigits b then Some (a, b) else None
    | _ => None
    end
  else None.

Definition testTakesArgument (name : string) : bool :=
  bool_decide (name ∈ ["divisibleby"; "eq"; "equalto"; "ne"; "lt"; "le"; "gt"; "ge"; "sameas"; "match"; "greaterthan"; "lessthan"; "in"]).
Definition startsExpression (t : token) : bool :=
  match kind t with
  | tokName => negb (one_of ["and"; "or"; "not"; "if"; "else"; "is"; "in"; "recursive"] t)
  | tokString | tokInt | tokFloat => true
  | tokOp => one_of ["("; "["; "{"; "-"] t
  | _ => false
  end.

Section parser.
Context (toks : list token) (MaxDepth : Z).

Definition P (A : Type) : Type := EM Error parser A.
Definition panic {A} : P A := em_fail (mkError (mkTPos "" 0 0) Panics).
Definition errorf {A} (p : TPos) (m : tmsg) : P A := em_fail (mkError p m).

Definition tok_at (k : nat) : P token := λ p, match toks !! (pi p + k)%nat with Some t => inr (t, p) | None => panic p end.
Definition peek : P token := tok_at 0.
Definition skip (n : nat) : P unit := em_modify (λ p, set_i (pi p + n) p).
Definition next : P token := t ← peek; skip 1;; mret t.

Definition accept (k : tokenKind) (v : string) : P bool :=
  t ← peek; if matches k v t then skip 1;; mret true else mret false.
Definition expect (k : tokenKind) (v : string) : P token :=
  t ← peek;
  if matches k v t then skip 1;; mret t
  else errorf (tpos t) (Expected (if bool_decide (v = "") then tokenKindName k else v) t).

Definition turns_ : nat := S (length toks).
Definition out_of_turns {A} : P A := errorf (mkTPos "" 0 0) OutOfTurns.

(** ** Expressions (parse_expr.go) *)

Definition nest : P unit :=
  n ← em_get exprs;
  em_modify (set_exprs (n + 1));;
  if maxExprDepth <? n + 1 then t ← peek; errorf (tpos t) (ExprTooDeep maxExprDepth) else mret tt.
Definition unnest : P unit := em_modify (λ p, set_exprs (exprs p - 1) p).

(** The functions a cycle of the grammar comes back to. *)
Record Deeper := mkDeeper { dConditional : P Expr; dNot : P Expr; dUnary : P Expr }.

Definition nested {A} (m : P A) : P A := nest;; x ← m; unnest;; mret x.

Section level.
Context (d : Deeper).

Definition parseExpr : P Expr := nested (dConditional d).

(** Operators of one rank, from the left. *)
Fixpoint binary_go (turns : nat) (is_operator : token → bool) (operand : P Expr) (e : Expr) : P Expr :=
  match turns with
  | O => out_of_turns
  | S turns =>
      t ← peek;
      if is_operator t then
        skip 1;; r ← operand; binary_go turns is_operator operand (BinaryExpr (tpos t) (val t) e r)
      else mret e
  end.
Definition binary (is_operator : token → bool) (operand : P Expr) : P Expr :=
  e ← operand; binary_go turns_ is_operator operand e.

(** Items between a bracket that was read and [close], with commas between. *)
Fixpoint items_go {A} (turns : nat) (close : string) (item : P A) (acc : list A) : P (list A) :=
  match turns with
  | O => out_of_turns
  | S turns =>
      closed ← accept tokOp close;
      if closed : bool then mret acc
      else
        x ← item;
        comma ← accept tokOp ",";
        if comma : bool then items_go turns close item (acc ++ [x])
        else expect tokOp close;; mret (acc ++ [x])
  end.

Definition readPart : P (option Expr) :=
  t ← peek;
  if is_op ":" t || is_op "]" t then mret None else e ← parseExpr; mret (Some e).
Fixpoint slice_go (turns : nat) (pos : TPos) (colons : nat) (parts : list (option Expr)) : P (nat * list (option Expr)) :=
  match turns with
  | O => out_of_turns
  | S turns =>
      t ← peek;
      if is_op ":" t then
        skip 1;;
        if (2 <? S colons)%nat then errorf pos SliceParts
        else part ← readPart; slice_go turns pos (S colons) (parts ++ [part])
      else mret (colons, parts)
  end.
Definition parseSubscript (obj : Expr) (pos : TPos) : P Expr :=
  part ← readPart;
  '(colons, parts) ← slice_go 3 pos 0 [part];
  expect tokOp "]";;
  if bool_decide (colons = O) then
    match part with
    | None => errorf pos EmptySubscript
    | Some index => mret (ItemExpr pos obj index)
    end
  else mret (SliceExpr pos obj part (mjoin (parts !! 1%nat)) (mjoin (parts !! 2%nat))).

(** One argument of a call. *)
Inductive argument := StarKw (e : Expr) | StarArgs (e : Expr) | Keyword (name : string) (e : Expr) | Positional (e : Expr).
Definition keyword_follows (t : token) : P bool :=
  if bool_decide (kind t = tokName) then u ← tok_at 1; mret (is_op "=" u) else mret false.
Definition parseArgument : P argument :=
  t ← peek;
  if is_op "**" t then skip 1;; e ← parseExpr; mret (StarKw e)
  else if is_op "*" t then skip 1;; e ← parseExpr; mret (StarArgs e)
  else
    keyword ← keyword_follows t;
    if keyword : bool then skip 2;; e ← parseExpr; mret (Keyword (val t) e)
    else e ← parseExpr; mret (Positional e).

Definition positional (l : list argument) : list Expr := omap (λ a, match a with Positional e => Some e | _ => None end) l.
Definition keywords (l : list argument) : list (string * Expr) := omap (λ a, match a with Keyword n e => Some (n, e) | _ => None end) l.
(** A later unpacking replaces an earlier one. *)
Definition star_args (l : list argument) : option Expr := last (omap (λ a, match a with StarArgs e => Some e | _ => None end) l).
Definition star_kw (l : list argument) : option Expr := last (omap (λ a, match a with StarKw e => Some e | _ => None end) l).

Definition parseCallArgs (fn : Expr) (pos : TPos) : P Expr :=
  l ← items_go turns_ ")" parseArgument [];
  mret (CallExpr pos fn (positional l) (keywords l) (star_args l) (star_kw l)).

Definition parseFilterChain (obj : Expr) : P Expr :=
  nameTok ← expect tokName "";
  t ← peek;
  if is_op "(" t then
    skip 1;;
    l ← items_go turns_ ")" parseArgument [];
    mret (FilterExpr (tpos nameTok) obj (val nameTok) (positional l) (keywords l))
  else mret (FilterExpr (tpos nameTok) obj (val nameTok) [] []).

Fixpoint trailers_go (turns : nat) (e : Expr) : P Expr :=
  match turns with
  | O => out_of_turns
  | S turns =>
      t ← peek;
      if is_op "." t then
        skip 1;;
        nameTok ← peek;
        match splitNumericAttrs nameTok with
        | Some (first, second) => skip 1;; trailers_go turns (AttrExpr (tpos t) (AttrExpr (tpos t) e first) second)
        | None =>
            if bool_decide (kind nameTok = tokName) || bool_decide (kind nameTok = tokInt)
            then skip 1;; trailers_go turns (AttrExpr (tpos t) e (val nameTok))
            else errorf (tpos nameTok) (ExpectedAttr nameTok)
        end
      else if is_op "[" t then skip 1;; e ← parseSubscript e (tpos t); trailers_go turns e
      else if is_op "(" t then skip 1;; e ← parseCallArgs e (tpos t); trailers_go turns e
      else mret e
  end.
Definition parseTrailers : Expr → P Expr := trailers_go turns_.

Fixpoint filters_go (turns : nat) (e : Expr) : P Expr :=
  match turns with
  | O => out_of_turns
  | S turns =>
      t ← peek;
      if is_op "|" t then
        skip 1;; e ← parseFilterChain e; e ← parseTrailers e; filters_go turns e
      else mret e
  end.
Definition parseTrailingFilters : Expr → P Expr := filters_go turns_.

Fixpoint strings_go (turns : nat) (s : string) : P string :=
  match turns with
  | O => out_of_turns
  | S turns => t ← peek; if bool_decide (kind t = tokString) then skip 1;; strings_go turns (s +:+ val t) else mret s
  end.

Definition lit_of (n : number) : lit := match n with NoNum => LNil | NumInt z => LInt z | NumFloat f => LFloat f end.
Definition named (t : token) : Expr :=
  if one_of ["true"; "True"] t then LiteralExpr (tpos t) (LBool true)
  else if one_of ["false"; "False"] t then LiteralExpr (tpos t) (LBool false)
  else if one_of ["none"; "None"] t then LiteralExpr (tpos t) LNil
  else NameExpr (tpos t) (val t).

(** The items of a tuple behind its first, to before the bracket. *)
Fixpoint tuple_go (turns : nat) (items : list Expr) : P (list Expr) :=
  match turns with
  | O => out_of_turns
  | S turns =>
      comma ← accept tokOp ",";
      if comma : bool then
        t ← peek;
        if is_op ")" t then mret items
        else x ← parseExpr; tuple_go turns (items ++ [x])
      else mret items
  end.
Definition parseParen (pos : TPos) : P Expr :=
  closed ← accept tokOp ")";
  if closed : bool then mret (TupleExpr pos [])
  else
    e ← parseExpr;
    t ← peek;
    if is_op "," t then
      items ← tuple_go turns_ [e];
      expect tokOp ")";; mret (TupleExpr pos items)
    else expect tokOp ")";; mret e.
Definition parseEntry : P (Expr * Expr) := k ← parseExpr; expect tokOp ":";; v ← parseExpr; mret (k, v).

Definition parsePrimary : P Expr :=
  t ← peek;
  match kind t with
  | tokString => skip 1;; s ← strings_go turns_ (val t); mret (LiteralExpr (tpos t) (LStr s))
  | tokInt | tokFloat => skip 1;; mret (LiteralExpr (tpos t) (lit_of (num t)))
  | tokName => skip 1;; mret (named t)
  | tokOp =>
      if bool_decide (val t = "(") then skip 1;; parseParen (tpos t)
      else if bool_decide (val t = "[") then skip 1;; l ← items_go turns_ "]" parseExpr []; mret (ListExpr (tpos t) l)
      else if bool_decide (val t = "{") then skip 1;; l ← items_go turns_ "}" parseEntry []; mret (DictExpr (tpos t) l.*1 l.*2)
      else errorf (tpos t) (UnexpectedInExpr t)
  | _ => errorf (tpos t) (UnexpectedInExpr t)
  end.

Definition parsePostfix : P Expr := e ← parsePrimary; parseTrailers e.

Definition parseUnaryOperand (withFilter : bool) : P Expr :=
  t ← peek;
  if is_op "-" t || is_op "+" t then
    skip 1;;
    x ← nested (dUnary d);
    let node := if bool_decide (val t = "-") then UnaryExpr (tpos t) "-" x else x in
    if withFilter then parseTrailingFilters node else mret node
  else
    e ← parsePostfix;
    if withFilter then parseTrailingFilters e else mret e.
Definition parseUnary : P Expr := parseUnaryOperand true.

Definition parsePower : P Expr := binary (is_op "**") parseUnary.
Definition parseMultiplicative : P Expr :=
  binary (λ t, bool_decide (kind t = tokOp) && one_of ["*"; "/"; "//"; "%"] t) parsePower.
Definition parseConcat : P Expr := binary (is_op "~") parseMultiplicative.
Definition parseAdditive : P Expr := binary (λ t, is_op "+" t || is_op "-" t) parseConcat.

Definition parseTest (obj : Expr) (pos : TPos) : P Expr :=
  t ← peek;
  let negated := is_name "not" t in
  (if negated then skip 1 else mret tt);;
  t ← peek;
  if bool_decide (kind t = tokName) then
    skip 1;;
    u ← peek;
    if is_op "(" u then skip 1;; args ← items_go turns_ ")" parseExpr []; mret (TestExpr pos obj (val t) args negated)
    else if testTakesArgument (val t) && startsExpression u then a ← parseAdditive; mret (TestExpr pos obj (val t) [a] negated)
    else mret (TestExpr pos obj (val t) [] negated)
  else errorf (tpos t) (ExpectedTest t).

(** A comparison continues the chain it is in, which is the expression so far,
    or begins one. *)
Definition link (chained : bool) (pos : TPos) (op : string) (e r : Expr) : Expr :=
  match chained, e with
  | true, CompareExpr p first ops rest => CompareExpr p first (ops ++ [op]) (rest ++ [r])
  | _, _ => CompareExpr pos e [op] [r]
  end.
Definition is_comparison (t : token) : bool := bool_decide (kind t = tokOp) && one_of ["=="; "!="; "<"; "<="; ">"; ">="] t.
Definition not_in_follows (t : token) : P bool :=
  if is_name "not" t then u ← tok_at 1; mret (is_name "in" u) else mret false.

Fixpoint comparison_go (turns : nat) (chained : bool) (e : Expr) : P Expr :=
  match turns with
  | O => out_of_turns
  | S turns =>
      t ← peek;
      if is_comparison t then skip 1;; r ← parseAdditive; comparison_go turns true (link chained (tpos t) (val t) e r)
      else if is_name "in" t then skip 1;; r ← parseAdditive; comparison_go turns true (link chained (tpos t) "in" e r)
      else
        not_in ← not_in_follows t;
        if not_in : bool then skip 2;; r ← parseAdditive; comparison_go turns true (link chained (tpos t) "not in" e r)
        else if is_name "is" t then skip 1;; e ← parseTest e (tpos t); comparison_go turns false e
        else mret e
  end.
Definition parseComparison : P Expr := e ← parseAdditive; comparison_go turns_ false e.

Definition parseNot : P Expr :=
  t ← peek;
  if is_name "not" t then skip 1;; x ← nested (dNot d); mret (UnaryExpr (tpos t) "not" x)
  else parseComparison.
Definition parseAnd : P Expr := binary (is_name "and") parseNot.
Definition parseOr : P Expr := binary (is_name "or") parseAnd.

Definition parseConditional : P Expr :=
  e ← parseOr;
  t ← peek;
  if is_name "if" t then
    skip 1;;
    cond ← parseOr;
    u ← peek;
    if is_name "else" u then skip 1;; f ← nested (dConditional d); mret (CondExpr (tpos t) cond e (Some f))
    else mret (CondExpr (tpos t) cond e None)
  else mret e.

End level.

Fixpoint level (n : nat) : Deeper :=
  match n with
  | O => mkDeeper out_of_turns out_of_turns out_of_turns
  | S n => let d := level n in mkDeeper (parseConditional d) (parseNot d) (parseUnaryOperand d false)
  end.

(** What statements read expressions with. *)
Definition top : Deeper := level (Z.to_nat maxExprDepth).

(** ** Statements (parse.go) *)

Definition expr : P Expr := parseExpr top.
Definition tag_end : P unit := expect tokTagEnd "";; mret tt.

(** The name of the tag the parser stands at, if it is one of [names]. *)
Definition atTagNamed (names : list string) : P (option string) :=
  t ← peek;
  if bool_decide (kind t = tokTagStart) then
    nt ← tok_at 1;
    mret (if bool_decide (kind nt = tokName) && bool_decide (val nt ∈ names) then Some (val nt) else None)
  else mret None.

Definition endTag : P unit := expect tokTagStart "";; next;; tag_end.

Fixpoint names_go (turns : nat) (acc : list string) : P (list string) :=
  match turns with
  | O => out_of_turns
  | S turns =>
      t ← expect tokName "";
      comma ← accept tokOp ",";
      if comma : bool then names_go turns (acc ++ [val t]) else mret (acc ++ [val t])
  end.
Fixpoint more_names (turns : nat) (acc : list string) : P (list string) :=
  match turns with
  | O => out_of_turns
  | S turns =>
      comma ← accept tokOp ",";
      if comma : bool then t ← expect tokName ""; more_names turns (acc ++ [val t]) else mret acc
  end.
(** A token that is skipped if it is the name [v]. *)
Definition optional_name (v : string) : P bool := t ← peek; if is_name v t then skip 1;; mret true else mret false.

Definition parseParam : P Param :=
  t ← expect tokName "";
  eq ← accept tokOp "=";
  if eq : bool then e ← expr; mret (mkParam (val t) (Some e)) else mret (mkParam (val t) None).
Definition parseParamList : P (list Param) := expect tokOp "(";; items_go turns_ ")" parseParam [].

Definition parseContextModifier : P (option bool) :=
  t ← peek;
  if is_name "with" t || is_name "without" t then
    nt ← tok_at 1;
    if is_name "context" nt then skip 2;; mret (Some (bool_decide (val t = "with"))) else mret None
  else mret None.

Fixpoint include_go (turns : nat) (ignoreMissing withContext : bool) : P (bool * bool) :=
  match turns with
  | O => out_of_turns
  | S turns =>
      t ← peek;
      if is_name "ignore" t then skip 1;; expect tokName "missing";; include_go turns true withContext
      else
        ctx ← parseContextModifier;
        match ctx with
        | Some b => include_go turns ignoreMissing b
        | None => mret (ignoreMissing, withContext)
        end
  end.
Definition parseInclude (start : TPos) : P Node :=
  name ← expr; '(m, c) ← include_go turns_ false true; tag_end;; mret (IncludeNode start name m c).

Definition parseImport (start : TPos) : P Node :=
  name ← expr; expect tokName "as";; as_ ← expect tokName "";
  ctx ← parseContextModifier; tag_end;; mret (ImportNode start name (val as_) (default false ctx)).
Definition parseDataImport (start : TPos) (format : string) : P Node :=
  name ← expr; expect tokName "as";; as_ ← expect tokName ""; tag_end;; mret (DataImportNode start name (val as_) format).

Fixpoint from_go (turns : nat) (names : list ImportName) : P (list ImportName * bool) :=
  match turns with
  | O => out_of_turns
  | S turns =>
      ctx ← parseContextModifier;
      match ctx with
      | Some b => mret (names, b)
      | None =>
          t ← expect tokName "";
          renamed ← optional_name "as";
          im ← (if renamed : bool then a ← expect tokName ""; mret (mkImportName (val t) (val a)) else mret (mkImportName (val t) (val t)));
          comma ← accept tokOp ",";
          if comma : bool then from_go turns (names ++ [im])
          else ctx ← parseContextModifier; mret (names ++ [im], default false ctx)
      end
  end.
Definition parseFromImport (start : TPos) : P Node :=
  name ← expr; expect tokName "import";; '(names, c) ← from_go turns_ []; tag_end;; mret (FromImportNode start name names c).

Definition parseExtends (start : TPos) : P Node := name ← expr; tag_end;; mret (ExtendsNode start name).
Definition parseDo (start : TPos) : P Node := e ← expr; tag_end;; mret (DoNode start e).
Definition parseLoopControl (start : TPos) (name : string) : P Node :=
  n ← em_get loops;
  if bool_decide (n = O) then errorf start (OutsideLoop name)
  else tag_end;; mret (if bool_decide (name = "break") then BreakNode start else ContinueNode start).

Section statement.
(** The parser of the bodies inside a statement. *)
Context (parseBody : list string → P (list Node * string)).

Fixpoint if_go (turns : nat) (start : TPos) (conds : list Expr) (bodies : list (list Node)) : P Node :=
  match turns with
  | O => out_of_turns
  | S turns =>
      cond ← expr;
      tag_end;;
      '(body, end_) ← parseBody ["elif"; "else"; "endif"];
      let conds := conds ++ [cond] in
      let bodies := bodies ++ [body] in
      if bool_decide (end_ = "elif") then skip 2;; if_go turns start conds bodies
      else if bool_decide (end_ = "else") then
        skip 2;; tag_end;; '(elseBody, _) ← parseBody ["endif"]; endTag;; mret (IfNode start conds bodies elseBody)
      else endTag;; mret (IfNode start conds bodies [])
  end.
Definition parseIf (start : TPos) : P Node := if_go turns_ start [] [].

(** A body with one more loop around it, and one with none. *)
Definition loop_body (tags : list string) : P (list Node * string) :=
  em_modify (λ p, set_loops (S (loops p)) p);;
  r ← parseBody tags;
  em_modify (λ p, set_loops (pred (loops p)) p);; mret r.
Definition macro_body (tags : list string) : P (list Node * string) :=
  saved ← em_get loops;
  em_modify (set_loops 0);;
  r ← parseBody tags;
  em_modify (set_loops saved);; mret r.

Definition parseFor (start : TPos) : P Node :=
  targets ← names_go turns_ [];
  expect tokName "in";;
  iter ← parseOr top;
  filtered ← optional_name "if";
  cond ← (if filtered : bool then e ← parseOr top; mret (Some e) else mret None);
  recursive ← optional_name "recursive";
  tag_end;;
  '(body, end_) ← loop_body ["else"; "endfor"];
  if bool_decide (end_ = "else") then
    skip 2;; tag_end;; r ← parseBody ["endfor"]; endTag;; mret (ForNode start targets iter cond body r.1 recursive)
  else endTag;; mret (ForNode start targets iter cond body [] recursive).

Definition parseSet (start : TPos) : P Node :=
  first ← expect tokName "";
  t ← peek;
  if is_op "." t then
    skip 1;; attr ← expect tokName ""; expect tokOp "=";; v ← expr; tag_end;;
    mret (SetNode start [] (Some v) [] None (val first) (val attr))
  else
    targets ← more_names turns_ [val first];
    eq ← accept tokOp "=";
    if eq : bool then v ← expr; tag_end;; mret (SetNode start targets (Some v) [] None "" "")
    else
      t ← peek;
      filter ← (if is_op "|" t then skip 1;; f ← parseFilterChain top (LiteralExpr start (LStr "")); mret (Some f) else mret None);
      tag_end;;
      r ← parseBody ["endset"];
      endTag;; mret (SetNode start targets None r.1 filter "" "").

Definition parseMacro (start : TPos) : P Node :=
  nameTok ← expect tokName "";
  params ← parseParamList;
  tag_end;;
  r ← macro_body ["endmacro"];
  endTag;; mret (MacroNode start (val nameTok) params r.1).

Definition parseCall (start : TPos) : P Node :=
  t ← peek;
  params ← (if is_op "(" t then parseParamList else mret []);
  call ← expr;
  tag_end;;
  r ← parseBody ["endcall"];
  endTag;; mret (CallNode start params call r.1).

Definition parseBlock (start : TPos) : P Node :=
  nameTok ← expect tokName "";
  scoped ← optional_name "scoped";
  tag_end;;
  r ← parseBody ["endblock"];
  expect tokTagStart "";; next;;
  t ← peek;
  (if bool_decide (kind t = tokName) then
     skip 1;; if bool_decide (val t = val nameTok) then mret tt else errorf (tpos t) (EndblockMismatch (val t) (val nameTok))
   else mret tt);;
  tag_end;; mret (BlockNode start (val nameTok) r.1 scoped).

Fixpoint filter_go (turns : nat) (f : Expr) : P Expr :=
  match turns with
  | O => out_of_turns
  | S turns => t ← peek; if is_op "|" t then skip 1;; f ← parseFilterChain top f; filter_go turns f else mret f
  end.
Definition parseFilter (start : TPos) : P Node :=
  f ← parseFilterChain top (LiteralExpr start (LStr ""));
  f ← filter_go turns_ f;
  tag_end;;
  r ← parseBody ["endfilter"];
  endTag;; mret (FilterNode start f r.1).

Fixpoint with_go (turns : nat) (acc : list (string * Expr)) : P (list (string * Expr)) :=
  match turns with
  | O => out_of_turns
  | S turns =>
      t ← peek;
      if bool_decide (kind t = tokName) then
        skip 1;; expect tokOp "=";; v ← expr;
        comma ← accept tokOp ",";
        if comma : bool then with_go turns (acc ++ [(val t, v)]) else mret (acc ++ [(val t, v)])
      else mret acc
  end.
Definition parseWith (start : TPos) : P Node :=
  l ← with_go turns_ [];
  tag_end;;
  r ← parseBody ["endwith"];
  endTag;; mret (WithNode start l.*1 l.*2 r.1).

Definition parseAutoescape (start : TPos) : P Node :=
  expr;; tag_end;; r ← parseBody ["endautoescape"]; endTag;; mret (AutoescapeNode start r.1).

Definition statement_of (start : TPos) (name : string) : P Node :=
  if bool_decide (name = "if") then parseIf start
  else if bool_decide (name = "for") then parseFor start
  else if bool_decide (name = "set") then parseSet start
  else if bool_decide (name = "macro") then parseMacro start
  else if bool_decide (name = "call") then parseCall start
  else if bool_decide (name = "include") then parseInclude start
  else if bool_decide (name = "import") then parseImport start
  else if bool_decide (name = "from") then parseFromImport start
  else if bool_decide (name = "import_yaml") then parseDataImport start "yaml"
  else if bool_decide (name = "import_json") then parseDataImport start "json"
  else if bool_decide (name = "import_text") then parseDataImport start "text"
  else if bool_decide (name = "extends") then parseExtends start
  else if bool_decide (name = "block") then parseBlock start
  else if bool_decide (name = "filter") then parseFilter start
  else if bool_decide (name = "break") || bool_decide (name = "continue") then parseLoopControl start name
  else if bool_decide (name = "do") then parseDo start
  else if bool_decide (name = "with") then parseWith start
  else if bool_decide (name = "autoescape") then parseAutoescape start
  else if bool_decide (name ∈ ["trans"; "pluralize"; "load"]) then errorf start (UnsupportedTag name)
  else errorf start (UnknownTag name).

Definition parseStatement : P Node :=
  t ← peek;
  n ← em_get blocks;
  em_modify (set_blocks (n + 1));;
  if MaxDepth <? n + 1 then errorf (tpos t) (StatementsTooDeep MaxDepth)
  else
    skip 1;;
    nameTok ← expect tokName "";
    node ← statement_of (tpos t) (val nameTok);
    em_modify (λ p, set_blocks (blocks p - 1) p);;
    mret node.

Fixpoint body_go (turns : nat) (endTags : list string) (body : list Node) : P (list Node * string) :=
  match turns with
  | O => out_of_turns
  | S turns =>
      t ← peek;
      if bool_decide (kind t = tokEOF) then
        if bool_decide (endTags = []) then mret (body, "") else errorf (tpos t) (UnexpectedEnd endTags)
      else
        at_end ← atTagNamed endTags;
        match at_end with
        | Some name => mret (body, name)
        | None =>
            match kind t with
            | tokText => skip 1;; body_go turns endTags (body ++ [TextNode (tpos t) (val t)])
            | tokVarStart => skip 1;; e ← expr; expect tokVarEnd "";; body_go turns endTags (body ++ [OutputNode (tpos t) e])
            | tokTagStart => n ← parseStatement; body_go turns endTags (body ++ [n])
            | _ => errorf (tpos t) (UnexpectedToken t)
            end
        end
  end.
End statement.

Fixpoint body_level (n : nat) (endTags : list string) : P (list Node * string) :=
  match n with
  | O => out_of_turns
  | S n => body_go (body_level n) turns_ endTags []
  end.
Definition parseBody : list string → P (list Node * string) := body_level (S (Z.to_nat MaxDepth)).

Definition parseTemplate : Error + list Node :=
  match parseBody [] (mkParser 0 0 0 0) with
  | inl e => inl e
  | inr ((body, end_), p) =>
      if bool_decide (end_ = "") then
        match check_height (S (Z.to_nat MaxDepth)) maxExprDepth body with
        | Some e => inl e
        | None => inr body
        end
      else inl (mkError (default (mkTPos "" 0 0) (tpos <$> toks !! pi p)) (UnexpectedEndTag end_))
  end.
End parser.

(** ** A template (env.go) *)

Record Options := mkOptions {
  oDelimiters : Delimiters; oTrimBlocks : bool; oLstripBlocks : bool; oKeepTrailingNewline : bool; oMaxDepth : Z }.

Definition DefaultOptions : Options := mkOptions DefaultDelimiters false false true 100.

(** The line break at the end of a template that ends in text. *)
Fixpoint trim_last (l : list token) : list token :=
  match l with
  | [] => []
  | t :: r =>
      if bool_decide (kind t = tokText) then mkToken tokText (TrimSuffix (val t) (String NLc "")) (num t) (tpos t) :: r
      else if bool_decide (kind t = tokEOF) then t :: trim_last r
      else l
  end.
Definition trimTrailingNewline (toks : list token) : list token := reverse (trim_last (reverse toks)).

Record Template := mkTemplate { tName : string; tSrc : string; tBody : list Node }.

Definition Parse {V} {RT : GoRuntime V} (opts : Options) (src name : string) : Error + Template :=
  match lex src name (oDelimiters opts) (mkLexOptions (oTrimBlocks opts) (oLstripBlocks opts)) with
  | inl e => inl e
  | inr toks =>
      let toks := if oKeepTrailingNewline opts then toks else trimTrailingNewline toks in
      match parseTemplate toks (oMaxDepth opts) with
      | inl e => inl e
      | inr body => inr (mkTemplate name src body)
      end
  end.
