(* ===== verification/TemplateGrammar.v ===== *)
(** * Templates: the grammar of expressions

    The grammar that the head of src/internal/template/parse_expr.go documents,
    as a relation between the tokens of a phrase and the tree it stands for.  It
    says how operators bind and associate; it does not say how to read them.
    [TemplateParseSafe] shows that the parser of [TemplateParse] reads phrases of
    it.  The parser takes more than the documentation has in two places: the else
    of a conditional may be left out, and the arguments that a filter unpacks are
    read and dropped.  [phrase True] has these, [phrase False] is the documented
    grammar; [phrase_strict] goes from the one to the other where the expression
    has neither.  The documented rule for signs is ambiguous, and the paragraph
    below it settles it: the operand of a sign takes no filters. *)

From S2P Require Import Prelude GoLib TemplateLex TemplateParse.

Open Scope Z_scope.

Inductive rank :=
| RConditional | ROr | RAnd | RNot | RAdditive | RConcat | RMultiplicative | RPower | RUnary | ROperand | RPrimary.

(** The ranks of operators between two operands: the operators, and the rank of
    the operand at their right.  At their left stands the rank itself, so they
    associate to the left. *)
Definition binary_rank (r : rank) : option ((token → bool) * rank) :=
  match r with
  | ROr => Some (is_name "or", RAnd)
  | RAnd => Some (is_name "and", RNot)
  | RAdditive => Some (λ t, is_op "+" t || is_op "-" t, RConcat)
  | RConcat => Some (is_op "~", RMultiplicative)
  | RMultiplicative => Some (λ t, bool_decide (kind t = tokOp) && one_of ["*"; "/"; "//"; "%"] t, RPower)
  | RPower => Some (is_op "**", RUnary)
  | _ => None
  end.

(** What stands between a bracket and [close]: phrases with commas between, and
    perhaps one behind the last. *)
Inductive items {A} (R : list token → A → Prop) (close : string) : list token → list A → Prop :=
| items_none t : is_op close t = true → items R close [t] []
| items_last w x t : R w x → is_op close t = true → items R close (w ++ [t]) [x]
| items_more w x t w' l : R w x → is_op "," t = true → items R close w' l → items R close (w ++ t :: w') (x :: l).

(** The operators of comparisons. *)
Inductive comparator : list token → string → Prop :=
| cmp_sign t : kind t = tokOp → val t ∈ ["=="; "!="; "<"; "<="; ">"; ">="] → comparator [t] (val t)
| cmp_in t : is_name "in" t = true → comparator [t] "in"
| cmp_not_in t u : is_name "not" t = true → is_name "in" u = true → comparator [t; u] "not in".

Definition head_pos (w : list token) : TPos := default (mkTPos "" 0 0) (tpos <$> head w).

(** An argument that is unpacked. *)
Definition unpacked (a : argument) : Prop := match a with StarKw _ | StarArgs _ => True | _ => False end.

Section grammar.
(** Whether what the documentation leaves out is allowed. *)
Context (lax : Prop).

Inductive phrase : rank → list token → Expr → Prop :=
| ph_operand_of r op r' w e : binary_rank r = Some (op, r') → phrase r' w e → phrase r w e
| ph_binary r op r' w1 e1 t w2 e2 :
    binary_rank r = Some (op, r') → phrase r w1 e1 → op t = true → phrase r' w2 e2 →
    phrase r (w1 ++ t :: w2) (BinaryExpr (tpos t) (val t) e1 e2)
(* conditional := or [ "if" or "else" conditional ], and without the else *)
| ph_or w e : phrase ROr w e → phrase RConditional w e
| ph_if w1 e t w2 c :
    lax → phrase ROr w1 e → is_name "if" t = true → phrase ROr w2 c → phrase RConditional (w1 ++ t :: w2) (CondExpr (tpos t) c e None)
| ph_if_else w1 e t w2 c u w3 f :
    phrase ROr w1 e → is_name "if" t = true → phrase ROr w2 c → is_name "else" u = true → phrase RConditional w3 f →
    phrase RConditional (w1 ++ t :: w2 ++ u :: w3) (CondExpr (tpos t) c e (Some f))
(* not := "not" not | comparison *)
| ph_not t w e : is_name "not" t = true → phrase RNot w e → phrase RNot (t :: w) (UnaryExpr (tpos t) "not" e)
| ph_comparison b w e : compared b w e → phrase RNot w e
(* unary := operand { "|" filter trailers } *)
| ph_operand w e : phrase ROperand w e → phrase RUnary w e
| ph_filter w1 e t w2 f w3 e' :
    phrase RUnary w1 e → is_op "|" t = true → filtered e w2 f → trailers f w3 e' → phrase RUnary (w1 ++ t :: w2 ++ w3) e'
(* operand := ("-" | "+") operand | primary trailers *)
| ph_minus t w e : is_op "-" t = true → phrase ROperand w e → phrase ROperand (t :: w) (UnaryExpr (tpos t) "-" e)
| ph_plus t w e : is_op "+" t = true → phrase ROperand w e → phrase ROperand (t :: w) e
| ph_postfix w1 e w2 e' : phrase RPrimary w1 e → trailers e w2 e' → phrase ROperand (w1 ++ w2) e'
(* primary *)
| ph_strings t ws :
    kind t = tokString → Forall (λ u, kind u = tokString) ws →
    phrase RPrimary (t :: ws) (LiteralExpr (tpos t) (LStr (foldr (λ u s, val u +:+ s) "" (t :: ws))))
| ph_number t : kind t = tokInt ∨ kind t = tokFloat → phrase RPrimary [t] (LiteralExpr (tpos t) (lit_of (num t)))
| ph_name t : kind t = tokName → phrase RPrimary [t] (named t)
| ph_paren t w e u : is_op "(" t = true → phrase RConditional w e → is_op ")" u = true → phrase RPrimary (t :: w ++ [u]) e
| ph_unit t u : is_op "(" t = true → is_op ")" u = true → phrase RPrimary [t; u] (TupleExpr (tpos t) [])
| ph_tuple t w e u w' l :
    is_op "(" t = true → phrase RConditional w e → is_op "," u = true → items (phrase RConditional) ")" w' l →
    phrase RPrimary (t :: w ++ u :: w') (TupleExpr (tpos t) (e :: l))
| ph_list t w l : is_op "[" t = true → items (phrase RConditional) "]" w l → phrase RPrimary (t :: w) (ListExpr (tpos t) l)
| ph_dict t w l : is_op "{" t = true → items entry "}" w l → phrase RPrimary (t :: w) (DictExpr (tpos t) l.*1 l.*2)
(* comparison := additive { comparator additive | "is" test }, where a chain goes
   on to the first test *)
with compared : bool → list token → Expr → Prop :=
| cmp_additive w e : phrase RAdditive w e → compared false w e
| cmp_first w1 e o op w2 r :
    compared false w1 e → comparator o op → phrase RAdditive w2 r → compared true (w1 ++ o ++ w2) (CompareExpr (head_pos o) e [op] [r])
| cmp_next w1 p first ops rest o op w2 r :
    compared true w1 (CompareExpr p first ops rest) → comparator o op → phrase RAdditive w2 r →
    compared true (w1 ++ o ++ w2) (CompareExpr p first (ops ++ [op]) (rest ++ [r]))
| cmp_is b w1 e t w2 e' : compared b w1 e → is_name "is" t = true → test (tpos t) e w2 e' → compared false (w1 ++ t :: w2) e'
(* test := [ "not" ] name [ "(" items ")" | additive ] *)
with test : TPos → Expr → list token → Expr → Prop :=
| test_not p e u w x args : is_name "not" u = true → test_of w x args → test p e (u :: w) (TestExpr p e x args true)
| test_plain p e w x args : test_of w x args → test p e w (TestExpr p e x args false)
with test_of : list token → string → list Expr → Prop :=
| test_name t : kind t = tokName → test_of [t] (val t) []
| test_args t u w l : kind t = tokName → is_op "(" u = true → items (phrase RConditional) ")" w l → test_of (t :: u :: w) (val t) l
| test_bare t w e : kind t = tokName → testTakesArgument (val t) = true → phrase RAdditive w e → test_of (t :: w) (val t) [e]
(* trailers := { "." name | "[" subscript "]" | "(" args ")" } *)
with trailers : Expr → list token → Expr → Prop :=
| tr_none e : trailers e [] e
| tr_attr e t u w e' :
    is_op "." t = true → kind u = tokName ∨ kind u = tokInt → trailers (AttrExpr (tpos t) e (val u)) w e' → trailers e (t :: u :: w) e'
| tr_attrs e t u a b w e' :
    is_op "." t = true → splitNumericAttrs u = Some (a, b) → trailers (AttrExpr (tpos t) (AttrExpr (tpos t) e a) b) w e' → trailers e (t :: u :: w) e'
| tr_item e t w1 i u w e' :
    is_op "[" t = true → phrase RConditional w1 i → is_op "]" u = true → trailers (ItemExpr (tpos t) e i) w e' → trailers e (t :: w1 ++ u :: w) e'
| tr_slice e t w1 start c w2 stop u w e' :
    is_op "[" t = true → part w1 start → is_op ":" c = true → part w2 stop → is_op "]" u = true →
    trailers (SliceExpr (tpos t) e start stop None) w e' → trailers e (t :: w1 ++ c :: w2 ++ u :: w) e'
| tr_stride e t w1 start c w2 stop c' w3 step u w e' :
    is_op "[" t = true → part w1 start → is_op ":" c = true → part w2 stop → is_op ":" c' = true → part w3 step → is_op "]" u = true →
    trailers (SliceExpr (tpos t) e start stop step) w e' → trailers e (t :: w1 ++ c :: w2 ++ c' :: w3 ++ u :: w) e'
| tr_call e t w1 l w e' :
    is_op "(" t = true → items arg ")" w1 l →
    trailers (CallExpr (tpos t) e (positional l) (keywords l) (star_args l) (star_kw l)) w e' → trailers e (t :: w1 ++ w) e'
(* filter := name [ "(" args ")" ], where nothing is unpacked *)
with filtered : Expr → list token → Expr → Prop :=
| filter_name e t : kind t = tokName → filtered e [t] (FilterExpr (tpos t) e (val t) [] [])
| filter_args e t u w l :
    kind t = tokName → is_op "(" u = true → items arg ")" w l → lax ∨ Forall (λ a, ¬ unpacked a) l →
    filtered e (t :: u :: w) (FilterExpr (tpos t) e (val t) (positional l) (keywords l))
with part : list token → option Expr → Prop :=
| part_none : part [] None
| part_some w e : phrase RConditional w e → part w (Some e)
with arg : list token → argument → Prop :=
| arg_star_kw t w e : is_op "**" t = true → phrase RConditional w e → arg (t :: w) (StarKw e)
| arg_star t w e : is_op "*" t = true → phrase RConditional w e → arg (t :: w) (StarArgs e)
| arg_keyword t u w e : kind t = tokName → is_op "=" u = true → phrase RConditional w e → arg (t :: u :: w) (Keyword (val t) e)
| arg_plain w e : phrase RConditional w e → arg w (Positional e)
with entry : list token → Expr * Expr → Prop :=
| entry_pair w1 k t w2 v : phrase RConditional w1 k → is_op ":" t = true → phrase RConditional w2 v → entry (w1 ++ t :: w2) (k, v).
End grammar.

(** ** Expressions without the two departures *)

Definition elseless (e : Expr) : Prop := match e with CondExpr _ _ _ None => True | _ => False end.
(** Every conditional inside an expression has its else. *)
Definition whole (e : Expr) : Prop := ∀ x, rtc (λ e x, x ∈ exprChildren e) e x → ¬ elseless x.
(** No star follows a bracket or a comma: nothing is unpacked in an argument list. *)
Definition opens_item (t : token) : bool := is_op "(" t || is_op "," t.
Definition star (t : token) : bool := is_op "*" t || is_op "**" t.
Fixpoint keeps (w : list token) : bool :=
  match w with
  | t :: ((u :: _) as w') => negb (opens_item t && star u) && keeps w'
  | _ => true
  end.

Lemma whole_iff e : whole e ↔ ¬ elseless e ∧ Forall whole (exprChildren e).
Proof.
  split.
  - intros He. split; [apply He; reflexivity|]. apply Forall_forall. intros x Hx y Hy. apply He. by eapply rtc_l.
  - intros [He Hc] x Hx. inversion Hx as [|? y ? Hy Hr]; subst; [done|]. rewrite Forall_forall in Hc. by apply (Hc y Hy).
Qed.
Lemma whole_child e x : whole e → x ∈ exprChildren e → whole x.
Proof. intros [_ He]%whole_iff Hx. rewrite Forall_forall in He. by apply He. Qed.

Lemma keeps_cons t w : keeps (t :: w) = true → keeps w = true.
Proof. destruct w; [done|]. by intros [_ ?]%andb_true_iff. Qed.
Lemma keeps_app w1 w2 : keeps (w1 ++ w2) = true → keeps w1 = true ∧ keeps w2 = true.
Proof.
  induction w1 as [|t w1 IH]; [done|]. cbn [app]. intros H. destruct (IH (keeps_cons _ _ H)) as [H1 H2]. split; [|done].
  destruct w1 as [|u w1]; [done|]. cbn [app keeps] in *. apply andb_true_iff in H as [H _]. by rewrite H.
Qed.
Lemma keeps_second t w1 u w2 : keeps (t :: w1 ++ u :: w2) = true → keeps (u :: w2) = true.
Proof. intros H%keeps_cons%keeps_app. apply H. Qed.

(** Where nothing is unpacked, an argument list holds no unpacked argument. *)
Lemma items_keep lax close t w l :
  opens_item t = true → keeps (t :: w) = true → items (arg lax) close w l → Forall (λ a, ¬ unpacked a) l.
Proof.
  intros Ht Hk Hi. revert t Ht Hk. assert (∀ t w w' a, opens_item t = true → keeps (t :: w ++ w') = true → arg lax w a → ¬ unpacked a) as Ha.
  { intros t v v' a Ht Hk Ha. destruct Ha as [u v e Hu _|u v e Hu _| |]; [| |by intros []..];
      cbn [app keeps] in Hk; apply andb_true_iff in Hk as [Hk _]; unfold star in Hk; rewrite Ht, Hu, ?orb_true_r in Hk; discriminate Hk. }
  induction Hi as [u Hu|v a u Hv Hu|v a u v' l Hv Hu _ IH]; intros t Ht Hk; [done|constructor; [by eapply Ha|done]|].
  constructor; [by eapply Ha|]. apply (IH u); [unfold opens_item; by rewrite Hu, orb_true_r|]. by eapply keeps_second.
Qed.

(** ** From the one grammar to the other *)

Lemma items_map {A} (R S : list token → A → Prop) (Q : A → Prop) close :
  (∀ w x, R w x → Q x → keeps w = true → S w x) →
  ∀ w l, items R close w l → Forall Q l → keeps w = true → items S close w l.
Proof.
  intros HRS. fix IH 3. intros w l Hi Hl Hk. destruct Hi as [t Ht|v x t Hv Ht|v x t v' l Hv Ht Hi].
  - by constructor.
  - apply Forall_cons in Hl as [Hx _]. apply keeps_app in Hk as [Hk _]. constructor; [by apply HRS|done].
  - apply Forall_cons in Hl as [Hx Hl]. apply keeps_app in Hk as [Hk Hk']. apply keeps_cons in Hk'. constructor; [by apply HRS|done|by apply IH].
Defined.

Definition arg_expr (a : argument) : Expr := match a with StarKw e | StarArgs e | Keyword _ e | Positional e => e end.

Lemma whole_args l :
  Forall (λ a, ¬ unpacked a) l → Forall whole (positional l ++ (keywords l).*2) → Forall (λ a, whole (arg_expr a)) l.
Proof.
  rewrite !Forall_forall. intros Hu Hw a Ha. apply Hw. specialize (Hu a Ha). apply elem_of_app.
  destruct a as [e|e|n e|e]; try (by exfalso; apply Hu).
  - right. apply list_elem_of_fmap. exists (n, e). split; [done|]. apply list_elem_of_omap. by exists (Keyword n e).
  - left. apply list_elem_of_omap. by exists (Positional e).
Qed.

Lemma trailers_whole lax e w e' : trailers lax e w e' → whole e' → whole e.
Proof.
  induction 1 as [| | | | | |]; intros Hw; try done; match goal with IH : whole _ → whole _ |- _ => specialize (IH Hw); try (apply (whole_child _ _ IH); by left) end.
  match goal with IH : whole (AttrExpr _ ?x _) |- _ => apply (whole_child x); [apply (whole_child _ _ IH)|]; by left end.
Qed.

Lemma Forall_pairs {A} (Q : A → Prop) (l : list (A * A)) : Forall Q (l.*1 ++ l.*2) → Forall (λ kv, Q kv.1 ∧ Q kv.2) l.
Proof.
  rewrite Forall_app, !Forall_fmap. intros [H1 H2]. induction l as [|kv l IH]; [constructor|].
  apply Forall_cons in H1 as [? ?], H2 as [? ?]. constructor; [done|by apply IH].
Qed.

(** Takes apart what is known of the tokens and of the tree. *)
Ltac parts :=
  repeat match goal with
  | H : keeps (_ ++ _) = true |- _ => apply keeps_app in H as [? ?]
  | H : keeps (_ :: _) = true |- _ => apply keeps_cons in H
  | H : Forall whole (_ :: _) |- _ => apply Forall_cons in H as [? ?]
  | H : Forall whole (option_list (Some ?x)) |- _ => change (Forall whole [x]) in H
  | H : Forall whole (_ ++ _) |- _ => apply Forall_app in H as [? ?]
  end.
Ltac open_tree Hw := apply whole_iff in Hw as [? Hw]; cbn [exprChildren] in Hw; parts.

Lemma phrase_strict r w e : phrase True r w e → whole e → keeps w = true → phrase False r w e
with compared_strict b w e : compared True b w e → whole e → keeps w = true → compared False b w e
with test_strict p o w e : test True p o w e → whole e → keeps w = true → test False p o w e
with test_of_strict w x args : test_of True w x args → Forall whole args → keeps w = true → test_of False w x args
with trailers_strict o w e : trailers True o w e → whole e → keeps w = true → trailers False o w e
with filtered_strict o w e : filtered True o w e → whole e → keeps w = true → filtered False o w e
with part_strict w o : part True w o → Forall whole (option_list o) → keeps w = true → part False w o
with arg_strict w a : arg True w a → whole (arg_expr a) → keeps w = true → arg False w a
with entry_strict w kv : entry True w kv → whole kv.1 ∧ whole kv.2 → keeps w = true → entry False w kv.
Proof.
  - intros Hp Hw Hk.
    destruct Hp as [r op r' w e Hb Hp|r op r' w1 e1 t w2 e2 Hb H1 Ht H2|w e Hp|w1 e t w2 c Hl|w1 e t w2 c u w3 f H1 Ht H2 Hu H3|t w e Ht Hp|b w e Hp
      |w e Hp|w1 e t w2 f w3 e' H1 Ht H2 H3|t w e Ht Hp|t w e Ht Hp|w1 e w2 e' H1 H2|t ws Ht Hws|t Ht|t Ht|t w e u Ht Hp Hu|t u Ht Hu|t w e u w' l Ht Hp Hu Hi|t w l Ht Hi|t w l Ht Hi].
    + apply (ph_operand_of _ _ _ _ _ _ Hb). (apply phrase_strict; eassumption).
    + parts. open_tree Hw. eapply ph_binary; [exact Hb|(apply phrase_strict; eassumption)|done|(apply phrase_strict; eassumption)].
    + apply ph_or. (apply phrase_strict; eassumption).
    + exfalso. apply whole_iff in Hw as [Hn _]. by apply Hn.
    + parts. open_tree Hw. apply ph_if_else; try done; (apply phrase_strict; eassumption).
    + parts. open_tree Hw. apply ph_not; [done|(apply phrase_strict; eassumption)].
    + eapply ph_comparison. (apply compared_strict; eassumption).
    + apply ph_operand. (apply phrase_strict; eassumption).
    + parts. pose proof (trailers_whole _ _ _ _ H3 Hw) as Hf. assert (whole e) as He by (destruct H2; open_tree Hf; done).
      eapply ph_filter; [(apply phrase_strict; eassumption)|done|(apply filtered_strict; eassumption)|(apply trailers_strict; eassumption)].
    + parts. open_tree Hw. apply ph_minus; [done|(apply phrase_strict; eassumption)].
    + parts. apply ph_plus; [done|(apply phrase_strict; eassumption)].
    + parts. eapply ph_postfix; [apply phrase_strict; [exact H1|by eapply trailers_whole|done]|(apply trailers_strict; eassumption)].
    + by apply ph_strings.
    + by apply ph_number.
    + by apply ph_name.
    + parts. apply ph_paren; [done|(apply phrase_strict; eassumption)|done].
    + by apply ph_unit.
    + parts. open_tree Hw. eapply ph_tuple; [done|(apply phrase_strict; eassumption)|done|]. by eapply (items_map _ _ whole _ (phrase_strict RConditional)).
    + parts. open_tree Hw. eapply ph_list; [done|]. by eapply (items_map _ _ whole _ (phrase_strict RConditional)).
    + parts. apply whole_iff in Hw as [_ Hw]. eapply ph_dict; [done|].
      eapply (items_map _ _ _ _ entry_strict); [done|by apply Forall_pairs|done].
  - intros [w' e' Hp|w1 e1 o op w2 r H1 Ho H2|w1 p first ops rest o op w2 r H1 Ho H2|b' w1 e1 t w2 e' H1 Ht H2] Hw Hk; parts.
    + apply cmp_additive. (apply phrase_strict; eassumption).
    + open_tree Hw. apply cmp_first; [(apply compared_strict; eassumption)|done|(apply phrase_strict; eassumption)].
    + assert (whole (CompareExpr p first ops rest)) as Hc by (apply whole_iff; open_tree Hw; split; [by intros []|by constructor]).
      open_tree Hw. apply cmp_next; [(apply compared_strict; eassumption)|done|(apply phrase_strict; eassumption)].
    + assert (whole e1) as He by (destruct H2; open_tree Hw; done). eapply cmp_is; [(apply compared_strict; eassumption)|done|(apply test_strict; eassumption)].
  - intros [] Hw Hk; parts; open_tree Hw; constructor; try done; (apply test_of_strict; eassumption).
  - intros [t Ht|t u w' l Ht Hu Hi|t w' e Ht Ha Hp] Hw Hk; parts.
    + by constructor.
    + apply test_args; [done..|]. by eapply (items_map _ _ whole _ (phrase_strict RConditional)).
    + apply test_bare; [done..|]. (apply phrase_strict; eassumption).
  - intros [o'|o' t u w' e' Ht Hu Hr|o' t u a b w' e' Ht Hu Hr|o' t w1 i u w' e' Ht Hi Hu Hr|o' t w1 start c w2 stop u w' e' Ht H1 Hc H2 Hu Hr
      |o' t w1 start c w2 stop c' w3 step u w' e' Ht H1 Hc H2 Hc' H3 Hu Hr|o' t w1 l w' e' Ht Hi Hr] Hw Hk.
    + constructor.
    + parts. apply tr_attr; [done..|]. (apply trailers_strict; eassumption).
    + parts. eapply tr_attrs; [done..|]. (apply trailers_strict; eassumption).
    + parts. pose proof (trailers_whole _ _ _ _ Hr Hw) as Ho. open_tree Ho. eapply tr_item; [done|(apply phrase_strict; eassumption)|done|(apply trailers_strict; eassumption)].
    + parts. pose proof (trailers_whole _ _ _ _ Hr Hw) as Ho. open_tree Ho. eapply tr_slice; try done; try ((apply part_strict; eassumption)). (apply trailers_strict; eassumption).
    + parts. pose proof (trailers_whole _ _ _ _ Hr Hw) as Ho. open_tree Ho. eapply tr_stride; try done; try ((apply part_strict; eassumption)). (apply trailers_strict; eassumption).
    + assert (Forall (λ a, ¬ unpacked a) l) as Hl.
      { eapply items_keep; [|by apply (keeps_app (t :: w1) w')|exact Hi]. unfold opens_item. by rewrite Ht. }
      parts. pose proof (trailers_whole _ _ _ _ Hr Hw) as Ho. open_tree Ho. eapply tr_call; [done| |(apply trailers_strict; eassumption)].
      eapply (items_map _ _ _ _ arg_strict); [done|by apply whole_args, Forall_app|done].
  - intros [o' t Ht|o' t u w' l Ht Hu Hi _] Hw Hk; [by constructor|].
    assert (Forall (λ a, ¬ unpacked a) l) as Hl by (eapply items_keep; [|by eapply keeps_cons|exact Hi]; unfold opens_item; by rewrite Hu).
    parts. open_tree Hw. apply filter_args; [done|done| |by right].
    eapply (items_map _ _ _ _ arg_strict); [done|by apply whole_args, Forall_app|done].
  - intros [|w' e Hp] Hw Hk; parts; constructor. (apply phrase_strict; eassumption).
  - intros [t w' e Ht Hp|t w' e Ht Hp|t u w' e Ht Hu Hp|w' e Hp] Hw Hk; cbn [arg_expr] in Hw; parts; constructor; try done; (apply phrase_strict; eassumption).
  - intros [w1 k t w2 v H1 Ht H2] [Hk Hv] Hw. cbn in Hk, Hv. parts. constructor; [(apply phrase_strict; eassumption)|done|(apply phrase_strict; eassumption)].
Qed.
