(* ===== verification/TemplateParseSafe.v ===== *)
(** * Templates: the parser ends, and reads the grammar

    The parser of [TemplateParse] is followed rule by rule: what a rule reads is
    a phrase of the grammar of [TemplateGrammar], it never passes the end of the
    tokens, and its loops and its recursion have room enough. *)

From S2P Require Import Prelude GoLib TemplateLex TemplateLexSafe TemplateParse TemplateGrammar.

Open Scope nat_scope.

(** The grammar with what the parser takes beyond the documented one. *)
#[local] Abbreviation phrase := (TemplateGrammar.phrase True).
#[local] Abbreviation compared := (TemplateGrammar.compared True).
#[local] Abbreviation test := (TemplateGrammar.test True).
#[local] Abbreviation test_of := (TemplateGrammar.test_of True).
#[local] Abbreviation trailers := (TemplateGrammar.trailers True).
#[local] Abbreviation filtered := (TemplateGrammar.filtered True).
#[local] Abbreviation part := (TemplateGrammar.part True).
#[local] Abbreviation arg := (TemplateGrammar.arg True).
#[local] Abbreviation entry := (TemplateGrammar.entry True).

Definition stream_ok (toks : list token) : Prop :=
  ∃ new last, toks = new ++ [last] ∧ Forall (λ t, kind t ≠ tokEOF) new ∧ kind last = tokEOF.

Section reads.
Context (toks : list token) (Hstream : stream_ok toks).
(** What holds of the counters of the parser where a rule is used. *)
Context (Pre : parser → Prop) (Hpre : ∀ j p, Pre p → Pre (set_i j p)).

#[local] Abbreviation len := (length toks).

Definition seg (i j : nat) : list token := take (j - i) (drop i toks).

Lemma seg_nil i : seg i i = [].
Proof. unfold seg. by rewrite Nat.sub_diag, take_0. Qed.
Lemma seg_app i j k : i ≤ j → j ≤ k → seg i k = seg i j ++ seg j k.
Proof.
  intros H1 H2. unfold seg. replace (k - i) with ((j - i) + (k - j)) by lia. rewrite <- take_take_drop, drop_drop.
  by replace (i + (j - i)) with j by lia.
Qed.
Lemma seg_cons i j t : toks !! i = Some t → i < j → seg i j = t :: seg (S i) j.
Proof.
  intros Ht Hj. unfold seg. rewrite (drop_S _ _ _ Ht). replace (j - i) with (S (j - S i)) by lia. done.
Qed.

Lemma not_last i t : toks !! i = Some t → kind t ≠ tokEOF → S i < len.
Proof.
  destruct Hstream as (new & last & -> & Hnew & Hlast). intros Ht Hk. rewrite length_app. simpl.
  destruct (decide (i < length new)); [lia|]. exfalso. apply Hk. rewrite lookup_app_r in Ht by lia.
  destruct (i - length new); [simpl in Ht; congruence|done].
Qed.

(** The result of a rule used at [p]: it read at least [n] tokens, for which [R]
    holds with what it returned, or stopped with a message of the source. *)
Definition got {A} (n : nat) (R : list token → A → Prop) (p : parser) (r : Error + A * parser) : Prop :=
  match r with
  | inl e => fine e
  | inr (x, p') => ∃ j, p' = set_i j p ∧ pi p + n ≤ j ∧ j < len ∧ R (seg (pi p) j) x
  end.
(** A rule, with at most [b] tokens to read. *)
Definition reads {A} (b n : nat) (R : list token → A → Prop) (m : P A) : Prop :=
  ∀ p, Pre p → pi p < len → len - pi p ≤ b → got n R p (m p).
(** The same where the next token is known, or the next two are. *)
Definition reads_at {A} (t : token) (b n : nat) (R : list token → A → Prop) (m : P A) : Prop :=
  ∀ p, Pre p → toks !! pi p = Some t → len - pi p ≤ b → got n R p (m p).
Definition reads_at2 {A} (t u : token) (b n : nat) (R : list token → A → Prop) (m : P A) : Prop :=
  ∀ p, Pre p → toks !! pi p = Some t → toks !! S (pi p) = Some u → len - pi p ≤ b → got n R p (m p).

Lemma got_weaken {A} n n' (R R' : list token → A → Prop) p r : got n R p r → n' ≤ n → (∀ w x, R w x → R' w x) → got n' R' p r.
Proof. destruct r as [e|[x p']]; [done|]. intros (j & -> & H1 & H2 & H3) Hn HR. exists j. split_and!; [done|lia|done|by apply HR]. Qed.

Lemma reads_weaken {A} b b' n n' (R R' : list token → A → Prop) m :
  reads b n R m → b' ≤ b → n' ≤ n → (∀ w x, R w x → R' w x) → reads b' n' R' m.
Proof. intros Hm Hb Hn HR p H1 H2 H3. eapply got_weaken; [apply Hm; [done..|lia]|done|done]. Qed.

Lemma reads_ret {A} b (R : list token → A → Prop) x : R [] x → reads b 0 R (mret x).
Proof. intros HR p H1 H2 H3. exists (pi p). rewrite seg_nil. split_and!; [by destruct p|lia|done|done]. Qed.
Lemma reads_fail {A} b n (R : list token → A → Prop) q m : fine (mkError q m) → reads b n R (errorf q m).
Proof. by intros Hf p H1 H2 H3. Qed.
Lemma reads_none {A} n (R : list token → A → Prop) m : reads 0 n R m.
Proof. intros p H1 H2 H3. lia. Qed.

Lemma reads_bind {A B} b n k (R : list token → A → Prop) (S : A → list token → B → Prop) (T : list token → B → Prop) (m : P A) (f : A → P B) :
  reads b n R m → (∀ x, reads (b - n) k (S x) (f x)) → (∀ w1 w2 x y, R w1 x → S x w2 y → T (w1 ++ w2) y) →
  reads b (n + k) T (m ≫= f).
Proof.
  intros Hm Hf HT p H1 H2 H3. specialize (Hm p H1 H2 H3). unfold mbind, EM_bind. destruct (m p) as [e|[x p1]]; [done|].
  destruct Hm as (j & -> & Hj1 & Hj2 & HR). specialize (Hf x (set_i j p) (Hpre _ _ H1) Hj2). cbn [pi set_i] in Hf.
  specialize (Hf ltac:(lia)). destruct (f x (set_i j p)) as [e|[y p2]]; [done|]. destruct Hf as (j' & -> & Hk1 & Hk2 & HS).
  cbn [pi set_i] in *. exists j'. split_and!; [done|lia|done|]. rewrite (seg_app _ j) by lia. by eapply HT.
Qed.

Lemma at_any {A} t b n (R : list token → A → Prop) m : reads b n R m → reads_at t b n R m.
Proof. intros Hm p H1 H2 H3. apply Hm; [done| |done]. by eapply lookup_lt_Some. Qed.
Lemma at2_at {A} t u b n (R : list token → A → Prop) m : reads_at t b n R m → reads_at2 t u b n R m.
Proof. intros Hm p H1 H2 H3 H4. by apply Hm. Qed.

Lemma reads_peek {A} b n (R : list token → A → Prop) f : (∀ t, reads_at t b n R (f t)) → reads b n R (peek toks ≫= f).
Proof.
  intros Hf p H1 H2 H3. unfold mbind, EM_bind, peek, tok_at. rewrite Nat.add_0_r. destruct (lookup_lt_is_Some_2 _ _ H2) as [t Ht].
  rewrite Ht. by apply Hf.
Qed.
Lemma at_peek {A} t b n (R : list token → A → Prop) f : reads_at t b n R (f t) → reads_at t b n R (peek toks ≫= f).
Proof. intros Hf p H1 H2 H3. unfold mbind, EM_bind, peek, tok_at. rewrite Nat.add_0_r, H2. by apply Hf. Qed.

Lemma skip_got {A} k n (R : list token → A → Prop) m p :
  Pre p → pi p + k < len → got n (λ w x, R (seg (pi p) (pi p + k) ++ w) x) (set_i (pi p + k) p) (m (set_i (pi p + k) p)) →
  got (k + n) R p ((skip k;; m) p).
Proof.
  intros H1 H2. unfold mbind, EM_bind, skip, em_modify. destruct (m _) as [e|[x p']]; [done|].
  intros (j & -> & Hj1 & Hj2 & HR). cbn [pi set_i] in *. exists j. split_and!; [done|lia|done|]. by rewrite (seg_app _ (pi p + k)) by lia.
Qed.

Lemma at_skip {A} t b n (R : list token → A → Prop) m :
  kind t ≠ tokEOF → reads (b - 1) n (λ w, R (t :: w)) m → reads_at t b (S n) R (skip 1;; m).
Proof.
  intros Hk Hm p H1 H2 H3. pose proof (not_last _ _ H2 Hk). apply (skip_got 1); [done|lia|].
  rewrite (seg_cons _ _ _ H2) by lia. rewrite (Nat.add_1_r (pi p)), seg_nil. apply Hm; cbn [pi set_i]; [by apply Hpre|lia|lia].
Qed.
Lemma at2_skip {A} t u b n (R : list token → A → Prop) m :
  kind u ≠ tokEOF → reads (b - 2) n (λ w, R (t :: u :: w)) m → reads_at2 t u b (2 + n) R (skip 2;; m).
Proof.
  intros Hk Hm p H1 H2 H3 H4. pose proof (not_last _ _ H3 Hk). apply (skip_got 2); [done|lia|].
  rewrite (seg_cons _ _ _ H2), (seg_cons _ _ _ H3) by lia. replace (pi p + 2) with (S (S (pi p))) by lia. rewrite seg_nil.
  apply Hm; cbn [pi set_i]; [by apply Hpre|lia|lia].
Qed.
Lemma at_ahead {A} t b n (R : list token → A → Prop) f :
  kind t ≠ tokEOF → (∀ u, reads_at2 t u b n R (f u)) → reads_at t b n R (tok_at toks 1 ≫= f).
Proof.
  intros Hk Hf p H1 H2 H3. pose proof (not_last _ _ H2 Hk). unfold mbind, EM_bind, tok_at. rewrite Nat.add_1_r.
  destruct (lookup_lt_is_Some_2 toks (S (pi p))) as [u Hu]; [done|]. rewrite Hu. by apply Hf.
Qed.

Lemma matches_kind k v t : matches k v t = true → kind t = k.
Proof. unfold matches. by intros [?%bool_decide_eq_true _]%andb_true_iff. Qed.

Lemma reads_expect {A} k v b n (R : list token → A → Prop) f :
  k ≠ tokEOF → (∀ t, matches k v t = true → reads (b - 1) n (λ w, R (t :: w)) (f t)) → reads b (S n) R (expect toks k v ≫= f).
Proof.
  intros Hk Hf p H1 H2 H3. destruct (lookup_lt_is_Some_2 _ _ H2) as [t Ht].
  assert (expect toks k v p = if matches k v t then inr (t, set_i (pi p + 1) p) else inl (mkError (tpos t) (Expected (if bool_decide (v = "") then tokenKindName k else v) t))) as E.
  { unfold expect, peek, tok_at, mbind, EM_bind. rewrite Nat.add_0_r, Ht. by destruct (matches k v t). }
  unfold mbind, EM_bind. rewrite E. destruct (matches k v t) eqn:Em; [|done]. pose proof (matches_kind _ _ _ Em).
  pose proof (at_skip t b n R (f t) ltac:(congruence) (Hf t Em) p H1 Ht H3) as Hg. exact Hg.
Qed.

Lemma reads_accept {A} k v b n (R : list token → A → Prop) (f : bool → P A) :
  k ≠ tokEOF → (∀ t, matches k v t = true → reads (b - 1) (pred n) (λ w, R (t :: w)) (f true)) → reads b n R (f false) →
  reads b n R (accept toks k v ≫= f).
Proof.
  intros Hk Ht Hf p H1 H2 H3. destruct (lookup_lt_is_Some_2 _ _ H2) as [t Hl].
  assert (accept toks k v p = if matches k v t then inr (true, set_i (pi p + 1) p) else inr (false, p)) as E.
  { unfold accept, peek, tok_at, mbind, EM_bind. rewrite Nat.add_0_r, Hl. by destruct (matches k v t). }
  unfold mbind, EM_bind. rewrite E. destruct (matches k v t) eqn:Em; [|by apply Hf]. pose proof (matches_kind _ _ _ Em).
  pose proof (at_skip t b (pred n) R (f true) ltac:(congruence) (Ht t Em) p H1 Hl H3) as Hg.
  eapply got_weaken; [exact Hg|lia|done].
Qed.

(** Sequence, where the rest is used knowing what was read. *)
Lemma at_then {A B} t b n N (R : list token → A → Prop) (T : list token → B → Prop) (m : P A) (f : A → P B) :
  reads_at t b n R m → (∀ x w, R w x → reads (b - n) (N - n) (λ w', T (w ++ w')) (f x)) → reads_at t b N T (m ≫= f).
Proof.
  intros Hm Hf p H1 H2 H3. specialize (Hm p H1 H2 H3). unfold mbind, EM_bind. destruct (m p) as [e|[x p1]]; [done|].
  destruct Hm as (j & -> & Hj1 & Hj2 & HR). specialize (Hf x _ HR (set_i j p) (Hpre _ _ H1) Hj2). cbn [pi set_i] in Hf.
  specialize (Hf ltac:(lia)). destruct (f x (set_i j p)) as [e|[y p2]]; [done|]. destruct Hf as (j' & -> & Hk1 & Hk2 & HS).
  cbn [pi set_i] in *. exists j'. split_and!; [done|lia|done|]. by rewrite (seg_app _ j) by lia.
Qed.

Lemma reads_then {A B} b n N (R : list token → A → Prop) (T : list token → B → Prop) (m : P A) (f : A → P B) :
  reads b n R m → (∀ x w, R w x → reads (b - n) (N - n) (λ w', T (w ++ w')) (f x)) → reads b N T (m ≫= f).
Proof.
  intros Hm Hf p H1 H2 H3. destruct (lookup_lt_is_Some_2 _ _ H2) as [t Ht]. by apply (at_then t b n N R T m f (at_any _ _ _ _ _ Hm) Hf).
Qed.

Lemma at_accept {A} t k v b N (R : list token → A → Prop) (f : bool → P A) :
  k ≠ tokEOF → matches k v t = true → reads (b - 1) (pred N) (λ w, R (t :: w)) (f true) → reads_at t b N R (accept toks k v ≫= f).
Proof.
  intros Hk Hm Hf p H1 H2 H3. assert (accept toks k v p = inr (true, set_i (pi p + 1) p)) as E.
  { unfold accept, peek, tok_at, mbind, EM_bind. by rewrite Nat.add_0_r, H2, Hm. }
  unfold mbind, EM_bind. rewrite E. pose proof (matches_kind _ _ _ Hm).
  eapply got_weaken; [exact (at_skip t b (pred N) R (f true) ltac:(congruence) Hf p H1 H2 H3)|lia|done].
Qed.

Lemma at_next {A} t b N (R : list token → A → Prop) m :
  kind t ≠ tokEOF → reads (b - 1) (pred N) (λ w, R (t :: w)) m → reads_at t b N R (skip 1;; m).
Proof. intros Hk Hm p H1 H2 H3. eapply got_weaken; [by eapply (at_skip t b (pred N))|lia|done]. Qed.

Lemma reads_all {A} b n (R : list token → A → Prop) m : reads (turns_ toks) n R m → reads b n R m.
Proof. intros Hm p H1 H2 H3. apply Hm; [done..|]. unfold turns_. lia. Qed.

Lemma reads_done {A} b N (R : list token → A → Prop) x : N = 0 → R [] x → reads b N R (mret x).
Proof. intros ->. apply reads_ret. Qed.

Lemma reads_map {A B} b n (R : list token → A → Prop) (T : list token → B → Prop) (m : P A) (g : A → B) :
  reads b n R m → (∀ w x, R w x → T w (g x)) → reads b n T (x ← m; mret (g x)).
Proof.
  intros Hm HT. eapply reads_then; [exact Hm|]. intros x w HR. apply reads_done; [lia|]. rewrite app_nil_r. by apply HT.
Qed.

Lemma is_op_kind v t : is_op v t = true → kind t ≠ tokEOF.
Proof. unfold is_op. intros [Hk%bool_decide_eq_true _]%andb_true_iff. congruence. Qed.
Lemma is_name_kind v t : is_name v t = true → kind t ≠ tokEOF.
Proof. unfold is_name. intros [Hk%bool_decide_eq_true _]%andb_true_iff. congruence. Qed.
Lemma matches_op v t : v ≠ "" → matches tokOp v t = true → is_op v t = true.
Proof.
  unfold matches, is_op. intros Hv [Hk H]%andb_true_iff. apply andb_true_iff. split; [done|].
  apply orb_true_iff in H as [H%bool_decide_eq_true|H]; [done|exact H].
Qed.
Lemma matches_name t : matches tokName "" t = true → kind t = tokName.
Proof. apply matches_kind. Qed.

(** ** Loops *)

Lemma items_go_reads {A} turns close (item : P A) (R : list token → A → Prop) acc :
  close ≠ "" → (∀ b, reads b 1 R item) →
  reads turns 1 (λ w l, ∃ l', l = acc ++ l' ∧ items R close w l') (items_go toks turns close item acc).
Proof.
  intros Hc Hitem. revert acc. induction turns as [|turns IH]; intros acc; [apply reads_none|]. cbn [items_go].
  apply reads_accept; [done| |].
  - intros t Ht%matches_op; [|done]. apply reads_done; [done|]. exists []. rewrite app_nil_r. split; [done|]. by constructor.
  - eapply reads_then; [apply Hitem|]. intros x w HR. cbn [Nat.sub]. apply reads_accept; [done| |].
    + intros t Ht%matches_op; [|done]. eapply reads_weaken; [apply (IH (acc ++ [x]))|lia|simpl; lia|].
      intros w' l (l' & -> & Hl). exists (x :: l'). rewrite <- app_assoc. split; [done|]. by constructor.
    + eapply reads_weaken; [eapply (reads_expect tokOp close _ 0); [done|]|reflexivity|lia|intros ?? H; exact H].
      intros t Ht%matches_op; [|done]. apply reads_done; [done|]. exists [x]. split; [done|]. by constructor.
Qed.
Lemma items_reads {A} b close (item : P A) (R : list token → A → Prop) :
  close ≠ "" → (∀ b, reads b 1 R item) → reads b 1 (items R close) (items_go toks (turns_ toks) close item []).
Proof.
  intros Hc Hi. apply reads_all. eapply reads_weaken; [by apply (items_go_reads (turns_ toks) close item R [])|done..|].
  by intros w l (l' & -> & H).
Qed.

Lemma binary_go_reads r op r' operand turns e w0 :
  binary_rank r = Some (op, r') → (∀ t, op t = true → kind t ≠ tokEOF) → (∀ b, reads b 1 (phrase r') operand) → phrase r w0 e →
  reads turns 0 (λ w, phrase r (w0 ++ w)) (binary_go toks turns op operand e).
Proof.
  intros Hr Hop Hoperand. revert e w0. induction turns as [|turns IH]; intros e w0 He; [apply reads_none|]. cbn [binary_go].
  apply reads_peek. intros t. destruct (op t) eqn:Et.
  - apply at_next; [by apply Hop|]. eapply reads_then; [apply Hoperand|]. intros e2 w2 H2.
    eapply reads_weaken; [apply (IH _ (w0 ++ t :: w2)); by eapply ph_binary|lia|lia|].
    intros w e' H. cbv beta in H. rewrite <- app_assoc in H. exact H.
  - apply at_any, reads_done; [done|]. by rewrite app_nil_r.
Qed.
Lemma binary_reads b r op r' operand :
  binary_rank r = Some (op, r') → (∀ t, op t = true → kind t ≠ tokEOF) → (∀ b, reads b 1 (phrase r') operand) →
  reads b 1 (phrase r) (binary toks op operand).
Proof.
  intros Hr Hop Ho. unfold binary. eapply reads_then; [apply Ho|]. intros e w He. apply reads_all.
  eapply binary_go_reads; [done..|]. by eapply ph_operand_of.
Qed.

(** ** Expressions *)

(** A test of the token behind the next one. *)
Lemma at_guard {A} t (c : bool) (h : token → bool) b n (R : list token → A → Prop) (f : bool → P A) :
  (c = true → kind t ≠ tokEOF) → (∀ u, c = true → h u = true → reads_at2 t u b n R (f true)) → reads_at t b n R (f false) →
  reads_at t b n R ((if c then u ← tok_at toks 1; mret (h u) else mret false) ≫= f).
Proof.
  intros Hc Ht Hf p H1 H2 H3. destruct c; [|by apply Hf]. pose proof (not_last _ _ H2 (Hc eq_refl)).
  unfold mbind, EM_bind, tok_at. rewrite Nat.add_1_r. destruct (lookup_lt_is_Some_2 toks (S (pi p))) as [u Hu]; [done|]. rewrite Hu.
  cbn [mret EM_ret]. destruct (h u) eqn:Eh; [by apply (Ht u)|by apply Hf].
Qed.

Section level.
Context (d : Deeper).
Context (Hcond : ∀ b, reads b 1 (phrase RConditional) (nested toks (dConditional d))).
Context (Hnot : ∀ b, reads b 1 (phrase RNot) (nested toks (dNot d))).
Context (Hunary : ∀ b, reads b 1 (phrase ROperand) (nested toks (dUnary d))).

Lemma parseExpr_reads b : reads b 1 (phrase RConditional) (parseExpr toks d).
Proof. apply Hcond. Qed.

Lemma readPart_reads b : reads b 0 part (readPart toks d).
Proof.
  unfold readPart. apply reads_peek. intros t. destruct (_ || _); apply at_any.
  - apply reads_done; [done|]. constructor.
  - eapply reads_weaken; [apply (reads_map b 1 (phrase RConditional) part)|done|lia|done]; [apply parseExpr_reads|]. by constructor.
Qed.

(** What a subscript behind its bracket makes of [obj], whatever follows. *)
Definition subscripted (obj : Expr) (pos : TPos) (w : list token) (e : Expr) : Prop :=
  ∀ t w' e', is_op "[" t = true → pos = tpos t → trailers e w' e' → trailers obj (t :: w ++ w') e'.

Inductive more_parts : list token → list (option Expr) → Prop :=
| more_none : more_parts [] []
| more_one c w x w' l : is_op ":" c = true → part w x → more_parts w' l → more_parts (c :: w ++ w') (x :: l).

Lemma slice_go_reads turns b pos colons parts :
  turns + colons = 3 → colons ≤ 2 →
  reads b 0 (λ w r, ∃ l, r = (colons + length l, parts ++ l) ∧ colons + length l ≤ 2 ∧ more_parts w l) (slice_go toks d turns pos colons parts).
Proof.
  revert b colons parts. induction turns as [|turns IH]; intros b colons parts Ht Hc; [lia|]. cbn [slice_go]. apply reads_peek. intros t.
  destruct (is_op ":" t) eqn:Et.
  - apply at_next; [by eapply is_op_kind|]. destruct (Nat.ltb_spec 2 (S colons)); [by apply reads_fail|].
    eapply reads_then; [apply readPart_reads|]. intros x w Hx. eapply reads_weaken; [apply (IH _ (S colons) (parts ++ [x])); lia|reflexivity|simpl; lia|].
    intros w' r (l & -> & Hl & Hm). exists (x :: l). rewrite <- app_assoc. simpl. split; [f_equal; lia|]. split; [lia|]. by constructor.
  - apply at_any, reads_done; [done|]. exists []. rewrite app_nil_r, Nat.add_0_r. split; [done|]. split; [lia|constructor].
Qed.

Lemma parseSubscript_reads b obj pos : reads b 1 (subscripted obj pos) (parseSubscript toks d obj pos).
Proof.
  unfold parseSubscript. eapply reads_then; [apply readPart_reads|]. intros p1 w1 H1.
  eapply reads_then; [by apply slice_go_reads; [|lia]|]. intros [colons parts] w2 (l & Heq & Hl & Hm). injection Heq as -> ->.
  apply reads_expect; [done|]. intros u Hu%matches_op; [|done]. cbn [Nat.add] in *.
  destruct l as [|p2 [|p3 [|p4 l]]]; cbn [length] in *; [| | |lia].
  - inversion Hm; subst. cbn [length bool_decide]. rewrite bool_decide_true by done. inversion H1; subst; [by apply reads_fail|].
    apply reads_done; [done|]. intros t w' e' Ht -> Htr. rewrite <- app_assoc. by apply (tr_item True obj t w1 e u w' e').
  - inversion_clear Hm as [|c w x w' l' Hc Hx Hm']. inversion Hm'; subst. rewrite bool_decide_false by done. apply reads_done; [done|].
    intros t wr er Ht -> Htr.
    replace (t :: (w1 ++ (c :: w ++ []) ++ [u]) ++ wr) with (t :: w1 ++ c :: w ++ u :: wr).
    + by apply (tr_slice True obj t w1 p1 c w p2 u wr er).
    + simplify_list_eq. done.
  - inversion_clear Hm as [|c w x w' l' Hc Hx Hm']. inversion_clear Hm' as [|c2 v x2 v' l2 Hc2 Hx2 Hm2]. inversion Hm2; subst.
    rewrite bool_decide_false by done. apply reads_done; [done|]. intros t wr er Ht -> Htr.
    replace (t :: (w1 ++ (c :: w ++ c2 :: v ++ []) ++ [u]) ++ wr) with (t :: w1 ++ c :: w ++ c2 :: v ++ u :: wr).
    + by apply (tr_stride True obj t w1 p1 c w p2 c2 v p3 u wr er).
    + simplify_list_eq. done.
Qed.

Lemma parseArgument_reads b : reads b 1 arg (parseArgument toks d).
Proof.
  unfold parseArgument. apply reads_peek. intros t. destruct (is_op "**" t) eqn:E1.
  { apply at_next; [by eapply is_op_kind|]. eapply reads_weaken; [apply (reads_map _ 1 (phrase RConditional) (λ w, arg (t :: w)))|done|simpl; lia|done]; [apply parseExpr_reads|]. by constructor. }
  destruct (is_op "*" t) eqn:E2.
  { apply at_next; [by eapply is_op_kind|]. eapply reads_weaken; [apply (reads_map _ 1 (phrase RConditional) (λ w, arg (t :: w)))|done|simpl; lia|done]; [apply parseExpr_reads|]. by constructor. }
  unfold keyword_follows. apply at_guard.
  - intros Hk%bool_decide_eq_true. congruence.
  - intros u Hk%bool_decide_eq_true Hu. intros p P1 P2 P3 P4. eapply got_weaken.
    + eapply (at2_skip t u b 1 arg); [by eapply is_op_kind| |done..]. apply (reads_map _ 1 (phrase RConditional)); [apply parseExpr_reads|]. by constructor.
    + lia.
    + done.
  - apply at_any. apply (reads_map _ 1 (phrase RConditional)); [apply parseExpr_reads|]. by constructor.
Qed.

Lemma arguments_reads b : reads b 1 (items arg ")") (items_go toks (turns_ toks) ")" (parseArgument toks d) []).
Proof. apply items_reads; [done|apply parseArgument_reads]. Qed.

Lemma parseFilterChain_reads b obj : reads b 1 (filtered obj) (parseFilterChain toks d obj).
Proof.
  unfold parseFilterChain. apply reads_expect; [done|]. intros t Ht%matches_kind. apply reads_peek. intros u. destruct (is_op "(" u) eqn:Eu.
  - apply at_next; [by eapply is_op_kind|]. eapply reads_then; [apply arguments_reads|]. intros l w Hl. apply reads_done; [done|].
    rewrite app_nil_r. constructor; [done..|by left].
  - apply at_any, reads_done; [done|]. by constructor.
Qed.

Lemma trailers_go_reads turns e : reads turns 0 (trailers e) (trailers_go toks d turns e).
Proof.
  revert e. induction turns as [|turns IH]; intros e; [apply reads_none|]. cbn [trailers_go]. apply reads_peek. intros t.
  assert (∀ b e (T : list token → Expr → Prop), b ≤ turns → (∀ w e', trailers e w e' → T w e') → reads b 0 T (trailers_go toks d turns e)) as IH'.
  { intros b e0 T Hb HT. eapply reads_weaken; [apply IH|done|done|exact HT]. }
  destruct (is_op "." t) eqn:E1.
  { apply at_next; [by eapply is_op_kind|]. apply reads_peek. intros u. destruct (splitNumericAttrs u) as [[x y]|] eqn:Es.
    - assert (kind u ≠ tokEOF) as Hu by (unfold splitNumericAttrs in Es; case_bool_decide; [congruence|done]).
      apply at_next; [done|]. apply IH'; [lia|]. intros w e'. by eapply tr_attrs.
    - destruct (_ || _) eqn:Ek; [|by apply at_any, reads_fail]. assert (kind u = tokName ∨ kind u = tokInt) as Hu.
      { apply orb_true_iff in Ek as [H|H]; apply bool_decide_eq_true in H; auto. }
      apply at_next; [naive_solver congruence|]. apply IH'; [lia|]. intros w e'. by apply tr_attr. }
  destruct (is_op "[" t) eqn:E2.
  { apply at_next; [by eapply is_op_kind|]. eapply reads_then; [apply parseSubscript_reads|]. intros x w Hx. apply IH'; [lia|].
    intros w' e' Htr. by apply Hx. }
  destruct (is_op "(" t) eqn:E3; [|apply at_any, reads_done; [done|constructor]].
  apply at_next; [by eapply is_op_kind|]. unfold parseCallArgs. eapply reads_then.
  { apply (reads_map _ 1 (items arg ")") (λ w e', ∃ l, items arg ")" w l ∧ e' = CallExpr (tpos t) e (positional l) (keywords l) (star_args l) (star_kw l)));
      [apply arguments_reads|by eauto]. }
  intros x w (l & Hl & ->). apply IH'; [lia|]. intros w' e'. by apply tr_call.
Qed.
Lemma parseTrailers_reads b e : reads b 0 (trailers e) (parseTrailers toks d e).
Proof. apply reads_all, trailers_go_reads. Qed.

Lemma filters_go_reads turns e w0 : phrase RUnary w0 e → reads turns 0 (λ w, phrase RUnary (w0 ++ w)) (filters_go toks d turns e).
Proof.
  revert e w0. induction turns as [|turns IH]; intros e w0 He; [apply reads_none|]. cbn [filters_go]. apply reads_peek. intros t.
  destruct (is_op "|" t) eqn:Et; [|apply at_any, reads_done; [done|by rewrite app_nil_r]].
  apply at_next; [by eapply is_op_kind|]. eapply reads_then; [apply parseFilterChain_reads|]. intros f w1 Hf.
  eapply reads_then; [apply parseTrailers_reads|]. intros e' w2 Htr.
  eapply reads_weaken; [apply (IH e' (w0 ++ t :: w1 ++ w2)); by eapply ph_filter|lia|lia|]. intros w x H. by simplify_list_eq.
Qed.
Lemma parseTrailingFilters_reads b e w0 : phrase RUnary w0 e → reads b 0 (λ w, phrase RUnary (w0 ++ w)) (parseTrailingFilters toks d e).
Proof. intros He. by apply reads_all, filters_go_reads. Qed.

Lemma foldr_vals ws s : foldr (λ u s, val u +:+ s) s ws = foldr (λ u s, val u +:+ s) "" ws +:+ s.
Proof. induction ws as [|u ws IH]; [done|]. cbn [foldr]. by rewrite IH, string_app_assoc. Qed.

Lemma strings_go_reads turns s :
  reads turns 0 (λ w r, Forall (λ u, kind u = tokString) w ∧ r = s +:+ foldr (λ u s, val u +:+ s) "" w) (strings_go toks turns s).
Proof.
  revert s. induction turns as [|turns IH]; intros s; [apply reads_none|]. cbn [strings_go]. apply reads_peek. intros t.
  case_bool_decide as Et; [|apply at_any, reads_done; [done|]; by rewrite string_app_nil_r].
  apply at_next; [congruence|]. eapply reads_weaken; [apply (IH (s +:+ val t))|lia|lia|]. intros w r [Hw ->]. split; [by constructor|].
  cbn [foldr]. by rewrite string_app_assoc.
Qed.

(** The items of a tuple, to before the bracket that closes it. *)
Definition tuple_items (w : list token) (l : list Expr) : Prop :=
  ∀ t, is_op ")" t = true → items (phrase RConditional) ")" (w ++ [t]) l.

Lemma tuple_go_at turns u items0 :
  is_op "," u = true →
  reads_at u turns 1 (λ w r, ∃ w' l, w = u :: w' ∧ r = items0 ++ l ∧ tuple_items w' l) (tuple_go toks d turns items0).
Proof.
  revert u items0. induction turns as [|turns IH]; intros u items0 Hu; [apply at_any, reads_none|]. cbn [tuple_go].
  apply at_accept; [done| |]. { unfold is_op, matches in *. apply andb_true_iff in Hu as [-> ->]. by rewrite orb_true_r. }
  apply reads_peek. intros t. destruct (is_op ")" t); apply at_any.
  { apply reads_done; [done|]. exists [], []. rewrite app_nil_r. split_and!; [done..|]. intros t' Ht. by constructor. }
  eapply reads_then; [apply parseExpr_reads|]. intros x w Hx. cbn [pred Nat.sub].
  destruct turns as [|turns]; [apply reads_none|]. intros p H1 H2 H3. destruct (lookup_lt_is_Some_2 _ _ H2) as [v Hv]. destruct (is_op "," v) eqn:Ev.
  - eapply got_weaken; [apply (IH v (items0 ++ [x]) Ev p H1 Hv); lia|lia|]. intros w' r (w2 & l & -> & -> & Hl).
    exists (w ++ v :: w2), (x :: l). rewrite <- app_assoc. split_and!; [done..|]. intros t' Ht. rewrite <- app_assoc. constructor; [done..|]. by apply Hl.
  - assert (tuple_go toks d (S turns) (items0 ++ [x]) p = inr (items0 ++ [x], p)) as ->.
    { cbn [tuple_go]. unfold accept, peek, tok_at, mbind, EM_bind. rewrite Nat.add_0_r, Hv.
      assert (matches tokOp "," v = false) as ->; [|done]. unfold matches, is_op in *.
      change (bool_decide ("," = "")) with false. exact Ev. }
    exists (pi p). rewrite seg_nil, app_nil_r. split_and!; [by destruct p|lia|done|]. exists w, [x]. split_and!; [done..|]. intros t' Ht. by constructor.
Qed.

Lemma parseParen_reads b t : is_op "(" t = true → reads b 1 (λ w, phrase RPrimary (t :: w)) (parseParen toks d (tpos t)).
Proof.
  intros Ht. unfold parseParen. apply reads_accept; [done| |].
  { intros u Hu%matches_op; [|done]. apply reads_done; [done|]. by constructor. }
  eapply reads_then; [apply parseExpr_reads|]. intros e w He. apply reads_peek. intros u. destruct (is_op "," u) eqn:Eu.
  - eapply at_then.
    { intros p H1 H2 H3. apply (tuple_go_at (turns_ toks) u [e] Eu p H1 H2). unfold turns_. lia. }
    intros l w2 (w' & l' & -> & -> & Hl). eapply reads_weaken; [eapply (reads_expect tokOp ")" _ 0); [done|]|reflexivity|simpl; lia|intros ?? H; exact H].
    intros v Hv%matches_op; [|done]. apply reads_done; [done|]. by apply (ph_tuple True t w e u (w' ++ [v]) l'); [| | |apply Hl].
  - apply at_any. eapply reads_weaken; [eapply (reads_expect tokOp ")" _ 0); [done|]|reflexivity|simpl; lia|intros ?? H; exact H].
    intros v Hv%matches_op; [|done]. apply reads_done; [done|]. by apply ph_paren.
Qed.

Lemma parseEntry_reads b : reads b 1 entry (parseEntry toks d).
Proof.
  unfold parseEntry. eapply reads_then; [apply parseExpr_reads|]. intros k w Hk.
  eapply reads_weaken; [eapply (reads_expect tokOp ":" _ 1); [done|]|reflexivity|simpl; lia|intros ?? H; exact H].
  intros t Ht%matches_op; [|done]. apply (reads_map _ 1 (phrase RConditional)); [apply parseExpr_reads|]. intros w2 v Hv. by constructor.
Qed.

Lemma parsePrimary_reads b : reads b 1 (phrase RPrimary) (parsePrimary toks d).
Proof.
  unfold parsePrimary. apply reads_peek. intros t. destruct (kind t) eqn:Ek; try by apply at_any, reads_fail.
  - apply at_next; [congruence|]. cbn [pred]. apply reads_done; [done|]. by constructor.
  - apply at_next; [congruence|]. cbn [pred]. eapply reads_then; [apply reads_all, strings_go_reads|]. intros s w [Hw ->].
    apply reads_done; [done|]. rewrite app_nil_r. by apply ph_strings.
  - apply at_next; [congruence|]. cbn [pred]. apply reads_done; [done|]. constructor. by left.
  - apply at_next; [congruence|]. cbn [pred]. apply reads_done; [done|]. constructor. by right.
  - assert (∀ v, bool_decide (val t = v) = true → is_op v t = true) as Hop by (intros v Hv; unfold is_op; by rewrite Ek, Hv, bool_decide_true).
    destruct (bool_decide (val t = "(")) eqn:E1.
    { apply at_next; [congruence|]. eapply reads_weaken; [apply (parseParen_reads (b - 1) t); by apply Hop|reflexivity|simpl; lia|intros ?? H; exact H]. }
    destruct (bool_decide (val t = "[")) eqn:E2.
    { apply at_next; [congruence|]. eapply reads_then; [apply (items_reads _ "]" _ (phrase RConditional)); [done|apply parseExpr_reads]|].
      intros l w Hl. apply reads_done; [done|]. rewrite app_nil_r. constructor; [by apply Hop|done]. }
    destruct (bool_decide (val t = "{")) eqn:E3; [|by apply at_any, reads_fail].
    apply at_next; [congruence|]. eapply reads_then; [apply (items_reads _ "}" _ entry); [done|apply parseEntry_reads]|].
    intros l w Hl. apply reads_done; [done|]. rewrite app_nil_r. constructor; [by apply Hop|done].
Qed.

Lemma parsePostfix_reads b : reads b 1 (phrase ROperand) (parsePostfix toks d).
Proof.
  unfold parsePostfix. eapply reads_then; [apply parsePrimary_reads|]. intros e w He.
  eapply reads_weaken; [apply parseTrailers_reads|reflexivity|simpl; lia|]. intros w2 e' Htr. by eapply ph_postfix.
Qed.

Lemma signed t w x :
  is_op "-" t || is_op "+" t = true → phrase ROperand w x →
  phrase ROperand (t :: w) (if bool_decide (val t = "-") then UnaryExpr (tpos t) "-" x else x).
Proof.
  intros E Hx. apply orb_true_iff in E as [E|E]; pose proof E as [_ Hv%bool_decide_eq_true]%andb_true_iff; rewrite Hv.
  - rewrite bool_decide_true by done. by apply ph_minus.
  - rewrite bool_decide_false by done. by apply ph_plus.
Qed.

Lemma parseOperand_reads b : reads b 1 (phrase ROperand) (parseUnaryOperand toks d false).
Proof.
  unfold parseUnaryOperand. apply reads_peek. intros t. destruct (_ || _) eqn:E.
  - assert (kind t ≠ tokEOF) as Hk by (apply orb_true_iff in E as [E|E]; by eapply is_op_kind).
    apply at_next; [done|]. eapply reads_then; [apply Hunary|]. intros x w Hx. apply reads_done; [done|]. rewrite app_nil_r.
    by apply signed.
  - apply at_any. eapply reads_then; [apply parsePostfix_reads|]. intros e w He. apply reads_done; [done|]. by rewrite app_nil_r.
Qed.

Lemma parseUnary_reads b : reads b 1 (phrase RUnary) (parseUnary toks d).
Proof.
  unfold parseUnary, parseUnaryOperand. apply reads_peek. intros t. destruct (_ || _) eqn:E.
  - assert (kind t ≠ tokEOF) as Hk by (apply orb_true_iff in E as [E|E]; by eapply is_op_kind).
    apply at_next; [done|]. eapply reads_then; [apply Hunary|]. intros x w Hx.
    exact (parseTrailingFilters_reads _ _ (t :: w) (ph_operand True _ _ (signed _ _ _ E Hx))).
  - apply at_any. eapply reads_then; [apply parsePostfix_reads|]. intros e w He. exact (parseTrailingFilters_reads _ e w (ph_operand True _ _ He)).
Qed.

Lemma parsePower_reads b : reads b 1 (phrase RPower) (parsePower toks d).
Proof. eapply binary_reads; [reflexivity|by intros t ?%is_op_kind|apply parseUnary_reads]. Qed.
Lemma parseMultiplicative_reads b : reads b 1 (phrase RMultiplicative) (parseMultiplicative toks d).
Proof.
  eapply binary_reads; [reflexivity| |apply parsePower_reads]. intros t [Hk%bool_decide_eq_true _]%andb_true_iff. congruence.
Qed.
Lemma parseConcat_reads b : reads b 1 (phrase RConcat) (parseConcat toks d).
Proof. eapply binary_reads; [reflexivity|by intros t ?%is_op_kind|apply parseMultiplicative_reads]. Qed.
Lemma parseAdditive_reads b : reads b 1 (phrase RAdditive) (parseAdditive toks d).
Proof. eapply binary_reads; [reflexivity| |apply parseConcat_reads]. intros t [H|H]%orb_true_iff; by eapply is_op_kind. Qed.

(** The part of a test behind the optional not. *)
Lemma test_of_reads b obj pos negated :
  reads b 1 (λ w e, ∃ x args, test_of w x args ∧ e = TestExpr pos obj x args negated)
    (t ← peek toks;
     if bool_decide (kind t = tokName) then
       skip 1;;
       u ← peek toks;
       if is_op "(" u then skip 1;; args ← items_go toks (turns_ toks) ")" (parseExpr toks d) []; mret (TestExpr pos obj (val t) args negated)
       else if testTakesArgument (val t) && startsExpression u then a ← parseAdditive toks d; mret (TestExpr pos obj (val t) [a] negated)
       else mret (TestExpr pos obj (val t) [] negated)
     else errorf (tpos t) (ExpectedTest t)).
Proof.
  apply reads_peek. intros t. case_bool_decide as Hk; [|by apply at_any, reads_fail]. apply at_next; [congruence|]. apply reads_peek. intros u.
  destruct (is_op "(" u) eqn:E1.
  { apply at_next; [by eapply is_op_kind|]. eapply reads_then; [apply (items_reads _ ")" _ (phrase RConditional)); [done|apply parseExpr_reads]|].
    intros l w Hl. apply reads_done; [done|]. rewrite app_nil_r. exists (val t), l. split; [by constructor|done]. }
  destruct (_ && _) eqn:E2; apply at_any.
  - apply andb_true_iff in E2 as [E2 _]. eapply reads_then; [apply parseAdditive_reads|]. intros e w He. apply reads_done; [done|]. rewrite app_nil_r.
    exists (val t), [e]. split; [by constructor|done].
  - apply reads_done; [done|]. exists (val t), []. split; [by constructor|done].
Qed.

Lemma parseTest_reads b obj pos : reads b 1 (test pos obj) (parseTest toks d obj pos).
Proof.
  unfold parseTest. apply reads_peek. intros t. destruct (is_name "not" t) eqn:E.
  - apply at_next; [by eapply is_name_kind|].
    eapply reads_weaken; [apply (test_of_reads _ obj pos true)|reflexivity|simpl; lia|]. intros w e (x & args & Ht & ->). by apply test_not.
  - intros p H1 H2 H3. eapply got_weaken; [apply (test_of_reads b obj pos false p H1); [by eapply lookup_lt_Some|done]|lia|].
    intros w e (x & args & Ht & ->). by apply test_plain.
Qed.

Lemma compared_true w e : compared true w e → ∃ p first ops rest, e = CompareExpr p first ops rest.
Proof. inversion 1; subst; by eauto. Qed.

Lemma compared_link c w0 e o op w r :
  compared c w0 e → comparator o op → phrase RAdditive w r → compared true (w0 ++ o ++ w) (link c (head_pos o) op e r).
Proof.
  intros Hc Ho Hr. destruct c.
  - destruct (compared_true _ _ Hc) as (p & f & ops & rs & ->). by apply cmp_next.
  - by apply cmp_first.
Qed.

Lemma comparison_go_reads turns c e w0 :
  compared c w0 e → reads turns 0 (λ w e', ∃ c', compared c' (w0 ++ w) e') (comparison_go toks d turns c e).
Proof.
  revert c e w0. induction turns as [|turns IH]; intros c e w0 He; [apply reads_none|]. cbn [comparison_go]. apply reads_peek. intros t.
  assert (∀ b o op, b ≤ S turns → comparator o op →
    reads b 0 (λ w e', ∃ c', compared c' (w0 ++ o ++ w) e') (r ← parseAdditive toks d; comparison_go toks d turns true (link c (head_pos o) op e r))) as Hlink.
  { intros b o op Hb Ho. eapply reads_then; [apply parseAdditive_reads|]. intros r w Hr.
    eapply reads_weaken; [eapply (IH true _ (w0 ++ o ++ w)), compared_link; by eauto|lia|lia|]. intros w' e' [c' H]. exists c'. by simplify_list_eq. }
  destruct (is_comparison t) eqn:E1.
  { apply andb_true_iff in E1 as [Hk%bool_decide_eq_true Hv%bool_decide_eq_true]. apply at_next; [congruence|].
    apply (Hlink _ [t] (val t)); [lia|by constructor]. }
  destruct (is_name "in" t) eqn:E2. { apply at_next; [by eapply is_name_kind|]. apply (Hlink _ [t] "in"); [lia|by constructor]. }
  unfold not_in_follows. apply at_guard; [by apply is_name_kind| |].
  { intros u Ht Hu p H1 H2 H3 H4. eapply got_weaken; [eapply (at2_skip t u _ 0 (λ w e', ∃ c', compared c' (w0 ++ w) e')); [by eapply is_name_kind| |done..]|lia|done].
    apply (Hlink _ [t; u] "not in"); [lia|by constructor]. }
  destruct (is_name "is" t) eqn:E3; [|apply at_any, reads_done; [done|]; exists c; by rewrite app_nil_r].
  apply at_next; [by eapply is_name_kind|]. eapply reads_then; [apply parseTest_reads|]. intros e' w Ht.
  eapply reads_weaken; [apply (IH false e' (w0 ++ t :: w)); by eapply cmp_is|lia|lia|]. intros w' x [c' H]. exists c'. by simplify_list_eq.
Qed.

Lemma parseComparison_reads b : reads b 1 (phrase RNot) (parseComparison toks d).
Proof.
  unfold parseComparison. eapply reads_then; [apply parseAdditive_reads|]. intros e w He. apply reads_all.
  eapply reads_weaken; [apply (comparison_go_reads _ false e w); by constructor|reflexivity|simpl; lia|]. intros w' e' [c Hc]. by eapply ph_comparison.
Qed.

Lemma parseNot_reads b : reads b 1 (phrase RNot) (parseNot toks d).
Proof.
  unfold parseNot. apply reads_peek. intros t. destruct (is_name "not" t) eqn:E; [|apply at_any, parseComparison_reads].
  apply at_next; [by eapply is_name_kind|]. eapply reads_then; [apply Hnot|]. intros x w Hx. apply reads_done; [done|]. rewrite app_nil_r. by constructor.
Qed.
Lemma parseAnd_reads b : reads b 1 (phrase RAnd) (parseAnd toks d).
Proof. eapply binary_reads; [reflexivity|by intros t ?%is_name_kind|apply parseNot_reads]. Qed.
Lemma parseOr_reads b : reads b 1 (phrase ROr) (parseOr toks d).
Proof. eapply binary_reads; [reflexivity|by intros t ?%is_name_kind|apply parseAnd_reads]. Qed.

Lemma parseConditional_reads b : reads b 1 (phrase RConditional) (parseConditional toks d).
Proof.
  unfold parseConditional. eapply reads_then; [apply parseOr_reads|]. intros e w He. apply reads_peek. intros t.
  destruct (is_name "if" t) eqn:Et; [|apply at_any, reads_done; [done|]; rewrite app_nil_r; by constructor].
  apply at_next; [by eapply is_name_kind|]. eapply reads_then; [apply parseOr_reads|]. intros c w2 Hc. apply reads_peek. intros u.
  destruct (is_name "else" u) eqn:Eu.
  - apply at_next; [by eapply is_name_kind|]. eapply reads_then; [apply Hcond|]. intros f w3 Hf. apply reads_done; [done|]. rewrite app_nil_r.
    by apply ph_if_else.
  - apply at_any, reads_done; [done|]. rewrite app_nil_r. by apply ph_if.
Qed.
End level.
End reads.

(** ** Levels of nesting *)

Lemma reads_pre {A} toks (Pre Pre' : parser → Prop) b n (R : list token → A → Prop) m :
  (∀ p, Pre' p → Pre p) → reads toks Pre b n R m → reads toks Pre' b n R m.
Proof. intros H Hm p H1 H2 H3. apply Hm; [by apply H|done..]. Qed.

(** At most [n] levels of expressions are left. *)
Definition levels_left (n : nat) (p : parser) : Prop := (maxExprDepth - exprs p ≤ Z.of_nat n)%Z.
Lemma levels_left_i n j p : levels_left n p → levels_left n (set_i j p).
Proof. done. Qed.

Lemma nested_reads {A} toks n b k (R : list token → A → Prop) m :
  (∀ n', n = S n' → reads toks (levels_left n') b k R m) → reads toks (levels_left n) b k R (nested toks m).
Proof.
  intros Hm p H1 H2 H3. unfold nested, nest, em_get, em_modify, mbind, EM_bind. cbn [mret EM_ret].
  destruct (Z.ltb_spec maxExprDepth (exprs p + 1)) as [Hd|Hd].
  { unfold peek, tok_at. rewrite Nat.add_0_r. destruct (lookup_lt_is_Some_2 _ _ H2) as [t Ht]. cbn [set_exprs pi]. by rewrite Ht. }
  unfold levels_left in H1. destruct n as [|n]; [lia|].
  set (p1 := set_exprs (exprs p + 1) p). specialize (Hm n eq_refl p1). unfold levels_left in Hm. change (exprs p1) with (exprs p + 1)%Z in Hm.
  specialize (Hm ltac:(lia) H2 H3). cbn [mret EM_ret]. unfold mret, EM_ret. destruct (m p1) as [e|[x p']]; [done|].
  destruct Hm as (j & -> & Hj1 & Hj2 & HR). exists j. split_and!; [|done..]. unfold p1. destruct p as [i l bl ex]. unfold set_exprs, set_i. cbn. f_equal. lia.
Qed.

Lemma level_reads toks n :
  stream_ok toks →
  (∀ b, reads toks (levels_left n) b 1 (phrase RConditional) (nested toks (dConditional (level toks n)))) ∧
  (∀ b, reads toks (levels_left n) b 1 (phrase RNot) (nested toks (dNot (level toks n)))) ∧
  (∀ b, reads toks (levels_left n) b 1 (phrase ROperand) (nested toks (dUnary (level toks n)))).
Proof.
  intros Hs. induction n as [|n (I1 & I2 & I3)]; split_and!; intros b; apply nested_reads; intros n'; try done; intros [= <-].
  - by apply parseConditional_reads; try apply levels_left_i.
  - by apply parseNot_reads; try apply levels_left_i.
  - by apply parseOperand_reads; try apply levels_left_i.
Qed.
