(* ===== verification/TemplateParseEnd.v ===== *)
(** * Templates: statements, and a template as a whole

    Parsing a template ends, whatever its text; the tree it builds nests no
    deeper than the source's bounds, and breaks stand inside loops. *)

From S2P Require Import Prelude GoLib TemplateLex TemplateLexSafe TemplateParse TemplateGrammar TemplateParseSafe.

Open Scope nat_scope.

(** ** Well-placed statements *)

(** A statement with at most [n] levels of statements, itself included, in which
    a break or a continue stands in a loop, or where [inside] says so.  A macro
    starts anew. *)
Inductive node_ok : nat → bool → Node → Prop :=
| ok_text n l p s : node_ok n l (TextNode p s)
| ok_output n l p e : node_ok n l (OutputNode p e)
| ok_if n l p conds blocks else_ :
    Forall (Forall (node_ok n l)) blocks → Forall (node_ok n l) else_ → node_ok (S n) l (IfNode p conds blocks else_)
| ok_for n l p targets iter cond body else_ r :
    Forall (node_ok n true) body → Forall (node_ok n l) else_ → node_ok (S n) l (ForNode p targets iter cond body else_ r)
| ok_set n l p targets value body filter ns attr : Forall (node_ok n l) body → node_ok (S n) l (SetNode p targets value body filter ns attr)
| ok_macro n l p name params body : Forall (node_ok n false) body → node_ok (S n) l (MacroNode p name params body)
| ok_call n l p params call body : Forall (node_ok n l) body → node_ok (S n) l (CallNode p params call body)
| ok_include n l p name i w : node_ok (S n) l (IncludeNode p name i w)
| ok_import n l p name a w : node_ok (S n) l (ImportNode p name a w)
| ok_data_import n l p name a f : node_ok (S n) l (DataImportNode p name a f)
| ok_from n l p name names w : node_ok (S n) l (FromImportNode p name names w)
| ok_extends n l p name : node_ok (S n) l (ExtendsNode p name)
| ok_block n l p name body s : Forall (node_ok n l) body → node_ok (S n) l (BlockNode p name body s)
| ok_filter n l p f body : Forall (node_ok n l) body → node_ok (S n) l (FilterNode p f body)
| ok_do n l p e : node_ok (S n) l (DoNode p e)
| ok_break n p : node_ok (S n) true (BreakNode p)
| ok_continue n p : node_ok (S n) true (ContinueNode p)
| ok_with n l p targets values body : Forall (node_ok n l) body → node_ok (S n) l (WithNode p targets values body)
| ok_autoescape n l p body : Forall (node_ok n l) body → node_ok (S n) l (AutoescapeNode p body).

Section statements.
Context (toks : list token) (Hstream : stream_ok toks) (MaxDepth : Z).
#[local] Abbreviation len := (length toks).

(** Where a statement is read: the statements and the loops around it. *)
Definition st (B : Z) (L : nat) (p : parser) : Prop := exprs p = 0%Z ∧ blocks p = B ∧ loops p = L.
Lemma st_i B L j p : st B L p → st B L (set_i j p).
Proof. done. Qed.

(** Rules at a place, with what holds of their result. *)
Definition yields {A} B L (b n : nat) (Q : A → Prop) (m : P A) : Prop := reads toks (st B L) b n (λ _, Q) m.

Lemma st_levels B L p : st B L p → levels_left (Z.to_nat maxExprDepth) p.
Proof. intros (He & _). unfold levels_left. rewrite He. done. Qed.

Lemma top_reads B L b R (m : P Expr) :
  reads toks (levels_left (Z.to_nat maxExprDepth)) b 1 R m → yields B L b 1 (λ _, True) m.
Proof. intros Hm. eapply reads_weaken; [eapply reads_pre; [apply st_levels|exact Hm]|done..]. Qed.

Lemma expr_yields B L b : yields B L b 1 (λ _, True) (expr toks).
Proof. eapply top_reads, parseExpr_reads, level_reads, Hstream. Qed.
Lemma parseOr_yields B L b : yields B L b 1 (λ _, True) (parseOr toks (top toks)).
Proof. destruct (level_reads toks (Z.to_nat maxExprDepth) Hstream) as (H1 & H2 & H3). eapply top_reads, parseOr_reads; [done|done|exact H1|exact H2|exact H3]. Qed.
Lemma filter_yields B L b e : yields B L b 1 (λ _, True) (parseFilterChain toks (top toks) e).
Proof. destruct (level_reads toks (Z.to_nat maxExprDepth) Hstream) as (H1 & H2 & H3). eapply top_reads, parseFilterChain_reads; [done|done|exact H1]. Qed.

(** The rules of [reads], for places. *)
Lemma y_then {A B0} B L b n N (Q : A → Prop) (T : B0 → Prop) (m : P A) (f : A → P B0) :
  yields B L b n Q m → (∀ x, Q x → yields B L (b - n) (N - n) T (f x)) → yields B L b N T (m ≫= f).
Proof. intros Hm Hf. eapply reads_then; [done|exact Hm|]. intros x w Hx. by apply Hf. Qed.
Lemma y_do {A B0} B L b N (Q : A → Prop) (T : B0 → Prop) (m : P A) (f : A → P B0) :
  yields B L b 1 Q m → (∀ x, Q x → yields B L (b - 1) 0 T (f x)) → N ≤ 1 → yields B L b N T (m ≫= f).
Proof. intros Hm Hf HN. eapply y_then; [exact Hm|]. intros x Hx. replace (N - 1) with 0 by lia. by apply Hf. Qed.
Lemma y_expect {B0} B L k v b N (T : B0 → Prop) f :
  k ≠ tokEOF → N ≤ 1 → (∀ t, matches k v t = true → yields B L (b - 1) 0 T (f t)) → yields B L b N T (expect toks k v ≫= f).
Proof. intros Hk HN Hf. eapply reads_weaken; [apply (reads_expect toks Hstream (st B L) (st_i B L) k v b 0); [done|exact Hf]|done|lia|done]. Qed.
Lemma y_accept {B0} B L k v b N (T : B0 → Prop) (f : bool → P B0) :
  k ≠ tokEOF → yields B L (b - 1) (pred N) T (f true) → yields B L b N T (f false) → yields B L b N T (accept toks k v ≫= f).
Proof. intros Hk H1 H2. apply reads_accept; [done|done|done|by intros t _|done]. Qed.
Lemma y_ret {B0} B L b (T : B0 → Prop) x : T x → yields B L b 0 T (mret x).
Proof. intros HT. by apply reads_done. Qed.
Lemma y_weaken {A} B L b b' n n' (Q Q' : A → Prop) m : yields B L b n Q m → b' ≤ b → n' ≤ n → (∀ x, Q x → Q' x) → yields B L b' n' Q' m.
Proof. intros Hm H1 H2 H3. eapply reads_weaken; [exact Hm|done..|]. intros w x. apply H3. Qed.
Lemma y_all {A} B L b n (Q : A → Prop) m : yields B L (turns_ toks) n Q m → yields B L b n Q m.
Proof. apply reads_all. Qed.
(** A token that is skipped if it passes a test. *)
Lemma y_case {B0} B L b N (T : B0 → Prop) (c : token → bool) (m : token → P B0) (m' : token → P B0) :
  (∀ t, c t = true → kind t ≠ tokEOF) → (∀ t, c t = true → yields B L (b - 1) (pred N) T (m t)) → (∀ t, yields B L b N T (m' t)) →
  yields B L b N T (t ← peek toks; if c t then skip 1;; m t else m' t).
Proof.
  intros Hc H1 H2. apply reads_peek. intros t. destruct (c t) eqn:E; [|apply at_any, H2].
  apply at_next; [done|done|by apply Hc|by apply H1].
Qed.

Lemma tag_end_yields B L b : yields B L b 1 (λ _, True) (tag_end toks).
Proof. apply y_expect; [done|done|]. intros t _. by apply y_ret. Qed.
Lemma optional_name_yields B L b v : yields B L b 0 (λ _, True) (optional_name toks v).
Proof. apply y_case; [intros t; apply is_name_kind|intros t _; by apply y_ret|intros t; by apply y_ret]. Qed.
Lemma items_yields {A} B L b close (item : P A) :
  close ≠ "" → (∀ b, yields B L b 1 (λ _, True) item) → yields B L b 1 (λ _, True) (items_go toks (turns_ toks) close item []).
Proof.
  intros Hc Hi. eapply reads_weaken; [apply (items_reads toks Hstream (st B L) (st_i B L) b close item (λ _ _, True)); [done|exact Hi]|done..].
Qed.

(** ** Statements without a body *)

Lemma y_context {B0} B L b N (T : B0 → Prop) (f : option bool → P B0) :
  (∀ c, yields B L (b - 2) (N - 2) T (f (Some c))) → yields B L b N T (f None) → yields B L b N T (parseContextModifier toks ≫= f).
Proof.
  intros Hs Hn p H1 H2 H3. destruct (lookup_lt_is_Some_2 _ _ H2) as [t Ht].
  assert (parseContextModifier toks p = inr (None, p) ∨
    ∃ u c, toks !! S (pi p) = Some u ∧ kind u ≠ tokEOF ∧ parseContextModifier toks p = inr (Some c, set_i (pi p + 2) p)) as [E|(u & c & Hu & Hk & E)].
  { unfold parseContextModifier, peek, tok_at, mbind, EM_bind. rewrite Nat.add_0_r, Ht. destruct (_ || _) eqn:E; [|by left].
    assert (kind t ≠ tokEOF) as Hk by (apply orb_true_iff in E as [E|E]; by eapply is_name_kind).
    pose proof (not_last toks Hstream _ _ Ht Hk) as Hl. rewrite Nat.add_1_r. destruct (lookup_lt_is_Some_2 toks (S (pi p)) Hl) as [u Hu]. rewrite Hu.
    destruct (is_name "context" u) eqn:Eu; [|by left]. right. exists u, (bool_decide (val t = "with")). split_and!; [done|by eapply is_name_kind|done]. }
  - unfold mbind, EM_bind. rewrite E. by apply Hn.
  - unfold mbind, EM_bind. rewrite E. pose proof (not_last toks Hstream _ _ Hu Hk) as Hl2.
    pose proof (Hs c (set_i (pi p + 2) p) (st_i _ _ _ _ H1)) as Hg. cbn [pi set_i] in Hg. specialize (Hg ltac:(lia) ltac:(lia)).
    destruct (f (Some c) _) as [e|[x p']]; [done|]. destruct Hg as (k & -> & Hj1 & Hj2 & HT). exists k. cbn [pi set_i] in *. split_and!; [done|lia|done|done].
Qed.

Lemma names_go_yields B L turns acc : yields B L turns 1 (λ _, True) (names_go toks turns acc).
Proof.
  revert acc. induction turns as [|turns IH]; intros acc; [apply reads_none|]. cbn [names_go]. apply y_expect; [done|done|]. intros t _.
  apply y_accept; [done| |by apply y_ret]. eapply y_weaken; [apply IH|lia|simpl; lia|done].
Qed.
Lemma more_names_yields B L turns acc : yields B L turns 0 (λ _, True) (more_names toks turns acc).
Proof.
  revert acc. induction turns as [|turns IH]; intros acc; [apply reads_none|]. cbn [more_names]. apply y_accept; [done| |by apply y_ret].
  apply y_expect; [done|simpl; lia|]. intros t _. eapply y_weaken; [apply IH|lia|lia|done].
Qed.
Lemma include_go_yields B L turns m c : yields B L turns 0 (λ _, True) (include_go toks turns m c).
Proof.
  revert m c. induction turns as [|turns IH]; intros m c; [apply reads_none|]. cbn [include_go]. apply y_case; [intros t; apply is_name_kind| |].
  - intros t _. apply y_expect; [done|simpl; lia|]. intros u _. eapply y_weaken; [apply IH|lia|lia|done].
  - intros _. apply y_context; [|by apply y_ret]. intros c'. eapply y_weaken; [apply IH|lia|lia|done].
Qed.
Lemma from_go_yields B L turns names : yields B L turns 0 (λ _, True) (from_go toks turns names).
Proof.
  revert names. induction turns as [|turns IH]; intros names; [apply reads_none|]. cbn [from_go]. apply y_context; [intros c; by apply y_ret|].
  apply y_expect; [done|lia|]. intros t _. eapply y_then; [apply optional_name_yields|]. intros renamed _.
  eapply (y_then _ _ _ 0 _ (λ _, True)).
  { destruct renamed; [|by apply y_ret]. apply y_expect; [done|lia|]. intros a _. by apply y_ret. }
  intros im _. apply y_accept; [done| |]; [eapply y_weaken; [apply IH|lia|simpl; lia|done]|]. apply y_context; [intros c|]; by apply y_ret.
Qed.

Section leaf.
Context (B : Z) (L lv : nat) (b : nat) (start : TPos).
#[local] Abbreviation good := (node_ok (S lv) (0 <? L)).

(** The end of a tag, and its node. *)
Lemma y_end N n : good n → N ≤ 1 → yields B L b N good (tag_end toks;; mret n).
Proof. intros Hn HN. eapply y_do; [apply tag_end_yields| |done]. intros _ _. by apply y_ret. Qed.
End leaf.

Section leaves.
Context (B : Z) (L lv : nat) (start : TPos).
#[local] Abbreviation good := (node_ok (S lv) (0 <? L)).

Lemma parseInclude_yields b : yields B L b 1 good (parseInclude toks start).
Proof.
  eapply y_do; [apply expr_yields| |done]. intros e _. eapply y_then; [apply y_all, include_go_yields|]. intros [m c] _. apply y_end; [constructor|lia].
Qed.
Lemma parseImport_yields b : yields B L b 1 good (parseImport toks start).
Proof.
  eapply y_do; [apply expr_yields| |done]. intros e _. apply y_expect; [done|lia|]. intros _ _. apply y_expect; [done|lia|]. intros a _.
  apply y_context; [intros c|]; (apply y_end; [constructor|lia]).
Qed.
Lemma parseDataImport_yields b f : yields B L b 1 good (parseDataImport toks start f).
Proof.
  eapply y_do; [apply expr_yields| |done]. intros e _. apply y_expect; [done|lia|]. intros _ _. apply y_expect; [done|lia|]. intros a _.
  apply y_end; [constructor|lia].
Qed.
Lemma parseFromImport_yields b : yields B L b 1 good (parseFromImport toks start).
Proof.
  eapply y_do; [apply expr_yields| |done]. intros e _. apply y_expect; [done|lia|]. intros _ _.
  eapply y_then; [apply y_all, from_go_yields|]. intros [names c] _. apply y_end; [constructor|lia].
Qed.
Lemma parseExtends_yields b : yields B L b 1 good (parseExtends toks start).
Proof. eapply y_do; [apply expr_yields| |done]. intros e _. apply y_end; [constructor|lia]. Qed.
Lemma parseDo_yields b : yields B L b 1 good (parseDo toks start).
Proof. eapply y_do; [apply expr_yields| |done]. intros e _. apply y_end; [constructor|lia]. Qed.

Lemma parseLoopControl_yields b name : yields B L b 1 good (parseLoopControl toks start name).
Proof.
  intros p H1 H2 H3. unfold parseLoopControl, em_get. unfold mbind at 1, EM_bind at 1. destruct H1 as (H1a & H1b & H1c). rewrite H1c.
  case_bool_decide as HL; [done|]. apply (y_end B L lv b); [|done|done|done|done].
  assert ((0 <? L) = true) as -> by (apply Nat.ltb_lt; lia). case_bool_decide; constructor.
Qed.

Lemma params_yields b : yields B L b 1 (λ _, True) (parseParamList toks).
Proof.
  apply y_expect; [done|lia|]. intros _ _. eapply y_weaken; [apply (items_yields B L _ ")" (parseParam toks)); [done|]|reflexivity|lia|done].
  intros b'. apply y_expect; [done|done|]. intros t _. apply y_accept; [done| |by apply y_ret]. eapply y_then; [apply expr_yields|]. intros e _. by apply y_ret.
Qed.
End leaves.

(** ** Statements with bodies *)

(** The tag a body ended at. *)
Definition ends (tags : list string) (j : nat) (end_ : string) : Prop :=
  if bool_decide (tags = []) then end_ = ""
  else end_ ∈ tags ∧ ∃ t u, toks !! j = Some t ∧ kind t = tokTagStart ∧ toks !! S j = Some u ∧ kind u = tokName.

Definition body_spec (B : Z) (L : nat) (l : bool) (lv b : nat) (tags : list string) (m : P (list Node * string)) : Prop :=
  ∀ p, st B L p → pi p < len → len - pi p ≤ b →
  match m p with
  | inl e => fine e
  | inr ((body, end_), p') => ∃ j, p' = set_i j p ∧ pi p ≤ j ∧ j < len ∧ Forall (node_ok lv l) body ∧ ends tags j end_
  end.

Section bodies.
Context (B : Z) (lv : nat) (pb : list string → P (list Node * string)).
Context (Hpb : ∀ L b tags, tags ≠ [] → body_spec B L (0 <? L) lv b tags (pb tags)).

Lemma y_body_of {A} L l m b N tags (T : A → Prop) (f : list Node * string → P A) :
  tags ≠ [] → body_spec B L l lv b tags m →
  (∀ body end_ t u, Forall (node_ok lv l) body → end_ ∈ tags → kind t = tokTagStart → kind u = tokName →
    reads_at2 toks (st B L) t u b N (λ _, T) (f (body, end_))) →
  yields B L b N T (m ≫= f).
Proof.
  intros Ht Hm Hf p H1 H2 H3. pose proof (Hm p H1 H2 H3) as Hb. unfold mbind, EM_bind. destruct (m p) as [e|[[body end_] p']]; [done|].
  destruct Hb as (j & -> & Hj1 & Hj2 & Hbody & He). unfold ends in He. rewrite bool_decide_false in He by done.
  destruct He as (Hin & t & u & Ht1 & Ht2 & Hu1 & Hu2).
  pose proof (Hf body end_ t u Hbody Hin Ht2 Hu2 (set_i j p) H1 Ht1 Hu1) as Hg. cbn [pi set_i] in Hg. specialize (Hg ltac:(lia)).
  destruct (f (body, end_) _) as [e|[x p']]; [done|]. destruct Hg as (k & -> & Hk1 & Hk2 & HT). exists k. cbn [pi set_i] in *. split_and!; [done|lia|done|done].
Qed.
Lemma y_body {A} L b N tags (T : A → Prop) (f : list Node * string → P A) :
  tags ≠ [] →
  (∀ body end_ t u, Forall (node_ok lv (0 <? L)) body → end_ ∈ tags → kind t = tokTagStart → kind u = tokName →
    reads_at2 toks (st B L) t u b N (λ _, T) (f (body, end_))) →
  yields B L b N T (pb tags ≫= f).
Proof. intros Ht. by apply y_body_of, Hpb. Qed.

(** A body read with another count of loops around it, which is put back. *)
Lemma with_loops_spec L L' b tags (m : P (list Node * string)) (g : parser → parser) :
  tags ≠ [] → (∀ j p, st B L p → g (set_i j (set_loops L' p)) = set_i j p) →
  (∀ p, st B L p → m p = match pb tags (set_loops L' p) with inl e => inl e | inr (r, p') => inr (r, g p') end) →
  body_spec B L (0 <? L') lv b tags m.
Proof.
  intros Ht Hg Hm p H1 H2 H3. rewrite (Hm p H1). assert (st B L' (set_loops L' p)) as Hp by (by destruct H1 as (Ha & Hb & Hc)).
  pose proof (Hpb L' b tags Ht (set_loops L' p) Hp H2 H3) as Hb. destruct (pb tags _) as [e|[[body end_] p']]; [done|].
  destruct Hb as (j & -> & Hj). exists j. by rewrite Hg by done.
Qed.
Lemma loop_body_spec L b tags : tags ≠ [] → body_spec B L true lv b tags (loop_body pb tags).
Proof.
  intros Ht. apply (with_loops_spec L (S L) b tags _ (λ p, set_loops (pred (loops p)) p)); [done| |].
  - intros j p (_ & _ & <-). by destruct p.
  - intros p (_ & _ & <-). unfold loop_body, em_modify, mbind, EM_bind. by destruct (pb tags _) as [|[]].
Qed.
Lemma macro_body_spec L b tags : tags ≠ [] → body_spec B L false lv b tags (macro_body pb tags).
Proof.
  intros Ht. apply (with_loops_spec L 0 b tags _ (set_loops L)); [done| |].
  - intros j p (_ & _ & <-). by destruct p.
  - intros p (_ & _ & <-). unfold macro_body, em_get, em_modify, mbind, EM_bind. by destruct (pb tags _) as [|[]].
Qed.

(** The two tokens an end tag begins with. *)
Lemma end_tokens p t u :
  toks !! pi p = Some t → toks !! S (pi p) = Some u → kind t = tokTagStart → kind u = tokName →
  expect toks tokTagStart "" p = inr (t, set_i (pi p + 1) p) ∧ next toks (set_i (pi p + 1) p) = inr (u, set_i (pi p + 2) p) ∧ pi p + 2 < len.
Proof.
  intros H2 H3 Ht Hu. pose proof (not_last toks Hstream _ _ H3 ltac:(congruence)) as Hl. split_and!; [| |lia].
  - unfold expect, peek, tok_at, mbind, EM_bind. rewrite Nat.add_0_r, H2. unfold matches. by rewrite Ht.
  - unfold next, peek, tok_at, mbind, EM_bind. cbn [pi set_i]. rewrite Nat.add_0_r, Nat.add_1_r, H3.
    unfold skip, em_modify, mret, EM_ret, set_i. cbn [pi]. do 3 f_equal. lia.
Qed.

Lemma at2_close {A} L b N t u (T : A → Prop) (m : P A) :
  kind t = tokTagStart → kind u = tokName → N ≤ 2 → yields B L b 0 T m →
  reads_at2 toks (st B L) t u b N (λ _, T) (expect toks tokTagStart "";; next toks;; m).
Proof.
  intros Ht Hu HN Hm p H1 H2 H3 H4. destruct (end_tokens p t u H2 H3 Ht Hu) as (E1 & E2 & Hl). unfold mbind, EM_bind. rewrite E1, E2.
  pose proof (Hm (set_i (pi p + 2) p) H1 Hl) as Hg. cbn [pi set_i] in Hg. specialize (Hg ltac:(lia)).
  destruct (m _) as [e|[x p']]; [done|]. destruct Hg as (k & -> & Hk1 & Hk2 & HT). exists k. cbn [pi set_i] in *. split_and!; [done|lia|done|done].
Qed.

Lemma at2_end {A} L b N t u (T : A → Prop) (f : unit → P A) :
  kind t = tokTagStart → kind u = tokName → N ≤ 2 → yields B L b 0 T (f tt) → reads_at2 toks (st B L) t u b N (λ _, T) (endTag toks ≫= f).
Proof.
  intros Ht Hu HN Hf. assert (yields B L b 0 T (tag_end toks;; f tt)) as Hm.
  { eapply y_then; [apply tag_end_yields|]. intros ? _. eapply y_weaken; [exact Hf|lia|lia|done]. }
  intros p H1 H2 H3 H4. pose proof (at2_close L b N t u T _ Ht Hu HN Hm p H1 H2 H3 H4) as Hg. unfold endTag, mbind, EM_bind in *.
  destruct (end_tokens p t u H2 H3 Ht Hu) as (E1 & E2 & Hl). rewrite E1, E2 in *. by destruct (tag_end toks _) as [e|[[] p1]].
Qed.

Lemma at2_over {A} L b N t u (T : A → Prop) m :
  kind u = tokName → N ≤ 2 → yields B L (b - 2) 0 T m → reads_at2 toks (st B L) t u b N (λ _, T) (skip 2;; m).
Proof.
  intros Hu HN Hm p H1 H2 H3 H4.
  eapply got_weaken; [eapply (at2_skip toks Hstream (st B L) (st_i B L) t u b 0 (λ _, T)); [congruence|exact Hm|done..]|lia|done].
Qed.

#[local] Abbreviation good L := (node_ok (S lv) (0 <? L)).

Ltac last_body := apply y_body; [done|]; intros ? ? ? ? ? _ ? ?; apply at2_end; [done..|lia|]; apply y_ret; by constructor.

Lemma if_go_yields L turns start conds bodies :
  Forall (Forall (node_ok lv (0 <? L))) bodies → yields B L turns 1 (good L) (if_go toks pb turns start conds bodies).
Proof.
  revert conds bodies. induction turns as [|turns IH]; intros conds bodies Hb; [apply reads_none|]. cbn [if_go].
  eapply y_do; [apply expr_yields| |done]. intros cond _. eapply y_then; [apply tag_end_yields|]. intros _ _.
  apply y_body; [done|]. intros body end_ t u Hbody _ Ht Hu. cbv zeta.
  assert (Forall (Forall (node_ok lv (0 <? L))) (bodies ++ [body])) as Hb' by (apply Forall_app; split; [done|by constructor]).
  case_bool_decide.
  { apply at2_over; [done|lia|]. eapply y_weaken; [by apply IH|lia|lia|done]. }
  case_bool_decide.
  - apply at2_over; [done|lia|]. eapply y_then; [apply tag_end_yields|]. intros _ _. apply y_body; [done|].
    intros else_ end2 t2 u2 Helse _ Ht2 Hu2. apply at2_end; [done..|lia|]. apply y_ret. by constructor.
  - apply at2_end; [done..|lia|]. apply y_ret. by constructor.
Qed.

Lemma parseFor_yields L b start : yields B L b 1 (good L) (parseFor toks pb start).
Proof.
  eapply y_do; [apply y_all, names_go_yields| |done]. intros targets _. apply y_expect; [done|lia|]. intros _ _.
  eapply y_then; [apply parseOr_yields|]. intros iter _. eapply y_then; [apply optional_name_yields|]. intros filtered _.
  eapply (y_then _ _ _ 0 _ (λ _, True)).
  { destruct filtered; [|by apply y_ret]. eapply y_then; [apply parseOr_yields|]. intros e _. by apply y_ret. }
  intros cond _. eapply y_then; [apply optional_name_yields|]. intros recursive _. eapply y_then; [apply tag_end_yields|]. intros _ _.
  eapply y_body_of; [|by apply loop_body_spec|]; [done|]. intros body end_ t u Hbody _ Ht Hu. case_bool_decide.
  - apply at2_over; [done|lia|]. eapply y_then; [apply tag_end_yields|]. intros _ _. last_body.
  - apply at2_end; [done..|lia|]. apply y_ret. by constructor.
Qed.

Lemma parseSet_yields L b start : yields B L b 1 (good L) (parseSet toks pb start).
Proof.
  apply y_expect; [done|done|]. intros first _. apply y_case; [intros t; apply is_op_kind| |].
  - intros _ _. apply y_expect; [done|simpl; lia|]. intros a _. apply y_expect; [done|lia|]. intros _ _. eapply y_then; [apply expr_yields|]. intros v _.
    apply y_end; [by constructor|lia].
  - intros _. eapply y_then; [apply y_all, more_names_yields|]. intros targets _. apply y_accept; [done| |].
    { eapply y_then; [apply expr_yields|]. intros v _. apply y_end; [by constructor|simpl; lia]. }
    apply reads_peek. intros t. eapply (at_then toks (st B L) (st_i B L) t _ 0 _ (λ _ _, True)).
    { destruct (is_op "|" t) eqn:E; [|apply at_any, y_ret; done]. apply at_next; [done|done|by eapply is_op_kind|].
      change (yields B L (b - 1 - 0 - 1) 0 (λ _, True) (f ← parseFilterChain toks (top toks) (LiteralExpr start (LStr "")); mret (Some f))).
      eapply y_then; [apply filter_yields|]. intros f _. by apply y_ret. }
    intros filter _ _. eapply (y_then _ _ _ 1 _ (λ _, True)); [apply tag_end_yields|]. intros _ _. last_body.
Qed.

Lemma parseMacro_yields L b start : yields B L b 1 (good L) (parseMacro toks pb start).
Proof.
  apply y_expect; [done|done|]. intros name _. eapply y_then; [apply params_yields|]. intros params _. eapply y_then; [apply tag_end_yields|]. intros _ _.
  eapply y_body_of; [|by apply macro_body_spec|]; [done|]. intros body end_ t u Hbody _ Ht Hu. apply at2_end; [done..|lia|]. apply y_ret. by constructor.
Qed.

Lemma parseCall_yields L b start : yields B L b 1 (good L) (parseCall toks pb start).
Proof.
  unfold parseCall. apply reads_peek. intros t. apply at_any. change (yields B L b 1 (good L) (params ← (if is_op "(" t then parseParamList toks else mret []);
    call ← expr toks; tag_end toks;; r ← pb ["endcall"]; endTag toks;; mret (CallNode start params call r.1))).
  eapply (y_then _ _ _ 0 _ (λ _, True)).
  { destruct (is_op "(" t); [eapply y_weaken; [apply params_yields|reflexivity|lia|done]|by apply y_ret]. }
  intros params _. eapply y_do; [apply expr_yields| |lia]. intros e _. eapply y_then; [apply tag_end_yields|]. intros _ _. last_body.
Qed.

Lemma parseBlock_yields L b start : yields B L b 1 (good L) (parseBlock toks pb start).
Proof.
  apply y_expect; [done|done|]. intros name _. eapply y_then; [apply optional_name_yields|]. intros scoped _. eapply y_then; [apply tag_end_yields|]. intros _ _.
  apply y_body; [done|]. intros body end_ t u Hbody _ Ht Hu. apply at2_close; [done..|lia|].
  apply reads_peek. intros v. eapply (at_then toks (st B L) (st_i B L) v _ 0 _ (λ _ _, True)).
  { case_bool_decide; [|apply at_any, y_ret; done]. apply at_next; [done|done|congruence|]. case_bool_decide; [by apply y_ret|by apply reads_fail]. }
  intros _ _ _. apply y_end; [by constructor|lia].
Qed.

Lemma filter_go_yields L turns f : yields B L turns 0 (λ _, True) (filter_go toks turns f).
Proof.
  revert f. induction turns as [|turns IH]; intros f; [apply reads_none|]. cbn [filter_go]. apply y_case; [intros t; apply is_op_kind| |intros _; by apply y_ret].
  intros _ _. eapply y_then; [apply filter_yields|]. intros f' _. eapply y_weaken; [apply IH|lia|lia|done].
Qed.
Lemma parseFilter_yields L b start : yields B L b 1 (good L) (parseFilter toks pb start).
Proof.
  eapply y_do; [apply filter_yields| |done]. intros f _. eapply y_then; [apply y_all, filter_go_yields|]. intros f' _. eapply y_then; [apply tag_end_yields|]. intros _ _.
  last_body.
Qed.

Lemma with_go_yields L turns acc : yields B L turns 0 (λ _, True) (with_go toks turns acc).
Proof.
  revert acc. induction turns as [|turns IH]; intros acc; [apply reads_none|]. cbn [with_go]. apply y_case; [intros t Ht%bool_decide_eq_true; congruence| |intros _; by apply y_ret].
  intros t _. apply y_expect; [done|simpl; lia|]. intros _ _. eapply y_then; [apply expr_yields|]. intros v _.
  apply y_accept; [done| |by apply y_ret]. eapply y_weaken; [apply IH|lia|simpl; lia|done].
Qed.
Lemma parseWith_yields L b start : yields B L b 1 (good L) (parseWith toks pb start).
Proof.
  eapply y_then; [apply y_all, with_go_yields|]. intros l _. eapply y_do; [apply tag_end_yields| |lia]. intros _ _. last_body.
Qed.
Lemma parseAutoescape_yields L b start : yields B L b 1 (good L) (parseAutoescape toks pb start).
Proof.
  eapply y_do; [apply expr_yields| |done]. intros _ _. eapply y_then; [apply tag_end_yields|]. intros _ _. last_body.
Qed.

Lemma statement_of_yields L b start name : yields B L b 1 (good L) (statement_of toks pb start name).
Proof.
  unfold statement_of. repeat case_bool_decide; try (by apply reads_fail).
  all: first [ apply y_all, if_go_yields; constructor | apply parseFor_yields | apply parseSet_yields | apply parseMacro_yields | apply parseCall_yields
    | apply parseInclude_yields | apply parseImport_yields | apply parseFromImport_yields | apply parseDataImport_yields | apply parseExtends_yields
    | apply parseBlock_yields | apply parseFilter_yields | apply parseLoopControl_yields | apply parseDo_yields | apply parseWith_yields | apply parseAutoescape_yields ].
Qed.
End bodies.

Definition levels_at (B : Z) : nat := Z.to_nat (MaxDepth - B).

Section body.
Context (B : Z) (pb : list string → P (list Node * string)).
Context (Hpb : (B + 1 ≤ MaxDepth)%Z → ∀ L b tags, tags ≠ [] → body_spec (B + 1) L (0 <? L) (levels_at (B + 1)) b tags (pb tags)).
#[local] Abbreviation lv := (levels_at B).

Lemma parseStatement_at L b t :
  kind t = tokTagStart → reads_at toks (st B L) t b 1 (λ _, node_ok lv (0 <? L)) (parseStatement toks MaxDepth pb).
Proof.
  intros Ht p H1 H2 H3. destruct H1 as (He & HB & HL).
  assert (parseStatement toks MaxDepth pb p =
    (if (MaxDepth <? B + 1)%Z then errorf (tpos t) (StatementsTooDeep MaxDepth)
     else skip 1;; nameTok ← expect toks tokName ""; node ← statement_of toks pb (tpos t) (val nameTok);
       em_modify (λ p, set_blocks (blocks p - 1) p);; mret node) (set_blocks (B + 1) p)) as ->.
  { unfold parseStatement, peek, tok_at, em_get, em_modify. unfold mbind at 1, EM_bind at 1. rewrite Nat.add_0_r, H2.
    unfold mbind at 1 2, EM_bind at 1 2. by rewrite HB. }
  destruct (Z.ltb_spec MaxDepth (B + 1)) as [Hd|Hd]; [done|].
  set (p1 := set_blocks (B + 1) p). assert (st (B + 1) L p1) as Hp1 by (by unfold p1, st; cbn).
  assert (levels_at B = S (levels_at (B + 1))) as Elv by (unfold levels_at; lia).
  assert (reads_at toks (st (B + 1) L) t b 1 (λ _, node_ok lv (0 <? L)) (skip 1;; nameTok ← expect toks tokName ""; statement_of toks pb (tpos t) (val nameTok))) as Hs.
  { apply at_next; [done|done|congruence|]. apply y_expect; [done|simpl; lia|]. intros name _. rewrite Elv.
    eapply y_weaken; [apply statement_of_yields, Hpb; done|reflexivity|lia|done]. }
  specialize (Hs p1 Hp1 H2 H3). unfold mbind, EM_bind in *. destruct (skip 1 p1) as [e|[[] p2]]; [done|]. destruct (expect _ _ _ p2) as [e|[nt p3]]; [done|].
  destruct (statement_of _ _ _ _ p3) as [e|[n p4]]; [done|]. destruct Hs as (j & -> & Hj1 & Hj2 & Hn). exists j. split_and!; [|done..].
  subst p1. clear -HB. destruct p as [i l bl ex]. cbn in HB. subst B. unfold set_i, set_blocks. cbn [pi loops blocks exprs]. f_equal. lia.
Qed.

Lemma atTagNamed_at p t tags :
  toks !! pi p = Some t → kind t ≠ tokEOF →
  (∃ u name, atTagNamed toks tags p = inr (Some name, p) ∧ name ∈ tags ∧ kind t = tokTagStart ∧ toks !! S (pi p) = Some u ∧ kind u = tokName) ∨
  atTagNamed toks tags p = inr (None, p).
Proof.
  intros Ht Hk. unfold atTagNamed, peek, tok_at, mbind, EM_bind. rewrite Nat.add_0_r, Ht. case_bool_decide; [|by right].
  pose proof (not_last toks Hstream _ _ Ht Hk) as Hl. rewrite Nat.add_1_r. destruct (lookup_lt_is_Some_2 toks (S (pi p)) Hl) as [u Hu]. rewrite Hu.
  destruct (_ && _) eqn:E; [|by right]. apply andb_true_iff in E as [E1%bool_decide_eq_true E2%bool_decide_eq_true]. left. by exists u, (val u).
Qed.

Lemma body_go_spec L turns tags body :
  Forall (node_ok lv (0 <? L)) body → body_spec B L (0 <? L) lv turns tags (body_go toks MaxDepth pb turns tags body).
Proof.
  revert body. induction turns as [|turns IH]; intros body Hb p H1 H2 H3; [lia|]. cbn [body_go].
  destruct (lookup_lt_is_Some_2 _ _ H2) as [t Ht]. unfold mbind at 1, EM_bind at 1, peek at 1, tok_at at 1. rewrite Nat.add_0_r, Ht.
  case_bool_decide as Hk.
  { case_bool_decide as Htags; [|done]. exists (pi p). split_and!; [by destruct p|done..|]. unfold ends. by rewrite bool_decide_true. }
  unfold mbind at 1, EM_bind at 1. destruct (atTagNamed_at p t tags Ht Hk) as [(u & name & -> & Hin & Hk' & Hu & Hku)| ->].
  { exists (pi p). split_and!; [by destruct p|done..|]. unfold ends. rewrite bool_decide_false by (by intros ->; apply not_elem_of_nil in Hin). split; [done|]. by exists t, u. }
  assert (∀ m, reads_at toks (st B L) t (S turns) 1 (λ _, node_ok lv (0 <? L)) m →
    match (n ← m; body_go toks MaxDepth pb turns tags (body ++ [n])) p with
    | inl e => fine e
    | inr ((body, end_), p') => ∃ j, p' = set_i j p ∧ pi p ≤ j ∧ j < len ∧ Forall (node_ok lv (0 <? L)) body ∧ ends tags j end_
    end) as Hone.
  { intros m Hm. specialize (Hm p H1 Ht H3). unfold mbind, EM_bind. destruct (m p) as [e|[n p1]]; [done|]. destruct Hm as (j & -> & Hj1 & Hj2 & Hn).
    assert (Forall (node_ok lv (0 <? L)) (body ++ [n])) as Hb' by (apply Forall_app; split; [done|by constructor]).
    pose proof (IH _ Hb' (set_i j p) H1 Hj2) as Hg. cbn [pi set_i] in Hg. specialize (Hg ltac:(lia)).
    destruct (body_go _ _ _ _ _ _ _) as [e|[[body2 end_] p2]]; [done|]. destruct Hg as (k & -> & Hk1 & Hk2 & Hg). exists k. split_and!; [done|cbn in *; lia|done|apply Hg..]. }
  destruct (kind t) eqn:Ek; try done.
  - refine (Hone (skip 1;; mret (TextNode (tpos t) (val t))) _). apply at_next; [done|done|congruence|]. apply y_ret. constructor.
  - assert (reads_at toks (st B L) t (S turns) 1 (λ _, node_ok lv (0 <? L)) (skip 1;; e ← expr toks; expect toks tokVarEnd "";; mret (OutputNode (tpos t) e))) as Hm.
    { apply at_next; [done|done|congruence|]. eapply y_then; [apply expr_yields|]. intros ? _. apply y_expect; [done|simpl; lia|]. intros ? _. apply y_ret. constructor. }
    pose proof (Hone _ Hm) as H. clear Hm Hone. unfold mbind, EM_bind in *. destruct (skip 1 p) as [e|[[] p1]]; [exact H|].
    destruct (expr toks p1) as [er|[e p2]]; [exact H|]. destruct (expect toks tokVarEnd "" p2) as [er|[x p3]]; exact H.
  - apply (Hone (parseStatement toks MaxDepth pb)). by apply parseStatement_at.
Qed.
End body.

Lemma body_level_spec n B L b tags : levels_at B < n → body_spec B L (0 <? L) (levels_at B) b tags (body_level toks MaxDepth n tags).
Proof.
  revert B L b tags. induction n as [|n IH]; intros B L b tags Hn; [lia|]. cbn [body_level].
  assert (body_spec B L (0 <? L) (levels_at B) (turns_ toks) tags (body_go toks MaxDepth (body_level toks MaxDepth n) (turns_ toks) tags [])) as Hg.
  { apply body_go_spec; [|constructor]. intros HB L' b' tags' _. apply IH. unfold levels_at in *. lia. }
  intros p H1 H2 H3. apply Hg; [done..|]. unfold turns_. lia.
Qed.
End statements.

(** ** The height of expressions *)

Fixpoint expr_height (e : Expr) : nat :=
  let opt (o : option Expr) := match o with Some x => expr_height x | None => 0 end in
  let all := foldr (λ x h, Nat.max (expr_height x) h) 0 in
  let kws := foldr (λ (kw : string * Expr) h, Nat.max (expr_height kw.2) h) 0 in
  S match e with
    | LiteralExpr _ _ | NameExpr _ _ => 0
    | AttrExpr _ x _ | UnaryExpr _ _ x => expr_height x
    | ItemExpr _ x y | BinaryExpr _ _ x y => Nat.max (expr_height x) (expr_height y)
    | SliceExpr _ x a b c => Nat.max (expr_height x) (Nat.max (opt a) (Nat.max (opt b) (opt c)))
    | CallExpr _ f args kwargs sa sk => Nat.max (expr_height f) (Nat.max (opt sa) (Nat.max (opt sk) (Nat.max (all args) (kws kwargs))))
    | FilterExpr _ x _ args kwargs => Nat.max (expr_height x) (Nat.max (all args) (kws kwargs))
    | TestExpr _ x _ args _ => Nat.max (expr_height x) (all args)
    | CompareExpr _ x _ rest => Nat.max (expr_height x) (all rest)
    | CondExpr _ c x y => Nat.max (expr_height c) (Nat.max (expr_height x) (opt y))
    | ListExpr _ items | TupleExpr _ items => all items
    | DictExpr _ keys vals => Nat.max (all keys) (all vals)
    end.

Definition tallest (l : list Expr) : nat := foldr (λ x h, Nat.max (expr_height x) h) 0 l.
Lemma tallest_app l k : tallest (l ++ k) = Nat.max (tallest l) (tallest k).
Proof. unfold tallest. induction l as [|x l IH]; [done|]. cbn [app foldr]. rewrite IH. lia. Qed.
Lemma tallest_cons x l : tallest (x :: l) = Nat.max (expr_height x) (tallest l).
Proof. done. Qed.
Lemma tallest_option o : tallest (option_list o) = match o with Some x => expr_height x | None => 0 end.
Proof. destruct o; cbn; lia. Qed.
Lemma tallest_kws l : tallest l.*2 = foldr (λ (kw : string * Expr) h, Nat.max (expr_height kw.2) h) 0 l.
Proof. unfold tallest. induction l as [|kw l IH]; [done|]. cbn. by rewrite IH. Qed.

Lemma height_children e : expr_height e = S (tallest (exprChildren e)).
Proof.
  destruct e; cbn [expr_height exprChildren]; rewrite ?tallest_cons, ?tallest_app, ?tallest_option, ?tallest_kws; f_equal;
    change (tallest []) with 0; unfold tallest; lia.
Qed.

Lemma first_some_None {A B} (f : A → option B) l : first_some f l = None ↔ Forall (λ x, f x = None) l.
Proof.
  induction l as [|x l IH]; simpl; [done|]. destruct (f x) eqn:E; rewrite Forall_cons; [naive_solver|]. rewrite IH. naive_solver.
Qed.
Lemma first_some_Some {A B} (f : A → option B) l y : first_some f l = Some y → ∃ x, x ∈ l ∧ f x = Some y.
Proof.
  induction l as [|x l IH]; simpl; [done|]. destruct (f x) eqn:E; [intros [= ->]; exists x; split; [by left|done]|].
  intros (z & Hz & Hf)%IH. exists z. split; [by right|done].
Qed.

Lemma tallerThan_height n e : tallerThan n e = None ↔ expr_height e ≤ n.
Proof.
  revert e. induction n as [|n IH]; intros e; cbn [tallerThan]; rewrite height_children; [split; [done|lia]|].
  rewrite first_some_None. transitivity (tallest (exprChildren e) ≤ n); [|lia]. induction (exprChildren e) as [|x l IHl].
  - split; [cbn; lia|constructor].
  - rewrite Forall_cons, IH, IHl, tallest_cons. lia.
Qed.

(** An expression somewhere in a statement. *)
Inductive holds : Node → Expr → Prop :=
| holds_here n e : e ∈ (nodeParts n).1 → holds n e
| holds_inside n b x e : b ∈ (nodeParts n).2 → x ∈ b → holds x e → holds n e.

Lemma check_height_None levels limit body :
  check_height levels limit body = None → ∀ x e, x ∈ body → holds x e → expr_height e ≤ Z.to_nat limit.
Proof.
  intros Hc x e Hx Hh. revert levels body Hc Hx. induction Hh as [n e He|n b x e Hb Hx _ IH]; intros levels body Hc Hn.
  all: destruct levels as [|levels]; [done|]; cbn [check_height] in Hc; rewrite first_some_None, Forall_forall in Hc; specialize (Hc n Hn).
  all: destruct (nodeParts n) as [es bs]; destruct (first_some (tallerThan _) es) eqn:E; [done|].
  - rewrite first_some_None, Forall_forall in E. by apply tallerThan_height, E.
  - rewrite first_some_None, Forall_forall in Hc. by eapply IH; [apply Hc|].
Qed.

Lemma node_bodies n l x b : node_ok n l x → b ∈ (nodeParts x).2 → ∃ n' l', n = S n' ∧ Forall (node_ok n' l') b.
Proof.
  inversion 1; subst; cbn; intros Hb; repeat (apply elem_of_cons in Hb as [->|Hb]); try (by apply not_elem_of_nil in Hb); eauto.
  apply elem_of_app in Hb as [Hb|Hb].
  - eexists _, _. split; [done|]. match goal with H : Forall (Forall _) _ |- _ => rewrite Forall_forall in H; by apply H end.
  - apply list_elem_of_singleton in Hb as ->. eauto.
Qed.

Lemma check_height_fine n limit l body e : Forall (node_ok n l) body → check_height (S n) limit body = Some e → fine e.
Proof.
  revert l body e. induction n as [|n IH]; intros l body e Hb; cbn [check_height].
  all: intros (x & Hx & Hs)%first_some_Some; rewrite Forall_forall in Hb; specialize (Hb x Hx).
  all: pose proof (λ b, node_bodies _ _ x b Hb) as Hbs; destruct (nodeParts x) as [es bs]; cbn [snd] in Hbs.
  all: destruct (first_some (tallerThan _) es); [by injection Hs as <-|].
  all: apply first_some_Some in Hs as (b & Hin & Hs); destruct (Hbs b Hin) as (n' & l' & E & Hb').
  - lia.
  - injection E as <-. by eapply IH.
Qed.

(** ** A template *)

Lemma trim_last_kinds l : Forall (λ t, kind t ≠ tokEOF) l → Forall (λ t, kind t ≠ tokEOF) (trim_last l).
Proof.
  intros Hl. destruct Hl as [|t l Ht Hl]; [done|]. cbn [trim_last]. case_bool_decide; [by constructor|]. rewrite bool_decide_false by done. by constructor.
Qed.

Lemma trimTrailingNewline_stream toks : stream_ok toks → stream_ok (trimTrailingNewline toks).
Proof.
  intros (new & last & -> & Hnew & Hlast). unfold trimTrailingNewline. rewrite reverse_app. cbn [reverse]. change (reverse [last] ++ reverse new) with (last :: reverse new).
  cbn [trim_last]. rewrite bool_decide_false by congruence. rewrite bool_decide_true by done. rewrite reverse_cons.
  exists (reverse (trim_last (reverse new))), last. split_and!; [done| |done]. by apply Forall_reverse, trim_last_kinds, Forall_reverse.
Qed.

Lemma parseTemplate_ends toks MaxDepth :
  stream_ok toks →
  match parseTemplate toks MaxDepth with
  | inl e => fine e
  | inr body => Forall (node_ok (Z.to_nat MaxDepth) false) body ∧ ∀ x e, x ∈ body → holds x e → expr_height e ≤ Z.to_nat maxExprDepth
  end.
Proof.
  intros Hs. unfold parseTemplate, parseBody. assert (levels_at MaxDepth 0 = Z.to_nat MaxDepth) as El by (unfold levels_at; f_equal; lia).
  pose proof (body_level_spec toks Hs MaxDepth (S (Z.to_nat MaxDepth)) 0 0 (length toks) [] ltac:(lia) (mkParser 0 0 0 0)) as Hb.
  specialize (Hb ltac:(done)). cbn [pi] in Hb. rewrite El in Hb. destruct Hs as (new & last & -> & _). rewrite length_app in *. cbn [length] in *.
  specialize (Hb ltac:(lia) ltac:(lia)). destruct (body_level _ _ _ _ _) as [e|[[body end_] p']]; [done|].
  destruct Hb as (j & -> & _ & _ & Hbody & He). unfold ends in He. rewrite bool_decide_true in He by done. subst end_. rewrite bool_decide_true by done.
  change (0 <? 0) with false in Hbody. destruct (check_height (S (Z.to_nat MaxDepth)) maxExprDepth body) as [e|] eqn:E.
  - by eapply check_height_fine.
  - split; [done|]. intros x e Hx Hh. by eapply check_height_None.
Qed.

(** C24: parsing a template ends within its bounds.  Whatever the text and the
    options, if the delimiters are not empty, Parse ends without an index out of
    range: with a message of its own, or with a tree whose statements nest no
    deeper than MaxDepth, in which break and continue stand in a loop of the same
    macro, and no expression of which is taller than maxExprDepth. *)
Theorem template_parsing_ends {V} {RT : GoRuntime V} opts src name :
  (∀ o, delim_of (oDelimiters opts) o ≠ "") →
  match Parse opts src name with
  | inl e => fine e
  | inr t =>
      Forall (node_ok (Z.to_nat (oMaxDepth opts)) false) (tBody t) ∧
      ∀ x e, x ∈ tBody t → holds x e → expr_height e ≤ Z.to_nat maxExprDepth
  end.
Proof.
  intros Hopen. unfold Parse. pose proof (start_lexed src name (oDelimiters opts) (mkLexOptions (oTrimBlocks opts) (oLstripBlocks opts)) Hopen) as Hl.
  unfold lex. destruct (run _ _ _ _ _) as [e|[[] l]], (plain_go _ _ _ _ _ _) as [e'|[[] l']]; try done; [by destruct Hl|].
  destruct Hl as (_ & _ & _ & new & last & Et & Hnew & Hlast). assert (stream_ok (toks l)) as Hs.
  { exists new, last. split_and!; [done| |done]. eapply Forall_impl; [exact Hnew|]. by intros t [Hk _]. }
  set (ts := if oKeepTrailingNewline opts then toks l else _).
  assert (stream_ok ts) as Hts by (unfold ts; destruct (oKeepTrailingNewline opts); [done|by apply trimTrailingNewline_stream]).
  pose proof (parseTemplate_ends ts (oMaxDepth opts) Hts) as Hp. by destruct (parseTemplate ts (oMaxDepth opts)).
Qed.

(** C25: what is read as an expression is a phrase of the documented grammar.
    Where the parser of statements reads an expression and gets a tree, the
    tokens it passed are a phrase of the grammar at the head of parse_expr.go that
    stands for this tree, so that operators bind and associate as that grammar
    says: provided every conditional of the tree has its else and no argument
    list among the tokens unpacks an argument.  The parser also takes a
    conditional without an else and drops the arguments a filter unpacks, where
    the documented grammar has neither; [conditional_without_else] and
    [filter_drops_unpacked_arguments]. *)
Theorem expressions_follow_the_grammar toks p e p' :
  stream_ok toks → exprs p = 0%Z → pi p < length toks → expr toks p = inr (e, p') →
  whole e → keeps (seg toks (pi p) (pi p')) = true →
  pi p < pi p' ∧ p' = set_i (pi p') p ∧ phrase False RConditional (seg toks (pi p) (pi p')) e.
Proof.
  intros Hs He Hi Hx Hw Hk. destruct (level_reads toks (Z.to_nat maxExprDepth) Hs) as (H1 & _). unfold expr, parseExpr, top in Hx.
  specialize (H1 (length toks) p). rewrite Hx in H1. unfold levels_left in H1. rewrite He in H1.
  destruct (H1 ltac:(done) Hi ltac:(lia)) as (j & -> & Hj & _ & Hp). cbn [pi set_i] in *. split; [lia|]. split; [done|].
  by apply phrase_strict.
Qed.

#[local] Instance parse_rt : GoRuntime unit :=
  {| Sprint := λ _, ""; TypeString := λ _, ""; time_ParseDuration := λ _, None; ParseFloat := λ _, None; IsPrint := λ _, false |}.
Definition demo_loop : string := "{% for x in xs if x %}{% if x > 1 %}{{ x | join(',') }}{% else %}{% break %}{% endif %}{% endfor %}".

Lemma template_parsing_ends_witness :
  ∃ t, Parse DefaultOptions demo_loop "f" = inr t ∧ length (tBody t) = 1 ∧ Forall (node_ok 100 false) (tBody t).
Proof.
  destruct (Parse DefaultOptions demo_loop "f") as [e|t] eqn:E; [exfalso; vm_compute in E; discriminate E|].
  exists t. split; [reflexivity|]. split; [vm_compute in E; by injection E as <-|].
  pose proof (template_parsing_ends DefaultOptions demo_loop "f" default_openers) as H. rewrite E in H. apply H.
Defined.

Definition at_col (c : Z) : TPos := mkTPos "" 1 c.
(** 1 + 2 * x ** 3 ** 2 *)
Definition demo_sum : list token :=
  [mkToken tokInt "1" (NumInt 1) (at_col 1); mkToken tokOp "+" NoNum (at_col 2); mkToken tokInt "2" (NumInt 2) (at_col 3);
   mkToken tokOp "*" NoNum (at_col 4); mkToken tokName "x" NoNum (at_col 5); mkToken tokOp "**" NoNum (at_col 6);
   mkToken tokInt "3" (NumInt 3) (at_col 7); mkToken tokOp "**" NoNum (at_col 8); mkToken tokInt "2" (NumInt 2) (at_col 9);
   mkToken tokEOF "" NoNum (at_col 10)].
Lemma demo_sum_stream : stream_ok demo_sum.
Proof.
  exists (take 9 demo_sum), (mkToken tokEOF "" NoNum (at_col 10)). split_and!; [done| |done].
  repeat (constructor; [discriminate|]). constructor.
Qed.

Lemma expressions_follow_the_grammar_witness :
  phrase False RConditional (take 9 demo_sum)
    (BinaryExpr (at_col 2) "+" (LiteralExpr (at_col 1) (LInt 1))
       (BinaryExpr (at_col 4) "*" (LiteralExpr (at_col 3) (LInt 2))
          (BinaryExpr (at_col 8) "**" (BinaryExpr (at_col 6) "**" (NameExpr (at_col 5) "x") (LiteralExpr (at_col 7) (LInt 3)))
             (LiteralExpr (at_col 9) (LInt 2))))).
Proof.
  refine (proj2 (proj2 (expressions_follow_the_grammar demo_sum (mkParser 0 0 0 0) _ (mkParser 9 0 0 0) demo_sum_stream eq_refl _ _ _ _))).
  - vm_compute. lia.
  - vm_compute. reflexivity.
  - repeat first [apply Forall_cons; split|apply List.Forall_nil|apply whole_iff; split; [by intros []|cbn [exprChildren]]].
  - vm_compute. reflexivity.
Defined.

(** ** What the parser does that its comments do not say *)

(** A block set reads one filter; a filter block reads a chain. *)
Example set_block_reads_one_filter :
  Parse DefaultOptions "{% set x | upper | trim %}a{% endset %}" "f" =
    inl (mkError (mkTPos "f" 1 18) (Expected "%}" (mkToken tokOp "|" NoNum (mkTPos "f" 1 18)))) ∧
  ∃ t, Parse DefaultOptions "{% filter upper | trim %}a{% endfilter %}" "f" = inr t.
Proof. split; [vm_compute; reflexivity|]. eexists. vm_compute. reflexivity. Qed.

(** Arguments that are unpacked for a filter are read and dropped. *)
Example filter_drops_unpacked_arguments :
  ∃ t, Parse DefaultOptions "{{ x | f(*a, **b) }}" "" = inr t ∧
    tBody t = [OutputNode (mkTPos "" 1 1) (FilterExpr (mkTPos "" 1 8) (NameExpr (mkTPos "" 1 4) "x") "f" [] [])].
Proof. eexists. split; vm_compute; reflexivity. Qed.

(** A conditional may be written without its else, which the grammar of the
    comment requires. *)
Example conditional_without_else :
  ∃ t p c e, Parse DefaultOptions "{{ x if y }}" "" = inr t ∧ tBody t = [OutputNode (mkTPos "" 1 1) (CondExpr p c e None)].
Proof. eexists _, _, _, _. split; vm_compute; reflexivity. Qed.
