(* ===== verification/RelaySpool.v ===== *)
(** * The spool of a relay

    Models src/internal/relay/spool.go: the directory of returns the upstream
    could not take, and what a process keeps of it.  The directory is a map from
    names to what stands there; what the system answers to each listing, stat and
    write is an argument.  fileperm.WriteFile is not atomic: a write that fails
    may leave any first part of the body, and one that is under way may be seen
    by a reader, which [put_open] and [put_close] keep apart. *)

From S2P Require Import Prelude GoLib GoTime.

Open Scope Z_scope.

Definition DefaultSpoolMax : Z := Z.shiftl 512 20.

Inductive dirent := DFile (body : string) | DDir (size : Z).
#[global] Instance dirent_eq_dec : EqDecision dirent.
Proof. solve_decision. Defined.
Abbreviation directory := (gmap string dirent).

Record Spool := mkSpool { sMax : Z; sBytes : Z; sMeasured : bool; sDropped : Z; sSeq : Z }.
Record Entry := mkEntry { eName : string; eBody : string }.

Inductive spool_error := NoSpoolDir | SpoolIO | SpoolFull (bytes : Z).

Definition OpenSpool (made : bool) (dir : string) (max : Z) : spool_error + Spool :=
  if bool_decide (dir = "") then inl NoSpoolDir
  else
    let max := if max <=? 0 then DefaultSpoolMax else max in
    if made then inr (mkSpool max 0 false 0 0) else inl SpoolIO.

Definition size_of (e : dirent) : Z :=
  match e with DFile body => Z.of_nat (String.length body) | DDir size => size end.
Definition total (d : directory) : Z := map_fold (λ _ e t, size_of e + t) 0 d.

(** measure: an entry whose Info fails is passed over. *)
Definition measure (listed : bool) (info : string → bool) (d : directory) (s : Spool) : option Spool :=
  if sMeasured s then Some s
  else if listed then Some (mkSpool (sMax s) (total (filter (λ p, info p.1 = true) d)) true (sDropped s) (sSeq s))
  else None.

(** The verb %0wd: the sign counts. *)
Definition pad_int (w : nat) (z : Z) : string := if z <? 0 then appendInt z (w - 1) else appendInt z w.

Definition UnixNano (t : Z) : Z := wrap64 (t - Date_utc 1970 1 1 0 0 0 0).

Definition spool_name (nanos seq dropped : Z) : string :=
  pad_int 20 nanos +:+ "-" +:+ pad_int 9 seq +:+ "-" +:+ FormatInt dropped +:+ ".json".

(** What a write does: all of it, or an error that leaves the first [n] bytes,
    or nothing new. *)
Inductive write_result := Written | Failing (left : option nat).

Definition left_by (w : write_result) (name body : string) (d : directory) : directory :=
  match w with
  | Written => <[name := DFile body]> d
  | Failing (Some n) => <[name := DFile (stake n body)]> d
  | Failing None => d
  end.

(** Put up to the write: the name it will write under, with the bound judged. *)
Definition put_open (listed : bool) (info : string → bool) (body : string) (now : Z) (d : directory) (s : Spool)
    : (spool_error + string) * Spool :=
  match measure listed info d s with
  | None => (inl SpoolIO, s)
  | Some s =>
      if sMax s <? sBytes s + Z.of_nat (String.length body)
      then (inl (SpoolFull (sBytes s)), mkSpool (sMax s) (sBytes s) (sMeasured s) (sDropped s + 1) (sSeq s))
      else
        let seq := (sSeq s + 1) mod 2 ^ 64 in
        (inr (spool_name (UnixNano now) seq (sDropped s)), mkSpool (sMax s) (sBytes s) (sMeasured s) (sDropped s) seq)
  end.
Definition put_close (w : write_result) (body : string) (s : Spool) : option spool_error * Spool :=
  match w with
  | Written => (None, mkSpool (sMax s) (sBytes s + Z.of_nat (String.length body)) (sMeasured s) (sDropped s) (sSeq s))
  | Failing _ => (Some SpoolIO, s)
  end.
Definition Put (listed : bool) (info : string → bool) (w : write_result) (body : string) (now : Z)
    (d : directory) (s : Spool) : option spool_error * (directory * Spool) :=
  match put_open listed info body now d s with
  | (inl e, s) => (Some e, (d, s))
  | (inr name, s) => let '(e, s) := put_close w body s in (e, (left_by w name body d, s))
  end.

Definition spooled_file (p : string * dirent) : Prop :=
  match p.2 with DFile _ => HasSuffix p.1 ".json" = true | DDir _ => False end.
#[global] Instance spooled_file_dec p : Decision (spooled_file p).
Proof. destruct p as [n []]; unfold spooled_file; cbn; apply _. Defined.

Definition names (listed : bool) (d : directory) : option (list string) :=
  if listed then Some (merge_sort str_le (map_to_list (filter spooled_file d)).*1) else None.

Definition read_file (readable : bool) (name : string) (d : directory) : option string :=
  match d !! name with Some (DFile body) => if readable then Some body else None | _ => None end.

(** [inl] is an error, [inr None] an empty spool. *)
Definition Next (listed readable : bool) (d : directory) : spool_error + option Entry :=
  match names listed d with
  | None => inl SpoolIO
  | Some [] => inr None
  | Some (name :: _) =>
      match read_file readable name d with Some body => inr (Some (mkEntry name body)) | None => inl SpoolIO end
  end.

Definition stat (ok : bool) (name : string) (d : directory) : option Z :=
  if ok then size_of <$> d !! name else None.
(** Remove up to the lock, and behind it. *)
Definition unlink (removable : bool) (name : string) (d : directory) : option directory :=
  if removable && bool_decide (is_Some (d !! name)) then Some (delete name d) else None.
Definition uncount (size : option Z) (s : Spool) : Spool :=
  match size with
  | None => s
  | Some n => mkSpool (sMax s) (Z.max 0 (sBytes s - n)) (sMeasured s) (sDropped s) (sSeq s)
  end.
Definition Remove (statted removable : bool) (e : Entry) (d : directory) (s : Spool) : option spool_error * (directory * Spool) :=
  match unlink removable (eName e) d with
  | None => (Some SpoolIO, (d, s))
  | Some d' => (None, (d', uncount (stat statted (eName e) d) s))
  end.

Definition Count (listed : bool) (d : directory) : nat :=
  match names listed d with Some l => length l | None => O end.
Definition Dropped (s : Spool) : Z := sDropped s.
