(* ===== verification/Relay.v ===== *)
(** * A relay between hubs

    Models src/internal/relay/relay.go.  A relay is a hub for its own nodes and
    a client of the hub above it: it passes the jobs of the upstream down to its
    fleet, its nodes' returns and the events it is told to forward up, and keeps
    in its spool the returns the upstream does not take.  The fleet, the job cache
    and the node cache are those of [HubFleet] and [JobCache].  What the upstream
    answers to a post is an argument.  A return is marshalled by encoding/json,
    which is a pair of parameters.  What is written to logs is left out. *)

From S2P Require Import Prelude GoLib GoTime Value Job JobCache NodeJobs EventBus Json HubFleet RelaySpool.

Open Scope Z_scope.

Abbreviation wire_message := (HubFleet.Message NodeJobs.Message).
Abbreviation wire_fleet := (HubFleet.Fleet NodeJobs.Message).

Definition MsgJob : string := "job".
Definition MsgPing : string := "ping".
Definition down_types : list string := ["event"; "revoke"; "reload"; "quiesce"; "drain"; "kill"].

Record Options := mkOptions { oID : string; oDepth : Z; oEventTags : list string }.

(** The counters of the metrics, by result. *)
Record counters := mkCounters { cSent : nat; cSpooled : nat; cDropped : nat; cDrained : nat; cDiscarded : nat; cEvents : nat }.

Record Relay := mkRelay { reported : gset string; connected : bool; attempts : gmap string nat; counts : counters }.

Definition set_reported (s : gset string) (r : Relay) : Relay := mkRelay s (connected r) (attempts r) (counts r).
Definition set_counts (c : counters) (r : Relay) : Relay := mkRelay (reported r) (connected r) (attempts r) c.
Definition setConnected (v : bool) (r : Relay) : Relay := mkRelay (reported r) v (attempts r) (counts r).

Definition maxSpoolAttempts : nat := 5.

Definition attempt (name : string) (r : Relay) : nat * Relay :=
  let n := S (default O (attempts r !! name)) in
  (n, mkRelay (reported r) (connected r) (<[name := n]> (attempts r)) (counts r)).
Definition forget (name : string) (r : Relay) : Relay :=
  mkRelay (reported r) (connected r) (delete name (attempts r)) (counts r).

Inductive new_error := NoServer | NoUpstream | NoIdentity | RelayTooDeep (depth max : Z) | NoSpool (e : spool_error).

Definition New (server upstream made : bool) (o : Options) (spoolDir : string) (spoolMax : Z) : new_error + Relay * Spool :=
  if negb server then inl NoServer
  else if negb upstream then inl NoUpstream
  else if bool_decide (oID o = "") then inl NoIdentity
  else if MaxRelayDepth <=? oDepth o then inl (RelayTooDeep (oDepth o + 1) MaxRelayDepth)
  else match OpenSpool made spoolDir spoolMax with
  | inl e => inl (NoSpool e)
  | inr s => inr (mkRelay ∅ false ∅ (mkCounters 0 0 0 0 0 0), s)
  end.

(** ** The fleet, as the upstream sees it *)

Section fleet.
Context (o : Options).

(** The order in which Go walks the map is not said; here it is that of
    [elements]. *)
Definition connected_ids (f : wire_fleet) : list string := elements (dom (Connected f)).

Definition subordinate (ok : bool) (nc : NodeCache) (id : string) : Subordinate :=
  match nodes_Get ok id nc with Some d => mkSub id (ndGrains d) (ndVersion d) | None => mkSub id "" "" end.
Definition subordinates (ok : bool) (nc : NodeCache) (f : wire_fleet) (r : Relay) : list Subordinate * Relay :=
  let ids := filter (λ id, id ≠ oID o) (connected_ids f) in
  (subordinate ok nc <$> ids, set_reported (list_to_set ids) r).

Definition fleetChanged (f : wire_fleet) (r : Relay) : bool :=
  let ids := filter (λ id, id ≠ oID o) (connected_ids f) in
  existsb (λ id, negb (bool_decide (id ∈ reported r))) ids || negb (bool_decide (length ids = size (reported r))).

(** One tick of watchFleet: what is sent, if anything.  [None] ends the loop. *)
Definition watch_tick (ok : bool) (nc : NodeCache) (f : wire_fleet) (r : Relay) : option (option (list Subordinate) * Relay) :=
  if negb (connected r) then None
  else if negb (fleetChanged f r) then Some (None, r)
  else let '(subs, r) := subordinates ok nc f r in Some (Some subs, r).

(** A session begins with the request that opens the stream; announce sends the
    same subordinates again before the spool is drained. *)
Definition session_request (ok : bool) (nc : NodeCache) (f : wire_fleet) (r : Relay) : SubscribeRequest * Relay :=
  let '(subs, r) := subordinates ok nc f r in
  (mkSubscribe (oID o) "" "" true (oDepth o) subs, setConnected true r).
Definition announce (ok : bool) (nc : NodeCache) (f : wire_fleet) (r : Relay) : list Subordinate * Relay := subordinates ok nc f r.

Definition names_ (f : wire_fleet) : list string := merge_sort str_le (connected_ids f).

(** ** Jobs on their way down *)

Definition submitter : string := "relay:" +:+ oID o.

Definition Hour_ : Z := 3600 * Second.

Definition forwarded_job (now : Z) (m : NodeJobs.Message) (nodes : list string) : Job :=
  let expires := default (now + Hour_) (Parse_RFC3339Nano (mExpires m)) in
  mkJob (mJID m) (mFun m) (mArg m) (mKwarg m) (mEnv m) (mNonce m) expires now submitter "" "" "" "" "" nodes "" "" false
    (mkBatch 0 0 0 0) [] [] "" "".

Definition record (io : disk) (now : Z) (msg : wire_message) (nodes : list string) (jobs : option store) : option store :=
  match jobs, mPayload msg with
  | Some c, Some m =>
      if negb (bool_decide (mT msg = MsgJob)) || bool_decide (mJID m = "") then Some c
      else Some (JobCache.Put io (forwarded_job now m nodes) c).2
  | _, _ => jobs
  end.

(** The jids the upstream dispatched and this relay passed down. *)
Definition forwarded (io : disk) (jid : string) (jobs : option store) : bool :=
  match jobs with
  | None => false
  | Some c => match Get io jid c with inl _ => false | inr j => bool_decide (Submitter j = submitter) end
  end.

Definition absent_answer (now : Z) (jid fun_ node : string) : Return_ :=
  mkReturn jid node fun_ [] false 1 (Quote_ "this node is not connected to the relay that proxies for it") ""
    (Format_RFC3339Nano now) 0 "" ReturnSchema 0.

(** dispatch: the job is recorded and sent; where the node is gone, the answer
    that is handed to Return. *)
Definition dispatch (pick : bool) (io : disk) (now : Z) (msg : wire_message) (f : wire_fleet) (jobs : option store)
    : option Return_ * (wire_fleet * option store) :=
  if bool_decide (mNode msg = "") then (None, (f, jobs))
  else
    let jobs := record io now msg [mNode msg] jobs in
    let '(delivered, f) := Send pick (mNode msg) msg f in
    let jid := default "" (mJID <$> mPayload msg) in
    let fun_ := default "" (mFun <$> mPayload msg) in
    ((if delivered : bool then None else Some (absent_answer now jid fun_ (mNode msg))), (f, jobs)).

Definition forwardDown (pick : bool) (io : disk) (now : Z) (msg : wire_message) (f : wire_fleet) (jobs : option store)
    : wire_fleet * option store :=
  if bool_decide (mNode msg = "")
  then ((Broadcast pick msg f).2, record io now msg (names_ f) jobs)
  else ((Send pick (mNode msg) msg f).2, record io now msg [mNode msg] jobs).

Definition handle (pick : bool) (io : disk) (now : Z) (msg : wire_message) (f : wire_fleet) (jobs : option store)
    : option Return_ * (wire_fleet * option store) :=
  if bool_decide (mT msg = MsgPing) then (None, (f, jobs))
  else if bool_decide (mT msg = MsgJob) then dispatch pick io now msg f jobs
  else if bool_decide (mT msg ∈ down_types) then (None, forwardDown pick io now msg f jobs)
  else (None, (f, jobs)).

(** ** Events on their way up *)

Definition wants (tag : string) : bool := existsb (λ glob, MatchTag glob tag) (oEventTags o).

(** [sent] is whether the upstream took the event; the result says whether it was
    posted. *)
Definition ForwardEvent (sent : bool) (tag : string) (r : Relay) : bool * Relay :=
  if negb (wants tag) then (false, r)
  else if negb (connected r) then (false, r)
  else
    let c := counts r in
    (true, if sent then set_counts (mkCounters (cSent c) (cSpooled c) (cDropped c) (cDrained c) (cDiscarded c) (S (cEvents c))) r else r).
End fleet.

(** ** Returns on their way up *)

Inductive post_answer := Accepted | RefusedUp | Unreachable.

Definition count_sent (r : Relay) : Relay :=
  let c := counts r in set_counts (mkCounters (S (cSent c)) (cSpooled c) (cDropped c) (cDrained c) (cDiscarded c) (cEvents c)) r.
Definition count_spooled (r : Relay) : Relay :=
  let c := counts r in set_counts (mkCounters (cSent c) (S (cSpooled c)) (cDropped c) (cDrained c) (cDiscarded c) (cEvents c)) r.
Definition count_dropped (r : Relay) : Relay :=
  let c := counts r in set_counts (mkCounters (cSent c) (cSpooled c) (S (cDropped c)) (cDrained c) (cDiscarded c) (cEvents c)) r.
Definition count_drained (r : Relay) : Relay :=
  let c := counts r in set_counts (mkCounters (cSent c) (cSpooled c) (cDropped c) (S (cDrained c)) (cDiscarded c) (cEvents c)) r.
Definition count_discarded (r : Relay) : Relay :=
  let c := counts r in set_counts (mkCounters (cSent c) (cSpooled c) (cDropped c) (cDrained c) (S (cDiscarded c)) (cEvents c)) r.

Section returns.
Context (o : Options) (marshal : Return_ → option string) (unmarshal : string → option Return_).

(** Return, with nothing between its parts; [answer] is what the upstream says
    where it is asked. *)
Definition Return (io : disk) (jobs : option store) (answer : post_answer) (listed : bool) (info : string → bool)
    (w : write_result) (now : Z) (ret : Return_) (d : directory) (s : Spool) (r : Relay) : directory * (Spool * Relay) :=
  if negb (forwarded o io (rJID ret) jobs) then (d, (s, r))
  else match marshal ret with
  | None => (d, (s, r))
  | Some encoded =>
      if connected r && match answer with Accepted => true | _ => false end then (d, (s, count_sent r))
      else match Put listed info w encoded now d s with
      | (Some _, (d, s)) => (d, (s, count_dropped r))
      | (None, (d, s)) => (d, (s, count_spooled r))
      end
  end.

(** Where a drain is: at the top of its loop, in a post, before a Remove, or
    over. *)
Inductive drain_at := AtNext | Sending (e : Entry) (ret : Return_) | Removing (e : Entry) | Stopped.

Definition drain_next (listed readable : bool) (d : directory) : drain_at :=
  match Next listed readable d with
  | inl _ | inr None => Stopped
  | inr (Some e) => match unmarshal (eBody e) with None => Removing e | Some ret => Sending e ret end
  end.
Definition drain_post (answer : post_answer) (e : Entry) (r : Relay) : drain_at * Relay :=
  match answer with
  | RefusedUp =>
      let '(n, r) := attempt (eName e) r in
      if (n <? maxSpoolAttempts)%nat then (Stopped, r) else (Removing e, forget (eName e) (count_discarded r))
  | Unreachable => (Stopped, r)
  | Accepted => (Removing e, forget (eName e) (count_drained r))
  end.

(** What the system and the upstream answer in one turn. *)
Record drain_env := mkDrainEnv { dListed : bool; dReadable : bool; dAnswer : post_answer; dStatted : bool; dRemovable : bool }.

Definition drain_remove (env : drain_env) (e : Entry) (d : directory) (s : Spool) : directory * Spool :=
  (Remove (dStatted env) (dRemovable env) e d s).2.

(** drain, with nothing else touching the spool: what the upstream accepted, in
    order.  [None] is a drain that has not ended within its turns. *)
Fixpoint drain (turns : nat) (env : nat → drain_env) (d : directory) (s : Spool) (r : Relay) (sent : list Return_)
    : option (list Return_ * (directory * (Spool * Relay))) :=
  match turns with
  | O => None
  | S turns =>
      let now := env turns in
      match drain_next (dListed now) (dReadable now) d with
      | Sending e ret =>
          let sent := match dAnswer now with Accepted => sent ++ [ret] | _ => sent end in
          match drain_post (dAnswer now) e r with
          | (Removing e, r) => let '(d, s) := drain_remove now e d s in drain turns env d s r sent
          | (_, r) => Some (sent, (d, (s, r)))
          end
      | Removing e => let '(d, s) := drain_remove now e d s in drain turns env d s r sent
      | _ => Some (sent, (d, (s, r)))
      end
  end.
End returns.
