(* ===== verification/RelayRun.v ===== *)
(** * A relay at work

    Several goroutines of a relay share its spool: each return of a node is
    posted or spooled by one of its own, and each session with the upstream
    starts a drain.  Here their parts, from [Relay] and [RelaySpool], are the
    actions of a machine, so that they interleave as the locks let them: Put
    holds the lock of the spool while it writes, Next, Return and the post of a
    drain hold none, and Remove takes it only to correct the count.  Beside the
    state the machine keeps a history, which nothing reads. *)

From S2P Require Import Prelude GoLib GoTime Value Job JobCache HubFleet RelaySpool Relay.

Open Scope Z_scope.

(** Where a drain is; behind a Remove's unlink the count is still to correct. *)
Inductive drain_pc := At (a : drain_at) | Uncounting (size : option Z).

(** A write under way: the name, the return and its text. *)
Record writer := mkWriter { wName : string; wRet : Return_; wBody : string }.

Record world := mkWorld {
  dir : directory; spool : Spool; relay : Relay;
  posting : list Return_; spooling : list Return_; writing : option writer; drains : gmap nat drain_pc }.

(** [taken] are the returns handed to Return for jobs of the upstream; [direct]
    those it accepted at once, [unencodable] those json.Marshal refused, [lost] those that could be neither posted nor
    spooled, [spooled] those that were, by name; [up] what drains were told is
    accepted, [refusals] how often each name was refused, [torn] the names read
    while they were written; [used] the names written under. *)
Record history := mkHistory {
  taken : list Return_; direct : list Return_; unencodable : list Return_; lost : list Return_; spooled : list (string * Return_);
  up : list Return_; refusals : gmap string nat; torn : gset string; used : gset string }.

Definition set_dir (d : directory) (w : world) : world := mkWorld d (spool w) (relay w) (posting w) (spooling w) (writing w) (drains w).
Definition set_spool (s : Spool) (w : world) : world := mkWorld (dir w) s (relay w) (posting w) (spooling w) (writing w) (drains w).
Definition set_relay (r : Relay) (w : world) : world := mkWorld (dir w) (spool w) r (posting w) (spooling w) (writing w) (drains w).
Definition set_posting (l : list Return_) (w : world) : world := mkWorld (dir w) (spool w) (relay w) l (spooling w) (writing w) (drains w).
Definition set_spooling (l : list Return_) (w : world) : world := mkWorld (dir w) (spool w) (relay w) (posting w) l (writing w) (drains w).
Definition set_writing (x : option writer) (w : world) : world := mkWorld (dir w) (spool w) (relay w) (posting w) (spooling w) x (drains w).
Definition set_drain (i : nat) (p : drain_pc) (w : world) : world := mkWorld (dir w) (spool w) (relay w) (posting w) (spooling w) (writing w) (<[i := p]> (drains w)).

Definition took (r : Return_) (h : history) : history := mkHistory (taken h ++ [r]) (direct h) (unencodable h) (lost h) (spooled h) (up h) (refusals h) (torn h) (used h).
Definition went (r : Return_) (h : history) : history := mkHistory (taken h) (direct h ++ [r]) (unencodable h) (lost h) (spooled h) (up h) (refusals h) (torn h) (used h).
Definition refuse_json (r : Return_) (h : history) : history := mkHistory (taken h) (direct h) (unencodable h ++ [r]) (lost h) (spooled h) (up h) (refusals h) (torn h) (used h).
Definition lose (r : Return_) (h : history) : history := mkHistory (taken h) (direct h) (unencodable h) (lost h ++ [r]) (spooled h) (up h) (refusals h) (torn h) (used h).
Definition keep (name : string) (r : Return_) (h : history) : history := mkHistory (taken h) (direct h) (unencodable h) (lost h) (spooled h ++ [(name, r)]) (up h) (refusals h) (torn h) (used h).
Definition rise (r : Return_) (h : history) : history := mkHistory (taken h) (direct h) (unencodable h) (lost h) (spooled h) (up h ++ [r]) (refusals h) (torn h) (used h).
Definition refuse_up (name : string) (h : history) : history :=
  mkHistory (taken h) (direct h) (unencodable h) (lost h) (spooled h) (up h) (<[name := S (default O (refusals h !! name))]> (refusals h)) (torn h) (used h).
Definition tear (name : string) (h : history) : history := mkHistory (taken h) (direct h) (unencodable h) (lost h) (spooled h) (up h) (refusals h) ({[name]} ∪ torn h) (used h).
Definition use_name (name : string) (h : history) : history := mkHistory (taken h) (direct h) (unencodable h) (lost h) (spooled h) (up h) (refusals h) (torn h) ({[name]} ∪ used h).

Inductive action :=
| Connect (v : bool)
| Hand (io : disk) (jobs : option store) (ret : Return_)
| Posted (k : nat) (answer : post_answer)
| Open_ (k : nat) (listed : bool) (info : string → bool) (now : Z) (created : bool)
| Grow (n : nat)
| Close (w : write_result)
| Drain (i : nat)
| Look (i : nat) (listed readable : bool)
| Answer (i : nat) (answer : post_answer)
| Unlink (i : nat) (statted removable : bool)
| Uncount (i : nat).

Section machine.
(** The names that stood in the directory at the start. *)
Context (old : gset string).
Context (o : Options) (marshal : Return_ → option string) (unmarshal : string → option Return_).

(** The file being written, if it still has its name, holds the first [n] bytes. *)
Definition grow (n : nat) (x : writer) (d : directory) : directory :=
  match d !! wName x with Some _ => <[wName x := DFile (stake n (wBody x))]> d | None => d end.

(** An action where it is enabled.  Two things a run does not do are left out: the
    clock does not go back to a name an earlier run left in the directory, and
    2^64 returns are not spooled. *)
Definition act (a : action) (w : world) (h : history) : option (world * history) :=
  match a with
  | Connect v => Some (set_relay (setConnected v (relay w)) w, h)
  | Hand io jobs ret =>
      if negb (forwarded o io (rJID ret) jobs) then Some (w, h)
      else match marshal ret with
      | None => Some (w, refuse_json ret (took ret h))
      | Some _ =>
          Some (if connected (relay w) then set_posting (posting w ++ [ret]) w else set_spooling (spooling w ++ [ret]) w, took ret h)
      end
  | Posted k answer =>
      ret ← posting w !! k;
      let w := set_posting (delete k (posting w)) w in
      match answer with
      | Accepted => Some (set_relay (count_sent (relay w)) w, went ret h)
      | _ => Some (set_spooling (spooling w ++ [ret]) w, h)
      end
  | Open_ k listed info now created =>
      match writing w with
      | Some _ => None
      | None =>
          ret ← spooling w !! k;
          body ← marshal ret;
          let w := set_spooling (delete k (spooling w)) w in
          match put_open listed info body now (dir w) (spool w) with
          | (inl _, s) => Some (set_relay (count_dropped (relay w)) (set_spool s w), lose ret h)
          | (inr name, s) =>
              if bool_decide (name ∈ old) || (2 ^ 64 <=? sSeq (spool w) + 1) then None
              else if created
              then Some (set_writing (Some (mkWriter name ret body)) (set_dir (<[name := DFile EmptyString]> (dir w)) (set_spool s w)), use_name name h)
              else Some (set_relay (count_dropped (relay w)) (set_spool s w), lose ret h)
          end
      end
  | Grow n => x ← writing w; Some (set_dir (grow n x (dir w)) w, h)
  | Close res =>
      x ← writing w;
      let '(_, s) := put_close res (wBody x) (spool w) in
      let w := set_writing None (set_spool s w) in
      match res with
      | Written =>
          Some (set_relay (count_spooled (relay w)) (set_dir (grow (String.length (wBody x)) x (dir w)) w), keep (wName x) (wRet x) h)
      | Failing _ => Some (set_relay (count_dropped (relay w)) w, lose (wRet x) h)
      end
  | Drain i => match drains w !! i with Some _ => None | None => Some (set_drain i (At AtNext) w, h) end
  | Look i listed readable =>
      match drains w !! i with
      | Some (At AtNext) =>
          let a := drain_next unmarshal listed readable (dir w) in
          Some (set_drain i (At a) w,
                match a, writing w with
                | Removing e, Some x => if bool_decide (eName e = wName x) then tear (eName e) h else h
                | _, _ => h
                end)
      | _ => None
      end
  | Answer i answer =>
      match drains w !! i with
      | Some (At (Sending e ret)) =>
          let '(a, r) := drain_post answer e (relay w) in
          Some (set_drain i (At a) (set_relay r w),
                match answer with Accepted => rise ret h | RefusedUp => refuse_up (eName e) h | Unreachable => h end)
      | _ => None
      end
  | Unlink i statted removable =>
      match drains w !! i with
      | Some (At (Removing e)) =>
          match unlink removable (eName e) (dir w) with
          | None => Some (set_drain i (At AtNext) w, h)
          | Some d => Some (set_drain i (Uncounting (stat statted (eName e) (dir w))) (set_dir d w), h)
          end
      | _ => None
      end
  | Uncount i =>
      match drains w !! i, writing w with
      | Some (Uncounting size), None => Some (set_drain i (At AtNext) (set_spool (uncount size (spool w)) w), h)
      | _, _ => None
      end
  end.

Fixpoint acts (l : list action) (w : world) (h : history) : option (world * history) :=
  match l with
  | [] => Some (w, h)
  | a :: l => '(w, h) ← act a w h; acts l w h
  end.

(** A relay that has just started, over the directory an earlier run left. *)
Definition started (d : directory) (max : Z) : world := mkWorld d (mkSpool max 0 false 0 0) (mkRelay ∅ false ∅ (mkCounters 0 0 0 0 0 0)) [] [] None ∅.
Definition no_history : history := mkHistory [] [] [] [] [] [] ∅ ∅ ∅.
End machine.
