(* ===== verification/RelaySafe.v ===== *)
(** * What a relay keeps

    The names of spooled returns: no two are the same, and their order is that of
    the clock.  The drain: it ends, and sends oldest first.  The machine of
    [RelayRun]: every return a node gave for a job of the upstream is sent,
    waiting, in the spool, delivered from it, or lost in a way that is named.  The
    fleet that is reported, and the record of a job that is passed down. *)

From S2P Require Import Prelude GoLib GoTime Value Job JobCache JobSign NodeJobs Json HubFleet RelaySpool Relay RelayRun.

Open Scope Z_scope.

(** ** Names *)

Lemma pad_int_small w n : 0 ≤ n < 10 ^ Z.of_nat w → pad_int w n = dec w n.
Proof.
  intros Hn. unfold pad_int, appendInt. destruct (Z.ltb_spec n 0); [lia|]. rewrite Z.abs_eq by lia.
  destruct (Z.ltb_spec n (10 ^ Z.of_nat w)); [by rewrite string_nil_app|lia].
Qed.

Lemma pad_int_digits w n : 0 ≤ n → all_digits (pad_int w n) = true ∧ digits_go 0 (pad_int w n) = Some n.
Proof.
  intros Hn. destruct (decide (n < 10 ^ Z.of_nat w)) as [Hw|Hw].
  - rewrite pad_int_small by lia. split; [apply dec_digits|].
    rewrite <- (string_app_nil_r (dec w n)), digits_go_dec, Z.mod_small by lia. done.
  - unfold pad_int, appendInt. destruct (Z.ltb_spec n 0); [lia|]. rewrite Z.abs_eq by lia.
    destruct (Z.ltb_spec n (10 ^ Z.of_nat w)); [lia|]. rewrite string_nil_app.
    split; [by apply FormatInt_digits|]. by apply pretty_digits.
Qed.

Lemma stamp_length n : minInt64 ≤ n ≤ maxInt64 → String.length (pad_int 20 n) = 20%nat.
Proof.
  unfold minInt64, maxInt64. intros Hn. unfold pad_int. destruct (Z.ltb_spec n 0) as [Hneg|Hneg].
  - unfold appendInt. destruct (Z.ltb_spec n 0); [|lia]. change (20 - 1)%nat with 19%nat. change (10 ^ Z.of_nat 19) with 10000000000000000000.
    destruct (Z.ltb_spec (Z.abs n) 10000000000000000000); [|lia]. rewrite slength_app, dec_length. done.
  - change (appendInt n 20) with ((if n <? 0 then "-" else "") +:+ (if Z.abs n <? 10 ^ Z.of_nat 20 then dec 20 (Z.abs n) else FormatInt (Z.abs n))).
    destruct (Z.ltb_spec n 0); [lia|]. change (10 ^ Z.of_nat 20) with 100000000000000000000.
    destruct (Z.ltb_spec (Z.abs n) 100000000000000000000); [|lia]. rewrite slength_app, dec_length. done.
Qed.

Lemma wrap64_range z : minInt64 ≤ wrap64 z ≤ maxInt64.
Proof. unfold wrap64, minInt64, maxInt64. pose proof (Z.mod_pos_bound (z + 2 ^ 63) (2 ^ 64) ltac:(lia)). lia. Qed.

(** Whatever the clock says, the number makes a name its own. *)
Lemma spool_name_inj n q k n' q' k' :
  minInt64 ≤ n ≤ maxInt64 → minInt64 ≤ n' ≤ maxInt64 → 0 ≤ q → 0 ≤ q' →
  spool_name n q k = spool_name n' q' k' → q = q'.
Proof.
  intros Hn Hn' Hq Hq' E. unfold spool_name in E.
  apply app_inj_len in E as [_ E%app_inj_l]; [|by rewrite !stamp_length].
  destruct (pad_int_digits 9 q Hq) as [Hd Hv], (pad_int_digits 9 q' Hq') as [Hd' Hv'].
  apply (digits_until "-") in E as [E _]; [|done..]. rewrite E in Hv. congruence.
Qed.

(** The order of the names is that of the clock, and within one reading that of
    the numbers. *)
Lemma spool_name_order n q k n' q' k' :
  0 ≤ n ≤ maxInt64 → 0 ≤ n' ≤ maxInt64 → 0 ≤ q < 10 ^ 9 → 0 ≤ q' < 10 ^ 9 →
  n < n' ∨ n = n' ∧ q < q' → str_lt (spool_name n q k) (spool_name n' q' k').
Proof.
  unfold maxInt64. intros Hn Hn' Hq Hq' H. unfold str_lt, spool_name.
  assert (2 ^ 63 - 1 < 10 ^ Z.of_nat 20) as Hb by (change (10 ^ Z.of_nat 20) with 100000000000000000000; lia).
  change (10 ^ 9) with (10 ^ Z.of_nat 9) in *.
  rewrite (pad_int_small 20 n), (pad_int_small 20 n'), (pad_int_small 9 q), (pad_int_small 9 q') by lia.
  assert (∀ x y, String.compare ("-" +:+ x) ("-" +:+ y) = String.compare x y) as Hdash by done.
  rewrite dec_compare, Hdash, dec_compare by lia. rewrite !then_compare_Lt, Z.compare_eq_iff, !Z.compare_lt_iff. naive_solver.
Qed.

(** ** The directory *)

Lemma names_sorted d : Sorted str_le (merge_sort str_le (map_to_list (filter spooled_file d)).*1).
Proof. apply (Sorted_merge_sort str_le). Qed.

Lemma names_elem d l name : names true d = Some l → name ∈ l ↔ ∃ body, d !! name = Some (DFile body) ∧ HasSuffix name ".json" = true.
Proof.
  unfold names. intros [= <-]. rewrite merge_sort_Permutation, list_elem_of_fmap. split.
  - intros ([n e] & -> & He%elem_of_map_to_list%map_lookup_filter_Some). destruct He as [He Hf].
    unfold spooled_file in Hf. cbn in *. destruct e as [body|]; [by exists body|done].
  - intros (body & Hd & Hs). exists (name, DFile body). split; [done|]. apply elem_of_map_to_list, map_lookup_filter_Some. by split.
Qed.

Lemma names_nodup d l : names true d = Some l → NoDup l.
Proof. unfold names. intros [= <-]. rewrite merge_sort_Permutation. apply NoDup_fst_map_to_list. Qed.

Lemma Next_reads listed readable d e : Next listed readable d = inr (Some e) → d !! eName e = Some (DFile (eBody e)).
Proof.
  unfold Next, names, read_file. intros H. destruct listed; [|done]. destruct (merge_sort _ _) as [|n l]; [done|].
  destruct (d !! n) as [[body|]|] eqn:Ed; try done. destruct readable; [|done]. by injection H as <-.
Qed.

Lemma names_delete d n l : names true d = Some (n :: l) → names true (delete n d) = Some l.
Proof.
  intros H. pose proof (names_nodup _ _ H) as Hnd. pose proof (names_elem _ _ n H) as Hin.
  destruct (names true (delete n d)) as [l'|] eqn:E; [|done]. f_equal. apply (Sorted_unique str_le).
  - pose proof (names_sorted (delete n d)) as Hs. unfold names in E. by injection E as <-.
  - pose proof (names_sorted d) as Hs. unfold names in H. injection H as H. rewrite H in Hs. by inversion Hs.
  - apply NoDup_Permutation; [by eapply names_nodup|by inversion Hnd|]. intros x. rewrite (names_elem _ _ x E).
    setoid_rewrite lookup_delete_Some. pose proof (names_elem _ _ x H) as Hx. rewrite elem_of_cons in Hx.
    apply NoDup_cons in Hnd as [Hn _]. split.
    + intros (body & [Hne Hd] & Hs). assert (x = n ∨ x ∈ l) as [->|]; [apply Hx; by exists body|done|done].
    + intros Hl. destruct (proj1 Hx (or_intror Hl)) as (body & Hd & Hs). exists body. split_and!; [|done|done]. by intros ->.
Qed.

Lemma Next_first d n l : names true d = Some (n :: l) → ∃ body, d !! n = Some (DFile body) ∧ Next true true d = inr (Some (mkEntry n body)).
Proof.
  intros H. destruct (proj1 (names_elem _ _ n H) ltac:(set_solver)) as (body & Hd & _). exists body. split; [done|].
  unfold Next. rewrite H. unfold read_file. by rewrite Hd.
Qed.

(** ** The drain *)

Section drain.
Context (unmarshal : string → option Return_).

(** The return in a file of the spool. *)
Definition return_in (d : directory) (name : string) : option Return_ :=
  match d !! name with Some (DFile body) => unmarshal body | _ => None end.

Definition working (env : nat → drain_env) : Prop := ∀ k, dListed (env k) = true ∧ dReadable (env k) = true ∧ dRemovable (env k) = true.

Lemma return_in_delete d n name : name ≠ n → return_in (delete n d) name = return_in d name.
Proof. intros. unfold return_in. by rewrite lookup_delete_ne. Qed.

(** What a drain has done when it ends. *)
Record drained (d : directory) (r : Relay) (l : list string) (sent : list Return_) (d' : directory) (gone kept : list string) : Prop := {
  drained_split : l = gone ++ kept;
  drained_rest : names true d' = Some kept;
  drained_kept : ∀ n, n ∉ gone → d' !! n = d !! n;
  drained_order : sent `sublist_of` omap (return_in d) gone;
  drained_why : ∀ n, n ∈ gone → match return_in d n with None => True | Some ret => ret ∈ sent ∨ (maxSpoolAttempts ≤ S (default O (attempts r !! n)))%nat end }.

Lemma drained_none d r l : names true d = Some l → drained d r l [] d [] l.
Proof. intros H. split; [done|done|done|constructor|]. intros n Hn. by apply elem_of_nil in Hn. Qed.

(** The entry at the head has gone; [x] is what the upstream took of it. *)
Lemma drained_cons d r r' n l x sent d' gone kept :
  n ∉ l → (∀ m, m ≠ n → attempts r' !! m = attempts r !! m) →
  x = [] ∨ (∃ ret, return_in d n = Some ret ∧ x = [ret]) →
  match return_in d n with None => True | Some ret => ret ∈ x ∨ (maxSpoolAttempts ≤ S (default O (attempts r !! n)))%nat end →
  drained (delete n d) r' l sent d' gone kept → drained d r (n :: l) (x ++ sent) d' (n :: gone) kept.
Proof.
  intros Hn Hr Hx Hwhy [H1 H2 H3 H4 H5]. assert (n ∉ gone) as Hg by set_solver.
  assert (omap (return_in (delete n d)) gone = omap (return_in d) gone) as Eo.
  { clear -Hg. induction gone as [|g gone IH]; [done|]. cbn. rewrite return_in_delete by set_solver. rewrite IH by set_solver. done. }
  split; [by rewrite H1|done| | |].
  - intros m Hm. rewrite H3 by set_solver. by rewrite lookup_delete_ne by set_solver.
  - rewrite Eo in H4. cbn. destruct Hx as [->|(ret & -> & ->)]; [|by apply sublist_skip].
    destruct (return_in d n); [by apply sublist_cons|done].
  - intros m [->|Hm]%elem_of_cons.
    + destruct (return_in d n); [|done]. set_solver.
    + assert (m ≠ n) as Hne by set_solver. specialize (H5 m Hm). rewrite return_in_delete, Hr in H5 by done.
      destruct (return_in d m); [|done]. set_solver.
Qed.

Lemma drain_sends env :
  working env →
  ∀ turns l d s r sent0, names true d = Some l → (length l < turns)%nat →
  ∃ sent d' s' r' gone kept,
    drain unmarshal turns env d s r sent0 = Some (sent0 ++ sent, (d', (s', r'))) ∧ drained d r l sent d' gone kept ∧
    ((∀ k, dAnswer (env k) = Accepted) → kept = []).
Proof.
  intros Henv turns. induction turns as [|turns IH]; intros l d s r sent0 Hl Ht; [lia|].
  destruct (Henv turns) as (E1 & E2 & E3). cbn [drain]. rewrite E1, E2. unfold drain_next. destruct l as [|n l].
  { unfold Next. rewrite Hl. exists [], d, s, r, [], []. rewrite app_nil_r. split_and!; [done|by apply drained_none|done]. }
  destruct (Next_first _ _ _ Hl) as (body & Hd & ->). cbn [eBody eName].
  assert (return_in d n = unmarshal body) as Hret by (unfold return_in; by rewrite Hd).
  pose proof (names_nodup _ _ Hl) as [Hnl _]%NoDup_cons. cbn in Ht.
  assert (∀ x r', (∀ m, m ≠ n → attempts r' !! m = attempts r !! m) → x = [] ∨ (∃ ret, return_in d n = Some ret ∧ x = [ret]) →
    match return_in d n with None => True | Some ret => ret ∈ x ∨ (maxSpoolAttempts ≤ S (default O (attempts r !! n)))%nat end →
    ∃ sent d' s' r'' gone kept,
      (let '(d, s) := drain_remove (env turns) (mkEntry n body) d s in drain unmarshal turns env d s r' (sent0 ++ x)) =
        Some (sent0 ++ sent, (d', (s', r''))) ∧ drained d r (n :: l) sent d' gone kept ∧ ((∀ k, dAnswer (env k) = Accepted) → kept = [])) as Hgo.
  { intros x r' Hr Hx Hwhy. unfold drain_remove, Remove, unlink. cbn [eName]. rewrite E3, Hd, bool_decide_true by done. cbn [andb snd].
    destruct (IH l (delete n d) (uncount (stat (dStatted (env turns)) n d) s) r' (sent0 ++ x) (names_delete _ _ _ Hl) ltac:(lia))
      as (sent & d' & s' & r'' & gone & kept & E & Hdr & Hk).
    exists (x ++ sent), d', s', r'', (n :: gone), kept. rewrite app_assoc. split_and!; [done| |done]. by eapply drained_cons. }
  pose proof (λ r' H H', Hgo [] r' H (or_introl eq_refl) H') as Hskip. rewrite Hret in Hskip.
  destruct (unmarshal body) as [ret|]; cbn [drain_post].
  2: { rewrite app_nil_r in Hskip. by apply Hskip. }
  destruct (dAnswer (env turns)) eqn:Ea.
  - apply Hgo; [intros m Hm; cbn; by rewrite lookup_delete_ne|right; by exists ret|rewrite Hret; left; set_solver].
  - unfold drain_post. destruct (attempt _ _) as [k r'] eqn:Eat. unfold attempt in Eat. injection Eat as <- <-. cbn [eName].
    destruct (Nat.ltb_spec (S (default O (attempts r !! n))) maxSpoolAttempts) as [Hlt|Hge].
    + exists [], d, s. do 3 eexists. rewrite app_nil_r. split_and!; [done|by apply drained_none|]. intros Hall. by rewrite Hall in Ea.
    + rewrite app_nil_r in Hskip. apply Hskip; [|right; lia]. intros m Hm. cbn. by rewrite lookup_delete_ne, lookup_insert_ne.
  - exists [], d, s. do 3 eexists. rewrite app_nil_r. split_and!; [done|by apply drained_none|]. intros Hall. by rewrite Hall in Ea.
Qed.
End drain.

(** C27: a drain ends, and delivers oldest first.  When the directory can be listed,
    read and changed, a drain ends after at most one turn more than there are
    entries.  It has removed the first of them, in the order of their names, and
    left the others as they were; what the upstream accepted is a selection of
    the removed ones in this order, and each return among them was accepted or
    refused for the fifth time; and if the upstream accepts all, all are gone. *)
Theorem drain_delivers_in_order unmarshal env turns d s r l :
  working env → names true d = Some l → (length l < turns)%nat →
  ∃ sent d' s' r' gone kept,
    drain unmarshal turns env d s r [] = Some (sent, (d', (s', r'))) ∧
    l = gone ++ kept ∧ names true d' = Some kept ∧ (∀ n, n ∉ gone → d' !! n = d !! n) ∧
    sent `sublist_of` omap (return_in unmarshal d) gone ∧
    (∀ n ret, n ∈ gone → return_in unmarshal d n = Some ret →
       ret ∈ sent ∨ (maxSpoolAttempts ≤ S (default O (attempts r !! n)))%nat) ∧
    ((∀ k, dAnswer (env k) = Accepted) → kept = []).
Proof.
  intros Henv Hl Ht. destruct (drain_sends unmarshal env Henv turns l d s r [] Hl Ht) as (sent & d' & s' & r' & gone & kept & E & [H1 H2 H3 H4 H5] & H6).
  exists sent, d', s', r', gone, kept. split_and!; try done. intros n ret Hn Hr. specialize (H5 n Hn). by rewrite Hr in H5.
Qed.

(** Where a delivered entry cannot be removed the drain does not end: the head of
    the spool is delivered again in every turn. *)
Lemma unremovable_entry_is_sent_for_ever unmarshal env d n l body ret :
  names true d = Some (n :: l) → d !! n = Some (DFile body) → unmarshal body = Some ret →
  (∀ k, env k = mkDrainEnv true true Accepted true false) →
  ∀ turns s r sent, drain unmarshal turns env d s r sent = None.
Proof.
  intros Hl Hd Hu Henv turns. induction turns as [|turns IH]; intros s r sent; [done|].
  cbn [drain]. rewrite Henv. cbn [dListed dReadable dAnswer]. unfold drain_next. destruct (Next_first _ _ _ Hl) as (b & Hb & ->).
  rewrite Hd in Hb. injection Hb as <-. cbn [eBody]. rewrite Hu. cbn [drain_post]. unfold drain_remove, Remove, unlink. cbn. apply IH.
Qed.

(** ** The fleet that is reported *)

Lemma reported_ids o (f : wire_fleet) : list_to_set (filter (λ id, id ≠ oID o) (connected_ids f)) = dom (Connected f) ∖ {[oID o]} ∧
  NoDup (filter (λ id, id ≠ oID o) (connected_ids f)).
Proof.
  unfold connected_ids. split; [|apply NoDup_filter, NoDup_elements]. apply set_eq. intros x. rewrite elem_of_list_to_set, list_elem_of_filter, elem_of_difference.
  rewrite elem_of_elements. set_solver.
Qed.

(** A change of the fleet is seen.  The watch of a relay finds a change exactly
    when the nodes it can reach, itself aside, are not those it last reported. *)
Lemma fleet_change_is_seen o f r :
  fleetChanged o f r = true ↔ reported r ≠ dom (Connected f) ∖ {[oID o]}.
Proof.
  destruct (reported_ids o f) as [E Hnd]. rewrite <- E. unfold fleetChanged. set (ids := filter _ _) in *.
  pose proof (size_list_to_set (C := gset string) ids Hnd) as Hsize.
  rewrite orb_true_iff, negb_true_iff, bool_decide_eq_false, existsb_exists. split.
  - intros [(x & Hx%list_elem_of_In & Hn%negb_true_iff%bool_decide_eq_false)|Hn] Er; rewrite Er in Hn; [set_solver|]. by rewrite Hsize in Hn.
  - intros Hne. destruct (decide (Forall (λ id, id ∈ reported r) ids)) as [Hall|Hnot].
    + right. intros El. apply Hne. symmetry. apply set_subseteq_size_eq; [|lia]. rewrite Forall_forall in Hall. intros x Hx%elem_of_list_to_set. by apply Hall.
    + left. apply not_Forall_Exists, Exists_exists in Hnot as (x & Hx & Hr); [|apply _]. exists x. split; [by apply list_elem_of_In|]. by rewrite bool_decide_false.
Qed.

(** What was to be reported counts as reported although the upstream was not
    reached: the same fleet is not reported again. *)
Lemma failed_update_is_not_repeated o ok nc f r subs r' :
  watch_tick o ok nc f r = Some (Some subs, r') → watch_tick o ok nc f r' = Some (None, r').
Proof.
  unfold watch_tick. destruct (connected r) eqn:Ec; cbn; [|done]. destruct (fleetChanged o f r); cbn; [|done]. intros [= <- <-]. cbn. rewrite Ec. cbn.
  destruct (fleetChanged _ _ _) eqn:Ef; [|done]. exfalso. apply fleet_change_is_seen in Ef. cbn in Ef. by destruct (reported_ids o f) as [E _].
Qed.

(** ** Jobs passed down *)

(** A job that is passed down to one node is on record as the upstream's, for that
    node, so that its return is taken and forwarded. *)
Lemma passed_down_job_is_recorded o pick io now msg f c m ans f' jobs' :
  mT msg = MsgJob → mPayload msg = Some m → mNode msg ≠ "" → ID_Valid (mJID m) = true → can_write io = true →
  handle o pick io now msg f (Some c) = (ans, (f', jobs')) →
  ∃ c' j, jobs' = Some c' ∧ records c' !! mJID m = Some j ∧ Nodes j = [mNode msg] ∧ Submitter j = submitter o ∧ filed c' = filed c ∧
    (ans = None ↔ (Send pick (mNode msg) msg f).1 = true).
Proof.
  intros Ht Hm Hn Hv Hio. unfold handle. rewrite Ht. rewrite bool_decide_false, bool_decide_true by done.
  unfold dispatch. rewrite bool_decide_false by done. unfold record. rewrite Hm, Ht, bool_decide_true by done.
  assert (mJID m ≠ "") as Hne by (by intros E; rewrite E in Hv).
  rewrite (bool_decide_false (mJID m = "")) by done. cbn [negb orb]. unfold JobCache.Put, checkSchema. cbn [Schema forwarded_job].
  rewrite bool_decide_true by set_solver. cbn [JID with_schema forwarded_job]. rewrite Hv, Hio. cbn [negb snd].
  destruct (Send pick (mNode msg) msg f) as [del f1]. intros [= <- <- <-]. eexists _, _. split; [done|]. cbn [records filed].
  rewrite lookup_insert_eq. split_and!; [done..|]. destruct del; cbn; naive_solver.
Qed.

Definition relay_options : Options := mkOptions "relay1" 0 ["halite/job/**"].
Definition relay_jid : string := "20260819T142211023456".
Definition relay_job : NodeJobs.Message := mkMsg relay_jid "test.ping" [] [] "" "" "" "" "" "" "" "" "".
Definition to_relay (node : string) : wire_message := mkMessage MsgJob node "" false (Some relay_job).
Definition relay_fleet : wire_fleet := (attach "n2" 0 0 (attach "n1" 0 0 newFleet).2).2.
Definition relay_io : disk := mkDisk true true.
Definition relay_answer (node : string) : Return_ := mkReturn relay_jid node "test.ping" [] true 0 "true" "" "" 0 "" ReturnSchema 0.

(** A job of the upstream for two nodes of a relay arrives as two messages, and the
    record of the second replaces that of the first: the return of the first node
    is then refused, although it was sent the job. *)
Example second_forward_hides_the_first :
  let '(_, (f, jobs)) := handle relay_options true relay_io 0 (to_relay "n1") relay_fleet (Some (mkStore ∅ ∅)) in
  let first := match jobs with Some c => (AddReturn relay_io (relay_answer "n1") c).1 | None => inr false end in
  let '(ans, (f, jobs)) := handle relay_options true relay_io 0 (to_relay "n2") f jobs in
  let second := match jobs with Some c => (AddReturn relay_io (relay_answer "n1") c).1 | None => inr false end in
  first = inr true ∧ ans = None ∧ second = inl (ErrNotTargeted relay_jid "n1").
Proof. vm_compute. done. Qed.

(** ** Concrete drains *)

#[global] Instance return_eq_dec : EqDecision Return_.
Proof. solve_decision. Defined.

(** Two returns and their texts. *)
Definition toy_marshal (r : Return_) : option string :=
  if bool_decide (r = relay_answer "n1") then Some "{1}" else if bool_decide (r = relay_answer "n2") then Some "{2}" else None.
Definition toy_unmarshal (s : string) : option Return_ :=
  if bool_decide (s = "{1}") then Some (relay_answer "n1") else if bool_decide (s = "{2}") then Some (relay_answer "n2") else None.

Lemma toy_back r b : toy_marshal r = Some b → toy_unmarshal b = Some r.
Proof. unfold toy_marshal. intros H. repeat case_bool_decide; simplify_eq; done. Qed.
Lemma toy_reads r b : toy_marshal r = Some b → is_Some (toy_unmarshal b).
Proof. intros H. rewrite (toy_back _ _ H). by eexists. Qed.
Lemma toy_cut r b n : toy_marshal r = Some b → (n < String.length b)%nat → toy_unmarshal (stake n b) = None.
Proof.
  unfold toy_marshal. intros H Hn. repeat case_bool_decide; simplify_eq; destruct n as [|[|[|n]]]; try done; cbn in Hn; lia.
Qed.

Definition toy_dir : directory :=
  {[spool_name 5 2 0 := DFile "{2}"; spool_name 5 1 0 := DFile "{1}"; spool_name 4 9 0 := DFile "half"; "note.txt" := DFile "x"]}.
Definition toy_env (a : post_answer) : nat → drain_env := λ _, mkDrainEnv true true a true true.

Lemma drain_delivers_in_order_witness :
  names true toy_dir = Some [spool_name 4 9 0; spool_name 5 1 0; spool_name 5 2 0] ∧
  ∃ sent d' s' r' gone kept,
    drain toy_unmarshal 4 (toy_env Accepted) toy_dir (mkSpool 100 0 false 0 0) (mkRelay ∅ true ∅ (mkCounters 0 0 0 0 0 0)) [] =
      Some (sent, (d', (s', r'))) ∧ sent = [relay_answer "n1"; relay_answer "n2"] ∧
    [spool_name 4 9 0; spool_name 5 1 0; spool_name 5 2 0] = gone ++ kept ∧ kept = [].
Proof.
  assert (names true toy_dir = Some [spool_name 4 9 0; spool_name 5 1 0; spool_name 5 2 0]) as Hn by (vm_compute; reflexivity).
  assert (working (toy_env Accepted)) as Hw by (intros k; repeat split).
  split; [exact Hn|]. destruct (drain_delivers_in_order toy_unmarshal (toy_env Accepted) 4 toy_dir (mkSpool 100 0 false 0 0)
    (mkRelay ∅ true ∅ (mkCounters 0 0 0 0 0 0)) _ Hw Hn (le_n 4)) as (sent & d' & s' & r' & gone & kept & E & Hl & _ & _ & _ & _ & Hk).
  exists sent, d', s', r', gone, kept. split; [exact E|]. split; [|split; [exact Hl|by apply Hk]].
  clear -E. vm_compute in E. injection E as <- _ _ _. reflexivity.
Defined.
