(* ===== verification/RelayAccount.v ===== *)
(** * No return of a relay is lost without a name for it

    The invariants of the machine of [RelayRun].  [books] says where every return
    that was handed over is; [files] ties the names under which returns are kept
    to the directory and to what each drain holds. *)

From S2P Require Import Prelude GoLib GoTime Value Job JobCache JobSign NodeJobs Json HubFleet RelaySpool Relay RelayRun RelaySafe.

Open Scope Z_scope.

Section account.
Context (old : gset string) (o : Options) (marshal : Return_ → option string) (unmarshal : string → option Return_).

Definition under_way (x : option writer) : list (string * Return_) :=
  match x with Some x => [(wName x, wRet x)] | None => [] end.

(** Where a return is. *)
Record books (w : world) (h : history) : Prop := {
  b_taken : taken h ≡ₚ direct h ++ unencodable h ++ posting w ++ spooling w ++ lost h ++ (spooled h ++ under_way (writing w)).*2;
  b_sent : cSent (counts (relay w)) = length (direct h);
  b_lost : cDropped (counts (relay w)) = length (lost h);
  b_spooled : cSpooled (counts (relay w)) = length (spooled h) }.

(** What a drain reads back of a return: encoding/json writes bytes that are not
    UTF-8 as the replacement character and compacts an encoded body, so it may
    differ from the return. *)
Definition norm (ret : Return_) : Return_ := default ret (marshal ret ≫= unmarshal).

(** Why a spooled return may be out of the directory: the upstream accepted it,
    or refused it often enough, or it was read before it was written. *)
Definition gone_for (ups : list Return_) (rf : gmap string nat) (tn : gset string) (name : string) (ret : Return_) : Prop :=
  norm ret ∈ ups ∨ (maxSpoolAttempts ≤ default O (rf !! name))%nat ∨ name ∈ tn.

Definition drain_ok (us : gset string) (kept : list (string * Return_)) (gone : string → Return_ → Prop) (a : drain_at) : Prop :=
  match a with
  | Sending e ret => eName e ∈ old ∪ us ∧ ∀ ret', (eName e, ret') ∈ kept → ret = norm ret'
  | Removing e => eName e ∈ old ∪ us ∧ ∀ ret', (eName e, ret') ∈ kept → gone (eName e) ret'
  | _ => True
  end.

(** A kept return has its whole text in the directory once it is spooled, and a
    first part of it while it is written. *)
Definition file_ok (d : directory) (sp : list (string * Return_)) (gone : string → Return_ → Prop) (name : string) (ret : Return_) : Prop :=
  ∃ body, marshal ret = Some body ∧
    (d !! name = None ∧ gone name ret ∨
     ∃ n, d !! name = Some (DFile (stake n body)) ∧ ((name, ret) ∈ sp → (String.length body ≤ n)%nat)).

Record files_ (d : directory) (seq : Z) (x : option writer) (dr : gmap nat drain_pc) (att : gmap string nat)
    (sp : list (string * Return_)) (ups : list Return_) (rf : gmap string nat) (tn us : gset string) : Prop := {
  f_names : NoDup (sp ++ under_way x).*1;
  f_used : ∀ name, name ∈ (sp ++ under_way x).*1 → name ∈ us;
  f_seq : 0 ≤ seq;
  f_fresh : ∀ name, name ∈ us → name ∉ old ∧ ∃ n q k, name = spool_name n q k ∧ minInt64 ≤ n ≤ maxInt64 ∧ 0 ≤ q ≤ seq;
  f_dir : ∀ name, is_Some (d !! name) → name ∈ old ∪ us;
  f_body : ∀ name ret, (name, ret) ∈ sp ++ under_way x → file_ok d sp (gone_for ups rf tn) name ret;
  f_writer : ∀ y, x = Some y → marshal (wRet y) = Some (wBody y);
  f_drains : ∀ i a, dr !! i = Some (At a) → drain_ok us (sp ++ under_way x) (gone_for ups rf tn) a;
  f_attempts : ∀ name, (default O (att !! name) ≤ default O (rf !! name))%nat }.

Definition files (w : world) (h : history) : Prop :=
  files_ (dir w) (sSeq (spool w)) (writing w) (drains w) (attempts (relay w)) (spooled h) (up h) (refusals h) (torn h) (used h).

Lemma books_started d max : books (started d max) no_history.
Proof. by split. Qed.

Lemma files_started d max : dom d = old → files (started d max) no_history.
Proof.
  intros Hold. split; cbn; try done; try constructor; try (intros; set_solver).
  intros name Hd. apply elem_of_union_l. rewrite <- Hold. by apply elem_of_dom.
Qed.

(** ** The books *)

Lemma act_books a w h w' h' : books w h → act old o marshal unmarshal a w h = Some (w', h') → books w' h'.
Proof.
  intros [Hp H1 H2 H3] Hact. destruct a as [v|io jobs ret|k answer|k listed info now created|n|res|i|i listed readable|i answer|i st rm|i]; cbn [act] in Hact.
  - injection Hact as <- <-. by split.
  - destruct (forwarded _ _ _ _); [|by injection Hact as <- <-]. destruct (marshal ret);
      [|injection Hact as <- <-; split; cbn; try done; rewrite Hp; solve_Permutation].
    injection Hact as <- <-. destruct (connected _); split; cbn; try done; rewrite Hp; solve_Permutation.
  - destruct (posting w !! k) as [ret|] eqn:Ek; [|done]. apply delete_Permutation in Ek. rewrite Ek in Hp. cbn in Hact.
    destruct answer; injection Hact as <- <-; split; cbn; rewrite ?length_app; cbn; try lia; rewrite Hp; solve_Permutation.
  - destruct (writing w) eqn:Ew; [done|]. destruct (spooling w !! k) as [ret|] eqn:Ek; [|done]. apply delete_Permutation in Ek. rewrite Ek in Hp.
    cbn in Hact. destruct (marshal ret) as [body|]; [|done]. cbn in Hact, Hp. destruct (put_open _ _ _ _ _ _) as [[e|name] s].
    + injection Hact as <- <-. split; cbn; rewrite ?length_app, ?Ew; cbn; try lia. rewrite Hp. solve_Permutation.
    + destruct (_ || _); [done|]. destruct created; injection Hact as <- <-; split; cbn; rewrite ?length_app, ?Ew; cbn; try lia; rewrite Hp;
        rewrite ?fmap_app; cbn; solve_Permutation.
  - destruct (writing w) eqn:Ew; [|done]. injection Hact as <- <-. split; cbn; by rewrite ?Ew.
  - destruct (writing w) as [x|] eqn:Ew; [|done]. cbn in Hact, Hp. destruct (put_close _ _ _) as [e s].
    destruct res; injection Hact as <- <-; split; cbn; rewrite ?length_app; cbn; try lia; rewrite Hp, ?fmap_app; cbn; solve_Permutation.
  - destruct (drains w !! i); [done|]. by injection Hact as <- <-.
  - destruct (drains w !! i) as [[[]|]|]; try done. injection Hact as <- <-.
    destruct (drain_next _ _ _ _), (writing w) eqn:Ew; try case_bool_decide; split; cbn; by rewrite ?Ew.
  - destruct (drains w !! i) as [[[| e ret| |]|]|]; try done. destruct (drain_post answer e (relay w)) as [a r] eqn:Ep. injection Hact as <- <-.
    assert (cSent (counts r) = cSent (counts (relay w)) ∧ cDropped (counts r) = cDropped (counts (relay w)) ∧ cSpooled (counts r) = cSpooled (counts (relay w)))
      as (E1 & E2 & E3) by (unfold drain_post, attempt in Ep; repeat case_match; by simplify_eq).
    destruct answer; split; cbn; congruence.
  - destruct (drains w !! i) as [[[| | e |]|]|]; try done. destruct (unlink _ _ _); injection Hact as <- <-; by split.
  - destruct (drains w !! i) as [[|size]|], (writing w) eqn:Ew; try done. injection Hact as <- <-. split; cbn; by rewrite ?Ew.
Qed.

(** ** The files *)

(** What encoding/json promises: what is marshalled is an object it reads, and a
    proper first part of an object is none. *)
Context (Hback : ∀ r b, marshal r = Some b → is_Some (unmarshal b)).
Context (Hcut : ∀ r b n, marshal r = Some b → (n < String.length b)%nat → unmarshal (stake n b) = None).

Lemma norm_back r b : marshal r = Some b → unmarshal b = Some (norm r).
Proof. intros Hm. unfold norm. rewrite Hm. cbn. destruct (Hback _ _ Hm) as [x Hx]. by rewrite Hx. Qed.

Lemma gone_for_mono ups rf tn ups' rf' tn' name ret :
  (∀ r, r ∈ ups → r ∈ ups') → (∀ n, (default O (rf !! n) ≤ default O (rf' !! n))%nat) → tn ⊆ tn' →
  gone_for ups rf tn name ret → gone_for ups' rf' tn' name ret.
Proof. intros H1 H2 H3 [H|[H|H]]; [left; auto|right; left|right; right; set_solver]. specialize (H2 name). lia. Qed.

Lemma file_ok_mono d sp (g g' : string → Return_ → Prop) name ret :
  (∀ n r, g n r → g' n r) → file_ok d sp g name ret → file_ok d sp g' name ret.
Proof. intros Hg (body & Hm & [[Hd Hgo]|Hf]); exists body; (split; [done|]); [left; auto|by right]. Qed.

Lemma drain_ok_mono us kept (g g' : string → Return_ → Prop) a :
  (∀ n r, g n r → g' n r) → drain_ok us kept g a → drain_ok us kept g' a.
Proof. intros Hg. destruct a; cbn; try done. intros [Hu Ha]. split; [done|]. auto. Qed.

(** The history grows, one drain moves. *)
Lemma files_drain d seq x dr att att' sp ups ups' rf rf' tn tn' us i pc :
  files_ d seq x dr att sp ups rf tn us →
  (∀ r, r ∈ ups → r ∈ ups') → (∀ n, (default O (rf !! n) ≤ default O (rf' !! n))%nat) → tn ⊆ tn' →
  (∀ n, (default O (att' !! n) ≤ default O (rf' !! n))%nat) →
  (∀ a, pc = At a → drain_ok us (sp ++ under_way x) (gone_for ups' rf' tn') a) →
  files_ d seq x (<[i := pc]> dr) att' sp ups' rf' tn' us.
Proof.
  intros [H1 H2 H3 H4 H5 H6 H7 H8 H9] Hu Hr Ht Ha Hpc.
  assert (∀ n r, gone_for ups rf tn n r → gone_for ups' rf' tn' n r) as Hg by (intros n r; by apply gone_for_mono).
  split; try done.
  - intros name ret Hk. eapply file_ok_mono; [exact Hg|]. by apply H6.
  - intros j a Hj. apply lookup_insert_Some in Hj as [[-> Hj]|[_ Hj]]; [by apply Hpc|]. eapply drain_ok_mono; [exact Hg|]. by eapply H8.
Qed.

Lemma whole_text body n : (String.length body ≤ n)%nat → stake n body = body.
Proof. apply stake_all. Qed.

Lemma look_ok d seq x dr att sp ups rf tn us listed readable :
  files_ d seq x dr att sp ups rf tn us →
  let a := drain_next unmarshal listed readable d in
  drain_ok us (sp ++ under_way x)
    (gone_for ups rf (match a, x with Removing e, Some y => if bool_decide (eName e = wName y) then {[eName e]} ∪ tn else tn | _, _ => tn end)) a.
Proof.
  intros [H1 H2 H3 H4 H5 H6 H7 H8 H9]. cbn zeta. unfold drain_next. destruct (Next listed readable d) as [|[e|]] eqn:En; [done| |done].
  apply Next_reads in En. assert (eName e ∈ old ∪ us) as Hu by (apply H5; by rewrite En).
  assert (∀ ret', (eName e, ret') ∈ sp ++ under_way x → ∃ body n, marshal ret' = Some body ∧ eBody e = stake n body ∧
    ((eName e, ret') ∈ sp → (String.length body ≤ n)%nat)) as Hread.
  { intros ret' Hk. destruct (H6 _ _ Hk) as (body & Hm & [[Hd _]|(n & Hd & Hn)]); [congruence|]. rewrite En in Hd. injection Hd as Hd. by exists body, n. }
  destruct (unmarshal (eBody e)) as [ret|] eqn:Eu; split; try done; intros ret' Hk; destruct (Hread _ Hk) as (body & n & Hm & Hb & Hn).
  - destruct (decide (n < String.length body)%nat) as [Hlt|Hge]; [by rewrite Hb, (Hcut _ _ _ Hm Hlt) in Eu|].
    rewrite Hb, whole_text, (norm_back _ _ Hm) in Eu by lia. by injection Eu.
  - apply elem_of_app in Hk as [Hk|Hk].
    + by rewrite Hb, whole_text, (norm_back _ _ Hm) in Eu by auto.
    + destruct x as [y|]; [|by apply elem_of_nil in Hk]. apply list_elem_of_singleton in Hk as [= Hn' _]. rewrite bool_decide_true by done.
      right. right. set_solver.
Qed.

Lemma files_look i listed readable w h w' h' : files w h → act old o marshal unmarshal (Look i listed readable) w h = Some (w', h') → files w' h'.
Proof.
  intros Hf Hact. cbn [act] in Hact. destruct (drains w !! i) as [[[]|]|]; try done. injection Hact as <- <-.
  pose proof (look_ok _ _ _ _ _ _ _ _ _ _ listed readable Hf) as Hok. cbn zeta in Hok. unfold files in *. cbn [dir spool writing drains relay set_drain].
  eapply (files_drain _ _ _ _ _ _ _ _ (up h) _ (refusals h) _ _ _ i (At _)) in Hf; [|done|done| |apply Hf|intros a [= <-]; exact Hok].
  - by destruct (drain_next _ _ _ _), (writing w); try case_bool_decide.
  - destruct (drain_next _ _ _ _), (writing w); try case_bool_decide; set_solver.
Qed.

Lemma files_answer i answer w h w' h' : files w h → act old o marshal unmarshal (Answer i answer) w h = Some (w', h') → files w' h'.
Proof.
  intros Hf Hact. cbn [act] in Hact. destruct (drains w !! i) as [[[|e ret| |]|]|] eqn:Ei; try done.
  destruct (drain_post answer e (relay w)) as [a r] eqn:Ep. injection Hact as <- <-.
  pose proof (f_drains _ _ _ _ _ _ _ _ _ _ Hf i _ Ei) as [Hu Hret]. pose proof (f_attempts _ _ _ _ _ _ _ _ _ _ Hf) as Hatt.
  unfold files. cbn [dir spool writing drains relay set_drain set_relay]. unfold drain_post in Ep. destruct answer.
  - injection Ep as <- <-. cbn. eapply files_drain; [exact Hf|set_solver|done|done| |].
    + intros n. specialize (Hatt n). destruct (decide (n = eName e)) as [->|Hn]; [rewrite lookup_delete_eq; cbn; lia|by rewrite lookup_delete_ne].
    + intros a [= <-]. split; [done|]. intros ret' Hk. left. rewrite <- (Hret _ Hk). set_solver.
  - unfold attempt in Ep. assert (∀ n, (default O (refusals h !! n) ≤ default O (<[eName e := S (default O (refusals h !! eName e))]> (refusals h) !! n))%nat) as Hr.
    { intros n. destruct (decide (n = eName e)) as [->|Hn]; [rewrite lookup_insert_eq; cbn; lia|by rewrite lookup_insert_ne]. }
    case_match eqn:En; injection Ep as <- <-; cbn; eapply files_drain; try exact Hf; try done.
    + intros n. destruct (decide (n = eName e)) as [->|Hn]; [rewrite !lookup_insert_eq; cbn; specialize (Hatt (eName e)); lia|rewrite !lookup_insert_ne by done; apply Hatt].
    + by intros a [= <-].
    + intros n. specialize (Hatt n). specialize (Hr n). destruct (decide (n = eName e)) as [->|Hn]; [rewrite lookup_delete_eq; cbn; lia|].
      rewrite lookup_delete_ne, lookup_insert_ne by done. lia.
    + intros a [= <-]. split; [done|]. intros ret' _. right. left. rewrite lookup_insert_eq. cbn [default from_option].
      apply Nat.ltb_ge in En. specialize (Hatt (eName e)). unfold default, from_option, id in *. lia.
  - injection Ep as <- <-. eapply files_drain; try exact Hf; try done. by intros a [= <-].
Qed.

Lemma put_open_name listed info body now d s r s' :
  put_open listed info body now d s = (r, s') →
  match r with
  | inl _ => sSeq s' = sSeq s
  | inr name => sSeq s' = (sSeq s + 1) mod 2 ^ 64 ∧ ∃ k, name = spool_name (UnixNano now) (sSeq s') k
  end.
Proof.
  unfold put_open, measure. intros H. destruct (sMeasured s), listed; cbn in H; repeat case_match; simplify_eq/=; try done; (split; [done|by eexists]).
Qed.

(** A number that was not used makes a name that was not. *)
Lemma next_name_fresh d seq x dr att sp ups rf tn us now k :
  files_ d seq x dr att sp ups rf tn us → spool_name (UnixNano now) (seq + 1) k ∉ us.
Proof.
  intros Hf Hin. destruct (f_fresh _ _ _ _ _ _ _ _ _ _ Hf _ Hin) as (_ & n & q & k' & E & Hn & Hq). pose proof (f_seq _ _ _ _ _ _ _ _ _ _ Hf).
  apply spool_name_inj in E; [lia|apply wrap64_range|done|lia|lia].
Qed.

Lemma files_seq d seq x dr att sp ups rf tn us :
  files_ d seq x dr att sp ups rf tn us → files_ d (seq + 1) x dr att sp ups rf tn us.
Proof.
  intros [H1 H2 H3 H4 H5 H6 H7 H8 H9]. split; try done; [lia|]. intros name Hn.
  destruct (H4 _ Hn) as (Ho & n & q & k & -> & Hr & Hq). split; [done|]. exists n, q, k. split_and!; [done|lia..].
Qed.

Lemma files_open d seq dr att sp ups rf tn us now k ret body :
  let name := spool_name (UnixNano now) (seq + 1) k in
  name ∉ old → marshal ret = Some body → files_ d seq None dr att sp ups rf tn us →
  files_ (<[name := DFile EmptyString]> d) (seq + 1) (Some (mkWriter name ret body)) dr att sp ups rf tn ({[name]} ∪ us).
Proof.
  intros name Hold Hm Hf. pose proof (next_name_fresh _ _ _ _ _ _ _ _ _ _ now k Hf) as Hnew. fold name in Hnew.
  destruct Hf as [H1 H2 H3 H4 H5 H6 H7 H8 H9]. cbn [under_way] in *. rewrite app_nil_r in *.
  assert (∀ ret', (name, ret') ∉ sp) as Hsp by (intros ret' Hk; apply Hnew, H2, list_elem_of_fmap; by exists (name, ret')).
  split; cbn [under_way wName wRet]; try done; try lia.
  - rewrite fmap_app. apply NoDup_app. split_and!; [done| |apply NoDup_singleton]. intros m Hm1 Hm2%list_elem_of_singleton. subst m. apply Hnew. by apply H2.
  - intros m. rewrite fmap_app, elem_of_app. cbn. set_solver.
  - intros m [->%elem_of_singleton|Hu]%elem_of_union.
    + split; [done|]. exists (UnixNano now), (seq + 1), k. split_and!; [done|apply wrap64_range..|lia|lia].
    + destruct (H4 _ Hu) as (Ho & n & q & k' & -> & Hr & Hq). split; [done|]. exists n, q, k'. split_and!; [done|lia..].
  - intros m Hs. destruct (decide (m = name)) as [->|Hne]; [set_solver|]. rewrite lookup_insert_ne in Hs by done. apply H5 in Hs. set_solver.
  - intros m ret' Hk. apply elem_of_app in Hk as [Hk|[= -> ->]%list_elem_of_singleton].
    + destruct (H6 m ret' Hk) as (b & Hb & Hcase). exists b. split; [done|]. rewrite lookup_insert_ne; [done|]. intros <-. by apply (Hsp ret').
    + exists body. split; [done|]. right. exists O. rewrite lookup_insert_eq. split; [by destruct body|]. intros Hk. by apply Hsp in Hk.
  - intros y [= <-]. done.
  - intros i a Ha. specialize (H8 i a Ha). destruct a as [|e r|e|]; cbn in *; try done; destruct H8 as [Hu Hall]; (split; [set_solver|]);
      intros ret' [Hk|[= He ->]%list_elem_of_singleton]%elem_of_app; try (by apply Hall); exfalso; rewrite He in Hu; set_solver.
Qed.

Lemma act_open_files k listed info now created w h w' h' :
  files w h → act old o marshal unmarshal (Open_ k listed info now created) w h = Some (w', h') → files w' h'.
Proof.
  intros Hf Hact. cbn [act] in Hact. destruct (writing w) eqn:Ew; [done|]. destruct (spooling w !! k) as [ret|]; [|done]. cbn in Hact.
  destruct (marshal ret) as [body|] eqn:Em; [|done]. cbn in Hact. destruct (put_open _ _ _ _ _ _) as [r s] eqn:Ep.
  apply put_open_name in Ep. pose proof (f_seq _ _ _ _ _ _ _ _ _ _ Hf) as Hseq. destruct r as [e|name].
  - injection Hact as <- <-. unfold files in *. cbn. rewrite Ep, Ew in *. exact Hf.
  - destruct Ep as [Es [q Eq]]. destruct (bool_decide _ || _) eqn:Eg; [done|]. apply orb_false_iff in Eg as [Ho%bool_decide_eq_false Hs%Z.leb_gt].
    rewrite Z.mod_small in Es by (cbn in Hs; lia). rewrite Es in Eq. subst name. unfold files in Hf. rewrite Ew in Hf.
    destruct created; injection Hact as <- <-; unfold files; cbn; rewrite Es, ?Ew; [by apply files_open|by apply files_seq].
Qed.

Lemma named_once {A} (l : list (string * A)) k a b : NoDup l.*1 → (k, a) ∈ l → (k, b) ∈ l → a = b.
Proof.
  induction l as [|[k' c] l IH]; cbn; [by intros _ ?%elem_of_nil|]. intros [Hk Hl]%NoDup_cons Ha Hb.
  rewrite elem_of_cons in Ha, Hb. destruct Ha as [Ha|Ha], Hb as [Hb|Hb]; simplify_eq; [done|exfalso|exfalso|by apply IH];
    apply Hk, list_elem_of_fmap; by eexists (_, _).
Qed.

Lemma grow_ne n x d name : name ≠ wName x → grow n x d !! name = d !! name.
Proof. intros Hne. unfold grow. destruct (d !! wName x); [by rewrite lookup_insert_ne|done]. Qed.
Lemma grow_some n x d name : is_Some (grow n x d !! name) ↔ is_Some (d !! name).
Proof.
  unfold grow. destruct (d !! wName x) eqn:E; [|done]. destruct (decide (name = wName x)) as [->|Hn]; [|by rewrite lookup_insert_ne].
  rewrite lookup_insert_eq, E. split; intros; by eexists.
Qed.

(** While it is written the file holds a first part of the text, and its whole
    when it is closed. *)
Lemma files_grow n y d seq dr att sp sp' x' ups rf tn us :
  sp ++ under_way (Some y) = sp' ++ under_way x' → x' = Some y ∨ x' = None ∧ (String.length (wBody y) ≤ n)%nat →
  files_ d seq (Some y) dr att sp ups rf tn us → files_ (grow n y d) seq x' dr att sp' ups rf tn us.
Proof.
  intros Esp Hx [H1 H2 H3 H4 H5 H6 H7 H8 H9]. rewrite Esp in *. split; try done.
  - intros name Hs. apply H5. by rewrite grow_some in Hs.
  - assert ((wName y, wRet y) ∈ sp' ++ under_way x') as Hy by (rewrite <- Esp; apply elem_of_app; right; by apply list_elem_of_singleton).
    intros name ret Hk. destruct (H6 name ret Hk) as (body & Hm & Hcase). exists body. split; [done|].
    destruct (decide (name = wName y)) as [->|Hne].
    + assert (ret = wRet y) as ->.
      { by eapply named_once. }
      rewrite (H7 y eq_refl) in Hm. injection Hm as <-. unfold grow.
      destruct Hcase as [[Hd Hg]|(m & Hd & Hmn)]; rewrite Hd; [left; done|right; exists n].
      rewrite lookup_insert_eq. split; [done|]. intros Hin. destruct Hx as [->|[-> Hn]]; [|done]. exfalso.
      cbn [under_way] in H1. rewrite fmap_app in H1. apply NoDup_app in H1 as (_ & H1 & _). eapply H1; [|by apply list_elem_of_singleton].
      apply list_elem_of_fmap. by exists (wName y, wRet y).
    + rewrite grow_ne by done. destruct Hcase as [?|(m & Hd & Hmn)]; [by left|right]. exists m. split; [done|]. intros Hin. apply Hmn.
      assert ((name, ret) ∈ sp ++ under_way (Some y)) as Hin' by (rewrite Esp; apply elem_of_app; by left).
      cbn [under_way] in Hin'. apply elem_of_app in Hin' as [?|[= ? _]%list_elem_of_singleton]; done.
  - intros z ->. destruct Hx as [[= ->]|[? _]]; [by apply H7|done].
Qed.

Lemma files_close_failing y d seq dr att sp ups rf tn us :
  files_ d seq (Some y) dr att sp ups rf tn us → files_ d seq None dr att sp ups rf tn us.
Proof.
  intros [H1 H2 H3 H4 H5 H6 H7 H8 H9]. cbn [under_way] in *.
  assert (∀ p, p ∈ sp ++ [] → p ∈ sp ++ [(wName y, wRet y)]) as Hsub by (intros p; rewrite !elem_of_app, elem_of_nil; naive_solver).
  split; cbn [under_way]; try done.
  - rewrite app_nil_r. rewrite fmap_app in H1. by apply NoDup_app in H1 as [? _].
  - intros name. rewrite app_nil_r. intros Hn. apply H2. rewrite fmap_app. apply elem_of_app. by left.
  - intros name ret Hk. by apply H6, Hsub.
  - intros i a Ha. specialize (H8 i a Ha). destruct a; cbn in *; try done; destruct H8 as [Hu Hall]; (split; [done|]); intros ret' Hk; by apply Hall, Hsub.
Qed.

Lemma files_close res w h w' h' : files w h → act old o marshal unmarshal (Close res) w h = Some (w', h') → files w' h'.
Proof.
  intros Hf Hact. cbn [act] in Hact. destruct (writing w) as [y|] eqn:Ew; [|done]. cbn in Hact. unfold files in Hf. rewrite Ew in Hf.
  destruct res as [|left]; injection Hact as <- <-; unfold files; cbn.
  - eapply files_grow; [| |exact Hf]; [cbn; by rewrite app_nil_r|by right].
  - by eapply files_close_failing.
Qed.

Lemma files_unlink i st rm w h w' h' : files w h → act old o marshal unmarshal (Unlink i st rm) w h = Some (w', h') → files w' h'.
Proof.
  intros Hf Hact. cbn [act] in Hact. destruct (drains w !! i) as [[[| |e|]|]|] eqn:Ei; try done.
  pose proof (f_drains _ _ _ _ _ _ _ _ _ _ Hf i _ Ei) as [_ Hgone]. unfold unlink in Hact. destruct (rm && _).
  - injection Hact as <- <-. unfold files. cbn. assert (files_ (delete (eName e) (dir w)) (sSeq (spool w)) (writing w) (drains w) (attempts (relay w))
      (spooled h) (up h) (refusals h) (torn h) (used h)) as Hd.
    { destruct Hf as [H1 H2 H3 H4 H5 H6 H7 H8 H9]. split; try done.
      - intros name Hs. apply H5. destruct (decide (name = eName e)) as [->|Hn]; [rewrite lookup_delete_eq in Hs; by destruct Hs|by rewrite lookup_delete_ne in Hs].
      - intros name ret Hk. destruct (H6 _ _ Hk) as (body & Hm & Hcase). exists body. split; [done|].
        destruct (decide (name = eName e)) as [->|Hn]; [left; rewrite lookup_delete_eq; auto|by rewrite lookup_delete_ne]. }
    eapply files_drain; [exact Hd|done|done|done|apply Hd|done].
  - injection Hact as <- <-. eapply files_drain; [exact Hf|done|done|done|apply Hf|by intros a [= <-]].
Qed.

Lemma act_files a w h w' h' : files w h → act old o marshal unmarshal a w h = Some (w', h') → files w' h'.
Proof.
  intros Hf Hact. destruct a as [v|io jobs ret|k answer|k listed info now created|n|res|i|i listed readable|i answer|i st rm|i].
  - injection Hact as <- <-. exact Hf.
  - cbn [act] in Hact. destruct (forwarded _ _ _ _), (marshal ret); injection Hact as <- <-; try exact Hf. destruct (connected _); exact Hf.
  - cbn [act] in Hact. destruct (posting w !! k); [|done]. destruct answer; injection Hact as <- <-; exact Hf.
  - by eapply act_open_files.
  - cbn [act] in Hact. destruct (writing w) as [y|] eqn:Ew; [|done]. injection Hact as <- <-. unfold files in *. cbn. rewrite Ew in *.
    eapply files_grow; [done|by left|exact Hf].
  - by eapply files_close.
  - cbn [act] in Hact. destruct (drains w !! i); [done|]. injection Hact as <- <-. eapply files_drain; [exact Hf|done|done|done|apply Hf|by intros a [= <-]].
  - by eapply files_look.
  - by eapply files_answer.
  - by eapply files_unlink.
  - cbn [act] in Hact. destruct (drains w !! i) as [[|size]|], (writing w) eqn:Ew; try done. injection Hact as <- <-. unfold files in *. cbn. rewrite Ew in *.
    assert (sSeq (uncount size (spool w)) = sSeq (spool w)) as -> by (by destruct size).
    eapply files_drain; [exact Hf|done|done|done|apply Hf|by intros a [= <-]].
Qed.

Lemma acts_keep l w h w' h' : books w h → files w h → acts old o marshal unmarshal l w h = Some (w', h') → books w' h' ∧ files w' h'.
Proof.
  revert w h. induction l as [|a l IH]; intros w h Hb Hf Hl; cbn [acts] in Hl; [by simplify_eq|].
  destruct (act _ _ _ _ a w h) as [[w1 h1]|] eqn:Ea; [|done]. cbn in Hl. eapply IH; [| |exact Hl]; [by eapply act_books|by eapply act_files].
Qed.
End account.


(** ** Concrete runs *)

(** A job of the upstream for both nodes, on record at the relay. *)
Definition toy_jobs : option store :=
  Some (mkStore {[relay_jid := forwarded_job relay_options 0 relay_job ["n1"; "n2"]]} ∅).
Definition toy_now : Z := Date_utc 2026 8 19 14 22 11 0.
Definition fine_info : string → bool := λ _, true.

(** One return is spooled and drained, the other is posted. *)
Definition toy_run : list action :=
  [Hand relay_io toy_jobs (relay_answer "n1"); Open_ 0 true fine_info toy_now true; Grow 2; Close Written;
   Connect true; Hand relay_io toy_jobs (relay_answer "n2"); Drain 0; Look 0 true true; Posted 0 Accepted;
   Answer 0 Accepted; Unlink 0 true true; Uncount 0; Look 0 true true].
(** The drain looks while the return is written. *)
Definition torn_run : list action :=
  [Hand relay_io toy_jobs (relay_answer "n1"); Drain 0; Open_ 0 true fine_info toy_now true; Grow 2; Look 0 true true;
   Unlink 0 true true; Close Written; Uncount 0; Look 0 true true].


(** The file of a return is written in place and Next takes no lock: a drain that
    reads it half written takes it for something that is not a return and removes
    it.  The relay counts the return as spooled, and it is gone. *)
Example half_written_return_is_discarded :
  match acts (dom (∅ : directory)) relay_options toy_marshal toy_unmarshal torn_run (started ∅ 100) no_history with
  | Some (w, h) =>
      (spooled h).*2 = [relay_answer "n1"] ∧ cSpooled (counts (relay w)) = 1%nat ∧ dir w = ∅ ∧ up h = [] ∧ lost h = [] ∧ direct h = [] ∧ refusals h = ∅
  | None => False
  end.
Proof. vm_compute. by split_and!. Qed.
